(* ===== verification/_CoqProject ===== *)
-Q . S2P
Prelude.v
Utf8.v
Bytes.v
Buf.v
LengthDelimited.v
Lines.v
Huffman.v
Hpack.v
HpackThms.v
Gf256.v
TokenSlab.v
Mpsc.v
Slab.v
Links.v
WaiterChain.v
Waits.v
Mutex.v
RwLock.v
RwLockThms.v
Semaphore.v
Oneshot.v
Ids.v
Heap.v
Wheel.v
WheelInv.v
WheelTime.v
WheelOps.v
WheelThms.v
Clocks.v
Atomic.v
CircuitBreaker.v
CircuitBreakerThms.v
Arena.v
Broadcast.v
Notify.v
NotifyThms.v
Budget.v
Curves.v
Cancel.v
Outcome.v
Cx.v
Task.v
Wake.v
IntrusiveHeap.v
RegionHeap.v
Region.v
Obligation.v
Trace.v
Foata.v
ScheduledSet.v
Priority.v
PriorityThms.v
GlobalQueue.v
Injector.v
InjectorThms.v
LocalQueue.v
ThreeLane.v
ThreeLaneTrace.v
ThreeLaneThms.v
TaskTable.v
RegionTable.v
Runtime.v
RuntimeInv.v
RuntimeOps.v
RuntimeResolve.v
RuntimeCancel.v
RuntimeFinal.v
RuntimeThms.v
