(* ===== verification/Prelude.v ===== *)
(** * Asupersync: a verification library

    Asupersync ([src/]) is an asynchronous runtime with structured concurrency:
    tasks belong to regions, regions form a tree and close only when everything
    in them has finished, cancellation is a protocol (request, acknowledge,
    clean up, finalize), effects that must be resolved are obligations, and
    execution is deterministic enough to be replayed.  This library models the
    parts of the crate listed below as Rocq functions and proves what makes each
    of them correct.

    ** Conventions

    Pure functions are functions; a method that takes [&mut self] returns the new
    value; a critical section under a lock, or a single atomic access where the
    code relies on atomics, is one step; tasks and wakers are numbers, and the
    wakers an operation wakes are part of its result.  Unsigned integers are [N]
    with saturation, wrapping and checks written out at their width (release
    profile: no overflow checks, no [debug_assert!]).  [exec] is a computation
    that may panic, [run] one that may also run out of fuel, [result] is Rust's
    [Result].  Logging, tracing spans, metrics and [Debug]/[Display] glue are left
    out everywhere, since no decision depends on them.

    ** Parts

    - The runtime core.  [Ids] ([types/id.rs]), [Arena] ([util/arena.rs]),
      [Budget] and [Curves] ([types/budget.rs]), [Cancel] ([types/cancel.rs]),
      [Outcome] ([types/outcome.rs], [types/policy.rs]), [Cx]
      ([types/task_context.rs], [cx/cx.rs]), [Task] ([record/task.rs]),
      [RegionHeap] ([runtime/region_heap.rs]), [Region] ([record/region.rs],
      [record/finalizer.rs]), [Obligation] ([record/obligation.rs],
      [runtime/obligation_table.rs]), [TaskTable] ([runtime/task_table.rs],
      [util/pool.rs]), [RegionTable] ([runtime/region_table.rs]) and, composing
      them, [Runtime] ([runtime/state.rs]): creation of regions and tasks,
      obligations, cancellation of a tree, completion, finalizers and the state
      machine that closes regions bottom-up.  [RuntimeInv], [RuntimeOps],
      [RuntimeResolve], [RuntimeCancel] and [RuntimeFinal] prove the invariant
      operation by operation; [RuntimeThms] draws the guarantees for every
      sequence of operations.
    - Scheduling.  [Wake] (the wake state of [record/task.rs] between
      [runtime/scheduler/worker.rs] and its wakers, all interleavings),
      [IntrusiveHeap] ([runtime/scheduler/intrusive_heap.rs], over the task
      arena), [ScheduledSet] and [Priority] (the set of scheduled tasks and the
      three-lane scheduler of [runtime/scheduler/priority.rs]); [PriorityThms]
      has the theorems of the latter.  [Heap] is [std]'s [BinaryHeap] over a
      total comparison, shared with the timer wheel.  [GlobalQueue]
      ([runtime/scheduler/global_queue.rs]): the counted queue of the global lanes
      over a concurrent FIFO, a library, whose interface is the class [Fifo] with
      its laws and an instance; [Injector] and [InjectorThms]
      ([runtime/scheduler/global_injector.rs]): the global lanes and the combiner
      of ready injections, all interleavings of the atomic accesses of producers
      and workers; [LocalQueue] ([runtime/scheduler/local_queue.rs],
      [runtime/scheduler/stealing.rs]): the queues workers steal from; [ThreeLane],
      [ThreeLaneTrace] and [ThreeLaneThms] ([runtime/scheduler/three_lane.rs]): how a
      worker chooses its next task among all of these, under any interference of other
      threads, and from which lane it came.
    - Time.  [Wheel] ([time/wheel.rs]); [WheelInv], [WheelTime], [WheelOps] carry
      its invariant, [WheelThms] its contract.  The live timers are kept in a
      [slab::Slab], a library: [Slab] is its interface with the laws the wheel
      relies on and an instance that meets them.
    - Synchronisation.  [Links] (doubly linked lists threaded through a slab, the
      shape all waiter queues share), [WaiterChain] ([sync/waiter.rs]),
      [Waits] (what the lock futures have in common), [Mutex] ([sync/mutex.rs]),
      [RwLock] and [RwLockThms] ([sync/rwlock.rs]) and [Semaphore]
      ([sync/semaphore.rs]), all interleavings of their critical sections; [Notify]
      and [NotifyThms] ([sync/notify.rs]), all interleavings of the accesses to the
      lock and to the atomics beside it.
    - Communication.  [Mpsc] ([channel/mpsc.rs]), [Oneshot]
      ([channel/oneshot.rs]) and [Broadcast] ([channel/broadcast.rs]), all
      interleavings of their critical sections; [TokenSlab] ([runtime/reactor/token.rs]).
    - Combinators.  [CircuitBreaker] and [CircuitBreakerThms]
      ([combinator/circuit_breaker.rs]): a breaker whose state is one packed
      atomic word, all interleavings of the atomic accesses and critical sections
      of its callers.  [Atomic] is the form such programs have and the invariant
      argument for a pool of them.
    - Traces.  [Clocks] ([trace/distributed/vclock.rs]): Lamport, vector and
      hybrid clocks; [Trace] ([trace/event.rs], [trace/independence.rs],
      [util/det_hash.rs]): events and their independence; [Foata] ([trace/canonicalize.rs]): the normal form
      of a trace up to commutation of independent events.
    - Bytes.  [Bytes] ([bytes/bytes_mut.rs], [bytes/bytes.rs]), [Buf]
      ([bytes/buf/]), [LengthDelimited] ([codec/length_delimited.rs]) and [Lines]
      ([codec/lines.rs]) on top of them; [Utf8], the check of the standard
      library that a string is well formed.  [Huffman], [Hpack] and [HpackThms]
      ([http/h2/hpack.rs]): the header compression of HTTP/2.  [Gf256]
      ([raptorq/gf256.rs]), the field arithmetic of the erasure code.

    ** What the theorems show

    The runtime: in every reachable state the tables agree and the regions form a
    forest; a closed region stays quiescent; every operation returns and panics
    only for named reasons; a cancellation request covers exactly the subtree and
    its reasons chain; completion retires a task with its obligations; a closing
    region always waits for a task that is not retired or, when its body ended
    without a cancellation, for an open region below it.  The records underneath:
    arenas, slabs and heaps refine finite maps and never reissue an index;
    obligations resolve at most once; the cached counters of the tables are
    exact; budgets form a meet semilattice; checkpoints decide as their locked
    version does; no wake is lost and a task is polled by one worker at a time.
    The heap of the scheduler is a stable priority queue, the set of scheduled
    tasks is a set, and the three-lane scheduler loses no task, dispatches by
    lane, deadline and priority and hands the best ready tasks to a thief.  On the
    way through the global queue no task is lost or duplicated and its counts are
    exact when all threads are done; local queues are lists of distinct tasks; a
    worker that sees work which is not cancelled dispatches some within the limit
    its fairness contract states, its certificate is sound, and timed and stolen
    work keep their limits.  The timer wheel is a flat map of timers, whatever cascades and skips happen
    inside.  Locks exclude, semaphores conserve permits, and in all of the
    primitives and channels no wake-up is lost and waiters are served in order,
    under the conditions each theorem states; a read-write lock counts exactly
    its guards and pending hand-overs; every notification is stored, held, spent or
    covered by a broadcast, and no waiter is passed over for ever; a oneshot value is delivered exactly
    once.  A circuit breaker admits no more probes than configured, rejects while
    open, and recovers.  Clocks respect causality and vector
    clocks decide it; two traces have the same Foata form exactly when they are
    equal up to commuting independent events.  The MPSC
    channel keeps its order and accounts for its slots; a broadcast receiver hears
    every message or the exact number it missed.  Codecs do not
    depend on how the stream is cut, and round trips return what was written;
    the Huffman code is decoded exactly, a header list survives compression and
    decompression with the two dynamic tables in step, and what a decoder stores
    is bounded by its limits; field arithmetic is that of GF(256).  Lemmas named in the findings evaluate
    the model where the code and its documentation part.

    ** Fuel and bounds

    The region traversal of a cancellation and the closing of regions are bounded
    by the number of regions and finalizers ([advance_measure] of [RuntimeInv]); a
    drain of async finalizers by the finalizers present.  [decode] of the
    length-delimited codec needs three iterations, that of the line codec two.
    [copy_to_slice] reads at least a byte per round.  Sifting is bounded by the
    size of the heap, a round of the scheduler by the entries of its lanes, the
    growth of the scheduled set by 64 doublings, the search for a free waiter
    identifier by the number of waiters.  The loop of the wheel's [advance_to] runs on the binary
    fuel of [loop_upto] below, [target - tick + 1] rounds, since every round
    advances the tick; a refill takes each overflow entry at most once; a bitmap
    scan has at most five words.  The loops of HPACK are bounded by the bytes of
    the block and the entries of the table, an integer by the ten groups of seven
    bits a 64-bit value has.  A compare-and-exchange loop of the breaker retries
    while others interfere and has no bound of its own: it carries fuel, the
    safety theorems hold for every amount of it, and without interference one
    round is enough ([breaker_trips_and_recovers]).  The combiner of the global
    queue goes round at most once per thread ([injector_conserves_tasks]).  Random
    draws and the outcome of a [try_lock] are inputs.  Each of these bounds is proved to be enough
    (the results are [Returns], never [OutOfFuel]), except where a finding says
    that the code itself does not terminate.

    ** Not modelled

    The threads and parking of workers, the governor and the policy that adapt
    their limits (floating-point learning; the limits are inputs), I/O
    drivers and the blocking pool (operating system), configuration parsing, the
    watch and session channels, the remaining synchronisation
    primitives, the other combinators, the analyses built on obligations, the lab runtime
    with its oracles, recording and replay of traces, the distributed and network
    layers, databases, servers and the command line. *)

From stdpp Require Export base gmap list list_numbers numbers strings option sorting.
From Stdlib Require Export NArith Lia.

Set Default Goal Selector "!".
#[global] Open Scope N_scope.

(** ** Machine integers

    Unsigned integers of the program are values of [N]; the width shows in the
    constants below and in the operations that saturate, wrap or check.  The
    definitions follow the release profile of [Cargo.toml]: no overflow checks
    and no [debug_assert!]. *)

Definition u8_MAX : N := 255.
Definition u32_MAX : N := 4294967295.
Definition u64_MAX : N := 18446744073709551615.
Definition u128_MAX : N := 340282366920938463463374607431768211455.
Definition usize_MAX : N := u64_MAX.
Definition isize_MAX : N := 9223372036854775807.

(** [a.saturating_add(b)], [a.saturating_mul(b)] at the width whose maximum is
    [max]; [a.saturating_sub(b)] is [N.sub] at every width. *)
Definition saturating_add (max a b : N) : N := N.min (a + b) max.
Definition saturating_mul (max a b : N) : N := N.min (a * b) max.
Definition saturating_sub (a b : N) : N := a - b.

(** [a.wrapping_add(b)] and [a.wrapping_sub(b)]: arithmetic modulo [max + 1]. *)
Definition wrapping_add (max a b : N) : N := (a + b) mod (max + 1).
Definition wrapping_sub (max a b : N) : N := (a + (max + 1) - b) mod (max + 1).

(** [a.checked_sub(b)]. *)
Definition checked_sub (a b : N) : option N := if b <=? a then Some (a - b) else None.

(** [x.clamp(lo, hi)]. *)
Definition clamp (x lo hi : N) : N := if x <? lo then lo else if hi <? x then hi else x.

Create HintDb machine.
#[export] Hint Unfold u8_MAX u32_MAX u64_MAX u128_MAX usize_MAX isize_MAX
  saturating_add saturating_mul saturating_sub checked_sub : machine.

(** [mlia]: linear arithmetic after unfolding the machine operations. *)
Ltac mlia := autounfold with machine in *; lia.

Lemma saturating_add_max max a b : saturating_add max a b ≤ max.
Proof. unfold saturating_add. lia. Qed.

Lemma saturating_mul_max max a b : saturating_mul max a b ≤ max.
Proof. unfold saturating_mul. lia. Qed.

Lemma saturating_add_mono max a b a' b' :
  a ≤ a' → b ≤ b' → saturating_add max a b ≤ saturating_add max a' b'.
Proof. unfold saturating_add. lia. Qed.

Lemma saturating_add_exact max a b : a + b ≤ max → saturating_add max a b = a + b.
Proof. unfold saturating_add. lia. Qed.

#[export] Hint Resolve saturating_add_max saturating_mul_max saturating_add_mono N.le_refl : machine.

Lemma wrapping_add_1 max a : a < max → wrapping_add max a 1 = a + 1.
Proof. intros H. unfold wrapping_add. apply N.mod_small. lia. Qed.

Lemma wrapping_add_exact max a b : a + b ≤ max → wrapping_add max a b = a + b.
Proof. intros H. unfold wrapping_add. apply N.mod_small. lia. Qed.

Lemma wrapping_add_1_max max : wrapping_add max max 1 = 0.
Proof. unfold wrapping_add. apply N.Div0.mod_same. Qed.

Lemma wrapping_sub_small max a b : b ≤ a → a ≤ max → wrapping_sub max a b = a - b.
Proof.
  intros Hb Ha. unfold wrapping_sub.
  replace (a + (max + 1) - b) with (a - b + 1 * (max + 1)) by lia.
  rewrite N.Div0.mod_add. apply N.mod_small. lia.
Qed.

(** Packing a value above the [k] low bits. *)
Lemma lor_shiftl a b k : a < 2 ^ k → N.lor a (N.shiftl b k) = a + b * 2 ^ k.
Proof.
  intros Ha. assert (N.land a (N.shiftl b k) = 0) as H0.
  { apply N.bits_inj. intros n. rewrite N.land_spec, N.bits_0. destruct (N.lt_ge_cases n k) as [Hn|Hn].
    - rewrite N.shiftl_spec_low by done. apply andb_false_r.
    - destruct (decide (a = 0)) as [->|Hz]; [done|]. rewrite (N.bits_above_log2 a n); [done|].
      apply N.log2_lt_pow2 in Ha; lia. }
  rewrite <- N.lxor_lor, <- N.add_nocarry_lxor, N.shiftl_mul_pow2; done.
Qed.

(** ** Panics and results

    [exec A] is a computation that returns or panics; [result T E] is Rust's
    [Result].  [exec] carries stdpp's monad notation [x ← m; k]. *)

Inductive exec (A : Type) : Type :=
| Done (a : A)
| Panics.
Arguments Done {A} _.
Arguments Panics {A}.

#[global] Instance exec_ret : MRet exec := λ A a, Done a.
#[global] Instance exec_bind : MBind exec := λ A B k m,
  match m with Done a => k a | Panics => Panics end.

#[global] Instance exec_fmap : FMap exec := λ A B f m,
  match m with Done a => Done (f a) | Panics => Panics end.

Inductive result (T E : Type) : Type :=
| Ok (v : T)
| Err (e : E).
Arguments Ok {T E} _.
Arguments Err {T E} _.

(** The [?] operator: [let? x := m in k] returns the error of [m] early. *)
Notation "'let?' x := m 'in' k" :=
  (match m with Ok x => k | Err e => Err e end)
  (at level 10, x name, m at level 100, k at level 200).

(** ** Computations that return, panic or exceed their fuel *)

Inductive run (A : Type) : Type :=
| Returns (a : A)
| Panicked
| OutOfFuel.
Arguments Returns {A} _.
Arguments Panicked {A}.
Arguments OutOfFuel {A}.

#[global] Instance run_ret : MRet run := λ A a, Returns a.
#[global] Instance run_bind : MBind run := λ A B k m,
  match m with Returns a => k a | Panicked => Panicked | OutOfFuel => OutOfFuel end.

Lemma run_bind_assoc {A B C} (m : run A) (f : A → run B) (g : B → run C) :
  ((m ≫= f) ≫= g) = (m ≫= λ x, f x ≫= g).
Proof. by destruct m. Qed.

Definition lift {A} (m : exec A) : run A :=
  match m with Done a => Returns a | Panics => Panicked end.

(** [std::task::Poll] *)
Inductive poll (A : Type) := Ready (v : A) | Pending.
Arguments Ready {A} _.
Arguments Pending {A}.

(** ** Loops with binary fuel

    [loop_upto p body a] runs [body] at most [p] times, until it answers [inr];
    the fuel is binary, so a bound that is never reached costs nothing. *)

Fixpoint loop_upto {A B} (p : positive) (body : A → A + B) (a : A) : A + B :=
  match p with
  | xH => body a
  | xO p => match loop_upto p body a with inl a => loop_upto p body a | inr b => inr b end
  | xI p =>
      match body a with
      | inl a => match loop_upto p body a with inl a => loop_upto p body a | inr b => inr b end
      | inr b => inr b
      end
  end.

Lemma loop_upto_spec {A B} (I : A → Prop) (Q : B → Prop) (measure : A → N) (body : A → A + B) p a :
  (∀ a, I a → match body a with inl a' => I a' ∧ measure a' < measure a | inr b => Q b end) → I a →
  match loop_upto p body a with inl a' => I a' ∧ measure a' + Npos p ≤ measure a | inr b => Q b end.
Proof.
  intros Hbody. revert a. induction p as [p IH|p IH|]; intros a Ha; cbn [loop_upto].
  - pose proof (Hbody a Ha) as H1. destruct (body a) as [a1|b]; [|done]. destruct H1 as [Ha1 Hm1].
    pose proof (IH a1 Ha1) as H2. destruct (loop_upto p body a1) as [a2|b]; [|done]. destruct H2 as [Ha2 Hm2].
    pose proof (IH a2 Ha2) as H3. destruct (loop_upto p body a2) as [a3|b]; [|done]. split; [apply H3|]. lia.
  - pose proof (IH a Ha) as H2. destruct (loop_upto p body a) as [a2|b]; [|done]. destruct H2 as [Ha2 Hm2].
    pose proof (IH a2 Ha2) as H3. destruct (loop_upto p body a2) as [a3|b]; [|done]. split; [apply H3|]. lia.
  - pose proof (Hbody a Ha) as H1. destruct (body a) as [a1|b]; [|done]. split; [apply H1|]. lia.
Qed.

(** With a decreasing measure below the fuel the loop ends. *)
Lemma loop_upto_ends {A B} (I : A → Prop) (Q : B → Prop) (measure : A → N) (body : A → A + B) p a :
  (∀ a, I a → match body a with inl a' => I a' ∧ measure a' < measure a | inr b => Q b end) → I a → measure a < Npos p →
  ∃ b, loop_upto p body a = inr b ∧ Q b.
Proof.
  intros Hbody Ha Hp. pose proof (loop_upto_spec I Q measure body p a Hbody Ha) as Hl.
  destruct (loop_upto p body a) as [a'|b]; [lia|eauto].
Qed.

(** ** Tactics *)

(** Case analysis on the first [match] or [if] of the goal or a hypothesis. *)
Ltac split_match :=
  match goal with
  | |- context [match ?x with _ => _ end] => destruct x eqn:?
  | H : context [match ?x with _ => _ end] |- _ => destruct x eqn:?
  end.

(** Turns boolean comparisons on [N] among the hypotheses into propositions. *)
Ltac N_bools :=
  repeat match goal with
  | H : (_ <=? _) = true |- _ => apply N.leb_le in H
  | H : (_ <=? _) = false |- _ => apply N.leb_gt in H
  | H : (_ <? _) = true |- _ => apply N.ltb_lt in H
  | H : (_ <? _) = false |- _ => apply N.ltb_ge in H
  | H : (_ =? _) = true |- _ => apply N.eqb_eq in H
  | H : (_ =? _) = false |- _ => apply N.eqb_neq in H
  | H : andb _ _ = true |- _ => apply andb_true_iff in H as [? ?]
  | H : orb _ _ = false |- _ => apply orb_false_iff in H as [? ?]
  | H : negb _ = true |- _ => apply negb_true_iff in H
  | H : negb _ = false |- _ => apply negb_false_iff in H
  end.

(** The usual closing step for straight-line code: split every branch, clean
    up the equations, finish by arithmetic or congruence. *)
Ltac crush := repeat (split_match; simplify_eq/=); N_bools; try done; try lia; try congruence.

(** ** Lists used as vectors *)

(** [v.pop()]: the last element and the rest. *)
Definition vec_pop {A} (l : list A) : option (list A * A) :=
  match reverse l with
  | [] => None
  | x :: r => Some (reverse r, x)
  end.

Lemma vec_pop_Some {A} (l l' : list A) x : vec_pop l = Some (l', x) ↔ l = l' ++ [x].
Proof.
  unfold vec_pop. destruct (reverse l) as [|y r] eqn:E.
  - apply (f_equal reverse) in E. rewrite reverse_involutive in E. subst.
    split; [done|]. intros H. destruct l'; discriminate.
  - apply (f_equal reverse) in E. rewrite reverse_involutive, reverse_cons in E. subst.
    split; [by intros [= <- <-]|].
    intros H. apply app_inj_2 in H as [-> [= ->]]; done.
Qed.

Lemma vec_pop_None {A} (l : list A) : vec_pop l = None ↔ l = [].
Proof.
  unfold vec_pop. destruct (reverse l) as [|y r] eqn:E.
  - apply (f_equal reverse) in E. by rewrite reverse_involutive in E.
  - split; [done|]. intros ->. discriminate.
Qed.

(** Number of elements that satisfy a boolean test. *)
Definition count {A} (p : A → bool) (l : list A) : nat := length (List.filter p l).

Lemma count_app {A} (p : A → bool) l1 l2 : count p (l1 ++ l2) = (count p l1 + count p l2)%nat.
Proof. unfold count. by rewrite List.filter_app, length_app. Qed.

Lemma count_cons {A} (p : A → bool) x l :
  count p (x :: l) = ((if p x then 1 else 0) + count p l)%nat.
Proof. unfold count. simpl. by destruct (p x). Qed.

Lemma filter_id {A} (P : A → Prop) `{∀ x, Decision (P x)} (l : list A) : (∀ x, x ∈ l → P x) → filter P l = l.
Proof.
  induction l as [|x l IH]; intros Hl; [done|]. rewrite filter_cons_True by (apply Hl; by left).
  f_equal. apply IH. intros y Hy. apply Hl. by right.
Qed.

Lemma count_Permutation {A} (p : A → bool) (l l' : list A) : l ≡ₚ l' → count p l = count p l'.
Proof. induction 1; rewrite ?count_cons in *; lia. Qed.

Lemma count_insert {A} (p : A → bool) l i x y :
  l !! i = Some x →
  (count p (<[i:=y]> l) + (if p x then 1 else 0) = count p l + (if p y then 1 else 0))%nat.
Proof.
  revert i. induction l as [|z l IH]; intros [|i] H; try done; simpl in H |- *.
  - injection H as ->. rewrite !count_cons. lia.
  - apply IH in H. change (count p (z :: <[i:=y]> l) + (if p x then 1 else 0) =
      count p (z :: l) + (if p y then 1 else 0))%nat. rewrite !count_cons. lia.
Qed.

Lemma count_le_length {A} (p : A → bool) l : (count p l ≤ length l)%nat.
Proof. unfold count. apply List.filter_length_le. Qed.

(** [v.swap_remove(i)] for [i] in range: the last element moves to place [i]. *)
Definition swap_remove {A} (l : list A) (i : nat) : list A :=
  match vec_pop l with
  | Some (rest, last) => if (i =? length rest)%nat then rest else <[i:=last]> rest
  | None => l
  end.

Lemma swap_remove_Permutation {A} (l : list A) i x :
  l !! i = Some x → l ≡ₚ x :: swap_remove l i.
Proof.
  unfold swap_remove. destruct (vec_pop l) as [[rest y]|] eqn:E.
  - apply vec_pop_Some in E as ->. intros Hi. destruct (Nat.eqb_spec i (length rest)) as [->|Hne].
    + rewrite list_lookup_middle in Hi by done. simplify_eq. by rewrite Permutation_app_comm.
    + apply lookup_app_Some in Hi as [Hi|[? Hi]].
      * rewrite <-(take_drop_middle rest i x Hi) at 1.
        rewrite insert_take_drop by (by eapply lookup_lt_Some).
        rewrite (Permutation_app_comm _ [y]). simpl. rewrite <-!Permutation_middle.
        by constructor.
      * destruct (i - length rest)%nat eqn:E2; [lia|]. by destruct n.
  - apply vec_pop_None in E as ->. done.
Qed.

(** [v.iter().position(p)] *)
Fixpoint position {A} (p : A → bool) (l : list A) : option nat :=
  match l with
  | [] => None
  | x :: l => if p x then Some O else S <$> position p l
  end.

Lemma position_Some {A} (p : A → bool) l i :
  position p l = Some i → ∃ x, l !! i = Some x ∧ p x = true.
Proof.
  revert i. induction l as [|y l IH]; intros i H; simpl in H; [done|].
  destruct (p y) eqn:Hp; simplify_eq; [by exists y|].
  destruct (position p l) as [j|]; simplify_eq/=. by apply IH.
Qed.

Lemma position_None {A} (p : A → bool) l : position p l = None → ∀ x, x ∈ l → p x = false.
Proof.
  induction l as [|y l IH]; simpl; [by intros _ ? ?%elem_of_nil|].
  destruct (p y) eqn:Hp; [done|]. destruct (position p l); [done|].
  intros _ x [->|?]%elem_of_cons; auto.
Qed.

(** Sums of natural numbers over lists, insensitive to order. *)
Definition sum_over {A} (f : A → N) (l : list A) : N := foldr (λ x n, f x + n) 0 l.

Lemma sum_over_app {A} (f : A → N) l k : sum_over f (l ++ k) = sum_over f l + sum_over f k.
Proof. induction l as [|x l IH]; simpl; [done|]. rewrite IH. lia. Qed.

#[global] Instance sum_over_Permutation {A} (f : A → N) : Proper ((≡ₚ) ==> (=)) (sum_over f).
Proof. induction 1; simpl; lia. Qed.

Lemma sum_over_bound {A} (f : A → N) l b : (∀ x, x ∈ l → f x ≤ b) →
  sum_over f l ≤ N.of_nat (length l) * b.
Proof.
  induction l as [|x l IH]; intros H; simpl; [lia|].
  assert (f x ≤ b) by (apply H; left). assert (sum_over f l ≤ N.of_nat (length l) * b).
  { apply IH. intros y Hy. apply H. by right. }
  lia.
Qed.

Lemma sum_over_count {A} (p : A → bool) l :
  sum_over (λ x, if p x then 1 else 0) l = N.of_nat (count p l).
Proof. induction l as [|x l IH]; [done|]. rewrite count_cons. simpl. rewrite IH. destruct (p x); lia. Qed.

Lemma sum_zero {A} (f : A → N) l : Forall (λ x, f x = 0) l → sum_over f l = 0.
Proof. induction 1; simpl; lia. Qed.

Lemma sum_one {A} (f : A → N) l x : x ∈ l → f x ≤ sum_over f l.
Proof. induction 1; simpl; lia. Qed.

Lemma concat_perm {A B} (f : A → list B) l l' : l ≡ₚ l' → concat (f <$> l) ≡ₚ concat (f <$> l').
Proof. induction 1; simpl; [done|by f_equiv| |by etrans]. by rewrite !(assoc (++)), (Permutation_app_comm (f _) (f _)). Qed.

Lemma concat_nil {A B} (f : A → list B) l : Forall (λ x, f x = []) l → concat (f <$> l) = [].
Proof. induction 1 as [|x l E _ IH]; csimpl; [done|]. by rewrite E, IH. Qed.

(** ** Vectors indexed by machine words

    [lenN l], [takeN n l] and [dropN n l] are [l.len()], [&l[..n]] and [&l[n..]]
    (the bounds checks of slicing are written out where the code can miss them). *)

Definition lenN {A} (l : list A) : N := N.of_nat (length l).
Definition takeN {A} (n : N) (l : list A) : list A := take (N.to_nat n) l.
Definition dropN {A} (n : N) (l : list A) : list A := drop (N.to_nat n) l.

Lemma len_nil {A} : lenN (@nil A) = 0.
Proof. done. Qed.

Lemma len_cons {A} (x : A) l : lenN (x :: l) = 1 + lenN l.
Proof. unfold lenN. simpl. lia. Qed.

Lemma len_app {A} (l k : list A) : lenN (l ++ k) = lenN l + lenN k.
Proof. unfold lenN. rewrite length_app. lia. Qed.

Lemma len_takeN {A} n (l : list A) : lenN (takeN n l) = N.min n (lenN l).
Proof. unfold lenN, takeN. rewrite length_take. lia. Qed.

Lemma len_dropN {A} n (l : list A) : lenN (dropN n l) = lenN l - n.
Proof. unfold lenN, dropN. rewrite length_drop. lia. Qed.

Lemma len_replicate {A} n (x : A) : lenN (replicate (N.to_nat n) x) = n.
Proof. unfold lenN. rewrite length_replicate. lia. Qed.

Lemma len_0 {A} (l : list A) : lenN l = 0 → l = [].
Proof. unfold lenN. intros E. apply nil_length_inv. lia. Qed.

Lemma sum_indicator {A} (f : A → bool) l : sum_over (λ x, if f x then 1 else 0) l ≤ lenN l.
Proof. induction l as [|x l IH]; [done|]. rewrite len_cons. simpl. destruct (f x); lia. Qed.

Lemma take_dropN {A} n (l : list A) : takeN n l ++ dropN n l = l.
Proof. apply take_drop. Qed.

Lemma dropN_0 {A} (l : list A) : dropN 0 l = l.
Proof. done. Qed.

Lemma takeN_0 {A} (l : list A) : takeN 0 l = [].
Proof. done. Qed.

Lemma dropN_dropN {A} n m (l : list A) : dropN n (dropN m l) = dropN (m + n) l.
Proof. unfold dropN. rewrite drop_drop. f_equal. lia. Qed.

Lemma dropN_takeN {A} n m (l : list A) : dropN n (takeN m l) = takeN (m - n) (dropN n l).
Proof. unfold dropN, takeN. rewrite skipn_firstn_comm. f_equal. lia. Qed.

Lemma takeN_takeN {A} n m (l : list A) : takeN n (takeN m l) = takeN (N.min n m) l.
Proof. unfold takeN. rewrite take_take. f_equal. lia. Qed.

Lemma takeN_app_le {A} n (l k : list A) : n ≤ lenN l → takeN n (l ++ k) = takeN n l.
Proof. unfold takeN, lenN. intros. apply take_app_le. lia. Qed.

Lemma dropN_app_le {A} n (l k : list A) : n ≤ lenN l → dropN n (l ++ k) = dropN n l ++ k.
Proof. unfold dropN, lenN. intros. apply drop_app_le. lia. Qed.

Lemma takeN_ge {A} n (l : list A) : lenN l ≤ n → takeN n l = l.
Proof. unfold takeN, lenN. intros. apply take_ge. lia. Qed.

Lemma dropN_ge {A} n (l : list A) : lenN l ≤ n → dropN n l = [].
Proof. unfold dropN, lenN. intros. apply drop_ge. lia. Qed.

Lemma takeN_app_exact {A} n (l k : list A) : n = lenN l → takeN n (l ++ k) = l.
Proof. intros ->. rewrite takeN_app_le by lia. by apply takeN_ge. Qed.

Lemma dropN_app_exact {A} n (l k : list A) : n = lenN l → dropN n (l ++ k) = k.
Proof. intros ->. rewrite dropN_app_le by lia. by rewrite dropN_ge. Qed.

#[export] Hint Rewrite @len_nil @len_cons @len_app @len_takeN @len_dropN @len_replicate : len.
Ltac len_solve := autorewrite with len in *; mlia.
