(* ===== verification/Utf8.v ===== *)
(** * UTF-8

    The check of [String::from_utf8] and [str::from_utf8] of the standard library,
    which the line codec and HPACK rely on. *)

From S2P Require Import Prelude.

Definition in_range (a z b : N) : bool := (a <=? b) && (b <=? z).
Definition is_cont (b : N) : bool := in_range 128 191 b.

Definition utf8_2 (b0 b1 : N) : bool := in_range 194 223 b0 && is_cont b1.
Definition utf8_3 (b0 b1 b2 : N) : bool :=
  (((b0 =? 224) && in_range 160 191 b1)
   || (in_range 225 236 b0 && is_cont b1)
   || ((b0 =? 237) && in_range 128 159 b1)
   || (in_range 238 239 b0 && is_cont b1)) && is_cont b2.
Definition utf8_4 (b0 b1 b2 b3 : N) : bool :=
  (((b0 =? 240) && in_range 144 191 b1)
   || (in_range 241 243 b0 && is_cont b1)
   || ((b0 =? 244) && in_range 128 143 b1)) && is_cont b2 && is_cont b3.

Fixpoint utf8_valid (l : list N) : bool :=
  match l with
  | [] => true
  | b0 :: l1 =>
      if b0 <? 128 then utf8_valid l1
      else
        match l1 with
        | [] => false
        | b1 :: l2 =>
            if utf8_2 b0 b1 then utf8_valid l2
            else
              match l2 with
              | [] => false
              | b2 :: l3 =>
                  if utf8_3 b0 b1 b2 then utf8_valid l3
                  else
                    match l3 with
                    | [] => false
                    | b3 :: l4 => if utf8_4 b0 b1 b2 b3 then utf8_valid l4 else false
                    end
              end
        end
  end.
