(* ===== verification/Bytes.v ===== *)
(** * Byte buffers

    Models [src/bytes/bytes_mut.rs] ([BytesMut]: a vector with a consumed
    prefix that is compacted lazily), [src/bytes/bytes.rs] ([Bytes]: a window
    into shared storage; [BytesCursor]) and the reading and writing traits of
    [src/bytes/buf/] ([Buf] with its instances, [Chain], [Take], [Limit] and
    the integer accessors).

    A byte is a value of [N] below 256.  The theorems: every operation of
    [BytesMut] and [Bytes] acts on the visible bytes as the obvious list
    operation, whatever the consumed prefix, the capacity and the growth policy
    of the allocator are; integers written in either byte order are read back
    through any composition of readers. *)

From S2P Require Import Prelude.

(** ** Bytes and integers *)

Definition is_byte (b : N) : bool := b <? 256.
Definition bytes_ok (l : list N) : Prop := Forall (λ b, b < 256) l.

(** [n.to_le_bytes()] and [n.to_be_bytes()] of an integer of [k] bytes. *)
Fixpoint to_le_bytes (k : nat) (n : N) : list N :=
  match k with
  | O => []
  | S k => n mod 256 :: to_le_bytes k (n / 256)
  end.
Definition to_be_bytes (k : nat) (n : N) : list N := reverse (to_le_bytes k n).

Fixpoint from_le_bytes (l : list N) : N :=
  match l with
  | [] => 0
  | b :: l => b + 256 * from_le_bytes l
  end.
Definition from_be_bytes (l : list N) : N := from_le_bytes (reverse l).

Lemma to_le_length k n : lenN (to_le_bytes k n) = N.of_nat k.
Proof. revert n. induction k as [|k IH]; intros n; [done|]. simpl. rewrite len_cons, IH. lia. Qed.

Lemma to_be_length k n : lenN (to_be_bytes k n) = N.of_nat k.
Proof. unfold to_be_bytes, lenN. rewrite length_reverse. apply to_le_length. Qed.

Lemma pow256_S k : 256 ^ N.of_nat (S k) = 256 * 256 ^ N.of_nat k.
Proof. rewrite Nat2N.inj_succ, N.pow_succ_r'. done. Qed.

Lemma from_to_le k n : from_le_bytes (to_le_bytes k n) = n mod 256 ^ N.of_nat k.
Proof.
  revert n. induction k as [|k IH]; intros n; [by rewrite N.mod_1_r|].
  rewrite pow256_S, N.Div0.mod_mul_r. simpl. by rewrite IH.
Qed.

Lemma from_to_be k n : from_be_bytes (to_be_bytes k n) = n mod 256 ^ N.of_nat k.
Proof. unfold from_be_bytes, to_be_bytes. rewrite reverse_involutive. apply from_to_le. Qed.

Lemma from_le_bound l : bytes_ok l → from_le_bytes l < 256 ^ lenN l.
Proof.
  unfold bytes_ok, lenN. induction 1 as [|b l Hb Hl IH]; [done|]. simpl from_le_bytes. simpl length.
  rewrite pow256_S. lia.
Qed.

Lemma to_from_le l : bytes_ok l → to_le_bytes (length l) (from_le_bytes l) = l.
Proof.
  induction 1 as [|b l Hb Hl IH]; [done|]. cbn [from_le_bytes length to_le_bytes].
  rewrite (N.mul_comm 256), N.Div0.mod_add, N.div_add, N.div_small, N.mod_small, N.add_0_l by lia. by rewrite IH.
Qed.

Lemma to_le_ok k n : bytes_ok (to_le_bytes k n).
Proof. revert n. induction k as [|k IH]; intros n; constructor; [apply N.mod_lt; lia|apply IH]. Qed.

Lemma to_be_ok k n : bytes_ok (to_be_bytes k n).
Proof. unfold bytes_ok, to_be_bytes. rewrite Forall_reverse. apply to_le_ok. Qed.

(** [n as uk] for an unsigned type of [k] bytes. *)
Definition truncate_to (k : nat) (n : N) : N := n mod 256 ^ N.of_nat k.

(** ** Vectors with a capacity

    The growth policy of [Vec] is the allocator's: a parameter that provides at
    least the requested room and stays below [isize::MAX] bytes.  A request
    beyond [isize::MAX] panics with a capacity overflow. *)
Class Allocator := {
  vec_grow : N → N → N;
  vec_grow_ok n extra : n + extra ≤ isize_MAX → n + extra ≤ vec_grow n extra ∧ vec_grow n extra ≤ isize_MAX;
}.

Record Vec := mkVec { elems : list N; vcap : N }.

Definition vec_ok (v : Vec) : Prop := lenN (elems v) ≤ vcap v ∧ vcap v ≤ isize_MAX.

Section vec.
Context `{!Allocator}.

Definition vec_with_capacity (n : N) : exec Vec :=
  if n <=? isize_MAX then Done (mkVec [] n) else Panics.

Definition vec_reserve (v : Vec) (extra : N) : exec Vec :=
  if lenN (elems v) + extra <=? vcap v then Done v
  else if lenN (elems v) + extra <=? isize_MAX
  then Done (mkVec (elems v) (vec_grow (lenN (elems v)) extra))
  else Panics.

Definition vec_extend (v : Vec) (l : list N) : exec Vec :=
  v ← vec_reserve v (lenN l); Done (mkVec (elems v ++ l) (vcap v)).

Definition vec_push (v : Vec) (b : N) : exec Vec := vec_extend v [b].
Definition vec_clear (v : Vec) : Vec := mkVec [] (vcap v).
Definition vec_truncate (v : Vec) (n : N) : Vec := mkVec (takeN n (elems v)) (vcap v).

(** [v.drain(..n)]. *)
Definition vec_drain_to (v : Vec) (n : N) : Vec := mkVec (dropN n (elems v)) (vcap v).

(** [v.split_off(at)] for [at <= v.len()]. *)
Definition vec_split_off (v : Vec) (at_ : N) : Vec * Vec :=
  (vec_truncate v at_, mkVec (dropN at_ (elems v)) (lenN (elems v) - at_)).

Definition vec_resize (v : Vec) (n value : N) : exec Vec :=
  if n <=? lenN (elems v) then Done (vec_truncate v n)
  else vec_extend v (replicate (N.to_nat (n - lenN (elems v))) value).

End vec.

(** [a.checked_add(b).expect(..)] on [usize]. *)
Definition expect_add (a b : N) : exec N :=
  if a + b <=? usize_MAX then Done (a + b) else Panics.

Inductive Bound := Included (n : N) | Excluded (n : N) | Unbounded.

(** The bounds of [slice]'s range against a length. *)
Definition range_start (b : Bound) : exec N :=
  match b with Included n => Done n | Excluded n => expect_add n 1 | Unbounded => Done 0 end.
Definition range_end (b : Bound) (length : N) : exec N :=
  match b with Included n => expect_add n 1 | Excluded n => Done n | Unbounded => Done length end.

(** [&l[a..b]]. *)
Definition slice_of (l : list N) (a b : N) : exec (list N) :=
  if (a <=? b) && (b <=? lenN l) then Done (takeN (b - a) (dropN a l)) else Panics.

(** ** [BytesMut] *)

Record BytesMut := mkBytesMut { data : Vec; start : N }.

Section bytes_mut.
Context `{!Allocator}.
Implicit Types (self : BytesMut).

Definition bm_new : BytesMut := mkBytesMut (mkVec [] 0) 0.

Definition bm_with_capacity (n : N) : exec BytesMut :=
  v ← vec_with_capacity n; Done (mkBytesMut v 0).

Definition bm_from_vec (v : Vec) : BytesMut := mkBytesMut v 0.

(** [BytesMut::from(&[u8])]. *)
Definition bm_from_slice (l : list N) : BytesMut := mkBytesMut (mkVec l (lenN l)) 0.

Definition active self : list N := dropN (start self) (elems (data self)).

Definition active_capacity self : N := wrapping_sub usize_MAX (vcap (data self)) (start self).

Definition compact_front self : BytesMut :=
  if start self =? 0 then self
  else mkBytesMut (vec_drain_to (data self) (start self)) 0.

Definition compact_front_if_empty self : BytesMut :=
  if start self =? lenN (elems (data self)) then mkBytesMut (vec_clear (data self)) 0 else self.

Definition bm_len self : N := wrapping_sub usize_MAX (lenN (elems (data self))) (start self).
Definition bm_is_empty self : bool := bm_len self =? 0.
Definition bm_capacity self : N := active_capacity self.

Definition compact_front_for_additional self (additional : N) : exec BytesMut :=
  if start self =? 0 then Done self
  else
    let n := bm_len self in
    if n =? 0 then Done (mkBytesMut (vec_clear (data self)) 0)
    else
      required ← expect_add n additional;
      Done (if active_capacity self <? required then compact_front self else self).

Definition into_vec self : Vec := data (compact_front self).

Definition reserve self (additional : N) : exec BytesMut :=
  b ← compact_front_for_additional self additional;
  v ← vec_reserve (data b) additional;
  Done (mkBytesMut v (start b)).

Definition put_slice self (src : list N) : exec BytesMut :=
  b ← compact_front_for_additional self (lenN src);
  v ← vec_extend (data b) src;
  Done (mkBytesMut v (start b)).

Definition put_u8 self (n : N) : exec BytesMut :=
  b ← compact_front_for_additional self 1;
  v ← vec_push (data b) n;
  Done (mkBytesMut v (start b)).

(** The buffer left and the tail split off. *)
Definition split_off self (at_ : N) : exec (BytesMut * BytesMut) :=
  if at_ <=? bm_len self then
    split_at ← expect_add (start self) at_;
    let '(v, tail) := vec_split_off (data self) split_at in
    Done (compact_front_if_empty (mkBytesMut v (start self)), mkBytesMut tail 0)
  else Panics.

(** The buffer left and the head split off. *)
Definition split_to self (at_ : N) : exec (BytesMut * BytesMut) :=
  if at_ <=? bm_len self then
    head ← vec_with_capacity at_;
    head ← vec_extend head (takeN at_ (active self));
    start' ← expect_add (start self) at_;
    Done (compact_front_if_empty (mkBytesMut (data self) start'), mkBytesMut head 0)
  else Panics.

Definition clear self : BytesMut := mkBytesMut (vec_clear (data self)) 0.

Definition truncate self (n : N) : exec BytesMut :=
  if n =? 0 then Done (clear self)
  else if n <? bm_len self then
    new_len ← expect_add (start self) n;
    Done (mkBytesMut (vec_truncate (data self) new_len) (start self))
  else Done self.

Definition resize self (new_len value : N) : exec BytesMut :=
  if new_len <=? bm_len self then truncate self new_len
  else
    b ← compact_front_for_additional self (new_len - bm_len self);
    new_data_len ← expect_add (start b) new_len;
    v ← vec_resize (data b) new_data_len value;
    Done (mkBytesMut v (start b)).

Definition bm_slice self (from to : Bound) : exec (list N) :=
  from ← range_start from;
  to ← range_end to (bm_len self);
  from ← expect_add (start self) from;
  to ← expect_add (start self) to;
  slice_of (elems (data self)) from to.

Definition set_len self (n : N) : exec BytesMut :=
  if n <=? bm_capacity self then resize self n 0 else Panics.

End bytes_mut.

(** ** [Bytes] *)

(** The shared storage is immutable, so clones of the reference are the same list. *)
Inductive BytesInner :=
| Static (s : list N)
| Shared (vec : list N)
| Empty.

Record Bytes := mkBytes { b_data : BytesInner; b_start : N; b_len : N }.

Section bytes.
Implicit Types (self : Bytes).

Definition b_new : Bytes := mkBytes Empty 0 0.
Definition b_from_static (l : list N) : Bytes := mkBytes (Static l) 0 (lenN l).
Definition b_copy_from_slice (l : list N) : Bytes :=
  if lenN l =? 0 then b_new else mkBytes (Shared l) 0 (lenN l).
Definition b_from_vec (v : Vec) : Bytes :=
  if lenN (elems v) =? 0 then b_new else mkBytes (Shared (elems v)) 0 (lenN (elems v)).

Definition b_slice self (from to : Bound) : exec Bytes :=
  from ← range_start from;
  to ← range_end to (b_len self);
  if (from <=? to) && (to <=? b_len self) then
    start' ← expect_add (b_start self) from;
    Done (mkBytes (b_data self) start' (to - from))
  else Panics.

Definition b_split_off self (at_ : N) : exec (Bytes * Bytes) :=
  if at_ <=? b_len self then
    start' ← expect_add (b_start self) at_;
    Done (mkBytes (b_data self) (b_start self) at_,
          mkBytes (b_data self) start' (b_len self - at_))
  else Panics.

Definition b_split_to self (at_ : N) : exec (Bytes * Bytes) :=
  if at_ <=? b_len self then
    start' ← expect_add (b_start self) at_;
    Done (mkBytes (b_data self) start' (b_len self - at_),
          mkBytes (b_data self) (b_start self) at_)
  else Panics.

Definition b_truncate self (n : N) : Bytes :=
  if n <? b_len self then mkBytes (b_data self) (b_start self) n else self.
Definition b_clear self : Bytes := mkBytes (b_data self) (b_start self) 0.

Definition as_slice self : exec (list N) :=
  e ← expect_add (b_start self) (b_len self);
  match b_data self with
  | Empty => Done []
  | Static s => slice_of s (b_start self) e
  | Shared v => slice_of v (b_start self) e
  end.

End bytes.

Definition freeze (self : BytesMut) : Bytes := b_from_vec (data (compact_front self)).

(** ** The visible bytes of [BytesMut] *)

Definition bm_ok (b : BytesMut) : Prop := vec_ok (data b) ∧ start b ≤ lenN (elems (data b)).

Section bytes_mut_facts.
Context `{!Allocator}.
Implicit Types (b : BytesMut) (v : Vec).

Lemma active_len b : bm_ok b → bm_len b = lenN (active b).
Proof.
  intros [[? ?] ?]. unfold bm_len, active. rewrite wrapping_sub_small by mlia. len_solve.
Qed.

Lemma active_capacity_eq b : bm_ok b → active_capacity b = vcap (data b) - start b.
Proof. intros [[? ?] ?]. apply wrapping_sub_small; mlia. Qed.

Lemma active_small b : bm_ok b → lenN (active b) ≤ isize_MAX.
Proof. intros [[? ?] ?]. unfold active. len_solve. Qed.

Lemma vec_reserve_spec v n : vec_ok v →
  if lenN (elems v) + n <=? isize_MAX
  then ∃ v', vec_reserve v n = Done v' ∧ vec_ok v' ∧ elems v' = elems v ∧ lenN (elems v) + n ≤ vcap v'
  else vec_reserve v n = Panics.
Proof.
  intros [Hl Hc]. unfold vec_reserve. destruct (N.leb_spec (lenN (elems v) + n) isize_MAX) as [Hn|Hn].
  - destruct (N.leb_spec (lenN (elems v) + n) (vcap v)); eexists; (split; [done|]); simpl; unfold vec_ok; [done|].
    simpl. pose proof (vec_grow_ok _ _ Hn). repeat split; lia.
  - destruct (N.leb_spec (lenN (elems v) + n) (vcap v)); [lia|done].
Qed.

Lemma vec_extend_spec v l : vec_ok v →
  if lenN (elems v) + lenN l <=? isize_MAX
  then ∃ v', vec_extend v l = Done v' ∧ vec_ok v' ∧ elems v' = elems v ++ l
  else vec_extend v l = Panics.
Proof.
  intros Hv. pose proof (vec_reserve_spec v (lenN l) Hv) as Hr. unfold vec_extend.
  destruct (_ <=? isize_MAX); [|by rewrite Hr].
  destruct Hr as (v' & -> & [? ?] & He & ?). eexists. split; [done|]. simpl. rewrite He.
  split; [|done]. split; simpl; len_solve.
Qed.

Lemma compact_front_spec b : bm_ok b →
  bm_ok (compact_front b) ∧ active (compact_front b) = active b ∧ start (compact_front b) = 0.
Proof.
  intros [[? ?] ?]. unfold compact_front. destruct (N.eqb_spec (start b) 0); [done|].
  unfold bm_ok, vec_ok, active. simpl. repeat split; len_solve.
Qed.

Lemma compact_if_empty_spec b : bm_ok b →
  bm_ok (compact_front_if_empty b) ∧ active (compact_front_if_empty b) = active b.
Proof.
  intros [[? ?] ?]. unfold compact_front_if_empty. destruct (N.eqb_spec (start b) (lenN (elems (data b)))); [|done].
  unfold bm_ok, vec_ok, active. simpl. rewrite (dropN_ge _ (elems _)) by lia. repeat split; len_solve.
Qed.

(** Making room keeps the visible bytes, and afterwards a request fits the
    vector exactly when it fits the visible bytes. *)
Lemma compact_for_additional_spec b n : bm_ok b →
  (∃ b', compact_front_for_additional b n = Done b' ∧ bm_ok b' ∧ active b' = active b ∧
     (lenN (active b) + n ≤ isize_MAX ↔ lenN (elems (data b')) + n ≤ isize_MAX)) ∨
  (compact_front_for_additional b n = Panics ∧ isize_MAX < lenN (active b) + n).
Proof.
  intros Hok. pose proof Hok as [[? ?] ?]. unfold compact_front_for_additional.
  rewrite active_len by done.
  destruct (N.eqb_spec (start b) 0) as [E|E].
  { left. exists b. unfold active. rewrite E, dropN_0. repeat split; auto; by destruct Hok as [[??]?]. }
  destruct (N.eqb_spec (lenN (active b)) 0) as [El|El].
  { left. eexists. split; [done|]. apply len_0 in El. rewrite El. unfold active, bm_ok, vec_ok. simpl.
    repeat split; len_solve. }
  unfold expect_add. destruct (N.leb_spec (lenN (active b) + n) usize_MAX); simpl; [|right; split; [done|mlia]].
  left. rewrite active_capacity_eq by done. eexists. split; [done|].
  destruct (N.ltb_spec (vcap (data b) - start b) (lenN (active b) + n)).
  - destruct (compact_front_spec b Hok) as (? & Ha & Hs). rewrite Ha. split; [done|]. split; [done|].
    unfold active in Ha at 1. rewrite Hs, dropN_0 in Ha. by rewrite Ha.
  - split; [done|]. split; [done|]. unfold active in *. len_solve.
Qed.

Lemma vec_step_spec b (v : Vec) l : bm_ok b → vec_ok v → elems v = elems (data b) ++ l →
  bm_ok (mkBytesMut v (start b)) ∧ active (mkBytesMut v (start b)) = active b ++ l.
Proof.
  intros [[? ?] ?] Hv He. unfold bm_ok, active. simpl. rewrite He. split; [split; [done|len_solve]|].
  by rewrite dropN_app_le.
Qed.

Lemma put_slice_spec b l : bm_ok b →
  if lenN (active b) + lenN l <=? isize_MAX
  then ∃ b', put_slice b l = Done b' ∧ bm_ok b' ∧ active b' = active b ++ l
  else put_slice b l = Panics.
Proof.
  intros Hok. unfold put_slice.
  destruct (compact_for_additional_spec b (lenN l) Hok) as [(b' & -> & Hok' & <- & Hiff)|[-> ?]].
  - simpl. pose proof (vec_extend_spec (data b') l (proj1 Hok')) as Hx.
    destruct (N.leb_spec (lenN (active b') + lenN l) isize_MAX) as [Hl|Hl].
    + apply Hiff in Hl. destruct (N.leb_spec (lenN (elems (data b')) + lenN l) isize_MAX); [|lia].
      destruct Hx as (v & -> & Hv & He). eexists. split; [done|]. by apply vec_step_spec.
    + destruct (N.leb_spec (lenN (elems (data b')) + lenN l) isize_MAX); [tauto || lia|by rewrite Hx].
  - by destruct (N.leb_spec (lenN (active b) + lenN l) isize_MAX); [lia|].
Qed.

Lemma put_u8_slice b n : put_u8 b n = put_slice b [n].
Proof. done. Qed.

Lemma reserve_spec b n : bm_ok b →
  if lenN (active b) + n <=? isize_MAX
  then ∃ b', reserve b n = Done b' ∧ bm_ok b' ∧ active b' = active b
  else reserve b n = Panics.
Proof.
  intros Hok. unfold reserve.
  destruct (compact_for_additional_spec b n Hok) as [(b' & -> & Hok' & <- & Hiff)|[-> ?]].
  - simpl. pose proof (vec_reserve_spec (data b') n (proj1 Hok')) as Hx.
    destruct (N.leb_spec (lenN (active b') + n) isize_MAX) as [Hl|Hl].
    + apply Hiff in Hl. destruct (N.leb_spec (lenN (elems (data b')) + n) isize_MAX); [|lia].
      destruct Hx as (v & -> & Hv & He & _). eexists. split; [done|].
      destruct (vec_step_spec b' v [] Hok' Hv) as [? Ha]; [by rewrite app_nil_r|].
      split; [done|]. by rewrite Ha, app_nil_r.
    + destruct (N.leb_spec (lenN (elems (data b')) + n) isize_MAX); [tauto || lia|by rewrite Hx].
  - by destruct (N.leb_spec (lenN (active b) + n) isize_MAX); [lia|].
Qed.

Lemma split_to_spec b n : bm_ok b →
  if n <=? lenN (active b)
  then ∃ b' h, split_to b n = Done (b', h) ∧ bm_ok b' ∧ bm_ok h ∧
         active b' = dropN n (active b) ∧ active h = takeN n (active b)
  else split_to b n = Panics.
Proof.
  intros Hok. pose proof Hok as [[? ?] ?]. unfold split_to. rewrite active_len by done.
  destruct (N.leb_spec n (lenN (active b))) as [Hn|Hn]; [|done].
  pose proof (active_small b Hok). assert (Hla : lenN (active b) = lenN (elems (data b)) - start b).
  { unfold active. len_solve. }
  unfold vec_with_capacity. destruct (N.leb_spec n isize_MAX); [|lia]. simpl.
  pose proof (vec_extend_spec (mkVec [] n) (takeN n (active b))) as Hx. simpl in Hx.
  destruct (N.leb_spec (lenN (@nil N) + lenN (takeN n (active b))) isize_MAX); [|len_solve].
  destruct Hx as (h & -> & Hh & He); [split; simpl; len_solve|]. simpl.
  unfold expect_add. destruct (N.leb_spec (start b + n) usize_MAX); [|mlia]. simpl.
  set (b1 := mkBytesMut (data b) (start b + n)).
  assert (bm_ok b1) as Hb1 by (split; simpl; [done|lia]).
  destruct (compact_if_empty_spec b1 Hb1) as [? Ha].
  eexists _, _. split; [done|]. split; [done|]. split; [split; simpl; [done|lia]|].
  rewrite Ha. unfold active at 1 3. simpl. rewrite He, dropN_0. split; [|done].
  unfold active. by rewrite dropN_dropN.
Qed.

Lemma split_off_spec b n : bm_ok b →
  if n <=? lenN (active b)
  then ∃ b' t, split_off b n = Done (b', t) ∧ bm_ok b' ∧ bm_ok t ∧
         active b' = takeN n (active b) ∧ active t = dropN n (active b)
  else split_off b n = Panics.
Proof.
  intros Hok. pose proof Hok as [[? ?] ?]. unfold split_off. rewrite active_len by done.
  destruct (N.leb_spec n (lenN (active b))) as [Hn|Hn]; [|done].
  assert (Hla : lenN (active b) = lenN (elems (data b)) - start b) by (unfold active; len_solve).
  unfold expect_add. destruct (N.leb_spec (start b + n) usize_MAX); [|mlia]. simpl.
  set (b1 := mkBytesMut (vec_truncate (data b) (start b + n)) (start b)).
  assert (bm_ok b1) as Hb1 by (unfold bm_ok, vec_ok; simpl; repeat split; len_solve).
  destruct (compact_if_empty_spec b1 Hb1) as [? Ha].
  eexists _, _. split; [done|]. split; [done|].
  split; [unfold bm_ok, vec_ok; simpl; repeat split; len_solve|].
  rewrite Ha. unfold active. simpl. rewrite dropN_0, dropN_dropN, dropN_takeN.
  split; [|done]. f_equal. lia.
Qed.

Lemma clear_spec b : bm_ok b → bm_ok (clear b) ∧ active (clear b) = [].
Proof. intros [[? ?] ?]. unfold clear, bm_ok, vec_ok, active. simpl. repeat split; len_solve. Qed.

Lemma truncate_spec b n : bm_ok b → ∃ b', truncate b n = Done b' ∧ bm_ok b' ∧ active b' = takeN n (active b).
Proof.
  intros Hok. pose proof Hok as [[? ?] ?]. unfold truncate. rewrite active_len by done.
  destruct (N.eqb_spec n 0) as [->|].
  { destruct (clear_spec b Hok). eauto. }
  assert (Hla : lenN (active b) = lenN (elems (data b)) - start b) by (unfold active; len_solve).
  destruct (N.ltb_spec n (lenN (active b))).
  - unfold expect_add. destruct (N.leb_spec (start b + n) usize_MAX); [|mlia]. simpl.
    eexists. split; [done|]. unfold bm_ok, vec_ok, active. simpl. rewrite dropN_takeN.
    split; [repeat split; len_solve|]. f_equal. lia.
  - exists b. by rewrite takeN_ge by lia.
Qed.

Lemma resize_spec b n value : bm_ok b →
  if n <=? isize_MAX
  then ∃ b', resize b n value = Done b' ∧ bm_ok b' ∧
         active b' = takeN n (active b) ++ replicate (N.to_nat (n - lenN (active b))) value
  else resize b n value = Panics.
Proof.
  intros Hok. pose proof (active_small b Hok). unfold resize. rewrite active_len by done.
  destruct (N.leb_spec n (lenN (active b))) as [Hn|Hn].
  { destruct (N.leb_spec n isize_MAX); [|lia]. destruct (truncate_spec b n Hok) as (b' & -> & ? & Ha).
    exists b'. rewrite Ha. replace (n - lenN (active b)) with 0 by lia. by rewrite app_nil_r. }
  rewrite (takeN_ge n) by lia.
  destruct (compact_for_additional_spec b (n - lenN (active b)) Hok) as [(b' & -> & Hok' & Ha & Hiff)|[-> ?]];
    [|by destruct (N.leb_spec n isize_MAX); [lia|]].
  simpl. rewrite <-Ha in Hn, Hiff |- *. clear Ha. replace (lenN (active b') + (n - lenN (active b'))) with n in Hiff by lia.
  pose proof Hok' as [[? ?] ?].
  assert (Hla : lenN (active b') = lenN (elems (data b')) - start b') by (unfold active; len_solve).
  unfold expect_add. destruct (N.leb_spec (start b' + n) usize_MAX); simpl;
    [|destruct (N.leb_spec n isize_MAX); [mlia|done]].
  unfold vec_resize. destruct (N.leb_spec (start b' + n) (lenN (elems (data b')))); [lia|].
  replace (start b' + n - lenN (elems (data b'))) with (n - lenN (active b')) by lia.
  pose proof (vec_extend_spec (data b') (replicate (N.to_nat (n - lenN (active b'))) value) (proj1 Hok')) as Hx.
  rewrite len_replicate in Hx.
  destruct (N.leb_spec n isize_MAX);
    destruct (N.leb_spec (lenN (elems (data b')) + (n - lenN (active b'))) isize_MAX); try tauto; try lia.
  - destruct Hx as (v & -> & Hv & He). eexists. split; [done|]. by apply vec_step_spec.
  - by rewrite Hx.
Qed.

(** [slice] of the buffer is [slice] of its visible bytes, panics included. *)
Lemma bm_slice_spec b from to : bm_ok b →
  bm_slice b from to =
    (from ← range_start from; to ← range_end to (lenN (active b)); slice_of (active b) from to).
Proof.
  intros Hok. pose proof Hok as [[? ?] ?]. unfold bm_slice. rewrite active_len by done.
  destruct (range_start from) as [f|]; [|done]. simpl. destruct (range_end to _) as [t|]; [|done]. simpl.
  assert (Hla : lenN (active b) = lenN (elems (data b)) - start b) by (unfold active; len_solve).
  unfold slice_of, expect_add. destruct (N.leb_spec (start b + f) usize_MAX); simpl.
  2:{ destruct (N.leb_spec f t); simpl; [|done]. destruct (N.leb_spec t (lenN (active b))); [mlia|done]. }
  destruct (N.leb_spec (start b + t) usize_MAX); simpl.
  2:{ destruct (N.leb_spec f t); simpl; [|done]. destruct (N.leb_spec t (lenN (active b))); [mlia|done]. }
  destruct (N.leb_spec f t); destruct (N.leb_spec (start b + f) (start b + t)); try lia; simpl; [|done].
  destruct (N.leb_spec t (lenN (active b))); destruct (N.leb_spec (start b + t) (lenN (elems (data b)))); try lia; [|done].
  unfold active. rewrite dropN_dropN. do 2 f_equal. lia.
Qed.

End bytes_mut_facts.

(** ** [BytesMut] is a list of bytes *)

Inductive BmOp :=
| OpReserve (n : N)
| OpPutSlice (l : list N)
| OpPutU8 (n : N)
| OpSplitOff (n : N)
| OpSplitTo (n : N)
| OpTruncate (n : N)
| OpClear
| OpResize (n value : N).

(** One operation on the buffer: the buffer left and the part split off. *)
Definition bm_apply `{!Allocator} (b : BytesMut) (op : BmOp) : exec (BytesMut * list BytesMut) :=
  match op with
  | OpReserve n => b ← reserve b n; Done (b, [])
  | OpPutSlice l => b ← put_slice b l; Done (b, [])
  | OpPutU8 n => b ← put_u8 b n; Done (b, [])
  | OpSplitOff n => p ← split_off b n; Done (p.1, [p.2])
  | OpSplitTo n => p ← split_to b n; Done (p.1, [p.2])
  | OpTruncate n => b ← truncate b n; Done (b, [])
  | OpClear => Done (clear b, [])
  | OpResize n value => b ← resize b n value; Done (b, [])
  end.

(** The same operation on a plain list of bytes that may hold at most
    [isize::MAX] of them. *)
Definition list_apply (l : list N) (op : BmOp) : exec (list N * list (list N)) :=
  match op with
  | OpReserve n => if lenN l + n <=? isize_MAX then Done (l, []) else Panics
  | OpPutSlice k => if lenN l + lenN k <=? isize_MAX then Done (l ++ k, []) else Panics
  | OpPutU8 n => if lenN l + 1 <=? isize_MAX then Done (l ++ [n], []) else Panics
  | OpSplitOff n => if n <=? lenN l then Done (takeN n l, [dropN n l]) else Panics
  | OpSplitTo n => if n <=? lenN l then Done (dropN n l, [takeN n l]) else Panics
  | OpTruncate n => Done (takeN n l, [])
  | OpClear => Done ([], [])
  | OpResize n value =>
      if n <=? isize_MAX then Done (takeN n l ++ replicate (N.to_nat (n - lenN l)) value, []) else Panics
  end.

(** Runs: the final buffer and everything split off on the way, in order. *)
Fixpoint run_ops {B} (step : B → BmOp → exec (B * list B)) (b : B) (ops : list BmOp) : exec (B * list B) :=
  match ops with
  | [] => Done (b, [])
  | op :: ops =>
      p ← step b op;
      q ← run_ops step p.1 ops;
      Done (q.1, p.2 ++ q.2)
  end.

(** The buffer computation [m] does what the list computation [a] says. *)
Definition refines (m : exec (BytesMut * list BytesMut)) (a : exec (list N * list (list N))) : Prop :=
  match a with
  | Done (l, out) => ∃ b outs, m = Done (b, outs) ∧ bm_ok b ∧ active b = l ∧ Forall bm_ok outs ∧ active <$> outs = out
  | Panics => m = Panics
  end.

Lemma bm_apply_refines `{!Allocator} b op : bm_ok b → refines (bm_apply b op) (list_apply (active b) op).
Proof.
  intros Hok. unfold refines. destruct op as [n|l|n|n|n|n| |n value]; simpl.
  - pose proof (reserve_spec b n Hok) as Hs. destruct (_ <=? isize_MAX); [|by rewrite Hs].
    destruct Hs as (b' & -> & ? & ?). by exists b', [].
  - pose proof (put_slice_spec b l Hok) as Hs. destruct (_ <=? isize_MAX); [|by rewrite Hs].
    destruct Hs as (b' & -> & ? & ?). by exists b', [].
  - rewrite put_u8_slice. pose proof (put_slice_spec b [n] Hok) as Hs. change (lenN [n]) with 1 in Hs.
    destruct (_ <=? isize_MAX); [|by rewrite Hs]. destruct Hs as (b' & -> & ? & ?). by exists b', [].
  - pose proof (split_off_spec b n Hok) as Hs. destruct (_ <=? lenN _); [|by rewrite Hs].
    destruct Hs as (b' & t & -> & ? & ? & ? & Ht). exists b', [t]. simpl. rewrite Ht. by split_and!; auto.
  - pose proof (split_to_spec b n Hok) as Hs. destruct (_ <=? lenN _); [|by rewrite Hs].
    destruct Hs as (b' & t & -> & ? & ? & ? & Ht). exists b', [t]. simpl. rewrite Ht. by split_and!; auto.
  - destruct (truncate_spec b n Hok) as (b' & -> & ? & ?). by exists b', [].
  - destruct (clear_spec b Hok). by exists (clear b), [].
  - pose proof (resize_spec b n value Hok) as Hs. destruct (_ <=? isize_MAX); [|by rewrite Hs].
    destruct Hs as (b' & -> & ? & ?). by exists b', [].
Qed.

(** For every sequence of operations on a well-formed [BytesMut], with any
    allocator growth policy, consumed prefix and capacity: the buffer panics
    exactly when a split position lies past the visible bytes or the contents
    would exceed [isize::MAX] bytes, and otherwise its visible bytes, and those of
    every part split off, are what the operations compute on a plain list. *)
Theorem bytes_mut_refines_list `{!Allocator} b ops : bm_ok b →
  refines (run_ops bm_apply b ops) (run_ops list_apply (active b) ops).
Proof.
  revert b. induction ops as [|op ops IH]; intros b Hok; [by exists b, []|].
  pose proof (bm_apply_refines b op Hok) as Hs. simpl.
  destruct (list_apply (active b) op) as [[l out]|]; [|by rewrite Hs].
  destruct Hs as (b' & outs & -> & Hok' & <- & ? & <-). simpl. specialize (IH b' Hok').
  destruct (run_ops list_apply (active b') ops) as [[l out]|]; [|by rewrite IH].
  destruct IH as (b2 & outs2 & -> & ? & <- & ? & <-). simpl.
  exists b2, (outs ++ outs2). rewrite fmap_app. split_and!; auto using Forall_app_2.
Qed.

(** An allocator that grows to exactly the requested size. *)
#[local] Instance exact_growth : Allocator.
Proof. refine {| vec_grow n extra := n + extra |}. lia. Defined.

Lemma bytes_mut_refines_list_witness :
  bm_ok bm_new ∧
  refines (run_ops bm_apply bm_new [OpPutSlice [1; 2; 3]; OpSplitTo 2; OpResize 3 7; OpSplitOff 1])
          (Done ([3], [[1; 2]; [7; 7]])).
Proof.
  assert (bm_ok bm_new) as Hok by (repeat split; vm_compute; discriminate).
  split; [done|].
  apply (bytes_mut_refines_list bm_new [OpPutSlice [1; 2; 3]; OpSplitTo 2; OpResize 3 7; OpSplitOff 1] Hok).
Defined.

(** ** The visible bytes of [Bytes] *)

Definition storage (b : Bytes) : list N :=
  match b_data b with Static s => s | Shared v => v | Empty => [] end.

Definition b_ok (b : Bytes) : Prop := b_start b + b_len b ≤ lenN (storage b) ∧ lenN (storage b) ≤ isize_MAX.

Definition window (b : Bytes) : list N := takeN (b_len b) (dropN (b_start b) (storage b)).

Lemma window_len b : b_ok b → lenN (window b) = b_len b.
Proof. intros [? ?]. unfold window. len_solve. Qed.

Lemma as_slice_window b : b_ok b → as_slice b = Done (window b).
Proof.
  intros [Hl ?]. unfold as_slice, expect_add. destruct (N.leb_spec (b_start b + b_len b) usize_MAX); [|mlia]. simpl.
  assert (Hs : slice_of (storage b) (b_start b) (b_start b + b_len b) = Done (window b)).
  { unfold slice_of. destruct (N.leb_spec (b_start b) (b_start b + b_len b)); [|lia].
    destruct (N.leb_spec (b_start b + b_len b) (lenN (storage b))); [|lia]. simpl. unfold window. do 2 f_equal. lia. }
  unfold storage in *. unfold window, storage in *. destruct (b_data b); try done.
  unfold takeN, dropN. by rewrite drop_nil, take_nil.
Qed.

(** Sub-windows of a window: the one lemma behind slicing and splitting. *)
Lemma sub_window b from n : b_ok b → from + n ≤ b_len b →
  expect_add (b_start b) from = Done (b_start b + from) ∧
  let w := mkBytes (b_data b) (b_start b + from) n in
  b_ok w ∧ window w = takeN n (dropN from (window b)).
Proof.
  intros [? ?] Hn. split; [unfold expect_add; destruct (N.leb_spec (b_start b + from) usize_MAX); [done|mlia]|].
  unfold b_ok, window, storage in *. simpl. split; [lia|].
  rewrite dropN_takeN, takeN_takeN, dropN_dropN. f_equal. lia.
Qed.

Lemma b_split_to_spec b n : b_ok b →
  if n <=? lenN (window b)
  then ∃ b' h, b_split_to b n = Done (b', h) ∧ b_ok b' ∧ b_ok h ∧ window b' = dropN n (window b) ∧ window h = takeN n (window b)
  else b_split_to b n = Panics.
Proof.
  intros Hok. unfold b_split_to. rewrite window_len by done. destruct (N.leb_spec n (b_len b)); [|done].
  destruct (sub_window b n (b_len b - n) Hok) as (-> & Hok1 & Hw1); [lia|].
  destruct (sub_window b 0 n Hok) as (_ & Hok2 & Hw2); [lia|]. rewrite N.add_0_r in Hok2, Hw2.
  eexists _, _. split; [done|]. split; [done|]. split; [done|]. split; [|done].
  rewrite Hw1. apply takeN_ge. rewrite len_dropN, window_len by done. lia.
Qed.

Lemma b_split_off_spec b n : b_ok b →
  if n <=? lenN (window b)
  then ∃ b' t, b_split_off b n = Done (b', t) ∧ b_ok b' ∧ b_ok t ∧ window b' = takeN n (window b) ∧ window t = dropN n (window b)
  else b_split_off b n = Panics.
Proof.
  intros Hok. unfold b_split_off. rewrite window_len by done. destruct (N.leb_spec n (b_len b)); [|done].
  destruct (sub_window b n (b_len b - n) Hok) as (-> & Hok1 & Hw1); [lia|].
  destruct (sub_window b 0 n Hok) as (_ & Hok2 & Hw2); [lia|]. rewrite N.add_0_r in Hok2, Hw2.
  eexists _, _. split; [done|]. split; [done|]. split; [done|]. split; [done|].
  rewrite Hw1. apply takeN_ge. rewrite len_dropN, window_len by done. lia.
Qed.

Lemma b_slice_spec b from to : b_ok b →
  match (from ← range_start from; to ← range_end to (lenN (window b)); slice_of (window b) from to) with
  | Done l => ∃ w, b_slice b from to = Done w ∧ b_ok w ∧ window w = l
  | Panics => b_slice b from to = Panics
  end.
Proof.
  intros Hok. unfold b_slice. rewrite window_len by done.
  destruct (range_start from) as [f|]; [|done]. simpl. destruct (range_end to _) as [t|]; [|done]. simpl.
  unfold slice_of. rewrite window_len by done. destruct (N.leb_spec f t); simpl; [|done].
  destruct (N.leb_spec t (b_len b)); simpl; [|done].
  destruct (sub_window b f (t - f) Hok) as (-> & ? & ?); [lia|]. eauto.
Qed.

Lemma b_truncate_spec b n : b_ok b → b_ok (b_truncate b n) ∧ window (b_truncate b n) = takeN n (window b).
Proof.
  intros Hok. unfold b_truncate. destruct (N.ltb_spec n (b_len b)).
  - destruct (sub_window b 0 n Hok) as (_ & Hok2 & Hw2); [lia|]. by rewrite N.add_0_r in Hok2, Hw2.
  - split; [done|]. rewrite takeN_ge; [done|]. rewrite window_len by done. lia.
Qed.

(** Freezing keeps the visible bytes. *)
Lemma freeze_spec b : bm_ok b → b_ok (freeze b) ∧ window (freeze b) = active b.
Proof.
  intros Hok. destruct (compact_front_spec b Hok) as ([[? ?] ?] & <- & Hs). unfold freeze, b_from_vec, active.
  rewrite Hs, dropN_0. destruct (N.eqb_spec (lenN (elems (data (compact_front b)))) 0) as [E|E].
  - apply len_0 in E. rewrite E. split; [split; vm_compute; discriminate|done].
  - unfold b_ok, window, storage. simpl. rewrite dropN_0. split; [lia|]. by apply takeN_ge.
Qed.
