(* ===== verification/Buf.v ===== *)
(** * Reading and writing through buffers

    Models the traits [Buf] and [BufMut] of [src/bytes/buf/] as type classes,
    with the instances the crate provides: byte slices, [std::io::Cursor],
    [BytesCursor] over [Bytes], the adapters [Chain], [Take] and [Limit], [Vec]
    and [BytesMut].  [copy_to_slice] is the trait's loop over chunks; its fuel
    is the number of bytes asked for.

    [BufLaws] and [BufMutLaws] state what a lawful implementation promises; the
    integer round trip is proved against them.  The accessors for signed
    integers, floats and native byte order reinterpret the bytes of the ones
    here; the [chunk_mut] route of [BufMut] (writing through a borrowed slice)
    is left out. *)

From S2P Require Import Prelude Bytes.

(** ** The reading trait *)

Class Buf (B : Type) := {
  remaining : B → N;
  chunk : B → exec (list N);
  advance : B → N → exec B;
}.

Section buf.
Context `{Buf B}.
Implicit Types (self : B).

Definition has_remaining self : bool := 0 <? remaining self.

(** The loop of [copy_to_slice]: [need] bytes are missing, [out] was filled. *)
Fixpoint copy_loop (fuel : nat) self (need : N) (out : list N) : run (B * list N) :=
  if need =? 0 then Returns (self, out)
  else
    match fuel with
    | O => OutOfFuel
    | S fuel =>
        c ← lift (chunk self);
        let cnt := N.min (lenN c) need in
        self ← lift (advance self cnt);
        copy_loop fuel self (need - cnt) (out ++ takeN cnt c)
    end.

Definition copy_to_slice self (n : N) : run (B * list N) :=
  if n <=? remaining self then copy_loop (N.to_nat n) self n [] else Panicked.

Definition get_u8 self : run (B * N) :=
  if 1 <=? remaining self then
    c ← lift (chunk self);
    match c with
    | [] => Panicked
    | b :: _ => self ← lift (advance self 1); Returns (self, b)
    end
  else Panicked.

Definition get_u16 self : run (B * N) := p ← copy_to_slice self 2; Returns (p.1, from_be_bytes p.2).
Definition get_u16_le self : run (B * N) := p ← copy_to_slice self 2; Returns (p.1, from_le_bytes p.2).
Definition get_u32 self : run (B * N) := p ← copy_to_slice self 4; Returns (p.1, from_be_bytes p.2).
Definition get_u32_le self : run (B * N) := p ← copy_to_slice self 4; Returns (p.1, from_le_bytes p.2).
Definition get_u64 self : run (B * N) := p ← copy_to_slice self 8; Returns (p.1, from_be_bytes p.2).
Definition get_u64_le self : run (B * N) := p ← copy_to_slice self 8; Returns (p.1, from_le_bytes p.2).
Definition get_u128 self : run (B * N) := p ← copy_to_slice self 16; Returns (p.1, from_be_bytes p.2).
Definition get_u128_le self : run (B * N) := p ← copy_to_slice self 16; Returns (p.1, from_le_bytes p.2).

End buf.

(** ** The writing trait *)

Class BufMut (B : Type) := {
  remaining_mut : B → N;
  buf_put_slice : B → list N → exec B;
}.

Section buf_mut.
Context `{BufMut B}.
Implicit Types (self : B) (n : N).

Definition has_remaining_mut self : bool := 0 <? remaining_mut self.
Definition buf_put_u8 self n : exec B := buf_put_slice self [n].
Definition put_u16 self n : exec B := buf_put_slice self (to_be_bytes 2 n).
Definition put_u16_le self n : exec B := buf_put_slice self (to_le_bytes 2 n).
Definition put_u32 self n : exec B := buf_put_slice self (to_be_bytes 4 n).
Definition put_u32_le self n : exec B := buf_put_slice self (to_le_bytes 4 n).
Definition put_u64 self n : exec B := buf_put_slice self (to_be_bytes 8 n).
Definition put_u64_le self n : exec B := buf_put_slice self (to_le_bytes 8 n).
Definition put_u128 self n : exec B := buf_put_slice self (to_be_bytes 16 n).
Definition put_u128_le self n : exec B := buf_put_slice self (to_le_bytes 16 n).

End buf_mut.

(** ** Instances of the reading trait *)

(** [impl Buf for &[u8]]. *)
#[global] Instance slice_buf : Buf (list N) := {|
  remaining l := lenN l;
  chunk l := Done l;
  advance l n := if n <=? lenN l then Done (dropN n l) else Panics;
|}.

(** [impl Buf for std::io::Cursor<..>]. *)
Record Cursor := mkCursor { get_ref : list N; position : N }.

Definition cursor_remaining (c : Cursor) : N := saturating_sub (lenN (get_ref c)) (position c).
Definition cursor_chunk (c : Cursor) : exec (list N) :=
  if lenN (get_ref c) <=? position c then Done [] else Done (dropN (position c) (get_ref c)).
Definition cursor_advance (c : Cursor) (n : N) : exec Cursor :=
  if n <=? cursor_remaining c then Done (mkCursor (get_ref c) (wrapping_add u64_MAX (position c) n)) else Panics.

#[global] Instance cursor_buf : Buf Cursor :=
  {| remaining := cursor_remaining; chunk := cursor_chunk; advance := cursor_advance |}.

Record BytesCursor := mkBytesCursor { bc_inner : Bytes; bc_pos : N }.

Definition reader (b : Bytes) : BytesCursor := mkBytesCursor b 0.
Definition bc_set_position (c : BytesCursor) (pos : N) : BytesCursor := mkBytesCursor (bc_inner c) pos.

Definition bc_remaining (c : BytesCursor) : N := saturating_sub (b_len (bc_inner c)) (bc_pos c).
Definition bc_chunk (c : BytesCursor) : exec (list N) :=
  l ← as_slice (bc_inner c);
  if lenN l <=? bc_pos c then Done [] else Done (dropN (bc_pos c) l).
Definition bc_advance (c : BytesCursor) (n : N) : exec BytesCursor :=
  if n <=? bc_remaining c then Done (mkBytesCursor (bc_inner c) (wrapping_add usize_MAX (bc_pos c) n)) else Panics.

#[global] Instance bytes_cursor_buf : Buf BytesCursor :=
  {| remaining := bc_remaining; chunk := bc_chunk; advance := bc_advance |}.

(** [Chain<T, U>]: all of [a], then all of [b]. *)
Record Chain (T U : Type) := mkChain { chain_a : T; chain_b : U }.
Arguments mkChain {T U} _ _.
Arguments chain_a {T U} _.
Arguments chain_b {T U} _.

Definition chain_remaining `{Buf T, Buf U} (c : Chain T U) : N :=
  saturating_add usize_MAX (remaining (chain_a c)) (remaining (chain_b c)).
Definition chain_chunk `{Buf T, Buf U} (c : Chain T U) : exec (list N) :=
  if has_remaining (chain_a c) then chunk (chain_a c) else chunk (chain_b c).
Definition chain_advance `{Buf T, Buf U} (c : Chain T U) (cnt : N) : exec (Chain T U) :=
  let a_rem := remaining (chain_a c) in
  if cnt <=? a_rem then
    a ← advance (chain_a c) cnt; Done (mkChain a (chain_b c))
  else
    a ← (if 0 <? a_rem then advance (chain_a c) a_rem else Done (chain_a c));
    b ← advance (chain_b c) (cnt - a_rem);
    Done (mkChain a b).

#[global] Instance chain_buf `{Buf T, Buf U} : Buf (Chain T U) :=
  {| remaining := chain_remaining; chunk := chain_chunk; advance := chain_advance |}.

(** [Take<T>]: at most [limit] bytes of [inner]. *)
Record Take (T : Type) := mkTake { take_inner : T; take_limit : N }.
Arguments mkTake {T} _ _.
Arguments take_inner {T} _.
Arguments take_limit {T} _.

Definition take_remaining `{Buf T} (t : Take T) : N := N.min (remaining (take_inner t)) (take_limit t).
Definition take_chunk `{Buf T} (t : Take T) : exec (list N) :=
  c ← chunk (take_inner t); Done (takeN (N.min (lenN c) (take_limit t)) c).
Definition take_advance `{Buf T} (t : Take T) (cnt : N) : exec (Take T) :=
  if cnt <=? take_remaining t then
    i ← advance (take_inner t) cnt; Done (mkTake i (wrapping_sub usize_MAX (take_limit t) cnt))
  else Panics.

#[global] Instance take_buf `{Buf T} : Buf (Take T) :=
  {| remaining := take_remaining; chunk := take_chunk; advance := take_advance |}.

(** ** Instances of the writing trait *)

#[global] Instance vec_buf_mut `{!Allocator} : BufMut Vec :=
  {| remaining_mut v := wrapping_sub usize_MAX usize_MAX (lenN (elems v)); buf_put_slice := vec_extend |}.

#[global] Instance bytes_mut_buf_mut `{!Allocator} : BufMut BytesMut :=
  {| remaining_mut b := wrapping_sub usize_MAX usize_MAX (bm_len b); buf_put_slice := put_slice |}.

(** [Limit<T>]: at most [limit] more bytes into [inner]. *)
Record Limit (T : Type) := mkLimit { limit_inner : T; limit_left : N }.
Arguments mkLimit {T} _ _.
Arguments limit_inner {T} _.
Arguments limit_left {T} _.

Definition limit_remaining `{BufMut T} (t : Limit T) : N := N.min (remaining_mut (limit_inner t)) (limit_left t).
Definition limit_put_slice `{BufMut T} (t : Limit T) (src : list N) : exec (Limit T) :=
  if lenN src <=? limit_remaining t then
    i ← buf_put_slice (limit_inner t) src;
    Done (mkLimit i (wrapping_sub usize_MAX (limit_left t) (lenN src)))
  else Panics.

#[global] Instance limit_buf_mut `{BufMut T} : BufMut (Limit T) :=
  {| remaining_mut := limit_remaining; buf_put_slice := limit_put_slice |}.

(** ** What a lawful reader and a lawful writer promise *)

Class BufLaws (B : Type) `{Buf B} := {
  contents : B → list N;
  buf_ok : B → Prop;
  remaining_contents b : buf_ok b → remaining b = lenN (contents b);
  chunk_prefix b : buf_ok b →
    ∃ c rest, chunk b = Done c ∧ contents b = c ++ rest ∧ (c = [] → rest = []);
  advance_drops b n : buf_ok b →
    if n <=? lenN (contents b)
    then ∃ b', advance b n = Done b' ∧ buf_ok b' ∧ contents b' = dropN n (contents b)
    else advance b n = Panics;
}.

Class BufMutLaws (B : Type) `{BufMut B} := {
  written : B → list N;
  mut_ok : B → Prop;
  put_slice_appends b l : mut_ok b → lenN l ≤ remaining_mut b → lenN (written b) + lenN l ≤ isize_MAX →
    ∃ b', buf_put_slice b l = Done b' ∧ mut_ok b' ∧ written b' = written b ++ l ∧
          remaining_mut b' = remaining_mut b - lenN l;
}.

Section buf_facts.
Context `{BufLaws B}.
Implicit Types (b : B).

Lemma buf_advance_ok b n : buf_ok b → n ≤ lenN (contents b) →
  ∃ b', advance b n = Done b' ∧ buf_ok b' ∧ contents b' = dropN n (contents b).
Proof. intros Hok Hn. pose proof (advance_drops b n Hok) as Ha. by apply N.leb_le in Hn as Hn'; rewrite Hn' in Ha. Qed.

Lemma copy_loop_spec fuel b need out : buf_ok b → need ≤ lenN (contents b) → (N.to_nat need ≤ fuel)%nat →
  ∃ b', copy_loop fuel b need out = Returns (b', out ++ takeN need (contents b)) ∧
        buf_ok b' ∧ contents b' = dropN need (contents b).
Proof.
  revert b need out. induction fuel as [|fuel IH]; intros b need out Hok Hn Hf; simpl;
    destruct (N.eqb_spec need 0) as [->|Hne]; try lia; try (exists b; by rewrite takeN_0, app_nil_r).
  destruct (chunk_prefix b Hok) as (c & rest & -> & Hc & Hnil). simpl.
  assert (c ≠ []) as Hne'.
  { intros E. rewrite Hc, E, Hnil in Hn by done. vm_compute in Hn. by destruct need. }
  assert (0 < lenN c) by (destruct c; [done|len_solve]).
  set (cnt := N.min (lenN c) need). assert (cnt ≤ lenN c) by lia.
  destruct (buf_advance_ok b cnt Hok) as (b' & -> & Hok' & Hb'); [rewrite Hc; len_solve|]. simpl.
  destruct (IH b' (need - cnt) (out ++ takeN cnt c) Hok') as (b2 & -> & Hok2 & Hb2);
    [rewrite Hb'; len_solve|lia|].
  exists b2. rewrite Hb2, Hb', dropN_dropN. replace (cnt + (need - cnt)) with need by lia.
  split; [|done]. do 2 f_equal. rewrite <-app_assoc. f_equal. rewrite Hc.
  rewrite <-(take_dropN cnt (takeN need (c ++ rest))), takeN_takeN, dropN_takeN.
  replace (N.min cnt need) with cnt by lia. by rewrite (takeN_app_le cnt).
Qed.

Lemma copy_to_slice_spec b n : buf_ok b →
  if n <=? lenN (contents b)
  then ∃ b', copy_to_slice b n = Returns (b', takeN n (contents b)) ∧ buf_ok b' ∧ contents b' = dropN n (contents b)
  else copy_to_slice b n = Panicked.
Proof.
  intros Hok. unfold copy_to_slice. rewrite remaining_contents by done.
  destruct (N.leb_spec n (lenN (contents b))); [|done]. by apply copy_loop_spec.
Qed.

(** Reading what starts the contents. *)
Lemma copy_to_slice_prefix b l rest n : buf_ok b → contents b = l ++ rest → n = lenN l →
  ∃ b', copy_to_slice b n = Returns (b', l) ∧ buf_ok b' ∧ contents b' = rest.
Proof.
  intros Hok Hc ->. pose proof (copy_to_slice_spec b (lenN l) Hok) as Hs.
  destruct (N.leb_spec (lenN l) (lenN (contents b))); [|rewrite Hc in *; len_solve].
  destruct Hs as (b' & Hs & ? & Hr). rewrite Hc, takeN_app_exact in Hs by done.
  rewrite Hc, dropN_app_exact in Hr by done. eauto.
Qed.

Lemma get_u8_prefix b x rest : buf_ok b → contents b = x :: rest →
  ∃ b', get_u8 b = Returns (b', x) ∧ buf_ok b' ∧ contents b' = rest.
Proof.
  intros Hok Hc. unfold get_u8. rewrite remaining_contents, Hc by done.
  destruct (N.leb_spec 1 (lenN (x :: rest))); [|len_solve].
  destruct (chunk_prefix b Hok) as (c & k & -> & Hck & Hnil). simpl.
  destruct (buf_advance_ok b 1 Hok) as (b' & -> & Hok' & Hb'); [by rewrite Hc|]. simpl.
  rewrite Hc in Hck. destruct c as [|y c]; [by rewrite Hnil in Hck|]. simplify_eq/=.
  exists b'. split; [done|]. split; [done|]. by rewrite Hb', Hc.
Qed.

End buf_facts.

(** ** The instances are lawful *)

#[global] Instance slice_laws : BufLaws (list N).
Proof.
  refine {| contents l := l; buf_ok _ := True |}.
  - done.
  - intros l _. exists l, []. by rewrite app_nil_r.
  - intros l n _. simpl. destruct (n <=? lenN l); eauto.
Defined.

Lemma cursor_skip (l : list N) p n : p ≤ u64_MAX → lenN l ≤ isize_MAX → n ≤ lenN l - p →
  wrapping_add u64_MAX p n = p + n.
Proof. intros. unfold wrapping_add. apply N.mod_small. mlia. Qed.

Lemma position_chunk (l : list N) p :
  ∃ c rest, (if lenN l <=? p then Done [] else Done (dropN p l)) = Done c ∧ dropN p l = c ++ rest ∧ (c = [] → rest = []).
Proof.
  destruct (N.leb_spec (lenN l) p).
  - exists [], []. by rewrite dropN_ge.
  - exists (dropN p l), []. by rewrite app_nil_r.
Qed.

#[global] Instance cursor_laws : BufLaws Cursor.
Proof.
  refine {| contents c := dropN (position c) (get_ref c);
            buf_ok c := lenN (get_ref c) ≤ isize_MAX ∧ position c ≤ u64_MAX |}.
  - intros c _. simpl. unfold cursor_remaining. len_solve.
  - intros c _. apply position_chunk.
  - intros [l p] n [Hl Hp]. simpl in *. unfold cursor_advance, cursor_remaining, saturating_sub. simpl.
    rewrite len_dropN. destruct (N.leb_spec n (lenN l - p)); [|done]. eexists. split; [done|]. simpl.
    rewrite (cursor_skip l) by done. split; [mlia|]. by rewrite dropN_dropN.
Defined.

#[global] Instance bytes_cursor_laws : BufLaws BytesCursor.
Proof.
  refine {| contents c := dropN (bc_pos c) (window (bc_inner c));
            buf_ok c := b_ok (bc_inner c) ∧ bc_pos c ≤ usize_MAX |}.
  - intros c [Hok _]. simpl. unfold bc_remaining. rewrite len_dropN, window_len by done. done.
  - intros c [Hok _]. simpl. unfold bc_chunk. rewrite as_slice_window by done. apply position_chunk.
  - intros [i p] n [Hok Hp]. simpl in *. unfold bc_advance, bc_remaining, saturating_sub. simpl.
    rewrite len_dropN, <-(window_len i) by done. destruct (N.leb_spec n (lenN (window i) - p)); [|done].
    assert (lenN (window i) ≤ isize_MAX) by (rewrite window_len by done; destruct Hok; lia).
    eexists. split; [done|]. simpl. unfold usize_MAX in *. rewrite (cursor_skip (window i)) by done.
    split; [split; [done|mlia]|]. by rewrite dropN_dropN.
Defined.

#[global] Instance chain_laws `{BufLaws T, BufLaws U} : BufLaws (Chain T U).
Proof.
  refine {| contents c := contents (chain_a c) ++ contents (chain_b c);
            buf_ok c := buf_ok (chain_a c) ∧ buf_ok (chain_b c) ∧
                        lenN (contents (chain_a c)) + lenN (contents (chain_b c)) ≤ usize_MAX |}.
  - intros c (Ha & Hb & Hs). simpl. unfold chain_remaining.
    rewrite !remaining_contents, saturating_add_exact by done. len_solve.
  - intros c (Ha & Hb & Hs). simpl. unfold chain_chunk, has_remaining. rewrite remaining_contents by done.
    destruct (N.ltb_spec 0 (lenN (contents (chain_a c)))) as [Hl|Hl].
    + destruct (chunk_prefix _ Ha) as (k & rest & -> & E & Hnil). rewrite E in Hl |- *.
      exists k, (rest ++ contents (chain_b c)). rewrite app_assoc. split; [done|]. split; [done|].
      intros ->. rewrite Hnil in Hl by done. done.
    + rewrite (len_0 (contents (chain_a c))) by lia. by apply chunk_prefix.
  - intros c n (Ha & Hb & Hs). simpl. unfold chain_advance. rewrite remaining_contents, len_app by done.
    destruct (N.leb_spec n (lenN (contents (chain_a c)))) as [Hn|Hn].
    + destruct (N.leb_spec n (lenN (contents (chain_a c)) + lenN (contents (chain_b c)))); [|lia].
      destruct (buf_advance_ok (chain_a c) n Ha Hn) as (a & -> & Hoka & Hca). eexists. split; [done|]. simpl.
      rewrite Hca. split; [split_and!; auto; len_solve|]. by rewrite dropN_app_le.
    + assert (∃ a, (if 0 <? lenN (contents (chain_a c)) then advance (chain_a c) (lenN (contents (chain_a c)))
                    else Done (chain_a c)) = Done a ∧ buf_ok a ∧ contents a = []) as (a & -> & Hoka & Hca).
      { destruct (N.ltb_spec 0 (lenN (contents (chain_a c)))).
        - destruct (buf_advance_ok (chain_a c) _ Ha (N.le_refl _)) as (a & -> & ? & Hca). exists a. by rewrite Hca, dropN_ge.
        - exists (chain_a c). by rewrite (len_0 (contents _)) by lia. }
      simpl. pose proof (advance_drops (chain_b c) (n - lenN (contents (chain_a c))) Hb) as Hadv.
      destruct (N.leb_spec (n - lenN (contents (chain_a c))) (lenN (contents (chain_b c))));
        destruct (N.leb_spec n (lenN (contents (chain_a c)) + lenN (contents (chain_b c)))); try lia.
      * destruct Hadv as (b & -> & Hokb & Hcb). eexists. split; [done|]. simpl. rewrite Hca, Hcb. simpl.
        split; [split_and!; auto; len_solve|].
        rewrite <-(dropN_app_exact (lenN (contents (chain_a c))) (contents (chain_a c)) (contents (chain_b c))) at 1 by done.
        rewrite dropN_dropN. f_equal. lia.
      * by rewrite Hadv.
Defined.

#[global] Instance take_laws `{BufLaws T} : BufLaws (Take T).
Proof.
  refine {| contents t := takeN (take_limit t) (contents (take_inner t));
            buf_ok t := buf_ok (take_inner t) ∧ take_limit t ≤ usize_MAX |}.
  - intros t [Hok ?]. simpl. unfold take_remaining. rewrite remaining_contents by done. len_solve.
  - intros t [Hok ?]. simpl. unfold take_chunk. destruct (chunk_prefix _ Hok) as (c & rest & -> & -> & Hnil). simpl.
    exists (takeN (N.min (lenN c) (take_limit t)) c), (takeN (take_limit t - lenN c) rest). split; [done|].
    rewrite <-(take_dropN (N.min (lenN c) (take_limit t)) (takeN (take_limit t) (c ++ rest))), takeN_takeN, dropN_takeN.
    replace (N.min (N.min (lenN c) (take_limit t)) (take_limit t)) with (N.min (lenN c) (take_limit t)) by lia.
    rewrite (takeN_app_le (N.min (lenN c) _)) by lia.
    destruct (N.le_gt_cases (lenN c) (take_limit t)).
    + replace (N.min (lenN c) (take_limit t)) with (lenN c) by lia. rewrite dropN_app_exact by done.
      split; [done|]. rewrite (takeN_ge (lenN c)) by done. intros ->. rewrite Hnil by done. apply take_nil.
    + replace (take_limit t - N.min (lenN c) (take_limit t)) with 0 by lia.
      by replace (take_limit t - lenN c) with 0 by lia.
  - intros [i l] n [Hok Hl]. simpl in *. unfold take_advance, take_remaining. simpl.
    rewrite remaining_contents, len_takeN, (N.min_comm l) by done.
    destruct (N.leb_spec n (N.min (lenN (contents i)) l)); [|done].
    destruct (buf_advance_ok i n Hok) as (i' & -> & Hok' & Hc); [lia|]. eexists. split; [done|]. simpl.
    rewrite wrapping_sub_small by mlia. rewrite Hc, dropN_takeN. split; [split; [done|lia]|done].
Defined.

#[global] Instance bytes_mut_laws `{!Allocator} : BufMutLaws BytesMut.
Proof.
  refine {| written := active; mut_ok := bm_ok |}.
  intros b l Hok Hr Hs. pose proof (put_slice_spec b l Hok) as Hp.
  destruct (N.leb_spec (lenN (active b) + lenN l) isize_MAX); [|lia].
  destruct Hp as (b' & ? & Hok' & Ha). exists b'. split_and!; auto. simpl.
  rewrite !active_len by done. rewrite Ha, len_app, !wrapping_sub_small by mlia. lia.
Defined.

#[global] Instance vec_laws `{!Allocator} : BufMutLaws Vec.
Proof.
  refine {| written := elems; mut_ok := vec_ok |}.
  intros b l Hok Hr Hs. pose proof (vec_extend_spec b l Hok) as Hp.
  destruct (N.leb_spec (lenN (elems b) + lenN l) isize_MAX); [|lia].
  destruct Hp as (b' & ? & Hok' & Ha). exists b'. split_and!; auto. simpl.
  rewrite Ha, len_app, !wrapping_sub_small by mlia. lia.
Defined.

#[global] Instance limit_laws `{BufMutLaws T} : BufMutLaws (Limit T).
Proof.
  refine {| written t := written (limit_inner t); mut_ok t := mut_ok (limit_inner t) ∧ limit_left t ≤ usize_MAX |}.
  intros [i n] l [Hok Hn] Hr Hs. simpl in *. unfold limit_put_slice, limit_remaining in *. simpl in *.
  destruct (N.leb_spec (lenN l) (N.min (remaining_mut i) n)); [|lia].
  destruct (put_slice_appends i l Hok) as (i' & -> & ? & ? & Hrem); [lia|done|].
  eexists. split; [done|]. simpl. rewrite wrapping_sub_small by mlia. split_and!; auto; lia.
Defined.

(** ** Integers: what is written is read *)

Inductive IntKind := U8 | U16 | U16Le | U32 | U32Le | U64 | U64Le | U128 | U128Le.

Definition kind_width (k : IntKind) : nat :=
  match k with U8 => 1 | U16 | U16Le => 2 | U32 | U32Le => 4 | U64 | U64Le => 8 | U128 | U128Le => 16 end.

Definition kind_bytes (k : IntKind) (n : N) : list N :=
  match k with
  | U8 => [n]
  | U16 | U32 | U64 | U128 => to_be_bytes (kind_width k) n
  | U16Le | U32Le | U64Le | U128Le => to_le_bytes (kind_width k) n
  end.

Definition put_int `{BufMut B} (b : B) (k : IntKind) (n : N) : exec B :=
  match k with
  | U8 => buf_put_u8 b n | U16 => put_u16 b n | U16Le => put_u16_le b n | U32 => put_u32 b n
  | U32Le => put_u32_le b n | U64 => put_u64 b n | U64Le => put_u64_le b n
  | U128 => put_u128 b n | U128Le => put_u128_le b n
  end.

Definition get_int `{Buf B} (b : B) (k : IntKind) : run (B * N) :=
  match k with
  | U8 => get_u8 b | U16 => get_u16 b | U16Le => get_u16_le b | U32 => get_u32 b
  | U32Le => get_u32_le b | U64 => get_u64 b | U64Le => get_u64_le b
  | U128 => get_u128 b | U128Le => get_u128_le b
  end.

Fixpoint put_ints `{BufMut B} (b : B) (items : list (IntKind * N)) : exec B :=
  match items with
  | [] => Done b
  | (k, n) :: items => b ← put_int b k n; put_ints b items
  end.

Fixpoint get_ints `{Buf B} (b : B) (kinds : list IntKind) : run (B * list N) :=
  match kinds with
  | [] => Returns (b, [])
  | k :: kinds => p ← get_int b k; q ← get_ints p.1 kinds; Returns (q.1, p.2 :: q.2)
  end.

Definition ints_size (items : list (IntKind * N)) : N := sum_over (λ i, N.of_nat (kind_width i.1)) items.

(** Every value fits the type it is written as. *)
Definition ints_fit (items : list (IntKind * N)) : Prop :=
  Forall (λ i, i.2 < 256 ^ N.of_nat (kind_width i.1)) items.

Lemma kind_bytes_length k n : lenN (kind_bytes k n) = N.of_nat (kind_width k).
Proof. destruct k; [done|..]; unfold kind_bytes; by rewrite ?to_be_length, ?to_le_length. Qed.

Lemma put_int_bytes `{BufMut B} (b : B) k n : put_int b k n = buf_put_slice b (kind_bytes k n).
Proof. by destruct k. Qed.

Lemma get_int_prefix `{BufLaws B} (b : B) k n rest : buf_ok b → contents b = kind_bytes k n ++ rest →
  n < 256 ^ N.of_nat (kind_width k) → ∃ b', get_int b k = Returns (b', n) ∧ buf_ok b' ∧ contents b' = rest.
Proof.
  intros Hok Hc Hn. destruct k; [by apply get_u8_prefix|..];
    unfold get_int, get_u16, get_u16_le, get_u32, get_u32_le, get_u64, get_u64_le, get_u128, get_u128_le;
    match goal with |- context [copy_to_slice b ?w] =>
      destruct (copy_to_slice_prefix b _ rest w Hok Hc) as (b' & -> & ? & ?); [by rewrite kind_bytes_length|]
    end;
    exists b'; cbn [mbind run_bind fst snd kind_bytes]; rewrite ?from_to_be, ?from_to_le, N.mod_small by exact Hn; done.
Qed.

Lemma put_ints_spec `{BufMutLaws B} (b : B) items : mut_ok b →
  ints_size items ≤ remaining_mut b → lenN (written b) + ints_size items ≤ isize_MAX →
  ∃ b', put_ints b items = Done b' ∧ mut_ok b' ∧
        written b' = written b ++ concat ((λ i, kind_bytes i.1 i.2) <$> items).
Proof.
  revert b. induction items as [|[k n] items IH]; intros b Hok Hr Hs; simpl.
  { exists b. by rewrite app_nil_r. }
  unfold ints_size in Hr, Hs. simpl in Hr, Hs. fold (ints_size items) in *.
  pose proof (kind_bytes_length k n) as Hl. rewrite put_int_bytes.
  destruct (put_slice_appends b (kind_bytes k n) Hok) as (b1 & -> & Hok1 & Hw1 & Hr1); [lia..|]. simpl.
  destruct (IH b1 Hok1) as (b2 & -> & ? & Hw2); [lia|rewrite Hw1, len_app; lia|].
  exists b2. split; [done|]. split; [done|]. by rewrite Hw2, Hw1, app_assoc.
Qed.

Lemma get_ints_spec `{BufLaws B} (b : B) items rest : buf_ok b → ints_fit items →
  contents b = concat ((λ i, kind_bytes i.1 i.2) <$> items) ++ rest →
  ∃ b', get_ints b items.*1 = Returns (b', items.*2) ∧ buf_ok b' ∧ contents b' = rest.
Proof.
  intros Hok Hf. revert b Hok. induction Hf as [|[k n] items Hn Hf IH]; intros b Hok Hc; csimpl in *; [by exists b|].
  rewrite <-app_assoc in Hc. destruct (get_int_prefix b k n _ Hok Hc Hn) as (b1 & -> & Hok1 & Hc1). csimpl.
  destruct (IH b1 Hok1 Hc1) as (b2 & -> & ? & ?). by exists b2.
Qed.

(** Integers written into any lawful writer, in any mix of widths and byte
    orders, are read back in the same order through any lawful reader over the
    bytes written (a frozen buffer, a chain of pieces, a bounded view), which is
    left exactly behind them; writing them fails neither by a panic nor by
    truncation as long as the writer has room. *)
Theorem buf_ints_roundtrip `{BufMutLaws W, BufLaws R} (w : W) (items : list (IntKind * N)) :
  mut_ok w → ints_fit items →
  ints_size items ≤ remaining_mut w → lenN (written w) + ints_size items ≤ isize_MAX →
  ∃ w' out, put_ints w items = Done w' ∧ written w' = written w ++ out ∧ lenN out = ints_size items ∧
    ∀ (r : R) rest, buf_ok r → contents r = out ++ rest →
      ∃ r', get_ints r items.*1 = Returns (r', items.*2) ∧ buf_ok r' ∧ contents r' = rest.
Proof.
  intros Hw Hf Hr Hs. destruct (put_ints_spec w items Hw Hr Hs) as (w' & Hput & _ & Hwr).
  exists w', (concat ((λ i, kind_bytes i.1 i.2) <$> items)). split; [done|]. split; [done|]. split.
  - clear. unfold ints_size. induction items as [|[k n] items IH]; [done|]. csimpl. rewrite len_app, IH.
    by rewrite kind_bytes_length.
  - intros r rest Hok Hc. by apply get_ints_spec.
Qed.

#[local] Instance doubling_growth : Allocator.
Proof. refine {| vec_grow n extra := N.max (n + extra) (N.min (2 * n) isize_MAX) |}. intros. lia. Defined.

(** Three integers through a [Limit] over [BytesMut], read from a chain of two slices. *)
Lemma buf_ints_roundtrip_witness :
  let items := [(U16, 513); (U32Le, 70000); (U8, 9)] in
  let w := mkLimit bm_new 10 in
  mut_ok w ∧ ints_fit items ∧ ints_size items ≤ remaining_mut w ∧ lenN (written w) + ints_size items ≤ isize_MAX ∧
  ∃ w' out, put_ints w items = Done w' ∧ written w' = written w ++ out ∧ lenN out = ints_size items ∧
    ∀ (r : Chain (list N) Cursor) rest, buf_ok r → contents r = out ++ rest →
      ∃ r', get_ints r items.*1 = Returns (r', items.*2) ∧ buf_ok r' ∧ contents r' = rest.
Proof.
  intros items w.
  assert (mut_ok w) as Hw by (split; [split; [split|]|]; vm_compute; discriminate).
  assert (ints_fit items) as Hf by (repeat constructor; vm_compute; reflexivity).
  assert (ints_size items ≤ remaining_mut w) as Hr by (vm_compute; discriminate).
  assert (lenN (written w) + ints_size items ≤ isize_MAX) as Hs by (vm_compute; discriminate).
  split; [exact Hw|]. split; [exact Hf|]. split; [exact Hr|]. split; [exact Hs|].
  exact (buf_ints_roundtrip (R := Chain (list N) Cursor) w items Hw Hf Hr Hs).
Defined.
