(* ===== verification/LengthDelimited.v ===== *)
(** * The length-delimited codec

    Models [src/codec/length_delimited.rs]: [LengthDelimitedCodec] with its
    builder, the decoder's state machine (header, body, skipping the body of a
    rejected frame) and the encoder for length fields of one to eight bytes in
    both byte orders, over the [BytesMut] of [Bytes].  An iteration of the loop in
    [decode] that does not return changes the state from skipping to header or
    from header to body, so three iterations are enough: the fuel.

    The theorems: decoding does not depend on how the bytes were cut into chunks
    on arrival, frames survive an encode/decode round trip over any chunking, a
    rejected frame is skipped as a whole, and [decode] always returns. *)

From S2P Require Import Prelude Bytes Buf.

(** ** Data *)

Inductive IoErrorKind := InvalidData | UnexpectedEof.
Record IoError := mkIoError { io_kind : IoErrorKind; io_message : string }.

Record LengthDelimitedCodecBuilder := mkBuilder {
  length_field_offset : N;
  length_field_length : N;
  length_adjustment : Z;
  num_skip : option N;
  max_frame_length : N;
  big_endian : bool;
}.

Inductive DecodeState :=
| Head
| Data (n : N)
| Skip (remaining : N).

Record LengthDelimitedCodec := mkCodec { builder : LengthDelimitedCodecBuilder; state : DecodeState }.

Definition i64_MIN : Z := -9223372036854775808.
Definition i64_MAX : Z := 9223372036854775807.

(** [x as i64] in range, for [checked_add] and [checked_sub]. *)
Definition checked_i64 (x : Z) : option Z := if ((i64_MIN <=? x) && (x <=? i64_MAX))%Z then Some x else None.

(** [x << n] and [x >> n] on [u64]: the shift amount is taken modulo 64. *)
Definition shl_u64 (x n : N) : N := N.shiftl x (n mod 64) mod (u64_MAX + 1).
Definition shr_u64 (x n : N) : N := N.shiftr x (n mod 64).

Definition ok_or {A E} (o : option A) (e : E) : result A E := match o with Some a => Ok a | None => Err e end.

(** ** Builder *)

Definition default_builder : LengthDelimitedCodecBuilder :=
  mkBuilder 0 4 0 None (saturating_mul usize_MAX (saturating_mul usize_MAX 8 1024) 1024) true.

Definition set_length_field_offset b v := mkBuilder v (length_field_length b) (length_adjustment b) (num_skip b) (max_frame_length b) (big_endian b).
Definition set_length_field_length b v := mkBuilder (length_field_offset b) v (length_adjustment b) (num_skip b) (max_frame_length b) (big_endian b).
Definition set_length_adjustment b v := mkBuilder (length_field_offset b) (length_field_length b) v (num_skip b) (max_frame_length b) (big_endian b).
Definition set_max_frame_length b v := mkBuilder (length_field_offset b) (length_field_length b) (length_adjustment b) (num_skip b) v (big_endian b).
Definition set_num_skip b v := mkBuilder (length_field_offset b) (length_field_length b) (length_adjustment b) (Some v) (max_frame_length b) (big_endian b).
Definition set_big_endian b := mkBuilder (length_field_offset b) (length_field_length b) (length_adjustment b) (num_skip b) (max_frame_length b) true.
Definition set_little_endian b := mkBuilder (length_field_offset b) (length_field_length b) (length_adjustment b) (num_skip b) (max_frame_length b) false.

Definition new_codec (b : LengthDelimitedCodecBuilder) : exec LengthDelimitedCodec :=
  if (1 <=? length_field_length b) && (length_field_length b <=? 8) then Done (mkCodec b Head) else Panics.

(** ** Decoding *)

Definition max_length_field_value (n : N) : result N IoError :=
  if (1 <=? n) && (n <=? 7) then Ok (saturating_sub (shl_u64 1 (saturating_mul usize_MAX n 8)) 1)
  else if n =? 8 then Ok u64_MAX
  else Err (mkIoError InvalidData "invalid length_field_length").

(** The two loops over the bytes of the length field. *)
Definition read_be (bytes : list N) : N := foldl (λ value b, N.lor (shl_u64 value 8) b) 0 bytes.
Fixpoint read_le_from (shift : N) (value : N) (bytes : list N) : N :=
  match bytes with
  | [] => value
  | b :: bytes => read_le_from (shift + 1) (N.lor value (shl_u64 b (saturating_mul usize_MAX shift 8))) bytes
  end.

Definition decode_head (b : LengthDelimitedCodecBuilder) (src : list N) : result N IoError :=
  let offset := length_field_offset b in
  let e := saturating_add usize_MAX offset (length_field_length b) in
  if lenN src <? e then Err (mkIoError UnexpectedEof "not enough bytes for length field")
  else
    let bytes := takeN (e - offset) (dropN offset src) in
    Ok (if big_endian b then read_be bytes else read_le_from 0 0 bytes).

Definition adjusted_frame_len (b : LengthDelimitedCodecBuilder) (n : N) : result N IoError :=
  let? len_i64 := ok_or (checked_i64 (Z.of_N n)) (mkIoError InvalidData "length exceeds i64") in
  let? adjustment := ok_or (checked_i64 (length_adjustment b)) (mkIoError InvalidData "length adjustment exceeds i64") in
  let? adjusted := ok_or (checked_i64 (len_i64 + adjustment)%Z) (mkIoError InvalidData "length overflow") in
  if (adjusted <? 0)%Z then Err (mkIoError InvalidData "negative frame length")
  else
    let len_usize := Z.to_N adjusted in
    if max_frame_length b <? len_usize then Err (mkIoError InvalidData "frame length exceeds max_frame_length")
    else Ok len_usize.

Definition codec_num_skip (b : LengthDelimitedCodecBuilder) (header_len : N) : N := default header_len (num_skip b).

Definition checked_usize (n : N) (message : string) : result N IoError :=
  if n <=? usize_MAX then Ok n else Err (mkIoError InvalidData message).

Section codec.
Context `{!Allocator}.

(** What one iteration of the loop in [decode] does: go on with a new state and
    buffer, or return. *)
Inductive Step :=
| Continue (s : DecodeState) (src : BytesMut)
| Return (s : DecodeState) (src : BytesMut) (r : result (option BytesMut) IoError).

Definition decode_step (b : LengthDelimitedCodecBuilder) (s : DecodeState) (src : BytesMut) : exec Step :=
  match s with
  | Head =>
      match checked_usize (length_field_offset b + length_field_length b)
              "header length (offset + length_field_length) overflows usize" with
      | Err e => Done (Return s src (Err e))
      | Ok header_len =>
          if bm_len src <? header_len then Done (Return s src (Ok None))
          else
            match decode_head b (active src) with
            | Err e => Done (Return s src (Err e))
            | Ok raw_len =>
                match adjusted_frame_len b raw_len with
                | Err e =>
                    p ← split_to src header_len;
                    Done (Return (Skip raw_len) p.1 (Err e))
                | Ok frame_len =>
                    match checked_usize (header_len + frame_len) "frame length overflow" with
                    | Err e => Done (Return s src (Err e))
                    | Ok total_frame_len =>
                        let skip := codec_num_skip b header_len in
                        match checked_sub total_frame_len skip with
                        | None => Done (Return s src (Err (mkIoError InvalidData "num_skip exceeds total frame length")))
                        | Some retained_len =>
                            if bm_len src <? skip then Done (Return s src (Ok None))
                            else
                              src ← (if 0 <? skip then p ← split_to src skip; Done p.1 else Done src);
                              Done (Continue (Data retained_len) src)
                        end
                    end
                end
            end
      end
  | Data frame_len =>
      if bm_len src <? frame_len then Done (Return s src (Ok None))
      else
        p ← split_to src frame_len;
        Done (Return Head p.1 (Ok (Some p.2)))
  | Skip remaining =>
      let drain := N.min remaining (bm_len src) in
      src ← (if 0 <? drain then p ← split_to src drain; Done p.1 else Done src);
      let new_remaining := remaining - drain in
      if new_remaining =? 0 then Done (Continue Head src)
      else Done (Return (Skip new_remaining) src (Ok None))
  end.

Fixpoint decode_loop (fuel : nat) b s src : run (DecodeState * BytesMut * result (option BytesMut) IoError) :=
  match fuel with
  | O => OutOfFuel
  | S fuel =>
      r ← lift (decode_step b s src);
      match r with
      | Continue s src => decode_loop fuel b s src
      | Return s src r => Returns (s, src, r)
      end
  end.

Definition decode (self : LengthDelimitedCodec) (src : BytesMut) :
    run (LengthDelimitedCodec * BytesMut * result (option BytesMut) IoError) :=
  r ← decode_loop 3 (builder self) (state self) src;
  Returns (mkCodec (builder self) r.1.1, r.1.2, r.2).

(** ** Encoding *)

(** The writes of the length field, by width and byte order; [n as u8] and
    the like are [truncate_to]. *)
Definition put_length_be (width : N) (dst : BytesMut) (n : N) : exec (option BytesMut) :=
  match width with
  | 1 => Some <$> put_u8 dst (truncate_to 1 n)
  | 2 => Some <$> put_u16 dst (truncate_to 2 n)
  | 3 => dst ← put_u8 dst (truncate_to 1 (shr_u64 n 16)); Some <$> put_u16 dst (truncate_to 2 n)
  | 4 => Some <$> put_u32 dst (truncate_to 4 n)
  | 5 => dst ← put_u8 dst (truncate_to 1 (shr_u64 n 32)); Some <$> put_u32 dst (truncate_to 4 n)
  | 6 => dst ← put_u16 dst (truncate_to 2 (shr_u64 n 32)); Some <$> put_u32 dst (truncate_to 4 n)
  | 7 =>
      dst ← put_u8 dst (truncate_to 1 (shr_u64 n 48));
      dst ← put_u16 dst (truncate_to 2 (shr_u64 n 32));
      Some <$> put_u32 dst (truncate_to 4 n)
  | 8 => Some <$> put_u64 dst n
  | _ => Done None
  end.

Definition put_length_le (width : N) (dst : BytesMut) (n : N) : exec (option BytesMut) :=
  match width with
  | 1 => Some <$> put_u8 dst (truncate_to 1 n)
  | 2 => Some <$> put_u16_le dst (truncate_to 2 n)
  | 3 => dst ← put_u16_le dst (truncate_to 2 n); Some <$> put_u8 dst (truncate_to 1 (shr_u64 n 16))
  | 4 => Some <$> put_u32_le dst (truncate_to 4 n)
  | 5 => dst ← put_u32_le dst (truncate_to 4 n); Some <$> put_u8 dst (truncate_to 1 (shr_u64 n 32))
  | 6 => dst ← put_u32_le dst (truncate_to 4 n); Some <$> put_u16_le dst (truncate_to 2 (shr_u64 n 32))
  | 7 =>
      dst ← put_u32_le dst (truncate_to 4 n);
      dst ← put_u16_le dst (truncate_to 2 (shr_u64 n 32));
      Some <$> put_u8 dst (truncate_to 1 (shr_u64 n 48))
  | 8 => Some <$> put_u64_le dst n
  | _ => Done None
  end.

(** The checks of [encode], up to the length that is written. *)
Definition length_to_encode (b : LengthDelimitedCodecBuilder) (frame_len : N) : result N IoError :=
  let? adjustment := ok_or (checked_i64 (length_adjustment b)) (mkIoError InvalidData "length adjustment exceeds i64") in
  let? frame_len_i64 := ok_or (checked_i64 (Z.of_N frame_len)) (mkIoError InvalidData "frame length exceeds i64") in
  let? adjusted_len := ok_or (checked_i64 (frame_len_i64 - adjustment)%Z) (mkIoError InvalidData "length underflow") in
  if (adjusted_len <? 0)%Z then Err (mkIoError InvalidData "negative encoded length")
  else
    let n := Z.to_N adjusted_len in
    let? max_length_value := max_length_field_value (length_field_length b) in
    if max_length_value <? n then Err (mkIoError InvalidData "encoded length exceeds length_field_length capacity")
    else if max_frame_length b <? frame_len then Err (mkIoError InvalidData "frame length exceeds max_frame_length")
    else Ok n.

Definition encode (self : LengthDelimitedCodec) (item dst : BytesMut) : exec (BytesMut * result () IoError) :=
  let b := builder self in
  let frame_len := bm_len item in
  match length_to_encode b frame_len with
  | Err e => Done (dst, Err e)
  | Ok n =>
      match checked_usize (length_field_length b + frame_len) "frame buffer reservation overflows usize" with
      | Err e => Done (dst, Err e)
      | Ok total_len =>
          dst ← reserve dst total_len;
          o ← (if big_endian b then put_length_be else put_length_le) (length_field_length b) dst n;
          match o with
          | None => Done (dst, Err (mkIoError InvalidData "invalid length_field_length"))
          | Some dst =>
              dst ← put_slice dst (active item);
              Done (dst, Ok ())
          end
      end
  end.

End codec.

(** ** The decoder on a plain list of bytes

    What one call of [decode] does, without the loop and without the buffer. *)

Definition data_list (n : N) (l : list N) : DecodeState * list N * result (option (list N)) IoError :=
  if lenN l <? n then (Data n, l, Ok None) else (Head, dropN n l, Ok (Some (takeN n l))).

Definition head_list (b : LengthDelimitedCodecBuilder) (l : list N) :
    DecodeState * list N * result (option (list N)) IoError :=
  let header_len := length_field_offset b + length_field_length b in
  if usize_MAX <? header_len then
    (Head, l, Err (mkIoError InvalidData "header length (offset + length_field_length) overflows usize"))
  else if lenN l <? header_len then (Head, l, Ok None)
  else
    let field := takeN (length_field_length b) (dropN (length_field_offset b) l) in
    let raw_len := if big_endian b then read_be field else read_le_from 0 0 field in
    match adjusted_frame_len b raw_len with
    | Err e => (Skip raw_len, dropN header_len l, Err e)
    | Ok frame_len =>
        let skip := codec_num_skip b header_len in
        if usize_MAX <? header_len + frame_len then (Head, l, Err (mkIoError InvalidData "frame length overflow"))
        else if header_len + frame_len <? skip then
          (Head, l, Err (mkIoError InvalidData "num_skip exceeds total frame length"))
        else if lenN l <? skip then (Head, l, Ok None)
        else data_list (header_len + frame_len - skip) (dropN skip l)
    end.

Definition decode_list (b : LengthDelimitedCodecBuilder) (s : DecodeState) (l : list N) :
    DecodeState * list N * result (option (list N)) IoError :=
  match s with
  | Head => head_list b l
  | Data n => data_list n l
  | Skip r => if r <=? lenN l then head_list b (dropN r l) else (Skip (r - lenN l), [], Ok None)
  end.

Definition result_view (r : result (option BytesMut) IoError) : result (option (list N)) IoError :=
  match r with Ok o => Ok (active <$> o) | Err e => Err e end.

Definition frame_ok (r : result (option BytesMut) IoError) : Prop :=
  match r with Ok (Some f) => bm_ok f | _ => True end.

Section decode_facts.
Context `{!Allocator}.
Implicit Types (b : LengthDelimitedCodecBuilder) (src : BytesMut).

Lemma split_to_ok src n : bm_ok src → n ≤ lenN (active src) →
  ∃ src' h, split_to src n = Done (src', h) ∧ bm_ok src' ∧ bm_ok h ∧
    active src' = dropN n (active src) ∧ active h = takeN n (active src).
Proof. intros Hok Hn. pose proof (split_to_spec src n Hok) as Hs. apply N.leb_le in Hn. by rewrite Hn in Hs. Qed.

(** Dropping a prefix that may be empty. *)
Lemma drop_prefix_ok src n : bm_ok src → n ≤ lenN (active src) →
  ∃ src', (if 0 <? n then p ← split_to src n; Done p.1 else Done src) = Done src' ∧ bm_ok src' ∧
    active src' = dropN n (active src).
Proof.
  intros Hok Hn. destruct (N.ltb_spec 0 n).
  - destruct (split_to_ok src n Hok Hn) as (src' & h & -> & ? & ? & ? & _). by exists src'.
  - exists src. by replace n with 0 by lia.
Qed.

(** The run [m] has the result [v] of the decoder on lists. *)
Definition decodes (m : run (DecodeState * BytesMut * result (option BytesMut) IoError))
    (v : DecodeState * list N * result (option (list N)) IoError) : Prop :=
  ∃ s' src' r', m = Returns (s', src', r') ∧ bm_ok src' ∧ frame_ok r' ∧ v = (s', active src', result_view r').

Lemma decode_loop_data fuel b n src : bm_ok src → decodes (decode_loop (S fuel) b (Data n) src) (data_list n (active src)).
Proof.
  intros Hok. unfold decodes, data_list. simpl. rewrite active_len by done.
  destruct (N.ltb_spec (lenN (active src)) n); simpl; [by eexists _, _, _|].
  destruct (split_to_ok src n Hok) as (src' & h & -> & ? & ? & Ha & Hh); [done|]. simpl.
  eexists _, _, _. split; [done|]. simpl. by rewrite Ha, Hh.
Qed.

Lemma decode_loop_head fuel b src : bm_ok src → decodes (decode_loop (S (S fuel)) b Head src) (head_list b (active src)).
Proof.
  intros Hok. unfold head_list. cbn [decode_loop decode_step]. unfold checked_usize. rewrite active_len by done.
  set (h := length_field_offset b + length_field_length b).
  destruct (N.leb_spec h usize_MAX); destruct (N.ltb_spec usize_MAX h); try lia; [|by eexists _, _, _].
  destruct (N.ltb_spec (lenN (active src)) h); [by eexists _, _, _|].
  unfold decode_head. fold h. rewrite saturating_add_exact by done. fold h.
  destruct (N.ltb_spec (lenN (active src)) h); [lia|].
  replace (h - length_field_offset b) with (length_field_length b) by lia.
  set (raw := if big_endian b then _ else _). destruct (adjusted_frame_len b raw) as [n|e].
  - destruct (N.leb_spec (h + n) usize_MAX); destruct (N.ltb_spec usize_MAX (h + n)); try lia; [|by eexists _, _, _].
    unfold checked_sub. destruct (N.leb_spec (codec_num_skip b h) (h + n));
      destruct (N.ltb_spec (h + n) (codec_num_skip b h)); try lia; [|by eexists _, _, _].
    destruct (N.ltb_spec (lenN (active src)) (codec_num_skip b h)); [by eexists _, _, _|].
    destruct (drop_prefix_ok src (codec_num_skip b h) Hok) as (src' & -> & Hok' & <-); [done|].
    by apply decode_loop_data.
  - destruct (split_to_ok src h Hok) as (src' & k & -> & ? & ? & Ha & _); [done|].
    eexists _, _, _. split; [done|]. simpl. by rewrite Ha.
Qed.

(** [decode] returns, without panic, and with the result of the decoder on lists. *)
Lemma decode_loop_spec b s src : bm_ok src → decodes (decode_loop 3 b s src) (decode_list b s (active src)).
Proof.
  intros Hok. destruct s as [|n|r]; [by apply decode_loop_head|by apply decode_loop_data|].
  cbn [decode_loop decode_step decode_list]. rewrite active_len by done.
  destruct (drop_prefix_ok src (N.min r (lenN (active src))) Hok) as (src' & -> & Hok' & Ha); [lia|]. simpl lift.
  destruct (N.leb_spec r (lenN (active src))).
  - replace (N.min r (lenN (active src))) with r in * by lia. rewrite N.sub_diag. rewrite <-Ha. exact (decode_loop_head 0 b src' Hok').
  - replace (N.min r (lenN (active src))) with (lenN (active src)) in * by lia.
    destruct (N.eqb_spec (r - lenN (active src)) 0); [lia|].
    eexists _, _, _. split; [done|]. simpl. rewrite Ha, dropN_ge by done. done.
Qed.

End decode_facts.

(** ** Decoding does not see chunk boundaries *)

Lemma data_list_append n l m :
  match data_list n l with
  | (s', l', Ok None) => data_list n (l ++ m) = data_list n (l' ++ m) ∧ s' = Data n
  | (s', l', r) => data_list n (l ++ m) = (s', l' ++ m, r)
  end.
Proof.
  unfold data_list. destruct (N.ltb_spec (lenN l) n); [done|].
  destruct (N.ltb_spec (lenN (l ++ m)) n); [len_solve|].
  by rewrite takeN_app_le, dropN_app_le.
Qed.

Lemma head_list_append b l m :
  match head_list b l with
  | (s', l', Ok None) => head_list b (l ++ m) = decode_list b s' (l' ++ m)
  | (s', l', r) => head_list b (l ++ m) = (s', l' ++ m, r)
  end.
Proof.
  unfold head_list at 1. set (h := length_field_offset b + length_field_length b).
  destruct (N.ltb_spec usize_MAX h) as [Hh|Hh].
  { unfold head_list. fold h. destruct (N.ltb_spec usize_MAX h); [done|lia]. }
  destruct (N.ltb_spec (lenN l) h) as [Hl|Hl]; [done|].
  set (field := takeN _ (dropN _ l)). set (raw := if big_endian b then _ else _).
  assert (Hf : takeN (length_field_length b) (dropN (length_field_offset b) (l ++ m)) = field).
  { rewrite dropN_app_le, takeN_app_le by (rewrite ?len_dropN; lia). done. }
  destruct (adjusted_frame_len b raw) as [n|e] eqn:Hadj; unfold head_list; fold h; rewrite Hf; fold raw; rewrite Hadj;
    (destruct (N.ltb_spec usize_MAX h); [lia|]);
    (destruct (N.ltb_spec (lenN (l ++ m)) h); [rewrite len_app in *; lia|]); [|by rewrite dropN_app_le].
  destruct (N.ltb_spec usize_MAX (h + n)); [done|].
  destruct (N.ltb_spec (h + n) (codec_num_skip b h)) as [?|Hs]; [done|].
  destruct (N.ltb_spec (lenN l) (codec_num_skip b h)) as [Hk|Hk].
  { unfold decode_list, head_list. fold h. rewrite Hf. fold raw. rewrite Hadj.
    destruct (N.ltb_spec usize_MAX h); [lia|].
    destruct (N.ltb_spec (lenN (l ++ m)) h); [lia|].
    destruct (N.ltb_spec usize_MAX (h + n)); [lia|].
    destruct (N.ltb_spec (h + n) (codec_num_skip b h)); [lia|done]. }
  destruct (N.ltb_spec (lenN (l ++ m)) (codec_num_skip b h)); [rewrite len_app in *; lia|].
  rewrite dropN_app_le by done.
  pose proof (data_list_append (h + n - codec_num_skip b h) (dropN (codec_num_skip b h) l) m) as Hd.
  destruct (data_list _ (dropN _ l)) as [[s' l'] [[f|]|e]]; [done| |done]. by destruct Hd as [-> ->].
Qed.

(** If a call consumed less than a frame, the bytes that arrive later complete
    it; if it produced something, they are left for the next call. *)
Lemma decode_list_append b s l m :
  match decode_list b s l with
  | (s', l', Ok None) => decode_list b s (l ++ m) = decode_list b s' (l' ++ m)
  | (s', l', r) => decode_list b s (l ++ m) = (s', l' ++ m, r)
  end.
Proof.
  destruct s as [|n|r]; simpl; [apply head_list_append| |].
  - pose proof (data_list_append n l m) as Hd.
    destruct (data_list n l) as [[s' l'] [[f|]|e]]; [done| |done]. by destruct Hd as [-> ->].
  - destruct (N.leb_spec r (lenN l)).
    + destruct (N.leb_spec r (lenN (l ++ m))); [|len_solve]. rewrite dropN_app_le by done. apply head_list_append.
    + simpl. rewrite len_app.
      destruct (N.leb_spec r (lenN l + lenN m)); destruct (N.leb_spec (r - lenN l) (lenN m)); try lia.
      * f_equal. replace r with (lenN l + (r - lenN l)) at 1 by lia. by rewrite <-dropN_dropN, dropN_app_exact.
      * do 3 f_equal. lia.
Qed.

(** ** The length field *)

Lemma lor_add a b k : b < 2 ^ k → N.lor (a * 2 ^ k) b = a * 2 ^ k + b.
Proof.
  intros Hb. assert (N.land (a * 2 ^ k) b = 0) as Hl.
  { apply N.bits_inj. intros i. rewrite N.land_spec, N.bits_0. destruct (N.lt_ge_cases i k) as [Hi|Hi].
    - by rewrite N.mul_pow2_bits_low.
    - rewrite <-(N.mod_small b (2 ^ k)), N.mod_pow2_bits_high by done. apply andb_false_r. }
  by rewrite N.add_nocarry_lxor, N.lxor_lor.
Qed.

Lemma shl_u64_exact x n : n < 64 → x * 2 ^ n ≤ u64_MAX → shl_u64 x n = x * 2 ^ n.
Proof.
  intros Hn Hx. unfold shl_u64. rewrite (N.mod_small n), N.shiftl_mul_pow2 by done. apply N.mod_small. lia.
Qed.

Lemma pow256 k : 256 ^ k = 2 ^ (8 * k).
Proof. by rewrite N.pow_mul_r. Qed.

Lemma pow256_u64 k : k ≤ 8 → 256 ^ k ≤ u64_MAX + 1.
Proof. intros Hk. transitivity (256 ^ 8); [apply N.pow_le_mono_r; lia|done]. Qed.

Lemma read_be_foldl l v k : bytes_ok l → v < 256 ^ k → k + lenN l ≤ 8 →
  foldl (λ value b, N.lor (shl_u64 value 8) b) v l = v * 256 ^ lenN l + from_be_bytes l.
Proof.
  intros Hl. revert v k. induction Hl as [|b l Hb Hl IH]; intros v k Hv Hk.
  { change (from_be_bytes []) with 0. change (256 ^ lenN []) with 1. cbn [foldl]. lia. }
  cbn [foldl]. rewrite len_cons in Hk |- *.
  assert (Hk1 : 256 ^ (k + 1) ≤ u64_MAX + 1) by (apply pow256_u64; lia). rewrite N.pow_add_r in Hk1.
  change (256 ^ 1) with 256 in Hk1.
  rewrite shl_u64_exact by (change (2 ^ 8) with 256; lia). rewrite lor_add by done. change (2 ^ 8) with 256.
  rewrite (IH _ (k + 1)) by (rewrite ?N.pow_add_r; change (256 ^ 1) with 256; lia).
  assert (Hbe : from_be_bytes (b :: l) = b * 256 ^ lenN l + from_be_bytes l).
  { unfold from_be_bytes. rewrite reverse_cons. clear.
    assert (Happ : ∀ k j, from_le_bytes (k ++ [j]) = from_le_bytes k + 256 ^ lenN k * j).
    { induction k as [|x k IH]; intros j; [simpl; change (256 ^ lenN []) with 1; lia|].
      simpl from_le_bytes. rewrite IH, len_cons, N.pow_add_r. change (256 ^ 1) with 256. lia. }
    rewrite Happ. unfold lenN. rewrite length_reverse. lia. }
  rewrite Hbe, N.pow_add_r. change (256 ^ 1) with 256. lia.
Qed.

Lemma read_be_eq l : bytes_ok l → lenN l ≤ 8 → read_be l = from_be_bytes l.
Proof. intros Hl Hk. unfold read_be. rewrite (read_be_foldl l 0 0) by (done || lia). lia. Qed.

Lemma read_le_from_eq l i v : bytes_ok l → i + lenN l ≤ 8 → v < 256 ^ i →
  read_le_from i v l = v + 256 ^ i * from_le_bytes l.
Proof.
  intros Hl. revert i v. induction Hl as [|b l Hb Hl IH]; intros i v Hi Hv; simpl; [lia|].
  rewrite len_cons in Hi. assert (Hp : 256 ^ (i + 1) ≤ u64_MAX + 1) by (apply pow256_u64; lia).
  rewrite N.pow_add_r in Hp. change (256 ^ 1) with 256 in Hp.
  unfold saturating_mul. replace (N.min (i * 8) usize_MAX) with (8 * i) by mlia.
  assert (Hbi : b * 256 ^ i ≤ 255 * 256 ^ i) by (apply N.mul_le_mono_r; lia).
  rewrite shl_u64_exact by (rewrite <-?pow256; lia). rewrite <-pow256.
  rewrite N.lor_comm. rewrite (pow256 i), lor_add by (by rewrite <-pow256). rewrite <-pow256.
  rewrite IH; [rewrite N.pow_add_r; change (256 ^ 1) with 256; lia|lia|].
  rewrite N.pow_add_r. change (256 ^ 1) with 256. lia.
Qed.

Definition read_length (b : LengthDelimitedCodecBuilder) (field : list N) : N :=
  if big_endian b then read_be field else read_le_from 0 0 field.

(** The bytes of the length field for the value [n]. *)
Definition length_bytes (b : LengthDelimitedCodecBuilder) (n : N) : list N :=
  (if big_endian b then to_be_bytes else to_le_bytes) (N.to_nat (length_field_length b)) n.

Lemma length_bytes_len b n : lenN (length_bytes b n) = length_field_length b.
Proof. unfold length_bytes. destruct (big_endian b); rewrite ?to_be_length, ?to_le_length; lia. Qed.

Lemma read_length_bytes b n : length_field_length b ≤ 8 → n < 256 ^ length_field_length b →
  read_length b (length_bytes b n) = n.
Proof.
  intros Hw Hn. unfold read_length. pose proof (length_bytes_len b n) as Hl. unfold length_bytes in *.
  destruct (big_endian b).
  - rewrite read_be_eq, from_to_be, N2Nat.id by (apply to_be_ok || lia). by apply N.mod_small.
  - rewrite read_le_from_eq, from_to_le, N2Nat.id by (apply to_le_ok || done || lia).
    rewrite N.mod_small by done. change (256 ^ 0) with 1. lia.
Qed.

Lemma max_length_value_bound w m : max_length_field_value w = Ok m → 1 ≤ w ≤ 8 ∧ m + 1 = 256 ^ w.
Proof.
  unfold max_length_field_value. destruct (N.leb_spec 1 w); simpl; [|destruct (N.eqb_spec w 8); [lia|done]].
  destruct (N.leb_spec w 7); simpl.
  - intros [= <-]. split; [lia|]. unfold saturating_sub, saturating_mul. replace (N.min (w * 8) usize_MAX) with (8 * w) by mlia.
    assert (256 ^ w ≤ 256 ^ 7) by (apply N.pow_le_mono_r; lia).
    assert (1 ≤ 256 ^ w) by (rewrite <-(N.pow_0_r 256); apply N.pow_le_mono_r; lia).
    rewrite shl_u64_exact, N.mul_1_l, <-pow256; [lia|lia|]. rewrite N.mul_1_l, <-pow256.
    transitivity (256 ^ 7); [done|]. vm_compute. discriminate.
  - destruct (N.eqb_spec w 8) as [->|]; [|done]. intros [= <-]. done.
Qed.

(** ** Writing the length field *)

Lemma to_le_app i j n : to_le_bytes (i + j) n = to_le_bytes i n ++ to_le_bytes j (n / 256 ^ N.of_nat i).
Proof.
  revert n. induction i as [|i IH]; intros n; [by rewrite N.div_1_r|].
  rewrite pow256_S, <-N.Div0.div_div. simpl. by rewrite IH.
Qed.

Lemma to_be_app i j n : to_be_bytes (i + j) n = to_be_bytes j (n / 256 ^ N.of_nat i) ++ to_be_bytes i n.
Proof. unfold to_be_bytes. by rewrite to_le_app, reverse_app. Qed.

Lemma to_le_truncate k n : to_le_bytes k (truncate_to k n) = to_le_bytes k n.
Proof.
  unfold truncate_to. revert n. induction k as [|k IH]; intros n; [done|].
  simpl. rewrite pow256_S, N.Div0.mod_mul_r. rewrite (N.add_comm (n mod 256)), (N.mul_comm 256).
  rewrite N.add_comm, N.Div0.mod_add, N.Div0.mod_mod, N.div_add by lia.
  rewrite (N.div_small (n mod 256)) by (apply N.mod_lt; lia). rewrite N.add_0_l. f_equal. apply IH.
Qed.

Lemma to_be_truncate k n : to_be_bytes k (truncate_to k n) = to_be_bytes k n.
Proof. unfold to_be_bytes. by rewrite to_le_truncate. Qed.

Lemma u8_bytes_le n : to_le_bytes 1 n = [truncate_to 1 n].
Proof. done. Qed.

Lemma u8_bytes_be n : to_be_bytes 1 n = [truncate_to 1 n].
Proof. done. Qed.

Lemma shr_u64_div n k : k < 8 → shr_u64 n (8 * k) = n / 256 ^ k.
Proof. intros Hk. unfold shr_u64. rewrite N.mod_small, N.shiftr_div_pow2, pow256 by lia. done. Qed.

Section encode_facts.
Context `{!Allocator}.
Implicit Types (dst item : BytesMut).

(** The computation [m] appends [l] to [dst]. *)
Definition appends dst (l : list N) (m : exec (option BytesMut)) : Prop :=
  ∃ dst', m = Done (Some dst') ∧ bm_ok dst' ∧ active dst' = active dst ++ l.

Lemma put_slice_ok dst l : bm_ok dst → lenN (active dst) + lenN l ≤ isize_MAX →
  ∃ dst', put_slice dst l = Done dst' ∧ bm_ok dst' ∧ active dst' = active dst ++ l.
Proof. intros Hok Hl. pose proof (put_slice_spec dst l Hok) as Hs. apply N.leb_le in Hl. by rewrite Hl in Hs. Qed.

Lemma appends_last dst l : bm_ok dst → lenN (active dst) + lenN l ≤ isize_MAX →
  appends dst l (Some <$> put_slice dst l).
Proof. intros Hok Hl. destruct (put_slice_ok dst l Hok Hl) as (d & -> & ? & ?). by exists d. Qed.

Lemma appends_step dst l1 l2 k : bm_ok dst → lenN (active dst) + lenN (l1 ++ l2) ≤ isize_MAX →
  (∀ d, bm_ok d → lenN (active d) + lenN l2 ≤ isize_MAX → appends d l2 (k d)) →
  appends dst (l1 ++ l2) (d ← put_slice dst l1; k d).
Proof.
  intros Hok Hl Hk. rewrite len_app in Hl.
  destruct (put_slice_ok dst l1 Hok) as (d & -> & Hok' & Ha); [lia|]. simpl.
  destruct (Hk d Hok') as (d' & -> & ? & Ha'); [rewrite Ha, len_app; lia|].
  exists d'. by rewrite Ha', Ha, <-app_assoc.
Qed.

Lemma put_length_be_spec w dst n : 1 ≤ w ≤ 8 → bm_ok dst → lenN (active dst) + w ≤ isize_MAX →
  appends dst (to_be_bytes (N.to_nat w) n) (put_length_be w dst n).
Proof.
  intros Hw Hok Hl. assert (w ∈ [1; 2; 3; 4; 5; 6; 7; 8]) as Hin by (rewrite !elem_of_cons; lia).
  replace w with (lenN (to_be_bytes (N.to_nat w) n)) in Hl by (rewrite to_be_length; lia). revert Hl.
  pose proof (shr_u64_div n 2 ltac:(lia)) as S2. pose proof (shr_u64_div n 4 ltac:(lia)) as S4.
  pose proof (shr_u64_div n 6 ltac:(lia)) as S6.
  change (8 * 2) with 16 in S2. change (8 * 4) with 32 in S4. change (8 * 6) with 48 in S6.
  repeat (apply elem_of_cons in Hin as [->|Hin]); try (by apply elem_of_nil in Hin);
    unfold put_length_be; rewrite ?S2, ?S4, ?S6.
  - apply (appends_last dst (to_be_bytes 1 n)). done.
  - unfold put_u16. rewrite to_be_truncate. by apply (appends_last dst (to_be_bytes 2 n)).
  - change (N.to_nat 3) with (2 + 1)%nat. rewrite to_be_app. rewrite <-(to_be_truncate 2 n), u8_bytes_be.
    intros Hl. rewrite ?put_u8_slice. apply appends_step; [done..|]. intros d ? ?. rewrite ?put_u8_slice. by apply appends_last.
  - unfold put_u32. rewrite to_be_truncate. by apply (appends_last dst (to_be_bytes 4 n)).
  - change (N.to_nat 5) with (4 + 1)%nat. rewrite to_be_app. rewrite <-(to_be_truncate 4 n), u8_bytes_be.
    intros Hl. rewrite ?put_u8_slice. apply appends_step; [done..|]. intros d ? ?. rewrite ?put_u8_slice. by apply appends_last.
  - change (N.to_nat 6) with (4 + 2)%nat. rewrite to_be_app. rewrite <-(to_be_truncate 4 n), <-(to_be_truncate 2 (n / 256 ^ N.of_nat 4)).
    intros Hl. rewrite ?put_u8_slice. apply appends_step; [done..|]. intros d ? ?. rewrite ?put_u8_slice. by apply appends_last.
  - change (N.to_nat 7) with (4 + 3)%nat. rewrite to_be_app, (to_be_app 2 1), N.Div0.div_div, <-app_assoc.
    rewrite <-(to_be_truncate 4 n), <-(to_be_truncate 2 (n / _)), u8_bytes_be.
    intros Hl. rewrite ?put_u8_slice. apply appends_step; [done..|]. intros d ? ?. apply appends_step; [done..|]. intros d' ? ?. rewrite ?put_u8_slice. by apply appends_last.
  - by apply (appends_last dst (to_be_bytes 8 n)).
Qed.

Lemma put_length_le_spec w dst n : 1 ≤ w ≤ 8 → bm_ok dst → lenN (active dst) + w ≤ isize_MAX →
  appends dst (to_le_bytes (N.to_nat w) n) (put_length_le w dst n).
Proof.
  intros Hw Hok Hl. assert (w ∈ [1; 2; 3; 4; 5; 6; 7; 8]) as Hin by (rewrite !elem_of_cons; lia).
  replace w with (lenN (to_le_bytes (N.to_nat w) n)) in Hl by (rewrite to_le_length; lia). revert Hl.
  pose proof (shr_u64_div n 2 ltac:(lia)) as S2. pose proof (shr_u64_div n 4 ltac:(lia)) as S4.
  pose proof (shr_u64_div n 6 ltac:(lia)) as S6.
  change (8 * 2) with 16 in S2. change (8 * 4) with 32 in S4. change (8 * 6) with 48 in S6.
  repeat (apply elem_of_cons in Hin as [->|Hin]); try (by apply elem_of_nil in Hin);
    unfold put_length_le; rewrite ?S2, ?S4, ?S6.
  - apply (appends_last dst (to_le_bytes 1 n)). done.
  - unfold put_u16_le. rewrite to_le_truncate. by apply (appends_last dst (to_le_bytes 2 n)).
  - change (N.to_nat 3) with (2 + 1)%nat. rewrite to_le_app. rewrite <-(to_le_truncate 2 n), u8_bytes_le.
    intros Hl. rewrite ?put_u8_slice. apply appends_step; [done..|]. intros d ? ?. rewrite ?put_u8_slice. by apply appends_last.
  - unfold put_u32_le. rewrite to_le_truncate. by apply (appends_last dst (to_le_bytes 4 n)).
  - change (N.to_nat 5) with (4 + 1)%nat. rewrite to_le_app. rewrite <-(to_le_truncate 4 n), u8_bytes_le.
    intros Hl. rewrite ?put_u8_slice. apply appends_step; [done..|]. intros d ? ?. rewrite ?put_u8_slice. by apply appends_last.
  - change (N.to_nat 6) with (4 + 2)%nat. rewrite to_le_app. rewrite <-(to_le_truncate 4 n), <-(to_le_truncate 2 (n / 256 ^ N.of_nat 4)).
    intros Hl. rewrite ?put_u8_slice. apply appends_step; [done..|]. intros d ? ?. rewrite ?put_u8_slice. by apply appends_last.
  - change (N.to_nat 7) with (4 + 3)%nat. rewrite to_le_app, (to_le_app 2 1), N.Div0.div_div.
    rewrite <-(to_le_truncate 4 n), <-(to_le_truncate 2 (n / _)), u8_bytes_le.
    intros Hl. rewrite ?put_u8_slice. apply appends_step; [done..|]. intros d ? ?. apply appends_step; [done..|]. intros d' ? ?. rewrite ?put_u8_slice. by apply appends_last.
  - by apply (appends_last dst (to_le_bytes 8 n)).
Qed.

(** [encode] appends the length field and the item, or leaves the buffer alone
    with the error of the first check that fails. *)
Lemma encode_spec (c : LengthDelimitedCodec) item dst : bm_ok item → bm_ok dst →
  let b := builder c in
  lenN (active dst) + length_field_length b + lenN (active item) ≤ isize_MAX →
  match length_to_encode b (lenN (active item)) with
  | Err e => encode c item dst = Done (dst, Err e)
  | Ok n => ∃ dst', encode c item dst = Done (dst', Ok ()) ∧ bm_ok dst' ∧
              active dst' = active dst ++ length_bytes b n ++ active item
  end.
Proof.
  intros Hi Hd b Hsz. unfold encode. fold b. rewrite active_len by done.
  destruct (length_to_encode b (lenN (active item))) as [n|e] eqn:Hn; [|done].
  assert (1 ≤ length_field_length b ≤ 8) as Hw.
  { unfold length_to_encode in Hn. repeat (split_match; simplify_eq/=). by eapply max_length_value_bound. }
  unfold checked_usize. destruct (N.leb_spec (length_field_length b + lenN (active item)) usize_MAX); [|mlia].
  pose proof (reserve_spec dst (length_field_length b + lenN (active item)) Hd) as Hr.
  destruct (N.leb_spec (lenN (active dst) + (length_field_length b + lenN (active item))) isize_MAX); [|lia].
  destruct Hr as (d & -> & Hok & Ha). simpl.
  assert (appends d (length_bytes b n) ((if big_endian b then put_length_be else put_length_le) (length_field_length b) d n))
    as (d1 & -> & Hok1 & Ha1).
  { unfold length_bytes. destruct (big_endian b); [apply put_length_be_spec|apply put_length_le_spec];
      rewrite ?Ha; (done || lia). }
  simpl. destruct (put_slice_ok d1 (active item) Hok1) as (d2 & -> & ? & Ha2).
  { rewrite Ha1, Ha, len_app, length_bytes_len. lia. }
  exists d2. by rewrite Ha2, Ha1, Ha, <-app_assoc.
Qed.

End encode_facts.

(** ** Streams of frames *)

Section streams.
Context `{!Allocator}.
Implicit Types (src : BytesMut).

(** Decode until nothing more is ready; the frames in order and the error that
    ended the attempt, if one did. *)
Fixpoint drain (fuel : nat) (c : LengthDelimitedCodec) src :
    run (LengthDelimitedCodec * BytesMut * list BytesMut * option IoError) :=
  match fuel with
  | O => OutOfFuel
  | S fuel =>
      p ← decode c src;
      match p.2 with
      | Ok None => Returns (p.1, [], None)
      | Err e => Returns (p.1, [], Some e)
      | Ok (Some f) =>
          q ← drain fuel p.1.1 p.1.2;
          Returns (q.1.1, f :: q.1.2, q.2)
      end
  end.

(** Bytes arrive in chunks; after each, everything that is ready is decoded. *)
Fixpoint receive (c : LengthDelimitedCodec) src (chunks : list (list N)) :
    run (LengthDelimitedCodec * BytesMut * list BytesMut * option IoError) :=
  match chunks with
  | [] => Returns (c, src, [], None)
  | chunk :: chunks =>
      src ← lift (put_slice src chunk);
      p ← drain (S (S (length (active src)))) c src;
      match p.2 with
      | Some e => Returns p
      | None =>
          q ← receive p.1.1.1 p.1.1.2 chunks;
          Returns (q.1.1, p.1.2 ++ q.1.2, q.2)
      end
  end.

Fixpoint encode_items (c : LengthDelimitedCodec) (items : list BytesMut) (dst : BytesMut) : exec (BytesMut * result () IoError) :=
  match items with
  | [] => Done (dst, Ok ())
  | item :: items =>
      p ← encode c item dst;
      match p.2 with Ok _ => encode_items c items p.1 | Err e => Done p end
  end.

(** The wire format of an item. *)
Definition frame_of (b : LengthDelimitedCodecBuilder) (item : list N) : list N :=
  match length_to_encode b (lenN item) with Ok n => length_bytes b n ++ item | Err _ => [] end.

Definition encodable (b : LengthDelimitedCodecBuilder) (item : list N) : Prop :=
  ∃ n, length_to_encode b (lenN item) = Ok n.

(** The decoder strips exactly what the encoder writes: no bytes before the
    length field, and the whole header is skipped. *)
Definition symmetric (b : LengthDelimitedCodecBuilder) : Prop :=
  length_field_offset b = 0 ∧ (num_skip b = None ∨ num_skip b = Some (length_field_length b)).

Lemma length_to_encode_inv b k n : length_to_encode b k = Ok n →
  1 ≤ length_field_length b ≤ 8 ∧ n < 256 ^ length_field_length b ∧ adjusted_frame_len b n = Ok k.
Proof.
  unfold length_to_encode, ok_or, checked_i64. intros Hn.
  repeat (split_match; simplify_eq/=); N_bools.
  match goal with H : max_length_field_value _ = Ok _ |- _ => apply max_length_value_bound in H as [? ?] end.
  split; [done|]. split; [lia|]. unfold adjusted_frame_len, ok_or, checked_i64, i64_MIN, i64_MAX in *.
  rewrite Z2N.id by lia.
  repeat (case_match; N_bools; simplify_eq/=; try lia). f_equal. lia.
Qed.

Lemma frame_of_len b item : encodable b item → lenN (frame_of b item) = length_field_length b + lenN item.
Proof. intros [n Hn]. unfold frame_of. rewrite Hn, len_app, length_bytes_len. done. Qed.

Lemma frame_nonempty b item : encodable b item → 0 < lenN (frame_of b item).
Proof.
  intros Hi. rewrite frame_of_len by done. destruct Hi as [n Hn].
  apply length_to_encode_inv in Hn as (? & _). lia.
Qed.

Lemma decode_frame b item rest : symmetric b → encodable b item → lenN item ≤ isize_MAX →
  decode_list b Head (frame_of b item ++ rest) = (Head, rest, Ok (Some item)).
Proof.
  intros [Hoff Hskip] [n Hn] Hsz. unfold frame_of. rewrite Hn. simpl. unfold head_list. rewrite Hoff, dropN_0, N.add_0_l.
  pose proof (length_bytes_len b n) as Hlb. apply length_to_encode_inv in Hn as (Hw & Hlt & Hadj).
  destruct (N.ltb_spec usize_MAX (length_field_length b)); [mlia|].
  rewrite <-app_assoc. destruct (N.ltb_spec (lenN (length_bytes b n ++ item ++ rest)) (length_field_length b)); [len_solve|].
  rewrite takeN_app_exact by done. fold (read_length b (length_bytes b n)). rewrite read_length_bytes, Hadj by (done || lia).
  assert (codec_num_skip b (length_field_length b) = length_field_length b) as ->.
  { unfold codec_num_skip. by destruct Hskip as [->| ->]. }
  destruct (N.ltb_spec usize_MAX (length_field_length b + lenN item)); [mlia|].
  destruct (N.ltb_spec (length_field_length b + lenN item) (length_field_length b)); [lia|].
  destruct (N.ltb_spec (lenN (length_bytes b n ++ item ++ rest)) (length_field_length b)); [lia|].
  rewrite dropN_app_exact by done. replace (length_field_length b + lenN item - length_field_length b) with (lenN item) by lia.
  unfold data_list. destruct (N.ltb_spec (lenN (item ++ rest)) (lenN item)); [len_solve|].
  by rewrite takeN_app_exact, dropN_app_exact.
Qed.

(** The decoder in state [s] with the bytes [l] behaves, whatever arrives next,
    as a fresh decoder that holds the unconsumed bytes [p] of the stream. *)
Definition resumes (b : LengthDelimitedCodecBuilder) (s : DecodeState) (l p : list N) : Prop :=
  (∀ m, decode_list b s (l ++ m) = decode_list b Head (p ++ m)) ∧ lenN l ≤ lenN p ∧ (p = [] → s = Head ∧ l = []).

(** [q] holds no complete frame of the stream [items]. *)
Definition no_frame (b : LengthDelimitedCodecBuilder) (q : list N) (items : list (list N)) : Prop :=
  match items with [] => q = [] | i :: _ => lenN q < lenN (frame_of b i) end.

Definition stream_of (b : LengthDelimitedCodecBuilder) (items : list (list N)) : list N := concat (frame_of b <$> items).

Definition well_sized (b : LengthDelimitedCodecBuilder) (item : list N) : Prop := encodable b item ∧ lenN item ≤ isize_MAX.

Lemma decode_list_nil b : 1 ≤ length_field_length b → length_field_length b ≤ 8 → length_field_offset b = 0 →
  decode_list b Head [] = (Head, [], Ok None).
Proof.
  intros ? ? Hoff. simpl. unfold head_list. rewrite Hoff, N.add_0_l.
  destruct (N.ltb_spec usize_MAX (length_field_length b)); [mlia|].
  by destruct (N.ltb_spec (lenN (@nil N)) (length_field_length b)); [|rewrite len_nil in *; lia].
Qed.

Lemma decode_list_shrinks b s l s' l' r : decode_list b s l = (s', l', r) → lenN l' ≤ lenN l.
Proof.
  assert (Hdata : ∀ n k s1 l1 r1, data_list n k = (s1, l1, r1) → lenN l1 ≤ lenN k).
  { unfold data_list. intros n k s1 l1 r1 E. destruct (lenN k <? n); simplify_eq; len_solve. }
  assert (Hhead : ∀ k s1 l1 r1, head_list b k = (s1, l1, r1) → lenN l1 ≤ lenN k).
  { unfold head_list. intros k s1 l1 r1 E.
    repeat (case_match; simplify_eq; try (len_solve || (apply Hdata in E; len_solve))). }
  destruct s; simpl; intros E; [by eapply Hhead|by eapply Hdata|].
  case_match; simplify_eq; [apply Hhead in E; len_solve|len_solve].
Qed.

(** Without a complete frame, decoding waits and keeps its place. *)
Lemma decode_waits b s l p m items : symmetric b → 1 ≤ length_field_length b ≤ 8 → Forall (well_sized b) items →
  resumes b s l p → p ++ m = stream_of b items → no_frame b p items →
  ∃ s' l', decode_list b s l = (s', l', Ok None) ∧ resumes b s' l' p.
Proof.
  intros Hsym Hw Hall (Hres & Hle & Hnil) Hp Hnf.
  assert (Hempty : p = [] → ∃ s' l', decode_list b s l = (s', l', Ok None) ∧ resumes b s' l' p).
  { intros ->. destruct Hnil as [-> ->]; [done|]. exists Head, []. rewrite decode_list_nil by (lia || apply Hsym).
    by repeat split. }
  destruct items as [|i items]; [by apply Hempty|]. inversion_clear Hall as [|? ? [Hi Hsz] _].
  unfold stream_of in Hp. csimpl in Hp. fold (stream_of b items) in Hp.
  assert (Hm := Hres m). rewrite Hp, decode_frame in Hm by done.
  pose proof (decode_list_append b s l m) as Happ.
  destruct (decode_list b s l) as [[s' l'] r] eqn:Hd.
  assert (r = Ok None) as ->.
  { assert (r ≠ Ok None → False); [|destruct r as [[f|]|e]; naive_solver].
    intros Hr. assert (decode_list b s (l ++ m) = (s', l' ++ m, r)) as E by (destruct r as [[f|]|e]; done).
    rewrite Hm in E. injection E as _ Hrest _. apply (f_equal lenN) in Hrest, Hp. simpl in Hnf. len_solve. }
  exists s', l'. split; [done|]. destruct (decide (p = [])) as [->|Hne].
  - destruct Hnil as [-> ->]; [done|]. rewrite decode_list_nil in Hd by (lia || apply Hsym). simplify_eq. by repeat split.
  - split; [|split; [apply decode_list_shrinks in Hd; lia|done]]. intros m'. rewrite <-Hres. pose proof (decode_list_append b s l m') as Ha. by rewrite Hd in Ha.
Qed.

(** A complete frame at the head of the unconsumed bytes is decoded. *)
Lemma decode_ready b s l p i items m : symmetric b → well_sized b i → resumes b s l p →
  p ++ m = stream_of b (i :: items) → lenN (frame_of b i) ≤ lenN p →
  ∃ p', p = frame_of b i ++ p' ∧ decode_list b s l = (Head, p', Ok (Some i)) ∧ p' ++ m = stream_of b items.
Proof.
  intros Hsym [Hi Hsz] (Hres & _) Hp Hl. unfold stream_of in Hp. csimpl in Hp. fold (stream_of b items) in Hp.
  exists (dropN (lenN (frame_of b i)) p).
  assert (p = frame_of b i ++ dropN (lenN (frame_of b i)) p) as Hsplit.
  { rewrite <-(take_dropN (lenN (frame_of b i)) p) at 1. f_equal.
    apply (f_equal (takeN (lenN (frame_of b i)))) in Hp. by rewrite takeN_app_le, takeN_app_exact in Hp. }
  split; [done|]. split.
  - specialize (Hres []). rewrite !app_nil_r in Hres. rewrite Hres, Hsplit at 1. by rewrite decode_frame.
  - apply (f_equal (dropN (lenN (frame_of b i)))) in Hp. by rewrite dropN_app_le, dropN_app_exact in Hp.
Qed.

Lemma decode_returns (c : LengthDelimitedCodec) src s' l' r : bm_ok src →
  decode_list (builder c) (state c) (active src) = (s', l', r) →
  ∃ src' r', decode c src = Returns (mkCodec (builder c) s', src', r') ∧ bm_ok src' ∧ active src' = l' ∧
    frame_ok r' ∧ result_view r' = r.
Proof.
  intros Hok Hd. destruct (decode_loop_spec (builder c) (state c) src Hok) as (s1 & src1 & r1 & Hl & ? & ? & Hv).
  rewrite Hd in Hv. simplify_eq. exists src1, r1. unfold decode. by rewrite Hl.
Qed.

(** What draining a buffer reaches: the complete frames are out, the rest waits. *)
Definition drained (b : LengthDelimitedCodecBuilder) (items : list (list N)) (m : list N)
    (r : run (LengthDelimitedCodec * BytesMut * list BytesMut * option IoError)) : Prop :=
  ∃ k q s src frames, r = Returns (mkCodec b s, src, frames, None) ∧ bm_ok src ∧
    active <$> frames = take k items ∧ q ++ m = stream_of b (drop k items) ∧
    resumes b s (active src) q ∧ no_frame b q (drop k items).

Lemma drain_waits fuel b s src p m items : symmetric b → 1 ≤ length_field_length b ≤ 8 → Forall (well_sized b) items →
  bm_ok src → resumes b s (active src) p → p ++ m = stream_of b items → no_frame b p items →
  drained b items m (drain (S fuel) (mkCodec b s) src).
Proof.
  intros Hsym Hw Hall Hok Hres Hp Hnf. destruct (decode_waits b s (active src) p m items) as (s' & l' & Hd & Hres'); [done..|].
  destruct (decode_returns (mkCodec b s) src s' l' (Ok None) Hok Hd) as (src' & r' & Hr & Hok' & <- & _ & Hv).
  exists 0%nat, p, s', src', []. rewrite take_0, drop_0. split; [|done]. cbn [drain]. rewrite Hr.
  by destruct r' as [[f|]|e]; simplify_eq/=.
Qed.

Lemma drain_ready fuel b s src p m i items : symmetric b → well_sized b i → bm_ok src →
  resumes b s (active src) p → p ++ m = stream_of b (i :: items) → lenN (frame_of b i) ≤ lenN p →
  (∀ src' p', bm_ok src' → active src' = p' → p = frame_of b i ++ p' → p' ++ m = stream_of b items →
     drained b items m (drain fuel (mkCodec b Head) src')) →
  drained b (i :: items) m (drain (S fuel) (mkCodec b s) src).
Proof.
  intros Hsym Hi Hok Hres Hp Hl Hnext. destruct (decode_ready b s (active src) p i items m) as (p' & Hsplit & Hd & Hp'); [done..|].
  destruct (decode_returns (mkCodec b s) src Head p' (Ok (Some i)) Hok Hd) as (src' & r' & Hr & Hok' & Ha & _ & Hv).
  destruct (Hnext src' p' Hok' Ha Hsplit Hp') as (k & q & s2 & src2 & frames & Hd2 & Hok2 & Hf & Hq & Hres2 & Hnf).
  destruct r' as [[f|]|e]; simplify_eq/=. rewrite Hr. simpl. rewrite Hd2.
  exists (S k), q, s2, src2, (f :: frames). split; [done|]. split; [done|]. csimpl. by rewrite Hf.
Qed.

Lemma drain_head fuel b src m items : symmetric b → 1 ≤ length_field_length b ≤ 8 → Forall (well_sized b) items →
  bm_ok src → active src ++ m = stream_of b items → (length (active src) < fuel)%nat →
  drained b items m (drain fuel (mkCodec b Head) src).
Proof.
  intros Hsym Hw Hall. revert fuel src. induction Hall as [|i items Hi Hall IH]; intros fuel src Hok Hp Hf;
    (destruct fuel as [|fuel]; [lia|]).
  - apply app_nil in Hp as [Hp ->]. apply (drain_waits fuel b Head src []); rewrite ?Hp; done.
  - destruct (N.lt_ge_cases (lenN (active src)) (lenN (frame_of b i))) as [Hl|Hl].
    + apply (drain_waits fuel b Head src (active src)); try done. by constructor.
    + apply (drain_ready fuel b Head src (active src)); try done.
      intros src' p' Hok' Ha Hsplit Hp'. subst p'. apply IH; [done..|].
      pose proof (frame_nonempty b i (proj1 Hi)). apply (f_equal length) in Hsplit.
      rewrite length_app in Hsplit. unfold lenN in *. lia.
Qed.

Lemma drain_spec b s src p m items : symmetric b → 1 ≤ length_field_length b ≤ 8 → Forall (well_sized b) items →
  bm_ok src → resumes b s (active src) p → p ++ m = stream_of b items →
  drained b items m (drain (S (S (length (active src)))) (mkCodec b s) src).
Proof.
  intros Hsym Hw Hall Hok Hres Hp. destruct items as [|i items].
  { apply (drain_waits _ b s src p); try done. by apply app_nil in Hp as [? _]. }
  destruct (N.lt_ge_cases (lenN p) (lenN (frame_of b i))) as [Hl|Hl]; [by apply (drain_waits _ b s src p)|].
  inversion_clear Hall as [|? ? Hi Hall'].
  destruct (decode_ready b s (active src) p i items m) as (p0 & Hs0 & Hd & _); [done..|].
  apply (drain_ready _ b s src p); [done..|]. intros src' p' Hok' <- Hsplit Hp'. apply drain_head; [done..|].
  apply decode_list_shrinks in Hd. rewrite Hs0 in Hsplit. apply app_inv_head in Hsplit as <-.
  unfold lenN in Hd. lia.
Qed.

Lemma stream_of_drop b items k : lenN (stream_of b (drop k items)) ≤ lenN (stream_of b items).
Proof.
  rewrite <-(take_drop k items) at 2. unfold stream_of. rewrite fmap_app, concat_app, len_app. lia.
Qed.

Lemma receive_spec b s src p chunks items : symmetric b → 1 ≤ length_field_length b ≤ 8 → Forall (well_sized b) items →
  bm_ok src → resumes b s (active src) p → no_frame b p items → p ++ concat chunks = stream_of b items →
  lenN (stream_of b items) ≤ isize_MAX →
  ∃ src' frames, receive (mkCodec b s) src chunks = Returns (mkCodec b Head, src', frames, None) ∧
    active src' = [] ∧ active <$> frames = items.
Proof.
  intros Hsym Hw. revert s src p items. induction chunks as [|chunk chunks IH];
    intros s src p items Hall Hok Hres Hnf Hp Hsz; simpl in Hp; cbn [receive].
  - rewrite app_nil_r in Hp. destruct items as [|i items].
    + destruct Hres as (_ & _ & Hnil). destruct (Hnil Hnf) as [-> ?]. by exists src, [].
    + unfold stream_of in Hp. csimpl in Hp. simpl in Hnf. apply (f_equal lenN) in Hp. len_solve.
  - pose proof (f_equal lenN Hp) as Hlen. rewrite !len_app in Hlen. destruct Hres as (Hres & Hle & Hnil).
    destruct (put_slice_ok src chunk Hok) as (src1 & -> & Hok1 & Ha1); [lia|].
    cbn [lift mbind run_bind]. rewrite app_assoc in Hp.
    destruct (drain_spec b s src1 (p ++ chunk) (concat chunks) items)
      as (k & q & s2 & src2 & fr & Hd & Hok2 & Hf & Hq & Hres2 & Hnf2); [done..| |done|].
    { rewrite Ha1. split; [intros m; by rewrite <-!app_assoc|]. split; [rewrite !len_app; lia|].
      intros [-> ->]%app_nil. rewrite app_nil_r. auto. }
    rewrite Hd. cbn [fst snd mbind run_bind].
    pose proof (stream_of_drop b items k).
    destruct (IH s2 src2 q (drop k items)) as (src3 & fr3 & -> & ? & Hf3); [by apply Forall_drop|done..|lia|].
    exists src3, (fr ++ fr3). split; [done|]. split; [done|]. by rewrite fmap_app, Hf, Hf3, take_drop.
Qed.

Lemma encode_items_spec (c : LengthDelimitedCodec) items dst dst' : bm_ok dst → Forall bm_ok items →
  lenN (active dst) + sum_over (λ i, length_field_length (builder c) + lenN (active i)) items ≤ isize_MAX →
  encode_items c items dst = Done (dst', Ok ()) →
  Forall (well_sized (builder c)) (active <$> items) ∧
  active dst' = active dst ++ stream_of (builder c) (active <$> items) ∧ bm_ok dst'.
Proof.
  intros Hd Hall. revert dst Hd. induction Hall as [|i items Hi Hall IH]; intros dst Hd Hsz He; simpl in He, Hsz.
  { simplify_eq. by rewrite app_nil_r. }
  pose proof (encode_spec c i dst Hi Hd) as Hs. cbv zeta in Hs. specialize (Hs ltac:(lia)).
  destruct (length_to_encode (builder c) (lenN (active i))) as [n|e] eqn:Hn; [|by rewrite Hs in He].
  destruct Hs as (d & Hed & Hok & Ha). rewrite Hed in He. simpl in He.
  assert (Hfr : active d = active dst ++ frame_of (builder c) (active i)) by (unfold frame_of; by rewrite Hn).
  destruct (IH d Hok) as (Hw & Ha' & Hok'); [|done|].
  { rewrite Ha, !len_app, length_bytes_len. lia. }
  split; [|split; [|done]].
  - csimpl. constructor; [|done]. split; [by exists n|]. by apply active_small.
  - rewrite Ha', Hfr, <-app_assoc. done.
Qed.

End streams.

(** C32: Frames survive the wire.  When the configuration is [symmetric] (the length
    field's offset is 0, and [num_skip] is unset or equal to the header; any width from
    one to eight bytes, either byte order, any length adjustment and limit), decoder and
    encoder share it, and every item
    was encoded without error, then receiving the encoded bytes in chunks of any
    sizes yields exactly the items, in order and without error, and leaves an empty
    buffer and a decoder that expects a header. *)
Theorem length_delimited_roundtrip `{!Allocator} b c items wire chunks :
  new_codec b = Done c → symmetric b → Forall bm_ok items →
  sum_over (λ i, length_field_length b + lenN (active i)) items ≤ isize_MAX →
  encode_items c items bm_new = Done (wire, Ok ()) → concat chunks = active wire →
  ∃ src frames, receive c bm_new chunks = Returns (c, src, frames, None) ∧
    active src = [] ∧ active <$> frames = active <$> items.
Proof.
  unfold new_codec. destruct (N.leb_spec 1 (length_field_length b)); simpl; [|done].
  destruct (N.leb_spec (length_field_length b) 8); [|done]. intros [= <-] Hsym Hall Hsz He Hc.
  assert (Hnew : bm_ok bm_new) by (repeat split; vm_compute; discriminate).
  destruct (encode_items_spec (mkCodec b Head) items bm_new wire Hnew Hall) as (Hw & Ha & Hok); [done..|].
  change (active bm_new) with (@nil N) in Ha. simpl in Ha.
  apply (receive_spec b Head bm_new []); try done.
  - destruct items as [|i items]; [done|]. csimpl in Hw. simpl. rewrite len_nil. apply frame_nonempty.
    by inversion_clear Hw as [|? ? [? _]].
  - by rewrite app_nil_l, Hc.
  - rewrite <-Ha. by apply active_small.
Qed.

#[local] Instance tight_growth : Allocator.
Proof. refine {| vec_grow n extra := n + extra |}. lia. Defined.

(** Three items, three-byte little-endian lengths that count two bytes less than
    the body, received byte by byte. *)
Lemma length_delimited_roundtrip_witness :
  let b := mkBuilder 0 3 2 None 10 false in
  let items := bm_from_slice <$> [[104; 105]; [1; 2; 3; 4; 5]; [7; 7; 7]] in
  let wire := [0; 0; 0; 104; 105; 3; 0; 0; 1; 2; 3; 4; 5; 1; 0; 0; 7; 7; 7] in
  ∃ src frames, receive (mkCodec b Head) bm_new ((λ x, [x]) <$> wire) = Returns (mkCodec b Head, src, frames, None) ∧
    active src = [] ∧ active <$> frames = active <$> items.
Proof.
  intros b items wire.
  destruct (encode_items (mkCodec b Head) items bm_new) as [[w r]|] eqn:E; [|vm_compute in E; discriminate].
  apply (length_delimited_roundtrip b (mkCodec b Head) items w).
  - reflexivity.
  - split; [reflexivity|by left].
  - repeat constructor; vm_compute; discriminate.
  - vm_compute. discriminate.
  - rewrite E. f_equal. f_equal. vm_compute in E. congruence.
  - vm_compute in E. simplify_eq. reflexivity.
Defined.

(** ** The decoder alone *)

Definition decoded (m : run (LengthDelimitedCodec * BytesMut * result (option BytesMut) IoError)) :
    option (LengthDelimitedCodec * list N * result (option (list N)) IoError) :=
  match m with Returns (c, src, r) => Some (c, active src, result_view r) | _ => None end.

Lemma decoded_list `{!Allocator} c src : bm_ok src →
  decoded (decode c src) =
    let '(s, l, r) := decode_list (builder c) (state c) (active src) in Some (mkCodec (builder c) s, l, r).
Proof.
  intros Hok. destruct (decode_list (builder c) (state c) (active src)) as [[s l] r] eqn:Hd.
  destruct (decode_returns c src s l r Hok Hd) as (src' & r' & -> & _ & <- & _ & <-). done.
Qed.

(** Any call of [decode], in any state, with any configuration and any bytes,
    returns without a panic within three iterations of its loop and hands out only
    well-formed frames; and it does not depend on how the bytes arrived.  Suppose
    [more] had already been in the buffer behind the bytes of [src]: if the call on
    [src] found nothing, the call on the whole does what the next call does once
    [more] has arrived; if it produced a frame or an error, the call on the whole
    produces the same and leaves [more] behind. *)
Theorem length_delimited_chunk_invariant `{!Allocator} c src whole more :
  bm_ok src → bm_ok whole → active whole = active src ++ more →
  ∃ c1 src1 r1, decode c src = Returns (c1, src1, r1) ∧ bm_ok src1 ∧ frame_ok r1 ∧
    match r1 with
    | Ok None => ∀ next, bm_ok next → active next = active src1 ++ more →
        decoded (decode c whole) = decoded (decode c1 next)
    | _ => decoded (decode c whole) = Some (c1, active src1 ++ more, result_view r1)
    end.
Proof.
  intros Hs Hw Ha. destruct (decode_list (builder c) (state c) (active src)) as [[s l] r] eqn:Hd.
  destruct (decode_returns c src s l r Hs Hd) as (src1 & r1 & Hr & Hok1 & Hl & Hf & Hv). subst l.
  eexists _, _, _. split; [done|]. split; [done|]. split; [done|].
  pose proof (decode_list_append (builder c) (state c) (active src) more) as Happ. rewrite Hd, <-Hv in Happ.
  rewrite (decoded_list c whole) by done. rewrite Ha.
  destruct r1 as [[f|]|e]; simpl in Happ; rewrite Happ; [done| |done].
  intros next Hn Hna. by rewrite decoded_list, Hna.
Qed.

Lemma length_delimited_chunk_invariant_witness :
  let c := mkCodec default_builder Head in
  let src := bm_from_slice [0; 0; 0; 2; 65] in
  let whole := bm_from_slice [0; 0; 0; 2; 65; 66] in
  bm_ok src ∧ bm_ok whole ∧ active whole = active src ++ [66] ∧
  ∃ c1 src1 r1, decode c src = Returns (c1, src1, r1) ∧ bm_ok src1 ∧ frame_ok r1 ∧
    match r1 with
    | Ok None => ∀ next, bm_ok next → active next = active src1 ++ [66] →
        decoded (decode c whole) = decoded (decode c1 next)
    | _ => decoded (decode c whole) = Some (c1, active src1 ++ [66], result_view r1)
    end.
Proof.
  intros c src whole.
  assert (bm_ok src) as Hs by (repeat split; vm_compute; discriminate).
  assert (bm_ok whole) as Hw by (repeat split; vm_compute; discriminate).
  split; [exact Hs|]. split; [exact Hw|]. split; [reflexivity|].
  exact (length_delimited_chunk_invariant c src whole [66] Hs Hw eq_refl).
Defined.

(** ** Rejected frames *)

(** The header announces a length the decoder refuses. *)
Definition rejects (b : LengthDelimitedCodecBuilder) (n : N) (e : IoError) : Prop := adjusted_frame_len b n = Err e.

Lemma decode_rejected b n e rest : symmetric b → 1 ≤ length_field_length b ≤ 8 → n < 256 ^ length_field_length b →
  rejects b n e → decode_list b Head (length_bytes b n ++ rest) = (Skip n, rest, Err e).
Proof.
  intros [Hoff _] Hw Hn He. simpl. unfold head_list. rewrite Hoff, dropN_0, N.add_0_l.
  pose proof (length_bytes_len b n) as Hlb.
  destruct (N.ltb_spec usize_MAX (length_field_length b)); [mlia|].
  destruct (N.ltb_spec (lenN (length_bytes b n ++ rest)) (length_field_length b)); [len_solve|].
  rewrite takeN_app_exact by done. fold (read_length b (length_bytes b n)). rewrite read_length_bytes by (done || lia).
  by rewrite He, dropN_app_exact.
Qed.

(** A frame whose announced length is refused (over the limit, negative after
    adjustment, out of range) is reported once and skipped as a whole: the call
    consumes exactly its header, and however the announced bytes and the rest
    arrive, the decoder then continues with what follows them, as a fresh decoder
    would. *)
Theorem length_delimited_resyncs `{!Allocator} b n e (body rest : list N) src next :
  symmetric b → 1 ≤ length_field_length b ≤ 8 → n < 256 ^ length_field_length b → rejects b n e →
  lenN body = n → bm_ok src → active src = length_bytes b n ++ body ++ rest →
  bm_ok next → active next = rest →
  ∃ src1, decode (mkCodec b Head) src = Returns (mkCodec b (Skip n), src1, Err e) ∧ active src1 = body ++ rest ∧
    (∀ k x, (k < n) → bm_ok x → active x = takeN k body →
       decoded (decode (mkCodec b (Skip n)) x) = Some (mkCodec b (Skip (n - k)), [], Ok None)) ∧
    decoded (decode (mkCodec b (Skip n)) src1) = decoded (decode (mkCodec b Head) next).
Proof.
  intros Hsym Hw Hn He Hb Hok Ha Hokn Hnext.
  pose proof (decode_rejected b n e (body ++ rest) Hsym Hw Hn He) as Hd. rewrite <-Ha in Hd.
  destruct (decode_returns (mkCodec b Head) src _ _ _ Hok Hd) as (src1 & r1 & Hr & Hok1 & Ha1 & _ & Hv).
  destruct r1 as [[f|]|e1]; simplify_eq/=. exists src1. split; [done|]. split; [done|]. split.
  - intros k x Hk Hx Hax. rewrite decoded_list by done. simpl. rewrite Hax, len_takeN.
    replace (N.min k (lenN body)) with k by lia. destruct (N.leb_spec (lenN body) k); [lia|done].
  - rewrite !decoded_list by done. simpl. rewrite Ha1, len_app.
    destruct (N.leb_spec (lenN body) (lenN body + lenN (active next))); [|lia]. by rewrite dropN_app_exact.
Qed.

Lemma length_delimited_resyncs_witness :
  let b := mkBuilder 0 2 0 None 4 true in
  let src := bm_from_slice ([0; 5] ++ [9; 9; 9; 9; 9] ++ [0; 1; 42]) in
  let next := bm_from_slice [0; 1; 42] in
  let e := mkIoError InvalidData "frame length exceeds max_frame_length" in
  ∃ src1, decode (mkCodec b Head) src = Returns (mkCodec b (Skip 5), src1, Err e) ∧
    active src1 = [9; 9; 9; 9; 9] ++ [0; 1; 42] ∧
    (∀ k x, (k < 5) → bm_ok x → active x = takeN k [9; 9; 9; 9; 9] →
       decoded (decode (mkCodec b (Skip 5)) x) = Some (mkCodec b (Skip (5 - k)), [], Ok None)) ∧
    decoded (decode (mkCodec b (Skip 5)) src1) = decoded (decode (mkCodec b Head) next).
Proof.
  intros b src next e.
  apply (length_delimited_resyncs b 5 e [9; 9; 9; 9; 9] [0; 1; 42] src next).
  - split; [reflexivity|by left].
  - vm_compute. split; discriminate.
  - vm_compute. reflexivity.
  - vm_compute. reflexivity.
  - reflexivity.
  - repeat split; vm_compute; discriminate.
  - reflexivity.
  - repeat split; vm_compute; discriminate.
  - reflexivity.
Defined.

(** With a length adjustment the announced length is not the number of bytes on
    the wire, and skipping it leaves the decoder inside the refused frame: a frame
    of five bytes refused by a decoder that accepts four, and the next frame
    [[65; 66]], which is never delivered. *)
Lemma skip_ignores_adjustment :
  let b := mkBuilder 0 2 2 None 5 true in
  let b4 := set_max_frame_length b 4 in
  let wire := frame_of b [0; 0; 0; 0; 1] ++ frame_of b [65; 66] in
  ∃ l1 l2 f2, decode_list b4 Head wire = (Skip 3, l1, Err (mkIoError InvalidData "frame length exceeds max_frame_length")) ∧
    decode_list b4 (Skip 3) l1 = (Head, l2, Ok (Some f2)) ∧ f2 ≠ [65; 66].
Proof. eexists _, _, _. split; [vm_compute; reflexivity|]. split; [vm_compute; reflexivity|done]. Qed.

(** A header whose frame is shorter than [num_skip] is reported without being
    consumed, so the same error comes back on every call. *)
Lemma num_skip_error_repeats :
  let b := mkBuilder 0 2 0 (Some 6) 10 true in
  decode_list b Head [0; 1; 42; 0; 5] =
    (Head, [0; 1; 42; 0; 5], Err (mkIoError InvalidData "num_skip exceeds total frame length")).
Proof. vm_compute. done. Qed.
