(* ===== verification/Lines.v ===== *)
(** * The line codec

    Models [src/codec/lines.rs]: [LinesCodec] with its scan cursor, the length
    limit, the discarding of over-long lines, CRLF stripping, the UTF-8 check of
    [String::from_utf8], end-of-file handling and the encoder.  A decoded
    [String] is the list of its bytes.  The loop of [decode] runs at most twice:
    dropping an over-long line is followed by an iteration that returns.

    The theorems: for every byte stream and every way of cutting it into chunks,
    the decoder yields exactly what splitting the whole stream at newlines
    yields; encoded lines are decoded to themselves. *)

From S2P Require Import Prelude Bytes Utf8.

Inductive LinesCodecError := MaxLineLengthExceeded | InvalidUtf8.

Record LinesCodec := mkLinesCodec { max_length : N; next_index : N; is_discarding : bool }.

Definition DEFAULT_MAX_LINE_LENGTH : N := 64 * 1024.

Definition new_with_max_length (n : N) : LinesCodec := mkLinesCodec n 0 false.
Definition lines_new : LinesCodec := new_with_max_length DEFAULT_MAX_LINE_LENGTH.
Definition with_unbounded : LinesCodec := new_with_max_length usize_MAX.

Definition reset_stale_scan_state (self : LinesCodec) (src : BytesMut) : LinesCodec :=
  if (0 <? next_index self) && (bm_len src <=? next_index self)
  then mkLinesCodec (max_length self) 0 false else self.

Definition NEWLINE : N := 10.
Definition CR : N := 13.

(** [String::from_utf8] *)
Definition from_utf8 (l : list N) : result (list N) LinesCodecError :=
  if utf8_valid l then Ok l else Err InvalidUtf8.

(** ** Decoding *)

Section codec.
Context `{!Allocator}.

(** [if line.last() == Some(&b'\r') { line.truncate(line.len() - 1) }]. *)
Definition drop_cr (line : BytesMut) : exec BytesMut :=
  if bool_decide (last (active line) = Some CR) then truncate line (saturating_sub (bm_len line) 1) else Done line.

Inductive LineStep :=
| LContinue (c : LinesCodec) (src : BytesMut)
| LReturn (c : LinesCodec) (src : BytesMut) (r : result (option (list N)) LinesCodecError).

(** One iteration of the loop in [decode]. *)
Definition lines_step (self : LinesCodec) (src : BytesMut) : exec LineStep :=
  let read_to := if is_discarding self then bm_len src
                 else N.min (saturating_add usize_MAX (max_length self) 1) (bm_len src) in
  window ← slice_of (active src) (next_index self) read_to;
  let newline_offset := position (λ b, b =? NEWLINE) window in
  match is_discarding self, newline_offset with
  | true, Some offset =>
      let newline_index := next_index self + N.of_nat offset in
      p ← split_to src (newline_index + 1);
      Done (LContinue (mkLinesCodec (max_length self) 0 false) p.1)
  | true, None =>
      Done (LReturn (mkLinesCodec (max_length self) 0 true) (clear src) (Ok None))
  | false, Some offset =>
      let newline_index := next_index self + N.of_nat offset in
      let self := mkLinesCodec (max_length self) 0 false in
      p ← split_to src (newline_index + 1);
      line ← truncate p.2 (saturating_sub (bm_len p.2) 1);
      line ← drop_cr line;
      Done (LReturn self p.1 (let? s := from_utf8 (active line) in Ok (Some s)))
  | false, None =>
      if max_length self <? bm_len src
      then Done (LReturn (mkLinesCodec (max_length self) (next_index self) true) src (Err MaxLineLengthExceeded))
      else Done (LReturn (mkLinesCodec (max_length self) read_to false) src (Ok None))
  end.

Fixpoint lines_loop (fuel : nat) (self : LinesCodec) (src : BytesMut) :
    run (LinesCodec * BytesMut * result (option (list N)) LinesCodecError) :=
  match fuel with
  | O => OutOfFuel
  | S fuel =>
      r ← lift (lines_step self src);
      match r with
      | LContinue self src => lines_loop fuel self src
      | LReturn self src r => Returns (self, src, r)
      end
  end.

Definition lines_decode (self : LinesCodec) (src : BytesMut) :
    run (LinesCodec * BytesMut * result (option (list N)) LinesCodecError) :=
  lines_loop 2 (reset_stale_scan_state self src) src.

Definition lines_decode_eof (self : LinesCodec) (src : BytesMut) :
    run (LinesCodec * BytesMut * result (option (list N)) LinesCodecError) :=
  p ← lines_decode self src;
  let '(self, src, r) := p in
  match r with
  | Err e => Returns (self, src, Err e)
  | Ok (Some frame) => Returns (self, src, Ok (Some frame))
  | Ok None =>
      if bm_is_empty src then Returns (self, src, Ok None)
      else if is_discarding self then
        Returns (mkLinesCodec (max_length self) 0 false, clear src, Ok None)
      else
        let self := mkLinesCodec (max_length self) 0 (is_discarding self) in
        if max_length self <? bm_len src then Returns (self, clear src, Err MaxLineLengthExceeded)
        else
          p ← lift (split_to src (bm_len src));
          line ← lift (drop_cr p.2);
          Returns (self, p.1, let? s := from_utf8 (active line) in Ok (Some s))
  end.

(** ** Encoding *)

Definition lines_encode (self : LinesCodec) (line : list N) (dst : BytesMut) : exec BytesMut :=
  dst ← reserve dst (wrapping_add usize_MAX (lenN line) 1);
  dst ← put_slice dst line;
  put_u8 dst NEWLINE.

End codec.

(** ** Reference: splitting the whole stream *)

(** The complete lines (without their newlines) and what follows the last newline. *)
Fixpoint split_lines (l : list N) : list (list N) * list N :=
  match l with
  | [] => ([], [])
  | b :: l =>
      let '(segs, tail) := split_lines l in
      if b =? NEWLINE then ([] :: segs, tail)
      else match segs with
           | [] => ([], b :: tail)
           | s :: segs => ((b :: s) :: segs, tail)
           end
  end.

Definition strip_cr (l : list N) : list N :=
  if bool_decide (last l = Some CR) then takeN (lenN l - 1) l else l.

(** What a complete line decodes to. *)
Definition judge (max : N) (line : list N) : result (list N) LinesCodecError :=
  if max <? lenN line then Err MaxLineLengthExceeded else from_utf8 (strip_cr line).

(** What an unterminated last line decodes to at end of file; one that is over
    the limit was reported before. *)
Definition judge_eof (max : N) (tail : list N) : result (option (list N)) LinesCodecError :=
  if (lenN tail =? 0) || (max <? lenN tail) then Ok None
  else let? s := from_utf8 (strip_cr tail) in Ok (Some s).

(** Everything the stream [l] decodes to, and the result at end of file. *)
Definition parse (max : N) (l : list N) :
    list (result (list N) LinesCodecError) * result (option (list N)) LinesCodecError :=
  let '(segs, tail) := split_lines l in
  ((judge max <$> segs) ++ (if max <? lenN tail then [Err MaxLineLengthExceeded] else []), judge_eof max tail).

(** ** The decoder on a plain list of bytes *)

Definition find_newline (l : list N) : option N := N.of_nat <$> position (λ b, b =? NEWLINE) l.

Definition line_next (max : N) (l : list N) : bool * list N * result (option (list N)) LinesCodecError :=
  match find_newline l with
  | Some p =>
      if max <? p then (true, l, Err MaxLineLengthExceeded)
      else (false, dropN (p + 1) l, let? s := from_utf8 (strip_cr (takeN p l)) in Ok (Some s))
  | None => if max <? lenN l then (true, l, Err MaxLineLengthExceeded) else (false, l, Ok None)
  end.

Definition line_decode (max : N) (discarding : bool) (l : list N) :
    bool * list N * result (option (list N)) LinesCodecError :=
  if discarding then
    match find_newline l with
    | Some p => line_next max (dropN (p + 1) l)
    | None => (true, [], Ok None)
    end
  else line_next max l.

(** What is left to come when the first line was already reported as too long. *)
Definition resume (max : N) (discarding : bool) (l : list N) :
    list (result (list N) LinesCodecError) * result (option (list N)) LinesCodecError :=
  if discarding then
    match find_newline l with
    | Some p => parse max (dropN (p + 1) l)
    | None => ([], Ok None)
    end
  else parse max l.

Lemma find_newline_cons b l :
  find_newline (b :: l) = if b =? NEWLINE then Some 0 else N.succ <$> find_newline l.
Proof.
  unfold find_newline. simpl. destruct (b =? NEWLINE); [done|]. destruct (position _ l); [|done].
  simpl. by rewrite <-Nat2N.inj_succ.
Qed.

Lemma find_newline_app l m :
  find_newline (l ++ m) = match find_newline l with Some p => Some p | None => N.add (lenN l) <$> find_newline m end.
Proof.
  induction l as [|b l IH]; simpl.
  - destruct (find_newline m); done.
  - rewrite !find_newline_cons, IH. destruct (b =? NEWLINE); [done|].
    destruct (find_newline l); simpl; [done|]. destruct (find_newline m); simpl; [|done]. f_equal. len_solve.
Qed.

Lemma find_newline_lt l p : find_newline l = Some p → p < lenN l.
Proof.
  revert p. induction l as [|b l IH]; intros p; [done|]. rewrite find_newline_cons.
  destruct (b =? NEWLINE); [intros [= <-]; len_solve|]. destruct (find_newline l) as [q|]; [|done].
  intros [= <-]. specialize (IH q eq_refl). len_solve.
Qed.

Lemma split_lines_newline l p : find_newline l = Some p →
  split_lines l = let '(segs, tail) := split_lines (dropN (p + 1) l) in (takeN p l :: segs, tail).
Proof.
  revert p. induction l as [|b l IH]; intros p; [done|]. rewrite find_newline_cons. simpl.
  destruct (b =? NEWLINE); [intros [= <-]; change (dropN (0 + 1) (b :: l)) with l; by destruct (split_lines l)|].
  destruct (find_newline l) as [q|]; [|done]. intros [= <-]. rewrite (IH q eq_refl). unfold dropN, takeN.
  replace (N.to_nat (N.succ q + 1)) with (S (N.to_nat (q + 1))) by lia. rewrite N2Nat.inj_succ. simpl.
  by destruct (split_lines (drop (N.to_nat (q + 1)) l)).
Qed.

Lemma split_lines_rest l : find_newline l = None → split_lines l = ([], l).
Proof.
  induction l as [|b l IH]; [done|]. rewrite find_newline_cons. simpl. destruct (b =? NEWLINE); [done|].
  destruct (find_newline l); [done|]. by rewrite IH.
Qed.

Lemma parse_newline max l p : find_newline l = Some p →
  parse max l = (judge max (takeN p l) :: (parse max (dropN (p + 1) l)).1, (parse max (dropN (p + 1) l)).2).
Proof.
  intros Hp. unfold parse. rewrite (split_lines_newline l p) by done.
  by destruct (split_lines (dropN (p + 1) l)) as [segs tail].
Qed.

Lemma parse_rest max l : find_newline l = None →
  parse max l = (if max <? lenN l then [Err MaxLineLengthExceeded] else [], judge_eof max l).
Proof. intros Hl. unfold parse. by rewrite split_lines_rest. Qed.

(** One call of the decoder takes the first result of what is left to come. *)
Lemma line_next_parse max l :
  match line_next max l with
  | (d, l', Ok None) => d = false ∧ l' = l ∧ find_newline l = None ∧ lenN l ≤ max
  | (d, l', Ok (Some s)) => parse max l = (Ok s :: (resume max d l').1, (resume max d l').2)
  | (d, l', Err e) => parse max l = (Err e :: (resume max d l').1, (resume max d l').2)
  end.
Proof.
  unfold line_next. destruct (find_newline l) as [p|] eqn:Hp.
  - pose proof (find_newline_lt _ _ Hp). rewrite (parse_newline max l p Hp). unfold judge. rewrite len_takeN.
    replace (N.min p (lenN l)) with p by lia. destruct (N.ltb_spec max p).
    + simpl. by rewrite Hp.
    + unfold from_utf8. by destruct (utf8_valid _).
  - destruct (N.ltb_spec max (lenN l)) as [Hl|Hl]; [|done]. rewrite (parse_rest max l Hp).
    simpl. rewrite Hp. destruct (N.ltb_spec max (lenN l)); [|lia]. unfold judge_eof.
    destruct (N.ltb_spec max (lenN l)); [|lia]. by rewrite orb_true_r.
Qed.

Lemma line_decode_resume max d l :
  match line_decode max d l with
  | (d', l', Ok None) => resume max d l = resume max d' l' ∧ (resume max d' l').1 = [] ∧
      if d' then l' = [] else find_newline l' = None ∧ lenN l' ≤ max
  | (d', l', Ok (Some s)) => resume max d l = (Ok s :: (resume max d' l').1, (resume max d' l').2)
  | (d', l', Err e) => resume max d l = (Err e :: (resume max d' l').1, (resume max d' l').2)
  end.
Proof.
  assert (Hnext : ∀ k, match line_next max k with
    | (d', l', Ok None) => parse max k = resume max d' l' ∧ (resume max d' l').1 = [] ∧
        if d' then l' = [] else find_newline l' = None ∧ lenN l' ≤ max
    | (d', l', Ok (Some s)) => parse max k = (Ok s :: (resume max d' l').1, (resume max d' l').2)
    | (d', l', Err e) => parse max k = (Err e :: (resume max d' l').1, (resume max d' l').2)
    end).
  { intros k. pose proof (line_next_parse max k) as Hk. destruct (line_next max k) as [[d' l'] [[s|]|e]]; [done| |done].
    destruct Hk as (-> & -> & Hn & Hl). simpl. split; [done|]. split; [|done]. rewrite parse_rest by done.
    by destruct (N.ltb_spec max (lenN k)); [lia|]. }
  unfold line_decode. destruct d; [|exact (Hnext l)]. destruct (find_newline l) as [p|] eqn:Hp.
  - assert (resume max true l = parse max (dropN (p + 1) l)) as -> by (simpl; by rewrite Hp). apply Hnext.
  - simpl. by rewrite Hp.
Qed.

Lemma line_next_append max l m :
  match line_next max l with
  | (d', l', Ok None) => True
  | (d', l', r) => line_next max (l ++ m) = (d', l' ++ m, r)
  end.
Proof.
  unfold line_next. rewrite find_newline_app, len_app. destruct (find_newline l) as [p|] eqn:Hp.
  - pose proof (find_newline_lt _ _ Hp). rewrite dropN_app_le, takeN_app_le by lia.
    destruct (max <? p); [done|]. unfold from_utf8. by destruct (utf8_valid _).
  - destruct (N.ltb_spec max (lenN l)) as [Hl|Hl]; [|done]. destruct (find_newline m) as [q|]; simpl.
    + by destruct (N.ltb_spec max (lenN l + q)); [|lia].
    + by destruct (N.ltb_spec max (lenN l + lenN m)); [|lia].
Qed.

(** A result does not depend on bytes that arrive later, and a call that found
    nothing leaves what is to come unchanged. *)
Lemma line_decode_append max d l m :
  match line_decode max d l with
  | (d', l', Ok None) => resume max d (l ++ m) = resume max d' (l' ++ m)
  | (d', l', r) => line_decode max d (l ++ m) = (d', l' ++ m, r)
  end.
Proof.
  unfold line_decode. destruct d.
  - destruct (find_newline l) as [p|] eqn:Hp.
    + pose proof (find_newline_lt _ _ Hp). pose proof (line_next_append max (dropN (p + 1) l) m) as Ha.
      pose proof (line_next_parse max (dropN (p + 1) l)) as Hn.
      destruct (line_next max (dropN (p + 1) l)) as [[d' l'] [[s|]|e]];
        try (rewrite find_newline_app, Hp, dropN_app_le by lia; done).
      destruct Hn as (-> & -> & _). unfold resume at 1. rewrite find_newline_app, Hp, dropN_app_le by lia. done.
    + unfold resume. rewrite find_newline_app, Hp. simpl. destruct (find_newline m) as [q|]; simpl; [|done].
      rewrite <-N.add_assoc, <-dropN_dropN, dropN_app_exact by done. done.
  - pose proof (line_next_append max l m) as Ha. pose proof (line_next_parse max l) as Hn.
    destruct (line_next max l) as [[d' l'] [[s|]|e]]; [done| |done]. by destruct Hn as (-> & -> & _).
Qed.

(** ** The scan cursor *)

(** The bytes before the cursor hold no newline; while discarding, the cursor is
    inside the buffer. *)
Record scan_ok (c : LinesCodec) (l : list N) : Prop := {
  scan_clean : find_newline (takeN (next_index c) l) = None;
  scan_max : next_index c ≤ max_length c;
  scan_len : next_index c ≤ lenN l;
  scan_discarding : is_discarding c = true → next_index c = 0 ∨ next_index c < lenN l;
}.

Lemma scan_ok_append c l m : scan_ok c l → scan_ok c (l ++ m).
Proof. intros [? ? ? ?]. split; rewrite ?takeN_app_le, ?len_app by done; try done; [lia|]. intros; destruct scan_discarding0; auto; lia. Qed.

Lemma scan_ok_start max d l : scan_ok (mkLinesCodec max 0 d) l.
Proof. split; simpl; [done|lia|lia|by left]. Qed.

(** Searching from the cursor is searching from the start. *)
Lemma find_from l ni r : find_newline (takeN ni l) = None → ni ≤ r → r ≤ lenN l →
  match find_newline (takeN (r - ni) (dropN ni l)) with
  | Some o => find_newline l = Some (ni + o) ∧ ni + o < r
  | None => ∀ p, find_newline l = Some p → r ≤ p
  end.
Proof.
  intros Hc Hr Hl. set (w := takeN (r - ni) (dropN ni l)).
  assert (Hw : l = takeN ni l ++ w ++ dropN r l).
  { unfold w. rewrite <-(take_dropN ni l) at 1. f_equal. rewrite <-(take_dropN (r - ni) (dropN ni l)) at 1. f_equal.
    rewrite dropN_dropN. f_equal. lia. }
  assert (Hlt : lenN (takeN ni l) = ni) by (rewrite len_takeN; lia).
  assert (Hlw : lenN w = r - ni) by (unfold w; len_solve).
  assert (Hf : find_newline l = N.add ni <$> find_newline (w ++ dropN r l)).
  { rewrite Hw at 1. rewrite find_newline_app, Hc, Hlt. done. }
  rewrite find_newline_app, Hlw in Hf. destruct (find_newline w) as [o|] eqn:Ho.
  - apply find_newline_lt in Ho. split; [done|lia].
  - intros p Hp. rewrite Hf in Hp. destruct (find_newline (dropN r l)) as [q|]; simplify_eq/=. lia.
Qed.

Lemma reset_stale_ok c src : bm_ok src → scan_ok c (active src) →
  scan_ok (reset_stale_scan_state c src) (active src) ∧
  max_length (reset_stale_scan_state c src) = max_length c ∧
  is_discarding (reset_stale_scan_state c src) = is_discarding c.
Proof.
  intros Hok Hs. unfold reset_stale_scan_state. rewrite active_len by done.
  destruct (N.ltb_spec 0 (next_index c)); simpl; [|done]. destruct (N.leb_spec (lenN (active src)) (next_index c)); [|done].
  split; [apply scan_ok_start|]. split; [done|]. destruct Hs as [_ _ _ Hd]. simpl.
  destruct (is_discarding c); [|done]. destruct Hd; [done|lia|lia].
Qed.

Section decode_facts.
Context `{!Allocator}.
Implicit Types (src : BytesMut).

Lemma drop_cr_spec line : bm_ok line → ∃ line', drop_cr line = Done line' ∧ bm_ok line' ∧ active line' = strip_cr (active line).
Proof.
  intros Hok. unfold drop_cr, strip_cr. rewrite active_len by done. case_bool_decide; [by apply truncate_spec|eauto].
Qed.

Lemma split_prefix src n : bm_ok src → n ≤ lenN (active src) →
  ∃ src' h, split_to src n = Done (src', h) ∧ bm_ok src' ∧ bm_ok h ∧
    active src' = dropN n (active src) ∧ active h = takeN n (active src).
Proof. intros Hok Hn. pose proof (split_to_spec src n Hok) as Hs. apply N.leb_le in Hn. by rewrite Hn in Hs. Qed.

(** The run [m] has the result [v] of the decoder on lists and keeps the cursor in order. *)
Definition decodes_to (max : N) (m : run (LinesCodec * BytesMut * result (option (list N)) LinesCodecError))
    (v : bool * list N * result (option (list N)) LinesCodecError) : Prop :=
  ∃ c' src' r, m = Returns (c', src', r) ∧ bm_ok src' ∧ max_length c' = max ∧ scan_ok c' (active src') ∧
    v = (is_discarding c', active src', r).

(** The search of an iteration that is not discarding. *)
Lemma lines_loop_next fuel c src : bm_ok src → scan_ok c (active src) → is_discarding c = false → max_length c ≤ usize_MAX →
  decodes_to (max_length c) (lines_loop (S fuel) c src) (line_next (max_length c) (active src)).
Proof.
  intros Hok Hs Hd Hmax. pose proof Hs as [Hc Hm Hl _]. pose proof (active_small src Hok).
  cbn [lines_loop]. unfold lines_step. rewrite Hd, active_len by done.
  set (r := N.min (saturating_add usize_MAX (max_length c) 1) (lenN (active src))).
  assert (Hr : r = N.min (max_length c + 1) (lenN (active src))) by (unfold r; mlia).
  unfold slice_of. destruct (N.leb_spec (next_index c) r); [|lia]. destruct (N.leb_spec r (lenN (active src))); [|lia].
  simpl andb. pose proof (find_from (active src) (next_index c) r Hc ltac:(lia) ltac:(lia)) as Hf.
  cbn [mbind exec_bind]. unfold find_newline in Hf at 1.
  destruct (position _ (takeN (r - next_index c) (dropN (next_index c) (active src)))) as [o|]; simpl in Hf; unfold line_next.
  - destruct Hf as [-> Hlt]. destruct (N.ltb_spec (max_length c) (next_index c + N.of_nat o)); [lia|].
    destruct (split_prefix src (next_index c + N.of_nat o + 1) Hok) as (src' & h & -> & Hok' & Hh & Ha & Hah); [lia|]. simpl.
    destruct (truncate_spec h (saturating_sub (bm_len h) 1) Hh) as (line & -> & Hline & Hal). simpl.
    destruct (drop_cr_spec line Hline) as (line' & -> & _ & Hl'). simpl. eexists _, _, _. split; [done|].
    split; [done|]. split; [done|]. split; [apply scan_ok_start|]. simpl. rewrite Ha, Hl', Hal, active_len, Hah by done.
    unfold saturating_sub. rewrite takeN_takeN, len_takeN.
    match goal with |- context [takeN (N.min ?a ?b) _] => by replace (N.min a b) with (next_index c + N.of_nat o) by lia end.
  - destruct (N.ltb_spec (max_length c) (lenN (active src))) as [Hlen|Hlen].
    + eexists _, _, _. split; [done|]. split; [done|]. split; [done|]. split.
      * split; simpl; try done. intros _. right. lia.
      * destruct (find_newline (active src)) as [p|] eqn:Hp; [|done]. specialize (Hf p eq_refl).
        by destruct (N.ltb_spec (max_length c) p); [|lia].
    + assert (find_newline (active src) = None) as Hnone.
      { destruct (find_newline (active src)) as [p|] eqn:Hp; [|done]. specialize (Hf p eq_refl).
        apply find_newline_lt in Hp. lia. }
      rewrite Hnone. eexists _, _, _. split; [done|]. split; [done|]. split; [done|]. split; [|done].
      assert (r = lenN (active src)) as -> by lia. split; simpl; [by rewrite takeN_ge by lia|lia|lia|done].
Qed.

Lemma lines_loop_S fuel c src :
  lines_loop (S fuel) c src =
    (r ← lift (lines_step c src);
     match r with LContinue self src => lines_loop fuel self src | LReturn self src r => Returns (self, src, r) end).
Proof. done. Qed.

Lemma lines_decode_spec c src : bm_ok src → scan_ok c (active src) → max_length c ≤ usize_MAX →
  decodes_to (max_length c) (lines_decode c src) (line_decode (max_length c) (is_discarding c) (active src)).
Proof.
  intros Hok Hs Hmax. unfold lines_decode.
  destruct (reset_stale_ok c src Hok Hs) as (Hs' & Hm & Hdisc). rewrite <-Hm, <-Hdisc. rewrite <-Hm in Hmax.
  clear Hm Hdisc Hs. remember (reset_stale_scan_state c src) as c' eqn:E. clear E c. rename c' into c, Hs' into Hs.
  unfold line_decode. destruct (is_discarding c) eqn:Hd; [|by apply lines_loop_next].
  pose proof Hs as [Hc Hml Hl _]. pose proof (active_small src Hok).
  rewrite lines_loop_S. unfold lines_step. rewrite Hd, active_len by done.
  unfold slice_of. destruct (N.leb_spec (next_index c) (lenN (active src))); [|lia].
  destruct (N.leb_spec (lenN (active src)) (lenN (active src))); [|lia]. simpl andb.
  pose proof (find_from (active src) (next_index c) (lenN (active src)) Hc ltac:(lia) ltac:(lia)) as Hf.
  unfold find_newline in Hf at 1. cbn [mbind exec_bind].
  destruct (position _ (takeN _ (dropN (next_index c) (active src)))) as [o|]; simpl in Hf.
  - destruct Hf as [-> Hlt].
    destruct (split_prefix src (next_index c + N.of_nat o + 1) Hok) as (src' & h & -> & Hok' & _ & Ha & _); [lia|].
    simpl lift. rewrite <-Ha. exact (lines_loop_next 0 (mkLinesCodec (max_length c) 0 false) src' Hok' (scan_ok_start _ _ _) eq_refl Hmax).
  - assert (find_newline (active src) = None) as ->.
    { destruct (find_newline (active src)) as [p|] eqn:Hp; [|done]. specialize (Hf p eq_refl).
      apply find_newline_lt in Hp. lia. }
    destruct (clear_spec src Hok) as [? Ha]. eexists _, _, _. split; [done|]. split; [done|]. split; [done|].
    split; [apply scan_ok_start|]. simpl. by rewrite Ha.
Qed.

(** At end of file after everything complete was drained. *)
Lemma lines_decode_eof_spec c src d l : bm_ok src → scan_ok c (active src) → max_length c ≤ usize_MAX →
  line_decode (max_length c) (is_discarding c) (active src) = (d, l, Ok None) →
  (if d then l = [] else find_newline l = None ∧ lenN l ≤ max_length c) →
  ∃ c' src', lines_decode_eof c src = Returns (c', src', if d then Ok None else judge_eof (max_length c) l) ∧ active src' = [].
Proof.
  intros Hok Hs Hmax Hd Hl. destruct (lines_decode_spec c src Hok Hs Hmax) as (c1 & src1 & r & Hr & Hok1 & Hm1 & Hs1 & Hv).
  rewrite Hd in Hv. simplify_eq. unfold lines_decode_eof. rewrite Hr. cbn [mbind run_bind].
  unfold bm_is_empty. rewrite active_len by done. unfold judge_eof.
  destruct (N.eqb_spec (lenN (active src1)) 0) as [E|E].
  { eexists _, _. split; [by destruct (is_discarding c1)|]. by apply len_0. }
  destruct (is_discarding c1) eqn:Hdc; [by rewrite Hl in E|]. destruct Hl as [_ Hl].
  simpl. rewrite Hm1. destruct (N.ltb_spec (max_length c) (lenN (active src1))); [lia|].
  destruct (split_prefix src1 (lenN (active src1)) Hok1) as (src2 & h & -> & Hok2 & Hh & Ha & Hah); [done|]. simpl.
  destruct (drop_cr_spec h Hh) as (line & -> & _ & Hal). simpl. eexists _, _.
  rewrite Hal, Hah, (takeN_ge _ (active src1)) by done. split; [done|]. by rewrite Ha, dropN_ge.
Qed.

(** ** Receiving a stream in chunks *)

(** Decode until nothing more is ready; errors are results like lines, after
    which the caller asks again. *)
Fixpoint lines_drain (fuel : nat) (c : LinesCodec) src :
    run (LinesCodec * BytesMut * list (result (list N) LinesCodecError)) :=
  match fuel with
  | O => OutOfFuel
  | S fuel =>
      p ← lines_decode c src;
      match p.2 with
      | Ok None => Returns (p.1, [])
      | Ok (Some s) => q ← lines_drain fuel p.1.1 p.1.2; Returns (q.1, Ok s :: q.2)
      | Err e => q ← lines_drain fuel p.1.1 p.1.2; Returns (q.1, Err e :: q.2)
      end
  end.

Fixpoint lines_receive (c : LinesCodec) src (chunks : list (list N)) :
    run (LinesCodec * BytesMut * list (result (list N) LinesCodecError)) :=
  match chunks with
  | [] => Returns (c, src, [])
  | chunk :: chunks =>
      src ← lift (put_slice src chunk);
      p ← lines_drain (2 * length (active src) + 2) c src;
      q ← lines_receive p.1.1 p.1.2 chunks;
      Returns (q.1, p.2 ++ q.2)
  end.

(** What draining and receiving reach: [out] came out, nothing complete is left,
    and the rest of the stream will continue where it stopped. *)
Definition reached (max : N) (d : bool) (l : list N)
    (m : run (LinesCodec * BytesMut * list (result (list N) LinesCodecError))) : Prop :=
  ∃ c' src' out, m = Returns (c', src', out) ∧ bm_ok src' ∧ max_length c' = max ∧ scan_ok c' (active src') ∧
    lenN (active src') ≤ lenN l ∧
    (if is_discarding c' then active src' = [] else find_newline (active src') = None ∧ lenN (active src') ≤ max) ∧
    ∀ m, resume max d (l ++ m) = (out ++ (resume max (is_discarding c') (active src' ++ m)).1,
                                   (resume max (is_discarding c') (active src' ++ m)).2).

Definition drain_measure (d : bool) (l : list N) : nat := 2 * length l + (if d then 0 else 1).

Lemma line_next_measure max l d' l' r : line_next max l = (d', l', r) → r ≠ Ok None →
  (drain_measure d' l' < drain_measure false l)%nat.
Proof.
  unfold line_next, drain_measure. intros E Hr. destruct (find_newline l) as [p|] eqn:Hp.
  - apply find_newline_lt in Hp. destruct (max <? p); simplify_eq; [lia|].
    unfold lenN, dropN in *. rewrite length_drop. lia.
  - destruct (max <? lenN l); simplify_eq; lia.
Qed.

Lemma line_decode_measure max d l d' l' r : line_decode max d l = (d', l', r) → r ≠ Ok None →
  (drain_measure d' l' < drain_measure d l)%nat.
Proof.
  unfold line_decode. destruct d; [|apply line_next_measure]. intros E Hr.
  destruct (find_newline l) as [p|] eqn:Hp; [|by simplify_eq].
  apply line_next_measure in E; [|done]. apply find_newline_lt in Hp. unfold drain_measure in *.
  unfold lenN, dropN in *. rewrite length_drop in E. lia.
Qed.

Lemma line_decode_shrinks max d l d' l' r : line_decode max d l = (d', l', r) → lenN l' ≤ lenN l.
Proof.
  unfold line_decode, line_next. intros E. repeat (case_match; simplify_eq; try len_solve).
Qed.

Lemma lines_drain_reached fuel c src : bm_ok src → scan_ok c (active src) → max_length c ≤ usize_MAX →
  (drain_measure (is_discarding c) (active src) < fuel)%nat →
  reached (max_length c) (is_discarding c) (active src) (lines_drain fuel c src).
Proof.
  revert c src. induction fuel as [|fuel IH]; intros c src Hok Hs Hmax Hf; [lia|].
  destruct (lines_decode_spec c src Hok Hs Hmax) as (c1 & src1 & r & Hr & Hok1 & Hm1 & Hs1 & Hv).
  pose proof (line_decode_append (max_length c) (is_discarding c) (active src)) as Happ.
  pose proof (line_decode_resume (max_length c) (is_discarding c) (active src)) as Hres. rewrite Hv in Hres.
  pose proof (line_decode_shrinks _ _ _ _ _ _ Hv) as Hsh.
  cbn [lines_drain]. rewrite Hr. cbn [mbind run_bind fst snd].
  assert (Hstep : ∀ x, r ≠ Ok None → (∀ m, resume (max_length c) (is_discarding c) (active src ++ m) =
      (x :: (resume (max_length c) (is_discarding c1) (active src1 ++ m)).1,
       (resume (max_length c) (is_discarding c1) (active src1 ++ m)).2)) →
    reached (max_length c) (is_discarding c) (active src) (q ← lines_drain fuel c1 src1; Returns (q.1, x :: q.2))).
  { intros x Hx Hm. pose proof (line_decode_measure _ _ _ _ _ _ Hv Hx).
    destruct (IH c1 src1 Hok1 Hs1) as (c2 & src2 & out & -> & Hok2 & Hm2 & Hs2 & Hsh2 & Hend & Hcont); [by rewrite Hm1|lia|].
    rewrite Hm1 in *. exists c2, src2, (x :: out). split; [done|]. split_and!; try done; [lia|].
    intros m. by rewrite Hm, Hcont. }
  destruct r as [[s|]|e].
  - apply Hstep; [done|]. intros m. specialize (Happ m). rewrite Hv in Happ.
    pose proof (line_decode_resume (max_length c) (is_discarding c) (active src ++ m)) as Hrm. by rewrite Happ in Hrm.
  - exists c1, src1, []. split; [done|]. destruct Hres as (_ & _ & Hend). split_and!; try done.
    intros m. specialize (Happ m). rewrite Hv in Happ. rewrite Happ. by destruct (resume _ _ (active src1 ++ m)).
  - apply Hstep; [done|]. intros m. specialize (Happ m). rewrite Hv in Happ.
    pose proof (line_decode_resume (max_length c) (is_discarding c) (active src ++ m)) as Hrm. by rewrite Happ in Hrm.
Qed.

Lemma lines_receive_reached c src chunks : bm_ok src → scan_ok c (active src) → max_length c ≤ usize_MAX →
  lenN (active src) + lenN (concat chunks) ≤ isize_MAX →
  (if is_discarding c then active src = [] else find_newline (active src) = None ∧ lenN (active src) ≤ max_length c) →
  reached (max_length c) (is_discarding c) (active src ++ concat chunks) (lines_receive c src chunks).
Proof.
  revert c src. induction chunks as [|chunk chunks IH]; intros c src Hok Hs Hmax Hsz Hend; cbn [lines_receive concat].
  { exists c, src, []. rewrite app_nil_r. split; [done|]. split_and!; try done. intros m. by destruct (resume _ _ _). }
  simpl in Hsz. rewrite len_app in Hsz. pose proof (put_slice_spec src chunk Hok) as Hp.
  destruct (N.leb_spec (lenN (active src) + lenN chunk) isize_MAX); [|lia].
  destruct Hp as (src1 & -> & Hok1 & Ha1). cbn [lift mbind run_bind].
  assert (scan_ok c (active src1)) as Hs1 by (rewrite Ha1; by apply scan_ok_append).
  destruct (lines_drain_reached (2 * length (active src1) + 2) c src1 Hok1 Hs1 Hmax)
    as (c2 & src2 & out & -> & Hok2 & Hm2 & Hs2 & Hsh2 & Hend2 & Hcont).
  { unfold drain_measure. destruct (is_discarding c); lia. }
  cbn [mbind run_bind fst snd]. rewrite Ha1, len_app in Hsh2.
  destruct (IH c2 src2 Hok2 Hs2) as (c3 & src3 & out3 & -> & Hok3 & Hm3 & Hs3 & Hsh3 & Hend3 & Hcont3); [by rewrite Hm2|lia|by rewrite Hm2|].
  rewrite Hm2 in *. exists c3, src3, (out ++ out3). split; [done|]. split_and!; try done.
  - rewrite !len_app in *. lia.
  - intros m. specialize (Hcont3 m). rewrite Ha1 in Hcont. specialize (Hcont (concat chunks ++ m)).
    rewrite !app_assoc in Hcont. rewrite app_assoc, Hcont, Hcont3. simpl. by rewrite app_assoc.
Qed.

End decode_facts.

(** The stream as a whole: results of the chunks, then of the end of file. *)
Lemma lines_receive_parse `{!Allocator} max chunks :
  max ≤ usize_MAX → lenN (concat chunks) ≤ isize_MAX →
  ∃ c src out c' src' last, (out, last) = parse max (concat chunks) ∧
    lines_receive (new_with_max_length max) bm_new chunks = Returns (c, src, out) ∧
    lines_decode_eof c src = Returns (c', src', last) ∧ active src' = [].
Proof.
  intros Hmax Hsz. assert (Hnew : bm_ok bm_new) by (repeat split; vm_compute; discriminate).
  destruct (lines_receive_reached (new_with_max_length max) bm_new chunks Hnew)
    as (c & src & out & Hr & Hok & Hm & Hs & _ & Hend & Hcont).
  { apply scan_ok_start. } { done. } { by rewrite N.add_0_l. } { split; [done|]. change (0 ≤ max). lia. }
  simpl in Hm, Hcont, Hend.
  specialize (Hcont []). rewrite !app_nil_r in Hcont. change (active bm_new ++ concat chunks) with (concat chunks) in Hcont.
  rewrite Hcont. rewrite <-Hm in Hmax, Hend. destruct (is_discarding c) eqn:Hd; rewrite ?Hd in Hend.
  - destruct (lines_decode_eof_spec c src true [] Hok Hs Hmax) as (c' & src' & He & Ha); [by rewrite Hd, Hend|done|].
    exists c, src, out, c', src', (Ok None). rewrite Hend. simpl. by rewrite app_nil_r.
  - destruct Hend as [Hn Hl]. destruct (lines_decode_eof_spec c src false (active src) Hok Hs Hmax) as (c' & src' & He & Ha).
    { rewrite Hd. simpl. unfold line_next. rewrite Hn. by destruct (N.ltb_spec (max_length c) (lenN (active src))); [lia|]. }
    { done. }
    exists c, src, out, c', src', (judge_eof (max_length c) (active src)).
    simpl. rewrite parse_rest, Hm by done. rewrite Hm in Hl, He. destruct (N.ltb_spec max (lenN (active src))); [lia|].
    simpl. by rewrite app_nil_r.
Qed.

(** C33: Line decoding is splitting the stream.  For every length limit, every byte
    stream and every way the bytes arrive in chunks, the decoder never panics and
    yields exactly the results of splitting the whole stream at newlines: each
    complete line without its newline and a trailing CR when it is within the limit
    and valid UTF-8, one [InvalidUtf8] or [MaxLineLengthExceeded] in its place
    otherwise; at end of file, [decode_eof] yields the unterminated last line under
    the same rules and leaves an empty buffer. *)
Theorem lines_decode_is_split `{!Allocator} max chunks :
  max ≤ usize_MAX → lenN (concat chunks) ≤ isize_MAX →
  ∃ c src out, lines_receive (new_with_max_length max) bm_new chunks = Returns (c, src, out) ∧
    ∃ c' src' last, lines_decode_eof c src = Returns (c', src', last) ∧ active src' = [] ∧
      (out, last) = parse max (concat chunks).
Proof.
  intros Hmax Hsz. destruct (lines_receive_parse max chunks Hmax Hsz) as (c & src & out & c' & src' & r & Hp & Hr & He & Ha).
  exists c, src, out. split; [done|]. by exists c', src', r.
Qed.

#[local] Instance lines_growth : Allocator.
Proof. refine {| vec_grow n extra := n + extra |}. lia. Defined.

(** ["ab\r\ncdefg\n\xff\nxy"] with a limit of four bytes, in uneven chunks. *)
Lemma lines_decode_is_split_witness :
  let chunks := [[97; 98; 13]; [10; 99; 100]; []; [101; 102; 103; 10; 255; 10; 120]; [121]] in
  ∃ c src out, lines_receive (new_with_max_length 4) bm_new chunks = Returns (c, src, out) ∧
    ∃ c' src' last, lines_decode_eof c src = Returns (c', src', last) ∧ active src' = [] ∧
      (out, last) = ([Ok [97; 98]; Err MaxLineLengthExceeded; Err InvalidUtf8], Ok (Some [120; 121])).
Proof.
  intros chunks. apply (lines_decode_is_split 4 chunks); vm_compute; discriminate.
Defined.

(** ** Encoding *)

Lemma lines_encode_spec `{!Allocator} c line dst : bm_ok dst → lenN (active dst) + lenN line + 1 ≤ isize_MAX →
  ∃ dst', lines_encode c line dst = Done dst' ∧ bm_ok dst' ∧ active dst' = active dst ++ line ++ [NEWLINE].
Proof.
  intros Hok Hsz. unfold lines_encode. rewrite wrapping_add_1 by mlia.
  pose proof (reserve_spec dst (lenN line + 1) Hok) as Hr.
  destruct (N.leb_spec (lenN (active dst) + (lenN line + 1)) isize_MAX); [|lia].
  destruct Hr as (d & -> & Hd & Ha). simpl. pose proof (put_slice_spec d line Hd) as Hp. rewrite Ha in Hp.
  destruct (N.leb_spec (lenN (active dst) + lenN line) isize_MAX); [|lia].
  destruct Hp as (d1 & -> & Hd1 & Ha1). simpl. rewrite put_u8_slice.
  pose proof (put_slice_spec d1 [NEWLINE] Hd1) as Hp. rewrite Ha1, len_app in Hp.
  destruct (N.leb_spec (lenN (active dst) + lenN line + lenN [NEWLINE]) isize_MAX); [|len_solve].
  destruct Hp as (d2 & -> & Hd2 & Ha2). exists d2. by rewrite Ha2, <-app_assoc.
Qed.

Fixpoint lines_encode_all `{!Allocator} (c : LinesCodec) (lines : list (list N)) (dst : BytesMut) : exec BytesMut :=
  match lines with [] => Done dst | l :: lines => dst ← lines_encode c l dst; lines_encode_all c lines dst end.

(** A line that survives: no newline inside, no CR at its end, within the limit, valid UTF-8. *)
Definition plain_line (max : N) (l : list N) : Prop :=
  find_newline l = None ∧ last l ≠ Some CR ∧ lenN l ≤ max ∧ utf8_valid l = true.

Lemma parse_encoded max lines : Forall (plain_line max) lines →
  parse max (concat ((λ l, l ++ [NEWLINE]) <$> lines)) = (Ok <$> lines, Ok None).
Proof.
  induction 1 as [|l lines (Hn & Hcr & Hl & Hu) _ IH]; [unfold parse; simpl; by destruct max|].
  csimpl. rewrite <-app_assoc. simpl. set (rest := concat _) in *.
  assert (Hf : find_newline (l ++ NEWLINE :: rest) = Some (lenN l)).
  { rewrite find_newline_app, Hn, find_newline_cons. simpl. f_equal. lia. }
  rewrite (parse_newline max _ _ Hf), takeN_app_exact by done.
  rewrite <-dropN_dropN, dropN_app_exact by done. change (dropN 1 (NEWLINE :: rest)) with rest. rewrite IH. simpl.
  unfold judge, strip_cr, from_utf8. destruct (N.ltb_spec max (lenN l)); [lia|].
  rewrite bool_decide_eq_false_2 by done. by rewrite Hu.
Qed.

Lemma lines_encode_all_spec `{!Allocator} c lines dst : bm_ok dst →
  lenN (active dst) + lenN (concat ((λ l, l ++ [NEWLINE]) <$> lines)) ≤ isize_MAX →
  ∃ dst', lines_encode_all c lines dst = Done dst' ∧ bm_ok dst' ∧
    active dst' = active dst ++ concat ((λ l, l ++ [NEWLINE]) <$> lines).
Proof.
  revert dst. induction lines as [|l lines IH]; intros dst Hok Hsz; simpl; [exists dst; by rewrite app_nil_r|].
  csimpl in Hsz. rewrite !len_app in Hsz. change (lenN [NEWLINE]) with 1 in Hsz.
  destruct (lines_encode_spec c l dst Hok) as (d & -> & Hd & Ha); [lia|]. simpl.
  destruct (IH d Hd) as (d' & -> & Hd' & Ha'); [rewrite Ha, !len_app; change (lenN [NEWLINE]) with 1; lia|].
  exists d'. split; [done|]. split; [done|]. rewrite Ha', Ha, <-!app_assoc. done.
Qed.

(** Encoded lines decode to themselves: lines without a newline, a final CR
    or invalid UTF-8 and within the limit, encoded one after the other and received
    in chunks of any sizes, come back in order, without errors, and nothing is left
    at end of file. *)
Theorem lines_roundtrip `{!Allocator} max lines chunks :
  max ≤ usize_MAX → Forall (plain_line max) lines →
  lenN (concat ((λ l, l ++ [NEWLINE]) <$> lines)) ≤ isize_MAX →
  ∃ wire, lines_encode_all (new_with_max_length max) lines bm_new = Done wire ∧
    (concat chunks = active wire →
     ∃ c src, lines_receive (new_with_max_length max) bm_new chunks = Returns (c, src, Ok <$> lines) ∧
       ∃ c' src', lines_decode_eof c src = Returns (c', src', Ok None)).
Proof.
  intros Hmax Hall Hsz. assert (Hnew : bm_ok bm_new) by (repeat split; vm_compute; discriminate).
  destruct (lines_encode_all_spec (new_with_max_length max) lines bm_new Hnew) as (wire & He & Hok & Ha); [done|].
  exists wire. split; [done|]. intros Hc. change (active wire = concat ((λ l, l ++ [NEWLINE]) <$> lines)) in Ha.
  destruct (lines_receive_parse max chunks Hmax) as (c & src & out & c' & src' & r & Hp & Hr & Heof & _); [by rewrite Hc, Ha|].
  rewrite Hc, Ha, parse_encoded in Hp by done. simplify_eq. exists c, src. split; [done|]. by exists c', src'.
Qed.

Lemma lines_roundtrip_witness :
  let lines := [[104; 105]; []; [195; 169; 33]] in
  let wire := [104; 105; 10; 10; 195; 169; 33; 10] in
  ∃ c src, lines_receive (new_with_max_length 3) bm_new [wire] = Returns (c, src, Ok <$> lines) ∧
    ∃ c' src', lines_decode_eof c src = Returns (c', src', Ok None).
Proof.
  intros lines wire.
  destruct (lines_roundtrip 3 lines [wire]) as (w & He & Hr).
  - vm_compute. discriminate.
  - repeat constructor; try done; vm_compute; discriminate.
  - vm_compute. discriminate.
  - vm_compute in He. injection He as <-. apply Hr. reflexivity.
Defined.
