(* ===== verification/Huffman.v ===== *)
(** * The Huffman code of HPACK

    Models the string coding of [src/http/h2/hpack.rs]: the code table, the
    construction of the nibble-driven decoding table, [encode_huffman_to_buffer]
    and [decode_huffman].  A buffer is the list of its bytes ([Bytes] shows that the
    crate's buffers behave as such), a [String] the list of its UTF-8 bytes.

    Decoding inverts encoding for every string. *)

From S2P Require Import Prelude Utf8.

Inductive H2Error := Compression (message : string).

(** ** The code *)

Definition HUFFMAN_TABLE : list (N * N) :=
  [(8184, 13); (8388568, 23); (268435426, 28); (268435427, 28); (268435428, 28); (268435429, 28); (268435430, 28); (268435431, 28);
   (268435432, 28); (16777194, 24); (1073741820, 30); (268435433, 28); (268435434, 28); (1073741821, 30); (268435435, 28); (268435436, 28);
   (268435437, 28); (268435438, 28); (268435439, 28); (268435440, 28); (268435441, 28); (268435442, 28); (1073741822, 30); (268435443, 28);
   (268435444, 28); (268435445, 28); (268435446, 28); (268435447, 28); (268435448, 28); (268435449, 28); (268435450, 28); (268435451, 28);
   (20, 6); (1016, 10); (1017, 10); (4090, 12); (8185, 13); (21, 6); (248, 8); (2042, 11);
   (1018, 10); (1019, 10); (249, 8); (2043, 11); (250, 8); (22, 6); (23, 6); (24, 6);
   (0, 5); (1, 5); (2, 5); (25, 6); (26, 6); (27, 6); (28, 6); (29, 6);
   (30, 6); (31, 6); (92, 7); (251, 8); (32764, 15); (32, 6); (4091, 12); (1020, 10);
   (8186, 13); (33, 6); (93, 7); (94, 7); (95, 7); (96, 7); (97, 7); (98, 7);
   (99, 7); (100, 7); (101, 7); (102, 7); (103, 7); (104, 7); (105, 7); (106, 7);
   (107, 7); (108, 7); (109, 7); (110, 7); (111, 7); (112, 7); (113, 7); (114, 7);
   (252, 8); (115, 7); (253, 8); (8187, 13); (524272, 19); (8188, 13); (16380, 14); (34, 6);
   (32765, 15); (3, 5); (35, 6); (4, 5); (36, 6); (5, 5); (37, 6); (38, 6);
   (39, 6); (6, 5); (116, 7); (117, 7); (40, 6); (41, 6); (42, 6); (7, 5);
   (43, 6); (118, 7); (44, 6); (8, 5); (9, 5); (45, 6); (119, 7); (120, 7);
   (121, 7); (122, 7); (123, 7); (32766, 15); (2044, 11); (16381, 14); (8189, 13); (268435452, 28);
   (1048550, 20); (4194258, 22); (1048551, 20); (1048552, 20); (4194259, 22); (4194260, 22); (4194261, 22); (8388569, 23);
   (4194262, 22); (8388570, 23); (8388571, 23); (8388572, 23); (8388573, 23); (8388574, 23); (16777195, 24); (8388575, 23);
   (16777196, 24); (16777197, 24); (4194263, 22); (8388576, 23); (16777198, 24); (8388577, 23); (8388578, 23); (8388579, 23);
   (8388580, 23); (2097116, 21); (4194264, 22); (8388581, 23); (4194265, 22); (8388582, 23); (8388583, 23); (16777199, 24);
   (4194266, 22); (2097117, 21); (1048553, 20); (4194267, 22); (4194268, 22); (8388584, 23); (8388585, 23); (2097118, 21);
   (8388586, 23); (4194269, 22); (4194270, 22); (16777200, 24); (2097119, 21); (4194271, 22); (8388587, 23); (8388588, 23);
   (2097120, 21); (2097121, 21); (4194272, 22); (2097122, 21); (8388589, 23); (4194273, 22); (8388590, 23); (8388591, 23);
   (1048554, 20); (4194274, 22); (4194275, 22); (4194276, 22); (8388592, 23); (4194277, 22); (4194278, 22); (8388593, 23);
   (67108832, 26); (67108833, 26); (1048555, 20); (524273, 19); (4194279, 22); (8388594, 23); (4194280, 22); (33554412, 25);
   (67108834, 26); (67108835, 26); (67108836, 26); (134217694, 27); (134217695, 27); (67108837, 26); (16777201, 24); (33554413, 25);
   (524274, 19); (2097123, 21); (67108838, 26); (134217696, 27); (134217697, 27); (67108839, 26); (134217698, 27); (16777202, 24);
   (2097124, 21); (2097125, 21); (67108840, 26); (67108841, 26); (268435453, 28); (134217699, 27); (134217700, 27); (134217701, 27);
   (1048556, 20); (16777203, 24); (1048557, 20); (2097126, 21); (4194281, 22); (2097127, 21); (2097128, 21); (8388595, 23);
   (4194282, 22); (4194283, 22); (33554414, 25); (33554415, 25); (16777204, 24); (16777205, 24); (67108842, 26); (8388596, 23);
   (67108843, 26); (134217702, 27); (67108844, 26); (67108845, 26); (134217703, 27); (134217704, 27); (134217705, 27); (134217706, 27);
   (134217707, 27); (268435454, 28); (134217708, 27); (134217709, 27); (134217710, 27); (134217711, 27); (134217712, 27); (67108846, 26);
   (1073741823, 30)].

Definition code_of (byte : N) : N * N := HUFFMAN_TABLE !!! N.to_nat byte.

(** ** The decoding table *)

Definition HUFF_ACCEPTED : N := 1.
Definition HUFF_SYM : N := 2.
Definition HUFF_FAIL : N := 4.

Record HuffmanDecodeEntry := mkEntry { next_state : N; flags : N; sym : N }.

Record TrieNode := mkNode { child0 : option N; child1 : option N; node_sym : option N }.
Definition default_node : TrieNode := mkNode None None None.
#[global] Instance TrieNode_inhabited : Inhabited TrieNode := populate default_node.
#[global] Instance Entry_inhabited : Inhabited HuffmanDecodeEntry := populate (mkEntry 0 0 0).

Definition node_at (nodes : list TrieNode) (i : N) : TrieNode := nodes !!! N.to_nat i.
Definition child (n : TrieNode) (bit : bool) : option N := if bit then child1 n else child0 n.
Definition set_child (n : TrieNode) (bit : bool) (i : N) : TrieNode :=
  if bit then mkNode (child0 n) (Some i) (node_sym n) else mkNode (Some i) (child1 n) (node_sym n).
Definition set_node (nodes : list TrieNode) (i : N) (n : TrieNode) : list TrieNode := <[N.to_nat i := n]> nodes.

(** The [k] bits of [code], the most significant first. *)
Fixpoint bits_of (k : nat) (code : N) : list bool :=
  match k with O => [] | S k => N.testbit code (N.of_nat k) :: bits_of k code end.

(** Step 1: the trie of the codes. *)
Fixpoint trie_path (nodes : list TrieNode) (cur : N) (bits : list bool) : list TrieNode * N :=
  match bits with
  | [] => (nodes, cur)
  | bit :: bits =>
      match child (node_at nodes cur) bit with
      | Some idx => trie_path nodes idx bits
      | None =>
          let new_idx := lenN nodes in
          trie_path (set_node (nodes ++ [default_node]) cur (set_child (node_at nodes cur) bit new_idx)) new_idx bits
      end
  end.

Fixpoint trie_insert (nodes : list TrieNode) (sym_idx : N) (codes : list (N * N)) : list TrieNode :=
  match codes with
  | [] => nodes
  | (code, code_bits) :: codes =>
      let '(nodes, cur) := trie_path nodes 0 (bits_of (N.to_nat code_bits) code) in
      let n := node_at nodes cur in
      trie_insert (set_node nodes cur (mkNode (child0 n) (child1 n) (Some sym_idx))) (sym_idx + 1) codes
  end.

Definition build_nodes : list TrieNode := trie_insert [default_node] 0 HUFFMAN_TABLE.

(** Step 2: numbers of the internal nodes; a table that is too large panics. *)
Fixpoint number_nodes (next_state_id : N) (nodes : list TrieNode) : exec (list (option N)) :=
  match nodes with
  | [] => Done []
  | n :: nodes =>
      match node_sym n with
      | None =>
          if next_state_id <? 256 then rest ← number_nodes (next_state_id + 1) nodes; Done (Some (next_state_id mod 256) :: rest)
          else Panics
      | Some _ => rest ← number_nodes next_state_id nodes; Done (None :: rest)
      end
  end.

Fixpoint nodes_of_states (idx : N) (ids : list (option N)) : list N :=
  match ids with
  | [] => []
  | Some _ :: ids => idx :: nodes_of_states (idx + 1) ids
  | None :: ids => nodes_of_states (idx + 1) ids
  end.

(** Step 3: the states that end a string: the root and up to seven ones. *)
Fixpoint accept_walk (nodes : list TrieNode) (ids : list (option N)) (walk : N) (depth : nat) : exec (list N) :=
  match depth with
  | O => Done []
  | S depth =>
      match child1 (node_at nodes walk) with
      | Some idx =>
          match node_sym (node_at nodes idx) with
          | None =>
              match ids !!! N.to_nat idx with
              | Some st => rest ← accept_walk nodes ids idx depth; Done (st :: rest)
              | None => Panics
              end
          | Some _ => Done []
          end
      | None => Done []
      end
  end.

(** Step 4: four bits from a node; [None] is failure. *)
Fixpoint nibble_walk (nodes : list TrieNode) (cur : N) (emitted : option N) (bits : list bool) : option (N * option N) :=
  match bits with
  | [] => Some (cur, emitted)
  | bit :: bits =>
      match child (node_at nodes cur) bit with
      | None => None
      | Some cur =>
          match node_sym (node_at nodes cur) with
          | Some s =>
              if s =? 256 then None
              else match emitted with
                   | Some _ => None
                   | None => nibble_walk nodes 0 (Some (s mod 256)) bits
                   end
          | None => nibble_walk nodes cur emitted bits
          end
      end
  end.

Definition build_entry (nodes : list TrieNode) (ids : list (option N)) (accepted : list N) (start_node nibble : N) : exec HuffmanDecodeEntry :=
  match nibble_walk nodes start_node None (bits_of 4 nibble) with
  | None => Done (mkEntry 0 HUFF_FAIL 0)
  | Some (cur_node, emitted) =>
      match ids !!! N.to_nat cur_node with
      | None => Panics
      | Some next_state =>
          let f := match emitted with Some _ => HUFF_SYM | None => 0 end in
          let f := if bool_decide (next_state ∈ accepted) then N.lor f HUFF_ACCEPTED else f in
          Done (mkEntry next_state f (default 0 emitted))
      end
  end.

Fixpoint all_done {A} (l : list (exec A)) : exec (list A) :=
  match l with [] => Done [] | m :: l => x ← m; rest ← all_done l; Done (x :: rest) end.

Definition nibbles : list N := [0; 1; 2; 3; 4; 5; 6; 7; 8; 9; 10; 11; 12; 13; 14; 15].

Definition build_huffman_decode_table : exec (list (list HuffmanDecodeEntry)) :=
  let nodes := build_nodes in
  ids ← number_nodes 0 nodes;
  ones ← accept_walk nodes ids 0 7;
  let accepted := 0 :: ones in
  all_done ((λ start_node, all_done (build_entry nodes ids accepted start_node <$> nibbles)) <$> nodes_of_states 0 ids).

Definition done_or {A} (d : A) (m : exec A) : A := match m with Done a => a | Panics => d end.

(** The lazily built static ([huffman_table_builds] below: building it does not panic). *)
Definition HUFFMAN_DECODE_TABLE : list (list HuffmanDecodeEntry) := done_or [] build_huffman_decode_table.

(** ** Encoding *)

Definition BIT_MASKS (i : N) : N := if i =? 64 then u64_MAX else N.shiftl 1 i - 1.

Definition huffman_encoded_size (src : list N) : N :=
  let total_bits := foldl (λ t byte, (t + (code_of byte).2) mod 2 ^ 32) 0 src in
  (total_bits + 7) mod 2 ^ 32 / 8.

(** The inner loop: at most four bytes leave the accumulator per symbol. *)
Fixpoint flush_loop (fuel : nat) (dst : list N) (accumulator bits : N) : list N * N * N :=
  match fuel with
  | O => (dst, accumulator, bits)
  | S fuel =>
      if 8 <=? bits then
        let bits := bits - 8 in
        flush_loop fuel (dst ++ [N.shiftr accumulator bits mod 256]) (N.land accumulator (BIT_MASKS bits)) bits
      else (dst, accumulator, bits)
  end.

Fixpoint encode_loop (src : list N) (dst : list N) (accumulator bits : N) : list N * N * N :=
  match src with
  | [] => (dst, accumulator, bits)
  | byte :: src =>
      let '(code, code_bits) := code_of byte in
      let accumulator := N.lor (N.shiftl accumulator code_bits mod 2 ^ 64) code in
      let bits := bits + code_bits in
      let '(dst, accumulator, bits) := flush_loop (N.to_nat (bits / 8)) dst accumulator bits in
      encode_loop src dst accumulator bits
  end.

Definition encode_huffman_to_buffer (dst src : list N) : list N :=
  let '(dst, accumulator, bits) := encode_loop src dst 0 0 in
  if 0 <? bits then
    let padding := 8 - bits in
    dst ++ [N.lor (N.shiftl accumulator padding mod 2 ^ 64) (BIT_MASKS padding) mod 256]
  else dst.

(** ** Decoding *)

Definition table_entry (table : list (list HuffmanDecodeEntry)) (state nibble : N) : HuffmanDecodeEntry :=
  table !!! N.to_nat state !!! N.to_nat nibble.
Definition has_flag (e : HuffmanDecodeEntry) (flag : N) : bool := negb (N.land (flags e) flag =? 0).

Fixpoint huffman_loop (table : list (list HuffmanDecodeEntry)) (src : list N) (result : list N) (state : N) (accepted : bool) : Prelude.result (list N * bool) H2Error :=
  match src with
  | [] => Ok (result, accepted)
  | byte :: src =>
      let entry := table_entry table state (N.land (N.shiftr byte 4) 15) in
      if has_flag entry HUFF_FAIL then Err (Compression "invalid huffman code")
      else
        let result := if has_flag entry HUFF_SYM then result ++ [sym entry] else result in
        let entry := table_entry table (next_state entry) (N.land byte 15) in
        if has_flag entry HUFF_FAIL then Err (Compression "invalid huffman code")
        else
          let result := if has_flag entry HUFF_SYM then result ++ [sym entry] else result in
          huffman_loop table src result (next_state entry) (has_flag entry HUFF_ACCEPTED)
  end.

Definition decode_huffman (src : list N) : result (list N) H2Error :=
  let? r := huffman_loop HUFFMAN_DECODE_TABLE src [] 0 true in
  if negb r.2 then Err (Compression "invalid huffman padding")
  else if utf8_valid r.1 then Ok r.1
  else Err (Compression "invalid UTF-8 in huffman").

(** ** Bits *)

Lemma bits_of_length k x : length (bits_of k x) = k.
Proof. induction k; simpl; congruence. Qed.

Lemma bits_of_ext k x y : (∀ i, i < N.of_nat k → N.testbit x i = N.testbit y i) → bits_of k x = bits_of k y.
Proof. induction k as [|k IH]; intros H; simpl; [done|]. rewrite H by lia. f_equal. apply IH. intros i Hi. apply H. lia. Qed.

Lemma bits_of_app a b x : bits_of (a + b) x = bits_of a (N.shiftr x (N.of_nat b)) ++ bits_of b x.
Proof.
  induction a as [|a IH]; simpl; [done|]. rewrite IH. f_equal. rewrite N.shiftr_spec by lia. f_equal. lia.
Qed.

Lemma bits_of_mod k x : bits_of k (x mod 2 ^ N.of_nat k) = bits_of k x.
Proof. apply bits_of_ext. intros i Hi. by rewrite N.mod_pow2_bits_low. Qed.

Lemma bits_of_ones k m : (k ≤ m)%nat → bits_of k (N.ones (N.of_nat m)) = replicate k true.
Proof.
  intros H. induction k as [|k IH]; simpl; [done|]. rewrite N.ones_spec_low by lia. f_equal. apply IH. lia.
Qed.

(** [x] and [k] more bits [y]. *)
Lemma bits_of_shift a k x y : y < 2 ^ N.of_nat k →
  bits_of (a + k) (N.lor (N.shiftl x (N.of_nat k)) y) = bits_of a x ++ bits_of k y.
Proof.
  intros Hy. rewrite bits_of_app, N.lor_comm, lor_shiftl by done. f_equal.
  - f_equal. rewrite N.shiftr_div_pow2, N.div_add, N.div_small by lia. done.
  - rewrite <- (bits_of_mod k (y + x * _)), N.Div0.mod_add, bits_of_mod. done.
Qed.

Lemma bits_of_testbit k x y i : bits_of k x = bits_of k y → i < N.of_nat k → N.testbit x i = N.testbit y i.
Proof.
  induction k as [|k IH]; intros H Hi; [lia|]. injection H as Hb Hr. destruct (N.eq_dec i (N.of_nat k)) as [->|]; [done | apply IH; [done | lia]].
Qed.

Lemma testbit_above x k i : x < 2 ^ k → k ≤ i → N.testbit x i = false.
Proof.
  intros Hx Hi. destruct (N.eq_dec x 0) as [->|Hz]; [apply N.bits_0|]. apply N.bits_above_log2. apply N.log2_lt_pow2 in Hx; lia.
Qed.

Lemma bits_of_inj k x y : x < 2 ^ N.of_nat k → y < 2 ^ N.of_nat k → bits_of k x = bits_of k y → x = y.
Proof.
  intros Hx Hy H. apply N.bits_inj. intros i. destruct (N.lt_ge_cases i (N.of_nat k)); [by eapply bits_of_testbit|].
  by rewrite !(testbit_above _ (N.of_nat k)).
Qed.

Definition bytes_bits (l : list N) : list bool := mjoin (bits_of 8 <$> l).
Definition code_bits (byte : N) : list bool := bits_of (N.to_nat (code_of byte).2) (code_of byte).1.
Definition codes_bits (l : list N) : list bool := mjoin (code_bits <$> l).

Lemma bytes_bits_cons b l : bytes_bits (b :: l) = bits_of 8 b ++ bytes_bits l.
Proof. done. Qed.

Lemma bytes_bits_length l : length (bytes_bits l) = (8 * length l)%nat.
Proof. induction l as [|b l IH]; [done|]. rewrite bytes_bits_cons, length_app, bits_of_length, IH. simpl. lia. Qed.

Lemma bytes_bits_app l k : bytes_bits (l ++ k) = bytes_bits l ++ bytes_bits k.
Proof. unfold bytes_bits. by rewrite fmap_app, join_app. Qed.

Lemma bytes_bits_inj l k : Forall (λ b, b < 256) l → Forall (λ b, b < 256) k → bytes_bits l = bytes_bits k → l = k.
Proof.
  revert k. induction l as [|x l IH]; intros [|y k] Hl Hk H; [done|discriminate..|]. rewrite !bytes_bits_cons in H.
  apply Forall_cons in Hl as [Hx Hl], Hk as [Hy Hk]. apply app_inj_1 in H as [Hb Hr]; [|by rewrite !bits_of_length].
  f_equal; [by apply (bits_of_inj 8) | by apply IH].
Qed.

(** ** Encoding appends the bits of the codes *)

(** A check of all numbers below [n]. *)
Definition all_below (n : nat) (P : N → bool) : bool := forallb P (N.of_nat <$> seq 0 n).

Lemma all_below_spec n P x : all_below n P = true → x < N.of_nat n → P x = true.
Proof.
  unfold all_below. rewrite forallb_forall. intros H Hx. apply H, list_elem_of_In, list_elem_of_fmap. exists (N.to_nat x).
  split; [lia|]. apply elem_of_seq. lia.
Qed.

Lemma code_bounds : all_below 256 (λ b, let '(code, n) := code_of b in (5 <=? n) && (n <=? 30) && (code <? 2 ^ n)) = true.
Proof. vm_compute. reflexivity. Qed.

Lemma code_of_bounds b : b < 256 → 5 ≤ (code_of b).2 ≤ 30 ∧ (code_of b).1 < 2 ^ (code_of b).2.
Proof.
  intros Hb. pose proof (all_below_spec _ _ b code_bounds Hb) as H. simpl in H. destruct (code_of b) as [code n]. simpl.
  apply andb_true_iff in H as [[H1%N.leb_le H2%N.leb_le]%andb_true_iff H3%N.ltb_lt]. lia.
Qed.

Lemma bit_mask b : b < 64 → BIT_MASKS b = N.ones b.
Proof. intros H. unfold BIT_MASKS, N.ones. destruct (N.eqb_spec b 64); [lia|]. by rewrite N.sub_1_r. Qed.

Lemma flush_spec fuel dst acc bits : N.of_nat fuel = bits / 8 → bits < 64 → acc < 2 ^ bits →
  ∃ out acc' bits', flush_loop fuel dst acc bits = (dst ++ out, acc', bits') ∧ bits' < 8 ∧ acc' < 2 ^ bits' ∧ Forall (λ b, b < 256) out ∧
    bits_of (N.to_nat bits) acc = bytes_bits out ++ bits_of (N.to_nat bits') acc'.
Proof.
  revert dst acc bits. induction fuel as [|fuel IH]; intros dst acc bits Hfuel Hbits Hacc; cbn [flush_loop].
  - exists [], acc, bits. rewrite app_nil_r. repeat split; try done. pose proof (N.div_mod bits 8). pose proof (N.mod_lt bits 8). lia.
  - destruct (N.leb_spec 8 bits) as [H8|H8]; [|rewrite N.div_small in Hfuel by done; lia].
    set (b' := bits - 8). assert (bits = b' + 8) as Hb by (unfold b'; lia).
    assert (N.land acc (BIT_MASKS b') = acc mod 2 ^ b') as Hland by (rewrite bit_mask by lia; apply N.land_ones).
    assert (N.shiftr acc b' < 256) as Hhi.
    { rewrite N.shiftr_div_pow2. apply N.Div0.div_lt_upper_bound. rewrite Hb, N.pow_add_r in Hacc. lia. }
    destruct (IH (dst ++ [N.shiftr acc b' mod 256]) (N.land acc (BIT_MASKS b')) b') as (out & acc' & bits' & E & Hlt & Hacc' & Hout & Hbb).
    + replace (bits / 8) with (b' / 8 + 1) in Hfuel; [lia|]. rewrite Hb. rewrite <- (N.div_add b' 1 8) by lia. f_equal.
    + lia.
    + rewrite Hland. by apply N.mod_lt, N.pow_nonzero.
    + exists (N.shiftr acc b' mod 256 :: out), acc', bits'. rewrite E, <- app_assoc. rewrite N.mod_small in * by done. repeat split; try done.
      * by constructor.
      * rewrite bytes_bits_cons, <- app_assoc, <- Hbb, Hland. replace (N.to_nat bits) with (8 + N.to_nat b')%nat by lia.
        rewrite bits_of_app, N2Nat.id. f_equal.
        pose proof (bits_of_mod (N.to_nat b') acc) as Hm. rewrite N2Nat.id in Hm. by rewrite Hm.
Qed.

Lemma encode_loop_spec src dst acc bits : Forall (λ b, b < 256) src → bits < 8 → acc < 2 ^ bits →
  ∃ out acc' bits', encode_loop src dst acc bits = (dst ++ out, acc', bits') ∧ bits' < 8 ∧ acc' < 2 ^ bits' ∧ Forall (λ b, b < 256) out ∧
    bits_of (N.to_nat bits) acc ++ codes_bits src = bytes_bits out ++ bits_of (N.to_nat bits') acc'.
Proof.
  intros Hsrc. revert dst acc bits. induction Hsrc as [|byte src Hb Hsrc IH]; intros dst acc bits Hbits Hacc; cbn [encode_loop].
  - exists [], acc, bits. by rewrite !app_nil_r.
  - pose proof (code_of_bounds byte Hb) as [Hcb Hcode]. unfold codes_bits. cbn [fmap list_fmap mjoin list_join]. unfold code_bits at 1.
    destruct (code_of byte) as [code cb]. simpl in Hcb, Hcode |- *.
    assert (N.shiftl acc cb < 2 ^ 38) as Hsh.
    { rewrite N.shiftl_mul_pow2. apply (N.lt_le_trans _ (2 ^ bits * 2 ^ cb)); [apply N.mul_lt_mono_pos_r; [lia|done]|]. rewrite <- N.pow_add_r. apply N.pow_le_mono_r; lia. }
    rewrite (N.mod_small (N.shiftl acc cb)) by lia.
    destruct (flush_spec (N.to_nat ((bits + cb) / 8)) dst (N.lor (N.shiftl acc cb) code) (bits + cb)) as (out & acc1 & bits1 & E & Hlt & Hacc1 & Hout & Hbb).
    + lia.
    + lia.
    + rewrite N.lor_comm, lor_shiftl by done. rewrite N.pow_add_r. nia.
    + rewrite E. destruct (IH (dst ++ out) acc1 bits1 Hlt Hacc1) as (out2 & acc2 & bits2 & E2 & Hlt2 & Hacc2 & Hout2 & Hbb2).
      exists (out ++ out2), acc2, bits2. rewrite E2, app_assoc. repeat split; try done; [by apply Forall_app|].
      rewrite bytes_bits_app, <- app_assoc, <- Hbb2, app_assoc. fold (codes_bits src). rewrite (app_assoc (bytes_bits out)), <- Hbb. f_equal.
      replace (N.to_nat (bits + cb)) with (N.to_nat bits + N.to_nat cb)%nat by lia.
      pose proof (bits_of_shift (N.to_nat bits) (N.to_nat cb) acc code) as Hb'. rewrite N2Nat.id in Hb'. by rewrite Hb'.
Qed.

(** The bits of an encoded string: those of its codes and at most seven ones. *)
Lemma encode_huffman_bits dst src : Forall (λ b, b < 256) src →
  ∃ out pad, encode_huffman_to_buffer dst src = dst ++ out ∧ (pad < 8)%nat ∧ Forall (λ b, b < 256) out ∧
    bytes_bits out = codes_bits src ++ replicate pad true.
Proof.
  intros Hsrc. unfold encode_huffman_to_buffer.
  destruct (encode_loop_spec src dst 0 0 Hsrc) as (out & acc & bits & E & Hbits & Hacc & Hout & Hbb); [done..|]. rewrite E.
  simpl in Hbb. destruct (N.ltb_spec 0 bits) as [H0|H0].
  - set (pad := 8 - bits). exists (out ++ [N.lor (N.shiftl acc pad mod 2 ^ 64) (BIT_MASKS pad) mod 256]), (N.to_nat pad).
    assert (N.shiftl acc pad < 256) as Hsh.
    { rewrite N.shiftl_mul_pow2. apply (N.lt_le_trans _ (2 ^ bits * 2 ^ pad)); [apply N.mul_lt_mono_pos_r; [lia|done]|]. rewrite <- N.pow_add_r. by replace (bits + pad) with 8 by lia. }
    rewrite (N.mod_small (N.shiftl acc pad)) by lia. rewrite bit_mask by lia.
    assert (N.ones pad < 2 ^ pad) as Hones by (rewrite N.ones_equiv; apply N.lt_pred_l, N.pow_nonzero; done).
    assert (bits_of 8 (N.lor (N.shiftl acc pad) (N.ones pad) mod 256) = bits_of (N.to_nat bits) acc ++ replicate (N.to_nat pad) true) as Hlast.
    { change 256 with (2 ^ N.of_nat 8). rewrite bits_of_mod. replace 8%nat with (N.to_nat bits + N.to_nat pad)%nat by lia.
      pose proof (bits_of_shift (N.to_nat bits) (N.to_nat pad) acc (N.ones pad)) as Hb. pose proof (bits_of_ones (N.to_nat pad) (N.to_nat pad)) as Ho.
      rewrite N2Nat.id in Hb, Ho. rewrite Hb, Ho by done. done. }
    split; [by rewrite app_assoc|]. split; [lia|]. split; [apply Forall_app; split; [done|]; constructor; [by apply N.mod_lt|done]|].
    rewrite bytes_bits_app, bytes_bits_cons, Hlast, Hbb. change (bytes_bits []) with (@nil bool). by rewrite app_nil_r, <- app_assoc.
  - assert (bits = 0) as -> by lia. exists out, 0%nat. rewrite Hbb. simpl. rewrite !app_nil_r. repeat split; [lia | done].
Qed.

(** ** Decoding walks the trie

    [bit_walk] follows bits through the trie and emits symbols, as the four-bit
    walks of the table do. *)
Fixpoint bit_walk (nodes : list TrieNode) (cur : N) (bits : list bool) : option (N * list N) :=
  match bits with
  | [] => Some (cur, [])
  | bit :: bits =>
      match child (node_at nodes cur) bit with
      | None => None
      | Some cur =>
          match node_sym (node_at nodes cur) with
          | Some s => if s =? 256 then None else match bit_walk nodes 0 bits with Some (c, em) => Some (c, s :: em) | None => None end
          | None => bit_walk nodes cur bits
          end
      end
  end.

Lemma bit_walk_app nodes cur b1 b2 :
  bit_walk nodes cur (b1 ++ b2) =
  match bit_walk nodes cur b1 with
  | Some (c, em) => match bit_walk nodes c b2 with Some (c', em') => Some (c', em ++ em') | None => None end
  | None => None
  end.
Proof.
  revert cur. induction b1 as [|bit b1 IH]; intros cur; simpl; [by destruct (bit_walk nodes cur b2) as [[]|]|].
  destruct (child _ bit) as [c|]; [|done]. destruct (node_sym _) as [s|]; [|apply IH]. destruct (s =? 256); [done|]. rewrite IH.
  destruct (bit_walk nodes 0 b1) as [[c1 em]|]; [|done]. by destruct (bit_walk nodes c1 b2) as [[]|].
Qed.

Definition emitted (e : HuffmanDecodeEntry) : list N := if has_flag e HUFF_SYM then [sym e] else [].

Lemma emit_spec e (result : list N) : (if has_flag e HUFF_SYM then result ++ [sym e] else result) = result ++ emitted e.
Proof. unfold emitted. destruct (has_flag e HUFF_SYM); [done | by rewrite app_nil_r]. Qed.

Lemma nibbles_of_bytes : all_below 256 (λ b, bool_decide (bits_of 8 b = bits_of 4 (N.land (N.shiftr b 4) 15) ++ bits_of 4 (N.land b 15))
  && (N.land (N.shiftr b 4) 15 <? 16) && (N.land b 15 <? 16)) = true.
Proof. vm_compute. reflexivity. Qed.

(** A table over a trie: [node_of] is the node of a state, [accepting] says where a
    string may end and [path_of] is the path to a node.  The hypotheses are checks
    that can be computed. *)
Section trie.
Context (nodes : list TrieNode) (table : list (list HuffmanDecodeEntry)).
Context (node_of : N → N) (accepting : N → bool) (path_of : N → list bool).

Definition entry_ok (state nibble : N) : bool :=
  let e := table_entry table state nibble in
  match bit_walk nodes (node_of state) (bits_of 4 nibble) with
  | None => has_flag e HUFF_FAIL
  | Some (cur, em) =>
      negb (has_flag e HUFF_FAIL) && bool_decide (emitted e = em) && (node_of (next_state e) =? cur) && (next_state e <? 256)
      && eqb (has_flag e HUFF_ACCEPTED) (accepting cur)
  end.

Definition edge_ok (node : N) (bit : bool) : bool :=
  match child (node_at nodes node) bit with
  | None => true
  | Some c =>
      bool_decide (path_of c = path_of node ++ [bit]) && (c <? 513) &&
      match node_sym (node_at nodes c) with
      | Some s => (s =? 256) || ((s <? 256) && bool_decide (path_of c = code_bits s))
      | None => true
      end
  end.

Definition code_ok (b : N) : bool := bool_decide (bit_walk nodes 0 (code_bits b) = Some (0, [b])).
Definition padding_ok (k : N) : bool := match bit_walk nodes 0 (replicate (N.to_nat k) true) with Some (c, []) => accepting c | _ => false end.

Hypothesis entries_ok : all_below 256 (λ state, all_below 16 (entry_ok state)) = true.
Hypothesis edges_ok : all_below 513 (λ n, edge_ok n false && edge_ok n true) = true.
Hypothesis codes_ok : all_below 256 code_ok = true.
Hypothesis paddings_ok : all_below 8 padding_ok = true.
Hypothesis root_path : path_of 0 = [].

Lemma entry_spec state nibble : state < 256 → nibble < 16 → entry_ok state nibble = true.
Proof. intros Hs Hn. pose proof (all_below_spec _ _ state entries_ok Hs) as H. by apply (all_below_spec 16). Qed.

Definition walk_result (src : list N) (result : list N) (acc : bool) (w : option (N * list N)) : Prelude.result (list N * bool) H2Error :=
  match w with
  | None => Err (Compression "invalid huffman code")
  | Some (cur, em) => Ok (result ++ em, match src with [] => acc | _ => accepting cur end)
  end.

Lemma huffman_loop_walk src result state acc : Forall (λ b, b < 256) src → state < 256 →
  huffman_loop table src result state acc = walk_result src result acc (bit_walk nodes (node_of state) (bytes_bits src)).
Proof.
  intros Hsrc. revert result state acc. induction Hsrc as [|b src Hb Hsrc IH]; intros result state acc Hst; [simpl; by rewrite app_nil_r|].
  pose proof (all_below_spec _ _ b nibbles_of_bytes Hb) as H. apply andb_true_iff in H as [[Hbits%bool_decide_eq_true Hhi%N.ltb_lt]%andb_true_iff Hlo%N.ltb_lt].
  rewrite bytes_bits_cons, Hbits, <- app_assoc. cbn [huffman_loop]. set (hi := N.land (N.shiftr b 4) 15) in *. set (lo := N.land b 15) in *.
  pose proof (entry_spec state hi Hst Hhi) as H1. unfold entry_ok in H1. rewrite bit_walk_app.
  destruct (bit_walk nodes (node_of state) (bits_of 4 hi)) as [[c1 em1]|]; [|by rewrite H1].
  apply andb_true_iff in H1 as [[[[Hf1%negb_true_iff He1%bool_decide_eq_true]%andb_true_iff Hc1%N.eqb_eq]%andb_true_iff Hst1%N.ltb_lt]%andb_true_iff _].
  rewrite Hf1, (emit_spec (table_entry table state hi)), He1. set (st1 := next_state (table_entry table state hi)) in *.
  pose proof (entry_spec st1 lo Hst1 Hlo) as H2. unfold entry_ok in H2. rewrite bit_walk_app, <- Hc1.
  destruct (bit_walk nodes (node_of st1) (bits_of 4 lo)) as [[c2 em2]|]; [|by rewrite H2].
  apply andb_true_iff in H2 as [[[[Hf2%negb_true_iff He2%bool_decide_eq_true]%andb_true_iff Hc2%N.eqb_eq]%andb_true_iff Hst2%N.ltb_lt]%andb_true_iff Ha2%eqb_prop].
  rewrite Hf2, (emit_spec (table_entry table st1 lo)), He2, IH, Hc2 by done. unfold walk_result.
  destruct (bit_walk nodes c2 (bytes_bits src)) as [[c3 em3]|] eqn:E3; [|done].
  rewrite !app_assoc. f_equal. f_equal. destruct src; [|done]. simpl in E3. injection E3 as <- _. done.
Qed.

Lemma codes_bits_walk src : Forall (λ b, b < 256) src → bit_walk nodes 0 (codes_bits src) = Some (0, src).
Proof.
  induction 1 as [|b src Hb Hsrc IH]; [done|]. change (codes_bits (b :: src)) with (code_bits b ++ codes_bits src).
  pose proof (all_below_spec _ _ b codes_ok Hb) as Hw%bool_decide_eq_true. by rewrite bit_walk_app, Hw, IH.
Qed.

Lemma walk_path cur bits c em : cur < 513 → bit_walk nodes cur bits = Some (c, em) →
  path_of cur ++ bits = codes_bits em ++ path_of c ∧ Forall (λ b, b < 256) em.
Proof.
  revert cur c em. induction bits as [|bit bits IH]; intros cur c em Hcur; cbn [bit_walk]; [intros [=<- <-]; by rewrite app_nil_r|].
  pose proof (all_below_spec _ _ cur edges_ok Hcur) as H. apply andb_true_iff in H as [H0 H1].
  assert (edge_ok cur bit = true) as He by (destruct bit; assumption). clear H0 H1. unfold edge_ok in He.
  destruct (child _ bit) as [d|]; [|done]. apply andb_true_iff in He as [[Hp%bool_decide_eq_true Hd%N.ltb_lt]%andb_true_iff Hs].
  change (bit :: bits) with ([bit] ++ bits). rewrite app_assoc, <- Hp.
  destruct (node_sym (node_at nodes d)) as [s|]; [|by apply IH].
  destruct (s =? 256); [done|]. simpl in Hs. apply andb_true_iff in Hs as [Hs%N.ltb_lt Hcode%bool_decide_eq_true].
  destruct (bit_walk nodes 0 bits) as [[c' em']|] eqn:E; [|done]. intros [=<- <-]. destruct (IH 0 c' em' ltac:(lia) E) as [Hb Hem].
  split; [|by constructor]. change (codes_bits (s :: em')) with (code_bits s ++ codes_bits em'). rewrite <- app_assoc, <- Hb, Hcode, root_path. done.
Qed.

Hypothesis root_state : node_of 0 = 0.
Hypothesis accepting_path : ∀ c, accepting c = true → ∃ k, (k < 8)%nat ∧ path_of c = replicate k true.

Lemma padding_unique a b n k l : (a < 8)%nat → (b < 8)%nat → (n + a = 8 * k)%nat → (n + b = 8 * l)%nat → a = b.
Proof. lia. Qed.

Lemma huffman_loop_inverts src s : Forall (λ b, b < 256) src →
  huffman_loop table src [] 0 true = Ok (s, true) ↔ Forall (λ b, b < 256) s ∧ src = encode_huffman_to_buffer [] s.
Proof.
  intros Hsrc. rewrite huffman_loop_walk by done. rewrite root_state. split.
  - destruct (bit_walk nodes 0 (bytes_bits src)) as [[cur em]|] eqn:E; [|done]. intros [=-> Hacc].
    destruct (walk_path 0 (bytes_bits src) cur s ltac:(lia) E) as [Hp Hs]. split; [done|]. rewrite root_path in Hp. simpl in Hp.
    assert (∃ k, (k < 8)%nat ∧ path_of cur = replicate k true) as (k & Hk & Hpk).
    { destruct src; [|by apply accepting_path]. simpl in E. injection E as <- _. exists 0%nat. split; [lia | done]. }
    destruct (encode_huffman_bits [] s Hs) as (out & pad & -> & Hpad & Hout & Hbits). simpl. apply bytes_bits_inj; [done..|].
    rewrite Hp, Hbits, Hpk. f_equal. f_equal. pose proof (bytes_bits_length src) as H1. pose proof (bytes_bits_length out) as H2.
    rewrite Hp, length_app, Hpk, length_replicate in H1. rewrite Hbits, length_app, length_replicate in H2. by eapply padding_unique.
  - intros [Hs ->]. destruct (encode_huffman_bits [] s Hs) as (out & pad & -> & Hpad & Hout & Hbits). simpl. rewrite Hbits, bit_walk_app, codes_bits_walk by done.
    pose proof (all_below_spec _ _ (N.of_nat pad) paddings_ok ltac:(lia)) as Hp. unfold padding_ok in Hp. rewrite Nat2N.id in Hp.
    destruct (bit_walk nodes 0 (replicate pad true)) as [[c [|]]|]; [|done..]. simpl. rewrite app_nil_r, Hp. by destruct out.
Qed.

End trie.

(** ** The table of the crate *)

Definition state_nodes : list N := nodes_of_states 0 (done_or [] (number_nodes 0 build_nodes)).
Definition state_node (state : N) : N := state_nodes !!! N.to_nat state.

(** Paths by depth-first search. *)
Fixpoint paths (nodes : list TrieNode) (fuel : nat) (cur : N) (prefix : list bool) : list (N * list bool) :=
  (cur, prefix) ::
  match fuel with
  | O => []
  | S fuel =>
      (match child0 (node_at nodes cur) with Some c => paths nodes fuel c (prefix ++ [false]) | None => [] end)
      ++ (match child1 (node_at nodes cur) with Some c => paths nodes fuel c (prefix ++ [true]) | None => [] end)
  end.
Definition path_in (ps : list (N * list bool)) (node : N) : list bool :=
  match list_find (λ p, p.1 = node) ps with Some (_, p) => p.2 | None => [] end.
Definition all_paths : list (N * list bool) := paths build_nodes 30 0 [].

Definition ends_in (ps : list (N * list bool)) (node : N) : bool :=
  existsb (λ k, bool_decide (path_in ps node = replicate k true)) (seq 0 8).

Lemma ends_in_spec ps c : ends_in ps c = true → ∃ k, (k < 8)%nat ∧ path_in ps c = replicate k true.
Proof. unfold ends_in. rewrite existsb_exists. intros (k & Hk & H%bool_decide_eq_true). exists k. split; [|done]. apply list_elem_of_In, elem_of_seq in Hk. lia. Qed.

Lemma huffman_table_builds : ∃ t, build_huffman_decode_table = Done t ∧ length t = 256%nat.
Proof.
  assert (match build_huffman_decode_table with Done t => length t =? 256 | Panics => false end = true)%nat as H by (vm_compute; reflexivity).
  destruct build_huffman_decode_table as [t|]; [|done]. exists t. split; [done | by apply Nat.eqb_eq].
Qed.

Lemma huffman_inverts src s : Forall (λ b, b < 256) src →
  huffman_loop HUFFMAN_DECODE_TABLE src [] 0 true = Ok (s, true) ↔ Forall (λ b, b < 256) s ∧ src = encode_huffman_to_buffer [] s.
Proof.
  apply (huffman_loop_inverts build_nodes HUFFMAN_DECODE_TABLE state_node (ends_in all_paths) (path_in all_paths)).
  - vm_compute. reflexivity.
  - vm_compute. reflexivity.
  - vm_compute. reflexivity.
  - vm_compute. reflexivity.
  - vm_compute. reflexivity.
  - vm_compute. reflexivity.
  - apply ends_in_spec.
Qed.

(** The length that is announced is the length that is written. *)
Definition total_bits (src : list N) : N := foldr (λ byte t, (code_of byte).2 + t) 0 src.

Lemma codes_bits_length src : lenN (codes_bits src) = total_bits src.
Proof.
  induction src as [|b src IH]; [done|]. change (codes_bits (b :: src)) with (code_bits b ++ codes_bits src). rewrite len_app, IH.
  unfold code_bits, lenN. rewrite bits_of_length. simpl. lia.
Qed.

Lemma total_bits_le src : Forall (λ b, b < 256) src → total_bits src ≤ 30 * lenN src.
Proof. induction 1 as [|b src Hb Hsrc IH]; [done|]. rewrite len_cons. simpl. pose proof (code_of_bounds b Hb). lia. Qed.

Lemma total_bits_fold src t : t + total_bits src < 2 ^ 32 → foldl (λ t byte, (t + (code_of byte).2) mod 2 ^ 32) t src = t + total_bits src.
Proof.
  revert t. induction src as [|b src IH]; intros t Ht; simpl in *; [lia|]. rewrite N.mod_small by lia. rewrite IH by lia. lia.
Qed.

Lemma encoded_size_exact src : Forall (λ b, b < 256) src → 30 * lenN src + 7 < 2 ^ 32 →
  lenN (encode_huffman_to_buffer [] src) = huffman_encoded_size src.
Proof.
  intros Hsrc Hlen. pose proof (total_bits_le src Hsrc) as Ht. unfold huffman_encoded_size. rewrite total_bits_fold by lia. rewrite N.mod_small by lia.
  destruct (encode_huffman_bits [] src Hsrc) as (out & pad & -> & Hpad & _ & Hbits). simpl.
  pose proof (bytes_bits_length out) as Hl. rewrite Hbits, length_app, length_replicate in Hl.
  pose proof (codes_bits_length src) as Hc. unfold lenN in *. apply N.div_unique with (r := 7 - N.of_nat pad); lia.
Qed.

Lemma huffman_decode_iff src s : Forall (λ b, b < 256) src →
  decode_huffman src = Ok s ↔ Forall (λ b, b < 256) s ∧ utf8_valid s = true ∧ src = encode_huffman_to_buffer [] s.
Proof.
  intros Hsrc. unfold decode_huffman. pose proof (λ s, huffman_inverts src s Hsrc) as H.
  destruct (huffman_loop HUFFMAN_DECODE_TABLE src [] 0 true) as [[r []]|e]; simpl.
  - assert (Forall (λ b, b < 256) r ∧ src = encode_huffman_to_buffer [] r) as [Hr He] by by apply H.
    destruct (utf8_valid r) eqn:Eu.
    + split; [by intros [=<-]|]. intros (Hs & Hu & Hsrc'). by assert (Ok (r, true) = Ok (s, true)) as [=->] by by apply H.
    + split; [done|]. intros (Hs & Hu & Hsrc'). assert (Ok (r, true) = Ok (s, true)) as [=->] by by apply H. congruence.
  - split; [done|]. intros (Hs & Hu & Hsrc'). by assert (Ok (r, false) = Ok (s, true)) by by apply H.
  - split; [done|]. intros (Hs & Hu & Hsrc'). by assert (Err e = Ok (s, true)) by by apply H.
Qed.

Lemma huffman_decodes s : Forall (λ b, b < 256) s → utf8_valid s = true → decode_huffman (encode_huffman_to_buffer [] s) = Ok s.
Proof.
  intros Hs Hu. apply huffman_decode_iff; [|done]. destruct (encode_huffman_bits [] s Hs) as (out & pad & -> & _ & Hout & _). done.
Qed.

(** C39: The Huffman decoder of HPACK accepts exactly what the encoder writes: it
    returns a string on a byte sequence if and only if the string is valid UTF-8 and
    the sequence is its encoding; and the encoder writes as many bytes as it
    announces.  Both for strings [s] with [30 * lenN s + 7 < 2 ^ 32], for which the u32 sum
    of code lengths does not wrap. *)
Theorem huffman_decodes_exactly src s : Forall (λ b, b < 256) src → 30 * lenN s + 7 < 2 ^ 32 →
  (decode_huffman src = Ok s ↔ Forall (λ b, b < 256) s ∧ utf8_valid s = true ∧ src = encode_huffman_to_buffer [] s) ∧
  (Forall (λ b, b < 256) s → lenN (encode_huffman_to_buffer [] s) = huffman_encoded_size s).
Proof. intros Hsrc Hlen. split; [by apply huffman_decode_iff|]. intros Hs. by apply encoded_size_exact. Qed.

Lemma huffman_decodes_exactly_witness : decode_huffman [241; 227; 199] = Ok [119; 119; 119].
Proof.
  apply (huffman_decodes_exactly [241; 227; 199] [119; 119; 119]); [repeat constructor; lia | vm_compute; reflexivity |].
  split; [repeat constructor; lia|]. split; vm_compute; reflexivity.
Defined.
