(* ===== verification/Hpack.v ===== *)
(** * HPACK

    Models [src/http/h2/hpack.rs]: the static table, the dynamic table with its side
    indices, integers, strings, the encoder and the decoder.  Header names and values
    are the lists of their UTF-8 bytes; a buffer is the list of its bytes, what is
    read is taken off its front.  The Huffman code is in [Huffman]; the theorems are
    in [HpackThms]. *)

From Stdlib Require Import Ascii.
From S2P Require Import Prelude Utf8 Huffman.

Module Codec.

Notation bytes := (list N) (only parsing).

Fixpoint bytes_of (s : string) : bytes :=
  match s with EmptyString => [] | String c s => N_of_ascii c :: bytes_of s end.

(** ** The static table *)

Definition MAX_ALLOWED_TABLE_SIZE : N := 1024 * 1024.
Definition DEFAULT_MAX_TABLE_SIZE : N := 4096.

Definition STATIC_TABLE : list (bytes * bytes) :=
  (λ p, (bytes_of p.1, bytes_of p.2)) <$>
  [(":authority", EmptyString); (":method", "GET"); (":method", "POST");
   (":path", "/"); (":path", "/index.html"); (":scheme", "http");
   (":scheme", "https"); (":status", "200"); (":status", "204");
   (":status", "206"); (":status", "304"); (":status", "400");
   (":status", "404"); (":status", "500"); ("accept-charset", EmptyString);
   ("accept-encoding", "gzip, deflate"); ("accept-language", EmptyString); ("accept-ranges", EmptyString);
   ("accept", EmptyString); ("access-control-allow-origin", EmptyString); ("age", EmptyString);
   ("allow", EmptyString); ("authorization", EmptyString); ("cache-control", EmptyString);
   ("content-disposition", EmptyString); ("content-encoding", EmptyString); ("content-language", EmptyString);
   ("content-length", EmptyString); ("content-location", EmptyString); ("content-range", EmptyString);
   ("content-type", EmptyString); ("cookie", EmptyString); ("date", EmptyString);
   ("etag", EmptyString); ("expect", EmptyString); ("expires", EmptyString);
   ("from", EmptyString); ("host", EmptyString); ("if-match", EmptyString);
   ("if-modified-since", EmptyString); ("if-none-match", EmptyString); ("if-range", EmptyString);
   ("if-unmodified-since", EmptyString); ("last-modified", EmptyString); ("link", EmptyString);
   ("location", EmptyString); ("max-forwards", EmptyString); ("proxy-authenticate", EmptyString);
   ("proxy-authorization", EmptyString); ("range", EmptyString); ("referer", EmptyString);
   ("refresh", EmptyString); ("retry-after", EmptyString); ("server", EmptyString);
   ("set-cookie", EmptyString); ("strict-transport-security", EmptyString); ("transfer-encoding", EmptyString);
   ("user-agent", EmptyString); ("vary", EmptyString); ("via", EmptyString);
   ("www-authenticate", EmptyString)]%string.

(** The lazily built maps: of equal pairs the last one wins, of equal names the first. *)
Definition STATIC_EXACT_INDEX : gmap (bytes * bytes) N :=
  foldl (λ m p, <[p.2 := saturating_add usize_MAX p.1 1]> m) ∅ (imap (λ i p, (N.of_nat i, p)) STATIC_TABLE).
Definition STATIC_NAME_INDEX : gmap bytes N :=
  foldl (λ m p, match m !! p.2.1 with Some _ => m | None => <[p.2.1 := saturating_add usize_MAX p.1 1]> m end) ∅
    (imap (λ i p, (N.of_nat i, p)) STATIC_TABLE).

Definition find_static (name value : bytes) : option N := STATIC_EXACT_INDEX !! (name, value).
Definition find_static_name (name : bytes) : option N := STATIC_NAME_INDEX !! name.
Definition get_static (index : N) : option (bytes * bytes) :=
  if (index =? 0) || (lenN STATIC_TABLE <? index) then None else STATIC_TABLE !! N.to_nat (saturating_sub index 1).

(** ** Headers and the dynamic table *)

Record Header := mkHeader { name : bytes; value : bytes }.

#[global] Instance Header_eq_dec : EqDecision Header.
Proof. solve_decision. Defined.

Definition pair_size (n v : bytes) : N := saturating_add usize_MAX (saturating_add usize_MAX (lenN n) (lenN v)) 32.
Definition header_size (h : Header) : N := pair_size (name h) (value h).

Record DynamicTableEntry := mkDynEntry { e_name : bytes; e_value : bytes; generation : N }.
Definition to_header (e : DynamicTableEntry) : Header := mkHeader (e_name e) (e_value e).
Definition entry_size (e : DynamicTableEntry) : N := pair_size (e_name e) (e_value e).

Record DynamicTableIndex := mkIndex {
  by_name_value : gmap bytes (gmap bytes (list N));
  by_name : gmap bytes (list N);
}.
Definition default_index : DynamicTableIndex := mkIndex ∅ ∅.

Definition index_add (ix : DynamicTableIndex) (n v : bytes) (gen : N) : DynamicTableIndex :=
  let inner := default ∅ (by_name_value ix !! n) in
  mkIndex (<[n := <[v := gen :: default [] (inner !! v)]> inner]> (by_name_value ix))
          (<[n := gen :: default [] (by_name ix !! n)]> (by_name ix)).

(** [deque.pop_back()] *)
Definition pop_back {A} (l : list A) : list A := take (length l - 1) l.

Definition remove_oldest (ix : DynamicTableIndex) (n v : bytes) : DynamicTableIndex :=
  let nv :=
    match by_name_value ix !! n with
    | Some inner =>
        let inner :=
          match inner !! v with
          | Some deque => if bool_decide (pop_back deque = []) then delete v inner else <[v := pop_back deque]> inner
          | None => inner
          end in
        if bool_decide (inner = ∅) then delete n (by_name_value ix) else <[n := inner]> (by_name_value ix)
    | None => by_name_value ix
    end in
  let bn :=
    match by_name ix !! n with
    | Some deque => if bool_decide (pop_back deque = []) then delete n (by_name ix) else <[n := pop_back deque]> (by_name ix)
    | None => by_name ix
    end in
  mkIndex nv bn.

Definition newest_for_pair (ix : DynamicTableIndex) (n v : bytes) : option N :=
  inner ← by_name_value ix !! n; deque ← inner !! v; head deque.
Definition newest_for_name (ix : DynamicTableIndex) (n : bytes) : option N :=
  deque ← by_name ix !! n; head deque.
Definition index_clear (ix : DynamicTableIndex) : DynamicTableIndex := mkIndex ∅ ∅.

(** The newest entry is at the front. *)
Record DynamicTable := mkTable {
  entries : list DynamicTableEntry;
  size : N;
  max_size : N;
  insert_count : N;
  index : DynamicTableIndex;
}.

Definition table_with_max_size (m : N) : DynamicTable := mkTable [] 0 (N.min m MAX_ALLOWED_TABLE_SIZE) 0 default_index.
Definition table_new : DynamicTable := table_with_max_size DEFAULT_MAX_TABLE_SIZE.

Definition pop_back_with_index_cleanup (t : DynamicTable) : DynamicTable :=
  match last (entries t) with
  | Some evicted =>
      mkTable (pop_back (entries t)) (saturating_sub (size t) (entry_size evicted)) (max_size t) (insert_count t)
        (remove_oldest (index t) (e_name evicted) (e_value evicted))
  | None => t
  end.

(** [while cond && !entries.is_empty()]: every round removes an entry. *)
Fixpoint evict_loop (fuel : nat) (room : N) (t : DynamicTable) : DynamicTable :=
  match fuel with
  | O => t
  | S fuel =>
      if (max_size t <? saturating_add usize_MAX (size t) room) && negb (bool_decide (entries t = []))
      then evict_loop fuel room (pop_back_with_index_cleanup t) else t
  end.

Definition evict (t : DynamicTable) : DynamicTable := evict_loop (length (entries t)) 0 t.

Definition set_max_size (t : DynamicTable) (m : N) : DynamicTable :=
  evict (mkTable (entries t) (size t) (N.min m MAX_ALLOWED_TABLE_SIZE) (insert_count t) (index t)).

Definition insert (t : DynamicTable) (h : Header) : DynamicTable :=
  let gen := insert_count t in
  let entry := mkDynEntry (name h) (value h) gen in
  let sz := entry_size entry in
  let t := evict_loop (length (entries t)) sz t in
  if sz <=? max_size t then
    mkTable (entry :: entries t) (saturating_add usize_MAX (size t) sz) (max_size t) (saturating_add u64_MAX (insert_count t) 1)
      (index_add (index t) (name h) (value h) gen)
  else mkTable (entries t) (size t) (max_size t) (insert_count t) (index_clear (index t)).

Definition get (t : DynamicTable) (i : N) : option Header :=
  if (i =? 0) || (lenN (entries t) <? i) then None else to_header <$> entries t !! N.to_nat (saturating_sub i 1).

Definition index_from_generation (t : DynamicTable) (gen : N) : N := lenN STATIC_TABLE + saturating_sub (insert_count t) gen.
Definition find (t : DynamicTable) (n v : bytes) : option N := index_from_generation t <$> newest_for_pair (index t) n v.
Definition find_name (t : DynamicTable) (n : bytes) : option N := index_from_generation t <$> newest_for_name (index t) n.

(** ** Integers *)

(** The continuation bytes; [fuel] bounds their number, ten are enough for 64 bits. *)
Fixpoint encode_rest (fuel : nat) (remaining : N) : bytes :=
  match fuel with
  | O => [remaining mod 256]
  | S fuel =>
      if 128 <=? remaining then N.lor (N.land remaining 127 mod 256) 128 :: encode_rest fuel (N.shiftr remaining 7)
      else [remaining mod 256]
  end.

Definition encode_integer (dst : bytes) (v prefix_bits prefix : N) : bytes :=
  let max_first := saturating_sub (N.shiftl 1 prefix_bits) 1 in
  if v <? max_first then dst ++ [N.lor prefix (v mod 256)]
  else dst ++ [N.lor prefix (max_first mod 256)] ++ encode_rest 10 (v - max_first).

(** What is left of the source and the result. *)
Definition parsed (A : Type) : Type := bytes * result A H2Error.
Definition fail {A} (src : bytes) (message : string) : parsed A := (src, Err (Compression message)).

Fixpoint decode_rest (src : bytes) (v shift : N) : parsed N :=
  match src with
  | [] => fail [] "unexpected end of integer"
  | byte :: src =>
      if 28 <? shift then fail src "integer too large"
      else if 64 <=? shift then fail src "integer overflow in shift"
      else
        let multiplier := N.shiftl 1 shift in
        let increment := N.land byte 127 * multiplier in
        if usize_MAX <? increment then fail src "integer overflow in multiply"
        else if usize_MAX <? v + increment then fail src "integer overflow in addition"
        else
          let v := v + increment in
          if N.land byte 128 =? 0 then (src, Ok v) else decode_rest src v (shift + 7)
  end.

Definition decode_integer (src : bytes) (prefix_bits : N) : parsed N :=
  match src with
  | [] => fail [] "unexpected end of integer"
  | byte :: src =>
      let max_first := saturating_sub (N.shiftl 1 prefix_bits) 1 in
      let first := N.land byte (max_first mod 256) in
      if first <? max_first then (src, Ok first) else decode_rest src max_first 0
  end.

(** ** Strings *)

Definition MAX_STRING_LENGTH : N := 256 * 1024.

Definition encode_string (dst : bytes) (s : bytes) (use_huffman : bool) : bytes :=
  if use_huffman then encode_huffman_to_buffer (encode_integer dst (huffman_encoded_size s) 7 128) s
  else encode_integer dst (lenN s) 7 0 ++ s.

Definition name_byte_ok (i b : N) : bool :=
  in_range 97 122 b || in_range 48 57 b
  || existsb (N.eqb b) [33; 35; 36; 37; 38; 39; 42; 43; 45; 46; 94; 95; 96; 124; 126] || ((b =? 58) && (i =? 0)).

Fixpoint name_bytes_ok (i : N) (n : bytes) : bool :=
  match n with [] => true | b :: n => name_byte_ok i b && name_bytes_ok (i + 1) n end.

Definition validate_header_name (n : bytes) : result unit H2Error :=
  if bool_decide (n = []) then Err (Compression "empty header name")
  else if name_bytes_ok 0 n then Ok ()
  else Err (Compression "invalid character in header name (RFC 9113 Section 8.2.1)").

Definition validate_header_value (v : bytes) : result unit H2Error :=
  if existsb (λ b, (b =? 0) || (b =? 13) || (b =? 10)) v
  then Err (Compression "invalid character in header value (RFC 9113 Section 8.2.1)") else Ok ().

Definition decode_string_bounded (src : bytes) (max_len : N) : parsed bytes :=
  match src with
  | [] => fail [] "unexpected end of string"
  | first :: _ =>
      let huffman := negb (N.land first 128 =? 0) in
      match decode_integer src 7 with
      | (src, Err e) => (src, Err e)
      | (src, Ok length) =>
          if N.min max_len MAX_STRING_LENGTH <? length then fail src "string length exceeds budget"
          else if lenN src <? length then fail src "string length exceeds buffer"
          else
            let data := takeN length src in
            (dropN length src,
             if huffman then decode_huffman data
             else if utf8_valid data then Ok data else Err (Compression "invalid UTF-8 in header"))
      end
  end.

(** ** The encoder *)

Record Encoder := mkEncoder {
  enc_table : DynamicTable;
  use_huffman : bool;
  min_size_update : option N;
  pending_size_update : option N;
}.

Definition encoder_with_max_size (m : N) : Encoder := mkEncoder (table_with_max_size m) true None None.
Definition set_use_huffman (e : Encoder) (b : bool) : Encoder := mkEncoder (enc_table e) b (min_size_update e) (pending_size_update e).

Definition set_max_table_size (e : Encoder) (sz : N) : Encoder :=
  let capped := N.min sz MAX_ALLOWED_TABLE_SIZE in
  mkEncoder (set_max_size (enc_table e) capped) (use_huffman e)
    (Some (match min_size_update e with Some min_so_far => N.min min_so_far capped | None => capped end)) (Some capped).

Definition emit_pending_size_update (e : Encoder) (dst : bytes) : Encoder * bytes :=
  match min_size_update e with
  | Some min_size =>
      match pending_size_update e with
      | Some final_size =>
          let dst := if min_size <? final_size then encode_integer dst min_size 5 32 else dst in
          (mkEncoder (enc_table e) (use_huffman e) None None, encode_integer dst final_size 5 32)
      | None => (mkEncoder (enc_table e) (use_huffman e) None None, dst)
      end
  | None => (e, dst)
  end.

Definition is_ascii_uppercase (b : N) : bool := in_range 65 90 b.
Definition to_ascii_lowercase (n : bytes) : bytes := (λ b, if is_ascii_uppercase b then b + 32 else b) <$> n.

Definition with_table (e : Encoder) (t : DynamicTable) : Encoder := mkEncoder t (use_huffman e) (min_size_update e) (pending_size_update e).

Definition or_else {A} (x y : option A) : option A := match x with Some a => Some a | None => y end.

Definition encode_header (e : Encoder) (h : Header) (dst : bytes) (indexed : bool) : Encoder * bytes :=
  let n := if existsb is_ascii_uppercase (name h) then to_ascii_lowercase (name h) else name h in
  let v := value h in
  match (if indexed then or_else (find_static n v) (find (enc_table e) n v) else None) with
  | Some idx => (e, encode_integer dst idx 7 128)
  | None =>
      let name_idx := or_else (find_static_name n) (find_name (enc_table e) n) in
      if indexed then
        let dst := match name_idx with
                   | Some idx => encode_integer dst idx 6 64
                   | None => encode_string (dst ++ [64]) n (use_huffman e)
                   end in
        let dst := encode_string dst v (use_huffman e) in
        (with_table e (insert (enc_table e) (mkHeader n v)), dst)
      else
        let dst := match name_idx with
                   | Some idx => encode_integer dst idx 4 16
                   | None => encode_string (dst ++ [16]) n (use_huffman e)
                   end in
        (e, encode_string dst v (use_huffman e))
  end.

Fixpoint encode_headers (e : Encoder) (headers : list Header) (dst : bytes) (indexed : bool) : Encoder * bytes :=
  match headers with
  | [] => (e, dst)
  | h :: headers => let '(e, dst) := encode_header e h dst indexed in encode_headers e headers dst indexed
  end.

Definition encode (e : Encoder) (headers : list Header) (dst : bytes) : Encoder * bytes :=
  let '(e, dst) := emit_pending_size_update e dst in encode_headers e headers dst true.
Definition encode_sensitive (e : Encoder) (headers : list Header) (dst : bytes) : Encoder * bytes :=
  let '(e, dst) := emit_pending_size_update e dst in encode_headers e headers dst false.

(** ** The decoder *)

Definition MAX_SIZE_UPDATES : N := 16.

Record Decoder := mkDecoder { dec_table : DynamicTable; max_header_list_size : N; allowed_table_size : N }.

Definition decoder_with_max_size (m : N) : Decoder :=
  let capped_size := N.min m MAX_ALLOWED_TABLE_SIZE in mkDecoder (table_with_max_size capped_size) 16384 capped_size.
Definition set_max_header_list_size (d : Decoder) (sz : N) : Decoder := mkDecoder (dec_table d) sz (allowed_table_size d).
Definition set_allowed_table_size (d : Decoder) (sz : N) : Decoder :=
  mkDecoder (dec_table d) (max_header_list_size d) (N.min sz MAX_ALLOWED_TABLE_SIZE).
Definition set_dec_table (d : Decoder) (t : DynamicTable) : Decoder := mkDecoder t (max_header_list_size d) (allowed_table_size d).

Definition get_indexed (d : Decoder) (i : N) : result Header H2Error :=
  if i =? 0 then Err (Compression "invalid index 0")
  else if i <=? lenN STATIC_TABLE then
    match get_static i with Some (n, v) => Ok (mkHeader n v) | None => Err (Compression "invalid static index") end
  else match get (dec_table d) (i - lenN STATIC_TABLE) with Some h => Ok h | None => Err (Compression "invalid dynamic index") end.

Definition get_indexed_name (d : Decoder) (i : N) : result bytes H2Error :=
  if i =? 0 then Err (Compression "invalid index 0")
  else if i <=? lenN STATIC_TABLE then
    match get_static i with Some (n, _) => Ok n | None => Err (Compression "invalid static index") end
  else match get (dec_table d) (i - lenN STATIC_TABLE) with Some h => Ok (name h) | None => Err (Compression "invalid dynamic index") end.

Definition decode_literal_name (d : Decoder) (src : bytes) (i remaining_budget : N) : parsed bytes :=
  if i =? 0 then
    match decode_string_bounded src remaining_budget with
    | (src, Err e) => (src, Err e)
    | (src, Ok n) => (src, let? _ := validate_header_name n in Ok n)
    end
  else (src, get_indexed_name d i).

Definition decode_literal (d : Decoder) (src : bytes) (prefix_bits remaining_budget : N) : parsed (bytes * bytes) :=
  match decode_integer src prefix_bits with
  | (src, Err e) => (src, Err e)
  | (src, Ok i) =>
      match decode_literal_name d src i remaining_budget with
      | (src, Err e) => (src, Err e)
      | (src, Ok n) =>
          match decode_string_bounded src (saturating_sub remaining_budget (lenN n)) with
          | (src, Err e) => (src, Err e)
          | (src, Ok v) => (src, let? _ := validate_header_value v in Ok (n, v))
          end
      end
  end.

Definition decode_header (d : Decoder) (src : bytes) (remaining_budget : N) : Decoder * parsed Header :=
  match src with
  | [] => (d, fail [] "unexpected end of header block")
  | first :: _ =>
      if negb (N.land first 128 =? 0) then
        match decode_integer src 7 with
        | (src, Err e) => (d, (src, Err e))
        | (src, Ok i) => (d, (src, get_indexed d i))
        end
      else if negb (N.land first 64 =? 0) then
        match decode_literal d src 6 remaining_budget with
        | (src, Err e) => (d, (src, Err e))
        | (src, Ok (n, v)) => (set_dec_table d (insert (dec_table d) (mkHeader n v)), (src, Ok (mkHeader n v)))
        end
      else if negb (N.land first 32 =? 0) then (d, fail src "dynamic table size update after first header in block")
      else
        match decode_literal d src 4 remaining_budget with
        | (src, Err e) => (d, (src, Err e))
        | (src, Ok (n, v)) => (d, (src, Ok (mkHeader n v)))
        end
  end.

(** The leading size updates: at most sixteen, and every round reads a byte. *)
Fixpoint size_updates (fuel : nat) (d : Decoder) (src : bytes) (size_update_count : N) : Decoder * parsed unit :=
  match fuel with
  | O => (d, (src, Ok ()))
  | S fuel =>
      match src with
      | first :: _ =>
          if N.land first 224 =? 32 then
            let size_update_count := saturating_add usize_MAX size_update_count 1 in
            if MAX_SIZE_UPDATES <? size_update_count then (d, fail src "too many consecutive dynamic table size updates")
            else
              match decode_integer src 5 with
              | (src, Err e) => (d, (src, Err e))
              | (src, Ok new_size) =>
                  if allowed_table_size d <? new_size then (d, fail src "dynamic table size update exceeds allowed maximum")
                  else size_updates fuel (set_dec_table d (set_max_size (dec_table d) new_size)) src size_update_count
              end
          else (d, (src, Ok ()))
      | [] => (d, (src, Ok ()))
      end
  end.

(** The header fields: every round reads a byte. *)
Fixpoint header_loop (fuel : nat) (d : Decoder) (src : bytes) (headers : list Header) (total_size : N) : Decoder * parsed (list Header) :=
  match src with
  | [] => (d, ([], Ok headers))
  | _ :: _ =>
      match fuel with
      | O => (d, (src, Ok headers))
      | S fuel =>
          let remaining_budget := saturating_sub (max_header_list_size d) total_size in
          match decode_header d src remaining_budget with
          | (d, (src, Err e)) => (d, (src, Err e))
          | (d, (src, Ok h)) =>
              let total_size := saturating_add usize_MAX total_size (header_size h) in
              if max_header_list_size d <? total_size then (d, fail src "header list too large")
              else header_loop fuel d src (headers ++ [h]) total_size
          end
      end
  end.

Definition decode (d : Decoder) (src : bytes) : Decoder * parsed (list Header) :=
  match size_updates (S (length src)) d src 0 with
  | (d, (src, Err e)) => (d, (src, Err e))
  | (d, (src, Ok _)) => header_loop (length src) d src [] 0
  end.

End Codec.
