(* ===== verification/HpackThms.v ===== *)
(** * HPACK: theorems

    The dynamic table with its indices refines a list of headers; what the encoder
    writes the decoder reads back, block after block and across size changes; and on
    any input the decoder keeps to its limits. *)

From S2P Require Import Prelude Utf8 Huffman Hpack.

Module HpackThms.
Import Codec.

Notation is_bytes := (Forall (λ b, b < 256)).

(** ** Integers *)

(** [k]-bit prefixes in use, with the bits above them. *)
Definition prefixes : list (N * N) := [(7, 128); (7, 0); (6, 64); (5, 32); (4, 16)].

Lemma prefix_bits_ok : forallb (λ p, all_below (N.to_nat (2 ^ p.1)) (λ x, (N.land (N.lor p.2 x) (2 ^ p.1 - 1) =? x) && (N.lor p.2 x =? p.2 + x))) prefixes = true.
Proof. vm_compute. reflexivity. Qed.

Lemma prefix_byte k prefix x : (k, prefix) ∈ prefixes → x < 2 ^ k →
  N.land (N.lor prefix x) (2 ^ k - 1) = x ∧ N.lor prefix x = prefix + x.
Proof.
  intros Hin Hx. pose proof prefix_bits_ok as H. rewrite forallb_forall in H. specialize (H _ (proj1 (list_elem_of_In _ _) Hin)). simpl in H.
  apply (all_below_spec _ _ x) in H; [|by rewrite N2Nat.id]. apply andb_true_iff in H as [H1%N.eqb_eq H2%N.eqb_eq]. done.
Qed.

Lemma prefix_width k prefix : (k, prefix) ∈ prefixes → 2 ^ k ≤ 128 ∧ 0 < 2 ^ k.
Proof. intros Hin. unfold prefixes in Hin. set_unfold in Hin. destruct_or! Hin; by simplify_eq. Qed.

Lemma continuation_bits : all_below 128 (λ a, (N.land (N.lor a 128) 127 =? a) && (N.lor a 128 =? 128 + a) && negb (N.land (N.lor a 128) 128 =? 0) && (N.land a 127 =? a) && (N.land a 128 =? 0)) = true.
Proof. vm_compute. reflexivity. Qed.

Lemma continuation_byte a : a < 128 →
  N.land (N.lor a 128) 127 = a ∧ N.lor a 128 = 128 + a ∧ (N.land (N.lor a 128) 128 =? 0) = false ∧ N.land a 127 = a ∧ (N.land a 128 =? 0) = true.
Proof.
  intros Ha. pose proof (all_below_spec _ _ a continuation_bits Ha) as H.
  apply andb_true_iff in H as [[[[H1%N.eqb_eq H2%N.eqb_eq]%andb_true_iff H3%negb_true_iff]%andb_true_iff H4%N.eqb_eq]%andb_true_iff H5]. done.
Qed.

Lemma land_127 r : N.land r 127 = r mod 128.
Proof. change 127 with (N.ones 7). apply N.land_ones. Qed.

Lemma decode_last r v shift rest : r < 128 → shift ≤ 28 → v + r * 2 ^ shift ≤ usize_MAX →
  decode_rest (r mod 256 :: rest) v shift = (rest, Ok (v + r * 2 ^ shift)).
Proof.
  intros Hr Hs Hv. destruct (continuation_byte r Hr) as (_ & _ & _ & H4 & H5). rewrite N.mod_small by lia.
  cbn [decode_rest]. destruct (N.ltb_spec 28 shift); [lia|]. destruct (N.leb_spec 64 shift); [lia|]. rewrite H4, H5, N.shiftl_1_l.
  destruct (N.ltb_spec usize_MAX (r * 2 ^ shift)); [lia|]. destruct (N.ltb_spec usize_MAX (v + r * 2 ^ shift)); [lia|]. done.
Qed.

(** [m] more groups of seven bits can be read, from bit [shift] on. *)
Lemma decode_encode_rest m fuel r v shift rest : (m ≤ fuel)%nat → r < 128 * 128 ^ N.of_nat m → shift + 7 * N.of_nat m ≤ 28 →
  v + r * 2 ^ shift ≤ usize_MAX → decode_rest (encode_rest fuel r ++ rest) v shift = (rest, Ok (v + r * 2 ^ shift)).
Proof.
  revert fuel r v shift. induction m as [|m IH]; intros fuel r v shift Hf Hr Hs Hv.
  - assert (r < 128) as Hr' by (simpl in Hr; lia).
    destruct fuel; simpl; [|destruct (N.leb_spec 128 r); [lia|]]; apply decode_last; (done || lia).
  - destruct fuel as [|fuel]; [lia|]. cbn [encode_rest]. destruct (N.leb_spec 128 r) as [H128|H128].
    + rewrite land_127. assert (r mod 128 < 128) as Hm by by apply N.mod_lt. rewrite (N.mod_small (r mod 128)) by lia.
      destruct (continuation_byte (r mod 128) Hm) as (H1 & _ & H3 & _). cbn [app decode_rest].
      destruct (N.ltb_spec 28 shift); [lia|]. destruct (N.leb_spec 64 shift); [lia|]. rewrite H1, H3, N.shiftl_1_l.
      assert (r = 128 * (r / 128) + r mod 128) as Hdiv by by apply N.div_mod. rewrite N.shiftr_div_pow2. change (2 ^ 7) with 128.
      assert (v + r mod 128 * 2 ^ shift + r / 128 * 2 ^ (shift + 7) = v + r * 2 ^ shift) as Hsum.
      { rewrite N.pow_add_r. change (2 ^ 7) with 128. rewrite Hdiv at 3. lia. }
      destruct (N.ltb_spec usize_MAX (r mod 128 * 2 ^ shift)); [lia|]. destruct (N.ltb_spec usize_MAX (v + r mod 128 * 2 ^ shift)); [lia|].
      rewrite IH; [by rewrite Hsum|lia| |lia|by rewrite Hsum]. apply N.Div0.div_lt_upper_bound. rewrite Nat2N.inj_succ, N.pow_succ_r' in Hr. lia.
    + apply decode_last; (done || lia).
Qed.

(** The first byte of an encoded integer. *)
Definition first_of (v k : N) : N := N.min v (2 ^ k - 1).

Lemma encode_integer_first dst v k prefix : (k, prefix) ∈ prefixes →
  ∃ more, encode_integer dst v k prefix = dst ++ (prefix + first_of v k) :: more.
Proof.
  intros Hin. destruct (prefix_width k prefix Hin) as [Hk Hk0].
  unfold encode_integer, first_of. rewrite N.shiftl_1_l. unfold saturating_sub. destruct (N.ltb_spec v (2 ^ k - 1)).
  - exists []. rewrite N.mod_small by lia. destruct (prefix_byte k prefix v Hin) as [_ ->]; [lia|]. by rewrite N.min_l by lia.
  - exists (encode_rest 10 (v - (2 ^ k - 1))). rewrite N.mod_small by lia. destruct (prefix_byte k prefix (2 ^ k - 1) Hin) as [_ ->]; [lia|]. by rewrite N.min_r by lia.
Qed.

Lemma encode_integer_app dst v k prefix : encode_integer dst v k prefix = dst ++ encode_integer [] v k prefix.
Proof. unfold encode_integer. by destruct (_ <? _). Qed.

Lemma decode_encode_integer v k prefix rest : (k, prefix) ∈ prefixes → v < 2 ^ 32 →
  decode_integer (encode_integer [] v k prefix ++ rest) k = (rest, Ok v).
Proof.
  intros Hin Hv. destruct (prefix_width k prefix Hin) as [Hk Hk0].
  unfold encode_integer. rewrite N.shiftl_1_l. unfold saturating_sub. destruct (N.ltb_spec v (2 ^ k - 1)); cbn [app decode_integer]; rewrite N.shiftl_1_l; unfold saturating_sub.
  - rewrite !N.mod_small by lia. destruct (prefix_byte k prefix v Hin) as [-> _]; [lia|]. destruct (N.ltb_spec v (2 ^ k - 1)); [done | lia].
  - rewrite !N.mod_small by lia. destruct (prefix_byte k prefix (2 ^ k - 1) Hin) as [-> _]; [lia|]. rewrite N.ltb_irrefl.
    rewrite (decode_encode_rest 4) by (simpl; unfold usize_MAX, u64_MAX; lia). f_equal. f_equal. lia.
Qed.

(** ** Strings *)

Definition wire_len (huffman : bool) (s : list N) : N := if huffman then huffman_encoded_size s else lenN s.

(** A string that the decoder takes within [budget]. *)
Record sendable (huffman : bool) (budget : N) (s : list N) : Prop := {
  sendable_bytes : is_bytes s;
  sendable_utf8 : utf8_valid s = true;
  sendable_short : 30 * lenN s + 7 < 2 ^ 32;
  sendable_budget : wire_len huffman s ≤ N.min budget MAX_STRING_LENGTH;
}.

Lemma huffman_prefix dst s : is_bytes s → encode_huffman_to_buffer dst s = dst ++ encode_huffman_to_buffer [] s.
Proof.
  intros Hs. destruct (encode_huffman_bits dst s Hs) as (o1 & p1 & -> & Hp1 & Ho1 & Hb1). destruct (encode_huffman_bits [] s Hs) as (o2 & p2 & -> & Hp2 & Ho2 & Hb2).
  simpl. f_equal. apply bytes_bits_inj; [done..|]. rewrite Hb1, Hb2. f_equal. f_equal.
  pose proof (bytes_bits_length o1) as H1. pose proof (bytes_bits_length o2) as H2. rewrite Hb1, length_app, length_replicate in H1.
  rewrite Hb2, length_app, length_replicate in H2. lia.
Qed.

Lemma encode_string_app dst s h : is_bytes s → encode_string dst s h = dst ++ encode_string [] s h.
Proof.
  intros Hs. unfold encode_string. destruct h.
  - rewrite huffman_prefix, (huffman_prefix (encode_integer [] _ _ _)) by done. by rewrite encode_integer_app, <- app_assoc.
  - by rewrite encode_integer_app, <- app_assoc.
Qed.

Lemma first_bit_128 : all_below 128 (λ x, (N.land x 128 =? 0) && negb (N.land (128 + x) 128 =? 0)) = true.
Proof. vm_compute. reflexivity. Qed.

Lemma takeN_app {A} (l k : list A) : takeN (lenN l) (l ++ k) = l.
Proof. unfold takeN, lenN. rewrite Nat2N.id. apply take_app_length. Qed.
Lemma dropN_app {A} (l k : list A) : dropN (lenN l) (l ++ k) = k.
Proof. unfold dropN, lenN. rewrite Nat2N.id. apply drop_app_length. Qed.

Lemma decode_string_first v k rest budget more : v < 2 ^ 32 → k = 128 ∨ k = 0 → v ≤ N.min budget MAX_STRING_LENGTH → lenN more = v →
  decode_string_bounded (encode_integer [] v 7 k ++ more ++ rest) budget =
  (rest, if k =? 0 then if utf8_valid more then Ok more else Err (Compression "invalid UTF-8 in header") else decode_huffman more).
Proof.
  intros Hv Hk Hbud Hmore. assert ((7, k) ∈ prefixes) as Hin by (unfold prefixes; set_unfold; naive_solver).
  pose proof (decode_encode_integer v 7 k (more ++ rest) Hin Hv) as Hdec. destruct (encode_integer_first [] v 7 k Hin) as [tl E]. rewrite E in *. simpl app in *.
  unfold decode_string_bounded. rewrite Hdec. destruct (N.ltb_spec (N.min budget MAX_STRING_LENGTH) v); [lia|].
  destruct (N.ltb_spec (lenN (more ++ rest)) v); [rewrite len_app in *; lia|]. rewrite <- Hmore, takeN_app, dropN_app, Hmore. f_equal.
  assert (first_of v 7 < 128) as Hf by (unfold first_of; lia). pose proof (all_below_spec _ _ _ first_bit_128 Hf) as H'.
  apply andb_true_iff in H' as [Hlow Hhigh%negb_true_iff]. destruct Hk as [-> | ->]; [by rewrite Hhigh|]. rewrite N.add_0_l. by rewrite Hlow.
Qed.

Lemma decode_encode_string h s rest budget : sendable h budget s →
  decode_string_bounded (encode_string [] s h ++ rest) budget = (rest, Ok s).
Proof.
  intros [Hb Hu Hl Hw]. unfold encode_string. destruct h; simpl in Hw.
  - rewrite huffman_prefix, <- app_assoc by done. rewrite decode_string_first; [|unfold MAX_STRING_LENGTH in *; lia|by left|done|by apply encoded_size_exact].
    f_equal. by apply huffman_decodes.
  - rewrite <- app_assoc. rewrite decode_string_first; [|unfold MAX_STRING_LENGTH in *; lia|by right|done|done]. by rewrite Hu.
Qed.

(** ** The dynamic table refines a list of headers

    [fit budget hs] is the longest prefix of [hs] (newest first) whose total size is
    within [budget]. *)
Fixpoint fit (budget : N) (hs : list Header) : list Header :=
  match hs with
  | [] => []
  | h :: hs => if header_size h <=? budget then h :: fit (budget - header_size h) hs else []
  end.

Definition total (hs : list Header) : N := foldr (λ h t, header_size h + t) 0 hs.

Lemma total_size_app a b : total (a ++ b) = total a + total b.
Proof. induction a; simpl; lia. Qed.

Lemma total_fit budget hs : total (fit budget hs) ≤ budget.
Proof.
  revert budget. induction hs as [|h hs IH]; intros budget; simpl; [lia|]. destruct (N.leb_spec (header_size h) budget); simpl; [|lia]. specialize (IH (budget - header_size h)). lia.
Qed.

Lemma fit_all budget hs : total hs ≤ budget → fit budget hs = hs.
Proof.
  revert budget. induction hs as [|h hs IH]; intros budget H; simpl in *; [done|]. destruct (N.leb_spec (header_size h) budget); [|lia]. rewrite IH by lia. done.
Qed.

Lemma fit_drop budget hs h : budget < total (hs ++ [h]) → fit budget (hs ++ [h]) = fit budget hs.
Proof.
  revert budget. induction hs as [|x hs IH]; intros budget H; simpl in *; [destruct (N.leb_spec (header_size h) budget); [lia|done]|].
  destruct (N.leb_spec (header_size x) budget); [|done]. by rewrite IH by lia.
Qed.

Lemma fit_fit a b hs : fit a (fit b hs) = fit (N.min a b) hs.
Proof.
  revert a b. induction hs as [|h hs IH]; intros a b; simpl; [done|]. destruct (N.leb_spec (header_size h) b); simpl.
  - destruct (N.leb_spec (header_size h) a), (N.leb_spec (header_size h) (N.min a b)); try lia; [|done]. rewrite IH. f_equal. f_equal. lia.
  - destruct (N.leb_spec (header_size h) (N.min a b)); [lia | done].
Qed.

Definition view (t : DynamicTable) : list Header := to_header <$> entries t.

Definition pair_deque (ix : DynamicTableIndex) (n v : list N) : list N := default [] (inner ← by_name_value ix !! n; inner !! v).
Definition name_deque (ix : DynamicTableIndex) (n : list N) : list N := default [] (by_name ix !! n).
Definition gens_pair (es : list DynamicTableEntry) (n v : list N) : list N := generation <$> filter (λ e, e_name e = n ∧ e_value e = v) es.
Definition gens_name (es : list DynamicTableEntry) (n : list N) : list N := generation <$> filter (λ e, e_name e = n) es.

(** Positions and generations correspond, the indices list the generations, the size
    is the sum and within the limit. *)
Record table_wf (t : DynamicTable) : Prop := {
  ok_generation : ∀ p e, entries t !! p = Some e → generation e + N.of_nat p + 1 = insert_count t;
  ok_pair : ∀ n v, pair_deque (index t) n v = gens_pair (entries t) n v;
  ok_name : ∀ n, name_deque (index t) n = gens_name (entries t) n;
  ok_size : size t = total (view t);
  ok_cap : max_size t ≤ MAX_ALLOWED_TABLE_SIZE;
}.
Definition table_ok (t : DynamicTable) : Prop := table_wf t ∧ size t ≤ max_size t.

Lemma index_add_pair ix n v g n' v' : pair_deque (index_add ix n v g) n' v' =
  if bool_decide (n' = n ∧ v' = v) then g :: pair_deque ix n v else pair_deque ix n' v'.
Proof.
  unfold pair_deque, index_add. simpl. destruct (decide (n' = n)) as [->|Hn].
  - rewrite lookup_insert_eq. simpl. destruct (decide (v' = v)) as [->|Hv].
    + rewrite lookup_insert_eq, bool_decide_true by done. simpl. f_equal. by destruct (by_name_value ix !! n).
    + rewrite lookup_insert_ne, bool_decide_false by naive_solver. by destruct (by_name_value ix !! n).
  - rewrite lookup_insert_ne, bool_decide_false by naive_solver. done.
Qed.

Lemma index_add_name ix n v g n' : name_deque (index_add ix n v g) n' = if bool_decide (n' = n) then g :: name_deque ix n else name_deque ix n'.
Proof.
  unfold name_deque, index_add. simpl. case_bool_decide; [subst; by rewrite lookup_insert_eq | by rewrite lookup_insert_ne].
Qed.

Lemma pop_back_default {A} (x : option (list A)) : default [] (pop_back <$> x) = pop_back (default [] x).
Proof. by destruct x. Qed.

Lemma remove_oldest_pair ix n v n' v' : pair_deque (remove_oldest ix n v) n' v' =
  if bool_decide (n' = n ∧ v' = v) then pop_back (pair_deque ix n v) else pair_deque ix n' v'.
Proof.
  unfold pair_deque, remove_oldest. simpl. destruct (decide (n' = n)) as [->|Hn].
  - destruct (by_name_value ix !! n) as [inner|] eqn:E; simpl; [|rewrite E; by destruct (bool_decide _)].
    set (inner' := match inner !! v with Some _ => _ | None => _ end).
    assert (∀ w, default [] (inner' !! w) = if bool_decide (w = v) then pop_back (default [] (inner !! v)) else default [] (inner !! w)) as Hin.
    { intros w. unfold inner'. destruct (inner !! v) as [dq|] eqn:Ev; simpl.
      - case_bool_decide as Hp; destruct (decide (w = v)) as [->|Hw]; rewrite ?(bool_decide_true (v = v)), ?(bool_decide_false (w = v)) by done.
        + by rewrite lookup_delete_eq, Hp.
        + by rewrite lookup_delete_ne.
        + by rewrite lookup_insert_eq.
        + by rewrite lookup_insert_ne.
      - case_bool_decide; [subst w; by rewrite Ev | done]. }
    assert (default [] ((if bool_decide (inner' = ∅) then delete n (by_name_value ix) else <[n := inner']> (by_name_value ix)) !! n ≫= λ i, i !! v') = default [] (inner' !! v')) as ->.
    { case_bool_decide as He; [rewrite lookup_delete_eq, He, lookup_empty; done | by rewrite lookup_insert_eq]. }
    rewrite Hin. case_bool_decide as Hv; [rewrite bool_decide_true by done; done | rewrite bool_decide_false by naive_solver; done].
  - rewrite bool_decide_false by naive_solver. destruct (by_name_value ix !! n) as [inner|]; simpl; [|done].
    by destruct (bool_decide (_ = ∅)); [rewrite lookup_delete_ne | rewrite lookup_insert_ne].
Qed.

Lemma remove_oldest_name ix n v n' : name_deque (remove_oldest ix n v) n' = if bool_decide (n' = n) then pop_back (name_deque ix n) else name_deque ix n'.
Proof.
  unfold name_deque, remove_oldest. simpl. destruct (by_name ix !! n) as [dq|] eqn:E; simpl.
  - case_bool_decide as Hp; case_bool_decide as Hn; subst; rewrite ?lookup_delete_eq, ?lookup_insert_eq, ?lookup_delete_ne, ?lookup_insert_ne by done; done.
  - case_bool_decide; [subst; by rewrite E | done].
Qed.

Lemma gens_pair_snoc es e n v : gens_pair (es ++ [e]) n v = gens_pair es n v ++ (if bool_decide (e_name e = n ∧ e_value e = v) then [generation e] else []).
Proof. unfold gens_pair. rewrite filter_app, fmap_app. f_equal. rewrite filter_cons. case_decide; [by rewrite bool_decide_true | by rewrite bool_decide_false]. Qed.

Lemma gens_name_snoc es e n : gens_name (es ++ [e]) n = gens_name es n ++ (if bool_decide (e_name e = n) then [generation e] else []).
Proof. unfold gens_name. rewrite filter_app, fmap_app. f_equal. rewrite filter_cons. case_decide; [by rewrite bool_decide_true | by rewrite bool_decide_false]. Qed.

Lemma pop_back_snoc {A} (l : list A) x : pop_back (l ++ [x]) = l.
Proof. unfold pop_back. rewrite length_app. simpl. replace (length l + 1 - 1)%nat with (length l) by lia. apply take_app_length. Qed.

Lemma pop_wf t es e : table_wf t → entries t = es ++ [e] →
  let t' := pop_back_with_index_cleanup t in
  table_wf t' ∧ entries t' = es ∧ max_size t' = max_size t ∧ insert_count t' = insert_count t.
Proof.
  intros [Hg Hp Hn Hs Hc] E. unfold pop_back_with_index_cleanup. rewrite E, last_snoc, pop_back_snoc. simpl. split; [|done]. split; simpl.
  - intros p e' He. apply (Hg p e'). rewrite E. by apply lookup_app_l_Some.
  - intros n v. rewrite remove_oldest_pair, !Hp, E, !gens_pair_snoc. case_bool_decide as Hb.
    + destruct Hb as [-> ->]. by rewrite bool_decide_true, pop_back_snoc.
    + rewrite bool_decide_false by naive_solver. apply app_nil_r.
  - intros n. rewrite remove_oldest_name, !Hn, E, !gens_name_snoc. case_bool_decide as Hb.
    + subst n. by rewrite bool_decide_true, pop_back_snoc.
    + rewrite bool_decide_false by naive_solver. apply app_nil_r.
  - rewrite Hs. unfold view. simpl. rewrite E, fmap_app, total_size_app. unfold saturating_sub. simpl. change (header_size (to_header e)) with (entry_size e). lia.
  - done.
Qed.

Definition room_for (room max : N) (hs : list Header) : list Header := if room <=? max then fit (max - room) hs else [].

Lemma snoc_cases {A} (l : list A) : l = [] ∨ ∃ k x, l = k ++ [x].
Proof. destruct l as [|x l _] using rev_ind; eauto. Qed.

Lemma evict_loop_spec fuel room t : table_wf t → (length (entries t) ≤ fuel)%nat →
  let t' := evict_loop fuel room t in
  table_wf t' ∧ view t' = room_for room (max_size t) (view t) ∧ max_size t' = max_size t ∧ insert_count t' = insert_count t ∧
  (entries t' = [] ∨ size t' + room ≤ max_size t).
Proof.
  revert t. induction fuel as [|fuel IH]; intros t Hwf Hlen.
  - assert (entries t = []) as E by (apply length_zero_iff_nil; lia). simpl. unfold view, room_for. rewrite E. split_and!; try done; [|by left].
    simpl. by destruct (room <=? max_size t).
  - cbn [evict_loop]. pose proof (ok_size t Hwf) as Hs. pose proof (ok_cap t Hwf) as Hc. unfold saturating_add.
    assert ((max_size t <? N.min (size t + room) usize_MAX) = (max_size t <? size t + room)) as ->.
    { assert (max_size t < usize_MAX) by (unfold MAX_ALLOWED_TABLE_SIZE, usize_MAX, u64_MAX in *; lia). destruct (N.ltb_spec (max_size t) (size t + room)), (N.ltb_spec (max_size t) (N.min (size t + room) usize_MAX)); lia. }
    destruct (snoc_cases (entries t)) as [E|(es0 & e0 & E)].
    + rewrite bool_decide_true, andb_false_r by done. split_and!; try done; [unfold view, room_for; rewrite E; simpl; by destruct (room <=? max_size t) | by left].
    + rewrite bool_decide_false by (rewrite E; by destruct es0). rewrite andb_true_r. destruct (N.ltb_spec (max_size t) (size t + room)) as [Hlt|Hge].
      * destruct (pop_wf t es0 e0 Hwf E) as (Hwf1 & E1 & Em & Ei). destruct (IH (pop_back_with_index_cleanup t) Hwf1) as (Hw & Hv & Hm & Hi & Hor).
        { rewrite E1. rewrite E, length_app in Hlen. simpl in Hlen. lia. }
        split; [done|]. rewrite Hv, Hm, Hi, Em, Ei. split_and!; try done; [|by rewrite Em in Hor].
        unfold view, room_for. rewrite E1, E, fmap_app. destruct (N.leb_spec room (max_size t)); [|done]. symmetry. apply fit_drop.
        change [to_header e0] with (to_header <$> [e0]). rewrite <- fmap_app, <- E. fold (view t). lia.
      * split; [done|]. split_and!; try done; [|by right]. unfold room_for. destruct (N.leb_spec room (max_size t)); [|lia]. symmetry. apply fit_all. lia.
Qed.

Lemma evict_spec t : table_wf t → let t' := evict t in
  table_ok t' ∧ view t' = fit (max_size t) (view t) ∧ max_size t' = max_size t ∧ insert_count t' = insert_count t.
Proof.
  intros Hwf. destruct (evict_loop_spec (length (entries t)) 0 t Hwf ltac:(lia)) as (Hw & Hv & Hm & Hi & Hor).
  unfold room_for in Hv. rewrite N.sub_0_r in Hv. destruct (N.leb_spec 0 (max_size t)); [|lia]. split_and!; try done. split; [done|]. unfold evict.
  destruct Hor as [E|Hle]; [|lia]. rewrite (ok_size _ Hw). unfold view. rewrite E. simpl. lia.
Qed.

Lemma set_max_size_spec t m : table_wf t → let t' := set_max_size t m in let m' := N.min m MAX_ALLOWED_TABLE_SIZE in
  table_ok t' ∧ view t' = fit m' (view t) ∧ max_size t' = m' ∧ insert_count t' = insert_count t.
Proof.
  intros [Hg Hp Hn Hs Hc]. apply (evict_spec (mkTable (entries t) (size t) (N.min m MAX_ALLOWED_TABLE_SIZE) (insert_count t) (index t))).
  split; try done. simpl. lia.
Qed.

Definition view_insert (h : Header) (max : N) (hs : list Header) : list Header :=
  if header_size h <=? max then h :: fit (max - header_size h) hs else [].

Lemma view_cons h g t s m c ix : view (mkTable (mkDynEntry (name h) (value h) g :: entries t) s m c ix) = h :: view t.
Proof. by destruct h. Qed.

Lemma insert_spec t h : table_ok t → insert_count t < u64_MAX → let t' := insert t h in
  table_ok t' ∧ view t' = view_insert h (max_size t) (view t) ∧ max_size t' = max_size t ∧ insert_count t' ≤ insert_count t + 1.
Proof.
  intros [Hwf Hmax] Hic. unfold insert. set (sz := entry_size _). assert (sz = header_size h) as Hsz by done.
  destruct (evict_loop_spec (length (entries t)) sz t Hwf ltac:(lia)) as (Hw & Hv & Hm & Hi & Hor).
  set (t1 := evict_loop (length (entries t)) sz t) in *. destruct Hw as [Hg Hp Hn Hs Hc]. unfold view_insert. rewrite <- Hsz, Hm. destruct (N.leb_spec sz (max_size t)) as [Hle|Hgt].
  - assert (size t1 + sz ≤ max_size t) as Hroom.
    { rewrite Hs, Hv. unfold room_for. destruct (N.leb_spec sz (max_size t)); [|lia]. pose proof (total_fit (max_size t - sz) (view t)). lia. }
    assert (saturating_add usize_MAX (size t1) sz = size t1 + sz) as Hadd.
    { apply saturating_add_exact. unfold MAX_ALLOWED_TABLE_SIZE, usize_MAX, u64_MAX in *. rewrite Hm in Hc. lia. }
    rewrite Hadd, Hi, (saturating_add_exact u64_MAX) by lia. cbn [max_size insert_count]. split_and!; try lia; [|rewrite view_cons, Hv; unfold room_for; by rewrite (proj2 (N.leb_le _ _) Hle)].
    split; [|simpl; lia]. split; cbn [entries size max_size insert_count index].
    + intros [|p] e He; simpl in He; [simplify_eq; simpl; lia|]. specialize (Hg p e He). lia.
    + intros n v. rewrite index_add_pair, !Hp. unfold gens_pair. rewrite filter_cons. simpl. case_bool_decide as Hb; case_decide as Hd; naive_solver.
    + intros n. rewrite index_add_name, !Hn. unfold gens_name. rewrite filter_cons. simpl. case_bool_decide as Hb; case_decide as Hd; naive_solver.
    + rewrite view_cons. simpl. rewrite Hs, <- Hsz. lia.
    + rewrite <- Hm. done.
  - assert (entries t1 = []) as E by (destruct Hor; [done|lia]). simpl. split_and!; try lia; [|unfold view; simpl; by rewrite E].
    assert (size t1 = 0) as Hz by (rewrite Hs; unfold view; by rewrite E).
    split; [|simpl; lia]. split; cbn [entries size max_size insert_count index]; [rewrite E; done | intros n v; rewrite E; done | intros n; rewrite E; done | | lia].
    rewrite Hz. unfold view. cbn [entries]. by rewrite E.
Qed.

Lemma with_max_size_ok m : table_ok (table_with_max_size m).
Proof. split; [|simpl; lia]. split; try done. simpl. lia. Qed.

(** ** Lookups *)

Lemma head_filter (P : DynamicTableEntry → Prop) `{!∀ e, Decision (P e)} es g :
  head (generation <$> filter P es) = Some g → ∃ p e, es !! p = Some e ∧ P e ∧ generation e = g ∧ ∀ q e', (q < p)%nat → es !! q = Some e' → ~ P e'.
Proof.
  induction es as [|e es IH]; [done|]. rewrite filter_cons. case_decide as Hd.
  - intros [=<-]. exists 0%nat, e. repeat split; try done. lia.
  - intros Hh. destruct (IH Hh) as (p & e' & He & HP & Hge & Hfirst). exists (S p), e'. repeat split; try done.
    intros [|q] e1 Hq; [by intros [=<-]|]. apply Hfirst. lia.
Qed.

Lemma head_filter_none (P : DynamicTableEntry → Prop) `{!∀ e, Decision (P e)} es :
  head (generation <$> filter P es) = None → Forall (λ e, ~ P e) es.
Proof.
  induction es as [|e es IH]; [by constructor|]. rewrite filter_cons. case_decide as Hd; [done|]. intros Hh. constructor; auto.
Qed.

Lemma newest_pair ix n v : newest_for_pair ix n v = head (pair_deque ix n v).
Proof. unfold newest_for_pair, pair_deque. destruct (by_name_value ix !! n) as [inner|]; [|done]. simpl. by destruct (inner !! v). Qed.
Lemma newest_name ix n : newest_for_name ix n = head (name_deque ix n).
Proof. unfold newest_for_name, name_deque. by destruct (by_name ix !! n). Qed.

(** A search answers with the place of the newest match, counted from the end of
    the static table. *)
Lemma find_spec t n v : table_wf t →
  match find t n v with
  | Some i => ∃ p, view t !! p = Some (mkHeader n v) ∧ i = lenN STATIC_TABLE + N.of_nat p + 1 ∧ ∀ q, (q < p)%nat → view t !! q ≠ Some (mkHeader n v)
  | None => mkHeader n v ∉ view t
  end.
Proof.
  intros [Hg Hp _ _ _]. unfold find. rewrite newest_pair, Hp. unfold gens_pair. destruct (head _) as [g|] eqn:E; simpl.
  - destruct (head_filter _ _ _ E) as (p & e & He & [Hn Hv] & Hge & Hfirst). exists p. unfold view. rewrite list_lookup_fmap, He. simpl. split_and!.
    + unfold to_header. by rewrite Hn, Hv.
    + unfold index_from_generation, saturating_sub. specialize (Hg p e He). lia.
    + intros q Hq. rewrite list_lookup_fmap. intros H. destruct (entries t !! q) as [e'|] eqn:Eq; [|done]. apply (Hfirst q e' Hq Eq). by injection H as -> ->.
  - pose proof (head_filter_none _ _ E) as Hall. unfold view. rewrite list_elem_of_fmap. intros (e & He & Hin). rewrite Forall_forall in Hall. apply (Hall e Hin). by injection He as -> ->.
Qed.

Lemma find_name_spec t n : table_wf t →
  match find_name t n with
  | Some i => ∃ p h, view t !! p = Some h ∧ name h = n ∧ i = lenN STATIC_TABLE + N.of_nat p + 1 ∧ ∀ q h', (q < p)%nat → view t !! q = Some h' → name h' ≠ n
  | None => Forall (λ h, name h ≠ n) (view t)
  end.
Proof.
  intros [Hg _ Hp _ _]. unfold find_name. rewrite newest_name, Hp. unfold gens_name. destruct (head _) as [g|] eqn:E; simpl.
  - destruct (head_filter _ _ _ E) as (p & e & He & Hn & Hge & Hfirst). exists p, (to_header e). unfold view. rewrite list_lookup_fmap, He. simpl. split_and!; try done.
    + unfold index_from_generation, saturating_sub. specialize (Hg p e He). lia.
    + intros q h' Hq. rewrite list_lookup_fmap. intros H. destruct (entries t !! q) as [e'|] eqn:Eq; [|done]. injection H as <-. by apply (Hfirst q).
  - pose proof (head_filter_none _ _ E) as Hall. unfold view. by apply Forall_fmap.
Qed.

(** ** The static table *)

Lemma static_len : lenN STATIC_TABLE = 61.
Proof. vm_compute. reflexivity. Qed.

Lemma static_exact_ok : forallb (λ p, bool_decide (get_static p.2 = Some p.1) && (1 <=? p.2) && (p.2 <=? 61)) (map_to_list STATIC_EXACT_INDEX) = true.
Proof. vm_compute. reflexivity. Qed.

Lemma static_name_ok : forallb (λ p, bool_decide (fst <$> get_static p.2 = Some p.1) && (1 <=? p.2) && (p.2 <=? 61)) (map_to_list STATIC_NAME_INDEX) = true.
Proof. vm_compute. reflexivity. Qed.

Lemma map_checked `{Countable K} {A} (m : gmap K A) (P : K * A → bool) k x : forallb P (map_to_list m) = true → m !! k = Some x → P (k, x) = true.
Proof. intros Hall Hk. rewrite forallb_forall in Hall. by apply Hall, list_elem_of_In, elem_of_map_to_list. Qed.

Lemma find_static_spec n v i : find_static n v = Some i → get_static i = Some (n, v) ∧ 1 ≤ i ≤ 61.
Proof.
  unfold find_static. intros Hf. pose proof (map_checked _ _ _ _ static_exact_ok Hf) as H. clear Hf.
  apply andb_true_iff in H as [[H1%bool_decide_eq_true H2%N.leb_le]%andb_true_iff H3%N.leb_le]. exact (conj H1 (conj H2 H3)).
Qed.

Lemma find_static_name_spec n i : find_static_name n = Some i → (∃ v, get_static i = Some (n, v)) ∧ 1 ≤ i ≤ 61.
Proof.
  unfold find_static_name. intros Hf. pose proof (map_checked _ _ _ _ static_name_ok Hf) as H. clear Hf.
  apply andb_true_iff in H as [[H1%bool_decide_eq_true H2%N.leb_le]%andb_true_iff H3%N.leb_le]. split; [|exact (conj H2 H3)]. cbn [fst snd] in H1.
  destruct (get_static i) as [[n' v]|]; [|discriminate]. exists v. by injection H1 as ->.
Qed.

Lemma get_dynamic t p h : view t !! p = Some h → get t (N.of_nat p + 1) = Some h.
Proof.
  unfold view. rewrite list_lookup_fmap. intros H. destruct (entries t !! p) as [e|] eqn:E; [|done]. pose proof (lookup_lt_Some _ _ _ E) as Hlt. unfold get, saturating_sub.
  destruct (N.eqb_spec (N.of_nat p + 1) 0); [lia|]. destruct (N.ltb_spec (lenN (entries t)) (N.of_nat p + 1)); [unfold lenN in *; lia|]. simpl.
  replace (N.to_nat (N.of_nat p + 1 - 1)) with p by lia. by rewrite E.
Qed.

Lemma indexed_dynamic d p h : view (dec_table d) !! p = Some h →
  get_indexed d (lenN STATIC_TABLE + N.of_nat p + 1) = Ok h ∧ get_indexed_name d (lenN STATIC_TABLE + N.of_nat p + 1) = Ok (name h).
Proof.
  intros H%get_dynamic. unfold get_indexed, get_indexed_name. rewrite static_len. destruct (N.eqb_spec (61 + N.of_nat p + 1) 0); [lia|].
  destruct (N.leb_spec (61 + N.of_nat p + 1) 61); [lia|]. replace (61 + N.of_nat p + 1 - 61) with (N.of_nat p + 1) by lia. by rewrite H.
Qed.

Lemma indexed_static d i n v : get_static i = Some (n, v) → 1 ≤ i ≤ 61 → get_indexed d i = Ok (mkHeader n v) ∧ get_indexed_name d i = Ok n.
Proof.
  intros H Hi. unfold get_indexed, get_indexed_name. rewrite static_len, H. destruct (N.eqb_spec i 0); [lia|]. destruct (N.leb_spec i 61); [done | lia].
Qed.

Lemma view_length t : table_ok t → 32 * lenN (view t) ≤ MAX_ALLOWED_TABLE_SIZE.
Proof.
  intros [Hw Hm]. pose proof (ok_size _ Hw) as Hs. pose proof (ok_cap _ Hw) as Hc. assert (32 * lenN (view t) ≤ total (view t) ∨ usize_MAX ≤ total (view t)) as Hor.
  { clear. induction (view t) as [|h hs IH]; [by left|]. rewrite len_cons. simpl. unfold header_size, pair_size, saturating_add in *. unfold usize_MAX, u64_MAX in *. lia. }
  unfold MAX_ALLOWED_TABLE_SIZE, usize_MAX, u64_MAX in *. lia.
Qed.

(** An index the encoder finds means the same to a decoder with the same view. *)
Lemma find_any_ok t d n v i : table_ok t → view t = view (dec_table d) → or_else (find_static n v) (find t n v) = Some i →
  get_indexed d i = Ok (mkHeader n v) ∧ i < 2 ^ 32.
Proof.
  intros Ht Hv H. destruct (find_static n v) as [j|] eqn:E; cbn [or_else] in H.
  - injection H as <-. apply find_static_spec in E as [E Hj]. split; [exact (proj1 (indexed_static d j n v E Hj)) | lia].
  - pose proof (find_spec t n v (proj1 Ht)) as Hf. rewrite H in Hf. destruct Hf as (p & Hp & -> & _). pose proof (lookup_lt_Some _ _ _ Hp). pose proof (view_length t Ht) as Hl.
    rewrite Hv in Hp. split; [by apply indexed_dynamic|]. rewrite static_len. unfold lenN, MAX_ALLOWED_TABLE_SIZE in *. lia.
Qed.

Lemma find_name_any_ok t d n i : table_ok t → view t = view (dec_table d) → or_else (find_static_name n) (find_name t n) = Some i →
  get_indexed_name d i = Ok n ∧ i ≠ 0 ∧ i < 2 ^ 32.
Proof.
  intros Ht Hv H. destruct (find_static_name n) as [j|] eqn:E; cbn [or_else] in H.
  - injection H as <-. apply find_static_name_spec in E as [[v E] Hj]. split; [exact (proj2 (indexed_static d j n v E Hj)) | lia].
  - pose proof (find_name_spec t n (proj1 Ht)) as Hf. rewrite H in Hf. destruct Hf as (p & h & Hp & <- & -> & _). pose proof (lookup_lt_Some _ _ _ Hp). pose proof (view_length t Ht) as Hl.
    rewrite Hv in Hp. split; [by apply indexed_dynamic|]. rewrite static_len. unfold lenN, MAX_ALLOWED_TABLE_SIZE in *. lia.
Qed.

(** ** One header *)

Definition lower (h : Header) : Header := mkHeader (to_ascii_lowercase (name h)) (value h).

Lemma normalized_name n : (if existsb is_ascii_uppercase n then to_ascii_lowercase n else n) = to_ascii_lowercase n.
Proof.
  destruct (existsb is_ascii_uppercase n) eqn:E; [done|]. unfold to_ascii_lowercase. induction n as [|b n IH]; [done|]. simpl in E. apply orb_false_iff in E as [Hb En].
  rewrite fmap_cons, Hb. f_equal. by apply IH.
Qed.

Record header_ok (huffman : bool) (budget : N) (h : Header) : Prop := {
  ok_name_chars : validate_header_name (name (lower h)) = Ok ();
  ok_value_chars : validate_header_value (value h) = Ok ();
  ok_name_sent : sendable huffman budget (name (lower h));
  ok_value_sent : sendable huffman (budget - lenN (name (lower h))) (value h);
}.

(** The name of a literal: the index of a known one, or 0 and the string. *)
Definition name_part (idx : option N) (n : list N) (huffman : bool) (k prefix : N) : list N :=
  match idx with Some i => encode_integer [] i k prefix | None => encode_integer [] 0 k prefix ++ encode_string [] n huffman end.

Lemma decode_literal_spec d idx n v huffman k prefix budget rest : (k, prefix) ∈ prefixes →
  match idx with Some i => get_indexed_name d i = Ok n ∧ i ≠ 0 ∧ i < 2 ^ 32 | None => True end →
  validate_header_name n = Ok () → validate_header_value v = Ok () → sendable huffman budget n → sendable huffman (budget - lenN n) v →
  decode_literal d (name_part idx n huffman k prefix ++ encode_string [] v huffman ++ rest) k budget = (rest, Ok (n, v)).
Proof.
  intros Hin Hidx Hn Hv Hsn Hsv. unfold decode_literal, name_part. destruct idx as [i|].
  - destruct Hidx as (Hi & Hi0 & Hi32). rewrite decode_encode_integer by done. unfold decode_literal_name. destruct (N.eqb_spec i 0); [done|]. rewrite Hi.
    unfold saturating_sub. rewrite decode_encode_string by done. by rewrite Hv.
  - rewrite <- app_assoc, decode_encode_integer by done. unfold decode_literal_name. simpl (0 =? 0). rewrite decode_encode_string by done. rewrite Hn.
    unfold saturating_sub. rewrite decode_encode_string by done. by rewrite Hv.
Qed.

Lemma kinds_ok : all_below 128 (λ x, negb (N.land (128 + x) 128 =? 0) && negb (N.land (128 + x) 224 =? 32)) &&
  all_below 64 (λ x, (N.land (64 + x) 128 =? 0) && negb (N.land (64 + x) 64 =? 0) && negb (N.land (64 + x) 224 =? 32)) &&
  all_below 32 (λ x, N.land (32 + x) 224 =? 32) &&
  all_below 16 (λ x, (N.land (16 + x) 128 =? 0) && (N.land (16 + x) 64 =? 0) && (N.land (16 + x) 32 =? 0) && negb (N.land (16 + x) 224 =? 32)) = true.
Proof. vm_compute. reflexivity. Qed.

(** The first byte tells the representations apart. *)
Definition not_update (src : list N) : Prop := match src with first :: _ => (N.land first 224 =? 32) = false | [] => True end.

Lemma first_indexed x : x < 128 → (N.land (128 + x) 128 =? 0) = false ∧ (N.land (128 + x) 224 =? 32) = false.
Proof.
  intros Hx. pose proof kinds_ok as H. apply andb_true_iff in H as [[[H _]%andb_true_iff _]%andb_true_iff _].
  apply (all_below_spec _ _ x) in H; [|done]. by apply andb_true_iff in H as [?%negb_true_iff ?%negb_true_iff].
Qed.

Lemma first_literal x : x < 64 → (N.land (64 + x) 128 =? 0) = true ∧ (N.land (64 + x) 64 =? 0) = false ∧ (N.land (64 + x) 224 =? 32) = false.
Proof.
  intros Hx. pose proof kinds_ok as H. apply andb_true_iff in H as [[[_ H]%andb_true_iff _]%andb_true_iff _].
  apply (all_below_spec _ _ x) in H; [|done]. by apply andb_true_iff in H as [[? ?%negb_true_iff]%andb_true_iff ?%negb_true_iff].
Qed.

Lemma first_update x : x < 32 → (N.land (32 + x) 224 =? 32) = true.
Proof.
  intros Hx. pose proof kinds_ok as H. apply andb_true_iff in H as [[_ H]%andb_true_iff _]. by apply (all_below_spec _ _ x) in H.
Qed.

Lemma first_never x : x < 16 →
  (N.land (16 + x) 128 =? 0) = true ∧ (N.land (16 + x) 64 =? 0) = true ∧ (N.land (16 + x) 32 =? 0) = true ∧ (N.land (16 + x) 224 =? 32) = false.
Proof.
  intros Hx. pose proof kinds_ok as H. apply andb_true_iff in H as [_ H].
  apply (all_below_spec _ _ x) in H; [|done]. by apply andb_true_iff in H as [[[? ?]%andb_true_iff ?]%andb_true_iff ?%negb_true_iff].
Qed.

(** The wire form of a header. *)
Definition header_wire (t : DynamicTable) (n v : list N) (huffman indexed : bool) : list N :=
  match (if indexed then or_else (find_static n v) (find t n v) else None) with
  | Some idx => encode_integer [] idx 7 128
  | None =>
      name_part (or_else (find_static_name n) (find_name t n)) n huffman (if indexed then 6 else 4) (if indexed then 64 else 16)
      ++ encode_string [] v huffman
  end.

Definition header_table (t : DynamicTable) (n v : list N) (indexed : bool) : DynamicTable :=
  match (if indexed then or_else (find_static n v) (find t n v) else None) with
  | Some _ => t
  | None => if indexed then insert t (mkHeader n v) else t
  end.

Lemma encode_header_wire e h dst indexed : is_bytes (name (lower h)) → is_bytes (value h) →
  encode_header e h dst indexed =
  (with_table e (header_table (enc_table e) (name (lower h)) (value h) indexed),
   dst ++ header_wire (enc_table e) (name (lower h)) (value h) (use_huffman e) indexed).
Proof.
  intros Hn Hv. unfold encode_header, header_wire, header_table. rewrite normalized_name. change (to_ascii_lowercase (name h)) with (name (lower h)).
  set (n := name (lower h)) in *. assert (with_table e (enc_table e) = e) as He by by destruct e.
  destruct (if indexed then or_else (find_static n (value h)) (find (enc_table e) n (value h)) else None) as [i|]; [by rewrite encode_integer_app, He|].
  unfold name_part. destruct (or_else (find_static_name n) (find_name (enc_table e) n)) as [i|], indexed; rewrite encode_string_app, ?He by done; f_equal.
  - by rewrite encode_integer_app, app_assoc.
  - by rewrite encode_integer_app, app_assoc.
  - rewrite (encode_string_app (dst ++ [64])) by done. by rewrite <- !app_assoc.
  - rewrite (encode_string_app (dst ++ [16])) by done. by rewrite <- !app_assoc.
Qed.

Lemma name_part_first idx n huffman k prefix : (k, prefix) ∈ prefixes →
  ∃ x more, name_part idx n huffman k prefix = (prefix + x) :: more ∧ x < 2 ^ k.
Proof.
  intros Hin. destruct (prefix_width k prefix Hin) as [_ Hk]. assert (∀ i, first_of i k < 2 ^ k) as Hlt by (intros i; unfold first_of; lia).
  unfold name_part. destruct idx as [i|].
  - destruct (encode_integer_first [] i k prefix Hin) as [more ->]. by exists (first_of i k), more.
  - destruct (encode_integer_first [] 0 k prefix Hin) as [more ->]. by exists (first_of 0 k), (more ++ encode_string [] n huffman).
Qed.

Definition dec_header_table (t : DynamicTable) (d : Decoder) (h : Header) (indexed : bool) : DynamicTable :=
  match (if indexed then or_else (find_static (name h) (value h)) (find t (name h) (value h)) else None) with
  | Some _ => dec_table d
  | None => if indexed then insert (dec_table d) h else dec_table d
  end.

Lemma in_prefixes_6 : (6, 64) ∈ prefixes.
Proof. unfold prefixes. set_solver. Qed.
Lemma in_prefixes_4 : (4, 16) ∈ prefixes.
Proof. unfold prefixes. set_solver. Qed.
Lemma in_prefixes_7 : (7, 128) ∈ prefixes.
Proof. unfold prefixes. set_solver. Qed.
Lemma in_prefixes_5 : (5, 32) ∈ prefixes.
Proof. unfold prefixes. set_solver. Qed.

Lemma set_dec_table_id d : set_dec_table d (dec_table d) = d.
Proof. by destruct d. Qed.

(** What was written as a header is read as that header. *)
Lemma decode_header_wire t d h huffman indexed budget rest : table_ok t → view t = view (dec_table d) → header_ok huffman budget h →
  let w := header_wire t (name (lower h)) (value h) huffman indexed in
  not_update (w ++ rest) ∧ w ≠ [] ∧
  decode_header d (w ++ rest) budget = (set_dec_table d (dec_header_table t d (lower h) indexed), (rest, Ok (lower h))).
Proof.
  intros Ht Hview [Hn Hv Hsn Hsv]. unfold header_wire, dec_header_table. change (value (lower h)) with (value h). set (n := name (lower h)) in *.
  destruct (if indexed then or_else (find_static n (value h)) (find t n (value h)) else None) as [i|] eqn:Efound.
  - destruct indexed; [|done]. destruct (find_any_ok t d n (value h) i Ht Hview Efound) as [Hget Hi].
    pose proof (decode_encode_integer i 7 128 rest in_prefixes_7 Hi) as Hdec.
    destruct (encode_integer_first [] i 7 128 in_prefixes_7) as [more E]. rewrite E in *. cbn [app] in *.
    destruct (first_indexed (first_of i 7)) as [H1 H2]; [unfold first_of; lia|]. split_and!; [done..|]. cbn [decode_header]. rewrite H1, Hdec, Hget, set_dec_table_id. done.
  - set (idx := or_else (find_static_name n) (find_name t n)).
    assert (match idx with Some i => get_indexed_name d i = Ok n ∧ i ≠ 0 ∧ i < 2 ^ 32 | None => True end) as Hidx.
    { destruct idx as [i|] eqn:En; [exact (find_name_any_ok t d n i Ht Hview En) | exact I]. }
    pose proof (λ k prefix Hin, decode_literal_spec d idx n (value h) huffman k prefix budget rest Hin Hidx Hn Hv Hsn Hsv) as Hlit. clearbody idx. clear Efound.
    destruct indexed.
    + specialize (Hlit 6 64 in_prefixes_6). destruct (name_part_first idx n huffman 6 64 in_prefixes_6) as (x & more & E & Hx).
      rewrite <- app_assoc. rewrite E in *. cbn [app] in *. destruct (first_literal x Hx) as (H1 & H2 & H3). split_and!; [done..|]. cbn [decode_header]. rewrite H1, H2, Hlit. done.
    + specialize (Hlit 4 16 in_prefixes_4). destruct (name_part_first idx n huffman 4 16 in_prefixes_4) as (x & more & E & Hx).
      rewrite <- app_assoc. rewrite E in *. cbn [app] in *. destruct (first_never x Hx) as (H1 & H2 & H3 & H4). split_and!; [done..|]. cbn [decode_header].
      rewrite H1, H2, H3, Hlit, set_dec_table_id. done.
Qed.

(** ** Encoder and decoder in step *)

Record in_step (e : Encoder) (d : Decoder) (left : N) : Prop := {
  step_enc : table_ok (enc_table e);
  step_dec : table_ok (dec_table d);
  step_view : view (enc_table e) = view (dec_table d);
  step_max : max_size (enc_table e) = max_size (dec_table d);
  step_enc_count : insert_count (enc_table e) + left ≤ u64_MAX;
  step_dec_count : insert_count (dec_table d) + left ≤ u64_MAX;
}.

Lemma in_step_header e d left h indexed : in_step e d (1 + left) →
  in_step (with_table e (header_table (enc_table e) (name h) (value h) indexed)) (set_dec_table d (dec_header_table (enc_table e) d h indexed)) left.
Proof.
  intros [He Hd Hv Hm Hce Hcd]. unfold header_table, dec_header_table.
  destruct (if indexed then or_else (find_static (name h) (value h)) (find (enc_table e) (name h) (value h)) else None) as [i|]; [split; simpl; try done; lia|].
  destruct indexed; [|split; simpl; try done; lia].
  assert (mkHeader (name h) (value h) = h) as -> by by destruct h.
  destruct (insert_spec (enc_table e) h He ltac:(lia)) as (He1 & He2 & He3 & He4). destruct (insert_spec (dec_table d) h Hd ltac:(lia)) as (Hd1 & Hd2 & Hd3 & Hd4).
  split; cbn [enc_table dec_table with_table set_dec_table]; [done | done | by rewrite He2, Hd2, Hv, Hm | by rewrite He3, Hd3 | lia | lia].
Qed.

Lemma lower_size h : header_size (lower h) = header_size h.
Proof. unfold header_size, pair_size, lower, to_ascii_lowercase, lenN. cbn [name value]. by rewrite length_fmap. Qed.

(** A block the decoder takes: every header fits what is left of the list size. *)
Fixpoint block_ok (huffman : bool) (budget : N) (hs : list Header) : Prop :=
  match hs with
  | [] => True
  | h :: hs => header_ok huffman budget h ∧ header_size h ≤ budget ∧ block_ok huffman (budget - header_size h) hs
  end.

Lemma block_roundtrip hs : ∀ e d left indexed acc total dst, in_step e d (lenN hs + left) → max_header_list_size d ≤ usize_MAX → total ≤ max_header_list_size d →
  block_ok (use_huffman e) (max_header_list_size d - total) hs →
  ∃ e' d' out, encode_headers e hs dst indexed = (e', dst ++ out) ∧ not_update out ∧ (length hs ≤ length out)%nat ∧
    (∀ fuel, (length hs ≤ fuel)%nat → header_loop fuel d out acc total = (d', ([], Ok (acc ++ (lower <$> hs))))) ∧ in_step e' d' left ∧
    use_huffman e' = use_huffman e ∧ min_size_update e' = min_size_update e ∧ pending_size_update e' = pending_size_update e ∧
    max_header_list_size d' = max_header_list_size d ∧ allowed_table_size d' = allowed_table_size d.
Proof.
  induction hs as [|h hs IH]; intros e d left indexed acc total dst Hstep Hcap Htot Hok.
  - exists e, d, []. cbn [encode_headers]. rewrite app_nil_r. split_and!; try done. intros fuel _. destruct fuel; by rewrite app_nil_r.
  - destruct Hok as (Hh & Hsz & Hrest). rewrite len_cons, <- N.add_assoc in Hstep.
    cbn [encode_headers]. rewrite encode_header_wire by apply Hh.
    set (w := header_wire (enc_table e) (name (lower h)) (value h) (use_huffman e) indexed).
    pose proof (in_step_header e d _ (lower h) indexed Hstep) as Hstep'.
    set (e1 := with_table e _) in *. set (d1 := set_dec_table d _) in *.
    destruct (IH e1 d1 left indexed (acc ++ [lower h]) (total + header_size h) (dst ++ w)) as (e' & d' & out & Henc & Hnu & Hlen & Hdec & Hstep2 & Hrest2); [exact Hstep' | exact Hcap | unfold d1; simpl; lia | |].
    { by replace (max_header_list_size d1 - (total + header_size h)) with (max_header_list_size d - total - header_size h) by (unfold d1; simpl; lia). }
    destruct Hstep as [Het Hdt Hview _ _ _].
    destruct (decode_header_wire (enc_table e) d h (use_huffman e) indexed (max_header_list_size d - total) out Het Hview Hh) as (Hnu1 & Hne & Hdh). fold w in Hnu1, Hne, Hdh.
    change (value (lower h)) with (value h) in *. exists e', d', (w ++ out). rewrite Henc, app_assoc. destruct w as [|b w'] eqn:Ew; [done|].
    split_and!; try apply Hrest2; try done; [cbn [app length] in *; rewrite length_app; lia|]. intros [|fuel] Hfuel; [simpl in Hfuel; lia|].
    cbn [app header_loop] in *. unfold saturating_sub. rewrite Hdh. fold d1.
    rewrite lower_size, saturating_add_exact by lia. destruct (N.ltb_spec (max_header_list_size d1) (total + header_size h)); [simpl in *; lia|].
    rewrite Hdec by (simpl in Hfuel; lia). by rewrite <- app_assoc.
Qed.

(** ** Size updates *)

Record synced (e : Encoder) (d : Decoder) (left : N) : Prop := {
  sync_enc : table_ok (enc_table e);
  sync_dec : table_ok (dec_table d);
  sync_enc_count : insert_count (enc_table e) + left ≤ u64_MAX;
  sync_dec_count : insert_count (dec_table d) + left ≤ u64_MAX;
  sync_pending :
    match min_size_update e, pending_size_update e with
    | None, None => view (enc_table e) = view (dec_table d) ∧ max_size (enc_table e) = max_size (dec_table d)
    | Some least, Some final =>
        view (enc_table e) = fit least (view (dec_table d)) ∧ max_size (enc_table e) = final ∧ least ≤ final ≤ MAX_ALLOWED_TABLE_SIZE ∧ final ≤ allowed_table_size d
    | _, _ => False
    end;
}.

Lemma view_fits t : table_ok t → fit (max_size t) (view t) = view t.
Proof. intros [Hw Hm]. apply fit_all. by rewrite <- (ok_size _ Hw). Qed.

Lemma synced_resize e d left sz : synced e d left → N.min sz MAX_ALLOWED_TABLE_SIZE ≤ allowed_table_size d → synced (set_max_table_size e sz) d left.
Proof.
  intros [He Hd Hce Hcd Hp] Ha. unfold set_max_table_size. set (capped := N.min sz MAX_ALLOWED_TABLE_SIZE) in *.
  assert (N.min capped MAX_ALLOWED_TABLE_SIZE = capped) as Hcap by lia.
  destruct (set_max_size_spec (enc_table e) capped (proj1 He)) as (H1 & H2 & H3 & H4). cbv zeta in *. rewrite Hcap in *.
  split; cbn [enc_table min_size_update pending_size_update]; [done | done | by rewrite H4 | done |]. rewrite H2, H3.
  destruct (min_size_update e) as [least|], (pending_size_update e) as [final|]; try done.
  - destruct Hp as (-> & _ & Hle & Hal). rewrite fit_fit. split_and!; try lia. f_equal. lia.
  - destruct Hp as [-> _]. split_and!; (done || lia).
Qed.

Lemma size_update_stop fuel d src count : not_update src → size_updates fuel d src count = (d, (src, Ok ())).
Proof. intros H. destruct fuel; [done|]. cbn [size_updates]. destruct src as [|b src]; [done|]. simpl in H. by rewrite H. Qed.

Lemma size_update_one fuel d v src count : v ≤ allowed_table_size d → v < 2 ^ 32 → count < 16 →
  size_updates (S fuel) d (encode_integer [] v 5 32 ++ src) count = size_updates fuel (set_dec_table d (set_max_size (dec_table d) v)) src (count + 1).
Proof.
  intros Hv H32 Hc. pose proof (decode_encode_integer v 5 32 src in_prefixes_5 H32) as Hdec.
  destruct (encode_integer_first [] v 5 32 in_prefixes_5) as [more E]. rewrite E in *. cbn [app size_updates] in *.
  rewrite first_update by (unfold first_of; lia). rewrite saturating_add_exact by (unfold usize_MAX, u64_MAX; lia). unfold MAX_SIZE_UPDATES.
  destruct (N.ltb_spec 16 (count + 1)); [lia|]. rewrite Hdec. destruct (N.ltb_spec (allowed_table_size d) v); [lia | done].
Qed.

Lemma integer_nonempty v k prefix : (1 ≤ length (encode_integer [] v k prefix))%nat.
Proof. unfold encode_integer. destruct (_ <? _); cbn [app length]; lia. Qed.

(** The decoder applies what the encoder has announced. *)
Lemma updates_roundtrip e d left : synced e d left → ∃ e' u, (∀ dst, emit_pending_size_update e dst = (e', dst ++ u)) ∧
  use_huffman e' = use_huffman e ∧ min_size_update e' = None ∧ pending_size_update e' = None ∧
  ∃ d', in_step e' d' left ∧ max_header_list_size d' = max_header_list_size d ∧ allowed_table_size d' = allowed_table_size d ∧
  ∀ out, not_update out → size_updates (S (length (u ++ out))) d (u ++ out) 0 = (d', (out, Ok ())).
Proof.
  intros [He Hd Hce Hcd Hp]. unfold emit_pending_size_update. destruct (min_size_update e) as [least|] eqn:El, (pending_size_update e) as [final|] eqn:Ef; try done.
  - destruct Hp as (Hv & Hm & Hle & Hal). assert (final < 2 ^ 32) as H32 by (unfold MAX_ALLOWED_TABLE_SIZE in *; lia).
    assert (∀ m t, table_ok t → m ≤ MAX_ALLOWED_TABLE_SIZE → table_ok (set_max_size t m) ∧ view (set_max_size t m) = fit m (view t) ∧ max_size (set_max_size t m) = m ∧ insert_count (set_max_size t m) = insert_count t) as Hset.
    { intros m t Ht Hm'. pose proof (set_max_size_spec t m (proj1 Ht)) as H. cbv zeta in H. by rewrite N.min_l in H by done. }
    eexists _, ((if least <? final then encode_integer [] least 5 32 else []) ++ encode_integer [] final 5 32). split.
    { intros dst. destruct (least <? final); rewrite encode_integer_app; [rewrite (encode_integer_app dst), <- app_assoc|]; done. }
    split_and!; [done..|]. destruct (N.ltb_spec least final) as [Hlt|Hge].
    + destruct (Hset least (dec_table d) Hd ltac:(lia)) as (H1 & H2 & H3 & H4). destruct (Hset final _ H1 ltac:(lia)) as (H5 & H6 & H7 & H8).
      eexists. split; [|split; [|split; [|intros out Hout; rewrite <- app_assoc]]].
      4: { rewrite !length_app. pose proof (integer_nonempty least 5 32). pose proof (integer_nonempty final 5 32).
           destruct (length (encode_integer [] least 5 32) + (length (encode_integer [] final 5 32) + length out))%nat as [|fuel] eqn:E; [lia|].
           rewrite size_update_one by lia. rewrite size_update_one by (simpl; lia). by apply size_update_stop. }
      * split; cbn [enc_table dec_table set_dec_table]; [done|done| |by rewrite H7|done|by rewrite H8, H4]. rewrite H6, H2, Hv, fit_fit. f_equal. lia.
      * done.
      * done.
    + assert (least = final) as -> by lia. destruct (Hset final (dec_table d) Hd ltac:(lia)) as (H1 & H2 & H3 & H4).
      eexists. split; [|split; [|split; [|intros out Hout; cbn [app]]]].
      4: { rewrite size_update_one by lia. by apply size_update_stop. }
      * split; cbn [enc_table dec_table set_dec_table]; [done|done|by rewrite H2|by rewrite H3|done|by rewrite H4].
      * done.
      * done.
  - destruct Hp as [Hv Hm]. exists e, []. split; [intros dst; by rewrite app_nil_r|]. split_and!; [done..|]. exists d. split; [by split|]. split_and!; [done..|].
    intros out Hout. by apply size_update_stop.
Qed.

(** ** A connection *)

Inductive Op :=
| Resize (sz : N)
| UseHuffman (b : bool)
| Block (indexed : bool) (hs : list Header).

(** The encoder does the operations and the decoder reads every block; the results
    of the decoder. *)
Definition send (e : Encoder) (indexed : bool) (hs : list Header) : Encoder * list N :=
  if indexed then encode e hs [] else encode_sensitive e hs [].

Fixpoint exchange (e : Encoder) (d : Decoder) (ops : list Op) : list (result (list Header) H2Error) :=
  match ops with
  | [] => []
  | Resize sz :: ops => exchange (set_max_table_size e sz) d ops
  | UseHuffman b :: ops => exchange (set_use_huffman e b) d ops
  | Block indexed hs :: ops =>
      let '(e, wire) := send e indexed hs in
      let '(d, (_, r)) := decode d wire in
      r :: exchange e d ops
  end.

Fixpoint expected (ops : list Op) : list (result (list Header) H2Error) :=
  match ops with
  | [] => []
  | Block _ hs :: ops => Ok (lower <$> hs) :: expected ops
  | _ :: ops => expected ops
  end.

Fixpoint ops_ok (huffman : bool) (list_size allowed : N) (ops : list Op) : Prop :=
  match ops with
  | [] => True
  | Resize sz :: ops => N.min sz MAX_ALLOWED_TABLE_SIZE ≤ allowed ∧ ops_ok huffman list_size allowed ops
  | UseHuffman b :: ops => ops_ok b list_size allowed ops
  | Block _ hs :: ops => block_ok huffman list_size hs ∧ ops_ok huffman list_size allowed ops
  end.

Fixpoint headers_in (ops : list Op) : N :=
  match ops with [] => 0 | Block _ hs :: ops => lenN hs + headers_in ops | _ :: ops => headers_in ops end.

Lemma send_block e d left indexed hs : synced e d (lenN hs + left) → max_header_list_size d ≤ usize_MAX → block_ok (use_huffman e) (max_header_list_size d) hs →
  ∃ e' wire d', send e indexed hs = (e', wire) ∧ decode d wire = (d', ([], Ok (lower <$> hs))) ∧ synced e' d' left ∧
    use_huffman e' = use_huffman e ∧ max_header_list_size d' = max_header_list_size d ∧ allowed_table_size d' = allowed_table_size d.
Proof.
  intros Hs Hcap Hok. destruct (updates_roundtrip e d _ Hs) as (e1 & u & Hemit & Hh1 & Hmin1 & Hpen1 & d1 & Hstep & Hlist1 & Hal1 & Hup).
  destruct (block_roundtrip hs e1 d1 left indexed [] 0 u) as (e' & d' & out & Henc & Hnu & Hlen & Hdec & Hin & Hh & Hmin & Hpen & Hl & Ha); [done|by rewrite Hlist1|lia|by rewrite Hh1, Hlist1, N.sub_0_r|].
  exists e', (u ++ out), d'. split.
  { unfold send, encode, encode_sensitive. rewrite (Hemit []). destruct indexed; done. }
  split; [|split; [|by rewrite Hh, Hl, Ha]].
  - unfold decode. rewrite Hup by done. by apply Hdec.
  - destruct Hin as [? ? ? ? ? ?]. split; try done. by rewrite Hmin, Hmin1, Hpen, Hpen1.
Qed.

Lemma exchange_ok ops : ∀ e d left, synced e d (headers_in ops + left) → max_header_list_size d ≤ usize_MAX →
  ops_ok (use_huffman e) (max_header_list_size d) (allowed_table_size d) ops → exchange e d ops = expected ops.
Proof.
  induction ops as [|[sz|b|indexed hs] ops IH]; intros e d left Hs Hcap Hok; cbn [exchange expected headers_in] in *; [done|..].
  - destruct Hok as [Hsz Hok]. eapply IH; [by apply synced_resize | done | done].
  - eapply IH; [|done|done]. by destruct Hs.
  - destruct Hok as [Hb Hok]. rewrite <- N.add_assoc in Hs. destruct (send_block e d _ indexed hs Hs Hcap Hb) as (e' & wire & d' & Hsend & Hdec & Hs' & Hh & Hl & Ha).
    rewrite Hsend, Hdec. f_equal. eapply IH; [done | by rewrite Hl | by rewrite Hh, Hl, Ha].
Qed.

(** ** Any input *)

Lemma decode_rest_shrinks src v shift src' w : decode_rest src v shift = (src', Ok w) → (length src' < length src)%nat.
Proof.
  revert v shift. induction src as [|b src IH]; intros v shift; cbn [decode_rest length]; [done|].
  destruct (28 <? shift); [done|]. destruct (64 <=? shift); [done|]. cbv zeta. destruct (usize_MAX <? _); [done|]. destruct (usize_MAX <? _); [done|].
  destruct (_ =? 0); [intros [=-> _]; lia|]. intros H%IH. lia.
Qed.

Lemma decode_integer_shrinks src k src' v : decode_integer src k = (src', Ok v) → (length src' < length src)%nat.
Proof.
  destruct src as [|b src]; cbn [decode_integer length]; [done|]. destruct (_ <? _); [intros [=-> _]; lia|]. intros H%decode_rest_shrinks. lia.
Qed.

Lemma decode_string_shrinks src budget src' s : decode_string_bounded src budget = (src', Ok s) → (length src' < length src)%nat.
Proof.
  unfold decode_string_bounded. destruct src as [|b src]; [done|]. destruct (decode_integer (b :: src) 7) as [src1 [n|e]] eqn:E; [|done].
  destruct (_ <? n); [done|]. destruct (_ <? n); [done|]. apply decode_integer_shrinks in E. intros [=<- _]. unfold dropN. rewrite length_drop. lia.
Qed.

Lemma decode_literal_shrinks d src k budget src' nv : decode_literal d src k budget = (src', Ok nv) → (length src' < length src)%nat.
Proof.
  unfold decode_literal. destruct (decode_integer src k) as [src1 [i|e]] eqn:E; [|done]. apply decode_integer_shrinks in E.
  destruct (decode_literal_name d src1 i budget) as [src2 [n|e]] eqn:E2; [|done].
  assert (length src2 ≤ length src1)%nat as H2.
  { unfold decode_literal_name in E2. destruct (i =? 0); [|by injection E2 as <- _]. destruct (decode_string_bounded src1 budget) as [src3 [n'|]] eqn:E3; [|done].
    apply decode_string_shrinks in E3. injection E2 as <- _. lia. }
  destruct (decode_string_bounded src2 _) as [src3 [v|e]] eqn:E3; [|done]. apply decode_string_shrinks in E3. intros [=<- _]. lia.
Qed.

(** A decoder on any bytes: its table stays well formed, and a header that comes out
    has taken bytes off the source. *)
Definition dec_ok (d : Decoder) (left : N) : Prop := table_ok (dec_table d) ∧ insert_count (dec_table d) + left ≤ u64_MAX.

Lemma decode_header_safe d src budget left : dec_ok d (1 + left) →
  let '(d', (src', r)) := decode_header d src budget in
  dec_ok d' left ∧ max_header_list_size d' = max_header_list_size d ∧ allowed_table_size d' = allowed_table_size d ∧ max_size (dec_table d') = max_size (dec_table d) ∧
  (∀ h, r = Ok h → (length src' < length src)%nat).
Proof.
  intros [Ht Hc]. assert (dec_ok d left) as Hd by (split; [done | lia]). unfold decode_header. destruct src as [|b src]; [done|].
  destruct (negb _).
  { destruct (decode_integer (b :: src) 7) as [src' [i|e]] eqn:E; split_and!; try done. intros h _. by eapply decode_integer_shrinks. }
  destruct (negb _).
  { destruct (decode_literal d (b :: src) 6 budget) as [src' [[n v]|e]] eqn:E; [|done]. apply decode_literal_shrinks in E.
    destruct (insert_spec (dec_table d) (mkHeader n v) Ht ltac:(lia)) as (H1 & _ & H3 & H4). split_and!; try done. split; [done|]. simpl. lia. }
  destruct (negb _); [done|].
  destruct (decode_literal d (b :: src) 4 budget) as [src' [[n v]|e]] eqn:E; [|done]. apply decode_literal_shrinks in E. done.
Qed.

Lemma header_loop_safe fuel : ∀ d src acc tot left, dec_ok d (lenN src + left) → (length src ≤ fuel)%nat → max_header_list_size d < usize_MAX →
  total acc = tot → tot ≤ max_header_list_size d →
  let '(d', (src', r)) := header_loop fuel d src acc tot in
  dec_ok d' left ∧ max_size (dec_table d') = max_size (dec_table d) ∧ (∀ hs, r = Ok hs → src' = [] ∧ total hs ≤ max_header_list_size d).
Proof.
  induction fuel as [|fuel IH]; intros d src acc tot left Hd Hlen Hcap Hacc Htot.
  - destruct src; [|simpl in Hlen; lia]. simpl. split_and!; try done. intros hs [=<-]. split; [done | lia].
  - destruct src as [|b src]; [simpl; split_and!; try done; intros hs [=<-]; split; [done | lia]|]. cbn [header_loop].
    rewrite len_cons in Hd. pose proof (decode_header_safe d (b :: src) (saturating_sub (max_header_list_size d) tot) (lenN src + left)) as H.
    destruct (decode_header d (b :: src) _) as [d1 [src1 [h|e]]]; destruct H as (Hd1 & Hl1 & Ha1 & Hm1 & Hsh); [by rewrite N.add_assoc| |by rewrite N.add_assoc|].
    + specialize (Hsh h eq_refl). assert (dec_ok d1 left) as Hd1' by (destruct Hd1; split; [done | lia]).
      destruct (N.ltb_spec (max_header_list_size d1) (saturating_add usize_MAX tot (header_size h))) as [Hbig|Hfits]; [split_and!; done|].
      rewrite Hl1 in Hfits. destruct (N.le_gt_cases (tot + header_size h) usize_MAX) as [Hs|Hs]; [|unfold saturating_add in Hfits; rewrite N.min_r in Hfits by lia].
      * rewrite saturating_add_exact in * by done. specialize (IH d1 src1 (acc ++ [h]) (tot + header_size h) left).
        destruct (header_loop fuel d1 src1 (acc ++ [h]) (tot + header_size h)) as [d2 [src2 r]].
        rewrite Hm1, Hl1 in IH. apply IH; [|simpl in *; lia|done| |done].
        -- destruct Hd1; split; [done|]. unfold lenN in *. simpl in Hsh. lia.
        -- rewrite total_size_app. simpl. lia.
      * lia.
    + split_and!; try done. destruct Hd1; split; [done | lia].
Qed.

Lemma size_updates_safe fuel : ∀ d src count left, dec_ok d left → (length src < fuel)%nat →
  let '(d', (src', r)) := size_updates fuel d src count in
  dec_ok d' left ∧ max_header_list_size d' = max_header_list_size d ∧ allowed_table_size d' = allowed_table_size d ∧
  max_size (dec_table d') ≤ N.max (max_size (dec_table d)) (allowed_table_size d) ∧ (∀ u, r = Ok u → not_update src' ∧ (length src' ≤ length src)%nat).
Proof.
  induction fuel as [|fuel IH]; intros d src count left Hd Hlen; [lia|]. cbn [size_updates]. destruct src as [|b src]; [split_and!; try done; lia|].
  destruct (N.land b 224 =? 32) eqn:Eb; [|split_and!; try done; lia]. destruct (MAX_SIZE_UPDATES <? _); [split_and!; try done; lia|].
  destruct (decode_integer (b :: src) 5) as [src1 [n|e]] eqn:E; [|split_and!; try done; lia]. apply decode_integer_shrinks in E.
  destruct (N.ltb_spec (allowed_table_size d) n); [split_and!; try done; lia|].
  destruct Hd as [Ht Hc]. destruct (set_max_size_spec (dec_table d) n (proj1 Ht)) as (H1 & _ & H3 & H4).
  specialize (IH (set_dec_table d (set_max_size (dec_table d) n)) src1 (saturating_add usize_MAX count 1) left).
  destruct (size_updates fuel _ src1 _) as [d2 [src2 r]]. cbn [set_dec_table dec_table max_header_list_size allowed_table_size] in IH. rewrite H3 in IH.
  destruct IH as (I1 & I2 & I3 & I4 & I5); [split; [done|]; cbn [set_dec_table dec_table]; by rewrite H4|lia|]. split_and!; try done; [lia|].
  intros u Hu. destruct (I5 u Hu). split; [done | lia].
Qed.

(** ** The guarantees *)

(** C24: Whatever sequence of blocks, of changes of the table size and of the use of
    Huffman coding the encoder goes through, the decoder returns every block as it was
    given, with names in lower case; provided that names and values are valid, the
    blocks fit the decoder's list size on the wire, sizes are within the decoder's
    limit, and fewer than 2^64 headers are sent. *)
Theorem hpack_roundtrip m list_size allowed ops : list_size ≤ usize_MAX → headers_in ops ≤ u64_MAX →
  ops_ok true list_size (N.min allowed MAX_ALLOWED_TABLE_SIZE) ops →
  exchange (encoder_with_max_size m) (set_allowed_table_size (set_max_header_list_size (decoder_with_max_size m) list_size) allowed) ops = expected ops.
Proof.
  intros Hl Hn Hok. apply (exchange_ok ops _ _ 0); [|done|done]. split; try apply with_max_size_ok; simpl; try lia.
  split; [done|]. lia.
Qed.

Definition header_of (n v : string) : Header := mkHeader (bytes_of n) (bytes_of v).
Definition example_ops : list Op :=
  [Block true [header_of ":method" "GET"; header_of "X-Custom" "hello"]; Resize 100; UseHuffman false;
   Block false [header_of "x-custom" "hello"]; Block true [header_of "x-custom" "hello"]]%string.

Ltac check_sendable := split; [repeat constructor; lia | vm_compute; reflexivity | vm_compute; reflexivity | vm_compute; discriminate].
Ltac check_header := split; [vm_compute; reflexivity | vm_compute; reflexivity | check_sendable | check_sendable].
Ltac check_block := repeat (split; [check_header|split; [vm_compute; discriminate|]]); exact I.

Lemma hpack_roundtrip_witness :
  exchange (encoder_with_max_size 4096) (set_allowed_table_size (set_max_header_list_size (decoder_with_max_size 4096) 16384) 4096) example_ops =
  [Ok [header_of ":method" "GET"; header_of "x-custom" "hello"]; Ok [header_of "x-custom" "hello"]; Ok [header_of "x-custom" "hello"]]%string.
Proof.
  apply (hpack_roundtrip 4096 16384 4096 example_ops); [vm_compute; discriminate..|].
  split; [check_block|]. split; [vm_compute; discriminate|]. split; [check_block|]. split; [check_block | exact I].
Defined.

(** The Huffman form of a string can be longer than the string, and the encoder uses
    it regardless; the decoder compares the length on the wire with what is left of
    the list size.  A header of 73 bytes is refused where 100 are allowed. *)
Lemma expanding_string_is_refused :
  let h := mkHeader (bytes_of "x") (replicate 40 2) in
  header_size h = 73 ∧
  (decode (set_max_header_list_size (decoder_with_max_size 4096) 100) (encode (encoder_with_max_size 4096) [h] []).2).2.2 =
    Err (Compression "string length exceeds budget").
Proof. vm_compute. auto. Qed.

(** The other way round, a string of eight bytes comes out of a bound of five. *)
Lemma compressed_string_exceeds_bound : ∃ wire, decode_string_bounded wire 5 = ([], Ok (replicate 8 48)).
Proof. exists (encode_string [] (replicate 8 48) true). vm_compute. reflexivity. Qed.

(** The dynamic table with its side indices, and a list. *)
Inductive TableOp := Insert (h : Header) | SetMax (m : N).
Definition table_op (t : DynamicTable) (op : TableOp) : DynamicTable := match op with Insert h => insert t h | SetMax m => set_max_size t m end.
Definition list_op (s : list Header * N) (op : TableOp) : list Header * N :=
  match op with
  | Insert h => (view_insert h s.2 s.1, s.2)
  | SetMax m => let m := N.min m MAX_ALLOWED_TABLE_SIZE in (fit m s.1, m)
  end.

Lemma hpack_ops_ok ops : ∀ t, table_ok t → insert_count t + lenN ops ≤ u64_MAX →
  table_ok (foldl table_op t ops) ∧ (view (foldl table_op t ops), max_size (foldl table_op t ops)) = foldl list_op (view t, max_size t) ops.
Proof.
  induction ops as [|op ops IH]; intros t Ht Hc; simpl; [done|]. rewrite len_cons in Hc. destruct op as [h|m]; simpl.
  - destruct (insert_spec t h Ht ltac:(lia)) as (H1 & H2 & H3 & H4). destruct (IH (insert t h) H1 ltac:(lia)) as [I1 I2]. by rewrite I2, H2, H3.
  - destruct (set_max_size_spec t m (proj1 Ht)) as (H1 & H2 & H3 & H4). cbv zeta in *. destruct (IH (set_max_size t m) H1 ltac:(lia)) as [I1 I2]. by rewrite I2, H2, H3.
Qed.

Lemma find_by_list t n v : table_ok t → find t n v = (λ p, 62 + N.of_nat p.1) <$> list_find (λ h, h = mkHeader n v) (view t).
Proof.
  intros [Hw _]. pose proof (find_spec t n v Hw) as H. destruct (find t n v) as [i|].
  - destruct H as (p & Hp & -> & Hfirst). rewrite static_len.
    assert (list_find (λ h, h = mkHeader n v) (view t) = Some (p, mkHeader n v)) as ->; [|simpl; f_equal; lia].
    apply list_find_Some. split_and!; try done. intros j y Hj Hlt ->. by apply (Hfirst j).
  - assert (list_find (λ h, h = mkHeader n v) (view t) = None) as ->; [|done]. apply list_find_None, Forall_forall. intros h Hin ->. done.
Qed.

Lemma find_name_by_list t n : table_ok t → find_name t n = (λ p, 62 + N.of_nat p.1) <$> list_find (λ h, name h = n) (view t).
Proof.
  intros [Hw _]. pose proof (find_name_spec t n Hw) as H. destruct (find_name t n) as [i|].
  - destruct H as (p & h & Hp & Hn & -> & Hfirst). rewrite static_len.
    assert (list_find (λ h, name h = n) (view t) = Some (p, h)) as ->; [|simpl; f_equal; lia].
    apply list_find_Some. split_and!; try done. intros j y Hj Hlt. by apply (Hfirst j).
  - assert (list_find (λ h, name h = n) (view t) = None) as ->; [|done]. by apply list_find_None.
Qed.

(** After every sequence of fewer than 2^64 insertions and size changes the
    dynamic table holds the headers that a plain list bounded by size would hold, its
    recorded size is their total and within the limit, and the hashed searches answer
    with the index of the newest match, exactly as a linear search does. *)
Theorem hpack_table_refines_list m ops n v : lenN ops ≤ u64_MAX →
  let t := foldl table_op (table_with_max_size m) ops in
  (view t, max_size t) = foldl list_op ([], N.min m MAX_ALLOWED_TABLE_SIZE) ops ∧
  size t = total (view t) ∧ size t ≤ max_size t ∧
  find t n v = (λ p, 62 + N.of_nat p.1) <$> list_find (λ h, h = mkHeader n v) (view t) ∧
  find_name t n = (λ p, 62 + N.of_nat p.1) <$> list_find (λ h, name h = n) (view t).
Proof.
  intros Hn t. destruct (hpack_ops_ok ops (table_with_max_size m) (with_max_size_ok m)) as [Hok Hview]; [simpl; lia|].
  split; [exact Hview|]. split; [apply Hok|]. split; [apply Hok|]. split; [by apply find_by_list | by apply find_name_by_list].
Qed.

Lemma hpack_table_refines_list_witness :
  let t := foldl table_op (table_with_max_size 4096) [Insert (header_of "a" "1"); Insert (header_of "b" "2"); Insert (header_of "a" "1")]%string in
  find t (bytes_of "a") (bytes_of "1") = Some 62 ∧ size t ≤ max_size t.
Proof.
  intros t. split; [vm_compute; reflexivity|].
  apply (hpack_table_refines_list 4096 [Insert (header_of "a" "1"); Insert (header_of "b" "2"); Insert (header_of "a" "1")]%string [] []).
  vm_compute. discriminate.
Defined.

(** C38: On any bytes whatsoever the decoder returns with a well-formed table whose
    limit exceeds neither what it was nor what is allowed; when it succeeds it has
    read everything and the headers are within the configured list size. *)
Theorem hpack_decode_bounded d src : table_ok (dec_table d) → insert_count (dec_table d) + lenN src ≤ u64_MAX → max_header_list_size d < usize_MAX →
  let '(d', (rest, r)) := decode d src in
  table_ok (dec_table d') ∧ size (dec_table d') ≤ max_size (dec_table d') ∧
  max_size (dec_table d') ≤ N.max (max_size (dec_table d)) (allowed_table_size d) ∧
  ∀ hs, r = Ok hs → rest = [] ∧ total hs ≤ max_header_list_size d.
Proof.
  intros Ht Hc Hl. unfold decode. pose proof (size_updates_safe (S (length src)) d src 0 (lenN src) (conj Ht Hc) ltac:(lia)) as H.
  destruct (size_updates (S (length src)) d src 0) as [d1 [src1 [u|e]]]; destruct H as (Hd1 & Hl1 & Ha1 & Hm1 & Hsh); [|split; [apply Hd1|]; split; [apply Hd1|done]].
  destruct (Hsh u eq_refl) as [_ Hlen]. pose proof (header_loop_safe (length src1) d1 src1 [] 0 0) as H2.
  destruct (header_loop (length src1) d1 src1 [] 0) as [d2 [src2 r]]. rewrite Hl1 in H2.
  destruct H2 as ([Ht2 _] & Hm2 & Hr); try done; [|lia|]; [destruct Hd1; split; [done|]; unfold lenN in *; lia|].
  split; [done|]. split; [apply Ht2|]. rewrite Hm2. done.
Qed.

Lemma hpack_decode_bounded_witness :
  let d := decoder_with_max_size 4096 in
  let '(d', (rest, r)) := decode d [130; 63; 255; 255; 255; 255; 255; 255] in
  max_size (dec_table d') ≤ N.max 4096 4096.
Proof.
  intros d. pose proof (hpack_decode_bounded d [130; 63; 255; 255; 255; 255; 255; 255] (with_max_size_ok 4096)) as H.
  destruct (decode d [130; 63; 255; 255; 255; 255; 255; 255]) as [d' [rest r]]. apply H; vm_compute; (discriminate || reflexivity).
Defined.

End HpackThms.
