(* ===== verification/Gf256.v ===== *)
(** * Arithmetic in GF(256)

    Models [src/raptorq/gf256.rs] in the default build (without the
    [simd-intrinsics] feature): the table generators, the field element
    operations through logarithm tables, the multiplication tables, the bulk
    kernels on byte slices (word-at-a-time XOR, table scaling, fused
    multiply-add), the two-lane variants and the policy that selects between
    them.  The byte order of the target is a parameter.

    The theorems: table multiplication is multiplication of polynomials over
    GF(2) modulo [x^8 + x^4 + x^3 + x^2 + 1], the operations form a field, and
    every kernel computes the element-wise operation, whatever the slice
    lengths and the policy. *)

From S2P Require Import Prelude Bytes.

(** ** Tables *)

Definition POLY : N := 29.
Definition GENERATOR : N := 2.

(** [val <<= 1; if val & 0x100 != 0 { val ^= 0x100 | POLY; }] on [u16]. *)
Definition next_power (val : N) : N :=
  let val := N.shiftl val 1 mod 65536 in
  if N.land val 256 =? 0 then val else N.lxor val (N.lor 256 POLY).

Fixpoint exp_loop (n : nat) (i : nat) (table : list N) (val : N) : list N :=
  match n with
  | O => table
  | S n => exp_loop n (S i) (<[(i + 255)%nat := val mod 256]> (<[i := val mod 256]> table)) (next_power val)
  end.

Definition build_exp_table : list N :=
  <[510%nat := 1]> (<[255%nat := 1]> (exp_loop 255 0 (replicate 512 0) 1)).

Fixpoint log_loop (n : nat) (i : N) (table : list N) (val : N) : list N :=
  match n with
  | O => table
  | S n => log_loop n (i + 1) (<[N.to_nat val := i]> table) (next_power val)
  end.

Definition build_log_table : list N := log_loop 255 0 (replicate 256 0) 1.

Definition EXP : list N := Eval vm_compute in build_exp_table.
Definition LOG : list N := Eval vm_compute in build_log_table.

(** One step of the shift-and-add multiplication: [a] times [x]. *)
Definition xtime (a : N) : N :=
  let hi := N.land a 128 in
  let a := N.shiftl a 1 mod 256 in
  if hi =? 0 then a else N.lxor a (POLY mod 256).

Fixpoint mul_loop (n : nat) (a b acc : N) : N :=
  match n with
  | O => acc
  | S n => mul_loop n (xtime a) (N.shiftr b 1) (if N.land b 1 =? 0 then acc else N.lxor acc a)
  end.

Definition gf256_mul_const (a b : N) : N := mul_loop 8 a b 0.

Definition build_mul_tables : list (list N) :=
  (λ c, (λ x, gf256_mul_const (N.of_nat x) (N.of_nat c)) <$> seq 0 256) <$> seq 0 256.

Definition mul_table_for (c : N) : list N := build_mul_tables !!! N.to_nat c.

(** ** Field elements *)

Definition gf_add (a b : N) : N := N.lxor a b.
Definition gf_sub (a b : N) : N := gf_add a b.

Definition mul_field (a b : N) : N :=
  if (a =? 0) || (b =? 0) then 0
  else EXP !!! N.to_nat (LOG !!! N.to_nat a + LOG !!! N.to_nat b).

Definition inv (a : N) : exec N :=
  if a =? 0 then Panics else Done (EXP !!! N.to_nat (255 - LOG !!! N.to_nat a)).

Definition div_field (a b : N) : exec N := i ← inv b; Done (mul_field a i).

Definition pow (a e : N) : N :=
  if e =? 0 then 1
  else if a =? 0 then 0
  else EXP !!! N.to_nat ((LOG !!! N.to_nat a * e) mod 255).

(** ** Bulk kernels *)

(** [l.chunks_exact(n)]: the full chunks and the remainder. *)
Fixpoint chunks_fuel {A} (fuel n : nat) (l : list A) : list (list A) * list A :=
  match fuel with
  | O => ([], l)
  | S fuel =>
      if bool_decide (n ≤ length l)%nat
      then let '(cs, r) := chunks_fuel fuel n (drop n l) in (take n l :: cs, r)
      else ([], l)
  end.
Definition chunks_exact {A} (n : nat) (l : list A) : list (list A) * list A := chunks_fuel (length l) n l.

(** [for (d, s) in ds.iter_mut().zip(ss) { *d = f(d, s) }]. *)
Definition zip_in_place {A B} (f : A → B → A) (ds : list A) (ss : list B) : list A :=
  zip_with f ds ss ++ drop (length ss) ds.

(** The byte order of the target. *)
Class Target := { target_big_endian : bool }.

Section kernels.
Context `{!Target}.
Implicit Types (d s : list N).

Definition to_ne_bytes (k : nat) (n : N) : list N := if target_big_endian then to_be_bytes k n else to_le_bytes k n.
Definition from_ne_bytes (l : list N) : N := if target_big_endian then from_be_bytes l else from_le_bytes l.

(** XOR of two eight-byte slices as 64-bit words. *)
Definition xor_word d s : list N := to_ne_bytes 8 (N.lxor (from_ne_bytes d) (from_ne_bytes s)).

Definition sub_slice {A} (l : list A) (a b : nat) : list A := take (b - a) (drop a l).

Definition xor_chunk_32_in_place d s : list N :=
  if negb (bool_decide (length d = 32%nat)) || negb (bool_decide (length s = 32%nat)) then d
  else
    xor_word (sub_slice d 0 8) (sub_slice s 0 8) ++ xor_word (sub_slice d 8 16) (sub_slice s 8 16) ++
    xor_word (sub_slice d 16 24) (sub_slice s 16 24) ++ xor_word (sub_slice d 24 32) (sub_slice s 24 32).

Definition xor_chunk_8_in_place d s : list N :=
  if negb (bool_decide (length d = 8%nat)) || negb (bool_decide (length s = 8%nat)) then d
  else xor_word d s.

Definition add_slice_loops d s : list N :=
  let '(d32, d_rem) := chunks_exact 32 d in
  let '(s32, s_rem) := chunks_exact 32 s in
  let '(d8, d_tail) := chunks_exact 8 d_rem in
  let '(s8, s_tail) := chunks_exact 8 s_rem in
  concat (zip_in_place xor_chunk_32_in_place d32 s32) ++
  concat (zip_in_place xor_chunk_8_in_place d8 s8) ++
  zip_in_place N.lxor d_tail s_tail.

Definition gf256_add_slice_scalar d s : exec (list N) :=
  if bool_decide (length d = length s) then Done (add_slice_loops d s) else Panics.

(** [f(&mut d[a..b], &s[a..b])]. *)
Definition update_range (f : list N → list N → list N) (d s : list N) (a b : nat) : list N :=
  take a d ++ f (sub_slice d a b) (sub_slice s a b) ++ drop b d.

(** The loop [while offset + step <= common] over both lanes. *)
Fixpoint lanes_loop (fuel : nat) (step common : nat) (f : list N → list N → list N)
    (offset : nat) (da sa db sb : list N) : nat * list N * list N :=
  match fuel with
  | O => (offset, da, db)
  | S fuel =>
      if bool_decide (offset + step ≤ common)%nat then
        let e := (offset + step)%nat in
        lanes_loop fuel step common f e (update_range f da sa offset e) sa (update_range f db sb offset e) sb
      else (offset, da, db)
  end.

Definition xor_byte d s : list N := zip_with N.lxor d s.

Definition gf256_add_slices2_scalar da sa db sb : exec (list N * list N) :=
  let common := Nat.min (length da) (length db) in
  let '(da_c, da_t) := (take common da, drop common da) in
  let '(sa_c, sa_t) := (take common sa, drop common sa) in
  let '(db_c, db_t) := (take common db, drop common db) in
  let '(sb_c, sb_t) := (take common sb, drop common sb) in
  let '(o, da_c, db_c) := lanes_loop common 32 common xor_chunk_32_in_place 0 da_c sa_c db_c sb_c in
  let '(o, da_c, db_c) := lanes_loop common 8 common xor_chunk_8_in_place o da_c sa_c db_c sb_c in
  let '(o, da_c, db_c) := lanes_loop common 1 common xor_byte o da_c sa_c db_c sb_c in
  da_t ← (if bool_decide (da_t = []) then Done da_t else gf256_add_slice_scalar da_t sa_t);
  db_t ← (if bool_decide (db_t = []) then Done db_t else gf256_add_slice_scalar db_t sb_t);
  Done (da_c ++ da_t, db_c ++ db_t).

Definition table_at (table : list N) (x : N) : N := table !!! N.to_nat x.

(** [mul_with_table_scalar]; [mul_with_table_wide] of this build has the same body. *)
Definition mul_with_table d (table : list N) : list N :=
  let '(chunks, rest) := chunks_exact 8 d in
  concat ((λ chunk : list N, table_at table <$> chunk) <$> chunks) ++ (table_at table <$> rest).

Definition mul_with_table_wide2 da db (table : list N) : list N * list N :=
  let common := Nat.min (length da) (length db) in
  let '(ca, ra) := chunks_exact 8 (take common da) in
  let '(cb, rb) := chunks_exact 8 (take common db) in
  let map8 := λ chunk : list N, table_at table <$> chunk in
  let ca' := zip_in_place (λ a (_ : list N), map8 a) ca cb in
  let cb' := zip_in_place (λ b (_ : list N), map8 b) cb ca in
  let tail := λ t, if bool_decide (t = []) then t else mul_with_table t table in
  (concat ca' ++ map8 ra ++ tail (drop common da), concat cb' ++ map8 rb ++ tail (drop common db)).

(** [d_chunk ^ table(s_chunk)] as words. *)
Definition addmul_chunk (table : list N) d s : list N := xor_word d (table_at table <$> s).

(** [addmul_with_table_scalar]; [addmul_with_table_wide] of this build has the same body. *)
Definition addmul_with_table d s (table : list N) : list N :=
  let '(dc, dr) := chunks_exact 8 d in
  let '(sc, sr) := chunks_exact 8 s in
  concat (zip_in_place (addmul_chunk table) dc sc) ++ zip_in_place (λ x y, N.lxor x (table_at table y)) dr sr.

Definition addmul_with_table_wide2 da sa db sb (table : list N) : list N * list N :=
  let common := Nat.min (length da) (length db) in
  let '(dca, dra) := chunks_exact 8 (take common da) in
  let '(sca, sra) := chunks_exact 8 (take common sa) in
  let '(dcb, drb) := chunks_exact 8 (take common db) in
  let '(scb, srb) := chunks_exact 8 (take common sb) in
  let n := Nat.min (Nat.min (length dca) (length sca)) (Nat.min (length dcb) (length scb)) in
  let lane := λ dc sc, zip_in_place (addmul_chunk table) dc (take n sc) in
  let rest := λ dr sr, zip_in_place (λ x y, N.lxor x (table_at table y)) dr sr in
  let tail := λ dt st, if bool_decide (dt = []) then dt else addmul_with_table dt st table in
  (concat (lane dca sca) ++ rest dra sra ++ tail (drop common da) (drop common sa),
   concat (lane dcb scb) ++ rest drb srb ++ tail (drop common db) (drop common sb)).

Definition gf256_mul_slice_scalar d (c : N) : list N :=
  if c =? 0 then replicate (length d) 0
  else if c =? 1 then d
  else mul_with_table d (mul_table_for c).

Definition gf256_addmul_slice_scalar d s (c : N) : exec (list N) :=
  if negb (bool_decide (length d = length s)) then Panics
  else if c =? 0 then Done d
  else if c =? 1 then gf256_add_slice_scalar d s
  else Done (addmul_with_table d s (mul_table_for c)).

(** ** The two-lane policy *)

Inductive DualKernelOverride := Auto | ForceSequential | ForceFused.

(** The fields of [DualKernelPolicy] that decide. *)
Record DualKernelPolicy := mkPolicy {
  mode : DualKernelOverride;
  mul_min_total : N; mul_max_total : N;
  addmul_min_total : N; addmul_max_total : N;
  addmul_min_lane : N;
  max_lane_ratio : N;
}.

Inductive DualKernelDecision := Sequential | Fused.

Inductive DualKernelDecisionReason :=
| ForcedSequentialMode | ForcedFusedMode | WindowDisabledByProfile | InvalidWindowConfiguration
| TotalBelowWindow | TotalAboveWindow | LaneBelowMinFloor | LaneRatioExceeded | EligibleAutoWindow.

Definition lane_ratio_within (len_a len_b max_ratio : N) : bool :=
  let lo := N.min len_a len_b in
  let hi := N.max len_a len_b in
  (0 <? lo) && (hi <=? saturating_mul usize_MAX lo max_ratio).

Definition window_gate_reason (total min_total max_total : N) : option DualKernelDecisionReason :=
  if (min_total =? usize_MAX) && (max_total =? 0) then Some WindowDisabledByProfile
  else if max_total <? min_total then Some InvalidWindowConfiguration
  else if total <? min_total then Some TotalBelowWindow
  else if max_total <? total then Some TotalAboveWindow
  else None.

Definition dual_mul_decision_detail_with_policy (policy : DualKernelPolicy) (len_a len_b : N) :
    DualKernelDecision * DualKernelDecisionReason :=
  match mode policy with
  | ForceSequential => (Sequential, ForcedSequentialMode)
  | ForceFused => (Fused, ForcedFusedMode)
  | Auto =>
      let total := saturating_add usize_MAX len_a len_b in
      match window_gate_reason total (mul_min_total policy) (mul_max_total policy) with
      | Some reason => (Sequential, reason)
      | None =>
          if negb (lane_ratio_within len_a len_b (max_lane_ratio policy)) then (Sequential, LaneRatioExceeded)
          else (Fused, EligibleAutoWindow)
      end
  end.

Definition dual_addmul_decision_detail_with_policy (policy : DualKernelPolicy) (len_a len_b : N) :
    DualKernelDecision * DualKernelDecisionReason :=
  match mode policy with
  | ForceSequential => (Sequential, ForcedSequentialMode)
  | ForceFused => (Fused, ForcedFusedMode)
  | Auto =>
      let total := saturating_add usize_MAX len_a len_b in
      match window_gate_reason total (addmul_min_total policy) (addmul_max_total policy) with
      | Some reason => (Sequential, reason)
      | None =>
          if N.min len_a len_b <? addmul_min_lane policy then (Sequential, LaneBelowMinFloor)
          else if negb (lane_ratio_within len_a len_b (max_lane_ratio policy)) then (Sequential, LaneRatioExceeded)
          else (Fused, EligibleAutoWindow)
      end
  end.

(** Without architecture kernels the sequential path scales lane by lane with the
    tables, and the fused path is the shared-setup one. *)
Definition gf256_mul_slices2 (policy : DualKernelPolicy) da db (c : N) : list N * list N :=
  if c =? 0 then (replicate (length da) 0, replicate (length db) 0)
  else if c =? 1 then (da, db)
  else
    match (dual_mul_decision_detail_with_policy policy (lenN da) (lenN db)).1 with
    | Sequential => (mul_with_table da (mul_table_for c), mul_with_table db (mul_table_for c))
    | Fused => mul_with_table_wide2 da db (mul_table_for c)
    end.

Definition gf256_add_slices2 da sa db sb : exec (list N * list N) :=
  if negb (bool_decide (length da = length sa)) || negb (bool_decide (length db = length sb)) then Panics
  else gf256_add_slices2_scalar da sa db sb.

Definition gf256_addmul_slices2 (policy : DualKernelPolicy) da sa db sb (c : N) : exec (list N * list N) :=
  if negb (bool_decide (length da = length sa)) || negb (bool_decide (length db = length sb)) then Panics
  else if c =? 0 then Done (da, db)
  else if c =? 1 then gf256_add_slices2 da sa db sb
  else
    match (dual_addmul_decision_detail_with_policy policy (lenN da) (lenN db)).1 with
    | Sequential =>
        a ← gf256_addmul_slice_scalar da sa c;
        b ← gf256_addmul_slice_scalar db sb c;
        Done (a, b)
    | Fused => Done (addmul_with_table_wide2 da sa db sb (mul_table_for c))
    end.

End kernels.

(** ** Reference: polynomials over GF(2)

    Bit [i] of a number is the coefficient of [x^i]; [285] is
    [x^8 + x^4 + x^3 + x^2 + 1]. *)

Fixpoint poly_mul (n : nat) (a b : N) : N :=
  match n with
  | O => 0
  | S n => N.lxor (if N.testbit b 0 then a else 0) (poly_mul n (N.shiftl a 1) (N.shiftr b 1))
  end.

(** Long division: cancels the coefficients of [x^(7+n)] down to [x^8]. *)
Fixpoint poly_rem (n : nat) (v : N) : N :=
  match n with
  | O => v
  | S n => poly_rem n (if N.testbit v (8 + N.of_nat n) then N.lxor v (N.shiftl 285 (N.of_nat n)) else v)
  end.

Definition gf_mul_ref (a b : N) : N := poly_rem 8 (poly_mul 8 a b).

(** ** XOR is addition *)

Ltac xor_bits :=
  apply N.bits_inj; intros ?i; rewrite ?N.lxor_spec, ?N.bits_0;
  repeat match goal with |- context [N.testbit ?a ?i] => destruct (N.testbit a i) end; done.

Lemma lxor_swap a b c d : N.lxor (N.lxor a b) (N.lxor c d) = N.lxor (N.lxor a c) (N.lxor b d).
Proof. xor_bits. Qed.

Lemma land_lxor a b c : N.land (N.lxor a b) c = N.lxor (N.land a c) (N.land b c).
Proof.
  apply N.bits_inj. intros i. rewrite N.land_spec, !N.lxor_spec, !N.land_spec.
  by destruct (N.testbit a i), (N.testbit b i), (N.testbit c i).
Qed.

Lemma mod256_land x : x mod 256 = N.land x 255.
Proof. symmetry. apply (N.land_ones x 8). Qed.

Lemma lxor_byte a b : a < 256 → b < 256 → N.lxor a b < 256.
Proof.
  intros Ha Hb. rewrite <-(N.mod_small a 256), <-(N.mod_small b 256), !mod256_land by done.
  rewrite <-land_lxor, <-mod256_land. by apply N.mod_lt.
Qed.

Lemma land_128 a : (N.land a 128 =? 0) = negb (N.testbit a 7).
Proof.
  destruct (N.eqb_spec (N.land a 128) 0) as [E|E].
  - apply (f_equal (λ x, N.testbit x 7)) in E. rewrite N.land_spec, N.bits_0, andb_true_r in E. by rewrite E.
  - destruct (N.testbit a 7) eqn:Hb; [done|]. destruct E. apply N.bits_inj. intros i.
    rewrite N.land_spec, N.bits_0. destruct (decide (i = 7)) as [->|Hi]; [by rewrite Hb|].
    change 128 with (2 ^ 7). rewrite N.pow2_bits_false by done. apply andb_false_r.
Qed.

Lemma land_1 b : (N.land b 1 =? 0) = negb (N.testbit b 0).
Proof.
  change 1 with (N.ones 1). rewrite N.land_ones. change (2 ^ 1) with 2. rewrite <-N.bit0_mod.
  by destruct (N.testbit b 0).
Qed.

Lemma xtime_eq a : xtime a = N.lxor (N.shiftl a 1 mod 256) (if N.testbit a 7 then 29 else 0).
Proof. unfold xtime. rewrite land_128. destruct (N.testbit a 7); simpl; [done|]. by rewrite N.lxor_0_r. Qed.

Lemma xtime_lxor a b : xtime (N.lxor a b) = N.lxor (xtime a) (xtime b).
Proof.
  rewrite !xtime_eq, N.shiftl_lxor, !mod256_land, land_lxor, N.lxor_spec.
  destruct (N.testbit a 7), (N.testbit b 7); simpl; xor_bits.
Qed.

Lemma xtime_0 : xtime 0 = 0.
Proof. done. Qed.

Lemma xtime_byte a : xtime a < 256.
Proof. rewrite xtime_eq. apply lxor_byte; [by apply N.mod_lt|]. by destruct (N.testbit a 7). Qed.

(** [x^k a]. *)
Definition xtimes (k : nat) (a : N) : N := Nat.iter k xtime a.

Lemma xtimes_add i j a : xtimes (i + j) a = xtimes i (xtimes j a).
Proof. unfold xtimes. induction i as [|i IH]; [done|]. simpl. by rewrite IH. Qed.

Lemma xtimes_byte k a : a < 256 → xtimes k a < 256.
Proof. intros Ha. destruct k as [|k]; [done|]. apply xtime_byte. Qed.

(** The sum the multiplication loop computes. *)
Fixpoint psum (n : nat) (a b : N) : N :=
  match n with
  | O => 0
  | S n => N.lxor (if N.testbit b 0 then a else 0) (psum n (xtime a) (N.shiftr b 1))
  end.

Lemma mul_loop_psum n a b acc : mul_loop n a b acc = N.lxor acc (psum n a b).
Proof.
  revert a b acc. induction n as [|n IH]; intros a b acc; simpl; [by rewrite N.lxor_0_r|].
  rewrite IH, land_1. destruct (N.testbit b 0); simpl; [by rewrite N.lxor_assoc|]. by rewrite N.lxor_0_l.
Qed.

Lemma mul_const_psum a b : gf256_mul_const a b = psum 8 a b.
Proof. unfold gf256_mul_const. by rewrite mul_loop_psum, N.lxor_0_l. Qed.

Lemma psum_lxor n a a' b : psum n (N.lxor a a') b = N.lxor (psum n a b) (psum n a' b).
Proof.
  revert a a' b. induction n as [|n IH]; intros a a' b; simpl; [done|]. rewrite xtime_lxor, IH.
  destruct (N.testbit b 0); xor_bits.
Qed.

Lemma psum_xtime n a b : psum n (xtime a) b = xtime (psum n a b).
Proof.
  revert a b. induction n as [|n IH]; intros a b; simpl; [done|]. rewrite IH, xtime_lxor. by destruct (N.testbit b 0).
Qed.

Lemma psum_xtimes n k a b : psum n (xtimes k a) b = xtimes k (psum n a b).
Proof. induction k as [|k IH]; [done|]. simpl. by rewrite psum_xtime, IH. Qed.

Lemma psum_0_l n b : psum n 0 b = 0.
Proof. revert b. induction n as [|n IH]; intros b; simpl; [done|]. rewrite IH. by destruct (N.testbit b 0). Qed.

Lemma psum_0_r n a : psum n a 0 = 0.
Proof. revert a. induction n as [|n IH]; intros a; simpl; [done|]. by rewrite IH. Qed.

Lemma psum_byte n a b : a < 256 → psum n a b < 256.
Proof.
  revert a b. induction n as [|n IH]; intros a b Ha; simpl; [done|]. apply lxor_byte.
  - by destruct (N.testbit b 0).
  - apply IH, xtime_byte.
Qed.

(** ** Facts checked on every byte *)

Definition bytes256 : list N := N.of_nat <$> seq 0 256.

Lemma forall_bytes (P : N → bool) : forallb P bytes256 = true → ∀ a, a < 256 → P a = true.
Proof.
  intros Hall a Ha. rewrite forallb_forall in Hall. apply Hall, list_elem_of_In, list_elem_of_fmap.
  exists (N.to_nat a). split; [lia|]. apply elem_of_seq. lia.
Qed.

Lemma psum_1_l b : b < 256 → psum 8 1 b = b.
Proof. intros Hb. apply N.eqb_eq. revert b Hb. apply forall_bytes. vm_compute. done. Qed.

Definition log_entry_ok (a : N) : bool :=
  (a =? 0) || ((LOG !!! N.to_nat a <? 255) && (EXP !!! N.to_nat (LOG !!! N.to_nat a) =? a)).

Lemma log_entries_ok : forallb log_entry_ok bytes256 = true.
Proof. vm_compute. reflexivity. Qed.

Lemma log_range a : 0 < a → a < 256 → LOG !!! N.to_nat a < 255 ∧ EXP !!! N.to_nat (LOG !!! N.to_nat a) = a.
Proof.
  intros Hp Ha. pose proof (forall_bytes _ log_entries_ok a Ha) as H. unfold log_entry_ok in H.
  destruct (N.eqb_spec a 0); [lia|]. rewrite orb_false_l in H. by apply andb_true_iff in H as [?%N.ltb_lt ?%N.eqb_eq].
Qed.

Lemma exp_powers k : (k ≤ 510)%nat → EXP !!! k = xtimes k 1.
Proof.
  intros Hk. assert (Hstep : ∀ i, (i < 510)%nat → EXP !!! (S i) = xtime (EXP !!! i)).
  { assert (Hall : forallb (λ i, EXP !!! (S i) =? xtime (EXP !!! i)) (seq 0 510) = true) by (vm_compute; done).
    rewrite forallb_forall in Hall. intros i Hi. apply N.eqb_eq, Hall, in_seq. lia. }
  induction k as [|k IH]; [done|]. rewrite Hstep, IH by lia. done.
Qed.

Lemma generator_order : xtimes 255 1 = 1.
Proof. rewrite <-exp_powers by lia. done. Qed.

(** Every nonzero byte is a power of the generator, at its logarithm. *)
Lemma log_power a : 0 < a → a < 256 → a = xtimes (N.to_nat (LOG !!! N.to_nat a)) 1.
Proof. intros Hp Ha. destruct (log_range a Hp Ha) as [Hl He]. rewrite <-He at 1. apply exp_powers. lia. Qed.

Lemma poly_rem_shift a i : a < 256 → (i < 8)%nat → poly_rem 8 (N.shiftl a (N.of_nat i)) = xtimes i a.
Proof.
  intros Ha Hi. pose proof (forall_bytes (λ a, forallb (λ i, poly_rem 8 (N.shiftl a (N.of_nat i)) =? xtimes i a) (seq 0 8))
    ltac:(vm_compute; done) a Ha) as H. rewrite forallb_forall in H. apply N.eqb_eq, H, in_seq. lia.
Qed.

(** ** Multiplication *)

Lemma mul_field_psum a b : a < 256 → b < 256 → mul_field a b = psum 8 a b.
Proof.
  intros Ha Hb. unfold mul_field. destruct (N.eqb_spec a 0) as [->|Ha0]; [by rewrite psum_0_l|].
  destruct (N.eqb_spec b 0) as [->|Hb0]; [by rewrite psum_0_r|]. simpl orb.
  destruct (log_range a) as [Hla _]; [lia|done|]. destruct (log_range b) as [Hlb _]; [lia|done|].
  rewrite exp_powers by lia. rewrite N2Nat.inj_add, xtimes_add, <-(log_power b) by lia.
  rewrite (log_power a) at 2 by lia. by rewrite psum_xtimes, psum_1_l.
Qed.

Lemma poly_rem_lxor n u v : poly_rem n (N.lxor u v) = N.lxor (poly_rem n u) (poly_rem n v).
Proof.
  revert u v. induction n as [|n IH]; intros u v; simpl; [done|]. rewrite <-IH. f_equal. rewrite N.lxor_spec.
  destruct (N.testbit u _), (N.testbit v _); simpl; xor_bits.
Qed.

Lemma poly_rem_0 n : poly_rem n 0 = 0.
Proof. induction n as [|n IH]; [done|]. cbn [poly_rem]. by rewrite N.bits_0. Qed.

Lemma poly_mul_rem n a b i : a < 256 → (i + n ≤ 8)%nat →
  poly_rem 8 (poly_mul n (N.shiftl a (N.of_nat i)) b) = psum n (xtimes i a) b.
Proof.
  intros Ha. revert b i. induction n as [|n IH]; intros b i Hi; [done|]. cbn [poly_mul psum].
  rewrite poly_rem_lxor. f_equal.
  - destruct (N.testbit b 0); [by apply poly_rem_shift; lia|apply poly_rem_0].
  - rewrite N.shiftl_shiftl, N.add_1_r, <-Nat2N.inj_succ. rewrite IH by lia. done.
Qed.

Lemma gf_mul_ref_psum a b : a < 256 → gf_mul_ref a b = psum 8 a b.
Proof. intros Ha. pose proof (poly_mul_rem 8 a b 0 Ha ltac:(lia)) as Hr. by rewrite N.shiftl_0_r in Hr. Qed.

Lemma mul_table_at c x : c < 256 → x < 256 → table_at (mul_table_for c) x = gf256_mul_const x c.
Proof.
  intros Hc Hx. unfold table_at, mul_table_for, build_mul_tables.
  erewrite list_lookup_total_correct; [|erewrite list_lookup_total_correct;
    [|rewrite list_lookup_fmap, lookup_seq_lt by lia; reflexivity];
    rewrite list_lookup_fmap, lookup_seq_lt by lia; reflexivity].
  f_equal; lia.
Qed.

(** On every pair of bytes the three multiplications of the module agree and
    are multiplication of polynomials over GF(2) modulo
    [x^8 + x^4 + x^3 + x^2 + 1]: through the logarithm tables ([mul_field]), by
    shift and add ([gf256_mul_const]), and by lookup in the precomputed
    multiplication tables. *)
Theorem gf256_mul_is_polynomial a b : a < 256 → b < 256 →
  mul_field a b = gf_mul_ref a b ∧ gf256_mul_const a b = gf_mul_ref a b ∧
  table_at (mul_table_for b) a = gf_mul_ref a b ∧ gf_mul_ref a b < 256.
Proof.
  intros Ha Hb. rewrite mul_table_at, mul_const_psum, mul_field_psum, gf_mul_ref_psum by done.
  auto using psum_byte.
Qed.

Lemma gf256_mul_is_polynomial_witness :
  mul_field 83 202 = gf_mul_ref 83 202 ∧ gf256_mul_const 83 202 = gf_mul_ref 83 202 ∧
  table_at (mul_table_for 202) 83 = gf_mul_ref 83 202 ∧ gf_mul_ref 83 202 < 256.
Proof. apply (gf256_mul_is_polynomial 83 202); reflexivity. Defined.

(** ** Field laws *)

Lemma mul_field_byte a b : a < 256 → b < 256 → mul_field a b < 256.
Proof. intros. rewrite mul_field_psum by done. by apply psum_byte. Qed.

Lemma mul_field_pow_l k b : b < 256 → mul_field (xtimes k 1) b = xtimes k b.
Proof. intros Hb. rewrite mul_field_psum by (done || by apply xtimes_byte). by rewrite psum_xtimes, psum_1_l. Qed.

Lemma mul_field_0_l b : mul_field 0 b = 0.
Proof. done. Qed.

Lemma mul_field_0_r a : mul_field a 0 = 0.
Proof. unfold mul_field. by rewrite orb_true_r. Qed.

(** A byte is zero or a power of the generator. *)
Lemma byte_cases a : a < 256 → a = 0 ∨ ∃ k, a = xtimes k 1.
Proof. intros Ha. destruct (decide (a = 0)); [by left|]. right. eexists. apply log_power; lia. Qed.

Lemma mul_field_comm a b : a < 256 → b < 256 → mul_field a b = mul_field b a.
Proof.
  intros Ha Hb. destruct (byte_cases a Ha) as [->|[i ->]]; [by rewrite mul_field_0_r|].
  destruct (byte_cases b Hb) as [->|[j ->]]; [by rewrite mul_field_0_r|].
  rewrite !mul_field_pow_l, <-!xtimes_add by (apply xtimes_byte; done). f_equal. lia.
Qed.

Lemma mul_field_assoc a b c : a < 256 → b < 256 → c < 256 → mul_field (mul_field a b) c = mul_field a (mul_field b c).
Proof.
  intros Ha Hb Hc. destruct (byte_cases a Ha) as [->|[i ->]]; [done|].
  rewrite !mul_field_pow_l by auto using mul_field_byte. rewrite !mul_field_psum by auto using xtimes_byte.
  by rewrite psum_xtimes.
Qed.

Lemma mul_field_distr a b c : a < 256 → b < 256 → c < 256 →
  mul_field (gf_add a b) c = gf_add (mul_field a c) (mul_field b c).
Proof. intros. unfold gf_add. rewrite !mul_field_psum by auto using lxor_byte. apply psum_lxor. Qed.

Lemma mul_field_1_l a : a < 256 → mul_field 1 a = a.
Proof. intros. by apply (mul_field_pow_l 0). Qed.

Lemma inv_spec a : 0 < a → a < 256 → ∃ i, inv a = Done i ∧ 0 < i ∧ i < 256 ∧ mul_field a i = 1.
Proof.
  intros Hp Ha. unfold inv. destruct (N.eqb_spec a 0); [lia|]. destruct (log_range a Hp Ha) as [Hl _].
  eexists. split; [done|]. rewrite exp_powers by lia. set (k := N.to_nat (255 - LOG !!! N.to_nat a)).
  assert (Hb : xtimes k 1 < 256) by (by apply xtimes_byte).
  assert (Hm : mul_field a (xtimes k 1) = 1).
  { rewrite (log_power a) at 1 by lia. rewrite mul_field_pow_l, <-xtimes_add by done.
    replace (N.to_nat (LOG !!! N.to_nat a) + k)%nat with 255%nat by lia. apply generator_order. }
  split; [|done]. destruct (decide (xtimes k 1 = 0)) as [E|E]; [|lia]. rewrite E, mul_field_0_r in Hm. done.
Qed.

Lemma xtimes_mod k : xtimes k 1 = xtimes (k mod 255) 1.
Proof.
  rewrite (Nat.div_mod_eq k 255) at 1. rewrite Nat.add_comm, xtimes_add. f_equal.
  induction (k / 255)%nat as [|q IH]; [done|]. rewrite Nat.mul_succ_r, xtimes_add, generator_order. done.
Qed.

(** [e]-fold product. *)
Definition gf_power (a : N) (e : nat) : N := Nat.iter e (mul_field a) 1.

Lemma pow_spec a e : a < 256 → e < 256 → pow a e = gf_power a (N.to_nat e).
Proof.
  intros Ha He. unfold pow. destruct (N.eqb_spec e 0) as [->|He0]; [done|].
  destruct (N.eqb_spec a 0) as [->|Ha0].
  { unfold gf_power. replace (N.to_nat e) with (S (N.to_nat (e - 1))) by lia. done. }
  destruct (log_range a) as [Hl _]; [lia|done|].
  assert (Hmod : (LOG !!! N.to_nat a * e) mod 255 < 255) by (by apply N.mod_lt).
  rewrite exp_powers by lia. rewrite N2Nat.inj_mod, N2Nat.inj_mul, <-xtimes_mod.
  unfold gf_power. induction (N.to_nat e) as [|m IH]; [by rewrite Nat.mul_0_r|].
  rewrite Nat.mul_succ_r, Nat.add_comm, xtimes_add, IH. simpl.
  assert (Hy : Nat.iter m (mul_field a) 1 < 256).
  { clear IH. induction m as [|m IH]; [done|]. by apply mul_field_byte. }
  rewrite <-(mul_field_pow_l (N.to_nat (LOG !!! N.to_nat a)) _ Hy). by rewrite <-log_power by lia.
Qed.

(** Bytes with XOR and [mul_field] form a field: both operations are
    commutative and associative, multiplication distributes over addition, 0 and 1
    are neutral, every element is its own negative, every nonzero element has the
    inverse [inv] returns and division by it inverts multiplication, inverting zero
    panics, and [pow] is repeated multiplication for every exponent. *)
Theorem gf256_is_field a b c e : a < 256 → b < 256 → c < 256 → e < 256 →
  (gf_add a b = gf_add b a ∧ gf_add (gf_add a b) c = gf_add a (gf_add b c) ∧ gf_add 0 a = a ∧ gf_sub a a = 0) ∧
  (mul_field a b = mul_field b a ∧ mul_field (mul_field a b) c = mul_field a (mul_field b c) ∧ mul_field 1 a = a) ∧
  mul_field (gf_add a b) c = gf_add (mul_field a c) (mul_field b c) ∧
  (if a =? 0 then inv a = Panics ∧ div_field b a = Panics
   else ∃ i q, inv a = Done i ∧ mul_field a i = 1 ∧ div_field b a = Done q ∧ mul_field q a = b) ∧
  pow a e = gf_power a (N.to_nat e).
Proof.
  intros Ha Hb Hc He. split.
  { unfold gf_sub, gf_add. split; [apply N.lxor_comm|]. split; [apply N.lxor_assoc|].
    split; [apply N.lxor_0_l|apply N.lxor_nilpotent]. }
  split; [auto using mul_field_comm, mul_field_assoc, mul_field_1_l|].
  split; [by apply mul_field_distr|]. split; [|by apply pow_spec].
  destruct (N.eqb_spec a 0) as [->|Ha0]; [done|]. destruct (inv_spec a) as (i & Hi & _ & Hib & Hm); [lia|done|].
  exists i, (mul_field b i). unfold div_field. rewrite Hi. split_and!; try done.
  rewrite mul_field_assoc, (mul_field_comm i a), Hm, mul_field_comm by done. by apply mul_field_1_l.
Qed.

Lemma gf256_is_field_witness :
  (gf_add 87 131 = gf_add 131 87 ∧ gf_add (gf_add 87 131) 19 = gf_add 87 (gf_add 131 19) ∧ gf_add 0 87 = 87 ∧ gf_sub 87 87 = 0) ∧
  (mul_field 87 131 = mul_field 131 87 ∧ mul_field (mul_field 87 131) 19 = mul_field 87 (mul_field 131 19) ∧ mul_field 1 87 = 87) ∧
  mul_field (gf_add 87 131) 19 = gf_add (mul_field 87 19) (mul_field 131 19) ∧
  (if 87 =? 0 then inv 87 = Panics ∧ div_field 131 87 = Panics
   else ∃ i q, inv 87 = Done i ∧ mul_field 87 i = 1 ∧ div_field 131 87 = Done q ∧ mul_field q 87 = 131) ∧
  pow 87 254 = gf_power 87 (N.to_nat 254).
Proof. apply (gf256_is_field 87 131 19 254); reflexivity. Defined.

(** ** Words and chunks *)

Lemma from_le_lxor d s : length d = length s → bytes_ok d → bytes_ok s →
  N.lxor (from_le_bytes d) (from_le_bytes s) = from_le_bytes (zip_with N.lxor d s).
Proof.
  intros Hl Hd Hs. revert s Hl Hs. induction Hd as [|a d Ha Hd IH]; intros s Hl Hs; destruct s as [|b s]; try done.
  inversion_clear Hs as [|? ? Hb Hs']. simpl. rewrite <-IH by (done || simpl in Hl; lia).
  assert (Hsplit : ∀ x y, x < 256 → x + 256 * y = N.lxor x (N.shiftl y 8)).
  { intros x y Hx. rewrite N.shiftl_mul_pow2, (N.mul_comm y). change (2 ^ 8) with 256. apply N.add_nocarry_lxor.
    apply N.bits_inj. intros i. rewrite N.land_spec, N.bits_0, N.mul_comm. change 256 with (2 ^ 8).
    destruct (N.lt_ge_cases i 8) as [Hi|Hi]; [by rewrite N.mul_pow2_bits_low, andb_false_r|].
    rewrite <-(N.mod_small x (2 ^ 8)), N.mod_pow2_bits_high by done. done. }
  rewrite !Hsplit by auto using lxor_byte. rewrite N.shiftl_lxor. apply lxor_swap.
Qed.

Lemma zip_lxor_ok d s : bytes_ok d → bytes_ok s → bytes_ok (zip_with N.lxor d s).
Proof.
  intros Hd. revert s. induction Hd as [|a d Ha Hd IH]; intros s Hs; [constructor|].
  destruct Hs as [|b s Hb Hs]; [constructor|]. constructor; [by apply lxor_byte|by apply IH].
Qed.

Lemma zip_with_reverse {A B C} (f : A → B → C) l k : length l = length k →
  zip_with f (reverse l) (reverse k) = reverse (zip_with f l k).
Proof.
  revert k. induction l as [|a l IH]; intros [|b k] Hl; try done. simpl. rewrite !reverse_cons.
  rewrite zip_with_app by (rewrite !length_reverse; simpl in Hl; lia). rewrite IH by (simpl in Hl; lia). done.
Qed.

Lemma xor_word_zip `{!Target} d s : length d = 8%nat → length s = 8%nat → bytes_ok d → bytes_ok s →
  xor_word d s = zip_with N.lxor d s.
Proof.
  intros Hd Hs Hdo Hso. unfold xor_word, to_ne_bytes, from_ne_bytes.
  assert (Hlen : length (zip_with N.lxor d s) = 8%nat) by (rewrite length_zip_with; lia).
  destruct target_big_endian.
  - unfold to_be_bytes, from_be_bytes.
    rewrite from_le_lxor, zip_with_reverse by (rewrite ?length_reverse; (lia || by apply Forall_reverse)).
    rewrite <-Hlen, <-(length_reverse (zip_with N.lxor d s)), to_from_le by (apply Forall_reverse; by apply zip_lxor_ok).
    apply reverse_involutive.
  - rewrite from_le_lxor by (done || lia). rewrite <-Hlen. apply to_from_le. by apply zip_lxor_ok.
Qed.

Lemma zip_in_place_eq {A B} (f : A → B → A) ds ss : length ds = length ss → zip_in_place f ds ss = zip_with f ds ss.
Proof. intros Hl. unfold zip_in_place. rewrite drop_ge by lia. apply app_nil_r. Qed.

(** Two slices of the same length are cut at the same places; a kernel that is
    right on full chunks, followed by the element-wise rest, is right on all. *)
Lemma chunks_zip (n : nat) (g : N → N → N) (F : list N → list N → list N) d s :
  (0 < n)%nat → length d = length s → bytes_ok d → bytes_ok s →
  (∀ x y, length x = n → length y = n → bytes_ok x → bytes_ok y → F x y = zip_with g x y) →
  ∃ dc dr sc sr, chunks_exact n d = (dc, dr) ∧ chunks_exact n s = (sc, sr) ∧ length dc = length sc ∧
    length dr = length sr ∧ bytes_ok dr ∧ bytes_ok sr ∧
    zip_with g d s = concat (zip_with F dc sc) ++ zip_with g dr sr.
Proof.
  intros Hn Hl Hd Hs HF. unfold chunks_exact. rewrite <-Hl.
  generalize (length d) at 1 2 as fuel. intros fuel. revert d s Hl Hd Hs.
  induction fuel as [|fuel IH]; intros d s Hl Hd Hs; cbn [chunks_fuel].
  { exists [], d, [], s. done. }
  rewrite <-Hl. case_bool_decide; [|by exists [], d, [], s].
  destruct (IH (drop n d) (drop n s)) as (dc & dr & sc & sr & -> & -> & ? & ? & ? & ? & Hz);
    [rewrite !length_drop; lia|by apply Forall_drop..|].
  exists (take n d :: dc), dr, (take n s :: sc), sr. split_and!; try done; [simpl; lia|].
  simpl. rewrite HF by (rewrite ?length_take; (lia || by apply Forall_take)).
  rewrite <-app_assoc, <-Hz, <-zip_with_app by (rewrite !length_take; lia). by rewrite !take_drop.
Qed.

Lemma zip_with_take_drop {A B C} (g : A → B → C) k l m : zip_with g l m = zip_with g (take k l) (take k m) ++ zip_with g (drop k l) (drop k m).
Proof.
  revert l m. induction k as [|k IH]; intros [|a l] [|b m]; simpl; try done.
  - by destruct (drop k l).
  - by rewrite <-IH.
Qed.

Section kernel_facts.
Context `{!Target}.
Implicit Types (d s : list N).

Lemma xor_chunk_8_zip d s : length d = 8%nat → length s = 8%nat → bytes_ok d → bytes_ok s →
  xor_chunk_8_in_place d s = zip_with N.lxor d s.
Proof.
  intros Hd Hs ? ?. unfold xor_chunk_8_in_place. rewrite !bool_decide_eq_true_2 by done. by apply xor_word_zip.
Qed.

Lemma xor_chunk_32_zip d s : length d = 32%nat → length s = 32%nat → bytes_ok d → bytes_ok s →
  xor_chunk_32_in_place d s = zip_with N.lxor d s.
Proof.
  intros Hd Hs ? ?. unfold xor_chunk_32_in_place. rewrite !bool_decide_eq_true_2 by done. simpl negb. cbn [orb].
  assert (Hw : ∀ a b, b = (a + 8)%nat → (b ≤ 32)%nat →
    xor_word (sub_slice d a b) (sub_slice s a b) = zip_with N.lxor (take 8 (drop a d)) (take 8 (drop a s))).
  { intros a b -> Ha. unfold sub_slice. replace (a + 8 - a)%nat with 8%nat by lia.
    apply xor_word_zip; rewrite ?length_take, ?length_drop; try lia; by apply Forall_take, Forall_drop. }
  rewrite (Hw 0%nat 8%nat), (Hw 8%nat 16%nat), (Hw 16%nat 24%nat), (Hw 24%nat 32%nat) by lia. rewrite !drop_0.
  rewrite (zip_with_take_drop N.lxor 8 d s). f_equal.
  rewrite (zip_with_take_drop N.lxor 8 (drop 8 d)). rewrite !drop_drop. simpl Nat.add. f_equal.
  rewrite (zip_with_take_drop N.lxor 8 (drop 16 d)). rewrite !drop_drop. simpl Nat.add. f_equal.
  rewrite !(take_ge (drop 24 _)) by (rewrite length_drop; lia). done.
Qed.

Lemma add_slice_loops_zip d s : length d = length s → bytes_ok d → bytes_ok s → add_slice_loops d s = zip_with N.lxor d s.
Proof.
  intros Hl Hd Hs. unfold add_slice_loops.
  destruct (chunks_zip 32 N.lxor xor_chunk_32_in_place d s) as (dc & dr & sc & sr & -> & -> & ? & ? & ? & ? & ->);
    [lia|done..|apply xor_chunk_32_zip|].
  destruct (chunks_zip 8 N.lxor xor_chunk_8_in_place dr sr) as (dc2 & dr2 & sc2 & sr2 & -> & -> & ? & ? & ? & ? & ->);
    [lia|done..|apply xor_chunk_8_zip|].
  by rewrite !zip_in_place_eq by done.
Qed.

(** The loop over both lanes XORs the range it passes over. *)
Lemma update_range_zip f g d s0 s a b : (a ≤ b)%nat → (b ≤ length d)%nat → length s0 = length d → length s = length d →
  d = zip_with g (take a s0) (take a s) ++ drop a s0 → f (sub_slice s0 a b) (sub_slice s a b) = zip_with g (sub_slice s0 a b) (sub_slice s a b) →
  update_range f d s a b = zip_with g (take b s0) (take b s) ++ drop b s0.
Proof.
  intros Hab Hb Hl0 Hl Hd Hf. unfold update_range.
  assert (Hlz : length (zip_with g (take a s0) (take a s)) = a) by (rewrite length_zip_with, !length_take; lia).
  assert (Hsub : sub_slice d a b = sub_slice s0 a b).
  { unfold sub_slice. rewrite Hd, drop_app_ge, Hlz, Nat.sub_diag, drop_0 by lia. done. }
  rewrite Hsub, Hf. assert (Htake : take a d = zip_with g (take a s0) (take a s)).
  { rewrite Hd, take_app_le, take_ge by lia. done. }
  assert (Hdrop : drop b d = drop b s0).
  { rewrite Hd, drop_app_ge, Hlz, drop_drop by lia. f_equal. lia. }
  rewrite Htake, Hdrop, app_assoc. f_equal. unfold sub_slice.
  rewrite (zip_with_take_drop g a (take b s0)), !take_take, !skipn_firstn_comm. by replace (a `min` b)%nat with a by lia.
Qed.

Lemma lanes_loop_zip fuel step common f o da sa db sb da0 db0 : (0 < step)%nat → (common - o < step * S fuel)%nat →
  (o ≤ common)%nat → length da0 = common → length sa = common → length db0 = common → length sb = common →
  bytes_ok da0 → bytes_ok sa → bytes_ok db0 → bytes_ok sb →
  (∀ x y, length x = step → length y = step → bytes_ok x → bytes_ok y → f x y = zip_with N.lxor x y) →
  da = zip_with N.lxor (take o da0) (take o sa) ++ drop o da0 →
  db = zip_with N.lxor (take o db0) (take o sb) ++ drop o db0 →
  ∃ o', lanes_loop fuel step common f o da sa db sb =
    (o', zip_with N.lxor (take o' da0) (take o' sa) ++ drop o' da0, zip_with N.lxor (take o' db0) (take o' sb) ++ drop o' db0) ∧
    (o ≤ o')%nat ∧ (o' ≤ common)%nat ∧ (common < o' + step)%nat.
Proof.
  intros Hstep Hfuel Ho Hla Hlsa Hlb Hlsb Hda Hsa Hdb Hsb Hf. revert o da db Hfuel Ho.
  induction fuel as [|fuel IH]; intros o da db Hfuel Ho Ha Hb; cbn [lanes_loop].
  { exists o. subst. split; [done|lia]. }
  case_bool_decide as Hle; [|exists o; subst; split; [done|lia]].
  assert (Hlen : ∀ l k : list N, length l = length k → (o ≤ length l)%nat →
            length (zip_with N.lxor (take o l) (take o k) ++ drop o l) = length l).
  { intros l k Hlk Hol. rewrite length_app, length_zip_with, !length_take, length_drop. lia. }
  assert (Hsub : ∀ l k : list N, length l = common → length k = common → bytes_ok l → bytes_ok k →
    f (sub_slice l o (o + step)) (sub_slice k o (o + step)) = zip_with N.lxor (sub_slice l o (o + step)) (sub_slice k o (o + step))).
  { intros l k ? ? ? ?. apply Hf; unfold sub_slice; rewrite ?length_take, ?length_drop; try lia; by apply Forall_take, Forall_drop. }
  destruct (IH (o + step)%nat (update_range f da sa o (o + step)) (update_range f db sb o (o + step)))
    as (o' & -> & ? & ? & ?); [lia|lia| | |].
  - apply update_range_zip; try done; try lia; [subst da; rewrite Hlen; lia..|by apply Hsub].
  - apply update_range_zip; try done; try lia; [subst db; rewrite Hlen; lia..|by apply Hsub].
  - exists o'. split; [done|]. lia.
Qed.

Lemma add_slices2_scalar_zip da sa db sb : length da = length sa → length db = length sb →
  bytes_ok da → bytes_ok sa → bytes_ok db → bytes_ok sb →
  gf256_add_slices2_scalar da sa db sb = Done (zip_with N.lxor da sa, zip_with N.lxor db sb).
Proof.
  intros Hla Hlb Hda Hsa Hdb Hsb. unfold gf256_add_slices2_scalar. set (c := (length da `min` length db)%nat).
  assert (Hok : ∀ l, bytes_ok l → bytes_ok (take c l)) by (intros; by apply Forall_take).
  assert (Hlen : ∀ l : list N, (c ≤ length l)%nat → length (take c l) = c) by (intros; rewrite length_take; lia).
  destruct (lanes_loop_zip c 32 c xor_chunk_32_in_place 0 (take c da) (take c sa) (take c db) (take c sb) (take c da) (take c db))
    as (o1 & -> & ? & ? & ?); try done; try lia; try (apply Hlen; lia); try (by apply Hok).
  { apply xor_chunk_32_zip. }
  destruct (lanes_loop_zip c 8 c xor_chunk_8_in_place o1 _ (take c sa) _ (take c sb) (take c da) (take c db)
    ltac:(lia) ltac:(lia) ltac:(lia) ltac:(apply Hlen; lia) ltac:(apply Hlen; lia) ltac:(apply Hlen; lia) ltac:(apply Hlen; lia)
    ltac:(by apply Hok) ltac:(by apply Hok) ltac:(by apply Hok) ltac:(by apply Hok) xor_chunk_8_zip eq_refl eq_refl)
    as (o2 & -> & ? & ? & ?).
  destruct (lanes_loop_zip c 1 c xor_byte o2 _ (take c sa) _ (take c sb) (take c da) (take c db)
    ltac:(lia) ltac:(lia) ltac:(lia) ltac:(apply Hlen; lia) ltac:(apply Hlen; lia) ltac:(apply Hlen; lia) ltac:(apply Hlen; lia)
    ltac:(by apply Hok) ltac:(by apply Hok) ltac:(by apply Hok) ltac:(by apply Hok) ltac:(done) eq_refl eq_refl)
    as (o3 & -> & ? & ? & ?).
  assert (o3 = c) as -> by lia.
  assert (Htail : ∀ d s, length d = length s → bytes_ok d → bytes_ok s →
    (if bool_decide (drop c d = []) then Done (drop c d) else gf256_add_slice_scalar (drop c d) (drop c s)) =
      Done (zip_with N.lxor (drop c d) (drop c s))).
  { intros d s Hl Hd Hs. case_bool_decide as E; [by rewrite E|]. unfold gf256_add_slice_scalar.
    rewrite bool_decide_eq_true_2 by (rewrite !length_drop; lia).
    rewrite add_slice_loops_zip; [done|rewrite !length_drop; lia|by apply Forall_drop..]. }
  rewrite (Htail da sa), (Htail db sb) by done. simpl.
  rewrite !(drop_ge (take c _)), !app_nil_r, !take_take, !Nat.min_id by (rewrite length_take; lia).
  by rewrite <-!zip_with_take_drop.
Qed.

(** *** Scaling *)

Lemma chunks_concat {A} (n : nat) (l : list A) : ∃ cs r, chunks_exact n l = (cs, r) ∧ l = concat cs ++ r.
Proof.
  unfold chunks_exact. generalize (length l) at 1 as fuel. intros fuel. revert l.
  induction fuel as [|fuel IH]; intros l; simpl; [by exists [], l|]. case_bool_decide; [|by exists [], l].
  destruct (IH (drop n l)) as (cs & r & -> & Hl). exists (take n l :: cs), r. split; [done|].
  simpl. by rewrite <-app_assoc, <-Hl, take_drop.
Qed.

Lemma mul_with_table_map d t : mul_with_table d t = table_at t <$> d.
Proof.
  unfold mul_with_table. destruct (chunks_concat 8 d) as (cs & r & -> & ->).
  rewrite fmap_app. f_equal. induction cs as [|c cs IH]; [done|]. csimpl. by rewrite fmap_app, IH.
Qed.

Lemma chunks_length {A B} (n : nat) (l : list A) (k : list B) : length l = length k →
  length (chunks_exact n l).1 = length (chunks_exact n k).1.
Proof.
  intros Hl. unfold chunks_exact. rewrite <-Hl. generalize (length l) at 1 2 as fuel. intros fuel. revert l k Hl.
  induction fuel as [|fuel IH]; intros l k Hl; simpl; [done|]. rewrite <-Hl. case_bool_decide; [|done].
  specialize (IH (drop n l) (drop n k) ltac:(rewrite !length_drop; lia)).
  destruct (chunks_fuel fuel n (drop n l)), (chunks_fuel fuel n (drop n k)). simpl in *. lia.
Qed.

Lemma zip_ignore {A B C} (f : A → C) (l : list A) (k : list B) : length l = length k → zip_with (λ a _, f a) l k = f <$> l.
Proof. revert k. induction l as [|a l IH]; intros [|b k] Hl; try done. csimpl. rewrite IH; [done|]. simpl in Hl. lia. Qed.

Lemma concat_fmap {A B} (f : A → B) (cs : list (list A)) : concat ((λ c : list A, f <$> c) <$> cs) = f <$> concat cs.
Proof. induction cs as [|c cs IH]; [done|]. csimpl. by rewrite fmap_app, IH. Qed.

Lemma mul_with_table_wide2_map da db t : mul_with_table_wide2 da db t = (table_at t <$> da, table_at t <$> db).
Proof.
  unfold mul_with_table_wide2. set (c := (length da `min` length db)%nat).
  assert (Hlen : length (take c da) = length (take c db)) by (rewrite !length_take; lia).
  pose proof (chunks_length 8 (take c da) (take c db) Hlen) as Hcl.
  destruct (chunks_concat 8 (take c da)) as (ca & ra & Ea & Ha). destruct (chunks_concat 8 (take c db)) as (cb & rb & Eb & Hb).
  rewrite Ea, Eb in Hcl |- *. simpl in Hcl.
  assert (Htail : ∀ d : list N, (if bool_decide (drop c d = []) then drop c d else mul_with_table (drop c d) t) = table_at t <$> drop c d).
  { intros d. case_bool_decide as E; [by rewrite E|apply mul_with_table_map]. }
  rewrite !Htail, !zip_in_place_eq, !zip_ignore, !concat_fmap by done.
  rewrite !app_assoc, <-!fmap_app, <-Ha, <-Hb, !take_drop. done.
Qed.

(** *** Multiply and add *)

Definition addmul_byte (t : list N) (x y : N) : N := N.lxor x (table_at t y).

(** Every entry of the table is a byte. *)
Definition table_ok (t : list N) : Prop := ∀ x, x < 256 → table_at t x < 256.

Lemma table_map_ok t s : table_ok t → bytes_ok s → bytes_ok (table_at t <$> s).
Proof. intros Ht Hs. apply Forall_fmap. eapply Forall_impl; [exact Hs|]. intros x Hx. by apply Ht. Qed.

Lemma addmul_chunk_zip t d s : table_ok t → length d = 8%nat → length s = 8%nat → bytes_ok d → bytes_ok s →
  addmul_chunk t d s = zip_with (addmul_byte t) d s.
Proof.
  intros Ht Hd Hs Hdo Hso. unfold addmul_chunk. rewrite xor_word_zip by (rewrite ?length_fmap; auto using table_map_ok).
  by rewrite zip_with_fmap_r.
Qed.

Lemma addmul_with_table_zip t d s : table_ok t → length d = length s → bytes_ok d → bytes_ok s →
  addmul_with_table d s t = zip_with (addmul_byte t) d s.
Proof.
  intros Ht Hl Hd Hs. unfold addmul_with_table.
  destruct (chunks_zip 8 (addmul_byte t) (addmul_chunk t) d s) as (dc & dr & sc & sr & -> & -> & ? & ? & ? & ? & ->);
    [lia|done..|by intros; apply addmul_chunk_zip|].
  by rewrite !zip_in_place_eq by done.
Qed.

Lemma addmul_with_table_wide2_zip t da sa db sb : table_ok t → length da = length sa → length db = length sb →
  bytes_ok da → bytes_ok sa → bytes_ok db → bytes_ok sb →
  addmul_with_table_wide2 da sa db sb t = (zip_with (addmul_byte t) da sa, zip_with (addmul_byte t) db sb).
Proof.
  intros Ht Hla Hlb Hda Hsa Hdb Hsb. unfold addmul_with_table_wide2. set (c := (length da `min` length db)%nat).
  destruct (chunks_zip 8 (addmul_byte t) (addmul_chunk t) (take c da) (take c sa))
    as (dca & dra & sca & sra & Ea & Esa & Hca & Hra & _ & _ & Hza);
    [lia|rewrite !length_take; lia|by apply Forall_take..|by intros; apply addmul_chunk_zip|].
  destruct (chunks_zip 8 (addmul_byte t) (addmul_chunk t) (take c db) (take c sb))
    as (dcb & drb & scb & srb & Eb & Esb & Hcb & Hrb & _ & _ & Hzb);
    [lia|rewrite !length_take; lia|by apply Forall_take..|by intros; apply addmul_chunk_zip|].
  pose proof (chunks_length 8 (take c da) (take c db) ltac:(rewrite !length_take; lia)) as Hab.
  rewrite Ea, Esa, Eb, Esb. rewrite Ea, Eb in Hab. simpl in Hab.
  assert (Htail : ∀ d s, length d = length s → bytes_ok d → bytes_ok s →
    (if bool_decide (drop c d = []) then drop c d else addmul_with_table (drop c d) (drop c s) t) =
      zip_with (addmul_byte t) (drop c d) (drop c s)).
  { intros d s Hl Hd Hs. case_bool_decide as E; [by rewrite E|].
    apply addmul_with_table_zip; [done|rewrite !length_drop; lia|by apply Forall_drop..]. }
  rewrite !Htail by done. rewrite !(take_ge sca), !(take_ge scb) by lia. rewrite !zip_in_place_eq by done.
  change (λ x y, N.lxor x (table_at t y)) with (addmul_byte t).
  rewrite !app_assoc, <-Hza, <-Hzb, <-!zip_with_take_drop. done.
Qed.

End kernel_facts.

(** Scaling a slice element by element, and adding two slices. *)
Definition scale (c : N) (d : list N) : list N := (λ x, gf_mul_ref x c) <$> d.
Definition add_bytes (d s : list N) : list N := zip_with gf_add d s.

Lemma mul_table_ok c : c < 256 → table_ok (mul_table_for c).
Proof. intros Hc x Hx. rewrite mul_table_at, mul_const_psum by done. by apply psum_byte. Qed.

Lemma table_scale c d : c < 256 → bytes_ok d → table_at (mul_table_for c) <$> d = scale c d.
Proof.
  intros Hc Hd. unfold scale. induction Hd as [|x d Hx Hd IH]; [done|]. csimpl. rewrite IH. f_equal.
  by rewrite mul_table_at, mul_const_psum, gf_mul_ref_psum.
Qed.

Lemma scale_0 d : bytes_ok d → scale 0 d = replicate (length d) 0.
Proof.
  intros Hd. unfold scale. induction Hd as [|x d Hx Hd IH]; [done|]. csimpl. rewrite IH.
  by rewrite gf_mul_ref_psum, psum_0_r.
Qed.

Lemma psum_1_r a : a < 256 → psum 8 a 1 = a.
Proof. intros Ha. rewrite <-mul_field_psum, mul_field_comm by done. by apply mul_field_1_l. Qed.

Lemma scale_1 d : bytes_ok d → scale 1 d = d.
Proof.
  intros Hd. unfold scale. induction Hd as [|x d Hx Hd IH]; [done|]. csimpl. rewrite IH.
  by rewrite gf_mul_ref_psum, psum_1_r.
Qed.

Lemma scale_ok c d : bytes_ok d → bytes_ok (scale c d).
Proof.
  intros Hd. unfold scale. apply Forall_fmap. eapply Forall_impl; [exact Hd|]. intros x Hx. simpl.
  rewrite gf_mul_ref_psum by done. by apply psum_byte.
Qed.

Lemma add_zero d n : (length d ≤ n)%nat → add_bytes d (replicate n 0) = d.
Proof.
  unfold add_bytes. revert n. induction d as [|x d IH]; intros [|n] Hn; simpl in *; try lia; try done.
  rewrite IH by lia. unfold gf_add. by rewrite N.lxor_0_r.
Qed.

Lemma addmul_table_eq c d s : c < 256 → bytes_ok s →
  zip_with (addmul_byte (mul_table_for c)) d s = add_bytes d (scale c s).
Proof.
  intros Hc Hs. rewrite <-(table_scale c s) by done. unfold add_bytes. rewrite zip_with_fmap_r. done.
Qed.

Section slices.
Context `{!Target}.
Implicit Types (d s : list N).

Lemma mul_slice_correct d c : c < 256 → bytes_ok d → gf256_mul_slice_scalar d c = scale c d.
Proof.
  intros Hc Hd. unfold gf256_mul_slice_scalar. destruct (N.eqb_spec c 0) as [->|]; [by rewrite scale_0|].
  destruct (N.eqb_spec c 1) as [->|]; [by rewrite scale_1|]. rewrite mul_with_table_map. by apply table_scale.
Qed.

Lemma add_slice_correct d s : length d = length s → bytes_ok d → bytes_ok s →
  gf256_add_slice_scalar d s = Done (add_bytes d s).
Proof.
  intros Hl Hd Hs. unfold gf256_add_slice_scalar. rewrite bool_decide_eq_true_2 by done. by rewrite add_slice_loops_zip.
Qed.

Lemma addmul_slice_correct d s c : length d = length s → c < 256 → bytes_ok d → bytes_ok s →
  gf256_addmul_slice_scalar d s c = Done (add_bytes d (scale c s)).
Proof.
  intros Hl Hc Hd Hs. unfold gf256_addmul_slice_scalar. rewrite bool_decide_eq_true_2 by done. simpl negb.
  destruct (N.eqb_spec c 0) as [->|]; [by rewrite scale_0, add_zero by (done || lia)|].
  destruct (N.eqb_spec c 1) as [->|]; [by rewrite scale_1, add_slice_correct|].
  rewrite addmul_with_table_zip by auto using mul_table_ok. by rewrite addmul_table_eq.
Qed.

(** The bulk kernels compute the element-wise field operations.  For slices of
    any length (full 32-byte and 8-byte words, and tails), any scalar, either byte
    order and any two-lane policy: [add], [mul] and [addmul] on one slice are XOR,
    scaling and adding a scaled slice; the two-lane variants do the same to both
    lanes whether the policy runs them one after the other or fused; and a length
    mismatch panics before anything is written. *)
Theorem gf256_slices_correct (policy : DualKernelPolicy) da sa db sb c : c < 256 →
  bytes_ok da → bytes_ok sa → bytes_ok db → bytes_ok sb →
  gf256_mul_slice_scalar da c = scale c da ∧
  gf256_mul_slices2 policy da db c = (scale c da, scale c db) ∧
  (if bool_decide (length da = length sa) then
     gf256_add_slice_scalar da sa = Done (add_bytes da sa) ∧
     gf256_addmul_slice_scalar da sa c = Done (add_bytes da (scale c sa))
   else gf256_add_slice_scalar da sa = Panics ∧ gf256_addmul_slice_scalar da sa c = Panics) ∧
  (if bool_decide (length da = length sa) && bool_decide (length db = length sb) then
     gf256_add_slices2 da sa db sb = Done (add_bytes da sa, add_bytes db sb) ∧
     gf256_addmul_slices2 policy da sa db sb c = Done (add_bytes da (scale c sa), add_bytes db (scale c sb))
   else gf256_add_slices2 da sa db sb = Panics ∧ gf256_addmul_slices2 policy da sa db sb c = Panics).
Proof.
  intros Hc Hda Hsa Hdb Hsb. split; [by apply mul_slice_correct|]. split.
  { unfold gf256_mul_slices2. destruct (N.eqb_spec c 0) as [->|]; [by rewrite !scale_0|].
    destruct (N.eqb_spec c 1) as [->|]; [by rewrite !scale_1|].
    rewrite !mul_with_table_map, mul_with_table_wide2_map, !table_scale by done. by destruct (_.1). }
  split.
  { case_bool_decide; [auto using add_slice_correct, addmul_slice_correct|].
    unfold gf256_add_slice_scalar, gf256_addmul_slice_scalar. by rewrite bool_decide_eq_false_2. }
  unfold gf256_addmul_slices2, gf256_add_slices2.
  destruct (bool_decide_reflect (length da = length sa)); [|done].
  destruct (bool_decide_reflect (length db = length sb)); [|done]. simpl.
  rewrite add_slices2_scalar_zip by done. split; [done|].
  destruct (N.eqb_spec c 0) as [->|]; [by rewrite !scale_0, !add_zero by (done || lia)|].
  destruct (N.eqb_spec c 1) as [->|]; [by rewrite !scale_1|].
  rewrite !addmul_slice_correct, addmul_with_table_wide2_zip, !addmul_table_eq by auto using mul_table_ok.
  by destruct (_.1).
Qed.

End slices.

#[local] Instance little_target : Target := {| target_big_endian := false |}.

Lemma gf256_slices_correct_witness :
  let policy := mkPolicy Auto 0 1000 0 1000 0 4 in
  let da := N.of_nat <$> seq 0 45 in
  let sa := N.of_nat <$> seq 100 45 in
  let db := N.of_nat <$> seq 50 41 in
  let sb := N.of_nat <$> seq 3 41 in
  gf256_mul_slice_scalar da 77 = scale 77 da ∧
  gf256_mul_slices2 policy da db 77 = (scale 77 da, scale 77 db) ∧
  (if bool_decide (length da = length sa) then
     gf256_add_slice_scalar da sa = Done (add_bytes da sa) ∧
     gf256_addmul_slice_scalar da sa 77 = Done (add_bytes da (scale 77 sa))
   else gf256_add_slice_scalar da sa = Panics ∧ gf256_addmul_slice_scalar da sa 77 = Panics) ∧
  (if bool_decide (length da = length sa) && bool_decide (length db = length sb) then
     gf256_add_slices2 da sa db sb = Done (add_bytes da sa, add_bytes db sb) ∧
     gf256_addmul_slices2 policy da sa db sb 77 = Done (add_bytes da (scale 77 sa), add_bytes db (scale 77 sb))
   else gf256_add_slices2 da sa db sb = Panics ∧ gf256_addmul_slices2 policy da sa db sb 77 = Panics).
Proof.
  intros policy da sa db sb.
  assert (Hok : ∀ k n, (k + n ≤ 256)%nat → bytes_ok (N.of_nat <$> seq k n)).
  { intros k n Hn. apply Forall_fmap, Forall_forall. intros i Hi%elem_of_seq. simpl. lia. }
  apply (gf256_slices_correct policy da sa db sb 77); [reflexivity|apply Hok; lia..].
Defined.
