(* ===== verification/TokenSlab.v ===== *)
(** * The token slab

    Models [src/runtime/reactor/token.rs] at a 64-bit target: a slab of wakers
    addressed by tokens (index and generation), with an intrusive free list whose
    end is [u32::MAX].  A slot whose generation is used up is retired: it stays
    out of the free list.

    The theorem: over any sequence of insertions, removals, replacements and
    filtering, the slab is a finite map from the tokens it has issued and not
    retired, no token is ever issued twice, and only a slab with 2^32 - 1 slots
    panics.  A second lemma shows that [clear] breaks this for a retired slot. *)

From S2P Require Import Prelude.

Section slab.
Context {W : Type}.

Record SlabToken := mkToken { tok_index : N; tok_generation : N }.

#[global] Instance SlabToken_eq_dec : EqDecision SlabToken.
Proof. solve_decision. Defined.

#[global] Instance SlabToken_countable : Countable SlabToken.
Proof.
  apply (inj_countable' (λ t, (tok_index t, tok_generation t)) (λ p, mkToken p.1 p.2)). by intros [].
Defined.

(** [u32 << 32 | u32] and back. *)
Definition to_usize (t : SlabToken) : N := N.lor (N.shiftl (tok_generation t) 32) (tok_index t).
Definition from_usize (v : N) : SlabToken := mkToken (v mod 2 ^ 32) (N.shiftr v 32 mod 2 ^ 32).

Definition MAX_GENERATION : N := u32_MAX.
Definition MAX_INDEX : N := u32_MAX.
Definition token_invalid : SlabToken := mkToken u32_MAX u32_MAX.

Inductive Entry :=
| Occupied (waker : W) (generation : N)
| Vacant (next_free : N) (generation : N).

Definition entry_generation (e : Entry) : N := match e with Occupied _ g | Vacant _ g => g end.

Definition FREE_LIST_END : N := u32_MAX.

Record TokenSlab := mkSlab { entries : list Entry; free_head : N; slab_len : N }.
Implicit Types (s : TokenSlab) (t : SlabToken) (w : W).

Definition slab_new : TokenSlab := mkSlab [] FREE_LIST_END 0.

Definition slab_insert s w : exec (TokenSlab * SlabToken) :=
  if free_head s =? FREE_LIST_END then
    if lenN (entries s) <? u32_MAX then
      Done (mkSlab (entries s ++ [Occupied w 0]) (free_head s) (slab_len s + 1), mkToken (lenN (entries s)) 0)
    else Panics
  else
    match entries s !! N.to_nat (free_head s) with
    | Some (Vacant next_free generation) =>
        Done (mkSlab (<[N.to_nat (free_head s) := Occupied w generation]> (entries s)) next_free (slab_len s + 1),
              mkToken (free_head s) generation)
    | Some (Occupied _ _) | None => Panics
    end.

Definition slab_get s t : option W :=
  match entries s !! N.to_nat (tok_index t) with
  | Some (Occupied w g) => if g =? tok_generation t then Some w else None
  | _ => None
  end.

(** The waker and the slab after an assignment through the reference. *)
Definition slab_get_mut s t : option (W * (W → TokenSlab)) :=
  match entries s !! N.to_nat (tok_index t) with
  | Some (Occupied w g) =>
      if g =? tok_generation t
      then Some (w, λ w', mkSlab (<[N.to_nat (tok_index t) := Occupied w' g]> (entries s)) (free_head s) (slab_len s))
      else None
  | _ => None
  end.

(** An occupied slot becomes vacant: with its next generation it heads the free
    list, or, its generations used up, it is retired. *)
Definition next_generation (g : N) : N := N.land (wrapping_add u32_MAX g 1) MAX_GENERATION.
Definition vacate s (index : nat) (g : N) : TokenSlab :=
  if g =? MAX_GENERATION
  then mkSlab (<[index := Vacant FREE_LIST_END (next_generation g)]> (entries s)) (free_head s) (slab_len s - 1)
  else mkSlab (<[index := Vacant (free_head s) (next_generation g)]> (entries s)) (N.of_nat index mod 2 ^ 32) (slab_len s - 1).

Definition slab_remove s t : TokenSlab * option W :=
  match entries s !! N.to_nat (tok_index t) with
  | None => (s, None)
  | Some e =>
      if entry_generation e =? tok_generation t then
        match e with
        | Occupied w g => (vacate s (N.to_nat (tok_index t)) g, Some w)
        | Vacant _ _ => (s, None)
        end
      else (s, None)
  end.

Definition slab_contains s t : bool := bool_decide (is_Some (slab_get s t)).
Definition slab_is_empty s : bool := slab_len s =? 0.

(** [for index in (0..len).rev()] *)
Fixpoint clear_loop (n : nat) s : TokenSlab :=
  match n with
  | O => s
  | S index =>
      let s :=
        match entries s !! index with
        | None => s
        | Some e =>
            let g := entry_generation e in
            if g =? MAX_GENERATION
            then mkSlab (<[index := Vacant FREE_LIST_END (next_generation g)]> (entries s)) (free_head s) (slab_len s)
            else mkSlab (<[index := Vacant (free_head s) (next_generation g)]> (entries s)) (N.of_nat index mod 2 ^ 32) (slab_len s)
        end in
      clear_loop index s
  end.

Definition slab_clear s : TokenSlab :=
  let s := clear_loop (length (entries s)) (mkSlab (entries s) FREE_LIST_END (slab_len s)) in
  mkSlab (entries s) (free_head s) 0.

(** [for index in 0..len], the closure being a transition function of its own state. *)
Fixpoint retain_loop {St} (f : St → SlabToken → W → St * bool) (n index : nat) (st : St) s : TokenSlab * St :=
  match n with
  | O => (s, st)
  | S n =>
      match entries s !! index with
      | Some (Occupied w g) =>
          let '(st, keep) := f st (mkToken (N.of_nat index mod 2 ^ 32) g) w in
          retain_loop f n (S index) st (if keep : bool then s else vacate s index g)
      | _ => retain_loop f n (S index) st s
      end
  end.

Definition slab_retain {St} (f : St → SlabToken → W → St * bool) (st : St) s : TokenSlab * St :=
  retain_loop f (length (entries s)) 0 st s.

Fixpoint iter_at (index : nat) (es : list Entry) : list (SlabToken * W) :=
  match es with
  | [] => []
  | Occupied w g :: es => (mkToken (N.of_nat index mod 2 ^ 32) g, w) :: iter_at (S index) es
  | Vacant _ _ :: es => iter_at (S index) es
  end.
Definition slab_iter s : list (SlabToken * W) := iter_at 0 (entries s).

End slab.

Arguments Entry : clear implicits.
Arguments TokenSlab : clear implicits.

(** ** Packing *)

Lemma to_usize_sum t : tok_index t < 2 ^ 32 → to_usize t = tok_generation t * 2 ^ 32 + tok_index t.
Proof.
  intros Hi. unfold to_usize. rewrite N.shiftl_mul_pow2, <-N.lxor_lor, <-N.add_nocarry_lxor; [done|..].
  all: apply N.bits_inj; intros k; rewrite N.land_spec, N.bits_0; destruct (N.lt_ge_cases k 32) as [Hk|Hk].
  1, 3: rewrite N.mul_pow2_bits_low by done; done.
  all: destruct (N.eq_dec (tok_index t) 0) as [->|Hz]; [by rewrite N.bits_0, andb_false_r|].
  all: rewrite (N.bits_above_log2 (tok_index t)), andb_false_r; [done|].
  all: apply (N.lt_le_trans _ 32); [apply N.log2_lt_pow2; lia|done].
Qed.

(** Tokens survive the packing into a machine word. *)
Lemma token_roundtrip t : tok_index t ≤ u32_MAX → tok_generation t ≤ u32_MAX → from_usize (to_usize t) = t.
Proof.
  intros Hi Hg. change u32_MAX with 4294967295 in *. assert (H32 : 2 ^ 32 = 4294967296) by done.
  rewrite to_usize_sum by lia. unfold from_usize. rewrite N.shiftr_div_pow2, H32.
  rewrite N.div_add_l, (N.div_small (tok_index t)), N.add_0_r, (N.mod_small (tok_generation t)) by lia.
  rewrite N.add_comm, N.Div0.mod_add, N.mod_small by lia. by destruct t.
Qed.

(** ** The invariant *)

Section facts.
Context {W : Type}.
Implicit Types (s : TokenSlab W) (t : SlabToken) (es : list (Entry W)).

(** [fl] is the free list that starts at [head]. *)
Fixpoint chain es (head : N) (fl : list nat) : Prop :=
  match fl with
  | [] => head = FREE_LIST_END
  | i :: fl => head = N.of_nat i ∧ ∃ n g, es !! i = Some (Vacant n g) ∧ chain es n fl
  end.

(** [fl] lists the free slots; a vacant slot outside it is retired. *)
Record slab_ok s (fl : list nat) : Prop := {
  ok_size : lenN (entries s) ≤ u32_MAX;
  ok_gen : ∀ i e, entries s !! i = Some e → entry_generation e ≤ u32_MAX;
  ok_chain : chain (entries s) (free_head s) fl;
  ok_nodup : NoDup fl;
}.

Lemma chain_lookup es head fl i : chain es head fl → i ∈ fl → ∃ n g, es !! i = Some (Vacant n g).
Proof.
  revert head. induction fl as [|j fl IH]; intros head Hc Hi; [by apply not_elem_of_nil in Hi|].
  destruct Hc as (_ & n & g & Hj & Hc). apply elem_of_cons in Hi as [->|Hi]; [eauto|by eapply IH].
Qed.

Lemma free_chain_insert es head fl i e : chain es head fl → i ∉ fl → chain (<[i := e]> es) head fl.
Proof.
  revert head. induction fl as [|j fl IH]; intros head Hc Hi; [done|]. apply not_elem_of_cons in Hi as [Hij Hi].
  destruct Hc as (-> & n & g & Hj & Hc). split; [done|]. exists n, g. rewrite list_lookup_insert_ne by done. eauto.
Qed.

Lemma free_chain_app es head fl es' : chain es head fl → chain (es ++ es') head fl.
Proof.
  revert head. induction fl as [|j fl IH]; intros head Hc; [done|].
  destruct Hc as (-> & n & g & Hj & Hc). split; [done|]. exists n, g. split; [by apply lookup_app_l_Some|eauto].
Qed.

Lemma occupied_not_free s fl i w g : slab_ok s fl → entries s !! i = Some (Occupied w g) → i ∉ fl.
Proof. intros Hok Hi Hin. destruct (chain_lookup _ _ _ _ (ok_chain _ _ Hok) Hin) as (n & g' & ?). congruence. Qed.

Lemma index_small s fl i e : slab_ok s fl → entries s !! i = Some e → N.of_nat i < u32_MAX.
Proof. intros Hok Hi%lookup_lt_Some. pose proof (ok_size _ _ Hok) as Hs. unfold lenN in Hs. lia. Qed.

Lemma next_generation_spec g : g < u32_MAX → next_generation g = g + 1.
Proof.
  intros Hg. unfold next_generation. rewrite wrapping_add_1 by done. change MAX_GENERATION with (N.ones 32).
  rewrite N.land_ones. apply N.mod_small. change (2 ^ 32) with (u32_MAX + 1). lia.
Qed.

(** [t] was issued: its slot has moved on from its generation, except while occupied by it. *)
Definition issued_ok s (fl : list nat) t : Prop :=
  ∃ e, entries s !! N.to_nat (tok_index t) = Some e ∧
    match e with
    | Occupied _ g => tok_generation t ≤ g
    | Vacant _ g => N.to_nat (tok_index t) ∈ fl → tok_generation t < g
    end.

(** The slab represents the map [m] and has issued the tokens [issued]. *)
Record slab_rep s (m : gmap SlabToken W) (issued : gset SlabToken) (fl : list nat) : Prop := {
  rep_ok : slab_ok s fl;
  rep_get : ∀ t, slab_get s t = m !! t;
  rep_len : slab_len s = N.of_nat (size m);
  rep_issued : ∀ t, t ∈ issued → issued_ok s fl t;
  rep_dom : dom m ⊆ issued;
}.

Lemma slab_rep_new : slab_rep slab_new ∅ ∅ [].
Proof. split; try done. split; try done. constructor. Qed.

Lemma same_slot (t t' : SlabToken) : N.to_nat (tok_index t') = N.to_nat (tok_index t) → tok_generation t' = tok_generation t → t' = t.
Proof. destruct t, t'; simpl. intros ? ->. f_equal. lia. Qed.

(** Reading a slab whose slot [i] was changed. *)
Lemma get_changed s es' i t : entries s = es' ∨ (∃ e, es' = <[i := e]> (entries s)) → N.to_nat (tok_index t) ≠ i →
  ∀ h n, slab_get (mkSlab es' h n) t = slab_get s t.
Proof. intros [<-|[e ->]] Hi h n; unfold slab_get; simpl; [done|]. by rewrite list_lookup_insert_ne. Qed.

Lemma get_vacant s t n g : entries s !! N.to_nat (tok_index t) = Some (Vacant n g) → slab_get s t = None.
Proof. intros He. unfold slab_get. by rewrite He. Qed.

Lemma rep_fresh s m issued fl t : slab_rep s m issued fl → t ∉ issued → m !! t = None.
Proof. intros Hr Ht. apply not_elem_of_dom. intros Hd. by apply Ht, (rep_dom _ _ _ _ Hr). Qed.

Lemma insert_append s m issued fl w : slab_rep s m issued fl → free_head s = FREE_LIST_END → lenN (entries s) < u32_MAX →
  let t := mkToken (lenN (entries s)) 0 in t ∉ issued ∧
  slab_rep (mkSlab (entries s ++ [Occupied w 0]) (free_head s) (slab_len s + 1)) (<[t := w]> m) ({[t]} ∪ issued) fl.
Proof.
  intros Hr Hh Hlt t. pose proof Hr as [[Hsz Hgen Hch Hnd] Hget Hlen His Hdom].
  assert (Hidx : N.to_nat (tok_index t) = length (entries s)) by (simpl; unfold lenN; lia).
  assert (Hni : t ∉ issued).
  { intros (e & He & _)%His. rewrite Hidx in He. apply lookup_lt_Some in He. lia. }
  split; [done|]. split; simpl.
  - split; simpl; [unfold lenN in *; rewrite length_app; simpl; lia| |by apply free_chain_app|done].
    intros i e [Hi|[_ Hi]]%lookup_app_Some; [by eapply Hgen|]. apply list_lookup_singleton_Some in Hi as [_ <-]. done.
  - intros k. unfold slab_get. simpl. destruct (decide (N.to_nat (tok_index k) < length (entries s))%nat) as [Hk|Hk].
    + rewrite lookup_app_l by done. rewrite lookup_insert_ne; [apply Hget|]. intros <-. lia.
    + rewrite lookup_app_r by lia. destruct (decide (k = t)) as [->|Hne].
      * rewrite Hidx, Nat.sub_diag, lookup_insert_eq. done.
      * rewrite lookup_insert_ne by done. rewrite <-Hget. unfold slab_get. rewrite (lookup_ge_None_2 (entries s)) by lia.
        destruct (N.to_nat (tok_index k) - length (entries s))%nat as [|n] eqn:Hn; [|done]. cbn [lookup list_lookup].
        destruct (N.eqb_spec 0 (tok_generation k)) as [Hg|]; [|done]. destruct Hne. apply same_slot; [lia|done].
  - rewrite map_size_insert_None by (by eapply rep_fresh). lia.
  - intros k [->%elem_of_singleton|Hk]%elem_of_union; unfold issued_ok; simpl.
    + exists (Occupied w 0). split; [|done]. unfold lenN. rewrite Nat2N.id. by rewrite lookup_app_r, Nat.sub_diag by lia.
    + destruct (His k Hk) as (e & He & Hg). exists e. split; [by apply lookup_app_l_Some|done].
  - rewrite dom_insert. set_solver.
Qed.

Lemma insert_reuse s m issued fl w i n g : slab_rep s m issued (i :: fl) → free_head s = N.of_nat i →
  entries s !! i = Some (Vacant n g) → chain (entries s) n fl →
  let t := mkToken (N.of_nat i) g in t ∉ issued ∧
  slab_rep (mkSlab (<[i := Occupied w g]> (entries s)) n (slab_len s + 1)) (<[t := w]> m) ({[t]} ∪ issued) fl.
Proof.
  intros Hr Hh Hi Hch t. pose proof Hr as [[Hsz Hgen _ [Hni' Hnd]%NoDup_cons] Hget Hlen His Hdom].
  assert (Hidx : N.to_nat (tok_index t) = i) by (simpl; lia). pose proof (lookup_lt_Some _ _ _ Hi) as Hlt.
  assert (Hlast : ∀ k, k ∈ issued → N.to_nat (tok_index k) = i → tok_generation k < g).
  { intros k (e & He & Hg)%His Hk. rewrite Hk, Hi in He. injection He as <-. apply Hg. rewrite Hk. left. }
  assert (Hni : t ∉ issued) by (intros Ht; specialize (Hlast t Ht Hidx); simpl in Hlast; lia).
  split; [done|]. split; simpl.
  - split; simpl; [by unfold lenN; rewrite length_insert| |by apply free_chain_insert|done].
    intros j e [(-> & <- & _)|[_ Hj]]%list_lookup_insert_Some; [|by eapply Hgen]. exact (Hgen _ _ Hi).
  - intros k. destruct (decide (N.to_nat (tok_index k) = i)) as [Hk|Hk].
    + unfold slab_get. simpl. rewrite Hk, list_lookup_insert_eq by done. destruct (N.eqb_spec g (tok_generation k)) as [Hg|Hg].
      * assert (k = t) as -> by (apply same_slot; [lia|done]). by rewrite lookup_insert_eq.
      * rewrite lookup_insert_ne by (intros <-; done). rewrite <-Hget. symmetry. eapply get_vacant. by rewrite Hk.
    + rewrite (get_changed s _ i) by eauto. rewrite lookup_insert_ne; [apply Hget|]. intros <-. done.
  - rewrite map_size_insert_None by (by eapply rep_fresh). lia.
  - intros k [->%elem_of_singleton|Hk]%elem_of_union; unfold issued_ok; simpl.
    + exists (Occupied w g). rewrite Nat2N.id, list_lookup_insert_eq by done. done.
    + destruct (decide (N.to_nat (tok_index k) = i)) as [Hki|Hki].
      * exists (Occupied w g). rewrite Hki, list_lookup_insert_eq by done. specialize (Hlast k Hk Hki). split; [done|lia].
      * destruct (His k Hk) as (e & He & Hg). exists e. rewrite list_lookup_insert_ne by done. split; [done|].
        destruct e; [done|]. intros Hin. apply Hg. by right.
  - rewrite dom_insert. set_solver.
Qed.

Definition slab_full s : Prop := free_head s = FREE_LIST_END ∧ lenN (entries s) = u32_MAX.

Lemma slab_insert_spec s m issued fl w : slab_rep s m issued fl →
  match slab_insert s w with
  | Done (s', t) => t ∉ issued ∧ ∃ fl', slab_rep s' (<[t := w]> m) ({[t]} ∪ issued) fl'
  | Panics => slab_full s
  end.
Proof.
  intros Hr. pose proof (rep_ok _ _ _ _ Hr) as [Hsz _ Hch _]. unfold slab_insert.
  destruct (N.eqb_spec (free_head s) FREE_LIST_END) as [Hh|Hh].
  - destruct (N.ltb_spec (lenN (entries s)) u32_MAX) as [Hlt|Hge]; [|split; [done|lia]].
    destruct (insert_append s m issued fl w Hr Hh Hlt) as [Hn Hr']. eauto.
  - destruct fl as [|i fl]; [done|]. destruct Hch as (Hhi & n & g & Hi & Hch). rewrite Hhi, Nat2N.id, Hi.
    destruct (insert_reuse s m issued fl w i n g Hr Hhi Hi Hch) as [Hn Hr']. eauto.
Qed.

Lemma vacate_spec s m issued fl i w g : slab_rep s m issued fl → entries s !! i = Some (Occupied w g) →
  ∃ fl', slab_rep (vacate s i g) (delete (mkToken (N.of_nat i) g) m) issued fl' ∧ m !! mkToken (N.of_nat i) g = Some w.
Proof.
  intros Hr Hi. pose proof Hr as [Hok Hget Hlen His Hdom]. pose proof Hok as [Hsz Hgen Hch Hnd].
  pose proof (occupied_not_free _ _ _ _ _ Hok Hi) as Hnf. pose proof (lookup_lt_Some _ _ _ Hi) as Hlt.
  pose proof (index_small _ _ _ _ Hok Hi) as Hsm. pose proof (Hgen _ _ Hi) as Hgm. simpl in Hgm.
  set (t := mkToken (N.of_nat i) g).
  assert (Hm : m !! t = Some w).
  { rewrite <-Hget. unfold slab_get. simpl. rewrite Nat2N.id, Hi. by rewrite N.eqb_refl. }
  assert (Hgets : ∀ n g' h l k, slab_get (mkSlab (<[i := Vacant n g']> (entries s)) h l) k = delete t m !! k).
  { intros n g' h l k. destruct (decide (N.to_nat (tok_index k) = i)) as [Hk|Hk].
    - unfold slab_get. simpl. rewrite Hk, list_lookup_insert_eq by done. destruct (decide (k = t)) as [->|Hne]; [by rewrite lookup_delete_eq|].
      rewrite lookup_delete_ne, <-Hget by done. unfold slab_get. rewrite Hk, Hi. destruct (N.eqb_spec g (tok_generation k)); [|done].
      destruct Hne. apply same_slot; simpl; [lia|done].
    - rewrite (get_changed s _ i) by eauto. rewrite lookup_delete_ne; [apply Hget|]. intros <-. simpl in Hk. lia. }
  assert (Hsize : slab_len s - 1 = N.of_nat (size (delete t m))) by (rewrite map_size_delete, Hm; simpl; lia).
  assert (Hiss : ∀ n h l k, k ∈ issued →
    issued_ok (mkSlab (<[i := Vacant n (g + 1)]> (entries s)) h l) (i :: fl) k).
  { intros n h l k Hk. destruct (His k Hk) as (e & He & Hg'). unfold issued_ok. simpl.
    destruct (decide (N.to_nat (tok_index k) = i)) as [Hki|Hki].
    - rewrite Hki, Hi in He. injection He as <-. rewrite Hki, list_lookup_insert_eq by done. eexists. split; [done|]. simpl. lia.
    - rewrite list_lookup_insert_ne by done. exists e. split; [done|]. destruct e; [done|].
      intros [?|Hin]%elem_of_cons; [done|]. by apply Hg'. }
  unfold vacate. destruct (N.eqb_spec g MAX_GENERATION) as [Hmax|Hmax].
  - exists fl. split; [|done]. split; simpl; [|apply Hgets|done| |rewrite dom_delete; set_solver].
    + split; simpl; [by unfold lenN; rewrite length_insert| |by apply free_chain_insert|done].
      intros j e [(-> & <- & _)|[_ Hj]]%list_lookup_insert_Some; [rewrite Hmax; done|by eapply Hgen].
    + intros k Hk. unfold issued_ok. simpl. destruct (decide (N.to_nat (tok_index k) = i)) as [Hki|Hki].
      * rewrite Hki, list_lookup_insert_eq by done. eexists. split; [done|]. by intros ?%Hnf.
      * rewrite list_lookup_insert_ne by done. by apply His.
  - change MAX_GENERATION with u32_MAX in Hmax. rewrite next_generation_spec by lia. rewrite N.mod_small by (unfold u32_MAX in *; lia).
    exists (i :: fl). split; [|done]. split; simpl; [|apply Hgets|done|intros k Hk; by apply Hiss|rewrite dom_delete; set_solver].
    split; simpl; [by unfold lenN; rewrite length_insert| | |by constructor].
    + intros j e [(-> & <- & _)|[_ Hj]]%list_lookup_insert_Some; [simpl; lia|by eapply Hgen].
    + split; [done|]. eexists _, _. rewrite list_lookup_insert_eq by done. split; [done|by apply free_chain_insert].
Qed.

Lemma slab_remove_spec s m issued fl t : slab_rep s m issued fl →
  ∃ fl', slab_rep (slab_remove s t).1 (delete t m) issued fl' ∧ (slab_remove s t).2 = m !! t.
Proof.
  intros Hr. pose proof (rep_get _ _ _ _ Hr t) as Hget. unfold slab_get in Hget. unfold slab_remove.
  assert (Hnone : m !! t = None → ∃ fl', slab_rep s (delete t m) issued fl' ∧ None = m !! t).
  { intros Hn. exists fl. by rewrite delete_id. }
  destruct (entries s !! _) as [[w g|n g]|] eqn:He; [|case_match; by apply Hnone|by apply Hnone].
  simpl. destruct (N.eqb_spec g (tok_generation t)) as [->|]; [|by apply Hnone].
  destruct (vacate_spec s m issued fl _ w _ Hr He) as (fl' & Hr' & Hm). exists fl'.
  assert (mkToken (N.of_nat (N.to_nat (tok_index t))) (tok_generation t) = t) as Ht by (rewrite N2Nat.id; by destruct t).
  rewrite Ht in Hr'. by rewrite <-Hget.
Qed.

Lemma slab_get_mut_spec s m issued fl t : slab_rep s m issued fl →
  match slab_get_mut s t with
  | Some (w, put) => m !! t = Some w ∧ ∀ w', slab_rep (put w') (<[t := w']> m) issued fl
  | None => m !! t = None
  end.
Proof.
  intros Hr. pose proof Hr as [[Hsz Hgen Hch Hnd] Hget Hlen His Hdom]. pose proof (Hget t) as Hgt. unfold slab_get in Hgt. unfold slab_get_mut.
  destruct (entries s !! _) as [[w g|n g]|] eqn:He; [|done..]. destruct (N.eqb_spec g (tok_generation t)) as [->|]; [|done].
  split; [done|]. intros w'. pose proof (lookup_lt_Some _ _ _ He) as Hlt. split; simpl.
  - split; simpl; [by unfold lenN; rewrite length_insert| | |done].
    + intros j e [(<- & <- & _)|[_ Hj]]%list_lookup_insert_Some; [exact (Hgen _ _ He)|by eapply Hgen].
    + apply free_chain_insert; [done|]. by eapply occupied_not_free; [apply Hr|].
  - intros k. destruct (decide (k = t)) as [->|Hne].
    + unfold slab_get. simpl. by rewrite list_lookup_insert_eq, N.eqb_refl, lookup_insert_eq by done.
    + rewrite lookup_insert_ne, <-Hget by done. destruct (decide (N.to_nat (tok_index k) = N.to_nat (tok_index t))) as [Hk|Hk].
      * unfold slab_get. simpl. rewrite Hk, list_lookup_insert_eq, He by done. case_match eqn:Hg; [|done].
        apply N.eqb_eq in Hg. destruct Hne. by apply same_slot.
      * apply (get_changed s _ (N.to_nat (tok_index t))); [eauto|done].
  - rewrite map_size_insert_Some by eauto. done.
  - intros k Hk. destruct (His k Hk) as (e & He' & Hg). unfold issued_ok. simpl.
    destruct (decide (N.to_nat (tok_index k) = N.to_nat (tok_index t))) as [Hkt|Hkt].
    + rewrite Hkt, He in He'. injection He' as <-. rewrite Hkt, list_lookup_insert_eq by done. eauto.
    + rewrite list_lookup_insert_ne by done. eauto.
  - rewrite dom_insert_L. apply union_subseteq. split; [|done]. apply singleton_subseteq_l, Hdom, elem_of_dom. eauto.
Qed.

(** The map left by [retain], visiting the entries in the order of [iter]. *)
Fixpoint retain_map {St} (f : St → SlabToken → W → St * bool) (l : list (SlabToken * W)) (st : St) (m : gmap SlabToken W) :
  gmap SlabToken W * St :=
  match l with
  | [] => (m, st)
  | (t, w) :: l => let '(st, keep) := f st t w in retain_map f l st (if keep : bool then m else delete t m)
  end.

Lemma vacate_entries s i g : ∃ e, entries (vacate s i g) = <[i := e]> (entries s).
Proof. unfold vacate. case_match; eauto. Qed.

Lemma retain_loop_spec {St} (f : St → SlabToken → W → St * bool) es pre s m issued fl st :
  slab_rep s m issued fl → entries s = pre ++ es →
  ∃ fl', slab_rep (retain_loop f (length es) (length pre) st s).1 (retain_map f (iter_at (length pre) es) st m).1 issued fl' ∧
    (retain_loop f (length es) (length pre) st s).2 = (retain_map f (iter_at (length pre) es) st m).2 ∧
    length (entries (retain_loop f (length es) (length pre) st s).1) = length (entries s).
Proof.
  revert pre s m fl st. induction es as [|e es IH]; intros pre s m fl st Hr He; cbn [length retain_loop iter_at retain_map]; [eauto|].
  assert (Hat : entries s !! length pre = Some e) by (rewrite He; by apply list_lookup_middle).
  assert (Hnext : ∀ e', S (length pre) = length (pre ++ [e' : Entry W])) by (intros; rewrite length_app; simpl; lia).
  rewrite Hat. destruct e as [w g|n g].
  - rewrite (N.mod_small (N.of_nat _)) by (pose proof (index_small _ _ _ _ (rep_ok _ _ _ _ Hr) Hat); unfold u32_MAX in *; lia).
    cbn [retain_map]. destruct (f st _ w) as [st' []].
    + rewrite (Hnext (Occupied w g)). apply (IH _ s m fl st' Hr). by rewrite <-app_assoc.
    + destruct (vacate_spec _ _ _ _ _ _ _ Hr Hat) as (fl1 & Hr1 & _). destruct (vacate_entries s (length pre) g) as [e' He'].
      rewrite (Hnext e'). destruct (IH (pre ++ [e']) _ _ fl1 st' Hr1) as (fl2 & ? & ? & Hlen).
      { rewrite He', He, insert_app_r_alt, Nat.sub_diag by lia. by rewrite <-app_assoc. }
      exists fl2. split_and!; [done..|]. by rewrite Hlen, He', length_insert.
  - rewrite (Hnext (Vacant n g)). apply (IH _ s m fl st Hr). by rewrite <-app_assoc.
Qed.

Lemma slab_retain_spec {St} (f : St → SlabToken → W → St * bool) s m issued fl st : slab_rep s m issued fl →
  ∃ fl', slab_rep (slab_retain f st s).1 (retain_map f (slab_iter s) st m).1 issued fl' ∧
    (slab_retain f st s).2 = (retain_map f (slab_iter s) st m).2 ∧ length (entries (slab_retain f st s).1) = length (entries s).
Proof. intros Hr. by apply (retain_loop_spec f (entries s) [] s m issued fl st). Qed.

(** ** [clear] *)

(** The state of the loop when the slots from [n] on are done. *)
Record cleared (es : list (Entry W)) (n : nat) s (fl : list nat) : Prop := {
  cl_length : length (entries s) = length es;
  cl_rest : ∀ j, (j < n)%nat → entries s !! j = es !! j;
  cl_done : ∀ j e, (n ≤ j)%nat → es !! j = Some e → ∃ x, entries s !! j = Some (Vacant x (next_generation (entry_generation e)));
  cl_chain : chain (entries s) (free_head s) fl;
  cl_nodup : NoDup fl;
  cl_free : ∀ j, j ∈ fl ↔ (n ≤ j)%nat ∧ ∃ e, es !! j = Some e ∧ entry_generation e ≠ MAX_GENERATION;
}.

Lemma clear_loop_spec es n s fl : lenN es ≤ u32_MAX → cleared es n s fl → ∃ fl', cleared es 0 (clear_loop n s) fl'.
Proof.
  intros Hsz. revert s fl. induction n as [|n IH]; intros s fl Hc; [eauto|]. pose proof Hc as [Hlen Hrest Hdone Hch Hnd Hfree].
  cbn [clear_loop]. rewrite Hrest by lia. destruct (es !! n) as [e|] eqn:He.
  2: { apply lookup_ge_None in He. apply (IH s fl). split; try done.
       - intros j Hj. apply Hrest. lia.
       - intros j e Hj Hje. pose proof (lookup_lt_Some _ _ _ Hje). lia.
       - intros j. rewrite Hfree. split; intros [Hj (e & Hje & Hg)]; (split; [|eauto]); [lia|].
         pose proof (lookup_lt_Some _ _ _ Hje). lia. }
  pose proof (lookup_lt_Some _ _ _ He) as Hlt.
  assert (Hnf : n ∉ fl) by (rewrite Hfree; lia).
  assert (Hd : ∀ x h l fl', chain (<[n := Vacant x (next_generation (entry_generation e))]> (entries s)) h fl' → NoDup fl' →
    (∀ j, j ∈ fl' ↔ (n ≤ j)%nat ∧ ∃ e, es !! j = Some e ∧ entry_generation e ≠ MAX_GENERATION) →
    cleared es n (mkSlab (<[n := Vacant x (next_generation (entry_generation e))]> (entries s)) h l) fl').
  { intros x h l fl' Hch' Hnd' Hfree'. split; simpl; try done.
    - by rewrite length_insert.
    - intros j Hj. rewrite list_lookup_insert_ne by lia. apply Hrest. lia.
    - intros j e' Hj Hje. destruct (decide (j = n)) as [->|].
      + rewrite list_lookup_insert_eq by lia. assert (e' = e) as -> by congruence. eauto.
      + rewrite list_lookup_insert_ne by done. apply Hdone; [lia|done]. }
  assert (Hstep : ∀ j, (n ≤ j)%nat ↔ j = n ∨ (S n ≤ j)%nat) by lia.
  destruct (N.eqb_spec (entry_generation e) MAX_GENERATION) as [Hmax|Hmax].
  - eapply IH, Hd; [by apply free_chain_insert|done|]. intros j. rewrite Hfree, Hstep. naive_solver.
  - eapply IH, (Hd _ _ _ (n :: fl)); [|by constructor|].
    + split; [apply N.mod_small; unfold lenN, u32_MAX in *; lia|]. eexists _, _.
      rewrite list_lookup_insert_eq by lia. split; [done|by apply free_chain_insert].
    + intros j. rewrite elem_of_cons, Hfree, Hstep. naive_solver.
Qed.

(** Without retired slots, clearing empties the slab and keeps the issued tokens apart. *)
Lemma slab_clear_spec s m issued fl : slab_rep s m issued fl →
  (∀ i n g, entries s !! i = Some (Vacant n g) → i ∈ fl) → ∃ fl', slab_rep (slab_clear s) ∅ issued fl'.
Proof.
  intros [[Hsz Hgen Hch Hnd] Hget Hlen His Hdom] Hret. unfold slab_clear.
  destruct (clear_loop_spec (entries s) (length (entries s)) (mkSlab (entries s) FREE_LIST_END (slab_len s)) []) as (fl' & Hc); [done|..].
  { split; try done; [|constructor|].
    - intros j e Hj He. pose proof (lookup_lt_Some _ _ _ He). lia.
    - intros j. split; [by intros ?%not_elem_of_nil|]. intros (Hj & e & He & _). pose proof (lookup_lt_Some _ _ _ He). lia. }
  exists fl'. set (s' := clear_loop _ _) in *. destruct Hc as [Hlen' _ Hdone Hch' Hnd' Hfree].
  assert (Hat : ∀ j e', entries s' !! j = Some e' → ∃ e x, entries s !! j = Some e ∧ e' = Vacant x (next_generation (entry_generation e))).
  { intros j e' Hj. pose proof (lookup_lt_Some _ _ _ Hj) as Hlt. rewrite Hlen' in Hlt. apply lookup_lt_is_Some in Hlt as [e He].
    destruct (Hdone j e) as [x Hx]; [lia|done|]. exists e, x. split; [done|congruence]. }
  split; simpl; [|..|by rewrite dom_empty_L; set_solver].
  - split; simpl; [unfold lenN in *; lia| |done|done]. intros j e' (e & x & He & ->)%Hat. simpl. unfold next_generation.
    change MAX_GENERATION with (N.ones 32). rewrite N.land_ones. change u32_MAX with (2 ^ 32 - 1).
    pose proof (N.mod_lt (wrapping_add (2 ^ 32 - 1) (entry_generation e) 1) (2 ^ 32)). lia.
  - intros t. unfold slab_get. simpl. rewrite lookup_empty. destruct (entries s' !! _) as [e'|] eqn:He; [|done].
    apply Hat in He as (e & x & _ & ->). done.
  - done.
  - intros t Ht. destruct (His t Ht) as (e & He & Hg). destruct (Hdone _ e ltac:(lia) He) as [x Hx]. eexists. split; [exact Hx|].
    intros (_ & e0 & He0 & Hne)%Hfree. assert (e0 = e) as -> by congruence. pose proof (Hgen _ _ He) as Hgm.
    change MAX_GENERATION with u32_MAX in Hne. rewrite next_generation_spec by lia. destruct e; simpl in *; [lia|].
    pose proof (Hg (Hret _ _ _ He)). lia.
Qed.

End facts.

(** ** Sequences of operations *)

Section sequences.
Context {W : Type}.
Implicit Types (s : TokenSlab W).

Inductive slab_op :=
| SInsert (w : W)
| SRemove (t : SlabToken)
| SAssign (t : SlabToken) (w : W)
| SRetain (f : SlabToken → W → bool).

(** What an operation was and what it returned. *)
Inductive slab_event :=
| EInserted (t : SlabToken) (w : W)
| ERemoved (t : SlabToken) (w : option W)
| EAssigned (t : SlabToken) (w : W)
| ERetained (f : SlabToken → W → bool).

Definition slab_step s (o : slab_op) : exec (TokenSlab W * slab_event) :=
  match o with
  | SInsert w => p ← slab_insert s w; Done (p.1, EInserted p.2 w)
  | SRemove t => let '(s, w) := slab_remove s t in Done (s, ERemoved t w)
  | SAssign t w => Done (match slab_get_mut s t with Some (_, put) => put w | None => s end, EAssigned t w)
  | SRetain f => Done ((slab_retain (λ _ t w, (tt, f t w)) tt s).1, ERetained f)
  end.

Fixpoint slab_run s (os : list slab_op) : exec (TokenSlab W * list slab_event) :=
  match os with
  | [] => Done (s, [])
  | o :: os => p ← slab_step s o; q ← slab_run p.1 os; Done (q.1, p.2 :: q.2)
  end.

(** The reference map after an event, [None] when the event contradicts it. *)
Definition map_step (m : gmap SlabToken W) (ev : slab_event) : option (gmap SlabToken W) :=
  match ev with
  | EInserted t w => match m !! t with None => Some (<[t := w]> m) | Some _ => None end
  | ERemoved t w =>
      match w, m !! t with
      | None, None => Some m
      | Some _, Some _ => Some (delete t m)
      | _, _ => None
      end
  | EAssigned t w => Some (match m !! t with Some _ => <[t := w]> m | None => m end)
  | ERetained f => Some (filter (λ p, f p.1 p.2 = true) m)
  end.

Fixpoint map_run (m : gmap SlabToken W) (evs : list slab_event) : option (gmap SlabToken W) :=
  match evs with
  | [] => Some m
  | ev :: evs => match map_step m ev with Some m => map_run m evs | None => None end
  end.

Definition issued_tokens (evs : list slab_event) : list SlabToken :=
  omap (λ ev, match ev with EInserted t _ => Some t | _ => None end) evs.
Definition insertions (os : list slab_op) : nat :=
  length (filter (λ o, match o with SInsert _ => true | _ => false end = true) os).

(** Retaining by a pure predicate filters the map. *)
Lemma retain_map_pure (f : SlabToken → W → bool) l m k x :
  (retain_map (λ (_ : unit) t w, (tt, f t w)) l tt m).1 !! k = Some x ↔ m !! k = Some x ∧ ∀ w, (k, w) ∈ l → f k w = true.
Proof.
  revert m. induction l as [|[t w] l IH]; intros m; cbn [retain_map].
  - simpl. split; [|tauto]. intros Hk. split; [done|]. by intros w ?%not_elem_of_nil.
  - rewrite IH. destruct (f t w) eqn:Hf.
    + split; intros [Hk Hn]; (split; [done|]); intros w' Hw; [|apply Hn; by right].
      apply elem_of_cons in Hw as [[= -> ->]|]; [done|by apply Hn].
    + rewrite lookup_delete_Some. split.
      * intros [[Hne Hk] Hn]. split; [done|]. intros w' Hw. apply elem_of_cons in Hw as [[= -> ->]|]; [done|by apply Hn].
      * intros [Hk Hn]. split; [split; [|done]|].
        -- intros ->. specialize (Hn w ltac:(left)). congruence.
        -- intros w' Hw. apply Hn. by right.
Qed.

Lemma elem_of_iter_at (es : list (Entry W)) i t w : N.of_nat (i + length es) ≤ u32_MAX →
  (t, w) ∈ iter_at i es ↔ (i ≤ N.to_nat (tok_index t))%nat ∧ es !! (N.to_nat (tok_index t) - i)%nat = Some (Occupied w (tok_generation t)).
Proof.
  revert i. induction es as [|e es IH]; intros i Hsz; cbn [iter_at length] in *.
  - rewrite elem_of_nil, lookup_nil. naive_solver.
  - assert (Hmod : N.of_nat i mod 2 ^ 32 = N.of_nat i) by (apply N.mod_small; unfold u32_MAX in Hsz; lia).
    assert (Hi : (i ≤ N.to_nat (tok_index t))%nat ↔ N.to_nat (tok_index t) = i ∨ (S i ≤ N.to_nat (tok_index t))%nat) by lia.
    assert (Htl : (S i ≤ N.to_nat (tok_index t))%nat → (e :: es) !! (N.to_nat (tok_index t) - i)%nat = es !! (N.to_nat (tok_index t) - S i)%nat).
    { intros Hle. replace (N.to_nat (tok_index t) - i)%nat with (S (N.to_nat (tok_index t) - S i))%nat by lia. done. }
    specialize (IH (S i) ltac:(lia)). rewrite Hi. destruct e as [w' g|n g]; [rewrite elem_of_cons|]; rewrite IH; split.
    + intros [Heq|[Hle Hes]]; [|split; [by right|by rewrite Htl]]. rewrite Hmod in Heq. injection Heq as -> ->. simpl.
      rewrite Nat2N.id, Nat.sub_diag. split; [by left|done].
    + intros [[Heq|Hle] Hes]; [|right; split; [done|by rewrite <-Htl]]. left. rewrite Heq, Nat.sub_diag in Hes.
      injection Hes as -> ->. rewrite Hmod. destruct t as [ti tg]. simpl in *. do 2 f_equal. lia.
    + intros [Hle Hes]. split; [by right|by rewrite Htl].
    + intros [[Heq|Hle] Hes]; [by rewrite Heq, Nat.sub_diag in Hes|]. split; [done|by rewrite <-Htl].
Qed.

(** [iter] lists exactly the live entries. *)
Lemma slab_iter_spec s m issued fl t w : slab_rep s m issued fl → (t, w) ∈ slab_iter s ↔ m !! t = Some w.
Proof.
  intros Hr. unfold slab_iter. rewrite elem_of_iter_at by (pose proof (ok_size _ _ (rep_ok _ _ _ _ Hr)); unfold lenN in *; lia).
  rewrite <-(rep_get _ _ _ _ Hr), Nat.sub_0_r. unfold slab_get. split.
  - intros [_ ->]. by rewrite N.eqb_refl.
  - intros Hg. split; [lia|]. destruct (entries s !! _) as [[w' g|]|]; [|done..]. destruct (N.eqb_spec g (tok_generation t)); by simplify_eq.
Qed.

Lemma retain_filters s m issued fl f : slab_rep s m issued fl →
  (retain_map (λ (_ : unit) t w, (tt, f t w)) (slab_iter s) tt m).1 = filter (λ p, f p.1 p.2 = true) m.
Proof.
  intros Hr. apply map_eq. intros k. apply option_eq. intros x. rewrite retain_map_pure, map_lookup_filter_Some. simpl.
  split; intros [Hk Hf]; (split; [done|]); [by apply Hf, (slab_iter_spec _ _ _ _ _ _ Hr)|].
  intros w Hw. rewrite (slab_iter_spec _ _ _ _ _ _ Hr) in Hw. congruence.
Qed.

Lemma slab_step_spec s m issued fl o : slab_rep s m issued fl →
  match slab_step s o with
  | Done (s', ev) => ∃ m' issued' fl', map_step m ev = Some m' ∧ slab_rep s' m' issued' fl' ∧
      (length (entries s') ≤ length (entries s) + insertions [o])%nat ∧
      issued' = list_to_set (issued_tokens [ev]) ∪ issued ∧ (∀ t, t ∈ issued_tokens [ev] → t ∉ issued)
  | Panics => ∃ w, o = SInsert w ∧ slab_full s
  end.
Proof.
  intros Hr. destruct o as [w|t|t w|f]; cbn [slab_step].
  - pose proof (slab_insert_spec s m issued fl w Hr) as Hi. destruct (slab_insert s w) as [[s' t]|] eqn:Hins; [|simpl; eauto].
    destruct Hi as [Hn [fl' Hr']]. simpl. rewrite (rep_fresh s m issued fl t) by done. eexists _, _, _.
    split_and!; [done|done| |set_solver|set_solver].
    change (insertions [SInsert w]) with 1%nat. unfold slab_insert in Hins. repeat case_match; simplify_eq/=; rewrite ?length_app, ?length_insert; simpl; lia.
  - destruct (slab_remove_spec s m issued fl t Hr) as (fl' & Hr' & Hres).
    assert (Hlen : length (entries (slab_remove s t).1) = length (entries s)).
    { unfold slab_remove. repeat case_match; simpl; try done. unfold vacate. case_match; simpl; by rewrite length_insert. }
    destruct (slab_remove s t) as [s' w]. simpl in *. subst w.
    exists (delete t m), issued, fl'. split_and!; [|done|lia|set_solver|set_solver]. case_match; [done|by rewrite delete_id].
  - pose proof (slab_get_mut_spec s m issued fl t Hr) as Hg. unfold slab_get_mut in *.
    repeat case_match; simplify_eq; simpl; try (rewrite Hg; eexists _, _, _; split_and!; [done|done|lia|set_solver|set_solver]).
    destruct Hg as [-> Hr']. eexists _, _, _. split_and!; [done|apply Hr'|simpl; rewrite length_insert; lia|set_solver|set_solver].
  - destruct (slab_retain_spec (λ (_ : unit) t w, (tt, f t w)) s m issued fl tt Hr) as (fl' & Hr' & _ & Hlen).
    rewrite (retain_filters _ _ _ _ _ Hr) in Hr'. eexists _, _, _. split_and!; [done|done|simpl; lia|set_solver|set_solver].
Qed.

Lemma insertions_cons o os : insertions (o :: os) = (insertions [o] + insertions os)%nat.
Proof. unfold insertions. rewrite <-length_app, <-filter_app. done. Qed.

Lemma slab_run_spec os s m issued fl : slab_rep s m issued fl → (length (entries s) + insertions os ≤ N.to_nat u32_MAX)%nat →
  ∃ s' evs m' fl', slab_run s os = Done (s', evs) ∧ map_run m evs = Some m' ∧
    slab_rep s' m' (list_to_set (issued_tokens evs) ∪ issued) fl' ∧ NoDup (issued_tokens evs) ∧ (∀ t, t ∈ issued_tokens evs → t ∉ issued).
Proof.
  revert s m issued fl. induction os as [|o os IH]; intros s m issued fl Hr Hsz.
  { eexists _, _, _, _. split_and!; [done|done| |constructor|set_solver]. simpl. by rewrite union_empty_l_L. }
  rewrite insertions_cons in Hsz. cbn [slab_run]. pose proof (slab_step_spec s m issued fl o Hr) as Hstep.
  destruct (slab_step s o) as [[s1 ev]|].
  2: { destruct Hstep as (w & -> & _ & Hfull). unfold lenN in Hfull. change (insertions [SInsert w]) with 1%nat in Hsz. lia. }
  destruct Hstep as (m1 & issued1 & fl1 & Hm & Hr1 & Hlen & -> & Hnew). simpl.
  destruct (IH s1 m1 _ fl1 Hr1) as (s' & evs & m' & fl' & -> & Hm' & Hr' & Hnd & Hfresh); [lia|].
  eexists _, (ev :: evs), m', fl'. split; [done|]. cbn [map_run]. rewrite Hm. split; [done|].
  assert (Hcons : issued_tokens (ev :: evs) = issued_tokens [ev] ++ issued_tokens evs) by (by destruct ev).
  rewrite Hcons, list_to_set_app_L. split_and!.
  - replace (list_to_set (issued_tokens [ev]) ∪ list_to_set (issued_tokens evs) ∪ issued)
      with (list_to_set (C:=gset SlabToken) (issued_tokens evs) ∪ (list_to_set (issued_tokens [ev]) ∪ issued)) by set_solver. done.
  - apply NoDup_app. split_and!; [destruct ev; simpl; repeat constructor; set_solver| |done].
    intros t Ht Ht'. apply (Hfresh t Ht'). set_solver.
  - intros t [Ht|Ht]%elem_of_app; [by apply Hnew|]. specialize (Hfresh t Ht). set_solver.
Qed.

(** The waker slab is a finite map with unforgeable keys.  Every sequence of
    insertions, removals, waker replacements and [retain]s that inserts fewer than
    2^32 times runs without a panic; each removal returns an entry exactly when
    the reference map holds its token, the final lookups, the length and the
    iteration agree with that map, and no token is ever issued twice, so a stale
    token can never reach another waiter's waker. *)
Theorem slab_is_map os : (insertions os ≤ N.to_nat u32_MAX)%nat →
  ∃ s evs m, slab_run slab_new os = Done (s, evs) ∧ map_run ∅ evs = Some m ∧
    (∀ t, slab_get s t = m !! t) ∧ slab_len s = N.of_nat (size m) ∧
    (∀ t w, (t, w) ∈ slab_iter s ↔ m !! t = Some w) ∧ NoDup (issued_tokens evs).
Proof.
  intros Hn. destruct (slab_run_spec os slab_new ∅ ∅ [] slab_rep_new) as (s & evs & m & fl & Hrun & Hm & Hr & Hnd & _); [done|].
  exists s, evs, m. split_and!; [done|done|apply Hr|apply Hr| |done]. intros t w. by eapply slab_iter_spec.
Qed.

End sequences.
Arguments slab_op : clear implicits.
Arguments slab_event : clear implicits.

Definition slab_script : list (slab_op N) :=
  [SInsert 10; SInsert 11; SInsert 12; SRemove (mkToken 1 0); SInsert 13; SRemove (mkToken 1 0); SAssign (mkToken 1 1) 14;
   SRetain (λ _ w, bool_decide (w ≠ 10))].

Lemma slab_is_map_witness : ∃ s, slab_run slab_new slab_script = Done (s,
    [EInserted (mkToken 0 0) 10; EInserted (mkToken 1 0) 11; EInserted (mkToken 2 0) 12; ERemoved (mkToken 1 0) (Some 11);
     EInserted (mkToken 1 1) 13; ERemoved (mkToken 1 0) None; EAssigned (mkToken 1 1) 14;
     ERetained (λ _ w, bool_decide (w ≠ 10))]) ∧
  slab_get s (mkToken 1 1) = Some 14 ∧ slab_len s = 2.
Proof.
  destruct (slab_is_map slab_script) as (s & evs & m & Hrun & Hm & Hget & Hlen & _).
  { change (insertions slab_script) with 4%nat. unfold u32_MAX. lia. }
  exists s. rewrite Hget, Hlen. vm_compute in Hrun. injection Hrun as <- <-. split_and!; [done|..].
  all: vm_compute in Hm; by injection Hm as <-.
Defined.

(** ** A retired slot does not stay retired

    [remove] takes a slot whose generations are used up out of circulation; the
    next [clear] puts it back at generation 1, so a token issued at the start of
    the slab's life is issued a second time. *)

Section retired.
Context {W : Type} (w : W).

Definition cycle (s : TokenSlab W) : TokenSlab W :=
  match slab_insert s w with Done (s', t) => (slab_remove s' t).1 | Panics => s end.

Lemma cycle_at g : g < u32_MAX → cycle (mkSlab [Vacant FREE_LIST_END g] 0 0) = mkSlab [Vacant FREE_LIST_END (g + 1)] 0 0.
Proof.
  intros Hg. unfold cycle, slab_insert, slab_remove. simpl. rewrite N.eqb_refl. unfold vacate. simpl.
  change MAX_GENERATION with u32_MAX. rewrite (proj2 (N.eqb_neq g u32_MAX)) by lia. by rewrite next_generation_spec.
Qed.

Lemma cycles n : n < u32_MAX → N.iter (n + 1) cycle slab_new = mkSlab [Vacant FREE_LIST_END (n + 1)] 0 0.
Proof.
  induction n as [|n IH] using N.peano_ind; intros Hn; [done|]. replace (N.succ n + 1) with (N.succ (n + 1)) by lia.
  rewrite N.iter_succ, IH, cycle_at by lia. do 3 f_equal. lia.
Qed.

Lemma clear_reissues_token : ∃ t s1 s2, slab_insert (cycle slab_new) w = Done (s1, t) ∧
  slab_insert (slab_clear (N.iter (2 ^ 32) cycle slab_new)) w = Done (s2, t).
Proof.
  eexists (mkToken 0 1), _, _. split; [reflexivity|].
  replace (2 ^ 32) with (N.succ (u32_MAX - 1 + 1)) by done. rewrite N.iter_succ, cycles by (unfold u32_MAX; lia).
  replace (u32_MAX - 1 + 1) with u32_MAX by done. vm_compute. reflexivity.
Qed.

End retired.
