(* ===== verification/Mpsc.v ===== *)
(** * The two-phase bounded channel

    Models [src/channel/mpsc.rs]: a bounded multi-producer channel in which a
    sender first reserves a slot and then commits a value.  The code runs every
    operation as one critical section of a mutex; here each critical section is a
    function on the shared state that also returns the wakers to be woken once
    the lock is released.  Wakers are the names of the tasks they wake, and
    [waker.will_wake] is equality.  The result of [cx.checkpoint()] (modelled in
    [Cx.v]) is an argument.  [Drop for Sender] is two atomic steps, as in the
    code, and the compare-exchange loop of [WeakSender::upgrade] is its one
    successful exchange.

    [System] adds the handles Rust's ownership tracks (live [Reserve] futures,
    permits, senders, the receiver) and every interleaving of the critical
    sections.  The theorems: slots are accounted for and bounded, no waiting
    sender and no waiting receiver misses its wake-up, values are delivered in
    commit order and none is lost or duplicated, a closed channel refuses and
    returns every value. *)

From S2P Require Import Prelude TokenSlab.

Inductive SendError (A : Type) := SendDisconnected (v : A) | SendCancelled (v : A) | SendFull (v : A).
Arguments SendDisconnected {A} _.
Arguments SendCancelled {A} _.
Arguments SendFull {A} _.

Inductive RecvError := RecvDisconnected | RecvCancelled | RecvEmpty.

Notation Waker := N.

Inductive Health := ReceiverDropped | ValueReady | SenderClosed | Waiting | Open.

Record MpscTelemetrySnapshot := mkSnapshot {
  snap_channel_id : N;
  snap_capacity : N;
  snap_queued_messages : N;
  snap_reserved : N;
  snap_send_waiter_count : N;
  snap_recv_waiter_count : N;
  snap_receiver_health : Health;
  snap_cancellation_count : N;
  snap_closed : bool;
}.

Section channel.
Context {T : Type}.

Record ChannelInner := mkInner {
  queue : list T;
  reserved : N;
  send_wakers : TokenSlab Waker;
  waiter_queue : list SlabToken;
  recv_waker : option Waker;
  cancellation_count : N;
}.

Record ChannelShared := mkShared {
  inner : ChannelInner;
  sender_count : N;
  receiver_dropped : bool;
  capacity : N;
}.
Implicit Types (i : ChannelInner) (c : ChannelShared).

(** Assignments to the fields. *)
Definition with_inner c i : ChannelShared := mkShared i (sender_count c) (receiver_dropped c) (capacity c).
Definition with_queue i q : ChannelInner :=
  mkInner q (reserved i) (send_wakers i) (waiter_queue i) (recv_waker i) (cancellation_count i).
Definition with_reserved i n : ChannelInner :=
  mkInner (queue i) n (send_wakers i) (waiter_queue i) (recv_waker i) (cancellation_count i).
Definition with_waiters i slab q : ChannelInner :=
  mkInner (queue i) (reserved i) slab q (recv_waker i) (cancellation_count i).
Definition with_recv_waker i w : ChannelInner :=
  mkInner (queue i) (reserved i) (send_wakers i) (waiter_queue i) w (cancellation_count i).

Definition inner_new : ChannelInner := mkInner [] 0 slab_new [] None 0.
Definition used_slots i : N := lenN (queue i) + reserved i.
Definition has_capacity i (cap : N) : bool := used_slots i <? cap.

Definition take_next_sender_waker i : option Waker :=
  match waiter_queue i with
  | token :: _ => slab_get (send_wakers i) token
  | [] => None
  end.

Definition record_cancellation i : ChannelInner :=
  mkInner (queue i) (reserved i) (send_wakers i) (waiter_queue i) (recv_waker i)
    (saturating_add u64_MAX (cancellation_count i) 1).

(** The queue without the first occurrence of [token], and whether there was one. *)
Fixpoint retain_first (token : SlabToken) (q : list SlabToken) : list SlabToken * bool :=
  match q with
  | [] => ([], false)
  | t :: q => if decide (t = token) then (q, true) else let '(q, found) := retain_first token q in (t :: q, found)
  end.
Definition remove_waiter_token i (token : SlabToken) : ChannelInner * bool :=
  let '(q, found) := retain_first token (waiter_queue i) in (with_waiters i (send_wakers i) q, found).

Definition telemetry_snapshot c (channel_id : N) : MpscTelemetrySnapshot :=
  let i := inner c in
  let queued_messages := lenN (queue i) in
  let recv_waiter_count := if recv_waker i then 1 else 0 in
  mkSnapshot channel_id (capacity c) queued_messages (reserved i) (slab_len (send_wakers i)) recv_waiter_count
    (if receiver_dropped c then ReceiverDropped
     else if 0 <? queued_messages then ValueReady
     else if sender_count c =? 0 then SenderClosed
     else if 0 <? recv_waiter_count then Waiting
     else Open)
    (cancellation_count i) (receiver_dropped c || (sender_count c =? 0)).

Definition channel (cap : N) : exec ChannelShared :=
  if 0 <? cap then Done (mkShared inner_new 1 false cap) else Panics.

(** *** Senders *)

Definition try_reserve c : ChannelShared * result () (SendError ()) :=
  let i := inner c in
  if receiver_dropped c then (c, Err (SendDisconnected ()))
  else if negb (slab_is_empty (send_wakers i)) then (c, Err (SendFull ()))
  else if has_capacity i (capacity c) then (with_inner c (with_reserved i (reserved i + 1)), Ok ())
  else (c, Err (SendFull ())).

(** [recv_waker.take()], with the waker to wake. *)
Definition take_recv_waker i : ChannelInner * list Waker := (with_recv_waker i None, option_list (recv_waker i)).

Definition try_send c (value : T) : ChannelShared * result () (SendError T) * list Waker :=
  let i := inner c in
  if receiver_dropped c then (c, Err (SendDisconnected value), [])
  else if negb (has_capacity i (capacity c)) then (c, Err (SendFull value), [])
  else
    let '(i, wakes) := take_recv_waker (with_queue i (queue i ++ [value])) in
    (with_inner c i, Ok (), wakes).

Definition wake_receiver c : ChannelShared * list Waker :=
  let '(i, wakes) := take_recv_waker (inner c) in (with_inner c i, wakes).

(** [waiter_queue.drain(..)] and the wakers of the drained tokens. *)
Fixpoint remove_all (slab : TokenSlab Waker) (tokens : list SlabToken) : TokenSlab Waker * list Waker :=
  match tokens with
  | [] => (slab, [])
  | token :: tokens =>
      let '(slab, w) := slab_remove slab token in
      let '(slab, ws) := remove_all slab tokens in
      (slab, option_list w ++ ws)
  end.
Definition drain_waiters i : ChannelInner * list Waker :=
  let '(slab, ws) := remove_all (send_wakers i) (waiter_queue i) in (with_waiters i slab [], ws).

Definition set_receiver_dropped c : ChannelShared := mkShared (inner c) (sender_count c) true (capacity c).

Definition close_receiver c : ChannelShared * list Waker :=
  if receiver_dropped c then (c, [])
  else
    let c := set_receiver_dropped c in
    let '(i, send_wakes) := drain_waiters (inner c) in
    let '(i, recv_wakes) := take_recv_waker i in
    (with_inner c i, send_wakes ++ recv_wakes).

Definition send_evict_oldest_where c (value : T) (predicate : T → bool) :
  ChannelShared * result (option T) (SendError T) * list Waker :=
  let i := inner c in
  if receiver_dropped c then (c, Err (SendDisconnected value), [])
  else
    let commit (i : ChannelInner) (evicted : option T) :=
      let '(i, wakes) := take_recv_waker (with_queue i (queue i ++ [value])) in
      (with_inner c i, Ok evicted, wakes) in
    if has_capacity i (capacity c) then commit i None
    else
      match position predicate (queue i) with
      | Some index => commit (with_queue i (delete index (queue i))) (queue i !! index)
      | None => (c, Err (SendFull value), [])
      end.

Definition send_evict_oldest c (value : T) := send_evict_oldest_where c value (λ _, true).

(** *** The reserve future, whose only state is its waiter token *)

Definition next_if_capacity i (cap : N) : list Waker :=
  if has_capacity i cap then option_list (take_next_sender_waker i) else [].

Definition cleanup_waiter c (waiter_token : option SlabToken) : ChannelShared * option SlabToken * list Waker :=
  match waiter_token with
  | None => (c, None, [])
  | Some token =>
      let i := inner c in
      let '(slab, removed) := slab_remove (send_wakers i) token in
      let i := with_waiters i slab (waiter_queue i) in
      if receiver_dropped c then (with_inner c i, None, [])
      else
        match removed with
        | Some _ =>
            let i := (remove_waiter_token i token).1 in
            (with_inner c i, None, next_if_capacity i (capacity c))
        | None => (with_inner c i, None, next_if_capacity i (capacity c))
        end
  end.

Definition reserve_poll_live c (waiter_token : option SlabToken) (waker : Waker) :
  exec (ChannelShared * option SlabToken * poll (result () (SendError ())) * list Waker) :=
  let i := inner c in
  if receiver_dropped c then Done (c, None, Ready (Err (SendDisconnected ())), [])
  else
    let is_first :=
      match waiter_token with
      | None => bool_decide (waiter_queue i = [])
      | Some token => bool_decide (head (waiter_queue i) = Some token)
      end in
    if is_first && has_capacity i (capacity c) then
      let i := with_reserved i (reserved i + 1) in
      match waiter_token with
      | Some token =>
          let i := if bool_decide (head (waiter_queue i) = Some token)
                   then with_waiters i (send_wakers i) (tail (waiter_queue i))
                   else (remove_waiter_token i token).1 in
          let i := with_waiters i (slab_remove (send_wakers i) token).1 (waiter_queue i) in
          Done (with_inner c i, None, Ready (Ok ()), next_if_capacity i (capacity c))
      | None => Done (with_inner c i, None, Ready (Ok ()), [])
      end
    else
      match waiter_token with
      | Some token =>
          let slab := match slab_get_mut (send_wakers i) token with
                      | Some (old, put) => if old =? waker then send_wakers i else put waker
                      | None => send_wakers i
                      end in
          Done (with_inner c (with_waiters i slab (waiter_queue i)), Some token, Pending, [])
      | None =>
          p ← slab_insert (send_wakers i) waker;
          Done (with_inner c (with_waiters i p.1 (waiter_queue i ++ [p.2])), Some p.2, Pending, [])
      end.

(** [Reserve::poll]; a cancelled poll takes the lock twice. *)
Definition reserve_poll c (waiter_token : option SlabToken) (cancelled : bool) (waker : Waker) :
  exec (ChannelShared * option SlabToken * poll (result () (SendError ())) * list Waker) :=
  if cancelled then
    let c := with_inner c (record_cancellation (inner c)) in
    let '(c, token, wakes) := cleanup_waiter c waiter_token in
    Done (c, token, Ready (Err (SendCancelled ())), wakes)
  else reserve_poll_live c waiter_token waker.

Definition reserve_drop c (waiter_token : option SlabToken) : ChannelShared * list Waker :=
  let '(c, _, wakes) := cleanup_waiter c waiter_token in (c, wakes).

Definition sender_clone c : ChannelShared :=
  mkShared (inner c) (wrapping_add usize_MAX (sender_count c) 1) (receiver_dropped c) (capacity c).

(** [fetch_sub]; the count it returns decides on the second step. *)
Definition sender_drop_count c : ChannelShared * bool :=
  (mkShared (inner c) (wrapping_sub usize_MAX (sender_count c) 1) (receiver_dropped c) (capacity c), sender_count c =? 1).
Definition sender_drop_wake c : ChannelShared * list Waker := wake_receiver c.

Definition weak_upgrade c : ChannelShared * bool :=
  if sender_count c =? 0 then (c, false) else (sender_clone c, true).

(** *** Permits *)

Definition release_slot i : ChannelInner := if reserved i =? 0 then i else with_reserved i (reserved i - 1).

Definition permit_try_send c (value : T) : ChannelShared * result () (SendError T) * list Waker :=
  let i := release_slot (inner c) in
  if receiver_dropped c then (with_inner c i, Err (SendDisconnected value), [])
  else
    let '(i, wakes) := take_recv_waker (with_queue i (queue i ++ [value])) in
    (with_inner c i, Ok (), wakes).

Definition permit_abort c : ChannelShared * list Waker :=
  let i := record_cancellation (release_slot (inner c)) in
  (with_inner c i, option_list (take_next_sender_waker i)).

Definition permit_drop c (sent : bool) : ChannelShared * list Waker := if sent then (c, []) else permit_abort c.

(** [Sender::send] when its reservation resolves. *)
Definition send_resolved c (reservation : result () (SendError ())) (value : T) :
  ChannelShared * result () (SendError T) * list Waker :=
  match reservation with
  | Ok _ => permit_try_send c value
  | Err (SendDisconnected _) => (c, Err (SendDisconnected value), [])
  | Err (SendFull _) => (c, Err (SendFull value), [])
  | Err (SendCancelled _) => (c, Err (SendCancelled value), [])
  end.

(** *** The receiver *)

Definition clear_recv_waker c : ChannelShared := with_inner c (with_recv_waker (inner c) None).

Definition close c : ChannelShared * list Waker :=
  if receiver_dropped c then (c, [])
  else
    let c := set_receiver_dropped c in
    let '(i, wakes) := drain_waiters (inner c) in
    (with_inner c i, wakes).

Definition disconnected c : bool := (sender_count c =? 0) || receiver_dropped c.

Definition poll_recv c (cancelled : bool) (waker : Waker) : ChannelShared * poll (result T RecvError) * list Waker :=
  let i := inner c in
  if cancelled then (with_inner c (record_cancellation (with_recv_waker i None)), Ready (Err RecvCancelled), [])
  else
    match queue i with
    | value :: q =>
        let i := with_recv_waker (with_queue i q) None in
        (with_inner c i, Ready (Ok value), option_list (take_next_sender_waker i))
    | [] =>
        if disconnected c then (with_inner c (with_recv_waker i None), Ready (Err RecvDisconnected), [])
        else
          let i := match recv_waker i with
                   | Some existing => if existing =? waker then i else with_recv_waker i (Some waker)
                   | None => with_recv_waker i (Some waker)
                   end in
          (with_inner c i, Pending, [])
    end.

Definition try_recv c : ChannelShared * result T RecvError * list Waker :=
  let i := inner c in
  match queue i with
  | value :: q =>
      let i := with_recv_waker (with_queue i q) None in
      (with_inner c i, Ok value, option_list (take_next_sender_waker i))
  | [] =>
      if disconnected c then (with_inner c (with_recv_waker i None), Err RecvDisconnected, [])
      else (c, Err RecvEmpty, [])
  end.

Definition recv_drop c (polled : bool) : ChannelShared := if polled then clear_recv_waker c else c.

(** [Drop for Receiver]: the values still queued are dropped after the lock. *)
Definition receiver_drop c : ChannelShared * list T * list Waker :=
  let c := set_receiver_dropped c in
  let i := with_recv_waker (inner c) None in
  let items := queue i in
  let '(i, wakes) := drain_waiters (with_queue i []) in
  (with_inner c i, items, wakes).

Definition sender_is_closed c : bool := receiver_dropped c.
Definition receiver_is_closed c : bool := sender_count c =? 0.
Definition has_messages c : bool := negb (bool_decide (queue (inner c) = [])).
Definition recv_len c : N := lenN (queue (inner c)).

End channel.
Arguments ChannelInner : clear implicits.
Arguments ChannelShared : clear implicits.

(** ** The channel among its handles

    A reserve future is known by a number.  The ghost fields record what the
    theorems speak about: which reserve futures returned [Pending] from their last
    poll and were not woken since, with the waker that poll was given ([asleep]), the
    same for the receiver ([recv_asleep]), and the values committed, received,
    evicted and discarded so far.  A future is woken only through the waker of its
    last poll. *)

Section system.
Context {T : Type}.

Record System := mkSystem {
  chan : ChannelShared T;
  reserves : gmap N (option SlabToken);
  permits : N;
  senders : N;
  dropping : N;
  receiver : bool;
  asleep : gmap N Waker;
  recv_asleep : option Waker;
  committed : list T;
  received : list T;
  evicted : list T;
  discarded : list T;
}.
Implicit Types (s : System).

Inductive Op :=
| OTryReserve
| OTrySend (v : T)
| OEvict (v : T) (predicate : T → bool)
| OWakeReceiver
| OCloseReceiver
| OReserve (id : N)
| OPollReserve (id : N) (waker : Waker)
| OCountCancel
| OCleanup (id : N)
| ODropReserve (id : N)
| OPermitSend (v : T)
| OPermitAbort
| OSenderClone
| OWeakUpgrade
| OSenderDropCount
| OSenderDropWake
| OReceiverClose
| OPollRecv (cancelled : bool) (waker : Waker)
| OTryRecv
| OClearRecvWaker
| OReceiverDrop.

(** What ownership allows: the handle an operation consumes or borrows exists
    ([Arc] aborts the process at [isize::MAX] references). *)
Definition enabled s (o : Op) : bool :=
  match o with
  | OReserve id => bool_decide (reserves s !! id = None)
  | OPollReserve id _ | OCleanup id | ODropReserve id => bool_decide (is_Some (reserves s !! id))
  | OPermitSend _ | OPermitAbort => 0 <? permits s
  | OSenderClone => (0 <? senders s) && (senders s <? isize_MAX)
  | OWeakUpgrade => senders s <? isize_MAX
  | OSenderDropCount => 0 <? senders s
  | OSenderDropWake => 0 <? dropping s
  | OTryReserve | OTrySend _ | OEvict _ _ | OWakeReceiver | OCloseReceiver | OCountCancel => true
  | OReceiverClose | OPollRecv _ _ | OTryRecv | OClearRecvWaker | OReceiverDrop => receiver s
  end.

(** Those whose last waker is among the woken ones are no longer asleep. *)
Definition rouse s (wakes : list Waker) : gmap N Waker := filter (λ p, p.2 ∉ wakes) (asleep s).
Definition rouse_recv s (wakes : list Waker) : option Waker :=
  match recv_asleep s with Some w => if bool_decide (w ∈ wakes) then None else Some w | None => None end.

(** The next state of the channel, the wakes delivered. *)
Definition after s (c : ChannelShared T) (wakes : list Waker) : System :=
  mkSystem c (reserves s) (permits s) (senders s) (dropping s) (receiver s) (rouse s wakes) (rouse_recv s wakes)
    (committed s) (received s) (evicted s) (discarded s).

Definition set_reserves s r : System :=
  mkSystem (chan s) r (permits s) (senders s) (dropping s) (receiver s) (asleep s) (recv_asleep s)
    (committed s) (received s) (evicted s) (discarded s).
Definition set_permits s n : System :=
  mkSystem (chan s) (reserves s) n (senders s) (dropping s) (receiver s) (asleep s) (recv_asleep s)
    (committed s) (received s) (evicted s) (discarded s).
Definition set_senders s n d : System :=
  mkSystem (chan s) (reserves s) (permits s) n d (receiver s) (asleep s) (recv_asleep s)
    (committed s) (received s) (evicted s) (discarded s).
Definition set_receiver s b : System :=
  mkSystem (chan s) (reserves s) (permits s) (senders s) (dropping s) b (asleep s) (recv_asleep s)
    (committed s) (received s) (evicted s) (discarded s).
Definition set_asleep s a : System :=
  mkSystem (chan s) (reserves s) (permits s) (senders s) (dropping s) (receiver s) a (recv_asleep s)
    (committed s) (received s) (evicted s) (discarded s).
Definition set_recv_asleep s b : System :=
  mkSystem (chan s) (reserves s) (permits s) (senders s) (dropping s) (receiver s) (asleep s) b
    (committed s) (received s) (evicted s) (discarded s).
Definition log s (vc vr ve vd : list T) : System :=
  mkSystem (chan s) (reserves s) (permits s) (senders s) (dropping s) (receiver s) (asleep s) (recv_asleep s)
    (committed s ++ vc) (received s ++ vr) (evicted s ++ ve) (discarded s ++ vd).

Definition sys_new (c : ChannelShared T) : System := mkSystem c ∅ 0 1 0 true ∅ None [] [] [] [].

Definition is_ok {A B} (r : result A B) : bool := match r with Ok _ => true | Err _ => false end.

Definition sys_step s (o : Op) : exec System :=
  match o with
  | OTryReserve =>
      let '(c, r) := try_reserve (chan s) in
      Done (set_permits (after s c []) (if is_ok r then permits s + 1 else permits s))
  | OTrySend v =>
      let '(c, r, wakes) := try_send (chan s) v in
      Done (log (after s c wakes) (if is_ok r then [v] else []) [] [] [])
  | OEvict v p =>
      let '(c, r, wakes) := send_evict_oldest_where (chan s) v p in
      Done (match r with Ok e => log (after s c wakes) [v] [] (option_list e) [] | Err _ => after s c wakes end)
  | OWakeReceiver => let '(c, wakes) := wake_receiver (chan s) in Done (after s c wakes)
  | OCloseReceiver => let '(c, wakes) := close_receiver (chan s) in Done (after s c wakes)
  | OReserve id => Done (set_reserves s (<[id := None]> (reserves s)))
  | OPollReserve id waker =>
      p ← reserve_poll_live (chan s) (default None (reserves s !! id)) waker;
      let '(c, token, r, wakes) := p in
      let s' := set_reserves (after s c wakes) (<[id := token]> (reserves s)) in
      Done (match r with
            | Pending => set_asleep s' (<[id := waker]> (rouse s wakes))
            | Ready (Ok _) => set_permits (set_asleep s' (delete id (rouse s wakes))) (permits s + 1)
            | Ready (Err _) => set_asleep s' (delete id (rouse s wakes))
            end)
  | OCountCancel => Done (after s (with_inner (chan s) (record_cancellation (inner (chan s)))) [])
  | OCleanup id =>
      let '(c, token, wakes) := cleanup_waiter (chan s) (default None (reserves s !! id)) in
      Done (set_asleep (set_reserves (after s c wakes) (<[id := token]> (reserves s))) (delete id (rouse s wakes)))
  | ODropReserve id =>
      let '(c, wakes) := reserve_drop (chan s) (default None (reserves s !! id)) in
      Done (set_asleep (set_reserves (after s c wakes) (delete id (reserves s))) (delete id (rouse s wakes)))
  | OPermitSend v =>
      let '(c, r, wakes) := permit_try_send (chan s) v in
      Done (set_permits (log (after s c wakes) (if is_ok r then [v] else []) [] [] []) (permits s - 1))
  | OPermitAbort =>
      let '(c, wakes) := permit_abort (chan s) in Done (set_permits (after s c wakes) (permits s - 1))
  | OSenderClone => Done (set_senders (after s (sender_clone (chan s)) []) (senders s + 1) (dropping s))
  | OWeakUpgrade =>
      let '(c, ok) := weak_upgrade (chan s) in
      Done (set_senders (after s c []) (if ok : bool then senders s + 1 else senders s) (dropping s))
  | OSenderDropCount =>
      let '(c, last) := sender_drop_count (chan s) in
      Done (set_senders (after s c []) (senders s - 1) (if last : bool then dropping s + 1 else dropping s))
  | OSenderDropWake =>
      let '(c, wakes) := sender_drop_wake (chan s) in
      Done (set_senders (after s c wakes) (senders s) (dropping s - 1))
  | OReceiverClose =>
      let '(c, wakes) := close (chan s) in Done (set_recv_asleep (after s c wakes) None)
  | OPollRecv cancelled waker =>
      let '(c, r, wakes) := poll_recv (chan s) cancelled waker in
      Done (match r with
            | Ready (Ok v) => set_recv_asleep (log (after s c wakes) [] [v] [] []) None
            | Ready (Err _) => set_recv_asleep (after s c wakes) None
            | Pending => set_recv_asleep (after s c wakes) (Some waker)
            end)
  | OTryRecv =>
      let '(c, r, wakes) := try_recv (chan s) in
      Done (match r with
            | Ok v => set_recv_asleep (log (after s c wakes) [] [v] [] []) None
            | Err RecvEmpty => after s c wakes
            | Err _ => set_recv_asleep (after s c wakes) None
            end)
  | OClearRecvWaker => Done (set_recv_asleep (after s (clear_recv_waker (chan s)) []) None)
  | OReceiverDrop =>
      let '(c, items, wakes) := receiver_drop (chan s) in
      Done (set_receiver (set_recv_asleep (log (after s c wakes) [] [] [] items) None) false)
  end.

Inductive reachable (cap : N) : System → Prop :=
| reach_new c : channel cap = Done c → reachable cap (sys_new c)
| reach_step s o s' : reachable cap s → enabled s o = true → sys_step s o = Done s' → reachable cap s'.

End system.
Arguments System : clear implicits.
Arguments Op : clear implicits.

(** ** Invariant *)

Section invariant.
Context {T : Type}.
Implicit Types (s : System T) (c : ChannelShared T) (i : ChannelInner T).

(** The slab holds exactly the wakers of the queued waiters; while the channel
    is open these are the tokens the live reserve futures hold. *)
Definition waiters_ok (slab : TokenSlab Waker) (wq : list SlabToken) (dropped : bool) (res : gmap N (option SlabToken)) : Prop :=
  (∃ m issued fl, slab_rep slab m issued fl ∧ dom m = list_to_set wq) ∧ NoDup wq ∧
  (dropped = true → wq = []) ∧
  (dropped = false → (∀ t, t ∈ wq ↔ ∃ id, res !! id = Some (Some t)) ∧
    (∀ id id' t, res !! id = Some (Some t) → res !! id' = Some (Some t) → id = id')).

(** A sleeping future is queued and registered with the waker of its last poll; the
    first in the queue does not sleep while a slot is free. *)
Definition wake_ok (slab : TokenSlab Waker) (wq : list SlabToken) (res : gmap N (option SlabToken)) (asleep : gmap N Waker) (free : bool) : Prop :=
  (∀ id w, asleep !! id = Some w → ∃ t, res !! id = Some (Some t) ∧ t ∈ wq ∧ slab_get slab t = Some w) ∧
  (free = true → ∀ t id, head wq = Some t → res !! id = Some (Some t) → asleep !! id = None).

Definition slots_ok i (cap permits : N) : Prop := reserved i = permits ∧ used_slots i ≤ cap.

Definition recv_ok (w : option Waker) (q : list T) (dropped : bool) (count dropping : N) (asleep : option Waker) : Prop :=
  ∀ x, asleep = Some x → w = Some x ∧ q = [] ∧ dropped = false ∧ (0 < count ∨ 0 < dropping).

Definition history_ok (q com rcv evi dis : list T) : Prop :=
  com ≡ₚ rcv ++ evi ++ dis ++ q ∧ rcv ++ q `sublist_of` com.

Record inv (cap : N) s : Prop := {
  inv_cap : capacity (chan s) = cap ∧ 0 < cap;
  inv_waiters : waiters_ok (send_wakers (inner (chan s))) (waiter_queue (inner (chan s))) (receiver_dropped (chan s)) (reserves s);
  inv_wake : wake_ok (send_wakers (inner (chan s))) (waiter_queue (inner (chan s))) (reserves s) (asleep s) (has_capacity (inner (chan s)) (capacity (chan s)));
  inv_slots : slots_ok (inner (chan s)) (capacity (chan s)) (permits s);
  inv_recv : recv_ok (recv_waker (inner (chan s))) (queue (inner (chan s))) (receiver_dropped (chan s)) (sender_count (chan s)) (dropping s) (recv_asleep s);
  inv_senders : sender_count (chan s) = senders s ∧ senders s ≤ isize_MAX;
  inv_history : history_ok (queue (inner (chan s))) (committed s) (received s) (evicted s) (discarded s);
  inv_gone : receiver s = false → receiver_dropped (chan s) = true ∧ queue (inner (chan s)) = [];
}.

Lemma rouse_lookup s wakes id w : rouse s wakes !! id = Some w ↔ asleep s !! id = Some w ∧ w ∉ wakes.
Proof. apply map_lookup_filter_Some. Qed.

Lemma rouse_nil s : rouse s [] = asleep s.
Proof.
  apply map_eq. intros id. apply option_eq. intros w. rewrite rouse_lookup. split; [tauto|]. intros ?. split; [done|apply not_elem_of_nil].
Qed.

Lemma rouse_sub s wakes id w : rouse s wakes !! id = Some w → asleep s !! id = Some w.
Proof. by intros [? _]%rouse_lookup. Qed.

Lemma rouse_recv_nil s : rouse_recv s [] = recv_asleep s.
Proof. unfold rouse_recv. destruct (recv_asleep s); [|done]. by rewrite bool_decide_false by apply not_elem_of_nil. Qed.

Lemma rouse_recv_sub s wakes x : rouse_recv s wakes = Some x → recv_asleep s = Some x.
Proof. unfold rouse_recv. repeat case_match; by intros; simplify_eq. Qed.

(** Taking the receiver's waker leaves no sleeping receiver. *)
Lemma rouse_recv_taken s wakes cap : inv cap s → (∀ w, recv_waker (inner (chan s)) = Some w → w ∈ wakes) → rouse_recv s wakes = None.
Proof.
  intros Hi Hw. unfold rouse_recv. destruct (recv_asleep s) as [x|] eqn:Ha; [|done].
  destruct (inv_recv _ _ Hi x Ha) as (Hs & _). by rewrite bool_decide_true by auto.
Qed.

Lemma wake_ok_mono slab wq res a a' f f' : wake_ok slab wq res a f →
  (∀ id w, a' !! id = Some w → a !! id = Some w) → (f' = true → f = true) → wake_ok slab wq res a' f'.
Proof.
  intros [H1 H2] Ha Hf. split; [auto|]. intros Hff t id Ht Hid. destruct (a' !! id) as [w|] eqn:Hw; [|done].
  apply Ha in Hw. by rewrite (H2 (Hf Hff) t id Ht Hid) in Hw.
Qed.

(** Waking the first waiter lets any number of slots be free. *)
Lemma wake_ok_next s wakes f cap : inv cap s →
  (∀ w, take_next_sender_waker (inner (chan s)) = Some w → w ∈ wakes) →
  wake_ok (send_wakers (inner (chan s))) (waiter_queue (inner (chan s))) (reserves s) (rouse s wakes) f.
Proof.
  intros Hi Hw. destruct (inv_wake _ _ Hi) as [H1 _]. split; [intros id w Ht; by apply H1, (rouse_sub s wakes)|].
  intros _ t id Ht Hid. destruct (rouse s wakes !! id) as [w|] eqn:Hr; [|done]. apply rouse_lookup in Hr as [Ha Hn].
  destruct (H1 id w Ha) as (t' & Ht' & _ & Hg). assert (t' = t) as -> by congruence. destruct Hn. apply Hw.
  unfold take_next_sender_waker. by destruct (waiter_queue (inner (chan s))); simplify_eq/=.
Qed.

Lemma remove_all_spec tokens slab m issued fl : slab_rep slab m issued fl → NoDup tokens →
  ∃ m' fl', slab_rep (remove_all slab tokens).1 m' issued fl' ∧ (∀ t, m' !! t = if decide (t ∈ tokens) then None else m !! t) ∧
    ∀ t w, t ∈ tokens → m !! t = Some w → w ∈ (remove_all slab tokens).2.
Proof.
  revert slab m fl. induction tokens as [|t0 tokens IH]; intros slab m fl Hr Hnd; cbn [remove_all].
  { exists m, fl. split; [done|]. split; [done|]. by intros t w ?%not_elem_of_nil. }
  apply NoDup_cons in Hnd as [Hni Hnd]. destruct (slab_remove_spec slab m issued fl t0 Hr) as (fl1 & Hr1 & Hres).
  destruct (slab_remove slab t0) as [slab1 w0]. simpl in *. subst w0.
  destruct (IH slab1 _ fl1 Hr1 Hnd) as (m' & fl' & Hr' & Hm' & Hw'). destruct (remove_all slab1 tokens) as [slab2 ws]. simpl in *.
  exists m', fl'. split_and!; [done|..].
  - intros t. rewrite Hm'. destruct (decide (t = t0)) as [->|Hne].
    + rewrite lookup_delete_eq. by repeat case_decide; set_solver.
    + rewrite lookup_delete_ne by done. repeat case_decide; set_solver.
  - intros t w [->|Ht]%elem_of_cons Hm; apply elem_of_app; [left; rewrite Hm; set_solver|right].
    apply (Hw' t w); [done|]. rewrite lookup_delete_ne; [done|]. by intros ->.
Qed.

(** Closing wakes every waiter and empties slab and queue. *)
Lemma drain_waiters_spec s cap : inv cap s → let '(slab, ws) := remove_all (send_wakers (inner (chan s))) (waiter_queue (inner (chan s))) in
  (∃ m issued fl, slab_rep slab m issued fl ∧ dom m = ∅) ∧ ∀ wakes, (∀ w, w ∈ ws → w ∈ wakes) → rouse s wakes = ∅.
Proof.
  intros Hi. destruct (inv_waiters _ _ Hi) as ((m & issued & fl & Hrep & Hdom) & Hnd & _).
  destruct (remove_all_spec _ _ _ _ _ Hrep Hnd) as (m' & fl' & Hr' & Hm' & Hw').
  destruct (remove_all _ _) as [slab ws]. simpl in *. split.
  - exists m', issued, fl'. split; [done|]. apply dom_empty_iff_L, map_eq. intros t. rewrite Hm', lookup_empty. case_decide as Ht; [done|].
    apply not_elem_of_dom. rewrite Hdom. by rewrite elem_of_list_to_set.
  - intros wakes Hsub. apply map_eq. intros id. rewrite lookup_empty. destruct (rouse s wakes !! id) as [w|] eqn:Hr; [|done].
    apply rouse_lookup in Hr as [Ha Hn]. destruct (inv_wake _ _ Hi) as [Hq _]. destruct (Hq id w Ha) as (t & _ & Ht & Hg).
    rewrite (rep_get _ _ _ _ Hrep) in Hg. destruct Hn. by apply Hsub, (Hw' t w).
Qed.

Lemma after_same s : after s (chan s) [] = s.
Proof. unfold after. rewrite rouse_nil, rouse_recv_nil. by destruct s. Qed.

Lemma set_permits_same s : set_permits s (permits s) = s.
Proof. by destruct s. Qed.

Lemma log_nil s : log s [] [] [] [] = s.
Proof. destruct s. unfold log. simpl. by rewrite !app_nil_r. Qed.

Lemma history_commit q com rcv evi dis v : history_ok q com rcv evi dis → history_ok (q ++ [v]) (com ++ [v]) rcv evi dis.
Proof.
  intros [Hp Hs]. split; [by rewrite Hp, !app_assoc|]. rewrite app_assoc. by apply sublist_app.
Qed.

Lemma history_receive v q com rcv evi dis : history_ok (v :: q) com rcv evi dis → history_ok q com (rcv ++ [v]) evi dis.
Proof.
  intros [Hp Hs]. split; [|by rewrite <-app_assoc]. rewrite Hp, <-!app_assoc. apply Permutation_app_head. simpl.
  rewrite !app_assoc. symmetry. apply Permutation_middle.
Qed.

Lemma history_evict n v q com rcv evi dis : q !! n = Some v → history_ok q com rcv evi dis → history_ok (delete n q) com rcv (evi ++ [v]) dis.
Proof.
  intros Hn [Hp Hs]. split.
  - rewrite Hp, <-!app_assoc. do 2 apply Permutation_app_head. simpl. rewrite (Permutation_middle dis).
    apply Permutation_app_head. by apply delete_Permutation.
  - etrans; [|done]. apply sublist_app; [done|]. apply sublist_delete.
Qed.

Lemma history_discard q com rcv evi dis : history_ok q com rcv evi dis → history_ok [] com rcv evi (dis ++ q).
Proof.
  intros [Hp Hs]. split; [by rewrite Hp, app_nil_r|]. rewrite app_nil_r. etrans; [|done]. apply sublist_inserts_r. done.
Qed.

(** The parts of the invariant an operation leaves alone. *)
Ltac same_parts Hi :=
  lazymatch goal with
  | |- _ ∧ 0 < _ => exact (inv_cap _ _ Hi)
  | |- waiters_ok _ _ _ _ => try exact (inv_waiters _ _ Hi)
  | |- _ ∧ _ ≤ isize_MAX => try exact (inv_senders _ _ Hi)
  | |- history_ok _ _ _ _ _ => rewrite ?app_nil_r; try exact (inv_history _ _ Hi)
  | |- receiver _ = false → _ => try exact (inv_gone _ _ Hi)
  | |- recv_ok _ _ _ _ _ _ => rewrite ?rouse_recv_nil; try exact (inv_recv _ _ Hi)
  | |- slots_ok _ _ _ => try exact (inv_slots _ _ Hi)
  | |- wake_ok _ _ _ _ _ => rewrite ?rouse_nil; try exact (inv_wake _ _ Hi)
  | |- _ => idtac
  end.
Ltac by_parts Hi := split; cbn; same_parts Hi.

Ltac slot_arith Hi :=
  destruct (inv_slots _ _ Hi) as [? ?]; unfold slots_ok, has_capacity, used_slots in *; cbn in *; N_bools;
  autorewrite with len in *; lia.

(** The asleep set shrinks and no slot becomes free. *)
Lemma wake_ok_shrink cap s wakes free : inv cap s → (free = true → has_capacity (inner (chan s)) (capacity (chan s)) = true) →
  wake_ok (send_wakers (inner (chan s))) (waiter_queue (inner (chan s))) (reserves s) (rouse s wakes) free.
Proof. intros Hi Hf. eapply wake_ok_mono; [exact (inv_wake _ _ Hi)|intros id w; apply rouse_sub|done]. Qed.

Ltac shrink Hi := apply (wake_ok_shrink _ _ _ _ Hi); intros; unfold has_capacity, used_slots in *; cbn in *; N_bools;
  apply N.ltb_lt; autorewrite with len in *; lia.

Lemma inv_try_reserve cap s s' : inv cap s → sys_step s OTryReserve = Done s' → inv cap s'.
Proof.
  intros Hi. cbn [sys_step]. unfold try_reserve. destruct (receiver_dropped (chan s)) eqn:Hd.
  { intros [= <-]. simpl. by rewrite after_same, set_permits_same. }
  destruct (negb _); [intros [= <-]; simpl; by rewrite after_same, set_permits_same|].
  destruct (has_capacity _ _) eqn:Hc; [|intros [= <-]; simpl; by rewrite after_same, set_permits_same].
  intros [= <-]. by_parts Hi.
  - rewrite <-(rouse_nil s). shrink Hi.
  - slot_arith Hi.
Qed.

(** Whatever takes the receiver's waker wakes it. *)
Lemma recv_ok_taken cap s wakes w q d k n : inv cap s → (∀ x, recv_waker (inner (chan s)) = Some x → x ∈ wakes) →
  recv_ok w q d k n (rouse_recv s wakes).
Proof. intros Hi Hw. rewrite (rouse_recv_taken s wakes cap Hi Hw). by intros ? [=]. Qed.

Lemma elem_option_list {A} (o : option A) x : o = Some x → x ∈ option_list o.
Proof. intros ->. left. Qed.
#[local] Hint Resolve elem_option_list : core.

Lemma inv_try_send cap s s' v : inv cap s → sys_step s (OTrySend v) = Done s' → inv cap s'.
Proof.
  intros Hi. cbn [sys_step]. unfold try_send. destruct (receiver_dropped (chan s)) eqn:Hd.
  { intros [= <-]. simpl. by rewrite log_nil, after_same. }
  destruct (has_capacity _ _) eqn:Hc; [|intros [= <-]; simpl; by rewrite log_nil, after_same].
  intros [= <-]. by_parts Hi.
  - shrink Hi.
  - slot_arith Hi.
  - by apply (recv_ok_taken cap); [|auto].
  - rewrite ?app_nil_r. by apply history_commit, Hi.
  - intros Hg. destruct (inv_gone _ _ Hi Hg). congruence.
Qed.

Lemma inv_evict cap s s' v p : inv cap s → sys_step s (OEvict v p) = Done s' → inv cap s'.
Proof.
  intros Hi. cbn [sys_step]. unfold send_evict_oldest_where. destruct (receiver_dropped (chan s)) eqn:Hd.
  { intros [= <-]. by rewrite after_same. }
  destruct (has_capacity _ _) eqn:Hc.
  - intros [= <-]. by_parts Hi.
    + shrink Hi.
    + slot_arith Hi.
    + by apply (recv_ok_taken cap); [|auto].
    + rewrite ?app_nil_r. by apply history_commit, Hi.
    + intros Hg. destruct (inv_gone _ _ Hi Hg). congruence.
  - destruct (position p (queue (inner (chan s)))) as [n|] eqn:Hpos; [|intros [= <-]; by rewrite after_same].
    apply position_Some in Hpos as (x & Hx & _). pose proof (lookup_lt_Some _ _ _ Hx) as Hlt.
    assert (Hlen : lenN (delete n (queue (inner (chan s)))) + 1 = lenN (queue (inner (chan s)))).
    { unfold lenN. rewrite length_delete by eauto. lia. }
    cbn [take_recv_waker]. rewrite Hx. intros [= <-]. by_parts Hi.
    + apply (wake_ok_shrink _ _ _ _ Hi). unfold has_capacity, used_slots in *. cbn. intros; N_bools. autorewrite with len in *. lia.
    + slot_arith Hi.
    + by apply (recv_ok_taken cap); [|auto].
    + rewrite ?app_nil_r. apply history_commit, history_evict; [done|apply Hi].
    + intros Hg. destruct (inv_gone _ _ Hi Hg). congruence.
Qed.

Lemma inv_wake_receiver cap s : inv cap s →
  inv cap (after s (wake_receiver (chan s)).1 (wake_receiver (chan s)).2).
Proof.
  intros Hi. by_parts Hi.
  - by apply (wake_ok_shrink _ _ _ _ Hi).
  - by apply (recv_ok_taken cap); [|auto].
Qed.

(** A closed channel: whatever is woken includes all the drained waiters. *)
Lemma inv_drained cap s q w n wakes res dis b :
  inv cap s → let '(slab, ws) := remove_all (send_wakers (inner (chan s))) (waiter_queue (inner (chan s))) in
  (∀ x, x ∈ ws → x ∈ wakes) → q = queue (inner (chan s)) ∧ dis = [] ∧ (b = false → receiver s = false) ∨ q = [] ∧ dis = queue (inner (chan s)) →
  inv cap (mkSystem (mkShared (mkInner q (reserved (inner (chan s))) slab [] w n) (sender_count (chan s)) true (capacity (chan s)))
    res (permits s) (senders s) (dropping s) b (rouse s wakes) None (committed s) (received s) (evicted s) (discarded s ++ dis)).
Proof.
  intros Hi. pose proof (drain_waiters_spec s cap Hi) as Hd. destruct (remove_all _ _) as [slab ws]. destruct Hd as [Hrep Hno].
  intros Hsub Hq. by_parts Hi.
  - split_and!; [|constructor|done|done]. destruct Hrep as (m & issued & fl & Hr & Hm). exists m, issued, fl. by rewrite Hm.
  - split; [|done]. intros id x. by rewrite (Hno wakes Hsub).
  - destruct (inv_slots _ _ Hi) as [Hr Hu]. split; [done|]. unfold used_slots in *. cbn. destruct Hq as [[-> _]|[-> _]]; [done|].
    autorewrite with len. lia.
  - by intros ? [=].
  - destruct Hq as [(-> & -> & _)|[-> ->]]; [rewrite app_nil_r; apply Hi|]. apply history_discard, Hi.
  - intros Hb. split; [done|]. destruct Hq as [(-> & _ & Hb')|[-> _]]; [|done]. by apply (inv_gone _ _ Hi), Hb'.
Qed.

Lemma inv_close_receiver cap s s' : inv cap s → sys_step s OCloseReceiver = Done s' → inv cap s'.
Proof.
  intros Hi. cbn [sys_step]. unfold close_receiver. destruct (receiver_dropped (chan s)); [intros [= <-]; by rewrite after_same|].
  unfold drain_waiters. cbn [set_receiver_dropped inner].
  pose proof (λ q w n wakes res dis b, inv_drained cap s q w n wakes res dis b Hi) as Hd. destruct (remove_all _ _) as [slab ws].
  intros [= <-]. unfold after. cbn. rewrite (rouse_recv_taken s _ cap Hi) by (intros; apply elem_of_app; right; auto).
  rewrite <-(app_nil_r (discarded s)). apply Hd; [intros; apply elem_of_app; by left|]. left. by split_and!.
Qed.

Lemma inv_receiver_close cap s s' : inv cap s → sys_step s OReceiverClose = Done s' → inv cap s'.
Proof.
  intros Hi. cbn [sys_step]. unfold close. destruct (receiver_dropped (chan s)).
  { intros [= <-]. rewrite after_same. by_parts Hi. by intros ? [=]. }
  unfold drain_waiters. cbn [set_receiver_dropped inner].
  pose proof (λ q w n wakes res dis b, inv_drained cap s q w n wakes res dis b Hi) as Hd. destruct (remove_all _ _) as [slab ws].
  intros [= <-]. unfold after, set_recv_asleep. cbn. rewrite <-(app_nil_r (discarded s)). apply Hd; [done|]. left. by split_and!.
Qed.

Lemma inv_receiver_drop cap s s' : inv cap s → sys_step s OReceiverDrop = Done s' → inv cap s'.
Proof.
  intros Hi. cbn [sys_step]. unfold receiver_drop, drain_waiters. cbn [set_receiver_dropped inner with_recv_waker with_queue send_wakers waiter_queue queue].
  pose proof (λ q w n wakes res dis b, inv_drained cap s q w n wakes res dis b Hi) as Hd. destruct (remove_all _ _) as [slab ws].
  intros [= <-]. unfold after, set_recv_asleep, set_receiver, log. cbn. rewrite !app_nil_r. apply Hd; [done|]. by right.
Qed.

Lemma recv_ok_shrink cap s wakes : inv cap s →
  recv_ok (recv_waker (inner (chan s))) (queue (inner (chan s))) (receiver_dropped (chan s)) (sender_count (chan s)) (dropping s) (rouse_recv s wakes).
Proof. intros Hi x Hr. by apply (inv_recv _ _ Hi), (rouse_recv_sub s wakes). Qed.

Lemma retain_first_spec token q : NoDup q → NoDup (retain_first token q).1 ∧ ∀ t, t ∈ (retain_first token q).1 ↔ t ∈ q ∧ t ≠ token.
Proof.
  induction q as [|x q IH]; intros Hnd; cbn [retain_first]; [split; [constructor|set_solver]|].
  apply NoDup_cons in Hnd as [Hx Hnd]. destruct (IH Hnd) as [IH1 IH2]. destruct (decide (x = token)) as [->|Hne].
  - split; [done|]. intros t. simpl. rewrite elem_of_cons. naive_solver.
  - destruct (retain_first token q) as [q' f]. simpl in *. split; [constructor; [rewrite IH2; tauto|done]|].
    intros t. rewrite !elem_of_cons, IH2. naive_solver.
Qed.

(** Taking the waiter of future [id] out of slab and queue. *)
Lemma waiter_gone cap s id token wq' res' : inv cap s → receiver_dropped (chan s) = false → reserves s !! id = Some (Some token) →
  NoDup wq' → (∀ t, t ∈ wq' ↔ t ∈ waiter_queue (inner (chan s)) ∧ t ≠ token) →
  (∀ t id', res' !! id' = Some (Some t) ↔ reserves s !! id' = Some (Some t) ∧ id' ≠ id) →
  let slab' := (slab_remove (send_wakers (inner (chan s))) token).1 in
  is_Some (slab_remove (send_wakers (inner (chan s))) token).2 ∧ waiters_ok slab' wq' false res' ∧
  ∀ wakes free, (free = true → ∀ w, (t ← head wq'; slab_get slab' t) = Some w → w ∈ wakes) → wake_ok slab' wq' res' (delete id (rouse s wakes)) free.
Proof.
  intros Hi Hopen Hid Hnd' Hwq Hres slab'. pose proof (inv_waiters _ _ Hi) as ((m & issued & fl & Hrep & Hdom) & Hnd & _ & Hal).
  destruct (Hal Hopen) as [Hq Hinj]. destruct (slab_remove_spec _ _ _ _ token Hrep) as (fl' & Hr' & Hrem). fold slab' in Hr'.
  assert (Htok : token ∈ waiter_queue (inner (chan s))) by (rewrite Hq; eauto).
  split; [rewrite Hrem; apply elem_of_dom; rewrite Hdom; set_solver|]. split.
  - split_and!; [|done|done|intros _; split].
    + exists (delete token m), issued, fl'. split; [done|]. rewrite dom_delete_L, Hdom. apply set_eq. intros t.
      rewrite elem_of_difference, !elem_of_list_to_set, elem_of_singleton, Hwq. done.
    + intros t. rewrite Hwq, Hq. split.
      * intros [[id' Ht] Hne]. exists id'. rewrite Hres. split; [done|]. intros ->. congruence.
      * intros [id' [Ht Hne]%Hres]. split; [eauto|]. intros ->. by apply Hne, (Hinj id' id token).
    + intros id1 id2 t [H1 _]%Hres [H2 _]%Hres. by eapply Hinj.
  - intros wakes free Hw. destruct (inv_wake _ _ Hi) as [Hsub _].
    assert (Hkeep : ∀ id' w, delete id (rouse s wakes) !! id' = Some w → id' ≠ id ∧ w ∉ wakes ∧
      ∃ t, reserves s !! id' = Some (Some t) ∧ t ∈ wq' ∧ slab_get slab' t = Some w).
    { intros id' w [Hne [Ha Hn]%rouse_lookup]%lookup_delete_Some. split_and!; [done|done|].
      destruct (Hsub id' w Ha) as (t & Ht & Htq & Hg). exists t. assert (t ≠ token) by (intros ->; by apply Hne, (Hinj id id' token)).
      split_and!; [done|by apply Hwq|]. rewrite (rep_get _ _ _ _ Hr'), lookup_delete_ne by done. by rewrite <-(rep_get _ _ _ _ Hrep). }
    split.
    + intros id' w Ha. destruct (Hkeep id' w Ha) as (Hne & _ & t & Ht & ?). exists t. by rewrite Hres.
    + intros Hf t id' Ht Hid'. destruct (delete id (rouse s wakes) !! id') as [w|] eqn:Ha; [|done].
      destruct (Hkeep id' w Ha) as (Hne & Hn & t' & Ht' & _ & Hg). apply Hres in Hid' as [Hid' _]. assert (t' = t) as -> by congruence.
      destruct Hn. apply Hw; [done|]. by rewrite Ht.
Qed.

(** A future that sleeps nowhere any more. *)
Lemma wake_ok_deleted cap s id res' free : inv cap s → (free = true → has_capacity (inner (chan s)) (capacity (chan s)) = true) →
  (∀ t id', res' !! id' = Some (Some t) ↔ reserves s !! id' = Some (Some t) ∧ id' ≠ id) →
  wake_ok (send_wakers (inner (chan s))) (waiter_queue (inner (chan s))) res' (delete id (asleep s)) free.
Proof.
  intros Hi Hf Hres. destruct (inv_wake _ _ Hi) as [Hsub Hhead]. split.
  - intros id' w [Hne Ha]%lookup_delete_Some. destruct (Hsub id' w Ha) as (t & Ht & ?). exists t. by rewrite Hres.
  - intros Hff t id' Ht [Hid Hne]%Hres. rewrite lookup_delete_ne by done. by eapply Hhead; auto.
Qed.

(** Nobody sleeps on a closed channel. *)
Lemma closed_awake cap s : inv cap s → receiver_dropped (chan s) = true → asleep s = ∅.
Proof.
  intros Hi Hd. destruct (inv_waiters _ _ Hi) as (_ & _ & Hcl & _), (inv_wake _ _ Hi) as [Hsub _]. apply map_eq. intros id.
  rewrite lookup_empty. destruct (asleep s !! id) as [w|] eqn:Ha; [|done]. destruct (Hsub id w Ha) as (t & _ & Ht & _).
  rewrite (Hcl Hd) in Ht. by apply not_elem_of_nil in Ht.
Qed.

Lemma wake_ok_closed cap s slab wq res id free : inv cap s → receiver_dropped (chan s) = true →
  wake_ok slab wq res (delete id (asleep s)) free.
Proof. intros Hi Hd. rewrite (closed_awake cap s Hi Hd), delete_empty. by split. Qed.

(** [cleanup_waiter] for future [id], whether it lives on or not. *)
Lemma inv_cleanup cap s id tok res' : inv cap s → reserves s !! id = Some tok →
  (∀ t id', res' !! id' = Some (Some t) ↔ reserves s !! id' = Some (Some t) ∧ id' ≠ id) →
  let '(c, _, wakes) := cleanup_waiter (chan s) tok in
  inv cap (set_asleep (set_reserves (after s c wakes) res') (delete id (rouse s wakes))).
Proof.
  intros Hi Hid Hres. unfold cleanup_waiter. destruct tok as [token|].
  2: { by_parts Hi.
       - destruct (inv_waiters _ _ Hi) as (Hr & Hnd & Hcl & Hal). split_and!; [done..|]. intros [Hq Hinj]%Hal. split.
         + intros t. rewrite Hq. split; intros [id' Ht]; exists id'; [apply Hres|by apply Hres in Ht as [? _]]. split; [done|].
           intros ->. congruence.
         + intros id1 id2 t [H1 _]%Hres [H2 _]%Hres. by eapply Hinj.
       - by apply (wake_ok_deleted cap). }
  destruct (receiver_dropped (chan s)) eqn:Hd.
  - destruct (inv_waiters _ _ Hi) as ((m & issued & fl & Hrep & Hdom) & Hnd & Hcl & _). specialize (Hcl Hd).
    destruct (slab_remove_spec _ _ _ _ token Hrep) as (fl' & Hr' & _). destruct (slab_remove _ _) as [slab' rem]. by_parts Hi.
    + rewrite Hd, Hcl. split_and!; [|constructor|done|done]. exists (delete token m), issued, fl'. split; [done|].
      rewrite dom_delete_L, Hdom, Hcl. set_solver.
    + rewrite Hcl. by apply (wake_ok_closed cap).
  - pose proof (retain_first_spec token (waiter_queue (inner (chan s)))) as Hrf.
    destruct Hrf as [Hnd' Hwq]; [by destruct (inv_waiters _ _ Hi) as (_ & ? & _)|].
    pose proof (waiter_gone cap s id token _ res' Hi Hd Hid Hnd' Hwq Hres) as (Hsome & Hw & Hwake).
    destruct (slab_remove _ _) as [slab' rem]. simpl in Hsome, Hw, Hwake. destruct Hsome as [x ->].
    unfold remove_waiter_token. cbn [with_waiters waiter_queue send_wakers].
    destruct (retain_first token (waiter_queue (inner (chan s)))) as [wq' found]. cbn [fst] in *. by_parts Hi.
    + by rewrite Hd.
    + apply Hwake. unfold next_if_capacity. cbn. intros Hf w Hwk. unfold has_capacity, used_slots in *. cbn in *. rewrite Hf.
      apply elem_option_list. unfold take_next_sender_waker. cbn. by destruct wq'.
    + rewrite Hd in *. pose proof (recv_ok_shrink cap s (next_if_capacity (with_waiters (with_waiters (inner (chan s)) slab' (waiter_queue (inner (chan s)))) slab' wq') (capacity (chan s))) Hi) as Hr.
      by rewrite Hd in Hr.
Qed.

Lemma insert_None_res (res : gmap N (option SlabToken)) id t id' :
  <[id := None]> res !! id' = Some (Some t) ↔ res !! id' = Some (Some t) ∧ id' ≠ id.
Proof. rewrite lookup_insert_Some. naive_solver. Qed.

Lemma delete_res (res : gmap N (option SlabToken)) id t id' :
  delete id res !! id' = Some (Some t) ↔ res !! id' = Some (Some t) ∧ id' ≠ id.
Proof. rewrite lookup_delete_Some. naive_solver. Qed.

(** A waiter that stays: its waker is replaced, it is asleep, and it is not first with a slot free. *)
Lemma inv_poll_queued cap s id token waker : inv cap s → receiver_dropped (chan s) = false → reserves s !! id = Some (Some token) →
  bool_decide (head (waiter_queue (inner (chan s))) = Some token) && has_capacity (inner (chan s)) (capacity (chan s)) = false →
  let slab := match slab_get_mut (send_wakers (inner (chan s))) token with
              | Some (old, put) => if old =? waker then send_wakers (inner (chan s)) else put waker
              | None => send_wakers (inner (chan s))
              end in
  inv cap (set_asleep (set_reserves (after s (with_inner (chan s) (with_waiters (inner (chan s)) slab (waiter_queue (inner (chan s))))) [])
    (<[id := Some token]> (reserves s))) (<[id := waker]> (rouse s []))).
Proof.
  intros Hi Hopen Hid Hfirst slab. destruct (inv_waiters _ _ Hi) as ((m & issued & fl & Hrep & Hdom) & Hnd & Hcl & Hal).
  destruct (Hal Hopen) as [Hq Hinj]. assert (Htok : token ∈ waiter_queue (inner (chan s))) by (rewrite Hq; eauto).
  assert (Hslab : slab_rep slab (<[token := waker]> m) issued fl).
  { pose proof (slab_get_mut_spec _ _ _ _ token Hrep) as Hg. unfold slab. destruct (slab_get_mut _ _) as [[old put]|].
    - destruct Hg as [Hm Hput]. destruct (N.eqb_spec old waker) as [->|]; [by rewrite insert_id|apply Hput].
    - apply not_elem_of_dom in Hg. rewrite Hdom in Hg. set_solver. }
  by_parts Hi.
  - rewrite insert_id by done. split_and!; [|done|done|done]. exists (<[token := waker]> m), issued, fl. split; [done|].
    rewrite dom_insert_L, Hdom. set_solver.
  - rewrite insert_id by done. destruct (inv_wake _ _ Hi) as [Hsub Hhead]. split.
    + intros id' w [[<- <-]|[Hne Ha]]%lookup_insert_Some.
      { exists token. split_and!; [done|done|]. by rewrite (rep_get _ _ _ _ Hslab), lookup_insert_eq. }
      destruct (Hsub id' w Ha) as (t & Ht & Htq & Hg). exists t. split_and!; [done|done|].
      rewrite (rep_get _ _ _ _ Hslab), lookup_insert_ne by (intros <-; by apply Hne, (Hinj id id' token)).
      by rewrite <-(rep_get _ _ _ _ Hrep).
    + intros Hf t id' Ht Hid'. change (has_capacity (inner (chan s)) (capacity (chan s)) = true) in Hf.
      rewrite Hf, andb_true_r in Hfirst. apply bool_decide_eq_false in Hfirst.
      rewrite lookup_insert_ne by (intros <-; congruence). by eapply Hhead.
Qed.

(** A new waiter at the end of the queue. *)
Lemma inv_poll_new cap s id slab token waker : inv cap s → receiver_dropped (chan s) = false → reserves s !! id = Some None →
  bool_decide (waiter_queue (inner (chan s)) = []) && has_capacity (inner (chan s)) (capacity (chan s)) = false →
  slab_insert (send_wakers (inner (chan s))) waker = Done (slab, token) →
  inv cap (set_asleep (set_reserves (after s (with_inner (chan s) (with_waiters (inner (chan s)) slab (waiter_queue (inner (chan s)) ++ [token]))) [])
    (<[id := Some token]> (reserves s))) (<[id := waker]> (rouse s []))).
Proof.
  intros Hi Hopen Hid Hfirst Hins. destruct (inv_waiters _ _ Hi) as ((m & issued & fl & Hrep & Hdom) & Hnd & Hcl & Hal).
  destruct (Hal Hopen) as [Hq Hinj]. pose proof (slab_insert_spec _ _ _ _ waker Hrep) as Hs. rewrite Hins in Hs.
  destruct Hs as (Hfresh & fl' & Hrep'). assert (Hnq : token ∉ waiter_queue (inner (chan s))).
  { intros Ht. apply Hfresh, (rep_dom _ _ _ _ Hrep). rewrite Hdom. by apply elem_of_list_to_set. }
  by_parts Hi.
  - split_and!.
    + eexists _, _, _. split; [done|]. rewrite dom_insert_L, Hdom. set_solver.
    + apply NoDup_app. split_and!; [done|set_solver|apply NoDup_singleton].
    + rewrite Hopen. done.
    + intros _. split.
      * intros t. rewrite elem_of_app, list_elem_of_singleton, Hq. split.
        -- intros [[id' Ht]| ->]; [exists id'; rewrite lookup_insert_ne by congruence; done|exists id; apply lookup_insert_eq].
        -- intros [id' [[-> [= ->]]|[Hne Ht]]%lookup_insert_Some]; eauto.
      * intros id1 id2 t H1%lookup_insert_Some H2%lookup_insert_Some. 
        destruct H1 as [[? H1]|[_ H1]], H2 as [[? H2]|[_ H2]]; simplify_eq; [done|..|by eapply Hinj];
          destruct Hnq; apply Hq; eauto.
  - destruct (inv_wake _ _ Hi) as [Hsub Hhead]. split.
    + intros id' w [[<- <-]|[Hne Ha]]%lookup_insert_Some.
      { exists token. rewrite lookup_insert_eq, (rep_get _ _ _ _ Hrep'), lookup_insert_eq. split_and!; [done|set_solver|done]. }
      destruct (Hsub id' w Ha) as (t & Ht & Htq & Hg). exists t. rewrite lookup_insert_ne by done.
      split_and!; [done|set_solver|]. rewrite (rep_get _ _ _ _ Hrep'), lookup_insert_ne by (by intros <-).
      by rewrite <-(rep_get _ _ _ _ Hrep).
    + intros Hf t id' Ht Hid'. change (has_capacity (inner (chan s)) (capacity (chan s)) = true) in Hf.
      rewrite Hf, andb_true_r in Hfirst. apply bool_decide_eq_false in Hfirst.
      destruct (waiter_queue (inner (chan s))) as [|h wq] eqn:Hwq; [done|]. injection Ht as ->.
      assert (id' ≠ id) as Hne by (intros ->; rewrite lookup_insert_eq in Hid'; simplify_eq; apply Hnq; left).
      rewrite lookup_insert_ne in Hid' by done. rewrite lookup_insert_ne by done. by eapply Hhead.
Qed.

Lemma inv_poll_reserve cap s s' id waker : inv cap s → enabled s (OPollReserve id waker) = true →
  sys_step s (OPollReserve id waker) = Done s' → inv cap s'.
Proof.
  intros Hi Hen. cbn [enabled] in Hen. apply bool_decide_eq_true in Hen as [tok Hid]. cbn [sys_step]. rewrite Hid. change (default None (Some tok)) with tok.
  unfold reserve_poll_live. destruct (receiver_dropped (chan s)) eqn:Hd.
  { intros [= <-]. by_parts Hi.
    - destruct (inv_waiters _ _ Hi) as (Hr & Hnd & Hcl & _). rewrite Hd. split_and!; [done|done|auto|done].
    - by apply (wake_ok_closed cap). }
  destruct tok as [token|].
  - destruct (bool_decide (head (waiter_queue (inner (chan s))) = Some token) && has_capacity (inner (chan s)) (capacity (chan s))) eqn:Hfirst.
    + pose proof Hfirst as [Hhd Hc]%andb_true_iff. apply bool_decide_eq_true in Hhd. cbn [with_reserved waiter_queue].
      rewrite (bool_decide_true (head (waiter_queue (inner (chan s))) = Some token)) by done. cbn [with_waiters send_wakers waiter_queue].
      destruct (waiter_queue (inner (chan s))) as [|h wq] eqn:Hwq; [done|]. injection Hhd as ->. cbn [tail].
      assert (Hnd : NoDup (token :: wq)) by (rewrite <-Hwq; by destruct (inv_waiters _ _ Hi) as (_ & ? & _)).
      apply NoDup_cons in Hnd as [Hni Hnd].
      destruct (waiter_gone cap s id token wq (<[id := None]> (reserves s)) Hi Hd Hid Hnd) as (_ & Hw & Hwake).
      { intros t. rewrite Hwq, elem_of_cons. naive_solver. }
      { intros t id'. apply insert_None_res. }
      intros [= <-]. by_parts Hi.
      * by rewrite Hd.
      * apply Hwake. unfold next_if_capacity. cbn. intros Hf w Hwk. unfold has_capacity, used_slots in *. cbn in *. rewrite Hf.
        apply elem_option_list. unfold take_next_sender_waker. cbn. by destruct wq.
      * slot_arith Hi.
      * intros x Hr. apply rouse_recv_sub in Hr. by apply (inv_recv _ _ Hi).
    + intros [= <-]. by apply inv_poll_queued.
  - destruct (bool_decide (waiter_queue (inner (chan s)) = []) && has_capacity (inner (chan s)) (capacity (chan s))) eqn:Hfirst.
    + pose proof Hfirst as [Hwq Hc]%andb_true_iff. apply bool_decide_eq_true in Hwq. intros [= <-]. by_parts Hi.
      * destruct (inv_waiters _ _ Hi) as (Hr & Hnd & Hcl & Hal). split_and!; [done..|]. intros [Hq Hinj]%Hal. split.
        -- intros t. rewrite Hq. split; intros [id' Ht]; exists id'; [apply insert_None_res|by apply insert_None_res in Ht as [? _]].
           split; [done|]. intros ->. congruence.
        -- intros id1 id2 t [H1 _]%insert_None_res [H2 _]%insert_None_res. by eapply Hinj.
      * destruct (wake_ok_deleted cap s id (<[id := None]> (reserves s)) false Hi) as [Hsub _]; [done|intros t id'; apply insert_None_res|].
        rewrite Hwq in *. by split.
      * slot_arith Hi.
    + destruct (slab_insert _ waker) as [[slab token]|] eqn:Hins; [|done]. intros [= <-]. by apply inv_poll_new.
Qed.

Lemma inv_reserve cap s id : inv cap s → reserves s !! id = None → inv cap (set_reserves s (<[id := None]> (reserves s))).
Proof.
  intros Hi Hid. by_parts Hi.
  2: { destruct (inv_wake _ _ Hi) as [Hsub Hhead]. split.
       - intros id' w Ha. destruct (Hsub id' w Ha) as (t & Ht & ?). exists t. rewrite lookup_insert_ne by congruence. done.
       - intros Hf t id' Ht [Hid' _]%insert_None_res. by eapply Hhead. }
  destruct (inv_waiters _ _ Hi) as (Hr & Hnd & Hcl & Hal). split_and!; [done..|].
  intros [Hq Hinj]%Hal. split.
  - intros t. rewrite Hq. split; intros [id' Ht]; exists id'; [apply insert_None_res|by apply insert_None_res in Ht as [? _]].
    split; [done|]. intros ->. congruence.
  - intros id1 id2 t [H1 _]%insert_None_res [H2 _]%insert_None_res. by eapply Hinj.
Qed.

Lemma inv_permit_send cap s s' v : inv cap s → 0 < permits s → sys_step s (OPermitSend v) = Done s' → inv cap s'.
Proof.
  intros Hi Hp. destruct (inv_slots _ _ Hi) as [Hr Hu]. cbn [sys_step]. unfold permit_try_send, release_slot.
  rewrite (proj2 (N.eqb_neq _ _)) by lia. destruct (receiver_dropped (chan s)) eqn:Hd.
  - intros [= <-]. by_parts Hi; [|slot_arith Hi].
    rewrite (closed_awake cap s Hi Hd). split; [by intros id w|done].
  - intros [= <-]. by_parts Hi.
    + shrink Hi.
    + slot_arith Hi.
    + by apply (recv_ok_taken cap); [|auto].
    + rewrite ?app_nil_r. by apply history_commit, Hi.
    + intros Hg. destruct (inv_gone _ _ Hi Hg). congruence.
Qed.

Lemma inv_permit_abort cap s s' : inv cap s → 0 < permits s → sys_step s OPermitAbort = Done s' → inv cap s'.
Proof.
  intros Hi Hp. destruct (inv_slots _ _ Hi) as [Hr Hu]. cbn [sys_step]. unfold permit_abort, release_slot.
  rewrite (proj2 (N.eqb_neq _ _)) by lia. intros [= <-]. by_parts Hi.
  - by apply (wake_ok_next s _ _ cap); [|auto].
  - slot_arith Hi.
  - by apply (recv_ok_shrink cap).
Qed.

Lemma count_up n : n < isize_MAX → wrapping_add usize_MAX n 1 = n + 1.
Proof. intros Hn. apply wrapping_add_1. unfold isize_MAX, usize_MAX, u64_MAX in *. lia. Qed.

Lemma inv_sender_clone cap s : inv cap s → senders s < isize_MAX →
  inv cap (set_senders (after s (sender_clone (chan s)) []) (senders s + 1) (dropping s)).
Proof.
  intros Hi Hn. destruct (inv_senders _ _ Hi) as [Hc Hle]. by_parts Hi; rewrite Hc, count_up by done; [|split; lia].
  intros x Ha. destruct (inv_recv _ _ Hi x Ha) as (? & ? & ? & _). split_and!; [done..|]. left. lia.
Qed.

Lemma inv_sender_drop cap s s' : inv cap s → 0 < senders s → sys_step s OSenderDropCount = Done s' → inv cap s'.
Proof.
  intros Hi Hn. destruct (inv_senders _ _ Hi) as [Hc Hle]. cbn [sys_step]. unfold sender_drop_count. intros [= <-].
  assert (Hw : wrapping_sub usize_MAX (senders s) 1 = senders s - 1).
  { apply wrapping_sub_small; unfold isize_MAX, usize_MAX, u64_MAX in *; lia. }
  by_parts Hi; rewrite Hc, Hw; [|split; lia]. intros x Ha. destruct (inv_recv _ _ Hi x Ha) as (? & ? & ? & Hor). split_and!; [done..|].
  destruct (N.eqb_spec (senders s) 1); lia.
Qed.

Lemma inv_received cap s v q w : inv cap s → queue (inner (chan s)) = v :: q →
  let i := with_recv_waker (with_queue (inner (chan s)) q) w in
  inv cap (set_recv_asleep (log (after s (with_inner (chan s) i) (option_list (take_next_sender_waker i))) [] [v] [] []) None).
Proof.
  intros Hi Hq i. by_parts Hi.
  - by apply (wake_ok_next s _ _ cap); [|auto].
  - destruct (inv_slots _ _ Hi) as [? Hu]. unfold slots_ok, used_slots in *. cbn. rewrite Hq in Hu. autorewrite with len in *. lia.
  - by intros ? [=].
  - rewrite ?app_nil_r. apply history_receive. rewrite <-Hq. apply Hi.
  - intros Hg. destruct (inv_gone _ _ Hi Hg). congruence.
Qed.

Lemma inv_no_waker cap s w k : inv cap s → inv cap (set_recv_asleep (after s (with_inner (chan s)
  (mkInner (queue (inner (chan s))) (reserved (inner (chan s))) (send_wakers (inner (chan s))) (waiter_queue (inner (chan s))) w k)) []) None).
Proof. intros Hi. by_parts Hi. by intros ? [=]. Qed.

Lemma inv_poll_recv cap s s' cancelled waker : inv cap s → sys_step s (OPollRecv cancelled waker) = Done s' → inv cap s'.
Proof.
  intros Hi. cbn [sys_step]. unfold poll_recv. destruct cancelled; [intros [= <-]; by apply inv_no_waker|].
  destruct (queue (inner (chan s))) as [|v q] eqn:Hq; [|intros [= <-]; by apply inv_received].
  destruct (disconnected (chan s)) eqn:Hdis.
  - intros [= <-]. by apply inv_no_waker.
  - unfold disconnected in Hdis. N_bools. intros [= <-].
    assert (Hw : match recv_waker (inner (chan s)) with
      | Some existing => if existing =? waker then inner (chan s) else with_recv_waker (inner (chan s)) (Some waker)
      | None => with_recv_waker (inner (chan s)) (Some waker) end = with_recv_waker (inner (chan s)) (Some waker)).
    { destruct (recv_waker (inner (chan s))) as [x|] eqn:Hx; [|done]. destruct (N.eqb_spec x waker) as [->|]; [|done].
      unfold with_recv_waker. rewrite <-Hx. by destruct (inner (chan s)). }
    rewrite Hw. by_parts Hi. intros x [= <-]. split_and!; [done|done|done|]. left. lia.
Qed.

Lemma inv_try_recv cap s s' : inv cap s → sys_step s OTryRecv = Done s' → inv cap s'.
Proof.
  intros Hi. cbn [sys_step]. unfold try_recv.
  destruct (queue (inner (chan s))) as [|v q] eqn:Hq; [|intros [= <-]; by apply inv_received].
  destruct (disconnected (chan s)); intros [= <-]; [by apply inv_no_waker|by rewrite after_same].
Qed.

Lemma inv_step cap s o s' : inv cap s → enabled s o = true → sys_step s o = Done s' → inv cap s'.
Proof.
  intros Hi Hen. destruct o; cbn [enabled] in Hen; N_bools.
  - by apply inv_try_reserve.
  - by apply inv_try_send.
  - by apply inv_evict.
  - intros [= <-]. by apply inv_wake_receiver.
  - by apply inv_close_receiver.
  - apply bool_decide_eq_true in Hen. intros [= <-]. by apply inv_reserve.
  - apply inv_poll_reserve; [done|]. cbn [enabled]. done.
  - intros [= <-]. by_parts Hi.
  - apply bool_decide_eq_true in Hen as [tok Hid]. cbn [sys_step]. rewrite Hid. change (default None (Some tok)) with tok.
    pose proof (inv_cleanup cap s id tok (<[id := None]> (reserves s)) Hi Hid (insert_None_res _ _)) as Hc.
    destruct (cleanup_waiter _ tok) as [[c token] wakes] eqn:Hcl. intros [= <-]. assert (token = None) as ->; [|done].
    unfold cleanup_waiter in Hcl. by repeat case_match; simplify_eq.
  - apply bool_decide_eq_true in Hen as [tok Hid]. cbn [sys_step]. rewrite Hid. change (default None (Some tok)) with tok.
    pose proof (inv_cleanup cap s id tok (delete id (reserves s)) Hi Hid (delete_res _ _)) as Hc. unfold reserve_drop.
    destruct (cleanup_waiter _ tok) as [[c token] wakes]. by intros [= <-].
  - by apply inv_permit_send.
  - by apply inv_permit_abort.
  - intros [= <-]. by apply inv_sender_clone.
  - cbn [sys_step]. unfold weak_upgrade. destruct (sender_count _ =? 0); intros [= <-]; [rewrite after_same|by apply inv_sender_clone].
    unfold set_senders. by destruct s.
  - by apply inv_sender_drop.
  - intros [= <-]. pose proof (inv_wake_receiver cap s Hi) as Hw. by_parts Hw. by apply (recv_ok_taken cap); [|auto].
  - by apply inv_receiver_close.
  - by apply inv_poll_recv.
  - by apply inv_try_recv.
  - intros [= <-]. by apply inv_no_waker.
  - by apply inv_receiver_drop.
Qed.

Lemma inv_new cap c : channel (T := T) cap = Done c → inv cap (sys_new c).
Proof.
  unfold channel. case_match; [|done]. intros [= <-]. N_bools. split; cbn; try done.
  - split_and!; [eexists ∅, ∅, []; split; [apply slab_rep_new|done]|constructor|done|]. intros _. split.
    + intros t. split; [by intros ?%not_elem_of_nil|]. by intros [id ?].
    + by intros id id' t ?.
  - split; [done|]. change (0 ≤ cap). lia.
Qed.

Lemma mpsc_reachable_inv cap s : reachable cap s → inv cap s.
Proof. induction 1; [by apply inv_new|by eapply inv_step]. Qed.

(** ** Theorems *)

(** The slots of the channel are accounted for.  In every reachable state,
    under any interleaving of senders, permits, reserve futures and the receiver,
    the reserved count is the number of outstanding permits (so the guarded
    decrements never skip), queued values and permits together never exceed the
    capacity, the waker slab holds exactly one entry per queued waiter, and, while
    the channel is open, the queued waiters are exactly the reserve futures that
    hold a token.  No operation panics unless the slab has 2^32 - 1 slots. *)
Theorem mpsc_slots_accounted cap s : reachable cap s →
  reserved (inner (chan s)) = permits s ∧ lenN (queue (inner (chan s))) + permits s ≤ cap ∧
  slab_len (send_wakers (inner (chan s))) = lenN (waiter_queue (inner (chan s))) ∧
  (receiver_dropped (chan s) = false →
    ∀ t, t ∈ waiter_queue (inner (chan s)) ↔ ∃ id, reserves s !! id = Some (Some t)) ∧
  (∀ o, enabled s o = true → ¬ slab_full (send_wakers (inner (chan s))) → ∃ s', sys_step s o = Done s').
Proof.
  intros Hs%mpsc_reachable_inv. destruct (inv_slots _ _ Hs) as [Hr Hu], (inv_cap _ _ Hs) as [Hcap _].
  destruct (inv_waiters _ _ Hs) as ((m & issued & fl & Hrep & Hdom) & Hnd & _ & Hal). split_and!.
  - done.
  - unfold used_slots in Hu. lia.
  - rewrite (rep_len _ _ _ _ Hrep). unfold lenN. rewrite <-size_dom, Hdom. f_equal. by apply size_list_to_set.
  - intros [Hq _]%Hal. done.
  - intros o Hen Hfull. destruct o; cbn [sys_step]; repeat case_match; eauto. unfold reserve_poll_live.
    repeat case_match; try (by eexists). pose proof (slab_insert_spec _ _ _ _ waker Hrep) as Hi.
    destruct (slab_insert _ waker) as [[slab t]|]; [by eexists|done].
Qed.

Lemma poll_first_grants c t waker : receiver_dropped c = false → has_capacity (inner c) (capacity c) = true →
  head (waiter_queue (inner c)) = Some t →
  ∃ c' wakes, reserve_poll_live c (Some t) waker = Done (c', None, Ready (Ok ()), wakes) ∧
    waiter_queue (inner c') = tail (waiter_queue (inner c)).
Proof.
  intros Hd Hc Ht. unfold reserve_poll_live. rewrite Hd, bool_decide_true, Hc by done. cbn [andb with_reserved waiter_queue].
  rewrite bool_decide_true by done. eexists _, _. by split.
Qed.

(** C6: No wake-up is lost.  Whether a future was woken is judged by the waker of its
    last poll.  In every reachable state, a reserve future that returned [Pending]
    and was not woken since is in the queue of waiting senders, registered with the
    waker of that last poll; a free slot of the open channel means that the first
    waiting sender (if there is one) has been woken since it last returned
    [Pending], and polling it then yields the permit; once the channel is closed
    every waiting sender has been woken; and a receiver that returned [Pending] and
    was not woken since is registered with the waker of its last poll and has an
    empty queue in an open channel that still has a sender, or whose last sender is
    about to wake it. *)
Theorem mpsc_no_lost_wakeup cap s : reachable cap s →
  (∀ id w, asleep s !! id = Some w → ∃ t, reserves s !! id = Some (Some t) ∧
     t ∈ waiter_queue (inner (chan s)) ∧ slab_get (send_wakers (inner (chan s))) t = Some w) ∧
  (receiver_dropped (chan s) = false → has_capacity (inner (chan s)) cap = true →
    ∀ t, head (waiter_queue (inner (chan s))) = Some t →
      ∃ id, reserves s !! id = Some (Some t) ∧ asleep s !! id = None ∧
      ∀ waker, ∃ c' wakes, reserve_poll_live (chan s) (Some t) waker = Done (c', None, Ready (Ok ()), wakes) ∧
        waiter_queue (inner c') = tail (waiter_queue (inner (chan s)))) ∧
  (receiver_dropped (chan s) = true → asleep s = ∅ ∧ waiter_queue (inner (chan s)) = []) ∧
  (∀ w, recv_asleep s = Some w → recv_waker (inner (chan s)) = Some w ∧
    queue (inner (chan s)) = [] ∧ receiver_dropped (chan s) = false ∧ (0 < senders s ∨ 0 < dropping s)).
Proof.
  intros Hs%mpsc_reachable_inv. destruct (inv_cap _ _ Hs) as [Hcap _]. destruct (inv_wake _ _ Hs) as [Hsub Hhead].
  destruct (inv_waiters _ _ Hs) as (_ & _ & Hcl & Hal). split_and!.
  - done.
  - intros Hd Hc t Ht. rewrite <-Hcap in Hc. destruct (Hal Hd) as [Hq _].
    assert (t ∈ waiter_queue (inner (chan s))) as [id Hid]%Hq by (destruct (waiter_queue _); simplify_eq/=; left).
    exists id. split_and!; [done|by eapply Hhead|]. intros waker. by apply poll_first_grants.
  - intros Hd. split; [by apply (closed_awake cap)|by apply Hcl].
  - intros w Ha. destruct (inv_recv _ _ Hs w Ha) as (? & ? & ? & ?). destruct (inv_senders _ _ Hs) as [<- _]. done.
Qed.

Lemma sublist_same_length {A} (l k : list A) : l `sublist_of` k → length k = length l → l = k.
Proof.
  induction 1 as [|x l k Hs IH|x l k Hs IH]; simpl; intros Hlen; [done|f_equal; apply IH; lia|].
  apply sublist_length in Hs. lia.
Qed.

(** C15: Values are delivered once, in order.  In every reachable state each value
    whose send was accepted is exactly one of received, evicted, discarded with
    the receiver or still queued, and the received values followed by the queue
    are a subsequence of the accepted ones, in the order they were committed; if
    nothing was evicted or discarded the two are equal. *)
Theorem mpsc_delivers_in_order cap s : reachable cap s →
  committed s ≡ₚ received s ++ evicted s ++ discarded s ++ queue (inner (chan s)) ∧
  received s ++ queue (inner (chan s)) `sublist_of` committed s ∧
  (evicted s = [] → discarded s = [] → received s ++ queue (inner (chan s)) = committed s).
Proof.
  intros Hs%mpsc_reachable_inv. destruct (inv_history _ _ Hs) as [Hp Hsub]. split_and!; [done|done|]. intros He Hd.
  rewrite He, Hd in Hp. apply sublist_same_length; [done|]. by rewrite Hp.
Qed.

(** *** Fairness and closing *)

Lemma retain_first_sublist token q q' found : retain_first token q = (q', found) → q' `sublist_of` q.
Proof.
  revert q' found. induction q as [|t q IH]; intros q' found; cbn [retain_first]; [by intros [= <- <-]|].
  case_decide; [intros [= <- <-]; by apply sublist_cons|]. destruct (retain_first token q) as [q0 f]. intros [= <- <-].
  apply sublist_skip. by eapply IH.
Qed.

Lemma sublist_tail {A} (l : list A) : tail l `sublist_of` l.
Proof. destruct l; [done|by apply sublist_cons]. Qed.

(** Every branch of an operation, with the state it ends in. *)
Ltac op_cases H :=
  unfold try_reserve, try_send, send_evict_oldest_where, wake_receiver, sender_drop_wake, close_receiver, close, receiver_drop, drain_waiters,
    reserve_poll_live, reserve_drop, cleanup_waiter, remove_waiter_token, weak_upgrade, sender_clone, permit_try_send, permit_abort, release_slot,
    poll_recv, try_recv, take_recv_waker, mbind, exec_bind in H;
  repeat case_match; simplify_eq/=.

Lemma poll_grant c tok waker c' tok' wakes : reserve_poll_live c tok waker = Done (c', tok', Ready (Ok ()), wakes) →
  match tok with
  | Some t => waiter_queue (inner c) = t :: waiter_queue (inner c')
  | None => waiter_queue (inner c) = [] ∧ waiter_queue (inner c') = []
  end.
Proof.
  unfold reserve_poll_live. destruct (receiver_dropped c); [done|]. destruct tok as [t|].
  - destruct (waiter_queue (inner c)) as [|h q] eqn:Hq; cbn [head]; [by rewrite bool_decide_false|].
    case_bool_decide as Hh; [|done]. injection Hh as ->. case_match; [|done]. cbn [with_reserved waiter_queue].
    rewrite Hq, bool_decide_true by done. by intros [= <- _ _].
  - case_bool_decide as Hq; [|by destruct (slab_insert _ _)]. case_match; [|by destruct (slab_insert _ _)].
    intros [= <- _ _]. done.
Qed.

(** Reservations are first come, first served.  A step of the system only
    removes waiters from the queue or appends one new waiter, so waiters never
    overtake each other; and a poll grants a permit only to the first waiter, or
    to a newcomer when nobody waits. *)
Theorem mpsc_reserve_is_fifo cap s o s' : reachable cap s → enabled s o = true → sys_step s o = Done s' →
  (waiter_queue (inner (chan s')) `sublist_of` waiter_queue (inner (chan s)) ∨
   ∃ t, waiter_queue (inner (chan s')) = waiter_queue (inner (chan s)) ++ [t]) ∧
  (∀ id waker, o = OPollReserve id waker → permits s' = permits s + 1 →
    match reserves s !! id with
    | Some (Some t) => waiter_queue (inner (chan s)) = t :: waiter_queue (inner (chan s'))
    | _ => waiter_queue (inner (chan s)) = [] ∧ waiter_queue (inner (chan s')) = []
    end).
Proof.
  intros _ _ Hstep. split.
  - destruct o; cbn in Hstep; op_cases Hstep; eauto using sublist_nil_l, retain_first_sublist, sublist_tail.
  - intros id waker -> Hp. cbn in Hstep. destruct (reserve_poll_live _ _ waker) as [[[[c tok] r] wakes]|] eqn:Hpoll; [|done].
    simpl in Hstep. destruct r as [[[]|e]|]; simplify_eq/=; [|lia..]. apply poll_grant in Hpoll.
    by destruct (reserves s !! id) as [[t|]|].
Qed.

(** A closed channel takes nothing in and gives every value back.  When the
    receiver is gone or closed, each way to send or reserve answers
    [Disconnected] (with the value, where there is one) and leaves the queue as it
    is; a receiver that closed still gets the queued values in order and then
    [Disconnected]; and no step opens the channel again. *)
Theorem mpsc_closed_refuses cap s : reachable cap s → receiver_dropped (chan s) = true →
  (try_reserve (chan s)).2 = Err (SendDisconnected ()) ∧
  (∀ v, try_send (chan s) v = (chan s, Err (SendDisconnected v), [])) ∧
  (∀ v p, send_evict_oldest_where (chan s) v p = (chan s, Err (SendDisconnected v), [])) ∧
  (∀ v, ∃ c, permit_try_send (chan s) v = (c, Err (SendDisconnected v), []) ∧ queue (inner c) = queue (inner (chan s))) ∧
  (∀ t w, reserve_poll_live (chan s) t w = Done (chan s, None, Ready (Err (SendDisconnected ())), [])) ∧
  (∀ w, (poll_recv (chan s) false w).1.2 = Ready (match queue (inner (chan s)) with v :: _ => Ok v | [] => Err RecvDisconnected end)) ∧
  (∀ o s', enabled s o = true → sys_step s o = Done s' → receiver_dropped (chan s') = true ∧ committed s' = committed s).
Proof.
  intros _ Hd. unfold try_reserve, try_send, send_evict_oldest_where, permit_try_send, reserve_poll_live, poll_recv, disconnected. rewrite Hd, orb_true_r.
  split_and!; try done.
  - intros v. eexists. split; [done|]. unfold release_slot. by case_match.
  - intros w. by destruct (queue (inner (chan s))).
  - intros o s' _ Hstep. destruct o; cbn in Hstep; op_cases Hstep; rewrite ?app_nil_r; try congruence; split; congruence.
Qed.

End invariant.

(** ** Running a schedule *)

Section schedule.
Context {T : Type}.

Fixpoint sys_run (s : System T) (os : list (Op T)) : option (System T) :=
  match os with
  | [] => Some s
  | o :: os => if enabled s o then match sys_step s o with Done s => sys_run s os | Panics => None end else None
  end.

Lemma run_reachable cap os s s' : reachable cap s → sys_run s os = Some s' → reachable cap s'.
Proof.
  revert s. induction os as [|o os IH]; intros s Hs; cbn [sys_run]; [by intros [= <-]|].
  destruct (enabled s o) eqn:Hen; [|done]. destruct (sys_step s o) eqn:Hst; [|done]. apply IH. by eapply reach_step.
Qed.

End schedule.

(** Capacity 2: two values sent, two reservations wait (tasks 11 and 12), the
    receiver takes one value; the first waiter gives up, the second is granted. *)
Definition schedule1 : list (Op N) :=
  [OPollRecv false 77; OTrySend 5; OTrySend 6; OReserve 1; OReserve 2; OPollReserve 1 11; OPollReserve 2 12; OTryRecv].
Definition schedule2 : list (Op N) :=
  schedule1 ++ [ODropReserve 1; OPollReserve 2 12; OPermitSend 7; OEvict 8 (λ v, bool_decide (v = 6)); OTryRecv; OPollRecv false 77; OPollRecv false 77].
Definition schedule3 : list (Op N) := schedule1 ++ [OReceiverClose].

Definition mpsc_start : System N :=
  match channel (T := N) 2 with Done c => sys_new c | Panics => sys_new (mkShared inner_new 0 true 0) end.
Definition mpsc_at (os : list (Op N)) : System N := default mpsc_start (sys_run mpsc_start os).

Lemma mpsc_start_reachable : reachable 2 mpsc_start.
Proof. by apply reach_new. Qed.

Lemma mpsc_at_reachable os : sys_run mpsc_start os = Some (mpsc_at os) → reachable 2 (mpsc_at os).
Proof. apply run_reachable, mpsc_start_reachable. Qed.

Lemma mpsc_slots_accounted_witness : ∃ s : System N, reachable 2 s ∧ permits s = 0 ∧ lenN (queue (inner (chan s))) + permits s ≤ 2 ∧
  slab_len (send_wakers (inner (chan s))) = 2.
Proof.
  exists (mpsc_at schedule1). assert (Hs : reachable 2 (mpsc_at schedule1)) by (apply mpsc_at_reachable; vm_compute; reflexivity).
  destruct (mpsc_slots_accounted 2 (mpsc_at schedule1) Hs) as (_ & Hle & Hslab & _).
  split_and!; [done|vm_compute; reflexivity|exact Hle|]. rewrite Hslab. vm_compute. reflexivity.
Defined.

Lemma mpsc_no_lost_wakeup_witness : ∃ s : System N, reachable 2 s ∧ head (waiter_queue (inner (chan s))) = Some (mkToken 0 0) ∧
  asleep s !! 1 = None ∧ asleep s !! 2 = Some 12 ∧ slab_get (send_wakers (inner (chan s))) (mkToken 1 0) = Some 12 ∧
  asleep (mpsc_at schedule3) = ∅.
Proof.
  exists (mpsc_at schedule1). assert (Hs : reachable 2 (mpsc_at schedule1)) by (apply mpsc_at_reachable; vm_compute; reflexivity).
  assert (Hs3 : reachable 2 (mpsc_at schedule3)) by (apply mpsc_at_reachable; vm_compute; reflexivity).
  destruct (mpsc_no_lost_wakeup 2 (mpsc_at schedule1) Hs) as (Hreg & _ & _ & _).
  destruct (mpsc_no_lost_wakeup 2 (mpsc_at schedule3) Hs3) as (_ & _ & Hcl & _).
  assert (Ha : asleep (mpsc_at schedule1) !! 2 = Some 12) by (vm_compute; reflexivity).
  split_and!; [done|vm_compute; reflexivity|vm_compute; reflexivity|exact Ha| |].
  - destruct (Hreg 2 12 Ha) as (t & Ht & _ & Hg). vm_compute in Ht. injection Ht as <-. exact Hg.
  - apply Hcl. vm_compute. reflexivity.
Defined.

Lemma mpsc_delivers_in_order_witness : ∃ s : System N, reachable 2 s ∧ committed s = [5; 6; 7; 8] ∧ received s = [5; 7; 8] ∧ evicted s = [6] ∧
  received s ++ queue (inner (chan s)) `sublist_of` committed s ∧ recv_asleep s = Some 77.
Proof.
  exists (mpsc_at schedule2). assert (Hs : reachable 2 (mpsc_at schedule2)) by (apply mpsc_at_reachable; vm_compute; reflexivity).
  destruct (mpsc_delivers_in_order 2 (mpsc_at schedule2) Hs) as (_ & Hsub & _).
  split_and!; [done|vm_compute; reflexivity..|exact Hsub|vm_compute; reflexivity].
Defined.

Lemma mpsc_reserve_is_fifo_witness : ∃ s', sys_step (mpsc_at schedule1) (OPollReserve 1 11) = Done s' ∧
  waiter_queue (inner (chan (mpsc_at schedule1))) = mkToken 0 0 :: waiter_queue (inner (chan s')).
Proof.
  assert (Hs : reachable 2 (mpsc_at schedule1)) by (apply mpsc_at_reachable; vm_compute; reflexivity).
  eexists. split; [vm_compute; reflexivity|].
  match goal with |- _ = _ :: waiter_queue (inner (chan ?s')) =>
    apply (proj2 (mpsc_reserve_is_fifo 2 (mpsc_at schedule1) (OPollReserve 1 11) s' Hs eq_refl eq_refl) 1 11 eq_refl eq_refl) end.
Defined.

Lemma mpsc_closed_refuses_witness : ∃ s : System N, reachable 2 s ∧ receiver_dropped (chan s) = true ∧
  try_send (chan s) 9 = (chan s, Err (SendDisconnected 9), []) ∧ (poll_recv (chan s) false 77).1.2 = Ready (Ok 6).
Proof.
  exists (mpsc_at schedule3). assert (Hs : reachable 2 (mpsc_at schedule3)) by (apply mpsc_at_reachable; vm_compute; reflexivity).
  destruct (mpsc_closed_refuses 2 (mpsc_at schedule3) Hs eq_refl) as (_ & Hsend & _ & _ & _ & Hrecv & _).
  split_and!; [done|vm_compute; reflexivity|apply Hsend|]. rewrite Hrecv. vm_compute. reflexivity.
Defined.

(** [send_evict_oldest] takes a free slot that a queued waiter was woken for. *)
Lemma evict_ignores_waiters : ∃ s : System N, reachable 2 s ∧ waiter_queue (inner (chan s)) ≠ [] ∧
  (send_evict_oldest (chan s) 9).1.2 = Ok None.
Proof.
  exists (mpsc_at schedule1). split_and!; [apply mpsc_at_reachable; vm_compute; reflexivity|vm_compute; discriminate|vm_compute; reflexivity].
Qed.
