(* ===== verification/Slab.v ===== *)
(** * The slab crate, as an interface

    [slab::Slab] is not part of the repository.  The timer wheel and other
    components use it as storage with keys it hands out; what they rely on is the
    documented behaviour: a new key is not in use, lookups, replacement and
    removal are those of a finite map, and removing an absent key panics.  The
    class states this; the instance at the end shows that it can be met. *)

From S2P Require Import Prelude.

Class Slab (St V : Type) := {
  slab_empty : St;
  slab_add : St → V → St * N;
  slab_at : St → N → option V;
  slab_put : St → N → V → St;
  slab_take : St → N → option (St * V);
  slab_count : St → N;
  slab_values : St → list V;
}.

Class SlabLaws (St V : Type) `{!Slab St V} := {
  slab_view : St → gmap N V;
  view_empty : slab_view slab_empty = ∅;
  view_at s k : slab_at s k = slab_view s !! k;
  view_add s v : slab_view s !! (slab_add s v).2 = None ∧ slab_view (slab_add s v).1 = <[(slab_add s v).2 := v]> (slab_view s);
  view_put s k v : is_Some (slab_view s !! k) → slab_view (slab_put s k v) = <[k := v]> (slab_view s);
  view_take s k :
    match slab_take s k with
    | Some (s', v) => slab_view s !! k = Some v ∧ slab_view s' = delete k (slab_view s)
    | None => slab_view s !! k = None
    end;
  view_count s : slab_count s = N.of_nat (size (slab_view s));
  view_values s v : v ∈ slab_values s ↔ ∃ k, slab_view s !! k = Some v;
}.

Section facts.
Context {St V : Type} `{!Slab St V} `{!SlabLaws St V}.

Lemma count_zero s : slab_count s = 0 ↔ slab_view s = ∅.
Proof. rewrite view_count. rewrite <-map_size_empty_iff. lia. Qed.

Lemma take_present s k v : slab_view s !! k = Some v → ∃ s', slab_take s k = Some (s', v) ∧ slab_view s' = delete k (slab_view s).
Proof.
  intros Hk. pose proof (view_take s k) as Ht. destruct (slab_take s k) as [[s' v']|]; [|congruence].
  destruct Ht as [Hk' Hv]. assert (v' = v) as -> by congruence. eauto.
Qed.

End facts.

(** ** A slab over a finite map *)

Section instance.
Context {V : Type}.

Fixpoint first_free (fuel : nat) (k : N) (m : gmap N V) : N :=
  match fuel with
  | O => k
  | S fuel => match m !! k with None => k | Some _ => first_free fuel (k + 1) m end
  end.

Definition new_key (m : gmap N V) : N := first_free (S (size m)) 0 m.

Lemma first_free_spec fuel k m : (∀ j, j < k → is_Some (m !! j)) → (size m < fuel + N.to_nat k)%nat →
  m !! first_free fuel k m = None.
Proof.
  revert k. induction fuel as [|fuel IH]; intros k Hk Hs; simpl.
  - exfalso. assert (Hsub : list_to_set (C := gset N) (N.of_nat <$> seq 0 (N.to_nat k)) ⊆ dom m).
    { intros j (n & -> & Hn)%elem_of_list_to_set%list_elem_of_fmap. apply elem_of_seq in Hn. apply elem_of_dom, Hk. lia. }
    apply subseteq_size in Hsub. rewrite size_list_to_set, length_fmap, length_seq, size_dom in Hsub; [lia|].
    apply NoDup_fmap_2; [apply _|apply NoDup_seq].
  - destruct (m !! k) as [v|] eqn:Hmk; [|done]. apply IH; [|lia]. intros j Hj. destruct (decide (j = k)) as [->|]; [eauto|].
    apply Hk. lia.
Qed.

#[global] Instance map_slab : Slab (gmap N V) V := {|
  slab_empty := ∅;
  slab_add m v := (<[new_key m := v]> m, new_key m);
  slab_at m k := m !! k;
  slab_put m k v := <[k := v]> m;
  slab_take m k := match m !! k with Some v => Some (delete k m, v) | None => None end;
  slab_count m := N.of_nat (size m);
  slab_values m := (map_to_list m).*2;
|}.

#[global] Instance map_slab_laws : SlabLaws (gmap N V) V.
Proof.
  refine {| slab_view := λ m, m |}; try done.
  - intros m v. simpl. split; [|done]. apply first_free_spec; [lia|]. lia.
  - intros m k. simpl. by destruct (m !! k).
  - intros m v. simpl. rewrite list_elem_of_fmap. split.
    + intros ([k v'] & -> & Hk%elem_of_map_to_list). eauto.
    + intros [k Hk]. exists (k, v). split; [done|]. by apply elem_of_map_to_list.
Qed.

End instance.
