(* ===== verification/Links.v ===== *)
(** * Doubly linked lists in a slab

    [src/sync/waiter.rs] and [src/sync/semaphore.rs] keep their waiters in a slab
    whose entries carry [prev] and [next] slot numbers, with the head and the tail
    kept beside it.  This file holds what the two share: the updates
    [slots[k].next = x] and [slots[k].prev = x], which panic on a vacant slot, and
    the predicate [linked]: the slots form one list with the given items.  The
    lemmas say that appending, prepending and unlinking keep it. *)

From S2P Require Import Prelude Slab.

Class Node (V P : Type) := {
  n_prev : V → option N;
  n_next : V → option N;
  n_item : V → P;
  n_set_prev : option N → V → V;
  n_set_next : option N → V → V;
}.

Class NodeLaws (V P : Type) `{!Node V P} := {
  prev_set_prev o v : n_prev (n_set_prev o v) = o;
  next_set_prev o v : n_next (n_set_prev o v) = n_next v;
  item_set_prev o v : n_item (n_set_prev o v) = n_item v;
  prev_set_next o v : n_prev (n_set_next o v) = n_prev v;
  next_set_next o v : n_next (n_set_next o v) = o;
  item_set_next o v : n_item (n_set_next o v) = n_item v;
}.

(** ** The updates *)

Section updates.
Context {St V P : Type} `{!Slab St V} `{!Node V P}.

(** [slots[k].next = x] *)
Definition put_next (slots : St) (k : N) (x : option N) : run St :=
  match slab_at slots k with Some v => Returns (slab_put slots k (n_set_next x v)) | None => Panicked end.
(** [slots[k].prev = x] *)
Definition put_prev (slots : St) (k : N) (x : option N) : run St :=
  match slab_at slots k with Some v => Returns (slab_put slots k (n_set_prev x v)) | None => Panicked end.

Context `{!SlabLaws St V}.

Lemma put_view (s : St) k v f : slab_view s !! k = Some v → slab_view (slab_put s k (f v)) = alter f k (slab_view s).
Proof.
  intros Hv. rewrite view_put by (rewrite Hv; eauto). apply map_eq. intros j. destruct (decide (j = k)) as [->|Hj].
  - by rewrite lookup_insert_eq, lookup_alter_eq, Hv.
  - by rewrite lookup_insert_ne, lookup_alter_ne.
Qed.

Lemma put_next_view (s : St) k x : is_Some (slab_view s !! k) → ∃ s', put_next s k x = Returns s' ∧ slab_view s' = alter (n_set_next x) k (slab_view s).
Proof. intros [v Hv]. unfold put_next. rewrite view_at, Hv. eexists. split; [done|]. by apply put_view. Qed.

Lemma put_prev_view (s : St) k x : is_Some (slab_view s !! k) → ∃ s', put_prev s k x = Returns s' ∧ slab_view s' = alter (n_set_prev x) k (slab_view s).
Proof. intros [v Hv]. unfold put_prev. rewrite view_at, Hv. eexists. split; [done|]. by apply put_view. Qed.

End updates.

(** ** Lists of slots *)

Section linked.
Context {V P : Type} `{!Node V P} `{!NodeLaws V P}.
Implicit Types (m : gmap N V) (q : list (N * P)).

(** The slots of [q], one after the other, from the node after [before] to the
    node before [after]. *)
Fixpoint seg m (before : option N) q (after : option N) : Prop :=
  match q with
  | [] => True
  | (k, p) :: q =>
      (∃ v, m !! k = Some v ∧ n_item v = p ∧ n_prev v = before ∧ n_next v = from_option Some after (head q.*1)) ∧
      seg m (Some k) q after
  end.

Record linked m (h t : option N) q : Prop := {
  linked_nodup : NoDup q.*1;
  linked_covers k : is_Some (m !! k) → k ∈ q.*1;
  linked_seg : seg m None q None;
  linked_head : h = head q.*1;
  linked_tail : t = last q.*1;
}.

Lemma seg_frame m m' b q a : (∀ k, k ∈ q.*1 → m' !! k = m !! k) → seg m b q a → seg m' b q a.
Proof.
  revert b. induction q as [|[k p] q IH]; intros b Hf; [done|]. simpl. intros [(v & Hv & H) Hq]. split.
  - exists v. rewrite Hf by left. done.
  - apply IH; [|done]. intros j Hj. apply Hf. by right.
Qed.

Lemma from_head {A} (d : option A) (l : list A) x : from_option Some d (head (l ++ [x])) = from_option Some (Some x) (head l).
Proof. by destruct l. Qed.

Lemma seg_app m b q1 q2 a : seg m b (q1 ++ q2) a ↔
  seg m b q1 (from_option Some a (head q2.*1)) ∧ seg m (from_option Some b (last q1.*1)) q2 a.
Proof.
  revert b. induction q1 as [|[k p] q1 IH]; intros b; [simpl; tauto|]. simpl. rewrite IH.
  assert (E1 : from_option Some a (head (q1 ++ q2).*1) = from_option Some (from_option Some a (head q2.*1)) (head q1.*1)) by (by destruct q1).
  assert (E2 : from_option Some (Some k) (last q1.*1) = from_option Some b (last (k :: q1.*1))).
  { destruct q1 as [|x q1]; [done|]. rewrite last_cons. destruct (last (x :: q1).*1) eqn:E; [done|]. by apply last_None in E. }
  rewrite E1, E2. tauto.
Qed.

Lemma seg_lookup m b q a k : seg m b q a → k ∈ q.*1 → is_Some (m !! k).
Proof.
  revert b. induction q as [|[j p] q IH]; intros b; simpl; [by intros _ ?%not_elem_of_nil|].
  intros [(v & Hv & _) Hq] [->|Hin]%elem_of_cons; [eauto|by eapply IH].
Qed.

(** A new item at the end. *)
Lemma linked_push_back m h t q k v p : linked m h t q → m !! k = None → n_item v = p → n_prev v = t → n_next v = None →
  linked (match t with Some x => alter (n_set_next (Some k)) x (<[k := v]> m) | None => <[k := v]> m end)
    (match t with Some _ => h | None => Some k end) (Some k) (q ++ [(k, p)]).
Proof.
  intros [Hnd Hcov Hseg -> ->] Hk Hp Hprev Hnext.
  assert (Hkq : k ∉ q.*1) by (intros Hin; destruct (seg_lookup _ _ _ _ _ Hseg Hin); congruence).
  assert (Hnd' : NoDup (q ++ [(k, p)]).*1).
  { rewrite fmap_app. apply NoDup_app. split_and!; [done|by intros x Hx ->%list_elem_of_singleton|apply NoDup_singleton]. }
  destruct (last q.*1) as [x|] eqn:Hl.
  - apply last_Some in Hl as (q0 & Hq0). assert (∃ q1 px, q = q1 ++ [(x, px)]) as (q1 & px & ->).
    { destruct q as [|e q _] using rev_ind; [by destruct q0|]. rewrite fmap_app in Hq0. simpl in Hq0. apply app_inj_2 in Hq0 as [_ [= <-]]; [|done]. destruct e. by eexists _, _. }
    rewrite !fmap_app in *. simpl in *. assert (x ≠ k) by (intros ->; apply Hkq, elem_of_app; right; left). assert (x ∉ q1.*1) by (apply NoDup_app in Hnd as (_ & Hd & _); intros Hx; apply (Hd x Hx); left).
    apply seg_app in Hseg as [Hs1 Hs2]. simpl in Hs1, Hs2. destruct Hs2 as [(w & Hw & Hwi & Hwp & Hwn) _]. split.
    + by rewrite !fmap_app.
    + intros j. rewrite !fmap_app. destruct (decide (j = k)) as [->|Hjk]; [intros _; apply elem_of_app; right; left|]. rewrite elem_of_app. intros Hj. left. apply Hcov.
      destruct (decide (j = x)) as [->|Hjx]; [by rewrite Hw|]. rewrite lookup_alter_ne, lookup_insert_ne in Hj by congruence. done.
    + rewrite <-app_assoc. apply seg_app. split; simpl.
      * eapply seg_frame; [|exact Hs1]. intros j Hj. rewrite lookup_alter_ne, lookup_insert_ne; [done|intros ->; apply Hkq, elem_of_app; by left|intros ->; done].
      * split_and!; [exists (n_set_next (Some k) w)|exists v|done].
        -- rewrite lookup_alter_eq, lookup_insert_ne, Hw by congruence. rewrite item_set_next, prev_set_next, next_set_next. done.
        -- by rewrite lookup_alter_ne, lookup_insert_eq by congruence.
    + rewrite !fmap_app. simpl. by destruct q1.
    + rewrite !fmap_app. simpl. by rewrite last_snoc.
  - apply last_None in Hl. apply fmap_nil_inv in Hl as ->. split; simpl; [done| |split; [|done]; exists v; by rewrite lookup_insert_eq|done|done].
    intros j Hj. destruct (decide (j = k)) as [->|]; [left|]. rewrite lookup_insert_ne in Hj by done. apply Hcov in Hj. by apply not_elem_of_nil in Hj.
Qed.

(** A new item at the front. *)
Lemma linked_push_front m h t q k v p : linked m h t q → m !! k = None → n_item v = p → n_prev v = None → n_next v = h →
  linked (match h with Some x => alter (n_set_prev (Some k)) x (<[k := v]> m) | None => <[k := v]> m end)
    (Some k) (match h with Some _ => t | None => Some k end) ((k, p) :: q).
Proof.
  intros [Hnd Hcov Hseg -> ->] Hk Hp Hprev Hnext.
  assert (Hkq : k ∉ q.*1) by (intros Hin; destruct (seg_lookup _ _ _ _ _ Hseg Hin); congruence).
  destruct q as [|[x px] q]; simpl in *.
  - split; simpl; [apply NoDup_singleton| |split; [|done]; exists v; by rewrite lookup_insert_eq|done|done].
    intros j Hj. destruct (decide (j = k)) as [->|]; [left|]. rewrite lookup_insert_ne in Hj by done. apply Hcov in Hj. by apply not_elem_of_nil in Hj.
  - apply not_elem_of_cons in Hkq as [Hkx Hkq]. destruct Hseg as [(w & Hw & Hwi & Hwp & Hwn) Hseg]. apply NoDup_cons in Hnd as Hnd'. destruct Hnd' as [Hxq _].
    split; simpl; [constructor; [by apply not_elem_of_cons|done]| | |done|].
    + intros j Hj. destruct (decide (j = k)) as [->|Hjk]; [left|]. right. apply Hcov. destruct (decide (j = x)) as [->|Hjx]; [by rewrite Hw|].
      by rewrite lookup_alter_ne, lookup_insert_ne in Hj.
    + split_and!; [exists v|exists (n_set_prev (Some k) w)|].
      * by rewrite lookup_alter_ne, lookup_insert_eq.
      * rewrite lookup_alter_eq, lookup_insert_ne, Hw by done. by rewrite item_set_prev, prev_set_prev, next_set_prev.
      * eapply seg_frame; [|exact Hseg]. intros j Hj. rewrite lookup_alter_ne, lookup_insert_ne; [done|intros ->; done|intros ->; done].
    + by destruct q.
Qed.

(** The neighbours of an item. *)
Lemma linked_node m h t q1 k p q2 : linked m h t (q1 ++ (k, p) :: q2) →
  ∃ v, m !! k = Some v ∧ n_item v = p ∧ n_prev v = last q1.*1 ∧ n_next v = head q2.*1.
Proof.
  intros [_ _ Hseg _ _]. apply seg_app in Hseg as [_ [(v & Hv & Hi & Hp & Hn) _]]. exists v. split_and!; [done|done|rewrite Hp|rewrite Hn].
  - by destruct (last q1.*1).
  - by destruct q2.
Qed.

Lemma linked_some m h t q k : linked m h t q → k ∈ q.*1 → is_Some (m !! k).
Proof. intros [_ _ Hs _ _]. by eapply seg_lookup. Qed.

Lemma neighbours m h t q1 k p q2 : linked m h t (q1 ++ (k, p) :: q2) →
  last q1.*1 ≠ Some k ∧ head q2.*1 ≠ Some k ∧ (∀ j, last q1.*1 = Some j → is_Some (m !! j)) ∧ (∀ j, head q2.*1 = Some j → is_Some (m !! j)).
Proof.
  intros Hl. pose proof (linked_nodup _ _ _ _ Hl) as Hnd. rewrite fmap_app in Hnd. simpl in Hnd. apply NoDup_app in Hnd as (_ & Hd & [Hk _]%NoDup_cons). split_and!.
  - intros Hj%last_Some_elem_of. apply (Hd k Hj). left.
  - intros Hj%head_Some_elem_of. done.
  - intros j Hj%last_Some_elem_of. apply (linked_some _ _ _ _ _ Hl). rewrite fmap_app. apply elem_of_app. by left.
  - intros j Hj%head_Some_elem_of. apply (linked_some _ _ _ _ _ Hl). rewrite fmap_app. apply elem_of_app. right. by right.
Qed.

(** Taking an item out: its neighbours are joined. *)
Definition relink (prev next : option N) m : gmap N V :=
  let m := match prev with Some x => alter (n_set_next next) x m | None => m end in
  match next with Some y => alter (n_set_prev prev) y m | None => m end.

Lemma relink_ne prev next m k : prev ≠ Some k → next ≠ Some k → relink prev next m !! k = m !! k.
Proof.
  intros Hp Hn. unfold relink. destruct prev as [x|], next as [y|]; rewrite ?lookup_alter_ne by congruence; done.
Qed.

Lemma relink_delete prev next m k : prev ≠ Some k → next ≠ Some k → relink prev next (delete k m) = delete k (relink prev next m).
Proof.
  intros Hp Hn. unfold relink. destruct prev as [x|], next as [y|]; rewrite ?delete_alter_ne by congruence; done.
Qed.

Lemma linked_unlink m h t q1 k p q2 : linked m h t (q1 ++ (k, p) :: q2) →
  let prev := last q1.*1 in let next := head q2.*1 in
  linked (delete k (relink prev next m))
    (match prev with Some _ => h | None => next end) (match next with Some _ => t | None => prev end) (q1 ++ q2).
Proof.
  intros [Hnd Hcov Hseg -> ->] prev next. rewrite fmap_app in Hnd. simpl in Hnd. apply NoDup_app in Hnd as (Hn1 & Hd & Hn2).
  apply NoDup_cons in Hn2 as [Hk2 Hn2]. assert (Hk1 : k ∉ q1.*1) by (intros Hk; apply (Hd k Hk); left).
  assert (Hd12 : ∀ x, x ∈ q1.*1 → x ∉ q2.*1) by (intros x Hx Hx2; apply (Hd x Hx); by right).
  apply seg_app in Hseg as [Hs1 [_ Hs2]]. simpl in Hs1. split.
  - rewrite fmap_app. apply NoDup_app. done.
  - intros j. destruct (decide (j = k)) as [->|Hjk]; [rewrite lookup_delete_eq; by intros []|]. rewrite lookup_delete_ne by done. intros Hj.
    assert (Hmj : is_Some (m !! j)).
    { unfold relink in Hj. destruct prev as [x|], next as [y|]; rewrite ?lookup_alter_is_Some in Hj; done. }
    apply Hcov in Hmj. rewrite fmap_app in Hmj |- *. simpl in Hmj. apply elem_of_app in Hmj as [?|Hmj]; [apply elem_of_app; by left|].
    apply elem_of_cons in Hmj as [->|?]; [done|]. apply elem_of_app; by right.
  - apply seg_app. split.
    + clear Hs2. destruct q1 as [|e q1 _] using rev_ind; [done|]. destruct e as [x px]. unfold prev. rewrite !fmap_app in *. simpl in *. rewrite last_snoc.
      apply NoDup_app in Hn1 as (_ & Hx1 & _). assert (Hxk : x ≠ k) by (intros ->; apply Hk1, elem_of_app; right; left).
      assert (Hxn : next ≠ Some x). { unfold next. intros Hx. apply (Hd12 x); [apply elem_of_app; right; left|]. destruct (q2.*1); [done|]. injection Hx as ->. left. }
      apply seg_app in Hs1 as [Hs1 [(w & Hw & Hwi & Hwp & Hwn) _]]. simpl in *. apply seg_app. split; simpl.
      * eapply seg_frame; [|exact Hs1]. intros j Hj. rewrite lookup_delete_ne by (intros ->; apply Hk1, elem_of_app; by left). apply relink_ne.
        -- intros [= ->]. apply (Hx1 j Hj). left.
        -- unfold next. intros Hx. apply (Hd12 j); [apply elem_of_app; by left|]. destruct (q2.*1); [done|]. injection Hx as ->. left.
      * split; [|done]. exists (n_set_next next w). rewrite lookup_delete_ne by done. rewrite item_set_next, prev_set_next, next_set_next. split_and!; [|done|done|by unfold next; destruct (q2.*1)].
        unfold relink. destruct next as [y|]; [rewrite lookup_alter_ne by congruence|]; by rewrite lookup_alter_eq, Hw.
    + clear Hs1. destruct q2 as [|[y py] q2]; [done|]. unfold next. simpl in *. destruct Hs2 as [(w & Hw & Hwi & Hwp & Hwn) Hs2].
      apply NoDup_cons in Hn2 as [Hy2 Hn2]. apply not_elem_of_cons in Hk2 as [Hky Hk2].
      assert (Hyp : prev ≠ Some y). { unfold prev. intros Hy. apply last_Some_elem_of in Hy. apply (Hd12 y Hy). left. }
      split.
      * exists (n_set_prev prev w). rewrite lookup_delete_ne by done. rewrite item_set_prev, prev_set_prev, next_set_prev. split_and!; [|done|by unfold prev; destruct (last q1.*1)|done].
        unfold relink. rewrite lookup_alter_eq. destruct prev as [x|]; [rewrite lookup_alter_ne by congruence|]; by rewrite Hw.
      * eapply seg_frame; [|exact Hs2]. intros j Hj. rewrite lookup_delete_ne by (intros ->; done). apply (relink_ne prev (Some y) m j); [|intros [= ->]; done].
        unfold prev. intros Hy. apply last_Some_elem_of in Hy. apply (Hd12 j Hy). by right.
  - unfold prev, next. rewrite !fmap_app. simpl. destruct q1 as [|e q1]; [by destruct q2|]. rewrite fmap_cons. simpl. destruct (last (e.1 :: q1.*1)) eqn:E; [done|]. by apply last_None in E.
  - unfold prev, next. rewrite !fmap_app. simpl. destruct q2 as [|e q2]; simpl; [by rewrite app_nil_r|]. rewrite !last_app. simpl. by destruct (last q2.*1) eqn:E; rewrite ?last_cons, ?E.
Qed.

(** An item is replaced in place. *)
Lemma seg_set_item m b q a k v v' f : seg m b q a → m !! k = Some v → n_prev v' = n_prev v → n_next v' = n_next v →
  (∀ j y, (j, y) ∈ q → f y = if decide (j = k) then n_item v' else y) → seg (<[k := v']> m) b (prod_map id f <$> q) a.
Proof.
  intros Hs Hk Hp Hn. revert b Hs. induction q as [|[j x] q IH]; intros b; simpl; [done|]. intros [(w & Hw & Hi & Hwp & Hwn) Hq] Hf.
  split; [|apply IH; [done|]; intros i y Hy; apply Hf; by right]. rewrite (Hf j x) by left.
  destruct (decide (j = k)) as [->|Hj].
  - exists v'. rewrite lookup_insert_eq. assert (w = v) as -> by congruence. split_and!; [done|done|by etrans; [exact Hp|]|]. etrans; [exact Hn|]. etrans; [exact Hwn|]. by destruct q.
  - exists w. rewrite lookup_insert_ne by done. split_and!; [done|done|done|]. rewrite Hwn. by destruct q.
Qed.

Lemma linked_set_item m h t q k v v' f : linked m h t q → m !! k = Some v → n_prev v' = n_prev v → n_next v' = n_next v →
  (∀ j y, (j, y) ∈ q → f y = if decide (j = k) then n_item v' else y) → linked (<[k := v']> m) h t (prod_map id f <$> q).
Proof.
  intros Hl Hv Hp Hn Hf. assert (Hk : (prod_map id f <$> q).*1 = q.*1) by (rewrite <-list_fmap_compose; apply list_fmap_ext; by intros i []).
  split; rewrite ?Hk; [apply Hl| | |apply Hl|apply Hl].
  - intros j Hj. apply Hl. destruct (decide (j = k)) as [->|]; [by rewrite Hv|]. by rewrite lookup_insert_ne in Hj.
  - apply (seg_set_item _ _ _ _ _ v); [apply Hl|done..].
Qed.

End linked.
