(* ===== verification/WaiterChain.v ===== *)
(** * The waiter chain

    Models [src/sync/waiter.rs]: [WaiterChain], the queue of waiting tasks behind
    the mutex and the read-write lock.  Waiters are entries of a slab, linked in
    both directions, with a map from stable identifiers to slots.

    [WaiterQueue] and [WaiterQueueLaws] are what the locks rely on: a queue of
    waiters with identifiers that are not issued twice before 2^64 of them were
    issued.  The instance [chain_laws] proves them for the chain. *)

From S2P Require Import Prelude Slab Links.

Notation Waker := N (only parsing).

Record Waiting (T : Type) := mkWaiting { w_id : N; w_waker : Waker; w_tag : T }.
Arguments mkWaiting {T} _ _ _.
Arguments w_id {T} _.
Arguments w_waker {T} _.
Arguments w_tag {T} _.

(** ** The interface *)

Class WaiterQueue (C T : Type) := {
  wq_new : C;
  wq_is_empty : C → bool;
  wq_len : C → N;
  wq_push_back : C → Waker → T → run (C * N);
  wq_push_front : C → Waker → T → run (C * N);
  wq_pop_front : C → run (C * option (Waiting T));
  wq_front_id : C → run (option N);
  wq_front_tag : C → run (option T);
  wq_remove : C → N → run (C * option Waker);
  wq_update_waker : C → N → Waker → C * bool;
  wq_drain : C → run (C * list Waker);
  wq_clone_wakers : C → run (list Waker);
}.

(** [self.waker.clone_from(new)] for the waiter with this identifier. *)
Definition set_waker {T} (id : N) (new : Waker) (x : Waiting T) : Waiting T :=
  if w_id x =? id then mkWaiting (w_id x) new (w_tag x) else x.
Definition without {T} (id : N) (l : list (Waiting T)) : list (Waiting T) := filter (λ x, w_id x ≠ id) l.
Definition find_waiter {T} (id : N) (l : list (Waiting T)) : option (Waiting T) := head (filter (λ x, w_id x = id) l).

Lemma without_notin {T} id (l : list (Waiting T)) : id ∉ w_id <$> l → without id l = l ∧ find_waiter id l = None.
Proof.
  intros Hid. assert (Hl : ∀ x, x ∈ l → w_id x ≠ id) by (intros x Hx <-; apply Hid, list_elem_of_fmap; eauto). split.
  - by apply filter_id.
  - unfold find_waiter. replace (filter _ l) with (@nil (Waiting T)); [done|]. symmetry. induction l as [|y l IH]; [done|]. rewrite filter_cons_False by (apply Hl; left).
    apply IH; [intros Hx; apply Hid; by right|]. intros x Hx. apply Hl. by right.
Qed.

Lemma without_middle {T} (l1 : list (Waiting T)) x l2 : NoDup (w_id <$> l1 ++ x :: l2) →
  without (w_id x) (l1 ++ x :: l2) = l1 ++ l2 ∧ find_waiter (w_id x) (l1 ++ x :: l2) = Some x.
Proof.
  intros Hnd. rewrite fmap_app in Hnd. simpl in Hnd. apply NoDup_app in Hnd as (_ & Hd & [Hx _]%NoDup_cons).
  destruct (without_notin (w_id x) l1) as [H1 F1]; [intros H; apply (Hd _ H); left|]. destruct (without_notin (w_id x) l2 Hx) as [H2 F2].
  unfold without, find_waiter in *. rewrite !filter_app, filter_cons_False, (filter_cons_True _ x) by (try done; by intros H). rewrite H1, H2. split; [done|].
  destruct (filter (λ y, w_id y = w_id x) l1) as [|y k]; [done|done].
Qed.

Lemma find_waiter_in {T} id (l : list (Waiting T)) : id ∈ w_id <$> l → is_Some (find_waiter id l).
Proof.
  intros (x & -> & Hx)%list_elem_of_fmap. unfold find_waiter. assert (Hin : x ∈ filter (λ y, w_id y = w_id x) l) by (by apply list_elem_of_filter).
  destruct (filter (λ y, w_id y = w_id x) l); [by apply not_elem_of_nil in Hin|eauto].
Qed.

Lemma without_length {T} id (l : list (Waiting T)) : NoDup (w_id <$> l) → id ∈ w_id <$> l → length l = S (length (without id l)).
Proof.
  intros Hnd (x & -> & Hx)%list_elem_of_fmap. apply list_elem_of_split in Hx as (l1 & l2 & ->). destruct (without_middle l1 x l2 Hnd) as [-> _].
  rewrite !length_app. simpl. lia.
Qed.

Lemma without_elem {T} id (l : list (Waiting T)) x : x ∈ without id l ↔ x ∈ l ∧ w_id x ≠ id.
Proof. unfold without. rewrite list_elem_of_filter. tauto. Qed.

(** [wq_rep c l n]: the chain holds the waiters [l] and will issue [n] next. *)
Class WaiterQueueLaws (C T : Type) `{!WaiterQueue C T} := {
  wq_rep : C → list (Waiting T) → N → Prop;
  rep_new : wq_rep wq_new [] 0;
  rep_ids c l n : wq_rep c l n → NoDup (w_id <$> l) ∧ ∀ x, x ∈ l → w_id x < n;
  rep_is_empty c l n : wq_rep c l n → wq_is_empty c = bool_decide (l = []);
  rep_len c l n : wq_rep c l n → wq_len c = lenN l;
  rep_push_back c l n w t : wq_rep c l n → n < u64_MAX → ∃ c', wq_push_back c w t = Returns (c', n) ∧ wq_rep c' (l ++ [mkWaiting n w t]) (n + 1);
  rep_push_front c l n w t : wq_rep c l n → n < u64_MAX → ∃ c', wq_push_front c w t = Returns (c', n) ∧ wq_rep c' (mkWaiting n w t :: l) (n + 1);
  rep_pop_front c l n : wq_rep c l n → ∃ c', wq_pop_front c = Returns (c', head l) ∧ wq_rep c' (tail l) n;
  rep_front_id c l n : wq_rep c l n → wq_front_id c = Returns (w_id <$> head l);
  rep_front_tag c l n : wq_rep c l n → wq_front_tag c = Returns (w_tag <$> head l);
  rep_remove c l n id : wq_rep c l n → ∃ c', wq_remove c id = Returns (c', w_waker <$> find_waiter id l) ∧ wq_rep c' (without id l) n;
  rep_update_waker c l n id w : wq_rep c l n →
    (wq_update_waker c id w).2 = bool_decide (id ∈ w_id <$> l) ∧ wq_rep (wq_update_waker c id w).1 (set_waker id w <$> l) n;
  rep_drain c l n : wq_rep c l n → ∃ c', wq_drain c = Returns (c', w_waker <$> l) ∧ wq_rep c' [] n;
  rep_clone_wakers c l n : wq_rep c l n → wq_clone_wakers c = Returns (w_waker <$> l);
}.

(** ** The chain *)

Record WaiterSlot (T : Type) := mkSlot { slot_id : N; slot_waker : Waker; slot_tag : T; slot_prev : option N; slot_next : option N }.
Arguments mkSlot {T} _ _ _ _ _.
Arguments slot_id {T} _.
Arguments slot_waker {T} _.
Arguments slot_tag {T} _.
Arguments slot_prev {T} _.
Arguments slot_next {T} _.

#[global] Instance slot_node {T} : Node (WaiterSlot T) (Waiting T) := {|
  n_prev := slot_prev; n_next := slot_next;
  n_item v := mkWaiting (slot_id v) (slot_waker v) (slot_tag v);
  n_set_prev o v := mkSlot (slot_id v) (slot_waker v) (slot_tag v) o (slot_next v);
  n_set_next o v := mkSlot (slot_id v) (slot_waker v) (slot_tag v) (slot_prev v) o |}.
#[global] Instance slot_node_laws {T} : NodeLaws (WaiterSlot T) (Waiting T).
Proof. by split. Qed.

Section chain.
Context {St T : Type} `{!Slab St (WaiterSlot T)}.

Record WaiterChain := mkChain { slots : St; positions : gmap N N; chain_head : option N; chain_tail : option N; chain_next_id : N }.

Implicit Types c : WaiterChain.

Definition chain_new : WaiterChain := mkChain slab_empty ∅ None None 0.
Definition chain_is_empty c : bool := match chain_head c with None => true | Some _ => false end.
Definition chain_len c : N := slab_count (slots c).

(** [next_id]: the first identifier at or after the counter that is not in use. *)
Fixpoint next_id_loop (fuel : nat) (pos : gmap N N) (next : N) : run (N * N) :=
  match fuel with
  | O => OutOfFuel
  | S fuel =>
      let next' := wrapping_add u64_MAX next 1 in
      match pos !! next with None => Returns (next, next') | Some _ => next_id_loop fuel pos next' end
  end.
Definition next_id c : run (N * N) := next_id_loop (S (size (positions c))) (positions c) (chain_next_id c).

Definition push_back_tagged c (waker : Waker) (tag : T) : run (WaiterChain * N) :=
  '(new_id, next') ← next_id c;
  let '(s, index) := slab_add (slots c) (mkSlot new_id waker tag (chain_tail c) None) in
  let pos := <[new_id := index]> (positions c) in
  match chain_tail c with
  | Some prev_tail => s ← put_next s prev_tail (Some index); Returns (mkChain s pos (chain_head c) (Some index) next', new_id)
  | None => Returns (mkChain s pos (Some index) (Some index) next', new_id)
  end.

Definition push_front_tagged c (waker : Waker) (tag : T) : run (WaiterChain * N) :=
  '(new_id, next') ← next_id c;
  let '(s, index) := slab_add (slots c) (mkSlot new_id waker tag None (chain_head c)) in
  let pos := <[new_id := index]> (positions c) in
  match chain_head c with
  | Some next_head => s ← put_prev s next_head (Some index); Returns (mkChain s pos (Some index) (chain_tail c) next', new_id)
  | None => Returns (mkChain s pos (Some index) (Some index) next', new_id)
  end.

Definition pop_front c : run (WaiterChain * option (Waiting T)) :=
  match chain_head c with
  | None => Returns (c, None)
  | Some head_index =>
      match slab_take (slots c) head_index with
      | None => Panicked
      | Some (s, slot) =>
          let pos := delete (slot_id slot) (positions c) in
          let x := mkWaiting (slot_id slot) (slot_waker slot) (slot_tag slot) in
          match slot_next slot with
          | Some new_head => s ← put_prev s new_head None; Returns (mkChain s pos (slot_next slot) (chain_tail c) (chain_next_id c), Some x)
          | None => Returns (mkChain s pos (slot_next slot) None (chain_next_id c), Some x)
          end
      end
  end.

(** [self.head.map(|index| self.slots[index].f)] *)
Definition front_with {A} (f : WaiterSlot T → A) c : run (option A) :=
  match chain_head c with
  | None => Returns None
  | Some index => match slab_at (slots c) index with Some slot => Returns (Some (f slot)) | None => Panicked end
  end.
Definition front_id c : run (option N) := front_with slot_id c.
Definition front_tag c : run (option T) := front_with slot_tag c.
Definition front_waker c : run (option Waker) := front_with slot_waker c.

Definition remove c (id : N) : run (WaiterChain * option Waker) :=
  match positions c !! id with
  | None => Returns (c, None)
  | Some index =>
      let pos := delete id (positions c) in
      match slab_take (slots c) index with
      | None => Panicked
      | Some (s, slot) =>
          '(s, h) ← match slot_prev slot with
                    | Some p => s ← put_next s p (slot_next slot); Returns (s, chain_head c)
                    | None => Returns (s, slot_next slot)
                    end;
          '(s, t) ← match slot_next slot with
                    | Some n => s ← put_prev s n (slot_prev slot); Returns (s, chain_tail c)
                    | None => Returns (s, slot_prev slot)
                    end;
          Returns (mkChain s pos h t (chain_next_id c), Some (slot_waker slot))
      end
  end.

Definition update_waker c (id : N) (new : Waker) : WaiterChain * bool :=
  match positions c !! id with
  | None => (c, false)
  | Some index =>
      match slab_at (slots c) index with
      | None => (c, false)
      | Some slot =>
          if negb (slot_id slot =? id) then (c, false)
          else
            let c := if negb (slot_waker slot =? new)
                     then mkChain (slab_put (slots c) index (mkSlot (slot_id slot) new (slot_tag slot) (slot_prev slot) (slot_next slot)))
                            (positions c) (chain_head c) (chain_tail c) (chain_next_id c)
                     else c in
            (c, true)
      end
  end.

Fixpoint drain_loop (fuel : nat) c (wakers : list Waker) : run (WaiterChain * list Waker) :=
  match fuel with
  | O => OutOfFuel
  | S fuel =>
      '(c, x) ← pop_front c;
      match x with Some x => drain_loop fuel c (wakers ++ [w_waker x]) | None => Returns (c, wakers) end
  end.
Definition drain c : run (WaiterChain * list Waker) := drain_loop (S (N.to_nat (chain_len c))) c [].

Fixpoint clone_loop (fuel : nat) c (current : option N) (wakers : list Waker) : run (list Waker) :=
  match fuel with
  | O => OutOfFuel
  | S fuel =>
      match current with
      | None => Returns wakers
      | Some index =>
          match slab_at (slots c) index with
          | Some slot => clone_loop fuel c (slot_next slot) (wakers ++ [slot_waker slot])
          | None => Panicked
          end
      end
  end.
Definition clone_wakers c : run (list Waker) := clone_loop (S (N.to_nat (chain_len c))) c (chain_head c) [].

Definition contains c (id : N) : bool :=
  match positions c !! id with
  | None => false
  | Some index => match slab_at (slots c) index with Some slot => slot_id slot =? id | None => false end
  end.

#[global] Instance chain_queue : WaiterQueue WaiterChain T := {|
  wq_new := chain_new; wq_is_empty := chain_is_empty; wq_len := chain_len; wq_push_back := push_back_tagged; wq_push_front := push_front_tagged;
  wq_pop_front := pop_front; wq_front_id := front_id; wq_front_tag := front_tag; wq_remove := remove;
  wq_update_waker := update_waker; wq_drain := drain; wq_clone_wakers := clone_wakers |}.

End chain.
Arguments WaiterChain _ : clear implicits.

(** ** The chain is a queue *)

Section proofs.
Context {St T : Type} `{!Slab St (WaiterSlot T)} `{!SlabLaws St (WaiterSlot T)}.
Implicit Types (c : WaiterChain St) (l : list (Waiting T)) (q : list (N * Waiting T)).

(** Every identifier leads to its slot. *)
Definition indexed (pos : gmap N N) q : Prop := ∀ id k, pos !! id = Some k ↔ ∃ x, (k, x) ∈ q ∧ w_id x = id.

Record chain_rep c l (n : N) : Prop := {
  cr_linked : ∃ q, q.*2 = l ∧ linked (slab_view (slots c)) (chain_head c) (chain_tail c) q ∧ indexed (positions c) q;
  cr_nodup : NoDup (w_id <$> l);
  cr_next : chain_next_id c = n;
  cr_below x : x ∈ l → w_id x < n;
}.

Lemma next_id_fresh c l n : chain_rep c l n → n < u64_MAX → next_id c = Returns (n, n + 1).
Proof.
  intros [(q & Hq & Hl & Hpos) Hnd Hn Hb] Hmax. unfold next_id. simpl. rewrite Hn. destruct (positions c !! n) as [k|] eqn:Hk.
  - apply Hpos in Hk as (x & Hx & Hid). assert (x ∈ l) by (rewrite <-Hq; apply list_elem_of_fmap; by exists (k, x)). specialize (Hb x). rewrite Hid in Hb. exfalso. pose proof (Hb H). lia.
  - by rewrite wrapping_add_1.
Qed.

(** At any counter, also after it wrapped around: an identifier not in use is
    found unless all of them are. *)
Lemma wrapping_add_add max a j : wrapping_add max (wrapping_add max a 1) j = wrapping_add max a (j + 1).
Proof. unfold wrapping_add. rewrite N.Div0.add_mod_idemp_l. f_equal. lia. Qed.

Lemma next_id_loop_spec fuel pos a :
  match next_id_loop fuel pos a with
  | Returns (id, _) => pos !! id = None
  | Panicked => False
  | OutOfFuel => ∀ j, (j < fuel)%nat → a ≤ u64_MAX → is_Some (pos !! wrapping_add u64_MAX a (N.of_nat j))
  end.
Proof.
  revert a. induction fuel as [|fuel IH]; intros a; simpl; [lia|]. destruct (pos !! a) as [k|] eqn:Hk; [|done].
  specialize (IH (wrapping_add u64_MAX a 1)). destruct (next_id_loop _ _ _) as [[id ?]| |]; [done|done|].
  intros [|j] Hj Ha.
  - unfold wrapping_add. rewrite N.add_0_r, N.mod_small by lia. eauto.
  - rewrite Nat2N.inj_succ, <-N.add_1_r, <-wrapping_add_add. apply IH; [lia|]. unfold wrapping_add.
    pose proof (N.mod_lt (a + 1) (u64_MAX + 1)). unfold u64_MAX in *. lia.
Qed.

Lemma wrapping_add_inj max a i j : i ≤ max → j ≤ max → wrapping_add max a i = wrapping_add max a j → i = j.
Proof.
  unfold wrapping_add. intros Hi Hj Heq. pose proof (N.Div0.div_mod (a + i) (max + 1)) as E1. pose proof (N.Div0.div_mod (a + j) (max + 1)) as E2. rewrite Heq in E1.
  set (x := (a + i) / (max + 1)) in *. set (y := (a + j) / (max + 1)) in *. assert (x = y); [|subst x; nia].
  destruct (N.lt_trichotomy x y) as [?|[?|?]]; [|done|]; nia.
Qed.

Lemma next_id_total c : N.of_nat (size (positions c)) ≤ u64_MAX → chain_next_id c ≤ u64_MAX →
  ∃ id next', next_id c = Returns (id, next') ∧ positions c !! id = None.
Proof.
  intros Hsize Hn. unfold next_id. pose proof (next_id_loop_spec (S (size (positions c))) (positions c) (chain_next_id c)) as Hl.
  destruct (next_id_loop _ _ _) as [[id next']| |]; [by eauto|done|]. exfalso.
  set (used := (λ j, wrapping_add u64_MAX (chain_next_id c) (N.of_nat j)) <$> seq 0 (S (size (positions c)))).
  assert (Hnd : NoDup used).
  { apply NoDup_fmap_2_strong; [|apply NoDup_seq]. intros i j Hi%elem_of_seq Hj%elem_of_seq Heq. apply wrapping_add_inj in Heq; lia. }
  assert (Hsub : list_to_set (C := gset N) used ⊆ dom (positions c)).
  { intros x Hx%elem_of_list_to_set. apply list_elem_of_fmap in Hx as (j & -> & Hj%elem_of_seq). apply elem_of_dom, Hl; [lia|done]. }
  apply subseteq_size in Hsub. rewrite size_list_to_set, size_dom in Hsub by done. unfold used in Hsub. rewrite length_fmap, length_seq in Hsub. lia.
Qed.

Lemma indexed_insert pos id k (x : Waiting T) q1 q2 : indexed pos (q1 ++ q2) → pos !! id = None → w_id x = id → indexed (<[id := k]> pos) (q1 ++ (k, x) :: q2).
Proof.
  intros Hpos Hid Hx i j. setoid_rewrite elem_of_app. setoid_rewrite elem_of_cons. destruct (decide (i = id)) as [->|Hne].
  - rewrite lookup_insert_eq. split.
    + intros [= <-]. exists x. auto.
    + intros (y & Hy & Hyi). assert (Hc : (j, y) = (k, x) ∨ (j, y) ∈ q1 ++ q2) by (rewrite elem_of_app; tauto). destruct Hc as [[= -> ->]|Hc]; [done|].
      assert (pos !! id = Some j) by (apply Hpos; eauto). congruence.
  - rewrite lookup_insert_ne by done. rewrite (Hpos i j). setoid_rewrite elem_of_app. split.
    + intros (y & Hy & Hyi). exists y. tauto.
    + intros (y & [Hy|[[= -> ->]|Hy]] & Hyi); [eauto|congruence|eauto].
Qed.

Lemma indexed_delete pos q1 k (x : Waiting T) q2 : NoDup (w_id <$> (q1 ++ (k, x) :: q2).*2) → indexed pos (q1 ++ (k, x) :: q2) → indexed (delete (w_id x) pos) (q1 ++ q2).
Proof.
  intros Hnd Hpos i j. rewrite !fmap_app in Hnd. simpl in Hnd. apply NoDup_app in Hnd as (_ & Hd & Hnd%NoDup_cons). destruct Hnd as [Hx _].
  assert (Hne : ∀ y, (j, y) ∈ q1 ++ q2 → w_id y ≠ w_id x).
  { intros y [Hy|Hy]%elem_of_app Heq.
    - apply (Hd (w_id y)); [|rewrite Heq; left]. apply list_elem_of_fmap. exists y. split; [done|]. apply list_elem_of_fmap. by exists (j, y).
    - apply Hx. rewrite <-Heq. apply list_elem_of_fmap. exists y. split; [done|]. apply list_elem_of_fmap. by exists (j, y). }
  destruct (decide (i = w_id x)) as [->|Hi].
  - rewrite lookup_delete_eq. split; [done|]. intros (y & Hy & Hyi). by destruct (Hne y Hy).
  - rewrite lookup_delete_ne by done. rewrite (Hpos i j). setoid_rewrite elem_of_app. setoid_rewrite elem_of_cons. split.
    + intros (y & [Hy|[[= -> ->]|Hy]] & Hyi); [eauto|done|eauto].
    + intros (y & [Hy|Hy] & Hyi); eauto.
Qed.

Lemma fresh_position c l n q : chain_rep c l n → q.*2 = l → indexed (positions c) q → positions c !! n = None.
Proof.
  intros Hr Hq Hpos. destruct (positions c !! n) as [k|] eqn:Hk; [|done]. apply Hpos in Hk as (x & Hx & Hid).
  assert (Hin : x ∈ l) by (rewrite <-Hq; apply list_elem_of_fmap; by exists (k, x)). pose proof (cr_below _ _ _ Hr x Hin). lia.
Qed.

Lemma chain_push_back c l n w t : chain_rep c l n → n < u64_MAX →
  ∃ c', push_back_tagged c w t = Returns (c', n) ∧ chain_rep c' (l ++ [mkWaiting n w t]) (n + 1).
Proof.
  intros Hr Hn. pose proof Hr as [(q & Hq & Hl & Hpos) Hnd Hnext Hb]. unfold push_back_tagged. rewrite (next_id_fresh _ _ _ Hr Hn). cbn [mbind run_bind].
  set (v := mkSlot n w t (chain_tail c) None). pose proof (view_add (slots c) v) as [Hfree Hview]. destruct (slab_add (slots c) v) as [s index]. simpl in Hfree, Hview.
  pose proof (linked_push_back _ _ _ _ index v (mkWaiting n w t) Hl Hfree eq_refl eq_refl eq_refl) as Hl'.
  assert (Hnew : ∀ s' h, slab_view s' = match chain_tail c with Some x => alter (n_set_next (Some index)) x (<[index := v]> (slab_view (slots c))) | None => <[index := v]> (slab_view (slots c)) end →
    h = match chain_tail c with Some _ => chain_head c | None => Some index end →
    chain_rep (mkChain s' (<[n := index]> (positions c)) h (Some index) (n + 1)) (l ++ [mkWaiting n w t]) (n + 1)).
  { intros s' h Hs' ->. split.
    - exists (q ++ [(index, mkWaiting n w t)]). simpl. rewrite Hs'. split_and!; [by rewrite fmap_app, Hq|done|].
      apply indexed_insert; [by rewrite app_nil_r|by apply (fresh_position c l n q)|done].
    - rewrite fmap_app. apply NoDup_app. split_and!; [done| |apply NoDup_singleton]. intros i (x & -> & Hx)%list_elem_of_fmap Heq%list_elem_of_singleton. specialize (Hb x Hx). simpl in Heq. lia.
    - done.
    - intros x [Hx| ->%list_elem_of_singleton]%elem_of_app; [specialize (Hb x Hx)|simpl]; lia. }
  destruct (chain_tail c) as [pt|] eqn:Ht.
  - destruct (put_next_view s pt (Some index)) as (s' & -> & Hs').
    { rewrite Hview. destruct (decide (index = pt)) as [->|]; [rewrite lookup_insert_eq; eauto|]. rewrite lookup_insert_ne by done. apply (linked_some _ _ _ _ _ Hl).
      pose proof (linked_tail _ _ _ _ Hl) as Htl. by apply last_Some_elem_of. }
    eexists. split; [done|]. apply Hnew; [by rewrite Hs', Hview|done].
  - eexists. split; [done|]. by apply Hnew.
Qed.

Lemma chain_push_front c l n w t : chain_rep c l n → n < u64_MAX →
  ∃ c', push_front_tagged c w t = Returns (c', n) ∧ chain_rep c' (mkWaiting n w t :: l) (n + 1).
Proof.
  intros Hr Hn. pose proof Hr as [(q & Hq & Hl & Hpos) Hnd Hnext Hb]. unfold push_front_tagged. rewrite (next_id_fresh _ _ _ Hr Hn). cbn [mbind run_bind].
  set (v := mkSlot n w t None (chain_head c)). pose proof (view_add (slots c) v) as [Hfree Hview]. destruct (slab_add (slots c) v) as [s index]. simpl in Hfree, Hview.
  pose proof (linked_push_front _ _ _ _ index v (mkWaiting n w t) Hl Hfree eq_refl eq_refl eq_refl) as Hl'.
  assert (Hnew : ∀ s' tl, slab_view s' = match chain_head c with Some x => alter (n_set_prev (Some index)) x (<[index := v]> (slab_view (slots c))) | None => <[index := v]> (slab_view (slots c)) end →
    tl = match chain_head c with Some _ => chain_tail c | None => Some index end →
    chain_rep (mkChain s' (<[n := index]> (positions c)) (Some index) tl (n + 1)) (mkWaiting n w t :: l) (n + 1)).
  { intros s' tl Hs' ->. split.
    - exists ((index, mkWaiting n w t) :: q). simpl. rewrite Hs'. split_and!; [by rewrite <-Hq|done|].
      apply (indexed_insert _ _ _ _ []); [done|by apply (fresh_position c l n q)|done].
    - simpl. apply NoDup_cons. split; [|done]. intros (x & Hx & Hin)%list_elem_of_fmap. specialize (Hb x Hin). lia.
    - done.
    - intros x [->|Hx]%elem_of_cons; [simpl|specialize (Hb x Hx)]; lia. }
  destruct (chain_head c) as [nh|] eqn:Ht.
  - destruct (put_prev_view s nh (Some index)) as (s' & -> & Hs').
    { rewrite Hview. destruct (decide (index = nh)) as [->|]; [rewrite lookup_insert_eq; eauto|]. rewrite lookup_insert_ne by done. apply (linked_some _ _ _ _ _ Hl).
      pose proof (linked_head _ _ _ _ Hl) as Htl. by apply head_Some_elem_of. }
    eexists. split; [done|]. apply Hnew; [by rewrite Hs', Hview|done].
  - eexists. split; [done|]. by apply Hnew.
Qed.

(** Taking a waiter out, wherever it is. *)
Lemma rep_unlinked c l n q1 k x q2 s' h t : chain_rep c l n → (q1 ++ (k, x) :: q2).*2 = l →
  linked (slab_view (slots c)) (chain_head c) (chain_tail c) (q1 ++ (k, x) :: q2) → indexed (positions c) (q1 ++ (k, x) :: q2) →
  slab_view s' = delete k (relink (last q1.*1) (head q2.*1) (slab_view (slots c))) →
  h = match last q1.*1 with Some _ => chain_head c | None => head q2.*1 end →
  t = match head q2.*1 with Some _ => chain_tail c | None => last q1.*1 end →
  chain_rep (mkChain s' (delete (w_id x) (positions c)) h t (chain_next_id c)) (q1 ++ q2).*2 n.
Proof.
  intros [_ Hnd Hnext Hb] Hq Hl Hpos Hs' -> ->. assert (Hsub : ∀ y, y ∈ (q1 ++ q2).*2 → y ∈ l).
  { intros y. rewrite <-Hq, !fmap_app. simpl. rewrite !elem_of_app, elem_of_cons. tauto. }
  split; simpl.
  - exists (q1 ++ q2). split_and!; [done|rewrite Hs'; by apply (linked_unlink _ _ _ _ _ x)|]. apply (indexed_delete _ _ k); [by rewrite Hq|done].
  - subst l. rewrite !fmap_app in *. simpl in *. apply NoDup_app in Hnd as (H1 & Hd & [_ H2]%NoDup_cons). apply NoDup_app. split_and!; [done| |done].
    intros y Hy Hy2. apply (Hd y Hy). by right.
  - done.
  - intros y Hy%Hsub. by apply Hb.
Qed.

Lemma chain_pop_front c l n : chain_rep c l n → ∃ c', pop_front c = Returns (c', head l) ∧ chain_rep c' (tail l) n.
Proof.
  intros Hr. pose proof Hr as [(q & Hq & Hl & Hpos) Hnd Hnext Hb]. unfold pop_front. rewrite (linked_head _ _ _ _ Hl). destruct q as [|[k x] q]; simpl.
  { subst l. eauto. }
  destruct (linked_node _ _ _ [] k x q Hl) as (v & Hv & Hitem & Hprev & Hvn). destruct (take_present _ _ _ Hv) as (s & -> & Hs).
  destruct (neighbours _ _ _ [] k x q Hl) as (_ & Hnk & _ & Hsome). simpl in Hprev, Hvn.
  assert (Hx : x = mkWaiting (slot_id v) (slot_waker v) (slot_tag v)) by done. rewrite Hvn.
  assert (Hnew : ∀ s' t, slab_view s' = delete k (relink None (head q.*1) (slab_view (slots c))) → t = match head q.*1 with Some _ => chain_tail c | None => None end →
    chain_rep (mkChain s' (delete (slot_id v) (positions c)) (head q.*1) t (chain_next_id c)) (tail l) n).
  { intros s' t Hs' ->. subst l. simpl. replace (slot_id v) with (w_id x) by (by rewrite Hx). by eapply (rep_unlinked c _ n [] k x q). }
  assert (Hhead : head l = Some x) by (by rewrite <-Hq). rewrite Hhead, Hx. destruct (head q.*1) as [nh|] eqn:Hh.
  - destruct (put_prev_view s nh None) as (s' & -> & Hs'); [rewrite Hs, lookup_delete_ne by congruence; by apply Hsome|].
    eexists. split; [done|]. apply Hnew; [|done]. rewrite Hs', Hs. simpl. by rewrite delete_alter_ne by congruence.
  - eexists. split; [done|]. by apply Hnew.
Qed.

Lemma indexed_none pos q id : indexed pos q → pos !! id = None → id ∉ w_id <$> q.*2.
Proof.
  intros Hpos Hid (x & -> & Hx)%list_elem_of_fmap. apply list_elem_of_fmap in Hx as ([k y] & -> & Hx).
  assert (pos !! w_id y = Some k) by (apply Hpos; eauto). simpl in *. congruence.
Qed.

Lemma chain_remove c l n id : chain_rep c l n → ∃ c', remove c id = Returns (c', w_waker <$> find_waiter id l) ∧ chain_rep c' (without id l) n.
Proof.
  intros Hr. pose proof Hr as [(q & Hq & Hl & Hpos) Hnd Hnext Hb]. unfold remove. destruct (positions c !! id) as [k|] eqn:Hk.
  2: { apply (indexed_none _ _ _ Hpos) in Hk. rewrite Hq in Hk. destruct (without_notin id l Hk) as [-> ->]. eauto. }
  apply Hpos in Hk as (x & Hx & <-). apply list_elem_of_split in Hx as (q1 & q2 & ->).
  destruct (linked_node _ _ _ _ _ _ _ Hl) as (v & Hv & Hitem & Hprev & Hvn). destruct (take_present _ _ _ Hv) as (s & -> & Hs).
  destruct (neighbours _ _ _ _ _ _ _ Hl) as (Hpk & Hnk & Hps & Hns). simpl in Hitem, Hprev, Hvn. rewrite Hprev, Hvn.
  assert (Hwl : without (w_id x) l = (q1 ++ q2).*2 ∧ find_waiter (w_id x) l = Some x).
  { rewrite <-Hq, fmap_app in Hnd |- *. simpl in *. rewrite fmap_app. by apply without_middle. }
  destruct Hwl as [-> ->]. simpl.
  assert (Hnew : ∀ s' h t, slab_view s' = relink (last q1.*1) (head q2.*1) (slab_view s) → h = match last q1.*1 with Some _ => chain_head c | None => head q2.*1 end →
    t = match head q2.*1 with Some _ => chain_tail c | None => last q1.*1 end → chain_rep (mkChain s' (delete (w_id x) (positions c)) h t (chain_next_id c)) (q1 ++ q2).*2 n).
  { intros s' h t Hs' -> ->. eapply (rep_unlinked c l n q1 k x q2); [done..| |done|done]. by rewrite Hs', Hs, relink_delete. }
  assert (Hwk : slot_waker v = w_waker x) by (by rewrite <-Hitem). rewrite Hwk. unfold relink in Hnew.
  assert (Hs1 : ∃ s1, (match last q1.*1 with Some p => s ← put_next s p (head q2.*1); Returns (s, chain_head c) | None => Returns (s, head q2.*1) end) =
     Returns (s1, match last q1.*1 with Some _ => chain_head c | None => head q2.*1 end) ∧
     slab_view s1 = match last q1.*1 with Some x => alter (n_set_next (head q2.*1)) x (slab_view s) | None => slab_view s end).
  { destruct (last q1.*1) as [p|]; [|eauto]. destruct (put_next_view s p (head q2.*1)) as (s1 & -> & Hs1); [rewrite Hs, lookup_delete_ne by congruence; by apply Hps|]. eauto. }
  destruct Hs1 as (s1 & -> & Hs1). cbn [mbind run_bind]. destruct (head q2.*1) as [nx|].
  - destruct (put_prev_view s1 nx (last q1.*1)) as (s2 & -> & Hs2).
    { rewrite Hs1. assert (is_Some (slab_view s !! nx)) by (rewrite Hs, lookup_delete_ne by congruence; by apply Hns). by destruct (last q1.*1); rewrite ?lookup_alter_is_Some. }
    cbn [mbind run_bind]. eexists. split; [done|]. apply Hnew; [by rewrite Hs2, Hs1|done|done].
  - cbn [mbind run_bind]. eexists. split; [done|]. by apply Hnew.
Qed.

Lemma chain_front {A} (f : WaiterSlot T → A) (g : Waiting T → A) c l n : (∀ v, f v = g (n_item v)) → chain_rep c l n → front_with f c = Returns (g <$> head l).
Proof.
  intros Hfg [(q & <- & Hl & Hpos) Hnd Hnext Hb]. unfold front_with. rewrite (linked_head _ _ _ _ Hl). destruct q as [|[k x] q]; [done|]. simpl.
  destruct (linked_node _ _ _ [] k x q Hl) as (v & Hv & Hitem & _). rewrite view_at, Hv, Hfg, Hitem. done.
Qed.

Lemma chain_len_rep c l n : chain_rep c l n → chain_len c = lenN l.
Proof.
  intros [(q & <- & Hl & _) _ _ _]. unfold chain_len, lenN. rewrite view_count. f_equal. rewrite length_fmap, <-(length_fmap fst).
  rewrite <-size_dom, <-(size_list_to_set (C := gset N) q.*1) by apply Hl. f_equal. apply set_eq. intros k. rewrite elem_of_dom, elem_of_list_to_set.
  split; [apply Hl|by apply (linked_some _ _ _ _ _ Hl)].
Qed.

(** Different slots hold waiters with different identifiers. *)
Lemma slot_of_id pos q k x k' y : indexed pos q → NoDup q.*1 → (k, x) ∈ q → (k', y) ∈ q → (k' = k ↔ w_id y = w_id x).
Proof.
  intros Hpos Hnd Hx Hy. split.
  - intros ->. apply list_elem_of_lookup in Hx as (i & Hi), Hy as (j & Hj). assert (i = j); [|congruence].
    eapply NoDup_lookup; [exact Hnd|by rewrite list_lookup_fmap, Hi|by rewrite list_lookup_fmap, Hj].
  - intros Heq. assert (pos !! w_id x = Some k) by (apply Hpos; eauto). assert (pos !! w_id x = Some k') by (apply Hpos; eauto). congruence.
Qed.

Lemma chain_update_waker c l n id w : chain_rep c l n →
  (update_waker c id w).2 = bool_decide (id ∈ w_id <$> l) ∧ chain_rep (update_waker c id w).1 (set_waker id w <$> l) n.
Proof.
  intros Hr. pose proof Hr as [(q & Hq & Hl & Hpos) Hnd Hnext Hb]. unfold update_waker. destruct (positions c !! id) as [k|] eqn:Hk.
  2: { apply (indexed_none _ _ _ Hpos) in Hk. rewrite Hq in Hk. split; [by rewrite bool_decide_false|]. simpl.
       replace (set_waker id w <$> l) with l; [done|]. rewrite <-(list_fmap_id l) at 1. apply list_fmap_ext. intros i x Hx. unfold set_waker. simpl.
       destruct (N.eqb_spec (w_id x) id) as [<-|]; [|done]. exfalso. apply Hk, list_elem_of_fmap_2. by eapply list_elem_of_lookup_2. }
  apply Hpos in Hk as (x & Hx & <-). pose proof Hx as Hx'. apply list_elem_of_split in Hx as (q1 & q2 & Hq12). pose proof Hl as Hl0. rewrite Hq12 in Hl0.
  destruct (linked_node _ _ _ _ _ _ _ Hl0) as (v & Hv & Hitem & _). rewrite view_at, Hv. assert (Hid : slot_id v = w_id x) by (by rewrite <-Hitem). rewrite Hid, N.eqb_refl. simpl.
  split. { rewrite bool_decide_true; [done|]. rewrite <-Hq. apply list_elem_of_fmap_2, list_elem_of_fmap. by exists (k, x). }
  set (v' := mkSlot (w_id x) w (slot_tag v) (slot_prev v) (slot_next v)).
  assert (Hf : ∀ j y, (j, y) ∈ q → set_waker (w_id x) w y = if decide (j = k) then n_item v' else y).
  { intros j y Hy. pose proof (slot_of_id _ _ _ _ _ _ Hpos (linked_nodup _ _ _ _ Hl) Hx' Hy) as Hiff. unfold set_waker.
    destruct (N.eqb_spec (w_id y) (w_id x)) as [Heq|Hne]; [|by rewrite decide_False by tauto]. rewrite decide_True by tauto.
    assert (y = x) as ->; [|by rewrite <-Hitem; unfold v'; simpl; rewrite Hid]. clear -Hy Hx' Heq Hnd Hq.
    assert (Hin : ∀ i z, (i, z) ∈ q → z ∈ l) by (intros i z Hz; rewrite <-Hq; apply list_elem_of_fmap; by exists (i, z)).
    pose proof (Hin _ _ Hy) as (i1 & H1)%list_elem_of_lookup. pose proof (Hin _ _ Hx') as (i2 & H2)%list_elem_of_lookup. assert (i1 = i2); [|congruence].
    eapply NoDup_lookup; [exact Hnd|by rewrite list_lookup_fmap, H1|by rewrite list_lookup_fmap, H2; simpl; rewrite Heq]. }
  assert (Hids : ∀ y : Waiting T, w_id (set_waker (w_id x) w y) = w_id y) by (intros y; unfold set_waker; by destruct (_ =? _)).
  assert (Hnew : ∀ s', slab_view s' = <[k := v']> (slab_view (slots c)) →
    chain_rep (mkChain s' (positions c) (chain_head c) (chain_tail c) (chain_next_id c)) (set_waker (w_id x) w <$> l) n).
  { intros s' Hs'. split; simpl.
    - exists (prod_map id (set_waker (w_id x) w) <$> q). split_and!.
      + rewrite <-Hq, <-!list_fmap_compose. apply list_fmap_ext. by intros i [].
      + rewrite Hs'. by apply (linked_set_item _ _ _ _ _ v).
      + intros i j. rewrite (Hpos i j). setoid_rewrite list_elem_of_fmap. split.
        * intros (y & Hy & <-). exists (set_waker (w_id x) w y). split; [by exists (j, y)|apply Hids].
        * intros (y & ([j' y'] & [= -> ->] & Hy) & <-). exists y'. by rewrite Hids.
    - rewrite <-list_fmap_compose. erewrite list_fmap_ext; [exact Hnd|]. intros i y _. apply Hids.
    - done.
    - intros y (y' & -> & Hy)%list_elem_of_fmap. rewrite Hids. by apply Hb. }
  destruct (N.eqb_spec (slot_waker v) w) as [Hw|Hw]; simpl.
  - specialize (Hnew (slots c)). destruct c. apply Hnew. simpl in *. rewrite insert_id; [done|]. rewrite Hv. unfold v'. rewrite <-Hid, <-Hw. by destruct v.
  - apply Hnew. rewrite view_put by (rewrite Hv; eauto). done.
Qed.

Lemma chain_drain c l n : chain_rep c l n → ∃ c', drain c = Returns (c', w_waker <$> l) ∧ chain_rep c' [] n.
Proof.
  intros Hr. unfold drain. rewrite (chain_len_rep _ _ _ Hr). unfold lenN. rewrite Nat2N.id.
  assert (Hgo : ∀ l c ws, chain_rep c l n → ∃ c', drain_loop (S (length l)) c ws = Returns (c', ws ++ (w_waker <$> l)) ∧ chain_rep c' [] n).
  { clear. induction l as [|x l IH]; intros c ws Hr; destruct (chain_pop_front _ _ _ Hr) as (c' & Hp & Hr'); cbn [drain_loop]; rewrite Hp; cbn [mbind run_bind head] in *.
    - exists c'. by rewrite app_nil_r.
    - change (length (x :: l)) with (S (length l)). destruct (IH c' (ws ++ [w_waker x]) Hr') as (c2 & -> & Hr2). exists c2. split; [|done]. by rewrite <-app_assoc. }
  apply (Hgo l c [] Hr).
Qed.

Lemma chain_clone_wakers c l n : chain_rep c l n → clone_wakers c = Returns (w_waker <$> l).
Proof.
  intros Hr. unfold clone_wakers. rewrite (chain_len_rep _ _ _ Hr). unfold lenN. rewrite Nat2N.id. destruct Hr as [(q & <- & Hl & _) _ _ _].
  rewrite (linked_head _ _ _ _ Hl), length_fmap. pose proof (linked_seg _ _ _ _ Hl) as Hs. clear Hl.
  assert (Hgo : ∀ q b ws, seg (slab_view (slots c)) b q None → clone_loop (S (length q)) c (head q.*1) ws = Returns (ws ++ (w_waker <$> q.*2))); [|exact (Hgo q None [] Hs)].
  clear. induction q as [|[k x] q IH]; intros b ws Hs; [simpl; by rewrite app_nil_r|]. destruct Hs as [(v & Hv & Hi & _ & Hn) Hs].
  change (head ((k, x) :: q).*1) with (Some k). cbn [clone_loop]. change (length ((k, x) :: q)) with (S (length q)). rewrite view_at, Hv. change (slot_next v) with (n_next v). rewrite Hn.
  replace (from_option Some None (head q.*1)) with (head q.*1) by (by destruct q). rewrite (IH (Some k) _ Hs). rewrite <-app_assoc. simpl. by rewrite <-Hi.
Qed.

#[global] Instance chain_laws : WaiterQueueLaws (WaiterChain St) T.
Proof.
  refine {| wq_rep := chain_rep |}; simpl.
  - split; simpl; [|constructor|done|by intros x ?%not_elem_of_nil]. exists []. split_and!; [done| |].
    + split; simpl; [constructor| |done|done|done]. intros k. rewrite view_empty, lookup_empty. by intros [].
    + intros id k. rewrite lookup_empty. split; [done|]. by intros (x & ?%not_elem_of_nil & _).
  - intros c l n Hr. split; [apply Hr|]. intros x. apply Hr.
  - intros c l n [(q & <- & Hl & _) _ _ _]. unfold chain_is_empty. rewrite (linked_head _ _ _ _ Hl). by destruct q.
  - apply chain_len_rep.
  - apply chain_push_back.
  - apply chain_push_front.
  - apply chain_pop_front.
  - intros c l n. by apply chain_front.
  - intros c l n. by apply chain_front.
  - apply chain_remove.
  - apply chain_update_waker.
  - apply chain_drain.
  - apply chain_clone_wakers.
Qed.

End proofs.

(** ** Sequences of operations *)

Section scripts.
Context {T : Type}.

Inductive qop := QPushBack (w : Waker) (t : T) | QPushFront (w : Waker) (t : T) | QPop | QRemove (id : N) | QUpdate (id : N) (w : Waker) | QDrain | QFront | QAll.
Inductive qans := AId (id : N) | AWaiter (x : option (Waiting T)) | AWaker (w : option Waker) | AFound (b : bool) | AWakers (ws : list Waker) | AFront (id : option N) (tag : option T).

(** The queue: the waiters in order, and the identifier to issue next. *)
Definition queue_do (s : list (Waiting T) * N) (o : qop) : list (Waiting T) * N * qans :=
  let '(l, n) := s in
  match o with
  | QPushBack w t => (l ++ [mkWaiting n w t], n + 1, AId n)
  | QPushFront w t => (mkWaiting n w t :: l, n + 1, AId n)
  | QPop => (tail l, n, AWaiter (head l))
  | QRemove id => (without id l, n, AWaker (w_waker <$> find_waiter id l))
  | QUpdate id w => (set_waker id w <$> l, n, AFound (bool_decide (id ∈ w_id <$> l)))
  | QDrain => ([], n, AWakers (w_waker <$> l))
  | QFront => (l, n, AFront (w_id <$> head l) (w_tag <$> head l))
  | QAll => (l, n, AWakers (w_waker <$> l))
  end.

Definition chain_do {C} `{!WaiterQueue C T} (c : C) (o : qop) : run (C * qans) :=
  match o with
  | QPushBack w t => '(c, id) ← wq_push_back c w t; Returns (c, AId id)
  | QPushFront w t => '(c, id) ← wq_push_front c w t; Returns (c, AId id)
  | QPop => '(c, x) ← wq_pop_front c; Returns (c, AWaiter x)
  | QRemove id => '(c, w) ← wq_remove c id; Returns (c, AWaker w)
  | QUpdate id w => let '(c, b) := wq_update_waker c id w in Returns (c, AFound b)
  | QDrain => '(c, ws) ← wq_drain c; Returns (c, AWakers ws)
  | QFront => id ← wq_front_id c; tag ← wq_front_tag c; Returns (c, AFront id tag)
  | QAll => ws ← wq_clone_wakers c; Returns (c, AWakers ws)
  end.

Fixpoint queue_run (s : list (Waiting T) * N) (os : list qop) : list (Waiting T) * N * list qans :=
  match os with
  | [] => (s, [])
  | o :: os => let '(s, a) := queue_do s o in let '(s, r) := queue_run s os in (s, a :: r)
  end.

Fixpoint chain_run {C} `{!WaiterQueue C T} (c : C) (os : list qop) : run (C * list qans) :=
  match os with
  | [] => Returns (c, [])
  | o :: os => '(c, a) ← chain_do c o; '(c, r) ← chain_run c os; Returns (c, a :: r)
  end.

Lemma chain_do_queue {C} `{!WaiterQueue C T} `{!WaiterQueueLaws C T} (c : C) l n o : wq_rep c l n → n < u64_MAX →
  ∃ c', chain_do c o = Returns (c', (queue_do (l, n) o).2) ∧ wq_rep c' (queue_do (l, n) o).1.1 (queue_do (l, n) o).1.2 ∧ (queue_do (l, n) o).1.2 ≤ n + 1.
Proof.
  intros Hr Hn. destruct o as [w t|w t| |id|id w| | |]; simpl.
  - destruct (rep_push_back c l n w t Hr Hn) as (c' & -> & Hr'). exists c'. split_and!; [done|done|lia].
  - destruct (rep_push_front c l n w t Hr Hn) as (c' & -> & Hr'). exists c'. split_and!; [done|done|lia].
  - destruct (rep_pop_front c l n Hr) as (c' & -> & Hr'). exists c'. split_and!; [done|done|lia].
  - destruct (rep_remove c l n id Hr) as (c' & -> & Hr'). exists c'. split_and!; [done|done|lia].
  - destruct (rep_update_waker c l n id w Hr) as [Hb Hr']. destruct (wq_update_waker c id w) as [c' b]. simpl in *. subst b. exists c'. split_and!; [done|done|lia].
  - destruct (rep_drain c l n Hr) as (c' & -> & Hr'). exists c'. split_and!; [done|done|lia].
  - rewrite (rep_front_id c l n Hr), (rep_front_tag c l n Hr). exists c. split_and!; [done|done|lia].
  - rewrite (rep_clone_wakers c l n Hr). exists c. split_and!; [done|done|lia].
Qed.

End scripts.
Arguments qop _ : clear implicits.
Arguments qans _ : clear implicits.

(** Over any sequence of fewer than 2^64 operations the chain of linked slots
    answers as a queue: pushes at either end, pops, removals and waker updates by
    identifier wherever the waiter is, drains and listings return what the list of
    waiters returns, identifiers are issued in order and never twice, and nothing
    panics or fails to return. *)
Theorem waiter_chain_is_queue {St T} `{!Slab St (WaiterSlot T)} `{!SlabLaws St (WaiterSlot T)} (os : list (qop T)) :
  N.of_nat (length os) ≤ u64_MAX →
  ∃ c, chain_run (C := WaiterChain St) chain_new os = Returns (c, (queue_run ([], 0) os).2) ∧
    chain_len c = lenN (queue_run ([], 0) os).1.1.
Proof.
  intros Hlen. assert (Hgo : ∀ os (c : WaiterChain St) l n, wq_rep c l n → n + N.of_nat (length os) ≤ u64_MAX →
    ∃ c', chain_run c os = Returns (c', (queue_run (l, n) os).2) ∧ ∃ n', wq_rep c' (queue_run (l, n) os).1.1 n').
  { clear. induction os as [|o os IH]; intros c l n Hr Hn; [simpl; eauto|]. simpl in Hn. cbn [chain_run queue_run].
    destruct (chain_do_queue c l n o Hr) as (c1 & -> & Hr1 & Hn1); [lia|]. cbn [mbind run_bind]. destruct (queue_do (l, n) o) as [[l1 n1] a]. simpl in *.
    destruct (IH c1 l1 n1 Hr1) as (c2 & -> & n2 & Hr2); [lia|]. simpl. destruct (queue_run (l1, n1) os) as [[l2 n3] r]. simpl in *. eauto. }
  destruct (Hgo os chain_new [] 0 rep_new) as (c & Hc & n & Hr); [lia|]. exists c. split; [done|]. exact (rep_len c _ n Hr).
Qed.

Definition chain_script : list (qop N) :=
  [QPushBack 10 1; QPushBack 11 2; QPushFront 12 3; QRemove 0; QPushBack 13 4; QRemove 0; QUpdate 1 21; QFront; QPop; QAll; QPushFront 14 5; QDrain; QPop].

Lemma waiter_chain_is_queue_witness : ∃ c, chain_run (C := WaiterChain (gmap N (WaiterSlot N))) chain_new chain_script =
  Returns (c, [AId 0; AId 1; AId 2; AWaker (Some 10); AId 3; AWaker None; AFound true; AFront (Some 2) (Some 3); AWaiter (Some (mkWaiting 2 12 3));
    AWakers [21; 13]; AId 4; AWakers [14; 21; 13]; AWaiter None]).
Proof.
  destruct (waiter_chain_is_queue (St := gmap N (WaiterSlot N)) chain_script) as (c & Hc & _); [by vm_compute|]. exists c. rewrite Hc. reflexivity.
Defined.
