(* ===== verification/Waits.v ===== *)
(** * Futures that wait

    What the futures of the mutex, of the read-write lock and of the semaphore have
    in common.  A future may hold the identifier of a waiter; a waiter is in the
    queue, or was taken out of it because it was granted what it waits for.
    [side] says that identifiers, queue, grants, wakers and sleepers agree: no
    identifier is used twice, a granted future is awake, a queued one can be woken
    through the waker of its last poll, and whoever sleeps waits.  Each lemma is one
    way the primitives change this. *)

From S2P Require Import Prelude Slab Links WaiterChain.

(** Sleepers that stay asleep when [ws] are woken. *)
Definition roused (lastw : gmap N Waker) (asleep : gset N) (ws : list Waker) : gset N :=
  filter (λ fid, match lastw !! fid with Some w => bool_decide (w ∈ ws) | None => false end = false) asleep.

Lemma roused_sub lastw asleep ws fid : fid ∈ roused lastw asleep ws → fid ∈ asleep.
Proof. unfold roused. rewrite elem_of_filter. tauto. Qed.

Lemma roused_woken lastw asleep ws fid w : lastw !! fid = Some w → w ∈ ws → fid ∉ roused lastw asleep ws.
Proof. intros Hw Hin. unfold roused. rewrite elem_of_filter, Hw, bool_decide_true by done. by intros [? _]. Qed.

Lemma roused_nil lastw asleep : roused lastw asleep [] = asleep.
Proof.
  unfold roused. apply set_eq. intros j. rewrite elem_of_filter. destruct (lastw !! j); [|tauto]. rewrite bool_decide_false by apply not_elem_of_nil. tauto.
Qed.

Lemma roused_leave lastw asleep ws fid : roused lastw (asleep ∖ {[fid]}) ws = roused lastw asleep ws ∖ {[fid]}.
Proof. apply set_eq. intros j. unfold roused. rewrite elem_of_difference, !elem_of_filter, elem_of_difference. tauto. Qed.

Lemma in_sublist {A} (k l : list A) x : k `sublist_of` l → x ∈ k → x ∈ l.
Proof. intros Hs Hx. eapply elem_of_submseteq; [exact Hx|by apply sublist_submseteq]. Qed.

Section side.
Context {T : Type}.
Implicit Types (wt : gmap N (option N)) (lastw : gmap N Waker) (asleep : gset N) (l : list (Waiting T)) (g : list N).

(** [wt] gives each future the identifier it waits under, [l] is the queue, [g]
    the identifiers that were granted, [n] the next identifier. *)
Record side wt lastw asleep l (n : N) g : Prop := {
  side_nodup : NoDup (g ++ (w_id <$> l));
  side_below id : id ∈ g ++ (w_id <$> l) → id < n;
  side_waits id fid : wt !! fid = Some (Some id) → id ∈ g ++ (w_id <$> l);
  side_unique id fid fid' : wt !! fid = Some (Some id) → wt !! fid' = Some (Some id) → fid = fid';
  side_granted id : id ∈ g → ∃ fid, wt !! fid = Some (Some id) ∧ fid ∉ asleep;
  side_queued x : x ∈ l → ∃ fid, wt !! fid = Some (Some (w_id x)) ∧ lastw !! fid = Some (w_waker x);
  side_asleep fid : fid ∈ asleep → ∃ id, wt !! fid = Some (Some id);
}.

Lemma side_new : side ∅ ∅ ∅ [] 0 [].
Proof. split; simpl; try done; [constructor|by intros id ?%not_elem_of_nil|by intros id ?%not_elem_of_nil|by intros x ?%not_elem_of_nil]. Qed.

(** Who sleeps is queued. *)
Lemma side_sleeper wt lastw asleep l n g fid : side wt lastw asleep l n g → fid ∈ asleep →
  ∃ x, x ∈ l ∧ wt !! fid = Some (Some (w_id x)) ∧ lastw !! fid = Some (w_waker x).
Proof.
  intros [Hnd Hb Hw Hu Hg Hq Ha] Hf. destruct (Ha fid Hf) as (id & Hid). destruct (elem_of_app g (w_id <$> l) id) as [H1 _]. destruct (H1 (Hw id fid Hid)) as [Hin|Hin].
  - destruct (Hg id Hin) as (j & Hj & Hja). by rewrite (Hu id fid j Hid Hj) in Hf.
  - apply list_elem_of_fmap in Hin as (x & -> & Hx). destruct (Hq x Hx) as (j & Hj & Hlw). rewrite (Hu _ fid j Hid Hj). eauto.
Qed.

(** Waking more than needed does no harm. *)
Lemma side_rouse wt lastw asleep l n g ws : side wt lastw asleep l n g → side wt lastw (roused lastw asleep ws) l n g.
Proof.
  intros [Hnd Hb Hw Hu Hg Hq Ha]. split; try done.
  - intros id Hid. destruct (Hg id Hid) as (fid & Hf & Hfa). exists fid. split; [done|]. by intros ?%roused_sub.
  - intros fid Hf%roused_sub. by apply Ha.
Qed.

(** The first waiters are granted and woken. *)
Lemma side_grant wt lastw asleep l1 l2 n g ws : side wt lastw asleep (l1 ++ l2) n g → (∀ x, x ∈ l1 → w_waker x ∈ ws) →
  side wt lastw (roused lastw asleep ws) l2 n (g ++ (w_id <$> l1)).
Proof.
  intros [Hnd Hb Hw Hu Hg Hq Ha] Hws. rewrite fmap_app, app_assoc in *. split; try done.
  - intros id [Hid|Hid]%elem_of_app.
    + destruct (Hg id Hid) as (fid & Hf & Hfa). exists fid. split; [done|]. by intros ?%roused_sub.
    + apply list_elem_of_fmap in Hid as (x & -> & Hx). destruct (Hq x) as (fid & Hf & Hlw); [apply elem_of_app; by left|]. exists fid. split; [done|]. eapply roused_woken; [exact Hlw|auto].
  - intros x Hx. apply Hq, elem_of_app. by right.
  - intros fid Hf%roused_sub. by apply Ha.
Qed.

(** A future stops waiting. *)
Definition left_by wt (fid : N) (wt' : gmap N (option N)) : Prop :=
  (∀ j, j ≠ fid → wt' !! j = wt !! j) ∧ ∀ id, wt' !! fid ≠ Some (Some id).

Lemma left_waits wt fid wt' j id : left_by wt fid wt' → wt' !! j = Some (Some id) ↔ j ≠ fid ∧ wt !! j = Some (Some id).
Proof. intros [Hne Hself]. destruct (decide (j = fid)) as [->|Hj]; [|rewrite Hne by done; tauto]. split; [by intros ?%Hself|by intros []]. Qed.

Lemma left_by_delete wt fid : left_by wt fid (delete fid wt).
Proof. split; [intros j Hj; by rewrite lookup_delete_ne|]. intros id. by rewrite lookup_delete_eq. Qed.

Lemma left_by_none wt fid : left_by wt fid (<[fid := None]> wt).
Proof. split; [intros j Hj; by rewrite lookup_insert_ne|]. intros id. by rewrite lookup_insert_eq. Qed.

Lemma left_by_same wt fid : (∀ id, wt !! fid ≠ Some (Some id)) → left_by wt fid wt.
Proof. by split. Qed.

(** The identifiers [ids] go away, and with them the future that waited under one. *)
Lemma side_leave wt lastw asleep l n g fid wt' l' g' : side wt lastw asleep l n g → left_by wt fid wt' →
  l' `sublist_of` l → g' `sublist_of` g →
  (∀ j id, wt !! j = Some (Some id) → j ≠ fid → id ∈ g' ++ (w_id <$> l')) →
  (∀ id, wt !! fid = Some (Some id) → id ∉ g' ++ (w_id <$> l')) →
  side wt' lastw (asleep ∖ {[fid]}) l' n g'.
Proof.
  intros [Hnd Hb Hw Hu Hg Hq Ha] Hl Hsl Hsg Hrest Hgone.
  assert (Hsub : g' ++ (w_id <$> l') `sublist_of` g ++ (w_id <$> l)) by (apply sublist_app; [done|by apply fmap_sublist]).
  split.
  - by eapply sublist_NoDup.
  - intros id Hid. apply Hb. by eapply in_sublist.
  - intros id j [Hj Hid]%(left_waits _ _ _ _ _ Hl). by eapply Hrest.
  - intros id j j' [_ H1]%(left_waits _ _ _ _ _ Hl) [_ H2]%(left_waits _ _ _ _ _ Hl). by eapply Hu.
  - intros id Hid. destruct (Hg id) as (j & Hj & Hja); [by eapply in_sublist|]. exists j. split; [|set_solver]. apply (left_waits _ _ _ _ _ Hl). split; [|done]. intros ->.
    apply (Hgone id Hj), elem_of_app. by left.
  - intros x Hx. destruct (Hq x) as (j & Hj & Hlw); [by eapply in_sublist|]. exists j. split; [|done]. apply (left_waits _ _ _ _ _ Hl). split; [|done]. intros ->.
    apply (Hgone _ Hj), elem_of_app. right. by apply list_elem_of_fmap_2.
  - intros j [Hj Hjf]%elem_of_difference. destruct (Ha j Hj) as (id & Hid). exists id. apply (left_waits _ _ _ _ _ Hl). set_solver.
Qed.

Lemma side_leave_none wt lastw asleep l n g fid wt' : side wt lastw asleep l n g → left_by wt fid wt' → (∀ id, wt !! fid ≠ Some (Some id)) →
  side wt' lastw (asleep ∖ {[fid]}) l n g.
Proof. intros Hs Hl Hn. eapply side_leave; [done|done|done|done| |by intros id ?%Hn]. intros j id Hid _. by eapply side_waits. Qed.

Lemma side_leave_granted wt lastw asleep l n g1 id g2 fid wt' : side wt lastw asleep l n (g1 ++ id :: g2) → left_by wt fid wt' → wt !! fid = Some (Some id) →
  side wt' lastw (asleep ∖ {[fid]}) l n (g1 ++ g2).
Proof.
  intros Hs Hl Hid. pose proof (side_nodup _ _ _ _ _ _ Hs) as Hnd. eapply side_leave; [done|done|done| |..].
  - apply sublist_app; [done|]. by apply sublist_cons.
  - intros j i Hi Hj. pose proof (side_waits _ _ _ _ _ _ Hs i j Hi) as Hin. rewrite !elem_of_app, elem_of_cons in *. destruct Hin as [[?|[->|?]]|?]; try tauto.
    by destruct Hj; eapply (side_unique _ _ _ _ _ _ Hs id).
  - intros i Hi. assert (i = id) as -> by congruence. rewrite <-app_assoc in Hnd. simpl in Hnd. apply NoDup_app in Hnd as (_ & Hd & [Hn _]%NoDup_cons).
    rewrite <-app_assoc. intros [Hin|Hin]%elem_of_app; [|done]. apply (Hd id Hin). left.
Qed.

Lemma side_leave_queued wt lastw asleep l n g id fid wt' : side wt lastw asleep l n g → left_by wt fid wt' → wt !! fid = Some (Some id) → id ∉ g →
  side wt' lastw (asleep ∖ {[fid]}) (without id l) n g.
Proof.
  intros Hs Hl Hid Hng. eapply side_leave; [done|done|apply sublist_filter|done|..].
  - intros j i Hi Hj. pose proof (side_waits _ _ _ _ _ _ Hs i j Hi) as Hin. rewrite elem_of_app in *. destruct Hin as [?|(x & -> & Hx)%list_elem_of_fmap]; [by left|]. right.
    apply list_elem_of_fmap_2, without_elem. split; [done|]. intros Heq. apply Hj. eapply (side_unique _ _ _ _ _ _ Hs id); [by rewrite <-Heq|done].
  - intros i Hi. assert (i = id) as -> by congruence. intros [?|(x & -> & [_ Hx]%without_elem)%list_elem_of_fmap]%elem_of_app; done.
Qed.

(** A new future, not yet waiting. *)
Lemma side_add wt lastw asleep l n g fid : side wt lastw asleep l n g → wt !! fid = None → side (<[fid := None]> wt) lastw asleep l n g.
Proof.
  intros [Hnd Hb Hw Hu Hg Hq Ha] Hf. assert (Hsame : ∀ j id, <[fid := None]> wt !! j = Some (Some id) ↔ wt !! j = Some (Some id)).
  { intros j id. destruct (decide (j = fid)) as [->|Hj]; [rewrite lookup_insert_eq, Hf; naive_solver|by rewrite lookup_insert_ne]. }
  split; repeat setoid_rewrite Hsame; done.
Qed.

(** A waiting future renews its waker and sleeps. *)
Lemma set_waker_ids id w l : w_id <$> (set_waker id w <$> l) = w_id <$> l.
Proof. rewrite <-list_fmap_compose. apply list_fmap_ext. intros i x _. unfold set_waker. simpl. by destruct (_ =? _). Qed.

Lemma side_renew wt lastw asleep l n g fid id w : side wt lastw asleep l n g → wt !! fid = Some (Some id) → id ∉ g →
  side wt (<[fid := w]> lastw) ({[fid]} ∪ asleep ∖ {[fid]}) (set_waker id w <$> l) n g.
Proof.
  intros [Hnd Hb Hw Hu Hg Hq Ha] Hid Hng. split; rewrite ?set_waker_ids; try done.
  - intros i Hi. destruct (Hg i Hi) as (j & Hj & Hja). exists j. split; [done|]. assert (j ≠ fid) by (intros ->; congruence). set_solver.
  - intros x (y & -> & Hy)%list_elem_of_fmap. destruct (Hq y Hy) as (j & Hj & Hlw). exists j. unfold set_waker. destruct (N.eqb_spec (w_id y) id) as [Heq|Hne]; simpl; (split; [done|]).
    + assert (j = fid) as -> by (apply (Hu id); [by rewrite <-Heq|done]). by rewrite lookup_insert_eq.
    + rewrite lookup_insert_ne; [done|]. intros <-. congruence.
  - intros j [->%elem_of_singleton|[Hj _]%elem_of_difference]%elem_of_union; [eauto|by apply Ha].
Qed.

(** A future joins the queue at the end and sleeps. *)
Lemma side_enqueue wt lastw asleep l n g fid w t : side wt lastw asleep l n g → (∀ id, wt !! fid ≠ Some (Some id)) →
  side (<[fid := Some n]> wt) (<[fid := w]> lastw) ({[fid]} ∪ asleep ∖ {[fid]}) (l ++ [mkWaiting n w t]) (n + 1) g.
Proof.
  intros [Hnd Hb Hw Hu Hg Hq Ha] Hf.
  assert (Hsame : ∀ j id, <[fid := Some n]> wt !! j = Some (Some id) ↔ (j = fid ∧ id = n) ∨ wt !! j = Some (Some id)).
  { intros j id. destruct (decide (j = fid)) as [->|Hj]; [|rewrite lookup_insert_ne by done; tauto]. rewrite lookup_insert_eq. split; [intros [= <-]; auto|].
    intros [[_ ->]|?]; [done|by destruct (Hf id)]. }
  assert (Hold : ∀ j id, wt !! j = Some (Some id) → id < n ∧ j ≠ fid) by (intros j id Hj; split; [eapply Hb, Hw, Hj|intros ->; by destruct (Hf id)]).
  split; rewrite ?fmap_app, ?app_assoc.
  - apply NoDup_app. split_and!; [done| |apply NoDup_singleton]. intros id Hid%Hb Heq%list_elem_of_singleton. simpl in Heq. lia.
  - intros id [Hid%Hb|Hid%list_elem_of_singleton]%elem_of_app; [lia|]. simpl in Hid. lia.
  - intros id j [[-> ->]|Hj]%Hsame; apply elem_of_app; [right; left|left; by eapply Hw].
  - intros id j j' H1%Hsame H2%Hsame. destruct H1 as [[-> ->]|H1], H2 as [[-> E]|H2]; [done|apply Hold in H2; lia|subst id; apply Hold in H1; lia|by apply (Hu id)].
  - intros id Hid. destruct (Hg id Hid) as (j & Hj & Hja). exists j. split; [apply Hsame; by right|]. apply Hold in Hj. set_solver.
  - intros x [Hx| ->%list_elem_of_singleton]%elem_of_app.
    + destruct (Hq x Hx) as (j & Hj & Hlw). exists j. split; [apply Hsame; by right|]. rewrite lookup_insert_ne; [done|]. intros <-. by apply Hold in Hj as [_ ?].
    + exists fid. simpl. split; [apply Hsame; by left|by rewrite lookup_insert_eq].
  - intros j [->%elem_of_singleton|[Hj _]%elem_of_difference]%elem_of_union; [exists n; apply Hsame; by left|]. destruct (Ha j Hj) as (id & Hid). exists id. apply Hsame. by right.
Qed.

(** How many futures wait under an identifier that satisfies [P]. *)
Definition waiting_with (P : N → bool) wt : N := N.of_nat (size (filter (λ '(_, o), from_option P false o = true) wt)).

Lemma waiting_with_count P wt lastw asleep l n g ks : side wt lastw asleep l n g → NoDup ks →
  (∀ id, id ∈ ks ↔ id ∈ g ++ (w_id <$> l) ∧ P id = true) → waiting_with P wt = lenN ks.
Proof.
  intros [Hnd Hb Hw Hu Hg Hq Ha] Hk Hks. unfold waiting_with, lenN. f_equal. set (m := filter _ wt).
  assert (Hm : ∀ fid o, m !! fid = Some o ↔ ∃ id, o = Some id ∧ wt !! fid = Some (Some id) ∧ P id = true).
  { intros fid o. unfold m. rewrite map_lookup_filter_Some. split; [|naive_solver]. intros [Hf Hp]. destruct o as [id|]; [eauto|done]. }
  assert (Hperm : snd <$> map_to_list m ≡ₚ Some <$> ks).
  { apply NoDup_Permutation.
    - apply NoDup_fmap_2_strong; [|apply NoDup_map_to_list]. intros [j o] [j' o'] Hj%elem_of_map_to_list Hj'%elem_of_map_to_list. simpl. intros <-.
      apply Hm in Hj as (id & -> & Hj & _), Hj' as (id' & [= <-] & Hj' & _). by rewrite (Hu id j j').
    - by apply NoDup_fmap_2; [apply _|].
    - intros o. rewrite !list_elem_of_fmap. split.
      + intros ([fid o'] & -> & (id & -> & Hf & Hp)%elem_of_map_to_list%Hm). exists id. split; [done|]. apply Hks. eauto.
      + intros (id & -> & [Hin Hp]%Hks). assert (∃ fid, wt !! fid = Some (Some id)) as [fid Hf].
        { apply elem_of_app in Hin as [Hin|(x & -> & Hx)%list_elem_of_fmap]; [destruct (Hg _ Hin) as (j & ? & _)|destruct (Hq _ Hx) as (j & ? & _)]; eauto. }
        exists (fid, Some id). split; [done|]. apply elem_of_map_to_list, Hm. eauto. }
  apply Permutation_length in Hperm. by rewrite !length_fmap, length_map_to_list in Hperm.
Qed.

End side.
