(* ===== verification/Mutex.v ===== *)
(** * The mutex

    Models [src/sync/mutex.rs]: the asynchronous mutex with fair hand-over.  Each
    critical section is a function on the state that returns the wakers to wake
    after the lock of the state is released; the queue of waiters is any
    [WaiterQueue].  The results of [cx.checkpoint()], of the deadline test and of
    polling the deadline's [Sleep] are arguments.  Lock-order checks exist in debug
    builds only; the protected value, and with it mapped guards, are left out (a
    mapped guard unlocks like the guard it comes from).

    [System] adds the futures and guards that Rust's ownership tracks, and every
    interleaving of critical sections.  The theorems: at most one guard exists, a
    mutex that is not locked has handed its turn to a future that is awake and gets
    the lock when polled, hand-over is first come first served, and no operation
    panics. *)

From S2P Require Import Prelude Slab Links WaiterChain Waits.

Inductive LockError := LockPoisoned | LockCancelled | LockTimedOut (deadline : N) | LockPolledAfterCompletion.
Inductive TryLockError := TryLocked | TryPoisoned.

Record LockFuture := mkLockFuture { waiter_id : option N; completed : bool }.

Section mutex.
Context {C : Type} `{!WaiterQueue C ()}.

Record MutexState := mkMutexState { locked : bool; waiters : C; granted_waiter : option N }.
Record Mutex := mkMutex { mstate : MutexState; poisoned : bool }.

Implicit Types (m : Mutex) (st : MutexState) (f : LockFuture).

Definition mutex_new : Mutex := mkMutex (mkMutexState false wq_new None) false.
Definition with_state m st : Mutex := mkMutex st (poisoned m).
Definition is_locked m : bool := locked (mstate m).
Definition mutex_waiters m : N := wq_len (waiters (mstate m)).
Definition poison m : Mutex := mkMutex (mstate m) true.

Definition try_lock m : Mutex * result () TryLockError :=
  let st := mstate m in
  if poisoned m then (m, Err TryPoisoned)
  else if locked st || bool_decide (is_Some (granted_waiter st)) || negb (wq_is_empty (waiters st)) then (m, Err TryLocked)
  else (with_state m (mkMutexState true (waiters st) (granted_waiter st)), Ok ()).

Definition grant_next_waiter st : run (MutexState * list Waker) :=
  '(c, x) ← wq_pop_front (waiters st);
  match x with
  | Some x => Returns (mkMutexState (locked st) c (Some (w_id x)), [w_waker x])
  | None => Returns (mkMutexState (locked st) c None, [])
  end.

Definition unlock m : run (Mutex * list Waker) :=
  let st := mstate m in
  '(c, x) ← wq_pop_front (waiters st);
  match x with
  | Some x => Returns (with_state m (mkMutexState false c (Some (w_id x))), [w_waker x])
  | None => Returns (with_state m (mkMutexState false c None), [])
  end.

(** [cleanup_waiter]; the future gives up its identifier. *)
Definition cleanup_waiter m (waiter : option N) : run (Mutex * list Waker) :=
  match waiter with
  | None => Returns (m, [])
  | Some id =>
      let st := mstate m in
      if bool_decide (granted_waiter st = Some id) then
        let st := mkMutexState (locked st) (waiters st) None in
        if negb (locked st) then '(st, ws) ← grant_next_waiter st; Returns (with_state m st, ws)
        else Returns (with_state m st, [])
      else
        front ← wq_front_id (waiters st);
        let is_head := bool_decide (front = Some id) in
        '(c, _) ← wq_remove (waiters st) id;
        let st := mkMutexState (locked st) c (granted_waiter st) in
        if negb (locked st) && negb (bool_decide (is_Some (granted_waiter st))) && is_head
        then '(st, ws) ← grant_next_waiter st; Returns (with_state m st, ws)
        else Returns (with_state m st, [])
  end.

(** The end of [poll]'s critical section: registering, or renewing the waker. *)
Definition register m f (waker : Waker) : run (Mutex * LockFuture) :=
  let st := mstate m in
  match waiter_id f with
  | Some id =>
      let '(c, found) := wq_update_waker (waiters st) id waker in
      if found then Returns (with_state m (mkMutexState (locked st) c (granted_waiter st)), f)
      else
        '(c, new_id) ← wq_push_front c waker ();
        Returns (with_state m (mkMutexState (locked st) c (granted_waiter st)), mkLockFuture (Some new_id) (completed f))
  | None =>
      '(c, id) ← wq_push_back (waiters st) waker ();
      Returns (with_state m (mkMutexState (locked st) c (granted_waiter st)), mkLockFuture (Some id) (completed f))
  end.

(** A future that ends gives up its place. *)
Definition finish_with m f (e : LockError) : run (Mutex * LockFuture * poll (result () LockError) * list Waker) :=
  '(m, ws) ← cleanup_waiter m (waiter_id f); Returns (m, mkLockFuture None true, Ready (Err e), ws).

Definition lock_poll m f (cancelled : bool) (elapsed : option N) (sleep : option N) (waker : Waker) :
    run (Mutex * LockFuture * poll (result () LockError) * list Waker) :=
  if completed f then Returns (m, f, Ready (Err LockPolledAfterCompletion), [])
  else if cancelled then finish_with m f LockCancelled
  else match elapsed with
  | Some deadline => finish_with m f (LockTimedOut deadline)
  | None =>
  if poisoned m then finish_with m f LockPoisoned
  else
    let st := mstate m in
    if bool_decide (is_Some (waiter_id f)) && bool_decide (granted_waiter st = waiter_id f) then
      if negb (locked st) then Returns (with_state m (mkMutexState true (waiters st) None), mkLockFuture None true, Ready (Ok ()), [])
      else
        '(c, new_id) ← wq_push_front (waiters st) waker ();
        Returns (with_state m (mkMutexState (locked st) c None), mkLockFuture (Some new_id) false, Pending, [])
    else if negb (locked st) && negb (bool_decide (is_Some (granted_waiter st))) && negb (bool_decide (is_Some (waiter_id f))) then
      Returns (with_state m (mkMutexState true (waiters st) (granted_waiter st)), mkLockFuture (waiter_id f) true, Ready (Ok ()), [])
    else
      '(m, f) ← register m f waker;
      match sleep with
      | Some deadline => finish_with m f (LockTimedOut deadline)
      | None => Returns (m, f, Pending, [])
      end
  end.

Definition lock_drop m f : run (Mutex * list Waker) := cleanup_waiter m (waiter_id f).

(** [Drop for MutexGuard]: poison when the thread panics, then unlock. *)
Definition guard_drop m (panicking : bool) : run (Mutex * list Waker) := unlock (if panicking then poison m else m).

(** *** Futures, guards and interleavings *)

Record System := mkSystem {
  mutex : Mutex;
  futures : gmap N LockFuture;
  last_waker : gmap N Waker;   (* the waker of a future's last pending poll *)
  asleep : gset N;             (* pending futures whose waker was not woken since *)
  guards : N;
}.

Definition sys_new : System := mkSystem mutex_new ∅ ∅ ∅ 0.

Definition rouse (s : System) (ws : list Waker) : gset N := roused (last_waker s) (asleep s) ws.

Inductive Op :=
  | OLock (fid : N)
  | OPoll (fid : N) (cancelled : bool) (elapsed : option N) (waker : Waker)
  | ODrop (fid : N)
  | OTryLock
  | OGuardDrop
  | OPoison.

Definition enabled (s : System) (o : Op) : bool :=
  match o with
  | OLock fid => bool_decide (futures s !! fid = None)
  | OPoll fid _ _ _ | ODrop fid => bool_decide (is_Some (futures s !! fid))
  | OTryLock => true
  | OGuardDrop | OPoison => 0 <? guards s
  end.

(** A dropped guard of a panicking thread is [OPoison] then [OGuardDrop]; a poll
    whose sleep fires at its end is a pending poll and a poll after the deadline. *)
Definition sys_step (s : System) (o : Op) : run System :=
  match o with
  | OLock fid => Returns (mkSystem (mutex s) (<[fid := mkLockFuture None false]> (futures s)) (last_waker s) (asleep s) (guards s))
  | OPoll fid cancelled elapsed waker =>
      match futures s !! fid with
      | None => Panicked
      | Some f =>
          '(m, f, r, ws) ← lock_poll (mutex s) f cancelled elapsed None waker;
          let awake := rouse s ws ∖ {[fid]} in
          Returns (match r with
                   | Pending => mkSystem m (<[fid := f]> (futures s)) (<[fid := waker]> (last_waker s)) ({[fid]} ∪ awake) (guards s)
                   | Ready (Ok _) => mkSystem m (<[fid := f]> (futures s)) (last_waker s) awake (guards s + 1)
                   | Ready (Err _) => mkSystem m (<[fid := f]> (futures s)) (last_waker s) awake (guards s)
                   end)
      end
  | ODrop fid =>
      match futures s !! fid with
      | None => Panicked
      | Some f =>
          '(m, ws) ← lock_drop (mutex s) f;
          Returns (mkSystem m (delete fid (futures s)) (last_waker s) (rouse s ws ∖ {[fid]}) (guards s))
      end
  | OTryLock =>
      let '(m, r) := try_lock (mutex s) in
      Returns (mkSystem m (futures s) (last_waker s) (asleep s) (match r with Ok _ => guards s + 1 | Err _ => guards s end))
  | OGuardDrop =>
      '(m, ws) ← guard_drop (mutex s) false;
      Returns (mkSystem m (futures s) (last_waker s) (rouse s ws) (guards s - 1))
  | OPoison => Returns (mkSystem (poison (mutex s)) (futures s) (last_waker s) (asleep s) (guards s))
  end.

Inductive reachable : N → System → Prop :=
  | reach_new : reachable 0 sys_new
  | reach_step k s o s' : reachable k s → enabled s o = true → sys_step s o = Returns s' → reachable (k + 1) s'.

(** *** The invariant *)

Context `{!WaiterQueueLaws C ()}.
Implicit Types (s : System) (l : list (Waiting ())).

(** The future that waits under an identifier. *)
Definition waits s (id fid : N) : Prop := ∃ f, futures s !! fid = Some f ∧ waiter_id f = Some id.

(** The identifiers the futures wait under. *)
Definition waiting s : gmap N (option N) := waiter_id <$> futures s.

Lemma waiting_spec s id fid : waiting s !! fid = Some (Some id) ↔ waits s id fid.
Proof. unfold waiting, waits. rewrite lookup_fmap. destruct (futures s !! fid) as [f|]; simpl; split; [intros [= ?]; eauto|by intros (? & [= <-] & ->)|done|by intros (? & ? & _)]. Qed.

Record inv0 (k : N) s l (n : N) : Prop := {
  inv_rep : wq_rep (waiters (mstate (mutex s))) l n;
  inv_bound : n ≤ k;
  inv_side : side (waiting s) (last_waker s) (asleep s) l n (option_list (granted_waiter (mstate (mutex s))));
  inv_granted : is_Some (granted_waiter (mstate (mutex s))) → locked (mstate (mutex s)) = false;
  inv_guards : guards s = if locked (mstate (mutex s)) then 1 else 0;
  inv_completed fid f : futures s !! fid = Some f → completed f = true → waiter_id f = None;
}.

(** A mutex that is not locked has given its turn away, or nobody waits. *)
Definition inv (k : N) s l (n : N) : Prop :=
  inv0 k s l n ∧ (locked (mstate (mutex s)) = false → granted_waiter (mstate (mutex s)) = None → l = []).

Lemma mutex_inv_new : inv 0 sys_new [] 0.
Proof. split; [|done]. split; simpl; try done; [apply rep_new|apply side_new]. Qed.

Lemma inv_weaken k s l n : inv k s l n → inv (k + 1) s l n.
Proof. intros [[] Ht]. split; [|done]. split; try done. lia. Qed.

(** Handing the turn to the first waiter. *)
Lemma handover k s l n : inv0 k s l n → locked (mstate (mutex s)) = false → granted_waiter (mstate (mutex s)) = None →
  ∃ st ws, grant_next_waiter (mstate (mutex s)) = Returns (st, ws) ∧ locked st = false ∧
    granted_waiter st = w_id <$> head l ∧ ws = option_list (w_waker <$> head l) ∧
    inv k (mkSystem (with_state (mutex s) st) (futures s) (last_waker s) (rouse s ws) (guards s)) (tail l) n.
Proof.
  intros [Hrep Hb Hs Hg Hgu Hc] Hl Hgr. rewrite Hgr in Hs. unfold grant_next_waiter. destruct (rep_pop_front _ _ _ Hrep) as (c & -> & Hr'). cbn [mbind run_bind].
  destruct l as [|x l]; simpl; eexists _, _; (split_and!; [done|done|done|done|]); (split; [|done]); split; simpl; try done.
  - by apply side_rouse.
  - apply (side_grant _ _ _ [x] l n [] [w_waker x]); [done|]. intros y ->%list_elem_of_singleton. left.
Qed.

(** The futures after one of them changed. *)
Lemma waiting_insert s fid f m lw a g : waiting (mkSystem m (<[fid := f]> (futures s)) lw a g) = <[fid := waiter_id f]> (waiting s).
Proof. unfold waiting. simpl. by rewrite fmap_insert. Qed.

(** A future gives up its place: the futures after it did. *)
Definition left_futures s (fid : N) (fs : gmap N LockFuture) : Prop :=
  left_by (waiting s) fid (waiter_id <$> fs) ∧ ∀ j f, fs !! j = Some f → completed f = true → waiter_id f = None.

Lemma left_insert k s l n fid f : inv0 k s l n → waiter_id f = None → left_futures s fid (<[fid := f]> (futures s)).
Proof.
  intros Hi Hf. split; [rewrite fmap_insert, Hf; apply left_by_none|]. intros j f' Hf'. destruct (decide (j = fid)) as [->|Hj].
  - rewrite lookup_insert_eq in Hf'. by injection Hf' as <-.
  - rewrite lookup_insert_ne in Hf' by done. by eapply inv_completed.
Qed.

Lemma left_delete k s l n fid : inv0 k s l n → left_futures s fid (delete fid (futures s)).
Proof.
  intros Hi. split; [rewrite fmap_delete; apply left_by_delete|]. intros j f' Hf'. destruct (decide (j = fid)) as [->|Hj]; [by rewrite lookup_delete_eq in Hf'|].
  rewrite lookup_delete_ne in Hf' by done. by eapply inv_completed.
Qed.

(** The granted future leaves, taking the lock ([b = true]) or not. *)
Lemma leave_granted k s l n fid fs id b : inv0 k s l n → waits s id fid → granted_waiter (mstate (mutex s)) = Some id → left_futures s fid fs →
  inv0 k (mkSystem (with_state (mutex s) (mkMutexState b (waiters (mstate (mutex s))) None)) fs (last_waker s) (asleep s ∖ {[fid]}) (if b then guards s + 1 else guards s)) l n.
Proof.
  intros [Hrep Hb Hs Hg Hgu Hc] Hwt%waiting_spec Hgr [Hl Hlc]. rewrite Hgr in Hs. split; simpl; try done.
  - by apply (side_leave_granted _ _ _ _ _ [] id [] fid _ Hs).
  - rewrite Hgu, Hg by (rewrite Hgr; eauto). by destruct b.
Qed.

(** [cleanup_waiter] for a future of the system. *)
Lemma cleanup_inv k s l n fid f fs : inv k s l n → futures s !! fid = Some f → left_futures s fid fs →
  ∃ m ws l', cleanup_waiter (mutex s) (waiter_id f) = Returns (m, ws) ∧
    inv k (mkSystem m fs (last_waker s) (rouse s ws ∖ {[fid]}) (guards s)) l' n.
Proof.
  intros [Hi Ht] Hf Hl. pose proof Hi as [Hrep Hb Hs Hg Hgu Hc]. assert (Hwf : waiting s !! fid = Some (waiter_id f)) by (unfold waiting; by rewrite lookup_fmap, Hf).
  destruct (waiter_id f) as [id|] eqn:Hid; simpl.
  2: { eexists _, _, l. split; [done|]. split; [|done]. unfold rouse. rewrite roused_nil. split; simpl; try done; [|apply Hl].
       eapply side_leave_none; [done|apply Hl|]. congruence. }
  assert (Hwt : waits s id fid) by (by exists f). case_bool_decide as Hgr.
  - assert (Hlk : locked (mstate (mutex s)) = false) by (apply Hg; rewrite Hgr; eauto). rewrite Hlk. simpl.
    pose proof (leave_granted k s l n fid fs id false Hi Hwt Hgr Hl) as Hi'. destruct (handover _ _ _ _ Hi') as (st & ws & E & _ & _ & _ & Hinv); [done|done|].
    simpl in E. rewrite E. simpl. eexists _, _, _. split; [done|]. unfold rouse in *. simpl in Hinv. rewrite roused_leave in Hinv. exact Hinv.
  - rewrite (rep_front_id _ _ _ Hrep). cbn [mbind run_bind]. destruct (rep_remove _ _ _ id Hrep) as (c & -> & Hrep'). cbn [mbind run_bind].
    assert (Hng : id ∉ option_list (granted_waiter (mstate (mutex s)))) by (destruct (granted_waiter _); simpl; set_solver).
    assert (Hin : id ∈ w_id <$> l). { pose proof (side_waits _ _ _ _ _ _ Hs id fid Hwf) as Hin. apply elem_of_app in Hin as [?|?]; done. }
    assert (Hno : negb (locked (mstate (mutex s))) && negb (bool_decide (is_Some (granted_waiter (mstate (mutex s))))) = false).
    { destruct (locked (mstate (mutex s))) eqn:Hlk; [done|]. case_bool_decide as Hsome; [done|]. rewrite (Ht eq_refl) in Hin; [by apply not_elem_of_nil in Hin|]. by apply eq_None_not_Some. }
    simpl. rewrite Hno. simpl. eexists _, _, (without id l). split; [done|]. split.
    + unfold rouse. rewrite roused_nil. split; simpl; try done; [|apply Hl]. eapply side_leave_queued; [done|apply Hl|done|done].
    + simpl. intros Hlk Hgn. by rewrite Hlk, Hgn in Hno.
Qed.

(** The system after a poll. *)
Definition polled s (fid : N) (waker : Waker) m f (r : poll (result () LockError)) (ws : list Waker) : System :=
  let awake := rouse s ws ∖ {[fid]} in
  match r with
  | Pending => mkSystem m (<[fid := f]> (futures s)) (<[fid := waker]> (last_waker s)) ({[fid]} ∪ awake) (guards s)
  | Ready (Ok _) => mkSystem m (<[fid := f]> (futures s)) (last_waker s) awake (guards s + 1)
  | Ready (Err _) => mkSystem m (<[fid := f]> (futures s)) (last_waker s) awake (guards s)
  end.

Lemma finish_inv k s l n fid f e waker : inv k s l n → futures s !! fid = Some f →
  ∃ m f' r ws l', finish_with (mutex s) f e = Returns (m, f', r, ws) ∧ inv k (polled s fid waker m f' r ws) l' n.
Proof.
  intros Hi Hf. unfold finish_with.
  destruct (cleanup_inv k s l n fid f (<[fid := mkLockFuture None true]> (futures s)) Hi Hf) as (m & ws & l' & -> & Hi'); [by eapply left_insert; [apply Hi|]|].
  cbn [mbind run_bind]. eexists _, _, _, _, _. split; [done|]. exact Hi'.
Qed.

(** A future that waits renews its waker, or a new one joins the queue. *)
Lemma register_inv k s l n fid f waker : inv k s l n → k < u64_MAX → futures s !! fid = Some f → completed f = false →
  (waiter_id f = None → locked (mstate (mutex s)) = true ∨ is_Some (granted_waiter (mstate (mutex s)))) →
  (∀ id, waiter_id f = Some id → granted_waiter (mstate (mutex s)) ≠ Some id) →
  ∃ m f' l' n', register (mutex s) f waker = Returns (m, f') ∧ inv (k + 1) (polled s fid waker m f' Pending []) l' n' ∧
    granted_waiter (mstate m) = granted_waiter (mstate (mutex s)) ∧ locked (mstate m) = locked (mstate (mutex s)) ∧
    w_id <$> l' = (w_id <$> l) ++ (if bool_decide (is_Some (waiter_id f)) then [] else [n]).
Proof.
  intros [Hi Ht] Hk Hf Hcf Hwait Hng. pose proof Hi as [Hrep Hb Hs Hg Hgu Hc]. assert (Hwf : waiting s !! fid = Some (waiter_id f)) by (unfold waiting; by rewrite lookup_fmap, Hf).
  assert (Hcomp : ∀ w j f', <[fid := mkLockFuture w (completed f)]> (futures s) !! j = Some f' → completed f' = true → waiter_id f' = None).
  { intros w j f' Hf' Hc'. destruct (decide (j = fid)) as [->|Hj]; [rewrite lookup_insert_eq in Hf'; injection Hf' as <-; simpl in Hc'; congruence|]. rewrite lookup_insert_ne in Hf' by done. by apply (Hc j). }
  unfold register, polled, rouse. rewrite roused_nil. destruct (waiter_id f) as [id|] eqn:Hid.
  - assert (Hngl : id ∉ option_list (granted_waiter (mstate (mutex s)))) by (specialize (Hng id eq_refl); destruct (granted_waiter _); simpl; set_solver).
    assert (Hin : id ∈ w_id <$> l) by (pose proof (side_waits _ _ _ _ _ _ Hs id fid Hwf) as Hin; apply elem_of_app in Hin as [?|?]; done).
    destruct (rep_update_waker _ _ _ id waker Hrep) as [Hfound Hrep']. destruct (wq_update_waker _ _ _) as [c found]. simpl in Hfound, Hrep'. subst found.
    rewrite bool_decide_true by done. eexists _, _, (set_waker id waker <$> l), n. split_and!; [done| |done|done|rewrite set_waker_ids; simpl; by rewrite app_nil_r]. split.
    + split; rewrite ?waiting_insert; simpl; try done; [lia| |by rewrite insert_id]. rewrite Hid, insert_id by done. by apply side_renew.
    + simpl. intros Hlk Hgn. rewrite (Ht Hlk Hgn) in Hin. by apply not_elem_of_nil in Hin.
  - destruct (rep_push_back _ _ _ waker () Hrep) as (c & -> & Hrep'); [lia|]. cbn [mbind run_bind]. eexists _, _, (l ++ [mkWaiting n waker ()]), (n + 1). split_and!; [done| |done|done|by rewrite fmap_app]. split.
    + split; rewrite ?waiting_insert; simpl; try done; [lia| |apply Hcomp]. apply side_enqueue; [done|]. congruence.
    + simpl. intros Hlk Hgn. destruct (Hwait eq_refl) as [?|[? ?]]; congruence.
Qed.

Lemma poll_inv k s l n fid f cancelled elapsed waker : inv k s l n → k < u64_MAX → futures s !! fid = Some f →
  ∃ m f' r ws l' n', lock_poll (mutex s) f cancelled elapsed None waker = Returns (m, f', r, ws) ∧ inv (k + 1) (polled s fid waker m f' r ws) l' n'.
Proof.
  intros Hinv Hk Hf. pose proof Hinv as [Hi Ht]. pose proof Hi as [Hrep Hb Hs Hg Hgu Hc]. unfold lock_poll.
  assert (Hfin : ∀ e, ∃ m f' r ws l' n', finish_with (mutex s) f e = Returns (m, f', r, ws) ∧ inv (k + 1) (polled s fid waker m f' r ws) l' n').
  { intros e. destruct (finish_inv k s l n fid f e waker Hinv Hf) as (m & f' & r & ws & l' & -> & Hi'). eexists _, _, _, _, l', n. split; [done|]. by apply inv_weaken. }
  destruct (completed f) eqn:Hcf.
  { pose proof (Hc fid f Hf Hcf) as Hn. destruct (cleanup_inv k s l n fid f (<[fid := f]> (futures s)) Hinv Hf) as (m & ws & l' & E & Hi'); [by eapply left_insert|].
    rewrite Hn in E. injection E as <- <-. eexists _, _, _, _, l', n. split; [done|]. by apply inv_weaken. }
  destruct cancelled; [apply Hfin|]. destruct elapsed as [d|]; [apply Hfin|]. destruct (poisoned (mutex s)) eqn:Hp; [apply Hfin|].
  destruct (bool_decide (is_Some (waiter_id f)) && bool_decide (granted_waiter (mstate (mutex s)) = waiter_id f)) eqn:Hgr.
  - apply andb_true_iff in Hgr as [[id Hid]%bool_decide_eq_true Hgr%bool_decide_eq_true]. rewrite Hid in Hgr. rewrite Hg by (rewrite Hgr; eauto). simpl.
    eexists _, _, _, _, l, n. split; [done|]. unfold polled, rouse. rewrite roused_nil. apply inv_weaken. split; [|done].
    apply (leave_granted k s l n fid _ id true); [done|by exists f|done|by eapply left_insert].
  - destruct (negb (locked (mstate (mutex s))) && negb (bool_decide (is_Some (granted_waiter (mstate (mutex s))))) && negb (bool_decide (is_Some (waiter_id f)))) eqn:Hfree.
    + N_bools. apply bool_decide_eq_false in H0, H1. rewrite <-eq_None_not_Some in H0, H1. eexists _, _, _, _, l, n. split; [done|]. unfold polled, rouse. rewrite roused_nil. apply inv_weaken.
      destruct (left_insert k s l n fid (mkLockFuture (waiter_id f) true) Hi H0) as [Hl Hlc]. split; [|done]. split; simpl; try done; [|by rewrite H1; intros []|by rewrite Hgu, H].
      eapply side_leave_none; [exact Hs|exact Hl|]. intros id. unfold waiting. rewrite lookup_fmap, Hf. simpl. congruence.
    + destruct (register_inv k s l n fid f waker Hinv Hk Hf Hcf) as (m & f' & l' & n' & -> & Hi' & _).
      * intros Hn. rewrite Hn in Hfree. destruct (locked (mstate (mutex s))); [by left|]. right. simpl in Hfree. by case_bool_decide.
      * intros id Hid Hgi. by rewrite Hid, Hgi, bool_decide_true, bool_decide_true in Hgr.
      * cbn [mbind run_bind]. eexists _, _, _, _, l', n'. split; [done|]. exact Hi'.
Qed.

Lemma unlock_grant m : unlock m = ('(st, ws) ← grant_next_waiter (mkMutexState false (waiters (mstate m)) None); Returns (with_state m st, ws)).
Proof. unfold unlock, grant_next_waiter. simpl. by destruct (wq_pop_front (waiters (mstate m))) as [[c [x|]]| |]. Qed.

(** The guard is dropped: the lock is handed over. *)
Lemma guard_drop_inv k s l n : inv k s l n → 0 < guards s →
  ∃ m ws, guard_drop (mutex s) false = Returns (m, ws) ∧ granted_waiter (mstate m) = w_id <$> head l ∧ ws = option_list (w_waker <$> head l) ∧
    locked (mstate m) = false ∧ inv k (mkSystem m (futures s) (last_waker s) (rouse s ws) (guards s - 1)) (tail l) n.
Proof.
  intros [Hi Ht] Hgd. pose proof Hi as [Hrep Hb Hs Hg Hgu Hc]. destruct (locked (mstate (mutex s))) eqn:Hlk; [|lia].
  assert (Hgn : granted_waiter (mstate (mutex s)) = None) by (apply eq_None_not_Some; intros Hsome; by specialize (Hg Hsome)). rewrite Hgn in Hs.
  set (s0 := mkSystem (with_state (mutex s) (mkMutexState false (waiters (mstate (mutex s))) None)) (futures s) (last_waker s) (asleep s) (guards s - 1)).
  assert (Hi0 : inv0 k s0 l n) by (split; simpl; try done; lia).
  unfold guard_drop. rewrite unlock_grant. destruct (handover _ _ _ _ Hi0) as (st & ws & E & H1 & H2 & H3 & Hinv); [done|done|]. unfold s0 in E. simpl in E. rewrite E.
  cbn [mbind run_bind]. eexists _, _. split_and!; [done|done|done|done|]. exact Hinv.
Qed.

Lemma try_lock_inv k s l n : inv k s l n →
  inv k (mkSystem (try_lock (mutex s)).1 (futures s) (last_waker s) (asleep s) (match (try_lock (mutex s)).2 with Ok _ => guards s + 1 | Err _ => guards s end)) l n.
Proof.
  intros [Hi Ht]. pose proof Hi as [Hrep Hb Hs Hg Hgu Hc]. unfold try_lock. destruct (poisoned (mutex s)); [by split; [split|]|].
  destruct (_ || _ || _) eqn:Hfree; [by split; [split|]|]. N_bools. apply bool_decide_eq_false in H1. rewrite <-eq_None_not_Some in H1.
  split; [|done]. split; simpl; try done; [rewrite H1; by intros []|by rewrite Hgu, H].
Qed.

Lemma lock_inv k s l n fid : inv k s l n → futures s !! fid = None →
  inv k (mkSystem (mutex s) (<[fid := mkLockFuture None false]> (futures s)) (last_waker s) (asleep s) (guards s)) l n.
Proof.
  intros [Hi Ht] Hf. pose proof Hi as [Hrep Hb Hs Hg Hgu Hc]. split; [|done]. split; rewrite ?waiting_insert; simpl; try done.
  - apply side_add; [done|]. unfold waiting. by rewrite lookup_fmap, Hf.
  - eapply left_insert; [exact Hi|done].
Qed.

(** Every enabled step returns and keeps the invariant. *)
Lemma mutex_inv_step k s l n o : inv k s l n → k < u64_MAX → enabled s o = true → ∃ s' l' n', sys_step s o = Returns s' ∧ inv (k + 1) s' l' n'.
Proof.
  intros Hinv Hk He. destruct o as [fid|fid cancelled elapsed waker|fid| | |]; simpl in *.
  - apply bool_decide_eq_true in He. eexists _, l, n. split; [done|]. apply inv_weaken. by apply lock_inv.
  - apply bool_decide_eq_true in He as [f Hf]. rewrite Hf. destruct (poll_inv k s l n fid f cancelled elapsed waker Hinv Hk Hf) as (m & f' & r & ws & l' & n' & -> & Hi').
    cbn [mbind run_bind]. eexists _, l', n'. split; [done|]. exact Hi'.
  - apply bool_decide_eq_true in He as [f Hf]. rewrite Hf. unfold lock_drop. destruct (cleanup_inv k s l n fid f (delete fid (futures s)) Hinv Hf) as (m & ws & l' & -> & Hi'); [eapply left_delete; apply Hinv|].
    cbn [mbind run_bind]. eexists _, l', n. split; [done|]. by apply inv_weaken.
  - pose proof (try_lock_inv k s l n Hinv) as Hi'. destruct (try_lock (mutex s)) as [m r]. eexists _, l, n. split; [done|]. by apply inv_weaken.
  - apply N.ltb_lt in He. destruct (guard_drop_inv k s l n Hinv He) as (m & ws & -> & _ & _ & _ & Hi'). cbn [mbind run_bind]. eexists _, _, n. split; [done|]. by apply inv_weaken.
  - eexists _, l, n. split; [done|]. apply inv_weaken. destruct Hinv as [[] ?]. split; [|done]. by split.
Qed.

Lemma mutex_reachable_inv k s : reachable k s → k ≤ u64_MAX → ∃ l n, inv k s l n.
Proof.
  induction 1 as [|k s o s' Hr IH He Hs]; intros Hk; [exists [], 0; apply mutex_inv_new|]. destruct IH as (l & n & Hi); [lia|].
  destruct (mutex_inv_step k s l n o Hi) as (s2 & l' & n' & E & Hi'); [lia|done|]. rewrite Hs in E. injection E as ->. eauto.
Qed.

(** *** The properties *)

(** In every interleaving of fewer than 2^64 steps at most one guard exists,
    the mutex is locked exactly when one does, and every further operation of a
    live future, a guard or a caller returns without panicking. *)
Theorem mutex_exclusive k s : reachable k s → k < u64_MAX →
  guards s ≤ 1 ∧ (is_locked (mutex s) = true ↔ guards s = 1) ∧ (∀ o, enabled s o = true → ∃ s', sys_step s o = Returns s').
Proof.
  intros Hr Hk. destruct (mutex_reachable_inv k s Hr) as (l & n & Hi); [lia|]. pose proof (inv_guards _ _ _ _ (proj1 Hi)) as Hg. unfold is_locked.
  split_and!; [destruct (locked _); lia|destruct (locked _); split; intros; [done|done|done|lia]|].
  intros o Ho. destruct (mutex_inv_step k s l n o Hi Hk Ho) as (s' & _ & _ & E & _). eauto.
Qed.

(** C13: No wake-up is lost: a sleeping future is in the queue with the waker of its
    last poll; and when the mutex is not locked while some future waits, the turn
    belongs to a future that is awake and that gets the lock when it is polled
    (the error, if the mutex was poisoned). *)
Theorem mutex_no_lost_wakeup k s : reachable k s → k < u64_MAX →
  ∃ l n, wq_rep (waiters (mstate (mutex s))) l n ∧
  (∀ fid, fid ∈ asleep s → ∃ x, x ∈ l ∧ waits s (w_id x) fid ∧ last_waker s !! fid = Some (w_waker x)) ∧
  (is_locked (mutex s) = false → (∃ id fid, waits s id fid) →
    ∃ fid f id, granted_waiter (mstate (mutex s)) = Some id ∧ futures s !! fid = Some f ∧ waiter_id f = Some id ∧ fid ∉ asleep s ∧
      ∀ waker, ∃ m ws, lock_poll (mutex s) f false None None waker =
        Returns (m, mkLockFuture None true, Ready (if poisoned (mutex s) then Err LockPoisoned else Ok ()), ws) ∧
        is_locked m = negb (poisoned (mutex s))).
Proof.
  intros Hr Hk. destruct (mutex_reachable_inv k s Hr) as (l & n & Hinv); [lia|]. pose proof Hinv as [Hi Ht]. exists l, n. split_and!; [apply Hi|..].
  - intros fid Ha. destruct (side_sleeper _ _ _ _ _ _ _ (inv_side _ _ _ _ Hi) Ha) as (x & Hx & Hw%waiting_spec & Hlw). eauto.
  - intros Hlk (id & fid & Hw%waiting_spec). unfold is_locked in Hlk. pose proof (inv_side _ _ _ _ Hi) as Hs. destruct (granted_waiter (mstate (mutex s))) as [g|] eqn:Hg.
    2: { pose proof (side_waits _ _ _ _ _ _ Hs id fid Hw) as Hin. rewrite (Ht Hlk eq_refl) in Hin. by apply not_elem_of_nil in Hin. }
    destruct (side_granted _ _ _ _ _ _ Hs g) as (j & (f & Hf & Hid)%waiting_spec & Hja); [left|]. exists j, f, g. split_and!; try done. intros waker.
    assert (Hcf : completed f = false) by (destruct (completed f) eqn:E; [|done]; pose proof (inv_completed _ _ _ _ Hi j f Hf E); congruence).
    unfold lock_poll. rewrite Hcf. destruct (poisoned (mutex s)).
    + unfold finish_with, cleanup_waiter. rewrite Hid, bool_decide_true by done. rewrite Hlk. simpl.
      pose proof (leave_granted k s l n j _ g false Hi (ex_intro _ f (conj Hf Hid)) Hg (left_delete k s l n j Hi)) as Hi'.
      destruct (handover _ _ _ _ Hi') as (st & ws & E & Hlst & _); [done|done|]. simpl in E. rewrite E. simpl. eauto.
    + rewrite Hid, Hg, !bool_decide_true by done. rewrite Hlk. simpl. eauto.
Qed.

(** Hand-over is first come, first served: dropping the guard gives the turn to
    the first future of the queue and wakes it; until that future takes the lock or
    gives up, [try_lock] is refused and polling any other future leaves it waiting,
    a new one behind all others. *)
Theorem mutex_handover_is_fifo k s : reachable k s → k < u64_MAX → poisoned (mutex s) = false →
  ∃ l n, wq_rep (waiters (mstate (mutex s))) l n ∧
  (guards s = 1 → ∃ m ws, guard_drop (mutex s) false = Returns (m, ws) ∧ granted_waiter (mstate m) = w_id <$> head l ∧
    ws = option_list (w_waker <$> head l) ∧ is_locked m = false) ∧
  (∀ id, granted_waiter (mstate (mutex s)) = Some id →
    try_lock (mutex s) = (mutex s, Err TryLocked) ∧
    ∀ fid f waker, futures s !! fid = Some f → completed f = false → waiter_id f ≠ Some id →
      ∃ m f' l' n', lock_poll (mutex s) f false None None waker = Returns (m, f', Pending, []) ∧
        granted_waiter (mstate m) = Some id ∧ is_locked m = false ∧ wq_rep (waiters (mstate m)) l' n' ∧
        w_id <$> l' = (w_id <$> l) ++ (if bool_decide (is_Some (waiter_id f)) then [] else [n])).
Proof.
  intros Hr Hk Hp. destruct (mutex_reachable_inv k s Hr) as (l & n & Hinv); [lia|]. pose proof Hinv as [Hi Ht]. exists l, n. split_and!; [apply Hi|..].
  - intros Hg. destruct (guard_drop_inv k s l n Hinv) as (m & ws & -> & ? & ? & ? & _); [lia|]. eauto 8.
  - intros id Hg. assert (Hlk : locked (mstate (mutex s)) = false) by (apply (inv_granted _ _ _ _ Hi); rewrite Hg; eauto). split.
    { unfold try_lock. rewrite Hp, Hlk, Hg. rewrite bool_decide_true by eauto. done. }
    intros fid f waker Hf Hcf Hne. destruct (register_inv k s l n fid f waker Hinv Hk Hf Hcf) as (m & f' & l' & n' & E & Hi' & Hgm & Hlm & Hl').
    { intros _. right. rewrite Hg. eauto. }
    { intros i Hi1 Hi2. congruence. }
    unfold lock_poll. rewrite Hcf, Hp, Hlk, Hg. rewrite (bool_decide_false (Some id = waiter_id f)) by congruence. rewrite andb_false_r.
    rewrite (bool_decide_true (is_Some (Some id))) by eauto. simpl. rewrite E. cbn [mbind run_bind]. exists m, f', l', n'. unfold is_locked. rewrite Hgm, Hlm.
    split_and!; [done|done|done|apply Hi'|done].
Qed.

(** A poll whose sleep fires at its end does what a pending poll and a poll after
    the deadline do. *)
Lemma sleep_is_two_polls m f cancelled elapsed d waker :
  bool_decide (granted_waiter (mstate m) = waiter_id f) && locked (mstate m) = false →
  lock_poll m f cancelled elapsed (Some d) waker =
  '(m1, f1, r1, ws1) ← lock_poll m f cancelled elapsed None waker;
  match r1 with
  | Pending => lock_poll m1 f1 false (Some d) None waker
  | Ready _ => Returns (m1, f1, r1, ws1)
  end.
Proof.
  intros Hns. unfold lock_poll. destruct (completed f) eqn:Hcf; [done|]. assert (Hfin : ∀ m f e, (finish_with m f e ≫= λ x, let '(m1, f1, r1, ws1) := x in match r1 with
    | Ready _ => Returns (m1, f1, r1, ws1) | Pending => if completed f1 then Returns (m1, f1, Ready (Err LockPolledAfterCompletion), []) else finish_with m1 f1 (LockTimedOut d) end) = finish_with m f e).
  { intros m' f' e. unfold finish_with. by destruct (cleanup_waiter m' (waiter_id f')) as [[? ?]| |]. }
  destruct cancelled; [by rewrite Hfin|]. destruct elapsed; [by rewrite Hfin|]. destruct (poisoned m); [by rewrite Hfin|].
  destruct (bool_decide (is_Some (waiter_id f)) && _) eqn:Hgr.
  { apply andb_true_iff in Hgr as [_ Hgr]. rewrite Hgr in Hns. simpl in Hns. by rewrite Hns. }
  destruct (_ && _ && _); [done|]. unfold register. destruct (waiter_id f).
  - destruct (wq_update_waker _ _ _) as [c [|]]; simpl; [by rewrite Hcf|]. destruct (wq_push_front _ _ _) as [[? ?]| |]; simpl; [by rewrite Hcf|done|done].
  - destruct (wq_push_back _ _ _) as [[? ?]| |]; simpl; [by rewrite Hcf|done|done].
Qed.

(** *** Schedules *)

Fixpoint sys_run s (os : list Op) : option System :=
  match os with
  | [] => Some s
  | o :: os => if enabled s o then match sys_step s o with Returns s => sys_run s os | _ => None end else None
  end.

Lemma mutex_run_reachable k s os s' : reachable k s → sys_run s os = Some s' → reachable (k + lenN os) s'.
Proof.
  revert k s. induction os as [|o os IH]; intros k s Hr; simpl; [intros [= <-]; unfold lenN; simpl; by rewrite N.add_0_r|].
  destruct (enabled s o) eqn:He; [|done]. destruct (sys_step s o) as [s1| |] eqn:Hs; [|done|done]. intros Hrun.
  rewrite len_cons, N.add_assoc. eapply IH; [by econstructor|done].
Qed.

End mutex.
Arguments Mutex _ : clear implicits.
Arguments System _ : clear implicits.

Notation chain := (WaiterChain (gmap N (WaiterSlot ()))).

(** Three tasks; the first holds the lock, the second gives up, the third waits. *)
Definition mutex_schedule : list Op :=
  [OLock 1; OLock 2; OLock 3; OPoll 1 false None 11; OPoll 2 false None 12; OPoll 3 false None 13; OTryLock; OPoll 2 false (Some 7) 12; OGuardDrop].
Definition mutex_at (n : nat) : System chain := default sys_new (sys_run sys_new (take n mutex_schedule)).

Lemma mutex_at_reachable n : sys_run (C := chain) sys_new (take n mutex_schedule) = Some (mutex_at n) → reachable (lenN (take n mutex_schedule)) (mutex_at n).
Proof. intros H. apply (mutex_run_reachable 0 sys_new); [constructor|done]. Qed.

Lemma mutex_exclusive_witness : guards (mutex_at 6) = 1 ∧ ∃ s', sys_step (mutex_at 6) OGuardDrop = Returns s'.
Proof.
  destruct (mutex_exclusive 6 (mutex_at 6)) as (_ & Hg & Hs); [apply (mutex_at_reachable 6); by vm_compute|done|].
  split; [apply Hg; by vm_compute|apply Hs; by vm_compute].
Defined.

Lemma mutex_no_lost_wakeup_witness : asleep (mutex_at 9) = ∅ ∧ ∃ fid f, futures (mutex_at 9) !! fid = Some f ∧
  ∃ m ws, lock_poll (mutex (mutex_at 9)) f false None None 30 = Returns (m, mkLockFuture None true, Ready (Ok ()), ws).
Proof.
  split; [by vm_compute|]. destruct (mutex_no_lost_wakeup 9 (mutex_at 9)) as (l & n & _ & _ & Hl); [apply (mutex_at_reachable 9); by vm_compute|done|].
  destruct Hl as (fid & f & id & _ & Hf & _ & _ & Hp); [by vm_compute|exists 1, 3, (mkLockFuture (Some 1) false); by vm_compute|].
  exists fid, f. split; [done|]. destruct (Hp 30) as (m & ws & E & _). exists m, ws. rewrite E. by vm_compute.
Defined.

Lemma mutex_handover_is_fifo_witness : ∃ m ws, guard_drop (mutex (mutex_at 6)) false = Returns (m, ws) ∧ granted_waiter (mstate m) = Some 0.
Proof.
  destruct (mutex_handover_is_fifo 6 (mutex_at 6)) as (l & n & Hr & Hd & _); [apply (mutex_at_reachable 6); by vm_compute|done|by vm_compute|].
  destruct Hd as (m & ws & E & Hg & _); [by vm_compute|]. exists m, ws. split; [done|]. rewrite Hg. pose proof (rep_front_id _ _ _ Hr) as Hf.
  assert (Hf' : wq_front_id (waiters (mstate (mutex (mutex_at 6)))) = Returns (Some 0)) by (by vm_compute). rewrite Hf' in Hf. by injection Hf.
Defined.
