(* ===== verification/RwLock.v ===== *)
(** * The read-write lock

    Models [src/sync/rwlock.rs]: the asynchronous read-write lock with direct
    hand-over.  A released lock is given to a queued writer, or to the queued readers
    older than the first queued writer; every sixteenth hand-over to a writer while
    readers wait is followed by a reader's turn.  Each critical section is a function
    on the state that returns the wakers to wake afterwards; the two queues are any
    [WaiterQueue] tagged with arrival numbers.  The result of [cx.checkpoint()] is an
    argument.  Counters of live guards and futures are unbounded; the protected value
    and the debug-only lock-order checks are left out.  Owned futures and guards run
    the same code as the borrowed ones.

    [System] adds the futures and guards that Rust's ownership tracks, and every
    interleaving of critical sections.  The lemmas at the end say what each way of
    handing the lock over does to the queues; [RwLockThms.v] has the theorems. *)

From S2P Require Import Prelude Slab Links WaiterChain Waits.

Inductive RwLockError := RwPoisoned | RwCancelled | RwPolledAfterCompletion.
Inductive TryRwError := TryRwLocked | TryRwPoisoned.

Record ReadFuture := mkRead { r_waiter : option N; r_completed : bool }.
Record WriteFuture := mkWrite { wr_waiter : option N; counted : bool; wr_completed : bool }.

Definition MAX_CONSECUTIVE_WRITERS_BEFORE_READER_BATCH : N := 16.

(** [reader_id.wrapping_sub(writer_id).cast_signed() < 0] *)
Definition reader_arrived_before_writer (reader_id writer_id : N) : bool :=
  2 ^ 63 <=? wrapping_sub u64_MAX reader_id writer_id.

Section rwlock.
Context {C : Type} `{!WaiterQueue C N}.

Record State := mkState {
  readers : N;
  writer_active : bool;
  writer_waiters : N;
  reader_waiters : C;
  writer_queue : C;
  next_waiter_id : N;
  consecutive_writers_served : N;
}.
Record RwLock := mkLock { rstate : State; rw_poisoned : bool }.

Implicit Types (st : State) (k : RwLock).

Definition state_default : State := mkState 0 false 0 wq_new wq_new 0 0.
Definition rwlock_new : RwLock := mkLock state_default false.

Definition set_readers st n : State :=
  mkState n (writer_active st) (writer_waiters st) (reader_waiters st) (writer_queue st) (next_waiter_id st) (consecutive_writers_served st).
Definition set_active st b : State :=
  mkState (readers st) b (writer_waiters st) (reader_waiters st) (writer_queue st) (next_waiter_id st) (consecutive_writers_served st).
Definition set_writer_waiters st n : State :=
  mkState (readers st) (writer_active st) n (reader_waiters st) (writer_queue st) (next_waiter_id st) (consecutive_writers_served st).
Definition set_reader_queue st c : State :=
  mkState (readers st) (writer_active st) (writer_waiters st) c (writer_queue st) (next_waiter_id st) (consecutive_writers_served st).
Definition set_writer_queue st c : State :=
  mkState (readers st) (writer_active st) (writer_waiters st) (reader_waiters st) c (next_waiter_id st) (consecutive_writers_served st).
Definition set_next_id st n : State :=
  mkState (readers st) (writer_active st) (writer_waiters st) (reader_waiters st) (writer_queue st) n (consecutive_writers_served st).
Definition set_served st n : State :=
  mkState (readers st) (writer_active st) (writer_waiters st) (reader_waiters st) (writer_queue st) (next_waiter_id st) n.

Definition try_acquire_read_state k : RwLock * result () TryRwError :=
  let st := rstate k in
  if rw_poisoned k then (k, Err TryRwPoisoned)
  else if writer_active st || (0 <? writer_waiters st) then (k, Err TryRwLocked)
  else (mkLock (set_readers st (readers st + 1)) (rw_poisoned k), Ok ()).

Definition try_acquire_write_state k : RwLock * result () TryRwError :=
  let st := rstate k in
  if rw_poisoned k then (k, Err TryRwPoisoned)
  else if writer_active st || (0 <? readers st) || (0 <? writer_waiters st) then (k, Err TryRwLocked)
  else (mkLock (set_active st true) (rw_poisoned k), Ok ()).

Definition pop_writer_waiter st : run (State * option Waker) :=
  '(c, x) ← wq_pop_front (writer_queue st); Returns (set_writer_queue st c, option_map w_waker x).

Definition drain_reader_waiters st : run (State * list Waker) :=
  '(c, ws) ← wq_drain (reader_waiters st); Returns (set_reader_queue st c, ws).

Definition queued_waiter_wakers st : run (list Waker) :=
  rs ← wq_clone_wakers (reader_waiters st); ws ← wq_clone_wakers (writer_queue st); Returns (rs ++ ws).

Fixpoint eligible_loop (fuel : nat) (first_writer_id : N) st (wakers : list Waker) : run (State * list Waker) :=
  match fuel with
  | O => OutOfFuel
  | S fuel =>
      front ← wq_front_tag (reader_waiters st);
      if match front with Some reader_id => reader_arrived_before_writer reader_id first_writer_id | None => false end then
        '(c, x) ← wq_pop_front (reader_waiters st);
        eligible_loop fuel first_writer_id (set_reader_queue st c) (match x with Some x => wakers ++ [w_waker x] | None => wakers end)
      else Returns (st, wakers)
  end.

Definition take_eligible_reader_waiters st : run (State * list Waker) :=
  first ← wq_front_tag (writer_queue st);
  match first with
  | None => drain_reader_waiters st
  | Some first_writer_id => eligible_loop (S (N.to_nat (wq_len (reader_waiters st)))) first_writer_id st []
  end.

Definition take_forced_reader_turn st : run (State * list Waker) :=
  '(c, x) ← wq_pop_front (reader_waiters st);
  Returns (set_reader_queue st c, match x with Some x => [w_waker x] | None => [] end).

Definition should_wake_writer st : run bool :=
  if wq_is_empty (writer_queue st) then Returns false
  else if wq_is_empty (reader_waiters st) then Returns true
  else
    writer ← wq_front_tag (writer_queue st);
    reader ← wq_front_tag (reader_waiters st);
    Returns (match writer, reader with
             | Some writer_id, Some reader_id => negb (reader_arrived_before_writer reader_id writer_id)
             | _, _ => false
             end).

(** Popping the first writer, making it active and counting the streak. *)
Definition serve_writer st : run (State * list Waker) :=
  '(st, waker) ← pop_writer_waiter st;
  match waker with
  | Some w =>
      let st := set_active st true in
      Returns (set_served st (if negb (wq_is_empty (reader_waiters st)) then saturating_add usize_MAX (consecutive_writers_served st) 1 else 0), [w])
  | None => Returns (st, [])
  end.

(** A reader is gone; the last one hands the lock to a waiting writer. *)
Definition reader_gone st : run (State * list Waker) :=
  let st := set_readers st (saturating_sub (readers st) 1) in
  if (readers st =? 0) && (0 <? writer_waiters st) then serve_writer st else Returns (st, []).

Definition release_reader k : run (RwLock * list Waker) :=
  '(st, ws) ← reader_gone (rstate k); Returns (mkLock st (rw_poisoned k), ws).

(** Handing a lock that no writer holds to the next waiters. *)
Definition pass_on st : run (State * list Waker) :=
  let force_reader_batch := (MAX_CONSECUTIVE_WRITERS_BEFORE_READER_BATCH <=? consecutive_writers_served st) && negb (wq_is_empty (reader_waiters st)) in
  should ← should_wake_writer st;
  if negb force_reader_batch && should then serve_writer st
  else if force_reader_batch then
    '(st, wakers) ← take_forced_reader_turn st;
    Returns (set_served (set_readers st (readers st + lenN wakers)) 0, wakers)
  else
    '(st, wakers) ← take_eligible_reader_waiters st;
    let st := set_readers st (readers st + lenN wakers) in
    Returns (if bool_decide (wakers = []) then st else set_served st 0, wakers).

Definition release_writer k : run (RwLock * list Waker) :=
  let st := set_active (rstate k) false in
  if rw_poisoned k then wakers ← queued_waiter_wakers st; Returns (mkLock st (rw_poisoned k), wakers)
  else '(st, ws) ← pass_on st; Returns (mkLock st (rw_poisoned k), ws).

Definition abandon_read_waiter k (waiter : option N) : run (RwLock * list Waker) :=
  match waiter with
  | None => Returns (k, [])
  | Some id =>
      let st := rstate k in
      '(c, removed) ← wq_remove (reader_waiters st) id;
      let st := set_reader_queue st c in
      match removed with
      | Some _ => Returns (mkLock st (rw_poisoned k), [])
      | None => '(st, ws) ← reader_gone st; Returns (mkLock st (rw_poisoned k), ws)
      end
  end.

(** The last waiting writer is gone: the queued readers go ahead. *)
Definition admit_readers st (poisoned : bool) : run (State * list Waker) :=
  if (writer_waiters st =? 0) && negb (writer_active st) then
    if poisoned then Returns (st, [])
    else '(st, wakers) ← drain_reader_waiters st; Returns (set_readers st (readers st + lenN wakers), wakers)
  else Returns (st, []).

(** [poisoned] is read before the state is locked. *)
Definition abandon_write_waiter k (waiter : option N) (counted poisoned : bool) : run (RwLock * list Waker) :=
  if negb counted then Returns (k, [])
  else
    let st := rstate k in
    '(st, ws) ← match waiter with
      | Some id =>
          '(c, removed) ← wq_remove (writer_queue st) id;
          let st := set_writer_queue st c in
          match removed with
          | Some _ => admit_readers (set_writer_waiters st (saturating_sub (writer_waiters st) 1)) poisoned
          | None =>
              let st := set_active (set_writer_waiters st (saturating_sub (writer_waiters st) 1)) false in
              if poisoned then wakers ← queued_waiter_wakers st; Returns (st, wakers) else pass_on st
          end
      | None => admit_readers (set_writer_waiters st (saturating_sub (writer_waiters st) 1)) poisoned
      end;
    Returns (mkLock st (rw_poisoned k), ws).

Definition read_poll k (f : ReadFuture) (cancelled : bool) (waker : Waker) :
    run (RwLock * ReadFuture * poll (result () RwLockError) * list Waker) :=
  if r_completed f then Returns (k, f, Ready (Err RwPolledAfterCompletion), [])
  else if cancelled then '(k, ws) ← abandon_read_waiter k (r_waiter f); Returns (k, mkRead None true, Ready (Err RwCancelled), ws)
  else if rw_poisoned k then '(k, ws) ← abandon_read_waiter k (r_waiter f); Returns (k, mkRead None true, Ready (Err RwPoisoned), ws)
  else
    let st := rstate k in
    match r_waiter f with
    | Some id =>
        let '(c, found) := wq_update_waker (reader_waiters st) id waker in
        let k := mkLock (set_reader_queue st c) (rw_poisoned k) in
        if found then Returns (k, f, Pending, []) else Returns (k, mkRead None true, Ready (Ok ()), [])
    | None =>
        if negb (writer_active st) && (writer_waiters st =? 0) then
          Returns (mkLock (set_readers st (readers st + 1)) (rw_poisoned k), mkRead None true, Ready (Ok ()), [])
        else
          let st' := set_next_id st (wrapping_add u64_MAX (next_waiter_id st) 1) in
          '(c, id) ← wq_push_back (reader_waiters st') waker (next_waiter_id st);
          Returns (mkLock (set_reader_queue st' c) (rw_poisoned k), mkRead (Some id) false, Pending, [])
    end.

(** [observed]: the poison flag as read before giving up on cancellation. *)
Definition write_poll k (f : WriteFuture) (cancelled observed : bool) (waker : Waker) :
    run (RwLock * WriteFuture * poll (result () RwLockError) * list Waker) :=
  if wr_completed f then Returns (k, f, Ready (Err RwPolledAfterCompletion), [])
  else if cancelled then
    '(k, ws) ← abandon_write_waiter k (wr_waiter f) (counted f) observed;
    Returns (k, mkWrite (if counted f then None else wr_waiter f) false true, Ready (Err RwCancelled), ws)
  else if rw_poisoned k then
    '(k, ws) ← abandon_write_waiter k (wr_waiter f) (counted f) (rw_poisoned k);
    Returns (k, mkWrite (if counted f then None else wr_waiter f) false true, Ready (Err RwPoisoned), ws)
  else
    let st := rstate k in
    match wr_waiter f with
    | Some id =>
        let '(c, found) := wq_update_waker (writer_queue st) id waker in
        let st := set_writer_queue st c in
        if found then Returns (mkLock st (rw_poisoned k), f, Pending, [])
        else
          let st := if counted f then set_writer_waiters st (saturating_sub (writer_waiters st) 1) else st in
          Returns (mkLock st (rw_poisoned k), mkWrite None false true, Ready (Ok ()), [])
    | None =>
        if negb (writer_active st) && (readers st =? 0) && wq_is_empty (writer_queue st) then
          Returns (mkLock (set_active st true) (rw_poisoned k), mkWrite None (counted f) true, Ready (Ok ()), [])
        else
          let st := if counted f then st else set_writer_waiters st (writer_waiters st + 1) in
          let st' := set_next_id st (wrapping_add u64_MAX (next_waiter_id st) 1) in
          '(c, id) ← wq_push_back (writer_queue st') waker (next_waiter_id st);
          Returns (mkLock (set_writer_queue st' c) (rw_poisoned k), mkWrite (Some id) true false, Pending, [])
    end.

(** [RwLockWriteGuard::downgrade] *)
Definition downgrade k : run (RwLock * list Waker) :=
  let st := set_readers (set_active (rstate k) false) 1 in
  '(st, wakers) ← take_eligible_reader_waiters st;
  let st := set_readers st (readers st + lenN wakers) in
  Returns (mkLock (if bool_decide (wakers = []) then st else set_served st 0) (rw_poisoned k), wakers).

(** *** Futures, guards and interleavings *)

Record System := mkSystem {
  lock : RwLock;
  reads : gmap N ReadFuture; read_wakers : gmap N Waker; readers_asleep : gset N; read_guards : N;
  writes : gmap N WriteFuture; write_wakers : gmap N Waker; writers_asleep : gset N; write_guards : N;
}.

Definition sys_new : System := mkSystem rwlock_new ∅ ∅ ∅ 0 ∅ ∅ ∅ 0.

(** After a critical section: the lock and the sleepers its wakers leave. *)
Definition after s k (ws : list Waker) : System :=
  mkSystem k (reads s) (read_wakers s) (roused (read_wakers s) (readers_asleep s) ws) (read_guards s)
    (writes s) (write_wakers s) (roused (write_wakers s) (writers_asleep s) ws) (write_guards s).
Definition set_guards s (r w : N) : System :=
  mkSystem (lock s) (reads s) (read_wakers s) (readers_asleep s) r (writes s) (write_wakers s) (writers_asleep s) w.
Definition set_reads s rs wk a : System :=
  mkSystem (lock s) rs wk a (read_guards s) (writes s) (write_wakers s) (writers_asleep s) (write_guards s).
Definition set_writes s rs wk a : System :=
  mkSystem (lock s) (reads s) (read_wakers s) (readers_asleep s) (read_guards s) rs wk a (write_guards s).

Inductive Op :=
  | ORead (fid : N) | OWrite (fid : N)
  | OPollRead (fid : N) (cancelled : bool) (waker : Waker) | OPollWrite (fid : N) (cancelled observed : bool) (waker : Waker)
  | ODropRead (fid : N) | ODropWrite (fid : N) (observed : bool)
  | OTryRead | OTryWrite | ODropReadGuard | ODropWriteGuard | ODowngrade | OPoison.

(** A write future that gives up has read the poison flag at an earlier moment; a
    guard poisons the lock only while it is dropped, so a poisoned lock's guard is
    not downgraded. *)
Definition enabled s (o : Op) : bool :=
  match o with
  | ORead fid => bool_decide (reads s !! fid = None)
  | OWrite fid => bool_decide (writes s !! fid = None)
  | OPollRead fid _ _ | ODropRead fid => bool_decide (is_Some (reads s !! fid))
  | OPollWrite fid _ p _ | ODropWrite fid p => bool_decide (is_Some (writes s !! fid)) && implb p (rw_poisoned (lock s))
  | OTryRead | OTryWrite => true
  | ODropReadGuard => 0 <? read_guards s
  | ODropWriteGuard | OPoison => 0 <? write_guards s
  | ODowngrade => (0 <? write_guards s) && negb (rw_poisoned (lock s))
  end.

Definition read_polled s (fid : N) (waker : Waker) k f (r : poll (result () RwLockError)) (ws : list Waker) : System :=
  let s := after s k ws in
  let awake := readers_asleep s ∖ {[fid]} in
  match r with
  | Pending => set_reads s (<[fid := f]> (reads s)) (<[fid := waker]> (read_wakers s)) ({[fid]} ∪ awake)
  | Ready (Ok _) => set_guards (set_reads s (<[fid := f]> (reads s)) (read_wakers s) awake) (read_guards s + 1) (write_guards s)
  | Ready (Err _) => set_reads s (<[fid := f]> (reads s)) (read_wakers s) awake
  end.
Definition write_polled s (fid : N) (waker : Waker) k f (r : poll (result () RwLockError)) (ws : list Waker) : System :=
  let s := after s k ws in
  let awake := writers_asleep s ∖ {[fid]} in
  match r with
  | Pending => set_writes s (<[fid := f]> (writes s)) (<[fid := waker]> (write_wakers s)) ({[fid]} ∪ awake)
  | Ready (Ok _) => set_guards (set_writes s (<[fid := f]> (writes s)) (write_wakers s) awake) (read_guards s) (write_guards s + 1)
  | Ready (Err _) => set_writes s (<[fid := f]> (writes s)) (write_wakers s) awake
  end.

Definition sys_step s (o : Op) : run System :=
  match o with
  | ORead fid => Returns (set_reads s (<[fid := mkRead None false]> (reads s)) (read_wakers s) (readers_asleep s))
  | OWrite fid => Returns (set_writes s (<[fid := mkWrite None false false]> (writes s)) (write_wakers s) (writers_asleep s))
  | OPollRead fid cancelled waker =>
      match reads s !! fid with
      | None => Panicked
      | Some f => '(k, f, r, ws) ← read_poll (lock s) f cancelled waker; Returns (read_polled s fid waker k f r ws)
      end
  | OPollWrite fid cancelled observed waker =>
      match writes s !! fid with
      | None => Panicked
      | Some f => '(k, f, r, ws) ← write_poll (lock s) f cancelled observed waker; Returns (write_polled s fid waker k f r ws)
      end
  | ODropRead fid =>
      match reads s !! fid with
      | None => Panicked
      | Some f =>
          '(k, ws) ← abandon_read_waiter (lock s) (r_waiter f);
          let s := after s k ws in Returns (set_reads s (delete fid (reads s)) (read_wakers s) (readers_asleep s ∖ {[fid]}))
      end
  | ODropWrite fid observed =>
      match writes s !! fid with
      | None => Panicked
      | Some f =>
          '(k, ws) ← abandon_write_waiter (lock s) (wr_waiter f) (counted f) observed;
          let s := after s k ws in Returns (set_writes s (delete fid (writes s)) (write_wakers s) (writers_asleep s ∖ {[fid]}))
      end
  | OTryRead =>
      let '(k, r) := try_acquire_read_state (lock s) in
      Returns (set_guards (after s k []) (match r with Ok _ => read_guards s + 1 | Err _ => read_guards s end) (write_guards s))
  | OTryWrite =>
      let '(k, r) := try_acquire_write_state (lock s) in
      Returns (set_guards (after s k []) (read_guards s) (match r with Ok _ => write_guards s + 1 | Err _ => write_guards s end))
  | ODropReadGuard => '(k, ws) ← release_reader (lock s); Returns (set_guards (after s k ws) (read_guards s - 1) (write_guards s))
  | ODropWriteGuard => '(k, ws) ← release_writer (lock s); Returns (set_guards (after s k ws) (read_guards s) (write_guards s - 1))
  | ODowngrade => '(k, ws) ← downgrade (lock s); Returns (set_guards (after s k ws) (read_guards s + 1) (write_guards s - 1))
  | OPoison => Returns (after s (mkLock (rstate (lock s)) true) [])
  end.

Inductive reachable : N → System → Prop :=
  | reach_new : reachable 0 sys_new
  | reach_step n s o s' : reachable n s → enabled s o = true → sys_step s o = Returns s' → reachable (n + 1) s'.

(** ** Hand-over *)

Context `{!WaiterQueueLaws C N}.
Implicit Types (lr lw : list (Waiting N)).

Definition st_rep st lr (nr : N) lw (nw : N) : Prop := wq_rep (reader_waiters st) lr nr ∧ wq_rep (writer_queue st) lw nw.

(** The readers [l1] and the writers [m1] left the front of their queues with the
    lock in hand, and are woken. *)
Record moved st st' lr nr lw nw l1 l2 m1 m2 (ws : list Waker) : Prop := {
  mv_lr : lr = l1 ++ l2;
  mv_lw : lw = m1 ++ m2;
  mv_rep : st_rep st' l2 nr m2 nw;
  mv_readers : readers st' = readers st + lenN l1;
  mv_active : writer_active st' = writer_active st || negb (bool_decide (m1 = []));
  mv_waiters : writer_waiters st' = writer_waiters st;
  mv_wakers : ws = (w_waker <$> m1) ++ (w_waker <$> l1);
}.

Lemma serve_writer_spec st lr nr lw nw : st_rep st lr nr lw nw →
  ∃ st' ws, serve_writer st = Returns (st', ws) ∧ moved st st' lr nr lw nw [] lr (take 1 lw) (drop 1 lw) ws.
Proof.
  intros [Hr Hw]. unfold serve_writer, pop_writer_waiter. destruct (rep_pop_front _ _ _ Hw) as (c & -> & Hw'). cbn [mbind run_bind].
  destruct lw as [|x lw]; simpl in *; eexists _, _; (split; [done|]); split; simpl; try done; try (unfold lenN; simpl; lia); by rewrite ?orb_false_r, ?orb_true_r.
Qed.

Lemma drain_readers_spec st lr nr lw nw : st_rep st lr nr lw nw →
  ∃ c, drain_reader_waiters st = Returns (set_reader_queue st c, w_waker <$> lr) ∧ wq_rep c [] nr.
Proof. intros [Hr Hw]. unfold drain_reader_waiters. destruct (rep_drain _ _ _ Hr) as (c & -> & Hr'). eauto. Qed.

Lemma eligible_loop_spec first l c ws st fuel n : wq_rep c l n → (length l < fuel)%nat →
  ∃ c' l1 l2, l = l1 ++ l2 ∧ eligible_loop fuel first (set_reader_queue st c) ws = Returns (set_reader_queue st c', ws ++ (w_waker <$> l1)) ∧ wq_rep c' l2 n ∧
    (∀ x, head l = Some x → reader_arrived_before_writer (w_tag x) first = true → l1 ≠ []).
Proof.
  revert l c ws. induction fuel as [|fuel IH]; intros l c ws Hr Hf; [lia|]. cbn [eligible_loop]. change (reader_waiters (set_reader_queue st c)) with c.
  rewrite (rep_front_tag _ _ _ Hr). cbn [mbind run_bind]. destruct l as [|x l]; simpl.
  { exists c, [], []. simpl. rewrite app_nil_r. done. }
  destruct (reader_arrived_before_writer (w_tag x) first) eqn:Ha.
  - destruct (rep_pop_front _ _ _ Hr) as (c' & -> & Hr'). cbn [mbind run_bind head tail] in *. simpl in Hf. destruct (IH l c' (ws ++ [w_waker x]) Hr') as (c2 & l1 & l2 & -> & E & Hr2 & _); [lia|].
    exists c2, (x :: l1), l2. split_and!; [done| |done|done]. change (set_reader_queue (set_reader_queue st c) c') with (set_reader_queue st c'). rewrite E, <-app_assoc. done.
  - exists c, [], (x :: l). simpl. rewrite app_nil_r. split_and!; [done|done|done|]. intros y [= <-]. congruence.
Qed.

Lemma take_eligible_spec st lr nr lw nw : st_rep st lr nr lw nw →
  ∃ c l1 l2, lr = l1 ++ l2 ∧ take_eligible_reader_waiters st = Returns (set_reader_queue st c, w_waker <$> l1) ∧ wq_rep c l2 nr ∧
    (lw = [] → l2 = []) ∧
    (∀ x y, head lr = Some x → head lw = Some y → reader_arrived_before_writer (w_tag x) (w_tag y) = true → l1 ≠ []).
Proof.
  intros Hst. pose proof Hst as [Hr Hw]. unfold take_eligible_reader_waiters. rewrite (rep_front_tag _ _ _ Hw). destruct lw as [|y lw]; cbn [mbind run_bind head fmap option_fmap option_map].
  - destruct (drain_readers_spec _ _ _ _ _ Hst) as (c & -> & Hr'). exists c, lr, []. rewrite app_nil_r. split_and!; done.
  - rewrite (rep_len _ _ _ Hr). destruct (eligible_loop_spec (w_tag y) lr (reader_waiters st) [] st (S (N.to_nat (lenN lr))) nr Hr) as (c & l1 & l2 & -> & E & Hr' & Hel); [unfold lenN; lia|].
    replace (set_reader_queue st (reader_waiters st)) with st in E by (by destruct st). exists c, l1, l2. rewrite E. split_and!; [done|done|done|done|]. intros x z Hx [= <-]. by apply Hel.
Qed.

(** No reader is left behind by a forced turn: none is due, or a writer is queued to
    pass the lock on, or one reader waits at most. *)
Definition turn_ok st lr lw : Prop :=
  consecutive_writers_served st < MAX_CONSECUTIVE_WRITERS_BEFORE_READER_BATCH ∨ lw ≠ [] ∨ (length lr ≤ 1)%nat.

Lemma pass_on_spec st lr nr lw nw : st_rep st lr nr lw nw →
  ∃ st' ws l1 l2 m1 m2, pass_on st = Returns (st', ws) ∧ moved st st' lr nr lw nw l1 l2 m1 m2 ws ∧
    (length m1 ≤ 1)%nat ∧ (m1 = [] ∨ l1 = []) ∧ (m1 = [] → l1 = [] → lr = [] ∧ lw = []) ∧
    (turn_ok st lr lw → l2 ≠ [] → m1 ≠ [] ∨ m2 ≠ []).
Proof.
  intros Hst. pose proof Hst as [Hr Hw]. unfold pass_on.
  set (forced := (_ <=? _) && _). assert (Hforced : forced = (MAX_CONSECUTIVE_WRITERS_BEFORE_READER_BATCH <=? consecutive_writers_served st) && negb (bool_decide (lr = []))).
  { unfold forced. by rewrite (rep_is_empty _ _ _ Hr). }
  assert (Hshould : should_wake_writer st = Returns (match lw, lr with [], _ => false | _, [] => true | y :: _, x :: _ => negb (reader_arrived_before_writer (w_tag x) (w_tag y)) end)).
  { unfold should_wake_writer. rewrite (rep_is_empty _ _ _ Hr), (rep_is_empty _ _ _ Hw), (rep_front_tag _ _ _ Hr), (rep_front_tag _ _ _ Hw). by destruct lw, lr. }
  rewrite Hshould. cbn [mbind run_bind]. set (should := match lw with [] => _ | _ => _ end). destruct (negb forced && should) eqn:Hwriter.
  - apply andb_true_iff in Hwriter as [_ Hs]. destruct (serve_writer_spec _ _ _ _ _ Hst) as (st' & ws & -> & Hm). eexists _, _, [], lr, _, _. split; [done|]. split; [exact Hm|].
    destruct lw as [|y lw]; [done|]. simpl. split_and!; [lia|by right|done|by left].
  - destruct forced eqn:Hf.
    + symmetry in Hforced. apply andb_true_iff in Hforced as [Hc%N.leb_le Hne%negb_true_iff%bool_decide_eq_false]. unfold take_forced_reader_turn. destruct (rep_pop_front _ _ _ Hr) as (c & -> & Hr'). cbn [mbind run_bind].
      destruct lr as [|x lr]; [done|]. simpl in *. eexists _, _, [x], lr, [], lw. split; [done|]. split; [split; simpl; try done; by rewrite orb_false_r|].
      split_and!; [simpl; lia|by left|done|]. intros [Ht|[Ht|Ht]] Hl2; [lia|by right|]. simpl in Ht. destruct lr; [done|simpl in Ht; lia].
    + destruct (take_eligible_spec _ _ _ _ _ Hst) as (c & l1 & l2 & -> & E & Hr' & Hall & Hel). rewrite E. cbn [mbind run_bind]. eexists _, _, l1, l2, [], lw. split; [done|].
      assert (Hmv : ∀ st', readers st' = readers st + lenN l1 → writer_active st' = writer_active st → writer_waiters st' = writer_waiters st →
        reader_waiters st' = c → writer_queue st' = writer_queue st → moved st st' (l1 ++ l2) nr lw nw l1 l2 [] lw (w_waker <$> l1)).
      { intros st' H1 H2 H3 H4 H5. split; try done; [split; by rewrite ?H4, ?H5|]. by rewrite H2, orb_false_r. }
      split. { assert (Hlen : lenN (w_waker <$> l1) = lenN l1) by (unfold lenN; by rewrite length_fmap). rewrite Hlen. destruct (bool_decide (w_waker <$> l1 = [])); by apply Hmv. }
      split_and!; [simpl; lia|by left| |].
      * intros _ ->. simpl in *. destruct lw as [|y lw]; [split; [by rewrite Hall|done]|]. destruct l2 as [|x l2]; [done|]. exfalso. simpl in *.
        unfold should in Hwriter. simpl in Hwriter. apply negb_false_iff in Hwriter. by apply (Hel x y).
      * intros _ Hl2. right. intros ->. by apply Hl2, Hall.
Qed.

Lemma admit_readers_spec st p lr nr lw nw : st_rep st lr nr lw nw →
  ∃ st' ws l1 l2, admit_readers st p = Returns (st', ws) ∧ moved st st' lr nr lw nw l1 l2 [] lw ws ∧
    (l1 ≠ [] → writer_active st = false) ∧ (p = false → writer_waiters st = 0 → writer_active st = false → l2 = []).
Proof.
  intros Hst. pose proof Hst as [Hr Hw]. unfold admit_readers.
  assert (Hstay : moved st st lr nr lw nw [] lr [] lw []) by (split; simpl; try done; [unfold lenN; simpl; lia|by rewrite orb_false_r]).
  destruct ((writer_waiters st =? 0) && negb (writer_active st)) eqn:Hc.
  - N_bools. destruct p; [by eexists _, _, [], lr|]. destruct (drain_readers_spec _ _ _ _ _ Hst) as (c & -> & Hr'). cbn [mbind run_bind]. eexists _, _, lr, []. split; [done|]. split_and!; [|done|done].
    split; simpl; try done; [by rewrite app_nil_r|unfold lenN; by rewrite length_fmap|by rewrite orb_false_r].
  - eexists _, _, [], lr. split_and!; [done|done|done|]. intros _ H1 H2. by rewrite H1, H2 in Hc.
Qed.

End rwlock.
Arguments State _ : clear implicits.
Arguments RwLock _ : clear implicits.
Arguments System _ : clear implicits.
