(* ===== verification/RwLockThms.v ===== *)
(** * The read-write lock: invariant and theorems

    For the model of [RwLock.v]: what holds in every interleaving (guards, grants and
    waiters agree with the counters of the state, a write guard excludes all others, a
    queued writer always waits for a holder that will wake it), and what holds unless a
    forced reader's turn finds no writer queued: no reader is forgotten.  The last part
    shows such a turn, and the reader it leaves asleep for good. *)

From S2P Require Import Prelude Slab Links WaiterChain Waits RwLock.

Section rwlock.
Context {C : Type} `{!WaiterQueue C N} `{!WaiterQueueLaws C N}.
Implicit Types (st : State C) (lr lw : list (Waiting N)).

(** ** The invariant *)

Implicit Types s : System C.

Definition r_waiting s : gmap N (option N) := r_waiter <$> reads s.
Definition w_waiting s : gmap N (option N) := wr_waiter <$> writes s.
Notation st_of s := (rstate (lock s)).

Record inv0 (t : N) s lr nr gr lw nw gw : Prop := {
  i_rep : st_rep (st_of s) lr nr lw nw;
  i_bound : nr ≤ t ∧ nw ≤ t;
  i_reads : side (r_waiting s) (read_wakers s) (readers_asleep s) lr nr gr;
  i_writes : side (w_waiting s) (write_wakers s) (writers_asleep s) lw nw gw;
  i_readers : readers (st_of s) = read_guards s + lenN gr;
  i_active : (if writer_active (st_of s) then 1 else 0) = write_guards s + lenN gw;
  i_waiters : writer_waiters (st_of s) = lenN gw + lenN lw;
  i_exclusive : writer_active (st_of s) = true → readers (st_of s) = 0;
  i_counted fid f : writes s !! fid = Some f → counted f = bool_decide (is_Some (wr_waiter f));
  i_rdone fid f : reads s !! fid = Some f → r_completed f = true → r_waiter f = None;
  i_wdone fid f : writes s !! fid = Some f → wr_completed f = true → wr_waiter f = None;
}.

(** Unless the lock is poisoned, a queued writer waits for a holder; once the
    poisoning writer is gone nobody sleeps. *)
Definition writers_ok s lw : Prop := rw_poisoned (lock s) = false → lw ≠ [] → writer_active (st_of s) = true ∨ 0 < readers (st_of s).
Definition poison_ok s : Prop := rw_poisoned (lock s) = true → write_guards s = 1 ∨ (readers_asleep s = ∅ ∧ writers_asleep s = ∅).
Definition readers_ok s lr lw : Prop := rw_poisoned (lock s) = false → lr ≠ [] → writer_active (st_of s) = true ∨ lw ≠ [].

(** What is handed over keeps the invariant. *)
Lemma moved_inv0 t s lr nr gr lw nw gw st' l1 l2 m1 m2 ws :
  inv0 t s lr nr gr lw nw gw → moved (st_of s) st' lr nr lw nw l1 l2 m1 m2 ws →
  (m1 ≠ [] → writer_active (st_of s) = false ∧ readers (st_of s) = 0 ∧ l1 = [] ∧ (length m1 ≤ 1)%nat) → (l1 ≠ [] → writer_active (st_of s) = false) →
  inv0 t (after s (mkLock st' (rw_poisoned (lock s))) ws) l2 nr (gr ++ (w_id <$> l1)) m2 nw (gw ++ (w_id <$> m1)).
Proof.
  intros [Hrep Hb Hr Hw Hrd Hac Hww Hex Hcn Hd1 Hd2] [-> -> Hrep' Hrd' Hac' Hww' ->] Hm1 Hl1. split; simpl; try done.
  - apply side_grant; [exact Hr|]. intros x Hx. apply elem_of_app. right. by apply list_elem_of_fmap_2.
  - apply side_grant; [exact Hw|]. intros x Hx. apply elem_of_app. left. by apply list_elem_of_fmap_2.
  - rewrite Hrd', Hrd, len_app. unfold lenN. rewrite !length_fmap. lia.
  - rewrite Hac', len_app. destruct m1 as [|x m1]; simpl; [rewrite orb_false_r; unfold lenN; simpl; unfold lenN in Hac; lia|].
    destruct Hm1 as (Ha & _ & _ & Hlen); [done|]. rewrite Ha in *. simpl in *. destruct m1; [|simpl in Hlen; lia]. unfold lenN in *. simpl. lia.
  - rewrite Hww', Hww. rewrite !len_app. unfold lenN. rewrite length_fmap. lia.
  - rewrite Hac', Hrd'. destruct m1 as [|x m1]; simpl; [rewrite orb_false_r|].
    + intros Ha. destruct l1 as [|y l1]; [unfold lenN; simpl; rewrite Hex by done; done|]. rewrite Hl1 in Ha by done. done.
    + intros _. destruct Hm1 as (_ & -> & -> & _); done.
Qed.

(** The outcome of a step: the invariant holds again, and no reader is forgotten if
    none was and a forced turn finds a writer to pass the lock on. *)
Definition good t s lr lw (s' : System C) : Prop :=
  ∃ lr' nr' gr' lw' nw' gw', inv0 t s' lr' nr' gr' lw' nw' gw' ∧ writers_ok s' lw' ∧ poison_ok s' ∧
    (turn_ok (st_of s) lr lw → readers_ok s lr lw → readers_ok s' lr' lw').

Lemma poison_keep s s' : poison_ok s → rw_poisoned (lock s') = rw_poisoned (lock s) → write_guards s' = write_guards s →
  readers_asleep s' ⊆ readers_asleep s → writers_asleep s' ⊆ writers_asleep s → poison_ok s'.
Proof. unfold poison_ok. intros Hp -> -> Hr Hw H. destruct (Hp H) as [?|[H1 H2]]; [by left|]. right. set_solver. Qed.

Lemma roused_subset lastw asleep ws : roused lastw asleep ws ⊆ asleep.
Proof. intros x. apply roused_sub. Qed.

(** The last reader left, or one of several: [s1] is the system without it. *)
Lemma reader_gone_good t s s1 st lr nr gr lw nw gw lr0 : 
  readers st = readers (st_of s1) + 1 → st_of s1 = set_readers st (readers st - 1) → writer_active st = false →
  inv0 t s1 lr nr gr lw nw gw → poison_ok s → rw_poisoned (lock s1) = rw_poisoned (lock s) → write_guards s1 = write_guards s →
  readers_asleep s1 ⊆ readers_asleep s → writers_asleep s1 ⊆ writers_asleep s →
  writer_active (st_of s) = false → (lr ≠ [] → lr0 ≠ []) →
  ∃ st' ws, reader_gone st = Returns (st', ws) ∧ good t s lr0 lw (after s1 (mkLock st' (rw_poisoned (lock s1))) ws).
Proof.
  intros Hn Hst Ha Hi Hp Hpe Hwg Hra Hwa Has Hsub. unfold reader_gone, saturating_sub. rewrite <-Hst. pose proof (i_active _ _ _ _ _ _ _ _ Hi) as Hac. pose proof (i_waiters _ _ _ _ _ _ _ _ Hi) as Hww.
  assert (Ha1 : writer_active (st_of s1) = false) by (by rewrite Hst). rewrite Ha1 in Hac. assert (gw = []) as -> by (apply len_0; lia).
  assert (Hpk : ∀ st' ws, poison_ok (after s1 (mkLock st' (rw_poisoned (lock s1))) ws)).
  { intros st' ws. apply (poison_keep s); simpl; [done|done|done|etrans; [apply roused_subset|done]|etrans; [apply roused_subset|done]]. }
  destruct ((readers (st_of s1) =? 0) && (0 <? writer_waiters (st_of s1))) eqn:Hc.
  - N_bools. destruct (serve_writer_spec _ _ _ _ _ (i_rep _ _ _ _ _ _ _ _ Hi)) as (st' & ws & -> & Hm). exists st', ws. split; [done|].
    assert (Hlw : lw ≠ []) by (intros ->; rewrite Hww in H0; unfold lenN in H0; simpl in H0; lia).
    pose proof (moved_inv0 _ _ _ _ _ _ _ _ _ _ _ _ _ _ Hi Hm) as Hi'. assert (Hact : writer_active st' = true) by (rewrite (mv_active _ _ _ _ _ _ _ _ _ _ _ Hm); destruct lw; [done|simpl; apply orb_true_r]).
    eexists _, _, _, _, _, _. split; [apply Hi'; [|done]|]. { intros _. split_and!; [done|done|done|]. destruct lw; simpl; lia. }
    split_and!; [|apply Hpk|]; (intros _ _; simpl; by left) || (intros _ _ _ _; simpl; by left).
  - eexists _, _. split; [done|]. eexists lr, nr, gr, lw, nw, []. split; [|split_and!; [|apply Hpk|]].
    + destruct Hi as [Hrep Hb Hr Hw Hrd _ _ Hex Hcn Hd1 Hd2]. split; simpl; try done; [by apply side_rouse|by apply side_rouse|by rewrite Ha1].
    + intros _ Hlw. simpl. right. assert (0 < lenN lw) by (destruct lw; [done|rewrite len_cons; lia]). assert (Hpos : (0 <? writer_waiters (st_of s1)) = true) by (apply N.ltb_lt; lia).
      rewrite Hpos, andb_true_r in Hc. N_bools. lia.
    + intros _ Hro Hnp Hlr. simpl in *. right. rewrite Hpe in Hnp. destruct (Hro Hnp (Hsub Hlr)) as [?|?]; [congruence|done].
Qed.

(** The lock is free of writers and is passed on. *)
Lemma pass_on_good t s s1 lr nr gr lw nw gw :
  inv0 t s1 lr nr gr lw nw gw → writer_active (st_of s1) = false → readers (st_of s1) = 0 → poison_ok s1 →
  consecutive_writers_served (st_of s1) = consecutive_writers_served (st_of s) →
  ∃ st' ws, pass_on (st_of s1) = Returns (st', ws) ∧ good t s lr lw (after s1 (mkLock st' (rw_poisoned (lock s1))) ws).
Proof.
  intros Hi Ha Hr Hp Hsv. destruct (pass_on_spec _ _ _ _ _ (i_rep _ _ _ _ _ _ _ _ Hi)) as (st' & ws & l1 & l2 & m1 & m2 & -> & Hm & Hlen & Hor & Hnone & Hturn).
  exists st', ws. split; [done|]. pose proof (moved_inv0 _ _ _ _ _ _ _ _ _ _ _ _ _ _ Hi Hm) as Hi'. destruct Hm as [Hlr Hlw _ Hrd Hac _ _].
  eexists _, _, _, _, _, _. split; [apply Hi'; [|done]|].
  { intros Hm1. split_and!; [done|done|by destruct Hor|done]. }
  split_and!.
  - intros _ Hm2. simpl. rewrite Hac, Ha, Hrd, Hr. destruct m1 as [|y m1]; simpl; [|by left]. right. destruct l1 as [|x l1]; [|rewrite len_cons; lia].
    destruct Hnone as [_ ->]; [done|done|]. by destruct m2.
  - apply (poison_keep s1); simpl; [done|done|done|apply roused_subset|apply roused_subset].
  - intros Ht _ _ Hl2. simpl. rewrite Hac, Ha. destruct Hturn as [Hm1|Hm2]; [by unfold turn_ok in *; rewrite Hsv|done|left|by right]. by rewrite bool_decide_false.
Qed.

(** A poisoned lock is free of writers: everyone is woken. *)
Lemma wake_all_good t s s1 lr nr gr lw nw gw lr0 lw0 : inv0 t s1 lr nr gr lw nw gw → rw_poisoned (lock s1) = true →
  ∃ ws, queued_waiter_wakers (st_of s1) = Returns ws ∧ good t s lr0 lw0 (after s1 (lock s1) ws).
Proof.
  intros Hi Hp. pose proof Hi as [[Hr Hw] Hb Hsr Hsw Hrd Hac Hww Hex Hcn Hd1 Hd2]. unfold queued_waiter_wakers. rewrite (rep_clone_wakers _ _ _ Hr), (rep_clone_wakers _ _ _ Hw).
  cbn [mbind run_bind]. eexists. split; [done|]. eexists lr, nr, gr, lw, nw, gw. split_and!.
  - split; simpl; try done; by apply side_rouse.
  - intros Hnp. simpl in Hnp. congruence.
  - intros _. right. simpl. split; apply set_eq; intros fid; (split; [|by intros ?%elem_of_empty]); intros Hin; exfalso; pose proof (roused_sub _ _ _ _ Hin) as Hin'.
    + destruct (side_sleeper _ _ _ _ _ _ _ Hsr Hin') as (x & Hx & _ & Hlw). apply (roused_woken _ _ _ _ _ Hlw) in Hin; [done|]. apply elem_of_app. left. by apply list_elem_of_fmap_2.
    + destruct (side_sleeper _ _ _ _ _ _ _ Hsw Hin') as (x & Hx & _ & Hlw). apply (roused_woken _ _ _ _ _ Hlw) in Hin; [done|]. apply elem_of_app. right. by apply list_elem_of_fmap_2.
  - intros _ _ Hnp. simpl in Hnp. congruence.
Qed.

Definition inv t s lr nr gr lw nw gw : Prop := inv0 t s lr nr gr lw nw gw ∧ writers_ok s lw ∧ poison_ok s.

(** *** Futures that give up *)

Definition left_reads s (fid : N) (fs : gmap N ReadFuture) : Prop :=
  left_by (r_waiting s) fid (r_waiter <$> fs) ∧ ∀ j f, fs !! j = Some f → r_completed f = true → r_waiter f = None.

Lemma abandon_read_good t s lr nr gr lw nw gw fid f fs : inv t s lr nr gr lw nw gw → reads s !! fid = Some f → left_reads s fid fs →
  ∃ k ws, abandon_read_waiter (lock s) (r_waiter f) = Returns (k, ws) ∧
    good t s lr lw (set_reads (after s k ws) fs (read_wakers s) (readers_asleep (after s k ws) ∖ {[fid]})).
Proof.
  intros (Hi & Hwo & Hp) Hf [Hl Hlc]. pose proof Hi as [[Hr Hw] Hb Hsr Hsw Hrd Hac Hww Hex Hcn Hd1 Hd2].
  assert (Hwf : r_waiting s !! fid = Some (r_waiter f)) by (unfold r_waiting; by rewrite lookup_fmap, Hf). unfold abandon_read_waiter.
  assert (Hsame : ∀ c lr', wq_rep c lr' nr → side (r_waiter <$> fs) (read_wakers s) (readers_asleep s ∖ {[fid]}) lr' nr gr → (lr' ≠ [] → lr ≠ []) →
    let k := mkLock (set_reader_queue (st_of s) c) (rw_poisoned (lock s)) in
    good t s lr lw (set_reads (after s k []) fs (read_wakers s) (readers_asleep (after s k []) ∖ {[fid]}))).
  { intros c lr' Hc Hs' Hsub. simpl. rewrite !roused_nil. eexists lr', nr, gr, lw, nw, gw. split_and!; [split; simpl; rewrite ?roused_nil; done| | |].
    - intros Hnp Hlw. by apply Hwo.
    - apply (poison_keep s); simpl; rewrite ?roused_nil; try done. set_solver.
    - intros _ Hro Hnp Hlr. by apply Hro, Hsub. }
  destruct (r_waiter f) as [id|] eqn:Hid.
  2: { eexists _, _. split; [done|]. specialize (Hsame (reader_waiters (st_of s)) lr Hr). replace (mkLock (set_reader_queue (st_of s) (reader_waiters (st_of s))) (rw_poisoned (lock s))) with (lock s) in Hsame by (by destruct (lock s) as [[] ?]).
       apply Hsame; [|done]. eapply side_leave_none; [done|done|]. congruence. }
  destruct (rep_remove _ _ _ id Hr) as (c & -> & Hc). cbn [mbind run_bind]. destruct (decide (id ∈ w_id <$> lr)) as [Hin|Hnin].
  - destruct (find_waiter_in _ _ Hin) as [x ->]. simpl. eexists _, _. split; [done|]. apply (Hsame c (without id lr) Hc).
    + eapply side_leave_queued; [done|done|done|]. intros Hg. pose proof (side_nodup _ _ _ _ _ _ Hsr) as Hnd. apply NoDup_app in Hnd as (_ & Hd & _). by apply (Hd id).
    + intros Hne ->. done.
  - destruct (without_notin id lr Hnin) as [Hwl ->]. rewrite Hwl in Hc. simpl. assert (Hg : id ∈ gr) by (pose proof (side_waits _ _ _ _ _ _ Hsr id fid Hwf) as Hin; apply elem_of_app in Hin as [?|?]; done).
    apply list_elem_of_split in Hg as (g1 & g2 & ->). rewrite len_app, len_cons in Hrd.
    assert (Ha : writer_active (st_of s) = false) by (destruct (writer_active (st_of s)); [rewrite Hex in Hrd by done; lia|done]).
    set (s1 := mkSystem (mkLock (set_readers (set_reader_queue (st_of s) c) (readers (st_of s) - 1)) (rw_poisoned (lock s))) fs (read_wakers s) (readers_asleep s ∖ {[fid]}) (read_guards s)
      (writes s) (write_wakers s) (writers_asleep s) (write_guards s)).
    destruct (reader_gone_good t s s1 (set_reader_queue (st_of s) c) lr nr (g1 ++ g2) lw nw gw lr) as (st' & ws & -> & Hgood); simpl; try done.
    + lia.
    + split; simpl; try done; [by eapply side_leave_granted|rewrite len_app; lia|]. intros Ha'. congruence.
    + set_solver.
    + cbn [mbind run_bind]. eexists _, _. split; [done|]. simpl in Hgood. unfold s1, after in Hgood. simpl in Hgood. rewrite roused_leave in Hgood. exact Hgood.
Qed.

Definition left_writes s (fid : N) (fs : gmap N WriteFuture) : Prop :=
  left_by (w_waiting s) fid (wr_waiter <$> fs) ∧
  ∀ j f, fs !! j = Some f → (wr_completed f = true → wr_waiter f = None) ∧ counted f = bool_decide (is_Some (wr_waiter f)).

Lemma abandon_write_good t s lr nr gr lw nw gw fid f fs p : inv t s lr nr gr lw nw gw → writes s !! fid = Some f → left_writes s fid fs →
  implb p (rw_poisoned (lock s)) = true →
  ∃ k ws, abandon_write_waiter (lock s) (wr_waiter f) (counted f) p = Returns (k, ws) ∧
    good t s lr lw (set_writes (after s k ws) fs (write_wakers s) (writers_asleep (after s k ws) ∖ {[fid]})).
Proof.
  intros (Hi & Hwo & Hp) Hf [Hl Hlc] Hpp. pose proof Hi as [[Hr Hw] Hb Hsr Hsw Hrd Hac Hww Hex Hcn Hd1 Hd2].
  assert (Hwf : w_waiting s !! fid = Some (wr_waiter f)) by (unfold w_waiting; by rewrite lookup_fmap, Hf). unfold abandon_write_waiter. rewrite (Hcn fid f Hf).
  destruct (wr_waiter f) as [id|] eqn:Hid; simpl.
  2: { eexists _, _. split; [done|]. rewrite !roused_nil. eexists lr, nr, gr, lw, nw, gw. split_and!.
       - split; simpl; rewrite ?roused_nil; try done; [|apply Hlc|apply Hlc]. eapply side_leave_none; [done|done|]. congruence.
       - done.
       - apply (poison_keep s); simpl; rewrite ?roused_nil; try done. set_solver.
       - done. }
  destruct (rep_remove _ _ _ id Hw) as (c & -> & Hc). cbn [mbind run_bind]. destruct (decide (id ∈ w_id <$> lw)) as [Hin|Hnin].
  - destruct (find_waiter_in _ _ Hin) as [x ->]. simpl. pose proof (without_length id lw (proj1 (rep_ids _ _ _ Hw)) Hin) as Hlen. unfold saturating_sub.
    set (s1 := mkSystem (mkLock (set_writer_waiters (set_writer_queue (st_of s) c) (writer_waiters (st_of s) - 1)) (rw_poisoned (lock s))) (reads s) (read_wakers s) (readers_asleep s) (read_guards s)
      fs (write_wakers s) (writers_asleep s ∖ {[fid]}) (write_guards s)).
    assert (Hi1 : inv0 t s1 lr nr gr (without id lw) nw gw).
    { split; simpl; try done; [|unfold lenN in *; lia|apply Hlc|apply Hlc]. eapply side_leave_queued; [done|done|done|]. intros Hg.
      pose proof (side_nodup _ _ _ _ _ _ Hsw) as Hnd. apply NoDup_app in Hnd as (_ & Hd & _). by apply (Hd id). }
    destruct (admit_readers_spec (st_of s1) p _ _ _ _ (i_rep _ _ _ _ _ _ _ _ Hi1)) as (st' & ws & l1 & l2 & E & Hm & Hl1 & Hl2). unfold s1 in E. simpl in E. rewrite E. cbn [mbind run_bind].
    eexists _, _. split; [done|]. pose proof (moved_inv0 _ _ _ _ _ _ _ _ _ _ _ _ _ _ Hi1 Hm) as Hi'. destruct Hm as [Hlr _ _ Hrd' Hac' _ _]. rewrite orb_false_r in Hac'.
    eexists _, _, _, _, _, _. split; [|split_and!].
    + specialize (Hi' ltac:(done) Hl1). unfold s1, after in Hi'. simpl in Hi'. rewrite roused_leave in Hi'. exact Hi'.
    + intros Hnp Hlw. simpl in *. rewrite Hac', Hrd'. simpl. destruct Hwo as [Ha|Hrs]; [done| |by left|right; lia]. intros ->. done.
    + apply (poison_keep s); simpl; [done|done|done|apply roused_subset|]. pose proof (roused_subset (write_wakers s) (writers_asleep s) ws). set_solver.
    + intros _ _ Hnp Hne. simpl in *. rewrite Hac'. simpl. destruct (writer_active (st_of s)) eqn:Ha; [by left|]. right. intros Hnil. apply Hne, Hl2; [by destruct p; [rewrite Hnp in Hpp|]| |done].
      assert (gw = []) as -> by (apply len_0; lia). rewrite Hww. apply (f_equal length) in Hnil. unfold lenN in *. simpl in *. lia.
  - destruct (without_notin id lw Hnin) as [Hwl ->]. rewrite Hwl in Hc. simpl. assert (Hg : id ∈ gw) by (pose proof (side_waits _ _ _ _ _ _ Hsw id fid Hwf) as Hin; apply elem_of_app in Hin as [?|?]; done).
    apply list_elem_of_split in Hg as (g1 & g2 & ->). rewrite len_app, len_cons in Hac, Hww. unfold saturating_sub.
    assert (Ha : writer_active (st_of s) = true) by (destruct (writer_active (st_of s)); [done|lia]). rewrite Ha in Hac.
    assert (g1 = []) as -> by (apply len_0; lia). assert (g2 = []) as -> by (apply len_0; lia). simpl in Hsw. pose proof (Hex Ha) as Hrs.
    set (s1 := mkSystem (mkLock (set_active (set_writer_waiters (set_writer_queue (st_of s) c) (writer_waiters (st_of s) - 1)) false) (rw_poisoned (lock s))) (reads s) (read_wakers s) (readers_asleep s) (read_guards s)
      fs (write_wakers s) (writers_asleep s ∖ {[fid]}) (write_guards s)).
    assert (Hi1 : inv0 t s1 lr nr gr lw nw []).
    { unfold lenN in *. simpl in *. split; simpl; try done; [|unfold lenN; simpl; lia|unfold lenN; simpl; lia|apply Hlc|apply Hlc]. by apply (side_leave_granted _ _ _ _ _ [] id [] fid _ Hsw). }
    assert (Hfin : ∀ k ws, good t s lr lw (after s1 k ws) → good t s lr lw (set_writes (after s k ws) fs (write_wakers s) (roused (write_wakers s) (writers_asleep s) ws ∖ {[fid]}))).
    { intros k ws Hgood. unfold s1, after in Hgood. simpl in Hgood. rewrite roused_leave in Hgood. exact Hgood. }
    destruct p.
    + destruct (wake_all_good t s s1 lr nr gr lw nw [] lr lw Hi1) as (ws & E & Hgood); [done|]. unfold s1 in E. simpl in E. rewrite E. cbn [mbind run_bind]. eexists _, _. split; [done|]. by apply Hfin.
    + destruct (pass_on_good t s s1 lr nr gr lw nw [] Hi1) as (st' & ws & E & Hgood); [done|done| |done|].
      { apply (poison_keep s); simpl; try done. set_solver. }
      unfold s1 in E. simpl in E. rewrite E. cbn [mbind run_bind]. eexists _, _. split; [done|]. by apply Hfin.
Qed.

Lemma left_reads_insert t s lr nr gr lw nw gw fid f : inv0 t s lr nr gr lw nw gw → r_waiter f = None → left_reads s fid (<[fid := f]> (reads s)).
Proof.
  intros Hi Hf. split; [rewrite fmap_insert, Hf; apply left_by_none|]. intros j f'. rewrite lookup_insert_Some. intros [[_ <-]|[_ Hj]]; [done|by eapply i_rdone].
Qed.

Lemma left_reads_delete t s lr nr gr lw nw gw fid : inv0 t s lr nr gr lw nw gw → left_reads s fid (delete fid (reads s)).
Proof. intros Hi. split; [rewrite fmap_delete; apply left_by_delete|]. intros j f'. rewrite lookup_delete_Some. intros [_ Hj]. by eapply i_rdone. Qed.

Lemma left_writes_insert t s lr nr gr lw nw gw fid f : inv0 t s lr nr gr lw nw gw → wr_waiter f = None → counted f = false →
  left_writes s fid (<[fid := f]> (writes s)).
Proof.
  intros Hi Hf Hc. split; [rewrite fmap_insert, Hf; apply left_by_none|]. intros j f'. rewrite lookup_insert_Some. intros [[_ <-]|[_ Hj]].
  - by rewrite Hf, Hc.
  - split; [by eapply i_wdone|by eapply i_counted].
Qed.

Lemma left_writes_delete t s lr nr gr lw nw gw fid : inv0 t s lr nr gr lw nw gw → left_writes s fid (delete fid (writes s)).
Proof.
  intros Hi. split; [rewrite fmap_delete; apply left_by_delete|]. intros j f'. rewrite lookup_delete_Some. intros [_ Hj]. split; [by eapply i_wdone|by eapply i_counted].
Qed.

Lemma good_weaken t s lr lw s' : good t s lr lw s' → good (t + 1) s lr lw s'.
Proof. intros (lr' & nr & gr & lw' & nw & gw & [] & H). eexists _, _, _, _, _, _. split; [|exact H]. split; try done. lia. Qed.

(** *** Polls *)

(** The state after a critical section that wakes nobody. *)
Lemma after_quiet s k : after s k [] = mkSystem k (reads s) (read_wakers s) (readers_asleep s) (read_guards s) (writes s) (write_wakers s) (writers_asleep s) (write_guards s).
Proof. unfold after. by rewrite !roused_nil. Qed.

Lemma read_poll_good t s lr nr gr lw nw gw fid f cancelled waker : inv t s lr nr gr lw nw gw → t < u64_MAX → reads s !! fid = Some f →
  ∃ k f' r ws, read_poll (lock s) f cancelled waker = Returns (k, f', r, ws) ∧ good (t + 1) s lr lw (read_polled s fid waker k f' r ws).
Proof.
  intros Hinv Ht Hf. pose proof Hinv as (Hi & Hwo & Hp). pose proof Hi as [[Hr Hw] Hb Hsr Hsw Hrd Hac Hww Hex Hcn Hd1 Hd2].
  assert (Hwf : r_waiting s !! fid = Some (r_waiter f)) by (unfold r_waiting; by rewrite lookup_fmap, Hf). unfold read_poll.
  assert (Hfin : ∀ e, ∃ k f' r ws, ('(k, ws) ← abandon_read_waiter (lock s) (r_waiter f); Returns (k, mkRead None true, Ready (Err e), ws)) = Returns (k, f', r, ws) ∧
    good (t + 1) s lr lw (read_polled s fid waker k f' r ws)).
  { intros e. destruct (abandon_read_good t s lr nr gr lw nw gw fid f (<[fid := mkRead None true]> (reads s)) Hinv Hf) as (k & ws & -> & Hg); [by eapply left_reads_insert|].
    cbn [mbind run_bind]. eexists _, _, _, _. split; [done|]. apply good_weaken. exact Hg. }
  destruct (r_completed f) eqn:Hcf.
  { pose proof (Hd1 fid f Hf Hcf) as Hn. destruct (abandon_read_good t s lr nr gr lw nw gw fid f (<[fid := f]> (reads s)) Hinv Hf) as (k & ws & E & Hg); [by eapply left_reads_insert|].
    rewrite Hn in E. injection E as <- <-. eexists _, _, _, _. split; [done|]. apply good_weaken. exact Hg. }
  destruct cancelled; [apply Hfin|]. destruct (rw_poisoned (lock s)) eqn:Hpo; [apply Hfin|]. clear Hfin.
  assert (Hpok : ∀ s', rw_poisoned (lock s') = false → poison_ok s') by (intros s' H H'; congruence).
  destruct (r_waiter f) as [id|] eqn:Hid.
  - destruct (rep_update_waker _ _ _ id waker Hr) as [Hfound Hr']. destruct (wq_update_waker _ _ _) as [c found]. simpl in Hfound, Hr'. subst found. case_bool_decide as Hin.
    + eexists _, _, _, _. split; [done|]. unfold read_polled. rewrite after_quiet. simpl. assert (Hng : id ∉ gr) by (intros Hg; pose proof (side_nodup _ _ _ _ _ _ Hsr) as Hnd; apply NoDup_app in Hnd as (_ & Hd & _); by apply (Hd id)).
      eexists (set_waker id waker <$> lr), nr, gr, lw, nw, gw. split_and!.
      * split; simpl; try done; [lia| |intros j f'; rewrite insert_id by done; apply Hd1]. unfold r_waiting. simpl. rewrite insert_id by done. by apply side_renew.
      * intros _ Hlw. by apply Hwo.
      * by apply Hpok.
      * intros _ Hro _ Hne. apply Hro; [done|]. intros ->. done.
    + replace (set_waker id waker <$> lr) with lr in Hr'.
      2: { rewrite <-(list_fmap_id lr) at 1. apply list_fmap_ext. intros i x Hx. unfold set_waker. simpl. destruct (N.eqb_spec (w_id x) id) as [<-|]; [|done]. exfalso. apply Hin, list_elem_of_fmap_2. by eapply list_elem_of_lookup_2. }
      assert (Hg : id ∈ gr) by (pose proof (side_waits _ _ _ _ _ _ Hsr id fid Hwf) as Hg; apply elem_of_app in Hg as [?|?]; done). apply list_elem_of_split in Hg as (g1 & g2 & ->). rewrite len_app, len_cons in Hrd.
      destruct (left_reads_insert t s _ _ _ _ _ _ fid (mkRead None true) Hi eq_refl) as [Hl Hlc].
      eexists _, _, _, _. split; [done|]. unfold read_polled. rewrite after_quiet. simpl. eexists lr, nr, (g1 ++ g2), lw, nw, gw. split_and!; [|intros _ Hlw; by apply Hwo|by apply Hpok|intros _ Hro _ Hne; by apply Hro].
      split; simpl; try done; [lia|by eapply side_leave_granted|rewrite len_app; lia].
  - destruct (negb (writer_active (st_of s)) && (writer_waiters (st_of s) =? 0)) eqn:Hfree.
    + N_bools. destruct (left_reads_insert t s _ _ _ _ _ _ fid (mkRead None true) Hi eq_refl) as [Hl Hlc]. eexists _, _, _, _. split; [done|]. unfold read_polled. rewrite after_quiet. simpl.
      eexists lr, nr, gr, lw, nw, gw. split_and!; [|intros _ _; simpl; right; lia|by apply Hpok|intros _ Hro _ Hne; by apply Hro].
      split; simpl; try done; [lia|eapply side_leave_none; [done|done|congruence]|lia|congruence].
    + cbn [reader_waiters set_next_id]. destruct (rep_push_back _ _ _ waker (next_waiter_id (st_of s)) Hr) as (c & -> & Hr'); [lia|]. cbn [mbind run_bind]. eexists _, _, _, _. split; [done|]. unfold read_polled. rewrite after_quiet. simpl.
      eexists (lr ++ [mkWaiting nr waker (next_waiter_id (st_of s))]), (nr + 1), gr, lw, nw, gw. split_and!; [|intros _ Hlw; by apply Hwo|by apply Hpok|].
      * split; simpl; try done; [lia| |intros j f'; rewrite lookup_insert_Some; intros [[_ <-]|[_ Hj]]; [done|by apply (Hd1 j)]].
        unfold r_waiting. simpl. rewrite fmap_insert. apply (side_enqueue (r_waiting s)); [done|]. congruence.
      * intros _ _ _ _. simpl. destruct (writer_active (st_of s)) eqn:Ha; [by left|]. right. intros ->. simpl in Hfree. N_bools. assert (gw = []) as -> by (apply len_0; lia). apply Hfree. rewrite Hww. done.
Qed.

Lemma write_poll_good t s lr nr gr lw nw gw fid f cancelled observed waker : inv t s lr nr gr lw nw gw → t < u64_MAX → writes s !! fid = Some f →
  implb observed (rw_poisoned (lock s)) = true →
  ∃ k f' r ws, write_poll (lock s) f cancelled observed waker = Returns (k, f', r, ws) ∧ good (t + 1) s lr lw (write_polled s fid waker k f' r ws).
Proof.
  intros Hinv Ht Hf Hobs. pose proof Hinv as (Hi & Hwo & Hp). pose proof Hi as [[Hr Hw] Hb Hsr Hsw Hrd Hac Hww Hex Hcn Hd1 Hd2].
  assert (Hwf : w_waiting s !! fid = Some (wr_waiter f)) by (unfold w_waiting; by rewrite lookup_fmap, Hf). unfold write_poll. pose proof (Hcn fid f Hf) as Hcf0.
  assert (Hfin : ∀ p e, implb p (rw_poisoned (lock s)) = true → ∃ k f' r ws,
    ('(k, ws) ← abandon_write_waiter (lock s) (wr_waiter f) (counted f) p; Returns (k, mkWrite (if counted f then None else wr_waiter f) false true, Ready (Err e), ws)) = Returns (k, f', r, ws) ∧
    good (t + 1) s lr lw (write_polled s fid waker k f' r ws)).
  { intros p e Hpe. assert (Hn : (if counted f then None else wr_waiter f) = None) by (rewrite Hcf0; by destruct (wr_waiter f)). rewrite Hn.
    destruct (abandon_write_good t s lr nr gr lw nw gw fid f (<[fid := mkWrite None false true]> (writes s)) p Hinv Hf) as (k & ws & -> & Hg); [by eapply left_writes_insert|done|].
    cbn [mbind run_bind]. eexists _, _, _, _. split; [done|]. apply good_weaken. exact Hg. }
  destruct (wr_completed f) eqn:Hcf.
  { pose proof (Hd2 fid f Hf Hcf) as Hn. rewrite Hn in Hcf0. simpl in Hcf0.
    destruct (abandon_write_good t s lr nr gr lw nw gw fid f (<[fid := f]> (writes s)) false Hinv Hf) as (k & ws & E & Hg); [by eapply left_writes_insert|done|].
    rewrite Hn, Hcf0 in E. injection E as <- <-. eexists _, _, _, _. split; [done|]. apply good_weaken. exact Hg. }
  destruct cancelled; [by apply Hfin|]. destruct (rw_poisoned (lock s)) eqn:Hpo; [by apply Hfin|]. clear Hfin.
  assert (Hpok : ∀ s', rw_poisoned (lock s') = false → poison_ok s') by (intros s' H H'; congruence).
  destruct (wr_waiter f) as [id|] eqn:Hid.
  - assert (Hct : counted f = true) by done. clear Hcf0. destruct (rep_update_waker _ _ _ id waker Hw) as [Hfound Hw']. destruct (wq_update_waker _ _ _) as [c found]. simpl in Hfound, Hw'. subst found. case_bool_decide as Hin.
    + eexists _, _, _, _. split; [done|]. unfold write_polled. rewrite after_quiet. simpl. assert (Hng : id ∉ gw) by (intros Hg; pose proof (side_nodup _ _ _ _ _ _ Hsw) as Hnd; apply NoDup_app in Hnd as (_ & Hd & _); by apply (Hd id)).
      eexists lr, nr, gr, (set_waker id waker <$> lw), nw, gw. split_and!.
      * split; simpl; rewrite ?(insert_id (writes s)) by done; try done; [lia| |rewrite Hww; unfold lenN; by rewrite length_fmap]. unfold w_waiting. simpl. rewrite ?(insert_id (writes s)) by done. by apply side_renew.
      * intros _ Hlw. apply Hwo; [done|]. intros ->. done.
      * by apply Hpok.
      * intros _ Hro _ Hne. destruct (Hro Hpo Hne) as [?|Hlw]; [by left|right]. intros Hnil%fmap_nil_inv. done.
    + replace (set_waker id waker <$> lw) with lw in Hw'.
      2: { rewrite <-(list_fmap_id lw) at 1. apply list_fmap_ext. intros i x Hx. unfold set_waker. simpl. destruct (N.eqb_spec (w_id x) id) as [<-|]; [|done]. exfalso. apply Hin, list_elem_of_fmap_2. by eapply list_elem_of_lookup_2. }
      assert (Hg : id ∈ gw) by (pose proof (side_waits _ _ _ _ _ _ Hsw id fid Hwf) as Hg; apply elem_of_app in Hg as [?|?]; done). apply list_elem_of_split in Hg as (g1 & g2 & ->). rewrite len_app, len_cons in Hac, Hww.
      destruct (left_writes_insert t s _ _ _ _ _ _ fid (mkWrite None false true) Hi eq_refl eq_refl) as [Hl Hlc]. rewrite Hct. simpl.
      eexists _, _, _, _. split; [done|]. unfold write_polled. rewrite after_quiet. simpl. eexists lr, nr, gr, lw, nw, (g1 ++ g2). split_and!; [|intros _ Hlw; by apply Hwo|by apply Hpok|intros _ Hro _ Hne; by apply Hro].
      split; simpl; try done; [lia|by eapply side_leave_granted|rewrite len_app; lia|unfold saturating_sub; rewrite len_app; lia|apply Hlc|apply Hlc].
  - rewrite (rep_is_empty _ _ _ Hw). destruct (negb (writer_active (st_of s)) && (readers (st_of s) =? 0) && bool_decide (lw = [])) eqn:Hfree.
    + N_bools. apply bool_decide_eq_true in H0 as ->. assert (gw = []) as -> by (rewrite H in Hac; apply len_0; lia). rewrite Hcf0. simpl.
      destruct (left_writes_insert t s _ _ _ _ _ _ fid (mkWrite None false true) Hi eq_refl eq_refl) as [Hl Hlc].
      eexists _, _, _, _. split; [done|]. unfold write_polled. rewrite after_quiet. simpl. eexists lr, nr, gr, [], nw, []. split_and!; [|by intros _ Hlw|by apply Hpok|intros _ _ _ _; by left].
      rewrite H in Hac. split; simpl; try done; [lia|eapply side_leave_none; [done|done|congruence]|lia|apply Hlc|apply Hlc].
    + rewrite Hcf0. simpl. destruct (rep_push_back _ _ _ waker (next_waiter_id (st_of s)) Hw) as (c & -> & Hw'); [lia|]. cbn [mbind run_bind]. eexists _, _, _, _. split; [done|]. unfold write_polled. rewrite after_quiet. simpl.
      eexists lr, nr, gr, (lw ++ [mkWaiting nw waker (next_waiter_id (st_of s))]), (nw + 1), gw. split_and!; [| |by apply Hpok|intros _ _ _ _; right; by destruct lw].
      * split; simpl; try done; [lia| |rewrite len_app, Hww; unfold lenN; simpl; lia|..].
        -- unfold w_waiting. simpl. rewrite fmap_insert. apply (side_enqueue (w_waiting s)); [done|]. congruence.
        -- intros j f'. rewrite lookup_insert_Some. intros [[_ <-]|[_ Hj]]; [done|by apply (Hcn j)].
        -- intros j f'. rewrite lookup_insert_Some. intros [[_ <-]|[_ Hj]]; [done|by apply (Hd2 j)].
      * intros _ _. simpl. destruct (writer_active (st_of s)) eqn:Ha; [by left|]. right. simpl in Hfree. destruct (N.eqb_spec (readers (st_of s)) 0) as [H0|]; [|lia]. simpl in Hfree. apply bool_decide_eq_false in Hfree.
        destruct Hwo as [?|?]; [done|done|congruence|done].
Qed.

(** *** Guards *)

Lemma drop_read_guard_good t s lr nr gr lw nw gw : inv t s lr nr gr lw nw gw → 0 < read_guards s →
  ∃ k ws, release_reader (lock s) = Returns (k, ws) ∧ good t s lr lw (set_guards (after s k ws) (read_guards s - 1) (write_guards s)).
Proof.
  intros (Hi & Hwo & Hp) Hg. pose proof Hi as [[Hr Hw] Hb Hsr Hsw Hrd Hac Hww Hex Hcn Hd1 Hd2]. unfold release_reader.
  assert (Ha : writer_active (st_of s) = false) by (destruct (writer_active (st_of s)); [rewrite Hex in Hrd by done; lia|done]).
  set (s1 := mkSystem (mkLock (set_readers (st_of s) (readers (st_of s) - 1)) (rw_poisoned (lock s))) (reads s) (read_wakers s) (readers_asleep s) (read_guards s - 1)
    (writes s) (write_wakers s) (writers_asleep s) (write_guards s)).
  destruct (reader_gone_good t s s1 (st_of s) lr nr gr lw nw gw lr) as (st' & ws & -> & Hgood); simpl; try done; [lia| |].
  - split; simpl; try done; [lia|]. intros Ha'. congruence.
  - cbn [mbind run_bind]. eexists _, _. split; [done|]. exact Hgood.
Qed.

(** The writer is gone; [s1] is the system without its guard. *)
Lemma writer_gone_inv0 t s lr nr gr lw nw gw g st' : inv0 t s lr nr gr lw nw gw → 0 < write_guards s →
  readers st' = g → writer_active st' = false → writer_waiters st' = writer_waiters (st_of s) → reader_waiters st' = reader_waiters (st_of s) → writer_queue st' = writer_queue (st_of s) →
  read_guards s = 0 ∧ gr = [] ∧ write_guards s = 1 ∧ readers (st_of s) = 0 ∧
  inv0 t (mkSystem (mkLock st' (rw_poisoned (lock s))) (reads s) (read_wakers s) (readers_asleep s) g (writes s) (write_wakers s) (writers_asleep s) (write_guards s - 1)) lr nr gr lw nw gw.
Proof.
  intros [[Hr Hw] Hb Hsr Hsw Hrd Hac Hww Hex Hcn Hd1 Hd2] Hg H1 H2 H3 H4 H5. assert (Ha : writer_active (st_of s) = true) by (destruct (writer_active (st_of s)); [done|lia]).
  rewrite Ha in Hac. rewrite (Hex Ha) in Hrd. assert (Hg0 : read_guards s = 0) by lia. assert (gr = []) as -> by (apply len_0; lia). split_and!; [done|done|lia|by apply Hex|].
  split; simpl; try done; [split; by rewrite ?H4, ?H5|unfold lenN; simpl; lia|rewrite H2; lia|by rewrite H3|by rewrite H2].
Qed.

Lemma drop_write_guard_good t s lr nr gr lw nw gw : inv t s lr nr gr lw nw gw → 0 < write_guards s →
  ∃ k ws, release_writer (lock s) = Returns (k, ws) ∧ good t s lr lw (set_guards (after s k ws) (read_guards s) (write_guards s - 1)).
Proof.
  intros (Hi & Hwo & Hp) Hg. destruct (writer_gone_inv0 t s lr nr gr lw nw gw 0 (set_active (st_of s) false) Hi Hg) as (Hr0 & -> & Hw1 & Hrs & Hi1); try done.
  { simpl. pose proof (i_exclusive _ _ _ _ _ _ _ _ Hi) as Hex. apply Hex. pose proof (i_active _ _ _ _ _ _ _ _ Hi). destruct (writer_active (st_of s)); [done|lia]. }
  rewrite <-Hr0 in Hi1 at 1. unfold release_writer. destruct (rw_poisoned (lock s)) eqn:Hpo.
  - destruct (wake_all_good t s _ lr nr [] lw nw gw lr lw Hi1) as (ws & E & Hgood); [done|]. simpl in E. rewrite E. cbn [mbind run_bind]. eexists _, _. split; [done|]. exact Hgood.
  - destruct (pass_on_good t s _ lr nr [] lw nw gw Hi1) as (st' & ws & E & Hgood); [done|done|done|done|]. simpl in E. rewrite E. cbn [mbind run_bind]. eexists _, _. split; [done|]. exact Hgood.
Qed.

Lemma downgrade_good t s lr nr gr lw nw gw : inv t s lr nr gr lw nw gw → 0 < write_guards s → rw_poisoned (lock s) = false →
  ∃ k ws, downgrade (lock s) = Returns (k, ws) ∧ good t s lr lw (set_guards (after s k ws) (read_guards s + 1) (write_guards s - 1)).
Proof.
  intros (Hi & Hwo & Hp) Hg Hpo. destruct (writer_gone_inv0 t s lr nr gr lw nw gw 1 (set_readers (set_active (st_of s) false) 1) Hi Hg) as (Hr0 & -> & Hw1 & Hrs & Hi1); try done.
  unfold downgrade. destruct (take_eligible_spec _ _ _ _ _ (i_rep _ _ _ _ _ _ _ _ Hi1)) as (c & l1 & l2 & -> & E & Hc & Hall & _). simpl in E. rewrite E. cbn [mbind run_bind].
  eexists _, _. split; [done|]. set (st' := if bool_decide _ then _ else _). assert (Hlen : lenN (w_waker <$> l1) = lenN l1) by (unfold lenN; by rewrite length_fmap).
  assert (Hst : readers st' = 1 + lenN l1 ∧ writer_active st' = false ∧ writer_waiters st' = writer_waiters (st_of s) ∧ reader_waiters st' = c ∧ writer_queue st' = writer_queue (st_of s)).
  { unfold st'. rewrite Hlen. by destruct (bool_decide (w_waker <$> l1 = [])). }
  destruct Hst as (H1 & H2 & H3 & H4 & H5). rewrite Hr0. pose proof (i_rep _ _ _ _ _ _ _ _ Hi) as [_ Hw]. eexists l2, nr, (w_id <$> l1), lw, nw, gw. split_and!.
  - pose proof (moved_inv0 _ _ _ _ _ _ _ _ st' l1 l2 [] lw (w_waker <$> l1) Hi1) as Hm. rewrite app_nil_r in Hm. apply Hm; [|done|done].
    split; simpl; try done. split; by rewrite ?H4, ?H5.
  - intros _ _. simpl. right. lia.
  - intros Hpp. simpl in Hpp. congruence.
  - intros _ _ _ Hl2. right. intros ->. by apply Hl2, Hall.
Qed.

Lemma try_read_good t s lr nr gr lw nw gw : inv t s lr nr gr lw nw gw →
  good t s lr lw (set_guards (after s (try_acquire_read_state (lock s)).1 []) (match (try_acquire_read_state (lock s)).2 with Ok _ => read_guards s + 1 | Err _ => read_guards s end) (write_guards s)).
Proof.
  intros (Hi & Hwo & Hp). rewrite after_quiet. unfold try_acquire_read_state. pose proof Hi as [[Hr Hw] Hb Hsr Hsw Hrd Hac Hww Hex Hcn Hd1 Hd2].
  assert (Hsame : good t s lr lw s) by (by eexists lr, nr, gr, lw, nw, gw). assert (Hs : mkSystem (lock s) (reads s) (read_wakers s) (readers_asleep s) (read_guards s) (writes s) (write_wakers s) (writers_asleep s) (write_guards s) = s) by (by destruct s).
  destruct (rw_poisoned (lock s)) eqn:Hpo; [by simpl; unfold set_guards; simpl; rewrite Hs|]. destruct (writer_active (st_of s) || (0 <? writer_waiters (st_of s))) eqn:Hc; [by simpl; unfold set_guards; simpl; rewrite Hs|].
  N_bools. simpl. eexists lr, nr, gr, lw, nw, gw. split_and!; [|intros _ _; simpl; right; lia|intros Hpp; simpl in Hpp; congruence|intros _ Hro _ Hne; by apply Hro].
  split; simpl; try done; [lia|congruence].
Qed.

Lemma try_write_good t s lr nr gr lw nw gw : inv t s lr nr gr lw nw gw →
  good t s lr lw (set_guards (after s (try_acquire_write_state (lock s)).1 []) (read_guards s) (match (try_acquire_write_state (lock s)).2 with Ok _ => write_guards s + 1 | Err _ => write_guards s end)).
Proof.
  intros (Hi & Hwo & Hp). rewrite after_quiet. unfold try_acquire_write_state. pose proof Hi as [[Hr Hw] Hb Hsr Hsw Hrd Hac Hww Hex Hcn Hd1 Hd2].
  assert (Hsame : good t s lr lw s) by (by eexists lr, nr, gr, lw, nw, gw). assert (Hs : mkSystem (lock s) (reads s) (read_wakers s) (readers_asleep s) (read_guards s) (writes s) (write_wakers s) (writers_asleep s) (write_guards s) = s) by (by destruct s).
  destruct (rw_poisoned (lock s)) eqn:Hpo; [by simpl; unfold set_guards; simpl; rewrite Hs|]. destruct (writer_active (st_of s) || (0 <? readers (st_of s)) || (0 <? writer_waiters (st_of s))) eqn:Hc; [by simpl; unfold set_guards; simpl; rewrite Hs|].
  N_bools. rewrite H in Hac. simpl. eexists lr, nr, gr, lw, nw, gw. split_and!; [|intros _ _; by left|intros Hpp; simpl in Hpp; congruence|intros _ _ _ _; by left].
  split; simpl; try done; lia.
Qed.

(** Every enabled step returns and keeps the invariant. *)
Lemma rw_step t s lr nr gr lw nw gw o : inv t s lr nr gr lw nw gw → t < u64_MAX → enabled s o = true →
  ∃ s', sys_step s o = Returns s' ∧ good (t + 1) s lr lw s'.
Proof.
  intros Hinv Ht He. pose proof Hinv as (Hi & Hwo & Hp). pose proof Hi as [[Hr Hw] Hb Hsr Hsw Hrd Hac Hww Hex Hcn Hd1 Hd2]. destruct o; simpl in *.
  - apply bool_decide_eq_true in He. eexists. split; [done|]. apply good_weaken. eexists lr, nr, gr, lw, nw, gw. split_and!; [|done|done|done]. split; simpl; try done.
    + unfold r_waiting. simpl. rewrite fmap_insert. apply (side_add (r_waiting s)); [done|]. unfold r_waiting. by rewrite lookup_fmap, He.
    + intros j f'. rewrite lookup_insert_Some. intros [[_ <-]|[_ Hj]]; [done|by apply (Hd1 j)].
  - apply bool_decide_eq_true in He. eexists. split; [done|]. apply good_weaken. eexists lr, nr, gr, lw, nw, gw. split_and!; [|done|done|done]. split; simpl; try done.
    + unfold w_waiting. simpl. rewrite fmap_insert. apply (side_add (w_waiting s)); [done|]. unfold w_waiting. by rewrite lookup_fmap, He.
    + intros j f'. rewrite lookup_insert_Some. intros [[_ <-]|[_ Hj]]; [done|by apply (Hcn j)].
    + intros j f'. rewrite lookup_insert_Some. intros [[_ <-]|[_ Hj]]; [done|by apply (Hd2 j)].
  - apply bool_decide_eq_true in He as [f Hf]. rewrite Hf. destruct (read_poll_good t s lr nr gr lw nw gw fid f cancelled waker Hinv Ht Hf) as (k & f' & r & ws & -> & Hg). cbn [mbind run_bind]. eauto.
  - N_bools. apply bool_decide_eq_true in H as [f Hf]. rewrite Hf. destruct (write_poll_good t s lr nr gr lw nw gw fid f cancelled observed waker Hinv Ht Hf H0) as (k & f' & r & ws & -> & Hg). cbn [mbind run_bind]. eauto.
  - apply bool_decide_eq_true in He as [f Hf]. rewrite Hf. destruct (abandon_read_good t s lr nr gr lw nw gw fid f (delete fid (reads s)) Hinv Hf) as (k & ws & -> & Hg); [by eapply left_reads_delete|]. cbn [mbind run_bind].
    eexists. split; [done|]. apply good_weaken. exact Hg.
  - N_bools. apply bool_decide_eq_true in H as [f Hf]. rewrite Hf. destruct (abandon_write_good t s lr nr gr lw nw gw fid f (delete fid (writes s)) observed Hinv Hf) as (k & ws & -> & Hg); [by eapply left_writes_delete|done|]. cbn [mbind run_bind].
    eexists. split; [done|]. apply good_weaken. exact Hg.
  - pose proof (try_read_good t s lr nr gr lw nw gw Hinv) as Hg. destruct (try_acquire_read_state (lock s)) as [k r]. eexists. split; [done|]. by apply good_weaken.
  - pose proof (try_write_good t s lr nr gr lw nw gw Hinv) as Hg. destruct (try_acquire_write_state (lock s)) as [k r]. eexists. split; [done|]. by apply good_weaken.
  - N_bools. destruct (drop_read_guard_good t s lr nr gr lw nw gw Hinv He) as (k & ws & -> & Hg). cbn [mbind run_bind]. eexists. split; [done|]. by apply good_weaken.
  - N_bools. destruct (drop_write_guard_good t s lr nr gr lw nw gw Hinv He) as (k & ws & -> & Hg). cbn [mbind run_bind]. eexists. split; [done|]. by apply good_weaken.
  - N_bools. destruct (downgrade_good t s lr nr gr lw nw gw Hinv H H0) as (k & ws & -> & Hg). cbn [mbind run_bind]. eexists. split; [done|]. by apply good_weaken.
  - N_bools. eexists. split; [done|]. apply good_weaken. rewrite after_quiet. eexists lr, nr, gr, lw, nw, gw. split_and!; [split; simpl; done|intros Hnp; simpl in Hnp; done|intros _; left; simpl|intros _ _ Hnp; simpl in Hnp; done].
    destruct (writer_active (st_of s)); lia.
Qed.

Lemma rw_inv_new : inv 0 sys_new [] 0 [] [] 0 [] ∧ readers_ok sys_new [] [].
Proof.
  split; [|by intros _ H]. split_and!; [|by intros _ H|by intros H]. split; simpl; try done; [split; apply rep_new|apply side_new|apply side_new].
Qed.

Lemma rw_reachable_inv t s : reachable t s → t ≤ u64_MAX → ∃ lr nr gr lw nw gw, inv t s lr nr gr lw nw gw.
Proof.
  induction 1 as [|t s o s' Hr IH He Hs]; intros Ht; [eexists _, _, _, _, _, _; apply rw_inv_new|]. destruct IH as (lr & nr & gr & lw & nw & gw & Hi); [lia|].
  destruct (rw_step t s lr nr gr lw nw gw o Hi) as (s2 & E & lr' & nr' & gr' & lw' & nw' & gw' & Hi' & Hwo & Hp & _); [lia|done|]. rewrite Hs in E. injection E as ->.
  eexists _, _, _, _, _, _. split_and!; done.
Qed.

(** No forced turn that leaves readers without a writer to pass the lock on. *)
Definition calm_state s : bool :=
  (consecutive_writers_served (st_of s) <? MAX_CONSECUTIVE_WRITERS_BEFORE_READER_BATCH) ||
  negb (wq_is_empty (writer_queue (st_of s))) || (wq_len (reader_waiters (st_of s)) <=? 1).

Inductive calmly_reachable : N → System C → Prop :=
  | calm_new : calmly_reachable 0 sys_new
  | calm_step t s o s' : calmly_reachable t s → calm_state s = true → enabled s o = true → sys_step s o = Returns s' → calmly_reachable (t + 1) s'.

Lemma calm_reachable t s : calmly_reachable t s → reachable t s.
Proof. induction 1; econstructor; done. Qed.

Lemma calm_inv t s : calmly_reachable t s → t ≤ u64_MAX → ∃ lr nr gr lw nw gw, inv t s lr nr gr lw nw gw ∧ readers_ok s lr lw.
Proof.
  induction 1 as [|t s o s' Hr IH Hc He Hs]; intros Ht; [eexists _, _, _, _, _, _; apply rw_inv_new|]. destruct IH as (lr & nr & gr & lw & nw & gw & Hi & Hro); [lia|].
  destruct (rw_step t s lr nr gr lw nw gw o Hi) as (s2 & E & lr' & nr' & gr' & lw' & nw' & gw' & Hi' & Hwo & Hp & Hro'); [lia|done|]. rewrite Hs in E. injection E as ->.
  eexists _, _, _, _, _, _. split; [split_and!; done|]. apply Hro'; [|done]. destruct Hi as [[[Hqr Hqw] _ _ _ _ _ _ _ _ _ _] _]. unfold calm_state in Hc. rewrite (rep_is_empty _ _ _ Hqw), (rep_len _ _ _ Hqr) in Hc.
  apply orb_true_iff in Hc as [Hc|Hc%N.leb_le]; [apply orb_true_iff in Hc as [Hc%N.ltb_lt|Hc%negb_true_iff%bool_decide_eq_false]|]; [by left|right; by left|]. right. right. unfold lenN in Hc. lia.
Qed.

(** *** The properties *)

(** What was handed over and not yet taken: the futures that wait under an identifier
    that is no longer in the queue. *)
Definition handed (q : C) (id : N) : bool := negb (wq_update_waker q id 0).2.
Definition pending_reads s : N := waiting_with (handed (reader_waiters (st_of s))) (r_waiting s).
Definition pending_writes s : N := waiting_with (handed (writer_queue (st_of s))) (w_waiting s).
Definition waiting_writes s : N := waiting_with (λ _, true) (w_waiting s).

Lemma handed_count wt lastw a l n g q : side wt lastw a l n g → wq_rep q l n → waiting_with (handed q) wt = lenN g.
Proof.
  intros Hs Hq. pose proof (side_nodup _ _ _ _ _ _ Hs) as (Hg & Hd & _)%NoDup_app. eapply waiting_with_count; [exact Hs|exact Hg|].
  intros id. unfold handed. destruct (rep_update_waker _ _ _ id 0 Hq) as [-> _]. rewrite elem_of_app, negb_true_iff, bool_decide_eq_false. split; [|tauto].
  intros Hin. split; [by left|by apply Hd].
Qed.

(** C14: In every interleaving of fewer than 2^64 steps there is at most one write
    guard, and no read guard beside it; the state counts exactly the guards and the
    futures the lock was handed to but that have not taken it yet - the readers, the
    active writer - and exactly the write futures that wait; and every further operation
    returns without panicking. *)
Theorem rwlock_exclusive t s : reachable t s → t < u64_MAX →
  write_guards s ≤ 1 ∧ (write_guards s = 1 → read_guards s = 0) ∧
  readers (st_of s) = read_guards s + pending_reads s ∧
  (if writer_active (st_of s) then 1 else 0) = write_guards s + pending_writes s ∧
  (writer_active (st_of s) = true → readers (st_of s) = 0) ∧
  writer_waiters (st_of s) = waiting_writes s ∧
  (∀ o, enabled s o = true → ∃ s', sys_step s o = Returns s').
Proof.
  intros Hr Ht. destruct (rw_reachable_inv t s Hr) as (lr & nr & gr & lw & nw & gw & Hinv); [lia|]. pose proof Hinv as (Hi & _ & _).
  pose proof Hi as [[Hqr Hqw] _ Hsr Hsw Hrd Hac Hww Hex _ _ _]. unfold pending_reads, pending_writes, waiting_writes.
  rewrite (handed_count _ _ _ _ _ _ _ Hsr Hqr), (handed_count _ _ _ _ _ _ _ Hsw Hqw).
  split_and!; [destruct (writer_active _); lia| |done|done|done| |].
  - intros Hg. destruct (writer_active (st_of s)); [rewrite Hex in Hrd by done; lia|lia].
  - rewrite (waiting_with_count (λ _, true) _ _ _ _ _ _ (gw ++ (w_id <$> lw)) Hsw (side_nodup _ _ _ _ _ _ Hsw)); [|intros id; tauto].
    rewrite len_app. unfold lenN in *. by rewrite length_fmap.
  - intros o Ho. destruct (rw_step t s lr nr gr lw nw gw o Hinv Ht Ho) as (s' & E & _). eauto.
Qed.

(** Somebody has the lock: a guard, or a future that is awake and gets it when it is
    polled. *)
Definition someone_holds s : Prop :=
  0 < write_guards s ∨ 0 < read_guards s ∨
  (∃ fid f, writes s !! fid = Some f ∧ fid ∉ writers_asleep s ∧ ∀ w, ∃ k, write_poll (lock s) f false false w = Returns (k, mkWrite None false true, Ready (Ok ()), [])) ∨
  (∃ fid f, reads s !! fid = Some f ∧ fid ∉ readers_asleep s ∧ ∀ w, ∃ k, read_poll (lock s) f false w = Returns (k, mkRead None true, Ready (Ok ()), [])).

Lemma granted_not_queued {T} wt lastw a (l : list (Waiting T)) n g id : side wt lastw a l n g → id ∈ g → id ∉ w_id <$> l.
Proof. intros Hs Hg Hl. pose proof (side_nodup _ _ _ _ _ _ Hs) as Hnd. apply NoDup_app in Hnd as (_ & Hd & _). by apply (Hd id). Qed.

Lemma holder t s lr nr gr lw nw gw : inv0 t s lr nr gr lw nw gw → rw_poisoned (lock s) = false →
  writer_active (st_of s) = true ∨ 0 < readers (st_of s) → someone_holds s.
Proof.
  intros [[Hr Hw] Hb Hsr Hsw Hrd Hac Hww Hex Hcn Hd1 Hd2] Hpo [Ha|Hrs].
  - rewrite Ha in Hac. destruct gw as [|id gw]; [left; unfold lenN in Hac; simpl in Hac; lia|]. right. right. left. destruct (side_granted _ _ _ _ _ _ Hsw id) as (fid & Hf & Hna); [left|].
    unfold w_waiting in Hf. rewrite lookup_fmap in Hf. destruct (writes s !! fid) as [f|] eqn:Hfid; [|done]. injection Hf as Hid. exists fid, f. split_and!; [done|done|]. intros w.
    unfold write_poll. destruct (wr_completed f) eqn:Hc; [rewrite (Hd2 fid f) in Hid by done; done|]. rewrite Hpo, Hid. destruct (rep_update_waker _ _ _ id w Hw) as [Hfound _].
    destruct (wq_update_waker _ _ _) as [c found]. simpl in Hfound. rewrite bool_decide_false in Hfound by (eapply granted_not_queued; [exact Hsw|left]). subst found. eauto.
  - destruct gr as [|id gr]; [right; left; unfold lenN in Hrd; simpl in Hrd; lia|]. right. right. right. destruct (side_granted _ _ _ _ _ _ Hsr id) as (fid & Hf & Hna); [left|].
    unfold r_waiting in Hf. rewrite lookup_fmap in Hf. destruct (reads s !! fid) as [f|] eqn:Hfid; [|done]. injection Hf as Hid. exists fid, f. split_and!; [done|done|]. intros w.
    unfold read_poll. destruct (r_completed f) eqn:Hc; [rewrite (Hd1 fid f) in Hid by done; done|]. rewrite Hpo, Hid. destruct (rep_update_waker _ _ _ id w Hr) as [Hfound _].
    destruct (wq_update_waker _ _ _) as [c found]. simpl in Hfound. rewrite bool_decide_false in Hfound by (eapply granted_not_queued; [exact Hsr|left]). subst found. eauto.
Qed.

(** C28: No wake-up is lost.  In every interleaving a sleeping writer means that
    somebody has the lock, or that the guard that poisoned it is about to wake
    everyone; the same holds for sleeping readers as long as no forced reader's turn
    finds several readers and no writer in the queues. *)
Theorem rwlock_no_lost_wakeup t s : reachable t s → t < u64_MAX →
  (∀ fid, fid ∈ writers_asleep s → someone_holds s) ∧
  (rw_poisoned (lock s) = true → write_guards s = 1 ∨ (readers_asleep s = ∅ ∧ writers_asleep s = ∅)) ∧
  (calmly_reachable t s → ∀ fid, fid ∈ readers_asleep s → someone_holds s).
Proof.
  intros Hr Ht. destruct (rw_reachable_inv t s Hr) as (lr & nr & gr & lw & nw & gw & Hi & Hwo & Hp); [lia|]. split_and!; [|exact Hp|].
  - intros fid Hf. destruct (rw_poisoned (lock s)) eqn:Hpo; [destruct (Hp Hpo) as [?|[_ Hn]]; [left; lia|set_solver]|].
    destruct (side_sleeper _ _ _ _ _ _ _ (i_writes _ _ _ _ _ _ _ _ Hi) Hf) as (x & Hx & _). eapply holder; [done|done|]. apply Hwo; [done|]. intros ->. by apply not_elem_of_nil in Hx.
  - intros Hc fid Hf. destruct (calm_inv t s Hc) as (lr' & nr' & gr' & lw' & nw' & gw' & (Hi' & Hwo' & Hp') & Hro); [lia|]. destruct (rw_poisoned (lock s)) eqn:Hpo; [destruct (Hp Hpo) as [?|[Hn _]]; [left; lia|set_solver]|].
    destruct (side_sleeper _ _ _ _ _ _ _ (i_reads _ _ _ _ _ _ _ _ Hi') Hf) as (x & Hx & _). eapply holder; [exact Hi'|done|]. destruct Hro as [Ha|Hlw]; [done|by intros ->; apply not_elem_of_nil in Hx|by left|by apply Hwo'].
Qed.

(** *** Schedules *)

Fixpoint sys_run s (os : list Op) : option (System C) :=
  match os with
  | [] => Some s
  | o :: os => if enabled s o then match sys_step s o with Returns s => sys_run s os | _ => None end else None
  end.

Lemma rw_run_reachable t s os s' : reachable t s → sys_run s os = Some s' → reachable (t + lenN os) s'.
Proof.
  revert t s. induction os as [|o os IH]; intros t s Hr; simpl; [intros [= <-]; unfold lenN; simpl; by rewrite N.add_0_r|].
  destruct (enabled s o) eqn:He; [|done]. destruct (sys_step s o) as [s1| |] eqn:Hs; [|done|done]. intros Hrun.
  rewrite len_cons, N.add_assoc. eapply IH; [by econstructor|done].
Qed.

Fixpoint calm_run s (os : list Op) : option (System C) :=
  match os with
  | [] => Some s
  | o :: os => if calm_state s && enabled s o then match sys_step s o with Returns s => calm_run s os | _ => None end else None
  end.

Lemma calm_run_reachable t s os s' : calmly_reachable t s → calm_run s os = Some s' → calmly_reachable (t + lenN os) s'.
Proof.
  revert t s. induction os as [|o os IH]; intros t s Hr; simpl; [intros [= <-]; unfold lenN; simpl; by rewrite N.add_0_r|].
  destruct (calm_state s && enabled s o) eqn:He; [|done]. apply andb_true_iff in He as [Hc He]. destruct (sys_step s o) as [s1| |] eqn:Hs; [|done|done]. intros Hrun.
  rewrite len_cons, N.add_assoc. eapply IH; [by econstructor|done].
Qed.

End rwlock.

Notation rw_chain := (WaiterChain (gmap N (WaiterSlot N))).

(** A writer holds the lock, a reader and a second writer wait, then the first lets go. *)
Definition rw_schedule : list Op :=
  [OWrite 1; OPollWrite 1 false false 11; ORead 1; OPollRead 1 false 21; OWrite 2; OPollWrite 2 false false 12; ODropWriteGuard].
Definition rw_at (n : nat) : System rw_chain := default sys_new (calm_run sys_new (take n rw_schedule)).

Lemma rw_at_calm n : calm_run (C := rw_chain) sys_new (take n rw_schedule) = Some (rw_at n) → calmly_reachable (lenN (take n rw_schedule)) (rw_at n).
Proof. intros H. apply (calm_run_reachable 0 sys_new); [constructor|done]. Qed.

Lemma rwlock_exclusive_witness : read_guards (rw_at 7) = 0 ∧ pending_reads (rw_at 7) = 1 ∧ readers (rstate (lock (rw_at 7))) = 1 ∧
  writer_waiters (rstate (lock (rw_at 7))) = 1 ∧ ∃ s', sys_step (rw_at 7) (ODropRead 1) = Returns s'.
Proof.
  destruct (rwlock_exclusive 7 (rw_at 7)) as (_ & _ & Hrd & _ & _ & Hw & Hs); [apply calm_reachable, (rw_at_calm 7); by vm_compute|done|].
  assert (Hg : read_guards (rw_at 7) = 0) by (by vm_compute). assert (Hp : pending_reads (rw_at 7) = 1) by (by vm_compute).
  split_and!; [done|done|by rewrite Hrd, Hg, Hp|rewrite Hw; by vm_compute|apply Hs; by vm_compute].
Defined.

Lemma rwlock_no_lost_wakeup_witness : write_guards (rw_at 7) = 0 ∧ read_guards (rw_at 7) = 0 ∧ 2 ∈ writers_asleep (rw_at 7) ∧ someone_holds (rw_at 7).
Proof.
  assert (Ha : 2 ∈ writers_asleep (rw_at 7)) by (apply (bool_decide_unpack _); by vm_compute). split_and!; [by vm_compute|by vm_compute|done|].
  destruct (rwlock_no_lost_wakeup 7 (rw_at 7)) as (Hw & _ & _); [apply calm_reachable, (rw_at_calm 7); by vm_compute|done|]. by apply (Hw 2).
Defined.

(** A reader that is forgotten: seventeen writers, then two readers.  The sixteen
    hand-overs make a reader's turn due; it takes one reader only, no writer is left to
    pass the lock on, and the second reader sleeps while nobody has the lock. *)
Definition many_writers : list Op :=
  concat ((λ i, [OWrite (N.of_nat i); OPollWrite (N.of_nat i) false false (100 + N.of_nat i)]) <$> seq 0 17).
Definition hand_overs : list Op := concat ((λ i, [ODropWriteGuard; OPollWrite (N.of_nat i) false false (100 + N.of_nat i)]) <$> seq 1 16).
Definition forgetful_schedule : list Op :=
  many_writers ++ [ORead 1; OPollRead 1 false 201; ORead 2; OPollRead 2 false 202] ++ hand_overs ++ [ODropWriteGuard; OPollRead 1 false 201; ODropReadGuard].

Lemma forced_turn_forgets_readers : ∃ s : System rw_chain, reachable (lenN forgetful_schedule) s ∧
  readers_asleep s = {[2]} ∧ write_guards s = 0 ∧ read_guards s = 0 ∧ rw_poisoned (lock s) = false ∧ writer_waiters (rstate (lock s)) = 0 ∧
  writer_active (rstate (lock s)) = false ∧ readers (rstate (lock s)) = 0 ∧ writes s = list_to_map ((λ i, (N.of_nat i, mkWrite None false true)) <$> seq 0 17).
Proof.
  destruct (sys_run (C := rw_chain) sys_new forgetful_schedule) as [s|] eqn:E; [|by vm_compute in E].
  exists s. split; [apply (rw_run_reachable 0 sys_new); [constructor|done]|]. revert E. vm_compute. intros [= <-]. split_and!; reflexivity.
Qed.
