(* ===== verification/Semaphore.v ===== *)
(** * The semaphore

    Models [src/sync/semaphore.rs]: a counting semaphore whose waiters ask for
    several permits at once and are served strictly in order.  The waiters are an
    intrusive list in a slab ([Links]); a waiting future holds a handle, the slot and
    the identifier of its waiter.  A release wakes the first waiter when its demand
    can be met but leaves it in the queue: it takes its permits when it is polled and
    wakes the next one.  Each critical section is a function on the semaphore that
    returns the wakers to wake after the lock of the state is released.  The outcome
    of [cx.checkpoint()] is an argument; lock-order checks exist in debug builds
    only; the ledger behind an obligation token is left out, whether a permit carries
    one is kept.

    [System] adds the futures and permits that Rust's ownership tracks, and every
    interleaving of critical sections.  The theorems: permits are conserved, no
    wake-up is lost, and nobody overtakes. *)

From S2P Require Import Prelude Slab Links WaiterChain Waits.

Inductive AcquireError := AcquireClosed | AcquireCancelled | AcquirePolledAfterCompletion.
Inductive TryAcquireError := NoPermits.

Record Waiter := mkWaiter { wt_id : N; wt_count : N; wt_waker : Waker; wt_prev : option N; wt_next : option N }.
Record WaiterHandle := mkHandle { h_slot : N; h_id : N }.
Record AcquireFuture := mkAcquire { af_count : N; af_waiter : option WaiterHandle; af_completed : bool }.
Record SemaphorePermit := mkPermit { permit_count : N; permit_obligation : bool }.

#[global] Instance waiter_node : Node Waiter (Waiting N) := {|
  n_prev := wt_prev; n_next := wt_next;
  n_item v := mkWaiting (wt_id v) (wt_waker v) (wt_count v);
  n_set_prev o v := mkWaiter (wt_id v) (wt_count v) (wt_waker v) o (wt_next v);
  n_set_next o v := mkWaiter (wt_id v) (wt_count v) (wt_waker v) (wt_prev v) o |}.
#[global] Instance waiter_node_laws : NodeLaws Waiter (Waiting N).
Proof. by split. Qed.

Section semaphore.
Context {St : Type} `{!Slab St Waiter}.

Record SemaphoreState := mkSemState {
  permits : N; closed : bool; waiters : St; waiter_head : option N; waiter_tail : option N; next_waiter_id : N }.
Record Semaphore := mkSemaphore { state : SemaphoreState; permits_shadow : N; closed_shadow : bool; max_permits : N }.

Implicit Types (st : SemaphoreState) (sem : Semaphore) (f : AcquireFuture) (h : WaiterHandle).

Definition set_permits st n : SemaphoreState := mkSemState n (closed st) (waiters st) (waiter_head st) (waiter_tail st) (next_waiter_id st).
Definition set_list st ws hd tl : SemaphoreState := mkSemState (permits st) (closed st) ws hd tl (next_waiter_id st).
Definition with_state sem st : Semaphore := mkSemaphore st (permits_shadow sem) (closed_shadow sem) (max_permits sem).

(** *** The queue of waiters *)

Definition waiter_waker_if_runnable st (slot : N) : option Waker :=
  match slab_at (waiters st) slot with
  | Some w => if wt_count w <=? permits st then Some (wt_waker w) else None
  | None => None
  end.

Definition front_waiter_waker_if_runnable st : option Waker :=
  match waiter_head st with Some slot => waiter_waker_if_runnable st slot | None => None end.

Definition allocate_waiter_id st : SemaphoreState * N :=
  (mkSemState (permits st) (closed st) (waiters st) (waiter_head st) (waiter_tail st) (wrapping_add u64_MAX (next_waiter_id st) 1), next_waiter_id st).

Definition waiter_by_handle st h : option Waiter :=
  match slab_at (waiters st) (h_slot h) with
  | Some w => if wt_id w =? h_id h then Some w else None
  | None => None
  end.

Definition is_front_waiter st h : bool :=
  bool_decide (waiter_head st = Some (h_slot h)) && bool_decide (is_Some (waiter_by_handle st h)).

Definition enqueue_waiter st (count : N) (waker : Waker) : run (SemaphoreState * WaiterHandle) :=
  let '(st, id) := allocate_waiter_id st in
  let prev := waiter_tail st in
  let '(ws, slot) := slab_add (waiters st) (mkWaiter id count waker prev None) in
  '(ws, hd) ← match prev with
              | Some prev_slot => ws ← put_next ws prev_slot (Some slot); Returns (ws, waiter_head st)
              | None => Returns (ws, Some slot)
              end;
  Returns (set_list st ws hd (Some slot), mkHandle slot id).

Definition unlink_waiter st h : run (SemaphoreState * option Waiter) :=
  match waiter_by_handle st h with
  | None => Returns (st, None)
  | Some w =>
      let prev := wt_prev w in
      let next := wt_next w in
      '(ws, hd) ← match prev with
                  | Some prev_slot => ws ← put_next (waiters st) prev_slot next; Returns (ws, waiter_head st)
                  | None => Returns (waiters st, next)
                  end;
      '(ws, tl) ← match next with
                  | Some next_slot => ws ← put_prev ws next_slot prev; Returns (ws, waiter_tail st)
                  | None => Returns (ws, prev)
                  end;
      match slab_take ws (h_slot h) with
      | Some (ws, w) => Returns (set_list st ws hd tl, Some w)
      | None => Panicked
      end
  end.

Definition pop_front_waiter st : run (SemaphoreState * option Waiter) :=
  match waiter_head st with
  | None => Returns (st, None)
  | Some slot =>
      match slab_at (waiters st) slot with
      | None => Returns (st, None)
      | Some w => unlink_waiter st (mkHandle slot (wt_id w))
      end
  end.

Definition remove_waiter_and_take_next_waker st h : run (SemaphoreState * option Waker) :=
  if is_front_waiter st h then
    let next_waker := match waiter_by_handle st h with
                      | Some w => match wt_next w with Some slot => waiter_waker_if_runnable st slot | None => None end
                      | None => None
                      end in
    '(st, _) ← unlink_waiter st h; Returns (st, next_waker)
  else '(st, _) ← unlink_waiter st h; Returns (st, None).

(** [existing.waker.clone_from(context.waker())] through [waiter_by_handle_mut]. *)
Definition renew_waker st h (waker : Waker) : option SemaphoreState :=
  match waiter_by_handle st h with
  | None => None
  | Some w =>
      Some (if negb (wt_waker w =? waker)
            then set_list st (slab_put (waiters st) (h_slot h) (mkWaiter (wt_id w) (wt_count w) waker (wt_prev w) (wt_next w))) (waiter_head st) (waiter_tail st)
            else st)
  end.

(** *** The operations *)

Definition semaphore_new (n : N) : Semaphore := mkSemaphore (mkSemState n false slab_empty None None 0) n false n.
Definition available_permits sem : N := permits_shadow sem.
Definition is_closed sem : bool := closed_shadow sem.

Definition close sem : Semaphore * list Waker :=
  let st := state sem in
  (mkSemaphore (mkSemState 0 true slab_empty None None (next_waiter_id st)) 0 true (max_permits sem), wt_waker <$> slab_values (waiters st)).

Definition acquire (count : N) : AcquireFuture := mkAcquire count None false.

(** Taking permits, and publishing how many are left. *)
Definition take_permits sem (count : N) : Semaphore :=
  let n := permits (state sem) - count in mkSemaphore (set_permits (state sem) n) n (closed_shadow sem) (max_permits sem).

Definition try_acquire sem (count : N) : Semaphore * result SemaphorePermit TryAcquireError :=
  if count =? 0 then (sem, Ok (mkPermit 0 false))
  else
    let st := state sem in
    if closed st then (sem, Err NoPermits)
    else if bool_decide (is_Some (waiter_head st)) then (sem, Err NoPermits)
    else if count <=? permits st then (take_permits sem count, Ok (mkPermit count true))
    else (sem, Err NoPermits).

Definition add_permits sem (count : N) : Semaphore * list Waker :=
  if count =? 0 then (sem, [])
  else
    let st := state sem in
    if closed st then (sem, [])
    else
      let n := saturating_add usize_MAX (permits st) count in
      let st := set_permits st n in
      (mkSemaphore st n (closed_shadow sem) (max_permits sem), option_list (front_waiter_waker_if_runnable st)).

(** A future that leaves: [Drop], and the cancelled branch of [poll]. *)
Definition acquire_drop sem f : run (Semaphore * list Waker) :=
  match af_waiter f with
  | None => Returns (sem, [])
  | Some h => '(st, w) ← remove_waiter_and_take_next_waker (state sem) h; Returns (with_state sem st, option_list w)
  end.

(** The end of [poll]: renew the waker of the waiter, or join the queue. *)
Definition wait sem f (waker : Waker) : run (Semaphore * AcquireFuture) :=
  let enqueue := '(st, h) ← enqueue_waiter (state sem) (af_count f) waker;
                 Returns (with_state sem st, mkAcquire (af_count f) (Some h) (af_completed f)) in
  match af_waiter f with
  | Some h => match renew_waker (state sem) h waker with Some st => Returns (with_state sem st, f) | None => enqueue end
  | None => enqueue
  end.

Definition acquire_poll sem f (cancelled : bool) (waker : Waker) :
    run (Semaphore * AcquireFuture * poll (result SemaphorePermit AcquireError) * list Waker) :=
  let done := mkAcquire (af_count f) None true in
  if af_completed f then Returns (sem, f, Ready (Err AcquirePolledAfterCompletion), [])
  else if af_count f =? 0 then Returns (sem, mkAcquire (af_count f) (af_waiter f) true, Ready (Ok (mkPermit 0 false)), [])
  else if cancelled then '(sem, ws) ← acquire_drop sem f; Returns (sem, done, Ready (Err AcquireCancelled), ws)
  else
    let st := state sem in
    if closed st then
      st ← match af_waiter f with Some h => '(st, _) ← unlink_waiter st h; Returns st | None => Returns st end;
      Returns (with_state sem st, done, Ready (Err AcquireClosed), [])
    else
      let is_next_in_line := match af_waiter f with
                             | None => negb (bool_decide (is_Some (waiter_head st)))
                             | Some h => is_front_waiter st h
                             end in
      if is_next_in_line && (af_count f <=? permits st) then
        let sem := take_permits sem (af_count f) in
        st ← match af_waiter f with Some _ => '(st, _) ← pop_front_waiter (state sem); Returns st | None => Returns (state sem) end;
        Returns (with_state sem st, done, Ready (Ok (mkPermit (af_count f) true)), option_list (front_waiter_waker_if_runnable st))
      else '(sem, f) ← wait sem f waker; Returns (sem, f, Pending, []).

(** [SemaphorePermit]: a dropped or committed permit gives back its count, a
    forgotten one does not.  The owned permit takes over the parts of a permit. *)
Definition permit_drop sem (p : SemaphorePermit) : Semaphore * list Waker :=
  if 0 <? permit_count p then add_permits sem (permit_count p) else (sem, []).
Definition commit sem (p : SemaphorePermit) : Semaphore * list Waker := permit_drop sem (mkPermit (permit_count p) false).
Definition forget sem (p : SemaphorePermit) : Semaphore * list Waker := permit_drop sem (mkPermit 0 false).
Definition into_parts (p : SemaphorePermit) : N * bool := (permit_count p, permit_obligation p).

(** The owned variants ([Arc<Semaphore>]), whose context is optional: an
    uncancelable future has none. *)
Definition owned_try_acquire sem (count : N) : Semaphore * result SemaphorePermit TryAcquireError :=
  let '(sem, r) := try_acquire sem count in
  match r with Ok p => let '(count, obligation) := into_parts p in (sem, Ok (mkPermit count obligation)) | Err e => (sem, Err e) end.
Definition owned_poll sem f (cx : option bool) (waker : Waker) :
    run (Semaphore * AcquireFuture * poll (result SemaphorePermit AcquireError) * list Waker) :=
  acquire_poll sem f (match cx with Some cancelled => cancelled | None => false end) waker.

(** *** Futures, permits and interleavings *)

Record System := mkSystem {
  sem : Semaphore;
  futures : gmap N AcquireFuture;
  last_waker : gmap N Waker;       (* the waker of a future's last pending poll *)
  asleep : gset N;                 (* pending futures whose waker was not woken since *)
  held : list SemaphorePermit;
  supplied : N;                    (* initial permits and those added from outside *)
  forgotten : N;
}.

Definition sys_new (n : N) : System := mkSystem (semaphore_new n) ∅ ∅ ∅ [] n 0.

Inductive Op :=
  | OAcquire (fid count : N)
  | OPoll (fid : N) (cancelled : bool) (waker : Waker)
  | ODrop (fid : N)
  | OTryAcquire (count : N)
  | ORelease (i : nat)
  | OForget (i : nat)
  | OAddPermits (count : N)
  | OClose.

Definition enabled (s : System) (o : Op) : bool :=
  match o with
  | OAcquire fid _ => bool_decide (futures s !! fid = None)
  | OPoll fid _ _ | ODrop fid => bool_decide (is_Some (futures s !! fid))
  | ORelease i | OForget i => bool_decide (is_Some (held s !! i))
  | OTryAcquire _ | OAddPermits _ | OClose => true
  end.

(** A new semaphore state; the wakers [ws] are woken. *)
Definition after (s : System) m (ws : list Waker) : System :=
  mkSystem m (futures s) (last_waker s) (roused (last_waker s) (asleep s) ws) (held s) (supplied s) (forgotten s).
Definition set_held (s : System) ps (added lost : N) : System :=
  mkSystem (sem s) (futures s) (last_waker s) (asleep s) ps (supplied s + added) (forgotten s + lost).
Definition set_futures (s : System) fs lw a : System := mkSystem (sem s) fs lw a (held s) (supplied s) (forgotten s).

Definition polled (s : System) (fid : N) (waker : Waker) m f (r : poll (result SemaphorePermit AcquireError)) (ws : list Waker) : System :=
  let s := after s m ws in
  let awake := asleep s ∖ {[fid]} in
  match r with
  | Pending => set_futures s (<[fid := f]> (futures s)) (<[fid := waker]> (last_waker s)) ({[fid]} ∪ awake)
  | Ready (Ok p) => set_held (set_futures s (<[fid := f]> (futures s)) (last_waker s) awake) (held s ++ [p]) 0 0
  | Ready (Err _) => set_futures s (<[fid := f]> (futures s)) (last_waker s) awake
  end.

Definition sys_step (s : System) (o : Op) : run System :=
  match o with
  | OAcquire fid count => Returns (set_futures s (<[fid := acquire count]> (futures s)) (last_waker s) (asleep s))
  | OPoll fid cancelled waker =>
      match futures s !! fid with
      | None => Panicked
      | Some f => '(m, f, r, ws) ← acquire_poll (sem s) f cancelled waker; Returns (polled s fid waker m f r ws)
      end
  | ODrop fid =>
      match futures s !! fid with
      | None => Panicked
      | Some f =>
          '(m, ws) ← acquire_drop (sem s) f;
          let s := after s m ws in
          Returns (set_futures s (delete fid (futures s)) (last_waker s) (asleep s ∖ {[fid]}))
      end
  | OTryAcquire count =>
      let '(m, r) := try_acquire (sem s) count in
      let s := after s m [] in
      Returns (match r with Ok p => set_held s (held s ++ [p]) 0 0 | Err _ => s end)
  | ORelease i =>
      match held s !! i with
      | None => Panicked
      | Some p => let '(m, ws) := permit_drop (sem s) p in let s := after s m ws in Returns (set_held s (delete i (held s)) 0 0)
      end
  | OForget i =>
      match held s !! i with
      | None => Panicked
      | Some p => let '(m, ws) := forget (sem s) p in let s := after s m ws in Returns (set_held s (delete i (held s)) 0 (permit_count p))
      end
  | OAddPermits count =>
      let '(m, ws) := add_permits (sem s) count in let s := after s m ws in Returns (set_held s (held s) count 0)
  | OClose => let '(m, ws) := close (sem s) in Returns (after s m ws)
  end.

Inductive reachable (n : N) : N → System → Prop :=
  | reach_new : reachable n 0 (sys_new n)
  | reach_step t s o s' : reachable n t s → enabled s o = true → sys_step s o = Returns s' → reachable n (t + 1) s'.

(** *** The queue as a list *)

Context `{!SlabLaws St Waiter}.
Notation queue := (list (N * Waiting N)).
Implicit Types q : queue.

Definition sem_rep st q : Prop := linked (slab_view (waiters st)) (waiter_head st) (waiter_tail st) q.

(** What an operation on the queue leaves alone. *)
Definition same st st' : Prop := permits st' = permits st ∧ closed st' = closed st ∧ next_waiter_id st' = next_waiter_id st.

(** The first waiter, when its demand can be met. *)
Definition runnable (n : N) q : option Waker :=
  match q with (_, x) :: _ => if w_tag x <=? n then Some (w_waker x) else None | [] => None end.

Lemma node_at st q k x : sem_rep st q → (k, x) ∈ q → ∃ w, slab_at (waiters st) k = Some w ∧ n_item w = x.
Proof.
  intros Hl (q1 & q2 & ->)%list_elem_of_split. destruct (linked_node _ _ _ _ _ _ _ Hl) as (w & Hw & Hi & _). rewrite view_at. eauto.
Qed.

Lemma handle_present st q k x : sem_rep st q → (k, x) ∈ q → ∃ w, slab_at (waiters st) k = Some w ∧ waiter_by_handle st (mkHandle k (w_id x)) = Some w ∧ n_item w = x.
Proof.
  intros Hl Hx. destruct (node_at st q k x Hl Hx) as (w & Hw & Hi). exists w. split_and!; [done| |done]. unfold waiter_by_handle. simpl. rewrite Hw.
  assert (wt_id w = w_id x) as -> by (by rewrite <-Hi). by rewrite N.eqb_refl.
Qed.

Lemma handle_empty st h : sem_rep st [] → waiter_by_handle st h = None.
Proof.
  intros Hl. unfold waiter_by_handle. rewrite view_at. destruct (slab_view (waiters st) !! h_slot h) as [w|] eqn:Hw; [|done].
  assert (Hin : h_slot h ∈ ([] : queue).*1) by (apply (linked_covers _ _ _ _ Hl); eauto). by apply not_elem_of_nil in Hin.
Qed.

Lemma waker_at st q k x : sem_rep st q → (k, x) ∈ q → waiter_waker_if_runnable st k = if w_tag x <=? permits st then Some (w_waker x) else None.
Proof.
  intros Hl Hx. destruct (node_at st q k x Hl Hx) as (w & Hw & Hi). unfold waiter_waker_if_runnable. rewrite Hw.
  assert (wt_count w = w_tag x ∧ wt_waker w = w_waker x) as [-> ->] by (by rewrite <-Hi). done.
Qed.

Lemma front_runnable st q : sem_rep st q → front_waiter_waker_if_runnable st = runnable (permits st) q.
Proof.
  intros Hl. unfold front_waiter_waker_if_runnable. rewrite (linked_head _ _ _ _ Hl). destruct q as [|[k x] q]; [done|]. simpl. eapply waker_at; [done|left].
Qed.

Lemma front_iff st q k x : sem_rep st q → (k, x) ∈ q → is_front_waiter st (mkHandle k (w_id x)) = bool_decide (head q.*1 = Some k).
Proof.
  intros Hl Hx. unfold is_front_waiter. destruct (handle_present st q k x Hl Hx) as (w & _ & -> & _). rewrite (bool_decide_true (is_Some (Some w))) by eauto. rewrite andb_true_r.
  by rewrite (linked_head _ _ _ _ Hl).
Qed.

Lemma unlink_rep st q1 k x q2 : sem_rep st (q1 ++ (k, x) :: q2) →
  ∃ st' w, unlink_waiter st (mkHandle k (w_id x)) = Returns (st', w) ∧ sem_rep st' (q1 ++ q2) ∧ same st st'.
Proof.
  intros Hl. destruct (linked_node _ _ _ _ _ _ _ Hl) as (w & Hw & Hi & Hp & Hn). destruct (neighbours _ _ _ _ _ _ _ Hl) as (Hpk & Hnk & Hps & Hns).
  unfold unlink_waiter, waiter_by_handle. simpl. rewrite view_at, Hw. assert (wt_id w = w_id x) as -> by (by rewrite <-Hi). rewrite N.eqb_refl. simpl in Hp, Hn. rewrite Hp, Hn.
  assert (Hs1 : ∃ s1, (match last q1.*1 with Some p => ws ← put_next (waiters st) p (head q2.*1); Returns (ws, waiter_head st) | None => Returns (waiters st, head q2.*1) end) =
     Returns (s1, match last q1.*1 with Some _ => waiter_head st | None => head q2.*1 end) ∧
     slab_view s1 = match last q1.*1 with Some x => alter (n_set_next (head q2.*1)) x (slab_view (waiters st)) | None => slab_view (waiters st) end).
  { destruct (last q1.*1) as [p|]; [|eauto]. destruct (put_next_view (waiters st) p (head q2.*1)) as (s1 & -> & Hs1); [by apply Hps|]. eauto. }
  destruct Hs1 as (s1 & -> & Hs1). cbn [mbind run_bind].
  assert (Hs2 : ∃ s2, (match head q2.*1 with Some n => ws ← put_prev s1 n (last q1.*1); Returns (ws, waiter_tail st) | None => Returns (s1, last q1.*1) end) =
     Returns (s2, match head q2.*1 with Some _ => waiter_tail st | None => last q1.*1 end) ∧ slab_view s2 = relink (last q1.*1) (head q2.*1) (slab_view (waiters st))).
  { unfold relink. destruct (head q2.*1) as [n|]; [|eauto]. destruct (put_prev_view s1 n (last q1.*1)) as (s2 & -> & Hs2).
    - rewrite Hs1. destruct (last q1.*1); rewrite ?lookup_alter_is_Some; by apply Hns.
    - rewrite <-Hs1. eauto. }
  destruct Hs2 as (s2 & -> & Hs2). cbn [mbind run_bind]. destruct (take_present s2 k w) as (s3 & -> & Hs3); [rewrite Hs2, relink_ne; done|].
  eexists _, _. split_and!; [done| |done]. unfold sem_rep. simpl. rewrite Hs3, Hs2. by apply (linked_unlink _ _ _ _ _ x).
Qed.

Lemma unlink_absent st h : sem_rep st [] → unlink_waiter st h = Returns (st, None).
Proof. intros Hl. unfold unlink_waiter. by rewrite handle_empty. Qed.

Lemma pop_rep st k x q : sem_rep st ((k, x) :: q) → ∃ st' w, pop_front_waiter st = Returns (st', w) ∧ sem_rep st' q ∧ same st st'.
Proof.
  intros Hl. unfold pop_front_waiter. rewrite (linked_head _ _ _ _ Hl). simpl. destruct (node_at st _ k x Hl) as (w & -> & Hi); [left|].
  assert (wt_id w = w_id x) as -> by (by rewrite <-Hi). by apply (unlink_rep st []).
Qed.

Lemma unqueue_rep st q1 k x q2 : sem_rep st (q1 ++ (k, x) :: q2) →
  ∃ st', remove_waiter_and_take_next_waker st (mkHandle k (w_id x)) = Returns (st', match q1 with [] => runnable (permits st) q2 | _ => None end) ∧
    sem_rep st' (q1 ++ q2) ∧ same st st'.
Proof.
  intros Hl. assert (Hin : (k, x) ∈ q1 ++ (k, x) :: q2) by (apply elem_of_app; right; left). unfold remove_waiter_and_take_next_waker. rewrite (front_iff st _ k x Hl Hin).
  destruct (unlink_rep st q1 k x q2 Hl) as (st' & w & -> & Hl' & Hsame). destruct q1 as [|[j y] q1]; simpl.
  - rewrite bool_decide_true by done. cbn [mbind run_bind]. exists st'. split; [|done]. destruct (linked_node _ _ _ [] k x q2 Hl) as (v & Hv & Hi & _ & Hn).
    unfold waiter_by_handle. simpl. rewrite view_at, Hv. assert (wt_id v = w_id x) as -> by (by rewrite <-Hi). rewrite N.eqb_refl. simpl in Hn. rewrite Hn.
    destruct q2 as [|[j y] q2]; [done|]. simpl. do 2 f_equal. eapply waker_at; [exact Hl|]. right. left.
  - rewrite bool_decide_false; [cbn [mbind run_bind]; eauto|]. intros [= ->]. pose proof (linked_nodup _ _ _ _ Hl) as [Hn _]%NoDup_cons. apply Hn, list_elem_of_fmap.
    exists (k, x). split; [done|]. apply elem_of_app. right. left.
Qed.

Lemma remove_absent st h : sem_rep st [] → remove_waiter_and_take_next_waker st h = Returns (st, None).
Proof.
  intros Hl. unfold remove_waiter_and_take_next_waker, is_front_waiter. rewrite (linked_head _ _ _ _ Hl), unlink_absent by done. done.
Qed.

Lemma enqueue_rep st q count waker : sem_rep st q → next_waiter_id st < u64_MAX →
  ∃ st' k, enqueue_waiter st count waker = Returns (st', mkHandle k (next_waiter_id st)) ∧ sem_rep st' (q ++ [(k, mkWaiting (next_waiter_id st) waker count)]) ∧
    permits st' = permits st ∧ closed st' = closed st ∧ next_waiter_id st' = next_waiter_id st + 1.
Proof.
  intros Hl Hn. unfold enqueue_waiter, allocate_waiter_id. rewrite wrapping_add_1 by done. cbn [waiters waiter_tail waiter_head].
  set (v := mkWaiter (next_waiter_id st) count waker (waiter_tail st) None). pose proof (view_add (waiters st) v) as [Hfree Hview].
  destruct (slab_add (waiters st) v) as [ws k]. simpl in Hfree, Hview.
  pose proof (linked_push_back _ _ _ _ k v (mkWaiting (next_waiter_id st) waker count) Hl Hfree eq_refl eq_refl eq_refl) as Hl'.
  destruct (waiter_tail st) as [p|] eqn:Ht.
  - destruct (put_next_view ws p (Some k)) as (ws' & -> & Hs').
    { rewrite Hview. destruct (decide (k = p)) as [->|]; [rewrite lookup_insert_eq; eauto|]. rewrite lookup_insert_ne by done. apply (linked_some _ _ _ _ _ Hl).
      pose proof (linked_tail _ _ _ _ Hl) as Htl. apply last_Some_elem_of. by rewrite <-Htl. }
    cbn [mbind run_bind]. eexists _, k. split_and!; [done| |done|done|done]. unfold sem_rep. simpl. by rewrite Hs', Hview.
  - cbn [mbind run_bind]. eexists _, k. split_and!; [done| |done|done|done]. unfold sem_rep. simpl. by rewrite Hview.
Qed.

(** Slots and identifiers name the same waiters. *)
Lemma slot_iff_id q k x j y : NoDup q.*1 → NoDup (w_id <$> q.*2) → (k, x) ∈ q → (j, y) ∈ q → (j = k ↔ w_id y = w_id x).
Proof.
  intros H1 H2 (i & Hi)%list_elem_of_lookup (i' & Hi')%list_elem_of_lookup. split; intros Heq.
  - assert (i' = i); [|congruence]. eapply NoDup_lookup; [exact H1|by rewrite list_lookup_fmap, Hi'|by rewrite list_lookup_fmap, Hi, Heq].
  - assert (i' = i); [|congruence]. eapply NoDup_lookup; [exact H2|by rewrite !list_lookup_fmap, Hi'|]. rewrite !list_lookup_fmap, Hi. simpl. by rewrite Heq.
Qed.

Lemma renew_rep st q k x waker : sem_rep st q → NoDup (w_id <$> q.*2) → (k, x) ∈ q →
  ∃ st', renew_waker st (mkHandle k (w_id x)) waker = Some st' ∧ sem_rep st' (prod_map id (set_waker (w_id x) waker) <$> q) ∧ same st st'.
Proof.
  intros Hl Hnd Hx. unfold renew_waker. destruct (handle_present st q k x Hl Hx) as (w & Hw & -> & Hi). rewrite view_at in Hw. simpl.
  set (v := mkWaiter (wt_id w) (wt_count w) waker (wt_prev w) (wt_next w)).
  assert (Hl' : linked (<[k := v]> (slab_view (waiters st))) (waiter_head st) (waiter_tail st) (prod_map id (set_waker (w_id x) waker) <$> q)).
  { apply (linked_set_item _ _ _ _ _ w); [done..|]. intros j y Hy. pose proof (slot_iff_id q k x j y (linked_nodup _ _ _ _ Hl) Hnd Hx Hy) as Hiff. unfold set_waker.
    destruct (N.eqb_spec (w_id y) (w_id x)) as [Heq|Hne]; [|by rewrite decide_False by tauto]. rewrite decide_True by tauto. destruct (proj2 Hiff Heq).
    destruct (node_at st q j y Hl Hy) as (w' & Hw' & Hi'). rewrite view_at, Hw in Hw'. injection Hw' as <-. rewrite <-Hi'. done. }
  destruct (N.eqb_spec (wt_waker w) waker) as [Heq|Hne]; simpl; eexists; (split_and!; [done| |done]).
  - unfold sem_rep. rewrite insert_id in Hl'; [done|]. rewrite Hw. unfold v. rewrite <-Heq. by destruct w.
  - unfold sem_rep. simpl. rewrite view_put by (rewrite Hw; eauto). done.
Qed.

(** *** The invariant *)

Implicit Types (s : System) (g : list N).

Definition waiting s : gmap N (option N) := (λ f, h_id <$> af_waiter f) <$> futures s.
Definition total (ps : list SemaphorePermit) : N := foldr (λ p n, permit_count p + n) 0 ps.
Notation st_of s := (state (sem s)).

Record inv0 (t : N) s q (n : N) g : Prop := {
  i_rep : sem_rep (st_of s) q;
  i_next : next_waiter_id (st_of s) = n;
  i_bound : n ≤ t;
  i_side : side (waiting s) (last_waker s) (asleep s) q.*2 n g;
  i_handles fid f h : futures s !! fid = Some f → af_waiter f = Some h → closed (st_of s) = false →
    ∃ x, (h_slot h, x) ∈ q ∧ w_id x = h_id h ∧ w_tag x = af_count f;
  i_closed : if closed (st_of s) then q = [] ∧ permits (st_of s) = 0 else g = [];
  i_idle fid f : futures s !! fid = Some f → af_completed f = true ∨ af_count f = 0 → af_waiter f = None;
  i_shadow : permits_shadow (sem s) = permits (st_of s) ∧ closed_shadow (sem s) = closed (st_of s);
  i_permits : permits (st_of s) + total (held s) + forgotten s ≤ supplied s;
  i_exact : closed (st_of s) = false → supplied s ≤ usize_MAX → permits (st_of s) + total (held s) + forgotten s = supplied s;
}.

(** The first waiter does not sleep while its demand can be met. *)
Definition front_awake s q : Prop :=
  closed (st_of s) = false → ∀ k x q' fid, q = (k, x) :: q' → w_tag x ≤ permits (st_of s) → waiting s !! fid = Some (Some (w_id x)) → fid ∉ asleep s.

Definition inv t s q n g : Prop := inv0 t s q n g ∧ front_awake s q.

Lemma total_app ps ps' : total (ps ++ ps') = total ps + total ps'.
Proof. induction ps as [|p ps IH]; simpl; [done|]. rewrite IH. lia. Qed.

Lemma total_delete ps i p : ps !! i = Some p → total ps = permit_count p + total (delete i ps).
Proof.
  revert i. induction ps as [|p' ps IH]; intros [|i]; simpl; [done|done|by intros [= ->]|]. intros Hi. rewrite (IH i Hi). unfold delete. simpl. lia.
Qed.

Lemma sem_inv_new n : inv 0 (sys_new n) [] 0 [].
Proof.
  split; [|by intros _ k x q' fid]. split; simpl; try done; [|apply side_new|lia|intros; lia]. unfold sem_rep. simpl. rewrite view_empty. split; simpl; [constructor|by intros k []|done|done|done].
Qed.

Lemma inv0_weaken t s q n g : inv0 t s q n g → inv0 (t + 1) s q n g.
Proof. intros []. split; try done. lia. Qed.

(** Waking the first waiter when its demand can be met keeps it awake. *)
Lemma front_roused wt lw a q n g p ws k x q' fid : side wt lw a q.*2 n g → q = (k, x) :: q' → w_tag x ≤ p → option_list (runnable p q) ⊆ ws →
  wt !! fid = Some (Some (w_id x)) → fid ∉ roused lw a ws.
Proof.
  intros Hs -> Ht Hws Hf. destruct (side_queued _ _ _ _ _ _ Hs x) as (j & Hj & Hlw); [left|]. rewrite (side_unique _ _ _ _ _ _ Hs _ fid j Hf Hj).
  eapply roused_woken; [exact Hlw|]. apply Hws. simpl. rewrite (proj2 (N.leb_le _ _) Ht). left.
Qed.

Lemma ids_nodup wt lw a q n g : side wt lw a q.*2 n g → NoDup (w_id <$> q.*2).
Proof. intros Hs. pose proof (side_nodup _ _ _ _ _ _ Hs) as Hnd. by apply NoDup_app in Hnd as (_ & _ & ?). Qed.

(** *** Permits *)

(** Changes of the permits that leave queue and futures alone. *)
Lemma permits_inv0 t s q n g p ps added lost : inv0 t s q n g → closed (st_of s) = false →
  p + total ps + lost ≤ permits (st_of s) + total (held s) + added →
  (supplied s + added ≤ usize_MAX → p + total ps + lost = permits (st_of s) + total (held s) + added) →
  inv0 t (set_held (after s (mkSemaphore (set_permits (st_of s) p) p (closed_shadow (sem s)) (max_permits (sem s))) []) ps added lost) q n g.
Proof.
  intros [Hr Hn Hb Hs Hh Hcl Hid Hsh Hp He] Hc Hle Heq. split; simpl; rewrite ?roused_nil; try done; [by rewrite Hc in *|by destruct Hsh|lia|].
  intros _ Hm. specialize (Heq Hm). specialize (He Hc). lia.
Qed.

Lemma rouse_inv0 t s q n g ws : inv0 t s q n g → inv0 t (after s (sem s) ws) q n g.
Proof. intros []. split; try done. by apply side_rouse. Qed.

Lemma rouse_awake s q ws : front_awake s q → front_awake (after s (sem s) ws) q.
Proof. intros Hf Hc k x q' fid Hq Hx Hw Ha%roused_sub. by eapply Hf. Qed.

Lemma add_inv t s q n g c ps added : inv t s q n g → total ps + c = total (held s) + added →
  let '(m, ws) := add_permits (sem s) c in inv t (set_held (after s m ws) ps added 0) q n g.
Proof.
  intros [Hi Hf] Hc. pose proof Hi as [Hr Hn Hb Hs Hh Hcl Hid Hsh Hp He]. unfold add_permits. destruct (N.eqb_spec c 0) as [->|Hc0].
  { split; [|by apply rouse_awake]. destruct (rouse_inv0 t s q n g [] Hi). split; simpl in *; try done; [lia|]. intros Hcs Hm. specialize (He Hcs). lia. }
  destruct (closed (st_of s)) eqn:Hclosed.
  { split; [|intros Hx; simpl in Hx; congruence]. destruct (rouse_inv0 t s q n g [] Hi). split; simpl in *; try done; [destruct Hcl; lia|]. rewrite Hclosed. done. }
  set (p := saturating_add usize_MAX (permits (st_of s)) c).
  assert (Hi' : inv0 t (set_held (after s (mkSemaphore (set_permits (st_of s) p) p (closed_shadow (sem s)) (max_permits (sem s))) []) ps added 0) q n g).
  { apply permits_inv0; [done|done|unfold p, saturating_add; lia|]. intros Hm. unfold p. rewrite saturating_add_exact; lia. }
  rewrite (front_runnable _ q) by exact Hr. split; [|].
  - destruct Hi' as []. split; simpl in *; try done. rewrite roused_nil in i_side0. by apply side_rouse.
  - intros _ k x q' fid Hq Hx Hw. simpl in *. by eapply (front_roused _ _ _ _ _ _ p).
Qed.

Lemma try_acquire_inv t s q n g c : inv t s q n g →
  let '(m, r) := try_acquire (sem s) c in inv t (match r with Ok p => set_held (after s m []) (held s ++ [p]) 0 0 | Err _ => after s m [] end) q n g.
Proof.
  intros [Hi Hf]. pose proof Hi as [Hr Hn Hb Hs Hh Hcl Hid Hsh Hp He]. assert (Hsame : inv t (after s (sem s) []) q n g) by (split; [by apply rouse_inv0|by apply rouse_awake]).
  unfold try_acquire. destruct (N.eqb_spec c 0) as [->|Hc0].
  { destruct Hsame as [[] Hf']. split; [|exact Hf']. split; simpl in *; try done; rewrite ?total_app; simpl; [lia|]. intros Hc Hm. specialize (He Hc). lia. }
  destruct (closed (st_of s)) eqn:Hclosed; [done|]. case_bool_decide as Hhd; [done|]. destruct (N.leb_spec c (permits (st_of s))) as [Hle|]; [|done].
  split; [apply permits_inv0; [done|done|rewrite total_app; simpl; lia|rewrite total_app; simpl; lia]|]. intros _ k x q' fid ->. rewrite (linked_head _ _ _ _ Hr) in Hhd. destruct Hhd. simpl. eauto.
Qed.

(** *** A future leaves *)

(** The futures after [fid] gave up its place. *)
Definition left_futures s (fid : N) (fs : gmap N AcquireFuture) : Prop :=
  (∀ j, j ≠ fid → fs !! j = futures s !! j) ∧ ∀ f, fs !! fid = Some f → af_waiter f = None.

Lemma sem_left_insert s fid f : af_waiter f = None → left_futures s fid (<[fid := f]> (futures s)).
Proof. intros Hf. split; [intros j Hj; by rewrite lookup_insert_ne|]. intros f'. rewrite lookup_insert_eq. by intros [= <-]. Qed.

Lemma sem_left_delete s fid : left_futures s fid (delete fid (futures s)).
Proof. split; [intros j Hj; by rewrite lookup_delete_ne|]. intros f. by rewrite lookup_delete_eq. Qed.

Lemma left_futures_by s fid fs : left_futures s fid fs → left_by (waiting s) fid ((λ f, h_id <$> af_waiter f) <$> fs).
Proof.
  intros [Hne Hself]. split.
  - intros j Hj. unfold waiting. by rewrite !lookup_fmap, Hne.
  - intros id. rewrite lookup_fmap. destruct (fs !! fid) as [f|]; simpl; [|done]. by rewrite (Hself f).
Qed.

Lemma left_futures_some s fid fs j f h : left_futures s fid fs → fs !! j = Some f → af_waiter f = Some h → j ≠ fid ∧ futures s !! j = Some f.
Proof.
  intros [Hne Hself] Hf Hh. destruct (decide (j = fid)) as [->|Hj]; [by rewrite (Hself f Hf) in Hh|]. by rewrite <-Hne.
Qed.

Lemma left_futures_idle t s q n g fid fs : inv0 t s q n g → left_futures s fid fs → ∀ j f, fs !! j = Some f → af_completed f = true ∨ af_count f = 0 → af_waiter f = None.
Proof.
  intros Hi [Hne Hself] j f Hf Hc. destruct (decide (j = fid)) as [->|Hj]; [by apply Hself|]. rewrite Hne in Hf by done. by eapply i_idle.
Qed.

Lemma waiting_handle s fid f h : futures s !! fid = Some f → af_waiter f = Some h → waiting s !! fid = Some (Some (h_id h)).
Proof. intros Hf Hh. unfold waiting. by rewrite lookup_fmap, Hf; simpl; rewrite Hh. Qed.

Definition gone s m fid fs : System := set_futures (after s m []) fs (last_waker s) (asleep s ∖ {[fid]}).

Lemma with_same s : with_state (sem s) (st_of s) = sem s.
Proof. by destruct (sem s). Qed.

(** A queued future leaves. *)
Lemma leave_queued t s q1 k x q2 n fid f fs st' : inv0 t s (q1 ++ (k, x) :: q2) n [] → closed (st_of s) = false → futures s !! fid = Some f →
  af_waiter f = Some (mkHandle k (w_id x)) → left_futures s fid fs → sem_rep st' (q1 ++ q2) → same (st_of s) st' →
  inv0 t (gone s (with_state (sem s) st') fid fs) (q1 ++ q2) n [].
Proof.
  intros Hi Hc Hf Hh Hl Hr' (Hs1 & Hs2 & Hs3). pose proof Hi as [Hr Hn Hb Hs Hhd Hcl Hid Hsh Hp He]. pose proof (waiting_handle s fid f _ Hf Hh) as Hw. simpl in Hw.
  pose proof (ids_nodup _ _ _ _ _ _ Hs) as Hnd. split; simpl; rewrite ?Hs1, ?Hs2, ?Hs3; try done.
  - pose proof (side_leave_queued _ _ _ _ _ _ _ fid _ Hs (left_futures_by s fid fs Hl) Hw (not_elem_of_nil _)) as Hside.
    assert (E : without (w_id x) (q1 ++ (k, x) :: q2).*2 = (q1 ++ q2).*2) by (rewrite (fmap_app _ q1) in Hnd; rewrite !(fmap_app _ q1); exact (proj1 (without_middle _ _ _ Hnd))). by rewrite E in Hside.
  - intros j f' h Hf' Hh' _. destruct (left_futures_some s fid fs j f' h Hl Hf' Hh') as [Hj Hfj]. destruct (Hhd j f' h Hfj Hh' Hc) as (y & Hy & Hyi & Hyt). exists y. split; [|done].
    rewrite !elem_of_app, elem_of_cons in *. destruct Hy as [?|[[= _ ->]|?]]; [by left| |by right]. destruct Hj. eapply (side_unique _ _ _ _ _ _ Hs); [|exact Hw]. rewrite Hyi. by eapply waiting_handle.
  - by rewrite Hc in *.
  - by eapply left_futures_idle.
Qed.

(** A future that is not in the queue leaves. *)
Lemma leave_unqueued t s q n g fid f fs : inv0 t s q n g → futures s !! fid = Some f → closed (st_of s) = true ∨ af_waiter f = None → left_futures s fid fs →
  ∃ g', inv0 t (gone s (sem s) fid fs) q n g'.
Proof.
  intros Hi Hf Hcase Hl. pose proof Hi as [Hr Hn Hb Hs Hhd Hcl Hid Hsh Hp He]. assert (Hgoal : ∀ g', side ((λ f, h_id <$> af_waiter f) <$> fs) (last_waker s) (asleep s ∖ {[fid]}) q.*2 n g' →
    (closed (st_of s) = false → g' = []) → inv0 t (gone s (sem s) fid fs) q n g').
  { intros g' Hside Hg'. split; simpl; try done; [|destruct (closed (st_of s)); [done|by apply Hg']|by eapply left_futures_idle].
    intros j f' h Hf' Hh' Hc. destruct (left_futures_some s fid fs j f' h Hl Hf' Hh') as [Hj Hfj]. by apply (Hhd j). }
  pose proof (left_futures_by s fid fs Hl) as Hlb. destruct (af_waiter f) as [h|] eqn:Hh.
  - destruct Hcase as [Hc|]; [|done]. rewrite Hc in Hcl. destruct Hcl as [-> _]. pose proof (waiting_handle s fid f h Hf Hh) as Hw. pose proof (side_waits _ _ _ _ _ _ Hs _ _ Hw) as Hin.
    rewrite app_nil_r in Hin. apply list_elem_of_split in Hin as (g1 & g2 & ->). exists (g1 ++ g2). apply Hgoal; [|congruence]. by eapply side_leave_granted.
  - exists g. apply Hgoal; [|by intros Hc; rewrite Hc in Hcl]. eapply side_leave_none; [done|done|]. intros id. unfold waiting. rewrite lookup_fmap, Hf. simpl. by rewrite Hh.
Qed.

Lemma gone_awake s q m fid fs : front_awake s q → closed (state m) = closed (st_of s) → permits (state m) = permits (st_of s) → left_futures s fid fs → front_awake (gone s m fid fs) q.
Proof.
  intros Hf Hc Hp Hl Hcl k x q' j Hq Hx Hw. simpl in *. intros [Ha Hj]%elem_of_difference. rewrite Hc in Hcl. rewrite Hp in Hx. eapply (Hf Hcl k x q' j Hq Hx); [|done].
  by apply (left_waits _ _ _ _ _ (left_futures_by s fid fs Hl)) in Hw as [_ ?].
Qed.

Lemma acquire_drop_inv t s q n g fid f fs : inv t s q n g → futures s !! fid = Some f → left_futures s fid fs →
  ∃ m ws q' g', acquire_drop (sem s) f = Returns (m, ws) ∧
    inv t (set_futures (after s m ws) fs (last_waker s) (roused (last_waker s) (asleep s) ws ∖ {[fid]})) q' n g'.
Proof.
  intros [Hi Hf] Hfid Hl. pose proof Hi as [Hr Hn Hb Hs Hhd Hcl Hid Hsh Hp He]. unfold acquire_drop. destruct (af_waiter f) as [h|] eqn:Hh.
  2: { destruct (leave_unqueued t s q n g fid f fs Hi Hfid (or_intror Hh) Hl) as (g' & Hg). eexists _, _, q, g'. split; [done|]. rewrite roused_nil. split; [exact Hg|by apply gone_awake]. }
  destruct (closed (st_of s)) eqn:Hc.
  - destruct (leave_unqueued t s q n g fid f fs Hi Hfid (or_introl Hc) Hl) as (g' & Hg). destruct Hcl as [-> _]. rewrite remove_absent by done. cbn [mbind run_bind].
    eexists _, _, [], g'. split; [done|]. rewrite with_same. simpl. rewrite roused_nil. split; [exact Hg|by apply gone_awake].
  - subst g. destruct (Hhd fid f h Hfid Hh eq_refl) as (x & Hx & Hxi & Hxt). destruct h as [k id]. simpl in *. subst id. apply list_elem_of_split in Hx as (q1 & q2 & ->).
    destruct (unqueue_rep _ q1 k x q2 Hr) as (st' & -> & Hr' & Hsame). cbn [mbind run_bind]. eexists _, _, (q1 ++ q2), []. split; [done|].
    pose proof (leave_queued t s q1 k x q2 n fid f fs st' Hi Hc Hfid Hh Hl Hr' Hsame) as Hi'. rewrite <-roused_leave. set (ws := option_list _).
    split; [exact (rouse_inv0 _ _ _ _ _ ws Hi')|]. intros _ k' y q' j Hq Hx Hw. simpl in *. destruct Hsame as (Hs1 & _). rewrite Hs1 in Hx. destruct q1 as [|[k0 y0] q1]; simpl in *.
    + eapply (front_roused _ _ _ _ _ _ (permits (st_of s))); [apply (i_side _ _ _ _ _ Hi')|exact Hq|done|done|done].
    + intros Ha%roused_sub. revert Ha. injection Hq as [= -> ->]. eapply (gone_awake s _ (sem s) fid fs); [exact Hf|done|done|done|done|done|exact Hx|exact Hw].
Qed.

(** *** Polling *)

Lemma sem_inv_weaken t s q n g : inv t s q n g → inv (t + 1) s q n g.
Proof. intros [Hi Hf]. split; [by apply inv0_weaken|done]. Qed.

(** A poll that ends with an error outside the queue. *)
Lemma poll_error_inv t s q n g fid f f' e waker : inv t s q n g → futures s !! fid = Some f → closed (st_of s) = true ∨ af_waiter f = None → af_waiter f' = None →
  ∃ g', inv t (polled s fid waker (sem s) f' (Ready (Err e)) []) q n g'.
Proof.
  intros [Hi Hf] Hfid Hc Hf'. destruct (leave_unqueued t s q n g fid f _ Hi Hfid Hc (sem_left_insert s fid f' Hf')) as (g' & Hg). exists g'. unfold polled. simpl. rewrite roused_nil.
  split; [|apply (gone_awake s q (sem s)); [done|done|done|by apply sem_left_insert]]. unfold gone in Hg. unfold after in Hg. rewrite roused_nil in Hg. unfold after. rewrite roused_nil. exact Hg.
Qed.

(** A permit for nothing. *)
Lemma poll_zero_inv t s q n g fid f f' b waker : inv t s q n g → futures s !! fid = Some f → af_waiter f = None → af_waiter f' = None →
  ∃ g', inv t (polled s fid waker (sem s) f' (Ready (Ok (mkPermit 0 b))) []) q n g'.
Proof.
  intros Hi Hfid Hf Hf'. destruct (poll_error_inv t s q n g fid f f' AcquireClosed waker Hi Hfid (or_intror Hf) Hf') as (g' & [Hg Hfa]). exists g'. split; [|exact Hfa].
  destruct Hg. split; simpl in *; try done; rewrite ?total_app; simpl; [lia|]. intros Hc Hm. rewrite N.add_0_r in Hm. specialize (i_exact0 Hc Hm). lia.
Qed.

(** A future that is next in line and whose demand can be met takes its permits. *)
Lemma poll_take_inv t s q n g fid f waker : inv t s q n g → futures s !! fid = Some f → closed (st_of s) = false → af_count f ≤ permits (st_of s) →
  match af_waiter f with None => q = [] | Some h => ∃ x q2, q = (h_slot h, x) :: q2 ∧ w_id x = h_id h end →
  let m := take_permits (sem s) (af_count f) in
  ∃ st' q' g', (match af_waiter f with Some _ => '(st, _) ← pop_front_waiter (state m); Returns st | None => Returns (state m) end) = Returns st' ∧
    inv t (polled s fid waker (with_state m st') (mkAcquire (af_count f) None true) (Ready (Ok (mkPermit (af_count f) true))) (option_list (front_waiter_waker_if_runnable st'))) q' n g'.
Proof.
  intros [Hi Hf] Hfid Hc Hle Hnext m. pose proof Hi as [Hr Hn Hb Hs Hhd Hcl Hid Hsh Hp He]. rewrite Hc in Hcl. subst g. set (d := mkAcquire (af_count f) None true).
  set (s1 := set_held (after s m []) (held s ++ [mkPermit (af_count f) true]) 0 0).
  assert (Hi1 : inv0 t s1 q n []) by (apply permits_inv0; [done|done|rewrite total_app; simpl; lia|rewrite total_app; simpl; lia]).
  assert (Hrest : ∀ st' q' g' , sem_rep st' q' → inv0 t (gone s1 (with_state m st') fid (<[fid := d]> (futures s))) q' n g' →
    inv t (polled s fid waker (with_state m st') d (Ready (Ok (mkPermit (af_count f) true))) (option_list (front_waiter_waker_if_runnable st'))) q' n g').
  { intros st' q' g' Hr' Hi'. rewrite (front_runnable st' q' Hr'). set (ws := option_list _). apply (rouse_inv0 _ _ _ _ _ ws) in Hi' as Hi2.
    assert (E : polled s fid waker (with_state m st') d (Ready (Ok (mkPermit (af_count f) true))) ws =
       after (gone s1 (with_state m st') fid (<[fid := d]> (futures s))) (sem (gone s1 (with_state m st') fid (<[fid := d]> (futures s)))) ws).
    { unfold polled, after, gone, set_held, set_futures, s1. simpl. rewrite roused_nil, roused_leave. done. }
    rewrite E. split; [exact Hi2|]. intros _ k x q2 j Hq Hx Hw. eapply (front_roused _ _ _ _ _ _ (permits st')); [apply (i_side _ _ _ _ _ Hi')|exact Hq|exact Hx|done|exact Hw]. }
  destruct (af_waiter f) as [[k id]|] eqn:Hh; simpl in Hnext.
  - destruct Hnext as (x & q2 & -> & <-). destruct (pop_rep (state m) k x q2) as (st' & w & -> & Hr' & Hsame); [exact Hr|]. cbn [mbind run_bind]. eexists st', q2, []. split; [done|].
    apply Hrest; [done|]. apply (leave_queued t s1 [] k x q2 n fid f); [exact Hi1|exact Hc|exact Hfid|exact Hh|by apply (sem_left_insert s1)|exact Hr'|exact Hsame].
  - subst q. destruct (leave_unqueued t s1 [] n [] fid f (<[fid := d]> (futures s)) Hi1 Hfid (or_intror Hh)) as (g' & Hg); [by apply (sem_left_insert s1)|].
    eexists _, [], g'. split; [done|]. apply Hrest; [exact Hr|]. exact Hg.
Qed.

(** Otherwise it waits. *)
Lemma poll_wait_inv t s q n g fid f waker : inv t s q n g → t < u64_MAX → futures s !! fid = Some f → closed (st_of s) = false → af_completed f = false → af_count f ≠ 0 →
  (match af_waiter f with None => q = [] | Some h => ∃ x q2, q = (h_slot h, x) :: q2 ∧ w_id x = h_id h end → permits (st_of s) < af_count f) →
  ∃ m f' q' n', wait (sem s) f waker = Returns (m, f') ∧ inv (t + 1) (polled s fid waker m f' Pending []) q' n' [] ∧
    permits (state m) = permits (st_of s) ∧ (w_id <$> q'.*2) = (w_id <$> q.*2) ++ (if af_waiter f then [] else [n]).
Proof.
  intros [Hi Hf] Ht Hfid Hc Hcf Hc0 Hless. pose proof Hi as [Hr Hn Hb Hs Hhd Hcl Hid Hsh Hp He]. rewrite Hc in Hcl. subst g. unfold wait. destruct (af_waiter f) as [h|] eqn:Hh.
  - destruct (Hhd fid f h Hfid Hh Hc) as (x & Hx & Hxi & Hxt). destruct h as [k id]. simpl in *. subst id. pose proof (waiting_handle s fid f _ Hfid Hh) as Hw. simpl in Hw.
    destruct (renew_rep (st_of s) q k x waker Hr (ids_nodup _ _ _ _ _ _ Hs) Hx) as (st' & -> & Hr' & Hs1 & Hs2 & Hs3).
    assert (Hsnd : (prod_map id (set_waker (w_id x) waker) <$> q).*2 = set_waker (w_id x) waker <$> q.*2) by (rewrite <-!list_fmap_compose; apply list_fmap_ext; by intros i []).
    assert (Hst : ∀ y : Waiting N, w_id (set_waker (w_id x) waker y) = w_id y ∧ w_tag (set_waker (w_id x) waker y) = w_tag y) by (intros y; unfold set_waker; by destruct (_ =? _)).
    exists (with_state (sem s) st'), f, (prod_map id (set_waker (w_id x) waker) <$> q), n. split_and!; [done| |done|by rewrite Hsnd, set_waker_ids, app_nil_r].
    unfold polled. cbn [futures after]. rewrite insert_id by done. split.
    + split; simpl; rewrite ?Hs1, ?Hs2, ?Hs3; try done; [lia| | |by rewrite Hc]; rewrite ?roused_nil.
      * rewrite Hsnd. apply side_renew; [done|done|apply not_elem_of_nil].
      * intros j f' h Hj Hhj Hcj. destruct (Hhd j f' h Hj Hhj Hcj) as (y & Hy & Hyi & Hyt). exists (set_waker (w_id x) waker y). destruct (Hst y) as [-> ->]. split; [|done].
        apply list_elem_of_fmap. by exists (h_slot h, y).
    + intros _ k' y q' j Hq Hy Hwj. simpl in *. rewrite Hs1 in Hy. rewrite roused_nil. destruct q as [|[k0 x0] q0]; [done|]. simpl in Hq. injection Hq as <- <- <-. destruct (Hst x0) as [E1 E2]. rewrite E1 in Hwj. rewrite E2 in Hy.
      assert (Hj : j ≠ fid). { intros ->. assert (Hid0 : w_id x0 = w_id x) by (unfold waiting in Hw, Hwj; simpl in *; congruence). assert (Hk : k0 = k) by (apply (slot_iff_id _ k x k0 x0 (linked_nodup _ _ _ _ Hr) (ids_nodup _ _ _ _ _ _ Hs) Hx); [left|done]).
        subst k0. assert (permits (st_of s) < af_count f) by (apply Hless; eauto). assert (w_tag x0 = w_tag x); [|lia].
        destruct (node_at _ _ k x Hr Hx) as (w1 & Hw1 & <-), (node_at _ _ k x0 Hr) as (w2 & Hw2 & <-); [left|]. congruence. }
      assert (j ∉ asleep s); [|set_solver]. by eapply (Hf Hc k0 x0 q0).
  - destruct (enqueue_rep (st_of s) q (af_count f) waker Hr) as (st' & k & -> & Hr' & Hs1 & Hs2 & Hs3); [lia|]. cbn [mbind run_bind]. rewrite Hn in *.
    assert (Hno : ∀ i, waiting s !! fid ≠ Some (Some i)) by (intros i; unfold waiting; rewrite lookup_fmap, Hfid; simpl; by rewrite Hh).
    exists (with_state (sem s) st'), (mkAcquire (af_count f) (Some (mkHandle k n)) (af_completed f)), (q ++ [(k, mkWaiting n waker (af_count f))]), (n + 1).
    split_and!; [done| |done|by rewrite !fmap_app]. unfold polled. cbn [futures after].
    split.
    + split; simpl; rewrite ?Hs1, ?Hs2, ?Hs3; try done; [lia| | |by rewrite Hc|]; rewrite ?roused_nil.
      * unfold waiting. simpl. rewrite fmap_insert, fmap_app. simpl. by apply side_enqueue.
      * intros j f' h. rewrite lookup_insert_Some. intros [[<- <-]|[Hne Hj]] Hhj Hcj; simpl in *; [injection Hhj as <-; eexists; split; [apply elem_of_app; right; left|done]|].
        destruct (Hhd j f' h Hj Hhj Hcj) as (y & Hy & Hyi). exists y. split; [apply elem_of_app; by left|done].
      * intros j f'. rewrite lookup_insert_Some. intros [[<- <-]|[Hne Hj]]; simpl; [intros [?|?]; congruence|by apply (Hid j)].
    + intros _ k' y q' j Hq Hy Hwj. simpl in *. rewrite Hs1 in Hy. rewrite roused_nil. unfold waiting in Hwj. simpl in Hwj. rewrite fmap_insert in Hwj. simpl in Hwj.
      destruct q as [|[k0 x0] q0]; simpl in Hq; injection Hq as <- <- <-; [simpl in Hy; specialize (Hless eq_refl); lia|].
      assert (Hlt : w_id x0 < n) by (apply (side_below _ _ _ _ _ _ Hs); left). destruct (decide (j = fid)) as [->|Hj]; [rewrite lookup_insert_eq in Hwj; injection Hwj as Hwj; lia|].
      rewrite lookup_insert_ne in Hwj by done. assert (j ∉ asleep s); [|set_solver]. by eapply (Hf Hc k0 x0 q0).
Qed.

Lemma next_in_line st q f : sem_rep st q → (∀ h, af_waiter f = Some h → ∃ x, (h_slot h, x) ∈ q ∧ w_id x = h_id h ∧ w_tag x = af_count f) →
  (match af_waiter f with None => negb (bool_decide (is_Some (waiter_head st))) | Some h => is_front_waiter st h end = true ↔
   match af_waiter f with None => q = [] | Some h => ∃ x q2, q = (h_slot h, x) :: q2 ∧ w_id x = h_id h end).
Proof.
  intros Hr Hhd. destruct (af_waiter f) as [[k id]|] eqn:Hh; simpl.
  - destruct (Hhd _ eq_refl) as (x & Hx & Hxi & Hxt). simpl in *. subst id. rewrite (front_iff st q k x Hr Hx), bool_decide_eq_true. split.
    + destruct q as [|[k0 x0] q2]; [done|]. simpl. intros [= ->]. exists x0, q2. split; [done|]. destruct (node_at st _ k x Hr Hx) as (w1 & Hw1 & <-), (node_at st _ k x0 Hr) as (w2 & Hw2 & <-); [left|]. congruence.
    + by intros (y & q2 & -> & _).
  - rewrite (linked_head _ _ _ _ Hr), negb_true_iff, bool_decide_eq_false. destruct q as [|e q]; simpl; split; [done|by intros _ []|intros Hn; destruct Hn; eauto|done].
Qed.

Lemma sem_poll_inv t s q n g fid f cancelled waker : inv t s q n g → t < u64_MAX → futures s !! fid = Some f →
  ∃ m f' r ws q' n' g', acquire_poll (sem s) f cancelled waker = Returns (m, f', r, ws) ∧ inv (t + 1) (polled s fid waker m f' r ws) q' n' g'.
Proof.
  intros Hinv Ht Hfid. pose proof Hinv as [Hi _]. pose proof Hi as [Hr Hn Hb Hs Hhd Hcl Hid Hsh Hp He]. unfold acquire_poll.
  destruct (af_completed f) eqn:Hcf.
  { destruct (poll_error_inv t s q n g fid f f AcquirePolledAfterCompletion waker Hinv Hfid) as (g' & Hg); [right; eauto|eauto|]. eexists _, _, _, _, q, n, g'. split; [done|]. by apply sem_inv_weaken. }
  destruct (N.eqb_spec (af_count f) 0) as [Hc0|Hc0].
  { destruct (poll_zero_inv t s q n g fid f (mkAcquire (af_count f) (af_waiter f) true) false waker Hinv Hfid) as (g' & Hg); [eauto|simpl; eauto|]. eexists _, _, _, _, q, n, g'. split; [done|]. by apply sem_inv_weaken. }
  destruct cancelled.
  { destruct (acquire_drop_inv t s q n g fid f (<[fid := mkAcquire (af_count f) None true]> (futures s)) Hinv Hfid) as (m & ws & q' & g' & -> & Hi'); [by apply sem_left_insert|].
    cbn [mbind run_bind]. eexists _, _, _, _, q', n, g'. split; [done|]. by apply sem_inv_weaken. }
  destruct (closed (st_of s)) eqn:Hc.
  { assert (Hst : (match af_waiter f with Some h => '(st, _) ← unlink_waiter (st_of s) h; Returns st | None => Returns (st_of s) end) = Returns (st_of s)).
    { destruct (af_waiter f); [|done]. destruct Hcl as [-> _]. by rewrite unlink_absent. }
    rewrite Hst. cbn [mbind run_bind]. rewrite with_same. destruct (poll_error_inv t s q n g fid f (mkAcquire (af_count f) None true) AcquireClosed waker Hinv Hfid) as (g' & Hg); [by left|done|].
    eexists _, _, _, _, q, n, g'. split; [done|]. by apply sem_inv_weaken. }
  pose proof (next_in_line (st_of s) q f Hr (λ h Hh, Hhd fid f h Hfid Hh eq_refl)) as Hnext. set (b := match af_waiter f with None => _ | Some _ => _ end) in *. destruct (b && (af_count f <=? permits (st_of s))) eqn:Hb2.
  - N_bools. destruct (poll_take_inv t s q n g fid f waker Hinv Hfid Hc H0 (proj1 Hnext H)) as (st' & q' & g' & -> & Hi'). cbn [mbind run_bind].
    eexists _, _, _, _, q', n, g'. split; [done|]. by apply sem_inv_weaken.
  - destruct (poll_wait_inv t s q n g fid f waker Hinv Ht Hfid Hc Hcf Hc0) as (m & f' & q' & n' & -> & Hi' & _).
    { intros Hq. apply Hnext in Hq. rewrite Hq in Hb2. simpl in Hb2. by apply N.leb_gt. }
    cbn [mbind run_bind]. eauto 10.
Qed.

(** *** Closing *)

Lemma close_inv t s q n g : inv t s q n g → let '(m, ws) := close (sem s) in ∃ g', inv t (after s m ws) [] n g'.
Proof.
  intros [Hi _]. pose proof Hi as [Hr Hn Hb Hs Hhd Hcl Hid Hsh Hp He]. exists (g ++ (w_id <$> q.*2)). split; [|by intros Hx].
  split; simpl; try done; [unfold sem_rep; simpl; rewrite view_empty; split; simpl; [constructor|by intros k []|done|done|done]| |lia].
  apply (side_grant _ _ _ q.*2 []); [by rewrite app_nil_r|]. intros x ([k y] & -> & Hy)%list_elem_of_fmap. destruct (node_at _ q k y Hr Hy) as (w & Hw & <-).
  apply (list_elem_of_fmap_2 wt_waker), view_values. exists k. by rewrite <-view_at.
Qed.

Lemma sem_inv_step t s q n g o : inv t s q n g → t < u64_MAX → enabled s o = true → ∃ s' q' n' g', sys_step s o = Returns s' ∧ inv (t + 1) s' q' n' g'.
Proof.
  intros Hinv Ht He. destruct o as [fid c|fid cancelled waker|fid|c|i|i|c|]; simpl in *.
  - apply bool_decide_eq_true in He. eexists _, q, n, g. split; [done|]. apply sem_inv_weaken. destruct Hinv as [[Hr Hn Hb Hs Hhd Hcl Hid Hsh Hp Hex] Hf].
    assert (Hw : waiting (set_futures s (<[fid := acquire c]> (futures s)) (last_waker s) (asleep s)) = <[fid := None]> (waiting s)) by (unfold waiting; simpl; by rewrite fmap_insert).
    assert (Hnone : waiting s !! fid = None) by (unfold waiting; by rewrite lookup_fmap, He). split.
    + split; rewrite ?Hw; simpl; try done; [by apply side_add| |].
      * intros j f h. rewrite lookup_insert_Some. intros [[_ <-]|[_ Hj]]; [done|by apply (Hhd j)].
      * intros j f. rewrite lookup_insert_Some. intros [[_ <-]|[_ Hj]]; [done|by apply (Hid j)].
    + intros Hc k x q' j Hq Hx. rewrite Hw. simpl. intros Hj. destruct (decide (j = fid)) as [->|Hne]; [by rewrite lookup_insert_eq in Hj|]. rewrite lookup_insert_ne in Hj by done. by eapply (Hf Hc k x q').
  - apply bool_decide_eq_true in He as [f Hf]. rewrite Hf. destruct (sem_poll_inv t s q n g fid f cancelled waker Hinv Ht Hf) as (m & f' & r & ws & q' & n' & g' & -> & Hi'). cbn [mbind run_bind]. eauto 8.
  - apply bool_decide_eq_true in He as [f Hf]. rewrite Hf. destruct (acquire_drop_inv t s q n g fid f _ Hinv Hf (sem_left_delete s fid)) as (m & ws & q' & g' & -> & Hi'). cbn [mbind run_bind].
    eexists _, q', n, g'. split; [done|]. by apply sem_inv_weaken.
  - pose proof (try_acquire_inv t s q n g c Hinv) as Hi'. destruct (try_acquire (sem s) c) as [m r]. eexists _, q, n, g. split; [done|]. by apply sem_inv_weaken.
  - apply bool_decide_eq_true in He as [p Hp]. rewrite Hp. pose proof (add_inv t s q n g (permit_count p) (delete i (held s)) 0 Hinv) as Hi'. rewrite (total_delete _ _ _ Hp) in Hi'. specialize (Hi' ltac:(lia)).
    unfold permit_drop. assert (Hd : (if 0 <? permit_count p then add_permits (sem s) (permit_count p) else (sem s, [])) = add_permits (sem s) (permit_count p)).
    { destruct (N.ltb_spec 0 (permit_count p)) as [|Hz]; [done|]. unfold add_permits. by replace (permit_count p) with 0 by lia. }
    rewrite Hd. destruct (add_permits (sem s) (permit_count p)) as [m ws]. eexists _, q, n, g. split; [done|]. by apply sem_inv_weaken.
  - apply bool_decide_eq_true in He as [p Hp]. rewrite Hp. eexists _, q, n, g. split; [done|]. apply sem_inv_weaken. destruct Hinv as [Hi Hf]. split; [|exact (rouse_awake s q [] Hf)].
    pose proof (total_delete _ _ _ Hp) as Htot. destruct (rouse_inv0 t s q n g [] Hi). split; simpl in *; try done; [lia|]. intros Hc Hm. rewrite N.add_0_r in Hm. specialize (i_exact0 Hc Hm). lia.
  - pose proof (add_inv t s q n g c (held s) c Hinv eq_refl) as Hi'. destruct (add_permits (sem s) c) as [m ws]. eexists _, q, n, g. split; [done|]. by apply sem_inv_weaken.
  - destruct (close_inv t s q n g Hinv) as (g' & Hi'). eexists _, [], n, g'. split; [done|]. by apply sem_inv_weaken.
Qed.

Lemma sem_reachable_inv k t s : reachable k t s → t ≤ u64_MAX → ∃ q n g, inv t s q n g.
Proof.
  induction 1 as [|t s o s' Hr IH He Hs]; intros Ht; [exists [], 0, []; apply sem_inv_new|]. destruct IH as (q & n & g & Hi); [lia|].
  destruct (sem_inv_step t s q n g o Hi) as (s2 & q' & n' & g' & E & Hi'); [lia|done|]. rewrite Hs in E. injection E as ->. eauto.
Qed.

(** *** The properties *)

(** C12: Permits are conserved.  In every interleaving of fewer than 2^64 steps the
    permits in the semaphore, in permits held and in forgotten ones never exceed what
    was supplied, and are exactly that while the semaphore is open and the supply fits
    a [usize]; the lock-free counters show the state; every operation returns. *)
Theorem semaphore_conserves_permits k t s : reachable k t s → t < u64_MAX →
  permits (st_of s) + total (held s) + forgotten s ≤ supplied s ∧
  (closed (st_of s) = false → supplied s ≤ usize_MAX → permits (st_of s) + total (held s) + forgotten s = supplied s) ∧
  available_permits (sem s) = permits (st_of s) ∧ is_closed (sem s) = closed (st_of s) ∧ (closed (st_of s) = true → permits (st_of s) = 0) ∧
  (∀ o, enabled s o = true → ∃ s', sys_step s o = Returns s').
Proof.
  intros Hr Ht. destruct (sem_reachable_inv k t s Hr) as (q & n & g & Hinv); [lia|]. pose proof Hinv as [[_ _ _ _ _ Hcl _ [Hs1 Hs2] Hp He] _]. split_and!; [done|done|done|done| |].
  - intros Hc. rewrite Hc in Hcl. by destruct Hcl.
  - intros o Ho. destruct (sem_inv_step t s q n g o Hinv Ht Ho) as (s' & _ & _ & _ & E & _). eauto.
Qed.

(** C20: No wake-up is lost.  A future sleeps only while the semaphore is open and
    somebody is at the front of the queue; and when the demand of the front waiter
    can be met, the future it belongs to is awake and gets its permits when polled. *)
Theorem semaphore_no_lost_wakeup k t s : reachable k t s → t < u64_MAX →
  (∀ fid, fid ∈ asleep s → closed (st_of s) = false ∧ ∃ slot w, waiter_head (st_of s) = Some slot ∧ slab_at (waiters (st_of s)) slot = Some w) ∧
  (∀ slot w, waiter_head (st_of s) = Some slot → slab_at (waiters (st_of s)) slot = Some w →
    ∃ fid f, futures s !! fid = Some f ∧ af_waiter f = Some (mkHandle slot (wt_id w)) ∧ af_count f = wt_count w ∧
      (wt_count w ≤ permits (st_of s) → fid ∉ asleep s ∧
        ∀ waker, ∃ m ws, acquire_poll (sem s) f false waker = Returns (m, mkAcquire (wt_count w) None true, Ready (Ok (mkPermit (wt_count w) true)), ws))).
Proof.
  intros Hr Ht. destruct (sem_reachable_inv k t s Hr) as (q & n & g & [Hi Hf]); [lia|]. pose proof Hi as [Hrep Hn Hb Hs Hhd Hcl Hid Hsh Hp He]. split.
  - intros fid Ha. destruct (side_sleeper _ _ _ _ _ _ _ Hs Ha) as (x & Hx & _). destruct (closed (st_of s)); [destruct Hcl as [-> _]; by apply not_elem_of_nil in Hx|]. split; [done|].
    destruct q as [|[slot y] q]; [by apply not_elem_of_nil in Hx|]. destruct (node_at _ _ slot y Hrep) as (w & Hw & _); [left|]. exists slot, w. by rewrite (linked_head _ _ _ _ Hrep).
  - intros slot w Hhead Hw. rewrite (linked_head _ _ _ _ Hrep) in Hhead. destruct q as [|[j x] q]; [done|]. injection Hhead as ->. destruct (node_at _ _ slot x Hrep) as (w' & Hw' & Hx); [left|].
    assert (w' = w) as -> by congruence. destruct (closed (st_of s)) eqn:Hc; [by destruct Hcl|]. destruct (side_queued _ _ _ _ _ _ Hs x) as (fid & Hfid & Hlw); [left|]. pose proof Hfid as Hfid'. unfold waiting in Hfid'.
    rewrite lookup_fmap in Hfid'. destruct (futures s !! fid) as [f|] eqn:Hff; [|done]. injection Hfid' as Hfh. destruct (af_waiter f) as [h|] eqn:Hh; [|done]. simpl in Hfh. injection Hfh as Hfh.
    destruct (Hhd fid f h Hff Hh eq_refl) as (y & Hy & Hyi & Hyt). assert (Hslot : h_slot h = slot).
    { apply (slot_iff_id _ slot x (h_slot h) y (linked_nodup _ _ _ _ Hrep) (ids_nodup _ _ _ _ _ _ Hs)); [left|done|congruence]. }
    destruct h as [sl id]. simpl in *. subst sl. assert (wt_id w = id) as <- by (by rewrite Hfh, <-Hx).
    assert (Hcount : af_count f = wt_count w). { destruct (node_at _ _ slot y Hrep Hy) as (w2 & Hw2 & Hy2). assert (w2 = w) as -> by congruence. rewrite <-Hyt, <-Hy2. done. }
    exists fid, f. split_and!; [done|done|done|]. intros Hle. assert (Htag : w_tag x = wt_count w) by (by rewrite <-Hx). split; [eapply Hf; [done|done|by rewrite Htag|done]|]. intros waker.
    assert (Hcf : af_completed f = false) by (destruct (af_completed f) eqn:E; [by rewrite (Hid fid f Hff (or_introl E)) in Hh|done]).
    assert (Hc0 : af_count f ≠ 0) by (intros E; by rewrite (Hid fid f Hff (or_intror E)) in Hh).
    destruct (poll_take_inv t s ((slot, x) :: q) n g fid f waker (conj Hi Hf) Hff Hc) as (st' & q' & g' & E & _); [lia|rewrite Hh; exists x, q; split; [done|by rewrite <-Hx]|].
    unfold acquire_poll. rewrite Hcf, (proj2 (N.eqb_neq _ _) Hc0), Hc, (proj2 (N.leb_le (af_count f) (permits (st_of s)))) by lia. rewrite Hh in E |- *.
    assert (Hfr : is_front_waiter (st_of s) (mkHandle slot (wt_id w)) = true).
    { assert (wt_id w = w_id x) as -> by (by rewrite <-Hx). rewrite (front_iff _ _ slot x Hrep) by left. by apply bool_decide_eq_true. }
    rewrite Hfr. simpl andb. cbn match. rewrite E. cbn [mbind run_bind]. rewrite Hcount. eauto.
Qed.

(** Nobody overtakes.  While the semaphore is open, somebody in the queue makes
    [try_acquire] fail, and a future that is not next in line stays pending when it is
    polled, however many permits there are: it keeps its place, or joins at the end. *)
Theorem semaphore_is_fifo k t s : reachable k t s → t < u64_MAX → closed (st_of s) = false →
  ∃ q n, sem_rep (st_of s) q ∧ (∀ c, 0 < c → q ≠ [] → try_acquire (sem s) c = (sem s, Err NoPermits)) ∧
  ∀ fid f waker, futures s !! fid = Some f → af_completed f = false → af_count f ≠ 0 → q ≠ [] → (h_id <$> af_waiter f) ≠ (w_id <$> head q.*2) →
    ∃ m f' q', acquire_poll (sem s) f false waker = Returns (m, f', Pending, []) ∧ sem_rep (state m) q' ∧ permits (state m) = permits (st_of s) ∧
      (w_id <$> q'.*2) = (w_id <$> q.*2) ++ (if af_waiter f then [] else [n]).
Proof.
  intros Hr Ht Hc. destruct (sem_reachable_inv k t s Hr) as (q & n & g & [Hi Hf]); [lia|]. pose proof Hi as [Hrep Hn Hb Hs Hhd Hcl Hid Hsh Hp He]. exists q, n. split_and!; [done|..].
  - intros c Hc0 Hq. unfold try_acquire. rewrite Hc. destruct (N.eqb_spec c 0); [lia|]. rewrite (linked_head _ _ _ _ Hrep). destruct q; [done|]. by rewrite bool_decide_true by (simpl; eauto).
  - intros fid f waker Hfid Hcf Hc0 Hq Hne. pose proof (next_in_line (st_of s) q f Hrep (λ h Hh, Hhd fid f h Hfid Hh Hc)) as Hnext.
    assert (Hno : ¬ match af_waiter f with None => q = [] | Some h => ∃ x q2, q = (h_slot h, x) :: q2 ∧ w_id x = h_id h end).
    { destruct (af_waiter f) as [h|]; [|done]. intros (x & q2 & -> & Hx). apply Hne. simpl. by rewrite Hx. }
    destruct (poll_wait_inv t s q n g fid f waker (conj Hi Hf) Ht Hfid Hc Hcf Hc0) as (m & f' & q' & n' & E & Hi' & Hpm & Hids); [done|].
    unfold acquire_poll. rewrite Hcf, (proj2 (N.eqb_neq _ _) Hc0), Hc. rewrite (not_true_is_false _ (λ H, Hno (proj1 Hnext H))). simpl andb. cbn match. rewrite E. cbn [mbind run_bind].
    exists m, f', q'. split_and!; [done|apply (i_rep _ _ _ _ _ (proj1 Hi'))|done|done].
Qed.

(** *** Schedules *)

Fixpoint sys_run s (os : list Op) : option System :=
  match os with
  | [] => Some s
  | o :: os => if enabled s o then match sys_step s o with Returns s => sys_run s os | _ => None end else None
  end.

Lemma sem_run_reachable k t s os s' : reachable k t s → sys_run s os = Some s' → reachable k (t + lenN os) s'.
Proof.
  revert t s. induction os as [|o os IH]; intros t s Hr; simpl; [intros [= <-]; unfold lenN; simpl; by rewrite N.add_0_r|].
  destruct (enabled s o) eqn:He; [|done]. destruct (sys_step s o) as [s1| |] eqn:Hs; [|done|done]. intros Hrun.
  rewrite len_cons, N.add_assoc. eapply IH; [by econstructor|done].
Qed.

End semaphore.
Arguments Semaphore _ : clear implicits.
Arguments System _ : clear implicits.

(** Three permits; one future takes two, a second wants two and waits, a third that
    wants one waits behind it; then the first permit is released. *)
Definition sem_schedule : list Op :=
  [OAcquire 1 2; OAcquire 2 2; OAcquire 3 1; OPoll 1 false 11; OPoll 2 false 12; OPoll 3 false 13; ORelease 0].
Definition sem_at (n : nat) : System (gmap N Waiter) := default (sys_new 3) (sys_run (sys_new 3) (take n sem_schedule)).

Lemma sem_at_reachable n : sys_run (St := gmap N Waiter) (sys_new 3) (take n sem_schedule) = Some (sem_at n) → reachable 3 (lenN (take n sem_schedule)) (sem_at n).
Proof. intros H. apply (sem_run_reachable 3 0 (sys_new 3)); [constructor|done]. Qed.

Lemma semaphore_conserves_permits_witness : permits (state (sem (sem_at 6))) + total (held (sem_at 6)) = 3 ∧ ∃ s', sys_step (sem_at 6) OClose = Returns s'.
Proof.
  destruct (semaphore_conserves_permits 3 6 (sem_at 6)) as (_ & He & _ & _ & _ & Hs); [apply (sem_at_reachable 6); by vm_compute|done|].
  split; [|by apply Hs]. specialize (He ltac:(by vm_compute) ltac:(by vm_compute)). assert (Hx : supplied (sem_at 6) = 3 ∧ forgotten (sem_at 6) = 0) by (by vm_compute). lia.
Defined.

Lemma semaphore_no_lost_wakeup_witness : 3 ∈ asleep (sem_at 7) ∧ ∃ fid f, futures (sem_at 7) !! fid = Some f ∧ fid ∉ asleep (sem_at 7) ∧
  ∃ m ws, acquire_poll (sem (sem_at 7)) f false 30 = Returns (m, mkAcquire 2 None true, Ready (Ok (mkPermit 2 true)), ws).
Proof.
  assert (Ha : 3 ∈ asleep (sem_at 7)) by (apply (bool_decide_unpack _); by vm_compute). split; [done|].
  destruct (semaphore_no_lost_wakeup 3 7 (sem_at 7)) as (_ & Hf); [apply (sem_at_reachable 7); by vm_compute|done|].
  destruct (Hf 0 (mkWaiter 0 2 12 None (Some 1))) as (fid & f & Hfid & _ & _ & Hp); [by vm_compute|by vm_compute|]. destruct Hp as [Hn Hp]; [by vm_compute|]. exists fid, f. split_and!; [done|done|apply Hp].
Defined.

Lemma semaphore_is_fifo_witness : permits (state (sem (sem_at 6))) = 1 ∧ ∃ m f', acquire_poll (sem (sem_at 6)) (mkAcquire 1 (Some (mkHandle 1 1)) false) false 13 = Returns (m, f', Pending, []).
Proof.
  split; [by vm_compute|]. destruct (semaphore_is_fifo 3 6 (sem_at 6)) as (q & n & Hr & _ & Hp); [apply (sem_at_reachable 6); by vm_compute|done|by vm_compute|].
  assert (Hq : head q.*1 = Some 0) by (rewrite <-(linked_head _ _ _ _ Hr); by vm_compute). destruct q as [|[k x] q]; [done|]. injection Hq as ->.
  destruct (node_at _ _ 0 x Hr) as (w & Hw & Hx); [left|]. assert (Hw' : slab_at (waiters (state (sem (sem_at 6)))) 0 = Some (mkWaiter 0 2 12 None (Some 1))) by (by vm_compute). rewrite Hw' in Hw. injection Hw as <-.
  destruct (Hp 3 (mkAcquire 1 (Some (mkHandle 1 1)) false) 13) as (m & f' & _ & E & _); [by vm_compute|done|done|done|by rewrite <-Hx|]. eauto.
Defined.
