(* ===== verification/Oneshot.v ===== *)
(** * The oneshot channel

    Models [src/channel/oneshot.rs]: a channel for one value with a two-phase send (a
    permit that is committed, aborted or dropped), a receiver future whose registered
    waker carries an identity, and notifications of closing in both directions.  Each
    critical section is a function on the shared state that returns the wakers to wake
    after the lock is released; the outcome of [cx.checkpoint()] is an argument.

    [System] adds the halves that Rust's ownership tracks (at most one sender or permit,
    one receiver, one receive future borrowing it), also futures that are leaked without
    running their destructor, and every interleaving.  The theorems: the value that was
    sent is in exactly one place, and nobody sleeps through an event it waits for, but for
    a receiver that sleeps in [poll_closed] and takes the value itself. *)

From S2P Require Import Prelude.

Notation Waker := N (only parsing).

Section oneshot.
Context {T : Type}.

Inductive SendError (A : Type) := SendDisconnected (v : A) | SendCancelled (v : A).
Inductive RecvError := RecvClosed | RecvCancelled | RecvPolledAfterCompletion.
Inductive TryRecvError := TryEmpty | TryClosed.

Record OneShotInner := mkInner {
  value : option T;
  sender_consumed : bool;
  receiver_dropped : bool;
  permit_outstanding : bool;
  waker : option Waker;
  waker_id : option N;
  next_waiter_id : N;
  sender_waker : option Waker;
  receiver_closed_waker : option Waker;
  cancellation_count : N;
  closed_reason : option string;
}.
Implicit Types i : OneShotInner.

Record RecvFuture := mkRecv { waiter_id : option N; completed : bool }.
Implicit Types f : RecvFuture.

Definition inner_new : OneShotInner := mkInner None false false false None None 0 None None 0 None.

Definition is_closed i : bool := sender_consumed i && negb (permit_outstanding i) && bool_decide (value i = None).
Definition is_ready i : bool := bool_decide (is_Some (value i)).

(** Field updates. *)
Definition set_sender i consumed permit : OneShotInner :=
  mkInner (value i) consumed (receiver_dropped i) permit (waker i) (waker_id i) (next_waiter_id i) (sender_waker i) (receiver_closed_waker i) (cancellation_count i) (closed_reason i).
Definition set_value i v : OneShotInner :=
  mkInner v (sender_consumed i) (receiver_dropped i) (permit_outstanding i) (waker i) (waker_id i) (next_waiter_id i) (sender_waker i) (receiver_closed_waker i) (cancellation_count i) (closed_reason i).
Definition set_waker i w id next : OneShotInner :=
  mkInner (value i) (sender_consumed i) (receiver_dropped i) (permit_outstanding i) w id next (sender_waker i) (receiver_closed_waker i) (cancellation_count i) (closed_reason i).
Definition set_closing i sw cw : OneShotInner :=
  mkInner (value i) (sender_consumed i) (receiver_dropped i) (permit_outstanding i) (waker i) (waker_id i) (next_waiter_id i) sw cw (cancellation_count i) (closed_reason i).
Definition set_reason i r : OneShotInner :=
  mkInner (value i) (sender_consumed i) (receiver_dropped i) (permit_outstanding i) (waker i) (waker_id i) (next_waiter_id i) (sender_waker i) (receiver_closed_waker i) (cancellation_count i) r.
Definition set_dropped i : OneShotInner :=
  mkInner (value i) (sender_consumed i) true (permit_outstanding i) (waker i) (waker_id i) (next_waiter_id i) (sender_waker i) (receiver_closed_waker i) (cancellation_count i) (closed_reason i).

Definition clear_waker i : OneShotInner := set_waker i None None (next_waiter_id i).
Definition take_waker i : OneShotInner * list Waker := (set_waker i None None (next_waiter_id i), option_list (waker i)).
Definition take_closed_waker i : OneShotInner * list Waker := (set_closing i (sender_waker i) None, option_list (receiver_closed_waker i)).
Definition record_cancellation i : OneShotInner :=
  mkInner (value i) (sender_consumed i) (receiver_dropped i) (permit_outstanding i) (waker i) (waker_id i) (next_waiter_id i) (sender_waker i) (receiver_closed_waker i)
    (saturating_add u64_MAX (cancellation_count i) 1) (closed_reason i).

(** Taking both wakers of the receiver. *)
Definition take_both i : OneShotInner * list Waker :=
  let '(i, w1) := take_waker i in let '(i, w2) := take_closed_waker i in (i, w1 ++ w2).

(** *** The sender *)

(** [Sender::reserve]: a permit, or the error; the sender is consumed. *)
Definition reserve i (cancelled : bool) : OneShotInner * list Waker * result () (SendError ()) :=
  if cancelled then
    let i := record_cancellation (set_sender i true false) in
    let '(i, ws) := take_both (set_reason i (Some "cancelled_reserve"%string)) in
    (i, ws, Err (SendCancelled () ()))
  else (set_sender i true true, [], Ok ()).

(** [SendPermit::send] *)
Definition permit_send i (v : T) : OneShotInner * list Waker * result () (SendError T) :=
  if receiver_dropped i then (clear_waker (set_sender i (sender_consumed i) false), [], Err (SendDisconnected T v))
  else
    let i := set_reason (set_sender (set_value i (Some v)) (sender_consumed i) false) None in
    let '(i, ws) := take_waker i in (i, ws, Ok ()).

Definition permit_gone i (reason : string) : OneShotInner * list Waker :=
  take_both (set_reason (record_cancellation (set_sender i (sender_consumed i) false)) (Some reason)).
Definition abort i : OneShotInner * list Waker := permit_gone i "abort"%string.
Definition permit_drop i (sent : bool) : OneShotInner * list Waker := if sent then (i, []) else permit_gone i "permit_drop"%string.

Definition send i (cancelled : bool) (v : T) : OneShotInner * list Waker * result () (SendError T) :=
  let '(i, ws, r) := reserve i cancelled in
  match r with
  | Ok _ => let '(i, ws', r) := permit_send i v in (i, ws ++ ws', r)
  | Err (SendCancelled _ _) => (i, ws, Err (SendCancelled T v))
  | Err (SendDisconnected _ _) => (i, ws, Err (SendDisconnected T v))
  end.
Definition send_blocking i (v : T) : OneShotInner * list Waker * result () (SendError T) := permit_send (set_sender i true true) v.

Definition sender_is_closed i : bool := receiver_dropped i.
Definition sender_poll_closed i (w : Waker) : OneShotInner * poll () :=
  if receiver_dropped i then (i, Ready ()) else (set_closing i (Some w) (receiver_closed_waker i), Pending).

Definition sender_drop i : OneShotInner * list Waker :=
  if sender_consumed i then (i, []) else take_both (set_reason (set_sender i true (permit_outstanding i)) (Some "sender_drop"%string)).

(** *** The receiver *)

Definition owns_slot f i : bool := match waiter_id f with Some id => bool_decide (waker_id i = Some id) | None => false end.

Definition register i f (w : Waker) : OneShotInner * RecvFuture :=
  if owns_slot f i then
    match waker i with
    | Some existing => (if negb (existing =? w) then set_waker i (Some w) (waker_id i) (next_waiter_id i) else i, f)
    | None => (set_waker i (Some w) (waker_id i) (next_waiter_id i), f)
    end
  else
    let id := next_waiter_id i in
    (set_waker i (Some w) (Some id) (wrapping_add u64_MAX id 1), mkRecv (Some id) (completed f)).

(** [RecvFuture::poll]; [RecvUninterruptibleFuture::poll] does not ask the context. *)
Definition recv_poll i f (cancelled : bool) (w : Waker) : OneShotInner * RecvFuture * poll (result T RecvError) :=
  if completed f then (i, f, Ready (Err RecvPolledAfterCompletion))
  else
    match value i with
    | Some v => (set_reason (clear_waker (set_value i None)) (Some "committed"%string), mkRecv None true, Ready (Ok v))
    | None =>
        if is_closed i then (clear_waker i, mkRecv None true, Ready (Err RecvClosed))
        else if cancelled then
          let i := if owns_slot f i then clear_waker i else i in
          (record_cancellation i, mkRecv None true, Ready (Err RecvCancelled))
        else let '(i, f) := register i f w in (i, f, Pending)
    end.

Definition recv_uninterruptible_poll i f (w : Waker) := recv_poll i f false w.

Definition recv_drop i f : OneShotInner := if owns_slot f i then clear_waker i else i.
Definition receiver_finished i f : bool := completed f || is_ready i || is_closed i.

Definition try_recv i : OneShotInner * result T TryRecvError :=
  match value i with
  | Some v => (set_reason (clear_waker (set_value i None)) (Some "committed"%string), Ok v)
  | None => if is_closed i then (clear_waker i, Err TryClosed) else (i, Err TryEmpty)
  end.

Definition receiver_poll_closed i (w : Waker) : OneShotInner * poll () :=
  if is_closed i then (i, Ready ()) else (set_closing i (sender_waker i) (Some w), Pending).

(** [Drop for Receiver]: the wakers and the value that is dropped. *)
Definition receiver_drop i : OneShotInner * list Waker * option T :=
  let j := clear_waker (set_reason (set_dropped i) (Some "receiver_drop"%string)) in
  (set_value (set_closing j None (receiver_closed_waker j)) None, option_list (sender_waker j), value i).

(** *** Telemetry *)

Record Snapshot := mkSnapshot { queued_messages : N; reserved_uncommitted_obligations : N; send_waiter_count : N; recv_waiter_count : N; receiver_health : string;
  snap_cancellations : N; snap_closed : bool; snap_reason : option string }.

Definition telemetry_snapshot i : Snapshot :=
  let recv_waiters := N.b2n (bool_decide (is_Some (waker i))) + N.b2n (bool_decide (is_Some (receiver_closed_waker i))) in
  let closed := receiver_dropped i || (sender_consumed i && negb (permit_outstanding i) && bool_decide (value i = None)) in
  let health :=
    (if receiver_dropped i then "receiver_dropped"
     else if bool_decide (is_Some (value i)) then "value_ready"
     else if is_closed i then "sender_closed"
     else if (0 <? recv_waiters)%N then "waiting" else "open")%string in
  mkSnapshot (N.b2n (bool_decide (is_Some (value i)))) (N.b2n (permit_outstanding i)) (N.b2n (bool_decide (is_Some (sender_waker i)))) recv_waiters health
    (cancellation_count i) closed (if closed then closed_reason i else None).

(** *** Halves and interleavings *)

Inductive Half := HasSender | HasPermit | NoSender.

(** A task that sleeps: the waker of its last pending poll. *)
Record System := mkSystem {
  inner : OneShotInner;
  half : Half;
  receiver : bool;
  future : option RecvFuture;
  recv_sleeps : option Waker;
  sender_sleeps : option Waker;     (* in the sender's [poll_closed] *)
  closed_sleeps : option Waker;     (* in the receiver's [poll_closed] *)
  sent : option T;                  (* the value of a successful send *)
  received : list T;
  discarded : list T;               (* dropped with the receiver *)
}.
Implicit Types s : System.

Definition sys_new : System := mkSystem inner_new HasSender true None None None None None [] [].

Definition woken (sleeps : option Waker) (ws : list Waker) : option Waker :=
  match sleeps with Some w => if bool_decide (w ∈ ws) then None else Some w | None => None end.

Inductive Op :=
  | OReserve (cancelled : bool)
  | OSend (v : T)
  | OAbort (explicit : bool)
  | OSenderPollClosed (w : Waker)
  | OSenderDrop
  | ORecv
  | OPollRecv (cancelled : bool) (w : Waker)
  | ODropRecv (leak : bool)
  | OTryRecv
  | OReceiverPollClosed (w : Waker)
  | OReceiverDrop.

Definition enabled s (o : Op) : bool :=
  match o with
  | OReserve _ | OSenderPollClosed _ | OSenderDrop => match half s with HasSender => true | _ => false end
  | OSend _ | OAbort _ => match half s with HasPermit => true | _ => false end
  | ORecv | OTryRecv | OReceiverPollClosed _ | OReceiverDrop => receiver s && match future s with None => true | Some _ => false end
  | OPollRecv _ _ | ODropRecv _ => match future s with Some _ => true | None => false end
  end.

(** The sender's side acts: it is awake, and wakes the receiver. *)
Definition sender_acts s i h ws : System :=
  mkSystem i h (receiver s) (future s) (woken (recv_sleeps s) ws) None (woken (closed_sleeps s) ws) (sent s) (received s) (discarded s).

Definition sys_step s (o : Op) : System :=
  let i := inner s in
  match o with
  | OReserve cancelled =>
      let '(i, ws, r) := reserve i cancelled in sender_acts s i (match r with Ok _ => HasPermit | Err _ => NoSender end) ws
  | OSend v =>
      let '(i, ws, r) := permit_send i v in
      let s := sender_acts s i NoSender ws in
      match r with Ok _ => mkSystem (inner s) (half s) (receiver s) (future s) (recv_sleeps s) (sender_sleeps s) (closed_sleeps s) (Some v) (received s) (discarded s) | Err _ => s end
  | OAbort explicit => let '(i, ws) := (if explicit then abort i else permit_drop i false) in sender_acts s i NoSender ws
  | OSenderPollClosed w =>
      let '(i, r) := sender_poll_closed i w in
      mkSystem i (half s) (receiver s) (future s) (recv_sleeps s) (match r with Pending => Some w | Ready _ => None end) (closed_sleeps s) (sent s) (received s) (discarded s)
  | OSenderDrop => let '(i, ws) := sender_drop i in sender_acts s i NoSender ws
  | ORecv => mkSystem i (half s) (receiver s) (Some (mkRecv None false)) None (sender_sleeps s) (closed_sleeps s) (sent s) (received s) (discarded s)
  | OPollRecv cancelled w =>
      match future s with
      | None => s
      | Some f =>
          let '(i, f, r) := recv_poll i f cancelled w in
          mkSystem i (half s) (receiver s) (Some f) (match r with Pending => Some w | Ready _ => None end) (sender_sleeps s) (closed_sleeps s) (sent s)
            (match r with Ready (Ok v) => received s ++ [v] | _ => received s end) (discarded s)
      end
  | ODropRecv leak =>
      match future s with
      | None => s
      | Some f => mkSystem (if leak then i else recv_drop i f) (half s) (receiver s) None None (sender_sleeps s) (closed_sleeps s) (sent s) (received s) (discarded s)
      end
  | OTryRecv =>
      let '(i, r) := try_recv i in
      mkSystem i (half s) (receiver s) (future s) (recv_sleeps s) (sender_sleeps s) (closed_sleeps s) (sent s) (match r with Ok v => received s ++ [v] | Err _ => received s end) (discarded s)
  | OReceiverPollClosed w =>
      let '(i, r) := receiver_poll_closed i w in
      mkSystem i (half s) (receiver s) (future s) (recv_sleeps s) (sender_sleeps s) (match r with Pending => Some w | Ready _ => None end) (sent s) (received s) (discarded s)
  | OReceiverDrop =>
      let '(i, ws, v) := receiver_drop i in
      mkSystem i (half s) false None None (woken (sender_sleeps s) ws) None (sent s) (received s) (discarded s ++ option_list v)
  end.

Inductive reachable : N → System → Prop :=
  | reach_new : reachable 0 sys_new
  | reach_step t s o : reachable t s → enabled s o = true → reachable (t + 1) (sys_step s o).
(** *** The invariant *)

Definition half_ok i (h : Half) : Prop :=
  match h with
  | HasSender => sender_consumed i = false ∧ permit_outstanding i = false
  | HasPermit => sender_consumed i = true ∧ permit_outstanding i = true
  | NoSender => sender_consumed i = true ∧ permit_outstanding i = false
  end.

(** Where the value is: not sent, in the channel, received, or dropped. *)
Definition accounted s : Prop :=
  match sent s with
  | None => value (inner s) = None ∧ received s = [] ∧ discarded s = []
  | Some v => half s = NoSender ∧
      ((value (inner s) = Some v ∧ received s = [] ∧ discarded s = [] ∧ receiver s = true) ∨ (value (inner s) = None ∧ received s = [v] ∧ discarded s = []) ∨
       (value (inner s) = None ∧ received s = [] ∧ discarded s = [v] ∧ receiver s = false))
  end.

Record inv (t : N) s : Prop := {
  i_half : half_ok (inner s) (half s);
  i_account : accounted s;
  i_receiver : receiver_dropped (inner s) = negb (receiver s);
  i_next : next_waiter_id (inner s) ≤ t;
  i_slot : match waker_id (inner s) with Some id => id < next_waiter_id (inner s) ∧ is_Some (waker (inner s)) | None => waker (inner s) = None end;
  i_future f : future s = Some f → receiver s = true ∧ (completed f = true → waiter_id f = None) ∧ match waiter_id f with Some id => id < next_waiter_id (inner s) | None => True end;
  i_recv w : recv_sleeps s = Some w → ∃ f id, future s = Some f ∧ waiter_id f = Some id ∧ waker_id (inner s) = Some id ∧ waker (inner s) = Some w ∧
    value (inner s) = None ∧ is_closed (inner s) = false;
  i_sender w : sender_sleeps s = Some w → half s = HasSender ∧ receiver s = true ∧ sender_waker (inner s) = Some w;
  i_closing w : closed_sleeps s = Some w → receiver s = true ∧ receiver_closed_waker (inner s) = Some w ∧ (is_closed (inner s) = true → received s ≠ []);
}.

Lemma woken_some sl ws w : woken sl ws = Some w → sl = Some w ∧ w ∉ ws.
Proof. destruct sl as [x|]; simpl; [|done]. case_bool_decide; [done|]. by intros [= ->]. Qed.

Lemma closed_iff i : is_closed i = true ↔ sender_consumed i = true ∧ permit_outstanding i = false ∧ value i = None.
Proof. unfold is_closed. rewrite !andb_true_iff, negb_true_iff, bool_decide_eq_true. tauto. Qed.

Lemma oneshot_inv_new : inv 0 sys_new.
Proof. by split. Qed.

(** The sender's side finishes without a value: both wakers of the receiver are woken. *)
Lemma gone_inv t s i : inv t s → value i = value (inner s) → receiver_dropped i = receiver_dropped (inner s) → next_waiter_id i = next_waiter_id (inner s) →
  half s ≠ NoSender → sender_consumed i = true → permit_outstanding i = false → waker i = waker (inner s) → waker_id i = waker_id (inner s) → receiver_closed_waker i = receiver_closed_waker (inner s) →
  inv (t + 1) (sender_acts s (take_both i).1 NoSender (take_both i).2).
Proof.
  intros [H1 H2 H3 H4 H5 H6 H7 H8 H9] Ev Ed En Hh Ec Ep Ew Ei Ecw. assert (Hsent : sent s = None). { unfold accounted in H2. destruct (sent s); [|done]. by destruct H2 as [? _]. }
  split; simpl; rewrite ?Ed, ?En, ?Ev; try done; [| lia| |].
  - unfold accounted in *. simpl. rewrite Hsent in *. by rewrite Ev.
  - intros w [Hs Hn]%woken_some. destruct (H7 w Hs) as (f & id & _ & _ & _ & Hw & _). destruct Hn. apply elem_of_app. left. rewrite Ew, Hw. left.
  - intros w [Hs Hn]%woken_some. destruct (H9 w Hs) as (Hr & Hw & _). destruct Hn. apply elem_of_app. right. rewrite Ecw, Hw. left.
Qed.

Lemma reserve_step t s cancelled : inv t s → t < u64_MAX → enabled s (OReserve cancelled) = true → inv (t + 1) (sys_step s (OReserve cancelled)).
Proof.
  intros Hinv Ht He. pose proof Hinv as [H1 H2 H3 H4 H5 H6 H7 H8 H9]. simpl in He.
  destruct (half s) eqn:Hh; [|done..]. simpl. unfold reserve. destruct cancelled; [apply gone_inv; try done; by rewrite Hh|].
  assert (Hsent : sent s = None) by (unfold accounted in H2; destruct (sent s); [by destruct H2 as [? _]; congruence|done]). simpl in H1. destruct H1 as [H1 H1'].
  split; simpl; try done; [|lia| |].
  - unfold accounted in *. simpl. by rewrite Hsent in *.
  - intros w [Hs _]%woken_some. destruct (H7 w Hs) as (f & id & ? & ? & ? & ? & ? & ?). exists f, id. by split_and!.
  - intros w [Hs _]%woken_some. destruct (H9 w Hs) as (? & ? & ?). split_and!; try done.
Qed.

Lemma send_step t s v : inv t s → t < u64_MAX → enabled s (OSend v) = true → inv (t + 1) (sys_step s (OSend v)).
Proof.
  intros Hinv Ht He. pose proof Hinv as [H1 H2 H3 H4 H5 H6 H7 H8 H9]. simpl in He.
  destruct (half s) eqn:Hh; [done| |done]. assert (Hsent : sent s = None) by (unfold accounted in H2; destruct (sent s); [by destruct H2 as [? _]; congruence|done]).
  assert (Hacc := H2). unfold accounted in Hacc. rewrite Hsent in Hacc. destruct Hacc as (Hv & Hrc & Hdc). simpl in H1. destruct H1 as [Hc Hp]. simpl. unfold permit_send. rewrite H3. destruct (receiver s) eqn:Hrecv; simpl.
  - split; simpl; rewrite ?Hrecv; try done; [|lia| | ].
    + unfold accounted. simpl. split; [done|]. left. done.
    + intros w [Hs Hn]%woken_some. destruct (H7 w Hs) as (f & id & _ & _ & _ & Hw & _). destruct Hn. rewrite Hw. left.
    + intros w [Hs Hn]%woken_some. destruct (H9 w Hs) as (_ & ? & ?). split_and!; try done. unfold is_closed. simpl. by rewrite andb_false_r.
  - split; simpl; rewrite ?Hrecv; try done; [|lia| |].
    + unfold accounted. simpl. by rewrite Hsent.
    + intros w [Hs _]%woken_some. destruct (H7 w Hs) as (f & id & Hf & _). destruct (H6 f Hf). congruence.
    + intros w [Hs _]%woken_some. destruct (H9 w Hs) as [? _]. congruence.
Qed.

Lemma poll_recv_step t s cancelled w : inv t s → t < u64_MAX → enabled s (OPollRecv cancelled w) = true → inv (t + 1) (sys_step s (OPollRecv cancelled w)).
Proof.
  intros Hinv Ht He. pose proof Hinv as [H1 H2 H3 H4 H5 H6 H7 H8 H9]. simpl in He.
  destruct (future s) as [f|] eqn:Hf; [|done]. simpl. rewrite Hf. destruct (H6 f eq_refl) as (Hrecv & Hcf & Hid). unfold recv_poll. destruct (completed f) eqn:Hc.
  { split; simpl; try done; lia. }
  destruct (value (inner s)) as [v|] eqn:Hv.
  { split; simpl; try done; [|lia| |].
    - unfold accounted in *. simpl. destruct (sent s) as [v'|]; [|destruct H2; congruence]. destruct H2 as [Hh [(Hv' & Hrc & Hdc & _)|[(? & _)|(? & _)]]]; [|congruence..]. split; [done|]. right. left. rewrite Hrc. simpl. split_and!; [done|congruence|done].
    - intros f' [= <-]. done.
    - intros w' Hs. destruct (H9 w' Hs) as (? & ? & _). split_and!; [done|done|]. intros _. by destruct (received s). }
  destruct (is_closed (inner s)) eqn:Hclosed.
  { split; simpl; try done; [lia|intros f' [= <-]; done|]. intros w' Hs. destruct (H9 w' Hs) as (? & ? & Hx). split_and!; [done|done|]. intros _. by apply Hx. }
  assert (Hacc : ∀ j f' sl, value j = None → is_closed j = false → half_ok j (half s) → receiver_dropped j = receiver_dropped (inner s) → sender_waker j = sender_waker (inner s) → receiver_closed_waker j = receiver_closed_waker (inner s) →
    next_waiter_id j ≤ t + 1 → next_waiter_id (inner s) ≤ next_waiter_id j → match waker_id j with Some id => id < next_waiter_id j ∧ is_Some (waker j) | None => waker j = None end →
    (completed f' = true → waiter_id f' = None) → match waiter_id f' with Some id => id < next_waiter_id j | None => True end →
    (∀ w', sl = Some w' → ∃ id, waiter_id f' = Some id ∧ waker_id j = Some id ∧ waker j = Some w') →
    inv (t + 1) (mkSystem j (half s) (receiver s) (Some f') sl (sender_sleeps s) (closed_sleeps s) (sent s) (received s) (discarded s))).
  { intros j f' sl Ev Ecl Eh Ed Es Ecw En En' Eslot Ecomp Eid Esl. split; simpl; rewrite ?Ed, ?Es, ?Ecw; try done.
    - unfold accounted in *. simpl. rewrite Ev. by rewrite Hv in H2.
    - intros f0 [= <-]. done.
    - intros w' Hs. destruct (Esl w' Hs) as (id & ? & ? & ?). exists f', id. done.
    - intros w' Hs. destruct (H9 w' Hs) as (? & ? & Hx). split_and!; [done|done|congruence]. }
  destruct cancelled.
  { destruct (owns_slot f (inner s)); apply Hacc; simpl; try done; lia. }
  unfold register. unfold owns_slot. destruct (waiter_id f) as [id|] eqn:Hwid.
  - case_bool_decide as Hown.
    + assert (Hreg : ∀ j, j = inner s ∨ j = set_waker (inner s) (Some w) (waker_id (inner s)) (next_waiter_id (inner s)) → waker j = Some w →
        inv (t + 1) (mkSystem j (half s) (receiver s) (Some f) (Some w) (sender_sleeps s) (closed_sleeps s) (sent s) (received s) (discarded s))).
      { intros j [->| ->] Hwj; apply Hacc; simpl; try done; try lia; rewrite ?Hown, ?Hwid, ?Hwj in *; try done; try (by intros w' [= <-]; eauto); try (split; [by destruct H5|by eauto]); congruence. }
      destruct (waker (inner s)) as [x|] eqn:Hx; [destruct (N.eqb_spec x w) as [->|]; simpl|]; apply Hreg; auto.
    + rewrite wrapping_add_1 by lia. apply Hacc; simpl; try done; try lia; [split; [lia|eauto]|congruence|intros w' [= <-]; eauto].
  - rewrite wrapping_add_1 by lia. apply Hacc; simpl; try done; try lia; [split; [lia|eauto]|congruence|intros w' [= <-]; eauto].
Qed.

Lemma try_recv_step t s : inv t s → t < u64_MAX → enabled s OTryRecv = true → inv (t + 1) (sys_step s OTryRecv).
Proof.
  intros Hinv Ht He. pose proof Hinv as [H1 H2 H3 H4 H5 H6 H7 H8 H9]. simpl in He.
  apply andb_true_iff in He as [Hrecv Hf]. destruct (future s) eqn:Hfut; [done|]. simpl. unfold try_recv.
  assert (Hns : ∀ w, recv_sleeps s ≠ Some w) by (intros w Hs; destruct (H7 w Hs) as (f & id & ? & _); congruence).
  destruct (value (inner s)) as [v|] eqn:Hv; [|destruct (is_closed (inner s)) eqn:Hcl].
  - split; simpl; rewrite ?Hfut; try done; [|lia| |].
    + unfold accounted in *. simpl. destruct (sent s) as [v'|]; [|destruct H2; congruence]. destruct H2 as [Hh [(Hv' & Hrc & Hdc & _)|[(? & _)|(? & _)]]]; [|congruence..]. split; [done|]. right. left. rewrite Hrc. simpl. split_and!; [done|congruence|done].
    + intros w Hs. by destruct (Hns w).
    + intros w' Hs. destruct (H9 w' Hs) as (? & ? & _). split_and!; [done|done|]. intros _. by destruct (received s).
  - split; simpl; rewrite ?Hfut; try done; [lia| |].
    + intros w Hs. by destruct (Hns w).
    + intros w' Hs. destruct (H9 w' Hs) as (? & ? & Hx). split_and!; [done|done|]. intros _. by apply Hx.
  - split; simpl; rewrite ?Hfut; try done; [lia|intros w Hs; by destruct (Hns w)|]. intros w' Hs. destruct (H9 w' Hs) as (? & ? & Hx). split_and!; [done|done|congruence].
Qed.

Lemma receiver_drop_step t s : inv t s → t < u64_MAX → enabled s OReceiverDrop = true → inv (t + 1) (sys_step s OReceiverDrop).
Proof.
  intros Hinv Ht He. pose proof Hinv as [H1 H2 H3 H4 H5 H6 H7 H8 H9]. simpl in He.
  apply andb_true_iff in He as [Hrecv Hf]. destruct (future s) eqn:Hfut; [done|]. simpl. split; simpl; try done; [|lia|].
  - unfold accounted in *. simpl. destruct (sent s) as [v|].
    + destruct H2 as [Hh [(-> & -> & -> & _)|[(-> & -> & ->)|(-> & -> & -> & ?)]]]; (split; [done|]); [right; right; done|right; left; done|congruence].
    + destruct H2 as (-> & -> & ->). done.
  - intros w [Hs Hn]%woken_some. destruct (H8 w Hs) as (_ & _ & Hw). destruct Hn. rewrite Hw. left.
Qed.

Lemma oneshot_step t s o : inv t s → t < u64_MAX → enabled s o = true → inv (t + 1) (sys_step s o).
Proof.
  intros Hinv Ht He. pose proof Hinv as [H1 H2 H3 H4 H5 H6 H7 H8 H9]. destruct o as [cancelled|v|explicit|w| | |cancelled w|leak| |w|].
  - by apply reserve_step.
  - by apply send_step.
  - simpl in He. destruct (half s) eqn:Hh; [done| |done]. simpl in H1. destruct H1 as [Hc Hp]. simpl. unfold abort, permit_drop, permit_gone. destruct explicit; apply gone_inv; try done; by rewrite Hh.
  - simpl in He. destruct (half s) eqn:Hh; [|done..]. simpl. unfold sender_poll_closed. rewrite H3. destruct (receiver s) eqn:Hrecv; simpl.
    + split; simpl; rewrite ?Hh, ?Hrecv; try done; try lia; first [unfold accounted in *; simpl; by rewrite ?Hh, ?Hrecv in *|by intros w' [= <-]].
    + split; simpl; rewrite ?Hh, ?Hrecv; try done; try lia. unfold accounted in *; simpl; by rewrite ?Hh, ?Hrecv in *.
  - simpl in He. destruct (half s) eqn:Hh; [|done..]. simpl in H1. destruct H1 as [Hc Hp]. simpl. unfold sender_drop. rewrite Hc. apply gone_inv; try done; by rewrite Hh.
  - simpl in He. apply andb_true_iff in He as [Hrecv Hf]. destruct (future s) eqn:Hfut; [done|]. split; simpl; try done; [lia|]. intros f [= <-]. done.
  - by apply poll_recv_step.
  - simpl in He. destruct (future s) as [f|] eqn:Hf; [|done]. simpl. rewrite Hf. destruct leak; [|unfold recv_drop; destruct (owns_slot f (inner s))]; (split; simpl; try done; lia).
  - by apply try_recv_step.
  - simpl in He. apply andb_true_iff in He as [Hrecv Hf]. destruct (future s) eqn:Hfut; [done|]. simpl. unfold receiver_poll_closed. destruct (is_closed (inner s)) eqn:Hcl; simpl.
    + split; simpl; rewrite ?Hfut; try done; [lia|]. intros w' Hs. destruct (H7 w' Hs) as (f & id & ? & _). congruence.
    + assert (Hcl' : is_closed (set_closing (inner s) (sender_waker (inner s)) (Some w)) = false) by exact Hcl. split; simpl; rewrite ?Hfut; try done; [lia| |].
      * intros w' Hs. destruct (H7 w' Hs) as (f & id & ? & _). congruence.
      * intros w' [= <-]. split_and!; [done|done|congruence].
  - by apply receiver_drop_step.
Qed.

Lemma oneshot_reachable_inv t s : reachable t s → t ≤ u64_MAX → inv t s.
Proof. induction 1 as [|t s o Hr IH He]; intros Ht; [apply oneshot_inv_new|]. apply oneshot_step; [apply IH; lia|lia|done]. Qed.

(** *** The properties *)

(** C36: The value is delivered at most once and never lost silently.  In every
    interleaving of fewer than 2^64 steps a value whose send succeeded is in the channel,
    was received once, or was dropped with the receiver; nothing else is received; a send
    succeeds exactly when the receiver is alive and otherwise hands the value back; and
    a pending value is what the next poll or [try_recv] returns. *)
Theorem oneshot_delivers_once t s : reachable t s → t < u64_MAX →
  accounted s ∧
  (∀ v, half s = HasPermit → (permit_send (inner s) v).2 = if receiver s then Ok () else Err (SendDisconnected T v)) ∧
  (∀ v, value (inner s) = Some v → sent s = Some v ∧ received s = [] ∧ (try_recv (inner s)).2 = Ok v ∧
    ∀ f w c, future s = Some f → completed f = false → (recv_poll (inner s) f c w).2 = Ready (Ok v)).
Proof.
  intros Hr Ht. pose proof (oneshot_reachable_inv t s Hr ltac:(lia)) as [H1 H2 H3 H4 H5 H6 H7 H8 H9]. split_and!; [done|..].
  - intros v Hh. unfold permit_send. rewrite H3. by destruct (receiver s).
  - intros v Hv. pose proof H2 as Hacc. unfold accounted in Hacc. destruct (sent s) as [v'|]; [|destruct Hacc; congruence]. destruct Hacc as [_ [(Hv' & Hrc & _)|[(? & _)|(? & _)]]]; [|congruence..].
    split_and!; [congruence|done|unfold try_recv; by rewrite Hv|]. intros f w c Hf Hc. unfold recv_poll. by rewrite Hc, Hv.
Qed.

(** C37: Nobody but a receiver in [poll_closed] sleeps through an event.  A receive future that sleeps is registered with
    the waker of its last poll, the channel holds no value and the sender or its permit is
    still there; a sender that sleeps in [poll_closed] is registered and the receiver is
    alive; a receiver that sleeps in [poll_closed] is registered, and the channel is not
    closed unless the receiver took the value itself. *)
Theorem oneshot_no_lost_wakeup t s : reachable t s → t < u64_MAX →
  (∀ w, recv_sleeps s = Some w → waker (inner s) = Some w ∧ value (inner s) = None ∧ half s ≠ NoSender ∧ ∃ f, future s = Some f ∧ owns_slot f (inner s) = true) ∧
  (∀ w, sender_sleeps s = Some w → sender_waker (inner s) = Some w ∧ receiver s = true) ∧
  (∀ w, closed_sleeps s = Some w → receiver_closed_waker (inner s) = Some w ∧ (received s = [] → is_closed (inner s) = false)).
Proof.
  intros Hr Ht. pose proof (oneshot_reachable_inv t s Hr ltac:(lia)) as [H1 H2 H3 H4 H5 H6 H7 H8 H9]. split_and!.
  - intros w Hs. destruct (H7 w Hs) as (f & id & Hf & Hid & Hslot & Hw & Hv & Hcl). split_and!; [done|done| |exists f; split; [done|]; unfold owns_slot; rewrite Hid; by apply bool_decide_eq_true].
    intros Hh. rewrite Hh in H1. destruct H1 as [Hc Hp]. assert (is_closed (inner s) = true) by (by apply closed_iff). congruence.
  - intros w Hs. by destruct (H8 w Hs) as (_ & ? & ?).
  - intros w Hs. destruct (H9 w Hs) as (_ & ? & Hx). split; [done|]. intros Hrc. destruct (is_closed (inner s)); [by destruct (Hx eq_refl)|done].
Qed.

(** Once the sender's side is gone nothing but the receiver's own polling or dropping
    changes who sleeps in its [poll_closed]. *)
Lemma closed_sleeper_stays s o : half s = NoSender → enabled s o = true → (∀ w, o ≠ OReceiverPollClosed w) → o ≠ OReceiverDrop →
  half (sys_step s o) = NoSender ∧ closed_sleeps (sys_step s o) = closed_sleeps s.
Proof.
  intros Hh He Hp Hd. destruct o as [cancelled|v|explicit|w| | |cancelled w|leak| |w|]; simpl in *; rewrite ?Hh in *; try done.
  - destruct (future s) as [f|]; [|done]. by destruct (recv_poll _ _ _ _) as [[? ?] ?].
  - by destruct (future s).
  - by destruct (try_recv _).
  - by destruct (Hp w).
Qed.

Fixpoint sys_run s (os : list Op) : option System :=
  match os with [] => Some s | o :: os => if enabled s o then sys_run (sys_step s o) os else None end.

Lemma oneshot_run_reachable t s os s' : reachable t s → sys_run s os = Some s' → reachable (t + lenN os) s'.
Proof.
  revert t s. induction os as [|o os IH]; intros t s Hr; simpl; [intros [= <-]; unfold lenN; simpl; by rewrite N.add_0_r|].
  destruct (enabled s o) eqn:He; [|done]. intros Hrun. rewrite len_cons, N.add_assoc. eapply IH; [by constructor|done].
Qed.

End oneshot.
Arguments System _ : clear implicits.
Arguments Op _ : clear implicits.

(** A receiver waits, its future is leaked and replaced, then the value is sent. *)
Definition oneshot_schedule : list (Op N) :=
  [ORecv; OPollRecv false 11; ODropRecv true; ORecv; OPollRecv false 12; OReserve false; OSend 7; OPollRecv false 12].
Definition oneshot_at (n : nat) : System N := default sys_new (sys_run sys_new (take n oneshot_schedule)).

Lemma oneshot_at_reachable n : sys_run sys_new (take n oneshot_schedule) = Some (oneshot_at n) → reachable (lenN (take n oneshot_schedule)) (oneshot_at n).
Proof. intros H. apply (oneshot_run_reachable 0 sys_new); [constructor|done]. Qed.

(** The receiver sleeps in [poll_closed], the value is sent, and the receiver takes it with
    [try_recv]: the channel is closed and a new poll would say so, but the sleeper was not
    woken and, by [closed_sleeper_stays], nothing will wake it. *)
Definition unnoticed_closing : list (Op N) := [OReceiverPollClosed 21; OReserve false; OSend 7; OTryRecv].

Lemma closing_unnoticed : ∃ s : System N, reachable 4 s ∧ half s = NoSender ∧ is_closed (inner s) = true ∧ closed_sleeps s = Some 21 ∧
  (receiver_poll_closed (inner s) 21).2 = Ready () ∧
  ∀ o, enabled s o = true → (∀ w, o ≠ OReceiverPollClosed w) → o ≠ OReceiverDrop → closed_sleeps (sys_step s o) = Some 21.
Proof.
  destruct (sys_run sys_new unnoticed_closing) as [s|] eqn:E; [|by vm_compute in E]. exists s.
  assert (Hs : half s = NoSender ∧ is_closed (inner s) = true ∧ closed_sleeps s = Some 21 ∧ (receiver_poll_closed (inner s) 21).2 = Ready ()) by (revert E; vm_compute; by intros [= <-]).
  destruct Hs as (H1 & H2 & H3 & H4). split_and!; try done; [by apply (oneshot_run_reachable 0 sys_new unnoticed_closing s); [constructor|]|].
  intros o Ho Hp Hd. rewrite <- H3. by apply closed_sleeper_stays.
Qed.

Lemma oneshot_delivers_once_witness : recv_sleeps (oneshot_at 7) = None ∧ sent (oneshot_at 7) = Some 7 ∧ (try_recv (inner (oneshot_at 7))).2 = Ok 7.
Proof.
  destruct (oneshot_delivers_once 7 (oneshot_at 7)) as (_ & _ & Hv); [apply (oneshot_at_reachable 7); by vm_compute|done|]. split; [by vm_compute|].
  destruct (Hv 7) as (H1 & _ & H2 & _); [by vm_compute|]. done.
Defined.

Lemma oneshot_no_lost_wakeup_witness : recv_sleeps (oneshot_at 6) = Some 12 ∧ waker (inner (oneshot_at 6)) = Some 12 ∧ half (oneshot_at 6) ≠ NoSender.
Proof.
  assert (Hs : recv_sleeps (oneshot_at 6) = Some 12) by (by vm_compute). split; [done|].
  destruct (oneshot_no_lost_wakeup 6 (oneshot_at 6)) as (Hw & _ & _); [apply (oneshot_at_reachable 6); by vm_compute|done|]. by destruct (Hw 12 Hs) as (? & _ & ? & _).
Defined.
