(* ===== verification/Ids.v ===== *)
(** * Identifiers and logical time

    Models [src/types/id.rs] (newtypes over arena indices, [Time]) and the
    [ArenaIndex] type of [src/util/arena.rs]. *)

From S2P Require Import Prelude.

(** ** Arena indices: a slot number and the generation of its occupant. *)

Record ArenaIndex := mkArenaIndex { ai_index : N; ai_generation : N }.

#[global] Instance ArenaIndex_eq_dec : EqDecision ArenaIndex.
Proof. solve_decision. Defined.

#[global] Instance ArenaIndex_countable : Countable ArenaIndex.
Proof.
  apply (inj_countable' (λ i, (ai_index i, ai_generation i))
    (λ p, mkArenaIndex p.1 p.2)). by intros [].
Defined.

(** The derived [Ord]: lexicographic on the fields in declaration order. *)
Definition ArenaIndex_le (a b : ArenaIndex) : bool :=
  (ai_index a <? ai_index b)
  || ((ai_index a =? ai_index b) && (ai_generation a <=? ai_generation b)).

(** ** The newtypes [RegionId], [TaskId] and [ObligationId]. *)

Record RegionId := RegionId_from_arena { region_arena_index : ArenaIndex }.
Record TaskId := TaskId_from_arena { task_arena_index : ArenaIndex }.
Record ObligationId := ObligationId_from_arena { obligation_arena_index : ArenaIndex }.

#[global] Instance RegionId_eq_dec : EqDecision RegionId.
Proof. solve_decision. Defined.
#[global] Instance TaskId_eq_dec : EqDecision TaskId.
Proof. solve_decision. Defined.
#[global] Instance ObligationId_eq_dec : EqDecision ObligationId.
Proof. solve_decision. Defined.

#[global] Instance RegionId_countable : Countable RegionId.
Proof. apply (inj_countable' region_arena_index RegionId_from_arena). by intros []. Defined.
#[global] Instance TaskId_countable : Countable TaskId.
Proof. apply (inj_countable' task_arena_index TaskId_from_arena). by intros []. Defined.
#[global] Instance ObligationId_countable : Countable ObligationId.
Proof. apply (inj_countable' obligation_arena_index ObligationId_from_arena). by intros []. Defined.

Definition RegionId_testing_default : RegionId := RegionId_from_arena (mkArenaIndex 0 0).

(** [RegionId::as_u64]: generation in the high half, index in the low half. *)
Definition RegionId_as_u64 (r : RegionId) : N :=
  N.lor (N.shiftl (ai_generation (region_arena_index r)) 32) (ai_index (region_arena_index r)).

(** ** Logical time: a [u64] count of nanoseconds. *)

Module Time.

Definition t := N.
Definition ZERO : t := 0.
Definition MAX : t := u64_MAX.

Definition from_nanos (nanos : N) : t := nanos.
Definition from_millis (millis : N) : t := saturating_mul u64_MAX millis 1000000.
Definition from_secs (secs : N) : t := saturating_mul u64_MAX secs 1000000000.
Definition as_nanos (t : t) : N := t.
Definition as_millis (t : t) : N := t / 1000000.
Definition as_secs (t : t) : N := t / 1000000000.
Definition saturating_add_nanos (t : t) (nanos : N) : Time.t := saturating_add u64_MAX t nanos.
Definition saturating_sub_nanos (t : t) (nanos : N) : Time.t := saturating_sub t nanos.
Definition duration_since (self earlier : t) : N := saturating_sub self earlier.

(** [Time + Duration]; a [Duration] is its [u128] count of nanoseconds. *)
Definition add (t : t) (duration_nanos : N) : Time.t :=
  saturating_add_nanos t (N.min duration_nanos u64_MAX).

End Time.

#[export] Hint Unfold Time.ZERO Time.MAX Time.from_nanos Time.from_millis Time.from_secs
  Time.as_nanos Time.saturating_add_nanos Time.saturating_sub_nanos
  Time.duration_since Time.add : machine.

(** Adding and then subtracting a duration loses nothing unless the sum
    saturates. *)
Lemma time_add_sub (t d : N) : t + d ≤ u64_MAX →
  Time.saturating_sub_nanos (Time.saturating_add_nanos t d) d = t.
Proof. mlia. Qed.

(** Distinct ids have distinct 64-bit encodings when both fields fit in 32
    bits. *)
Lemma RegionId_as_u64_value (r : RegionId) :
  ai_index (region_arena_index r) ≤ u32_MAX →
  RegionId_as_u64 r = ai_generation (region_arena_index r) * 2 ^ 32 + ai_index (region_arena_index r).
Proof.
  intros Hi. unfold RegionId_as_u64.
  rewrite N.shiftl_mul_pow2.
  set (g := ai_generation _). set (i := ai_index _) in *.
  symmetry. rewrite <-N.lxor_lor; [rewrite <-N.add_nocarry_lxor; [done|]|].
  all: apply N.bits_inj_0; intros n; rewrite N.land_spec.
  all: destruct (N.lt_ge_cases n 32) as [Hn|Hn].
  1,3: by rewrite N.mul_pow2_bits_low.
  all: rewrite (N.bits_above_log2 i n); [apply andb_false_r|].
  all: destruct (N.eq_dec i 0) as [->|Hi0]; [simpl; lia|].
  all: apply N.log2_lt_pow2; [lia|].
  all: eapply N.lt_le_trans; [|apply N.pow_le_mono_r; [lia|exact Hn]]; unfold u32_MAX in Hi; simpl; lia.
Qed.

Lemma RegionId_as_u64_inj (a b : RegionId) :
  ai_index (region_arena_index a) ≤ u32_MAX → ai_index (region_arena_index b) ≤ u32_MAX →
  RegionId_as_u64 a = RegionId_as_u64 b → a = b.
Proof.
  intros Ha Hb. rewrite !RegionId_as_u64_value by done.
  destruct a as [[ia ga]], b as [[ib gb]]; simpl in *; unfold u32_MAX in *. intros H.
  change (2 ^ 32) with 4294967296 in H.
  assert (ga = gb) by nia. subst. repeat f_equal. lia.
Qed.
