(* ===== verification/Heap.v ===== *)
(** * Binary heaps of the standard library

    [std::collections::BinaryHeap] for an element type whose [Ord] is total and in
    which elements that compare equal are equal.  Then the order in which elements
    come out is determined by the multiset of elements, and the model is the list of
    elements, greatest first: [pop] and [peek] look at its head, [push] inserts,
    [retain] filters, [iter] lists in some order.  [heap_canonical] says that the
    representation is unique. *)

From S2P Require Import Prelude.

(** [Ordering::then_with] *)
Definition and_then (c d : comparison) : comparison := match c with Eq => d | _ => c end.

Class TotalCmp {E} (cmp : E → E → comparison) := {
  cmp_eq a b : cmp a b = Eq → a = b;
  cmp_opp a b : cmp b a = CompOpp (cmp a b);
  cmp_trans a b c : cmp a b ≠ Lt → cmp b c ≠ Lt → cmp a c ≠ Lt;
}.

Section heap.
Context {E : Type} (cmp : E → E → comparison).
Implicit Types h : list E.

Fixpoint heap_push (x : E) h : list E :=
  match h with
  | [] => [x]
  | y :: h' => match cmp x y with Lt => y :: heap_push x h' | _ => x :: h end
  end.

Lemma heap_push_perm x h : heap_push x h ≡ₚ x :: h.
Proof. induction h as [|y h IH]; simpl; [done|]. destruct (cmp x y); [done| |done]. rewrite IH. by constructor. Qed.

Lemma heap_push_length x h : length (heap_push x h) = S (length h).
Proof. by rewrite heap_push_perm. Qed.

Context `{!TotalCmp cmp}.

Definition heap_ge (a b : E) : Prop := cmp a b ≠ Lt.
#[local] Instance heap_ge_trans : Transitive heap_ge.
Proof. intros a b c. apply (cmp_trans (cmp := cmp)). Qed.
#[local] Instance heap_ge_antisymm : AntiSymm (=) heap_ge.
Proof. intros a b Hab Hba. apply (cmp_eq (cmp := cmp)). unfold heap_ge in *. rewrite (cmp_opp (cmp := cmp) a b) in Hba. by destruct (cmp a b). Qed.

Lemma cmp_lt_ge a b : cmp a b = Lt → heap_ge b a.
Proof. unfold heap_ge. rewrite (cmp_opp (cmp := cmp) a b). by intros ->. Qed.

Lemma cmp_refl a : cmp a a ≠ Lt.
Proof. pose proof (cmp_opp (cmp := cmp) a a) as Ho. by destruct (cmp a a). Qed.

(** Greatest first. *)
Definition heap_ok h : Prop := StronglySorted heap_ge h.

Lemma heap_push_ok x h : heap_ok h → heap_ok (heap_push x h).
Proof.
  intros Hh. induction Hh as [|y h Hh IH Hy]; simpl; [repeat constructor|]. destruct (cmp x y) eqn:E1.
  - constructor; [by constructor|]. constructor; [by unfold heap_ge; rewrite E1|]. eapply Forall_impl; [exact Hy|]. intros z Hz. etrans; [|exact Hz]. unfold heap_ge. by rewrite E1.
  - constructor; [done|]. rewrite heap_push_perm. constructor; [by apply cmp_lt_ge|done].
  - constructor; [by constructor|]. constructor; [by unfold heap_ge; rewrite E1|]. eapply Forall_impl; [exact Hy|]. intros z Hz. etrans; [|exact Hz]. unfold heap_ge. by rewrite E1.
Qed.

Lemma heap_tail_ok x h : heap_ok (x :: h) → heap_ok h ∧ Forall (heap_ge x) h.
Proof. by intros [? ?]%StronglySorted_inv. Qed.

Lemma heap_filter_ok (P : E → Prop) `{!∀ x, Decision (P x)} h : heap_ok h → heap_ok (filter P h).
Proof.
  intros Hh. induction Hh as [|y h Hh IH Hy]; [constructor|]. rewrite filter_cons. case_decide; [|done]. constructor; [done|]. apply Forall_forall. intros z [_ Hz]%list_elem_of_filter.
  by eapply Forall_forall in Hy.
Qed.

(** Whatever way a heap with these elements was built, its elements come out in the
    same order. *)
Lemma heap_canonical h h' : heap_ok h → heap_ok h' → h ≡ₚ h' → h = h'.
Proof. intros H1 H2 Hp. by apply (StronglySorted_unique heap_ge). Qed.

End heap.
