(* ===== verification/Wheel.v ===== *)
(** * The hierarchical timer wheel

    Models [src/time/wheel.rs]: four levels of 256 slots (1 ms, 256 ms, 65.5 s
    and 4.66 h per slot), each with a bitmap of occupied slots, an overflow heap
    for deadlines beyond [max_wheel_duration], a list of ready timers, and a slab
    of the live timers' generations, against which stored entries are checked
    lazily.  Times are nanoseconds, durations [u128] counts of them, wakers the
    names of the tasks they wake.

    The slab is the interface of [Slab.v].  [BinaryHeap] is a list from which the
    greatest element (in the order the code defines) is taken.  Slot numbers are
    taken modulo 256 by the code, and the vectors they index have 256 elements
    ([level_shape] of [WheelInv.v]), so indexing is total here. *)

From S2P Require Import Prelude Ids Slab.

Notation Waker := N (only parsing).

Definition LEVEL_COUNT : nat := 4.
Definition SLOTS_PER_LEVEL : N := 256.
Definition LEVEL0_RESOLUTION_NS : N := 1000000.
Definition LEVEL_RESOLUTIONS_NS : list N :=
  [LEVEL0_RESOLUTION_NS; LEVEL0_RESOLUTION_NS * SLOTS_PER_LEVEL; LEVEL0_RESOLUTION_NS * SLOTS_PER_LEVEL * SLOTS_PER_LEVEL;
   LEVEL0_RESOLUTION_NS * SLOTS_PER_LEVEL * SLOTS_PER_LEVEL * SLOTS_PER_LEVEL].

Definition duration_to_u64_nanos (duration : N) : N := N.min duration u64_MAX.

Record TimerWheelConfig := mkConfig { max_wheel_duration : N; max_timer_duration : N }.
Definition config_default : TimerWheelConfig := mkConfig (24 * 3600 * 1000000000) (168 * 3600 * 1000000000).

Record CoalescingConfig := mkCoalescing { coalesce_window : N; min_group_size : N; coalescing_enabled : bool }.
Definition coalescing_default : CoalescingConfig := mkCoalescing 1000000 1 false.
Definition enabled_with_window (window : N) : CoalescingConfig := mkCoalescing window 1 true.

Record TimerDurationExceeded := mkExceeded { ex_duration : N; ex_max : N }.

Record TimerHandle := mkHandle { handle_id : N; handle_generation : N }.

(** An overflow entry repeats the deadline of the entry it holds. *)
Record TimerEntry := mkEntry { deadline : N; waker : Waker; entry_id : N; generation : N }.

(** ** The order of the overflow heap *)

(** [diff.cast_signed().cmp(&0)] for a [u64]. *)
Definition signed_cmp_0 (x : N) : comparison := if x =? 0 then Eq else if x <? 2 ^ 63 then Gt else Lt.

Definition then_with (c : comparison) (d : comparison) : comparison := match c with Eq => d | _ => c end.

Definition overflow_cmp (self other : TimerEntry) : comparison :=
  then_with (N.compare (deadline other) (deadline self))
    (then_with (signed_cmp_0 (wrapping_sub u64_MAX (generation other) (generation self)))
       (N.compare (entry_id other) (entry_id self))).

(** The greatest element of the heap and the others. *)
Fixpoint heap_pop (l : list TimerEntry) : option (TimerEntry * list TimerEntry) :=
  match l with
  | [] => None
  | x :: l =>
      match heap_pop l with
      | None => Some (x, [])
      | Some (y, rest) => match overflow_cmp y x with Gt => Some (y, x :: rest) | _ => Some (x, y :: rest) end
      end
  end.
Definition heap_peek (l : list TimerEntry) : option TimerEntry := fst <$> heap_pop l.

(** ** Levels *)

Record WheelLevel := mkLevel { slots : list (list TimerEntry); resolution_ns : N; cursor : N; occupied : list N }.

Definition BITMAP_WORDS : nat := 4.

Definition level_new (resolution cursor : N) : WheelLevel :=
  mkLevel (replicate (N.to_nat SLOTS_PER_LEVEL) []) resolution cursor (replicate BITMAP_WORDS 0).

Definition range_ns (l : WheelLevel) : N := saturating_mul u64_MAX (resolution_ns l) SLOTS_PER_LEVEL.

Definition word_at (l : WheelLevel) (slot : N) : N := occupied l !!! N.to_nat (slot / 64).
Definition is_occupied (l : WheelLevel) (slot : N) : bool :=
  negb (N.land (word_at l slot) (N.shiftl 1 (slot mod 64)) =? 0).
Definition set_word (l : WheelLevel) (slot : N) (word : N) : WheelLevel :=
  mkLevel (slots l) (resolution_ns l) (cursor l) (<[N.to_nat (slot / 64) := word]> (occupied l)).
Definition set_occupied (l : WheelLevel) (slot : N) : WheelLevel :=
  set_word l slot (N.lor (word_at l slot) (N.shiftl 1 (slot mod 64))).
Definition clear_occupied (l : WheelLevel) (slot : N) : WheelLevel :=
  set_word l slot (N.land (word_at l slot) (N.lxor u64_MAX (N.shiftl 1 (slot mod 64)))).

Definition set_slot (l : WheelLevel) (slot : N) (bucket : list TimerEntry) : WheelLevel :=
  mkLevel (<[N.to_nat slot := bucket]> (slots l)) (resolution_ns l) (cursor l) (occupied l).
Definition slot_at (l : WheelLevel) (slot : N) : list TimerEntry := slots l !!! N.to_nat slot.
Definition set_cursor (l : WheelLevel) (c : N) : WheelLevel := mkLevel (slots l) (resolution_ns l) c (occupied l).

(** [x.trailing_zeros()] of a non-zero word. *)
Fixpoint pos_trailing_zeros (p : positive) : N := match p with xO p => 1 + pos_trailing_zeros p | _ => 0 end.
Definition trailing_zeros (x : N) : N := match x with N0 => 64 | Npos p => pos_trailing_zeros p end.

(** [while pos <= last]: the first occupied slot from [pos] to [last], word by word. *)
Fixpoint scan_words (fuel : nat) (occ : list N) (pos last : N) : option N :=
  match fuel with
  | O => None
  | S fuel =>
      if pos <=? last then
        let word_idx := pos / 64 in
        let masked := N.shiftr (occ !!! N.to_nat word_idx) (pos mod 64) in
        let found := pos + trailing_zeros masked in
        if negb (masked =? 0) && (found <=? last) then Some found
        else scan_words fuel occ ((word_idx + 1) * 64) last
      else None
  end.

Definition next_occupied_distance (l : WheelLevel) : option N :=
  if forallb (λ w, w =? 0) (occupied l) then None
  else
    match scan_words 5 (occupied l) (cursor l + 1) (SLOTS_PER_LEVEL - 1) with
    | Some found => Some (found - cursor l)
    | None =>
        match scan_words 5 (occupied l) 0 (cursor l) with
        | Some found => Some (SLOTS_PER_LEVEL - cursor l + found)
        | None => None
        end
    end.

Section wheel.
Context {Active : Type} `{!Slab Active N}.

Record TimerWheel := mkWheel {
  current_tick : N;
  levels : list WheelLevel;
  overflow : list TimerEntry;
  ready : list TimerEntry;
  next_generation : N;
  active : Active;
  config : TimerWheelConfig;
  coalescing : CoalescingConfig;
  max_wheel_duration_ns : N;
  max_timer_duration_ns : N;
}.
Implicit Types (w : TimerWheel) (e : TimerEntry).

(** Assignments to the fields. *)
Definition set_tick w t : TimerWheel :=
  mkWheel t (levels w) (overflow w) (ready w) (next_generation w) (active w) (config w) (coalescing w) (max_wheel_duration_ns w) (max_timer_duration_ns w).
Definition set_levels w ls : TimerWheel :=
  mkWheel (current_tick w) ls (overflow w) (ready w) (next_generation w) (active w) (config w) (coalescing w) (max_wheel_duration_ns w) (max_timer_duration_ns w).
Definition set_overflow w o : TimerWheel :=
  mkWheel (current_tick w) (levels w) o (ready w) (next_generation w) (active w) (config w) (coalescing w) (max_wheel_duration_ns w) (max_timer_duration_ns w).
Definition set_ready w r : TimerWheel :=
  mkWheel (current_tick w) (levels w) (overflow w) r (next_generation w) (active w) (config w) (coalescing w) (max_wheel_duration_ns w) (max_timer_duration_ns w).
Definition set_active w a : TimerWheel :=
  mkWheel (current_tick w) (levels w) (overflow w) (ready w) (next_generation w) a (config w) (coalescing w) (max_wheel_duration_ns w) (max_timer_duration_ns w).
Definition set_generation w g : TimerWheel :=
  mkWheel (current_tick w) (levels w) (overflow w) (ready w) g (active w) (config w) (coalescing w) (max_wheel_duration_ns w) (max_timer_duration_ns w).

Definition with_config (now : N) (config : TimerWheelConfig) (coalescing : CoalescingConfig) : TimerWheel :=
  mkWheel (now / LEVEL0_RESOLUTION_NS)
    ((λ resolution, level_new resolution ((now / resolution) mod SLOTS_PER_LEVEL)) <$> LEVEL_RESOLUTIONS_NS)
    [] [] 0 slab_empty config coalescing
    (duration_to_u64_nanos (max_wheel_duration config)) (duration_to_u64_nanos (max_timer_duration config)).
Definition new_at (now : N) : TimerWheel := with_config now config_default coalescing_default.

Definition wheel_len w : N := slab_count (active w).
Definition wheel_is_empty w : bool := slab_count (active w) =? 0.

Definition clear_level (l : WheelLevel) : WheelLevel :=
  mkLevel ((λ _, []) <$> slots l) (resolution_ns l) (cursor l) (replicate BITMAP_WORDS 0).

Definition purge_inactive_storage w : TimerWheel :=
  set_levels (set_overflow (set_ready w []) []) (clear_level <$> levels w).
Definition clear w : TimerWheel := purge_inactive_storage (set_active w slab_empty).

Definition current_time w : N := saturating_mul u64_MAX (current_tick w) LEVEL0_RESOLUTION_NS.

Definition is_live w e : bool :=
  match slab_at (active w) (entry_id e) with Some g => g =? generation e | None => false end.

Definition push_ready w e : TimerWheel := set_ready w (ready w ++ [e]).
Definition push_overflow w e : TimerWheel := set_overflow w (e :: overflow w).

(** [level.slots[slot].push(entry); level.set_occupied(slot)] *)
Definition push_slot (l : WheelLevel) (slot : N) e : WheelLevel := set_occupied (set_slot l slot (slot_at l slot ++ [e])) slot.

Fixpoint find_level (delta : N) (ls : list WheelLevel) : option nat :=
  match ls with
  | [] => None
  | l :: ls => if delta <? range_ns l then Some O else S <$> find_level delta ls
  end.

Definition insert_entry w e : TimerWheel :=
  let current := current_time w in
  if deadline e <=? current then push_ready w e
  else
    let delta := saturating_sub (deadline e) current in
    if max_wheel_duration_ns w <=? delta then push_overflow w e
    else
      match find_level delta (levels w) with
      | Some idx =>
          match levels w !! idx with
          | Some level =>
              let tick := deadline e / resolution_ns level in
              if (idx =? 0)%nat && (tick <=? current / resolution_ns level) then push_ready w e
              else set_levels w (<[idx := push_slot level (tick mod SLOTS_PER_LEVEL) e]> (levels w))
          | None => w
          end
      | None => push_overflow w e
      end.

Definition insert_if_live w e : TimerWheel := if is_live w e then insert_entry w e else w.

Definition collect_bucket w (bucket : list TimerEntry) : TimerWheel :=
  let now := current_time w in
  foldl (λ w e, if negb (is_live w e) then w else if deadline e <=? now then push_ready w e else insert_entry w e) w bucket.

(** [level.cursor = (level.cursor + 1) % 256], and the bucket taken out there. *)
Definition turn (l : WheelLevel) : WheelLevel * list TimerEntry :=
  let c := (cursor l + 1) mod SLOTS_PER_LEVEL in
  let l := set_cursor l c in
  (clear_occupied (set_slot l c []) c, slot_at l c).

Fixpoint cascade (fuel : nat) w (level_index : nat) : TimerWheel :=
  match fuel with
  | O => w
  | S fuel =>
      match levels w !! level_index with
      | None => w
      | Some level =>
          let '(level, bucket) := turn level in
          let w := set_levels w (<[level_index := level]> (levels w)) in
          let w := foldl insert_if_live w bucket in
          if cursor level =? 0 then cascade fuel w (S level_index) else w
      end
  end.

Definition tick_level0 w : TimerWheel :=
  match levels w with
  | [] => w
  | level0 :: ls =>
      let '(level0, bucket) := turn level0 in
      let w := collect_bucket (set_levels w (level0 :: ls)) bucket in
      if cursor level0 =? 0 then cascade LEVEL_COUNT w 1 else w
  end.

Fixpoint refill_loop (fuel : nat) w : run TimerWheel :=
  match heap_pop (overflow w) with
  | None => Returns w
  | Some (e, rest) =>
      if saturating_sub (deadline e) (current_time w) <? max_wheel_duration_ns w then
        match fuel with
        | O => OutOfFuel
        | S fuel => refill_loop fuel (insert_if_live (set_overflow w rest) e)
        end
      else Returns w
  end.
Definition refill_overflow w : run TimerWheel := refill_loop (length (overflow w)) w.

Definition realign_cursors_to_current_tick w : TimerWheel :=
  let now_nanos := saturating_mul u64_MAX (current_tick w) LEVEL0_RESOLUTION_NS in
  set_levels w ((λ l, set_cursor l ((now_nanos / resolution_ns l) mod SLOTS_PER_LEVEL)) <$> levels w).

(** The nearest tick at which some level has an occupied slot, at most [next]. *)
Fixpoint skip_levels (tick : N) (ls : list WheelLevel) (r next : N) : N :=
  match ls with
  | [] => next
  | l :: ls =>
      let next :=
        match next_occupied_distance l with
        | Some dist =>
            let hit := tick - tick mod r + dist * r in
            let hit := if hit <=? tick then hit + SLOTS_PER_LEVEL * r else hit in
            if hit <? next then hit else next
        | None => next
        end in
      skip_levels tick ls (r * SLOTS_PER_LEVEL) next
  end.

Definition next_skip_tick w (limit : N) : N :=
  let next := skip_levels (current_tick w) (levels w) 1 limit in
  match heap_peek (overflow w) with
  | Some e =>
      let min_enter_tick := saturating_sub (deadline e) (max_wheel_duration_ns w) / LEVEL0_RESOLUTION_NS in
      if min_enter_tick <? next then if current_tick w <? min_enter_tick then min_enter_tick else current_tick w
      else next
  | None => next
  end.

(** One round of the loop of [advance_to]: the next state, or the result. *)
Definition advance_round (target : N) w : TimerWheel + run TimerWheel :=
  if target <=? current_tick w then inr (Returns w)
  else
    let next := next_skip_tick w target in
    let w := if current_tick w + 1 <? next then realign_cursors_to_current_tick (set_tick w (next - 1)) else w in
    let w := tick_level0 (set_tick w (saturating_add u64_MAX (current_tick w) 1)) in
    match refill_overflow w with
    | Returns w => inl w
    | Panicked => inr Panicked
    | OutOfFuel => inr OutOfFuel
    end.

Definition advance_to w (target : N) : run TimerWheel :=
  if wheel_is_empty w then Returns (realign_cursors_to_current_tick (set_tick w target))
  else
    match loop_upto (N.succ_pos (target - current_tick w)) (advance_round target) w with
    | inr r => r
    | inl _ => OutOfFuel
    end.

Definition synchronize w (now : N) : run TimerWheel :=
  let target := now / LEVEL0_RESOLUTION_NS in
  if current_tick w <? target then advance_to w target else Returns w.

Definition insert_validated w (deadline : N) (waker : Waker) : TimerWheel * TimerHandle :=
  let generation := next_generation w in
  let w := set_generation w (wrapping_add u64_MAX (next_generation w) 1) in
  let '(active, id) := slab_add (active w) generation in
  (insert_entry (set_active w active) (mkEntry deadline waker id generation), mkHandle id generation).

Definition clamp_deadline w (deadline : N) : N :=
  let current := current_time w in
  if (current <? deadline) && (max_timer_duration_ns w <? saturating_sub deadline current)
  then saturating_add u64_MAX current (max_timer_duration_ns w) else deadline.

Definition register w (deadline : N) (waker : Waker) : TimerWheel * TimerHandle :=
  insert_validated w (clamp_deadline w deadline) waker.

Definition try_register w (deadline : N) (waker : Waker) : TimerWheel * result TimerHandle TimerDurationExceeded :=
  let current := current_time w in
  if (current <? deadline) && (max_timer_duration_ns w <? saturating_sub deadline current)
  then (w, Err (mkExceeded (saturating_sub deadline current) (max_timer_duration (config w))))
  else let '(w, h) := insert_validated w deadline waker in (w, Ok h).

Definition cancel w (h : TimerHandle) : run (TimerWheel * bool) :=
  match slab_at (active w) (handle_id h) with
  | Some g =>
      if g =? handle_generation h then
        match slab_take (active w) (handle_id h) with
        | None => Panicked
        | Some (a, _) =>
            let w := set_active w a in
            Returns (if wheel_is_empty w then purge_inactive_storage w else w, true)
        end
      else Returns (w, false)
  | None => Returns (w, false)
  end.

(** *** Coalescing *)

(** The end of the coalescing window that contains [now]. *)
Definition window_end (now window_ns : N) : N :=
  saturating_mul u64_MAX (saturating_add u64_MAX (now / window_ns) 1) window_ns.

Definition coalesced_boundary w (now : N) : option N :=
  if coalescing_enabled (coalescing w) then
    let window_ns := duration_to_u64_nanos (coalesce_window (coalescing w)) in
    if window_ns =? 0 then None else Some (window_end now window_ns)
  else None.

(** [while j < slot.len()] with [swap_remove]: the slot that stays and the entries moved. *)
Fixpoint promote_slot (fuel : nat) (boundary : N) (slot : list TimerEntry) (j : nat) (moved : list TimerEntry) : list TimerEntry * list TimerEntry :=
  match fuel with
  | O => (slot, moved)
  | S fuel =>
      match slot !! j with
      | None => (slot, moved)
      | Some e =>
          if deadline e <=? boundary then promote_slot fuel boundary (swap_remove slot j) j (moved ++ [e])
          else promote_slot fuel boundary slot (S j) moved
      end
  end.

(** The slots of a level that the window can touch, in scanning order. *)
Definition window_slots (tick boundary : N) (l : WheelLevel) : list N :=
  let now_nanos := saturating_mul u64_MAX tick LEVEL0_RESOLUTION_NS in
  let level_tick_current := now_nanos / resolution_ns l in
  let level_tick_boundary := boundary / resolution_ns l in
  if level_tick_boundary <? level_tick_current then []
  else
    let diff := level_tick_boundary - level_tick_current in
    let diff := if SLOTS_PER_LEVEL <=? diff then SLOTS_PER_LEVEL - 1 else diff in
    (λ i, (level_tick_current mod SLOTS_PER_LEVEL + N.of_nat i) mod SLOTS_PER_LEVEL) <$> seq 0 (S (N.to_nat diff)).

Definition promote_step (boundary : N) (p : WheelLevel * list TimerEntry) (slot : N) : WheelLevel * list TimerEntry :=
  let '(l, moved) := p in
  if is_occupied l slot then
    let '(bucket, moved) := promote_slot (length (slot_at l slot)) boundary (slot_at l slot) 0 moved in
    let l := set_slot l slot bucket in
    (if bool_decide (bucket = []) then clear_occupied l slot else l, moved)
  else (l, moved).

Definition promote_level (tick boundary : N) (l : WheelLevel) (moved : list TimerEntry) : WheelLevel * list TimerEntry :=
  foldl (promote_step boundary) (l, moved) (window_slots tick boundary l).

Fixpoint promote_levels (tick boundary : N) (ls : list WheelLevel) (moved : list TimerEntry) : list WheelLevel * list TimerEntry :=
  match ls with
  | [] => ([], moved)
  | l :: ls =>
      let '(l, moved) := promote_level tick boundary l moved in
      let '(ls, moved) := promote_levels tick boundary ls moved in
      (l :: ls, moved)
  end.

Fixpoint promote_overflow (fuel : nat) (boundary : N) (heap moved : list TimerEntry) : list TimerEntry * list TimerEntry :=
  match fuel with
  | O => (heap, moved)
  | S fuel =>
      match heap_pop heap with
      | Some (e, rest) => if deadline e <=? boundary then promote_overflow fuel boundary rest (moved ++ [e]) else (heap, moved)
      | None => (heap, moved)
      end
  end.

Definition promote_coalescing_window_entries w (boundary : N) (r : list TimerEntry) : TimerWheel * list TimerEntry :=
  let '(ls, r) := promote_levels (current_tick w) boundary (levels w) r in
  let '(o, r) := promote_overflow (S (length (overflow w))) boundary (overflow w) r in
  (set_overflow (set_levels w ls) o, r).

(** *** Firing *)

Definition live_until w (limit : N) (l : list TimerEntry) : N :=
  N.of_nat (count (λ e, is_live w e && (deadline e <=? limit)) l).

Fixpoint fire_loop w (limit : N) (r : list TimerEntry) (wakers : list Waker) : run (TimerWheel * list Waker) :=
  match r with
  | [] => Returns (w, wakers)
  | e :: r =>
      if negb (is_live w e) then fire_loop w limit r wakers
      else if deadline e <=? limit then
        match slab_take (active w) (entry_id e) with
        | None => Panicked
        | Some (a, _) => fire_loop (set_active w a) limit r (wakers ++ [waker e])
        end
      else fire_loop (insert_entry w e) limit r wakers
  end.

Definition drain_ready w (now : N) : run (TimerWheel * list Waker) :=
  let r := ready w in
  let w := set_ready w [] in
  let boundary := coalesced_boundary w now in
  let '(w, r) := match boundary with
                 | Some b => promote_coalescing_window_entries w b r
                 | None => (w, r)
                 end in
  let limit := match boundary with
               | Some b => if N.max (min_group_size (coalescing w)) 1 <=? live_until w b r then b else now
               | None => now
               end in
  p ← fire_loop w limit r [];
  let '(w, wakers) := p in
  Returns (if wheel_is_empty w then purge_inactive_storage w else w, wakers).

Definition collect_expired w (now : N) : run (TimerWheel * list Waker) :=
  w ← synchronize w now;
  drain_ready w now.

(** *** Queries *)

Definition coalescing_group_size w (now : N) : N :=
  let expired := live_until w now (ready w) in
  match coalesced_boundary w now with
  | None => expired
  | Some b =>
      let n := live_until w b (ready w)
        + sum_over (λ l, sum_over (λ s, if is_occupied l s then live_until w b (slot_at l s) else 0) (window_slots (current_tick w) b l)) (levels w)
        + live_until w b (overflow w) in
      if N.max (min_group_size (coalescing w)) 1 <=? n then n else expired
  end.

Definition min_opt (m : option N) (d : N) : option N := Some (match m with Some c => N.min c d | None => d end).
Definition min_live w (l : list TimerEntry) (m : option N) : option N :=
  foldl (λ m e, if is_live w e then min_opt m (deadline e) else m) m l.

(** The first slot of the level, from the current one on, with a live entry. *)
Fixpoint first_slot_deadline w (l : WheelLevel) (current_slot : N) (is_ : list nat) : option N :=
  match is_ with
  | [] => None
  | i :: is_ =>
      let slot := (current_slot + N.of_nat i) mod SLOTS_PER_LEVEL in
      match (if is_occupied l slot then min_live w (slot_at l slot) None else None) with
      | Some d => Some d
      | None => first_slot_deadline w l current_slot is_
      end
  end.

Fixpoint levels_deadline w (ls : list WheelLevel) : option N :=
  match ls with
  | [] => None
  | l :: ls =>
      let now_nanos := saturating_mul u64_MAX (current_tick w) LEVEL0_RESOLUTION_NS in
      match first_slot_deadline w l ((now_nanos / resolution_ns l) mod SLOTS_PER_LEVEL) (seq 0 (N.to_nat SLOTS_PER_LEVEL)) with
      | Some d => Some d
      | None => levels_deadline w ls
      end
  end.

(** [while let Some(entry) = self.overflow.peek()], dropping dead entries. *)
Fixpoint overflow_deadline (fuel : nat) w (heap : list TimerEntry) : list TimerEntry * option N :=
  match fuel with
  | O => (heap, None)
  | S fuel =>
      match heap_pop heap with
      | None => (heap, None)
      | Some (e, rest) => if is_live w e then (heap, Some (deadline e)) else overflow_deadline fuel w rest
      end
  end.

Definition next_deadline w : TimerWheel * option N :=
  let current := current_time w in
  if coalescing_enabled (coalescing w) && (0 <? coalescing_group_size w current) then (w, Some current)
  else if existsb (λ e, is_live w e && (deadline e <=? current)) (ready w) then (w, Some current)
  else
    match min_live w (ready w) None with
    | Some d => (w, Some d)
    | None =>
        match levels_deadline w (levels w) with
        | Some d => (w, Some d)
        | None =>
            let '(o, d) := overflow_deadline (S (length (overflow w))) w (overflow w) in
            (set_overflow w o, d)
        end
    end.

End wheel.
Arguments TimerWheel : clear implicits.
