(* ===== verification/WheelInv.v ===== *)
(** * The timer wheel: invariant and advance of time

    The bitmaps, the placement of entries in the levels, and the lemmas on the
    internal operations of [Wheel.v]: inserting an entry, moving a bucket, turning
    a level, cascading. *)

From S2P Require Import Prelude Ids Slab Wheel.

(** ** Bitmaps *)

Definition bit_at (occ : list N) (slot : N) : bool := N.testbit (occ !!! N.to_nat (slot / 64)) (slot mod 64).
Definition words_ok (occ : list N) : Prop := length occ = 4%nat ∧ ∀ i b, (i < 4)%nat → 64 ≤ b → N.testbit (occ !!! i) b = false.

Lemma slot_word slot : slot < 256 → (N.to_nat (slot / 64) < 4)%nat.
Proof. intros Hs. assert (slot / 64 < 4) by (apply N.Div0.div_lt_upper_bound; lia). lia. Qed.

Lemma slot_split slot : slot = 64 * (slot / 64) + slot mod 64.
Proof. apply N.div_mod. lia. Qed.

Lemma div_bounds n d : 0 < d → d * (n / d) ≤ n ∧ n < d * (n / d) + d.
Proof.
  intros Hd. pose proof (N.div_mod n d ltac:(lia)) as Hn. pose proof (N.mod_lt n d ltac:(lia)) as Hr.
  revert Hn Hr. generalize (n / d) (n mod d). intros q r Hn Hr. lia.
Qed.

Lemma land_bit x k : negb (N.land x (N.shiftl 1 k) =? 0) = N.testbit x k.
Proof.
  rewrite N.shiftl_1_l. destruct (N.testbit x k) eqn:Hb.
  - destruct (N.eqb_spec (N.land x (2 ^ k)) 0) as [H0|]; [|done].
    apply (f_equal (λ y, N.testbit y k)) in H0. rewrite N.land_spec, N.pow2_bits_true, Hb, N.bits_0 in H0. done.
  - assert (N.land x (2 ^ k) = 0) as ->; [|done]. apply N.bits_inj. intros j. rewrite N.land_spec, N.bits_0.
    destruct (decide (j = k)) as [->|Hj]; [by rewrite Hb|]. rewrite N.pow2_bits_false by done. apply andb_false_r.
Qed.

Lemma is_occupied_bit l slot : is_occupied l slot = bit_at (occupied l) slot.
Proof. apply land_bit. Qed.

Lemma bit_at_insert occ slot slot' word : words_ok occ → slot < 256 →
  bit_at (<[N.to_nat (slot / 64) := word]> occ) slot' =
    if decide (slot' / 64 = slot / 64) then N.testbit word (slot' mod 64) else bit_at occ slot'.
Proof.
  intros [Hlen _] Hs. unfold bit_at. pose proof (slot_word slot Hs). case_decide as Heq.
  - rewrite Heq, list_lookup_total_insert_eq by lia. done.
  - rewrite list_lookup_total_insert_ne by lia. done.
Qed.

Lemma set_occupied_bit l slot slot' : words_ok (occupied l) → slot < 256 →
  bit_at (occupied (set_occupied l slot)) slot' = bit_at (occupied l) slot' || bool_decide (slot' = slot).
Proof.
  intros Hw Hs. simpl. rewrite bit_at_insert by done. unfold word_at. case_decide as Heq.
  - rewrite N.lor_spec, N.shiftl_1_l, <-Heq. fold (bit_at (occupied l) slot'). f_equal.
    destruct (decide (slot' mod 64 = slot mod 64)) as [Hm|Hm].
    + rewrite Hm, N.pow2_bits_true. symmetry. apply bool_decide_eq_true. rewrite (slot_split slot'), (slot_split slot). lia.
    + rewrite N.pow2_bits_false by done. symmetry. apply bool_decide_eq_false. intros ->. done.
  - rewrite (bool_decide_false (slot' = slot)) by (by intros ->). by rewrite orb_false_r.
Qed.

Lemma clear_occupied_bit l slot slot' : words_ok (occupied l) → slot < 256 →
  bit_at (occupied (clear_occupied l slot)) slot' = bit_at (occupied l) slot' && negb (bool_decide (slot' = slot)).
Proof.
  intros Hw Hs. simpl. rewrite bit_at_insert by done. unfold word_at. case_decide as Heq.
  - rewrite N.land_spec, N.lxor_spec, N.shiftl_1_l, <-Heq. fold (bit_at (occupied l) slot'). f_equal.
    change u64_MAX with (N.ones 64). rewrite N.ones_spec_low by (apply N.mod_lt; done).
    destruct (decide (slot' mod 64 = slot mod 64)) as [Hm|Hm].
    + rewrite Hm, N.pow2_bits_true, bool_decide_true; [done|]. rewrite (slot_split slot'), (slot_split slot). lia.
    + rewrite N.pow2_bits_false, bool_decide_false by (done || by intros ->). done.
  - rewrite (bool_decide_false (slot' = slot)) by (by intros ->). by rewrite andb_true_r.
Qed.

Lemma words_ok_set l slot word : words_ok (occupied l) → slot < 256 → (∀ b, 64 ≤ b → N.testbit word b = false) →
  words_ok (occupied (set_word l slot word)).
Proof.
  intros [Hlen Hb] Hs Hword. split; simpl; [by rewrite length_insert|]. intros i b Hi Hge.
  destruct (decide (i = N.to_nat (slot / 64))) as [->|].
  - rewrite list_lookup_total_insert_eq by (pose proof (slot_word slot Hs); lia). auto.
  - rewrite list_lookup_total_insert_ne by done. auto.
Qed.

Lemma words_ok_set_occupied l slot : words_ok (occupied l) → slot < 256 → words_ok (occupied (set_occupied l slot)).
Proof.
  intros Hw Hs. apply words_ok_set; [done..|]. intros b Hb. rewrite N.lor_spec. destruct Hw as [_ Hw]. unfold word_at. rewrite Hw by (done || by apply slot_word).
  rewrite N.shiftl_1_l. apply N.pow2_bits_false. pose proof (N.mod_lt slot 64 ltac:(lia)). lia.
Qed.

Lemma words_ok_clear_occupied l slot : words_ok (occupied l) → slot < 256 → words_ok (occupied (clear_occupied l slot)).
Proof.
  intros Hw Hs. apply words_ok_set; [done..|]. intros b Hb. rewrite N.land_spec. destruct Hw as [_ Hw]. unfold word_at. by rewrite Hw by (done || by apply slot_word).
Qed.

Lemma words_ok_zero : words_ok (replicate BITMAP_WORDS 0).
Proof. split; [done|]. intros i b Hi _. do 4 (destruct i as [|i]; [apply N.bits_0|]). lia. Qed.

Lemma bit_at_zero slot : slot < 256 → bit_at (replicate BITMAP_WORDS 0) slot = false.
Proof.
  intros Hs. unfold bit_at. pose proof (slot_word slot Hs) as Hw. rewrite lookup_total_replicate_2 by done. apply N.bits_0.
Qed.

Lemma pos_trailing_zeros_spec p : N.testbit (Npos p) (pos_trailing_zeros p) = true ∧
  ∀ j, j < pos_trailing_zeros p → N.testbit (Npos p) j = false.
Proof.
  induction p as [p IH|p [IH1 IH2]|]; cbn [pos_trailing_zeros]; [split; [done|lia]| |split; [done|lia]].
  change (N.pos p~0) with (2 * N.pos p). split.
  - rewrite N.add_1_l. by rewrite N.testbit_even_succ by lia.
  - intros j Hj. destruct (decide (j = 0)) as [->|]; [apply N.testbit_even_0|].
    replace j with (N.succ (j - 1)) by lia. rewrite N.testbit_even_succ by lia. apply IH2. lia.
Qed.

(** What a scan from [pos] to [last] answers. *)
Definition scanned (occ : list N) (pos last : N) (r : option N) : Prop :=
  match r with
  | Some f => pos ≤ f ∧ f ≤ last ∧ bit_at occ f = true ∧ ∀ j, pos ≤ j → j < f → bit_at occ j = false
  | None => ∀ j, pos ≤ j → j ≤ last → bit_at occ j = false
  end.

(** Slots from [pos] up to the end of its word, read from the shifted word. *)
Lemma shifted_bit occ pos j : pos ≤ j → j < (pos / 64 + 1) * 64 →
  bit_at occ j = N.testbit (N.shiftr (occ !!! N.to_nat (pos / 64)) (pos mod 64)) (j - pos).
Proof.
  intros Hpj Hj. rewrite N.shiftr_spec by lia. pose proof (slot_split pos) as Hp. pose proof (N.mod_lt pos 64 ltac:(lia)) as Hr.
  assert (j / 64 = pos / 64) as Hjd.
  { revert Hj Hp Hr. generalize (pos / 64) (pos mod 64). intros q r Hj Hp Hr. symmetry. apply (N.div_unique j 64 q (j - 64 * q)); lia. }
  assert (j mod 64 = j - pos + pos mod 64) as Hjm.
  { pose proof (slot_split j) as Hj'. rewrite Hjd in Hj'. revert Hp Hj'. generalize (pos / 64) (pos mod 64) (j mod 64). intros; lia. }
  unfold bit_at. by rewrite Hjd, Hjm.
Qed.

Lemma scan_words_spec fuel occ pos last : words_ok occ → last < 256 → 4 ≤ pos / 64 + N.of_nat fuel →
  scanned occ pos last (scan_words fuel occ pos last).
Proof.
  intros Hw Hlast. revert pos. induction fuel as [|fuel IH]; intros pos Hf; cbn [scan_words].
  { intros j Hj Hl. destruct (div_bounds pos 64 ltac:(lia)). lia. }
  destruct (N.leb_spec pos last) as [Hle|Hgt]; [|intros j Hj Hl; lia].
  set (masked := N.shiftr _ _). destruct (div_bounds pos 64 ltac:(lia)) as [Hp1 Hp2].
  pose proof (λ j, shifted_bit occ pos j) as Hbit. fold masked in Hbit.
  assert (Hhigh : ∀ b, (pos / 64 + 1) * 64 ≤ pos + b → N.testbit masked b = false).
  { intros b Hb. unfold masked. rewrite N.shiftr_spec by lia. destruct Hw as [_ Hw]. apply Hw; [apply slot_word; lia|].
    pose proof (slot_split pos) as Hs. revert Hs Hb. generalize (pos / 64) (pos mod 64). intros; lia. }
  assert (Hrest : (∀ j, pos ≤ j → j ≤ last → j < (pos / 64 + 1) * 64 → bit_at occ j = false) →
    scanned occ pos last (scan_words fuel occ ((pos / 64 + 1) * 64) last)).
  { intros Hnone. specialize (IH ((pos / 64 + 1) * 64)). rewrite N.div_mul in IH by done. specialize (IH ltac:(lia)). unfold scanned in *. destruct (scan_words fuel occ _ last) as [f|].
    - destruct IH as (H1 & H2 & H3 & H4). split_and!; [lia|done|done|]. intros j Hj Hjf.
      destruct (N.lt_ge_cases j ((pos / 64 + 1) * 64)); [apply Hnone; lia|by apply H4].
    - intros j Hj Hjl. destruct (N.lt_ge_cases j ((pos / 64 + 1) * 64)); [by apply Hnone|by apply IH]. }
  destruct masked as [|p] eqn:Hmask; cbn [trailing_zeros].
  - simpl. apply Hrest. intros j Hj _ Hjw. rewrite Hbit by lia. apply N.bits_0.
  - destruct (pos_trailing_zeros_spec p) as [Hset Hlow].
    assert (Hin : pos + pos_trailing_zeros p < (pos / 64 + 1) * 64).
    { destruct (N.lt_ge_cases (pos + pos_trailing_zeros p) ((pos / 64 + 1) * 64)) as [|Hge]; [done|]. by rewrite Hhigh in Hset. }
    cbn [N.eqb negb andb]. destruct (N.leb_spec (pos + pos_trailing_zeros p) last) as [Hf1|Hf1].
    + split_and!; [lia|done| |].
      * rewrite Hbit by lia. by replace (pos + pos_trailing_zeros p - pos) with (pos_trailing_zeros p) by lia.
      * intros j Hj Hjf. rewrite Hbit by lia. apply Hlow. lia.
    + apply Hrest. intros j Hj Hjl Hjw. rewrite Hbit by lia. apply Hlow. lia.
Qed.

Lemma next_occupied_spec l : words_ok (occupied l) → cursor l < 256 →
  match next_occupied_distance l with
  | Some d => 1 ≤ d ∧ d ≤ 256 ∧ ∀ j, 1 ≤ j → j < d → bit_at (occupied l) ((cursor l + j) mod 256) = false
  | None => ∀ slot, slot < 256 → bit_at (occupied l) slot = false
  end.
Proof.
  intros Hw Hc. unfold next_occupied_distance. destruct (forallb _ (occupied l)) eqn:Hz.
  - rewrite forallb_forall in Hz. intros slot Hs. unfold bit_at. destruct Hw as [Hlen _].
    destruct (lookup_lt_is_Some_2 (occupied l) (N.to_nat (slot / 64))) as [x Hx]; [rewrite Hlen; by apply slot_word|].
    rewrite (list_lookup_total_correct _ _ _ Hx). assert (x = 0) as ->; [|apply N.bits_0].
    apply N.eqb_eq, Hz, list_elem_of_In. by eapply list_elem_of_lookup_2.
  - pose proof (scan_words_spec 5 (occupied l) (cursor l + 1) (SLOTS_PER_LEVEL - 1) Hw) as H1.
    pose proof (scan_words_spec 5 (occupied l) 0 (cursor l) Hw) as H2. unfold SLOTS_PER_LEVEL in *.
    specialize (H1 ltac:(lia) ltac:(generalize ((cursor l + 1) / 64); intros; simpl; lia)). specialize (H2 ltac:(lia) ltac:(done)).
    destruct (scan_words 5 _ (cursor l + 1) _) as [f|]; simpl in H1.
    + destruct H1 as (Hl & Hr & _ & Hno). split_and!; [lia|lia|]. intros j Hj Hjd. rewrite N.mod_small by lia. apply Hno; lia.
    + destruct (scan_words 5 _ 0 _) as [f|]; simpl in H2.
      * destruct H2 as (_ & Hr & _ & Hno). split_and!; [lia|lia|]. intros j Hj Hjd.
        destruct (N.lt_ge_cases (cursor l + j) 256) as [Hlt|Hge]; [rewrite N.mod_small by lia; apply H1; lia|].
        replace (cursor l + j) with (cursor l + j - 256 + 1 * 256) by lia. rewrite N.Div0.mod_add, N.mod_small by lia. apply Hno; lia.
      * intros slot Hs. destruct (N.le_gt_cases slot (cursor l)); [apply H2|apply H1]; lia.
Qed.

(** ** Levels *)

(** Ticks and nanoseconds per slot of level [k]. *)
Definition slot_ticks (k : nat) : N := 256 ^ N.of_nat k.
Definition slot_ns (k : nat) : N := LEVEL0_RESOLUTION_NS * slot_ticks k.

Lemma slot_ticks_pos k : 0 < slot_ticks k.
Proof. unfold slot_ticks. apply N.neq_0_lt_0, N.pow_nonzero. lia. Qed.

Lemma slot_ns_pos k : 0 < slot_ns k.
Proof. unfold slot_ns, LEVEL0_RESOLUTION_NS. pose proof (slot_ticks_pos k). lia. Qed.

Lemma slot_ticks_S k : slot_ticks (S k) = 256 * slot_ticks k.
Proof. unfold slot_ticks. rewrite Nat2N.inj_succ, N.pow_succ_r by lia. lia. Qed.

Lemma slot_ns_S k : slot_ns (S k) = 256 * slot_ns k.
Proof. unfold slot_ns. rewrite slot_ticks_S. lia. Qed.

(** The level tick of the time [tick] milliseconds. *)
Lemma level_tick_of_tick tick k : (tick * LEVEL0_RESOLUTION_NS) / slot_ns k = tick / slot_ticks k.
Proof.
  unfold slot_ns. rewrite (N.mul_comm tick). rewrite N.Div0.div_mul_cancel_l; [done|]. unfold LEVEL0_RESOLUTION_NS. done.
Qed.

Record level_shape (k : nat) (l : WheelLevel) : Prop := {
  shape_slots : length (slots l) = 256%nat;
  shape_words : words_ok (occupied l);
  shape_cursor : cursor l < 256;
  shape_res : resolution_ns l = slot_ns k;
  shape_bits : ∀ slot, slot < 256 → slot_at l slot ≠ [] → bit_at (occupied l) slot = true;
}.

(** The level stands at level tick [c]: each entry waits in the slot of its own
    level tick, which is one of the next 256. *)
Record level_at (c : N) (l : WheelLevel) : Prop := {
  at_cursor : cursor l = c mod 256;
  at_slot : ∀ slot e, slot < 256 → e ∈ slot_at l slot → slot = (deadline e / resolution_ns l) mod 256;
  at_later : ∀ slot e, slot < 256 → e ∈ slot_at l slot → c < deadline e / resolution_ns l ∧ deadline e / resolution_ns l ≤ c + 256;
}.

Definition level_entries (l : WheelLevel) : list TimerEntry := concat (slots l).

Lemma concat_insert {A} (ls : list (list A)) i x y : ls !! i = Some x → concat (<[i := y]> ls) ++ x ≡ₚ concat ls ++ y.
Proof.
  intros Hi. rewrite <-(take_drop_middle ls i x Hi) at 2. rewrite insert_take_drop by (by eapply lookup_lt_Some).
  rewrite !concat_app. simpl. rewrite <-!app_assoc. apply Permutation_app_head.
  rewrite (Permutation_app_comm _ x), (Permutation_app_comm _ y), !app_assoc. apply Permutation_app_tail, Permutation_app_comm.
Qed.

Lemma elem_of_concat {A} (ls : list (list A)) x : x ∈ concat ls ↔ ∃ l, x ∈ l ∧ l ∈ ls.
Proof.
  rewrite list_elem_of_In, in_concat. split; intros (l & H1 & H2); exists l; rewrite ?list_elem_of_In in *; done.
Qed.

Lemma slot_lookup k l slot : level_shape k l → slot < 256 → slots l !! N.to_nat slot = Some (slot_at l slot).
Proof.
  intros Hs Hlt. unfold slot_at. apply list_lookup_lookup_total_lt. rewrite (shape_slots _ _ Hs). lia.
Qed.

Lemma slot_at_set k l slot b s : level_shape k l → slot < 256 → slot_at (set_slot l slot b) s = if decide (s = slot) then b else slot_at l s.
Proof.
  intros Hs Hlt. unfold slot_at. simpl. case_decide as Heq.
  - subst. apply list_lookup_total_insert_eq. rewrite (shape_slots _ _ Hs). lia.
  - apply list_lookup_total_insert_ne. lia.
Qed.

Lemma level_entries_elem k l e : level_shape k l → e ∈ level_entries l ↔ ∃ slot, slot < 256 ∧ e ∈ slot_at l slot.
Proof.
  intros Hs. unfold level_entries. rewrite elem_of_concat. split.
  - intros (b & He & (i & Hi)%list_elem_of_lookup). exists (N.of_nat i). pose proof (lookup_lt_Some _ _ _ Hi) as Hlt.
    rewrite (shape_slots _ _ Hs) in Hlt. split; [lia|]. unfold slot_at. rewrite Nat2N.id. by rewrite (list_lookup_total_correct _ _ _ Hi).
  - intros (slot & Hlt & He). exists (slot_at l slot). split; [done|]. eapply list_elem_of_lookup_2. by eapply slot_lookup.
Qed.

Lemma shape_set_cursor k l c : level_shape k l → c < 256 → level_shape k (set_cursor l c).
Proof. intros [H1 H2 H3 H4 H5] Hc. by split. Qed.

Lemma push_slot_spec k l slot e : level_shape k l → slot < 256 →
  level_shape k (push_slot l slot e) ∧ level_entries (push_slot l slot e) ≡ₚ e :: level_entries l ∧
  ∀ s, slot_at (push_slot l slot e) s = if decide (s = slot) then slot_at l s ++ [e] else slot_at l s.
Proof.
  intros Hs Hlt. pose proof Hs as [H1 H2 H3 H4 H5].
  assert (Hsl : ∀ s, slot_at (push_slot l slot e) s = if decide (s = slot) then slot_at l s ++ [e] else slot_at l s).
  { intros s. unfold push_slot. change (slot_at (set_occupied ?x slot) s) with (slot_at x s). rewrite (slot_at_set k) by done.
    case_decide; by subst. }
  split_and!; [|..|done].
  - split; simpl; [by rewrite length_insert|by apply (words_ok_set_occupied l)|done|done|]. intros s Hs' Hne.
    change (bit_at (occupied (set_occupied (set_slot l slot (slot_at l slot ++ [e])) slot)) s = true).
    rewrite set_occupied_bit by done. simpl. rewrite Hsl in Hne. case_decide as Heq.
    + rewrite bool_decide_true by done. apply orb_true_r.
    + by rewrite H5.
  - unfold level_entries. simpl. apply (Permutation_app_inv_r (slot_at l slot)).
    etrans; [apply concat_insert; by eapply slot_lookup|]. rewrite app_assoc. symmetry. apply Permutation_cons_append.
Qed.

Lemma turn_spec k l : level_shape k l → let '(l', bucket) := turn l in
  level_shape k l' ∧ cursor l' = (cursor l + 1) mod 256 ∧ bucket = slot_at l (cursor l') ∧
  level_entries l ≡ₚ bucket ++ level_entries l' ∧
  ∀ s, slot_at l' s = if decide (s = cursor l') then [] else slot_at l s.
Proof.
  intros Hs. pose proof Hs as [H1 H2 H3 H4 H5]. unfold turn. unfold SLOTS_PER_LEVEL. set (c := (cursor l + 1) mod 256).
  assert (Hc : c < 256) by (apply N.mod_lt; done). pose proof (shape_set_cursor k l c Hs Hc) as Hsc.
  assert (Hsl : ∀ s, slot_at (clear_occupied (set_slot (set_cursor l c) c []) c) s = if decide (s = c) then [] else slot_at l s).
  { intros s. change (slot_at (clear_occupied ?x c) s) with (slot_at x s). by rewrite (slot_at_set k). }
  split_and!; [| done | done | | done].
  - split; simpl; [by rewrite length_insert|by apply (words_ok_clear_occupied l)|done|done|]. intros s Hs' Hne.
    change (bit_at (occupied (clear_occupied (set_slot (set_cursor l c) c []) c)) s = true).
    rewrite clear_occupied_bit by done. simpl. rewrite Hsl in Hne. case_decide as Heq; [done|].
    rewrite bool_decide_false, andb_true_r by done. by apply H5.
  - unfold level_entries. simpl. pose proof (concat_insert (slots l) (N.to_nat c) (slot_at l c) []) as Hp.
    rewrite app_nil_r in Hp. rewrite <-Hp by (by eapply slot_lookup). apply Permutation_app_comm.
Qed.

Lemma mod_range_unique c T : c < T → T ≤ c + 256 → T mod 256 = (c + 1) mod 256 → T = c + 1.
Proof.
  intros H1 H2 H3. destruct (decide (T = c + 1)) as [|Hne]; [done|]. exfalso.
  pose proof (N.div_mod T 256 ltac:(lia)) as Ha. pose proof (N.div_mod (c + 1) 256 ltac:(lia)) as Hb. rewrite H3 in Ha.
  revert Ha Hb. generalize (T / 256) ((c + 1) / 256) ((c + 1) mod 256). intros q q' r Ha Hb. nia.
Qed.

(** Turning a level takes out exactly the entries of the next level tick. *)
Lemma turn_at k c l : level_shape k l → level_at c l → let '(l', bucket) := turn l in
  level_at (c + 1) l' ∧ ∀ e, e ∈ bucket → deadline e / slot_ns k = c + 1.
Proof.
  intros Hs Hat. pose proof (turn_spec k l Hs) as Ht. destruct (turn l) as [l' bucket]. destruct Ht as (Hs' & Hcur & -> & _ & Hsl).
  assert (Hc : cursor l' = (c + 1) mod 256).
  { rewrite Hcur, (at_cursor _ _ Hat). rewrite N.Div0.add_mod_idemp_l. done. }
  assert (Hcl : cursor l' < 256) by apply Hs'. pose proof (shape_res _ _ Hs) as Hr. pose proof (shape_res _ _ Hs') as Hr'.
  assert (Hb : ∀ e, e ∈ slot_at l (cursor l') → deadline e / slot_ns k = c + 1).
  { intros e He. pose proof (at_slot _ _ Hat _ _ Hcl He) as Hslot. pose proof (at_later _ _ Hat _ _ Hcl He) as [Hl1 Hl2].
    rewrite Hr in *. apply mod_range_unique; [done..|]. by rewrite <-Hslot. }
  split; [|done]. split; [done|..].
  - intros s e Hlt He. rewrite Hsl in He. case_decide; [by apply not_elem_of_nil in He|]. rewrite Hr', <-Hr. by apply (at_slot _ _ Hat).
  - intros s e Hlt He. rewrite Hsl in He. case_decide as Hne; [by apply not_elem_of_nil in He|]. rewrite Hr', <-Hr.
    destruct (at_later _ _ Hat s e Hlt He) as [Hl1 Hl2]. split; [|lia].
    assert (deadline e / resolution_ns l ≠ c + 1); [|lia]. intros Heq. apply Hne. rewrite Hc, <-Heq. by apply (at_slot _ _ Hat).
Qed.

(** ** The wheel *)

Section wheel_facts.
Context {Active : Type} `{!Slab Active N}.
Implicit Types (w : TimerWheel Active) (e : TimerEntry).

Record wheel_shape w : Prop := {
  ws_length : length (levels w) = 4%nat;
  ws_level : ∀ k l, levels w !! k = Some l → level_shape k l;
  ws_tick : current_tick w * LEVEL0_RESOLUTION_NS ≤ u64_MAX;
  ws_min_range : LEVEL0_RESOLUTION_NS ≤ max_wheel_duration_ns w;
  ws_max_range : max_wheel_duration_ns w ≤ slot_ns 4;
}.

(** Level [k] stands where time [tick] puts it. *)
Definition level_current (tick : N) (k : nat) w : Prop := ∀ l, levels w !! k = Some l → level_at (tick / slot_ticks k) l.

Definition entries w : list TimerEntry := ready w ++ concat (level_entries <$> levels w) ++ overflow w.

(** Beyond the range of the wheel. *)
Definition far w e : Prop := current_tick w * LEVEL0_RESOLUTION_NS + max_wheel_duration_ns w ≤ deadline e.
Definition overflow_far w : Prop := ∀ e, e ∈ overflow w → far w e.

(** Everything but the places where entries are stored. *)
Record same_rest w w' : Prop := {
  sr_tick : current_tick w' = current_tick w;
  sr_generation : next_generation w' = next_generation w;
  sr_active : active w' = active w;
  sr_coalescing : coalescing w' = coalescing w;
  sr_config : config w' = config w;
  sr_wheel : max_wheel_duration_ns w' = max_wheel_duration_ns w;
  sr_timer : max_timer_duration_ns w' = max_timer_duration_ns w;
}.

Lemma same_rest_refl w : same_rest w w.
Proof. by split. Qed.

Lemma same_rest_trans w1 w2 w3 : same_rest w1 w2 → same_rest w2 w3 → same_rest w1 w3.
Proof. intros [] []. split; congruence. Qed.

Lemma current_time_eq w : wheel_shape w → current_time w = current_tick w * LEVEL0_RESOLUTION_NS.
Proof. intros Hs. unfold current_time, saturating_mul. pose proof (ws_tick _ Hs). lia. Qed.

Lemma range_ns_eq k l : level_shape k l → (k < 4)%nat → range_ns l = slot_ns (S k).
Proof.
  intros Hs Hk. unfold range_ns, saturating_mul, SLOTS_PER_LEVEL. rewrite (shape_res _ _ Hs), slot_ns_S.
  assert (slot_ns k * 256 ≤ u64_MAX); [|lia]. do 4 (destruct k as [|k]; [by vm_compute|]). lia.
Qed.

Lemma find_level_spec ls k delta : (∀ i l, ls !! i = Some l → level_shape (k + i) l) → (k + length ls ≤ 4)%nat →
  (k = 0%nat ∨ slot_ns k ≤ delta) →
  match find_level delta ls with
  | Some idx => (idx < length ls)%nat ∧ delta < slot_ns (S (k + idx)) ∧ ((k + idx = 0)%nat ∨ slot_ns (k + idx) ≤ delta)
  | None => ls = [] ∨ slot_ns (k + length ls) ≤ delta
  end.
Proof.
  revert k. induction ls as [|l ls IH]; intros k Hls Hk Hd; cbn [find_level]; [by left|].
  assert (Hl : level_shape k l) by (rewrite <-(Nat.add_0_r k); by apply Hls). simpl in Hk. rewrite (range_ns_eq k) by (done || lia).
  destruct (N.ltb_spec delta (slot_ns (S k))) as [Hlt|Hge].
  - rewrite Nat.add_0_r. split_and!; [simpl; lia|done|done].
  - specialize (IH (S k)). destruct (find_level delta ls) as [idx|]; simpl.
    + destruct IH as (H1 & H2 & H3); [intros i l' Hi; replace (S k + i)%nat with (k + S i)%nat by lia; by apply Hls|lia|by right|].
      replace (k + S idx)%nat with (S k + idx)%nat by lia. split_and!; [lia|done|done].
    + right. destruct IH as [->|H1]; [intros i l' Hi; replace (S k + i)%nat with (k + S i)%nat by lia; by apply Hls|lia|by right|simpl..].
      * by replace (k + 1)%nat with (S k) by lia.
      * by replace (k + S (length ls))%nat with (S k + length ls)%nat by lia.
Qed.

Lemma entries_push_ready w e : entries (push_ready w e) ≡ₚ e :: entries w.
Proof. unfold entries, push_ready. simpl. rewrite <-app_assoc. simpl. symmetry. apply Permutation_middle. Qed.

Lemma entries_push_overflow w e : entries (push_overflow w e) ≡ₚ e :: entries w.
Proof. unfold entries, push_overflow. simpl. rewrite !app_assoc. symmetry. apply Permutation_middle. Qed.

(** The entries of a wheel one of whose levels was replaced. *)
Lemma entries_set_level w k l l' x : levels w !! k = Some l → level_entries l' ≡ₚ x ++ level_entries l →
  entries (set_levels w (<[k := l']> (levels w))) ≡ₚ x ++ entries w.
Proof.
  intros Hk Hp. unfold entries. simpl. rewrite list_fmap_insert.
  assert (Hc : concat (<[k := level_entries l']> (level_entries <$> levels w)) ≡ₚ x ++ concat (level_entries <$> levels w)).
  { apply (Permutation_app_inv_r (level_entries l)). etrans; [apply concat_insert; by rewrite list_lookup_fmap, Hk|].
    rewrite Hp, !app_assoc. apply Permutation_app_tail, Permutation_app_comm. }
  rewrite Hc, !app_assoc. do 2 apply Permutation_app_tail. apply Permutation_app_comm.
Qed.

Lemma shape_set_level w k l' : wheel_shape w → level_shape k l' → wheel_shape (set_levels w (<[k := l']> (levels w))).
Proof.
  intros [H1 H2 H3 H4 H5] Hl. split; simpl; [by rewrite length_insert| |done..].
  intros i l [(-> & <- & _)|[_ Hi]]%list_lookup_insert_Some; [done|by apply H2].
Qed.

(** Where [insert_entry] can leave [w], when the levels below [m] are current. *)
Record inserted (m : nat) w e w' : Prop := {
  in_rest : same_rest w w';
  in_shape : wheel_shape w';
  in_low : ∀ k, (k < m)%nat → level_current (current_tick w) k w';
  in_high : ∀ k, (m ≤ k)%nat → levels w' !! k = levels w !! k;
  in_entries : entries w' ≡ₚ e :: entries w;
  in_overflow : overflow w' = overflow w ∨ overflow w' = e :: overflow w ∧ far w e;
}.

Lemma inserted_ready m w e : wheel_shape w → (∀ k, (k < m)%nat → level_current (current_tick w) k w) → inserted m w e (push_ready w e).
Proof. intros [H1 H2 H3 H4 H5] Hl. split; [by split|by split|done|done|apply entries_push_ready|by left]. Qed.

Lemma inserted_overflow m w e : wheel_shape w → (∀ k, (k < m)%nat → level_current (current_tick w) k w) → far w e → inserted m w e (push_overflow w e).
Proof. intros [H1 H2 H3 H4 H5] Hl Hf. split; [by split|by split|done|done|apply entries_push_overflow|by right]. Qed.

(** The level tick of a deadline less than a turn and at least a slot away. *)
Lemma level_tick_later tick d k : (tick * LEVEL0_RESOLUTION_NS) + slot_ns k ≤ d → d < tick * LEVEL0_RESOLUTION_NS + slot_ns (S k) →
  tick / slot_ticks k < d / slot_ns k ∧ d / slot_ns k ≤ tick / slot_ticks k + 256.
Proof.
  intros H1 H2. rewrite <-level_tick_of_tick. rewrite slot_ns_S in H2. pose proof (slot_ns_pos k) as Hp.
  set (t := tick * LEVEL0_RESOLUTION_NS) in *. set (s := slot_ns k) in *.
  destruct (div_bounds t s Hp) as [Ht1 Ht2], (div_bounds d s Hp) as [Hd1 Hd2]. revert Ht1 Ht2 Hd1 Hd2.
  generalize (t / s) (d / s). intros qt qd Ht1 Ht2 Hd1 Hd2. split; nia.
Qed.

Lemma insert_entry_spec m w e : wheel_shape w → (1 ≤ m ≤ 4)%nat → (∀ k, (k < m)%nat → level_current (current_tick w) k w) →
  (m = 4%nat ∨ deadline e < current_tick w * LEVEL0_RESOLUTION_NS + slot_ns m) → inserted m w e (insert_entry w e).
Proof.
  intros Hs Hm Hlow Hnear. unfold insert_entry. rewrite (current_time_eq w Hs). unfold saturating_sub.
  set (t := current_tick w * LEVEL0_RESOLUTION_NS) in *.
  destruct (N.leb_spec (deadline e) t) as [Hle|Hgt]; [by apply inserted_ready|].
  destruct (N.leb_spec (max_wheel_duration_ns w) (deadline e - t)) as [Hmax|Hmax].
  { apply inserted_overflow; [done..|]. unfold far. fold t. lia. }
  pose proof (find_level_spec (levels w) 0 (deadline e - t) (ws_level _ Hs)) as Hf. rewrite (ws_length _ Hs) in Hf.
  specialize (Hf ltac:(lia) ltac:(by left)). pose proof (ws_max_range _ Hs) as Hmr.
  destruct (find_level _ _) as [idx|].
  2: { destruct Hf as [Hnil|Hf]; [pose proof (ws_length _ Hs) as Hlen; by rewrite Hnil in Hlen|]. simpl in Hf. lia. }
  simpl in Hf. destruct Hf as (Hidx & Hlt & Hlow'). destruct (lookup_lt_is_Some_2 (levels w) idx) as [l Hl]; [rewrite (ws_length _ Hs); lia|].
  rewrite Hl. pose proof (ws_level _ Hs idx l Hl) as Hsl. rewrite (shape_res _ _ Hsl).
  assert (Him : (idx < m)%nat).
  { destruct (decide (idx < m)%nat) as [|Hge]; [done|]. exfalso. destruct Hnear as [->|Hn]; [lia|].
    destruct Hlow' as [->|Hlow']; [lia|]. assert (slot_ns m ≤ slot_ns idx); [|lia].
    clear -Hge. assert (m ≤ idx)%nat as Hle by lia. clear Hge. induction Hle as [|i Hle IH]; [done|]. rewrite slot_ns_S. lia. }
  destruct ((idx =? 0)%nat && (deadline e / slot_ns idx <=? t / slot_ns idx)) eqn:Hready; [by apply inserted_ready|].
  assert (Hlater : current_tick w / slot_ticks idx < deadline e / slot_ns idx ∧ deadline e / slot_ns idx ≤ current_tick w / slot_ticks idx + 256).
  { destruct idx as [|idx].
    - simpl in Hready. apply N.leb_gt in Hready. unfold t in Hready. rewrite level_tick_of_tick in Hready. split; [done|].
      unfold slot_ns, slot_ticks in *. change (256 ^ N.of_nat 0) with 1 in *. change (256 ^ N.of_nat 1) with 256 in *.
      rewrite N.mul_1_r, N.div_1_r in *. apply N.lt_succ_r. apply N.Div0.div_lt_upper_bound. unfold LEVEL0_RESOLUTION_NS in *. lia.
    - apply level_tick_later; fold t; [|lia]. destruct Hlow' as [|Hlow']; [done|]. lia. }
  unfold SLOTS_PER_LEVEL. set (slot := (deadline e / slot_ns idx) mod 256). assert (Hslot : slot < 256) by (apply N.mod_lt; done).
  destruct (push_slot_spec idx l slot e Hsl Hslot) as (Hsp & Hep & Hat).
  split; [by split|by apply shape_set_level| | | |by left].
  - intros k Hk l' Hl'. simpl in Hl'. apply list_lookup_insert_Some in Hl' as [(<- & <- & _)|[Hne Hl']]; [|by apply Hlow].
    pose proof (Hlow idx Him l Hl) as [Hc Hs1 Hs2]. rewrite (shape_res _ _ Hsl) in *. split.
    + done.
    + intros s e' Hs' He'. rewrite Hat in He'. rewrite (shape_res _ _ Hsp). case_decide as Heq; [|by apply Hs1].
      apply elem_of_app in He' as [He'|He']; [by apply Hs1|]. apply list_elem_of_singleton in He' as ->. done.
    + intros s e' Hs' He'. rewrite Hat in He'. rewrite (shape_res _ _ Hsp). case_decide as Heq; [|by apply (Hs2 s)].
      apply elem_of_app in He' as [He'|He']; [by apply (Hs2 s)|]. apply list_elem_of_singleton in He' as ->. done.
  - intros k Hk. simpl. by rewrite list_lookup_insert_ne by lia.
  - apply (entries_set_level w idx l _ [e] Hl). done.
Qed.

(** *** Buckets *)

Definition lives (a : Active) e : bool := match slab_at a (entry_id e) with Some g => g =? generation e | None => false end.

Lemma is_live_eq w e : is_live w e = lives (active w) e.
Proof. done. Qed.

(** The same entries up to order, some dead ones left out. *)
Definition shuffled (a : Active) (l l' : list TimerEntry) : Prop := ∃ dead, l ≡ₚ l' ++ dead ∧ ∀ e, e ∈ dead → lives a e = false.

Lemma shuffled_perm a l l' : l ≡ₚ l' → shuffled a l l'.
Proof. intros Hp. exists []. rewrite app_nil_r. split; [done|]. by intros e ?%not_elem_of_nil. Qed.

Lemma shuffled_trans a l1 l2 l3 : shuffled a l1 l2 → shuffled a l2 l3 → shuffled a l1 l3.
Proof.
  intros (d1 & H1 & D1) (d2 & H2 & D2). exists (d2 ++ d1). split; [by rewrite H1, H2, app_assoc|]. intros e [?|?]%elem_of_app; auto.
Qed.

Lemma shuffled_app a l1 l2 x : shuffled a l1 l2 → shuffled a (x ++ l1) (x ++ l2).
Proof. intros (d & H1 & D). exists d. split; [by rewrite H1, app_assoc|done]. Qed.

Lemma shuffled_drop a e l : lives a e = false → shuffled a (e :: l) l.
Proof. intros Hd. exists [e]. split; [apply Permutation_cons_append|]. by intros e' ->%list_elem_of_singleton. Qed.

Record moved (m : nat) w (bucket : list TimerEntry) w' : Prop := {
  mv_rest : same_rest w w';
  mv_shape : wheel_shape w';
  mv_low : ∀ k, (k < m)%nat → level_current (current_tick w) k w';
  mv_high : ∀ k, (m ≤ k)%nat → levels w' !! k = levels w !! k;
  mv_entries : shuffled (active w) (bucket ++ entries w) (entries w');
  mv_overflow : ∀ e, e ∈ overflow w' → e ∈ overflow w ∨ far w e;
}.

Lemma fold_moved m (f : TimerWheel Active → TimerEntry → TimerWheel Active) w bucket :
  (∀ w e, wheel_shape w → (∀ k, (k < m)%nat → level_current (current_tick w) k w) →
     (m = 4%nat ∨ deadline e < current_tick w * LEVEL0_RESOLUTION_NS + slot_ns m) →
     (f w e = w ∧ lives (active w) e = false) ∨ inserted m w e (f w e)) →
  wheel_shape w → (∀ k, (k < m)%nat → level_current (current_tick w) k w) →
  (∀ e, e ∈ bucket → m = 4%nat ∨ deadline e < current_tick w * LEVEL0_RESOLUTION_NS + slot_ns m) →
  moved m w bucket (foldl f w bucket).
Proof.
  intros Hf. revert w. induction bucket as [|e bucket IH]; intros w Hs Hlow Hnear; cbn [foldl].
  { split; [apply same_rest_refl|done|done|done|by apply shuffled_perm|auto]. }
  destruct (Hf w e Hs Hlow (Hnear e ltac:(left))) as [[-> Hdead]|Hins].
  - destruct (IH w Hs Hlow) as [H1 H2 H3 H4 H5 H6]; [intros e' He'; apply Hnear; by right|]. split; try done.
    eapply shuffled_trans; [|done]. by apply shuffled_drop.
  - destruct Hins as [R1 S1 L1 U1 E1 O1]. set (w1 := f w e) in *. pose proof (sr_tick _ _ R1) as Ht.
    destruct (IH w1 S1) as [H1 H2 H3 H4 H5 H6]; [by rewrite Ht|intros e' He'; rewrite Ht; apply Hnear; by right|].
    split.
    + by eapply same_rest_trans.
    + done.
    + by rewrite <-Ht.
    + intros k Hk. by rewrite H4, U1.
    + rewrite (sr_active _ _ R1) in H5. eapply shuffled_trans; [|exact H5]. apply shuffled_perm. simpl. rewrite E1. apply Permutation_middle.
    + intros e' He'. destruct (H6 e' He') as [Hov|Hfar].
      * destruct O1 as [O1|[O1 Hfar]]; rewrite O1 in Hov; [auto|]. apply elem_of_cons in Hov as [->|]; auto.
      * right. unfold far in *. by rewrite Ht, (sr_wheel _ _ R1) in Hfar.
Qed.

Lemma insert_if_live_moved m w bucket : wheel_shape w → (1 ≤ m ≤ 4)%nat → (∀ k, (k < m)%nat → level_current (current_tick w) k w) →
  (∀ e, e ∈ bucket → m = 4%nat ∨ deadline e < current_tick w * LEVEL0_RESOLUTION_NS + slot_ns m) →
  moved m w bucket (foldl insert_if_live w bucket).
Proof.
  intros Hs Hm. apply fold_moved; [|done]. intros w' e Hs' Hlow Hnear. unfold insert_if_live. rewrite is_live_eq.
  destruct (lives (active w') e) eqn:Hl; [right; by apply insert_entry_spec|by left].
Qed.

Lemma collect_bucket_moved w bucket : wheel_shape w → level_current (current_tick w) 0 w →
  (∀ e, e ∈ bucket → deadline e < current_tick w * LEVEL0_RESOLUTION_NS + slot_ns 1) →
  moved 1 w bucket (collect_bucket w bucket).
Proof.
  intros Hs Hlow Hnear. unfold collect_bucket. apply fold_moved; [|done|intros k Hk; by assert (k = 0%nat) as -> by lia|auto].
  intros w' e Hs' Hlow' Hnear'. rewrite is_live_eq. destruct (lives (active w') e) eqn:Hl; simpl; [|by left]. right.
  case_match; [by apply inserted_ready|by apply insert_entry_spec; [|lia|..]].
Qed.

(** *** Cascading *)

(** After a tick: the levels below [m] are current, the others still stand at
    the previous tick. *)
Definition ticking (m : nat) w : Prop :=
  (∀ k, (k < m)%nat → level_current (current_tick w) k w) ∧ (∀ k, (m ≤ k)%nat → level_current (current_tick w - 1) k w).

Lemma div_step tick k : 0 < tick → tick mod slot_ticks k = 0 → tick / slot_ticks k = (tick - 1) / slot_ticks k + 1.
Proof.
  intros Ht Hm. pose proof (slot_ticks_pos k) as Hp. pose proof (N.div_mod tick (slot_ticks k) ltac:(lia)) as Hd. rewrite Hm in Hd.
  set (s := slot_ticks k) in *. set (q := tick / s) in *. assert (0 < q) by nia.
  assert ((tick - 1) / s = q - 1); [|lia]. symmetry. apply (N.div_unique _ _ _ (s - 1)); [lia|]. nia.
Qed.

Lemma div_same tick k : 0 < tick → tick mod slot_ticks k ≠ 0 → tick / slot_ticks k = (tick - 1) / slot_ticks k.
Proof.
  intros Ht Hm. pose proof (slot_ticks_pos k) as Hp. pose proof (N.div_mod tick (slot_ticks k) ltac:(lia)) as Hd.
  pose proof (N.mod_lt tick (slot_ticks k) ltac:(lia)) as Hr. revert Hd Hr Hm. generalize (tick / slot_ticks k) (tick mod slot_ticks k).
  intros q r Hd Hr Hm. apply (N.div_unique _ _ _ (r - 1)); lia.
Qed.

Lemma mod_zero_S tick k : tick mod slot_ticks k = 0 → (tick / slot_ticks k) mod 256 = 0 ↔ tick mod slot_ticks (S k) = 0.
Proof.
  intros Hm. rewrite slot_ticks_S, (N.mul_comm 256). pose proof (slot_ticks_pos k). rewrite N.Div0.mod_mul_r, Hm, N.add_0_l. nia.
Qed.

Lemma mod_nonzero_up tick k j : (k ≤ j)%nat → tick mod slot_ticks k ≠ 0 → tick mod slot_ticks j ≠ 0.
Proof.
  intros Hkj Hm. induction Hkj as [|j Hkj IH]; [done|]. intros H0. apply IH. rewrite slot_ticks_S in H0.
  pose proof (slot_ticks_pos j). apply N.Div0.mod_divides in H0 as [q Hq]. rewrite Hq.
  replace (256 * slot_ticks j * q) with (256 * q * slot_ticks j) by lia. apply N.Div0.mod_mul.
Qed.

(** Turning level [m]: its bucket is near, and the level becomes current. *)
Lemma turn_level m w l : wheel_shape w → 0 < current_tick w → (m < 4)%nat → ticking m w → current_tick w mod slot_ticks m = 0 →
  levels w !! m = Some l → let '(l', bucket) := turn l in
  let w1 := set_levels w (<[m := l']> (levels w)) in
  wheel_shape w1 ∧ ticking (S m) w1 ∧ cursor l' = (current_tick w / slot_ticks m) mod 256 ∧ entries w ≡ₚ bucket ++ entries w1 ∧
  ∀ e, e ∈ bucket → deadline e < current_tick w * LEVEL0_RESOLUTION_NS + slot_ns m.
Proof.
  intros Hs Ht Hm [Hlow Hhigh] Hdiv Hl. pose proof (ws_level _ Hs m l Hl) as Hsl.
  pose proof (turn_spec m l Hsl) as Hsp. pose proof (turn_at m _ l Hsl (Hhigh m ltac:(lia) l Hl)) as Hta.
  destruct (turn l) as [l' bucket]. destruct Hsp as (Hs' & Hc & Hb & He & _), Hta as [Hat Hdl].
  rewrite <-div_step in Hat, Hdl by done. split_and!.
  - by apply shape_set_level.
  - split; intros k Hk l1 Hl1; simpl in *; apply list_lookup_insert_Some in Hl1 as [(<- & <- & _)|[Hne Hl1]].
    + done.
    + apply Hlow; [lia|done].
    + lia.
    + apply Hhigh; [lia|done].
  - by apply Hat.
  - unfold entries. simpl. rewrite list_fmap_insert.
    assert (Hcc : concat (level_entries <$> levels w) ≡ₚ bucket ++ concat (<[m := level_entries l']> (level_entries <$> levels w))).
    { apply (Permutation_app_inv_r (level_entries l')).
      etrans; [symmetry; apply (concat_insert _ m (level_entries l) (level_entries l')); by rewrite list_lookup_fmap, Hl|].
      rewrite He, app_assoc. apply Permutation_app_tail, Permutation_app_comm. }
    rewrite Hcc, !app_assoc. do 2 apply Permutation_app_tail. apply Permutation_app_comm.
  - intros e Hin. specialize (Hdl e Hin). pose proof (slot_ns_pos m) as Hp. destruct (div_bounds (deadline e) (slot_ns m) Hp) as [_ Hub].
    rewrite Hdl in Hub. assert (slot_ns m * (current_tick w / slot_ticks m) = current_tick w * LEVEL0_RESOLUTION_NS) as Heq; [|lia].
    pose proof (N.div_mod (current_tick w) (slot_ticks m) ltac:(pose proof (slot_ticks_pos m); lia)) as Hd. rewrite Hdiv in Hd.
    unfold slot_ns. rewrite Hd at 2. lia.
Qed.

(** A step of time: every level is current again. *)
Record ticked w w' : Prop := {
  tk_rest : same_rest w w';
  tk_shape : wheel_shape w';
  tk_levels : ∀ k, level_current (current_tick w) k w';
  tk_entries : shuffled (active w) (entries w) (entries w');
  tk_overflow : ∀ e, e ∈ overflow w' → e ∈ overflow w ∨ far w e;
}.

Lemma ticking_all m w : 0 < current_tick w → ticking m w → (m = 4%nat ∧ length (levels w) = 4%nat ∨ current_tick w mod slot_ticks m ≠ 0) →
  ∀ k, level_current (current_tick w) k w.
Proof.
  intros Ht [Hlow Hhigh] Hm k. destruct (decide (k < m)%nat) as [Hk|Hk]; [by apply Hlow|]. intros l Hl. destruct Hm as [[-> Hlen]|Hm].
  - apply lookup_lt_Some in Hl. lia.
  - rewrite div_same; [apply Hhigh; [lia|done]|done|]. apply (mod_nonzero_up _ m); [lia|done].
Qed.

(** Moving a bucket into the levels below [m] keeps the tick in progress. *)
Lemma moved_ticking m n w bucket w' : moved m w bucket w' → (m ≤ n)%nat → ticking n w → ticking n w'.
Proof.
  intros [R S L U E O] Hmn [Hlow Hhigh]. split; rewrite (sr_tick _ _ R); intros k Hk.
  - destruct (decide (k < m)%nat); [by apply L|]. intros l Hl. rewrite U in Hl by lia. by apply Hlow.
  - intros l Hl. rewrite U in Hl by lia. by apply Hhigh.
Qed.

Lemma cascade_spec fuel w m : wheel_shape w → 0 < current_tick w → (1 ≤ m ≤ 4)%nat → (4 < m + fuel)%nat → ticking m w →
  current_tick w mod slot_ticks m = 0 → ticked w (cascade fuel w m).
Proof.
  revert w m. induction fuel as [|fuel IH]; intros w m Hs Ht Hm Hf Htk Hdiv; [lia|]. cbn [cascade].
  destruct (levels w !! m) as [l|] eqn:Hl.
  2: { apply lookup_ge_None in Hl. rewrite (ws_length _ Hs) in Hl. assert (m = 4%nat) as -> by lia.
       split; [apply same_rest_refl|done| |by apply shuffled_perm|auto]. apply (ticking_all 4); [done|done|]. left. split; [done|apply Hs]. }
  assert (Hm4 : (m < 4)%nat) by (apply lookup_lt_Some in Hl; rewrite (ws_length _ Hs) in Hl; lia).
  pose proof (turn_level m w l Hs Ht Hm4 Htk Hdiv Hl) as Htl. destruct (turn l) as [l' bucket]. cbv zeta in Htl.
  set (w1 := set_levels w _) in *. destruct Htl as (Hs1 & Htk1 & Hcur & He1 & Hnear).
  destruct (insert_if_live_moved m w1 bucket Hs1 ltac:(lia)) as [R2 S2 L2 U2 E2 O2].
  { intros k Hk. apply Htk1. lia. }
  { intros e He. right. by apply Hnear. }
  assert (Htk2 : ticking (S m) (foldl insert_if_live w1 bucket)) by (eapply (moved_ticking m); [by split|lia|done]).
  set (w2 := foldl _ _ _) in *.
  assert (Hr2 : same_rest w w2) by (eapply same_rest_trans; [|exact R2]; by split).
  assert (He2 : shuffled (active w) (entries w) (entries w2)) by (eapply shuffled_trans; [by apply shuffled_perm|exact E2]).
  assert (Hsub : ∀ w3, ticked w2 w3 → ticked w w3).
  { intros w3 [R3 S3 L3 E3 O3]. rewrite (sr_active _ _ Hr2), (sr_tick _ _ Hr2) in *. split.
    - by eapply same_rest_trans.
    - done.
    - done.
    - by eapply shuffled_trans.
    - intros e He. unfold far in *. destruct (O3 e He) as [Hin|Hfar].
      + destruct (O2 e Hin); auto.
      + right. by rewrite (sr_tick _ _ Hr2), (sr_wheel _ _ Hr2) in Hfar. }
  destruct (N.eqb_spec (cursor l') 0) as [Hc0|Hc0].
  - apply Hsub. rewrite Hcur in Hc0. apply (mod_zero_S _ _ Hdiv) in Hc0. apply IH; [done|by rewrite (sr_tick _ _ Hr2)|lia|lia|done|by rewrite (sr_tick _ _ Hr2)].
  - apply Hsub. split; [apply same_rest_refl|done| |by apply shuffled_perm|auto].
    apply (ticking_all (S m)); [by rewrite (sr_tick _ _ Hr2)|done|]. right. rewrite (sr_tick _ _ Hr2), <-(mod_zero_S _ _ Hdiv), <-Hcur. done.
Qed.

Lemma tick_level0_spec w : wheel_shape w → 0 < current_tick w → ticking 0 w → ticked w (tick_level0 w).
Proof.
  intros Hs Ht Htk. unfold tick_level0. destruct (levels w) as [|l0 ls] eqn:Hls; [pose proof (ws_length _ Hs) as Hlen; by rewrite Hls in Hlen|].
  assert (Hl : levels w !! 0%nat = Some l0) by (by rewrite Hls). assert (Hdiv : current_tick w mod slot_ticks 0 = 0) by apply N.mod_1_r.
  pose proof (turn_level 0 w l0 Hs Ht ltac:(lia) Htk Hdiv Hl) as Htl. destruct (turn l0) as [l' bucket]. cbv zeta in Htl.
  rewrite Hls in Htl. cbn [insert list_insert] in Htl. set (w1 := set_levels w _) in *. destruct Htl as (Hs1 & Htk1 & Hcur & He1 & Hnear).
  pose proof (collect_bucket_moved w1 bucket Hs1) as Hmv. destruct Hmv as [R2 S2 L2 U2 E2 O2].
  { apply Htk1. lia. }
  { intros e He. specialize (Hnear e He). rewrite slot_ns_S. change (current_tick w1) with (current_tick w). lia. }
  assert (Htk2 : ticking 1 (collect_bucket w1 bucket)) by (eapply (moved_ticking 1); [by split|lia|done]).
  set (w2 := collect_bucket _ _) in *.
  assert (Hr2 : same_rest w w2) by (eapply same_rest_trans; [|exact R2]; by split).
  assert (He2 : shuffled (active w) (entries w) (entries w2)) by (eapply shuffled_trans; [by apply shuffled_perm|exact E2]).
  pose proof (mod_zero_S (current_tick w) 0 Hdiv) as H0. rewrite <-Hcur in H0.
  assert (Hsub : ∀ w3, ticked w2 w3 → ticked w w3).
  { intros w3 [R3 S3 L3 E3 O3]. rewrite (sr_active _ _ Hr2), (sr_tick _ _ Hr2) in *. split.
    - by eapply same_rest_trans.
    - done.
    - done.
    - by eapply shuffled_trans.
    - intros e He. unfold far in *. destruct (O3 e He) as [Hin|Hfar].
      + destruct (O2 e Hin); auto.
      + right. by rewrite (sr_tick _ _ Hr2), (sr_wheel _ _ Hr2) in Hfar. }
  destruct (N.eqb_spec (cursor l') 0) as [Hc0|Hc0]; apply Hsub.
  - apply H0 in Hc0. apply cascade_spec; [done|by rewrite (sr_tick _ _ Hr2)|lia|unfold LEVEL_COUNT; lia|done|by rewrite (sr_tick _ _ Hr2)].
  - split; [apply same_rest_refl|done| |by apply shuffled_perm|auto].
    apply (ticking_all 1); [by rewrite (sr_tick _ _ Hr2)|done|]. right. by rewrite (sr_tick _ _ Hr2), <-H0.
Qed.

End wheel_facts.
