(* ===== verification/WheelTime.v ===== *)
(** * The timer wheel: the passage of time

    Refilling the levels from the overflow heap, skipping the ticks at which
    nothing is stored, and the loop of [advance_to]: it ends, it keeps every live
    entry, and it leaves every level standing at the new tick. *)

From S2P Require Import Prelude Ids Slab Wheel WheelInv.

(** ** The heap *)

Lemma overflow_cmp_deadline x y : match overflow_cmp x y with Gt => deadline x ≤ deadline y | _ => deadline y ≤ deadline x end.
Proof.
  unfold overflow_cmp. destruct (N.compare_spec (deadline y) (deadline x)); simpl; [|lia|lia].
  destruct (then_with _ _); lia.
Qed.

Lemma heap_pop_spec l :
  match heap_pop l with
  | None => l = []
  | Some (e, rest) => l ≡ₚ e :: rest ∧ ∀ x, x ∈ l → deadline e ≤ deadline x
  end.
Proof.
  induction l as [|x l IH]; [done|]. cbn [heap_pop]. destruct (heap_pop l) as [[y rest]|].
  - destruct IH as [Hp Hm]. pose proof (overflow_cmp_deadline y x) as Hc. destruct (overflow_cmp y x).
    1,2: split; [by rewrite Hp|]; intros z [->|Hz]%elem_of_cons; [lia|]; specialize (Hm z Hz); lia.
    split; [rewrite Hp; apply perm_swap|]. intros z [->|Hz]%elem_of_cons; [lia|auto].
  - subst. split; [done|]. by intros z ->%list_elem_of_singleton.
Qed.

Section wheel_time.
Context {Active : Type} `{!Slab Active N}.
Implicit Types (w : TimerWheel Active) (e : TimerEntry).

(** ** Refilling *)

(** The wheel between two operations on time. *)
Record wheel_current w : Prop := {
  wc_shape : wheel_shape w;
  wc_levels : ∀ k, level_current (current_tick w) k w;
  wc_far : overflow_far w;
}.

Lemma shape_set_overflow w o : wheel_shape w → wheel_shape (set_overflow w o).
Proof. intros []. by split. Qed.

(** What comes out of the heap and is near never goes back. *)
Lemma insert_entry_near w e : wheel_shape w → (∀ k, level_current (current_tick w) k w) →
  deadline e < current_tick w * LEVEL0_RESOLUTION_NS + max_wheel_duration_ns w →
  inserted 4 w e (insert_entry w e) ∧ overflow (insert_entry w e) = overflow w.
Proof.
  intros Hs Hl Hn. pose proof (insert_entry_spec 4 w e Hs ltac:(lia) (λ k _, Hl k) ltac:(by left)) as Hi. split; [done|].
  destruct (in_overflow _ _ _ _ Hi) as [|[_ Hf]]; [done|]. unfold far in Hf. lia.
Qed.

Lemma refill_loop_spec fuel w : wheel_shape w → (∀ k, level_current (current_tick w) k w) → (length (overflow w) ≤ fuel)%nat →
  ∃ w', refill_loop fuel w = Returns w' ∧ same_rest w w' ∧ wheel_current w' ∧ shuffled (active w) (entries w) (entries w').
Proof.
  revert w. induction fuel as [|fuel IH]; intros w Hs Hl Hf; unfold refill_loop; fold refill_loop; pose proof (heap_pop_spec (overflow w)) as Hpop;
    (destruct (heap_pop (overflow w)) as [[e rest]|];
      [destruct Hpop as [Hp Hm]|exists w; split_and!; [done|apply same_rest_refl|split; [done|done|intros x Hx; rewrite Hpop in Hx; by apply not_elem_of_nil in Hx]|by apply shuffled_perm]]).
  { apply Permutation_length in Hp. simpl in Hp. lia. }
  rewrite (current_time_eq w Hs). unfold saturating_sub. destruct (N.ltb_spec (deadline e - current_tick w * LEVEL0_RESOLUTION_NS) (max_wheel_duration_ns w)) as [Hn|Hn].
  - pose proof (shape_set_overflow w rest Hs) as Hs1. set (w1 := set_overflow w rest) in *.
    assert (Hlen : (length rest ≤ fuel)%nat) by (apply Permutation_length in Hp; simpl in Hp; lia).
    assert (He : entries w ≡ₚ e :: entries w1).
    { unfold entries, w1. simpl. rewrite Hp, !app_assoc. symmetry. apply Permutation_middle. }
    pose proof (ws_min_range _ Hs) as Hmin. unfold insert_if_live. rewrite is_live_eq.
    destruct (lives (active w1) e) eqn:Hlive.
    + destruct (insert_entry_near w1 e Hs1 Hl) as [[R1 S1 L1 U1 E1 O1] Hov]; [simpl; unfold LEVEL0_RESOLUTION_NS in *; lia|].
      destruct (IH (insert_entry w1 e)) as (w' & Hrun & R' & C' & E').
      * done.
      * intros k l Hk. rewrite (sr_tick _ _ R1). destruct (decide (k < 4)%nat); [by apply L1|].
        apply lookup_lt_Some in Hk. rewrite (ws_length _ S1) in Hk. lia.
      * by rewrite Hov.
      * exists w'. split_and!; [done|eapply same_rest_trans; [|exact R']; eapply same_rest_trans; [|exact R1]; by split|done|].
        rewrite (sr_active _ _ R1) in E'. eapply shuffled_trans; [|exact E']. apply shuffled_perm. by rewrite He, E1.
    + destruct (IH w1 Hs1 Hl Hlen) as (w' & Hrun & R' & C' & E'). exists w'. split_and!; [done|eapply same_rest_trans; [|exact R']; by split|done|].
      eapply shuffled_trans; [apply shuffled_perm, He|]. eapply shuffled_trans; [by apply shuffled_drop|exact E'].
  - exists w. split_and!; [done|apply same_rest_refl|split; [done|done|]|by apply shuffled_perm].
    intros x Hx. specialize (Hm x Hx). unfold far. pose proof (ws_min_range _ Hs) as Hmin. unfold LEVEL0_RESOLUTION_NS in *. lia.
Qed.

Lemma refill_overflow_spec w : wheel_shape w → (∀ k, level_current (current_tick w) k w) →
  ∃ w', refill_overflow w = Returns w' ∧ same_rest w w' ∧ wheel_current w' ∧ shuffled (active w) (entries w) (entries w').
Proof. intros Hs Hl. by apply refill_loop_spec. Qed.

(** ** Skipping *)

(** The tick at which the slot of an entry of level [k] comes up. *)
Definition due_tick (k : nat) e : N := deadline e / slot_ns k * slot_ticks k.

(** The next occupied slot comes up no later than any stored entry. *)
Lemma hit_before k tick l d e : level_shape k l → level_at (tick / slot_ticks k) l → next_occupied_distance l = Some d →
  e ∈ level_entries l → tick - tick mod slot_ticks k + d * slot_ticks k ≤ due_tick k e.
Proof.
  intros Hs Hat Hd He. pose proof (next_occupied_spec l (shape_words _ _ Hs) (shape_cursor _ _ Hs)) as Hn. rewrite Hd in Hn.
  destruct Hn as (Hd1 & Hd2 & Hn). apply (level_entries_elem k l e Hs) in He as (slot & Hlt & He).
  pose proof (at_slot _ _ Hat slot e Hlt He) as Hslot. destruct (at_later _ _ Hat slot e Hlt He) as [Hl1 Hl2].
  rewrite (shape_res _ _ Hs) in *. pose proof (slot_ticks_pos k) as Hp. unfold due_tick.
  set (T := deadline e / slot_ns k) in *. set (c := tick / slot_ticks k) in *.
  assert (tick - tick mod slot_ticks k = c * slot_ticks k) as ->.
  { pose proof (N.div_mod tick (slot_ticks k) ltac:(lia)) as Hm. fold c in Hm. revert Hm. generalize (tick mod slot_ticks k). intros; lia. }
  assert (Hj : d ≤ T - c); [|nia]. destruct (N.le_gt_cases d (T - c)) as [|Hgt]; [done|]. exfalso.
  assert (Hb : bit_at (occupied l) slot = true).
  { apply (shape_bits _ _ Hs); [done|]. intros Hnil. rewrite Hnil in He. by apply not_elem_of_nil in He. }
  specialize (Hn (T - c) ltac:(lia) Hgt). rewrite (at_cursor _ _ Hat), N.Div0.add_mod_idemp_l in Hn.
  replace (c + (T - c)) with T in Hn by lia. rewrite <-Hslot in Hn. congruence.
Qed.

Lemma none_empty k l : level_shape k l → next_occupied_distance l = None → level_entries l = [].
Proof.
  intros Hs Hd. pose proof (next_occupied_spec l (shape_words _ _ Hs) (shape_cursor _ _ Hs)) as Hn. rewrite Hd in Hn.
  destruct (level_entries l) as [|e es] eqn:Hes; [done|]. exfalso.
  assert (He : e ∈ level_entries l) by (rewrite Hes; left). apply (level_entries_elem k l e Hs) in He as (slot & Hlt & He).
  pose proof (shape_bits _ _ Hs slot Hlt) as Hb. rewrite (Hn slot Hlt) in Hb. discriminate Hb. intros Hnil. rewrite Hnil in He. by apply not_elem_of_nil in He.
Qed.

Lemma skip_levels_spec tick ls k next : (∀ i l, ls !! i = Some l → level_shape (k + i) l ∧ level_at (tick / slot_ticks (k + i)) l) →
  tick < next →
  let r := skip_levels tick ls (slot_ticks k) next in
  tick < r ∧ r ≤ next ∧ ∀ i l e, ls !! i = Some l → e ∈ level_entries l → r ≤ due_tick (k + i) e.
Proof.
  revert k next. induction ls as [|l ls IH]; intros k next Hls Hn; cbn [skip_levels]; [split_and!; [done|done|by intros ? ? ? [=]]|].
  destruct (Hls 0%nat l eq_refl) as [Hs Hat]. rewrite Nat.add_0_r in Hs, Hat. unfold SLOTS_PER_LEVEL.
  rewrite (N.mul_comm (slot_ticks k)), <-slot_ticks_S. pose proof (slot_ticks_pos k) as Hp.
  set (next' := match next_occupied_distance l with Some _ => _ | None => _ end).
  assert (H1 : tick < next' ∧ next' ≤ next ∧ ∀ e, e ∈ level_entries l → next' ≤ due_tick k e).
  { unfold next'. clear next'. destruct (next_occupied_distance l) as [d|] eqn:Hd.
    - pose proof (next_occupied_spec l (shape_words _ _ Hs) (shape_cursor _ _ Hs)) as Hd1. rewrite Hd in Hd1. destruct Hd1 as [Hd1 _].
      pose proof (λ e, hit_before k tick l d e Hs Hat Hd) as Hh.
      assert (Hhit : tick < tick - tick mod slot_ticks k + d * slot_ticks k).
      { pose proof (N.div_mod tick (slot_ticks k) ltac:(lia)) as Hm. pose proof (N.mod_lt tick (slot_ticks k) ltac:(lia)) as Hr. revert Hm Hr.
        generalize (tick mod slot_ticks k) (tick / slot_ticks k). intros; nia. }
      set (hit := tick - _ + _) in *. destruct (N.leb_spec hit tick); [lia|].
      destruct (N.ltb_spec hit next); (split_and!; [lia|lia|]); intros e He; specialize (Hh e He); lia.
    - split_and!; [done|done|]. intros e He. rewrite (none_empty k l Hs Hd) in He. by apply not_elem_of_nil in He. }
  destruct H1 as (H1 & H2 & H3). destruct (IH (S k) next') as (I1 & I2 & I3); [|done|].
  { intros i l' Hi. replace (S k + i)%nat with (k + S i)%nat by lia. by apply (Hls (S i)). }
  split_and!; [done|lia|]. intros [|i] l' e Hi He; simpl in Hi.
  - injection Hi as <-. rewrite Nat.add_0_r. specialize (H3 e He). lia.
  - replace (k + S i)%nat with (S k + i)%nat by lia. eauto.
Qed.

Lemma next_skip_spec w limit : wheel_current w → current_tick w < limit →
  let r := next_skip_tick w limit in
  current_tick w ≤ r ∧ r ≤ limit ∧
  (current_tick w < r → (∀ k l e, levels w !! k = Some l → e ∈ level_entries l → r ≤ due_tick k e) ∧
     ∀ e, e ∈ overflow w → r * LEVEL0_RESOLUTION_NS + max_wheel_duration_ns w ≤ deadline e).
Proof.
  intros [Hs Hl Hf] Hlim. unfold next_skip_tick. change 1 with (slot_ticks 0).
  destruct (skip_levels_spec (current_tick w) (levels w) 0 limit) as (H1 & H2 & H3); [|done|].
  { intros i l Hi. split; [by apply (ws_level _ Hs)|by apply Hl]. }
  set (next := skip_levels _ _ _ _) in *. unfold heap_peek. pose proof (heap_pop_spec (overflow w)) as Hpop.
  destruct (heap_pop (overflow w)) as [[e rest]|]; cbn [fmap option_fmap option_map fst].
  - destruct Hpop as [Hp Hm]. unfold saturating_sub. set (m := (deadline e - max_wheel_duration_ns w) / LEVEL0_RESOLUTION_NS).
    assert (Hme : m * LEVEL0_RESOLUTION_NS + max_wheel_duration_ns w ≤ deadline e).
    { destruct (div_bounds (deadline e - max_wheel_duration_ns w) LEVEL0_RESOLUTION_NS ltac:(done)) as [Hb _]. fold m in Hb.
      assert (He : e ∈ overflow w) by (rewrite Hp; left). pose proof (Hf e He) as Hfe. unfold far in Hfe. lia. }
    assert (Hall : ∀ r, r ≤ m → ∀ x, x ∈ overflow w → r * LEVEL0_RESOLUTION_NS + max_wheel_duration_ns w ≤ deadline x).
    { intros r Hr x Hx. specialize (Hm x Hx). unfold LEVEL0_RESOLUTION_NS in *. lia. }
    destruct (N.ltb_spec m next) as [Hlt|Hge]; [destruct (N.ltb_spec (current_tick w) m) as [Hlt2|Hge2]|].
    + split_and!; [lia|lia|]. intros _. split; [|by apply Hall]. intros k l x Hk Hx. specialize (H3 k l x Hk Hx). simpl in H3. lia.
    + split_and!; lia.
    + split_and!; [lia|lia|]. intros _. split; [|by apply Hall]. intros k l x Hk Hx. by apply (H3 k l x).
  - split_and!; [lia|lia|]. intros _. split; [intros k l x Hk Hx; by apply (H3 k l x)|]. rewrite Hpop. by intros x ?%not_elem_of_nil.
Qed.

(** ** Advancing *)

Lemma realign_entries w : entries (realign_cursors_to_current_tick w) = entries w.
Proof.
  unfold entries, realign_cursors_to_current_tick. simpl. do 3 f_equal. rewrite <-list_fmap_compose. by apply list_fmap_ext.
Qed.

(** Cursors may jump to a tick before which no slot comes up. *)
Lemma realign_spec w tick : wheel_shape w → (∀ k, level_current (current_tick w) k w) → current_tick w ≤ tick →
  tick * LEVEL0_RESOLUTION_NS ≤ u64_MAX →
  (∀ k l e, levels w !! k = Some l → e ∈ level_entries l → tick < due_tick k e) →
  let w' := realign_cursors_to_current_tick (set_tick w tick) in
  wheel_shape w' ∧ (∀ k, level_current tick k w').
Proof.
  intros Hs Hl Hle Hmax Hdue. pose proof Hs as [H1 H2 H3 H4 H5]. cbv zeta.
  assert (Hlv : ∀ k l', levels (realign_cursors_to_current_tick (set_tick w tick)) !! k = Some l' →
    ∃ l, levels w !! k = Some l ∧ l' = set_cursor l ((tick / slot_ticks k) mod 256)).
  { intros k l' Hk. unfold realign_cursors_to_current_tick in Hk. simpl in Hk. rewrite list_lookup_fmap in Hk.
    destruct (levels w !! k) as [l|] eqn:Hlk; [|done]. injection Hk as <-. exists l. split; [done|]. unfold saturating_mul.
    rewrite (shape_res _ _ (H2 k l Hlk)), N.min_l, level_tick_of_tick by done. done. }
  split.
  - split; simpl; [by rewrite length_fmap| |done..]. intros k l' Hk. apply Hlv in Hk as (l & Hk & ->). apply shape_set_cursor; [by apply H2|by apply N.mod_lt].
  - intros k l' Hk. apply Hlv in Hk as (l & Hk & ->). pose proof (H2 k l Hk) as Hsl. pose proof (Hl k l Hk) as [Hc Ha Hb]. split.
    + done.
    + done.
    + intros slot e Hlt He. change (resolution_ns (set_cursor l _)) with (resolution_ns l). change (slot_at (set_cursor l _) slot) with (slot_at l slot) in He.
      destruct (Hb slot e Hlt He) as [Hb1 Hb2]. assert (Hin : e ∈ level_entries l) by (apply (level_entries_elem k l e Hsl); eauto).
      specialize (Hdue k l e Hk Hin). unfold due_tick in Hdue. rewrite (shape_res _ _ Hsl) in *. pose proof (slot_ticks_pos k) as Hp.
      pose proof (N.Div0.div_le_mono (current_tick w) tick (slot_ticks k) Hle). split; [|lia].
      apply N.Div0.div_lt_upper_bound. lia.
Qed.

(** Nothing changed but the time and the places of the entries, and the dead
    entries that were met are gone. *)
Record advanced w (tick : N) w' : Prop := {
  adv_rest : same_rest (set_tick w tick) w';
  adv_current : wheel_current w';
  adv_entries : shuffled (active w) (entries w) (entries w');
}.

Lemma step_tick w : wheel_shape w → (∀ k, level_current (current_tick w) k w) → (current_tick w + 1) * LEVEL0_RESOLUTION_NS ≤ u64_MAX →
  ∃ w', refill_overflow (tick_level0 (set_tick w (saturating_add u64_MAX (current_tick w) 1))) = Returns w' ∧ advanced w (current_tick w + 1) w'.
Proof.
  intros Hs Hl Hmax. assert (saturating_add u64_MAX (current_tick w) 1 = current_tick w + 1) as ->.
  { unfold saturating_add, LEVEL0_RESOLUTION_NS in *. lia. }
  set (w1 := set_tick w _). destruct (tick_level0_spec w1) as [R1 S1 L1 E1 O1].
  - destruct Hs. by split.
  - simpl. lia.
  - split; intros k Hk; [lia|]. simpl. replace (current_tick w + 1 - 1) with (current_tick w) by lia. apply Hl.
  - destruct (refill_overflow_spec (tick_level0 w1) S1) as (w' & Hrun & R' & C' & E'); [by rewrite (sr_tick _ _ R1)|].
    exists w'. split; [done|]. split; [by eapply same_rest_trans|done|]. rewrite (sr_active _ _ R1) in E'. by eapply shuffled_trans.
Qed.

Lemma advance_round_spec target w : wheel_current w → current_tick w < target → target * LEVEL0_RESOLUTION_NS ≤ u64_MAX →
  ∃ w', advance_round target w = inl w' ∧ advanced w (current_tick w') w' ∧ current_tick w < current_tick w' ∧ current_tick w' ≤ target.
Proof.
  intros Hc Ht Hmax. unfold advance_round. destruct (N.leb_spec target (current_tick w)); [lia|].
  destruct (next_skip_spec w target Hc Ht) as (H1 & H2 & H3). set (next := next_skip_tick w target) in *. destruct Hc as [Hs Hl Hf].
  destruct (N.ltb_spec (current_tick w + 1) next) as [Hlt|Hge].
  - destruct (H3 ltac:(lia)) as [Hdue Hov].
    destruct (realign_spec w (next - 1) Hs Hl) as [Hs1 Hl1]; [lia|unfold LEVEL0_RESOLUTION_NS in *; lia| |].
    { intros k l e Hk He. specialize (Hdue k l e Hk He). lia. }
    set (w1 := realign_cursors_to_current_tick _) in *.
    destruct (step_tick w1 Hs1 Hl1) as (w' & -> & [R' C' E']); [simpl; unfold LEVEL0_RESOLUTION_NS in *; lia|].
    assert (Htk : current_tick w' = next) by (rewrite (sr_tick _ _ R'); simpl; lia).
    exists w'. split_and!; [done| |lia|lia]. split; [|done|].
    + rewrite Htk. replace next with (current_tick w1 + 1) by (simpl; lia). eapply same_rest_trans; [|exact R']. by split.
    + unfold w1 in E'. by rewrite realign_entries in E'.
  - destruct (step_tick w Hs Hl) as (w' & -> & [R' C' E']); [unfold LEVEL0_RESOLUTION_NS in *; lia|].
    assert (Htk : current_tick w' = current_tick w + 1) by (by rewrite (sr_tick _ _ R')).
    exists w'. rewrite Htk. split_and!; [done|by split|lia|lia].
Qed.

Lemma advanced_trans w t1 w1 t2 w2 : advanced w t1 w1 → advanced w1 t2 w2 → advanced w t2 w2.
Proof.
  intros [R1 C1 E1] [R2 C2 E2]. pose proof R1 as [A1 A2 A3 A4 A5 A6 A7]. pose proof R2 as [B1 B2 B3 B4 B5 B6 B7]. simpl in *.
  split; [split; simpl; congruence|done|]. rewrite A3 in E2. by eapply shuffled_trans.
Qed.

Context `{!SlabLaws Active N}.

Lemma is_empty_view w : wheel_is_empty w = true ↔ slab_view (active w) = ∅.
Proof. unfold wheel_is_empty. rewrite N.eqb_eq. apply count_zero. Qed.

(** [advance_to] returns, at the target. *)
Lemma advance_to_spec w target : wheel_current w → current_tick w < target → target * LEVEL0_RESOLUTION_NS ≤ u64_MAX →
  (slab_view (active w) = ∅ → entries w = []) →
  ∃ w', advance_to w target = Returns w' ∧ advanced w target w'.
Proof.
  intros Hc Ht Hmax Hempty. unfold advance_to. destruct (wheel_is_empty w) eqn:He.
  - apply is_empty_view in He. specialize (Hempty He). destruct Hc as [Hs Hl Hf].
    apply app_eq_nil in Hempty as [Hready Hempty]. apply app_eq_nil in Hempty as [Hlev Hov].
    destruct (realign_spec w target Hs Hl) as [Hs1 Hl1]; [lia|done| |].
    { intros k l e Hk Hin. exfalso. assert (Hcc : e ∈ concat (level_entries <$> levels w)).
      { apply elem_of_concat. exists (level_entries l). split; [done|]. apply list_elem_of_fmap. exists l. split; [done|]. by eapply list_elem_of_lookup_2. }
      rewrite Hlev in Hcc. by apply not_elem_of_nil in Hcc. }
    eexists. split; [done|]. split; [by split|split; [done|done|]|apply shuffled_perm; by rewrite realign_entries].
    intros e Hin. simpl in Hin. rewrite Hov in Hin. by apply not_elem_of_nil in Hin.
  - clear Hempty He.
    destruct (loop_upto_ends (λ w1, current_tick w1 ≤ target ∧ (w1 = w ∨ advanced w (current_tick w1) w1))
      (λ r, ∃ w', r = Returns w' ∧ advanced w target w') (λ w1, target - current_tick w1) (advance_round target)
      (N.succ_pos (target - current_tick w)) w) as (r & -> & Hr).
    + intros w1 [Hle Hw1]. assert (Hc1 : wheel_current w1) by (destruct Hw1 as [->|[]]; done).
      destruct (N.lt_ge_cases (current_tick w1) target) as [Hlt|Hge].
      * destruct (advance_round_spec target w1 Hc1 Hlt Hmax) as (w2 & -> & Ha & Hlt2 & Hle2). split; [|lia]. split; [done|]. right.
        destruct Hw1 as [->|Hw1]; [done|]. by eapply advanced_trans.
      * unfold advance_round. destruct (N.leb_spec target (current_tick w1)); [|lia]. assert (current_tick w1 = target) as Heq by lia.
        exists w1. split; [done|]. destruct Hw1 as [->|Hw1]; [lia|]. by rewrite Heq in Hw1.
    + split; [lia|by left].
    + rewrite N.succ_pos_spec. lia.
    + destruct Hr as (w' & -> & Ha). eauto.
Qed.

Lemma synchronize_spec w now : wheel_current w → now ≤ u64_MAX → (slab_view (active w) = ∅ → entries w = []) →
  ∃ w', synchronize w now = Returns w' ∧ advanced w (N.max (current_tick w) (now / LEVEL0_RESOLUTION_NS)) w'.
Proof.
  intros Hc Hnow Hempty. unfold synchronize. destruct (N.ltb_spec (current_tick w) (now / LEVEL0_RESOLUTION_NS)) as [Hlt|Hge].
  - rewrite N.max_r by lia. apply advance_to_spec; [done|done| |done].
    destruct (div_bounds now LEVEL0_RESOLUTION_NS ltac:(done)). lia.
  - rewrite N.max_l by lia. exists w. split; [done|]. split; [by split|done|by apply shuffled_perm].
Qed.

End wheel_time.
