(* ===== verification/WheelOps.v ===== *)
(** * The timer wheel: its timers as a finite map

    The wheel stands for a map from timer ids to timers.  [stored] relates the
    slab and the stored entries (live and stale) to that map; [wheel_ok] adds the
    placement invariant.  The lemmas give the effect of each operation on the
    map. *)

From S2P Require Import Prelude Ids Slab Wheel WheelInv WheelTime.

Notation timers := (gmap N TimerEntry).
Definition timer_list (T : timers) : list TimerEntry := (map_to_list T).*2.

Lemma filter_all {A} (P : A → Prop) `{!∀ x, Decision (P x)} (l : list A) : (∀ x, x ∈ l → P x) → filter P l = l.
Proof.
  induction l as [|x l IH]; intros Hall; [done|]. rewrite filter_cons_True by (apply Hall; left). f_equal. apply IH. intros y Hy. apply Hall. by right.
Qed.

Lemma filter_cong {A} (P Q : A → Prop) `{!∀ x, Decision (P x), !∀ x, Decision (Q x)} (l : list A) : (∀ x, x ∈ l → P x ↔ Q x) → filter P l = filter Q l.
Proof.
  induction l as [|x l IH]; intros Hall; [done|]. rewrite !filter_cons, IH by (intros y Hy; apply Hall; by right).
  specialize (Hall x ltac:(left)). repeat case_decide; tauto.
Qed.

Section stored.
Context {Active : Type} `{!Slab Active N} `{!SlabLaws Active N}.
Implicit Types (a : Active) (e : TimerEntry) (T : timers).

Definition live_list a (l : list TimerEntry) : list TimerEntry := filter (λ e, lives a e = true) l.

Record stored a (l : list TimerEntry) T : Prop := {
  st_view : slab_view a = generation <$> T;
  st_keyed : ∀ id e, T !! id = Some e → entry_id e = id;
  st_live : live_list a l ≡ₚ timer_list T;
}.

Lemma timer_list_elem T e : e ∈ timer_list T ↔ ∃ id, T !! id = Some e.
Proof.
  unfold timer_list. rewrite list_elem_of_fmap. split.
  - intros ([id e'] & -> & Hin%elem_of_map_to_list). eauto.
  - intros [id Hid]. exists (id, e). split; [done|]. by apply elem_of_map_to_list.
Qed.

Lemma timer_list_delete T id e : T !! id = Some e → timer_list T ≡ₚ e :: timer_list (delete id T).
Proof. intros Hid. unfold timer_list. by rewrite <-(map_to_list_delete T id e Hid). Qed.

Lemma timer_list_insert T id e : T !! id = None → timer_list (<[id := e]> T) ≡ₚ e :: timer_list T.
Proof. intros Hid. unfold timer_list. by rewrite map_to_list_insert. Qed.

Lemma live_list_perm a l l' : l ≡ₚ l' → live_list a l ≡ₚ live_list a l'.
Proof. intros Hp. unfold live_list. by rewrite Hp. Qed.

Lemma live_list_dead a l : (∀ e, e ∈ l → lives a e = false) → live_list a l = [].
Proof.
  intros Hd. unfold live_list. induction l as [|e l IH]; [done|]. rewrite filter_cons_False; [apply IH; intros; apply Hd; by right|].
  rewrite (Hd e) by left. done.
Qed.

Lemma stored_perm a l l' T : l ≡ₚ l' → stored a l T → stored a l' T.
Proof. intros Hp [H1 H2 H3]. split; [done..|]. by rewrite <-(live_list_perm _ _ _ Hp). Qed.

Lemma stored_shuffled a l l' T : shuffled a l l' → stored a l T → stored a l' T.
Proof.
  intros (dead & Hp & Hd) [H1 H2 H3]. split; [done..|]. rewrite <-H3, (live_list_perm _ _ _ Hp). unfold live_list.
  rewrite filter_app. fold (live_list a dead). by rewrite (live_list_dead a dead Hd), app_nil_r.
Qed.

Lemma stored_dead a e l T : lives a e = false → stored a (e :: l) T → stored a l T.
Proof. intros Hd. apply stored_shuffled. by apply shuffled_drop. Qed.

Lemma stored_in a l T e : stored a l T → e ∈ l → lives a e = true → T !! entry_id e = Some e.
Proof.
  intros [H1 H2 H3] He Hl. assert (Hin : e ∈ live_list a l) by (by apply list_elem_of_filter). rewrite H3 in Hin.
  apply timer_list_elem in Hin as [id Hid]. by rewrite (H2 id e Hid).
Qed.

Lemma stored_out a l T id e : stored a l T → T !! id = Some e → e ∈ l ∧ lives a e = true.
Proof.
  intros [H1 H2 H3] Hid. assert (Hin : e ∈ timer_list T) by (apply timer_list_elem; eauto). rewrite <-H3 in Hin.
  by apply list_elem_of_filter in Hin as [? ?].
Qed.

(** The handle of a live timer names its id and generation. *)
Lemma stored_at a l T id g : stored a l T → slab_at a id = Some g ↔ ∃ e, T !! id = Some e ∧ generation e = g.
Proof.
  intros [H1 H2 H3]. rewrite view_at, H1, lookup_fmap. destruct (T !! id) as [e|]; simpl; [|naive_solver]. naive_solver.
Qed.

(** Removing a timer from the slab makes its stored entry stale. *)
Lemma stored_remove a l T id e : stored a l T → T !! id = Some e →
  ∃ a', slab_take a id = Some (a', generation e) ∧ stored a' l (delete id T).
Proof.
  intros Hst Hid. pose proof Hst as [H1 H2 H3]. destruct (take_present a id (generation e)) as (a' & Htake & Hv).
  { by rewrite H1, lookup_fmap, Hid. }
  exists a'. split; [done|]. split.
  - by rewrite Hv, H1, fmap_delete.
  - intros i x. rewrite lookup_delete_Some. intros [_ Hx]. by apply H2.
  - assert (Hl : live_list a' l = filter (λ x, entry_id x ≠ id) (live_list a l)).
    { unfold live_list. rewrite list_filter_filter. apply list_filter_iff. intros x. unfold lives. rewrite !view_at, Hv, lookup_delete.
      destruct (decide (id = entry_id x)); [naive_solver|]. split; [intros; split; [congruence|done]|by intros []]. }
    rewrite Hl, H3, (timer_list_delete T id e Hid), filter_cons_False by (rewrite (H2 id e Hid); auto).
    rewrite filter_all; [done|]. intros x (i & Hi)%timer_list_elem. apply lookup_delete_Some in Hi as [Hne Hi]. by rewrite (H2 i x Hi).
Qed.

(** Taking a live entry out: the slab forgets it, the storage too. *)
Lemma stored_take a e l T : stored a (e :: l) T → lives a e = true →
  ∃ a', slab_take a (entry_id e) = Some (a', generation e) ∧ stored a' l (delete (entry_id e) T) ∧ T !! entry_id e = Some e.
Proof.
  intros Hst Hl. pose proof (stored_in _ _ _ e Hst ltac:(left) Hl) as Hid.
  destruct (stored_remove _ _ _ _ _ Hst Hid) as (a' & Htake & Hst'). exists a'. split_and!; [done| |done].
  apply (stored_dead a' e); [|done]. unfold lives. rewrite view_at, (st_view _ _ _ Hst'), lookup_fmap, lookup_delete_eq. done.
Qed.

Lemma stored_add a l T g d wk : stored a l T → (∀ e, e ∈ l → generation e < g) →
  let '(a', id) := slab_add a g in
  T !! id = None ∧ stored a' (mkEntry d wk id g :: l) (<[id := mkEntry d wk id g]> T).
Proof.
  intros Hst Hg. pose proof Hst as [H1 H2 H3]. destruct (view_add a g) as [Hf Hv]. destruct (slab_add a g) as [a' id]. simpl in *.
  assert (HT : T !! id = None). { rewrite H1, lookup_fmap in Hf. by destruct (T !! id). }
  split; [done|]. split.
  - by rewrite Hv, H1, fmap_insert.
  - intros i x. rewrite lookup_insert_Some. intros [[<- <-]|[_ Hx]]; [done|by apply H2].
  - rewrite timer_list_insert, <-H3 by done. unfold live_list. rewrite filter_cons_True.
    2: { unfold lives. rewrite view_at, Hv. simpl. rewrite lookup_insert_eq. apply N.eqb_refl. }
    rewrite (filter_cong _ (λ x, lives a x = true)); [done|]. intros x Hx. unfold lives. rewrite !view_at, Hv.
    destruct (decide (id = entry_id x)) as [Heq|Hne].
    + rewrite <-Heq, lookup_insert_eq, Hf. rewrite N.eqb_eq. specialize (Hg x Hx). naive_solver lia.
    + by rewrite lookup_insert_ne.
Qed.

End stored.

(** ** Promotion of a coalescing window *)

Lemma swap_remove_prefix {A} (l : list A) j i x : (i < j)%nat → swap_remove l j !! i = Some x → l !! i = Some x.
Proof.
  unfold swap_remove. destruct (vec_pop l) as [[rest y]|] eqn:Hp; [|done]. apply vec_pop_Some in Hp as ->. intros Hij. case_match.
  - intros Hi. by apply lookup_app_l_Some.
  - rewrite list_lookup_insert_ne by lia. intros Hi. by apply lookup_app_l_Some.
Qed.

Lemma promote_slot_spec fuel b slot j moved : (length slot ≤ fuel + j)%nat →
  (∀ i e, (i < j)%nat → slot !! i = Some e → b < deadline e) →
  let '(slot', moved') := promote_slot fuel b slot j moved in
  (∃ taken, moved' = moved ++ taken ∧ slot ≡ₚ taken ++ slot') ∧ ∀ e, e ∈ slot' → b < deadline e.
Proof.
  revert slot j moved. induction fuel as [|fuel IH]; intros slot j moved Hf Hj; cbn [promote_slot].
  { split; [exists []; by rewrite app_nil_r|]. intros e (i & Hi)%list_elem_of_lookup. pose proof (lookup_lt_Some _ _ _ Hi). apply (Hj i); [lia|done]. }
  destruct (slot !! j) as [e|] eqn:He.
  - pose proof (swap_remove_Permutation slot j e He) as Hp. destruct (N.leb_spec (deadline e) b) as [Hle|Hgt].
    + specialize (IH (swap_remove slot j) j (moved ++ [e])). destruct (promote_slot fuel b _ j _) as [slot' moved']. destruct IH as [(taken & -> & IH1) IH2].
      * apply Permutation_length in Hp. simpl in Hp. lia.
      * intros i x Hi Hx. apply (Hj i x Hi). by eapply swap_remove_prefix.
      * split; [|done]. exists (e :: taken). rewrite <-app_assoc. split; [done|]. by rewrite Hp, IH1.
    + apply IH; [lia|]. intros i x Hi Hx. destruct (decide (i = j)) as [->|]; [congruence|]. apply (Hj i); [lia|done].
  - apply lookup_ge_None in He. split; [exists []; by rewrite app_nil_r|]. intros e (i & Hi)%list_elem_of_lookup. pose proof (lookup_lt_Some _ _ _ Hi). apply (Hj i); [lia|done].
Qed.

(** The level has lost entries, all of the window in the slots of [done_]. *)
Record promoted (k : nat) (b : N) (done_ : list N) (l : WheelLevel) (moved : list TimerEntry) (l' : WheelLevel) (moved' : list TimerEntry) : Prop := {
  pr_shape : level_shape k l';
  pr_cursor : cursor l' = cursor l;
  pr_sub : ∀ s e, s < 256 → e ∈ slot_at l' s → e ∈ slot_at l s;
  pr_perm : moved' ++ level_entries l' ≡ₚ moved ++ level_entries l;
  pr_done : ∀ s e, s ∈ done_ → e ∈ slot_at l' s → b < deadline e;
}.

Lemma promote_step_spec k b done_ l0 moved0 l moved slot : promoted k b done_ l0 moved0 l moved → slot < 256 → (∀ s, s ∈ done_ → s < 256) →
  let '(l', moved') := promote_step b (l, moved) slot in promoted k b (slot :: done_) l0 moved0 l' moved'.
Proof.
  intros [Hs Hc Hsub Hperm Hdone] Hlt Hall. unfold promote_step. rewrite is_occupied_bit. destruct (bit_at (occupied l) slot) eqn:Hb.
  - pose proof (promote_slot_spec (length (slot_at l slot)) b (slot_at l slot) 0 moved ltac:(lia) ltac:(lia)) as Hps.
    destruct (promote_slot _ b _ 0 moved) as [bucket moved']. destruct Hps as [(taken & -> & Hp) Hbig].
    set (l1 := set_slot l slot bucket). set (l2 := if bool_decide (bucket = []) then clear_occupied l1 slot else l1).
    assert (Hslots : slots l2 = slots l1) by (unfold l2; by case_bool_decide).
    assert (Hat : ∀ s, slot_at l2 s = if decide (s = slot) then bucket else slot_at l s).
    { intros s. unfold slot_at. rewrite Hslots. fold (slot_at l1 s). by apply (slot_at_set k). }
    pose proof Hs as [H1 H2 H3 H4 H5]. split.
    + split.
      * rewrite Hslots. simpl. by rewrite length_insert.
      * unfold l2. case_bool_decide; [by apply (words_ok_clear_occupied l1)|done].
      * unfold l2. by case_bool_decide.
      * unfold l2. by case_bool_decide.
      * intros s Hs' Hne. rewrite Hat in Hne. unfold l2. case_bool_decide as Hnil.
        -- rewrite (clear_occupied_bit l1) by done. case_decide as Heq; [done|]. rewrite (bool_decide_false (s = slot)) by done. rewrite andb_true_r. by apply H5.
        -- case_decide as Heq; [by subst|]. by apply H5.
    + unfold l2. by case_bool_decide.
    + intros s e Hs' He. apply Hsub; [done|]. rewrite Hat in He. case_decide as Heq; [|done]. subst s.
      rewrite Hp. apply elem_of_app. by right.
    + rewrite <-Hperm, <-app_assoc. apply Permutation_app_head. unfold level_entries. rewrite Hslots. simpl.
      apply (Permutation_app_inv_r bucket). etrans; [|apply (concat_insert (slots l) (N.to_nat slot) (slot_at l slot)); by eapply slot_lookup].
      rewrite Hp, (Permutation_app_comm taken), <-!app_assoc. done.
    + intros s e Hin He. rewrite Hat in He. case_decide as Heq; [by apply Hbig|]. apply elem_of_cons in Hin as [->|Hin]; [done|eauto].
  - split; try done. intros s e [->|Hin]%elem_of_cons He; [|eauto]. exfalso.
    rewrite (shape_bits _ _ Hs slot Hlt) in Hb; [done|]. intros Hnil. rewrite Hnil in He. by apply not_elem_of_nil in He.
Qed.

Lemma promote_fold k b ss done_ l0 moved0 l moved : promoted k b done_ l0 moved0 l moved → (∀ s, s ∈ ss ++ done_ → s < 256) →
  let '(l', moved') := foldl (promote_step b) (l, moved) ss in promoted k b (reverse ss ++ done_) l0 moved0 l' moved'.
Proof.
  revert done_ l moved. induction ss as [|s ss IH]; intros done_ l moved Hp Hall; cbn [foldl]; [done|].
  pose proof (promote_step_spec k b done_ l0 moved0 l moved s Hp) as Hstep. destruct (promote_step b (l, moved) s) as [l1 moved1].
  rewrite reverse_cons, <-app_assoc. apply IH.
  - apply Hstep; [apply Hall; left|]. intros s' Hs'. apply Hall. simpl. right. apply elem_of_app. auto.
  - intros s' Hs'. apply Hall. simpl. apply elem_of_app in Hs' as [Hs'|[->|Hs']%elem_of_cons]; [right; apply elem_of_app; auto|left|right; apply elem_of_app; auto].
Qed.

Lemma window_slots_lt tick b l s : s ∈ window_slots tick b l → s < 256.
Proof.
  unfold window_slots. case_match; [by intros ?%not_elem_of_nil|]. intros (i & -> & _)%list_elem_of_fmap. by apply N.mod_lt.
Qed.

(** Every entry of the window is in a slot that is scanned. *)
Lemma window_slots_cover k tick b l s e : tick * LEVEL0_RESOLUTION_NS ≤ u64_MAX → level_shape k l → level_at (tick / slot_ticks k) l →
  s < 256 → e ∈ slot_at l s → deadline e ≤ b → s ∈ window_slots tick b l.
Proof.
  intros Hmax Hs Hat Hlt He Hb. pose proof (at_slot _ _ Hat s e Hlt He) as Hslot. destruct (at_later _ _ Hat s e Hlt He) as [Hl1 Hl2].
  unfold window_slots, saturating_mul. rewrite N.min_l by done. rewrite (shape_res _ _ Hs) in *. rewrite level_tick_of_tick.
  set (c := tick / slot_ticks k) in *. set (T := deadline e / slot_ns k) in *.
  assert (HTb : T ≤ b / slot_ns k) by (by apply N.Div0.div_le_mono). set (bt := b / slot_ns k) in *.
  destruct (N.ltb_spec bt c); [lia|]. unfold SLOTS_PER_LEVEL.
  apply list_elem_of_fmap. set (j := T - c). exists (N.to_nat (if j =? 256 then 0 else j)). split.
  - rewrite N2Nat.id, N.Div0.add_mod_idemp_l. rewrite Hslot. destruct (N.eqb_spec j 256) as [Hj|Hj].
    + replace T with (c + 0 + 1 * 256) by lia. by rewrite N.Div0.mod_add.
    + f_equal. lia.
  - apply elem_of_seq. destruct (N.eqb_spec j 256) as [Hj|Hj]; [lia|]. destruct (N.leb_spec 256 (bt - c)); lia.
Qed.

Lemma promote_level_spec k tick b l moved : tick * LEVEL0_RESOLUTION_NS ≤ u64_MAX → level_shape k l → level_at (tick / slot_ticks k) l →
  let '(l', moved') := promote_level tick b l moved in
  level_shape k l' ∧ level_at (tick / slot_ticks k) l' ∧ moved' ++ level_entries l' ≡ₚ moved ++ level_entries l ∧
  ∀ e, e ∈ level_entries l' → b < deadline e.
Proof.
  intros Hmax Hs Hat. unfold promote_level. pose proof (promote_fold k b (window_slots tick b l) [] l moved l moved) as Hf.
  destruct (foldl _ _ _) as [l' moved']. destruct Hf as [Hs' Hc Hsub Hperm Hdone].
  - split; [done..|]. by intros s e ?%not_elem_of_nil.
  - intros s. rewrite app_nil_r. apply window_slots_lt.
  - pose proof (shape_res _ _ Hs) as Hr. pose proof (shape_res _ _ Hs') as Hr'. destruct Hat as [Ha1 Ha2 Ha3].
    split_and!; [done| |done|].
    + split; rewrite ?Hr'; rewrite ?Hr in *; [by rewrite Hc|eauto..].
    + intros e (s & Hlt & He)%(level_entries_elem k _ _ Hs'). destruct (N.lt_ge_cases b (deadline e)) as [|Hle]; [done|].
      apply (Hdone s); [|done]. rewrite app_nil_r. apply elem_of_reverse. apply (window_slots_cover k tick b l s e); try done. by apply Hsub.
Qed.

Lemma promote_levels_spec k tick b ls moved : tick * LEVEL0_RESOLUTION_NS ≤ u64_MAX →
  (∀ i l, ls !! i = Some l → level_shape (k + i) l ∧ level_at (tick / slot_ticks (k + i)) l) →
  let '(ls', moved') := promote_levels tick b ls moved in
  length ls' = length ls ∧ (∀ i l, ls' !! i = Some l → level_shape (k + i) l ∧ level_at (tick / slot_ticks (k + i)) l) ∧
  moved' ++ concat (level_entries <$> ls') ≡ₚ moved ++ concat (level_entries <$> ls) ∧
  ∀ e, e ∈ concat (level_entries <$> ls') → b < deadline e.
Proof.
  intros Hmax. revert k moved. induction ls as [|l ls IH]; intros k moved Hls; cbn [promote_levels].
  { split_and!; [done|done|done|]. by intros e ?%not_elem_of_nil. }
  destruct (Hls 0%nat l eq_refl) as [Hs Hat]. rewrite Nat.add_0_r in *. pose proof (promote_level_spec k tick b l moved Hmax Hs Hat) as Hl.
  destruct (promote_level tick b l moved) as [l' moved1]. destruct Hl as (Hs' & Hat' & Hp & Hb). specialize (IH (S k) moved1).
  destruct (promote_levels tick b ls moved1) as [ls' moved']. destruct IH as (I1 & I2 & I3 & I4).
  { intros i x Hi. replace (S k + i)%nat with (k + S i)%nat by lia. by apply (Hls (S i)). }
  split_and!; [simpl; lia| | |].
  - intros [|i] x Hi; simpl in Hi; [injection Hi as <-; by rewrite Nat.add_0_r|].
    replace (k + S i)%nat with (S k + i)%nat by lia. by apply I2.
  - cbn [fmap list_fmap concat]. rewrite (Permutation_app_comm (level_entries l')), app_assoc, I3, (Permutation_app_comm moved1), <-app_assoc, Hp.
    rewrite (Permutation_app_comm _ (moved ++ _)), <-app_assoc. done.
  - cbn [fmap list_fmap concat]. intros e [He|He]%elem_of_app; auto.
Qed.

Lemma promote_overflow_spec fuel b heap moved : (length heap < fuel)%nat →
  let '(heap', moved') := promote_overflow fuel b heap moved in
  moved' ++ heap' ≡ₚ moved ++ heap ∧ (∀ e, e ∈ heap' → e ∈ heap) ∧ ∀ e, e ∈ heap' → b < deadline e.
Proof.
  revert heap moved. induction fuel as [|fuel IH]; intros heap moved Hf; [lia|]. cbn [promote_overflow].
  pose proof (heap_pop_spec heap) as Hpop. destruct (heap_pop heap) as [[e rest]|].
  - destruct Hpop as [Hp Hm]. destruct (N.leb_spec (deadline e) b) as [Hle|Hgt].
    + specialize (IH rest (moved ++ [e])). destruct (promote_overflow fuel b rest _) as [heap' moved']. destruct IH as (I1 & I2 & I3).
      { apply Permutation_length in Hp. simpl in Hp. lia. }
      split_and!; [|intros x Hx; rewrite Hp; right; auto|done]. by rewrite I1, Hp, <-app_assoc.
    + split_and!; [done|auto|]. intros x Hx. specialize (Hm x Hx). lia.
  - subst. split_and!; [done|auto|]. by intros e ?%not_elem_of_nil.
Qed.

(** ** The operations *)

Section ops.
Context {Active : Type} `{!Slab Active N} `{!SlabLaws Active N}.
Implicit Types (w : TimerWheel Active) (e : TimerEntry) (T : timers).

(** The wheel stands for the timers [T]. *)
Record wheel_ok w T : Prop := {
  ok_current : wheel_current w;
  ok_stored : stored (active w) (entries w) T;
  ok_generations : ∀ e, e ∈ entries w → generation e < next_generation w;
  ok_next : next_generation w ≤ u64_MAX;
  ok_empty : T = ∅ → entries w = [];
}.

Lemma insert_entry_current w e : wheel_current w →
  wheel_current (insert_entry w e) ∧ same_rest w (insert_entry w e) ∧ entries (insert_entry w e) ≡ₚ e :: entries w.
Proof.
  intros [Hs Hl Hf]. destruct (insert_entry_spec 4 w e Hs ltac:(lia) (λ k _, Hl k) ltac:(by left)) as [R S L U E O].
  split_and!; [split; [done|..]|done|done].
  - intros k l Hk. rewrite (sr_tick _ _ R). destruct (decide (k < 4)%nat); [by apply L|].
    apply lookup_lt_Some in Hk. rewrite (ws_length _ S) in Hk. lia.
  - intros x Hx. unfold far. rewrite (sr_tick _ _ R), (sr_wheel _ _ R). destruct O as [O|[O Hfar]]; rewrite O in Hx; [by apply Hf|].
    apply elem_of_cons in Hx as [->|Hx]; [done|by apply Hf].
Qed.

Lemma wheel_current_active w a : wheel_current w → wheel_current (set_active w a).
Proof. intros [[] Hl Hf]. by split. Qed.

(** Entries that are not ready are due at a later tick. *)
Lemma waiting_later w e now : wheel_current w → now / LEVEL0_RESOLUTION_NS ≤ current_tick w →
  e ∈ concat (level_entries <$> levels w) ++ overflow w → now < deadline e.
Proof.
  intros [Hs Hl Hf] Hnow. destruct (div_bounds now LEVEL0_RESOLUTION_NS ltac:(done)) as [_ Hb].
  assert (Hlt : now < (current_tick w + 1) * LEVEL0_RESOLUTION_NS) by (unfold LEVEL0_RESOLUTION_NS in *; lia).
  intros [He|He]%elem_of_app.
  - apply elem_of_concat in He as (es & He & (l & -> & (k & Hk)%list_elem_of_lookup)%list_elem_of_fmap).
    pose proof (ws_level _ Hs k l Hk) as Hsl. apply (level_entries_elem k l e Hsl) in He as (s & Hs256 & He).
    destruct (at_later _ _ (Hl k l Hk) s e Hs256 He) as [Hlater _]. rewrite (shape_res _ _ Hsl) in Hlater.
    destruct (div_bounds (deadline e) (slot_ns k) (slot_ns_pos k)) as [Hd _].
    destruct (div_bounds (current_tick w) (slot_ticks k) (slot_ticks_pos k)) as [_ Ht].
    unfold slot_ns in *. set (q := deadline e / _) in *. set (c := current_tick w / slot_ticks k) in *.
    assert (LEVEL0_RESOLUTION_NS * slot_ticks k * (c + 1) ≤ LEVEL0_RESOLUTION_NS * slot_ticks k * q) by (apply N.mul_le_mono_l; lia).
    unfold LEVEL0_RESOLUTION_NS in *. lia.
  - specialize (Hf e He). unfold far in Hf. pose proof (ws_min_range _ Hs). unfold LEVEL0_RESOLUTION_NS in *. lia.
Qed.

Lemma promote_spec w b r : wheel_current w → ready w = [] →
  let '(w', r') := promote_coalescing_window_entries w b r in
  wheel_current w' ∧ same_rest w w' ∧ r' ++ entries w' ≡ₚ r ++ entries w ∧ ∀ e, e ∈ entries w' → b < deadline e.
Proof.
  intros [Hs Hl Hf] Hr. unfold promote_coalescing_window_entries.
  pose proof (promote_levels_spec 0 (current_tick w) b (levels w) r (ws_tick _ Hs)) as Hp.
  destruct (promote_levels _ b _ r) as [ls r1]. destruct Hp as (P1 & P2 & P3 & P4).
  { intros i l Hi. split; [by apply (ws_level _ Hs)|by apply Hl]. }
  pose proof (promote_overflow_spec (S (length (overflow w))) b (overflow w) r1 ltac:(lia)) as Ho.
  destruct (promote_overflow _ b _ r1) as [o r2]. destruct Ho as (O1 & O2 & O3). pose proof Hs as [H1 H2 H3 H4 H5].
  split_and!.
  - split; [split; simpl; [by rewrite P1|intros k l Hk; by apply P2|done..]|intros k l Hk; by apply P2|]. intros e He. apply Hf. by apply O2.
  - by split.
  - unfold entries. simpl. rewrite Hr. simpl. rewrite (Permutation_app_comm (concat _) o), app_assoc, O1.
    rewrite <-app_assoc, (Permutation_app_comm (overflow w)), app_assoc, P3, <-app_assoc. done.
  - unfold entries. simpl. rewrite Hr. simpl. intros e [He|He]%elem_of_app; auto.
Qed.

Definition due (limit : N) (l : list TimerEntry) : list TimerEntry := filter (λ e, deadline e ≤ limit) l.
Definition remaining (limit : N) T : timers := filter (λ p, limit < deadline p.2) T.

Lemma remaining_fired limit T id e : T !! id = Some e → deadline e ≤ limit → remaining limit (delete id T) = remaining limit T.
Proof.
  intros Hid Hle. unfold remaining. rewrite map_filter_delete. apply delete_id.
  apply map_lookup_filter_None. right. intros x Hx. simpl. replace x with e by congruence. lia.
Qed.

Lemma remaining_all limit T : (∀ e, e ∈ timer_list T → limit < deadline e) → remaining limit T = T ∧ due limit (timer_list T) = [].
Proof.
  intros Hall. split.
  - apply map_filter_id. intros i x Hx. simpl. apply Hall, timer_list_elem. eauto.
  - unfold due. induction (timer_list T) as [|e l IH]; [done|]. rewrite filter_cons_False; [apply IH; intros; apply Hall; by right|].
    specialize (Hall e ltac:(left)). lia.
Qed.

Lemma fire_loop_spec limit r w ws T : wheel_current w → stored (active w) (r ++ entries w) T →
  (∀ e, e ∈ entries w → limit < deadline e) →
  ∃ w' fired, fire_loop w limit r ws = Returns (w', ws ++ fired) ∧ wheel_current w' ∧ same_rest (set_active w (active w')) w' ∧
    stored (active w') (entries w') (remaining limit T) ∧ fired ≡ₚ waker <$> due limit (timer_list T) ∧
    ∀ e, e ∈ entries w' → e ∈ r ++ entries w.
Proof.
  revert w ws T. induction r as [|e r IH]; intros w ws T Hc Hst Hlate; cbn [fire_loop].
  { destruct (remaining_all limit T) as [-> ->].
    { intros e (id & Hid)%timer_list_elem. apply Hlate. by apply (stored_out _ _ _ _ _ Hst Hid). }
    exists w, []. rewrite app_nil_r. split_and!; [done|done|by split|done|done|auto]. }
  rewrite is_live_eq. destruct (lives (active w) e) eqn:Hlive; cbn [negb].
  2: { destruct (IH w ws T Hc (stored_dead _ _ _ _ Hlive Hst) Hlate) as (w' & fired & H1 & H2 & H3 & H4 & H5 & H6).
       exists w', fired. split_and!; try done. intros x Hx. right. by apply H6. }
  destruct (N.leb_spec (deadline e) limit) as [Hle|Hgt].
  - destruct (stored_take _ _ _ _ Hst Hlive) as (a' & -> & Hst' & Hid).
    destruct (IH (set_active w a') (ws ++ [waker e]) (delete (entry_id e) T) (wheel_current_active w a' Hc) Hst' Hlate) as (w' & fired & H1 & H2 & H3 & H4 & H5 & H6).
    exists w', (waker e :: fired). rewrite <-app_assoc in H1. rewrite (remaining_fired _ _ _ _ Hid Hle) in H4. split_and!; [done|done| |done| |].
    + destruct H3. by split.
    + rewrite H5. unfold due. by rewrite (timer_list_delete T _ e Hid), filter_cons_True by done.
    + intros x Hx. right. by apply H6.
  - destruct (insert_entry_current w e Hc) as (C1 & R1 & E1).
    destruct (IH (insert_entry w e) ws T C1) as (w' & fired & H1 & H2 & H3 & H4 & H5 & H6).
    + rewrite (sr_active _ _ R1). eapply stored_perm; [|exact Hst]. rewrite E1. simpl. apply Permutation_middle.
    + intros x Hx. rewrite E1 in Hx. apply elem_of_cons in Hx as [->|Hx]; auto.
    + exists w', fired. split_and!; [done|done| |done|done|].
      * destruct R1, H3. split; simpl in *; congruence.
      * intros x Hx. specialize (H6 x Hx). rewrite E1 in H6. simpl. by rewrite Permutation_middle.
Qed.

(** Purging leaves no entry. *)
Lemma clear_level_spec k c l : level_shape k l → level_at c l → level_shape k (clear_level l) ∧ level_at c (clear_level l) ∧ level_entries (clear_level l) = [].
Proof.
  intros [H1 H2 H3 H4 H5] [A1 A2 A3]. assert (Hnil : ∀ s, slot_at (clear_level l) s = []).
  { intros s. unfold slot_at, clear_level. simpl. rewrite list_lookup_total_alt, list_lookup_fmap. by destruct (slots l !! N.to_nat s). }
  split_and!.
  - split; simpl; [by rewrite length_fmap|apply words_ok_zero|done|done|]. intros s _ Hne. by rewrite Hnil in Hne.
  - split; [done|..]; intros s e _ He; rewrite Hnil in He; by apply not_elem_of_nil in He.
  - unfold level_entries, clear_level. simpl. clear. generalize (slots l). intros xs. by induction xs.
Qed.

Lemma purge_spec w : wheel_current w → let w' := purge_inactive_storage w in
  wheel_current w' ∧ entries w' = [] ∧ same_rest w w'.
Proof.
  intros [[H1 H2 H3 H4 H5] Hl Hf]. cbv zeta.
  assert (Hlv : ∀ k l', levels (purge_inactive_storage w) !! k = Some l' → ∃ l, levels w !! k = Some l ∧ l' = clear_level l).
  { intros k l' Hk. simpl in Hk. rewrite list_lookup_fmap in Hk. destruct (levels w !! k) as [l|]; [|done]. injection Hk as <-. eauto. }
  split_and!; [split; [split; simpl; [by rewrite length_fmap| |done..]| |]| |by split].
  - intros k l' (l & Hk & ->)%Hlv. by apply (clear_level_spec k _ l (H2 k l Hk) (Hl k l Hk)).
  - intros k l' (l & Hk & ->)%Hlv. by apply (clear_level_spec k _ l (H2 k l Hk) (Hl k l Hk)).
  - intros e He. by apply not_elem_of_nil in He.
  - unfold entries. simpl. rewrite app_nil_r.
    assert (Hall : ∀ l, l ∈ level_entries <$> (clear_level <$> levels w) → l = []).
    { intros l (l' & -> & (k & Hk)%list_elem_of_lookup)%list_elem_of_fmap. destruct (Hlv k l' Hk) as (l & Hk' & ->).
      by apply (clear_level_spec k _ l (H2 k l Hk') (Hl k l Hk')). }
    induction (level_entries <$> _) as [|x l IH]; [done|]. simpl. rewrite (Hall x) by left. apply IH. intros y Hy. apply Hall. by right.
Qed.

Lemma stored_none a l T : stored a l T → slab_view a = ∅ ↔ T = ∅.
Proof. intros [H1 _ _]. rewrite H1. apply fmap_empty_iff. Qed.

Lemma stored_nil a T : stored a [] T → T = ∅.
Proof.
  intros [_ _ H3]. apply map_empty. intros id. destruct (T !! id) as [e|] eqn:Hid; [|done].
  assert (He : e ∈ timer_list T) by (apply timer_list_elem; eauto). rewrite <-H3 in He. by apply not_elem_of_nil in He.
Qed.

(** [if self.active.is_empty() { self.purge_inactive_storage() }] *)
Lemma purge_if_empty w T : wheel_current w → stored (active w) (entries w) T → (∀ e, e ∈ entries w → generation e < next_generation w) →
  next_generation w ≤ u64_MAX → let w' := if wheel_is_empty w then purge_inactive_storage w else w in wheel_ok w' T ∧ same_rest w w'.
Proof.
  intros Hc Hst Hg Hn. cbv zeta. destruct (wheel_is_empty w) eqn:Hemp.
  - apply is_empty_view in Hemp. pose proof (proj1 (stored_none _ _ _ Hst) Hemp) as ->. destruct (purge_spec w Hc) as (C' & E' & R').
    split; [|done]. split; [done| | | |done].
    + rewrite E', (sr_active _ _ R'). destruct Hst. by split.
    + rewrite E'. by intros e ?%not_elem_of_nil.
    + by rewrite (sr_generation _ _ R').
  - split; [|apply same_rest_refl]. split; [done..|]. intros ->. exfalso. pose proof (proj2 (stored_none _ _ _ Hst) eq_refl) as Hv. apply is_empty_view in Hv. congruence.
Qed.

(** When timers fire: up to the end of the window if enough of them are due in it. *)
Definition window_boundary (c : CoalescingConfig) (now : N) : option N :=
  if coalescing_enabled c then
    let window := N.min (coalesce_window c) u64_MAX in
    if window =? 0 then None else Some (N.min (N.min (now / window + 1) u64_MAX * window) u64_MAX)
  else None.

Definition fire_limit (c : CoalescingConfig) (now : N) T : N :=
  match window_boundary c now with
  | Some b => if N.max (min_group_size c) 1 <=? N.of_nat (length (due b (timer_list T))) then b else now
  | None => now
  end.

Lemma coalesced_boundary_eq w now : coalesced_boundary w now = window_boundary (coalescing w) now.
Proof. done. Qed.

Lemma window_boundary_later c now b : now ≤ u64_MAX → window_boundary c now = Some b → now ≤ b.
Proof.
  intros Hnow. unfold window_boundary. destruct (coalescing_enabled c); [|done]. set (win := N.min _ _).
  destruct (N.eqb_spec win 0) as [|Hne]; [done|]. intros [= <-]. destruct (div_bounds now win ltac:(lia)) as [H1 H2].
  apply N.min_glb; [|done]. destruct (N.le_gt_cases (now / win + 1) u64_MAX) as [Hle|Hgt].
  - rewrite (N.min_l _ _ Hle). lia.
  - rewrite (N.min_r (now / win + 1)) by lia. nia.
Qed.

Lemma live_until_count a (p : N) l : N.of_nat (count (λ e, lives a e && (deadline e <=? p)) l) = N.of_nat (length (due p (live_list a l))).
Proof.
  f_equal. unfold due, live_list. induction l as [|e l IH]; [done|]. unfold count in *. cbn [List.filter]. rewrite filter_cons.
  destruct (lives a e); cbn [andb]; case_decide as Hd; try done. rewrite filter_cons. destruct (N.leb_spec (deadline e) p); case_decide; try lia; simpl; by rewrite ?IH.
Qed.

Lemma due_stored a r l b T : stored a (r ++ l) T → (∀ e, e ∈ l → b < deadline e) → due b (live_list a r) ≡ₚ due b (timer_list T).
Proof.
  intros Hst Hl. unfold due. rewrite <-(st_live _ _ _ Hst). unfold live_list. rewrite filter_app, filter_app.
  rewrite (filter_cong (λ e, deadline e ≤ b) (λ _, False) (filter _ l)).
  - assert (Hnil : ∀ k : list TimerEntry, filter (λ _, False) k = []) by (by induction k). by rewrite Hnil, app_nil_r.
  - intros x [_ Hx]%list_elem_of_filter. specialize (Hl x Hx). lia.
Qed.

Lemma drain_ready_spec w now T : wheel_ok w T → now ≤ u64_MAX → now / LEVEL0_RESOLUTION_NS ≤ current_tick w →
  let limit := fire_limit (coalescing w) now T in
  ∃ w' ws, drain_ready w now = Returns (w', ws) ∧ wheel_ok w' (remaining limit T) ∧ ws ≡ₚ waker <$> due limit (timer_list T) ∧
    same_rest (set_active w (active w')) w'.
Proof.
  intros [Hc Hst Hg Hn He] Hnow Htick. cbv zeta. unfold drain_ready. rewrite coalesced_boundary_eq.
  set (w0 := set_ready w []). assert (Hc0 : wheel_current w0) by (destruct Hc as [[] ? ?]; by split).
  assert (Hp0 : ready w ++ entries w0 ≡ₚ entries w) by done. change (coalescing w0) with (coalescing w).
  set (bound := window_boundary (coalescing w) now) in *.
  assert (Hpr : let '(w1, r1) := match bound with Some b => promote_coalescing_window_entries w0 b (ready w) | None => (w0, ready w) end in
    wheel_current w1 ∧ same_rest w0 w1 ∧ r1 ++ entries w1 ≡ₚ entries w ∧ ∀ e, e ∈ entries w1 → match bound with Some b => b | None => now end < deadline e).
  { destruct bound as [b|].
    - pose proof (promote_spec w0 b (ready w) Hc0 eq_refl) as Hp. destruct (promote_coalescing_window_entries w0 b (ready w)) as [w1 r1].
      destruct Hp as (P1 & P2 & P3 & P4). split_and!; [done|done|by rewrite P3|done].
    - split_and!; [done|apply same_rest_refl|done|]. intros e Hin. by apply (waiting_later w e now Hc Htick). }
  destruct (match bound with Some b => _ | None => _ end) as [w1 r1]. destruct Hpr as (C1 & R1 & E1 & L1).
  assert (Hst1 : stored (active w1) (r1 ++ entries w1) T) by (rewrite (sr_active _ _ R1); apply (stored_perm _ (entries w)); [by symmetry|done]).
  set (limit := match bound with Some b => _ | None => _ end).
  assert (Hlim : limit = fire_limit (coalescing w) now T).
  { unfold limit, fire_limit. fold bound. rewrite (sr_coalescing _ _ R1). change (coalescing w0) with (coalescing w). destruct bound as [b|]; [|done].
    unfold live_until. change (is_live w1) with (lives (active w1)). rewrite live_until_count. by rewrite (Permutation_length (due_stored _ _ _ _ _ Hst1 L1)). }
  assert (Hlate : ∀ e, e ∈ entries w1 → limit < deadline e).
  { intros e Hin. specialize (L1 e Hin). unfold limit. destruct bound as [b|] eqn:Hb; [|done].
    pose proof (window_boundary_later _ _ _ Hnow Hb). case_match; lia. }
  destruct (fire_loop_spec limit r1 w1 [] T C1 Hst1 Hlate) as (w2 & fired & -> & C2 & R2 & S2 & F2 & I2).
  cbn [run_bind app]. rewrite <-Hlim. 
  assert (Hng : next_generation w2 = next_generation w) by (rewrite (sr_generation _ _ R2); apply R1).
  destruct (purge_if_empty w2 (remaining limit T) C2 S2) as [Hok3 R3].
  { intros e Hin. rewrite Hng. apply Hg. rewrite <-E1. auto. }
  { by rewrite Hng. }
  set (w3 := if wheel_is_empty w2 then _ else _) in *. exists w3, fired. split_and!; [done|done|done|].
  destruct R1, R2, R3. split; simpl in *; congruence.
Qed.

Lemma synchronize_ok w now T : wheel_ok w T → now ≤ u64_MAX →
  ∃ w', synchronize w now = Returns w' ∧ wheel_ok w' T ∧ same_rest (set_tick w (N.max (current_tick w) (now / LEVEL0_RESOLUTION_NS))) w'.
Proof.
  intros [Hc Hst Hg Hn He] Hnow. destruct (synchronize_spec w now Hc Hnow) as (w' & Hrun & [R' C' E']).
  { intros Hv. by apply He, (stored_none _ _ _ Hst). }
  exists w'. split_and!; [done| |done]. pose proof (sr_active _ _ R') as Ha. simpl in Ha. pose proof E' as (dead & Hp & _). split.
  - done.
  - rewrite Ha. by eapply stored_shuffled.
  - intros e Hin. rewrite (sr_generation _ _ R'). apply Hg. rewrite Hp. apply elem_of_app. auto.
  - by rewrite (sr_generation _ _ R').
  - intros ->. rewrite He in Hp by done. symmetry in Hp. apply Permutation_nil_r in Hp. by apply app_eq_nil in Hp as [-> _].
Qed.

Lemma collect_expired_spec w now T : wheel_ok w T → now ≤ u64_MAX →
  let limit := fire_limit (coalescing w) now T in
  ∃ w' ws, collect_expired w now = Returns (w', ws) ∧ wheel_ok w' (remaining limit T) ∧ ws ≡ₚ waker <$> due limit (timer_list T) ∧
    same_rest (set_tick (set_active w (active w')) (N.max (current_tick w) (now / LEVEL0_RESOLUTION_NS))) w'.
Proof.
  intros Hok Hnow. destruct (synchronize_ok w now T Hok Hnow) as (w1 & Hrun & Hok1 & R1). pose proof R1 as [Ht1 _ _ Hco _ _ _]. simpl in *.
  unfold collect_expired. rewrite Hrun. cbn [run_bind]. destruct (drain_ready_spec w1 now T Hok1 Hnow) as (w' & ws & Hd & Hok' & Hws & R'); [lia|].
  rewrite Hco in *. exists w', ws. split_and!; [done|done|done|]. destruct R1, R'. split; simpl in *; congruence.
Qed.

Lemma register_spec w T d wk : wheel_ok w T → next_generation w < u64_MAX →
  let '(w', h) := insert_validated w d wk in
  let e := mkEntry d wk (handle_id h) (next_generation w) in
  handle_generation h = next_generation w ∧ T !! handle_id h = None ∧ wheel_ok w' (<[handle_id h := e]> T) ∧
  same_rest (set_generation (set_active w (active w')) (next_generation w + 1)) w'.
Proof.
  intros [Hc Hst Hg Hn He] Hmax. unfold insert_validated.
  assert (wrapping_add u64_MAX (next_generation w) 1 = next_generation w + 1) as ->.
  { unfold wrapping_add. rewrite N.mod_small; [done|lia]. }
  cbn [active set_generation]. pose proof (stored_add (active w) (entries w) T (next_generation w) d wk Hst Hg) as Ha.
  destruct (slab_add (active w) (next_generation w)) as [a id]. destruct Ha as [Hid Hst']. cbn [handle_id handle_generation].
  set (e := mkEntry d wk id (next_generation w)) in *. set (w1 := set_active (set_generation w _) a).
  destruct (insert_entry_current w1 e) as (C' & R' & E'); [destruct Hc as [[] ? ?]; by split|].
  split_and!; [done|done| |].
  - split.
    + done.
    + rewrite (sr_active _ _ R'). by apply (stored_perm _ (e :: entries w)).
    + intros x Hx. rewrite (sr_generation _ _ R'). simpl. rewrite E' in Hx. apply elem_of_cons in Hx as [->|Hx]; [simpl; lia|].
      specialize (Hg x Hx). lia.
    + rewrite (sr_generation _ _ R'). simpl. lia.
    + intros Hnil. by apply insert_non_empty in Hnil.
  - destruct R'. split; simpl in *; congruence.
Qed.

Lemma cancel_spec w T h : wheel_ok w T →
  ∃ w' b, cancel w h = Returns (w', b) ∧ same_rest (set_active w (active w')) w' ∧
    (b = true ∧ (∃ e, T !! handle_id h = Some e ∧ generation e = handle_generation h) ∧ wheel_ok w' (delete (handle_id h) T)
     ∨ b = false ∧ (∀ e, T !! handle_id h = Some e → generation e ≠ handle_generation h) ∧ w' = w).
Proof.
  intros Hok. pose proof Hok as [Hc Hst Hg Hn He]. unfold cancel. destruct (slab_at (active w) (handle_id h)) as [g|] eqn:Hat.
  - apply (stored_at _ _ _ _ _ Hst) in Hat as (e & Hid & <-). destruct (N.eqb_spec (generation e) (handle_generation h)) as [Heq|Hne].
    + destruct (stored_remove _ _ _ _ _ Hst Hid) as (a & -> & Hst').
      destruct (purge_if_empty (set_active w a) (delete (handle_id h) T)) as [Hok' R']; [by apply wheel_current_active|done..|].
      set (w' := if wheel_is_empty _ then _ else _) in *. exists w', true. split_and!; [done|destruct R'; split; simpl in *; congruence|].
      left. split_and!; [done|eauto|done].
    + exists w, false. split_and!; [done|by split|]. right. split_and!; [done| |done]. intros x Hx. congruence.
  - exists w, false. split_and!; [done|by split|]. right. split_and!; [done| |done]. intros x Hx Hgx.
    assert (slab_at (active w) (handle_id h) = Some (generation x)) as Hs; [|congruence]. apply (stored_at _ _ _ _ _ Hst). eauto.
Qed.

Lemma wheel_clear_spec w T : wheel_ok w T → wheel_ok (clear w) ∅ ∧ same_rest (set_active w (active (clear w))) (clear w).
Proof.
  intros [Hc Hst Hg Hn He]. unfold clear. destruct (purge_spec (set_active w slab_empty) (wheel_current_active w _ Hc)) as (C' & E' & R').
  split; [|done]. split; [done| | |done|done].
  - rewrite E'. split; [simpl; by rewrite view_empty, fmap_empty|done|done].
  - rewrite E'. by intros e ?%not_elem_of_nil.
Qed.

Lemma with_config_spec now cfg co : now ≤ u64_MAX → LEVEL0_RESOLUTION_NS ≤ max_wheel_duration cfg → max_wheel_duration cfg ≤ slot_ns 4 →
  wheel_ok (with_config (Active := Active) now cfg co) ∅.
Proof.
  intros Hnow Hmin Hmax. assert (Hdur : duration_to_u64_nanos (max_wheel_duration cfg) = max_wheel_duration cfg).
  { apply N.min_l. etrans; [exact Hmax|]. by vm_compute. }
  assert (Hlv : ∀ k l, levels (with_config (Active := Active) now cfg co) !! k = Some l → l = level_new (slot_ns k) ((now / slot_ns k) mod 256)).
  { intros k l Hk. do 4 (destruct k as [|k]; [by injection Hk as <-|]). done. }
  assert (Hnil : ∀ r c s, slot_at (level_new r c) s = []).
  { intros r c s. unfold slot_at, level_new. cbn [slots]. rewrite list_lookup_total_alt.
    destruct (_ !! N.to_nat s) as [x|] eqn:Hx; [|done]. by apply lookup_replicate in Hx as [-> _]. }
  destruct (div_bounds now LEVEL0_RESOLUTION_NS ltac:(done)) as [Hb _].
  assert (Hent : entries (with_config (Active := Active) now cfg co) = []) by done.
  split; [split; [split|..]|..].
  - done.
  - intros k l ->%Hlv. split; [done|apply words_ok_zero|by apply N.mod_lt|done|]. intros s _ Hne. by rewrite Hnil in Hne.
  - simpl. lia.
  - simpl. by rewrite Hdur.
  - simpl. by rewrite Hdur.
  - intros k l ->%Hlv. split; [|intros s e _ He; rewrite Hnil in He; by apply not_elem_of_nil in He..].
    simpl. f_equal. unfold slot_ns at 1. rewrite N.Div0.div_div. done.
  - intros e He. by apply not_elem_of_nil in He.
  - rewrite Hent. split; [simpl; by rewrite view_empty, fmap_empty|done|done].
  - rewrite Hent. by intros e ?%not_elem_of_nil.
  - simpl. lia.
  - done.
Qed.

End ops.
