(* ===== verification/WheelThms.v ===== *)
(** * The timer wheel: what it promises

    A sequence of operations on the wheel answers as a flat map of timers would:
    a timer fires at the first collection whose time (or whose coalescing window)
    has reached its deadline, once, unless it was cancelled before.  The last
    part evaluates the wheel where the code departs from its documentation. *)

From S2P Require Import Prelude Ids Slab Wheel WheelInv WheelTime WheelOps.

Section deadline_query.
Context {Active : Type} `{!Slab Active N} `{!SlabLaws Active N}.
Implicit Types (w : TimerWheel Active) (e : TimerEntry) (T : timers).

(** An answer to a query for a deadline in [l]: that of a live entry, or none if
    there is no live entry. *)
Definition deadline_in (a : Active) (l : list TimerEntry) (r : option N) : Prop :=
  match r with
  | Some d => ∃ e, e ∈ l ∧ lives a e = true ∧ deadline e = d
  | None => ∀ e, e ∈ l → lives a e = false
  end.

Lemma deadline_in_sub a l l' d : (∀ e, e ∈ l → e ∈ l') → deadline_in a l (Some d) → deadline_in a l' (Some d).
Proof. intros Hs (e & He & Hl & Hd). exists e. auto. Qed.

Lemma min_live_spec w l l0 m : deadline_in (active w) l0 m → deadline_in (active w) (l0 ++ l) (min_live w l m).
Proof.
  unfold min_live. revert l0 m. induction l as [|e l IH]; intros l0 m Hm; cbn [foldl]; [by rewrite app_nil_r|].
  replace (l0 ++ e :: l) with ((l0 ++ [e]) ++ l) by (by rewrite <-app_assoc). apply IH. rewrite is_live_eq.
  destruct (lives (active w) e) eqn:Hl.
  - unfold min_opt. assert (He : deadline_in (active w) (l0 ++ [e]) (Some (deadline e))).
    { exists e. split_and!; [apply elem_of_app; right; left|done|done]. }
    destruct m as [c|]; [|done]. destruct (N.min_spec c (deadline e)) as [[_ ->]|[_ ->]]; [|done].
    eapply deadline_in_sub; [|exact Hm]. intros x Hx. apply elem_of_app. auto.
  - destruct m as [c|]; [eapply deadline_in_sub; [|exact Hm]; intros x Hx; apply elem_of_app; auto|].
    intros x [Hx|Hx]%elem_of_app; [by apply Hm|]. by apply list_elem_of_singleton in Hx as ->.
Qed.

Lemma min_live_none w l : deadline_in (active w) l (min_live w l None).
Proof. apply (min_live_spec w l []). by intros e ?%not_elem_of_nil. Qed.

Lemma first_slot_deadline_spec k w l c is_ : level_shape k l →
  match first_slot_deadline w l c is_ with
  | Some d => deadline_in (active w) (level_entries l) (Some d)
  | None => ∀ i e, i ∈ is_ → e ∈ slot_at l ((c + N.of_nat i) mod 256) → lives (active w) e = false
  end.
Proof.
  intros Hs. induction is_ as [|i is_ IH]; cbn [first_slot_deadline]; [by intros i e ?%not_elem_of_nil|]. unfold SLOTS_PER_LEVEL.
  set (s := (c + N.of_nat i) mod 256). assert (Hlt : s < 256) by (by apply N.mod_lt). rewrite is_occupied_bit.
  pose proof (min_live_none w (slot_at l s)) as Hm.
  destruct (bit_at (occupied l) s) eqn:Hb; [destruct (min_live w (slot_at l s) None) as [d|]|].
  - eapply deadline_in_sub; [|exact Hm]. intros e He. apply (level_entries_elem k l e Hs). eauto.
  - destruct (first_slot_deadline w l c is_); [done|]. intros j e [->|Hj]%elem_of_cons He; [by apply Hm|by eapply IH].
  - destruct (first_slot_deadline w l c is_); [done|]. intros j e [->|Hj]%elem_of_cons He; [|by eapply IH]. exfalso. fold s in He.
    rewrite (shape_bits _ _ Hs s Hlt) in Hb; [done|]. intros Hnil. rewrite Hnil in He. by apply not_elem_of_nil in He.
Qed.

Lemma all_slots c s : s < 256 → ∃ i, i ∈ seq 0 (N.to_nat SLOTS_PER_LEVEL) ∧ s = (c mod 256 + N.of_nat i) mod 256.
Proof.
  intros Hs. pose proof (N.mod_lt c 256 ltac:(done)) as Hc. set (r := c mod 256) in *. unfold SLOTS_PER_LEVEL.
  destruct (N.le_gt_cases r s).
  - exists (N.to_nat (s - r)). split; [apply elem_of_seq; lia|]. rewrite N2Nat.id, N.mod_small by lia. lia.
  - exists (N.to_nat (s + 256 - r)). split; [apply elem_of_seq; lia|]. rewrite N2Nat.id. replace (r + (s + 256 - r)) with (s + 1 * 256) by lia.
    by rewrite N.Div0.mod_add, N.mod_small.
Qed.

Lemma levels_deadline_spec w ls k : (∀ i l, ls !! i = Some l → level_shape (k + i) l) →
  deadline_in (active w) (concat (level_entries <$> ls)) (levels_deadline w ls).
Proof.
  revert k. induction ls as [|l ls IH]; intros k Hls; cbn [levels_deadline fmap list_fmap concat]; [by intros e ?%not_elem_of_nil|].
  pose proof (Hls 0%nat l eq_refl) as Hs. rewrite Nat.add_0_r in Hs.
  set (c := saturating_mul _ _ _ / _). pose proof (first_slot_deadline_spec k w l (c mod SLOTS_PER_LEVEL) (seq 0 (N.to_nat SLOTS_PER_LEVEL)) Hs) as Hf.
  destruct (first_slot_deadline w l _ _) as [d|].
  - eapply deadline_in_sub; [|exact Hf]. intros e He. apply elem_of_app. auto.
  - specialize (IH (S k)). destruct (levels_deadline w ls) as [d|].
    + eapply deadline_in_sub; [|apply IH]; [intros e He; apply elem_of_app; auto|].
      intros i x Hi. replace (S k + i)%nat with (k + S i)%nat by lia. by apply (Hls (S i)).
    + intros e [He|He]%elem_of_app.
      * apply (level_entries_elem k l e Hs) in He as (s & Hlt & He). destruct (all_slots c s Hlt) as (i & Hi & Heq).
        apply (Hf i e Hi). unfold SLOTS_PER_LEVEL. by rewrite <-Heq.
      * apply IH; [|done]. intros i x Hi. replace (S k + i)%nat with (k + S i)%nat by lia. by apply (Hls (S i)).
Qed.

Lemma overflow_deadline_spec fuel w heap : (length heap < fuel)%nat →
  let '(heap', r) := overflow_deadline fuel w heap in shuffled (active w) heap heap' ∧ deadline_in (active w) heap r.
Proof.
  revert heap. induction fuel as [|fuel IH]; intros heap Hf; [lia|]. cbn [overflow_deadline].
  pose proof (heap_pop_spec heap) as Hpop. destruct (heap_pop heap) as [[e rest]|].
  - destruct Hpop as [Hp _]. rewrite is_live_eq. destruct (lives (active w) e) eqn:Hl.
    + split; [by apply shuffled_perm|]. exists e. split_and!; [rewrite Hp; left|done|done].
    + specialize (IH rest). destruct (overflow_deadline fuel w rest) as [heap' r]. destruct IH as [I1 I2].
      { apply Permutation_length in Hp. simpl in Hp. lia. }
      split; [eapply shuffled_trans; [by apply shuffled_perm|]; eapply shuffled_trans; [by apply shuffled_drop|done]|].
      destruct r as [d|].
      * eapply deadline_in_sub; [|exact I2]. intros x Hx. rewrite Hp. by right.
      * intros x Hx. rewrite Hp in Hx. apply elem_of_cons in Hx as [->|Hx]; [done|by apply I2].
  - subst. split; [by apply shuffled_perm|]. by intros e ?%not_elem_of_nil.
Qed.

Lemma sum_over_zero {A} (f : A → N) l : (∀ x, x ∈ l → f x = 0) → sum_over f l = 0.
Proof. intros Hf. assert (sum_over f l ≤ N.of_nat (length l) * 0); [|lia]. apply sum_over_bound. intros x Hx. rewrite Hf by done. done. Qed.

(** An empty wheel has an empty group. *)
Lemma group_size_empty w now : wheel_shape w → entries w = [] → coalescing_group_size w now = 0.
Proof.
  intros Hs He. apply app_eq_nil in He as [Hr He]. apply app_eq_nil in He as [Hl Ho]. unfold coalescing_group_size. rewrite Hr, Ho.
  unfold live_until at 1 2 4. cbn [count List.filter length]. destruct (coalesced_boundary w now) as [b|]; [|done].
  assert (Hsum : sum_over (λ l, sum_over (λ s, if is_occupied l s then live_until w b (slot_at l s) else 0) (window_slots (current_tick w) b l)) (levels w) = 0).
  { assert (Hall : ∀ l s, l ∈ levels w → slot_at l s = []).
    { intros l s (k & Hk)%list_elem_of_lookup. unfold slot_at. rewrite list_lookup_total_alt. destruct (slots l !! N.to_nat s) as [x|] eqn:Hx; [|done]. simpl.
      destruct x as [|e x]; [done|]. exfalso. assert (Hin : e ∈ concat (level_entries <$> levels w)); [|rewrite Hl in Hin; by apply not_elem_of_nil in Hin].
      apply elem_of_concat. exists (level_entries l). split; [apply elem_of_concat; exists (e :: x); split; [left|by eapply list_elem_of_lookup_2]|].
      apply list_elem_of_fmap. exists l. split; [done|by eapply list_elem_of_lookup_2]. }
    apply sum_over_zero. intros l Hin. apply sum_over_zero. intros s _. rewrite (Hall l s Hin). by destruct (is_occupied l s). }
  rewrite Hsum. by destruct (_ <=? _).
Qed.

Lemma entries_overflow w o : shuffled (active w) (overflow w) o → shuffled (active w) (entries w) (entries (set_overflow w o)).
Proof. intros Ho. unfold entries. simpl. rewrite !app_assoc. by apply shuffled_app. Qed.

Lemma shrink_overflow w T o : wheel_ok w T → shuffled (active w) (overflow w) o → wheel_ok (set_overflow w o) T.
Proof.
  intros [[Hs Hl Hf] Hst Hg Hn He] Ho. pose proof (entries_overflow w o Ho) as Hent. pose proof Hent as (dead & Hp & _).
  pose proof Ho as (dead' & Hp' & _). split.
  - split; [by apply shape_set_overflow|done|]. intros e Hin. apply Hf. rewrite Hp'. apply elem_of_app. by left.
  - by eapply stored_shuffled.
  - intros e Hin. apply Hg. rewrite Hp. apply elem_of_app. by left.
  - done.
  - intros ->. rewrite He in Hp by done. symmetry in Hp. apply Permutation_nil_r, app_eq_nil in Hp as [-> _]. done.
Qed.

(** What the answer [r] of [next_deadline] says of the timers. *)
Definition deadline_answer (co : CoalescingConfig) T (r : option N) : Prop :=
  (r = None ↔ T = ∅) ∧ (coalescing_enabled co = false → ∀ d, r = Some d → ∃ id e, T !! id = Some e ∧ deadline e ≤ d).

Lemma deadline_answer_in w T r d : wheel_ok w T → r = Some d →
  deadline_in (active w) (entries w) (Some d) → deadline_answer (coalescing w) T r.
Proof.
  intros Hok -> (e & He & Hl & Hd). pose proof (stored_in _ _ _ _ (ok_stored _ _ Hok) He Hl) as Hid. split.
  - split; [done|]. intros ->. done.
  - intros _ d' [= <-]. exists (entry_id e), e. split; [done|lia].
Qed.

Lemma next_deadline_spec w T : wheel_ok w T →
  let '(w', r) := next_deadline w in wheel_ok w' T ∧ same_rest w w' ∧ deadline_answer (coalescing w) T r.
Proof.
  intros Hok. pose proof Hok as [[Hs Hl Hf] Hst Hg Hn He]. unfold next_deadline.
  assert (Hsub : ∀ l r, (∀ e, e ∈ l → e ∈ entries w) → deadline_in (active w) l (Some r) → deadline_answer (coalescing w) T (Some r)).
  { intros l r Hl' Hin. eapply deadline_answer_in; [done|done|]. by eapply deadline_in_sub. }
  destruct (coalescing_enabled (coalescing w) && _) eqn:Hco.
  { apply andb_true_iff in Hco as [Hen Hgs]. split_and!; [done|apply same_rest_refl|]. split; [|by rewrite Hen]. split; [done|].
    intros ->. rewrite (group_size_empty w _ Hs (He eq_refl)) in Hgs. done. }
  destruct (existsb _ (ready w)) eqn:Hex.
  { apply existsb_exists in Hex as (e & Hin & [Hlive Hle]%andb_true_iff). apply N.leb_le in Hle. apply list_elem_of_In in Hin.
    pose proof (stored_in _ _ _ e Hst ltac:(apply elem_of_app; by left) Hlive) as Hid.
    split_and!; [done|apply same_rest_refl|]. split; [split; [done|by intros ->]|]. intros _ d [= <-]. eauto. }
  pose proof (min_live_none w (ready w)) as Hready. destruct (min_live w (ready w) None) as [d|].
  { split_and!; [done|apply same_rest_refl|]. apply (Hsub (ready w)); [|done]. intros e ?. apply elem_of_app. auto. }
  pose proof (levels_deadline_spec w (levels w) 0 (ws_level _ Hs)) as Hlev. destruct (levels_deadline w (levels w)) as [d|].
  { split_and!; [done|apply same_rest_refl|]. eapply Hsub; [|exact Hlev]. intros e ?. apply elem_of_app. right. apply elem_of_app. auto. }
  pose proof (overflow_deadline_spec (S (length (overflow w))) w (overflow w) ltac:(lia)) as Ho.
  destruct (overflow_deadline _ w (overflow w)) as [o r]. destruct Ho as [Ho1 Ho2].
  split_and!; [by apply shrink_overflow|by split|]. destruct r as [d|].
  - eapply Hsub; [|exact Ho2]. intros e ?. apply elem_of_app. right. apply elem_of_app. auto.
  - split; [|done]. split; [intros _|done]. apply map_empty. intros id. destruct (T !! id) as [e|] eqn:Hid; [|done].
    destruct (stored_out _ _ _ _ _ Hst Hid) as [Hin Hlive]. exfalso. assert (lives (active w) e = false); [|congruence].
    apply elem_of_app in Hin as [Hin|Hin]; [by apply Hready|]. apply elem_of_app in Hin as [Hin|Hin]; [by apply Hlev|by apply Ho2].
Qed.

End deadline_query.

(** ** The abstract timers *)

Inductive wheel_op :=
  | Register (deadline : N) (waker : Waker)
  | TryRegister (deadline : N) (waker : Waker)
  | Cancel (h : TimerHandle)
  | Synchronize (now : N)
  | CollectExpired (now : N)
  | NextDeadline
  | Clear.

Inductive wheel_out :=
  | OHandle (h : TimerHandle)
  | OTry (r : result TimerHandle TimerDurationExceeded)
  | OBool (b : bool)
  | ODeadline (d : option N)
  | OWakers (ws : list Waker)
  | OUnit.

(** The timers, the time reached (in ticks of a millisecond) and the number of
    registrations so far. *)
Record Timers := mkTimers { t_set : timers; t_tick : N; t_count : N }.

Section machine.
Context (cfg : TimerWheelConfig) (co : CoalescingConfig).

Definition t_now (s : Timers) : N := t_tick s * LEVEL0_RESOLUTION_NS.
Definition t_limit : N := N.min (max_timer_duration cfg) u64_MAX.
Definition too_far (s : Timers) (d : N) : bool := t_now s + t_limit <? d.

Definition t_add (s : Timers) (e : TimerEntry) : Timers := mkTimers (<[entry_id e := e]> (t_set s)) (t_tick s) (t_count s + 1).
Definition t_remove (s : Timers) (id : N) : Timers := mkTimers (delete id (t_set s)) (t_tick s) (t_count s).
Definition t_advance (s : Timers) (now : N) (T : timers) : Timers := mkTimers T (N.max (t_tick s) (now / LEVEL0_RESOLUTION_NS)) (t_count s).

Inductive timers_step (s : Timers) : wheel_op → wheel_out → Timers → Prop :=
  | step_register d wk id : t_set s !! id = None →
      let d' := if too_far s d then N.min (t_now s + t_limit) u64_MAX else d in
      timers_step s (Register d wk) (OHandle (mkHandle id (t_count s))) (t_add s (mkEntry d' wk id (t_count s)))
  | step_try_ok d wk id : t_set s !! id = None → too_far s d = false →
      timers_step s (TryRegister d wk) (OTry (Ok (mkHandle id (t_count s)))) (t_add s (mkEntry d wk id (t_count s)))
  | step_try_err d wk : too_far s d = true →
      timers_step s (TryRegister d wk) (OTry (Err (mkExceeded (d - t_now s) (max_timer_duration cfg)))) s
  | step_cancel h e : t_set s !! handle_id h = Some e → generation e = handle_generation h →
      timers_step s (Cancel h) (OBool true) (t_remove s (handle_id h))
  | step_cancel_stale h : (∀ e, t_set s !! handle_id h = Some e → generation e ≠ handle_generation h) →
      timers_step s (Cancel h) (OBool false) s
  | step_synchronize now : timers_step s (Synchronize now) OUnit (t_advance s now (t_set s))
  | step_collect now ws : ws ≡ₚ waker <$> due (fire_limit co now (t_set s)) (timer_list (t_set s)) →
      timers_step s (CollectExpired now) (OWakers ws) (t_advance s now (remaining (fire_limit co now (t_set s)) (t_set s)))
  | step_next r : deadline_answer co (t_set s) r → timers_step s NextDeadline (ODeadline r) s
  | step_clear : timers_step s Clear OUnit (mkTimers ∅ (t_tick s) (t_count s)).

Inductive timers_run : Timers → list wheel_op → list wheel_out → Timers → Prop :=
  | run_nil s : timers_run s [] [] s
  | run_cons s1 op o s2 ops os s3 : timers_step s1 op o s2 → timers_run s2 ops os s3 → timers_run s1 (op :: ops) (o :: os) s3.

End machine.

(** ** The wheel as a machine *)

Section refinement.
Context {Active : Type} `{!Slab Active N} `{!SlabLaws Active N}.
Implicit Types (w : TimerWheel Active).

Definition wheel_apply w (op : wheel_op) : run (TimerWheel Active * wheel_out) :=
  match op with
  | Register d wk => let '(w, h) := register w d wk in Returns (w, OHandle h)
  | TryRegister d wk => let '(w, r) := try_register w d wk in Returns (w, OTry r)
  | Cancel h => p ← cancel w h; let '(w, b) := p in Returns (w, OBool b)
  | Synchronize now => w ← synchronize w now; Returns (w, OUnit)
  | CollectExpired now => p ← collect_expired w now; let '(w, ws) := p in Returns (w, OWakers ws)
  | NextDeadline => let '(w, r) := next_deadline w in Returns (w, ODeadline r)
  | Clear => Returns (clear w, OUnit)
  end.

Fixpoint wheel_run w (ops : list wheel_op) : run (TimerWheel Active * list wheel_out) :=
  match ops with
  | [] => Returns (w, [])
  | op :: ops =>
      p ← wheel_apply w op; let '(w, o) := p in
      q ← wheel_run w ops; let '(w, os) := q in
      Returns (w, o :: os)
  end.

(** The times an operation is given are [u64] nanoseconds. *)
Definition op_times_ok (op : wheel_op) : Prop :=
  match op with
  | Register d _ | TryRegister d _ => d ≤ u64_MAX
  | Synchronize now | CollectExpired now => now ≤ u64_MAX
  | _ => True
  end.

(** The wheel, configured by [cfg] and [co], stands for the timers [s]. *)
Record wheel_refines cfg co w (s : Timers) : Prop := {
  wr_ok : wheel_ok w (t_set s);
  wr_tick : current_tick w = t_tick s;
  wr_count : next_generation w = t_count s;
  wr_config : config w = cfg;
  wr_coalescing : coalescing w = co;
  wr_max : max_timer_duration_ns w = t_limit cfg;
}.

Lemma too_far_eq cfg co w s d : wheel_refines cfg co w s →
  (current_time w <? d) && (max_timer_duration_ns w <? saturating_sub d (current_time w)) = too_far cfg s d ∧ current_time w = t_now s.
Proof.
  intros [Hok Ht _ _ _ Hm]. pose proof (current_time_eq w (wc_shape _ (ok_current _ _ Hok))) as Hc. rewrite Ht in Hc. fold (t_now s) in Hc.
  split; [|done]. rewrite Hc, Hm. unfold too_far, saturating_sub. destruct (N.ltb_spec (t_now s) d), (N.ltb_spec (t_limit cfg) (d - t_now s)), (N.ltb_spec (t_now s + t_limit cfg) d); done || lia.
Qed.

Lemma insert_validated_refines cfg co w s d wk : wheel_refines cfg co w s → t_count s < u64_MAX →
  ∃ w' id, insert_validated w d wk = (w', mkHandle id (t_count s)) ∧ t_set s !! id = None ∧
    wheel_refines cfg co w' (t_add s (mkEntry d wk id (t_count s))).
Proof.
  intros [Hok Ht Hc Hcfg Hco Hm] Hmax. pose proof (register_spec w (t_set s) d wk Hok ltac:(by rewrite Hc)) as Hr.
  destruct (insert_validated w d wk) as [w' [id g]]. simpl in Hr. destruct Hr as (-> & Hid & Hok' & R). rewrite Hc in *.
  exists w', id. split_and!; [done|done|]. destruct R. split; simpl in *; congruence.
Qed.

Lemma wheel_apply_refines cfg co w s op : wheel_refines cfg co w s → op_times_ok op → t_count s < u64_MAX →
  ∃ w' o s', wheel_apply w op = Returns (w', o) ∧ timers_step cfg co s op o s' ∧ wheel_refines cfg co w' s' ∧ t_count s' ≤ t_count s + 1.
Proof.
  intros Hw Hop Hmax. pose proof Hw as [Hok Ht Hc Hcfg Hco Hm]. destruct op as [d wk|d wk|h|now|now| |]; cbn [wheel_apply].
  - unfold register, clamp_deadline. destruct (too_far_eq cfg co w s d Hw) as [-> Hct].
    set (d' := if too_far cfg s d then _ else d). destruct (insert_validated_refines cfg co w s d' wk Hw Hmax) as (w' & id & -> & Hid & Hw').
    eexists _, _, _. split_and!; [done| |exact Hw'|simpl; lia].
    assert (d' = if too_far cfg s d then N.min (t_now s + t_limit cfg) u64_MAX else d) as ->; [|by apply step_register].
    unfold d'. rewrite Hct, Hm. done.
  - unfold try_register. destruct (too_far_eq cfg co w s d Hw) as [-> Hct]. destruct (too_far cfg s d) eqn:Hfar.
    + eexists _, _, s. split_and!; [done| |done|lia]. rewrite Hct, Hcfg. by apply step_try_err.
    + destruct (insert_validated_refines cfg co w s d wk Hw Hmax) as (w' & id & -> & Hid & Hw').
      eexists _, _, _. split_and!; [done|by apply step_try_ok|exact Hw'|simpl; lia].
  - destruct (cancel_spec w (t_set s) h Hok) as (w' & b & -> & R & [(-> & (e & He & Hg) & Hok')|(-> & Hno & ->)]).
    + eexists _, _, _. split_and!; [done|by eapply step_cancel| |simpl; lia]. destruct R. split; simpl in *; congruence.
    + eexists _, _, _. split_and!; [done|by apply step_cancel_stale|done|lia].
  - destruct (synchronize_ok w now (t_set s) Hok Hop) as (w' & -> & Hok' & R).
    eexists _, _, _. split_and!; [done|apply step_synchronize| |simpl; lia]. destruct R. split; simpl in *; congruence.
  - destruct (collect_expired_spec w now (t_set s) Hok Hop) as (w' & ws & -> & Hok' & Hws & R). rewrite Hco in *.
    eexists _, _, _. split_and!; [done|by apply step_collect| |simpl; lia]. destruct R. split; simpl in *; congruence.
  - pose proof (next_deadline_spec w (t_set s) Hok) as Hn. destruct (next_deadline w) as [w' r]. destruct Hn as (Hok' & R & Ha).
    rewrite Hco in Ha. eexists _, _, _. split_and!; [done|by apply step_next| |lia]. destruct R. split; simpl in *; congruence.
  - destruct (wheel_clear_spec w (t_set s) Hok) as [Hok' R]. eexists _, _, _. split_and!; [done|apply step_clear| |simpl; lia].
    destruct R. split; simpl in *; congruence.
Qed.

Lemma wheel_run_refines cfg co ops w s : wheel_refines cfg co w s → Forall op_times_ok ops →
  t_count s + N.of_nat (length ops) ≤ u64_MAX →
  ∃ w' os s', wheel_run w ops = Returns (w', os) ∧ timers_run cfg co s ops os s' ∧ wheel_refines cfg co w' s'.
Proof.
  revert w s. induction ops as [|op ops IH]; intros w s Hw Hops Hmax; cbn [wheel_run]; [exists w, [], s; split_and!; [done|constructor|done]|].
  apply Forall_cons in Hops as [Hop Hops]. simpl in Hmax.
  destruct (wheel_apply_refines cfg co w s op Hw Hop ltac:(lia)) as (w1 & o & s1 & -> & Hstep & Hw1 & Hc1). cbn [mbind run_bind].
  destruct (IH w1 s1 Hw1 Hops ltac:(lia)) as (w' & os & s' & -> & Hrun & Hw'). cbn [mbind run_bind].
  eexists _, _, _. split_and!; [done|by econstructor|done].
Qed.

End refinement.

(** ** The claims *)

(** C5: Started at any time with a range the four levels can hold, the timer
    wheel answers every sequence of operations (registrations with clamping or
    rejection, cancellations, advances of time, collections, queries) and every
    answer is that of a flat map of timers: a collection at [now] returns, each
    once, exactly the wakers of the registered, uncancelled and unfired timers
    whose deadline is at most [now], or at most the end of [now]'s coalescing
    window when coalescing is on and enough timers are due by then; no cascade,
    skipped tick, overflow refill or stale entry loses, repeats or delays one. *)
Theorem timer_wheel_refines_timers {Active : Type} `{!Slab Active N} `{!SlabLaws Active N} now cfg co ops :
  now ≤ u64_MAX → LEVEL0_RESOLUTION_NS ≤ max_wheel_duration cfg → max_wheel_duration cfg ≤ slot_ns 4 →
  Forall op_times_ok ops → N.of_nat (length ops) ≤ u64_MAX →
  ∃ (w : TimerWheel Active) os s,
    wheel_run (with_config now cfg co) ops = Returns (w, os) ∧
    timers_run cfg co (mkTimers ∅ (now / LEVEL0_RESOLUTION_NS) 0) ops os s.
Proof.
  intros Hnow Hmin Hmax Hops Hlen.
  destruct (wheel_run_refines cfg co ops (with_config now cfg co) (mkTimers ∅ (now / LEVEL0_RESOLUTION_NS) 0)) as (w & os & s & Hrun & Hsteps & _); [|done|done|eauto].
  split; [by apply with_config_spec|done..].
Qed.

Definition ms (n : N) : N := n * LEVEL0_RESOLUTION_NS.

(** Timers on three levels and in the overflow heap; one is cancelled. *)
Definition wheel_trace : list wheel_op :=
  [Register (ms 3) 1; Register (ms 300) 2; Register (ms 70000) 3; TryRegister (ms 700000000) 4; Register (ms 90000000) 5; Register (ms 5) 6;
   NextDeadline; Cancel (mkHandle 4 4); CollectExpired (ms 10); CollectExpired (ms 299); CollectExpired (ms 80000); Cancel (mkHandle 0 0);
   NextDeadline; CollectExpired (ms 90000000); NextDeadline].

Example wheel_trace_run :
  (p ← wheel_run (Active := gmap N N) (new_at 0) wheel_trace; Returns p.2) =
  Returns [OHandle (mkHandle 0 0); OHandle (mkHandle 1 1); OHandle (mkHandle 2 2); OTry (Err (mkExceeded (ms 700000000) (ms 604800000)));
           OHandle (mkHandle 3 3); OHandle (mkHandle 4 4); ODeadline (Some (ms 3)); OBool true; OWakers [1]; OWakers []; OWakers [2; 3]; OBool false;
           ODeadline (Some (ms 90000000)); OWakers [5]; ODeadline None].
Proof. vm_compute. reflexivity. Qed.

Lemma timer_wheel_refines_timers_witness :
  ∃ (w : TimerWheel (gmap N N)) os s,
    wheel_run (with_config 0 config_default coalescing_default) wheel_trace = Returns (w, os) ∧
    timers_run config_default coalescing_default (mkTimers ∅ (0 / LEVEL0_RESOLUTION_NS) 0) wheel_trace os s.
Proof.
  apply (timer_wheel_refines_timers 0 config_default coalescing_default wheel_trace); [done|done|done| |done].
  repeat constructor; done.
Defined.

(** Advancing the wheel always returns, however far: the loop of
    [advance_to] with its skips ends within [target - tick + 1] rounds, each
    refill within the length of the heap; the wheel then stands at the target
    tick, every level's cursor agrees with it, every waiting entry is in the slot
    of its own level tick within one turn, and only entries beyond the range are
    left in the heap. *)
Theorem wheel_advance_keeps_order {Active : Type} `{!Slab Active N} `{!SlabLaws Active N} (w : TimerWheel Active) T now :
  wheel_ok w T → now ≤ u64_MAX →
  ∃ w', synchronize w now = Returns w' ∧ wheel_ok w' T ∧ current_tick w' = N.max (current_tick w) (now / LEVEL0_RESOLUTION_NS) ∧
    (∀ k l s e, levels w' !! k = Some l → s < 256 → e ∈ slot_at l s →
       cursor l = (current_tick w' / slot_ticks k) mod 256 ∧ s = (deadline e / slot_ns k) mod 256 ∧
       current_tick w' / slot_ticks k < deadline e / slot_ns k ∧ deadline e / slot_ns k ≤ current_tick w' / slot_ticks k + 256) ∧
    (∀ e, e ∈ overflow w' → ms (current_tick w') + max_wheel_duration_ns w' ≤ deadline e).
Proof.
  intros Hok Hnow. destruct (synchronize_ok w now T Hok Hnow) as (w' & Hrun & Hok' & R). exists w'. split_and!; [done|done|apply R| |].
  - intros k l s e Hk Hs He. destruct (ok_current _ _ Hok') as [Hsh Hl _]. destruct (Hl k l Hk) as [A1 A2 A3].
    rewrite (shape_res _ _ (ws_level _ Hsh k l Hk)) in A2, A3. destruct (A3 s e Hs He). auto.
  - apply (ok_current _ _ Hok').
Qed.

Definition one_timer : TimerWheel (gmap N N) := (insert_validated (with_config 0 config_default coalescing_default) (ms 300) 1).1.

Lemma wheel_advance_keeps_order_witness :
  ∃ w' : TimerWheel (gmap N N), synchronize one_timer (ms 299) = Returns w' ∧ wheel_ok w' {[0 := mkEntry (ms 300) 1 0 0]} ∧ current_tick w' = 299.
Proof.
  destruct (wheel_advance_keeps_order one_timer {[0 := mkEntry (ms 300) 1 0 0]} (ms 299)) as (w' & H1 & H2 & H3 & _).
  - pose proof (register_spec (with_config (Active := gmap N N) 0 config_default coalescing_default) ∅ (ms 300) 1) as Hr.
    apply Hr; [by apply with_config_spec|done].
  - done.
  - exists w'. split; [exact H1|]. split; [exact H2|exact H3].
Defined.

(** ** Where the code departs from its documentation *)

(** [next_deadline] is not always the earliest pending deadline: it stops at the
    first level with a live entry, though an entry of a coarser level, inserted
    earlier, may be due before. *)
Lemma next_deadline_not_earliest :
  (p ← wheel_run (Active := gmap N N) (new_at 0) [Register (ms 300) 1; CollectExpired (ms 200); Register (ms 440) 2; NextDeadline; CollectExpired (ms 300)];
   Returns p.2) =
  Returns [OHandle (mkHandle 0 0); OWakers []; OHandle (mkHandle 1 1); ODeadline (Some (ms 440)); OWakers [1]].
Proof. vm_compute. reflexivity. Qed.

(** With coalescing on, timers fire before their deadline, at the first
    collection inside the window, not at its end. *)
Lemma coalescing_fires_early :
  (p ← wheel_run (Active := gmap N N) (with_config 0 config_default (enabled_with_window (ms 10))) [Register (ms 9) 1; CollectExpired (ms 1)];
   Returns p.2) = Returns [OHandle (mkHandle 0 0); OWakers [1]].
Proof. vm_compute. reflexivity. Qed.

(** A wheel whose range is configured as zero never fires a timer set for later. *)
Lemma zero_range_never_fires :
  (p ← wheel_run (Active := gmap N N) (with_config 0 (mkConfig 0 (ms 604800000)) coalescing_default) [Register (ms 5) 1; CollectExpired (ms 10)];
   Returns p.2) = Returns [OHandle (mkHandle 0 0); OWakers []].
Proof. vm_compute. reflexivity. Qed.

(** A range beyond what the levels hold (49.7 days) makes the refill loop forever:
    the entry it takes out of the heap is put back at once. *)
Definition oversized : TimerWheel (gmap N N) := (register (with_config 0 (mkConfig (ms 5184000000) (ms 5184000000)) coalescing_default) (ms 4752000000) 1).1.

Lemma oversized_range_never_returns fuel : refill_loop fuel (set_tick oversized 1) = OutOfFuel.
Proof.
  assert (Hpop : heap_pop (overflow (set_tick oversized 1)) = Some (mkEntry (ms 4752000000) 1 0 0, [])) by (vm_compute; reflexivity).
  assert (Hnear : saturating_sub (ms 4752000000) (current_time (set_tick oversized 1)) <? max_wheel_duration_ns (set_tick oversized 1) = true) by (vm_compute; reflexivity).
  assert (Hback : insert_if_live (set_overflow (set_tick oversized 1) []) (mkEntry (ms 4752000000) 1 0 0) = set_tick oversized 1) by (vm_compute; reflexivity).
  induction fuel as [|fuel IH]; unfold refill_loop; fold (refill_loop (Active := gmap N N)); rewrite Hpop; cbn [deadline]; rewrite Hnear; [done|]. by rewrite Hback.
Qed.
