(* ===== verification/Clocks.v ===== *)
(** * Logical clocks

    Models [src/trace/distributed/vclock.rs]: Lamport clocks, hybrid clocks and
    vector clocks with their causal comparison, the trait [LogicalClock] they
    implement, and [CausalTracker].  A node is its name.  Each operation is one
    atomic step (a successful compare-exchange, a critical section); the reading
    of the time source is an argument.  A counter at [u64::MAX] panics.

    The theorems are about every distributed execution in which nodes tick and
    receive each other's times: all three clocks order causally related events,
    and vector clocks decide causality exactly. *)

From S2P Require Import Prelude Ids.

Notation NodeId := string (only parsing).

(** ** Lamport clocks *)

(** [x.checked_add(1).expect(..)] on [u64]. *)
Definition checked_succ (x : N) : exec N := if x <? u64_MAX then Done (x + 1) else Panics.

(** The state is the counter; a [LamportTime] is its value. *)
Definition lamport_tick (counter : N) : exec (N * N) := next ← checked_succ counter; Done (next, next).
Definition lamport_receive (counter sender : N) : exec (N * N) := next ← checked_succ (N.max counter sender); Done (next, next).

(** ** Hybrid clocks *)

(** [HybridTime], and the state of a [HybridClock]: the last physical time and
    the logical counter. *)
Record HybridTime := mkHybrid { physical : N; logical : N }.

(** The derived order: lexicographic. *)
Definition hybrid_lt (a b : HybridTime) : Prop := physical a < physical b ∨ physical a = physical b ∧ logical a < logical b.

Definition hybrid_new (reading : N) : HybridTime := mkHybrid reading 0.

Definition physical_now (state : HybridTime) (reading : N) : N := if reading <? physical state then physical state else reading.

Definition hybrid_now (state : HybridTime) (reading : N) : HybridTime :=
  let p := physical_now state reading in
  mkHybrid p (if p =? physical state then logical state else 0).

Definition hybrid_tick (state : HybridTime) (reading : N) : exec (HybridTime * HybridTime) :=
  let p := physical_now state reading in
  if p =? physical state then
    l ← checked_succ (logical state);
    let state := mkHybrid (physical state) l in Done (state, state)
  else let state := mkHybrid p 0 in Done (state, state).

Definition hybrid_receive (state : HybridTime) (reading : N) (sender : HybridTime) : exec (HybridTime * HybridTime) :=
  let p := physical_now state reading in
  let max_physical := N.max (N.max p (physical state)) (physical sender) in
  next_logical ←
    (if (max_physical =? physical state) && (max_physical =? physical sender) then checked_succ (N.max (logical state) (logical sender))
     else if max_physical =? physical state then checked_succ (logical state)
     else if max_physical =? physical sender then checked_succ (logical sender)
     else Done 0);
  let state := mkHybrid max_physical next_logical in Done (state, state).

(** ** Vector clocks *)

Notation VectorClock := (gmap NodeId N).
Implicit Types (vc : VectorClock) (node : NodeId).

Definition vc_new : VectorClock := ∅.
Definition vc_for_node node : VectorClock := {[node := 1]}.
Definition vc_get vc node : N := default 0 (vc !! node).

Definition increment vc node : exec (VectorClock * N) :=
  next ← checked_succ (vc_get vc node); Done (<[node := next]> vc, next).

(** [entry(node).or_insert(0)], raised to [value]. *)
Definition raise vc node (value : N) : VectorClock :=
  let entry := vc_get vc node in <[node := if entry <? value then value else entry]> vc.

Definition vc_set vc node (value : N) : VectorClock := if value =? 0 then vc else raise vc node value.

Definition merge_in vc (other : VectorClock) : VectorClock := foldl (λ vc p, raise vc p.1 p.2) vc (map_to_list other).
Definition merge vc (other : VectorClock) : VectorClock := merge_in vc other.

Definition vc_receive vc (local_node : NodeId) (remote_clock : VectorClock) : exec VectorClock :=
  p ← increment (merge_in vc remote_clock) local_node; Done p.1.

Inductive CausalOrder := Before | After | Equal | Concurrent.

(** [for node in all_nodes], with its early return. *)
Fixpoint order_loop vc (other : VectorClock) (nodes : list NodeId) (self_leq_other other_leq_self : bool) : CausalOrder :=
  match nodes with
  | [] => match self_leq_other, other_leq_self with
          | true, true => Equal | true, false => Before | false, true => After | false, false => Concurrent
          end
  | node :: nodes =>
      let a := vc_get vc node in
      let b := vc_get other node in
      let sl := if b <? a then false else self_leq_other in
      let os := if a <? b then false else other_leq_self in
      if negb sl && negb os then Concurrent else order_loop vc other nodes sl os
  end.

Definition causal_order vc (other : VectorClock) : CausalOrder :=
  order_loop vc other (elements (dom vc ∪ dom other : gset NodeId)) true true.

#[global] Instance CausalOrder_eq_dec : EqDecision CausalOrder.
Proof. solve_decision. Defined.

Definition happens_before vc (other : VectorClock) : bool := bool_decide (causal_order vc other = Before).
Definition is_concurrent_with vc (other : VectorClock) : bool := bool_decide (causal_order vc other = Concurrent).

(** [VectorClockHandle] and [CausalTracker]: a node and its clock. *)
Record CausalTracker := mkTracker { tracker_node : NodeId; tracker_clock : VectorClock }.

Definition tracker_new node : CausalTracker := mkTracker node vc_new.
Definition record_local_event (t : CausalTracker) : exec (CausalTracker * VectorClock) :=
  p ← increment (tracker_clock t) (tracker_node t); Done (mkTracker (tracker_node t) p.1, p.1).
Definition on_send (t : CausalTracker) : exec (CausalTracker * VectorClock) := record_local_event t.
Definition on_receive (t : CausalTracker) (remote_clock : VectorClock) : exec CausalTracker :=
  vc ← vc_receive (tracker_clock t) (tracker_node t) remote_clock; Done (mkTracker (tracker_node t) vc).

(** ** Times of either kind *)

Inductive LogicalTime := LTLamport (t : N) | LTVector (vc : VectorClock) | LTHybrid (t : HybridTime).

Definition hybrid_cmp (a b : HybridTime) : comparison :=
  match N.compare (physical a) (physical b) with Eq => N.compare (logical a) (logical b) | c => c end.

Definition partial_cmp (a b : LogicalTime) : option comparison :=
  match a, b with
  | LTLamport a, LTLamport b => Some (N.compare a b)
  | LTVector a, LTVector b => match causal_order a b with Before => Some Lt | After => Some Gt | Equal => Some Eq | Concurrent => None end
  | LTHybrid a, LTHybrid b => Some (hybrid_cmp a b)
  | _, _ => None
  end.

Definition lt_causal_order (a b : LogicalTime) : CausalOrder :=
  match a, b with
  | LTVector a, LTVector b => causal_order a b
  | _, _ => match partial_cmp a b with Some Lt => Before | Some Gt => After | Some Eq => Equal | None => Concurrent end
  end.

(** *** Clocks of either kind *)

Inductive LogicalClockHandle := HLamport (counter : N) | HVector (t : CausalTracker) | HHybrid (state : HybridTime).

Definition handle_tick (h : LogicalClockHandle) (reading : N) : exec (LogicalClockHandle * LogicalTime) :=
  match h with
  | HLamport c => p ← lamport_tick c; Done (HLamport p.1, LTLamport p.2)
  | HVector t => p ← record_local_event t; Done (HVector p.1, LTVector p.2)
  | HHybrid st => p ← hybrid_tick st reading; Done (HHybrid p.1, LTHybrid p.2)
  end.

(** A time of another kind is not merged: the clock ticks. *)
Definition handle_receive (h : LogicalClockHandle) (reading : N) (sender_time : LogicalTime) : exec (LogicalClockHandle * LogicalTime) :=
  match h, sender_time with
  | HLamport c, LTLamport time => p ← lamport_receive c time; Done (HLamport p.1, LTLamport p.2)
  | HVector t, LTVector time => t ← on_receive t time; Done (HVector t, LTVector (tracker_clock t))
  | HHybrid st, LTHybrid time => p ← hybrid_receive st reading time; Done (HHybrid p.1, LTHybrid p.2)
  | _, _ => handle_tick h reading
  end.

Definition handle_now (h : LogicalClockHandle) (reading : N) : LogicalTime :=
  match h with HLamport c => LTLamport c | HVector t => LTVector (tracker_clock t) | HHybrid st => LTHybrid (hybrid_now st reading) end.

(** ** Facts on vector clocks *)

Lemma vc_get_raise vc node value n : vc_get (raise vc node value) n = if decide (n = node) then N.max (vc_get vc node) value else vc_get vc n.
Proof.
  unfold raise, vc_get. case_decide as Hn.
  - subst. rewrite lookup_insert_eq. simpl. case_match; N_bools; lia.
  - by rewrite lookup_insert_ne.
Qed.

Lemma vc_get_merge vc other n : vc_get (merge_in vc other) n = N.max (vc_get vc n) (vc_get other n).
Proof.
  unfold merge_in. assert (Hl : ∀ l vc, NoDup l.*1 → vc_get (foldl (λ vc p, raise vc p.1 p.2) vc l) n = N.max (vc_get vc n) (vc_get (list_to_map l) n)).
  { induction l as [|[k v] l IH]; intros vc' Hnd; simpl; [unfold vc_get at 3; rewrite lookup_empty; simpl; lia|].
    apply NoDup_cons in Hnd as [Hk Hnd]. rewrite IH, vc_get_raise by done. unfold vc_get at 5. simpl.
    case_decide as Hn; [subst; rewrite lookup_insert_eq|rewrite lookup_insert_ne by done; done].
    assert (vc_get (list_to_map l) k = 0) as ->; [|simpl; lia]. unfold vc_get. by rewrite (proj1 (not_elem_of_list_to_map l k) Hk). }
  rewrite Hl by apply NoDup_fst_map_to_list. by rewrite list_to_map_to_list.
Qed.

Definition vc_le (a b : VectorClock) : Prop := ∀ n, vc_get a n ≤ vc_get b n.

(** What the comparison answers, from the two directions. *)
Definition order_of (sl os : bool) : CausalOrder :=
  match sl, os with true, true => Equal | true, false => Before | false, true => After | false, false => Concurrent end.

Lemma order_loop_spec a b nodes sl os : sl || os = true →
  order_loop a b nodes sl os =
    order_of (sl && forallb (λ n, vc_get a n <=? vc_get b n) nodes) (os && forallb (λ n, vc_get b n <=? vc_get a n) nodes).
Proof.
  revert sl os. induction nodes as [|n nodes IH]; intros sl os Hso; cbn [order_loop forallb]; [by rewrite !andb_true_r|].
  destruct (N.ltb_spec (vc_get b n) (vc_get a n)), (N.leb_spec (vc_get a n) (vc_get b n)); try lia;
    destruct (N.ltb_spec (vc_get a n) (vc_get b n)), (N.leb_spec (vc_get b n) (vc_get a n)); try lia;
    cbn [andb negb]; rewrite ?andb_false_r.
  - destruct os; [|done]. by rewrite IH.
  - destruct sl; [|done]. cbn [negb andb]. by rewrite IH.
  - destruct sl, os; try done; by rewrite IH.
Qed.

Lemma forall_nodes a b : forallb (λ n, vc_get a n <=? vc_get b n) (elements (dom a ∪ dom b : gset NodeId)) = true ↔ vc_le a b.
Proof.
  rewrite forallb_forall. split.
  - intros Hall n. destruct (decide (n ∈ (dom a ∪ dom b : gset NodeId))) as [Hn|Hn].
    + apply N.leb_le, Hall, list_elem_of_In, elem_of_elements, Hn.
    + unfold vc_get. rewrite not_elem_of_union, !not_elem_of_dom in Hn. destruct Hn as [-> _]. simpl. lia.
  - intros Hle n _. by apply N.leb_le.
Qed.

Lemma causal_order_spec a b :
  match causal_order a b with
  | Equal => vc_le a b ∧ vc_le b a
  | Before => vc_le a b ∧ ¬ vc_le b a
  | After => ¬ vc_le a b ∧ vc_le b a
  | Concurrent => ¬ vc_le a b ∧ ¬ vc_le b a
  end.
Proof.
  unfold causal_order. rewrite order_loop_spec by done. cbn [andb].
  pose proof (forall_nodes a b) as H1. pose proof (forall_nodes b a) as H2. rewrite (union_comm_L (dom b)) in H2.
  destruct (forallb _ _) eqn:E1, (forallb _ (elements _)) eqn:E2 in |- *; simpl; rewrite <-H1, <-H2, ?E1, ?E2; done.
Qed.

Lemma happens_before_spec a b : happens_before a b = true ↔ vc_le a b ∧ ¬ vc_le b a.
Proof. unfold happens_before. rewrite bool_decide_eq_true. pose proof (causal_order_spec a b). destruct (causal_order a b); naive_solver. Qed.

Lemma concurrent_spec a b : is_concurrent_with a b = true ↔ ¬ vc_le a b ∧ ¬ vc_le b a.
Proof. unfold is_concurrent_with. rewrite bool_decide_eq_true. pose proof (causal_order_spec a b). destruct (causal_order a b); naive_solver. Qed.

Lemma increment_spec vc node : vc_get vc node < u64_MAX →
  ∃ vc', increment vc node = Done (vc', vc_get vc node + 1) ∧ ∀ n, vc_get vc' n = if decide (n = node) then vc_get vc node + 1 else vc_get vc n.
Proof.
  intros Hmax. unfold increment, checked_succ. destruct (N.ltb_spec (vc_get vc node) u64_MAX); [|lia]. eexists. split; [done|].
  intros n. unfold vc_get at 1. case_decide as Hn; [subst; by rewrite lookup_insert_eq|by rewrite lookup_insert_ne].
Qed.

(** ** The trait

    [lc_new node reading] is a new clock of a node; the other operations get the
    reading of the time source. *)

Class LogicalClock (St T : Type) := {
  lc_new : NodeId → N → St;
  lc_tick : St → N → exec (St * T);
  lc_receive : St → N → T → exec (St * T);
}.

(** What a clock promises: every time it issues is after its last one, and after
    the time received; counters grow by one, and only a counter at the maximum
    panics. *)
Class LogicalClockLaws (St T : Type) `{!LogicalClock St T} := {
  lc_lt : T → T → Prop;
  lc_last : St → T;
  lc_within : T → N → Prop;
  lc_lt_trans a b c : lc_lt a b → lc_lt b c → lc_lt a c;
  within_mono t b b' : lc_within t b → b ≤ b' → lc_within t b';
  within_new node r : lc_within (lc_last (lc_new node r)) 0;
  tick_law st r b : lc_within (lc_last st) b → b < u64_MAX →
    ∃ st', lc_tick st r = Done (st', lc_last st') ∧ lc_lt (lc_last st) (lc_last st') ∧ lc_within (lc_last st') (b + 1);
  receive_law st r s b : lc_within (lc_last st) b → lc_within s b → b < u64_MAX →
    ∃ st', lc_receive st r s = Done (st', lc_last st') ∧ lc_lt (lc_last st) (lc_last st') ∧ lc_lt s (lc_last st') ∧ lc_within (lc_last st') (b + 1);
}.

#[global] Instance lamport_clock : LogicalClock N N := {|
  lc_new _ _ := 0; lc_tick st _ := lamport_tick st; lc_receive st _ s := lamport_receive st s |}.

#[global] Instance hybrid_clock : LogicalClock HybridTime HybridTime := {|
  lc_new _ r := hybrid_new r; lc_tick := hybrid_tick; lc_receive := hybrid_receive |}.

#[global] Instance vector_clock : LogicalClock CausalTracker VectorClock := {|
  lc_new node _ := tracker_new node;
  lc_tick st _ := record_local_event st;
  lc_receive st _ s := st ← on_receive st s; Done (st, tracker_clock st) |}.

#[global] Instance lamport_laws : LogicalClockLaws N N.
Proof.
  refine {| lc_lt := N.lt; lc_last t := t; lc_within := N.le |}; [lia|lia|by simpl; lia|..]; simpl.
  - intros st _ b Hb Hmax. unfold lamport_tick, checked_succ. destruct (N.ltb_spec st u64_MAX); [|lia]. eexists. split; [done|lia].
  - intros st _ s b Hb Hs Hmax. unfold lamport_receive, checked_succ. destruct (N.ltb_spec (N.max st s) u64_MAX); [|lia].
    eexists. split; [done|lia].
Defined.

#[global] Instance hybrid_laws : LogicalClockLaws HybridTime HybridTime.
Proof.
  refine {| lc_lt := hybrid_lt; lc_last t := t; lc_within t b := logical t ≤ b |}; [unfold hybrid_lt; lia|lia|by simpl; lia|..]; simpl.
  - intros st r b Hb Hmax. unfold hybrid_tick, checked_succ, physical_now, hybrid_lt.
    destruct (N.ltb_spec r (physical st)), (N.ltb_spec (logical st) u64_MAX); try lia; case_match; N_bools; eexists; (split; [done|]); simpl; lia.
  - intros st r s b Hb Hs Hmax. unfold hybrid_receive, hybrid_lt. set (p := physical_now st r). assert (physical st ≤ p).
    { unfold p, physical_now. destruct (N.ltb_spec r (physical st)); lia. }
    unfold checked_succ. destruct (N.ltb_spec (N.max (logical st) (logical s)) u64_MAX); [|lia].
    destruct (N.ltb_spec (logical st) u64_MAX); [|lia]. destruct (N.ltb_spec (logical s) u64_MAX); [|lia].
    set (m := N.max _ _). assert (physical st ≤ m ∧ physical s ≤ m) by lia.
    destruct (N.eqb_spec m (physical st)), (N.eqb_spec m (physical s)); simpl; eexists; (split; [done|]); simpl; lia.
Defined.

#[global] Instance vector_laws : LogicalClockLaws CausalTracker VectorClock.
Proof.
  refine {| lc_lt a b := vc_le a b ∧ ¬ vc_le b a; lc_last := tracker_clock; lc_within vc b := ∀ n, vc_get vc n ≤ b |}; simpl.
  - intros a b c [H1 H2] [H3 H4]. split; [intros n; specialize (H1 n); specialize (H3 n); lia|]. intros H5. apply H4. intros n.
    specialize (H5 n). specialize (H1 n). lia.
  - intros t b b' Hw Hb n. specialize (Hw n). lia.
  - intros node _ n. unfold vc_get, vc_new. rewrite lookup_empty. simpl. lia.
  - intros [node vc] _ b Hw Hmax. simpl in *. unfold record_local_event. simpl.
    destruct (increment_spec vc node) as (vc' & -> & Hget); [specialize (Hw node); lia|]. exists (mkTracker node vc'). split; [done|]. simpl. split_and!.
    + intros n. rewrite Hget. case_decide; [subst; lia|lia].
    + intros Hle. specialize (Hle node). rewrite Hget, decide_True in Hle by done. lia.
    + intros n. rewrite Hget. specialize (Hw n). case_decide; [subst; lia|lia].
  - intros [node vc] _ s b Hw Hs Hmax. simpl in *. unfold on_receive, vc_receive. simpl.
    destruct (increment_spec (merge_in vc s) node) as (vc' & -> & Hget); [rewrite vc_get_merge; specialize (Hw node); specialize (Hs node); lia|].
    exists (mkTracker node vc'). split; [done|]. simpl. assert (Hm : ∀ n, vc_get vc n ≤ vc_get vc' n ∧ vc_get s n ≤ vc_get vc' n ∧ vc_get vc' n ≤ b + 1).
    { intros n. rewrite Hget. specialize (Hw n). specialize (Hs n). case_decide; subst; rewrite !vc_get_merge; lia. }
    assert (Hnode : vc_get vc node < vc_get vc' node ∧ vc_get s node < vc_get vc' node) by (rewrite Hget, decide_True by done; rewrite vc_get_merge; lia).
    split_and!; [intros n; apply Hm|intros Hle; specialize (Hle node); lia|intros n; apply Hm|intros Hle; specialize (Hle node); lia|intros n; apply Hm].
Defined.

(** *** Handles *)

Definition handle_last (h : LogicalClockHandle) : LogicalTime :=
  match h with HLamport c => LTLamport c | HVector t => LTVector (tracker_clock t) | HHybrid st => LTHybrid st end.
Definition time_within (t : LogicalTime) (b : N) : Prop :=
  match t with LTLamport c => c ≤ b | LTVector vc => ∀ n, vc_get vc n ≤ b | LTHybrid t => logical t ≤ b end.

Lemma vector_after a b : vc_le a b ∧ ¬ vc_le b a → partial_cmp (LTVector a) (LTVector b) = Some Lt.
Proof. intros [H1 H2]. simpl. pose proof (causal_order_spec a b). destruct (causal_order a b); naive_solver. Qed.

Lemma hybrid_after a b : hybrid_lt a b → partial_cmp (LTHybrid a) (LTHybrid b) = Some Lt.
Proof. unfold hybrid_lt. simpl. unfold hybrid_cmp. intros [H|[-> H]]; [by rewrite (proj2 (N.compare_lt_iff _ _) H)|]. by rewrite N.compare_refl, (proj2 (N.compare_lt_iff _ _) H). Qed.

(** Whatever time it receives, of its own kind or not, a handle issues a time
    after its last one, and after the time received unless the two cannot be
    compared. *)
Lemma handle_receive_progresses h r s b : time_within (handle_last h) b → time_within s b → b < u64_MAX →
  ∃ h', handle_receive h r s = Done (h', handle_last h') ∧ partial_cmp (handle_last h) (handle_last h') = Some Lt ∧
    (partial_cmp s (handle_last h') = Some Lt ∨ partial_cmp s (handle_last h') = None).
Proof.
  intros Hh Hs Hb. destruct h as [c|t|st], s as [c'|vc|st']; simpl in Hh, Hs.
  - destruct (@receive_law N N lamport_clock lamport_laws c r c' b Hh Hs Hb) as (c2 & E & L1 & L2 & _). simpl in *. exists (HLamport c2). rewrite E. simpl.
    split_and!; [done| |left]; f_equal; by apply N.compare_lt_iff.
  - destruct (@tick_law N N lamport_clock lamport_laws c r b Hh Hb) as (c2 & E & L1 & _). simpl in *. exists (HLamport c2). rewrite E. simpl.
    split_and!; [done|f_equal; by apply N.compare_lt_iff|by right].
  - destruct (@tick_law N N lamport_clock lamport_laws c r b Hh Hb) as (c2 & E & L1 & _). simpl in *. exists (HLamport c2). rewrite E. simpl.
    split_and!; [done|f_equal; by apply N.compare_lt_iff|by right].
  - destruct (@tick_law CausalTracker VectorClock vector_clock vector_laws t r b Hh Hb) as (t2 & E & L1 & _). exists (HVector t2).
    cbn [handle_receive handle_tick handle_last]. simpl in E. rewrite E. split_and!; [done|by apply vector_after|by right].
  - destruct (@receive_law CausalTracker VectorClock vector_clock vector_laws t r vc b Hh Hs Hb) as (t2 & E & L1 & L2 & _). exists (HVector t2).
    cbn [handle_receive handle_last]. simpl in E. destruct (on_receive t vc) as [t3|]; simpl in E; [|done]. injection E as ->.
    split_and!; [done|by apply vector_after|left; by apply vector_after].
  - destruct (@tick_law CausalTracker VectorClock vector_clock vector_laws t r b Hh Hb) as (t2 & E & L1 & _). exists (HVector t2).
    cbn [handle_receive handle_tick handle_last]. simpl in E. rewrite E. split_and!; [done|by apply vector_after|by right].
  - destruct (@tick_law HybridTime HybridTime hybrid_clock hybrid_laws st r b Hh Hb) as (t2 & E & L1 & _). exists (HHybrid t2).
    cbn [handle_receive handle_tick handle_last]. simpl in E. rewrite E. split_and!; [done|by apply hybrid_after|by right].
  - destruct (@tick_law HybridTime HybridTime hybrid_clock hybrid_laws st r b Hh Hb) as (t2 & E & L1 & _). exists (HHybrid t2).
    cbn [handle_receive handle_tick handle_last]. simpl in E. rewrite E. split_and!; [done|by apply hybrid_after|by right].
  - destruct (@receive_law HybridTime HybridTime hybrid_clock hybrid_laws st r st' b Hh Hs Hb) as (t2 & E & L1 & L2 & _). exists (HHybrid t2).
    cbn [handle_receive handle_last]. simpl in E. rewrite E. split_and!; [done|by apply hybrid_after|left; by apply hybrid_after].
Qed.

(** ** Distributed executions *)

(** A node ticks (a local event or a send), or receives the time of the event
    with number [from]. *)
Inductive action := ATick (node : NodeId) (reading : N) | AReceive (node : NodeId) (reading : N) (from : nat).

Record event (T : Type) := mkEvent { ev_node : NodeId; ev_time : T; ev_from : option nat }.
Arguments mkEvent {T} _ _ _.
Arguments ev_node {T} _.
Arguments ev_time {T} _.
Arguments ev_from {T} _.

(** Program order and messages; their transitive closure is causality. *)
Definition edge {T} (log : list (event T)) (i j : nat) : Prop :=
  ∃ ei ej, log !! i = Some ei ∧ log !! j = Some ej ∧ (i < j)%nat ∧ (ev_node ei = ev_node ej ∨ ev_from ej = Some i).
Definition causes {T} (log : list (event T)) : nat → nat → Prop := tc (edge log).

Section execution.
Context {St T : Type} `{!LogicalClock St T}.

Record world := mkWorld { clocks : gmap NodeId St; log : list (event T) }.
Definition world_new : world := mkWorld ∅ [].

Definition clock_of (w : world) (node : NodeId) (reading : N) : St := default (lc_new node reading) (clocks w !! node).

Definition issue (w : world) (node : NodeId) (from : option nat) (p : St * T) : world :=
  mkWorld (<[node := p.1]> (clocks w)) (log w ++ [mkEvent node p.2 from]).

Definition act (w : world) (a : action) : exec world :=
  match a with
  | ATick node r => p ← lc_tick (clock_of w node r) r; Done (issue w node None p)
  | AReceive node r from =>
      match log w !! from with
      | Some e => p ← lc_receive (clock_of w node r) r (ev_time e); Done (issue w node (Some from) p)
      | None => Done w
      end
  end.

Fixpoint acts (w : world) (l : list action) : exec world :=
  match l with [] => Done w | a :: l => w ← act w a; acts w l end.

End execution.
Arguments world : clear implicits.

(** *** Causality when an event is added *)

Lemma tc_last {A} (R : relation A) x z : tc R x z → ∃ y, rtc R x y ∧ R y z.
Proof.
  induction 1 as [x y Hr|x y z Hr _ (p & Hp & Hpz)]; [exists x; split; [apply rtc_refl|done]|]. exists p. split; [by eapply rtc_l|done].
Qed.

Section causality.
Context {T : Type}.
Implicit Types (l : list (event T)) (e : event T).

Lemma edge_lt l i j : edge l i j → (i < j)%nat ∧ (j < length l)%nat.
Proof. intros (ei & ej & _ & Hj%lookup_lt_Some & Hlt & _). done. Qed.

Lemma causes_lt l i j : causes l i j → (i < j)%nat ∧ (j < length l)%nat.
Proof. induction 1 as [i j He|i j k He _ IH]; apply edge_lt in He; lia. Qed.

Lemma edge_old l e i j : (j < length l)%nat → edge (l ++ [e]) i j ↔ edge l i j.
Proof.
  intros Hj. unfold edge. split; intros (ei & ej & Hi & Hj' & Hlt & He); exists ei, ej.
  - rewrite lookup_app_l in Hi, Hj' by lia. auto.
  - rewrite !lookup_app_l by lia. auto.
Qed.

Lemma causes_old l e i j : (j < length l)%nat → causes (l ++ [e]) i j ↔ causes l i j.
Proof.
  intros Hj. split; intros Hc.
  - revert Hj. induction Hc as [i j He|i j k He Hc IH]; intros Hk.
    + apply tc_once. by apply (edge_old l e).
    + apply causes_lt in Hc as Hlt. eapply tc_l; [|by apply IH]. apply (edge_old l e); [lia|done].
  - induction Hc as [i j He|i j k He Hc IH].
    + apply tc_once. by apply edge_old.
    + eapply tc_l; [|by apply IH]. apply edge_old; [|done]. apply causes_lt in Hc. lia.
Qed.

(** What precedes the new event: its node's events and the one it received. *)
Lemma causes_new l e i : causes (l ++ [e]) i (length l) ↔
  ∃ p ep, l !! p = Some ep ∧ (ev_node ep = ev_node e ∨ ev_from e = Some p) ∧ (i = p ∨ causes l i p).
Proof.
  split.
  - intros Hc. destruct (tc_last _ _ _ Hc) as (p & Hr & (ep & ej & Hp & Hj & Hlt & He)).
    rewrite lookup_app_r, Nat.sub_diag in Hj by lia. injection Hj as <-. rewrite lookup_app_l in Hp by lia. exists p, ep. split_and!; [done|done|].
    apply rtc_tc in Hr as [->|Hr]; [by left|]. right. apply (causes_old l e); [by eapply lookup_lt_Some|done].
  - intros (p & ep & Hp & He & Hi). pose proof (lookup_lt_Some _ _ _ Hp) as Hlt.
    assert (Hedge : edge (l ++ [e]) p (length l)).
    { exists ep, e. rewrite lookup_app_l by done. rewrite lookup_app_r, Nat.sub_diag by lia. split_and!; [done|done|lia|done]. }
    destruct Hi as [->|Hi]; [by apply tc_once|]. eapply tc_r; [|exact Hedge]. by apply causes_old.
Qed.

End causality.

(** *** Every lawful clock respects causality *)

Section lawful.
Context {St T : Type} `{!LogicalClock St T, !LogicalClockLaws St T}.
Implicit Types (w : world St T).

Definition not_after (a b : T) : Prop := a = b ∨ lc_lt a b.

Record world_ok w : Prop := {
  wo_bound : ∀ i e, log w !! i = Some e → lc_within (ev_time e) (N.of_nat (length (log w)));
  wo_states : ∀ n st, clocks w !! n = Some st → lc_within (lc_last st) (N.of_nat (length (log w)));
  wo_last : ∀ i e, log w !! i = Some e → ∃ st, clocks w !! ev_node e = Some st ∧ not_after (ev_time e) (lc_last st);
  wo_edges : ∀ i j ei ej, edge (log w) i j → log w !! i = Some ei → log w !! j = Some ej → lc_lt (ev_time ei) (ev_time ej);
}.

Lemma not_after_lt a b c : not_after a b → lc_lt b c → lc_lt a c.
Proof. intros [->|Hab] Hbc; [done|]. by eapply lc_lt_trans. Qed.

Lemma world_ok_new : world_ok world_new.
Proof. split; simpl; intros *; rewrite ?lookup_nil, ?lookup_empty; try done. Qed.

Lemma clock_of_within w node r : world_ok w → lc_within (lc_last (clock_of w node r)) (N.of_nat (length (log w))).
Proof.
  intros Hw. unfold clock_of. destruct (clocks w !! node) as [st|] eqn:Hst; simpl; [by eapply wo_states|].
  eapply within_mono; [apply within_new|lia].
Qed.

(** A new event, after the last of its node and the one received. *)
Lemma issue_ok w node r from st : world_ok w → lc_lt (lc_last (clock_of w node r)) (lc_last st) →
  (∀ i e, from = Some i → log w !! i = Some e → lc_lt (ev_time e) (lc_last st)) →
  lc_within (lc_last st) (N.of_nat (length (log w)) + 1) →
  world_ok (issue w node from (st, lc_last st)).
Proof.
  intros Hw Hlt Hfrom Hin. pose proof Hw as [H1 H2 H3 H4].
  assert (Hlen : N.of_nat (length (log (issue w node from (st, lc_last st)))) = N.of_nat (length (log w)) + 1).
  { simpl. rewrite length_app. simpl. lia. }
  split; rewrite ?Hlen; simpl.
  - intros i e. rewrite lookup_snoc_Some. intros [[_ Hi]|[_ <-]]; [|done]. eapply within_mono; [by eapply H1|lia].
  - intros n st'. rewrite lookup_insert_Some. intros [[_ <-]|[_ Hn]]; [done|]. eapply within_mono; [by eapply H2|lia].
  - intros i e. rewrite lookup_snoc_Some. intros [[_ Hi]|[_ <-]]; simpl.
    + destruct (H3 i e Hi) as (st' & Hst & Hna). destruct (decide (node = ev_node e)) as [->|Hne].
      * rewrite lookup_insert_eq. exists st. split; [done|]. right. eapply not_after_lt; [exact Hna|].
        unfold clock_of in Hlt. by rewrite Hst in Hlt.
      * rewrite lookup_insert_ne by done. eauto.
    + rewrite lookup_insert_eq. exists st. split; [done|by left].
  - intros i j ei ej He. rewrite !lookup_snoc_Some. intros Hi [[Hj Hej]|[Hj <-]].
    + apply edge_old in He; [|done]. destruct Hi as [[_ Hi]|[Hi _]]; [by eapply H4|]. apply edge_lt in He. lia.
    + destruct He as (ei' & ej' & Hi' & Hj' & Hlt' & He). subst j. rewrite lookup_app_r, Nat.sub_diag in Hj' by lia. injection Hj' as <-.
      destruct Hi as [[_ Hi]|[Hi _]]; [|lia]. rewrite lookup_app_l in Hi' by lia. assert (ei' = ei) as -> by congruence. simpl in *.
      destruct He as [Hn| ->]; [|by eapply Hfrom]. destruct (H3 i ei Hi) as (st' & Hst & Hna). eapply not_after_lt; [exact Hna|].
      unfold clock_of in Hlt. by rewrite <-Hn, Hst in Hlt.
Qed.

Lemma act_ok w a : world_ok w → N.of_nat (length (log w)) < u64_MAX →
  ∃ w', act w a = Done w' ∧ world_ok w' ∧ (length (log w') ≤ S (length (log w)))%nat.
Proof.
  intros Hw Hmax. assert (Hl : ∀ node from p, (length (log (issue w node from p)) ≤ S (length (log w)))%nat) by (intros; simpl; rewrite length_app; simpl; lia).
  destruct a as [node r|node r from]; cbn [act].
  - destruct (tick_law (clock_of w node r) r _ (clock_of_within w node r Hw) Hmax) as (st & -> & Hlt & Hin). eexists. split; [done|]. split; [|done].
    by eapply issue_ok.
  - destruct (log w !! from) as [e|] eqn:Hfrom; [|exists w; split; [done|]; split; [done|lia]].
    destruct (receive_law (clock_of w node r) r (ev_time e) _ (clock_of_within w node r Hw) (wo_bound _ Hw _ _ Hfrom) Hmax) as (st & -> & Hlt & Hlt2 & Hin).
    eexists. split; [done|]. split; [|done]. eapply issue_ok; [done|exact Hlt| |done]. intros i e' [= <-] He'. congruence.
Qed.

Lemma acts_ok w l : world_ok w → N.of_nat (length (log w)) + N.of_nat (length l) ≤ u64_MAX → ∃ w', acts w l = Done w' ∧ world_ok w'.
Proof.
  revert w. induction l as [|a l IH]; intros w Hw Hmax; cbn [acts]; [eauto|]. simpl in Hmax.
  destruct (act_ok w a Hw ltac:(lia)) as (w1 & -> & Hw1 & Hlen). simpl. apply IH; [done|lia].
Qed.

Lemma causes_respected w i j ei ej : world_ok w → causes (log w) i j → log w !! i = Some ei → log w !! j = Some ej → lc_lt (ev_time ei) (ev_time ej).
Proof.
  intros Hw Hc. revert ei. induction Hc as [i j He|i k j He Hc IH]; intros ei Hi Hj; [by eapply wo_edges|].
  pose proof (edge_lt _ _ _ He) as [_ Hk]. apply lookup_lt_is_Some_2 in Hk as [ek Hk].
  eapply lc_lt_trans; [by eapply wo_edges|]. by eapply IH.
Qed.

End lawful.

(** *** Vector clocks decide causality *)

Section vector.
Implicit Types (w : world CausalTracker VectorClock).

(** The number of events of a node so far. *)
Definition counter w (n : NodeId) : N := match clocks w !! n with Some st => vc_get (tracker_clock st) n | None => 0 end.

(** Event [i] is within what the clock [vc] has seen of its node. *)
Definition seen (e : event VectorClock) vc : Prop := vc_get (ev_time e) (ev_node e) ≤ vc_get vc (ev_node e).

Record vector_ok w : Prop := {
  vo_world : world_ok w;
  vo_node : ∀ n st, clocks w !! n = Some st → tracker_node st = n;
  vo_counter : ∀ i e n, log w !! i = Some e → vc_get (ev_time e) n ≤ counter w n;
  vo_positive : ∀ i e, log w !! i = Some e → 1 ≤ vc_get (ev_time e) (ev_node e);
  vo_last : ∀ n st, clocks w !! n = Some st → ∃ l el, log w !! l = Some el ∧ ev_node el = n ∧ ev_time el = tracker_clock st ∧
    ∀ k ek, log w !! k = Some ek → ev_node ek = n → (k ≤ l)%nat;
  vo_seen : ∀ i j ei ej, log w !! i = Some ei → log w !! j = Some ej → seen ei (ev_time ej) ↔ i = j ∨ causes (log w) i j;
}.

Lemma vector_ok_new : vector_ok world_new.
Proof.
  split; [apply world_ok_new|..]; simpl; intros.
  - by rewrite lookup_empty in *.
  - by rewrite lookup_nil in *.
  - by rewrite lookup_nil in *.
  - by rewrite lookup_empty in *.
  - by rewrite lookup_nil in *.
Qed.

(** What the clock of [node] has seen: the causes of an event it would issue now. *)
Lemma clock_seen w node r i ei : vector_ok w → log w !! i = Some ei →
  seen ei (tracker_clock (clock_of w node r)) ↔ ∃ p ep, log w !! p = Some ep ∧ ev_node ep = node ∧ (i = p ∨ causes (log w) i p).
Proof.
  intros Hw Hi. unfold clock_of. destruct (clocks w !! node) as [st|] eqn:Hst; simpl.
  - destruct (vo_last _ Hw _ _ Hst) as (l & el & Hl & Hn & Ht & Hmax). rewrite <-Ht, (vo_seen _ Hw _ _ _ _ Hi Hl). split; [eauto 10|].
    intros (p & ep & Hp & Hpn & Hip). pose proof (Hmax p ep Hp Hpn) as Hle. destruct (decide (p = l)) as [->|Hne]; [done|]. right.
    assert (Hpl : edge (log w) p l) by (exists ep, el; split_and!; [done|done|lia|left; congruence]).
    destruct Hip as [->|Hip]; [by apply tc_once|by eapply tc_r].
  - split.
    + intros Hs. exfalso. pose proof (vo_positive _ Hw _ _ Hi). unfold seen, vc_get at 2, vc_new in Hs. rewrite lookup_empty in Hs. simpl in Hs. lia.
    + intros (p & ep & Hp & Hpn & _). destruct (wo_last _ (vo_world _ Hw) _ _ Hp) as (st & Hst' & _). congruence.
Qed.

Lemma clock_counter w node r n : vector_ok w → vc_get (tracker_clock (clock_of w node r)) n ≤ counter w n.
Proof.
  intros Hw. unfold clock_of. destruct (clocks w !! node) as [st|] eqn:Hst; simpl.
  - destruct (vo_last _ Hw _ _ Hst) as (l & el & Hl & Hn & <- & _). by eapply vo_counter.
  - unfold vc_get, vc_new. rewrite lookup_empty. simpl. lia.
Qed.

Lemma clock_of_counter w node r : vc_get (tracker_clock (clock_of w node r)) node = counter w node.
Proof. unfold clock_of, counter. destruct (clocks w !! node) as [st|]; [done|]. simpl. unfold vc_get, vc_new. by rewrite lookup_empty. Qed.

(** A new event whose clock is the maximum of what its node knew and what it
    received, its own component one more. *)
Lemma issue_vector w node r from st : vector_ok w → world_ok (issue w node from (st, tracker_clock st)) → tracker_node st = node →
  (∀ n, vc_get (tracker_clock st) n = (if decide (n = node) then 1 else 0) +
     N.max (vc_get (tracker_clock (clock_of w node r)) n) (match from with Some f => match log w !! f with Some e => vc_get (ev_time e) n | None => 0 end | None => 0 end)) →
  vector_ok (issue w node from (st, tracker_clock st)).
Proof.
  intros Hw Hok Hnode Hget. pose proof Hw as [V0 V1 V2 V3 V4 V5].
  set (sn := λ n, match from with Some f => match log w !! f with Some e => vc_get (ev_time e) n | None => 0 end | None => 0 end).
  change (∀ n, vc_get (tracker_clock st) n = (if decide (n = node) then 1 else 0) + N.max (vc_get (tracker_clock (clock_of w node r)) n) (sn n)) in Hget.
  assert (Hsn : ∀ n, sn n ≤ counter w n).
  { intros n. unfold sn. destruct from as [f|]; [|lia]. destruct (log w !! f) as [e|] eqn:Hf; [by eapply V2|lia]. }
  assert (Hown : vc_get (tracker_clock st) node = 1 + counter w node).
  { rewrite Hget, decide_True by done. rewrite clock_of_counter. specialize (Hsn node). lia. }
  assert (Hcnt : ∀ n, counter (issue w node from (st, tracker_clock st)) n = if decide (n = node) then 1 + counter w node else counter w n).
  { intros n. unfold counter at 1, issue. simpl. case_decide as Hn; [subst; by rewrite lookup_insert_eq|]. by rewrite lookup_insert_ne. }
  split; [done|..]; simpl.
  - intros n st'. rewrite lookup_insert_Some. intros [[<- <-]|[_ Hn]]; [done|by apply V1].
  - intros i e n. rewrite lookup_snoc_Some, Hcnt. intros [[_ Hi]|[_ <-]]; simpl.
    + specialize (V2 i e n Hi). case_decide; subst; lia.
    + case_decide as Hn; [subst; lia|]. rewrite Hget, decide_False by done. pose proof (clock_counter w node r n Hw). specialize (Hsn n). lia.
  - intros i e. rewrite lookup_snoc_Some. intros [[_ Hi]|[_ <-]]; simpl; [by eapply V3|lia].
  - intros n st'. rewrite lookup_insert_Some. intros [[<- <-]|[Hne Hn]].
    + exists (length (log w)), (mkEvent node (tracker_clock st) from). rewrite lookup_app_r, Nat.sub_diag by lia. split_and!; try done.
      intros k ek Hk%lookup_lt_Some _. rewrite length_app in Hk. simpl in Hk. lia.
    + destruct (V4 n st' Hn) as (l & el & Hl & Hel & Ht & Hmax). exists l, el. rewrite lookup_app_l by (by eapply lookup_lt_Some).
      split_and!; [done..|]. intros k ek. rewrite lookup_snoc_Some. intros [[_ Hk]|[_ <-]] Hkn; [by eapply Hmax|]. simpl in Hkn. congruence.
  - intros i j ei ej. rewrite !lookup_snoc_Some. intros Hi [[Hj Hej]|[-> <-]].
    + destruct Hi as [[Hi Hei]|[-> <-]].
      * rewrite causes_old by done. by apply V5.
      * split; [|intros [Heq|Hc%causes_lt]; lia]. unfold seen. simpl. intros Hs. pose proof (V2 j ej node Hej). lia.
    + destruct Hi as [[Hi Hei]|[-> <-]].
      2: { split; [by left|]. intros _. unfold seen. simpl. lia. }
      rewrite causes_new. simpl. assert (Hstep : seen ei (tracker_clock st) ↔ ev_node ei = node ∨ seen ei (tracker_clock (clock_of w node r)) ∨ vc_get (ev_time ei) (ev_node ei) ≤ sn (ev_node ei)).
      { unfold seen. pose proof (V3 i ei Hei) as Hpos. rewrite Hget. case_decide as Hn; [|split; [intros; right; lia|intros [?|?]; [done|lia]]].
        split; [by left|]. intros _. pose proof (V2 i ei (ev_node ei) Hei) as Hc.
        assert (vc_get (tracker_clock (clock_of w node r)) (ev_node ei) = counter w (ev_node ei)) as Hcc by (rewrite Hn; apply clock_of_counter). lia. }
      assert (Hfrom : vc_get (ev_time ei) (ev_node ei) ≤ sn (ev_node ei) ↔ ∃ f ef, from = Some f ∧ log w !! f = Some ef ∧ (i = f ∨ causes (log w) i f)).
      { unfold sn. pose proof (V3 i ei Hei) as Hpos. destruct from as [f|]; [|split; [lia|by intros (? & ? & [=] & _)]].
        destruct (log w !! f) as [ef|] eqn:Hf; [|split; [lia|intros (? & ? & [= <-] & ? & _); congruence]].
        pose proof (V5 i f ei ef Hei Hf) as H5. unfold seen in H5. split; [intros Hs; exists f, ef; split_and!; [done|done|by apply H5]|].
        intros (f' & ef' & [= <-] & Hf' & Hc). by apply H5. }
      rewrite Hstep, Hfrom, (clock_seen w node r i ei Hw Hei). split.
      * intros [Hn|[(p & ep & Hp & Hpn & Hip)|(f & ef & Hf & Hef & Hif)]]; right; [exists i, ei|exists p, ep|exists f, ef]; auto.
      * intros [Heq|(p & ep & Hp & [Hpn|Hpf] & Hip)]; [lia|eauto 10|eauto 10].
Qed.

Lemma act_vector w a : vector_ok w → N.of_nat (length (log w)) < u64_MAX →
  ∃ w', act w a = Done w' ∧ vector_ok w' ∧ (length (log w') ≤ S (length (log w)))%nat.
Proof.
  intros Hw Hmax. destruct (act_ok w a (vo_world _ Hw) Hmax) as (w' & Hact & Hok & Hlen). exists w'. split; [done|]. split; [|done].
  pose proof (clock_of_within w) as Hin. destruct a as [node r|node r from]; cbn [act] in Hact.
  - specialize (Hin node r (vo_world _ Hw)). change (∀ n, vc_get (tracker_clock (clock_of w node r)) n ≤ N.of_nat (length (log w))) in Hin. simpl in Hact. unfold record_local_event in Hact. set (st := clock_of w node r) in *.
    assert (Hn : tracker_node st = node) by (unfold st, clock_of; destruct (clocks w !! node) eqn:Hst; [by eapply vo_node|done]).
    destruct (increment_spec (tracker_clock st) (tracker_node st)) as (vc & Hinc & Hget); [specialize (Hin (tracker_node st)); simpl in Hin; lia|].
    rewrite Hinc in Hact. simpl in Hact. injection Hact as <-. apply (issue_vector w node r None (mkTracker (tracker_node st) vc)); [done|done|done|].
    intros n. simpl. fold st. rewrite Hget, Hn. destruct (decide (n = node)) as [->|]; lia.
  - destruct (log w !! from) as [e|] eqn:Hfrom; [|by injection Hact as <-]. specialize (Hin node r (vo_world _ Hw)). change (∀ n, vc_get (tracker_clock (clock_of w node r)) n ≤ N.of_nat (length (log w))) in Hin. set (st := clock_of w node r) in *.
    simpl in Hact. unfold on_receive, vc_receive in Hact.
    assert (Hn : tracker_node st = node) by (unfold st, clock_of; destruct (clocks w !! node) eqn:Hst; [by eapply vo_node|done]).
    destruct (increment_spec (merge_in (tracker_clock st) (ev_time e)) (tracker_node st)) as (vc & Hinc & Hget).
    { rewrite vc_get_merge. specialize (Hin (tracker_node st)). pose proof (wo_bound _ (vo_world _ Hw) _ _ Hfrom (tracker_node st)) as Hb. simpl in Hb. lia. }
    rewrite Hinc in Hact. simpl in Hact. injection Hact as <-. apply (issue_vector w node r (Some from) (mkTracker (tracker_node st) vc)); [done|done|done|].
    intros n. simpl. fold st. rewrite Hget, Hn, Hfrom, !vc_get_merge. destruct (decide (n = node)) as [->|]; lia.
Qed.

Lemma acts_vector w l : vector_ok w → N.of_nat (length (log w)) + N.of_nat (length l) ≤ u64_MAX → ∃ w', acts w l = Done w' ∧ vector_ok w'.
Proof.
  revert w. induction l as [|a l IH]; intros w Hw Hmax; cbn [acts]; [eauto|]. simpl in Hmax.
  destruct (act_vector w a Hw ltac:(lia)) as (w1 & -> & Hw1 & Hlen). simpl. apply IH; [done|lia].
Qed.

End vector.

(** ** The claims *)

(** C27: In every distributed execution (any nodes, any local events, sends and
    receptions in any order, fewer than 2^64 of them) no vector clock overflows,
    and comparing the clocks of two events decides causality: [happens_before]
    holds exactly when the first event is a cause of the second (through program
    order and messages), and [is_concurrent_with] exactly when they are different
    and neither is a cause of the other. *)
Theorem vector_clock_decides_causality (l : list action) : N.of_nat (length l) ≤ u64_MAX →
  ∃ w : world CausalTracker VectorClock, acts world_new l = Done w ∧
    ∀ i j ei ej, log w !! i = Some ei → log w !! j = Some ej →
      (happens_before (ev_time ei) (ev_time ej) = true ↔ causes (log w) i j) ∧
      (is_concurrent_with (ev_time ei) (ev_time ej) = true ↔ i ≠ j ∧ ¬ causes (log w) i j ∧ ¬ causes (log w) j i).
Proof.
  intros Hl. destruct (acts_vector world_new l vector_ok_new) as (w & Hrun & Hw); [simpl; lia|]. exists w. split; [done|].
  intros i j ei ej Hi Hj. rewrite happens_before_spec, concurrent_spec.
  assert (Hle : ∀ i j ei ej, log w !! i = Some ei → log w !! j = Some ej → vc_le (ev_time ei) (ev_time ej) ↔ i = j ∨ causes (log w) i j).
  { clear i j ei ej Hi Hj. intros i j ei ej Hi Hj. split; [intros Hle; apply (vo_seen _ Hw _ _ _ _ Hi Hj); apply Hle|].
    intros [->|Hc]; [assert (ei = ej) as -> by congruence; intros n; lia|]. by destruct (causes_respected w i j ei ej (vo_world _ Hw) Hc Hi Hj). }
  rewrite (Hle i j ei ej Hi Hj), (Hle j i ej ei Hj Hi). split.
  - split; [intros [[->|Hc] Hn]; [exfalso; auto|done]|]. intros Hc. split; [by right|]. apply causes_lt in Hc as [Hlt _].
    intros [Heq|Hc']; [lia|]. apply causes_lt in Hc'. lia.
  - split; [intros [H1 H2]; split_and!; auto|]. intros (Hne & H1 & H2). split; intros [Heq|Hc]; auto.
Qed.

(** [a] sends to [b]; [c] acts on its own; [b] sends to [c]. *)
Definition causal_script : list action := [ATick "a" 5; ATick "c" 0; AReceive "b" 3 0; ATick "a" 4; AReceive "c" 9 2]%string.

Example causal_script_clocks :
  (w ← acts (St := CausalTracker) world_new causal_script;
   Done (map (λ e, map (vc_get (ev_time e)) ["a"; "b"; "c"]%string) (log w))) =
  Done [[1; 0; 0]; [0; 0; 1]; [1; 1; 0]; [2; 0; 0]; [1; 1; 2]].
Proof. vm_compute. reflexivity. Qed.

Lemma vector_clock_decides_causality_witness :
  ∃ w : world CausalTracker VectorClock, acts world_new causal_script = Done w ∧
    ∀ i j ei ej, log w !! i = Some ei → log w !! j = Some ej →
      (happens_before (ev_time ei) (ev_time ej) = true ↔ causes (log w) i j) ∧
      (is_concurrent_with (ev_time ei) (ev_time ej) = true ↔ i ≠ j ∧ ¬ causes (log w) i j ∧ ¬ causes (log w) j i).
Proof. apply (vector_clock_decides_causality causal_script). vm_compute. discriminate. Defined.

(** Lamport and hybrid clocks respect causality: in every distributed
    execution, whatever the time source reads at each step (also when it runs
    backwards), no counter overflows and the time of a cause is smaller than the
    time of its effect, hybrid times being compared lexicographically. *)
Theorem scalar_clocks_respect_causality (l : list action) : N.of_nat (length l) ≤ u64_MAX →
  (∃ w : world N N, acts world_new l = Done w ∧
     ∀ i j ei ej, log w !! i = Some ei → log w !! j = Some ej → causes (log w) i j → ev_time ei < ev_time ej) ∧
  (∃ w : world HybridTime HybridTime, acts world_new l = Done w ∧
     ∀ i j ei ej, log w !! i = Some ei → log w !! j = Some ej → causes (log w) i j → hybrid_cmp (ev_time ei) (ev_time ej) = Lt).
Proof.
  intros Hl. split.
  - destruct (acts_ok (St := N) (T := N) world_new l world_ok_new) as (w & Hrun & Hw); [simpl; lia|]. exists w. split; [done|].
    intros i j ei ej Hi Hj Hc. exact (causes_respected w i j ei ej Hw Hc Hi Hj).
  - destruct (acts_ok (St := HybridTime) (T := HybridTime) world_new l world_ok_new) as (w & Hrun & Hw); [simpl; lia|]. exists w. split; [done|].
    intros i j ei ej Hi Hj Hc. pose proof (causes_respected w i j ei ej Hw Hc Hi Hj) as Hlt. unfold hybrid_cmp. simpl in Hlt. unfold hybrid_lt in Hlt.
    destruct (N.compare_spec (physical (ev_time ei)) (physical (ev_time ej))); [apply N.compare_lt_iff|done|]; lia.
Qed.

Lemma scalar_clocks_respect_causality_witness :
  (∃ w : world N N, acts world_new causal_script = Done w ∧
     ∀ i j ei ej, log w !! i = Some ei → log w !! j = Some ej → causes (log w) i j → ev_time ei < ev_time ej) ∧
  (∃ w : world HybridTime HybridTime, acts world_new causal_script = Done w ∧
     ∀ i j ei ej, log w !! i = Some ei → log w !! j = Some ej → causes (log w) i j → hybrid_cmp (ev_time ei) (ev_time ej) = Lt).
Proof. apply (scalar_clocks_respect_causality causal_script). vm_compute. discriminate. Defined.
