(* ===== verification/Atomic.v ===== *)
(** * Programs of atomic accesses

    Code that shares atomics between threads: a program is a sequence of atomic
    accesses to the shared world, and threads interleave between them.  [alone]
    runs a program without interference; [pool_step] lets any thread take its next
    access.  [sim] relates a program to the moves an abstract machine allows a
    thread that carries a token; [pool_invariant] lifts it to every interleaving. *)

From S2P Require Import Prelude.

(** An access updates the world; the rest of the program depends on the world it
    found. *)
Inductive prog (W A : Type) : Type :=
| Ret (a : A)
| Act (f : W → W) (k : W → prog W A).
Arguments Ret {W A} _.
Arguments Act {W A} _ _.

Fixpoint prog_then {W A B} (p : prog W A) (k : A → prog W B) : prog W B :=
  match p with Ret a => k a | Act f c => Act f (λ w, prog_then (c w) k) end.

#[global] Instance prog_ret {W} : MRet (prog W) := λ A a, Ret a.
#[global] Instance prog_bind {W} : MBind (prog W) := λ A B k p, prog_then p k.

Definition act {W A} (f : W → W * A) : prog W A := Act (λ w, (f w).1) (λ w, Ret (f w).2).
Definition modify {W} (f : W → W) : prog W unit := Act f (λ _, Ret ()).
Definition load {W A} (f : W → A) : prog W A := Act (λ w, w) (λ w, Ret (f w)).

(** The program with nobody in between. *)
Fixpoint alone {W A} (p : prog W A) (w : W) : W * A :=
  match p with Ret a => (w, a) | Act f k => alone (k w) (f w) end.

Lemma alone_bind {W A B} (p : prog W A) (k : A → prog W B) w :
  alone (p ≫= k) w = alone (k (alone p w).2) (alone p w).1.
Proof. revert w. induction p as [a|f c IH]; intros w; [done|]. apply IH. Qed.

(** ** Threads *)

Section pool.
Context {W A : Type}.

Inductive pool_step : W * gmap N (prog W A) → W * gmap N (prog W A) → Prop :=
| pool_act w ps i f k : ps !! i = Some (Act f k) → pool_step (w, ps) (f w, <[i := k w]> ps).

(** ** Simulation

    [I] is an invariant of the world and [R w t w' t'] says that an access may take
    the world from [w] to [w'] while its thread's token goes from [t] to [t']. *)

Context {T : Type} (I : W → Prop) (R : W → T → W → T → Prop).

Fixpoint sim {B} (post : T → B → Prop) (t : T) (p : prog W B) : Prop :=
  match p with
  | Ret a => post t a
  | Act f k => ∀ w, I w → I (f w) ∧ ∃ t', R w t (f w) t' ∧ sim post t' (k w)
  end.

Lemma sim_mono {B} (post post' : T → B → Prop) t p :
  (∀ t a, post t a → post' t a) → sim post t p → sim post' t p.
Proof.
  intros Hp. revert t. induction p as [a|f k IH]; intros t H; [by apply Hp|].
  intros w Hw. destruct (H w Hw) as (HI & t' & HR & Hs). split; [done|]. exists t'. split; [done|]. by apply IH.
Qed.

Lemma sim_bind {B C} (mid : T → B → Prop) (post : T → C → Prop) t (p : prog W B) (k : B → prog W C) :
  sim mid t p → (∀ t a, mid t a → sim post t (k a)) → sim post t (p ≫= k).
Proof.
  intros Hp Hk. revert t Hp. induction p as [a|f c IH]; intros t Hp; [by apply Hk|].
  intros w Hw. destruct (Hp w Hw) as (HI & t' & HR & Hs). split; [done|]. exists t'. split; [done|]. by apply IH.
Qed.

(** Accesses that leave world and token as the machine sees them. *)
Lemma sim_idle {B} (post : T → B → Prop) t f k :
  (∀ w, I w → I (f w) ∧ R w t (f w) t) → (∀ w, I w → sim post t (k w)) → sim post t (Act f k).
Proof. intros Hf Hk w Hw. destruct (Hf w Hw) as [HI HR]. split; [done|]. exists t. auto. Qed.

(** A property of the world and of the tokens of all threads that every move
    preserves holds after every interleaving.  What a thread returns is related to
    its token by [post]. *)
Context (post : T → A → Prop).

Definition carried (tokens : gmap N T) (ps : gmap N (prog W A)) : Prop :=
  dom tokens = dom ps ∧ ∀ i t p, tokens !! i = Some t → ps !! i = Some p → sim post t p.

Lemma carried_start tokens ps i t p :
  carried tokens ps → sim post t p → carried (<[i := t]> tokens) (<[i := p]> ps).
Proof.
  intros [Hd Hc] Hp. split; [rewrite !dom_insert_L; by f_equal|].
  intros j t' p' Ht Hj. destruct (decide (j = i)) as [->|Hn].
  - rewrite lookup_insert_eq in Ht. rewrite lookup_insert_eq in Hj. by simplify_eq.
  - rewrite lookup_insert_ne in Ht by done. rewrite lookup_insert_ne in Hj by done. by eapply Hc.
Qed.

Lemma pool_invariant (J J' : gmap N T → Prop) w ps w' ps' tokens :
  (∀ i t t', J tokens → tokens !! i = Some t → R w t w' t' → J' (<[i := t']> tokens)) →
  I w → carried tokens ps → J tokens → pool_step (w, ps) (w', ps') →
  I w' ∧ ∃ tokens', carried tokens' ps' ∧ J' tokens'.
Proof.
  intros HJ HI Hc Hw Hs. inversion Hs as [? ? i f k Hi]; subst.
  destruct Hc as [Hd Hc]. assert (is_Some (tokens !! i)) as [t Ht].
  { apply elem_of_dom. rewrite Hd. apply elem_of_dom. eauto. }
  destruct (Hc _ _ _ Ht Hi w HI) as (HI' & t' & HR & Hk). split; [done|]. exists (<[i := t']> tokens).
  split; [by apply carried_start | by eapply HJ].
Qed.

(** The tokens of all threads as a list, in any order: one of them changes. *)
Definition all_of (tokens : gmap N T) : list T := (map_to_list tokens).*2.

Lemma all_of_insert tokens i t : tokens !! i = None → all_of (<[i := t]> tokens) ≡ₚ t :: all_of tokens.
Proof. intros Hi. unfold all_of. by rewrite map_to_list_insert. Qed.

Lemma all_of_update tokens i t : tokens !! i = Some t →
  ∃ others, all_of tokens ≡ₚ t :: others ∧ ∀ t', all_of (<[i := t']> tokens) ≡ₚ t' :: others.
Proof.
  intros Hi. exists (all_of (delete i tokens)). split.
  - rewrite <- (insert_delete_id tokens i t Hi) at 1. apply all_of_insert, lookup_delete_eq.
  - intros t'. rewrite <- (insert_delete_eq tokens i t'). apply all_of_insert, lookup_delete_eq.
Qed.

(** Tokens and programs side by side. *)
Lemma carried_pairs tokens ps : carried tokens ps →
  ∃ pairs : list (T * prog W A), pairs.*1 ≡ₚ all_of tokens ∧ pairs.*2 ≡ₚ (map_to_list ps).*2 ∧ Forall (λ x, sim post x.1 x.2) pairs.
Proof.
  intros [Hd Hc]. revert tokens Hd Hc. induction ps as [|i p ps Hi IH] using map_ind; intros tokens Hd Hc.
  - rewrite dom_empty_L in Hd. apply dom_empty_inv_L in Hd as ->. exists []. unfold all_of. by rewrite !map_to_list_empty.
  - assert (is_Some (tokens !! i)) as [t Ht] by (apply elem_of_dom; rewrite Hd, dom_insert_L; set_solver).
    destruct (IH (delete i tokens)) as (pairs & H1 & H2 & H3).
    + rewrite dom_delete_L, Hd, dom_insert_L. apply not_elem_of_dom in Hi. set_solver.
    + intros j t' p' Hj Hp'. apply lookup_delete_Some in Hj as [Hne Hj]. apply (Hc j); [done|]. by rewrite lookup_insert_ne.
    + exists ((t, p) :: pairs). split_and!; simpl.
      * rewrite H1. etrans; [symmetry; apply (all_of_insert (delete i tokens) i t), lookup_delete_eq|]. by rewrite insert_delete_id.
      * by rewrite map_to_list_insert, H2 by done.
      * constructor; [|done]. simpl. apply (Hc i); [done|apply lookup_insert_eq].
Qed.

Lemma pool_keeps (J : W → list T → Prop) w ps w' ps' tokens :
  (∀ w l l', l ≡ₚ l' → J w l → J w l') →
  (∀ t t' others, I w → R w t w' t' → J w (t :: others) → J w' (t' :: others)) →
  I w → carried tokens ps → J w (all_of tokens) → pool_step (w, ps) (w', ps') →
  I w' ∧ ∃ tokens', carried tokens' ps' ∧ J w' (all_of tokens').
Proof.
  intros Hperm HJ HI Hc Hw Hs. apply (pool_invariant (λ tk, J w (all_of tk)) (λ tk, J w' (all_of tk)) w ps w' ps' tokens); [|done..].
  intros i t t' HJi Hi HR. destruct (all_of_update tokens i t Hi) as (others & Ho & Hn).
  apply (Hperm _ (t' :: others)); [symmetry; apply Hn|]. apply (HJ t); [done|done|]. by apply (Hperm _ (all_of tokens)).
Qed.

(** How many threads carry a token that satisfies [P]. *)
Definition carriers (P : T → bool) (tokens : gmap N T) : nat := size (filter (λ it, P it.2 = true) tokens).

Lemma carriers_insert P tokens i t : tokens !! i = None →
  carriers P (<[i := t]> tokens) = ((if P t then 1 else 0) + carriers P tokens)%nat.
Proof.
  intros Hi. unfold carriers. destruct (P t) eqn:E.
  - rewrite map_filter_insert_True by done. rewrite map_size_insert_None; [done|].
    apply map_lookup_filter_None. by left.
  - rewrite map_filter_insert_not'; [done|simpl; congruence|]. intros x Hx. by rewrite Hi in Hx.
Qed.

Lemma carriers_update P tokens i t t' : tokens !! i = Some t →
  (carriers P (<[i := t']> tokens) + (if P t then 1 else 0) = carriers P tokens + (if P t' then 1 else 0))%nat.
Proof.
  intros Hi. rewrite <- (insert_delete_id tokens i t Hi) at 2. rewrite <- (insert_delete_eq tokens i t').
  rewrite !carriers_insert by apply lookup_delete_eq. lia.
Qed.

Lemma carriers_empty P : carriers P ∅ = 0%nat.
Proof. unfold carriers. by rewrite map_filter_empty, map_size_empty. Qed.

End pool.

(** ** Programs over a part of the world *)

Section zoom.
Context {V W : Type} (get : W → V) (put : V → W → W).

Fixpoint zoom {A} (p : prog V A) : prog W A :=
  match p with Ret a => Ret a | Act f k => Act (λ w, put (f (get w)) w) (λ w, zoom (k (get w))) end.

Lemma sim_zoom {T U A} (IV : V → Prop) (RV : V → T → V → T → Prop) (IW : W → Prop) (RW : W → U → W → U → Prop)
    (up : T → U) (post : T → A → Prop) t p :
  (∀ w, IW w → IV (get w)) →
  (∀ w v t t', IW w → IV v → RV (get w) t v t' → IW (put v w) ∧ RW w (up t) (put v w) (up t')) →
  sim IV RV post t p → sim IW RW (λ u a, ∃ t, u = up t ∧ post t a) (up t) (zoom p).
Proof.
  intros HI HR. revert t. induction p as [a|f k IH]; intros t Hp; [by exists t|].
  intros w Hw. destruct (Hp (get w) (HI w Hw)) as (HIf & t' & HRf & Hk). destruct (HR w _ t t' Hw HIf HRf) as [HIw HRw].
  split; [done|]. exists (up t'). split; [done|]. by apply IH.
Qed.

Context (get_put : ∀ v w, get (put v w) = v) (put_get : ∀ w, put (get w) w = w) (put_put : ∀ v v' w, put v (put v' w) = put v w).

Lemma alone_zoom {A} (p : prog V A) w : alone (zoom p) w = (put (alone p (get w)).1 w, (alone p (get w)).2).
Proof.
  revert w. induction p as [a|f k IH]; intros w; simpl; [by rewrite put_get|]. by rewrite IH, get_put, put_put.
Qed.

End zoom.

(** ** Interference

    [may G p a]: the program can return [a] if every access finds a world that
    satisfies [G], whatever happens to the world between the accesses. *)
Inductive may {W A} (G : W → Prop) : prog W A → A → Prop :=
| may_ret a : may G (Ret a) a
| may_act f k w a : G w → may G (k w) a → may G (Act f k) a.

Lemma may_bind {W A B} (G : W → Prop) (p : prog W A) (k : A → prog W B) b :
  may G (p ≫= k) b ↔ ∃ a, may G p a ∧ may G (k a) b.
Proof.
  split.
  - change (p ≫= k) with (prog_then p k). revert b. induction p as [a|f c IH]; intros b H; simpl in H; [exists a; by split; [constructor|]|].
    inversion H as [|? ? w ? Hw Hk]; subst. destruct (IH w b Hk) as (a & Ha & Hb). exists a. split; [by econstructor | done].
  - intros (a & Hp & Hb). induction Hp as [a|f c w a Hw Hp IH]; [done|]. apply (may_act _ _ (λ w, prog_then (c w) k) w); [done|]. by apply IH.
Qed.

Lemma may_ret_iff {W A} (G : W → Prop) (a b : A) : may G (Ret a) b ↔ b = a.
Proof. split; [by inversion 1 | intros ->; constructor]. Qed.

Lemma may_act_iff {W A} (G : W → Prop) (f : W → W * A) b : may G (act f) b ↔ ∃ w, G w ∧ b = (f w).2.
Proof.
  split.
  - inversion 1 as [|? ? w ? Hw Hk]; subst. inversion Hk; subst. eauto.
  - intros (w & Hw & ->). apply (may_act _ _ _ w); [done|]. constructor.
Qed.

Lemma may_load_iff {W A} (G : W → Prop) (f : W → A) b : may G (load f) b ↔ ∃ w, G w ∧ b = f w.
Proof.
  split.
  - inversion 1 as [|? ? w ? Hw Hk]; subst. inversion Hk; subst. eauto.
  - intros (w & Hw & ->). apply (may_act _ _ _ w); [done|]. constructor.
Qed.

Lemma may_mono {W A} (G G' : W → Prop) (p : prog W A) a : (∀ w, G w → G' w) → may G p a → may G' p a.
Proof. intros HG. induction 1; [constructor|]. econstructor; eauto. Qed.

Lemma may_zoom {V W A} (get : W → V) (put : V → W → W) (G : W → Prop) (G' : V → Prop) (p : prog V A) a :
  (∀ w, G w → G' (get w)) → may G (zoom get put p) a → may G' p a.
Proof.
  intros HG. revert a. induction p as [b|f k IH]; intros a H; simpl in H.
  - apply may_ret_iff in H as ->. constructor.
  - inversion H as [|? ? w ? Hw Hk]; subst. apply (may_act _ _ _ (get w)); [by apply HG|]. by apply IH.
Qed.

(** A world that others restore before each access. *)
Fixpoint restored {W A} (w : W) (p : prog W A) : A := match p with Ret a => a | Act _ k => restored w (k w) end.

Lemma may_restored {W A} (G : W → Prop) (p : prog W A) w : G w → may G p (restored w p).
Proof. intros Hw. induction p as [a|f k IH]; [constructor|]. econstructor; [exact Hw|]. apply IH. Qed.

(** ** What a program did

    [trace G p l a]: as [may], with the accesses of the program in order, each with the
    world it found and the world it left. *)
Inductive trace {W A} (G : W → Prop) : prog W A → list (W * W) → A → Prop :=
| trace_ret a : trace G (Ret a) [] a
| trace_act f k w l a : G w → trace G (k w) l a → trace G (Act f k) ((w, f w) :: l) a.

Lemma trace_may {W A} (G : W → Prop) (p : prog W A) l a : trace G p l a → may G p a.
Proof. induction 1; [constructor|by econstructor]. Qed.

Lemma trace_bind {W A B} (G : W → Prop) (p : prog W A) (k : A → prog W B) l b : trace G (prog_then p k) l b →
  ∃ l1 l2 a, l = l1 ++ l2 ∧ trace G p l1 a ∧ trace G (k a) l2 b.
Proof.
  revert l. induction p as [a|f c IH]; intros l H; simpl in H; [exists [], l, a; by split_and!; [|constructor|]|].
  inversion H as [|? ? w l' ? Hw Hk]; subst. destruct (IH w l' Hk) as (l1 & l2 & a & -> & H1 & H2).
  exists ((w, f w) :: l1), l2, a. split_and!; [done|by constructor|done].
Qed.

Lemma trace_act_inv {W A} (G : W → Prop) (f : W → W * A) l a : trace G (act f) l a → ∃ w, G w ∧ l = [(w, (f w).1)] ∧ a = (f w).2.
Proof. inversion 1 as [|? ? w l' ? Hw Hk]; subst. inversion Hk; subst. eauto. Qed.

Lemma trace_load_inv {W A} (G : W → Prop) (f : W → A) l a : trace G (load f) l a → ∃ w, G w ∧ l = [(w, w)] ∧ a = f w.
Proof. inversion 1 as [|? ? w l' ? Hw Hk]; subst. inversion Hk; subst. eauto. Qed.

(** What a program over a part of the world did to that part. *)
Lemma trace_zoom {V W A} (get : W → V) (put : V → W → W) G (p : prog V A) l a : trace G (zoom get put p) l a →
  ∃ lv, trace (λ _, True) p lv a ∧ Forall2 (λ x y, y.1 = get x.1 ∧ x.2 = put y.2 x.1) l lv.
Proof.
  revert l. induction p as [b|f k IH]; intros l H; inversion H as [|? ? w l' ? Hw Hk]; subst; [exists []; by split; constructor|].
  destruct (IH _ _ Hk) as (lv & Hv & Hf). exists ((get w, f (get w)) :: lv). split; by constructor.
Qed.

(** The accesses of a program in a world that others restore. *)
Fixpoint accesses {W A} (w : W) (p : prog W A) : list (W * W) :=
  match p with Ret _ => [] | Act f k => (w, f w) :: accesses w (k w) end.

Lemma trace_restored {W A} (G : W → Prop) (p : prog W A) w : G w → trace G p (accesses w p) (restored w p).
Proof. intros Hw. induction p as [a|f k IH]; [constructor|]. by constructor. Qed.

(** No access of the program is one of the kind [K]. *)
Fixpoint never {W A} (K : W → W → Prop) (p : prog W A) : Prop :=
  match p with Ret _ => True | Act f k => ∀ w, ¬ K w (f w) ∧ never K (k w) end.

Lemma never_trace {W A} (K : W → W → Prop) G (p : prog W A) l a : never K p → trace G p l a → Forall (λ x, ¬ K x.1 x.2) l.
Proof. intros Hn Ht. induction Ht as [|f k w l a _ _ IH]; [constructor|]. destruct (Hn w) as [H1 H2]. constructor; [done|by apply IH]. Qed.

Lemma never_bind {W A B} (K : W → W → Prop) (p : prog W A) (k : A → prog W B) :
  never K p → (∀ a, never K (k a)) → never K (prog_then p k).
Proof. intros Hp Hk. induction p as [a|f c IH]; [apply Hk|]. intros w. destruct (Hp w) as [H1 H2]. split; [done|by apply IH]. Qed.

Lemma never_act {W A} (K : W → W → Prop) (f : W → W * A) : (∀ w, ¬ K w (f w).1) → never K (act f).
Proof. intros Hf w. split; [apply Hf|done]. Qed.

Lemma never_load {W A} (K : W → W → Prop) (f : W → A) : (∀ w, ¬ K w w) → never K (load f).
Proof. intros Hf w. split; [apply Hf|done]. Qed.

(** Accesses to a part of the world. *)
Lemma never_zoom {V W A} (get : W → V) (put : V → W → W) (K : W → W → Prop) (KV : V → V → Prop) (p : prog V A) :
  (∀ v w, K w (put v w) → KV (get w) v) → never KV p → never K (zoom get put p).
Proof.
  intros HK. induction p as [a|f k IH]; [done|]. intros Hn w. destruct (Hn (get w)) as [H1 H2]. split; [|by apply IH].
  intros HK'. by apply H1, HK.
Qed.

Lemma never_none {W A} (K : W → W → Prop) (p : prog W A) : (∀ w w', ¬ K w w') → never K p.
Proof. intros HK. induction p as [a|f k IH]; [done|]. intros w. split; [apply HK|apply IH]. Qed.
