(* ===== verification/CircuitBreaker.v ===== *)
(** * Circuit breaker

    Models [src/combinator/circuit_breaker.rs].  The state of the breaker is packed
    into one atomic word; counters are atomics of their own; the metrics and the
    sliding window are under locks.  Every method is a program of atomic accesses
    ([Atomic]): a load, a compare-exchange, a [fetch_add] or a critical section.  A
    weak compare-exchange that fails spuriously finds the same word and tries it
    again, so compare-exchange is the strong one.  The retry loops are lock-free,
    not wait-free: they carry fuel, and a program that exhausts it answers [None].
    Durations are in nanoseconds.  [f64] is the standard library's [spec_float] at
    the parameters of binary64. *)

From Stdlib Require Import SpecFloat.
From S2P Require Import Prelude Ids Atomic.

Module Breaker.

(** ** Configuration *)

Definition MAX_HALF_OPEN_PROBES : N := 65535.
Definition MIN_HALF_OPEN_PROBES : N := 1.

Definition normalize_half_open_max_probes (max_probes : N) : N :=
  if max_probes =? 0 then MIN_HALF_OPEN_PROBES
  else if MAX_HALF_OPEN_PROBES <? max_probes then MAX_HALF_OPEN_PROBES
  else max_probes.

Inductive FailurePredicate := AllErrors | ByType (pred : string → bool) | Custom (pred : string → bool).

Definition is_failure (p : FailurePredicate) (error : string) : bool :=
  match p with AllErrors => true | ByType pred => pred error | Custom pred => pred error end.
Definition is_all_errors (p : FailurePredicate) : bool :=
  match p with AllErrors => true | _ => false end.

Definition f64 : Type := spec_float.
Definition f64_from (n : N) : f64 := binary_normalize 53 1024 (Z.of_N n) 0 false.
Definition f64_div : f64 → f64 → f64 := SFdiv 53 1024.
Definition f64_ge (x y : f64) : bool := SFleb y x.

Record SlidingWindowConfig := mkWindowConfig {
  window_duration : N; minimum_calls : N; failure_rate_threshold : f64 }.

(** [on_state_change] is the caller's code: whether there is a callback matters, and
    its calls are recorded in the world. *)
Record CircuitBreakerPolicy := mkPolicy {
  failure_threshold : N;
  success_threshold : N;
  open_duration : N;
  half_open_max_probes : N;
  failure_predicate : FailurePredicate;
  window_config : option SlidingWindowConfig;
  on_state_change : bool;
}.

Definition default_policy : CircuitBreakerPolicy := mkPolicy 5 2 (30 * 1000000000) 1 AllErrors None false.

(** ** The state and its word *)

Inductive State :=
| Closed (failures : N)
| Open (since_millis : N)
| HalfOpen (epoch probes_active successes : N).

#[global] Instance State_eq_dec : EqDecision State.
Proof. solve_decision. Defined.

Definition default_state : State := Closed 0.

Definition to_bits (s : State) : N :=
  match s with
  | Closed failures => N.shiftl failures 8
  | Open since_millis => N.lor 1 (N.shiftl since_millis 8 mod 2 ^ 64)
  | HalfOpen epoch probes_active successes =>
      N.lor (N.lor (N.lor 2 (N.shiftl (N.land epoch 16777215) 8))
        (N.shiftl (N.land probes_active 65535) 32))
        (N.shiftl (N.land successes 65535) 48)
  end.

Definition from_bits (bits : N) : State :=
  let state_type := N.land bits 255 in
  if state_type =? 1 then Open (N.shiftr bits 8)
  else if state_type =? 2 then
    HalfOpen (N.land (N.shiftr bits 8) 16777215) (N.land (N.shiftr bits 32) 65535) (N.land (N.shiftr bits 48) 65535)
  else Closed (N.shiftr bits 8 mod 2 ^ 32).

(** ** The sliding window *)

Record SlidingWindow := mkWindow {
  config : SlidingWindowConfig;
  entries : list (N * bool);
  success_count : N;
  failure_count : N;
}.

Definition window_new (c : SlidingWindowConfig) : SlidingWindow := mkWindow c [] 0 0.

Fixpoint cleanup_entries (window_start : N) (es : list (N * bool)) (s f : N) : list (N * bool) * N * N :=
  match es with
  | (ts, is_failure) :: rest =>
      if ts <? window_start then
        if is_failure then cleanup_entries window_start rest s (saturating_sub f 1)
        else cleanup_entries window_start rest (saturating_sub s 1) f
      else (es, s, f)
  | [] => ([], s, f)
  end.

Definition cleanup (w : SlidingWindow) (now_millis : N) : SlidingWindow :=
  let window_span := N.min (window_duration (config w) / 1000000) u64_MAX in
  let window_start := saturating_sub now_millis window_span in
  let '(es, s, f) := cleanup_entries window_start (entries w) (success_count w) (failure_count w) in
  mkWindow (config w) es s f.

Definition window_record_success (w : SlidingWindow) (now_millis : N) : SlidingWindow :=
  let w := cleanup w now_millis in
  mkWindow (config w) (entries w ++ [(now_millis, false)]) (saturating_add u32_MAX (success_count w) 1) (failure_count w).

Definition window_record_failure (w : SlidingWindow) (now_millis : N) : SlidingWindow :=
  let w := cleanup w now_millis in
  mkWindow (config w) (entries w ++ [(now_millis, true)]) (success_count w) (saturating_add u32_MAX (failure_count w) 1).

Definition failure_rate (w : SlidingWindow) : f64 :=
  let total := saturating_add u32_MAX (success_count w) (failure_count w) in
  if total =? 0 then S754_zero false else f64_div (f64_from (failure_count w)) (f64_from total).

Definition should_open (w : SlidingWindow) : bool :=
  let total := saturating_add u32_MAX (success_count w) (failure_count w) in
  if total <? minimum_calls (config w) then false
  else f64_ge (failure_rate w) (failure_rate_threshold (config w)).

Definition window_reset (w : SlidingWindow) : SlidingWindow := mkWindow (config w) [] 0 0.

(** ** The breaker *)

Record CircuitBreakerMetrics := mkMetrics {
  m_total_success : N; m_total_failure : N; m_total_rejected : N; m_total_ignored_errors : N;
  m_times_opened : N; m_times_closed : N; m_current_failure_streak : N; m_current_state : State;
  m_window_failure_rate : option f64;
}.

Definition default_metrics : CircuitBreakerMetrics := mkMetrics 0 0 0 0 0 0 0 default_state None.

(** The shared part of a [CircuitBreaker] (the policy is immutable, an argument of
    the methods), and the calls of [on_state_change] so far. *)
Record CircuitBreaker := mkBreaker {
  state_bits : N;
  metrics_cell : CircuitBreakerMetrics;
  window : option SlidingWindow;
  total_success : N; total_failure : N; total_rejected : N; total_ignored_errors : N;
  times_opened : N; times_closed : N;
  notified : list (State * State * CircuitBreakerMetrics);
}.

Definition clamp_policy (p : CircuitBreakerPolicy) : CircuitBreakerPolicy :=
  mkPolicy (N.max (failure_threshold p) 1) (N.min (N.max (success_threshold p) 1) 65535) (open_duration p)
    (normalize_half_open_max_probes (half_open_max_probes p)) (failure_predicate p) (window_config p) (on_state_change p).

Definition new (p : CircuitBreakerPolicy) : CircuitBreakerPolicy * CircuitBreaker :=
  let p := clamp_policy p in
  (p, mkBreaker (to_bits default_state) default_metrics (window_new <$> window_config p) 0 0 0 0 0 0 []).

Definition state (b : CircuitBreaker) : State := from_bits (state_bits b).

Definition failure_streak (b : CircuitBreaker) : N := match state b with Closed failures => failures | _ => 0 end.

Definition metrics (b : CircuitBreaker) : CircuitBreakerMetrics :=
  mkMetrics (total_success b) (total_failure b) (total_rejected b) (total_ignored_errors b)
    (times_opened b) (times_closed b) (failure_streak b) (state b) (failure_rate <$> window b).

Inductive Permit := Normal | Probe (epoch : N).
Inductive CircuitBreakerError (E : Type) := ErrOpen (remaining : N) | HalfOpenFull | Inner (e : E).
Arguments ErrOpen {E} _.
Arguments HalfOpenFull {E}.
Arguments Inner {E} _.

(** ** The world

    The breaker, and the epochs of the probes that are running their operation: what
    the clients of the breaker do between taking a permit and recording a result. *)
Record World := mkWorld { cb : CircuitBreaker; running : list N }.

Definition on_cb {A} (f : CircuitBreaker → CircuitBreaker * A) : prog World A :=
  act (λ w, let '(b, a) := f (cb w) in (mkWorld b (running w), a)).
Definition load_cb {A} (f : CircuitBreaker → A) : prog World A := load (λ w, f (cb w)).

Definition set_bits (b : CircuitBreaker) (bits : N) : CircuitBreaker :=
  mkBreaker bits (metrics_cell b) (window b) (total_success b) (total_failure b) (total_rejected b)
    (total_ignored_errors b) (times_opened b) (times_closed b) (notified b).
Definition set_window (b : CircuitBreaker) (w : option SlidingWindow) : CircuitBreaker :=
  mkBreaker (state_bits b) (metrics_cell b) w (total_success b) (total_failure b) (total_rejected b)
    (total_ignored_errors b) (times_opened b) (times_closed b) (notified b).
Definition set_metrics (b : CircuitBreaker) (m : CircuitBreakerMetrics) : CircuitBreaker :=
  mkBreaker (state_bits b) m (window b) (total_success b) (total_failure b) (total_rejected b)
    (total_ignored_errors b) (times_opened b) (times_closed b) (notified b).

Inductive Counter := CSuccess | CFailure | CRejected | CIgnored | COpened | CClosed.

(** [self.<counter>.fetch_add(1, Relaxed)] *)
Definition bump (c : Counter) (b : CircuitBreaker) : CircuitBreaker :=
  let up (c' : bool) n := if c' then wrapping_add u64_MAX n 1 else n in
  mkBreaker (state_bits b) (metrics_cell b) (window b)
    (up (match c with CSuccess => true | _ => false end) (total_success b))
    (up (match c with CFailure => true | _ => false end) (total_failure b))
    (up (match c with CRejected => true | _ => false end) (total_rejected b))
    (up (match c with CIgnored => true | _ => false end) (total_ignored_errors b))
    (up (match c with COpened => true | _ => false end) (times_opened b))
    (up (match c with CClosed => true | _ => false end) (times_closed b)) (notified b).
Definition fetch_add (c : Counter) : prog World unit := on_cb (λ b, (bump c b, ())).

(** [self.state_bits.compare_exchange_weak(current, new, ..)] *)
Definition compare_exchange (current new : N) : prog World (result N N) :=
  on_cb (λ b, if state_bits b =? current then (set_bits b new, Ok current) else (b, Err (state_bits b))).

Definition populate_metrics_snapshot (b : CircuitBreaker) (m : CircuitBreakerMetrics) : CircuitBreakerMetrics :=
  mkMetrics (total_success b) (total_failure b) (total_rejected b) (total_ignored_errors b)
    (times_opened b) (times_closed b) (failure_streak b) (m_current_state m) (m_window_failure_rate m).

Definition with_current_state (m : CircuitBreakerMetrics) (s : State) : CircuitBreakerMetrics :=
  mkMetrics (m_total_success m) (m_total_failure m) (m_total_rejected m) (m_total_ignored_errors m)
    (m_times_opened m) (m_times_closed m) (m_current_failure_streak m) s (m_window_failure_rate m).

(** [update_state_metrics]: a critical section on the metrics. *)
Definition update_state_metrics (new : State) : prog World CircuitBreakerMetrics :=
  on_cb (λ b, let m := populate_metrics_snapshot b (with_current_state (metrics_cell b) new) in (set_metrics b m, m)).

Definition notify (from to : State) (m : CircuitBreakerMetrics) : prog World unit :=
  on_cb (λ b, (mkBreaker (state_bits b) (metrics_cell b) (window b) (total_success b) (total_failure b) (total_rejected b)
    (total_ignored_errors b) (times_opened b) (times_closed b) (notified b ++ [(from, to, m)]), ())).

(** What the operation of a call does; an error comes with its [to_string]. *)
Inductive Op (T E : Type) := OpOk (value : T) | OpErr (e : E) (message : string) | OpPanics.
Arguments OpOk {T E} _.
Arguments OpErr {T E} _ _.
Arguments OpPanics {T E}.

Section methods.
Context (policy : CircuitBreakerPolicy).

(** What follows a successful exchange into [new]: the critical section on the
    metrics, in which the window is emptied when the circuit opens, and the event
    for the callback. *)
Definition commit_change (reset_window : bool) (new : State) : prog World (option CircuitBreakerMetrics) :=
  on_cb (λ b,
    let b := if reset_window then set_window b (window_reset <$> window b) else b in
    let m := with_current_state (metrics_cell b) new in
    if on_state_change policy then let m := populate_metrics_snapshot b m in (set_metrics b m, Some m)
    else (set_metrics b m, None)).

Definition call_back (event : option (State * State * CircuitBreakerMetrics)) : prog World unit :=
  match event with
  | Some (from, to, m) => if on_state_change policy then notify from to m else Ret ()
  | None => Ret ()
  end.

(** *** [should_allow] *)

Fixpoint allow_loop (fuel : nat) (now_millis current_bits : N) : prog World (option (result Permit (CircuitBreakerError unit))) :=
  match fuel with
  | O => Ret None
  | S fuel =>
      let state := from_bits current_bits in
      match state with
      | Closed _ => Ret (Some (Ok Normal))
      | Open since_millis =>
          let elapsed := saturating_sub now_millis since_millis * 1000000 in
          if open_duration policy <=? elapsed then
            opened ← load_cb times_opened;
            let epoch := N.land opened 16777215 in
            let new_state := HalfOpen epoch 1 0 in
            r ← compare_exchange current_bits (to_bits new_state);
            match r with
            | Ok _ =>
                callback_metrics ← update_state_metrics new_state;
                _ ← (if on_state_change policy then notify state new_state callback_metrics else Ret ());
                Ret (Some (Ok (Probe epoch)))
            | Err actual => allow_loop fuel now_millis actual
            end
          else
            _ ← fetch_add CRejected;
            Ret (Some (Err (ErrOpen (saturating_sub (open_duration policy) elapsed))))
      | HalfOpen epoch probes_active successes =>
          if probes_active <? half_open_max_probes policy then
            let new_state := HalfOpen epoch (probes_active + 1) successes in
            r ← compare_exchange current_bits (to_bits new_state);
            match r with
            | Ok _ => Ret (Some (Ok (Probe epoch)))
            | Err actual => allow_loop fuel now_millis actual
            end
          else
            _ ← fetch_add CRejected;
            Ret (Some (Err HalfOpenFull))
      end
  end.

Definition should_allow (fuel : nat) (now : Time.t) : prog World (option (result Permit (CircuitBreakerError unit))) :=
  current_bits ← load_cb state_bits;
  allow_loop fuel (Time.as_millis now) current_bits.

(** *** Recording results

    The retry loops of the recording methods: [next] is the state to move to, if
    any; the answer is the move made, [Some None] when there was none to make. *)
Fixpoint update_loop (fuel : nat) (next : State → option State) (current_bits : N) : prog World (option (option (State * State))) :=
  match fuel with
  | O => Ret None
  | S fuel =>
      let state := from_bits current_bits in
      match next state with
      | None => Ret (Some None)
      | Some new_state =>
          r ← compare_exchange current_bits (to_bits new_state);
          match r with
          | Ok _ => Ret (Some (Some (state, new_state)))
          | Err actual => update_loop fuel next actual
          end
      end
  end.

Definition update (fuel : nat) (next : State → option State) : prog World (option (option (State * State))) :=
  current_bits ← load_cb state_bits; update_loop fuel next current_bits.

(** After a move into [Open]: count it, then the critical section and the callback. *)
Definition after_open (from to : State) : prog World unit :=
  _ ← fetch_add COpened;
  m ← commit_change true to;
  call_back ((λ m, (from, to, m)) <$> m).

Definition trip (now_millis : N) (s : State) : option State :=
  match s with Closed _ => Some (Open now_millis) | _ => None end.

Definition trigger_open_from_window (fuel : nat) (now_millis : N) : prog World (option unit) :=
  r ← update fuel (trip now_millis);
  match r with
  | None => Ret None
  | Some None => Ret (Some ())
  | Some (Some (from, to)) => _ ← after_open from to; Ret (Some ())
  end.

(** A critical section on the window. *)
Definition window_step (f : SlidingWindow → SlidingWindow) : prog World bool :=
  on_cb (λ b, match window b with
              | Some w => (set_window b (Some (f w)), should_open (f w))
              | None => (b, false)
              end).

Definition check_sliding_window_success (fuel : nat) (now_millis : N) : prog World (option unit) :=
  window_triggered ← window_step (λ w, window_record_success w now_millis);
  if (window_triggered : bool) then trigger_open_from_window fuel now_millis else Ret (Some ()).

Definition clear_failures (s : State) : option State :=
  match s with Closed failures => if 0 <? failures then Some (Closed 0) else None | _ => None end.

Definition probe_succeeded (permit_epoch : N) (s : State) : option State :=
  match s with
  | HalfOpen epoch probes_active successes =>
      if epoch =? permit_epoch then
        let new_successes := saturating_add u32_MAX successes 1 in
        if success_threshold policy <=? new_successes then Some (Closed 0)
        else Some (HalfOpen epoch (saturating_sub probes_active 1) new_successes)
      else None
  | _ => None
  end.

Definition record_success (fuel : nat) (permit : Permit) (now : Time.t) : prog World (option unit) :=
  let now_millis := Time.as_millis now in
  _ ← fetch_add CSuccess;
  match permit with
  | Normal =>
      current_bits ← load_cb state_bits;
      if bool_decide (from_bits current_bits = Closed 0) then check_sliding_window_success fuel now_millis
      else
        r ← update fuel clear_failures;
        match r with None => Ret None | Some _ => check_sliding_window_success fuel now_millis end
  | Probe permit_epoch =>
      r ← update fuel (probe_succeeded permit_epoch);
      match r with
      | None => Ret None
      | Some (Some (from, Closed failures)) =>
          _ ← fetch_add CClosed;
          m ← commit_change false (Closed failures);
          _ ← call_back ((λ m, (from, Closed failures, m)) <$> m);
          check_sliding_window_success fuel now_millis
      | Some _ => check_sliding_window_success fuel now_millis
      end
  end.

Definition release_probe (permit_epoch : N) (s : State) : option State :=
  match s with
  | HalfOpen epoch probes_active successes =>
      if epoch =? permit_epoch then Some (HalfOpen epoch (saturating_sub probes_active 1) successes) else None
  | _ => None
  end.

Definition count_failure (window_triggered : bool) (now_millis : N) (s : State) : option State :=
  match s with
  | Closed failures =>
      let new_failures := saturating_add u32_MAX failures 1 in
      if (failure_threshold policy <=? new_failures) || window_triggered then Some (Open now_millis)
      else Some (Closed new_failures)
  | _ => None
  end.

Definition probe_failed (permit_epoch now_millis : N) (s : State) : option State :=
  match s with
  | HalfOpen epoch _ _ => if epoch =? permit_epoch then Some (Open now_millis) else None
  | _ => None
  end.

Definition record_failure (fuel : nat) (permit : Permit) (error : string) (now : Time.t) : prog World (option unit) :=
  let now_millis := Time.as_millis now in
  let counts_as_failure := is_all_errors (failure_predicate policy) || is_failure (failure_predicate policy) error in
  if negb counts_as_failure then
    _ ← fetch_add CIgnored;
    match permit with
    | Probe permit_epoch =>
        r ← update fuel (release_probe permit_epoch);
        Ret (match r with None => None | Some _ => Some () end)
    | Normal => Ret (Some ())
    end
  else
    _ ← fetch_add CFailure;
    window_triggered ← window_step (λ w, window_record_failure w now_millis);
    r ← update fuel (match permit with
                     | Normal => count_failure window_triggered now_millis
                     | Probe permit_epoch => probe_failed permit_epoch now_millis
                     end);
    match r with
    | None => Ret None
    | Some (Some (from, Open since)) => _ ← after_open from (Open since); Ret (Some ())
    | Some _ => Ret (Some ())
    end.

(** [reset]: an unconditional exchange, then the window. *)
Definition reset (fuel : nat) : prog World (option unit) :=
  r ← update fuel (λ _, Some (Closed 0));
  match r with
  | None => Ret None
  | Some _ => _ ← on_cb (λ b, (set_window b (window_reset <$> window b), ())); Ret (Some ())
  end.

(** *** [call]

    The operation runs between [enter] and [leave]. *)
Fixpoint drop_epoch (e : N) (r : list N) : list N :=
  match r with e' :: r => if e' =? e then r else e' :: drop_epoch e r | [] => [] end.
Definition enter (permit : Permit) : prog World unit :=
  match permit with Normal => Ret () | Probe e => modify (λ w, mkWorld (cb w) (e :: running w)) end.
Definition leave (permit : Permit) : prog World unit :=
  match permit with
  | Normal => Ret ()
  | Probe e => modify (λ w, mkWorld (cb w) (drop_epoch e (running w)))
  end.

(** The outcome of a call: [inl] what it returns, [inr] the panic of the operation,
    which the guard has recorded as a failure. *)
Definition call {T E} (fuel : nat) (now : Time.t) (op : Op T E) : prog World (option (result T (CircuitBreakerError E) + unit)) :=
  r ← should_allow fuel now;
  match r with
  | None => Ret None
  | Some (Err (ErrOpen remaining)) => Ret (Some (inl (Err (ErrOpen remaining))))
  | Some (Err HalfOpenFull) => Ret (Some (inl (Err HalfOpenFull)))
  | Some (Err (Inner _)) => Ret (Some (inr ()))
  | Some (Ok permit) =>
      _ ← enter permit;
      _ ← leave permit;
      match op with
      | OpOk value => r ← record_success fuel permit now; Ret (option_map (λ _ : unit, inl (Ok value)) r)
      | OpErr e message =>
          let error_str := if is_all_errors (failure_predicate policy) then EmptyString else message in
          r ← record_failure fuel permit error_str now; Ret (option_map (λ _ : unit, inl (Err (Inner e))) r)
      | OpPanics => r ← record_failure fuel permit "Panic"%string now; Ret (option_map (λ _ : unit, inr ()) r)
      end
  end.

End methods.

End Breaker.
