(* ===== verification/CircuitBreakerThms.v ===== *)
(** * Circuit breaker: theorems

    Under every interleaving of clients the packed state keeps its bounds, the
    state machine moves only along its edges, an open circuit rejects, and the
    probes running in a half-open period respect the configured maximum as long as
    no epoch is used for two periods. *)

From S2P Require Import Prelude Ids Atomic CircuitBreaker.

Module BreakerThms.
Import Breaker.

(** ** The packed word *)

(** The values that fit their fields. *)
Definition fits (s : State) : Prop :=
  match s with
  | Closed failures => failures < 2 ^ 32
  | Open since_millis => since_millis < 2 ^ 56
  | HalfOpen epoch probes_active successes => epoch < 2 ^ 24 ∧ probes_active < 2 ^ 16 ∧ successes < 2 ^ 16
  end.

Ltac fields := change 255 with (N.ones 8) in *; change 16777215 with (N.ones 24) in *; change 65535 with (N.ones 16) in *; rewrite ?N.land_ones, ?N.shiftr_div_pow2 in *.

Lemma word_fields a b k : a < 2 ^ k → (a + b * 2 ^ k) mod 2 ^ k = a ∧ (a + b * 2 ^ k) / 2 ^ k = b.
Proof.
  intros Ha. rewrite N.Div0.mod_add, N.div_add, N.div_small by lia. split; [by apply N.mod_small | lia].
Qed.

Lemma half_open_word e p s : e < 2 ^ 24 → p < 2 ^ 16 → s < 2 ^ 16 →
  to_bits (HalfOpen e p s) = 2 + (e + (p + s * 2 ^ 16) * 2 ^ 24) * 2 ^ 8.
Proof.
  intros He Hp Hs. unfold to_bits. fields. rewrite !N.mod_small by done.
  rewrite (lor_shiftl 2 e 8), (lor_shiftl _ p 32), (lor_shiftl _ s 48) by lia. lia.
Qed.

Lemma from_to_bits s : fits s → from_bits (to_bits s) = s.
Proof.
  destruct s as [f|m|e p s]; intros H; unfold from_bits.
  - assert (to_bits (Closed f) = 0 + f * 2 ^ 8) as -> by (unfold to_bits; rewrite N.shiftl_mul_pow2; lia).
    fields. destruct (word_fields 0 f 8) as [-> ->]; [lia|]. simpl. f_equal. by apply N.mod_small.
  - assert (to_bits (Open m) = 1 + m * 2 ^ 8) as ->.
    { unfold to_bits. rewrite N.mod_small; [by apply lor_shiftl; lia|]. simpl in H. rewrite N.shiftl_mul_pow2. lia. }
    fields. destruct (word_fields 1 m 8) as [-> ->]; [lia|]. done.
  - destruct H as (He & Hp & Hs). rewrite half_open_word by done. fields.
    replace (_ / 2 ^ 32) with ((2 + (e + (p + s * 2 ^ 16) * 2 ^ 24) * 2 ^ 8) / 2 ^ 8 / 2 ^ 24) by by rewrite N.Div0.div_div.
    replace (_ / 2 ^ 48) with ((2 + (e + (p + s * 2 ^ 16) * 2 ^ 24) * 2 ^ 8) / 2 ^ 8 / 2 ^ 24 / 2 ^ 16) by by rewrite !N.Div0.div_div.
    destruct (word_fields 2 (e + (p + s * 2 ^ 16) * 2 ^ 24) 8) as [-> ->]; [lia|].
    destruct (word_fields e (p + s * 2 ^ 16) 24) as [-> ->]; [done|].
    destruct (word_fields p s 16) as [-> ->]; [done|]. simpl. f_equal. by apply N.mod_small.
Qed.

(** ** The sliding window *)

Fixpoint tally (b : bool) (es : list (N * bool)) : N :=
  match es with [] => 0 | (_, b') :: es => (if eqb b' b then 1 else 0) + tally b es end.

Lemma tally_app b es es' : tally b (es ++ es') = tally b es + tally b es'.
Proof. induction es as [|[t b'] es IH]; simpl; [done|]. rewrite IH. lia. Qed.

Lemma tally_length es : tally true es + tally false es = N.of_nat (length es).
Proof. induction es as [|[t []] es IH]; cbn [tally length]; [done|..]; simpl; lia. Qed.

Definition within (start : N) (es : list (N * bool)) : list (N * bool) := filter (λ e, start ≤ e.1) es.

Lemma cleanup_entries_sorted start es : StronglySorted (λ a b, a.1 ≤ b.1) es →
  cleanup_entries start es (tally false es) (tally true es) = (within start es, tally false (within start es), tally true (within start es)).
Proof.
  induction es as [|[ts b] es IH]; intros Hs; [done|]. apply StronglySorted_inv in Hs as [Hs Hall]. unfold within in *. cbn [cleanup_entries tally].
  destruct (N.ltb_spec ts start) as [Hlt|Hge].
  - rewrite filter_cons_False by (simpl; lia). rewrite <- IH by done. destruct b; simpl; f_equal; unfold saturating_sub; lia.
  - assert (filter (λ e, start ≤ e.1) ((ts, b) :: es) = (ts, b) :: es) as ->; [|done].
    rewrite filter_cons_True by done. f_equal. clear -Hall Hge. induction es as [|e es IH]; [done|]. apply Forall_cons in Hall as [He Hall].
    simpl in He. rewrite filter_cons_True by lia. by rewrite IH.
Qed.

(** The machine of the window: results in the order of their times. *)
Definition window_add (w : SlidingWindow) (e : N * bool) : SlidingWindow :=
  if e.2 then window_record_failure w e.1 else window_record_success w e.1.
Definition window_span (c : SlidingWindowConfig) : N := N.min (window_duration c / 1000000) u64_MAX.

Lemma window_add_spec w e : StronglySorted (λ a b, a.1 ≤ b.1) (entries w) → N.of_nat (length (entries w)) < u32_MAX →
  success_count w = tally false (entries w) → failure_count w = tally true (entries w) →
  window_add w e = let es := within (e.1 - window_span (config w)) (entries w) ++ [e] in mkWindow (config w) es (tally false es) (tally true es).
Proof.
  intros Hs Hlen Hsc Hfc. destruct e as [now b].
  assert (cleanup w now = let es := within (now - window_span (config w)) (entries w) in mkWindow (config w) es (tally false es) (tally true es)) as Hc.
  { unfold cleanup, window_span, saturating_sub. rewrite Hsc, Hfc, cleanup_entries_sorted; done. }
  assert (N.of_nat (length (within (now - window_span (config w)) (entries w))) < u32_MAX) as Hl.
  { pose proof (length_filter (λ e : N * bool, now - window_span (config w) ≤ e.1) (entries w)). unfold within. lia. }
  rewrite <- tally_length in Hl. unfold window_add. cbn [fst snd]. cbv zeta. rewrite !tally_app. destruct b.
  - unfold window_record_failure. rewrite Hc. simpl. rewrite saturating_add_exact by lia. f_equal; lia.
  - unfold window_record_success. rewrite Hc. simpl. rewrite saturating_add_exact by lia. f_equal; lia.
Qed.

Lemma within_within a b es : a ≤ b → within b (within a es) = within b es.
Proof.
  intros Hab. unfold within. rewrite list_filter_filter. apply list_filter_iff. intros e. simpl. lia.
Qed.

Lemma within_sorted a es : StronglySorted (λ x y, x.1 ≤ y.1) es → StronglySorted (λ x y, x.1 ≤ y.1) (within a es).
Proof.
  induction 1 as [|e es Hs IH Hall]; [constructor|]. unfold within in *. rewrite filter_cons. destruct (decide _); [|done]. constructor; [done|].
  apply Forall_forall. intros y [_ Hy]%list_elem_of_filter. rewrite Forall_forall in Hall. by apply Hall.
Qed.

Lemma window_fold c history e : StronglySorted (λ a b, a.1 ≤ b.1) (history ++ [e]) → N.of_nat (length history) < u32_MAX →
  let es := within (e.1 - window_span c) history ++ [e] in
  foldl window_add (window_new c) (history ++ [e]) = mkWindow c es (tally false es) (tally true es) ∧ StronglySorted (λ a b, a.1 ≤ b.1) es.
Proof.
  revert e. induction history as [|e0 history IH] using rev_ind; intros e Hs Hlen.
  - split; [|repeat constructor]. by rewrite foldl_app; simpl; rewrite window_add_spec by (done || constructor).
  - rewrite length_app in Hlen. simpl in Hlen. apply StronglySorted_app in Hs as (Hle & Hs & _).
    destruct (IH e0 Hs ltac:(lia)) as [Hfold Hsort]. rewrite foldl_app, Hfold. simpl. set (es := within (e0.1 - window_span c) history ++ [e0]) in *.
    assert (N.of_nat (length es) < u32_MAX) as Hl.
    { unfold es, within. rewrite length_app. pose proof (length_filter (λ x : N * bool, e0.1 - window_span c ≤ x.1) history). simpl. lia. }
    assert (within (e.1 - window_span c) es = within (e.1 - window_span c) (history ++ [e0])) as Hw.
    { unfold es. assert (e0.1 ≤ e.1) by (apply Hle; set_solver). unfold within. rewrite !filter_app. f_equal. apply within_within. lia. }
    rewrite window_add_spec by done. simpl. rewrite Hw. split; [done|]. apply StronglySorted_app_2; [|by apply within_sorted|by repeat constructor].
    intros x y Hx Hy%list_elem_of_singleton. subst y. apply Hle; [|set_solver]. by apply list_elem_of_filter in Hx as [_ Hx].
Qed.

(** ** The machine

    What clients may rely on: the states, the epochs of the running probes, and the
    token of each client. *)

Inductive Token := Free | Holding (e : N) | Inside (e : N).

Section machine.
Context (policy : CircuitBreakerPolicy).

Definition valid_policy : Prop :=
  1 ≤ failure_threshold policy ≤ u32_MAX ∧ 1 ≤ success_threshold policy ≤ 65535 ∧ 1 ≤ half_open_max_probes policy ≤ 65535.

Definition ok_state (s : State) : Prop :=
  match s with
  | Closed failures => failures < failure_threshold policy
  | Open since_millis => since_millis < 2 ^ 56
  | HalfOpen epoch probes_active successes =>
      epoch < 2 ^ 24 ∧ probes_active ≤ half_open_max_probes policy ∧ successes < success_threshold policy
  end.

Inductive move (s : State) (r : list N) : Token → State → list N → Token → Prop :=
| m_idle t : move s r t s r t
| m_grant e p n : s = HalfOpen e p n → p < half_open_max_probes policy → move s r Free (HalfOpen e (p + 1) n) r (Holding e)
| m_half_open since e : s = Open since → move s r Free (HalfOpen e 1 0) r (Holding e)
| m_fail f : s = Closed f → f + 1 < failure_threshold policy → move s r Free (Closed (f + 1)) r Free
| m_clear f : s = Closed f → move s r Free (Closed 0) r Free
| m_trip f since : s = Closed f → move s r Free (Open since) r Free
| m_success e p n : s = HalfOpen e p n → n + 1 < success_threshold policy →
    move s r (Holding e) (HalfOpen e (p - 1) (n + 1)) r Free
| m_close e p n : s = HalfOpen e p n → success_threshold policy = n + 1 → move s r (Holding e) (Closed 0) r Free
| m_reopen e p n since : s = HalfOpen e p n → move s r (Holding e) (Open since) r Free
| m_ignored e p n : s = HalfOpen e p n → move s r (Holding e) (HalfOpen e (p - 1) n) r Free
| m_stale e : (∀ p n, s ≠ HalfOpen e p n) → move s r (Holding e) s r Free
| m_reset : move s r Free (Closed 0) r Free
| m_enter e : move s r (Holding e) s (e :: r) (Inside e)
| m_leave e : move s r (Inside e) s (drop_epoch e r) (Holding e).

Definition step_of (w : World) (t : Token) (w' : World) (t' : Token) : Prop :=
  move (state (cb w)) (running w) t (state (cb w')) (running w') t'.
Definition ok_world (w : World) : Prop := ok_state (state (cb w)).

Notation follows := (sim ok_world step_of).

Hypothesis Hpol : valid_policy.

Lemma ok_fits s : ok_state s → fits s.
Proof. destruct Hpol as (? & ? & ?). destruct s; simpl; mlia. Qed.

(** Accesses that do not touch the state word. *)
Lemma follows_on_cb {A} (f : CircuitBreaker → CircuitBreaker * A) t :
  (∀ b, state_bits (f b).1 = state_bits b) → follows (λ t' _, t' = t) t (on_cb f).
Proof.
  intros Hf w Hw. unfold step_of, ok_world, state in *. specialize (Hf (cb w)). destruct (f (cb w)) as [b a] eqn:E. simpl in *.
  rewrite Hf. split; [done|]. exists t. split; [apply m_idle | done].
Qed.

Lemma follows_fetch_add c t : follows (λ t' _, t' = t) t (fetch_add c).
Proof. by apply follows_on_cb. Qed.

(** [seen s] is the token of a thread of a retry loop that has just read [s]. *)
Lemma follows_compare_exchange t t' bits new (seen : State → Token) : ok_state new →
  (∀ r, move (from_bits bits) r t new r t') → (∀ s r, move s r t s r (seen s)) →
  follows (λ t2 a, match a with Ok _ => t2 = t' | Err actual => ok_state (from_bits actual) ∧ t2 = seen (from_bits actual) end) t
    (compare_exchange bits (to_bits new)).
Proof.
  intros Hn Hm Hseen w Hw. unfold step_of, ok_world, state in *. simpl. destruct (N.eqb_spec (state_bits (cb w)) bits) as [<-|Hb]; simpl.
  - rewrite from_to_bits by by apply ok_fits. split; [done|]. exists t'. split; [apply Hm | done].
  - split; [done|]. exists (seen (from_bits (state_bits (cb w)))). split; [by apply Hseen | done].
Qed.

Lemma follows_load_bits t (seen : State → Token) : (∀ s r, move s r t s r (seen s)) →
  follows (λ t2 bits, ok_state (from_bits bits) ∧ t2 = seen (from_bits bits)) t (load_cb state_bits).
Proof. intros Hs w Hw. split; [done|]. eexists. split; [apply Hs | done]. Qed.

Definition settled {A} (t : Token) (a : option A) : Prop := is_Some a → t = Free.

(** Retry loops: the exchange makes a move of the machine, and a thread that finds
    nothing to do is done with its permit. *)
Lemma follows_update t fuel next :
  (∀ s s', ok_state s → next s = Some s' → ok_state s' ∧ ∀ r, move s r t s' r Free) →
  (∀ s r, next s = None → move s r t s r Free) →
  follows (λ t' a, settled t' a ∧ ∀ s s', a = Some (Some (s, s')) → next s = Some s') t (update fuel next).
Proof.
  intros Hsome Hnone. set (seen s := if next s then t else Free).
  assert (∀ s r, move s r t s r (seen s)) as Hseen.
  { intros s r. unfold seen. destruct (next s) eqn:E; [apply m_idle | by apply Hnone]. }
  unfold update. eapply sim_bind; [by apply follows_load_bits|]. intros ? bits [Hok ->]. revert bits Hok.
  induction fuel as [|fuel IH]; intros bits Hok; [by split; [intros []|]|]. cbn [update_loop].
  destruct (next (from_bits bits)) as [new|] eqn:E; [replace (seen (from_bits bits)) with t by (unfold seen; by rewrite E) | replace (seen (from_bits bits)) with Free by (unfold seen; by rewrite E)].
  - destruct (Hsome _ _ Hok E) as [Hnew Hm]. eapply sim_bind; [by apply (follows_compare_exchange t Free bits new seen)|].
    intros t2 [a|actual]; [intros ->; split; [done|] | intros [Hok' ->]; by apply IH]. intros ? ? [=<- <-]. done.
  - by split.
Qed.

Lemma follows_seq {A B} (post : Token → B → Prop) t (p : prog World A) (k : A → prog World B) :
  follows (λ t' _, t' = t) t p → (∀ a, follows post t (k a)) → follows post t (p ≫= k).
Proof. intros Hp Hk. eapply sim_bind; [exact Hp|]. intros ? a ->. apply Hk. Qed.

Lemma follows_commit reset_window new t : follows (λ t' _, t' = t) t (commit_change policy reset_window new).
Proof. apply follows_on_cb. intros b. by destruct reset_window, (on_state_change policy). Qed.

Lemma follows_call_back event t : follows (λ t' _, t' = t) t (call_back policy event).
Proof. unfold call_back. destruct event as [[[? ?] ?]|]; [|done]. destruct (on_state_change policy); [by apply follows_on_cb | done]. Qed.

Lemma follows_after_open from to t : follows (λ t' _, t' = t) t (after_open policy from to).
Proof. apply follows_seq; [apply follows_fetch_add|]. intros _. apply follows_seq; [apply follows_commit|]. intros m. apply follows_call_back. Qed.

Lemma follows_window_step f t : follows (λ t' _, t' = t) t (window_step f).
Proof. apply follows_on_cb. intros b. by destruct (window b). Qed.

Lemma millis_fit now : now ≤ u64_MAX → Time.as_millis now < 2 ^ 56.
Proof. intros H. unfold Time.as_millis. apply (N.le_lt_trans _ (u64_MAX / 1000000)); [by apply N.Div0.div_le_mono | done]. Qed.

Lemma follows_trigger_open fuel m : m < 2 ^ 56 → follows settled Free (trigger_open_from_window policy fuel m).
Proof.
  intros Hm. eapply sim_bind.
  - apply follows_update.
    + intros [f|?|? ? ?] s' Hs [=<-]. split; [done|]. intros r. by eapply m_trip.
    + intros s r _. apply m_idle.
  - intros t [[[from to]|]|] [Ht _]; [|by intros _; apply Ht|by intros []]. rewrite Ht by done.
    apply follows_seq; [apply follows_after_open|]. by intros _ _.
Qed.

Lemma follows_window_success fuel m : m < 2 ^ 56 → follows settled Free (check_sliding_window_success policy fuel m).
Proof. intros Hm. apply follows_seq; [apply follows_window_step|]. intros []; [by apply follows_trigger_open | by intros _]. Qed.

Definition token_of (permit : Permit) : Token := match permit with Normal => Free | Probe e => Holding e end.

Lemma stale_or_idle e s (next : State → option State) : (∀ p n, s = HalfOpen e p n → is_Some (next s)) →
  next s = None → ∀ r, move s r (Holding e) s r Free.
Proof. intros Hm Hn r. apply m_stale. intros p n E. destruct (Hm p n E) as [? Hs]. congruence. Qed.

Lemma follows_record_success fuel permit now : now ≤ u64_MAX →
  follows settled (token_of permit) (record_success policy fuel permit now).
Proof.
  intros Hnow%millis_fit. unfold record_success. apply follows_seq; [apply follows_fetch_add|]. intros _. destruct permit as [|e]; cbn [token_of].
  - eapply sim_bind; [apply (follows_load_bits Free (λ _, Free)); intros; apply m_idle|]. intros ? bits [_ ->].
    case_bool_decide; [by apply follows_window_success|]. eapply sim_bind; [apply follows_update|].
    + destruct Hpol. intros [f|?|? ? ?] s' Hs; simpl; try done. destruct (0 <? f); [|done]. intros [=<-]. split; [simpl; lia|]. intros r. by eapply m_clear.
    + intros s r _. apply m_idle.
    + intros t [x|] [Ht _]; [|by intros []]. rewrite Ht by done. by apply follows_window_success.
  - eapply sim_bind; [apply follows_update|].
    + intros [?|?|e' p n] s' Hs; simpl; try done. destruct (N.eqb_spec e' e) as [->|]; [|done]. destruct Hs as (He & Hp & Hn). destruct Hpol as (Hf & Hs & _).
      rewrite saturating_add_exact by mlia. destruct (N.leb_spec (success_threshold policy) (n + 1)); intros [=<-].
      * split; [simpl; lia|]. intros r. eapply m_close; [done | lia].
      * split; [simpl; mlia|]. intros r. by eapply m_success.
    + intros s r Hn. eapply (stale_or_idle e s); [|exact Hn]. intros p n ->. simpl. rewrite N.eqb_refl. by destruct (_ <=? _).
    + intros t [x|] [Ht _]; [|by intros []]. rewrite Ht by done. destruct x as [[from [f|?|? ? ?]]|]; [|by apply follows_window_success..].
      apply follows_seq; [apply follows_fetch_add|]. intros _. apply follows_seq; [apply follows_commit|]. intros m.
      apply follows_seq; [apply follows_call_back|]. intros _. by apply follows_window_success.
Qed.

Lemma follows_record_failure fuel permit error now : now ≤ u64_MAX →
  follows settled (token_of permit) (record_failure policy fuel permit error now).
Proof.
  intros Hnow%millis_fit. unfold record_failure. destruct (negb _).
  - apply follows_seq; [apply follows_fetch_add|]. intros _. destruct permit as [|e]; [by intros _|]. eapply sim_bind; [apply follows_update|].
    + intros [?|?|e' p n] s' Hs; simpl; try done. destruct (N.eqb_spec e' e) as [->|]; [|done]. intros [=<-].
      split; [simpl in *; mlia|]. intros r. by eapply m_ignored.
    + intros s r Hn. eapply (stale_or_idle e s); [|exact Hn]. intros p n ->. simpl. by rewrite N.eqb_refl.
    + intros t [x|] [Ht _]; [|by intros []]. intros _. by apply Ht.
  - apply follows_seq; [apply follows_fetch_add|]. intros _. apply follows_seq; [apply follows_window_step|]. intros trig.
    eapply sim_bind; [apply follows_update|].
    + destruct permit as [|e]; intros [f|?|e' p n] s' Hs; simpl; try done.
      * simpl in Hs. destruct Hpol as (Hf & _). rewrite saturating_add_exact by mlia. destruct (N.leb_spec (failure_threshold policy) (f + 1)); [|destruct trig]; intros [=<-].
        -- split; [done|]. intros r. by eapply m_trip.
        -- split; [done|]. intros r. by eapply m_trip.
        -- split; [done|]. intros r. by eapply m_fail.
      * destruct (N.eqb_spec e' e) as [->|]; [|done]. intros [=<-]. split; [done|]. intros r. by eapply m_reopen.
    + intros s r Hn. destruct permit as [|e]; [apply m_idle|]. eapply (stale_or_idle e s); [|exact Hn]. intros p n ->. simpl. by rewrite N.eqb_refl.
    + intros t [x|] [Ht _]; [|by intros []]. rewrite Ht by done. destruct x as [[from [?|since|? ? ?]]|]; [by intros _| |by intros _..].
      apply follows_seq; [apply follows_after_open|]. by intros _ _.
Qed.

Lemma follows_reset fuel : follows settled Free (reset fuel).
Proof.
  eapply sim_bind; [apply follows_update|].
  - intros s s' _ [=<-]. destruct Hpol. split; [simpl; lia|]. intros r. apply m_reset.
  - done.
  - intros t [x|] [Ht _]; [|by intros []]. rewrite Ht by done. apply follows_seq; [by apply follows_on_cb|]. by intros _ _.
Qed.

Definition granted (t : Token) (a : option (result Permit (CircuitBreakerError unit))) : Prop :=
  t = match a with Some (Ok permit) => token_of permit | _ => Free end.

Lemma follows_should_allow fuel now : follows granted Free (should_allow policy fuel now).
Proof.
  eapply sim_bind; [apply (follows_load_bits Free (λ _, Free)); intros; apply m_idle|]. intros ? bits [Hok ->]. revert bits Hok.
  induction fuel as [|fuel IH]; intros bits Hok; [done|]. cbn [allow_loop]. destruct (from_bits bits) as [f|since|e p n] eqn:E; [done| |].
  - destruct (_ <=? _); [|by apply follows_seq; [apply follows_fetch_add|]].
    eapply sim_bind; [apply (sim_idle ok_world step_of (λ t' _, t' = Free)); [intros; split; [done | apply m_idle] | done]|].
    intros ? opened ->. set (e := N.land opened 16777215). assert (e < 2 ^ 24) as He by (unfold e; fields; by apply N.mod_upper_bound).
    eapply sim_bind; [apply (follows_compare_exchange Free (Holding e) bits (HalfOpen e 1 0) (λ _, Free))|].
    + destruct Hpol. simpl. lia.
    + intros r. by eapply m_half_open.
    + intros. apply m_idle.
    + intros t [a|actual]; [intros -> | intros [Hok' ->]; by apply IH]. apply follows_seq; [by apply follows_on_cb|]. intros m.
      apply follows_seq; [|done]. destruct (on_state_change policy); [by apply follows_on_cb | done].
  - destruct (N.ltb_spec p (half_open_max_probes policy)); [|by apply follows_seq; [apply follows_fetch_add|]].
    eapply sim_bind; [apply (follows_compare_exchange Free (Holding e) bits (HalfOpen e (p + 1) n) (λ _, Free))|].
    + simpl in *. lia.
    + intros r. rewrite E. by apply m_grant.
    + intros. apply m_idle.
    + intros t [a|actual]; [by intros ->|]. intros [Hok' ->]. by apply IH.
Qed.

Lemma follows_after_operation {A} (permit : Permit) (k : prog World A) (post : Token → A → Prop) :
  follows post (token_of permit) k → follows post (token_of permit) (enter permit ≫= λ _, leave permit ≫= λ _, k).
Proof.
  intros Hk. destruct permit as [|e]; [done|]. intros w Hw. split; [done|]. exists (Inside e). split; [apply m_enter|].
  intros w' Hw'. split; [done|]. exists (Holding e). by split; [apply m_leave|].
Qed.

Lemma settled_map {A B} (f : A → B) t a : settled t a → settled t (option_map f a).
Proof. intros H [b Hb]. apply H. destruct a; [eauto | done]. Qed.

Lemma follows_call {T E} fuel now (op : Op T E) : now ≤ u64_MAX → follows settled Free (call policy fuel now op).
Proof.
  intros Hnow. eapply sim_bind; [apply follows_should_allow|]. intros t [[permit|[rem| |u]]|] ->; [|by intros _..|by intros []].
  apply follows_after_operation. destruct op as [v|e msg|].
  - eapply sim_bind; [by apply follows_record_success|]. intros t a. apply settled_map.
  - eapply sim_bind; [by apply follows_record_failure|]. intros t a. apply settled_map.
  - eapply sim_bind; [by apply follows_record_failure|]. intros t a. apply settled_map.
Qed.

(** ** Clients

    A client runs [call], or takes a permit, runs its operation and records the
    result at a later time, or never, or resets the breaker. *)
Inductive Client :=
| Caller (fuel : nat) (now : Time.t) (op : Op unit unit)
| Session (fuel : nat) (now : Time.t) (outcome : option (result unit string * Time.t))
| Resetter (fuel : nat).

Definition client_prog (c : Client) : prog World unit :=
  match c with
  | Caller fuel now op => _ ← call policy fuel now op; Ret ()
  | Session fuel now outcome =>
      r ← should_allow policy fuel now;
      match r with
      | Some (Ok permit) =>
          _ ← enter permit; _ ← leave permit;
          match outcome with
          | Some (Ok _, later) => _ ← record_success policy fuel permit later; Ret ()
          | Some (Err error, later) => _ ← record_failure policy fuel permit error later; Ret ()
          | None => Ret ()
          end
      | _ => Ret ()
      end
  | Resetter fuel => _ ← reset fuel; Ret ()
  end.

Definition client_times (c : Client) : Prop :=
  match c with
  | Caller _ now _ => now ≤ u64_MAX
  | Session _ now outcome => now ≤ u64_MAX ∧ from_option (λ o, o.2 ≤ u64_MAX) True outcome
  | Resetter _ => True
  end.

Lemma follows_end {A} (post : Token → A → Prop) t (p : prog World A) :
  follows post t p → follows (λ _ _, True) t (p ≫= λ _, Ret ()).
Proof. intros H. by eapply sim_bind. Qed.

Lemma follows_client c : client_times c → follows (λ _ _, True) Free (client_prog c).
Proof.
  destruct c as [fuel now op|fuel now outcome|fuel]; intros Ht.
  - by eapply follows_end, follows_call.
  - destruct Ht as [Hnow Hlater]. eapply sim_bind; [apply follows_should_allow|].
    intros t [[permit|?]|] ->; [|done..]. apply follows_after_operation. destruct outcome as [[[u|error] later]|]; [| |done].
    + by eapply follows_end, follows_record_success.
    + by eapply follows_end, follows_record_failure.
  - by eapply follows_end, follows_reset.
Qed.

(** Every state of the breaker with its clients, newest first in [hist]. *)
Definition initial : World := mkWorld (new policy).2 [].

Inductive reach : list World → World → gmap N (prog World unit) → Prop :=
| reach_new : reach [] initial ∅
| reach_start hist w ps i c : reach hist w ps → ps !! i = None → client_times c → reach hist w (<[i := client_prog c]> ps)
| reach_step hist w ps w' ps' : reach hist w ps → pool_step (w, ps) (w', ps') → reach (w :: hist) w' ps'.

Definition epoch_in (s : State) : option N := match s with HalfOpen e _ _ => Some e | _ => None end.
Definition epoch_of (w : World) : option N := epoch_in (state (cb w)).

(** No epoch serves two half-open periods. *)
Fixpoint fresh_epochs (w : World) (hist : list World) : Prop :=
  match hist with
  | [] => True
  | w0 :: earlier =>
      fresh_epochs w0 earlier ∧
      (epoch_of w0 = None → ∀ e, epoch_of w = Some e → Forall (λ w1, epoch_of w1 ≠ Some e) earlier)
  end.

(** ** The quota *)

Definition has (e : N) (t : Token) : bool := match t with Free => false | Holding e' | Inside e' => e' =? e end.
Definition inside (e : N) (t : Token) : bool := match t with Inside e' => e' =? e | _ => false end.

Fixpoint occurs (e : N) (r : list N) : nat :=
  match r with e' :: r => ((if (e' =? e)%N then 1 else 0) + occurs e r)%nat | [] => 0%nat end.

Lemma occurs_drop e e' r : occurs e' (drop_epoch e r) = (occurs e' r - (if (e =? e')%N then 1 else 0))%nat.
Proof.
  induction r as [|x r IH]; simpl; [by destruct (e =? e')|]. destruct (N.eqb_spec x e) as [->|Hx].
  - destruct (e =? e'); lia.
  - simpl. rewrite IH. destruct (N.eqb_spec x e') as [->|]; [|done]. destruct (N.eqb_spec e e'); [congruence | lia].
Qed.

Record counts (s : State) (r : list N) (seen : N → Prop) (tokens : gmap N Token) : Prop := {
  counts_active : ∀ e p n, s = HalfOpen e p n → N.of_nat (carriers (has e) tokens) = p;
  counts_running : ∀ e, occurs e r = carriers (inside e) tokens;
  counts_seen : ∀ i t e, tokens !! i = Some t → has e t = true → seen e;
}.

Lemma unseen_none s r seen tokens e : counts s r seen tokens → ~ seen e → carriers (has e) tokens = 0%nat.
Proof.
  intros Hc Hs. unfold carriers. apply map_size_empty_iff, map_empty. intros i. apply map_lookup_filter_None. right. intros t Hi Ht. apply Hs. by eapply counts_seen.
Qed.

Lemma inside_le_has e tokens : (carriers (inside e) tokens ≤ carriers (has e) tokens)%nat.
Proof.
  induction tokens as [|i t tokens Hi IH] using map_ind; [by rewrite !carriers_empty|]. rewrite !carriers_insert by done.
  destruct t; cbn [has inside]; [lia| |]; destruct (_ =? _); lia.
Qed.

Ltac recount i t t' Hi :=
  match goal with |- context [carriers ?P (<[i := t']> ?tokens)] => pose proof (carriers_update P tokens i t t' Hi) end; simpl in *.

Lemma move_counts s r t s' r' t' i tokens (seen : N → Prop) :
  counts s r seen tokens → tokens !! i = Some t → move s r t s' r' t' → (∀ e, epoch_in s = Some e → seen e) →
  (∀ e, epoch_in s = None → epoch_in s' = Some e → ~ seen e) →
  counts s' r' (λ e, seen e ∨ epoch_in s' = Some e) (<[i := t']> tokens).
Proof.
  intros Hc Hi Hm Hs Hf. split.
  - intros e p n ->. recount i t t' Hi. inversion Hm; subst; simpl in *; rewrite ?N.eqb_refl in *;
      try (pose proof (counts_active _ _ _ _ Hc _ _ _ eq_refl); lia).
    + rewrite (unseen_none _ _ _ _ e Hc) in H; [lia|]. by apply Hf.
    + rewrite <- (counts_active _ _ _ _ Hc e p n) by done. destruct (N.eqb_spec e0 e) as [->|]; [by destruct (H0 p n)|lia].
  - intros e. recount i t t' Hi. pose proof (counts_running _ _ _ _ Hc e) as Hr. inversion Hm; subst; simpl in *; try lia.
    rewrite occurs_drop. destruct (e0 =? e); lia.
  - intros j tj e Hj He. destruct (decide (j = i)) as [->|Hn].
    + rewrite lookup_insert_eq in Hj. simplify_eq. inversion Hm; subst; simpl in *; try done; try (apply N.eqb_eq in He as ->; eauto); left; eapply counts_seen; eauto; simpl; by rewrite N.eqb_refl.
    + rewrite lookup_insert_ne in Hj by done. left. by eapply counts_seen.
Qed.

Lemma initial_state : state (cb initial) = Closed 0.
Proof. done. Qed.

(** The state of a run: bounds, and, when no epoch is used twice, the counts. *)
Lemma reach_ok hist w ps : reach hist w ps → ok_world w ∧ ∃ tokens, carried ok_world step_of (λ _ _, True) tokens ps.
Proof.
  induction 1 as [|hist w ps i c Hr [Hok (tokens & Hc)] Hi Ht|hist w ps w' ps' Hr [Hok (tokens & Hc)] Hs].
  - split; [unfold ok_world; rewrite initial_state; simpl; destruct Hpol; lia|]. exists ∅. split; [set_solver | done].
  - split; [done|]. exists (<[i := Free]> tokens). apply carried_start; [done | by apply follows_client].
  - destruct (pool_invariant ok_world step_of (λ _ _, True) (λ _, True) (λ _, True) w ps w' ps' tokens) as (HI & tokens' & Hc' & _); eauto.
Qed.

Definition seen_in (w : World) (hist : list World) (e : N) : Prop := Exists (λ w1, epoch_of w1 = Some e) (w :: hist).

Lemma counts_seen_mono s r (seen seen' : N → Prop) tokens : (∀ e, seen e → seen' e) → counts s r seen tokens → counts s r seen' tokens.
Proof. intros Hm [Ha Hr Hs]. split; eauto. Qed.

Lemma reach_counts hist w ps : reach hist w ps → fresh_epochs w hist →
  ok_world w ∧ ∃ tokens, carried ok_world step_of (λ _ _, True) tokens ps ∧ counts (state (cb w)) (running w) (seen_in w hist) tokens.
Proof.
  induction 1 as [|hist w ps i c Hr IH Hi Ht|hist w ps w' ps' Hr IH Hs]; intros Hf.
  - destruct (reach_ok [] initial ∅ reach_new) as [Hok _]. split; [done|]. exists ∅. split; [by split; [set_solver|]|]. split.
    + by rewrite initial_state.
    + intros e. by rewrite carriers_empty.
    + done.
  - destruct (IH Hf) as (Hok & tokens & Hc & Hn). split; [done|]. exists (<[i := Free]> tokens). split; [by apply carried_start, follows_client|].
    assert (tokens !! i = None) as Hti by (apply not_elem_of_dom; destruct Hc as [-> _]; by apply not_elem_of_dom).
    destruct Hn as [Ha Hrun Hsn]. split.
    + intros e p n E. rewrite carriers_insert by done. by apply Ha with n.
    + intros e. rewrite carriers_insert by done. apply Hrun.
    + intros j t e Hj He. destruct (decide (j = i)) as [->|Hne]; [rewrite lookup_insert_eq in Hj; by simplify_eq|].
      rewrite lookup_insert_ne in Hj by done. by eapply Hsn.
  - destruct Hf as [Hf0 Hf]. destruct (IH Hf0) as (Hok & tokens & Hc & Hn).
    eapply (pool_invariant ok_world step_of (λ _ _, True) (counts (state (cb w)) (running w) (seen_in w hist)) _ w ps w' ps' tokens); try done.
    intros i t t' Hn' Hi Hm. eapply counts_seen_mono; [|eapply move_counts; [exact Hn' | exact Hi | exact Hm | |]].
    + intros e [He|He]; [by right | by left].
    + intros e He. by left.
    + intros e He He' Hse. inversion Hse as [? ? Hb|? ? Hb]; subst; [unfold epoch_of in Hb; congruence|]. specialize (Hf He e He').
      rewrite Forall_forall in Hf. apply Exists_exists in Hb as (w1 & Hin & Hw1). by apply (Hf w1).
Qed.

(** ** An open circuit

    Threads that arrive before the circuit may half-open, and late results of
    earlier permits. *)
Inductive early (since : N) : prog World unit → Prop :=
| early_call fuel now op : saturating_sub (Time.as_millis now) since * 1000000 < open_duration policy →
    early since (client_prog (Caller (S fuel) now op))
| early_session fuel now outcome : saturating_sub (Time.as_millis now) since * 1000000 < open_duration policy →
    early since (client_prog (Session (S fuel) now outcome))
| late_success fuel permit now : early since (_ ← record_success policy fuel permit now; Ret ())
| late_failure fuel permit error now : early since (_ ← record_failure policy fuel permit error now; Ret ()).

Section opened.
Context (since : N) (r : list N).

Definition opened (w : World) : Prop := state (cb w) = Open since ∧ running w = r.
Definition unchanged (w : World) (_ : unit) (w' : World) (_ : unit) : Prop := state (cb w') = state (cb w) ∧ running w' = running w.

Notation stays := (sim opened unchanged).
Definition anything {A} (_ : unit) (_ : A) : Prop := True.

Lemma stays_on_cb {A} (f : CircuitBreaker → CircuitBreaker * A) : (∀ b, state_bits (f b).1 = state_bits b) → stays anything () (on_cb f).
Proof.
  intros Hf w [Hs Hr]. unfold opened, unchanged, state in *. specialize (Hf (cb w)). simpl. destruct (f (cb w)) as [b a]. simpl in *. rewrite Hf.
  split; [done|]. by exists ().
Qed.

Lemma stays_seq {A B} (post : unit → B → Prop) (p : prog World A) (k : A → prog World B) :
  stays anything () p → (∀ a, stays post () (k a)) → stays post () (p ≫= k).
Proof. intros Hp Hk. eapply sim_bind; [exact Hp|]. intros [] a _. apply Hk. Qed.

Lemma stays_update fuel next : next (Open since) = None → stays (λ _ a, a ≠ None → a = Some None) () (update fuel next).
Proof.
  intros Hn w [Hs Hr]. split; [done|]. exists (). split; [done|]. simpl. destruct fuel; [by intros []|]. unfold state in Hs. cbn [update_loop]. rewrite Hs, Hn. done.
Qed.

Lemma stays_trigger fuel m : stays anything () (trigger_open_from_window policy fuel m).
Proof. eapply sim_bind; [by apply stays_update|]. intros [] [x|] Hx; [|done]. by injection (Hx ltac:(done)) as ->. Qed.

Lemma stays_window_success fuel m : stays anything () (check_sliding_window_success policy fuel m).
Proof. apply stays_seq; [apply stays_on_cb; intros b; by destruct (window b)|]. intros []; [apply stays_trigger | done]. Qed.

Lemma stays_record_success fuel permit now : stays anything () (record_success policy fuel permit now).
Proof.
  apply stays_seq; [by apply stays_on_cb|]. intros _. destruct permit as [|e].
  - apply stays_seq; [apply sim_idle; [by intros w Hw | done]|]. intros bits. case_bool_decide; [apply stays_window_success|].
    eapply sim_bind; [by apply stays_update|]. intros [] [x|] Hx; [apply stays_window_success | done].
  - eapply sim_bind; [by apply stays_update|]. intros [] [x|] Hx; [|done]. injection (Hx ltac:(done)) as ->. apply stays_window_success.
Qed.

Lemma stays_record_failure fuel permit error now : stays anything () (record_failure policy fuel permit error now).
Proof.
  unfold record_failure. destruct (negb _).
  - apply stays_seq; [by apply stays_on_cb|]. intros _. destruct permit as [|e]; [done|]. eapply sim_bind; [by apply stays_update|]. done.
  - apply stays_seq; [by apply stays_on_cb|]. intros _. apply stays_seq; [apply stays_on_cb; intros b; by destruct (window b)|].
    intros trig. eapply sim_bind; [apply stays_update; by destruct permit|]. intros [] [x|] Hx; [|done]. by injection (Hx ltac:(done)) as ->.
Qed.

(** The rejection, with the time that remains. *)
Lemma stays_should_allow fuel now : saturating_sub (Time.as_millis now) since * 1000000 < open_duration policy →
  stays (λ _ a, a = Some (Err (ErrOpen (open_duration policy - (Time.as_millis now - since) * 1000000)))) () (should_allow policy (S fuel) now).
Proof.
  intros Hnow w [Hs Hr]. split; [done|]. exists (). split; [done|]. unfold state in Hs. simpl. rewrite Hs.
  destruct (N.leb_spec (open_duration policy) (saturating_sub (Time.as_millis now) since * 1000000)); [lia|].
  intros w' Hw'. split; [done|]. by exists ().
Qed.

Lemma stays_early p : early since p → stays anything () p.
Proof.
  destruct 1.
  - apply stays_seq; [|done]. eapply sim_bind; [by apply stays_should_allow|]. by intros [] a ->.
  - eapply sim_bind; [by apply stays_should_allow|]. by intros [] a ->.
  - apply stays_seq; [apply stays_record_success | done].
  - apply stays_seq; [apply stays_record_failure | done].
Qed.

Definition open_pool (c : World * gmap N (prog World unit)) : Prop := opened c.1 ∧ map_Forall (λ _ p, stays anything () p) c.2.

Lemma stays_pool c c' : pool_step c c' → open_pool c → open_pool c'.
Proof.
  intros Hs [Hw Hp]. inversion Hs as [w ps i f k Hi]; subst. destruct (Hp i _ Hi w Hw) as (Hw' & [] & _ & Hk).
  split; [done|]. by apply map_Forall_insert_2.
Qed.

End opened.

Lemma open_rejects w ps c' since : state (cb w) = Open since → map_Forall (λ _, early since) ps →
  rtc pool_step (w, ps) c' → open_pool since (running w) c'.
Proof.
  intros Hs Hp Hr. assert (open_pool since (running w) (w, ps)) as Hw by (split; [done|]; intros i p Hi; eapply stays_early, Hp, Hi).
  revert Hw. clear Hp Hs. generalize (running w) as r. intros r. induction Hr as [|c1 c2 c3 H1 _ IH]; [done|]. intros Hw. by apply IH, (stays_pool _ _ c1).
Qed.

End machine.

(** ** One client at a time

    [runs p s post]: without a window and without interference, [p] takes a breaker
    in state [s] to a state and an answer that satisfy [post]. *)

Definition lean (w : World) (s : State) : Prop := state (cb w) = s ∧ window (cb w) = None.
Definition runs {A} (p : prog World A) (s : State) (post : State → A → Prop) : Prop :=
  ∀ w, lean w s → ∃ s', lean (alone p w).1 s' ∧ post s' (alone p w).2.

Lemma runs_bind {A B} (p : prog World A) (k : A → prog World B) s mid post :
  runs p s mid → (∀ s a, mid s a → runs (k a) s post) → runs (p ≫= k) s post.
Proof. intros Hp Hk w Hw. rewrite alone_bind. destruct (Hp w Hw) as (s1 & Hl & Hm). by apply (Hk s1 _ Hm). Qed.

Lemma runs_ret {A} (a : A) s (post : State → A → Prop) : post s a → runs (Ret a) s post.
Proof. intros H w Hw. by exists s. Qed.

Lemma runs_on_cb {A} (f : CircuitBreaker → CircuitBreaker * A) s (post : State → A → Prop) :
  (∀ b, window b = None → state_bits (f b).1 = state_bits b ∧ window (f b).1 = None ∧ post s (f b).2) → runs (on_cb f) s post.
Proof.
  intros Hf w [Hs Hw]. exists s. unfold lean, state in *. simpl. destruct (Hf (cb w) Hw) as (Hb & Hn & Hp). destruct (f (cb w)) as [b a]. simpl in *. by rewrite Hb.
Qed.

Lemma runs_seq {A B} (f : CircuitBreaker → CircuitBreaker * A) (k : A → prog World B) s post :
  (∀ b, window b = None → state_bits (f b).1 = state_bits b ∧ window (f b).1 = None) → (∀ a, runs (k a) s post) → runs (on_cb f ≫= k) s post.
Proof. intros Hf Hk. eapply (runs_bind _ _ _ (λ s' _, s' = s)); [apply runs_on_cb; naive_solver|]. intros ? a ->. apply Hk. Qed.

Lemma runs_update fuel next s (post : State → option (option (State * State)) → Prop) :
  match next s with Some s' => fits s' ∧ post s' (Some (Some (s, s'))) | None => post s (Some None) end → runs (update (S fuel) next) s post.
Proof.
  intros Hp w [Hs Hw]. unfold update. rewrite alone_bind. simpl. unfold lean, state in *. rewrite Hs. destruct (next s) as [s'|]; [|by exists s].
  destruct Hp as [Hf Hp]. exists s'. simpl. rewrite N.eqb_refl. simpl. by rewrite from_to_bits.
Qed.

Section sequential.
Context (policy : CircuitBreakerPolicy) (Hpol : valid_policy policy).

Lemma runs_after_open from to s (post : State → unit → Prop) : post s () → runs (after_open policy from to) s post.
Proof.
  intros Hp. apply runs_seq; [done|]. intros _. apply runs_seq; [intros b Hb; rewrite Hb; by destruct (on_state_change policy)|].
  intros [m|]; [|by apply runs_ret]. simpl. destruct (on_state_change policy); [by apply runs_on_cb | by apply runs_ret].
Qed.

Lemma runs_window_success fuel m s : runs (check_sliding_window_success policy fuel m) s (λ s' a, s' = s ∧ a = Some ()).
Proof.
  eapply (runs_bind _ _ _ (λ s' a, s' = s ∧ a = false)); [apply runs_on_cb; intros b Hb; by rewrite Hb|]. intros ? a [-> ->]. by apply runs_ret.
Qed.

(** What a recorded result makes of the state. *)
Definition after_success (permit : Permit) (s : State) : State :=
  match permit with
  | Normal => match s with Closed _ => Closed 0 | _ => s end
  | Probe e => default s (probe_succeeded policy e s)
  end.
Definition after_failure (permit : Permit) (m : N) (s : State) : State :=
  default s (match permit with Normal => count_failure policy false m s | Probe e => probe_failed e m s end).

Lemma fits_next_success e s s' : ok_state policy s → probe_succeeded policy e s = Some s' → fits s'.
Proof.
  destruct s as [?|?|e' p n]; simpl; try done. destruct Hpol as (? & ? & ?). intros (He & Hp & Hn). destruct (e' =? e); [|done].
  rewrite saturating_add_exact by mlia. destruct (N.leb_spec (success_threshold policy) (n + 1)); intros [=<-]; simpl; mlia.
Qed.

Lemma runs_record_success fuel permit now s : ok_state policy s →
  runs (record_success policy (S fuel) permit now) s (λ s' a, s' = after_success permit s ∧ a = Some ()).
Proof.
  intros Hok. apply runs_seq; [done|]. intros _. destruct permit as [|e].
  - eapply (runs_bind _ _ _ (λ s' a, s' = s ∧ from_bits a = s)); [intros w Hw; exists s; split; [done|split; [done|apply Hw]]|].
    intros ? bits [-> Hb]. rewrite Hb. case_bool_decide as Hz; [rewrite Hz; by apply runs_window_success|].
    eapply (runs_bind _ _ _ (λ s' a, s' = after_success Normal s ∧ is_Some a)).
    + apply runs_update. destruct s as [f|?|? ? ?]; simpl; [|by eauto..]. destruct (N.ltb_spec 0 f); [by eauto|]. replace f with 0 in Hz by lia. done.
    + intros ? [x|] [-> Hx]; [apply runs_window_success | by destruct Hx].
  - eapply (runs_bind _ _ _ (λ s' a, s' = after_success (Probe e) s ∧ is_Some a)).
    + apply runs_update. simpl. destruct (probe_succeeded policy e s) as [s'|] eqn:E; [|by eauto]. split; [by eapply fits_next_success | by eauto].
    + intros ? [x|] [-> Hx]; [|by destruct Hx]. destruct x as [[from [f|?|? ? ?]]|]; try apply runs_window_success.
      apply runs_seq; [done|]. intros _. apply runs_seq; [intros b Hb; by destruct (on_state_change policy)|]. intros m.
      eapply (runs_bind _ _ _ (λ s' _, s' = after_success (Probe e) s)); [|intros ? _ ->; apply runs_window_success].
      destruct m as [m|]; [simpl; destruct (on_state_change policy)|]; [by apply runs_on_cb | by apply runs_ret..].
Qed.

Lemma fits_next_failure permit m s s' : ok_state policy s → m < 2 ^ 56 →
  (match permit with Normal => count_failure policy false m s | Probe e => probe_failed e m s end) = Some s' → fits s'.
Proof.
  destruct Hpol as (? & ? & ?). destruct permit as [|e], s as [f|?|e' p n]; simpl; try done; intros Hok Hm.
  - rewrite saturating_add_exact by mlia. destruct (N.leb_spec (failure_threshold policy) (f + 1)); intros [=<-]; simpl; mlia.
  - destruct (e' =? e); [|done]. by intros [=<-].
Qed.

Lemma runs_record_failure fuel permit error now s : ok_state policy s → now ≤ u64_MAX →
  is_failure (failure_predicate policy) error = true →
  runs (record_failure policy (S fuel) permit error now) s (λ s' a, s' = after_failure permit (Time.as_millis now) s ∧ a = Some ()).
Proof.
  intros Hok Hnow%millis_fit Hf. unfold record_failure. rewrite Hf, orb_true_r. cbn [negb]. apply runs_seq; [done|]. intros _.
  eapply (runs_bind _ _ _ (λ s' a, s' = s ∧ a = false)); [apply runs_on_cb; intros b Hb; by rewrite Hb|]. intros ? a [-> ->].
  eapply (runs_bind _ _ _ (λ s' a, s' = after_failure permit (Time.as_millis now) s ∧ is_Some a)).
  - apply runs_update. unfold after_failure. pose proof (fits_next_failure permit (Time.as_millis now) s) as Hfit.
    destruct permit as [|e]; [destruct (count_failure policy false (Time.as_millis now) s) as [s'|] eqn:E | destruct (probe_failed e (Time.as_millis now) s) as [s'|] eqn:E];
      [split; [by apply Hfit | by eauto] | by eauto | split; [by apply Hfit | by eauto] | by eauto].
  - intros ? [x|] [-> Hx]; [|by destruct Hx]. destruct x as [[from [?|since|? ? ?]]|]; try by apply runs_ret.
    eapply (runs_bind _ _ _ (λ s' _, s' = _)); [by apply runs_after_open|]. intros ? _ ->. by apply runs_ret.
Qed.

Lemma runs_operation {A} permit (k : prog World A) s post : runs k s post → runs (enter permit ≫= λ _, leave permit ≫= λ _, k) s post.
Proof. intros Hk. destruct permit as [|e]; [done|]. intros w [Hs Hw]. apply Hk. by split. Qed.

Lemma runs_allow_closed fuel now f :
  runs (should_allow policy (S fuel) now) (Closed f) (λ s' a, s' = Closed f ∧ a = Some (Ok Normal)).
Proof. intros w [Hs Hw]. exists (Closed f). unfold should_allow. rewrite alone_bind. simpl. unfold state in Hs. by rewrite Hs. Qed.

Lemma runs_allow_open fuel now since : open_duration policy ≤ saturating_sub (Time.as_millis now) since * 1000000 →
  runs (should_allow policy (S fuel) now) (Open since) (λ s' a, ∃ e, e < 2 ^ 24 ∧ s' = HalfOpen e 1 0 ∧ a = Some (Ok (Probe e))).
Proof.
  intros Hnow w [Hs Hw]. unfold should_allow. rewrite alone_bind. simpl. unfold state in Hs. rewrite Hs.
  destruct (N.leb_spec (open_duration policy) (saturating_sub (Time.as_millis now) since * 1000000)); [|lia].
  set (e := N.land (times_opened (cb w)) 16777215). assert (e < 2 ^ 24) as He by (unfold e; fields; by apply N.mod_upper_bound).
  exists (HalfOpen e 1 0). simpl. rewrite N.eqb_refl. simpl. unfold lean, state.
  assert (from_bits (to_bits (HalfOpen e 1 0)) = HalfOpen e 1 0) as Hb by by apply from_to_bits.
  destruct (on_state_change policy); (split; [by split; [exact Hb|] | by eauto]).
Qed.

Lemma runs_allow_half_open fuel now e p n : e < 2 ^ 24 → p < half_open_max_probes policy → n < 2 ^ 16 →
  runs (should_allow policy (S fuel) now) (HalfOpen e p n) (λ s' a, s' = HalfOpen e (p + 1) n ∧ a = Some (Ok (Probe e))).
Proof.
  intros He Hp Hn w [Hs Hw]. unfold should_allow. rewrite alone_bind. simpl. unfold state in Hs. rewrite Hs.
  destruct (N.ltb_spec p (half_open_max_probes policy)); [|lia]. exists (HalfOpen e (p + 1) n). simpl. rewrite N.eqb_refl. simpl.
  unfold lean, state. destruct Hpol as (_ & _ & Hmax).
  assert (from_bits (to_bits (HalfOpen e (p + 1) n)) = HalfOpen e (p + 1) n) as Hb by (apply from_to_bits; simpl; lia). by split; [split; [exact Hb|]|].
Qed.

Definition failed_op : Op unit unit := OpErr () EmptyString.
Definition good_op : Op unit unit := OpOk ().

(** A failing call on a closed circuit. *)
Lemma runs_failing_call fuel now f : f < failure_threshold policy → now ≤ u64_MAX → failure_predicate policy = AllErrors →
  runs (call policy (S fuel) now failed_op) (Closed f)
    (λ s' a, s' = (if failure_threshold policy <=? f + 1 then Open (Time.as_millis now) else Closed (f + 1)) ∧ a = Some (inl (Err (Inner ())))).
Proof.
  intros Hf Hnow Hall. eapply runs_bind; [apply runs_allow_closed|]. intros ? ? [-> ->]. apply runs_operation. rewrite Hall. simpl.
  eapply runs_bind; [apply runs_record_failure; [done | done | by rewrite Hall]|]. intros ? ? [-> ->]. apply runs_ret. split; [|done].
  unfold after_failure, count_failure. destruct Hpol. rewrite saturating_add_exact, orb_false_r by mlia. by destruct (_ <=? _).
Qed.

(** What a successful call makes of the state it finds. *)
Definition closer (s s' : State) : Prop :=
  match s with
  | Open _ => ∃ e, e < 2 ^ 24 ∧ s' = (if success_threshold policy <=? 1 then Closed 0 else HalfOpen e 0 1)
  | HalfOpen e _ n => s' = (if success_threshold policy <=? n + 1 then Closed 0 else HalfOpen e 0 (n + 1))
  | Closed _ => s' = Closed 0
  end.

Lemma after_probe e n : e < 2 ^ 24 → n < success_threshold policy →
  after_success (Probe e) (HalfOpen e 1 n) = (if success_threshold policy <=? n + 1 then Closed 0 else HalfOpen e 0 (n + 1)).
Proof.
  intros He Hn. destruct Hpol. simpl. rewrite N.eqb_refl, saturating_add_exact by mlia. by destruct (_ <=? _).
Qed.

Lemma runs_good_call fuel now s :
  match s with
  | Open since => open_duration policy ≤ saturating_sub (Time.as_millis now) since * 1000000
  | HalfOpen e p n => e < 2 ^ 24 ∧ p = 0 ∧ n < success_threshold policy
  | Closed f => f < failure_threshold policy
  end →
  runs (call policy (S fuel) now good_op) s (λ s' a, closer s s' ∧ a = Some (inl (Ok ()))).
Proof.
  destruct Hpol as (? & Hsuc & Hmax). destruct s as [f|since|e p n]; intros Hs.
  - eapply runs_bind; [apply runs_allow_closed|]. intros ? ? [-> ->]. apply runs_operation.
    eapply runs_bind; [by apply runs_record_success|]. intros ? ? [-> ->]. by apply runs_ret.
  - eapply runs_bind; [by apply runs_allow_open|]. intros ? ? (e & He & -> & ->). apply runs_operation.
    eapply runs_bind; [apply runs_record_success; simpl; lia|]. intros ? ? [-> ->]. apply runs_ret. split; [|done].
    exists e. split; [done|]. apply (after_probe e 0); [done | lia].
  - destruct Hs as (He & -> & Hn). eapply runs_bind; [apply runs_allow_half_open; lia|]. intros ? ? [-> ->]. apply runs_operation.
    eapply runs_bind; [apply runs_record_success; simpl; lia|]. intros ? ? [-> ->]. apply runs_ret. split; [|done]. by apply after_probe.
Qed.

(** Calls one after the other. *)
Fixpoint run_calls (fuel : nat) (op : Op unit unit) (nows : list Time.t) (w : World) : World :=
  match nows with [] => w | now :: nows => run_calls fuel op nows (alone (call policy fuel now op) w).1 end.

Lemma run_failing fuel nows w f last : lean w (Closed f) → N.of_nat (length nows) + f = failure_threshold policy → 
  f < failure_threshold policy → Forall (λ t, t ≤ u64_MAX) (nows ++ [last]) →
  failure_predicate policy = AllErrors → List.last nows last = last →
  lean (run_calls (S fuel) failed_op nows w) (Open (Time.as_millis last)).
Proof.
  intros Hw Hlen Hf Hall Hpred Hlast. revert w f Hw Hlen Hf Hlast. induction nows as [|now nows IH]; intros w f Hw Hlen Hf Hlast; simpl in *; [lia|].
  apply Forall_cons in Hall as [Hnow Hall].
  destruct (runs_failing_call fuel now f Hf Hnow Hpred w Hw) as (s' & Hl & -> & _). destruct nows as [|now' nows].
  - simpl in *. subst now. destruct (N.leb_spec (failure_threshold policy) (f + 1)); [done | lia].
  - destruct (N.leb_spec (failure_threshold policy) (f + 1)); [simpl in *; lia|]. eapply (IH Hall); [exact Hl|simpl in *; lia|done|done].
Qed.

Lemma run_good fuel nows w e n : lean w (HalfOpen e 0 n) → e < 2 ^ 24 → n < success_threshold policy →
  N.of_nat (length nows) + n = success_threshold policy → lean (run_calls (S fuel) good_op nows w) (Closed 0).
Proof.
  intros Hw He. revert w n Hw. induction nows as [|now nows IH]; intros w n Hw Hn Hlen; simpl in *; [lia|].
  destruct (runs_good_call fuel now (HalfOpen e 0 n) ltac:(simpl; lia) w Hw) as (s' & Hl & Hc & _). simpl in Hc. subst s'.
  destruct (N.leb_spec (success_threshold policy) (n + 1)); [|by apply (IH _ (n + 1)); [|lia..]].
  destruct nows; [done | simpl in *; lia].
Qed.

End sequential.

(** ** Schedules

    An execution given by who starts and who takes steps. *)
Inductive Turn := Start (i : N) (c : Client) | Steps (i : N) (n : nat).

Section schedules.
Context (policy : CircuitBreakerPolicy).

Definition Config : Type := list World * World * gmap N (prog World unit).

Fixpoint steps (i : N) (n : nat) (c : Config) : option Config :=
  match n with
  | O => Some c
  | S n =>
      let '(hist, w, ps) := c in
      match ps !! i with Some (Act f k) => steps i n (w :: hist, f w, <[i := k w]> ps) | _ => None end
  end.

Definition in_time (c : Client) : bool :=
  match c with
  | Caller _ now _ => now <=? u64_MAX
  | Session _ now outcome => (now <=? u64_MAX) && from_option (λ o, o.2 <=? u64_MAX) true outcome
  | Resetter _ => true
  end.

Definition turn (c : Config) (t : Turn) : option Config :=
  match t with
  | Start i cl =>
      let '(hist, w, ps) := c in
      match ps !! i with Some _ => None | None => if in_time cl then Some (hist, w, <[i := client_prog policy cl]> ps) else None end
  | Steps i n => steps i n c
  end.

Fixpoint play (turns : list Turn) (c : Config) : option Config :=
  match turns with [] => Some c | t :: turns => match turn c t with Some c => play turns c | None => None end end.

Definition reached (c : Config) : Prop := let '(hist, w, ps) := c in reach policy hist w ps.

Lemma in_time_spec c : in_time c = true → client_times c.
Proof.
  destruct c as [f now op|f now [[o later]|]|f]; simpl; [apply N.leb_le| | |done].
  - intros [?%N.leb_le ?%N.leb_le]%andb_true_iff. done.
  - intros [?%N.leb_le _]%andb_true_iff. done.
Qed.

Lemma steps_reached i n c c' : reached c → steps i n c = Some c' → reached c'.
Proof.
  revert c. induction n as [|n IH]; intros [[hist w] ps] Hr; simpl; [by intros [=<-]|]. destruct (ps !! i) as [[?|f k]|] eqn:E; try done.
  apply IH. eapply reach_step; [exact Hr|]. by constructor.
Qed.

Lemma play_reached turns c c' : reached c → play turns c = Some c' → reached c'.
Proof.
  revert c. induction turns as [|t turns IH]; intros c Hr; simpl; [by intros [=<-]|]. destruct (turn c t) as [c1|] eqn:E; [|done]. apply IH.
  destruct t as [i cl|i n]; [|by eapply steps_reached]. destruct c as [[hist w] ps]. simpl in E. destruct (ps !! i) eqn:Ei; [done|].
  destruct (in_time cl) eqn:Et; [|done]. simplify_eq. apply reach_start; [done..|]. by apply in_time_spec.
Qed.

Definition start_config : Config := ([], initial policy, ∅).

(** A decision of [fresh_epochs]. *)
Fixpoint fresh (w : World) (hist : list World) : bool :=
  match hist with
  | [] => true
  | w0 :: earlier =>
      fresh w0 earlier &&
      match epoch_of w0, epoch_of w with
      | None, Some e => forallb (λ w1, bool_decide (epoch_of w1 ≠ Some e)) earlier
      | _, _ => true
      end
  end.

Lemma fresh_spec w hist : fresh w hist = true → fresh_epochs w hist.
Proof.
  revert w. induction hist as [|w0 hist IH]; intros w; simpl; [done|]. intros [Hf Hb]%andb_true_iff. split; [by apply IH|].
  intros E e Ee. rewrite E, Ee in Hb. apply Forall_forall. intros w1 Hin. rewrite forallb_forall in Hb.
  specialize (Hb w1 (proj1 (list_elem_of_In _ _) Hin)). by case_bool_decide.
Qed.

End schedules.

(** ** The guarantees *)

Lemma clamp_valid p : failure_threshold p ≤ u32_MAX → valid_policy (clamp_policy p).
Proof.
  intros Hf. unfold valid_policy, clamp_policy, normalize_half_open_max_probes, MIN_HALF_OPEN_PROBES, MAX_HALF_OPEN_PROBES. simpl.
  split; [mlia|]. split; [lia|]. destruct (N.eqb_spec (half_open_max_probes p) 0); [lia|]. destruct (N.ltb_spec 65535 (half_open_max_probes p)); lia.
Qed.

(** In every state that clients of the breaker can reach, under any
    interleaving of their atomic accesses, the state respects the bounds of the
    clamped policy (failures and successes below their thresholds, active probes at
    most the configured maximum) and packing it into the atomic word loses nothing. *)
Theorem breaker_state_bounded p hist w ps : failure_threshold p ≤ u32_MAX → reach (clamp_policy p) hist w ps →
  ok_state (clamp_policy p) (state (cb w)) ∧ from_bits (to_bits (state (cb w))) = state (cb w).
Proof.
  intros Hp%clamp_valid Hr. destruct (reach_ok _ Hp _ _ _ Hr) as [Hok _]. split; [done|]. apply from_to_bits. by eapply ok_fits.
Qed.

(** C25: In every interleaving in which no epoch serves two half-open periods, the
    probes of the current period that run their operation never outnumber the active
    probes of the state, and these never exceed [half_open_max_probes]. *)
Theorem breaker_probe_quota p hist w ps e active successes : failure_threshold p ≤ u32_MAX → reach (clamp_policy p) hist w ps →
  fresh_epochs w hist → state (cb w) = HalfOpen e active successes →
  N.of_nat (occurs e (running w)) ≤ active ∧ active ≤ half_open_max_probes (clamp_policy p).
Proof.
  intros Hp%clamp_valid Hr Hf Hs. destruct (reach_counts _ Hp _ _ _ Hr Hf) as (Hok & tokens & _ & Hn). unfold ok_world in Hok. rewrite Hs in Hok.
  split; [|apply Hok]. rewrite (counts_running _ _ _ _ Hn), <- (counts_active _ _ _ _ Hn e active successes) by done.
  pose proof (inside_le_has e tokens). lia.
Qed.

(** The start of a half-open period with two probes inside. *)
Definition two_probes : CircuitBreakerPolicy := mkPolicy 1 2 1000000 2 AllErrors None false.
Definition failing (at_ : N) : Client := Session 2 at_ (Some (Err EmptyString, at_)).
Definition probing (at_ : N) : Client := Session 2 at_ (Some (Ok (), at_)).
Definition half_open_turns : list Turn :=
  [Start 0 (failing 0); Steps 0 7; Start 1 (probing 2000000); Steps 1 5; Start 2 (failing 2000000); Steps 2 3].

Definition reached_end (turns : list Turn) : Config := default (start_config (clamp_policy two_probes)) (play (clamp_policy two_probes) turns (start_config (clamp_policy two_probes))).

Lemma reached_end_reached turns : reached (clamp_policy two_probes) (reached_end turns).
Proof.
  unfold reached_end. destruct (play _ turns _) as [c|] eqn:E; [|apply reach_new]. eapply play_reached; [|exact E]. apply reach_new.
Qed.

Lemma breaker_state_bounded_witness :
  let '(hist, w, ps) := reached_end half_open_turns in
  state (cb w) = HalfOpen 1 2 0 ∧ ok_state (clamp_policy two_probes) (state (cb w)) ∧ from_bits (to_bits (state (cb w))) = state (cb w).
Proof.
  pose proof (reached_end_reached half_open_turns) as Hr. destruct (reached_end half_open_turns) as [[hist w] ps] eqn:E. split.
  - change w with (hist, w, ps).1.2. rewrite <- E. vm_compute. reflexivity.
  - apply (breaker_state_bounded two_probes hist w ps); [vm_compute; discriminate | exact Hr].
Defined.

Lemma breaker_probe_quota_witness :
  let '(hist, w, ps) := reached_end half_open_turns in occurs 1 (running w) = 2%nat ∧ N.of_nat (occurs 1 (running w)) ≤ 2.
Proof.
  pose proof (reached_end_reached half_open_turns) as Hr. destruct (reached_end half_open_turns) as [[hist w] ps] eqn:E. split.
  - change w with (hist, w, ps).1.2. rewrite <- E. vm_compute. reflexivity.
  - apply (breaker_probe_quota two_probes hist w ps 1 2 0); [vm_compute; discriminate | exact Hr | |].
    + apply fresh_spec. change w with (hist, w, ps).1.2. change hist with (hist, w, ps).1.1. rewrite <- E. vm_compute. reflexivity.
    + change w with (hist, w, ps).1.2. rewrite <- E. vm_compute. reflexivity.
Defined.

(** A client that reopens the circuit counts the opening only after the exchange.
    When [open_duration] passes in between, the next period gets the epoch of the
    last one: a probe of the old period is still running and counts in the new one,
    and three probes of the epoch run where the policy allows two. *)
Lemma late_count_reuses_epoch :
  let '(hist, w, ps) := reached_end (half_open_turns ++ [Steps 2 5; Start 3 (probing 4000000); Steps 3 5; Start 4 (probing 4000000); Steps 4 3]) in
  reach (clamp_policy two_probes) hist w ps ∧ state (cb w) = HalfOpen 1 2 0 ∧ occurs 1 (running w) = 3%nat ∧ half_open_max_probes (clamp_policy two_probes) = 2.
Proof.
  pose proof (reached_end_reached (half_open_turns ++ [Steps 2 5; Start 3 (probing 4000000); Steps 3 5; Start 4 (probing 4000000); Steps 4 3])) as Hr.
  destruct (reached_end _) as [[hist w] ps] eqn:E. split; [exact Hr|].
  change w with (hist, w, ps).1.2. rewrite <- E. vm_compute. auto.
Qed.

(** C40: While the circuit is open, clients that arrive before [open_duration] has
    passed and late results of earlier permits change neither the state nor the
    operations that run, whatever the interleaving; alone, such a call is answered
    with the time that remains. *)
Theorem breaker_open_rejects p w ps c' since fuel now (op : Op unit unit) : state (cb w) = Open since →
  map_Forall (λ _, early p since) ps → rtc pool_step (w, ps) c' →
  saturating_sub (Time.as_millis now) since * 1000000 < open_duration p →
  state (cb c'.1) = Open since ∧ running c'.1 = running w ∧
  (alone (call p (S fuel) now op) c'.1).2 = Some (inl (Err (ErrOpen (open_duration p - (Time.as_millis now - since) * 1000000)))).
Proof.
  intros Hs Hp Hr Hnow. destruct (open_rejects p w ps c' since Hs Hp Hr) as [[Hs' Hrun] _]. split_and!; [done..|].
  unfold call. rewrite alone_bind. unfold should_allow. rewrite alone_bind. simpl. unfold state in Hs'. rewrite Hs'.
  destruct (N.leb_spec (open_duration p) (saturating_sub (Time.as_millis now) since * 1000000)); [lia | done].
Qed.

Lemma breaker_open_rejects_witness :
  let tripped := (reached_end [Start 0 (failing 0); Steps 0 7]).1.2 in
  let ps : gmap N (prog World unit) := {[ 5 := client_prog (clamp_policy two_probes) (probing 500000); 6 := (_ ← record_success (clamp_policy two_probes) 2 (Probe 7) 0; Ret ()) ]} in
  state (cb tripped) = Open 0 ∧ (alone (call (clamp_policy two_probes) 1 500000 good_op) tripped).2 = Some (inl (Err (ErrOpen 1000000))).
Proof.
  intros tripped ps. split; [vm_compute; reflexivity|].
  apply (breaker_open_rejects (clamp_policy two_probes) tripped ps (tripped, ps) 0 0 500000 good_op).
  - vm_compute. reflexivity.
  - apply map_Forall_insert_2; [apply early_session; vm_compute; reflexivity|]. apply map_Forall_singleton. apply late_success.
  - apply rtc_refl.
  - vm_compute. reflexivity.
Defined.

(** Fed with results in the order of their times, the sliding window holds
    exactly those of the last [window_duration], and its two counters are the
    numbers of successes and failures among them. *)
Theorem breaker_window_exact c history e : StronglySorted (λ a b, a.1 ≤ b.1) (history ++ [e]) →
  N.of_nat (length history) < u32_MAX →
  let w := foldl window_add (window_new c) (history ++ [e]) in
  entries w = within (e.1 - window_span c) history ++ [e] ∧
  success_count w = tally false (entries w) ∧ failure_count w = tally true (entries w).
Proof.
  intros Hs Hlen w. destruct (window_fold c history e Hs Hlen) as [Hw _]. unfold w. by rewrite Hw.
Qed.

Lemma breaker_window_exact_witness :
  entries (foldl window_add (window_new (mkWindowConfig 5000000 1 (f64_from 0))) [(1, true); (4, false); (8, true)]) = [(4, false); (8, true)].
Proof.
  apply (breaker_window_exact (mkWindowConfig 5000000 1 (f64_from 0)) [(1, true); (4, false)] (8, true)); [|vm_compute; reflexivity].
  repeat constructor; simpl; lia.
Defined.

(** Without a sliding window, [failure_threshold] failing calls in a row open
    the circuit at the time of the last one, and [success_threshold] successful
    calls after [open_duration] close it again. *)
Theorem breaker_trips_and_recovers p fuel fails last oks : failure_threshold p ≤ u32_MAX → window_config p = None →
  failure_predicate p = AllErrors → Forall (λ t, t ≤ u64_MAX) (fails ++ [last]) → List.last fails last = last →
  let policy := clamp_policy p in
  N.of_nat (length fails) = failure_threshold policy → N.of_nat (length oks) = success_threshold policy →
  Forall (λ now, open_duration p ≤ saturating_sub (Time.as_millis now) (Time.as_millis last) * 1000000) oks →
  let tripped := run_calls policy (S fuel) failed_op fails (initial policy) in
  state (cb tripped) = Open (Time.as_millis last) ∧ state (cb (run_calls policy (S fuel) good_op oks tripped)) = Closed 0.
Proof.
  intros Hf Hwin Hpred Hall Hlast policy Hlen Hoks Hlate tripped. pose proof (clamp_valid p Hf) as Hpol.
  assert (lean tripped (Open (Time.as_millis last))) as Hl.
  { apply (run_failing policy Hpol fuel fails _ 0); [|lia|destruct Hpol; unfold policy in *; lia|done..]. split; [done|]. simpl. by rewrite Hwin. }
  split; [apply Hl|]. destruct oks as [|now oks]; [destruct Hpol as (? & ? & ?); unfold policy in *; simpl in *; lia|].
  apply Forall_cons in Hlate as [Hnow _]. destruct (runs_good_call policy Hpol fuel now (Open (Time.as_millis last)) Hnow _ Hl) as (s' & Hl' & (e & He & ->) & _).
  destruct (N.leb_spec (success_threshold policy) 1) as [H1|H1].
  - destruct oks; [apply Hl' | simpl in *; lia].
  - apply (run_good policy Hpol fuel oks _ e 1); [done..|simpl in *; lia].
Qed.

Lemma breaker_trips_and_recovers_witness :
  let policy := clamp_policy default_policy in
  let tripped := run_calls policy 1 failed_op [1; 2; 3; 4; 5000000] (initial policy) in
  state (cb tripped) = Open 5 ∧ state (cb (run_calls policy 1 good_op [30005000000; 30006000000] tripped)) = Closed 0.
Proof.
  apply (breaker_trips_and_recovers default_policy 0 [1; 2; 3; 4; 5000000] 5000000 [30005000000; 30006000000]); try reflexivity.
  - vm_compute. discriminate.
  - repeat constructor; vm_compute; discriminate.
  - repeat constructor; vm_compute; discriminate.
Defined.

End BreakerThms.
