(* ===== verification/Arena.v ===== *)
(** * The generational arena

    Models [src/util/arena.rs]: the slot vector with its intrusive free list,
    [insert], [insert_with], [remove], [get], [get_mut], [retain] (with the
    recovery its guard performs when the predicate panics), [iter] and
    [drain_values].

    The theorems: the free-list invariant is preserved by every operation, the
    arena refines a finite map from indices to values, and an index that was
    handed out is never handed out again, in particular not after its value
    was removed (generation counters at [u32::MAX] retire their slot). *)

From S2P Require Import Prelude Ids.

Section arena.
Context {T : Type}.

(** ** Data *)

Inductive Slot :=
| Occupied (value : T) (generation : N)
| Vacant (next_free : option N) (generation : N).

Record Arena := mkArena {
  slots : list Slot;
  free_head : option N;
  len : N;
}.

(** ** Operations *)

Definition arena_new : Arena := mkArena [] None 0.

Definition arena_len (a : Arena) : N := len a.

Definition arena_is_empty (a : Arena) : bool := len a =? 0.

(** [self.slots[i] = s] through an index that is known to be in range. *)
Definition set_slot (a : Arena) (i : N) (s : Slot) : list Slot := <[N.to_nat i := s]> (slots a).

Definition insert (a : Arena) (value : T) : exec (Arena * ArenaIndex) :=
  match free_head a with
  | Some free_index =>
      match slots a !! N.to_nat free_index with
      | Some (Vacant next_free generation) =>
          Done (mkArena (set_slot a free_index (Occupied value generation)) next_free
                  (wrapping_add usize_MAX (len a) 1),
                mkArenaIndex free_index generation)
      | Some (Occupied _ _) => Panics
      | None => Panics
      end
  | None =>
      let index := N.of_nat (length (slots a)) in
      if index <=? u32_MAX then
        Done (mkArena (slots a ++ [Occupied value 0]) None (wrapping_add usize_MAX (len a) 1),
              mkArenaIndex index 0)
      else Panics
  end.

Definition insert_with (a : Arena) (f : ArenaIndex → T) : exec (Arena * ArenaIndex) :=
  match free_head a with
  | Some free_index =>
      match slots a !! N.to_nat free_index with
      | Some (Vacant next_free generation) =>
          let idx := mkArenaIndex free_index generation in
          let value := f idx in
          Done (mkArena (set_slot a free_index (Occupied value generation)) next_free
                  (wrapping_add usize_MAX (len a) 1), idx)
      | Some (Occupied _ _) => Panics
      | None => Panics
      end
  | None =>
      let index := N.of_nat (length (slots a)) in
      if index <=? u32_MAX then
        let idx := mkArenaIndex index 0 in
        let value := f idx in
        Done (mkArena (slots a ++ [Occupied value 0]) None (wrapping_add usize_MAX (len a) 1), idx)
      else Panics
  end.

(** The vacant slot left behind by a removal, and the free list head. *)
Definition vacate (a : Arena) (i : N) (cur_gen : N) : Arena :=
  let retire_slot := cur_gen =? u32_MAX in
  let new_gen := wrapping_add u32_MAX cur_gen 1 in
  mkArena (set_slot a i (Vacant (if retire_slot then None else free_head a) new_gen))
    (if retire_slot then free_head a else Some i)
    (wrapping_sub usize_MAX (len a) 1).

Definition remove (a : Arena) (index : ArenaIndex) : Arena * option T :=
  match slots a !! N.to_nat (ai_index index) with
  | Some (Occupied value generation) =>
      if generation =? ai_generation index
      then (vacate a (ai_index index) generation, Some value)
      else (a, None)
  | _ => (a, None)
  end.

Definition get (a : Arena) (index : ArenaIndex) : option T :=
  match slots a !! N.to_nat (ai_index index) with
  | Some (Occupied value generation) =>
      if generation =? ai_generation index then Some value else None
  | _ => None
  end.

Definition contains (a : Arena) (index : ArenaIndex) : bool :=
  match get a index with Some _ => true | None => false end.

(** [get_mut]: the current value, and the arena after the caller has written a
    new value through the returned reference. *)
Definition get_mut (a : Arena) (index : ArenaIndex) : option (T * (T → Arena)) :=
  match slots a !! N.to_nat (ai_index index) with
  | Some (Occupied value generation) =>
      if generation =? ai_generation index
      then Some (value, λ value', mkArena (set_slot a (ai_index index) (Occupied value' generation))
                                    (free_head a) (len a))
      else None
  | _ => None
  end.

Definition iter (a : Arena) : list (ArenaIndex * T) :=
  omap (λ '(i, s), match s with
                   | Occupied value generation => Some (mkArenaIndex (N.of_nat i) generation, value)
                   | Vacant _ _ => None
                   end) (imap pair (slots a)).

(** *** [retain] *)

(** The guard of [retain]: the slots being rewritten, the cursor and the free
    list under construction. *)
Record Guard := mkGuard {
  g_slots : list Slot;
  g_new_len : N;
  g_first_free : option N;
  g_prev_free : option nat;
}.

(** Appends slot [i] to the rebuilt free list. *)
Definition link_free (g : Guard) (i : nat) : Guard :=
  match g_prev_free g with
  | Some prev =>
      match g_slots g !! prev with
      | Some (Vacant _ generation) =>
          mkGuard (<[prev := Vacant (Some (N.of_nat i)) generation]> (g_slots g))
            (g_new_len g) (g_first_free g) (Some i)
      | _ => mkGuard (g_slots g) (g_new_len g) (g_first_free g) (Some i)
      end
  | None => mkGuard (g_slots g) (g_new_len g) (Some (N.of_nat i)) (Some i)
  end.

Definition keep_slot (g : Guard) : Guard :=
  mkGuard (g_slots g) (wrapping_add usize_MAX (g_new_len g) 1) (g_first_free g) (g_prev_free g).

Definition write_slot (g : Guard) (i : nat) (s : Slot) : Guard :=
  mkGuard (<[i := s]> (g_slots g)) (g_new_len g) (g_first_free g) (g_prev_free g).

(** A slot that is vacant, or whose value the predicate rejected. *)
Definition free_slot (g : Guard) (i : nat) : Guard :=
  match g_slots g !! i with
  | Some (Occupied _ cur_gen) =>
      let g' := write_slot g i (Vacant None (wrapping_add u32_MAX cur_gen 1)) in
      if cur_gen =? u32_MAX then g' else link_free g' i
  | Some (Vacant _ generation) =>
      if generation =? 0 then g else link_free (write_slot g i (Vacant None generation)) i
  | None => g
  end.

(** The guard's destructor, from slot [i] on with [n] slots left: occupied
    slots are counted, vacant ones linked. *)
Fixpoint guard_drop (n : nat) (i : nat) (g : Guard) : Guard :=
  match n with
  | O => g
  | S n =>
      match g_slots g !! i with
      | Some (Occupied _ _) => guard_drop n (S i) (keep_slot g)
      | _ => guard_drop n (S i) (free_slot g i)
      end
  end.

(** The predicate may mutate the value and its own captured state, and it may
    panic, which is the answer [None]. *)
Definition Predicate (St : Type) := St → T → St * T * option bool.

(** One pass over the slots.  The flag of the result is [true] if the
    predicate panicked, in which case the guard's destructor has handled the
    current slot (still occupied, counted) and the remaining ones. *)
Fixpoint retain_loop {St} (f : Predicate St) (n : nat) (i : nat) (st : St) (g : Guard)
  : Guard * St * bool :=
  match n with
  | O => (g, st, false)
  | S n =>
      match g_slots g !! i with
      | Some (Occupied value generation) =>
          match f st value with
          | (st', value', Some true) =>
              retain_loop f n (S i) st' (keep_slot (write_slot g i (Occupied value' generation)))
          | (st', value', Some false) =>
              retain_loop f n (S i) st' (free_slot (write_slot g i (Occupied value' generation)) i)
          | (st', value', None) =>
              (guard_drop n (S i) (keep_slot (write_slot g i (Occupied value' generation))), st', true)
          end
      | _ => retain_loop f n (S i) st (free_slot g i)
      end
  end.

Definition retain {St} (f : Predicate St) (st : St) (a : Arena) : Arena * St * bool :=
  let '(g, st', panicked) :=
    retain_loop f (length (slots a)) 0 st (mkGuard (slots a) 0 None None) in
  (mkArena (g_slots g) (g_first_free g) (g_new_len g), st', panicked).

(** *** [drain_values] *)

(** [DrainValues::next] from position [pos], [n] slots left. *)
Fixpoint drain_next (n : nat) (pos : nat) (a : Arena) : Arena * nat * option T :=
  match n with
  | O => (a, pos, None)
  | S n =>
      match slots a !! pos with
      | Some (Occupied value cur_gen) =>
          (vacate a (N.of_nat pos) cur_gen, S pos, Some value)
      | _ => drain_next n (S pos) a
      end
  end.

(** The iterator run to its end: its consumer takes the yielded values, and
    dropping it early exhausts the rest in the same way. *)
Fixpoint drain_loop (fuel : nat) (pos : nat) (a : Arena) : Arena * list T :=
  match fuel with
  | O => (a, [])
  | S fuel =>
      match drain_next (length (slots a) - pos) pos a with
      | (a', pos', Some value) =>
          let '(a'', values) := drain_loop fuel pos' a' in (a'', value :: values)
      | (a', _, None) => (a', [])
      end
  end.

Definition drain_values (a : Arena) : Arena * list T :=
  drain_loop (S (length (slots a))) 0 a.

End arena.

Arguments Slot : clear implicits.
Arguments Arena : clear implicits.
Arguments Guard : clear implicits.
Arguments Predicate : clear implicits.

(** ** The representation invariant *)

Section invariant.
Context {T : Type}.
Implicit Types (a : Arena T) (sl : list (Slot T)) (l : list N).

Definition is_occupied (s : Slot T) : bool :=
  match s with Occupied _ _ => true | Vacant _ _ => false end.

Definition slot_generation (s : Slot T) : N :=
  match s with Occupied _ g => g | Vacant _ g => g end.

(** [chain sl h l]: following [next_free] links from [h] visits the slots [l]
    and ends. *)
Fixpoint chain (sl : list (Slot T)) (h : option N) (l : list N) : Prop :=
  match l with
  | [] => h = None
  | i :: l' => h = Some i ∧
      ∃ next g, sl !! N.to_nat i = Some (Vacant next g) ∧ chain sl next l'
  end.

(** A vacant slot that may be reused; generation 0 marks a retired one. *)
Definition reusable (sl : list (Slot T)) (i : nat) : Prop :=
  ∃ next g, sl !! i = Some (Vacant next g) ∧ g ≠ 0.

Definition free_list (sl : list (Slot T)) (h : option N) (l : list N) : Prop :=
  chain sl h l ∧ NoDup l ∧ ∀ i : nat, N.of_nat i ∈ l ↔ reusable sl i.

Record arena_wf (a : Arena T) : Prop := {
  wf_length : N.of_nat (length (slots a)) ≤ u32_MAX + 1;
  wf_len : len a = N.of_nat (count is_occupied (slots a));
  wf_generation : ∀ i s, slots a !! i = Some s → slot_generation s ≤ u32_MAX;
  wf_free : ∃ l, free_list (slots a) (free_head a) l;
}.

Lemma chain_insert sl h l i s :
  i ∉ l → chain sl h l → chain (<[N.to_nat i := s]> sl) h l.
Proof.
  revert h. induction l as [|j l IH]; intros h Hi Hc; [done|].
  apply not_elem_of_cons in Hi as [Hij Hil]. destruct Hc as (-> & next & g & Hj & Hc).
  split; [done|]. exists next, g. split; [|by apply IH].
  rewrite list_lookup_insert_ne; [done|]. lia.
Qed.

Lemma chain_app sl sl' h l : chain sl h l → chain (sl ++ sl') h l.
Proof.
  revert h. induction l as [|j l IH]; intros h Hc; [done|].
  destruct Hc as (-> & next & g & Hj & Hc).
  split; [done|]. exists next, g. split; [by apply lookup_app_l_Some|by apply IH].
Qed.

Lemma chain_elem sl h l i :
  chain sl h l → i ∈ l → ∃ next g, sl !! N.to_nat i = Some (Vacant next g).
Proof.
  revert h. induction l as [|j l IH]; intros h Hc Hi; [by apply elem_of_nil in Hi|].
  destruct Hc as (-> & next & g & Hj & Hc).
  apply elem_of_cons in Hi as [->|Hi]; eauto.
Qed.

(** Extending the end of a chain: the last slot is redirected to [i]. *)
Lemma chain_snoc sl h l p i g g' :
  chain sl h (l ++ [p]) → NoDup (l ++ [p]) → i ≠ p →
  sl !! N.to_nat i = Some (Vacant None g) →
  sl !! N.to_nat p = Some (Vacant None g') →
  chain (<[N.to_nat p := Vacant (Some i) g']> sl) h (l ++ [p] ++ [i]).
Proof.
  intros Hc Hnd Hip Hi Hp. revert h Hc Hnd. induction l as [|j l IH]; intros h Hc Hnd.
  - simpl in *. destruct Hc as (-> & next & g0 & Hp' & ->). rewrite Hp in Hp'. simplify_eq.
    split; [done|]. eexists _, _. split.
    { rewrite list_lookup_insert_eq; [done|]. by eapply lookup_lt_Some. }
    split; [done|]. eexists _, _. split; [|done].
    rewrite list_lookup_insert_ne by lia. done.
  - destruct Hc as (-> & next & g0 & Hj & Hc). simpl in Hnd. apply NoDup_cons in Hnd as [Hj' Hnd].
    split; [done|]. exists next, g0. split; [|by apply IH].
    rewrite list_lookup_insert_ne; [done|]. intros ?. apply Hj'. apply elem_of_app. right.
    apply list_elem_of_singleton. lia.
Qed.

Lemma chain_last_None sl h l p :
  chain sl h (l ++ [p]) → ∃ g, sl !! N.to_nat p = Some (Vacant None g).
Proof.
  revert h. induction l as [|j l IH]; intros h Hc; simpl in Hc.
  - destruct Hc as (-> & next & g & Hp & ->). eauto.
  - destruct Hc as (-> & next & g & Hp & Hc). eauto.
Qed.

Lemma arena_wf_new : arena_wf (arena_new (T:=T)).
Proof.
  split; simpl; [unfold u32_MAX; lia|done|by intros ??|].
  exists []. split; [done|]. split; [constructor|].
  intros i. split; [by intros ?%elem_of_nil|]. by intros (?&?&?&?).
Qed.

Lemma count_lt_length sl i s :
  sl !! i = Some s → is_occupied s = false → (count is_occupied sl < length sl)%nat.
Proof.
  revert i. induction sl as [|x sl IH]; intros [|i] H Hs; simplify_eq/=; rewrite count_cons.
  - rewrite Hs. pose proof (count_le_length is_occupied sl). lia.
  - apply (IH i) in H; [|done]. destruct (is_occupied x); lia.
Qed.

(** Writing a slot that is outside the free list and stays outside. *)
Lemma free_list_write sl h l i s' :
  free_list sl h l → ¬ reusable sl i → (∀ n g, s' = Vacant n g → g = 0) →
  free_list (<[i := s']> sl) h l.
Proof.
  intros (Hc & Hnd & Hall) Hi Hs'. split_and!; [|done|].
  - rewrite <-(Nat2N.id i). apply chain_insert; [|done]. by rewrite Hall.
  - intros j. rewrite Hall. destruct (decide (i = j)) as [->|Hij].
    + split; [done|]. intros (n & g & Hs & Hg). exfalso.
      apply list_lookup_insert_Some in Hs as [(_ & Hs & _)|[? _]]; [|done]. by eapply Hg, Hs'.
    + unfold reusable. by rewrite list_lookup_insert_ne.
Qed.

(** A removal pushes its slot on the free list. *)
Lemma free_list_push sl h l i v g g' :
  free_list sl h l → sl !! N.to_nat i = Some (Occupied v g) → g' ≠ 0 →
  free_list (<[N.to_nat i := Vacant h g']> sl) (Some i) (i :: l).
Proof.
  intros (Hc & Hnd & Hall) Hi Hg.
  assert (Hil : i ∉ l).
  { intros (n0 & g0 & Hs)%(chain_elem sl h l i Hc). congruence. }
  assert (Hlt : (N.to_nat i < length sl)%nat) by (by eapply lookup_lt_Some).
  split_and!.
  - split; [done|]. exists h, g'. rewrite list_lookup_insert_eq by done.
    split; [done|by apply chain_insert].
  - by constructor.
  - intros j. rewrite elem_of_cons. unfold reusable.
    destruct (decide (N.to_nat i = j)) as [<-|Hij].
    + rewrite list_lookup_insert_eq by done. split; [eauto|]. left. lia.
    + rewrite list_lookup_insert_ne by done. fold (reusable sl j). rewrite <-Hall.
      split; [intros [?|?]; [lia|done]|auto].
Qed.

(** The slot an insertion uses: the head of the free list leaves it. *)
Lemma free_list_pop sl i l v n g :
  free_list sl (Some i) (i :: l) → sl !! N.to_nat i = Some (Vacant n g) →
  free_list (<[N.to_nat i := Occupied v g]> sl) n l.
Proof.
  intros (Hc & Hnd & Hall) Hi. apply NoDup_cons in Hnd as [Hil Hnd].
  destruct Hc as (_ & n' & g' & Hi' & Hc). rewrite Hi in Hi'. simplify_eq.
  split_and!; [by apply chain_insert|done|].
  intros j. destruct (decide (N.to_nat i = j)) as [<-|Hij].
  - unfold reusable. rewrite N2Nat.id, list_lookup_insert_eq by (by eapply lookup_lt_Some).
    split; [done|]. by intros (?&?&?&?).
  - unfold reusable. rewrite list_lookup_insert_ne by done.
    fold (reusable sl j). rewrite <-Hall, elem_of_cons. split; [auto|].
    intros [?|?]; [lia|done].
Qed.

Lemma free_list_push_slot sl h l v g :
  free_list sl h l → free_list (sl ++ [Occupied v g]) h l.
Proof.
  intros (Hc & Hnd & Hall). split_and!; [by apply chain_app|done|].
  intros j. rewrite Hall. unfold reusable. destruct (decide (j < length sl)%nat).
  - by rewrite lookup_app_l.
  - rewrite lookup_ge_None_2 by lia. split; [by intros (?&?&?&?)|].
    intros (n0 & g' & Hs & Hg). apply lookup_app_Some in Hs as [Hs|[? Hs]].
    + apply lookup_lt_Some in Hs. lia.
    + destruct (j - length sl)%nat; [done|]. by destruct n.
Qed.

End invariant.

(** ** Generations only move forward *)

Section evolution.
Context {T : Type}.
Implicit Types (a : Arena T) (s : Slot T).

(** Generation [g] of the slot is over: the slot has moved past it, or the slot
    is retired. *)
Definition spent_in (s : Slot T) (g : N) : Prop :=
  match s with Occupied _ g' => g < g' | Vacant _ g' => g' = 0 ∨ g < g' end.

(** Generation [g] of the slot holds a value. *)
Definition live_in (s : Slot T) (g : N) : Prop :=
  match s with Occupied _ g' => g = g' | Vacant _ _ => False end.

Definition slot_le (s s' : Slot T) : Prop :=
  ∀ g, (spent_in s g → spent_in s' g) ∧ (live_in s g → live_in s' g ∨ spent_in s' g).

#[global] Instance slot_le_preorder : PreOrder slot_le.
Proof.
  split; [intros s g; tauto|]. intros s1 s2 s3 H1 H2 g.
  destruct (H1 g), (H2 g). tauto.
Qed.

(** Slots evolve in place and the vector never shrinks. *)
Definition slots_le (sl sl' : list (Slot T)) : Prop :=
  ∀ i s, sl !! i = Some s → ∃ s', sl' !! i = Some s' ∧ slot_le s s'.

#[global] Instance slots_le_preorder : PreOrder slots_le.
Proof.
  split; [intros sl i s H; by exists s|]. intros sl1 sl2 sl3 H12 H23 i s H.
  destruct (H12 _ _ H) as (s2 & H2 & L12). destruct (H23 _ _ H2) as (s3 & H3 & L23).
  exists s3. split; [done|by etrans].
Qed.

Lemma slots_le_insert sl i s s' :
  sl !! i = Some s → slot_le s s' → slots_le sl (<[i := s']> sl).
Proof.
  intros Hi Hle j t Hj. destruct (decide (i = j)) as [->|Hij].
  - rewrite Hi in Hj. simplify_eq. exists s'. split; [|done].
    apply list_lookup_insert_eq. by eapply lookup_lt_Some.
  - exists t. split; [by rewrite list_lookup_insert_ne|done].
Qed.

Lemma slots_le_length sl sl' : slots_le sl sl' → (length sl ≤ length sl')%nat.
Proof.
  intros H. destruct (Nat.le_gt_cases (length sl) (length sl')) as [|Hgt]; [done|].
  destruct (lookup_lt_is_Some_2 sl (length sl') Hgt) as [s Hs].
  destruct (H _ _ Hs) as (s' & Hs'%lookup_lt_Some & _). lia.
Qed.

Lemma slots_le_app sl sl' : slots_le sl (sl ++ sl').
Proof. intros i s H. exists s. split; [by apply lookup_app_l_Some|done]. Qed.


Lemma slot_le_vacate v g n : g ≤ u32_MAX →
  slot_le (Occupied v g) (Vacant n (wrapping_add u32_MAX g 1)).
Proof.
  intros Hle g0. unfold spent_in, live_in.
  destruct (N.lt_ge_cases g u32_MAX) as [Hg|Hg].
  - rewrite wrapping_add_1 by done. split; [|intros ->]; right; [lia|right; lia].
  - replace g with u32_MAX by lia. rewrite wrapping_add_1_max. tauto.
Qed.

Lemma slot_le_fill n g v : g ≠ 0 → slot_le (Vacant n g) (Occupied v g).
Proof. intros Hg g0. unfold spent_in, live_in. split; [intros [?|?]; done|done]. Qed.

Lemma slot_le_relink n n' g : slot_le (Vacant n g) (Vacant n' g).
Proof. intros g0. unfold spent_in, live_in. tauto. Qed.

Lemma slot_le_update v v' g : slot_le (Occupied v g) (Occupied v' g).
Proof. intros g0. unfold spent_in, live_in. tauto. Qed.

Definition live (a : Arena T) (idx : ArenaIndex) : Prop :=
  ∃ s, slots a !! N.to_nat (ai_index idx) = Some s ∧ live_in s (ai_generation idx).

Definition spent (a : Arena T) (idx : ArenaIndex) : Prop :=
  ∃ s, slots a !! N.to_nat (ai_index idx) = Some s ∧ spent_in s (ai_generation idx).

Lemma live_get a idx : live a idx ↔ is_Some (get a idx).
Proof.
  unfold live, get, live_in. split.
  - intros ([v g|n g] & -> & H); [|done]. rewrite H, N.eqb_refl. eauto.
  - intros [v Hv]. crush. eexists. split; [done|]. simpl. by N_bools.
Qed.

Lemma spent_get a idx : spent a idx → get a idx = None.
Proof.
  unfold spent, get, spent_in. intros ([v g|n g] & -> & H); [|done].
  destruct (N.eqb_spec g (ai_generation idx)); [lia|done].
Qed.

Lemma spent_mono a a' idx : slots_le (slots a) (slots a') → spent a idx → spent a' idx.
Proof.
  intros Hle (s & Hs & Hg). destruct (Hle _ _ Hs) as (s' & Hs' & L).
  exists s'. split; [done|]. by apply L.
Qed.

Lemma known_mono a a' idx : slots_le (slots a) (slots a') →
  live a idx ∨ spent a idx → live a' idx ∨ spent a' idx.
Proof.
  intros Hle [(s & Hs & Hg)|H]; [|right; by eapply spent_mono].
  destruct (Hle _ _ Hs) as (s' & Hs' & L). destruct (L (ai_generation idx)) as [_ L'].
  destruct (L' Hg); [left|right]; by exists s'.
Qed.

End evolution.

(** ** Operation specifications *)

Section operations.
Context {T : Type}.
Implicit Types (a : Arena T) (f : ArenaIndex → T).

Lemma insert_insert_with a v : insert a v = insert_with a (λ _, v).
Proof. done. Qed.

(** No slot left: the free list is empty and the next slot number would not fit
    in [u32]. *)
Definition arena_full (a : Arena T) : Prop :=
  free_head a = None ∧ N.of_nat (length (slots a)) = u32_MAX + 1.

Lemma wf_free_head_inv a i :
  arena_wf a → free_head a = Some i →
  ∃ n g l, slots a !! N.to_nat i = Some (Vacant n g) ∧ g ≠ 0 ∧
    free_list (slots a) (Some i) (i :: l).
Proof.
  intros Hwf Hh. destruct (wf_free a Hwf) as (l & Hl). rewrite Hh in Hl.
  destruct l as [|j l]; [by destruct Hl|].
  destruct (Hl) as ((? & n & g & Hj & _) & _ & Hall). simplify_eq.
  exists n, g, l. split_and!; [done| |done].
  destruct (proj1 (Hall (N.to_nat j))) as (n' & g' & Hs & Hg).
  - rewrite N2Nat.id. by left.
  - congruence.
Qed.

(** What an insertion does to a well-formed arena. *)
Record insert_post (a : Arena T) (f : ArenaIndex → T) (a' : Arena T) (idx : ArenaIndex) : Prop := {
  ip_wf : arena_wf a';
  ip_le : slots_le (slots a) (slots a');
  ip_new : ¬ live a idx ∧ ¬ spent a idx;
  ip_get : ∀ j, get a' j = if decide (j = idx) then Some (f idx) else get a j;
  ip_len : len a' = len a + 1;
}.

Lemma insert_with_reuse a f i n g l :
  arena_wf a → slots a !! N.to_nat i = Some (Vacant n g) → g ≠ 0 →
  free_list (slots a) (Some i) (i :: l) →
  let idx := mkArenaIndex i g in
  insert_post a f
    (mkArena (set_slot a i (Occupied (f idx) g)) n (wrapping_add usize_MAX (len a) 1)) idx.
Proof.
  intros [Hlen Hcnt Hgen _] Hi Hg Hl idx.
  pose proof (count_lt_length _ _ _ Hi eq_refl) as Hlt.
  pose proof (count_insert is_occupied (slots a) _ _ (Occupied (f idx) g) Hi) as Hci. simpl in Hci.
  assert (Hadd : wrapping_add usize_MAX (len a) 1 = len a + 1).
  { apply wrapping_add_1. rewrite Hcnt. mlia. }
  split.
  - split; unfold set_slot; simpl.
    + by rewrite length_insert.
    + rewrite Hadd. lia.
    + intros j s Hj. apply list_lookup_insert_Some in Hj as [(<- & <- & _)|[_ Hj]]; [|by eapply Hgen].
      apply (Hgen _ _ Hi).
    + exists l. by eapply free_list_pop.
  - eapply slots_le_insert; [done|by apply slot_le_fill].
  - unfold live, spent. simpl. rewrite Hi. split.
    + by intros (s & [= <-] & Hs).
    + intros (s & [= <-] & Hs). simpl in Hs. lia.
  - intros [ji jg]. unfold get, set_slot, idx; simpl.
    destruct (decide (i = ji)) as [<-|Hne].
    + rewrite list_lookup_insert_eq by (by eapply lookup_lt_Some).
      rewrite Hi. case_decide as Hd; [injection Hd as ->; by rewrite N.eqb_refl|].
      destruct (N.eqb_spec g jg); [congruence|done].
    + rewrite list_lookup_insert_ne by lia. case_decide; [congruence|done].
  - done.
Qed.

Lemma insert_with_push a f :
  arena_wf a → free_head a = None → N.of_nat (length (slots a)) ≤ u32_MAX →
  let idx := mkArenaIndex (N.of_nat (length (slots a))) 0 in
  insert_post a f
    (mkArena (slots a ++ [Occupied (f idx) 0]) None (wrapping_add usize_MAX (len a) 1)) idx.
Proof.
  intros [Hlen Hcnt Hgen Hfree] Hh Hlt idx.
  pose proof (count_le_length is_occupied (slots a)) as Hle.
  assert (Hadd : wrapping_add usize_MAX (len a) 1 = len a + 1).
  { apply wrapping_add_1. rewrite Hcnt. mlia. }
  split.
  - split; simpl.
    + rewrite length_app. simpl. lia.
    + rewrite Hadd, count_app, Hcnt. cbn. lia.
    + intros j s Hj. apply lookup_app_Some in Hj as [Hj|[_ Hj]]; [by eapply Hgen|].
      apply list_lookup_singleton_Some in Hj as [_ <-]. simpl. mlia.
    + destruct Hfree as (l & Hl). rewrite Hh in Hl. exists l. by apply free_list_push_slot.
  - apply slots_le_app.
  - unfold live, spent. simpl. rewrite Nat2N.id, lookup_ge_None_2 by lia.
    split; by intros (s & ? & _).
  - intros [ji jg]. unfold get, idx; simpl.
    destruct (decide (N.of_nat (length (slots a)) = ji)) as [<-|Hne].
    + rewrite Nat2N.id, lookup_app_r, Nat.sub_diag by lia. simpl.
      rewrite (lookup_ge_None_2 (slots a)) by lia.
      by destruct jg; case_decide; simplify_eq.
    + rewrite (decide_False (P := _ = _)) by congruence.
      destruct (decide (N.to_nat ji < length (slots a))%nat).
      * by rewrite lookup_app_l.
      * rewrite (lookup_ge_None_2 (slots a)), lookup_ge_None_2; [done| |lia].
        rewrite length_app. simpl. lia.
  - done.
Qed.

Lemma insert_with_spec a f : arena_wf a →
  match insert_with a f with
  | Done (a', idx) => insert_post a f a' idx
  | Panics => arena_full a
  end.
Proof.
  intros Hwf. unfold insert_with. destruct (free_head a) as [i|] eqn:Hh.
  - destruct (wf_free_head_inv a i Hwf Hh) as (n & g & l & Hi & Hg & Hl). rewrite Hi.
    by eapply insert_with_reuse.
  - destruct (N.leb_spec (N.of_nat (length (slots a))) u32_MAX).
    + by apply insert_with_push.
    + split; [done|]. pose proof (wf_length a Hwf). lia.
Qed.

End operations.

Section removal.
Context {T : Type}.
Implicit Types (a : Arena T).

(** What a removal does to a well-formed arena. *)
Record remove_post (a : Arena T) (idx : ArenaIndex) (a' : Arena T) : Prop := {
  rp_wf : arena_wf a';
  rp_le : slots_le (slots a) (slots a');
  rp_spent : spent a' idx;
  rp_get : ∀ j, get a' j = if decide (j = idx) then None else get a j;
  rp_len : len a' + 1 = len a;
  rp_length : length (slots a') = length (slots a);
}.

Lemma vacate_free_list a i v g :
  arena_wf a → slots a !! N.to_nat i = Some (Occupied v g) →
  ∃ l, free_list (slots (vacate a i g)) (free_head (vacate a i g)) l.
Proof.
  intros [_ _ Hgen (l & Hl)] Hi. unfold vacate, set_slot; simpl.
  pose proof (Hgen _ _ Hi) as Hg. simpl in Hg.
  destruct (N.eqb_spec g u32_MAX) as [->|Hne].
  - exists l. rewrite wrapping_add_1_max. apply free_list_write; [done| |by intros ?? [= _ <-]].
    intros (n & g & Hs & _). congruence.
  - exists (i :: l). eapply free_list_push; [done|done|].
    rewrite wrapping_add_1 by lia. lia.
Qed.

Lemma vacate_post a i v g :
  arena_wf a → slots a !! N.to_nat i = Some (Occupied v g) →
  remove_post a (mkArenaIndex i g) (vacate a i g).
Proof.
  intros Hwf Hi. pose proof Hwf as [Hlen Hcnt Hgen _].
  pose proof (Hgen _ _ Hi) as Hg. simpl in Hg.
  assert (Hlt : (N.to_nat i < length (slots a))%nat) by (by eapply lookup_lt_Some).
  pose proof (count_insert is_occupied _ _ _
    (Vacant (if g =? u32_MAX then None else free_head a) (wrapping_add u32_MAX g 1)) Hi) as Hci.
  simpl in Hci. pose proof (count_le_length is_occupied (slots a)) as Hle.
  assert (Hsub : wrapping_sub usize_MAX (len a) 1 = len a - 1).
  { apply wrapping_sub_small; rewrite Hcnt; mlia. }
  split.
  - split; [by unfold vacate, set_slot; simpl; rewrite length_insert| | |by eapply vacate_free_list].
    + unfold vacate, set_slot; simpl. rewrite Hsub. lia.
    + unfold vacate, set_slot; simpl. intros j s Hj.
      apply list_lookup_insert_Some in Hj as [(_ & <- & _)|[_ Hj]]; [|by eapply Hgen].
      simpl. unfold wrapping_add. pose proof (N.mod_lt (g + 1) (u32_MAX + 1)). lia.
  - eapply slots_le_insert; [done|by apply slot_le_vacate].
  - eexists. simpl. unfold set_slot. split; [by apply list_lookup_insert_eq|].
    by destruct (slot_le_vacate v g (if g =? u32_MAX then None else free_head a) Hg g)
      as [_ [[]|?]].
  - intros [ji jg]. unfold get, vacate, set_slot; simpl.
    destruct (decide (i = ji)) as [<-|Hne].
    + rewrite list_lookup_insert_eq, Hi by done. case_decide as Hd; [done|].
      destruct (N.eqb_spec g jg); congruence.
    + rewrite list_lookup_insert_ne by lia. case_decide; congruence.
  - unfold vacate; simpl. rewrite Hsub. lia.
  - unfold vacate, set_slot; simpl. by rewrite length_insert.
Qed.

Lemma remove_spec a idx : arena_wf a →
  match remove a idx with
  | (a', Some v) => get a idx = Some v ∧ remove_post a idx a'
  | (a', None) => get a idx = None ∧ a' = a
  end.
Proof.
  intros Hwf. unfold remove, get. destruct idx as [i gi]; simpl.
  destruct (slots a !! N.to_nat i) as [[v g|n g]|] eqn:Hi; [|done..].
  destruct (N.eqb_spec g gi) as [->|?]; [|done].
  split; [done|by eapply vacate_post].
Qed.

(** Writing through [get_mut]. *)
Lemma get_mut_spec a idx : arena_wf a →
  match get_mut a idx with
  | Some (v, put) => get a idx = Some v ∧ ∀ v',
      arena_wf (put v') ∧ slots_le (slots a) (slots (put v')) ∧ len (put v') = len a ∧
      ∀ j, get (put v') j = if decide (j = idx) then Some v' else get a j
  | None => get a idx = None
  end.
Proof.
  intros [Hlen Hcnt Hgen (l & Hl)]. unfold get_mut. destruct idx as [i gi]; simpl.
  destruct (slots a !! N.to_nat i) as [[v g|n g]|] eqn:Hi; [|unfold get; simpl; by rewrite Hi..].
  destruct (N.eqb_spec g gi) as [->|?]; unfold get at 1; simpl; rewrite Hi;
    [|by apply N.eqb_neq in n as ->].
  rewrite N.eqb_refl. split; [done|]. intros v'.
  assert (Hlt : (N.to_nat i < length (slots a))%nat) by (by eapply lookup_lt_Some).
  unfold set_slot. split_and!; [split; simpl| |done|].
  - by rewrite length_insert.
  - pose proof (count_insert is_occupied _ _ _ (Occupied v' gi) Hi) as Hci. simpl in Hci. lia.
  - intros j s [(_ & <- & _)|[_ Hj]]%list_lookup_insert_Some; [|by eapply Hgen].
    apply (Hgen _ _ Hi).
  - exists l. apply free_list_write; [done| |done]. intros (n & g & Hs & _). congruence.
  - eapply slots_le_insert; [done|apply slot_le_update].
  - intros [ji jg]. unfold get; simpl. destruct (decide (i = ji)) as [<-|Hne].
    + rewrite list_lookup_insert_eq, Hi by done.
      destruct (N.eqb_spec gi jg) as [->|?]; case_decide; congruence.
    + rewrite list_lookup_insert_ne by lia. case_decide; congruence.
Qed.

End removal.

(** ** [retain] *)

Section retain_spec.
Context {T : Type}.
Implicit Types (a : Arena T) (sl : list (Slot T)) (g : Guard T).

(** The occupied entries of a slot vector whose first slot has number [k]. *)
Fixpoint occ_from (k : nat) (sl : list (Slot T)) : list (ArenaIndex * T) :=
  match sl with
  | [] => []
  | Occupied v g :: sl => (mkArenaIndex (N.of_nat k) g, v) :: occ_from (S k) sl
  | Vacant _ _ :: sl => occ_from (S k) sl
  end.

Lemma iter_occ a : iter a = occ_from 0 (slots a).
Proof.
  unfold iter. destruct a as [sl h n]; simpl. clear h n.
  assert (∀ k, omap (λ '(i, s), match s with
      | Occupied value generation => Some (mkArenaIndex (N.of_nat i) generation, value)
      | Vacant _ _ => None end) (imap (λ i, pair (k + i)%nat) sl) = occ_from k sl) as H.
  { induction sl as [|s sl IH]; intros k; [done|]. rewrite imap_cons, Nat.add_0_r.
    rewrite (imap_ext _ (λ i, pair (S k + i)%nat) sl)
      by (intros; unfold compose; simpl; f_equal; lia).
    destruct s; simpl; by rewrite <-(IH (S k)). }
  apply (H 0%nat).
Qed.

Lemma occ_from_app k sl1 sl2 :
  occ_from k (sl1 ++ sl2) = occ_from k sl1 ++ occ_from (k + length sl1) sl2.
Proof.
  revert k. induction sl1 as [|[v g|n g] sl1 IH]; intros k; simpl.
  - by rewrite Nat.add_0_r.
  - rewrite IH. simpl. by replace (k + S (length sl1))%nat with (S k + length sl1)%nat by lia.
  - rewrite IH. by replace (k + S (length sl1))%nat with (S k + length sl1)%nat by lia.
Qed.

Lemma occ_from_relink k sl i n n' (gn gn' : N) :
  sl !! i = Some (Vacant n gn) → occ_from k (<[i := Vacant n' gn']> sl) = occ_from k sl.
Proof.
  revert k i. induction sl as [|s sl IH]; intros k [|i] Hi; simplify_eq/=; [done|].
  destruct s; [f_equal|]; by apply IH.
Qed.

(** The predicate run over the entries in order, keeping accepted ones with
    their rewritten values; a panic keeps the current entry and the rest. *)
Fixpoint retain_entries {St} (f : Predicate T St) (st : St) (l : list (ArenaIndex * T))
  : list (ArenaIndex * T) * St * bool :=
  match l with
  | [] => ([], st, false)
  | (idx, v) :: l' =>
      match f st v with
      | (st', v', Some true) =>
          let '(r, st'', p) := retain_entries f st' l' in ((idx, v') :: r, st'', p)
      | (st', v', Some false) => retain_entries f st' l'
      | (st', v', None) => ((idx, v') :: l', st', true)
      end
  end.

(** Invariant of the pass, the first [i] slots done. *)
Record guard_inv (g : Guard T) (i : nat) : Prop := {
  gi_bound : N.of_nat (length (g_slots g)) ≤ u32_MAX + 1;
  gi_len : g_new_len g = N.of_nat (count is_occupied (take i (g_slots g)));
  gi_generation : ∀ j s, g_slots g !! j = Some s → slot_generation s ≤ u32_MAX;
  gi_free : ∃ l, chain (g_slots g) (g_first_free g) l ∧ NoDup l ∧
    (∀ j : nat, N.of_nat j ∈ l ↔ (j < i)%nat ∧ reusable (g_slots g) j) ∧
    g_prev_free g = N.to_nat <$> last l;
}.

(** Effect of handling slot [i], which contributes the entries [e]. *)
Record slot_done (g g' : Guard T) (i : nat) (e : list (ArenaIndex * T)) : Prop := {
  sd_inv : guard_inv g' (S i);
  sd_le : slots_le (g_slots g) (g_slots g');
  sd_length : length (g_slots g') = length (g_slots g);
  sd_rest : drop (S i) (g_slots g') = drop (S i) (g_slots g);
  sd_occ : occ_from 0 (take (S i) (g_slots g')) = occ_from 0 (take i (g_slots g)) ++ e;
}.

Lemma write_slot_inv g i s :
  guard_inv g i → slot_generation s ≤ u32_MAX → guard_inv (write_slot g i s) i.
Proof.
  intros [Hb Hlen Hgen (l & Hc & Hnd & Hall & Hp)] Hs. split; simpl.
  - by rewrite length_insert.
  - by rewrite take_insert_ge by lia.
  - intros j s' [(_ & <- & _)|[_ Hj]]%list_lookup_insert_Some; [done|by eapply Hgen].
  - exists l. split_and!; [|done| |done].
    + rewrite <-(Nat2N.id i). apply chain_insert; [|done]. rewrite Hall. lia.
    + intros j. rewrite Hall. split; intros [Hj Hr]; (split; [done|]);
        unfold reusable in *; rewrite list_lookup_insert_ne in *; by try lia.
Qed.

(** A slot that does not join the free list only moves the cursor. *)
Lemma advance_inv g g' i s :
  guard_inv g i → g_slots g !! i = Some s →
  (∀ n gn, s = Vacant n gn → gn = 0) →
  g' = (if is_occupied s then keep_slot g else g) → guard_inv g' (S i).
Proof.
  intros [Hb Hlen Hgen (l & Hc & Hnd & Hall & Hp)] Hi Hs ->.
  assert (Hlt : (i < length (g_slots g))%nat) by (by eapply lookup_lt_Some).
  assert (Hcnt : count is_occupied (take (S i) (g_slots g)) =
    (count is_occupied (take i (g_slots g)) + if is_occupied s then 1 else 0)%nat).
  { rewrite (take_S_r _ _ _ Hi), count_app, count_cons. unfold count. simpl. lia. }
  pose proof (count_le_length is_occupied (take i (g_slots g))) as Hle.
  rewrite length_take in Hle.
  assert (Hfree : ∃ l, chain (g_slots g) (g_first_free g) l ∧ NoDup l ∧
    (∀ j : nat, N.of_nat j ∈ l ↔ (j < S i)%nat ∧ reusable (g_slots g) j) ∧
    g_prev_free g = N.to_nat <$> last l).
  { exists l. split_and!; [done..| |done]. intros j. rewrite Hall.
    split; intros [Hj Hr]; (split; [|done]); [lia|].
    destruct (decide (j = i)) as [->|]; [|lia].
    destruct Hr as (n & gn & Hs' & Hgn). destruct Hgn. apply (Hs n). congruence. }
  destruct (is_occupied s); split; simpl; try done.
  - rewrite Hlen, Hcnt, wrapping_add_1; mlia.
  - rewrite Hlen, Hcnt. lia.
Qed.

Lemma link_free_slots g i n gn :
  guard_inv g i → g_slots g !! i = Some (Vacant n gn) →
  g_slots (link_free g i) = g_slots g ∨
  ∃ p np gp, (p < i)%nat ∧ g_slots g !! p = Some (Vacant np gp) ∧
    g_slots (link_free g i) = <[p := Vacant (Some (N.of_nat i)) gp]> (g_slots g).
Proof.
  intros [_ _ _ (l & Hc & Hnd & Hall & Hp)] Hi. unfold link_free.
  destruct (g_prev_free g) as [p|] eqn:Hpf; [|by left].
  destruct (g_slots g !! p) as [[|np gp]|] eqn:Hs; [by left| |by left].
  right. exists p, np, gp. split_and!; [|done|done].
  destruct (last l) as [q|] eqn:Hlast; [|done]. simpl in Hp. injection Hp as ->.
  apply last_Some_elem_of in Hlast. rewrite <-(N2Nat.id q) in Hlast.
  by apply Hall in Hlast as [? _].
Qed.

Lemma reusable_relink sl p np np' gp j :
  sl !! p = Some (Vacant np gp) →
  reusable (<[p := Vacant np' gp]> sl) j ↔ reusable sl j.
Proof.
  intros Hp. unfold reusable. destruct (decide (p = j)) as [<-|Hne].
  - rewrite list_lookup_insert_eq by (by eapply lookup_lt_Some). rewrite Hp.
    split; intros (? & ? & [= <- <-] & ?); eauto.
  - by rewrite list_lookup_insert_ne.
Qed.

Lemma link_free_free g i gn :
  guard_inv g i → g_slots g !! i = Some (Vacant None gn) → gn ≠ 0 →
  ∃ l, chain (g_slots (link_free g i)) (g_first_free (link_free g i)) l ∧ NoDup l ∧
    (∀ j : nat, N.of_nat j ∈ l ↔ (j < S i)%nat ∧ reusable (g_slots (link_free g i)) j) ∧
    g_prev_free (link_free g i) = N.to_nat <$> last l.
Proof.
  intros [_ _ _ (l & Hc & Hnd & Hall & Hp)] Hi Hgn. unfold link_free.
  assert (Hil : N.of_nat i ∉ l) by (rewrite Hall; lia).
  assert (Hr : reusable (g_slots g) i) by (exists None, gn; done).
  destruct l as [|q l'] using rev_ind; [|clear IHl'].
  - simpl in *. rewrite Hp. exists [N.of_nat i]. simpl.
    refine (conj _ (conj (NoDup_singleton _) (conj _ _))); [| |by rewrite Nat2N.id].
    + split; [done|]. exists None, gn. by rewrite Nat2N.id.
    + intros j. rewrite list_elem_of_singleton. specialize (Hall j). rewrite elem_of_nil in Hall.
      split; [intros ?; replace j with i by lia; split; [lia|done]|].
      intros [Hj Hrj]. destruct (decide (j = i)) as [->|]; [done|].
      exfalso. apply Hall. split; [lia|done].
  - rewrite last_snoc in Hp. rewrite Hp. simpl.
    destruct (chain_last_None _ _ _ _ Hc) as (gq & Hq). rewrite Hq.
    exists (l' ++ [q] ++ [N.of_nat i]). simpl.
    split_and!.
    + apply (chain_snoc _ _ l' q (N.of_nat i) gn); try done; [|by rewrite Nat2N.id].
      intros <-. apply Hil. apply elem_of_app. right. by apply list_elem_of_singleton.
    + change (l' ++ [q; N.of_nat i]) with (l' ++ [q] ++ [N.of_nat i]). rewrite app_assoc.
      apply NoDup_app. split_and!; [done| |apply NoDup_singleton].
      by intros x Hx ->%list_elem_of_singleton.
    + intros j. change (l' ++ [q; N.of_nat i]) with (l' ++ [q] ++ [N.of_nat i]).
      rewrite app_assoc, elem_of_app, Hall, list_elem_of_singleton, (reusable_relink _ _ _ _ _ _ Hq).
      split; [intros [[Hj Hrj]|Hj]|intros [Hj Hrj]].
      * split; [lia|done].
      * replace j with i by lia. split; [lia|done].
      * destruct (decide (j = i)) as [->|]; [by right|left; split; [lia|done]].
    + rewrite last_app. simpl. by rewrite Nat2N.id.
Qed.

Lemma slots_le_relink sl p np np' gp :
  sl !! p = Some (Vacant np gp) → slots_le sl (<[p := Vacant np' gp]> sl).
Proof. intros H. eapply slots_le_insert; [done|apply slot_le_relink]. Qed.

Lemma link_free_done g i gn :
  guard_inv g i → g_slots g !! i = Some (Vacant None gn) → gn ≠ 0 →
  slot_done g (link_free g i) i [].
Proof.
  intros Hinv Hi Hgn. pose proof (link_free_free g i gn Hinv Hi Hgn) as Hfree.
  assert (Hocc : occ_from 0 (take (S i) (g_slots g)) = occ_from 0 (take i (g_slots g)) ++ []).
  { rewrite (take_S_r _ _ _ Hi), occ_from_app. done. }
  assert (Hcnt : count is_occupied (take (S i) (g_slots g)) = count is_occupied (take i (g_slots g))).
  { rewrite (take_S_r _ _ _ Hi), count_app. unfold count. simpl. lia. }
  assert (Hnl : g_new_len (link_free g i) = g_new_len g).
  { unfold link_free. repeat case_match; done. }
  pose proof Hinv as [Hb Hlen Hgen _].
  destruct (link_free_slots g i None gn Hinv Hi) as [Heq|(p & np & gp & Hpi & Hs & Heq)].
  - split; [|by rewrite Heq..]. rewrite Heq in Hfree. split; rewrite ?Heq; [done| |done|done].
    by rewrite Hnl, Hcnt.
  - split.
    + split; [|rewrite Hnl|rewrite Heq|done]; rewrite ?Heq.
      * by rewrite length_insert.
      * rewrite take_insert_lt by lia. rewrite Hlen, <-Hcnt. f_equal.
        assert (Hs' : take (S i) (g_slots g) !! p = Some (Vacant np gp)).
        { rewrite lookup_take_lt by lia. done. }
        pose proof (count_insert is_occupied _ _ _ (Vacant (Some (N.of_nat i)) gp) Hs').
        simpl in *. lia.
      * intros j s [(_ & <- & _)|[_ Hj]]%list_lookup_insert_Some; [|by eapply Hgen].
        apply (Hgen _ _ Hs).
    + rewrite Heq. by eapply slots_le_relink.
    + by rewrite Heq, length_insert.
    + rewrite Heq. by rewrite drop_insert_lt by lia.
    + rewrite Heq, take_insert_lt by lia. rewrite <-Hocc.
      eapply occ_from_relink. rewrite lookup_take_lt by lia. done.
Qed.

(** Rewriting slot [i] in place before it is handled changes nothing else. *)
Lemma slot_done_write g g' i s s' e :
  g_slots g !! i = Some s → slot_le s s' →
  slot_done (write_slot g i s') g' i e → slot_done g g' i e.
Proof.
  intros Hi Hle [Hinv Hsl Hlen Hrest Hocc]. split; simpl in *.
  - done.
  - etrans; [by eapply slots_le_insert|done].
  - by rewrite length_insert in Hlen.
  - by rewrite drop_insert_lt in Hrest by lia.
  - by rewrite take_insert_ge in Hocc by lia.
Qed.

Lemma keep_slot_done g i v gen :
  guard_inv g i → g_slots g !! i = Some (Occupied v gen) →
  slot_done g (keep_slot g) i [(mkArenaIndex (N.of_nat i) gen, v)].
Proof.
  intros Hinv Hi. split; try done.
  - by eapply advance_inv.
  - simpl. rewrite (take_S_r _ _ _ Hi), occ_from_app, length_take_le; [done|].
    apply Nat.lt_le_incl. by eapply lookup_lt_Some.
Qed.

Lemma skip_slot_done g i n :
  guard_inv g i → g_slots g !! i = Some (Vacant n 0) → slot_done g g i [].
Proof.
  intros Hinv Hi. split; try done.
  - eapply advance_inv; [done..| |done]. by intros ?? [= _ <-].
  - by rewrite (take_S_r _ _ _ Hi), occ_from_app.
Qed.

Lemma free_slot_done g i s :
  guard_inv g i → g_slots g !! i = Some s → slot_done g (free_slot g i) i [].
Proof.
  intros Hinv Hi. unfold free_slot. rewrite Hi.
  assert (Hlt : (i < length (g_slots g))%nat) by (by eapply lookup_lt_Some).
  pose proof (gi_generation _ _ Hinv _ _ Hi) as Hg.
  destruct s as [v gen|n gen]; simpl in Hg.
  - eapply slot_done_write; [done|by apply (slot_le_vacate v gen None)|].
    assert (Hw : guard_inv (write_slot g i (Vacant None (wrapping_add u32_MAX gen 1))) i).
    { apply write_slot_inv; [done|]. simpl. unfold wrapping_add.
      pose proof (N.mod_lt (gen + 1) (u32_MAX + 1)). lia. }
    destruct (N.eqb_spec gen u32_MAX) as [->|Hne].
    + rewrite wrapping_add_1_max in *. eapply skip_slot_done; [done|by apply list_lookup_insert_eq].
    + eapply link_free_done; [done|by apply list_lookup_insert_eq|].
      rewrite wrapping_add_1 by lia. lia.
  - destruct (N.eqb_spec gen 0) as [->|Hne]; [by eapply skip_slot_done|].
    eapply slot_done_write; [done|by apply (slot_le_relink n None)|].
    eapply link_free_done; [by apply write_slot_inv|by apply list_lookup_insert_eq|done].
Qed.

(** Result of handling the slots from [i] on, which hold the entries [e0] and
    contribute the entries [e]. *)
Record pass_done (g g' : Guard T) (i : nat) (e : list (ArenaIndex * T)) : Prop := {
  pd_inv : guard_inv g' (length (g_slots g));
  pd_le : slots_le (g_slots g) (g_slots g');
  pd_length : length (g_slots g') = length (g_slots g);
  pd_occ : occ_from 0 (g_slots g') = occ_from 0 (take i (g_slots g)) ++ e;
}.

Lemma pass_done_nil g i : guard_inv g i → i = length (g_slots g) → pass_done g g i [].
Proof.
  intros Hinv ->. split; try done. by rewrite take_ge, app_nil_r by lia.
Qed.

Lemma pass_done_step g g1 g' i e1 e :
  slot_done g g1 i e1 → pass_done g1 g' (S i) e → pass_done g g' i (e1 ++ e).
Proof.
  intros [Hinv Hle Hlen Hrest Hocc] [Hinv' Hle' Hlen' Hocc']. split.
  - by rewrite Hlen in Hinv'.
  - by etrans.
  - congruence.
  - by rewrite Hocc', Hocc, (assoc_L _).
Qed.

Lemma drop_occ g i s :
  g_slots g !! i = Some s →
  occ_from i (drop i (g_slots g)) =
  match s with Occupied v gen => [(mkArenaIndex (N.of_nat i) gen, v)] | Vacant _ _ => [] end
  ++ occ_from (S i) (drop (S i) (g_slots g)).
Proof. intros Hi. rewrite (drop_S _ _ _ Hi). by destruct s. Qed.

Lemma guard_drop_done n g i :
  guard_inv g i → (i + n = length (g_slots g))%nat →
  pass_done g (guard_drop n i g) i (occ_from i (drop i (g_slots g))).
Proof.
  revert i g. induction n as [|n IH]; intros i g Hinv Hn; simpl.
  - rewrite drop_ge by lia. apply pass_done_nil; [done|lia].
  - destruct (lookup_lt_is_Some_2 (g_slots g) i) as [s Hi]; [lia|].
    rewrite Hi, (drop_occ _ _ _ Hi). destruct s as [v gen|nx gen].
    + pose proof (keep_slot_done _ _ _ _ Hinv Hi) as Hd. eapply pass_done_step; [done|].
      rewrite <-(sd_rest _ _ _ _ Hd). apply IH; [apply Hd|simpl; lia].
    + pose proof (free_slot_done _ _ _ Hinv Hi) as Hd.
      apply (pass_done_step _ _ _ _ []) with (1 := Hd).
      rewrite <-(sd_rest _ _ _ _ Hd). apply IH; [apply Hd|]. rewrite (sd_length _ _ _ _ Hd). lia.
Qed.

Lemma retain_loop_done {St} (f : Predicate T St) n g i st g' st' p :
  guard_inv g i → (i + n = length (g_slots g))%nat →
  retain_loop f n i st g = (g', st', p) →
  ∃ e, retain_entries f st (occ_from i (drop i (g_slots g))) = (e, st', p) ∧ pass_done g g' i e.
Proof.
  revert i g st. induction n as [|n IH]; intros i g st Hinv Hn Hrun; simpl in Hrun.
  - simplify_eq. rewrite drop_ge by lia. exists []. split; [done|]. apply pass_done_nil; [done|lia].
  - destruct (lookup_lt_is_Some_2 (g_slots g) i) as [s Hi]; [lia|].
    rewrite Hi in Hrun. rewrite (drop_occ _ _ _ Hi). destruct s as [v gen|nx gen].
    2: { pose proof (free_slot_done _ _ _ Hinv Hi) as Hd.
      apply IH in Hrun as (e & He & Hp); [|apply Hd|rewrite (sd_length _ _ _ _ Hd); lia].
      rewrite (sd_rest _ _ _ _ Hd) in He. exists e. split; [done|].
      by apply (pass_done_step _ _ _ _ []) with (1 := Hd). }
    assert (Hlt : (i < length (g_slots g))%nat) by (by eapply lookup_lt_Some).
    assert (Hw : ∀ v', guard_inv (write_slot g i (Occupied v' gen)) i).
    { intros v'. apply write_slot_inv; [done|]. apply (gi_generation _ _ Hinv _ _ Hi). }
    assert (Hw' : ∀ v', g_slots (write_slot g i (Occupied v' gen)) !! i = Some (Occupied v' gen)).
    { intros v'. by apply list_lookup_insert_eq. }
    assert (Hk : ∀ v', slot_done g (keep_slot (write_slot g i (Occupied v' gen))) i
      [(mkArenaIndex (N.of_nat i) gen, v')]).
    { intros v'. eapply slot_done_write; [done|apply (slot_le_update v v')|].
      by apply keep_slot_done. }
    simpl. destruct (f st v) as [[st1 v'] [[]|]].
    + apply IH in Hrun as (e & He & Hp); [|apply Hk|rewrite (sd_length _ _ _ _ (Hk v')); lia].
      rewrite (sd_rest _ _ _ _ (Hk v')) in He. rewrite He. eexists. split; [done|].
      by apply (pass_done_step _ _ _ _ [_]) with (1 := Hk v').
    + assert (Hd : slot_done g (free_slot (write_slot g i (Occupied v' gen)) i) i []).
      { eapply slot_done_write; [done|apply (slot_le_update v v')|]. by eapply free_slot_done. }
      apply IH in Hrun as (e & He & Hp); [|apply Hd|rewrite (sd_length _ _ _ _ Hd); lia].
      rewrite (sd_rest _ _ _ _ Hd) in He. rewrite He. eexists. split; [done|].
      by apply (pass_done_step _ _ _ _ []) with (1 := Hd).
    + injection Hrun as <- <- <-. eexists. split; [done|].
      apply (pass_done_step _ _ _ _ [_]) with (1 := Hk v').
      rewrite <-(sd_rest _ _ _ _ (Hk v')). apply guard_drop_done; [apply Hk|].
      rewrite (sd_length _ _ _ _ (Hk v')). lia.
Qed.

Lemma retain_spec {St} (f : Predicate T St) st a a' st' p :
  arena_wf a → retain f st a = (a', st', p) →
  arena_wf a' ∧ slots_le (slots a) (slots a') ∧
  retain_entries f st (iter a) = (iter a', st', p).
Proof.
  intros [Hlen Hcnt Hgen Hfree]. unfold retain.
  destruct (retain_loop _ _ _ _ _) as [[g s] q] eqn:Hrun. intros [= <- <- <-].
  eapply retain_loop_done in Hrun as (e & He & [Hinv Hle Hl Hocc]); [| |done].
  2: { split; simpl; [done| |done|].
    - done.
    - exists []. refine (conj _ (conj (NoDup_nil_2) (conj _ _))); [done| |done].
      intros j. rewrite elem_of_nil. lia. }
  simpl in *. rewrite !iter_occ. simpl. rewrite Hocc. split_and!; [|done|done].
  destruct Hinv as [Hb Hn Hg (l & Hc & Hnd & Hall & _)]. simpl in *. split; simpl; [done| |done|].
  - by rewrite Hn, take_ge by lia.
  - exists l. refine (conj Hc (conj Hnd _)). intros i. rewrite Hall. split; [tauto|].
    intros Hr. split; [|done]. destruct Hr as (? & ? & Hs & _). rewrite <-Hl. by eapply lookup_lt_Some.
Qed.

End retain_spec.

(** ** [drain_values] *)

Section drain.
Context {T : Type}.
Implicit Types (a : Arena T) (sl : list (Slot T)).

Lemma occ_take_vacant sl i n g :
  sl !! i = Some (Vacant n g) → occ_from 0 (take (S i) sl) = occ_from 0 (take i sl).
Proof. intros Hi. rewrite (take_S_r _ _ _ Hi), occ_from_app. apply app_nil_r. Qed.

Lemma drain_next_spec n pos a :
  (pos + n = length (slots a))%nat → occ_from 0 (take pos (slots a)) = [] →
  match drain_next n pos a with
  | (a', pos', Some v) => ∃ k g, pos' = S k ∧ (pos ≤ k)%nat ∧
      slots a !! k = Some (Occupied v g) ∧ a' = vacate a (N.of_nat k) g ∧
      occ_from 0 (take k (slots a)) = [] ∧
      occ_from pos (drop pos (slots a)) =
        (mkArenaIndex (N.of_nat k) g, v) :: occ_from (S k) (drop (S k) (slots a))
  | (a', _, None) => a' = a ∧ occ_from pos (drop pos (slots a)) = [] ∧ occ_from 0 (slots a) = []
  end.
Proof.
  revert pos. induction n as [|n IH]; intros pos Hn Hocc; simpl.
  - split; [done|]. rewrite drop_ge by lia. by rewrite take_ge in Hocc by lia.
  - destruct (lookup_lt_is_Some_2 (slots a) pos) as [s Hs]; [lia|]. rewrite Hs.
    destruct s as [v g|nx g].
    + exists pos, g. by rewrite (drop_S _ _ _ Hs).
    + specialize (IH (S pos)). rewrite (occ_take_vacant _ _ _ _ Hs) in IH.
      specialize (IH ltac:(lia) Hocc). rewrite (drop_S _ _ _ Hs). simpl.
      destruct (drain_next n (S pos) a) as [[a' pos'] [v|]]; [|done].
      destruct IH as (k & g' & ? & ? & ? & ? & ? & ?). exists k, g'. split_and!; [done|lia|done..].
Qed.

Lemma vacate_occ a k v g :
  slots a !! k = Some (Occupied v g) →
  occ_from 0 (take (S k) (slots (vacate a (N.of_nat k) g))) = occ_from 0 (take k (slots a)).
Proof.
  intros Hk. unfold vacate, set_slot; simpl. rewrite Nat2N.id.
  erewrite occ_take_vacant by (apply list_lookup_insert_eq; by eapply lookup_lt_Some).
  by rewrite take_insert_ge by lia.
Qed.

Lemma drain_loop_spec fuel pos a a' vs :
  arena_wf a → (length (slots a) < fuel + pos)%nat → (pos ≤ length (slots a))%nat →
  occ_from 0 (take pos (slots a)) = [] → drain_loop fuel pos a = (a', vs) →
  arena_wf a' ∧ slots_le (slots a) (slots a') ∧
  vs = (occ_from pos (drop pos (slots a))).*2 ∧ occ_from 0 (slots a') = [].
Proof.
  revert pos a a' vs. induction fuel as [|fuel IH]; intros pos a a' vs Hwf Hf Hpos Hocc Hrun; [lia|].
  simpl in Hrun. pose proof (drain_next_spec (length (slots a) - pos) pos a ltac:(lia) Hocc) as Hd.
  destruct (drain_next _ pos a) as [[a1 pos'] [v|]].
  - destruct Hd as (k & g & -> & Hle & Hk & -> & Hk0 & Hrest).
    destruct (drain_loop fuel (S k) _) as [a2 vs'] eqn:Hrun'. simplify_eq.
    pose proof (lookup_lt_Some _ _ _ Hk) as Hlt.
    assert (Hpost : remove_post a (mkArenaIndex (N.of_nat k) g) (vacate a (N.of_nat k) g)).
    { eapply vacate_post; [done|]. by rewrite Nat2N.id. }
    apply IH in Hrun' as (Hwf' & Hle' & -> & Hnil); [|apply Hpost| | |].
    + split_and!; [done|etrans; [apply Hpost|done]| |done]. rewrite Hrest. simpl. do 2 f_equal.
      unfold vacate, set_slot; simpl. by rewrite Nat2N.id, drop_insert_lt by lia.
    + rewrite (rp_length _ _ _ Hpost). lia.
    + rewrite (rp_length _ _ _ Hpost). lia.
    + by rewrite (vacate_occ _ _ _ _ Hk).
  - simplify_eq. destruct Hd as (-> & -> & ?). done.
Qed.

Lemma drain_values_spec a a' vs :
  arena_wf a → drain_values a = (a', vs) →
  arena_wf a' ∧ slots_le (slots a) (slots a') ∧ vs = (iter a).*2 ∧ iter a' = [].
Proof.
  intros Hwf Hrun. unfold drain_values in Hrun. rewrite !iter_occ.
  eapply drain_loop_spec in Hrun; [|done|lia|lia|done]. by rewrite drop_0 in Hrun.
Qed.

End drain.

(** ** Refinement of a finite map with a set of issued indices *)

Section refinement.
Context {T : Type}.
Implicit Types (a : Arena T) (m : gmap ArenaIndex T) (issued : gset ArenaIndex).

Definition contents (a : Arena T) : gmap ArenaIndex T := list_to_map (iter a).

Lemma occ_from_spec k (sl : list (Slot T)) i g v :
  (mkArenaIndex i g, v) ∈ occ_from k sl ↔
  ∃ j, i = N.of_nat (k + j) ∧ sl !! j = Some (Occupied v g).
Proof.
  revert k. induction sl as [|s sl IH]; intros k; simpl.
  - rewrite elem_of_nil. split; [done|]. by intros (j & _ & ?).
  - assert (Hrec : (mkArenaIndex i g, v) ∈ occ_from (S k) sl ↔
      ∃ j, i = N.of_nat (k + S j) ∧ (s :: sl) !! S j = Some (Occupied v g)).
    { rewrite IH. by setoid_rewrite Nat.add_succ_r. }
    destruct s as [v' g'|n g']; rewrite ?elem_of_cons, Hrec; split.
    + intros [[= -> -> ->]|(j & Hj)]; [exists 0%nat|by exists (S j)].
      by rewrite Nat.add_0_r.
    + intros ([|j] & -> & Hj); [left|right; by exists j]. simplify_eq/=. by rewrite Nat.add_0_r.
    + intros (j & Hj). by exists (S j).
    + intros ([|j] & -> & Hj); [done|by exists j].
Qed.

Lemma iter_get a idx v : (idx, v) ∈ iter a ↔ get a idx = Some v.
Proof.
  rewrite iter_occ. destruct idx as [i g]. rewrite occ_from_spec. unfold get; simpl. split.
  - intros (j & -> & Hj). by rewrite Nat2N.id, Hj, N.eqb_refl.
  - intros H. exists (N.to_nat i). split; [lia|]. crush.
Qed.

Lemma occ_from_lb k (sl : list (Slot T)) idx v :
  (idx, v) ∈ occ_from k sl → N.of_nat k ≤ ai_index idx.
Proof. destruct idx. intros (j & -> & _)%occ_from_spec. simpl. lia. Qed.

Lemma occ_from_NoDup k (sl : list (Slot T)) : NoDup (occ_from k sl).*1.
Proof.
  revert k. induction sl as [|[v g|n g] sl IH]; intros k; simpl; [constructor| |apply IH].
  constructor; [|apply IH]. intros ([idx v'] & Hidx & Hin)%list_elem_of_fmap. simpl in Hidx. subst.
  apply occ_from_lb in Hin. simpl in Hin. lia.
Qed.

Lemma contents_lookup a idx : contents a !! idx = get a idx.
Proof.
  unfold contents. destruct (get a idx) as [v|] eqn:Hg.
  - apply elem_of_list_to_map_1; [rewrite iter_occ; apply occ_from_NoDup|by apply iter_get].
  - apply not_elem_of_list_to_map_1. intros ([idx' v] & Hidx & Hin)%list_elem_of_fmap.
    simpl in Hidx. subst. apply iter_get in Hin. congruence.
Qed.

Lemma contents_insert a a' idx v :
  (∀ j, get a' j = if decide (j = idx) then Some v else get a j) →
  contents a' = <[idx := v]> (contents a).
Proof.
  intros H. apply map_eq. intros j. rewrite contents_lookup, H. case_decide as Hd.
  - subst. by rewrite lookup_insert_eq.
  - by rewrite lookup_insert_ne, contents_lookup.
Qed.

Lemma contents_delete a a' idx :
  (∀ j, get a' j = if decide (j = idx) then None else get a j) →
  contents a' = delete idx (contents a).
Proof.
  intros H. apply map_eq. intros j. rewrite contents_lookup, H. case_decide as Hd.
  - subst. by rewrite lookup_delete_eq.
  - by rewrite lookup_delete_ne, contents_lookup.
Qed.

(** How the list of entries changes, up to order. *)
Lemma iter_NoDup a : NoDup (iter a).
Proof. rewrite iter_occ. eapply NoDup_fmap_1, occ_from_NoDup. Qed.

Lemma iter_insert_perm a a' idx v : get a idx = None →
  (∀ j, get a' j = if decide (j = idx) then Some v else get a j) →
  iter a' ≡ₚ (idx, v) :: iter a.
Proof.
  intros Hn H. apply NoDup_Permutation; [apply iter_NoDup| |].
  - constructor; [|apply iter_NoDup]. intros Hin%iter_get. congruence.
  - intros [j w]. rewrite elem_of_cons, !iter_get, H. case_decide; naive_solver.
Qed.

Lemma iter_delete_perm a a' idx v : get a idx = Some v →
  (∀ j, get a' j = if decide (j = idx) then None else get a j) →
  iter a ≡ₚ (idx, v) :: iter a'.
Proof.
  intros Hn H. apply NoDup_Permutation; [apply iter_NoDup| |].
  - constructor; [|apply iter_NoDup]. intros Hin%iter_get. rewrite H in Hin. by case_decide.
  - intros [j w]. rewrite elem_of_cons, !iter_get, H. case_decide; naive_solver.
Qed.

Lemma iter_update_perm a a' idx v v' : get a idx = Some v →
  (∀ j, get a' j = if decide (j = idx) then Some v' else get a j) →
  ∃ rest, iter a ≡ₚ (idx, v) :: rest ∧ iter a' ≡ₚ (idx, v') :: rest.
Proof.
  intros Hg H. assert (Hin : (idx, v) ∈ iter a) by (by apply iter_get).
  apply elem_of_Permutation in Hin as [rest Hrest]. exists rest. split; [done|].
  pose proof (iter_NoDup a) as Hnd. rewrite Hrest in Hnd. apply NoDup_cons in Hnd as [Hni Hnd].
  assert (Hel : ∀ j w, (j, w) ∈ rest ↔ j ≠ idx ∧ get a j = Some w).
  { intros j w. split.
    - intros Hjw. assert (Hj : (j, w) ∈ iter a) by (rewrite Hrest; by right).
      apply iter_get in Hj as Hj'. split; [|done]. intros ->. congruence.
    - intros [Hne Hj]. apply iter_get in Hj. rewrite Hrest in Hj.
      apply elem_of_cons in Hj as [[= ]|?]; [congruence|done]. }
  apply NoDup_Permutation; [apply iter_NoDup| |].
  - constructor; [|done]. rewrite Hel. naive_solver.
  - intros [j w]. rewrite elem_of_cons, iter_get, H, Hel. case_decide; naive_solver.
Qed.

(** The calls a client makes, with pure callbacks, and what they return. *)
Inductive ArenaOp :=
| OpInsert (v : T)
| OpInsertWith (f : ArenaIndex → T)
| OpRemove (idx : ArenaIndex)
| OpUpdate (idx : ArenaIndex) (h : T → T)
| OpRetain (p : T → T * bool)
| OpDrain.

Inductive ArenaOut :=
| OutIndex (idx : ArenaIndex)
| OutValue (v : option T)
| OutValues (vs : list T)
| OutUnit.

Definition pure_predicate (p : T → T * bool) : Predicate T () :=
  λ st v, (st, (p v).1, Some (p v).2).

Definition exec_op (a : Arena T) (op : ArenaOp) : exec (Arena T * ArenaOut) :=
  match op with
  | OpInsert v => '(a', idx) ← insert a v; Done (a', OutIndex idx)
  | OpInsertWith f => '(a', idx) ← insert_with a f; Done (a', OutIndex idx)
  | OpRemove idx => let '(a', v) := remove a idx in Done (a', OutValue v)
  | OpUpdate idx h =>
      match get_mut a idx with
      | Some (v, put) => Done (put (h v), OutValue (Some v))
      | None => Done (a, OutValue None)
      end
  | OpRetain p => let '(a', _, _) := retain (pure_predicate p) () a in Done (a', OutUnit)
  | OpDrain => let '(a', vs) := drain_values a in Done (a', OutValues vs)
  end.

(** What the arena promises: a map, in which an insertion chooses an index that
    was never issued before. *)
Definition retain_map (p : T → T * bool) : gmap ArenaIndex T → gmap ArenaIndex T :=
  omap (λ v, if (p v).2 then Some (p v).1 else None).

Inductive spec_step :
  ArenaOp → gmap ArenaIndex T * gset ArenaIndex → ArenaOut →
  gmap ArenaIndex T * gset ArenaIndex → Prop :=
| spec_insert v m iss idx : idx ∉ iss → m !! idx = None →
    spec_step (OpInsert v) (m, iss) (OutIndex idx) (<[idx := v]> m, {[idx]} ∪ iss)
| spec_insert_with f m iss idx : idx ∉ iss → m !! idx = None →
    spec_step (OpInsertWith f) (m, iss) (OutIndex idx) (<[idx := f idx]> m, {[idx]} ∪ iss)
| spec_remove idx m iss :
    spec_step (OpRemove idx) (m, iss) (OutValue (m !! idx)) (delete idx m, iss)
| spec_update idx h m iss :
    spec_step (OpUpdate idx h) (m, iss) (OutValue (m !! idx)) (alter h idx m, iss)
| spec_retain p m iss :
    spec_step (OpRetain p) (m, iss) OutUnit (retain_map p m, iss)
| spec_drain m iss vs : vs ≡ₚ (map_to_list m).*2 →
    spec_step OpDrain (m, iss) (OutValues vs) (∅, iss).

(** The simulation relation. *)
Record arena_sim (a : Arena T) (σ : gmap ArenaIndex T * gset ArenaIndex) : Prop := {
  sim_wf : arena_wf a;
  sim_map : σ.1 = contents a;
  sim_size : len a = N.of_nat (size σ.1);
  sim_issued : ∀ idx, idx ∈ σ.2 → live a idx ∨ spent a idx;
}.

Lemma count_occ k (sl : list (Slot T)) : count is_occupied sl = length (occ_from k sl).
Proof.
  revert k. induction sl as [|s sl IH]; intros k; [done|]. rewrite count_cons, (IH (S k)).
  by destruct s.
Qed.

Lemma wf_size a : arena_wf a → len a = N.of_nat (size (contents a)).
Proof.
  intros [_ Hcnt _ _]. rewrite Hcnt, (count_occ 0), <-iter_occ. unfold contents.
  rewrite <-length_map_to_list, map_to_list_to_map; [done|].
  rewrite iter_occ. apply occ_from_NoDup.
Qed.

Lemma sim_intro a a' σ m' : arena_sim a σ → arena_wf a' → slots_le (slots a) (slots a') →
  m' = contents a' → arena_sim a' (m', σ.2).
Proof.
  intros [Hwf Hm Hs Hi] Hwf' Hle ->. split; simpl; [done|done|by apply wf_size|].
  intros idx Hidx. eapply known_mono; [done|by apply Hi].
Qed.

Lemma sim_insert a σ f a' idx : arena_sim a σ → insert_post a f a' idx →
  (idx ∉ σ.2) ∧ σ.1 !! idx = None ∧ arena_sim a' (<[idx := f idx]> σ.1, {[idx]} ∪ σ.2).
Proof.
  intros Hsim [Hwf Hle [Hnl Hns] Hget Hlen]. split_and!.
  - intros [?|?]%(sim_issued _ _ Hsim); done.
  - rewrite (sim_map _ _ Hsim), contents_lookup. apply eq_None_not_Some. by rewrite <-live_get.
  - pose proof (sim_intro a a' σ (<[idx := f idx]> σ.1) Hsim Hwf Hle) as [? ? ? Hi].
    { rewrite (sim_map _ _ Hsim). symmetry. by apply contents_insert. }
    split; try done. intros j Hj. simpl in Hj.
    apply elem_of_union in Hj as [->%elem_of_singleton|Hj]; [left|by apply Hi].
    apply live_get. rewrite Hget, decide_True by done. eauto.
Qed.

Lemma retain_entries_pure p (l : list (ArenaIndex * T)) :
  retain_entries (pure_predicate p) () l =
  (omap (λ '(idx, v), if (p v).2 then Some (idx, (p v).1) else None) l, (), false).
Proof.
  induction l as [|[idx v] l IH]; [done|]. simpl. rewrite IH. by destruct (p v) as [v' []].
Qed.

Lemma retain_contents p a a' st q :
  arena_wf a → retain (pure_predicate p) () a = (a', st, q) →
  contents a' = retain_map p (contents a).
Proof.
  intros Hwf Hrun. destruct (retain_spec _ _ _ _ _ _ Hwf Hrun) as (_ & _ & He).
  rewrite retain_entries_pure in He. injection He as He _ _.
  apply map_eq. intros idx. apply option_eq. intros v.
  unfold retain_map. rewrite lookup_omap_Some. setoid_rewrite contents_lookup.
  rewrite <-iter_get, <-He, list_elem_of_omap. setoid_rewrite <-iter_get. split.
  - intros ([idx' v'] & Hin & Hv). destruct (p v') as [w []] eqn:Hp; simplify_eq/=.
    exists v'. by rewrite Hp.
  - intros (v' & Hv & Hin). exists (idx, v'). split; [done|]. destruct (p v') as [w []]; by simplify_eq/=.
Qed.

End refinement.

Arguments ArenaOp : clear implicits.
Arguments ArenaOut : clear implicits.

(** ** Main theorems *)

Section theorems.
Context {T : Type}.
Implicit Types (a : Arena T) (ops : list (ArenaOp T)).

(** Every arena operation refines the abstract map: run on an arena that
    represents the map [σ.1] with issued indices [σ.2], it panics only when all
    [2^32] slots are in use or retired, and otherwise answers and leaves the
    arena as the abstract step of the same operation prescribes; an insertion
    never chooses an index that was issued before. *)
Theorem arena_refines_map a σ (op : ArenaOp T) : arena_sim a σ →
  match exec_op a op with
  | Done (a', out) => ∃ σ', spec_step op σ out σ' ∧ arena_sim a' σ'
  | Panics => arena_full a
  end.
Proof.
  intros Hsim. pose proof (sim_wf _ _ Hsim) as Hwf. pose proof (sim_map _ _ Hsim) as Hm.
  destruct σ as [m iss]; simpl in Hm; subst m. destruct op as [v|f|idx|idx h|p|]; simpl.
  - rewrite insert_insert_with. pose proof (insert_with_spec a (λ _, v) Hwf) as Hs.
    destruct (insert_with a _) as [[a' idx]|]; [simpl|done].
    destruct (sim_insert _ _ _ _ _ Hsim Hs) as (? & ? & ?).
    eexists. split; [by constructor|done].
  - pose proof (insert_with_spec a f Hwf) as Hs.
    destruct (insert_with a _) as [[a' idx]|]; [simpl|done].
    destruct (sim_insert _ _ _ _ _ Hsim Hs) as (? & ? & ?).
    eexists. split; [by constructor|done].
  - pose proof (remove_spec a idx Hwf) as Hs. destruct (remove a idx) as [a' [v|]].
    + destruct Hs as (Hg & Hp). rewrite <-Hg, <-contents_lookup. eexists. split; [constructor|].
      eapply (sim_intro a a' (_, iss)); [done|apply Hp|apply Hp|].
      symmetry. apply contents_delete, Hp.
    + destruct Hs as (Hg & ->). rewrite <-Hg, <-contents_lookup. eexists. split; [constructor|].
      rewrite delete_id; [done|]. by rewrite contents_lookup.
  - pose proof (get_mut_spec a idx Hwf) as Hs. destruct (get_mut a idx) as [[v put]|].
    + destruct Hs as (Hg & Hput). destruct (Hput (h v)) as (Hwf' & Hle & _ & Hget).
      rewrite <-Hg, <-contents_lookup. eexists. split; [constructor|].
      eapply (sim_intro a (put (h v)) (_, iss)); [done..|]. rewrite (contents_insert _ _ _ _ Hget).
      apply map_eq. intros j. rewrite lookup_alter, lookup_insert, contents_lookup.
      case_decide; subst; [by rewrite Hg|done].
    + rewrite <-Hs, <-contents_lookup. eexists. split; [constructor|].
      rewrite alter_id; [done|]. intros x. rewrite contents_lookup. congruence.
  - destruct (retain _ _ a) as [[a' st] q] eqn:Hrun.
    destruct (retain_spec _ _ _ _ _ _ Hwf Hrun) as (Hwf' & Hle & _).
    eexists. split; [constructor|]. eapply (sim_intro a a' (_, iss)); [done..|].
    symmetry. by eapply retain_contents.
  - destruct (drain_values a) as [a' vs] eqn:Hrun.
    destruct (drain_values_spec _ _ _ Hwf Hrun) as (Hwf' & Hle & -> & Hnil).
    eexists. split; [constructor|eapply (sim_intro a a' (_, iss)); [done..|]].
    + unfold contents. rewrite map_to_list_to_map; [done|].
      rewrite iter_occ. apply occ_from_NoDup.
    + unfold contents. by rewrite Hnil.
Qed.

(** The same operations in sequence, with the answers in order. *)
Fixpoint exec_ops (a : Arena T) (ops : list (ArenaOp T)) : exec (Arena T * list (ArenaOut T)) :=
  match ops with
  | [] => Done (a, [])
  | op :: ops =>
      '(a1, out) ← exec_op a op; '(a2, outs) ← exec_ops a1 ops; Done (a2, out :: outs)
  end.

Definition issued_of (outs : list (ArenaOut T)) : list ArenaIndex :=
  omap (λ out, match out with OutIndex idx => Some idx | _ => None end) outs.

(** One operation: the invariant is kept, slots move forward, and an index that
    is handed out was neither live nor spent. *)
Lemma exec_op_step a op a' out :
  arena_wf a → exec_op a op = Done (a', out) →
  arena_wf a' ∧ slots_le (slots a) (slots a') ∧
  ∀ idx, out = OutIndex idx → ¬ (live a idx ∨ spent a idx) ∧ live a' idx.
Proof.
  intros Hwf Hrun. destruct op as [v|f|idx|idx h|p|]; simpl in Hrun.
  1, 2: rewrite ?insert_insert_with in Hrun.
  - pose proof (insert_with_spec a (λ _, v) Hwf) as Hs.
    destruct (insert_with a _) as [[a1 idx]|]; simplify_eq/=. destruct Hs as [? ? [] Hg _].
    split_and!; [done..|]. intros ? [= <-]. split; [tauto|]. apply live_get.
    rewrite Hg, decide_True by done. eauto.
  - pose proof (insert_with_spec a f Hwf) as Hs.
    destruct (insert_with a _) as [[a1 idx]|]; simplify_eq/=. destruct Hs as [? ? [] Hg _].
    split_and!; [done..|]. intros ? [= <-]. split; [tauto|]. apply live_get.
    rewrite Hg, decide_True by done. eauto.
  - pose proof (remove_spec a idx Hwf) as Hs. destruct (remove a idx) as [a1 [v|]]; simplify_eq/=.
    + destruct Hs as (_ & [? ? ? ? ?]). done.
    + destruct Hs as (_ & ->). done.
  - pose proof (get_mut_spec a idx Hwf) as Hs. destruct (get_mut a idx) as [[v put]|]; simplify_eq.
    + destruct Hs as (_ & Hp). destruct (Hp (h v)) as (? & ? & _). done.
    + done.
  - destruct (retain _ _ a) as [[a1 st] q] eqn:Hr. simplify_eq.
    destruct (retain_spec _ _ _ _ _ _ Hwf Hr) as (? & ? & _). done.
  - destruct (drain_values a) as [a1 vs] eqn:Hr. simplify_eq.
    destruct (drain_values_spec _ _ _ Hwf Hr) as (? & ? & _). done.
Qed.

Lemma exec_ops_step ops a a' outs :
  arena_wf a → exec_ops a ops = Done (a', outs) →
  arena_wf a' ∧ slots_le (slots a) (slots a') ∧ NoDup (issued_of outs) ∧
  ∀ idx, idx ∈ issued_of outs → ¬ (live a idx ∨ spent a idx).
Proof.
  revert a a' outs. induction ops as [|op ops IH]; intros a a' outs Hwf Hrun; simpl in Hrun.
  - simplify_eq. split_and!; [done..|constructor|]. by intros idx ?%elem_of_nil.
  - destruct (exec_op a op) as [[a1 out]|] eqn:Hop; [simpl in Hrun|done].
    destruct (exec_ops a1 ops) as [[a2 outs']|] eqn:Hops; simplify_eq/=.
    destruct (exec_op_step _ _ _ _ Hwf Hop) as (Hwf1 & Hle1 & Hnew).
    destruct (IH _ _ _ Hwf1 Hops) as (Hwf2 & Hle2 & Hnd & Hout).
    assert (Hold : ∀ idx, idx ∈ issued_of outs' → ¬ (live a idx ∨ spent a idx)).
    { intros idx Hidx Hk. apply (Hout idx Hidx). by eapply known_mono. }
    split; [done|]. split; [by etrans|]. destruct out as [idx| | |]; try done.
    destruct (Hnew idx eq_refl) as [Hfresh Hlive]. split.
    + constructor; [|done]. intros Hin. apply (Hout idx Hin). by left.
    + intros j [->|Hj]%elem_of_cons; [done|by apply Hold].
Qed.

(** No index is issued twice: in any sequence of operations on a new
    arena, removals, retains and drains included, the indices returned by the
    insertions are pairwise distinct, and the arena is well formed at the end. *)
Theorem arena_indices_unique ops a outs :
  exec_ops arena_new ops = Done (a, outs) → NoDup (issued_of outs) ∧ arena_wf a.
Proof. intros (? & _ & ? & _)%exec_ops_step; [done|apply arena_wf_new]. Qed.

(** A removed index is dead for good: whatever operations follow the
    removal, the index resolves to nothing and is not handed out again, also
    when the slot was reused and when its generation counter reached
    [u32::MAX]. *)
Theorem arena_removed_stays_dead a idx v a1 ops a2 outs :
  arena_wf a → remove a idx = (a1, Some v) → exec_ops a1 ops = Done (a2, outs) →
  get a2 idx = None ∧ idx ∉ issued_of outs.
Proof.
  intros Hwf Hrm Hrun. pose proof (remove_spec a idx Hwf) as Hs. rewrite Hrm in Hs.
  destruct Hs as (_ & [Hwf1 Hle Hsp _ _ _]).
  destruct (exec_ops_step _ _ _ _ Hwf1 Hrun) as (_ & Hle' & _ & Hout). split.
  - apply spent_get. by eapply spent_mono.
  - intros Hin. apply (Hout idx Hin). by right.
Qed.

(** [retain] is the predicate run over the entries in slot order: the
    accepted entries keep their index and take the value the predicate left,
    the rejected ones are freed, and if the predicate panics the current and
    the remaining entries stay; in every case the arena is well formed
    afterwards (its free list and length are rebuilt in the same pass). *)
Theorem arena_retain_correct {St} (f : Predicate T St) st a a' st' panicked :
  arena_wf a → retain f st a = (a', st', panicked) →
  arena_wf a' ∧ retain_entries f st (iter a) = (iter a', st', panicked).
Proof. intros Hwf Hrun. by destruct (retain_spec _ _ _ _ _ _ Hwf Hrun) as (? & _ & ?). Qed.

End theorems.

(** ** Witnesses: the theorems at concrete arenas *)

Lemma arena_sim_new {T} : arena_sim (T:=T) arena_new (∅, ∅).
Proof.
  split; simpl; [apply arena_wf_new|done|by rewrite map_size_empty|]. intros idx Hin.
  exfalso. set_solver.
Qed.

Lemma arena_refines_map_witness :
  ∃ a' σ', exec_op arena_new (OpInsert 7) = Done (a', OutIndex (mkArenaIndex 0 0)) ∧
    spec_step (OpInsert 7) (∅, ∅) (OutIndex (mkArenaIndex 0 0)) σ' ∧ arena_sim a' σ'.
Proof.
  destruct (arena_refines_map arena_new (∅, ∅) (OpInsert 7) arena_sim_new) as (σ' & Hs & Hsim).
  eexists _, σ'. split; [reflexivity|]. split; [exact Hs|exact Hsim].
Defined.

(** Insert, remove, insert again: the slot is reused under a new generation. *)
Definition ops_reuse : list (ArenaOp N) :=
  [OpInsert 1; OpInsert 2; OpRemove (mkArenaIndex 0 0); OpInsertWith ai_generation;
   OpRetain (λ v, (v + 1, 1 <? v)); OpInsert 5; OpDrain; OpInsert 6].

Definition outs_reuse : list (ArenaOut N) :=
  [OutIndex (mkArenaIndex 0 0); OutIndex (mkArenaIndex 1 0); OutValue (Some 1);
   OutIndex (mkArenaIndex 0 1); OutUnit; OutIndex (mkArenaIndex 0 2);
   OutValues [5; 3]; OutIndex (mkArenaIndex 1 1)].

Lemma arena_indices_unique_witness :
  ∃ a, exec_ops arena_new ops_reuse = Done (a, outs_reuse) ∧
    NoDup (issued_of outs_reuse) ∧ arena_wf a.
Proof.
  eexists. split; [vm_compute; reflexivity|].
  apply (arena_indices_unique ops_reuse _ outs_reuse). vm_compute. reflexivity.
Defined.

(** A slot whose generation counter is exhausted: removal retires it. *)
Definition exhausted_arena : Arena N := mkArena [Occupied 9 u32_MAX] None 1.

Lemma exhausted_arena_wf : arena_wf exhausted_arena.
Proof.
  split; simpl; [mlia|done| |].
  - intros [|i] s Hs; [by simplify_eq/=|done].
  - exists []. split; [done|]. split; [constructor|]. intros i. split; [by intros ?%elem_of_nil|].
    intros (n & g & Hs & Hg). by destruct i.
Qed.

Lemma arena_removed_stays_dead_witness :
  ∃ a2, exec_ops (remove exhausted_arena (mkArenaIndex 0 u32_MAX)).1
      [OpInsert 1; OpRemove (mkArenaIndex 1 0); OpInsert 2] =
      Done (a2, [OutIndex (mkArenaIndex 1 0); OutValue (Some 1); OutIndex (mkArenaIndex 1 1)]) ∧
    get a2 (mkArenaIndex 0 u32_MAX) = None ∧
    mkArenaIndex 0 u32_MAX ∉ [mkArenaIndex 1 0; mkArenaIndex 1 1].
Proof.
  eexists. split; [vm_compute; reflexivity|].
  apply (arena_removed_stays_dead exhausted_arena (mkArenaIndex 0 u32_MAX) 9 _
    [OpInsert 1; OpRemove (mkArenaIndex 1 0); OpInsert 2] _
    [OutIndex (mkArenaIndex 1 0); OutValue (Some 1); OutIndex (mkArenaIndex 1 1)]
    exhausted_arena_wf eq_refl).
  vm_compute. reflexivity.
Defined.

(** The predicate panics on its second call; the first entry was rejected. *)
Definition panicky : Predicate N nat := λ st v,
  (S st, v, match st with O => Some false | _ => None end).

Definition three_slots : Arena N :=
  mkArena [Occupied 1 0; Occupied 2 0; Occupied 3 0] None 3.

Lemma three_slots_wf : arena_wf three_slots.
Proof.
  split; simpl; [mlia|done| |].
  - intros [|[|[|i]]] s Hs; simplify_eq/=; mlia.
  - exists []. split; [done|]. split; [constructor|]. intros i. split; [by intros ?%elem_of_nil|].
    intros (n & g & Hs & Hg). by destruct i as [|[|[|i]]].
Qed.

Lemma arena_retain_correct_witness :
  let '(a', st', panicked) := retain panicky O three_slots in
  arena_wf a' ∧ retain_entries panicky O (iter three_slots) = (iter a', st', panicked) ∧
  panicked = true ∧ iter a' = [(mkArenaIndex 1 0, 2); (mkArenaIndex 2 0, 3)] ∧ free_head a' = Some 0.
Proof.
  destruct (retain panicky O three_slots) as [[a' st'] panicked] eqn:Hrun.
  destruct (arena_retain_correct panicky O three_slots a' st' panicked three_slots_wf Hrun) as [Hwf He].
  vm_compute in Hrun. injection Hrun as <- <- <-. split_and!; [exact Hwf|exact He|done..].
Defined.
