(* ===== verification/Broadcast.v ===== *)
(** * The broadcast channel

    Models [src/channel/broadcast.rs]: a bounded buffer of the last messages that every
    receiver reads with a cursor of its own, dropping the oldest message when it is full;
    a receiver that fell behind is told by how much.  Each critical section is a function
    on the shared state that returns the wakers to wake after the lock is released; the
    outcome of [cx.checkpoint()] is an argument.  Wakers and cursors are kept in arenas
    ([Arena]), whose indices panic only when 2^32 slots are taken.

    [telemetry_snapshot] reads the state and changes nothing.  [System] adds the handles that Rust's ownership tracks, futures that are leaked
    without running their destructor, the moment between the last sender's decrement and
    its lock, and every interleaving.  The theorems: each receiver hears the messages
    sent since it was created, in order, without a gap it is not told of exactly, and
    misses nothing it could still have been given; and nobody sleeps through a message or
    the end of the channel. *)

From S2P Require Import Prelude Ids Arena.

Notation Waker := N (only parsing).

Module Broadcast.

Section broadcast.
Context {T : Type}.

Inductive SendError (A : Type) := SendClosed (v : A) | SendCancelled (v : A).
Inductive RecvError := RecvLagged (n : N) | RecvClosed | RecvCancelled | RecvPolledAfterCompletion.
Inductive TryRecvError := TryEmpty | TryLagged (n : N) | TryClosed.

Record Slot := mkSlot { msg : T; index : N }.
Record Shared := mkShared {
  buffer : list Slot;
  capacity : N;
  total_sent : N;
  wakers : Arena Waker;
  receiver_cursors : Arena N;
  cancellation_count : N;
}.
Record Channel := mkChannel { sender_count : N; receiver_count : N; inner : Shared }.
Record Receiver := mkReceiver { next_index : N; receiver_token : ArenaIndex }.
Record Recv := mkRecv { waiter : option ArenaIndex; completed : bool }.
Implicit Types (s : Shared) (c : Channel) (r : Receiver) (f : Recv).

Definition set_buffer s b : Shared := mkShared b (capacity s) (total_sent s) (wakers s) (receiver_cursors s) (cancellation_count s).
Definition set_total s n : Shared := mkShared (buffer s) (capacity s) n (wakers s) (receiver_cursors s) (cancellation_count s).
Definition set_wakers s w : Shared := mkShared (buffer s) (capacity s) (total_sent s) w (receiver_cursors s) (cancellation_count s).
Definition set_cursors s a : Shared := mkShared (buffer s) (capacity s) (total_sent s) (wakers s) a (cancellation_count s).
Definition set_shared c s : Channel := mkChannel (sender_count c) (receiver_count c) s.

Definition channel (cap : N) : exec (Channel * Receiver) :=
  if cap =? 0 then Panics else
  '(cursors, token) ← insert arena_new 0;
  Done (mkChannel 1 1 (mkShared [] cap 0 arena_new cursors 0), mkReceiver 0 token).

Definition earliest_index s : N := match buffer s with slot :: _ => index slot | [] => total_sent s end.
Definition message_at s (next : N) : option Slot := buffer s !! N.to_nat (saturating_sub next (earliest_index s)).
Definition is_message_ready_for s (next : N) : bool := bool_decide (is_Some (message_at s next)).
Definition update_receiver_cursor s (token : ArenaIndex) (next : N) : Shared :=
  match get_mut (receiver_cursors s) token with Some (_, put) => set_cursors s (put next) | None => s end.
Definition lagged_receiver_count s : N := lenN (filter (λ e : ArenaIndex * N, e.2 < earliest_index s) (iter (receiver_cursors s))).
Definition record_cancellation s : Shared :=
  mkShared (buffer s) (capacity s) (total_sent s) (wakers s) (receiver_cursors s) (saturating_add u64_MAX (cancellation_count s) 1).
Definition remove_waker s (w : option ArenaIndex) : Shared := match w with Some token => set_wakers s (remove (wakers s) token).1 | None => s end.

(** *** The sender *)

Definition reserve c (cancelled : bool) : Channel * result () (SendError ()) :=
  if cancelled then (set_shared c (record_cancellation (inner c)), Err (SendCancelled () ()))
  else if receiver_count c =? 0 then (c, Err (SendClosed () ())) else (c, Ok ()).

(** [SendPermit::send]: the wakers to wake, and the number of receivers. *)
Definition permit_send c (v : T) : Channel * list Waker * N :=
  let s := inner c in
  if receiver_count c =? 0 then (c, [], 0) else
  let '(popped, kept) := if lenN (buffer s) =? capacity s then (head (buffer s), tail (buffer s)) else (None, buffer s) in
  let pushed := kept ++ [mkSlot v (total_sent s)] in
  let live_receivers := receiver_count c in
  if live_receivers =? 0 then (set_shared c (set_buffer s (option_list popped ++ removelast pushed)), [], 0) else
  let s := set_total (set_buffer s pushed) (wrapping_add u64_MAX (total_sent s) 1) in
  let '(ws, drained) := drain_values (wakers s) in
  (set_shared c (set_wakers s ws), drained, live_receivers).

Definition send c (cancelled : bool) (v : T) : Channel * list Waker * result N (SendError T) :=
  match reserve c cancelled with
  | (c, Ok _) => let '(c, ws, n) := permit_send c v in (c, ws, Ok n)
  | (c, Err (SendClosed _ _)) => (c, [], Err (SendClosed T v))
  | (c, Err (SendCancelled _ _)) => (c, [], Err (SendCancelled T v))
  end.

Definition subscribe c : exec (Channel * Receiver) :=
  let s := inner c in
  '(cursors, token) ← insert (receiver_cursors s) (total_sent s);
  let s := set_cursors s cursors in
  let s := if receiver_count c =? 0 then set_buffer s [] else s in
  Done (mkChannel (sender_count c) (wrapping_add usize_MAX (receiver_count c) 1) s, mkReceiver (total_sent s) token).

Definition sender_clone c : Channel := mkChannel (wrapping_add usize_MAX (sender_count c) 1) (receiver_count c) (inner c).

(** [Drop for Sender]: the decrement, and what the last sender does under the lock. *)
Definition sender_release c : Channel * bool :=
  (mkChannel (wrapping_sub usize_MAX (sender_count c) 1) (receiver_count c) (inner c), sender_count c =? 1).
Definition sender_drain c : Channel * list Waker :=
  let '(ws, drained) := drain_values (wakers (inner c)) in (set_shared c (set_wakers (inner c) ws), drained).

(** *** The receiver *)

(** What [try_recv] and a poll do first: the lag, or the message at the cursor. *)
Inductive Fetched := FetchLagged (missed : N) | FetchGot (v : T) | FetchNone.
Definition fetch c r : Channel * Receiver * Fetched :=
  let s := inner c in
  let earliest := earliest_index s in
  if next_index r <? earliest then
    let missed := earliest - next_index r in
    (set_shared c (update_receiver_cursor s (receiver_token r) earliest), mkReceiver earliest (receiver_token r), FetchLagged missed)
  else
    match message_at s (next_index r) with
    | Some slot =>
        let next := wrapping_add u64_MAX (next_index r) 1 in
        (set_shared c (update_receiver_cursor s (receiver_token r) next), mkReceiver next (receiver_token r), FetchGot (msg slot))
    | None => (c, r, FetchNone)
    end.

Definition try_recv c r : Channel * Receiver * result T TryRecvError :=
  let '(c, r, got) := fetch c r in
  (c, r, match got with
         | FetchLagged missed => Err (TryLagged missed)
         | FetchGot v => Ok v
         | FetchNone => if sender_count c =? 0 then Err TryClosed else Err TryEmpty
         end).

(** Registering the waker: the token a future holds may be stale. *)
Definition register s (w : option ArenaIndex) (current : Waker) : exec (Shared * option ArenaIndex) :=
  let fresh := '(ws, token) ← insert (wakers s) current; Done (set_wakers s ws, Some token) in
  match w with
  | Some token =>
      match get_mut (wakers s) token with
      | Some (existing, put) => Done (if existing =? current then s else set_wakers s (put current), w)
      | None => fresh
      end
  | None => fresh
  end.

Definition poll_recv_with_waiter c r (w : option ArenaIndex) (cancelled : bool) (current : Waker) :
    exec (Channel * Receiver * option ArenaIndex * poll (result T RecvError)) :=
  if cancelled then Done (set_shared c (record_cancellation (remove_waker (inner c) w)), r, None, Ready (Err RecvCancelled)) else
  let '(c, r, got) := fetch c r in
  let done res := Done (set_shared c (remove_waker (inner c) w), r, None, Ready res) in
  match got with
  | FetchLagged missed => done (Err (RecvLagged missed))
  | FetchGot v => done (Ok v)
  | FetchNone =>
      if sender_count c =? 0 then done (Err RecvClosed)
      else '(s, w) ← register (inner c) w current; Done (set_shared c s, r, w, Pending)
  end.

Definition recv_poll c r f (cancelled : bool) (current : Waker) : exec (Channel * Receiver * Recv * poll (result T RecvError)) :=
  if completed f then Done (c, r, f, Ready (Err RecvPolledAfterCompletion)) else
  '(c, r, w, p) ← poll_recv_with_waiter c r (waiter f) cancelled current;
  Done (c, r, mkRecv w (match p with Ready _ => true | Pending => false end), p).

Definition clear_waiter_registration c (w : option ArenaIndex) : Channel := set_shared c (remove_waker (inner c) w).
Definition clear_waiter_registration_and_record_cancellation c (w : option ArenaIndex) : Channel :=
  set_shared c (record_cancellation (remove_waker (inner c) w)).
Definition recv_drop c f : Channel :=
  if negb (completed f) && bool_decide (is_Some (waiter f)) then clear_waiter_registration_and_record_cancellation c (waiter f)
  else clear_waiter_registration c (waiter f).

Definition receiver_clone c r : exec (Channel * Receiver) :=
  '(cursors, token) ← insert (receiver_cursors (inner c)) (next_index r);
  Done (mkChannel (sender_count c) (wrapping_add usize_MAX (receiver_count c) 1) (set_cursors (inner c) cursors), mkReceiver (next_index r) token).

Definition receiver_drop c r : Channel :=
  let s := set_cursors (inner c) (remove (receiver_cursors (inner c)) (receiver_token r)).1 in
  let n := wrapping_sub usize_MAX (receiver_count c) 1 in
  let last := (receiver_count c =? 1) && (n =? 0) in
  mkChannel (sender_count c) n (if last then set_buffer s [] else s).

(** *** Telemetry *)

Record BroadcastTelemetrySnapshot := mkSnapshot {
  snap_channel_id : N; channel_kind : string; snap_capacity : N; queued_messages : N; reserved_uncommitted_obligations : N; send_waiter_count : N;
  recv_waiter_count : N; snap_receiver_count : N; receiver_health : string; snap_lagged_receiver_count : option N; snap_cancellation_count : N; snap_closed : bool;
}.

Definition telemetry_snapshot c (channel_id : N) (next : option N) : BroadcastTelemetrySnapshot :=
  let s := inner c in
  let queued := lenN (buffer s) in
  let gone := (sender_count c =? 0) && (queued =? 0) in
  let health :=
    if receiver_count c =? 0 then "receiver_dropped"%string
    else if gone then "sender_closed"%string
    else if match next with Some n => n <? earliest_index s | None => false end then "lagged"%string
    else if match next with Some n => is_message_ready_for s n | None => false end then "value_ready"%string
    else if 0 <? len (wakers s) then "waiting"%string
    else match next with Some _ => "caught_up"%string | None => "open"%string end in
  mkSnapshot channel_id "broadcast" (capacity s) queued 0 0 (len (wakers s)) (receiver_count c) health (Some (lagged_receiver_count s))
    (cancellation_count s) ((receiver_count c =? 0) || gone).

Definition sender_telemetry_snapshot c (channel_id : N) : BroadcastTelemetrySnapshot := telemetry_snapshot c channel_id None.
Definition receiver_telemetry_snapshot c r (channel_id : N) : BroadcastTelemetrySnapshot := telemetry_snapshot c channel_id (Some (next_index r)).
Definition sender_len c : N := lenN (buffer (inner c)).
Definition sender_is_empty c : bool := sender_len c =? 0.

(** *** Handles and interleavings *)

Inductive Event := Got (v : T) | Missed (n : N).

(** A receiver, the future that borrows it, the waker of its last pending poll, the
    number of messages sent before it was created, and what it has heard.  A cloned
    receiver takes over where its original is. *)
Record Listener := mkListener { rcv : Receiver; future : option Recv; sleeps : option Waker; from : N; heard : list Event }.

Definition event_span (e : Event) : N := match e with Got _ => 1 | Missed n => n end.
Definition position (l : Listener) : N := from l + sum_over event_span (heard l).

Record System := mkSystem {
  chan : Channel;
  permits : N;
  closing : bool;            (* the last sender has decremented and not yet locked *)
  listeners : gmap N Listener;
  log : list T;              (* every message that was committed *)
}.
Implicit Types (y : System) (l : Listener).

Inductive Op :=
  | OReserve (cancelled : bool)
  | OSend (v : T)
  | ODropPermit
  | OSubscribe (id : N)
  | OCloneSender
  | ODropSender
  | OFinishClose
  | OTryRecv (id : N)
  | ORecv (id : N)
  | OPoll (id : N) (cancelled : bool) (w : Waker)
  | ODropRecv (id : N) (leak : bool)
  | OCloneReceiver (id new : N)
  | ODropReceiver (id : N).

Definition idle y (id : N) : bool := match listeners y !! id with Some l => bool_decide (future l = None) | None => false end.
Definition fresh y (id : N) : bool := bool_decide (listeners y !! id = None).

Definition enabled y (o : Op) : bool :=
  match o with
  | OReserve _ | OCloneSender => 0 <? sender_count (chan y)
  | OSend _ | ODropPermit => 0 <? permits y
  | OSubscribe id => (0 <? sender_count (chan y)) && fresh y id
  | ODropSender => (0 <? sender_count (chan y)) && ((1 <? sender_count (chan y)) || (permits y =? 0))
  | OFinishClose => closing y
  | OTryRecv id | ORecv id | ODropReceiver id => idle y id
  | OPoll id _ _ | ODropRecv id _ => match listeners y !! id with Some l => bool_decide (is_Some (future l)) | None => false end
  | OCloneReceiver id new => idle y id && fresh y new
  end.

Definition wake (ws : list Waker) l : Listener :=
  mkListener (rcv l) (future l) (match sleeps l with Some w => if bool_decide (w ∈ ws) then None else Some w | None => None end) (from l) (heard l).

Definition with_chan y c : System := mkSystem c (permits y) (closing y) (listeners y) (log y).
Definition with_listener y c (id : N) l : System := mkSystem c (permits y) (closing y) (<[id := l]> (listeners y)) (log y).
Definition with_permits y c n : System := mkSystem c n (closing y) (listeners y) (log y).
Definition woken_by y c (ws : list Waker) (shut : bool) (extra : list T) : System := mkSystem c (permits y) shut (wake ws <$> listeners y) (log y ++ extra).

Definition heard_try (res : result T TryRecvError) : list Event :=
  match res with Ok v => [Got v] | Err (TryLagged n) => [Missed n] | _ => [] end.
Definition heard_poll (p : poll (result T RecvError)) : list Event :=
  match p with Ready (Ok v) => [Got v] | Ready (Err (RecvLagged n)) => [Missed n] | _ => [] end.

Definition sys_step y (o : Op) : exec System :=
  let c := chan y in
  match o with
  | OReserve cancelled => let '(c, res) := reserve c cancelled in Done (with_permits y c (match res with Ok _ => permits y + 1 | Err _ => permits y end))
  | OSend v =>
      let '(c', ws, n) := permit_send c v in
      let y := woken_by y c' ws (closing y) (if n =? 0 then [] else [v]) in Done (with_permits y (chan y) (permits y - 1))
  | ODropPermit => Done (with_permits y c (permits y - 1))
  | OSubscribe id => '(c, r) ← subscribe c; Done (with_listener y c id (mkListener r None None (lenN (log y)) []))
  | OCloneSender => Done (with_chan y (sender_clone c))
  | ODropSender => let '(c, last) := sender_release c in Done (mkSystem c (permits y) (last || closing y) (listeners y) (log y))
  | OFinishClose => let '(c, ws) := sender_drain c in Done (woken_by y c ws false [])
  | OTryRecv id =>
      match listeners y !! id with
      | Some l => let '(c, r, res) := try_recv c (rcv l) in Done (with_listener y c id (mkListener r (future l) (sleeps l) (from l) (heard l ++ heard_try res)))
      | None => Done y
      end
  | ORecv id =>
      match listeners y !! id with
      | Some l => Done (with_listener y c id (mkListener (rcv l) (Some (mkRecv None false)) None (from l) (heard l)))
      | None => Done y
      end
  | OPoll id cancelled w =>
      match listeners y !! id with
      | Some l =>
          match future l with
          | Some f =>
              '(c, r, f, p) ← recv_poll c (rcv l) f cancelled w;
              Done (with_listener y c id (mkListener r (Some f) (match p with Pending => Some w | Ready _ => None end) (from l) (heard l ++ heard_poll p)))
          | None => Done y
          end
      | None => Done y
      end
  | ODropRecv id leak =>
      match listeners y !! id with
      | Some l =>
          match future l with
          | Some f => Done (with_listener y (if leak then c else recv_drop c f) id (mkListener (rcv l) None None (from l) (heard l)))
          | None => Done y
          end
      | None => Done y
      end
  | OCloneReceiver id new =>
      match listeners y !! id with
      | Some l => '(c, r) ← receiver_clone c (rcv l); Done (with_listener y c new (mkListener r None None (position l) []))
      | None => Done y
      end
  | ODropReceiver id =>
      match listeners y !! id with
      | Some l => Done (mkSystem (receiver_drop c (rcv l)) (permits y) (closing y) (delete id (listeners y)) (log y))
      | None => Done y
      end
  end.

Definition sys_new (cap : N) : exec System :=
  '(c, r) ← channel cap; Done (mkSystem c 0 false {[0 := mkListener r None None 0 []]} []).

Inductive reachable (cap : N) : N → System → Prop :=
  | reach_new y : sys_new cap = Done y → reachable cap 0 y
  | reach_step t y o y' : reachable cap t y → enabled y o = true → sys_step y o = Done y' → reachable cap (t + 1) y'.

(** *** What receivers should hear *)

(** What a receiver heard of all messages [ms], from one position to another. *)
Inductive hears (ms : list T) (start : N) : list Event → N → Prop :=
  | hears_nothing : hears ms start [] start
  | hears_got es pos v : hears ms start es pos → ms !! N.to_nat pos = Some v → hears ms start (es ++ [Got v]) (pos + 1)
  | hears_missed es pos n : hears ms start es pos → 0 < n → pos + n ≤ lenN ms → hears ms start (es ++ [Missed n]) (pos + n).

Lemma hears_app ms extra start es pos : hears ms start es pos → hears (ms ++ extra) start es pos.
Proof.
  induction 1 as [|es pos v _ IH Hv|es pos n _ IH Hn Hp]; [constructor|constructor; [done|by apply lookup_app_l_Some]|]. constructor; [done|done|]. rewrite len_app. lia.
Qed.

Lemma hears_position ms start es pos : hears ms start es pos → pos = start + sum_over event_span es.
Proof. induction 1; rewrite ?sum_over_app; simpl; lia. Qed.

(** The messages from position [b] on, as the buffer numbers them. *)
Definition number (b : N) (ms : list T) : list Slot := imap (λ k v, mkSlot v (b + N.of_nat k)) ms.

Lemma number_app b ms v : number b (ms ++ [v]) = number b ms ++ [mkSlot v (b + lenN ms)].
Proof. unfold number. rewrite imap_app. simpl. rewrite Nat.add_0_r. done. Qed.

Lemma number_tail b ms : tail (number b ms) = number (b + 1) (tail ms).
Proof. destruct ms as [|v ms]; [done|]. unfold number. simpl. apply imap_ext. intros k x _. simpl. f_equal. lia. Qed.

Lemma number_len b ms : lenN (number b ms) = lenN ms.
Proof. unfold lenN, number. by rewrite length_imap. Qed.

(** *** The invariant *)

Definition known {V} (a : Arena V) (token : ArenaIndex) : Prop := live a token ∨ spent a token.
Definition token_of (f : option Recv) : option ArenaIndex := match f with Some f => waiter f | None => None end.
Definition waits_with l (token : ArenaIndex) : Prop := token_of (future l) = Some token.

Record buffer_ok s (ms : list T) (b : N) : Prop := {
  bo_base : b ≤ lenN ms;
  bo_buffer : buffer s = number b (dropN b ms);
  bo_total : total_sent s = lenN ms;
  bo_room : 0 < capacity s ∧ lenN ms - b ≤ capacity s;
}.

Record listener_ok c (shut : bool) (ms : list T) (b : N) l : Prop := {
  lo_next : next_index (rcv l) ≤ lenN ms;
  lo_room : lenN ms - b = capacity (inner c) ∨ b ≤ next_index (rcv l);
  lo_heard : hears ms (from l) (heard l) (next_index (rcv l));
  lo_cursor : get (receiver_cursors (inner c)) (receiver_token (rcv l)) = Some (next_index (rcv l));
  lo_token token : waits_with l token → known (wakers (inner c)) token;
  lo_sleep w : sleeps l = Some w → ∃ f token, future l = Some f ∧ completed f = false ∧ waiter f = Some token ∧ get (wakers (inner c)) token = Some w ∧
    next_index (rcv l) = lenN ms ∧ (0 < sender_count c ∨ shut = true);
}.

Definition apart (ls : gmap N Listener) : Prop :=
  ∀ i j li lj, ls !! i = Some li → ls !! j = Some lj → i ≠ j →
    receiver_token (rcv li) ≠ receiver_token (rcv lj) ∧ ∀ token, waits_with li token → ¬ waits_with lj token.

Record inv (cap t : N) y : Prop := {
  i_wakers : arena_wf (wakers (inner (chan y)));
  i_cursors : arena_wf (receiver_cursors (inner (chan y)));
  i_capacity : capacity (inner (chan y)) = cap;
  i_time : lenN (log y) ≤ t ∧ N.of_nat (size (listeners y)) ≤ t + 1 ∧ sender_count (chan y) ≤ t + 1;
  i_receivers : receiver_count (chan y) = N.of_nat (size (listeners y));
  i_senders : closing y = true → sender_count (chan y) = 0;
  i_apart : apart (listeners y);
  i_buffer : ∃ b, buffer_ok (inner (chan y)) (log y) b ∧ (∀ id l, listeners y !! id = Some l → listener_ok (chan y) (closing y) (log y) b l);
}.

Lemma earliest_base s ms b : buffer_ok s ms b → earliest_index s = b.
Proof.
  intros [Hb Hbuf Ht _]. unfold earliest_index. rewrite Hbuf. destruct (dropN b ms) as [|v l] eqn:Ed; simpl; [|lia].
  assert (lenN (dropN b ms) = 0) as H by (by rewrite Ed). rewrite len_dropN in H. lia.
Qed.

Lemma message_base s ms b next : buffer_ok s ms b → b ≤ next → message_at s next = (λ v, mkSlot v next) <$> ms !! N.to_nat next.
Proof.
  intros Hok Hn. unfold message_at, saturating_sub. rewrite (earliest_base s ms b Hok). destruct Hok as [Hb Hbuf _ _]. rewrite Hbuf. unfold number. rewrite list_lookup_imap. unfold dropN.
  rewrite lookup_drop. replace (N.to_nat b + N.to_nat (next - b))%nat with (N.to_nat next) by lia. destruct (ms !! N.to_nat next); [|done]. simpl. repeat f_equal. lia.
Qed.

(** *** Wakers

    What one future does to the arena of wakers leaves the tokens of others alone. *)
Record wakers_step (ws ws' : Arena Waker) (mine mine' : option ArenaIndex) : Prop := {
  ws_wf : arena_wf ws';
  ws_le : slots_le (slots ws) (slots ws');
  ws_others token : known ws token → mine ≠ Some token → get ws' token = get ws token;
  ws_mine token : mine' = Some token → known ws' token ∧ (mine = Some token ∨ ¬ known ws token);
}.

Lemma wakers_same ws mine : arena_wf ws → wakers_step ws ws mine None.
Proof. intros Hwf. by split. Qed.

Lemma wakers_remove s mine : arena_wf (wakers s) → wakers_step (wakers s) (wakers (remove_waker s mine)) mine None.
Proof.
  intros Hwf. destruct mine as [token|]; [|by apply wakers_same]. simpl. pose proof (remove_spec (wakers s) token Hwf) as Hr. destruct (remove (wakers s) token) as [ws' [v|]]; simpl.
  - destruct Hr as [_ [H1 H2 H3 H4 _ _]]. split; [done|done| |done]. intros token' _ Hne. rewrite H4, decide_False; [done|congruence].
  - destruct Hr as [_ ->]. by apply wakers_same.
Qed.

Lemma wakers_insert ws mine w ws' token : arena_wf ws → insert ws w = Done (ws', token) → wakers_step ws ws' mine (Some token) ∧ get ws' token = Some w.
Proof.
  intros Hwf Hi. pose proof (insert_with_spec ws (λ _, w) Hwf) as Hp. rewrite <- insert_insert_with, Hi in Hp. destruct Hp as [H1 H2 H3 H4 _]. split.
  - split; [done|done| |].
    + intros token' Hk _. rewrite H4, decide_False; [done|]. intros ->. unfold known in Hk. tauto.
    + intros token' [= <-]. split; [left; apply live_get; rewrite H4, decide_True by done; eauto|right; unfold known; tauto].
  - by rewrite H4, decide_True.
Qed.

Lemma register_ok s mine w s' mine' : arena_wf (wakers s) → (∀ token, mine = Some token → known (wakers s) token) → register s mine w = Done (s', mine') →
  wakers_step (wakers s) (wakers s') mine mine' ∧ (∃ token, mine' = Some token ∧ get (wakers s') token = Some w) ∧ s' = set_wakers s (wakers s').
Proof.
  intros Hwf Hk. assert (Hfresh : ('(ws, token) ← insert (wakers s) w; Done (set_wakers s ws, Some token)) = Done (s', mine') →
    wakers_step (wakers s) (wakers s') mine mine' ∧ (∃ token, mine' = Some token ∧ get (wakers s') token = Some w) ∧ s' = set_wakers s (wakers s')).
  { destruct (insert (wakers s) w) as [[ws token]|] eqn:Ei; [|done]. intros [= <- <-]. destruct (wakers_insert (wakers s) mine w ws token Hwf Ei) as [H1 H2]. simpl. eauto. }
  unfold register. destruct mine as [token|]; [|exact Hfresh]. pose proof (get_mut_spec (wakers s) token Hwf) as Hg. destruct (get_mut (wakers s) token) as [[existing put]|]; [|exact Hfresh].
  destruct Hg as [Hg Hput]. intros [= <- <-]. destruct (N.eqb_spec existing w) as [->|_].
  - split_and!; [split; [done|done|done|]; intros t' [= <-]; auto|eauto|by destruct s].
  - destruct (Hput w) as (P1 & P2 & _ & P4). simpl. split_and!; [|exists token; by rewrite P4, decide_True|done]. split; [done|done| |].
    + intros t' _ Hne. rewrite P4, decide_False; [done|congruence].
    + intros t' [= <-]. split; [left; apply live_get; rewrite P4, decide_True by done; eauto|auto].
Qed.

(** Draining wakes everyone who is registered. *)
Lemma drain_wakes (ws : Arena Waker) : arena_wf ws → let '(ws', vs) := drain_values ws in
  arena_wf ws' ∧ slots_le (slots ws) (slots ws') ∧ ∀ token w, get ws token = Some w → w ∈ vs.
Proof.
  intros Hwf. destruct (drain_values ws) as [ws' vs] eqn:Ed. destruct (drain_values_spec ws ws' vs Hwf Ed) as (H1 & H2 & -> & _). split_and!; [done|done|].
  intros token w Hg. apply iter_get in Hg. apply list_elem_of_fmap. exists (token, w). done.
Qed.

(** *** Steps *)

(** Only the cursor of the receiver moves. *)
Lemma cursor_moved s token old next : arena_wf (receiver_cursors s) → get (receiver_cursors s) token = Some old →
  let s' := update_receiver_cursor s token next in
  s' = set_cursors s (receiver_cursors s') ∧ arena_wf (receiver_cursors s') ∧
  ∀ j, get (receiver_cursors s') j = if decide (j = token) then Some next else get (receiver_cursors s) j.
Proof.
  intros Hwf Hg. unfold update_receiver_cursor. pose proof (get_mut_spec (receiver_cursors s) token Hwf) as Hm. destruct (get_mut (receiver_cursors s) token) as [[v put]|]; [|congruence].
  destruct Hm as [_ Hput]. destruct (Hput next) as (H1 & _ & _ & H4). simpl. done.
Qed.

Lemma fetch_spec c r ms b : buffer_ok (inner c) ms b → arena_wf (receiver_cursors (inner c)) → get (receiver_cursors (inner c)) (receiver_token r) = Some (next_index r) →
  next_index r ≤ lenN ms → lenN ms < u64_MAX →
  let '(c', r', got) := fetch c r in
  ∃ a, c' = set_shared c (set_cursors (inner c) a) ∧ arena_wf a ∧ receiver_token r' = receiver_token r ∧
  (∀ j, get a j = if decide (j = receiver_token r) then Some (next_index r') else get (receiver_cursors (inner c)) j) ∧
  match got with
  | FetchLagged n => next_index r < b ∧ n = b - next_index r ∧ next_index r' = b
  | FetchGot v => b ≤ next_index r ∧ ms !! N.to_nat (next_index r) = Some v ∧ next_index r' = next_index r + 1
  | FetchNone => next_index r = lenN ms ∧ r' = r
  end.
Proof.
  intros Hok Hwf Hg Hn Hmax. unfold fetch. rewrite (earliest_base _ _ _ Hok). destruct (N.ltb_spec (next_index r) b) as [Hlt|Hge].
  { destruct (cursor_moved (inner c) (receiver_token r) _ b Hwf Hg) as (H1 & H2 & H3). eexists. simpl. split_and!; [by rewrite <- H1|done..]. }
  rewrite (message_base _ _ _ _ Hok Hge). destruct (ms !! N.to_nat (next_index r)) as [v|] eqn:Em; simpl.
  - pose proof (lookup_lt_Some _ _ _ Em) as Hl. rewrite wrapping_add_exact by (unfold lenN in *; lia).
    destruct (cursor_moved (inner c) (receiver_token r) _ (next_index r + 1) Hwf Hg) as (H1 & H2 & H3). eexists. split_and!; [by rewrite <- H1|done..].
  - apply lookup_ge_None in Em. exists (receiver_cursors (inner c)). split_and!; try done; [by destruct c as [? ? []]| |unfold lenN in *; lia]. intros j. case_decide as Hj; [by rewrite Hj|done].
Qed.

Lemma update_listener cap t y id l l' c' :
  inv cap t y → listeners y !! id = Some l → sender_count c' = sender_count (chan y) → receiver_count c' = receiver_count (chan y) →
  buffer (inner c') = buffer (inner (chan y)) → capacity (inner c') = capacity (inner (chan y)) → total_sent (inner c') = total_sent (inner (chan y)) →
  arena_wf (receiver_cursors (inner c')) → receiver_token (rcv l') = receiver_token (rcv l) →
  (∀ j, get (receiver_cursors (inner c')) j = if decide (j = receiver_token (rcv l)) then Some (next_index (rcv l')) else get (receiver_cursors (inner (chan y))) j) →
  wakers_step (wakers (inner (chan y))) (wakers (inner c')) (token_of (future l)) (token_of (future l')) →
  (∀ b, buffer_ok (inner (chan y)) (log y) b → listener_ok (chan y) (closing y) (log y) b l →
     next_index (rcv l') ≤ lenN (log y) ∧ (b ≤ next_index (rcv l) → b ≤ next_index (rcv l')) ∧ hears (log y) (from l') (heard l') (next_index (rcv l'))) →
  (∀ w, sleeps l' = Some w → ∃ f token, future l' = Some f ∧ completed f = false ∧ waiter f = Some token ∧ get (wakers (inner c')) token = Some w ∧
     next_index (rcv l') = lenN (log y) ∧ (0 < sender_count (chan y) ∨ closing y = true)) →
  inv cap (t + 1) (with_listener y c' id l').
Proof.
  intros [I1 I2 I3 I4 I5 I6 I7 (b & Hb & Hls)] Hl Es Er Eb Ec Et Hcw Etok Hcg [W1 W2 W3 W4] Hnew Hsleep. pose proof (Hls id l Hl) as Hlok.
  assert (Hsize : size (<[id := l']> (listeners y)) = size (listeners y)) by (rewrite map_size_insert_Some; [done|by exists l]).
  split; simpl; rewrite ?Es, ?Er, ?Hsize, ?Ec; try done; [lia| |].
  - intros i j li lj Hi Hj Hij. apply lookup_insert_Some in Hi as [[<- <-]|[Hni Hi]]; apply lookup_insert_Some in Hj as [[<- <-]|[Hnj Hj]]; [done| | |by apply (I7 i j)].
    + destruct (I7 id j l lj Hl Hj Hij) as [A1 A2]. split; [congruence|]. intros token Ht Ht'. destruct (W4 token Ht) as [_ [Hm|Hu]]; [by apply (A2 token)|]. by apply Hu, (lo_token _ _ _ _ _ (Hls j lj Hj)).
    + destruct (I7 i id li l Hi Hl Hij) as [A1 A2]. split; [congruence|]. intros token Ht Ht'. destruct (W4 token Ht') as [_ [Hm|Hu]]; [by apply (A2 token)|]. by apply Hu, (lo_token _ _ _ _ _ (Hls i li Hi)).
  - exists b. split; [destruct Hb as [B1 B2 B3 B4]; split; rewrite ?Eb, ?Et, ?Ec; done|]. intros j lj Hj. apply lookup_insert_Some in Hj as [[<- <-]|[Hne Hj]].
    + destruct (Hnew b Hb Hlok) as (N1 & N2 & N3). split; rewrite ?Es, ?Ec; try done.
      * destruct (lo_room _ _ _ _ _ Hlok); [by left|right; auto].
      * by rewrite Hcg, Etok, decide_True.
      * intros token Ht. by apply W4.
    + destruct (Hls j lj Hj) as [L1 L2 L3 L4 L5 L6]. destruct (I7 j id lj l Hj Hl ltac:(done)) as [A1 A2]. split; rewrite ?Es, ?Ec; try done.
      * by rewrite Hcg, decide_False.
      * intros token Ht. apply (known_mono (wakers (inner (chan y)))); [done|]. by apply L5.
      * intros w Hw. destruct (L6 w Hw) as (f & token & F1 & F2 & F3 & F4 & F5 & F6). exists f, token. split_and!; try done.
        rewrite W3; [done|apply L5; unfold waits_with; by rewrite F1|]. intros Hm. apply (A2 token); [unfold waits_with; by rewrite F1|done].
Qed.

Lemma wakers_refl ws mine : arena_wf ws → (∀ token, mine = Some token → known ws token) → wakers_step ws ws mine mine.
Proof. intros Hwf Hk. split; [done|done|done|]. auto. Qed.

Lemma cursor_refl (a : Arena N) token v : get a token = Some v → ∀ j, get a j = if decide (j = token) then Some v else get a j.
Proof. intros Hg j. case_decide as Hj; [by rewrite Hj|done]. Qed.

Lemma broadcast_try_recv_step cap t y id y' : inv cap t y → t + 2 ≤ u64_MAX → enabled y (OTryRecv id) = true → sys_step y (OTryRecv id) = Done y' → inv cap (t + 1) y'.
Proof.
  intros Hinv Ht He. pose proof Hinv as [I1 I2 I3 I4 I5 I6 I7 (b & Hb & Hls)]. simpl in He |- *. unfold idle in He. destruct (listeners y !! id) as [l|] eqn:El; [|done].
  apply bool_decide_eq_true in He. pose proof (Hls id l El) as [L1 L2 L3 L4 L5 L6].
  pose proof (fetch_spec (chan y) (rcv l) (log y) b Hb I2 L4 L1 ltac:(lia)) as Hf. unfold try_recv. destruct (fetch (chan y) (rcv l)) as [[c' r'] got]. destruct Hf as (a & -> & F2 & F3 & F4 & F5).
  intros [= <-]. eapply update_listener; [exact Hinv|exact El|done|done|done|done|done|exact F2|exact F3|exact F4| | |].
  - simpl. rewrite He. by apply wakers_same.
  - intros b' Hb' _. assert (b' = b) as -> by (rewrite <- (earliest_base _ _ _ Hb'); by apply (earliest_base _ _ _ Hb)). simpl. destruct got as [n|v|].
    + destruct F5 as (F5 & -> & ->). split_and!; [apply (bo_base _ _ _ Hb)|done|]. simpl. replace b with (next_index (rcv l) + (b - next_index (rcv l))) at 2 by lia. constructor; [done|lia|]. pose proof (bo_base _ _ _ Hb). lia.
    + destruct F5 as (F5 & F6 & ->). split_and!; [pose proof (lookup_lt_Some _ _ _ F6); unfold lenN; lia|lia|]. by constructor.
    + destruct F5 as [F5 ->]. split_and!; [lia|done|]. simpl. destruct (sender_count _ =? 0); simpl; by rewrite app_nil_r.
  - simpl. intros w Hw. destruct (L6 w Hw) as (f & _ & F & _). congruence.
Qed.

(** A listener that stays where it is. *)
Lemma still l ms b c shut : listener_ok c shut ms b l → ∀ b', buffer_ok (inner c) ms b' → next_index (rcv l) ≤ lenN ms ∧ (b' ≤ next_index (rcv l) → b' ≤ next_index (rcv l)) ∧ hears ms (from l) (heard l ++ []) (next_index (rcv l)).
Proof. intros [L1 _ L3 _ _ _] b' _. rewrite app_nil_r. auto. Qed.

Lemma remove_waker_ok s mine : arena_wf (wakers s) → ∃ ws, remove_waker s mine = set_wakers s ws ∧ wakers_step (wakers s) ws mine None.
Proof. intros Hwf. exists (wakers (remove_waker s mine)). split; [|by apply wakers_remove]. destruct mine; [done|]. by destruct s. Qed.

Lemma recv_poll_step cap t y id cancelled w y' : inv cap t y → t + 2 ≤ u64_MAX → enabled y (OPoll id cancelled w) = true → sys_step y (OPoll id cancelled w) = Done y' → inv cap (t + 1) y'.
Proof.
  intros Hinv Ht He. pose proof Hinv as [I1 I2 I3 I4 I5 I6 I7 (b & Hb & Hls)]. simpl in He |- *. destruct (listeners y !! id) as [l|] eqn:El; [|done].
  apply bool_decide_eq_true in He as [f Ef]. rewrite Ef. pose proof (Hls id l El) as Hlok. pose proof Hlok as [L1 L2 L3 L4 L5 L6]. unfold waits_with in L5. rewrite Ef in L5.
  pose proof (cursor_refl _ _ _ L4) as Hsame.
  unfold recv_poll. destruct (completed f) eqn:Ec.
  { intros [= <-]. eapply update_listener; try done; simpl; [rewrite Ef; by apply wakers_refl|]. intros b' Hb' _. by eapply still. }
  unfold poll_recv_with_waiter. destruct cancelled.
  { intros [= <-]. destruct (remove_waker_ok (inner (chan y)) (waiter f) I1) as (ws & -> & Hr). eapply update_listener; try done; simpl; [by rewrite Ef|].
    intros b' Hb' _. by eapply still. }
  pose proof (fetch_spec (chan y) (rcv l) (log y) b Hb I2 L4 L1 ltac:(lia)) as Hf. destruct (fetch (chan y) (rcv l)) as [[c' r'] got]. destruct Hf as (a & -> & F2 & F3 & F4 & F5).
  set (c2 := set_shared (chan y) (set_cursors (inner (chan y)) a)).
  assert (Hdone : ∀ res, (∀ b', buffer_ok (inner (chan y)) (log y) b' → next_index r' ≤ lenN (log y) ∧ (b' ≤ next_index (rcv l) → b' ≤ next_index r') ∧ hears (log y) (from l) (heard l ++ heard_poll (Ready res)) (next_index r')) →
    ('(c, r, f0, p) ← ('(c, r, w0, p) ← Done (set_shared c2 (remove_waker (inner c2) (waiter f)), r', None, Ready res); Done (c, r, mkRecv w0 (match p with Ready _ => true | Pending => false end), p));
     Done (with_listener y c id (mkListener r (Some f0) (match p with Pending => Some w | Ready _ => None end) (from l) (heard l ++ heard_poll p)))) = Done y' → inv cap (t + 1) y').
  { intros res Hres [= <-]. destruct (remove_waker_ok (inner c2) (waiter f) I1) as (ws & Eo & Hr). simpl in Eo. rewrite Eo. eapply update_listener; [exact Hinv|exact El|done..|exact F2|exact F3|exact F4|simpl; by rewrite Ef| |done].
    intros b' Hb' _. by apply Hres. }
  assert (Hbase : ∀ b', buffer_ok (inner (chan y)) (log y) b' → b' = b) by (intros b' Hb'; rewrite <- (earliest_base _ _ _ Hb'); by apply (earliest_base _ _ _ Hb)).
  pose proof (bo_base _ _ _ Hb) as Hble. destruct got as [n|v|].
  - destruct F5 as (F5 & -> & E5). apply Hdone. intros b' ->%Hbase. rewrite E5. split_and!; [done|done|]. simpl. replace b with (next_index (rcv l) + (b - next_index (rcv l))) at 2 by lia. constructor; [done|lia|lia].
  - destruct F5 as (F5 & F6 & E5). apply Hdone. intros b' ->%Hbase. rewrite E5. split_and!; [pose proof (lookup_lt_Some _ _ _ F6); unfold lenN; lia|lia|]. by constructor.
  - destruct F5 as [F5 E5]. destruct (N.eqb_spec (sender_count c2) 0) as [Es|Es]; [apply Hdone; intros b' Hb'; rewrite E5; by eapply still|].
    destruct (register (inner c2) (waiter f) w) as [[s' mine']|] eqn:Er; [|done]. simpl. intros [= <-].
    destruct (register_ok (inner c2) (waiter f) w s' mine' I1 L5 Er) as (R1 & (token & -> & R2) & R3). rewrite R3. subst r'. eapply update_listener; try done; simpl; [rewrite Ef; exact R1|intros b' Hb' _; by eapply still|].
    intros w' [= <-]. exists (mkRecv (Some token) false), token. split_and!; try done. left. simpl in Es. lia.
Qed.

Lemma drop_recv_step cap t y id leak y' : inv cap t y → enabled y (ODropRecv id leak) = true → sys_step y (ODropRecv id leak) = Done y' → inv cap (t + 1) y'.
Proof.
  intros Hinv He. pose proof Hinv as [I1 I2 I3 I4 I5 I6 I7 (b & Hb & Hls)]. simpl in He |- *. destruct (listeners y !! id) as [l|] eqn:El; [|done].
  apply bool_decide_eq_true in He as [f Ef]. rewrite Ef. pose proof (Hls id l El) as Hlok. pose proof Hlok as [L1 L2 L3 L4 L5 L6]. pose proof (cursor_refl _ _ _ L4) as Hsame. intros [= <-].
  assert (Hat : ∀ c', c' = chan y ∨ (∃ k, c' = set_shared (chan y) k ∧ (k = remove_waker (inner (chan y)) (waiter f) ∨ k = record_cancellation (remove_waker (inner (chan y)) (waiter f)))) →
    inv cap (t + 1) (with_listener y c' id (mkListener (rcv l) None None (from l) (heard l)))).
  { destruct (remove_waker_ok (inner (chan y)) (waiter f) I1) as (ws & -> & Hr). intros c' [->|(k & -> & [->| ->])];
      (eapply update_listener; [exact Hinv|exact El|done..|exact I2|done|exact Hsame|simpl; rewrite Ef; first [exact Hr|by apply wakers_same]|by intros b' Hb' _; split_and!|done]). }
  apply Hat. destruct leak; [by left|right]. unfold recv_drop. destruct (negb _ && _); eexists; (split; [reflexivity|auto]).
Qed.

(** Everyone is woken: nobody sleeps, and tokens are stale. *)
Lemma woken_listener c c' shut shut' ms ms' b b' l ws vs : listener_ok c shut ms b l → (∀ token w, get (wakers (inner c)) token = Some w → w ∈ vs) →
  wakers (inner c') = ws → slots_le (slots (wakers (inner c))) (slots ws) → receiver_cursors (inner c') = receiver_cursors (inner c) →
  (∃ extra, ms' = ms ++ extra) → (lenN ms' - b' = capacity (inner c') ∨ b' ≤ next_index (rcv l)) → listener_ok c' shut' ms' b' (wake vs l).
Proof.
  intros [L1 L2 L3 L4 L5 L6] Hv Ew Hle Ec [extra ->] Hroom. split; simpl; [rewrite len_app; lia|done|by apply hears_app|by rewrite Ec| |].
  - intros token Ht. rewrite Ew. eapply known_mono; [exact Hle|]. by apply L5.
  - intros w Hw. destruct (sleeps l) as [w0|] eqn:Es; [|done]. case_bool_decide as Hin; [done|]. simplify_eq. destruct (L6 w eq_refl) as (f & token & _ & _ & _ & Hg & _). destruct Hin. by apply (Hv token).
Qed.

Lemma apart_wake ls vs : apart ls → apart (wake vs <$> ls).
Proof.
  intros Ha i j li lj Hi Hj Hij. apply lookup_fmap_Some in Hi as (li0 & <- & Hi). apply lookup_fmap_Some in Hj as (lj0 & <- & Hj). by apply (Ha i j li0 lj0).
Qed.

Lemma finish_close_step cap t y y' : inv cap t y → enabled y OFinishClose = true → sys_step y OFinishClose = Done y' → inv cap (t + 1) y'.
Proof.
  intros [I1 I2 I3 I4 I5 I6 I7 (b & Hb & Hls)] He. simpl in *. unfold sender_drain. pose proof (drain_wakes _ I1) as Hd. destruct (drain_values (wakers (inner (chan y)))) as [ws vs]. destruct Hd as (D1 & D2 & D3).
  intros [= <-]. split; simpl; rewrite ?app_nil_r, ?map_size_fmap; try done; [lia|by apply apart_wake|]. exists b. split; [by destruct Hb|].
  intros id l Hl. apply lookup_fmap_Some in Hl as (l0 & <- & Hl). pose proof (Hls id l0 Hl) as Hl0. eapply (woken_listener (chan y)); [exact Hl0|exact D3|done|exact D2|done|by exists []; rewrite app_nil_r|]. exact (lo_room _ _ _ _ _ Hl0).
Qed.

Lemma wake_nothing (ls : gmap N Listener) : wake [] <$> ls = ls.
Proof. rewrite <- (map_fmap_id ls) at 2. apply map_fmap_ext. intros i l _. destruct l as [r f [w|] n h]; [|done]. done. Qed.

Lemma tail_dropN {A} b (ms : list A) : tail (dropN b ms) = dropN (b + 1) ms.
Proof. unfold dropN. replace (N.to_nat (b + 1)) with (N.to_nat b + 1)%nat by lia. rewrite <- drop_drop. by destruct (drop (N.to_nat b) ms). Qed.

(** Pushing a message: the oldest goes when the buffer is full. *)
Lemma push_buffer s ms b v : buffer_ok s ms b →
  let full := lenN (buffer s) =? capacity s in
  let b' := if full then b + 1 else b in
  (if full then tail (buffer s) else buffer s) ++ [mkSlot v (total_sent s)] = number b' (dropN b' (ms ++ [v])) ∧ b' ≤ lenN ms ∧ lenN (ms ++ [v]) - b' ≤ capacity s ∧
  (full = true → lenN (ms ++ [v]) - b' = capacity s) ∧ (full = false → lenN ms - b ≠ capacity s).
Proof.
  intros [B1 B2 B3 [B4 B5]]. rewrite B2, number_len, len_dropN, B3. cbv zeta. rewrite len_app. change (lenN [v]) with 1.
  assert (Hpush : ∀ d, d ≤ lenN ms → number d (dropN d ms) ++ [mkSlot v (lenN ms)] = number d (dropN d (ms ++ [v]))).
  { intros d Hd. rewrite dropN_app_le by done. rewrite number_app, len_dropN. repeat f_equal. lia. }
  destruct (N.eqb_spec (lenN ms - b) (capacity s)) as [E'|E'].
  - rewrite number_tail, tail_dropN. split_and!; [apply Hpush; lia|lia|lia|lia|done].
  - split_and!; [by apply Hpush|lia|lia|done|done].
Qed.

Lemma broadcast_send_step cap t y v y' : inv cap t y → t + 2 ≤ u64_MAX → enabled y (OSend v) = true → sys_step y (OSend v) = Done y' → inv cap (t + 1) y'.
Proof.
  intros [I1 I2 I3 I4 I5 I6 I7 (b & Hb & Hls)] Ht He. simpl in *. unfold permit_send. destruct (N.eqb_spec (receiver_count (chan y)) 0) as [Er|Er].
  { intros [= <-]. split; simpl; rewrite ?app_nil_r, ?wake_nothing; try done; [lia|]. by exists b. }
  pose proof (push_buffer (inner (chan y)) (log y) b v Hb) as Hp. cbv zeta in Hp. set (full := lenN (buffer (inner (chan y))) =? capacity (inner (chan y))) in *.
  replace (if full then (head (buffer (inner (chan y))), tail (buffer (inner (chan y)))) else (None, buffer (inner (chan y)))) with
    (if full then head (buffer (inner (chan y))) else None, if full then tail (buffer (inner (chan y))) else buffer (inner (chan y))) by (by destruct full).
  destruct Hp as (P1 & P2 & P3 & P4 & P5). set (b' := if full then b + 1 else b) in *. simpl. pose proof (drain_wakes _ I1) as Hd. destruct (drain_values (wakers (inner (chan y)))) as [ws vs]. destruct Hd as (D1 & D2 & D3).
  destruct (N.eqb_spec (receiver_count (chan y)) 0) as [|_]; [done|]. intros [= <-]. destruct Hb as [B1 B2 B3 [B4 B5]].
  split; simpl; rewrite ?map_size_fmap; try done; [rewrite len_app; change (lenN [v]) with 1; lia|by apply apart_wake|]. exists b'. split.
  - split; simpl; [rewrite len_app; lia|done| |done]. rewrite B3, len_app. apply wrapping_add_exact. change (lenN [v]) with 1. lia.
  - intros id l Hl. apply lookup_fmap_Some in Hl as (l0 & <- & Hl). pose proof (Hls id l0 Hl) as Hl0. eapply (woken_listener (chan y)); [exact Hl0|exact D3|done|exact D2|done|by exists [v]|]. simpl.
    destruct full; [left; by apply P4|right]. destruct (lo_room _ _ _ _ _ Hl0); [by destruct (P5 eq_refl)|done].
Qed.

(** A new listener, with a cursor of its own. *)
Lemma add_listener cap t y id c' r b' start : inv cap t y → t + 2 ≤ u64_MAX → listeners y !! id = None →
  sender_count c' = sender_count (chan y) → receiver_count c' = wrapping_add usize_MAX (receiver_count (chan y)) 1 →
  capacity (inner c') = capacity (inner (chan y)) → wakers (inner c') = wakers (inner (chan y)) →
  insert (receiver_cursors (inner (chan y))) (next_index r) = Done (receiver_cursors (inner c'), receiver_token r) →
  buffer_ok (inner c') (log y) b' → (∀ i l, listeners y !! i = Some l → listener_ok (chan y) (closing y) (log y) b' l) →
  next_index r ≤ lenN (log y) → (lenN (log y) - b' = capacity (inner c') ∨ b' ≤ next_index r) →
  start = next_index r → inv cap (t + 1) (with_listener y c' id (mkListener r None None start [])).
Proof.
  intros [I1 I2 I3 I4 I5 I6 I7 _] Ht Hid Es Er Ec Ew Hi Hb Hls Hn Hroom ->. pose proof (insert_with_spec (receiver_cursors (inner (chan y))) (λ _, next_index r) I2) as Hp. rewrite <- insert_insert_with, Hi in Hp. destruct Hp as [P1 _ [P3 _] P4 _].
  assert (Hsize : size (<[id := mkListener r None None (next_index r) []]> (listeners y)) = S (size (listeners y))) by (by apply map_size_insert_None).
  assert (Hother : ∀ j l, listeners y !! j = Some l → receiver_token (rcv l) ≠ receiver_token r).
  { intros j l Hj E'. apply P3, live_get. rewrite <- E', (lo_cursor _ _ _ _ _ (Hls j l Hj)). eauto. }
  split; simpl; rewrite ?Es, ?Er, ?Ec, ?Ew, ?Hsize; try done; [lia|rewrite I5; rewrite wrapping_add_exact; mlia| |].
  - intros i j li lj H1 H2 Hij. apply lookup_insert_Some in H1 as [[<- <-]|[Hni H1]]; apply lookup_insert_Some in H2 as [[<- <-]|[Hnj H2]]; [done| | |by apply (I7 i j)].
    + split; [intros E'; by apply (Hother j lj)|done].
    + split; [by apply (Hother i li)|]. by intros token _ [=].
  - exists b'. split; [done|]. intros j l Hj. apply lookup_insert_Some in Hj as [[<- <-]|[Hne Hj]].
    + split; simpl; try done; [constructor|]. by rewrite P4, decide_True.
    + destruct (Hls j l Hj) as [L1 L2 L3 L4 L5 L6]. split; rewrite ?Es, ?Ec, ?Ew; try done. rewrite P4, decide_False; [done|by apply (Hother j)].
Qed.

Lemma subscribe_step cap t y id y' : inv cap t y → t + 2 ≤ u64_MAX → enabled y (OSubscribe id) = true → sys_step y (OSubscribe id) = Done y' → inv cap (t + 1) y'.
Proof.
  intros Hinv Ht He. pose proof Hinv as [I1 I2 I3 I4 I5 I6 I7 (b & Hb & Hls)]. simpl in *. apply andb_true_iff in He as [_ Hid]. apply bool_decide_eq_true in Hid.
  unfold subscribe. destruct (insert (receiver_cursors (inner (chan y))) (total_sent (inner (chan y)))) as [[a token]|] eqn:Ei; [|done]. simpl.
  pose proof Hb as [B1 B2 B3 [B4 B5]]. destruct (N.eqb_spec (receiver_count (chan y)) 0) as [Er|Er]; simpl; intros [= <-].
  - assert (listeners y = ∅) as Hnone by (apply map_size_empty_iff; lia). eapply (add_listener cap t y id _ (mkReceiver _ _) (lenN (log y))); try done; simpl; rewrite ?B3; try lia.
    + split; simpl; [lia| |done|lia]. unfold dropN. rewrite drop_ge; [done|unfold lenN; lia].
    + intros i l. by rewrite Hnone, lookup_empty.
  - eapply (add_listener cap t y id _ (mkReceiver _ _) b); try done; simpl; rewrite ?B3; try done; try lia.
Qed.

Lemma clone_receiver_step cap t y id new y' : inv cap t y → t + 2 ≤ u64_MAX → enabled y (OCloneReceiver id new) = true → sys_step y (OCloneReceiver id new) = Done y' → inv cap (t + 1) y'.
Proof.
  intros Hinv Ht He. pose proof Hinv as [I1 I2 I3 I4 I5 I6 I7 (b & Hb & Hls)]. simpl in *. apply andb_true_iff in He as [He Hid]. apply bool_decide_eq_true in Hid. unfold idle in He.
  destruct (listeners y !! id) as [l|] eqn:El; [|done]. pose proof (Hls id l El) as [L1 L2 L3 L4 L5 L6]. unfold receiver_clone.
  destruct (insert (receiver_cursors (inner (chan y))) (next_index (rcv l))) as [[a token]|] eqn:Ei; [|done]. simpl. intros [= <-].
  eapply (add_listener cap t y new _ (mkReceiver _ _) b); try done; [by destruct Hb|]. symmetry. apply (hears_position _ _ _ _ L3).
Qed.

Lemma drop_receiver_step cap t y id y' : inv cap t y → t + 2 ≤ u64_MAX → enabled y (ODropReceiver id) = true → sys_step y (ODropReceiver id) = Done y' → inv cap (t + 1) y'.
Proof.
  intros [I1 I2 I3 I4 I5 I6 I7 (b & Hb & Hls)] Ht He. simpl in *. unfold idle in He. destruct (listeners y !! id) as [l|] eqn:El; [|done]. intros [= <-].
  pose proof (Hls id l El) as Hl. pose proof (remove_spec (receiver_cursors (inner (chan y))) (receiver_token (rcv l)) I2) as Hr. unfold receiver_drop.
  destruct (remove (receiver_cursors (inner (chan y))) (receiver_token (rcv l))) as [a [v|]]; [|destruct Hr as [Hr _]; rewrite (lo_cursor _ _ _ _ _ Hl) in Hr; done]. destruct Hr as [_ [R1 _ _ R4 _ _]].
  assert (Hsize : S (size (delete id (listeners y))) = size (listeners y)). { rewrite map_size_delete, El. assert (size (listeners y) ≠ 0%nat); [|lia]. intros Hz%map_size_empty_iff. by rewrite Hz, lookup_empty in El. }
  assert (Hn : wrapping_sub usize_MAX (receiver_count (chan y)) 1 = N.of_nat (size (delete id (listeners y)))) by (rewrite I5, wrapping_sub_small; mlia).
  rewrite Hn. set (last := (receiver_count (chan y) =? 1) && (N.of_nat (size (delete id (listeners y))) =? 0)).
  assert (Hlast : last = true → delete id (listeners y) = ∅). { unfold last. intros H. apply andb_true_iff in H as [_ H]. apply N.eqb_eq in H. apply map_size_empty_iff. lia. }
  split; simpl; try done.
  - by destruct last.
  - by destruct last.
  - by destruct last.
  - lia.
  - intros i j li lj H1 H2 Hij. apply lookup_delete_Some in H1 as [_ H1]. apply lookup_delete_Some in H2 as [_ H2]. by apply (I7 i j).
  - pose proof Hb as [B1 B2 B3 [B4 B5]]. exists (if last then lenN (log y) else b). split.
    + destruct last; split; simpl; try done; try lia. unfold dropN. rewrite drop_ge; [done|unfold lenN; lia].
    + intros j lj Hj. destruct last eqn:Elast; [rewrite Hlast, lookup_empty in Hj; done|]. apply lookup_delete_Some in Hj as [Hne Hj]. destruct (Hls j lj Hj) as [L1 L2 L3 L4 L5 L6]. split; try done.
      simpl. rewrite R4, decide_False; [done|]. by apply (I7 j id lj l).
Qed.

(** Steps of the senders that touch no receiver. *)
Lemma sender_count_step cap t y n p shut : inv cap t y → n ≤ t + 2 → (shut = true → n = 0) → (0 < sender_count (chan y) ∨ closing y = true → 0 < n ∨ shut = true) →
  inv cap (t + 1) (mkSystem (mkChannel n (receiver_count (chan y)) (inner (chan y))) p shut (listeners y) (log y)).
Proof.
  intros [I1 I2 I3 I4 I5 I6 I7 (b & Hb & Hls)] Hn Hs Hopen. split; simpl; try done; [lia|]. exists b. split; [done|]. intros id l Hl. destruct (Hls id l Hl) as [L1 L2 L3 L4 L5 L6]. split; try done.
  intros w Hw. destruct (L6 w Hw) as (f & token & ? & ? & ? & ? & ? & ?). exists f, token. split_and!; auto.
Qed.

Lemma broadcast_step cap t y o y' : inv cap t y → t + 2 ≤ u64_MAX → enabled y o = true → sys_step y o = Done y' → inv cap (t + 1) y'.
Proof.
  intros Hinv Ht He. pose proof Hinv as [I1 I2 I3 I4 I5 I6 I7 (b & Hb & Hls)].
  assert (Heta : chan y = mkChannel (sender_count (chan y)) (receiver_count (chan y)) (inner (chan y))) by (by destruct (chan y)).
  assert (Hperm : ∀ p, inv cap (t + 1) (with_permits y (chan y) p)). { intros p. unfold with_permits. rewrite Heta at 1. apply sender_count_step; [done|lia|done|done]. }
  destruct o as [cancelled|v| |id| | | |id|id|id cancelled w|id leak|id new|id].
  - simpl. unfold reserve. destruct cancelled; [|destruct (_ =? 0); intros [= <-]; apply Hperm]. intros [= <-].
    pose proof (Hperm (permits y)) as [J1 J2 J3 J4 J5 J6 J7 (b2 & Hb2 & Hls2)]. split; try done. exists b2. split; [by destruct Hb2|]. intros i l Hl. by destruct (Hls2 i l Hl).
  - by apply broadcast_send_step.
  - intros [= <-]. apply Hperm.
  - by apply subscribe_step.
  - intros [= <-]. simpl in He. apply N.ltb_lt in He. unfold with_chan, sender_clone. rewrite wrapping_add_exact by mlia. apply sender_count_step; [done|lia| |left; lia]. intros Hc%I6. lia.
  - simpl in He |- *. apply andb_true_iff in He as [He _]. apply N.ltb_lt in He. intros [= <-]. rewrite wrapping_sub_small by mlia. apply sender_count_step; [done|lia| |].
    + intros Hc. apply orb_true_iff in Hc as [Hc|Hc]; [apply N.eqb_eq in Hc; lia|apply I6 in Hc; lia].
    + intros _. destruct (N.eqb_spec (sender_count (chan y)) 1); [by right|left; lia].
  - by apply finish_close_step.
  - by apply broadcast_try_recv_step.
  - simpl in He |- *. unfold idle in He. destruct (listeners y !! id) as [l|] eqn:El; [|done]. apply bool_decide_eq_true in He. intros [= <-]. pose proof (Hls id l El) as [L1 L2 L3 L4 L5 L6].
    eapply update_listener; [exact Hinv|exact El|done..|exact I2|done|exact (cursor_refl _ _ _ L4)|by apply wakers_same|by intros b' _ _|done].
  - by apply recv_poll_step.
  - by apply drop_recv_step.
  - by apply clone_receiver_step.
  - by apply drop_receiver_step.
Qed.

Lemma broadcast_reachable_inv cap t y : reachable cap t y → t + 1 ≤ u64_MAX → inv cap t y.
Proof.
  induction 1 as [y Hnew|t y o y' _ IH He Hs]; intros Ht; [|apply (broadcast_step cap t y o); [apply IH; lia|lia|done|done]].
  unfold sys_new, channel in Hnew. destruct (N.eqb_spec cap 0) as [|Hc]; [done|]. pose proof (insert_with_spec (arena_new (T:=N)) (λ _, 0) arena_wf_new) as Hi. rewrite <- insert_insert_with in Hi.
  destruct (insert arena_new 0) as [[a token]|]; [|done]. destruct Hi as [H1 _ _ H4 _]. injection Hnew as <-.
  split; simpl; try done; [apply arena_wf_new| |].
  - intros i j li lj Hi Hj Hij. apply lookup_singleton_Some in Hi as [<- _]. by apply lookup_singleton_Some in Hj as [<- _].
  - exists 0. split; [split; simpl; try done; unfold lenN; simpl; lia|]. intros id l Hl. apply lookup_singleton_Some in Hl as [_ <-].
    split; simpl; try done; [by right|constructor|by rewrite H4, decide_True].
Qed.

(** What a receiver at position [next] of all messages [ms] is told, and where it moves. *)
Definition recv_spec (cap : N) (ms : list T) (open : bool) (next : N) : N * result T TryRecvError :=
  if next =? lenN ms then (next, Err (if open then TryEmpty else TryClosed))
  else if cap <? lenN ms - next then (lenN ms - cap, Err (TryLagged (lenN ms - cap - next)))
  else match ms !! N.to_nat next with Some v => (next + 1, Ok v) | None => (next, Err TryEmpty) end.

Definition poll_of (res : result T TryRecvError) : poll (result T RecvError) :=
  match res with
  | Ok v => Ready (Ok v)
  | Err (TryLagged n) => Ready (Err (RecvLagged n))
  | Err TryClosed => Ready (Err RecvClosed)
  | Err TryEmpty => Pending
  end.

Lemma fetch_recv cap t y id l : inv cap t y → t + 1 ≤ u64_MAX → listeners y !! id = Some l →
  let '(c', r', got) := fetch (chan y) (rcv l) in
  sender_count c' = sender_count (chan y) ∧
  recv_spec cap (log y) (0 <? sender_count (chan y)) (next_index (rcv l)) =
    (next_index r', match got with FetchLagged n => Err (TryLagged n) | FetchGot v => Ok v | FetchNone => if sender_count (chan y) =? 0 then Err TryClosed else Err TryEmpty end).
Proof.
  intros [I1 I2 I3 I4 I5 I6 I7 (b & Hb & Hls)] Ht Hl. destruct (Hls id l Hl) as [L1 L2 L3 L4 L5 L6].
  pose proof (fetch_spec (chan y) (rcv l) (log y) b Hb I2 L4 L1 ltac:(lia)) as Hf. destruct (fetch (chan y) (rcv l)) as [[c' r'] got]. destruct Hf as (a & -> & _ & _ & _ & F5).
  split; [done|]. unfold recv_spec. pose proof Hb as [B1 _ _ [B4 B5]]. rewrite I3 in *. destruct got as [n|v|].
  - destruct F5 as (F5 & -> & ->). destruct L2 as [L2|L2]; [|lia]. destruct (N.eqb_spec (next_index (rcv l)) (lenN (log y))); [lia|]. destruct (N.ltb_spec cap (lenN (log y) - next_index (rcv l))); [|lia].
    assert (lenN (log y) - cap = b) as -> by lia. done.
  - destruct F5 as (F5 & F6 & ->). pose proof (lookup_lt_Some _ _ _ F6) as Hlt. destruct (N.eqb_spec (next_index (rcv l)) (lenN (log y))); [unfold lenN in *; lia|].
    destruct (N.ltb_spec cap (lenN (log y) - next_index (rcv l))); [lia|]. by rewrite F6.
  - destruct F5 as [F5 ->]. rewrite F5, N.eqb_refl. destruct (N.eqb_spec (sender_count (chan y)) 0) as [->|Hs]; [done|]. by destruct (N.ltb_spec 0 (sender_count (chan y))); [|lia].
Qed.

(** C34: In every interleaving of fewer than 2^64 steps of senders and receivers, each
    receiver has heard the messages sent since it was created - a cloned one those from
    the position of its original on - in order, with every gap reported by its exact
    length.  Receiving moves its position and answers as the
    specification over the list of all messages says: the next message when it is among
    the last [cap], otherwise the exact number of messages that are lost, and empty or
    closed only when it has heard everything.  Polling a future answers the same, pending
    for empty. *)
Theorem broadcast_delivers cap t y id l : reachable cap t y → t + 1 ≤ u64_MAX → listeners y !! id = Some l →
  let spec := recv_spec cap (log y) (0 <? sender_count (chan y)) (next_index (rcv l)) in
  hears (log y) (from l) (heard l) (next_index (rcv l)) ∧
  (let '(_, r', res) := try_recv (chan y) (rcv l) in (next_index r', res) = spec) ∧
  (∀ f w c' r' f' p, completed f = false → recv_poll (chan y) (rcv l) f false w = Done (c', r', f', p) → next_index r' = spec.1 ∧ p = poll_of spec.2).
Proof.
  intros Hr Ht Hl spec. pose proof (broadcast_reachable_inv _ _ _ Hr Ht) as Hinv. pose proof (fetch_recv _ _ _ _ _ Hinv Ht Hl) as Hf.
  unfold try_recv, recv_poll, poll_recv_with_waiter. destruct (fetch (chan y) (rcv l)) as [[c1 r1] got]. destruct Hf as [Ec Hf]. split_and!.
  - destruct Hinv as [_ _ _ _ _ _ _ (b & _ & Hls)]. apply (Hls id l Hl).
  - unfold spec. by rewrite Hf, Ec.
  - intros f w c' r' f' p ->. unfold spec. rewrite Hf. simpl. rewrite Ec. destruct got as [n|v|]; simpl; [by intros [= _ <- _ <-]..|].
    destruct (sender_count (chan y) =? 0); simpl; [by intros [= _ <- _ <-]|]. destruct (register _ _ _) as [[s' w']|]; [|done]. simpl. by intros [= _ <- _ <-].
Qed.

(** Draining reaches every sleeper. *)
Lemma all_awake cap t y ws vs id l : inv cap t y → drain_values (wakers (inner (chan y))) = (ws, vs) → (wake vs <$> listeners y) !! id = Some l → sleeps l = None.
Proof.
  intros [I1 _ _ _ _ _ _ (b & _ & Hls)] Hd Hl. apply lookup_fmap_Some in Hl as (l0 & <- & Hl). pose proof (drain_wakes _ I1) as D. rewrite Hd in D. destruct D as (_ & _ & D). simpl.
  destruct (sleeps l0) as [w|] eqn:Es; [|done]. destruct (lo_sleep _ _ _ _ _ (Hls id l0 Hl) w Es) as (f & token & _ & _ & _ & Hg & _). by rewrite bool_decide_true by (by apply (D token)).
Qed.

Lemma send_wakes cap t y v y' id l : inv cap t y → sys_step y (OSend v) = Done y' → listeners y' !! id = Some l → sleeps l = None.
Proof.
  intros Hinv. simpl. unfold permit_send. destruct (N.eqb_spec (receiver_count (chan y)) 0) as [Er|Er].
  { intros [= <-]. simpl. rewrite wake_nothing. assert (listeners y = ∅) as -> by (apply map_size_empty_iff; pose proof (i_receivers _ _ _ Hinv); lia). by rewrite lookup_empty. }
  destruct (if lenN _ =? _ then _ else _) as [popped kept]. simpl. destruct (drain_values (wakers (inner (chan y)))) as [ws vs] eqn:Ed.
  destruct (N.eqb_spec (receiver_count (chan y)) 0) as [|_]; [done|]. intros [= <-]. by apply (all_awake cap t y ws).
Qed.

Lemma insert_or_full {V} (a : Arena V) v : arena_wf a → (∃ p, insert a v = Done p) ∨ arena_full a.
Proof. intros Hwf. pose proof (insert_with_spec a (λ _, v) Hwf) as Hi. rewrite <- insert_insert_with in Hi. destruct (insert a v) as [p|]; [left; by exists p|by right]. Qed.

Lemma register_or_full s mine w : arena_wf (wakers s) → (∃ p, register s mine w = Done p) ∨ arena_full (wakers s).
Proof.
  intros Hwf. unfold register. destruct (insert_or_full (wakers s) w Hwf) as [[[ws token] ->]|Hf]; [left|by right]. simpl. destruct mine as [k|]; [|eauto]. destruct (get_mut (wakers s) k) as [[]|]; eauto.
Qed.

Lemma poll_or_full c r f cancelled w : arena_wf (wakers (inner c)) → (∃ p, recv_poll c r f cancelled w = Done p) ∨ arena_full (wakers (inner c)).
Proof.
  intros Hwf. unfold recv_poll. destruct (completed f); [left; by eexists|]. unfold poll_recv_with_waiter. destruct cancelled; [left; by eexists|].
  assert (Hw : wakers (inner (fetch c r).1.1) = wakers (inner c)).
  { unfold fetch. destruct (_ <? _); simpl; [|destruct (message_at _ _); simpl; [|done]]; unfold update_receiver_cursor; by destruct (get_mut _ _) as [[]|]. }
  destruct (fetch c r) as [[c' r'] got]. simpl in Hw. destruct got; [left; by eexists..|]. destruct (sender_count c' =? 0); [left; by eexists|].
  destruct (register_or_full (inner c') (waiter f) w) as [[[s' k] ->]|Hf]; [by rewrite Hw|left; by eexists|right; by rewrite <- Hw].
Qed.

Lemma broadcast_returns cap t y o : inv cap t y → enabled y o = true →
  (∃ y', sys_step y o = Done y') ∨ arena_full (wakers (inner (chan y))) ∨ arena_full (receiver_cursors (inner (chan y))).
Proof.
  intros [I1 I2 _ _ _ _ _ _] He. destruct o as [cancelled|v| |id| | | |id|id|id cancelled w|id leak|id new|id]; simpl in *; unfold idle in He.
  - left. destruct (reserve (chan y) cancelled). by eexists.
  - left. destruct (permit_send (chan y) v) as [[]]. by eexists.
  - left. by eexists.
  - unfold subscribe. destruct (insert_or_full _ (total_sent (inner (chan y))) I2) as [[[a k] ->]|Hf]; [left; by eexists|by do 2 right].
  - left. by eexists.
  - left. by eexists.
  - left. destruct (sender_drain (chan y)). by eexists.
  - left. destruct (listeners y !! id) as [l|]; [|by eexists]. destruct (try_recv (chan y) (rcv l)) as [[]]. by eexists.
  - left. destruct (listeners y !! id); by eexists.
  - destruct (listeners y !! id) as [l|]; [|left; by eexists]. destruct (future l) as [f|]; [|left; by eexists].
    destruct (poll_or_full (chan y) (rcv l) f cancelled w I1) as [[[[[c r] f'] p] ->]|Hf]; [left; by eexists|right; by left].
  - left. destruct (listeners y !! id) as [l|]; [|by eexists]. destruct (future l); by eexists.
  - destruct (listeners y !! id) as [l|]; [|left; by eexists]. unfold receiver_clone. destruct (insert_or_full _ (next_index (rcv l)) I2) as [[[a k] ->]|Hf]; [left; by eexists|by do 2 right].
  - left. destruct (listeners y !! id); by eexists.
Qed.

(** C35: In every interleaving, with futures dropped, cancelled or leaked at any point, a
    receive future that sleeps is registered with the waker of its last poll, has nothing
    to receive, and a sender is left or the last one is about to wake everyone.  Sending a
    message and the end of the last sender leave nobody asleep.  Every operation that the
    handles allow returns, unless all 2^32 slots of an arena are taken. *)
Theorem broadcast_no_lost_wakeup cap t y : reachable cap t y → t + 1 ≤ u64_MAX →
  (∀ id l w, listeners y !! id = Some l → sleeps l = Some w → ∃ f token, future l = Some f ∧ waiter f = Some token ∧ get (wakers (inner (chan y))) token = Some w ∧
     next_index (rcv l) = lenN (log y) ∧ (0 < sender_count (chan y) ∨ closing y = true)) ∧
  (∀ o y', (o = OFinishClose ∨ ∃ v, o = OSend v) → enabled y o = true → sys_step y o = Done y' → ∀ id l, listeners y' !! id = Some l → sleeps l = None) ∧
  (∀ o, enabled y o = true → (∃ y', sys_step y o = Done y') ∨ arena_full (wakers (inner (chan y))) ∨ arena_full (receiver_cursors (inner (chan y)))).
Proof.
  intros Hr Ht. pose proof (broadcast_reachable_inv _ _ _ Hr Ht) as Hinv. pose proof Hinv as [I1 I2 _ _ I5 _ _ (b & _ & Hls)]. split_and!.
  - intros id l w Hl Hw. destruct (lo_sleep _ _ _ _ _ (Hls id l Hl) w Hw) as (f & token & ? & _ & ? & ? & ? & ?). by exists f, token.
  - intros o y' Ho _ Hs id l. simpl in Hs. destruct Ho as [->|[v ->]]; simpl in Hs.
    + unfold sender_drain in Hs. destruct (drain_values (wakers (inner (chan y)))) as [ws vs] eqn:Ed. injection Hs as <-. by apply (all_awake cap t y ws).
    + apply (send_wakes cap t y v y'); done.
  - intros o. by apply (broadcast_returns cap t).
Qed.

(** The state after a list of operations. *)
Fixpoint run_ops y (os : list Op) : exec System :=
  match os with
  | [] => Done y
  | o :: os => if enabled y o then y ← sys_step y o; run_ops y os else Panics
  end.

Lemma broadcast_run_reachable cap t y os y' : reachable cap t y → run_ops y os = Done y' → reachable cap (t + lenN os) y'.
Proof.
  revert t y. induction os as [|o os IH]; intros t y Hr; simpl; [intros [= <-]; unfold lenN; simpl; by rewrite N.add_0_r|].
  destruct (enabled y o) eqn:He; [|done]. destruct (sys_step y o) as [y1|] eqn:Hs; [|done]. simpl. intros Hrun. replace (t + lenN (o :: os)) with (t + 1 + lenN os) by (unfold lenN; simpl; lia).
  apply (IH _ y1); [by apply (reach_step cap t y o)|done].
Qed.

Lemma run_from_new cap os y' : (y ← sys_new cap; run_ops y os) = Done y' → reachable cap (lenN os) y'.
Proof. destruct (sys_new cap) as [y|] eqn:Ey; [|done]. intros Hrun. apply (broadcast_run_reachable cap 0 y os); [by constructor|done]. Qed.

End broadcast.

(** Two receivers of a channel of two messages: one hears a message and sleeps, the other
    falls behind by one. *)
Definition demo_ops : list (Op (T:=N)) :=
  [OSubscribe 1; OReserve false; OReserve false; OReserve false; OSend 10; ORecv 1; OPoll 1 false 7; ODropRecv 1 false; OSend 20; OSend 30; OTryRecv 1; OTryRecv 1; ORecv 1; OPoll 1 false 8].
Definition demo_run : exec System := y ← sys_new 2; run_ops y demo_ops.
Definition demo : System := match demo_run with Done y => y | Panics => mkSystem (mkChannel 0 0 (mkShared [] 0 0 arena_new arena_new 0)) 0 false ∅ [] end.

Lemma demo_reachable : reachable 2 14 demo.
Proof.
  assert (Hd : match demo_run with Done _ => true | Panics => false end = true) by (vm_compute; reflexivity).
  apply (run_from_new 2 demo_ops). unfold demo. change (_ ← _; _) with demo_run. by destruct demo_run.
Qed.

Lemma broadcast_delivers_witness : (∃ l, listeners demo !! 0 = Some l ∧ hears (log demo) 0 (heard l) (next_index (rcv l)) ∧ (try_recv (chan demo) (rcv l)).2 = Err (TryLagged 1)) ∧
  (∃ l, listeners demo !! 1 = Some l ∧ heard l = [Got 10; Got 20; Got 30] ∧ hears (log demo) (from l) (heard l) 3).
Proof.
  split.
  - eexists. split; [vm_compute; reflexivity|]. destruct (broadcast_delivers 2 14 demo 0 _ demo_reachable ltac:(vm_compute; discriminate) ltac:(vm_compute; reflexivity)) as (H1 & H2 & _).
    split; [exact H1|]. vm_compute. reflexivity.
  - eexists. split; [vm_compute; reflexivity|]. split; [reflexivity|]. exact (proj1 (broadcast_delivers 2 14 demo 1 _ demo_reachable ltac:(vm_compute; discriminate) ltac:(vm_compute; reflexivity))).
Defined.

Lemma broadcast_no_lost_wakeup_witness : ∃ l f token, listeners demo !! 1 = Some l ∧ sleeps l = Some 8 ∧ future l = Some f ∧ waiter f = Some token ∧ get (wakers (inner (chan demo))) token = Some 8.
Proof.
  destruct (broadcast_no_lost_wakeup 2 14 demo demo_reachable ltac:(vm_compute; discriminate)) as (H & _).
  assert (∃ l, listeners demo !! 1 = Some l ∧ sleeps l = Some 8) as (l & Hl & Hs) by (eexists; split; vm_compute; reflexivity).
  destruct (H 1 l 8 Hl Hs) as (f & token & Hf & Hw & Hg & _). exists l, f, token. exact (conj Hl (conj Hs (conj Hf (conj Hw Hg)))).
Defined.

End Broadcast.
