(* ===== verification/Notify.v ===== *)
(** * The notification primitive

    Models [src/sync/notify.rs]: tasks wait for [notify_one], whose notification is stored
    when nobody waits, or for a broadcast by [notify_waiters].  Waiters are kept in a slab
    whose slots are reused; positions in the slab are [nat], the stack of free slots has
    its top at the head.  The functions below are the pieces between two accesses to what
    threads share: a future loads the generation and takes stored notifications without
    the lock, and holds the lock over more than one access where it registers and where it
    passes a notification on, so the lock has a holder in the system of [NotifyThms]. *)

From S2P Require Import Prelude.

Notation Waker := N (only parsing).

Module Notify.

Record WaiterEntry := mkEntry { waker : option Waker; notified : bool; entry_generation : N; broadcast_covered_peer : bool; slot_epoch : N }.
Record FreeSlot := mkFree { free_index : nat; next_epoch : N }.
Record WaiterSlab := mkSlab { entries : list WaiterEntry; free_slots : list FreeSlot; active : N; scan_start : nat }.
Record Notify := mkNotify { generation : N; stored_notifications : N; waiters : WaiterSlab }.
Inductive NotifiedState := SInit | SWaiting | SDone.
Record Notified := mkNotified { state : NotifiedState; waiter_index : option (nat * N); initial_generation : N }.
Implicit Types (e : WaiterEntry) (s : WaiterSlab) (n : Notify) (f : Notified).

#[global] Instance NotifiedState_eq_dec : EqDecision NotifiedState.
Proof. solve_decision. Defined.

(** ** The slab *)

Definition slab_new : WaiterSlab := mkSlab [] [] 0 0.

(** The slot for a new entry: the top of the free stack that is not beyond the end, or a
    new one. *)
Fixpoint claim_slot (es : list WaiterEntry) (free : list FreeSlot) e : list WaiterEntry * list FreeSlot * (nat * N) :=
  match free with
  | fs :: free =>
      let e' := mkEntry (waker e) (notified e) (entry_generation e) (broadcast_covered_peer e) (next_epoch fs) in
      if (free_index fs <? length es)%nat then (<[free_index fs := e']> es, free, (free_index fs, next_epoch fs))
      else if (free_index fs =? length es)%nat then (es ++ [e'], free, (free_index fs, next_epoch fs))
      else claim_slot es free e
  | [] => (es ++ [mkEntry (waker e) (notified e) (entry_generation e) (broadcast_covered_peer e) 0], [], (length es, 0))
  end.

Definition insert s e : WaiterSlab * (nat * N) :=
  let is_active := bool_decide (is_Some (waker e)) in
  let had_active := 0 <? active s in
  let '(es, free, (index, epoch)) := claim_slot (entries s) (free_slots s) e in
  if is_active then
    (mkSlab es free (wrapping_add usize_MAX (active s) 1) (if negb had_active && (index <? scan_start s)%nat then index else scan_start s), (index, epoch))
  else (mkSlab es free (active s) (scan_start s), (index, epoch)).

Definition vacant e : bool := bool_decide (waker e = None) && negb (notified e).

(** Popping the free entries at the end. *)
Fixpoint shrink (es : list WaiterEntry) : list WaiterEntry :=
  match es with
  | [] => []
  | e :: es => match shrink es with [] => if vacant e then [] else [e] | es' => e :: es' end
  end.

Definition remove s (index : nat) : WaiterSlab :=
  match entries s !! index with
  | Some e =>
      mkSlab (shrink (<[index := mkEntry None false (entry_generation e) (broadcast_covered_peer e) (slot_epoch e)]> (entries s)))
        (mkFree index (wrapping_add u64_MAX (slot_epoch e) 1) :: free_slots s)
        (if bool_decide (is_Some (waker e)) then wrapping_sub usize_MAX (active s) 1 else active s) (scan_start s)
  | None => mkSlab (shrink (entries s)) (free_slots s) (active s) (scan_start s)
  end.

Definition active_count s : N := active s.

Definition take_active_waker_at s (index : nat) : WaiterSlab * option Waker :=
  match entries s !! index with
  | Some e =>
      match waker e with
      | Some w =>
          if notified e then (s, None) else
          (mkSlab (<[index := mkEntry None true (entry_generation e) (broadcast_covered_peer e) (slot_epoch e)]> (entries s)) (free_slots s)
             (wrapping_sub usize_MAX (active s) 1) (S index), Some w)
      | None => (s, None)
      end
  | None => (s, None)
  end.

Fixpoint take_first s (indices : list nat) : WaiterSlab * option Waker :=
  match indices with
  | [] => (s, None)
  | i :: indices => match take_active_waker_at s i with (s', Some w) => (s', Some w) | _ => take_first s indices end
  end.

Definition take_next_active_waker s : WaiterSlab * option Waker :=
  let len := length (entries s) in
  let start := Nat.min (scan_start s) len in
  match take_first s (seq start (len - start)) with
  | (s, Some w) => (s, Some w)
  | (s, None) =>
      match take_first s (seq 0 start) with
      | (s, Some w) => (s, Some w)
      | (s, None) => (mkSlab (entries s) (free_slots s) (active s) len, None)
      end
  end.

(** ** Notifying *)

Definition notify_new : Notify := mkNotify 0 0 slab_new.
Definition set_waiters n s : Notify := mkNotify (generation n) (stored_notifications n) s.
Definition store_notification n : Notify := mkNotify (generation n) (wrapping_add usize_MAX (stored_notifications n) 1) (waiters n).

(** [notify_one]: the waker to wake, or the notification is stored. *)
Definition notify_one n : Notify * option Waker :=
  match take_next_active_waker (waiters n) with
  | (s, Some w) => (set_waiters n s, Some w)
  | (s, None) => (store_notification (set_waiters n s), None)
  end.

(** [notify_waiters]: the new generation, then under the lock the wakers of everyone who
    registered before. *)
Definition advance_generation n : Notify * N :=
  let g := wrapping_add u64_MAX (generation n) 1 in (mkNotify g (stored_notifications n) (waiters n), g).

Definition reached (g : N) e : bool := (entry_generation e <? g) && bool_decide (is_Some (waker e)).
Definition broadcast_entry (g : N) e : WaiterEntry :=
  if reached g e then mkEntry None true g (broadcast_covered_peer e) (slot_epoch e) else e.
Definition cover_entry (g : N) e : WaiterEntry :=
  if (entry_generation e <? g) && notified e && bool_decide (waker e = None) then mkEntry (waker e) (notified e) (entry_generation e) true (slot_epoch e) else e.
Definition wake_waiters n (g : N) : Notify * list Waker :=
  let s := waiters n in
  let wakers := omap (λ e, if reached g e then waker e else None) (entries s) in
  let es := broadcast_entry g <$> entries s in
  let es := if bool_decide (wakers = []) then es else cover_entry g <$> es in
  (set_waiters n (mkSlab es (free_slots s) (wrapping_sub usize_MAX (active s) (lenN wakers)) (scan_start s)), wakers).

Definition waiter_count n : N := active_count (waiters n).

(** [Drop for Notify]: everyone left is woken. *)
Definition notify_drop n : Notify * list Waker :=
  (mkNotify (wrapping_add u64_MAX (generation n) 1) 0 (mkSlab [] (free_slots (waiters n)) 0 0), omap waker (entries (waiters n))).

(** ** Waiting *)

Definition new_notified n : Notified := mkNotified SInit None (generation n).
Definition mark_done f : Notified := mkNotified SDone (waiter_index f) (initial_generation f).

(** The compare-and-exchange loop, as the one access that takes effect. *)
Definition try_consume_stored_notification n : Notify * bool :=
  if 0 <? stored_notifications n then (mkNotify (generation n) (stored_notifications n - 1) (waiters n), true) else (n, false).

(** [poll_init]: observing the generation, checking it again under the lock, registering. *)
Definition observe n f : Notified := mkNotified (state f) (waiter_index f) (generation n).
Definition generation_changed n f : bool := negb (generation n =? initial_generation f).
Definition register n f (w : Waker) : Notify * Notified * poll () :=
  match try_consume_stored_notification n with
  | (n, true) => (n, mark_done f, Ready ())
  | (n, false) =>
      let '(s, at_) := insert (waiters n) (mkEntry (Some w) false (initial_generation f) false 0) in
      (set_waiters n s, mkNotified SWaiting (Some at_) (initial_generation f), Pending)
  end.

Definition slot_owned_by_us s (at_ : nat * N) : bool :=
  match entries s !! at_.1 with Some e => slot_epoch e =? at_.2 | None => false end.

(** [poll_waiting] under the lock; [changed] is what the load before it saw. *)
Definition poll_waiting n f (changed : bool) (w : Waker) : exec (Notify * Notified * poll ()) :=
  match waiter_index f with
  | Some (index, epoch) =>
      let s := waiters n in
      let is_gen_changed := changed || generation_changed n f in
      let done n := Done (n, mkNotified SDone None (initial_generation f), Ready ()) in
      if slot_owned_by_us s (index, epoch) then
        match entries s !! index with
        | Some e =>
            if is_gen_changed then done (set_waiters n (remove s index))
            else if notified e then done (set_waiters n (remove s index))
            else
              match waker e with
              | Some existing =>
                  let e' := if existing =? w then e else mkEntry (Some w) (notified e) (entry_generation e) (broadcast_covered_peer e) (slot_epoch e) in
                  Done (set_waiters n (mkSlab (<[index := e']> (entries s)) (free_slots s) (active s) (scan_start s)), f, Pending)
              | None => Panics
              end
        | None => Panics
        end
      else done n
  | None => Done (if changed then (n, mark_done f, Ready ()) else (n, f, Pending))
  end.

(** Passing a notification on under the lock: the waker it goes to, or whether it remains
    to be stored. *)
Definition pass_baton_after_broadcast n (store_if_absent : bool) : Notify * option Waker * bool :=
  match take_next_active_waker (waiters n) with
  | (s, Some w) => (set_waiters n s, Some w, false)
  | (s, None) => (set_waiters n s, None, store_if_absent)
  end.
Definition pass_baton n : Notify * option Waker * bool :=
  match take_next_active_waker (waiters n) with
  | (s, Some w) => (set_waiters n s, Some w, false)
  | (s, None) => (set_waiters n s, None, true)
  end.

(** [Drop for Notified] under the lock. *)
Definition drop_waiting n f : Notify * option Waker * bool :=
  match waiter_index f with
  | Some (index, epoch) =>
      let s := waiters n in
      let generation_advanced := generation_changed n f in
      if slot_owned_by_us s (index, epoch) then
        match entries s !! index with
        | Some e =>
            let n := set_waiters n (remove s index) in
            if notified e then
              let was_broadcast_notify := negb (entry_generation e =? initial_generation f) in
              if was_broadcast_notify then (n, None, false)
              else if generation_advanced then pass_baton_after_broadcast n (negb (broadcast_covered_peer e))
              else pass_baton n
            else (n, None, false)
        | None => (n, None, false)
        end
      else (n, None, false)
  | None => (n, None, false)
  end.

(** [wait_until]: the predicate, then a new future, until the predicate holds. *)
Inductive UntilPhase := Checking | Awaiting | Finished.
Definition until_step (predicate awaited : bool) (p : UntilPhase) : UntilPhase :=
  match p with
  | Checking => if predicate then Finished else Awaiting
  | Awaiting => if awaited then Checking else Awaiting
  | Finished => Finished
  end.

(** ** What the slab promises *)

Lemma sum_over_update {A} (f : A → N) l i x y : l !! i = Some x → sum_over f (<[i := y]> l) + f x = sum_over f l + f y.
Proof. revert i. induction l as [|z l IH]; intros [|i] Hi; simplify_eq/=; [lia|]. specialize (IH i Hi). lia. Qed.

Definition has_waker e : bool := bool_decide (is_Some (waker e)).
Definition waiting_entries (es : list WaiterEntry) : N := sum_over (λ e, if has_waker e then 1 else 0) es.
Definition free_indices s : list nat := free_index <$> free_slots s.

Record slab_ok s : Prop := {
  so_free : NoDup (free_indices s);
  so_vacant i e : entries s !! i = Some e → vacant e = true ↔ i ∈ free_indices s;
  so_entry i e : entries s !! i = Some e → has_waker e = true → notified e = false;
  so_active : active s = waiting_entries (entries s);
}.

Lemma vacant_no_waker e : vacant e = true → has_waker e = false.
Proof. unfold vacant, has_waker. intros [H _]%andb_true_iff. apply bool_decide_eq_true in H. rewrite H. by apply bool_decide_eq_false, is_Some_None. Qed.

Lemma waker_not_vacant e : has_waker e = true → vacant e = false.
Proof. intros H. destruct (vacant e) eqn:Ev; [|done]. apply vacant_no_waker in Ev. congruence. Qed.

Lemma waiting_positive es i e : es !! i = Some e → has_waker e = true → 0 < waiting_entries es.
Proof. intros Hi Hw. apply list_elem_of_lookup_2 in Hi. pose proof (sum_one (λ e, if has_waker e then 1 else 0) es e Hi) as H. simpl in H. rewrite Hw in H. unfold waiting_entries. lia. Qed.

Lemma shrink_sub es i e : shrink es !! i = Some e → es !! i = Some e.
Proof.
  revert i. induction es as [|x es IH]; intros i; [done|]. simpl. destruct (shrink es) as [|y es'] eqn:Es; [destruct (vacant x)|]; destruct i as [|i]; try done.
  intros Hi. by apply (IH i).
Qed.

Lemma shrink_keeps es i e : es !! i = Some e → vacant e = false → shrink es !! i = Some e.
Proof.
  intros Hi Hv. revert i Hi. induction es as [|x es IH]; intros [|i] Hi; simplify_eq/=.
  - rewrite Hv. by destruct (shrink es).
  - specialize (IH i Hi). by destruct (shrink es) as [|y es'].
Qed.

Lemma shrink_length es : (length (shrink es) ≤ length es)%nat.
Proof. induction es as [|x es IH]; simpl; [done|]. destruct (shrink es); [destruct (vacant x)|]; simpl in *; lia. Qed.

Lemma shrink_waiting es : waiting_entries (shrink es) = waiting_entries es.
Proof.
  unfold waiting_entries. induction es as [|x es IH]; simpl; [done|]. destruct (shrink es) as [|y es']; simpl in *; [|lia]. destruct (vacant x) eqn:Ev; simpl; [|lia]. rewrite (vacant_no_waker x Ev). lia.
Qed.

(** *** Inserting *)

Definition with_epoch e (ep : N) : WaiterEntry := mkEntry (waker e) (notified e) (entry_generation e) (broadcast_covered_peer e) ep.

Record claimed (es : list WaiterEntry) (free : list FreeSlot) e (es' : list WaiterEntry) (free' : list FreeSlot) (i : nat) (ep : N) : Prop := {
  cl_here : es' !! i = Some (with_epoch e ep);
  cl_other j : j ≠ i → es' !! j = es !! j;
  cl_sub j : j ∈ free_index <$> free' → j ∈ free_index <$> free ∧ j ≠ i;
  cl_keep j : j ∈ free_index <$> free → j = i ∨ j ∈ free_index <$> free' ∨ (length es < j)%nat;
  cl_nodup : NoDup (free_index <$> free');
  cl_from : i ∈ free_index <$> free ∨ (i = length es ∧ ∀ j, j ∈ free_index <$> free → (length es < j)%nat);
  cl_length : length es' = Nat.max (length es) (S i);
}.

Lemma claim_slot_spec es free e : NoDup (free_index <$> free) → let '(es', free', (i, ep)) := claim_slot es free e in claimed es free e es' free' i ep.
Proof.
  induction free as [|fs free IH]; intros Hnd.
  - simpl. split; simpl; try (by intros ? ?%elem_of_nil); [by rewrite lookup_app_r, Nat.sub_diag by lia| |constructor|right; split; [done|by intros ? ?%elem_of_nil]|rewrite length_app; simpl; lia].
    intros j Hj. destruct (decide (j < length es)%nat); [by rewrite lookup_app_l|]. rewrite lookup_ge_None_2, (lookup_ge_None_2 es); [done|lia|rewrite length_app; simpl; lia].
  - rewrite fmap_cons in Hnd. apply NoDup_cons in Hnd as [Hn Hnd]. simpl. destruct (Nat.ltb_spec (free_index fs) (length es)) as [Hlt|Hge]; [|destruct (Nat.eqb_spec (free_index fs) (length es)) as [Heq|Hne]].
    + split; simpl; [by apply list_lookup_insert_eq|intros j Hj; by apply list_lookup_insert_ne|intros j Hj; split; [by right|by intros ->]|intros j [->|Hj]%elem_of_cons; auto|done|left; by left|rewrite length_insert; lia].
    + split; simpl; [by rewrite Heq, lookup_app_r, Nat.sub_diag by lia| |intros j Hj; split; [by right|by intros ->]|intros j [->|Hj]%elem_of_cons; auto|done|left; by left|rewrite length_app; simpl; lia].
      intros j Hj. destruct (decide (j < length es)%nat); [by rewrite lookup_app_l|]. rewrite lookup_ge_None_2, (lookup_ge_None_2 es); [done|lia|rewrite length_app; simpl; lia].
    + specialize (IH Hnd). destruct (claim_slot es free e) as [[es' free'] [i ep]]. destruct IH as [C1 C2 C3 C4 C5 C6 C7]. split; try done.
      * intros j Hj. destruct (C3 j Hj). split; [by right|done].
      * intros j [->|Hj]%elem_of_cons; [right; right; lia|auto].
      * destruct C6 as [C6|[-> C6]]; [left; by right|]. right. split; [done|]. intros j [->|Hj]%elem_of_cons; [lia|auto].
Qed.

(** The entry is in a slot nobody used; the scan position moves only when nobody waited. *)
Record inserted s e s' (i : nat) (ep : N) : Prop := {
  in_ok : slab_ok s';
  in_here : entries s' !! i = Some (with_epoch e ep);
  in_other j : j ≠ i → entries s' !! j = entries s !! j;
  in_unused e' : entries s !! i = Some e' → vacant e' = true;
  in_scan : scan_start s' = scan_start s ∨ (active s = 0 ∧ scan_start s' = i);
  in_free j : j ∈ free_indices s' → j ∈ free_indices s;
  in_from : i ∈ free_indices s ∨ (i = length (entries s) ∧ ∀ j e', entries s !! j = Some e' → vacant e' = false);
  in_length : length (entries s') = Nat.max (length (entries s)) (S i);
}.

Lemma waiter_insert_spec s e : slab_ok s → lenN (entries s) < usize_MAX → has_waker e = true → notified e = false →
  let '(s', (i, ep)) := insert s e in inserted s e s' i ep.
Proof.
  intros [S1 S2 S3 S4] Hlen Hw Hn. unfold insert. fold (has_waker e). rewrite Hw. pose proof (claim_slot_spec (entries s) (free_slots s) e S1) as Hc.
  destruct (claim_slot (entries s) (free_slots s) e) as [[es free] [i ep]]. destruct Hc as [C1 C2 C3 C4 C5 C6 C7].
  assert (Hold : ∀ e', entries s !! i = Some e' → vacant e' = true).
  { intros e' He. apply (S2 i e' He). destruct C6 as [C6|[-> _]]; [done|]. apply lookup_lt_Some in He. lia. }
  assert (Hcount : waiting_entries es = waiting_entries (entries s) + 1).
  { unfold waiting_entries in *. set (f := λ e, if has_waker e then 1 else 0). assert (Hf : f (with_epoch e ep) = 1) by (unfold f; by change (has_waker (with_epoch e ep)) with (has_waker e); rewrite Hw).
    destruct (entries s !! i) as [e'|] eqn:He.
    - assert (es = <[i := with_epoch e ep]> (entries s)) as ->.
      { apply list_eq. intros j. destruct (decide (j = i)) as [->|Hj]; [|by rewrite list_lookup_insert_ne, C2]. rewrite list_lookup_insert_eq; [done|by apply lookup_lt_Some in He]. }
      pose proof (sum_over_update f (entries s) i e' (with_epoch e ep) He) as Hu. assert (f e' = 0) by (unfold f; by rewrite (vacant_no_waker e' (Hold e' eq_refl))). lia.
    - assert (es = entries s ++ [with_epoch e ep]) as ->.
      { apply lookup_ge_None in He. assert (i = length (entries s)) as Hi by (destruct C6 as [C6|[C6 _]]; [|done]; rewrite <- (Nat.max_r (length (entries s)) (S i)) in C7 by lia; destruct (decide (i = length (entries s))); [done|];
          assert (is_Some (es !! length (entries s))) as [x Hx] by (apply lookup_lt_is_Some; lia); rewrite C2 in Hx by done; apply lookup_lt_Some in Hx; lia). subst i.
        apply list_eq. intros j. destruct (decide (j = length (entries s))) as [->|Hj]; [by rewrite C1, lookup_app_r, Nat.sub_diag by lia|]. rewrite C2 by done.
        destruct (decide (j < length (entries s))%nat); [by rewrite lookup_app_l|]. rewrite lookup_ge_None_2, lookup_ge_None_2; [done|rewrite length_app; simpl; lia|lia]. }
      rewrite sum_over_app. simpl. lia. }
  split; simpl.
  - split; simpl; [done| | |].
    + intros j e' He. destruct (decide (j = i)) as [->|Hj].
      * rewrite C1 in He. injection He as <-. split; [|intros Hin; by destruct (C3 i Hin)]. intros Hv%vacant_no_waker. unfold has_waker, with_epoch in *. simpl in *. congruence.
      * rewrite C2 in He by done. rewrite (S2 j e' He). split; [|intros Hin; by apply C3]. intros Hin. destruct (C4 j Hin) as [|[|Hb]]; [done|done|]. apply lookup_lt_Some in He. lia.
    + intros j e' He Hw'. destruct (decide (j = i)) as [->|Hj]; [rewrite C1 in He; by injection He as <-|]. rewrite C2 in He by done. by apply (S3 j).
    + rewrite Hcount, <- S4. apply wrapping_add_exact. rewrite S4. pose proof (sum_indicator has_waker (entries s)) as Hb. unfold waiting_entries. lia.
  - done.
  - done.
  - done.
  - destruct (N.ltb_spec 0 (active s)); simpl; [by left|]. destruct (i <? scan_start s)%nat; [right; split; [lia|done]|by left].
  - intros j Hj. by apply C3.
  - destruct C6 as [C6|[C6 C8]]; [by left|right]. split; [done|]. intros j e' He. destruct (vacant e') eqn:Ev; [|done]. apply (S2 j e' He), C8 in Ev. apply lookup_lt_Some in He. lia.
  - done.
Qed.

(** *** Removing *)

Record removed s (i : nat) s' : Prop := {
  rm_ok : slab_ok s';
  rm_other j e : j ≠ i → vacant e = false → entries s' !! j = Some e ↔ entries s !! j = Some e;
  rm_here e : entries s' !! i = Some e → vacant e = true;
  rm_scan : scan_start s' = scan_start s;
  rm_free j : j ∈ free_indices s' ↔ j = i ∨ j ∈ free_indices s;
  rm_length : (length (entries s') ≤ length (entries s))%nat;
}.

Lemma waiter_remove_spec s i e : slab_ok s → lenN (entries s) ≤ usize_MAX → entries s !! i = Some e → vacant e = false → removed s i (remove s i).
Proof.
  intros [S1 S2 S3 S4] Hlen He Hv. unfold remove. rewrite He. set (e0 := mkEntry None false _ _ _). set (es := <[i := e0]> (entries s)).
  assert (Hes : ∀ j, es !! j = if decide (j = i) then Some e0 else entries s !! j).
  { intros j. unfold es. case_decide as Hj; [rewrite Hj; apply list_lookup_insert_eq; by apply lookup_lt_Some in He|by apply list_lookup_insert_ne]. }
  assert (Hni : i ∉ free_indices s) by (intros Hin%(S2 i e He); congruence).
  assert (Hcount : waiting_entries es + (if has_waker e then 1 else 0) = waiting_entries (entries s)).
  { pose proof (sum_over_update (λ e, if has_waker e then 1 else 0) (entries s) i e e0 He) as H. unfold waiting_entries, es. simpl in H. lia. }
  assert (Hbound : waiting_entries (entries s) ≤ usize_MAX) by (pose proof (sum_indicator has_waker (entries s)); unfold waiting_entries; lia).
  split; simpl; try done.
  - split; simpl.
    + apply NoDup_cons. done.
    + intros j e' Hj%shrink_sub. rewrite Hes in Hj. case_decide as Hji; [subst j; injection Hj as <-; split; [by left|done]|]. rewrite (S2 j e' Hj). unfold free_indices. simpl. rewrite elem_of_cons. tauto.
    + intros j e' Hj%shrink_sub. rewrite Hes in Hj. case_decide; [by injection Hj as <-|by apply (S3 j)].
    + rewrite shrink_waiting, S4. fold (has_waker e). destruct (has_waker e); [rewrite wrapping_sub_small by lia|]; lia.
  - intros j e' Hji Hv'. split; [intros Hj%shrink_sub; rewrite Hes, decide_False in Hj; done|]. intros Hj. apply shrink_keeps; [|done]. by rewrite Hes, decide_False.
  - intros e' Hj%shrink_sub. rewrite Hes, decide_True in Hj by done. by injection Hj as <-.
  - intros j. apply elem_of_cons.
  - etrans; [apply shrink_length|]. unfold es. by rewrite length_insert.
Qed.

(** *** Choosing whom to wake *)

Definition taken_entry e : WaiterEntry := mkEntry None true (entry_generation e) (broadcast_covered_peer e) (slot_epoch e).
Definition taken s (i : nat) e : WaiterSlab := mkSlab (<[i := taken_entry e]> (entries s)) (free_slots s) (wrapping_sub usize_MAX (active s) 1) (S i).
Definition asleep_at s (i : nat) : Prop := ∃ e, entries s !! i = Some e ∧ has_waker e = true.

Lemma take_first_spec s l : slab_ok s →
  match take_first s l with
  | (s', Some w) => ∃ l1 i l2 e, l = l1 ++ i :: l2 ∧ (∀ j, j ∈ l1 → ¬ asleep_at s j) ∧ entries s !! i = Some e ∧ waker e = Some w ∧ s' = taken s i e
  | (s', None) => s' = s ∧ ∀ j, j ∈ l → ¬ asleep_at s j
  end.
Proof.
  intros Hok. induction l as [|i l IH]; simpl; [by split; [|intros j ?%elem_of_nil]|].
  assert (Hskip : ¬ asleep_at s i → match take_first s l with
    | (s', Some w) => ∃ l1 i' l2 e, i :: l = l1 ++ i' :: l2 ∧ (∀ j, j ∈ l1 → ¬ asleep_at s j) ∧ entries s !! i' = Some e ∧ waker e = Some w ∧ s' = taken s i' e
    | (s', None) => s' = s ∧ ∀ j, j ∈ i :: l → ¬ asleep_at s j end).
  { intros Hi. destruct (take_first s l) as [s' [w|]].
    - destruct IH as (l1 & i' & l2 & e & -> & H1 & H2). exists (i :: l1), i', l2, e. split_and!; [done| |apply H2..]. intros j [->|Hj]%elem_of_cons; auto.
    - destruct IH as [-> IH]. split; [done|]. intros j [->|Hj]%elem_of_cons; auto. }
  unfold take_active_waker_at. destruct (entries s !! i) as [e|] eqn:He; [|apply Hskip; intros (e & He' & _); congruence].
  destruct (waker e) as [w|] eqn:Hw; [|apply Hskip; intros (e' & He' & Hw'); simplify_eq; unfold has_waker in Hw'; by rewrite Hw in Hw'].
  assert (Hhas : has_waker e = true) by (unfold has_waker; rewrite Hw; by apply bool_decide_eq_true). rewrite (so_entry s Hok i e He Hhas). exists [], i, l, e. split_and!; try done. by intros j ?%elem_of_nil.
Qed.

Lemma seq_split (a len : nat) l1 i l2 : seq a len = l1 ++ i :: l2 → (i = a + length l1 ∧ i < a + len)%nat ∧ l1 = seq a (i - a).
Proof.
  intros Hl. assert (Hlen : len = (length l1 + S (length l2))%nat) by (rewrite <- (length_seq len a), Hl, length_app; done).
  rewrite Hlen, seq_app in Hl. apply app_inj_1 in Hl as [H1 H2]; [|by rewrite length_seq]. injection H2 as H2 _. split; [lia|]. rewrite <- H2. by replace (a + length l1 - a)%nat with (length l1) by lia.
Qed.

(** The first sleeper at or after the scan position, in the order that wraps around. *)
Record picked s (w : Waker) s' (i : nat) e : Prop := {
  pk_entry : entries s !! i = Some e;
  pk_waker : waker e = Some w;
  pk_state : s' = taken s i e;
  pk_ok : slab_ok s';
  pk_first j : asleep_at s j → j ≠ i → let start := Nat.min (scan_start s) (length (entries s)) in (start ≤ i ∧ (j < start ∨ i < j) ∨ i < start ∧ i < j < start)%nat;
}.

Lemma taken_ok s i e : slab_ok s → lenN (entries s) ≤ usize_MAX → entries s !! i = Some e → has_waker e = true → slab_ok (taken s i e).
Proof.
  intros [S1 S2 S3 S4] Hlen He Hw.
  assert (Hes : ∀ j e', <[i := taken_entry e]> (entries s) !! j = Some e' → (j = i ∧ e' = taken_entry e) ∨ entries s !! j = Some e' ∧ j ≠ i).
  { intros j e'. destruct (decide (j = i)) as [->|Hj]; [rewrite list_lookup_insert_eq by (by apply lookup_lt_Some in He); intros [= <-]; by left|rewrite list_lookup_insert_ne by done; by right]. }
  split; simpl; [done| | |].
  - intros j e' [[-> ->]|[Hj _]]%Hes; [|by apply S2]. split; [done|]. intros Hin%(S2 i e He). by rewrite (waker_not_vacant e Hw) in Hin.
  - intros j e' [[-> ->]|[Hj _]]%Hes; [done|by apply (S3 j)].
  - pose proof (sum_over_update (λ e, if has_waker e then 1 else 0) (entries s) i e (taken_entry e) He) as H. simpl in H. rewrite Hw in H. fold (waiting_entries (entries s)) (waiting_entries (<[i := taken_entry e]> (entries s))) in H.
    pose proof (sum_indicator has_waker (entries s)) as Hb. fold (waiting_entries (entries s)) in Hb. rewrite S4, wrapping_sub_small by lia. lia.
Qed.

Lemma take_next_spec s : slab_ok s → lenN (entries s) ≤ usize_MAX →
  match take_next_active_waker s with
  | (s', Some w) => ∃ i e, picked s w s' i e
  | (s', None) => (∀ j, ¬ asleep_at s j) ∧ s' = mkSlab (entries s) (free_slots s) (active s) (length (entries s))
  end.
Proof.
  intros Hok Hlen. unfold take_next_active_waker. set (start := Nat.min _ _). set (len := length (entries s)).
  assert (Hpick : ∀ i e w, entries s !! i = Some e → waker e = Some w →
    (∀ j, asleep_at s j → j ≠ i → (start ≤ i ∧ (j < start ∨ i < j) ∨ i < start ∧ i < j < start)%nat) → picked s w (taken s i e) i e).
  { intros i e w He Hw Hf. split; try done. apply taken_ok; try done. unfold has_waker. rewrite Hw. by apply bool_decide_eq_true. }
  assert (Hlt : ∀ j, asleep_at s j → (j < len)%nat) by (intros j (e & He & _); by apply lookup_lt_Some in He).
  pose proof (take_first_spec s (seq start (len - start)) Hok) as H1. destruct (take_first s (seq start (len - start))) as [s1 [w|]].
  { destruct H1 as (l1 & i & l2 & e & Hl & Hbefore & He & Hw & ->). exists i, e. apply Hpick; try done. intros j Hj Hji. left.
    destruct (seq_split start (len - start) l1 i l2 Hl) as [Hi Hl1]. split; [lia|]. destruct (decide (j < start)%nat); [by left|right]. destruct (decide (i < j)%nat); [done|]. exfalso. apply (Hbefore j); [|done]. rewrite Hl1. apply elem_of_seq. lia. }
  destruct H1 as [-> Hafter]. pose proof (take_first_spec s (seq 0 start) Hok) as H2. destruct (take_first s (seq 0 start)) as [s2 [w|]].
  - destruct H2 as (l1 & i & l2 & e & Hl & Hbefore & He & Hw & ->). exists i, e. apply Hpick; try done. intros j Hj Hji.
    destruct (seq_split 0 start l1 i l2 Hl) as [Hi Hl1]. right. assert (j < start)%nat.
    { destruct (decide (j < start)%nat); [done|]. exfalso. apply (Hafter j); [|done]. apply elem_of_seq. specialize (Hlt j Hj). lia. }
    split_and!; [lia| |done]. destruct (decide (i < j)%nat); [done|]. exfalso. apply (Hbefore j); [|done]. rewrite Hl1. apply elem_of_seq. lia.
  - destruct H2 as [-> H2]. split; [|done]. intros j Hj. specialize (Hlt j Hj). destruct (decide (j < start)%nat); [apply (H2 j); [apply elem_of_seq; lia|done]|apply (Hafter j); [apply elem_of_seq; lia|done]].
Qed.

(** *** Broadcasting *)

Definition cast_entry (g : N) (woke : bool) e : WaiterEntry := if woke then cover_entry g (broadcast_entry g e) else broadcast_entry g e.
Definition cast_wakers (g : N) (es : list WaiterEntry) : list Waker := omap (λ e, if reached g e then waker e else None) es.

Lemma wake_waiters_eq n g : let woke := negb (bool_decide (cast_wakers g (entries (waiters n)) = [])) in
  wake_waiters n g = (set_waiters n (mkSlab (cast_entry g woke <$> entries (waiters n)) (free_slots (waiters n))
    (wrapping_sub usize_MAX (active (waiters n)) (lenN (cast_wakers g (entries (waiters n))))) (scan_start (waiters n))), cast_wakers g (entries (waiters n))).
Proof.
  unfold wake_waiters. fold (cast_wakers g (entries (waiters n))). repeat f_equal. destruct (bool_decide _); simpl; [done|]. rewrite <- list_fmap_compose. done.
Qed.

Lemma reached_waker g e : reached g e = true → has_waker e = true.
Proof. unfold reached, has_waker. by intros [_ H]%andb_true_iff. Qed.

Lemma cast_fields g woke e :
  waker (cast_entry g woke e) = (if reached g e then None else waker e) ∧ notified (cast_entry g woke e) = (reached g e || notified e) ∧
  entry_generation (cast_entry g woke e) = (if reached g e then g else entry_generation e) ∧ slot_epoch (cast_entry g woke e) = slot_epoch e ∧
  (broadcast_covered_peer (cast_entry g woke e) = true → broadcast_covered_peer e = true ∨ 0 < g).
Proof.
  assert (Hb : waker (broadcast_entry g e) = (if reached g e then None else waker e) ∧ notified (broadcast_entry g e) = (reached g e || notified e) ∧
    entry_generation (broadcast_entry g e) = (if reached g e then g else entry_generation e) ∧ slot_epoch (broadcast_entry g e) = slot_epoch e ∧ broadcast_covered_peer (broadcast_entry g e) = broadcast_covered_peer e).
  { unfold broadcast_entry. by destruct (reached g e). }
  destruct Hb as (B1 & B2 & B3 & B4 & B5). unfold cast_entry. destruct woke; [|rewrite B5; split_and!; auto]. unfold cover_entry. rewrite <- B5.
  destruct ((entry_generation (broadcast_entry g e) <? g) && notified (broadcast_entry g e) && bool_decide (waker (broadcast_entry g e) = None)) eqn:E; simpl; split_and!; try done; auto.
  intros _. right. apply andb_true_iff in E as [[E _]%andb_true_iff _]. apply N.ltb_lt in E. lia.
Qed.

Lemma cast_vacant g woke e : vacant (cast_entry g woke e) = vacant e.
Proof.
  destruct (cast_fields g woke e) as (F1 & F2 & _). unfold vacant. rewrite F1, F2. destruct (reached g e) eqn:Er; [|done]. apply reached_waker in Er. unfold has_waker in Er. apply bool_decide_eq_true in Er as [w Hw]. rewrite Hw. by rewrite andb_false_r.
Qed.

Lemma cast_has_waker g woke e : has_waker (cast_entry g woke e) = has_waker e && negb (reached g e).
Proof. destruct (cast_fields g woke e) as (F1 & _). unfold has_waker at 1. rewrite F1. destruct (reached g e); [by rewrite andb_false_r|by rewrite andb_true_r]. Qed.

Lemma cast_waiting g woke es : waiting_entries (cast_entry g woke <$> es) + lenN (cast_wakers g es) = waiting_entries es.
Proof.
  unfold waiting_entries. induction es as [|e es IH]; [done|]. rewrite fmap_cons. simpl. rewrite cast_has_waker. destruct (reached g e) eqn:Er; simpl.
  - pose proof (reached_waker g e Er) as Hw. rewrite Hw. simpl. unfold has_waker in Hw. apply bool_decide_eq_true in Hw as [w Hw]. rewrite Hw, len_cons. fold (cast_wakers g es). lia.
  - rewrite andb_true_r. fold (cast_wakers g es). lia.
Qed.

Lemma cast_ok n g : slab_ok (waiters n) → lenN (entries (waiters n)) ≤ usize_MAX → slab_ok (waiters (wake_waiters n g).1).
Proof.
  intros [S1 S2 S3 S4] Hlen. rewrite wake_waiters_eq. set (woke := negb _). split; simpl; [done| | |].
  - intros i e' Hi. apply list_lookup_fmap_Some in Hi as (e & -> & Hi). rewrite cast_vacant. by apply S2.
  - intros i e' Hi. apply list_lookup_fmap_Some in Hi as (e & -> & Hi). rewrite cast_has_waker. intros [Hw Hr]%andb_true_iff. destruct (cast_fields g woke e) as (_ & F2 & _). rewrite F2. apply negb_true_iff in Hr. rewrite Hr. simpl. by apply (S3 i).
  - pose proof (cast_waiting g woke (entries (waiters n))). pose proof (sum_indicator has_waker (entries (waiters n))) as Hb. fold (waiting_entries (entries (waiters n))) in Hb. rewrite S4, wrapping_sub_small by lia. lia.
Qed.

Lemma cast_wakes g es i e w : es !! i = Some e → waker e = Some w → entry_generation e < g → w ∈ cast_wakers g es.
Proof.
  intros Hi Hw Hg. apply list_elem_of_omap. exists e. split; [by apply list_elem_of_lookup_2 in Hi|]. unfold reached. rewrite Hw. apply N.ltb_lt in Hg. by rewrite Hg.
Qed.

(** *** Replacing a waker *)

Definition rewaken e (w : Waker) : WaiterEntry := mkEntry (Some w) (notified e) (entry_generation e) (broadcast_covered_peer e) (slot_epoch e).

Lemma rewaken_ok s i e w : slab_ok s → entries s !! i = Some e → has_waker e = true → slab_ok (mkSlab (<[i := rewaken e w]> (entries s)) (free_slots s) (active s) (scan_start s)).
Proof.
  intros [S1 S2 S3 S4] He Hw.
  assert (Hes : ∀ j e', <[i := rewaken e w]> (entries s) !! j = Some e' → (j = i ∧ e' = rewaken e w) ∨ entries s !! j = Some e').
  { intros j e'. destruct (decide (j = i)) as [->|Hj]; [rewrite list_lookup_insert_eq by (by apply lookup_lt_Some in He); intros [= <-]; by left|rewrite list_lookup_insert_ne by done; by right]. }
  split; simpl; [done| | |].
  - intros j e' [[-> ->]|Hj]%Hes; [|by apply S2]. rewrite <- (S2 i e He), (waker_not_vacant e Hw). done.
  - intros j e' [[-> ->]|Hj]%Hes; [intros _; exact (S3 i e He Hw)|by apply (S3 j)].
  - pose proof (sum_over_update (λ e, if has_waker e then 1 else 0) (entries s) i e (rewaken e w) He) as H. simpl in H. rewrite Hw in H. fold (waiting_entries (entries s)) (waiting_entries (<[i := rewaken e w]> (entries s))) in H. rewrite S4. change (has_waker (rewaken e w)) with true in H. lia.
Qed.

End Notify.
