(* ===== verification/NotifyThms.v ===== *)
(** * The notification primitive: interleavings and theorems

    [System] is a [Notify] with the futures that wait on it, the calls of
    [notify_waiters] between their two accesses, and the holder of the lock where one call
    keeps it over two accesses; every interleaving is considered, with futures dropped at
    any point between two polls (one that is leaked takes no more steps).  The theorems:
    no wake-up is lost; every notification of [notify_one] is stored, held by one waiter
    or spent on one, except where a broadcast covers it; and a waiter is passed over by
    fewer notifications than there ever were waiters. *)

From S2P Require Import Prelude Atomic Notify.
Import Notify.

Inductive Phase :=
  | Idle                                      (* between two polls *)
  | Observed (w : Waker)                      (* polled: the generation is observed *)
  | Locking (w : Waker)                       (* about to lock and check it again *)
  | Registering (w : Waker)                   (* has the lock, about to register *)
  | Rechecking (changed : bool) (w : Waker)   (* polled while waiting: about to lock *)
  | Storing.                                  (* dropped, has the lock, about to store a notification *)

Record Task := mkTask { fut : Notified; phase : Phase; sleeps : option Waker }.

Record System := mkSystem {
  notify : Notify;
  holder : option N;
  tasks : gmap N Task;
  casts : gmap N N;          (* calls of notify_waiters before their lock, with their generation *)
  ones : N;                  (* calls of notify_one *)
  spent : N;                 (* notifications a poll returned for *)
  swallowed : N;             (* notifications dropped because a broadcast covers them *)
  covered : gset N;          (* futures that were chosen before a broadcast that woke another *)
  peak : nat;                (* the most futures that ever waited at the same time *)
}.
Implicit Types (y : System) (t : Task) (f : Notified) (n : Notify) (s : WaiterSlab) (e : WaiterEntry).

Inductive Op :=
  | ONotified (id : N)
  | OPoll (id : N) (w : Waker)
  | OStep (id : N)
  | ODrop (id : N)
  | ONotifyOne
  | OCast (k : N)
  | OCastLock (k : N).

Definition is_idle t : bool := match phase t with Idle => true | _ => false end.
Definition needs_lock t : bool := match phase t with Locking _ | Rechecking _ _ => true | _ => false end.
Definition is_waiting t : bool := bool_decide (state (fut t) = SWaiting).
Definition is_storing t : bool := match phase t with Storing => true | _ => false end.
Definition is_holding t : bool := match phase t with Registering _ | Storing => true | _ => false end.
Definition unlocked y : bool := bool_decide (holder y = None).

Definition enabled y (o : Op) : bool :=
  match o with
  | ONotified id => bool_decide (tasks y !! id = None)
  | OPoll id _ => match tasks y !! id with Some t => is_idle t | None => false end
  | OStep id => match tasks y !! id with Some t => negb (is_idle t) && (negb (needs_lock t) || unlocked y) | None => false end
  | ODrop id => match tasks y !! id with Some t => is_idle t && (negb (is_waiting t) || unlocked y) | None => false end
  | ONotifyOne => unlocked y
  | OCast k => bool_decide (casts y !! k = None)
  | OCastLock k => bool_decide (is_Some (casts y !! k)) && unlocked y
  end.

Definition wake (ws : list Waker) t : Task :=
  mkTask (fut t) (phase t) (match sleeps t with Some w => if bool_decide (w ∈ ws) then None else Some w | None => None end).

Definition set_notify y n : System := mkSystem n (holder y) (tasks y) (casts y) (ones y) (spent y) (swallowed y) (covered y) (peak y).
Definition set_holder y h : System := mkSystem (notify y) h (tasks y) (casts y) (ones y) (spent y) (swallowed y) (covered y) (peak y).
Definition set_tasks y ts : System := mkSystem (notify y) (holder y) ts (casts y) (ones y) (spent y) (swallowed y) (covered y) (peak y).
Definition set_casts y cs : System := mkSystem (notify y) (holder y) (tasks y) cs (ones y) (spent y) (swallowed y) (covered y) (peak y).
Definition add_one y : System := mkSystem (notify y) (holder y) (tasks y) (casts y) (ones y + 1) (spent y) (swallowed y) (covered y) (peak y).
Definition add_spent y k : System := mkSystem (notify y) (holder y) (tasks y) (casts y) (ones y) (spent y + k) (swallowed y) (covered y) (peak y).
Definition add_swallowed y k : System := mkSystem (notify y) (holder y) (tasks y) (casts y) (ones y) (spent y) (swallowed y + k) (covered y) (peak y).
Definition note_peak y : System := mkSystem (notify y) (holder y) (tasks y) (casts y) (ones y) (spent y) (swallowed y) (covered y) (Nat.max (peak y) (carriers is_waiting (tasks y))).
Definition set_covered y c : System := mkSystem (notify y) (holder y) (tasks y) (casts y) (ones y) (spent y) (swallowed y) c (peak y).
Definition put y (id : N) t : System := set_tasks y (<[id := t]> (tasks y)).

(** The future was chosen by a [notify_one] and has not returned yet. *)
Definition holds_token n f : bool :=
  match waiter_index f with
  | Some (i, _) => match entries (waiters n) !! i with Some e => notified e && (entry_generation e =? initial_generation f) | None => false end
  | None => false
  end.
Definition token n f : N := if holds_token n f then 1 else 0.

(** A broadcast of generation [g] that woke someone covers whoever was chosen before and
    first polled before it. *)
Definition covers y (g : N) (ws : list Waker) : gset N :=
  if bool_decide (ws = []) then ∅ else dom (filter (λ '(_, t), holds_token (notify y) (fut t) && (initial_generation (fut t) <? g) = true) (tasks y)).

(** When a dropped future's notification may go: it was chosen, a later broadcast that woke
    another future covers it, and nobody is left who waits.  Any other notification has to
    be passed on or stored. *)
Definition swallows y (id : N) t : N :=
  if holds_token (notify y) (fut t) && bool_decide (id ∈ covered y) && negb (existsb has_waker (entries (waiters (notify y)))) then 1 else 0.

Definition ready_or {A} (p : poll ()) (r q : A) : A := match p with Ready _ => r | Pending => q end.

Definition step_task y (id : N) t : exec System :=
  let n := notify y in
  match phase t with
  | Idle => Done y
  | Observed w =>
      let '(n', got) := try_consume_stored_notification n in
      Done (if got then add_spent (put (set_notify y n') id (mkTask (mark_done (fut t)) Idle None)) 1 else put y id (mkTask (fut t) (Locking w) None))
  | Locking w =>
      Done (if generation_changed n (fut t) then put y id (mkTask (mark_done (fut t)) Idle None) else set_holder (put y id (mkTask (fut t) (Registering w) None)) (Some id))
  | Registering w =>
      let '(n', f, p) := register n (fut t) w in
      Done (note_peak (set_covered (add_spent (put (set_holder (set_notify y n') None) id (mkTask f Idle (ready_or p None (Some w)))) (ready_or p 1 0)) (covered y ∖ {[id]})))
  | Rechecking changed w =>
      '(n', f, p) ← poll_waiting n (fut t) changed w;
      Done (add_spent (put (set_notify y n') id (mkTask f Idle (ready_or p None (Some w)))) (ready_or p (token n (fut t)) 0))
  | Storing => Done (set_tasks (set_holder (set_notify y (store_notification n)) None) (delete id (tasks y)))
  end.

Definition drop_task y (id : N) t : System :=
  let n := notify y in
  if is_waiting t then
    let '(n', next, store) := drop_waiting n (fut t) in
    let y := add_swallowed (set_tasks (set_notify y n') (wake (option_list next) <$> delete id (tasks y))) (swallows y id t) in
    if store then set_holder (put y id (mkTask (mkNotified SDone None (initial_generation (fut t))) Storing None)) (Some id) else y
  else set_tasks y (delete id (tasks y)).

Definition sys_step y (o : Op) : exec System :=
  let n := notify y in
  match o with
  | ONotified id => Done (put y id (mkTask (new_notified n) Idle None))
  | OPoll id w =>
      match tasks y !! id with
      | Some t =>
          Done (match state (fut t) with
                | SInit => put y id (mkTask (observe n (fut t)) (Observed w) None)
                | SWaiting => put y id (mkTask (fut t) (Rechecking (generation_changed n (fut t)) w) None)
                | SDone => y
                end)
      | None => Done y
      end
  | OStep id => match tasks y !! id with Some t => step_task y id t | None => Done y end
  | ODrop id => match tasks y !! id with Some t => Done (drop_task y id t) | None => Done y end
  | ONotifyOne => let '(n', next) := notify_one n in Done (add_one (set_tasks (set_notify y n') (wake (option_list next) <$> tasks y)))
  | OCast k => let '(n', g) := advance_generation n in Done (set_casts (set_notify y n') (<[k := g]> (casts y)))
  | OCastLock k =>
      match casts y !! k with
      | Some g => let '(n', ws) := wake_waiters n g in Done (set_covered (set_casts (set_tasks (set_notify y n') (wake ws <$> tasks y)) (delete k (casts y))) (covered y ∪ covers y g ws))
      | None => Done y
      end
  end.

Definition sys_new : System := mkSystem notify_new None ∅ ∅ 0 0 0 ∅ 0.

Inductive reachable : N → System → Prop :=
  | reach_new : reachable 0 sys_new
  | reach_step time y o y' : reachable time y → enabled y o = true → sys_step y o = Done y' → reachable (time + 1) y'.

(** ** The invariant *)

Definition slab y : WaiterSlab := waiters (notify y).

(** Nothing broadcast since the future was polled first, or a broadcast that will reach it. *)
Definition current y f : Prop := generation (notify y) = initial_generation f ∨ ∃ k g, casts y !! k = Some g ∧ initial_generation f < g.

Record entry_of y f (i : nat) e : Prop := {
  eo_index : waiter_index f = Some (i, slot_epoch e);
  eo_entry : entries (slab y) !! i = Some e;
  eo_live : vacant e = false;
  eo_generation : initial_generation f ≤ entry_generation e ≤ generation (notify y);
  eo_waits : has_waker e = true → entry_generation e = initial_generation f ∧ current y f;
  eo_cover : broadcast_covered_peer e = true → 0 < generation (notify y);
}.

Definition nobody_asleep y : Prop := ∀ j, ¬ asleep_at (slab y) j.

Definition phase_state t : Prop :=
  match phase t with
  | Idle => True
  | Observed _ | Locking _ | Registering _ => state (fut t) = SInit
  | Rechecking _ _ => state (fut t) = SWaiting
  | Storing => state (fut t) = SDone
  end.

Record task_ok y (id : N) t : Prop := {
  to_time : initial_generation (fut t) ≤ generation (notify y);
  to_phase : phase_state t;
  to_waiting : state (fut t) = SWaiting → ∃ i e, entry_of y (fut t) i e;
  to_index : state (fut t) ≠ SWaiting → waiter_index (fut t) = None;
  to_changed w : phase t = Rechecking true w → initial_generation (fut t) < generation (notify y);
  to_registering w : phase t = Registering w → holder y = Some id ∧ current y (fut t);
  to_storing : phase t = Storing → holder y = Some id ∧ nobody_asleep y;
  to_sleep w : sleeps t = Some w → state (fut t) = SWaiting ∧ phase t = Idle ∧ ∃ i e, waiter_index (fut t) = Some (i, slot_epoch e) ∧ entries (slab y) !! i = Some e ∧ waker e = Some w;
}.

Definition owns t (i : nat) : Prop := state (fut t) = SWaiting ∧ ∃ ep, waiter_index (fut t) = Some (i, ep).

(** Notifications that a future was chosen for, and those about to be stored. *)
Definition held y : N := N.of_nat (carriers (λ t, holds_token (notify y) (fut t)) (tasks y)).
Definition storing y : N := N.of_nat (carriers is_storing (tasks y)).

(** [hand] notifications are being passed on. *)
Record inv (hand time : N) y : Prop := {
  i_slab : slab_ok (slab y);
  i_time : lenN (entries (slab y)) ≤ time ∧ generation (notify y) ≤ time ∧ ones y ≤ time;
  i_tasks id t : tasks y !! id = Some t → task_ok y id t;
  i_apart i j ti tj k : tasks y !! i = Some ti → tasks y !! j = Some tj → owns ti k → owns tj k → i = j;
  i_owned k e : entries (slab y) !! k = Some e → vacant e = false → ∃ id t, tasks y !! id = Some t ∧ owns t k;
  i_stored : 0 < stored_notifications (notify y) → nobody_asleep y;
  i_casts k g : casts y !! k = Some g → 0 < g ≤ generation (notify y);
  i_tokens : ones y = stored_notifications (notify y) + held y + storing y + spent y + swallowed y + hand;
  i_swallowed : generation (notify y) = 0 → swallowed y = 0;
  i_peak : (length (entries (slab y)) ≤ peak y ∧ scan_start (slab y) ≤ peak y ∧ ∀ j, j ∈ free_indices (slab y) → j < peak y)%nat;
  i_holder id : holder y = Some id → ∃ t, tasks y !! id = Some t ∧ is_holding t = true;
}.

(** ** Counting *)

Lemma carriers_ext {X} (P Q : X → bool) (m : gmap N X) : (∀ i x, m !! i = Some x → P x = Q x) → carriers P m = carriers Q m.
Proof.
  intros H. unfold carriers. f_equal. apply map_filter_ext. intros i x Hi. simpl. by rewrite (H i x Hi).
Qed.

Lemma carriers_delete {X} (P : X → bool) (m : gmap N X) i x : m !! i = Some x → carriers P m = ((if P x then 1 else 0) + carriers P (delete i m))%nat.
Proof. intros Hi. rewrite <- (insert_delete_id m i x Hi) at 1. by rewrite carriers_insert by apply lookup_delete_eq. Qed.

Lemma carriers_none {X} (P : X → bool) (m : gmap N X) i : m !! i = None → carriers P (delete i m) = carriers P m.
Proof. intros Hi. by rewrite delete_id. Qed.

(** One task changes, and the predicate for none of the others. *)
Lemma carriers_change {X} (P Q : X → bool) (m : gmap N X) i x' : (∀ j x, j ≠ i → m !! j = Some x → P x = Q x) →
  (carriers Q (<[i := x']> m) + match m !! i with Some x => if P x then 1 else 0 | None => 0 end = carriers P m + (if Q x' then 1 else 0))%nat.
Proof.
  intros H. rewrite <- insert_delete_eq, carriers_insert by apply lookup_delete_eq.
  assert (carriers Q (delete i m) = carriers P (delete i m)) as ->.
  { apply carriers_ext. intros j x Hj. apply lookup_delete_Some in Hj as [Hne Hj]. symmetry. by apply (H j). }
  destruct (m !! i) as [x|] eqn:Hi; [rewrite (carriers_delete P m i x Hi)|rewrite (carriers_none P m i Hi)]; lia.
Qed.

Lemma carriers_wake (P : Task → bool) ws (m : gmap N Task) : (∀ t, P (wake ws t) = P t) → carriers P (wake ws <$> m) = carriers P m.
Proof.
  intros H. induction m as [|i t m Hi IH] using map_ind; [by rewrite fmap_empty|]. rewrite fmap_insert, !carriers_insert; [by rewrite H, IH|done|by rewrite lookup_fmap, Hi].
Qed.

Lemma held_change y y' id t' : tasks y' = <[id := t']> (tasks y) →
  (∀ j tj, j ≠ id → tasks y !! j = Some tj → holds_token (notify y') (fut tj) = holds_token (notify y) (fut tj)) →
  held y' + match tasks y !! id with Some t => token (notify y) (fut t) | None => 0 end = held y + token (notify y') (fut t').
Proof.
  intros Ht H. unfold held, token. rewrite Ht. pose proof (carriers_change (λ t, holds_token (notify y) (fut t)) (λ t, holds_token (notify y') (fut t)) (tasks y) id t' ltac:(intros j tj Hne Hj; symmetry; by apply (H j tj))) as C.
  destruct (tasks y !! id) as [t|]; [destruct (holds_token (notify y) (fut t))|]; destruct (holds_token (notify y') (fut t')); lia.
Qed.

Lemma storing_change y y' id t' : tasks y' = <[id := t']> (tasks y) →
  storing y' + match tasks y !! id with Some t => if is_storing t then 1 else 0 | None => 0 end = storing y + (if is_storing t' then 1 else 0).
Proof.
  intros Ht. unfold storing. rewrite Ht. pose proof (carriers_change is_storing is_storing (tasks y) id t' ltac:(done)) as C.
  destruct (tasks y !! id) as [t|]; [destruct (is_storing t)|]; destruct (is_storing t'); lia.
Qed.

Lemma held_delete y id t : tasks y !! id = Some t → held y = token (notify y) (fut t) + held (set_tasks y (delete id (tasks y))).
Proof. intros Ht. unfold held, token. rewrite (carriers_delete _ _ _ _ Ht). simpl. destruct (holds_token (notify y) (fut t)); lia. Qed.

Lemma storing_delete y id t : tasks y !! id = Some t → storing y = (if is_storing t then 1 else 0) + storing (set_tasks y (delete id (tasks y))).
Proof. intros Ht. unfold storing. rewrite (carriers_delete _ _ _ _ Ht). simpl. destruct (is_storing t); lia. Qed.

Lemma wake_nil t : wake [] t = t.
Proof. by destruct t as [f ph [w|]]. Qed.

(** ** What steps do to the tasks they are not about *)

Definition evolves (g : N) (ws : list Waker) e e' : Prop :=
  slot_epoch e' = slot_epoch e ∧ vacant e' = false ∧ entry_generation e ≤ entry_generation e' ≤ g ∧
  (has_waker e' = true → waker e' = waker e ∧ entry_generation e' = entry_generation e) ∧
  (∀ w, waker e = Some w → has_waker e' = false → w ∈ ws) ∧ (broadcast_covered_peer e' = true → broadcast_covered_peer e = true ∨ 0 < g).

Lemma evolves_refl g ws e : vacant e = false → entry_generation e ≤ g → evolves g ws e e.
Proof. intros Hv Hg. split_and!; try done; [|by left]. intros w Hw Hn. unfold has_waker in Hn. by rewrite Hw in Hn. Qed.

Lemma task_moves y y' id t ws : task_ok y id t → generation (notify y) ≤ generation (notify y') →
  (is_holding t = true → holder y' = Some id ∧ (current y (fut t) → current y' (fut t)) ∧ (nobody_asleep y → nobody_asleep y')) →
  (∀ i e, state (fut t) = SWaiting → entry_of y (fut t) i e → ∃ e', entries (slab y') !! i = Some e' ∧ evolves (generation (notify y')) ws e e' ∧ (has_waker e' = true → current y (fut t) → current y' (fut t))) →
  task_ok y' id (wake ws t).
Proof.
  intros [T1 T2 T3 T4 T5 T6 T7 T8] Hg Hh He. split; simpl; try done.
  - lia.
  - intros Hs. destruct (T3 Hs) as (i & e & Heo). destruct (He i e Hs Heo) as (e' & He' & (V1 & V2 & V3 & V4 & V5 & V6) & Hcur). destruct Heo as [E1 E2 E3 E4 E5 E6]. exists i, e'. split; try done.
    + by rewrite V1.
    + lia.
    + intros Hw. destruct (V4 Hw) as [V4a V4b]. destruct E5 as [E5a E5b]; [unfold has_waker in *; by rewrite <- V4a|]. split; [lia|auto].
    + intros Hc. destruct (V6 Hc) as [Hc'|]; [apply E6 in Hc'; lia|done].
  - intros w Hp. specialize (T5 w Hp). lia.
  - intros w Hp. destruct (T6 w Hp) as [_ Hc]. destruct Hh as (H1 & H2 & _); [unfold is_holding; by rewrite Hp|]. auto.
  - intros Hp. destruct (T7 Hp) as [_ Hc]. destruct Hh as (H1 & _ & H2); [unfold is_holding; by rewrite Hp|]. auto.
  - intros w Hw. destruct (sleeps t) as [w0|] eqn:Es; [|done]. case_bool_decide as Hin; [done|]. injection Hw as ->. destruct (T8 w eq_refl) as (S1 & S2 & i & e & S3 & S4 & S5). split_and!; [done|done|].
    destruct (T3 S1) as (i' & e0 & Heo). pose proof Heo as [E1 E2 _ _ _ _]. rewrite S3 in E1. injection E1 as <- E1. assert (e0 = e) as -> by congruence.
    destruct (He i e S1 Heo) as (e' & He' & (V1 & V2 & V3 & V4 & V5 & V6) & _). exists i, e'. rewrite V1. split_and!; [done|done|]. destruct (has_waker e') eqn:Hw'; [by destruct (V4 eq_refl) as [-> _]|]. destruct Hin. by apply V5.
Qed.

Lemma holds_same y n' f : (state f ≠ SWaiting → waiter_index f = None) →
  (∀ i ep e, state f = SWaiting → waiter_index f = Some (i, ep) → entries (slab y) !! i = Some e → ∃ e', entries (waiters n') !! i = Some e' ∧ notified e' = notified e ∧ entry_generation e' = entry_generation e) →
  (state f = SWaiting → ∃ i e, entry_of y f i e) → holds_token n' f = holds_token (notify y) f.
Proof.
  intros Hn He Hw. destruct (decide (state f = SWaiting)) as [Hs|Hs]; [|unfold holds_token; by rewrite (Hn Hs)].
  destruct (Hw Hs) as (i & e & [E1 E2 _ _ _ _]). unfold holds_token. rewrite E1. fold (slab y). rewrite E2. destruct (He i _ e Hs E1 E2) as (e' & -> & -> & ->). done.
Qed.

Lemma task_ok_same y y' id t : generation (notify y') = generation (notify y) → slab y' = slab y → holder y' = holder y → casts y' = casts y → task_ok y id t → task_ok y' id t.
Proof.
  intros Hg Hs Hh Hc Hok. rewrite <- (wake_nil t). apply (task_moves y y' id t []); [done|by rewrite Hg| |].
  - intros Hhold. split_and!; [|unfold current; by rewrite Hg, Hc|unfold nobody_asleep; by rewrite Hs].
    rewrite Hh. destruct Hok as [_ _ _ _ _ T6 T7 _]. unfold is_holding in Hhold. destruct (phase t) as [| | |w| |]; try done; [by apply (T6 w)|by apply T7].
  - intros i e _ Heo. exists e. rewrite Hs. split_and!; [apply Heo|apply evolves_refl; [apply Heo|destruct Heo; lia]|]. intros _. unfold current. by rewrite Hg, Hc.
Qed.

Lemma not_holding hand time y j tj : inv hand time y → tasks y !! j = Some tj → holder y ≠ Some j → is_holding tj = false.
Proof.
  intros Hinv Hj Hh. pose proof (i_tasks _ _ _ Hinv j tj Hj) as [_ _ _ _ _ T6 T7 _]. unfold is_holding. destruct (phase tj) as [| | |w| |] eqn:Hp; try done; [by destruct (T6 w eq_refl)|by destruct (T7 eq_refl)].
Qed.

Lemma not_storing hand time y j tj : inv hand time y → tasks y !! j = Some tj → holder y ≠ Some j → is_storing tj = false.
Proof. intros Hinv Hj Hh. pose proof (not_holding _ _ _ _ _ Hinv Hj Hh) as H. unfold is_holding in H. unfold is_storing. by destruct (phase tj). Qed.

(** Tasks whose entries stay as they are. *)
Lemma frame_other y y' j tj : task_ok y j tj → is_holding tj = false → generation (notify y') = generation (notify y) → casts y' = casts y →
  (∀ k e, state (fut tj) = SWaiting → entry_of y (fut tj) k e → entries (slab y') !! k = Some e) →
  task_ok y' j tj ∧ holds_token (notify y') (fut tj) = holds_token (notify y) (fut tj).
Proof.
  intros Hok Hh Hg Hc He. split.
  - rewrite <- (wake_nil tj). apply (task_moves y y' j tj []); [done|lia|congruence|]. intros i e Hs Heo. exists e. split_and!; [by apply He|apply evolves_refl; [apply Heo|]|].
    + destruct Heo as [_ _ _ Hgen _ _]. lia.
    + intros _. unfold current. by rewrite Hg, Hc.
  - apply holds_same; [apply Hok| |apply Hok]. intros i ep e Hs Hi Hent. exists e. split; [|done]. destruct (to_waiting _ _ _ Hok Hs) as (k & e0 & Heo). pose proof Heo as [E1 E2 _ _ _ _].
    rewrite Hi in E1. injection E1 as <- _. assert (e0 = e) as -> by congruence. by apply (He i e Hs).
Qed.

(** ** Steps that leave the slab alone *)

Lemma own_step hand hand' time y y' id t' :
  inv hand time y → generation (notify y') = generation (notify y) → slab y' = slab y → casts y' = casts y → tasks y' = <[id := t']> (tasks y) →
  ones y' = ones y → swallowed y' = swallowed y → peak y' = peak y →
  (∀ j, j ≠ id → holder y ≠ Some j ∧ holder y' ≠ Some j ∨ holder y' = holder y) → (holder y' = Some id → is_holding t' = true) →
  (∀ k, owns t' k → ∃ t, tasks y !! id = Some t ∧ owns t k) → (∀ t k, tasks y !! id = Some t → owns t k → owns t' k) →
  (0 < stored_notifications (notify y') → 0 < stored_notifications (notify y)) → task_ok y' id t' →
  stored_notifications (notify y') + spent y' + (if holds_token (notify y) (fut t') then 1 else 0) + (if is_storing t' then 1 else 0) + hand' =
    stored_notifications (notify y) + spent y + hand + match tasks y !! id with Some t => (if holds_token (notify y) (fut t) then 1 else 0) + (if is_storing t then 1 else 0) | None => 0 end →
  inv hand' time y'.
Proof.
  intros Hinv Hg Hs Hc Ht Ho Hsw Hpk Hh Hhid Hown1 Hown2 Hst Hok Htok. pose proof Hinv as [I1 I2 I3 I4 I5 I6 I7 I8 I9 I10 I11].
  assert (Hnot : ∀ f, holds_token (notify y') f = holds_token (notify y) f) by (intros f; unfold holds_token; fold (slab y') (slab y); by rewrite Hs).
  assert (Hback : ∀ j tj, tasks y' !! j = Some tj → (j = id ∧ tj = t') ∨ (j ≠ id ∧ tasks y !! j = Some tj)).
  { intros j tj. rewrite Ht. intros [[<- <-]|[Hne Hj]]%lookup_insert_Some; auto. }
  assert (Hasleep : nobody_asleep y → nobody_asleep y') by (unfold nobody_asleep; by rewrite Hs).
  assert (Howner : ∀ j tj k, tasks y' !! j = Some tj → owns tj k → ∃ tj0, tasks y !! j = Some tj0 ∧ owns tj0 k).
  { intros j tj k [[-> ->]|[_ Hj]]%Hback Hk; [by apply Hown1|by exists tj]. }
  split; rewrite ?Hs, ?Hg, ?Hc, ?Ho, ?Hsw, ?Hpk; try done.
  - intros j tj [[-> ->]|[Hne Hj]]%Hback; [done|]. pose proof (I3 j tj Hj) as Hj'. rewrite <- (wake_nil tj). apply (task_moves y y' j tj []); [done|lia| |].
    + intros Hhold. assert (holder y = Some j) as Hhj by (destruct (decide (holder y = Some j)); [done|]; by rewrite (not_holding _ _ _ _ _ Hinv Hj) in Hhold). split_and!; [|unfold current; by rewrite Hg, Hc|done].
      destruct (Hh j Hne) as [[]|Hh']; [done|congruence].
    + intros i e _ Heo. exists e. rewrite Hs. split_and!; [apply Heo|apply evolves_refl; [apply Heo|destruct Heo; lia]|]. intros _. unfold current. by rewrite Hg, Hc.
  - intros i j ti tj k Hi Hj Hki Hkj. destruct (Howner i ti k Hi Hki) as (ti0 & ? & ?). destruct (Howner j tj k Hj Hkj) as (tj0 & ? & ?). by apply (I4 i j ti0 tj0 k).
  - intros k e He Hv. destruct (I5 k e He Hv) as (j & tj & Hj & Hk). destruct (decide (j = id)) as [->|Hne]; [exists id, t'; rewrite Ht, lookup_insert_eq; eauto|exists j, tj; by rewrite Ht, lookup_insert_ne].
  - intros Hpos. by apply Hasleep, I6, Hst.
  - pose proof (held_change y y' id t' Ht ltac:(done)) as C1. pose proof (storing_change y y' id t' Ht) as C2. unfold token in C1. rewrite Hnot in C1. rewrite I8. destruct (tasks y !! id); lia.
  - intros j Hj. destruct (decide (j = id)) as [->|Hne]; [exists t'; rewrite Ht, lookup_insert_eq; auto|]. destruct (Hh j Hne) as [[_ ?]|Hh']; [done|]. rewrite Hh' in Hj. destruct (I11 j Hj) as (tj & ? & ?). exists tj. by rewrite Ht, lookup_insert_ne.
Qed.

(** A future that is not waiting goes. *)
Lemma forget_step hand time y id t : inv hand time y → tasks y !! id = Some t → state (fut t) ≠ SWaiting → is_holding t = false → inv hand time (set_tasks y (delete id (tasks y))).
Proof.
  intros [I1 I2 I3 I4 I5 I6 I7 I8 I9 I10 I11] Ht Hs Hh. split; simpl; try done.
  - intros j tj Hj. apply lookup_delete_Some in Hj as [Hne Hj]. by apply (task_ok_same y), I3.
  - intros i j ti tj k Hi Hj. apply lookup_delete_Some in Hi as [_ Hi]. apply lookup_delete_Some in Hj as [_ Hj]. by apply (I4 i j ti tj k).
  - intros k e He Hv. destruct (I5 k e He Hv) as (j & tj & Hj & Hk). exists j, tj. split; [|done]. apply lookup_delete_Some. split; [|done]. intros <-. destruct Hk as [Hk _]. congruence.
  - rewrite I8, (held_delete y id t Ht), (storing_delete y id t Ht). assert (is_storing t = false) as -> by (unfold is_holding in Hh; unfold is_storing; by destruct (phase t)).
    unfold token, holds_token. rewrite (to_index _ _ _ (I3 id t Ht) Hs). lia.
  - intros j Hj. destruct (I11 j Hj) as (tj & Hj' & Hh'). exists tj. split; [|done]. apply lookup_delete_Some. split; [|done]. intros <-. congruence.
Qed.

Lemma inv_later hand time time' y : inv hand time y → time ≤ time' → inv hand time' y.
Proof. intros [I1 I2 I3 I4 I5 I6 I7 I8 I9 I10 I11] Ht. split; try done. lia. Qed.

(** ** Steps that change the slab *)

(** A waiting future leaves its entry. *)
Lemma remove_step time y id t i e : inv 0 time y → time ≤ usize_MAX → holder y = None → tasks y !! id = Some t → state (fut t) = SWaiting → entry_of y (fut t) i e →
  inv (token (notify y) (fut t)) time (put (set_notify y (set_waiters (notify y) (remove (slab y) i))) id (mkTask (mkNotified SDone None (initial_generation (fut t))) Idle None)).
Proof.
  intros Hinv Htime Hh Ht Hs Heo. pose proof Hinv as [I1 I2 I3 I4 I5 I6 I7 I8 I9 I10 I11]. set (t' := mkTask _ _ _). set (y' := put _ _ _). pose proof Heo as [E1 E2 E3 E4 E5 E6].
  destruct (waiter_remove_spec (slab y) i e I1 ltac:(lia) E2 E3) as [R1 R2 R3 R4 R5 R6].
  assert (Hmine : owns t i) by (split; eauto).
  assert (Hframe : ∀ j tj, j ≠ id → tasks y !! j = Some tj → task_ok y' j tj ∧ holds_token (notify y') (fut tj) = holds_token (notify y) (fut tj)).
  { intros j tj Hne Hj. apply frame_other; [by apply I3|apply (not_holding _ _ _ j tj Hinv Hj); by rewrite Hh|done|done|]. intros k e' Hsj [K1 K2 K3 _ _ _]. apply R2; [|done|done]. intros ->. apply Hne, (I4 j id tj t i); try done. split; eauto. }
  assert (Hasleep : nobody_asleep y → nobody_asleep y').
  { intros Hn j (e' & He' & Hw'). apply (Hn j). exists e'. split; [|done]. destruct (decide (j = i)) as [->|Hj]; [apply R3 in He'; apply vacant_no_waker in He'; congruence|]. apply R2; [done|by apply waker_not_vacant|done]. }
  assert (Hsl : slab y' = remove (slab y) i) by done. split; rewrite ?Hsl; simpl; try done.
  - unfold lenN in *. lia.
  - intros j tj [[<- <-]|[Hne Hj]]%lookup_insert_Some; [|by apply Hframe]. split; simpl; try done. apply (to_time _ _ _ (I3 id t Ht)).
  - intros a b ta tb k Ha Hb Hka Hkb. apply lookup_insert_Some in Ha as [[<- <-]|[Ha0 Ha]]; [by destruct Hka|]. apply lookup_insert_Some in Hb as [[<- <-]|[Hb0 Hb]]; [by destruct Hkb|]. by apply (I4 a b ta tb k).
  - intros k e' He' Hv. assert (k ≠ i) as Hk by (intros ->; apply R3 in He'; congruence). apply R2 in He'; [|done|done]. destruct (I5 k e' He' Hv) as (j & tj & Hj & Hkj). exists j, tj. split; [|done]. rewrite lookup_insert_ne; [done|].
    intros <-. rewrite Ht in Hj. injection Hj as <-. destruct Hkj as [_ [ep Hep]]. congruence.
  - intros Hpos. by apply Hasleep, I6.
  - pose proof (held_change y y' id t' eq_refl ltac:(intros j tj Hne Hj; exact (proj2 (Hframe j tj Hne Hj)))) as C1. pose proof (storing_change y y' id t' eq_refl) as C2. rewrite Ht in C1, C2.
    rewrite (not_storing _ _ _ id t Hinv Ht) in C2 by (by rewrite Hh). change (token (notify y') (fut t')) with 0 in C1. change (if is_storing t' then 1 else 0) with 0 in C2. lia.
  - destruct I10 as (P1 & P2 & P3). split_and!; [lia|by rewrite R4|]. intros j [->|Hj]%R5; [apply lookup_lt_Some in E2; lia|auto].
  - intros j Hj. congruence.
Qed.

(** The owner of an entry. *)
Lemma owner_of hand time y k e : inv hand time y → entries (slab y) !! k = Some e → vacant e = false → ∃ id t, tasks y !! id = Some t ∧ state (fut t) = SWaiting ∧ entry_of y (fut t) k e.
Proof.
  intros Hinv He Hv. destruct (i_owned _ _ _ Hinv k e He Hv) as (id & t & Ht & Hs & ep & Hi). exists id, t. split_and!; [done|done|].
  destruct (to_waiting _ _ _ (i_tasks _ _ _ Hinv id t Ht) Hs) as (k' & e' & Heo). pose proof Heo as [E1 E2 _ _ _ _]. rewrite Hi in E1. injection E1 as <- _. by assert (e' = e) as <- by congruence.
Qed.

Lemma sleeper_waker s i e : entries s !! i = Some e → asleep_at s i → ∃ w, waker e = Some w.
Proof. intros He (e' & He' & Hw). assert (e' = e) as -> by congruence. unfold has_waker in Hw. by apply bool_decide_eq_true in Hw. Qed.

Lemma woken_tasks ws (m : gmap N Task) id t : (wake ws <$> m) !! id = Some t → ∃ t0, m !! id = Some t0 ∧ t = wake ws t0.
Proof. intros (t0 & <- & H)%lookup_fmap_Some. eauto. Qed.

(** Futures stay where they are while everyone whose waker goes is woken. *)
Lemma wake_frame hand time y y' ws : inv hand time y → tasks y' = wake ws <$> tasks y →
  (∀ k e', entries (slab y') !! k = Some e' → vacant e' = false → ∃ e, entries (slab y) !! k = Some e ∧ vacant e = false) →
  (∀ i j ti tj k, tasks y' !! i = Some ti → tasks y' !! j = Some tj → owns ti k → owns tj k → i = j) ∧
  (∀ k e, entries (slab y') !! k = Some e → vacant e = false → ∃ id t, tasks y' !! id = Some t ∧ owns t k) ∧ storing y' = storing y.
Proof.
  intros [I1 I2 I3 I4 I5 I6 I7 I8 I9 I10 I11] Ht He. split_and!.
  - intros i j ti tj k Hi Hj. rewrite Ht in Hi, Hj. apply woken_tasks in Hi as (ti0 & Hi & ->). apply woken_tasks in Hj as (tj0 & Hj & ->). by apply (I4 i j ti0 tj0 k).
  - intros k e' Hk Hv. destruct (He k e' Hk Hv) as (e & Hk' & Hv'). destruct (I5 k e Hk' Hv') as (id & t & Hid & Hown). exists id, (wake ws t). split; [|done]. rewrite Ht, lookup_fmap. by rewrite Hid.
  - unfold storing. rewrite Ht. f_equal. by apply carriers_wake.
Qed.

(** A notification in hand goes to the first sleeper. *)
Lemma give_token time y : inv 1 time y → time ≤ usize_MAX → holder y = None →
  match take_next_active_waker (slab y) with
  | (s', Some w) => inv 0 time (set_tasks (set_notify y (set_waiters (notify y) s')) (wake [w] <$> tasks y))
  | (s', None) => nobody_asleep (set_notify y (set_waiters (notify y) s')) ∧ inv 1 time (set_notify y (set_waiters (notify y) s'))
  end.
Proof.
  intros Hinv Htime Hh. pose proof Hinv as [I1 I2 I3 I4 I5 I6 I7 I8 I9 I10 I11]. pose proof (take_next_spec (slab y) I1 ltac:(lia)) as Hp. destruct (take_next_active_waker (slab y)) as [s' [w|]].
  - destruct Hp as (i & e & [P1 P2 P3 P4 P5]). set (y' := set_tasks _ _). assert (Hsl : slab y' = taken (slab y) i e) by done.
    assert (Hw : has_waker e = true) by (unfold has_waker; rewrite P2; by apply bool_decide_eq_true). pose proof (waker_not_vacant e Hw) as Hv.
    destruct (owner_of _ _ _ _ _ Hinv P1 Hv) as (id & t & Ht & Hs & Heo). pose proof Heo as [E1 _ _ E4 E5 E6]. destruct (E5 Hw) as [Egen Ecur].
    assert (Hent : ∀ k, entries (slab y') !! k = if decide (k = i) then Some (taken_entry e) else entries (slab y) !! k).
    { intros k. rewrite Hsl. simpl. case_decide as Hk; [rewrite Hk; apply list_lookup_insert_eq; by apply lookup_lt_Some in P1|by apply list_lookup_insert_ne]. }
    destruct (wake_frame 1 time y y' [w] Hinv eq_refl) as (F1 & F2 & F3).
    { intros k e'. rewrite Hent. case_decide as Hk; [subst k; eauto|eauto]. }
    split; try done.
    + rewrite Hsl. simpl. unfold lenN in *. rewrite length_insert. done.
    + intros j tj Hj. apply woken_tasks in Hj as (tj0 & Hj & ->). apply (task_moves y); [by apply I3|done| |].
      * intros Hhold. rewrite (not_holding _ _ _ j tj0 Hinv Hj) in Hhold; [done|by rewrite Hh].
      * intros k e' _ Hek. rewrite Hent. case_decide as Hk.
        -- subst k. assert (e' = e) as -> by (destruct Hek; congruence). exists (taken_entry e). split; [done|]. split; [|done]. unfold evolves. simpl. split_and!; try done; [lia| |by left]. intros w' Hw' _. rewrite P2 in Hw'. injection Hw' as <-. by left.
        -- exists e'. split_and!; [apply Hek|apply evolves_refl; [apply Hek|destruct Hek; simpl; lia]|done].
    + intros Hpos. exfalso. apply (I6 Hpos i). by exists e.
    + pose proof (held_change y (set_tasks y' (tasks y)) id t) as C. rewrite Ht in C. simpl in C.
      assert (Hheld : held (set_tasks y' (tasks y)) = held y') by (unfold held; simpl; f_equal; symmetry; by apply carriers_wake).
      rewrite Hheld in C. rewrite (insert_id (tasks y) id t Ht) in C. specialize (C eq_refl).
      assert (token (notify y) (fut t) = 0) as E0 by (unfold token, holds_token; rewrite E1; fold (slab y); by rewrite P1, (so_entry _ I1 i e P1 Hw)).
      assert (token (notify y') (fut t) = 1) as E1' by (unfold token, holds_token; rewrite E1; fold (slab y'); rewrite Hent, decide_True by done; simpl; by rewrite Egen, N.eqb_refl).
      rewrite E0 in C. change (token _ (fut t)) with (token (notify y') (fut t)) in C. rewrite E1' in C.
      assert (held y' + 0 = held y + 1) as C'.
      { apply C. intros j tj Hne Hj. apply holds_same; [apply (I3 j tj Hj)| |apply (I3 j tj Hj)]. intros k ep e' Hsj Hij Hk. exists e'. change (waiters (set_waiters (notify y) s')) with (slab y'). rewrite Hent, decide_False; [done|].
        intros ->. apply Hne, (I4 j id tj t i); [done|done|split; eauto|split; eauto]. }
      change (ones y') with (ones y). change (spent y') with (spent y). change (swallowed y') with (swallowed y). change (stored_notifications (notify y')) with (stored_notifications (notify y)). rewrite F3. lia.
    + rewrite Hsl. simpl. destruct I10 as (Q1 & Q2 & Q3). apply lookup_lt_Some in P1. split_and!; [by rewrite length_insert|lia|done].
    + intros j Hj. change (holder y') with (holder y) in Hj. congruence.
  - destruct Hp as [Hn ->]. split; [done|]. set (y' := set_notify _ _). split; try done.
    + destruct I1 as [S1 S2 S3 S4]. by split.
    + intros j tj Hj. apply (frame_other y y' j tj (I3 j tj Hj)); [apply (not_holding _ _ _ j tj Hinv Hj); by rewrite Hh|done|done|]. intros k e _ Heo. apply Heo.
    + simpl. destruct I10 as (Q1 & Q2 & Q3). done.
Qed.

(** ** Accounts *)

Lemma recount hand hand' time time' y y' : inv hand time y → notify y' = notify y → holder y' = holder y → tasks y' = tasks y → casts y' = casts y → peak y' = peak y →
  ones y' ≤ time' → time ≤ time' → ones y' + (spent y + swallowed y + hand) = ones y + (spent y' + swallowed y' + hand') → (generation (notify y) = 0 → swallowed y' = 0) → inv hand' time' y'.
Proof.
  intros [I1 I2 I3 I4 I5 I6 I7 I8 I9 I10 I11] En Eh Et Ec Ep Ho Htime Hsum Hsw. assert (Es : slab y' = slab y) by (unfold slab; by rewrite En).
  split; unfold nobody_asleep; rewrite ?Es, ?En, ?Eh, ?Et, ?Ec, ?Ep; try done.
  - lia.
  - intros id t Ht. apply (task_ok_same y); [by rewrite En|done..|by apply I3].
  - unfold held, storing in *. rewrite En, Et. lia.
Qed.

(** A notification in hand is stored when nobody sleeps. *)
Lemma store_token time y : inv 1 time y → time ≤ usize_MAX → nobody_asleep y → inv 0 time (set_notify y (store_notification (notify y))).
Proof.
  intros [I1 I2 I3 I4 I5 I6 I7 I8 I9 I10 I11] Htime Hn. split; try done.
  - intros id t Ht. by apply (task_ok_same y); [..|apply I3].
  - change (held (set_notify y (store_notification (notify y)))) with (held y). change (storing (set_notify y (store_notification (notify y)))) with (storing y). simpl. rewrite wrapping_add_exact; lia.
Qed.

(** The future that stores a notification is done. *)
Lemma storing_done time y id t : inv 0 time y → tasks y !! id = Some t → phase t = Storing → nobody_asleep y ∧ inv 1 time (set_holder (set_tasks y (delete id (tasks y))) None).
Proof.
  intros Hinv Ht Hp. pose proof Hinv as [I1 I2 I3 I4 I5 I6 I7 I8 I9 I10 I11]. pose proof (I3 id t Ht) as [_ T2 _ T4 _ _ T7 _]. destruct (T7 Hp) as [Hh Hn]. split; [done|]. unfold phase_state in T2. rewrite Hp in T2.
  assert (Hsd : state (fut t) ≠ SWaiting) by congruence. split; simpl; try done.
  - intros j tj Hj. apply lookup_delete_Some in Hj as [Hne Hj]. apply (frame_other y); [by apply I3|apply (not_holding _ _ _ j tj Hinv Hj); congruence|done|done|]. intros k e _ Heo. apply Heo.
  - intros i j ti tj k Hi Hj. apply lookup_delete_Some in Hi as [_ Hi]. apply lookup_delete_Some in Hj as [_ Hj]. by apply (I4 i j ti tj k).
  - intros k e He Hv. destruct (I5 k e He Hv) as (j & tj & Hj & Hk). exists j, tj. split; [|done]. apply lookup_delete_Some. split; [|done]. intros <-. destruct Hk as [Hk _]. congruence.
  - rewrite (held_delete y id t Ht), (storing_delete y id t Ht) in I8. unfold token, holds_token in I8. rewrite (T4 Hsd) in I8. unfold is_storing in I8 at 1. rewrite Hp in I8.
    change (held (set_holder (set_tasks y (delete id (tasks y))) None)) with (held (set_tasks y (delete id (tasks y)))). change (storing (set_holder (set_tasks y (delete id (tasks y))) None)) with (storing (set_tasks y (delete id (tasks y)))). simpl. lia.
Qed.

(** ** Registering, polling again, broadcasting *)

Lemma crowd (m : gmap N Task) (len : nat) : (∀ k, (k < len)%nat → ∃ id t, m !! id = Some t ∧ owns t k) → (len ≤ carriers is_waiting m)%nat.
Proof.
  intros H. set (l := (λ it : N * Task, match waiter_index (fut it.2) with Some (i, _) => i | None => 0%nat end) <$> map_to_list (filter (λ it : N * Task, is_waiting it.2 = true) m)).
  assert (length l = carriers is_waiting m) as <-. { unfold l, carriers. rewrite length_fmap. apply length_map_to_list. }
  rewrite <- (length_seq len 0). apply submseteq_length, NoDup_submseteq; [apply NoDup_seq|]. intros k Hk. apply elem_of_seq in Hk. destruct (H k) as (id & t & Ht & Hs & ep & Hi); [lia|].
  apply list_elem_of_fmap. exists (id, t). simpl. rewrite Hi. split; [done|]. apply elem_of_map_to_list, map_lookup_filter_Some. split; [done|]. simpl. by apply bool_decide_eq_true.
Qed.

Lemma register_step time y id t w : inv 0 time y → time < usize_MAX → tasks y !! id = Some t → phase t = Registering w → stored_notifications (notify y) = 0 →
  let '(s', at_) := insert (slab y) (mkEntry (Some w) false (initial_generation (fut t)) false 0) in
  inv 0 (time + 1) (note_peak (put (set_holder (set_notify y (set_waiters (notify y) s')) None) id (mkTask (mkNotified SWaiting (Some at_) (initial_generation (fut t))) Idle (Some w)))).
Proof.
  intros Hinv Htime Ht Hp Hst. pose proof Hinv as [I1 I2 I3 I4 I5 I6 I7 I8 I9 I10 I11]. pose proof (I3 id t Ht) as [T1 T2 _ T4 _ T6 _ _]. destruct (T6 w Hp) as [Hh Hcur]. unfold phase_state in T2. rewrite Hp in T2.
  assert (Hidx : waiter_index (fut t) = None) by (apply T4; congruence).
  set (e0 := mkEntry (Some w) false (initial_generation (fut t)) false 0). pose proof (waiter_insert_spec (slab y) e0 I1 ltac:(lia) eq_refl eq_refl) as Hin. destruct (insert (slab y) e0) as [s' [i ep]]. destruct Hin as [N1 N2 N3 N4 N5 N6 N7 N8].
  set (t' := mkTask _ _ _). set (y' := note_peak _). assert (Hsl : slab y' = s') by done.
  assert (Hfree : ∀ j tj, tasks y !! j = Some tj → ¬ owns tj i).
  { intros j tj Hj [Hs [ep' Hi]]. destruct (to_waiting _ _ _ (I3 j tj Hj) Hs) as (k & e & [E1 E2 E3 _ _ _]). rewrite Hi in E1. injection E1 as <- _. apply N4 in E2. congruence. }
  assert (Hframe : ∀ j tj, j ≠ id → tasks y !! j = Some tj → task_ok y' j tj ∧ holds_token (notify y') (fut tj) = holds_token (notify y) (fut tj)).
  { intros j tj Hne Hj. apply frame_other; [by apply I3|apply (not_holding _ _ _ j tj Hinv Hj); congruence|done|done|]. intros k e Hs [E1 E2 _ _ _ _]. rewrite Hsl, N3; [done|]. intros ->. apply (Hfree j tj Hj). split; eauto. }
  assert (Hmine : owns t' i) by (split; [done|by exists ep]).
  assert (Howned : ∀ k e, entries s' !! k = Some e → vacant e = false → ∃ j tj, <[id := t']> (tasks y) !! j = Some tj ∧ owns tj k).
  { intros k e He Hv. destruct (decide (k = i)) as [->|Hk]; [exists id, t'; by rewrite lookup_insert_eq|]. rewrite N3 in He by done. destruct (I5 k e He Hv) as (j & tj & Hj & Hown). exists j, tj. split; [|done]. rewrite lookup_insert_ne; [done|]. intros <-. destruct Hown as [Hs _]. congruence. }
  assert (Htk : tasks y' = <[id := t']> (tasks y)) by done. split; rewrite ?Hsl, ?Htk; try done.
  - simpl. split; [|lia]. unfold lenN in *. destruct N7 as [N7|[-> _]]; [|lia]. destruct (decide (S i ≤ length (entries (slab y)))%nat); [lia|].
    assert (i ≤ length (entries (slab y)))%nat; [|lia]. destruct (decide (i ≤ length (entries (slab y)))%nat); [done|]. assert (is_Some (entries s' !! length (entries (slab y)))) as [x Hx] by (apply lookup_lt_is_Some; lia).
    rewrite N3 in Hx by lia. apply lookup_lt_Some in Hx. lia.
  - intros j tj [[<- <-]|[Hne Hj]]%lookup_insert_Some; [|by apply Hframe]. split; simpl; try done.
    + intros _. exists i, (with_epoch e0 ep). split; simpl; try done.
    + intros w' [= <-]. split_and!; [done|done|]. exists i, (with_epoch e0 ep). by rewrite Hsl.
  - intros a b ta tb k Ha Hb Hka Hkb. assert (Hk : ∀ tx, owns t' k → tasks y !! a = Some tx ∨ tasks y !! b = Some tx → ¬ owns tx k).
    { intros tx [_ [ep' [= <- _]]] [Hx|Hx]; by eapply Hfree. }
    apply lookup_insert_Some in Ha as [[<- <-]|[Ha0 Ha]]; apply lookup_insert_Some in Hb as [[<- <-]|[Hb0 Hb]]; [done|by destruct (Hk tb Hka (or_intror Hb))|by destruct (Hk ta Hkb (or_introl Ha))|]. by apply (I4 a b ta tb k).
  - simpl. intros Hpos. rewrite Hst in Hpos. lia.
  - pose proof (held_change y y' id t' eq_refl ltac:(intros j tj Hne Hj; exact (proj2 (Hframe j tj Hne Hj)))) as C1. pose proof (storing_change y y' id t' eq_refl) as C2. rewrite Ht in C1, C2.
    assert (is_storing t = false) as E1 by (unfold is_storing; by rewrite Hp). assert (token (notify y) (fut t) = 0) as E2 by (unfold token, holds_token; by rewrite Hidx).
    assert (token (notify y') (fut t') = 0) as E3 by (unfold token, holds_token; simpl; by rewrite N2). rewrite E1 in C2. rewrite E2, E3 in C1. change (if is_storing t' then 1 else 0) with 0 in C2. simpl. lia.
  - destruct I10 as (P1 & P2 & P3). assert (Hlen : (length (entries s') ≤ peak y')%nat).
    { simpl. destruct N7 as [N7|[-> N7]]; [specialize (P3 i N7); lia|]. etrans; [|apply Nat.le_max_r]. apply crowd. intros k Hk. assert (is_Some (entries s' !! k)) as [e He] by (by apply lookup_lt_is_Some). apply (Howned k e He).
      destruct (decide (k = length (entries (slab y)))) as [->|Hne]; [rewrite N2 in He; by injection He as <-|]. rewrite N3 in He by done. by apply (N7 k). }
    pose proof (lookup_lt_Some _ _ _ N2). split_and!; [done| |].
    + destruct N5 as [->|[_ ->]]; [simpl; lia|lia].
    + intros j Hj. specialize (P3 j (N6 j Hj)). simpl. lia.
Qed.

Lemma repoll_step time y id t i e w : inv 0 time y → holder y = None → tasks y !! id = Some t → state (fut t) = SWaiting → entry_of y (fut t) i e → has_waker e = true →
  let s' := mkSlab (<[i := rewaken e w]> (entries (slab y))) (free_slots (slab y)) (active (slab y)) (scan_start (slab y)) in
  inv 0 time (put (set_notify y (set_waiters (notify y) s')) id (mkTask (fut t) Idle (Some w))).
Proof.
  intros Hinv Hh Ht Hs Heo Hw s'. pose proof Hinv as [I1 I2 I3 I4 I5 I6 I7 I8 I9 I10 I11]. pose proof Heo as [E1 E2 E3 E4 E5 E6]. set (t' := mkTask _ _ _). set (y' := put _ _ _).
  assert (Hent : ∀ k, entries (slab y') !! k = if decide (k = i) then Some (rewaken e w) else entries (slab y) !! k).
  { intros k. simpl. case_decide as Hk; [rewrite Hk; apply list_lookup_insert_eq; by apply lookup_lt_Some in E2|by apply list_lookup_insert_ne]. }
  assert (Hmine : owns t i) by (split; eauto).
  assert (Hframe : ∀ j tj, j ≠ id → tasks y !! j = Some tj → task_ok y' j tj ∧ holds_token (notify y') (fut tj) = holds_token (notify y) (fut tj)).
  { intros j tj Hne Hj. apply frame_other; [by apply I3|apply (not_holding _ _ _ j tj Hinv Hj); congruence|done|done|]. intros k e' Hsj [K1 K2 _ _ _ _]. rewrite Hent, decide_False; [done|]. intros ->. apply Hne, (I4 j id tj t i); [done|done|split; eauto|done]. }
  assert (Hnv : vacant (rewaken e w) = false) by (by apply waker_not_vacant).
  assert (Htk : tasks y' = <[id := t']> (tasks y)) by done. assert (Hown : ∀ j tj k, tasks y' !! j = Some tj → owns tj k → ∃ tj0, tasks y !! j = Some tj0 ∧ owns tj0 k).
  { intros j tj k. rewrite Htk. intros [[<- <-]|[_ Hj]]%lookup_insert_Some Hk; [by exists t|by exists tj]. }
  split; rewrite ?Htk; try done.
  - by apply rewaken_ok.
  - simpl. unfold lenN in *. by rewrite length_insert.
  - intros j tj [[<- <-]|[Hne Hj]]%lookup_insert_Some; [|by apply Hframe]. pose proof (I3 id t Ht) as [T1 _ _ _ _ _ _ _]. split; simpl; try done.
    + intros _. exists i, (rewaken e w). split; try done; [by rewrite Hent, decide_True|]. intros _. exact (E5 Hw).
    + intros w' [= <-]. split_and!; [done|done|]. exists i, (rewaken e w). rewrite Hent, decide_True by done. done.
  - intros a b ta tb k Ha Hb Hka Hkb. destruct (Hown a ta k Ha Hka) as (ta0 & ? & ?). destruct (Hown b tb k Hb Hkb) as (tb0 & ? & ?). by apply (I4 a b ta0 tb0 k).
  - intros k e' He' Hv'. assert (∃ e0, entries (slab y) !! k = Some e0 ∧ vacant e0 = false) as (e0 & H1 & H2) by (rewrite Hent in He'; case_decide; [subst k|]; eauto).
    destruct (I5 k e0 H1 H2) as (j & tj & Hj & Hk). destruct (decide (j = id)) as [->|Hne]; [|exists j, tj; by rewrite lookup_insert_ne]. exists id, t'. rewrite lookup_insert_eq. split; [done|]. rewrite Ht in Hj. by injection Hj as <-.
  - intros Hpos. exfalso. apply (I6 Hpos i). by exists e.
  - pose proof (held_change y y' id t' eq_refl ltac:(intros j tj Hne Hj; exact (proj2 (Hframe j tj Hne Hj)))) as C1. pose proof (storing_change y y' id t' eq_refl) as C2. rewrite Ht in C1, C2.
    rewrite (not_storing _ _ _ id t Hinv Ht) in C2 by congruence. change (if is_storing t' then 1 else 0) with 0 in C2. pose proof (so_entry _ I1 i e E2 Hw) as Hnn.
    assert (token (notify y) (fut t) = 0) as E0 by (unfold token, holds_token; rewrite E1; fold (slab y); by rewrite E2, Hnn).
    assert (token (notify y') (fut t') = 0) as E0' by (unfold token, holds_token; change (fut t') with (fut t); rewrite E1; fold (slab y'); rewrite Hent, decide_True by done; simpl; by rewrite Hnn). rewrite E0, E0' in C1. simpl. lia.
  - simpl. by rewrite length_insert.
  - intros j Hj. change (holder y') with (holder y) in Hj. congruence.
Qed.

Lemma cast_step time y k : inv 0 time y → time < u64_MAX → casts y !! k = None → let '(n', g) := advance_generation (notify y) in inv 0 (time + 1) (set_casts (set_notify y n') (<[k := g]> (casts y))).
Proof.
  intros [I1 I2 I3 I4 I5 I6 I7 I8 I9 I10 I11] Htime Hk. unfold advance_generation. rewrite wrapping_add_exact by lia. set (y' := set_casts _ _).
  assert (Hcur : ∀ f, initial_generation f ≤ generation (notify y) → current y f → current y' f).
  { intros f Hf [Hg|(k' & g & Hk' & Hg)]; right; [exists k, (generation (notify y) + 1); simpl; rewrite lookup_insert_eq; split; [done|lia]|exists k', g; simpl; rewrite lookup_insert_ne by congruence; done]. }
  split; try done.
  - simpl. change (slab y') with (slab y). lia.
  - intros id t Ht. pose proof (I3 id t Ht) as Hok. rewrite <- (wake_nil t). apply (task_moves y); [done|simpl; lia| |].
    + intros Hhold. pose proof Hok as [T1 _ _ _ _ T6 T7 _]. split_and!; [|by apply Hcur|done]. unfold is_holding in Hhold. destruct (phase t) as [| | |w| |]; try done; [by apply (T6 w)|by apply T7].
    + intros i e _ Heo. exists e. split_and!; [apply Heo|apply evolves_refl; [apply Heo|destruct Heo; simpl; lia]|]. intros _. apply Hcur, Hok.
  - intros k' g'. simpl. intros [[<- <-]|[Hne Hk']]%lookup_insert_Some; [lia|]. specialize (I7 k' g' Hk'). lia.
  - simpl. intros Hz. lia.
Qed.

Lemma cast_lock_step time y k g : inv 0 time y → time ≤ usize_MAX → holder y = None → casts y !! k = Some g →
  let '(n', ws) := wake_waiters (notify y) g in inv 0 time (set_casts (set_tasks (set_notify y n') (wake ws <$> tasks y)) (delete k (casts y))).
Proof.
  intros Hinv Htime Hh Hk. pose proof Hinv as [I1 I2 I3 I4 I5 I6 I7 I8 I9 I10 I11]. pose proof (cast_ok (notify y) g I1 ltac:(unfold slab in I2; lia)) as Hok'. rewrite wake_waiters_eq in *. set (woke := negb _) in *. set (ws := cast_wakers g (entries (waiters (notify y)))) in *.
  set (y' := set_casts _ _). pose proof (I7 k g Hk) as Hg. assert (Hent : entries (slab y') = cast_entry g woke <$> entries (slab y)) by done.
  destruct (wake_frame 0 time y y' ws Hinv eq_refl) as (F1 & F2 & F3).
  { intros j e'. rewrite Hent. intros (e & -> & He)%list_lookup_fmap_Some. rewrite cast_vacant. eauto. }
  assert (Hsame : ∀ j tj, tasks y !! j = Some tj → holds_token (notify y') (fut tj) = holds_token (notify y) (fut tj)).
  { intros j tj Hj. pose proof (I3 j tj Hj) as [_ _ T3 T4 _ _ _ _]. destruct (decide (state (fut tj) = SWaiting)) as [Hs|Hs]; [|unfold holds_token; by rewrite (T4 Hs)].
    destruct (T3 Hs) as (i & e & [E1 E2 E3 E4 E5 E6]). unfold holds_token. rewrite E1. fold (slab y') (slab y). rewrite Hent, list_lookup_fmap, E2. simpl. destruct (cast_fields g woke e) as (_ & -> & -> & _ & _).
    destruct (reached g e) eqn:Er; [|done]. pose proof (reached_waker g e Er) as Hw. rewrite (so_entry _ I1 i e E2 Hw). simpl. destruct (E5 Hw) as [Egen _]. unfold reached in Er. apply andb_true_iff in Er as [Er _]. apply N.ltb_lt in Er. apply N.eqb_neq. lia. }
  split; try done.
  - rewrite Hent. unfold lenN in *. by rewrite length_fmap.
  - intros id t Ht. apply woken_tasks in Ht as (t0 & Ht & ->). apply (task_moves y); [by apply I3|done| |].
    + intros Hhold. rewrite (not_holding _ _ _ id t0 Hinv Ht) in Hhold; [done|by rewrite Hh].
    + intros i e _ [E1 E2 E3 E4 E5 E6]. exists (cast_entry g woke e). rewrite Hent, list_lookup_fmap, E2. destruct (cast_fields g woke e) as (C1 & C2 & C3 & C4 & C5). split; [done|]. split.
      * unfold evolves. rewrite C3, C4, cast_vacant, cast_has_waker. change (generation (notify y')) with (generation (notify y)). split_and!; try done.
        -- destruct (reached g e) eqn:Er; [|lia]. unfold reached in Er. apply andb_true_iff in Er as [Er _]. apply N.ltb_lt in Er. lia.
        -- destruct (reached g e); lia.
        -- intros [Hw Hr]%andb_true_iff. apply negb_true_iff in Hr. rewrite C1, Hr. done.
        -- intros w Hw Hn. apply (cast_wakes g _ i e w E2 Hw). destruct (reached g e) eqn:Er; [unfold reached in Er; apply andb_true_iff in Er as [Er _]; by apply N.ltb_lt in Er|]. unfold has_waker in Hn. by rewrite Hw in Hn.
        -- intros Hc. destruct (C5 Hc); [by left|right; lia].
      * rewrite cast_has_waker. intros [Hw Hr]%andb_true_iff. destruct (E5 Hw) as [Egen _]. apply negb_true_iff in Hr. unfold reached in Hr. fold (has_waker e) in Hr. rewrite Hw, andb_true_r in Hr. apply N.ltb_ge in Hr.
        intros [Hc|(k' & g' & Hk' & Hg')]; [by left|right]. exists k', g'. split; [|done]. simpl. rewrite lookup_delete_ne; [done|]. intros <-. rewrite Hk in Hk'. injection Hk' as <-. lia.
  - intros Hpos j (e' & He' & Hw'). rewrite Hent in He'. apply list_lookup_fmap_Some in He' as (e & -> & He). rewrite cast_has_waker in Hw'. apply andb_true_iff in Hw' as [Hw' _]. apply (I6 Hpos j). by exists e.
  - intros k' g'. simpl. intros [_ Hk']%lookup_delete_Some. by apply (I7 k').
  - assert (held y' = held y) as ->; [|rewrite F3; simpl; lia]. unfold held. change (tasks y') with (wake ws <$> tasks y). rewrite carriers_wake by done. f_equal. apply carriers_ext. intros i t Hi. by apply (Hsame i).
  - rewrite Hent, length_fmap. simpl. done.
  - intros j Hj. change (holder y') with (holder y) in Hj. congruence.
Qed.

(** ** Every step keeps the invariant *)

Lemma poll_waiting_eq n f changed w i e : waiter_index f = Some (i, slot_epoch e) → entries (waiters n) !! i = Some e →
  poll_waiting n f changed w =
    if changed || generation_changed n f || notified e then Done (set_waiters n (remove (waiters n) i), mkNotified SDone None (initial_generation f), Ready ())
    else match waker e with
         | Some _ => Done (set_waiters n (mkSlab (<[i := rewaken e w]> (entries (waiters n))) (free_slots (waiters n)) (active (waiters n)) (scan_start (waiters n))), f, Pending)
         | None => Panics
         end.
Proof.
  intros Hi He. unfold poll_waiting, slot_owned_by_us. rewrite Hi. simpl. rewrite He, N.eqb_refl. destruct (changed || generation_changed n f); [done|]. simpl. destruct e as [we ne ge ce se]. simpl. destruct ne; [done|].
  destruct we as [w0|]; [|done]. by destruct (N.eqb_spec w0 w) as [->|_].
Qed.

Lemma drop_waiting_eq n f i e : waiter_index f = Some (i, slot_epoch e) → entries (waiters n) !! i = Some e →
  drop_waiting n f =
    let n' := set_waiters n (remove (waiters n) i) in
    if holds_token n f then
      match take_next_active_waker (waiters n') with
      | (s, Some w) => (set_waiters n' s, Some w, false)
      | (s, None) => (set_waiters n' s, None, negb (generation_changed n f) || negb (broadcast_covered_peer e))
      end
    else (n', None, false).
Proof.
  intros Hi He. unfold drop_waiting, slot_owned_by_us, holds_token. rewrite Hi. simpl. rewrite He, N.eqb_refl. destruct (notified e); [|done]. simpl. destruct (entry_generation e =? initial_generation f); [|done]. simpl.
  unfold pass_baton, pass_baton_after_broadcast. simpl. by destruct (generation_changed n f).
Qed.

Lemma not_changed n f : initial_generation f ≤ generation n → generation_changed n f = true → initial_generation f < generation n.
Proof. intros H1 H2. unfold generation_changed in H2. apply negb_true_iff, N.eqb_neq in H2. lia. Qed.

Lemma inv_covered hand time y c : inv hand time y → inv hand time (set_covered y c).
Proof. intros Hinv. apply (recount hand hand time time y); try done; [apply Hinv|apply Hinv]. Qed.

Lemma notified_step time y id y' : inv 0 time y → enabled y (ONotified id) = true → sys_step y (ONotified id) = Done y' → inv 0 time y'.
Proof.
  intros Hinv He [= <-]. apply bool_decide_eq_true in He. eapply (own_step 0 0 time y _ id); try done.
  - by right.
  - intros Hh. destruct (i_holder _ _ _ Hinv id Hh) as (t & Ht & _). congruence.
  - intros k [Hk _]. done.
  - intros t k Ht. congruence.
  - simpl. rewrite He. lia.
Qed.

Lemma poll_step time y id w y' : inv 0 time y → enabled y (OPoll id w) = true → sys_step y (OPoll id w) = Done y' → inv 0 time y'.
Proof.
  intros Hinv He Hs. simpl in *. destruct (tasks y !! id) as [t|] eqn:Ht; [|done]. injection Hs as <-. pose proof (i_tasks _ _ _ Hinv id t Ht) as [T1 T2 T3 T4 T5 T6 T7 T8].
  assert (Hid : phase t = Idle) by (unfold is_idle in He; by destruct (phase t)). assert (Hst : is_storing t = false) by (unfold is_storing; by rewrite Hid).
  assert (Hnh : holder y ≠ Some id). { intros Hh. destruct (i_holder _ _ _ Hinv id Hh) as (t0 & Ht0 & Hhold). rewrite Ht in Ht0. injection Ht0 as <-. unfold is_holding in Hhold. by rewrite Hid in Hhold. }
  destruct (state (fut t)) eqn:Hstate; [| |done].
  - assert (Hni : waiter_index (fut t) = None) by (apply T4; congruence). eapply (own_step 0 0 time y _ id); try done.
    + by right.
    + intros k [Hk _]. simpl in Hk. congruence.
    + intros t0 k Ht0 Hk. rewrite Ht in Ht0. injection Ht0 as <-. destruct Hk as [Hk _]. congruence.
    + split; simpl; try done; congruence.
    + simpl. rewrite Ht, Hst. unfold holds_token. simpl. rewrite Hni. lia.
  - eapply (own_step 0 0 time y _ id); try done.
    + by right.
    + intros k Hk. by exists t.
    + intros t0 k Ht0 Hk. rewrite Ht in Ht0. by injection Ht0 as <-.
    + split; simpl; try done.
      * intros _. destruct (T3 eq_refl) as (i & e & [E1 E2 E3 E4 E5 E6]). by exists i, e.
      * intros w' [= Hc _]. by apply not_changed.
    + simpl. rewrite Ht, Hst. lia.
Qed.

Lemma spend hand time y k : inv hand time y → hand = k → inv 0 time (add_spent y k).
Proof.
  intros Hinv ->. pose proof (i_time _ _ _ Hinv) as Ht. pose proof (i_swallowed _ _ _ Hinv) as Hs. apply (recount k 0 time time y); try done; simpl; lia.
Qed.

(** A future that is not registered finishes, or moves on inside its first poll. *)
Lemma init_step time y y' id t t' : inv 0 time y → tasks y !! id = Some t → state (fut t) = SInit → is_storing t = false →
  generation (notify y') = generation (notify y) → slab y' = slab y → casts y' = casts y → tasks y' = <[id := t']> (tasks y) → ones y' = ones y → swallowed y' = swallowed y → peak y' = peak y →
  initial_generation (fut t') = initial_generation (fut t) → state (fut t') ≠ SWaiting → waiter_index (fut t') = None → sleeps t' = None → phase_state t' → is_storing t' = false → (∀ c w, phase t' ≠ Rechecking c w) →
  (∀ w, phase t' = Registering w → holder y' = Some id ∧ current y' (fut t)) →
  (∀ j, j ≠ id → holder y ≠ Some j ∧ holder y' ≠ Some j ∨ holder y' = holder y) → (holder y' = Some id → is_holding t' = true) →
  (0 < stored_notifications (notify y') → 0 < stored_notifications (notify y)) →
  stored_notifications (notify y') + spent y' = stored_notifications (notify y) + spent y → inv 0 time y'.
Proof.
  intros Hinv Ht Hs Hst Hg Hsl Hc Htk Ho Hsw Hpk Hini Hs' Hi' Hsl' Hph Hst' Hnr Hreg Hh Hhid Hstored Hsum. pose proof (i_tasks _ _ _ Hinv id t Ht) as [T1 _ _ T4 _ _ _ _]. assert (Hi : waiter_index (fut t) = None) by (apply T4; congruence).
  apply (own_step 0 0 time y y' id t'); try done.
  - intros k [Hk _]. congruence.
  - intros t0 k Ht0 [Hk _]. rewrite Ht in Ht0. injection Ht0 as <-. congruence.
  - split; try done; [lia|by intros w ?%Hnr| | |congruence].
    + intros w Hw. destruct (Hreg w Hw) as [H1 H2]. split; [done|]. unfold current in *. by rewrite Hini.
    + intros Hp. unfold is_storing in Hst'. by rewrite Hp in Hst'.
  - rewrite Ht, Hst, Hst'. unfold holds_token. rewrite Hi, Hi'. lia.
Qed.

Lemma peak_up hand time y : inv hand time y → inv hand time (note_peak y).
Proof.
  intros [I1 I2 I3 I4 I5 I6 I7 I8 I9 I10 I11]. split; try done.
  - intros id t Ht. by apply (task_ok_same y); [..|apply I3].
  - destruct I10 as (P1 & P2 & P3). simpl. change (slab (note_peak y)) with (slab y). split_and!; [lia|lia|]. intros j Hj. specialize (P3 j Hj). lia.
Qed.

Ltac init_solve Hp := try done; try (by right); try (simpl; congruence); try (simpl; lia); try (unfold is_storing; by rewrite Hp); try (intros ? ?; left; split; simpl; congruence).

Lemma task_step time y id y' : inv 0 time y → time + 2 ≤ u64_MAX → enabled y (OStep id) = true → sys_step y (OStep id) = Done y' → inv 0 (time + 1) y'.
Proof.
  intros Hinv Htime He Hs. simpl in *. destruct (tasks y !! id) as [t|] eqn:Ht; [|done]. apply andb_true_iff in He as [Hidle Hlock]. pose proof (i_tasks _ _ _ Hinv id t Ht) as Hok. pose proof Hok as [T1 T2 T3 T4 T5 T6 T7 T8].
  unfold step_task in Hs. unfold phase_state in T2. unfold is_idle in Hidle. unfold needs_lock, unlocked in Hlock.
  assert (Hnh : is_holding t = false → holder y ≠ Some id). { intros Hf Hh. destruct (i_holder _ _ _ Hinv id Hh) as (t0 & Ht0 & Hhold). rewrite Ht in Ht0. injection Ht0 as <-. congruence. }
  destruct (phase t) as [|w|w|w|changed w|] eqn:Hp; [done|..].
  - unfold try_consume_stored_notification in Hs. assert (Hnh' : holder y ≠ Some id) by (apply Hnh; unfold is_holding; by rewrite Hp). assert (Hni : waiter_index (fut t) = None) by (apply T4; congruence).
    destruct (N.ltb_spec 0 (stored_notifications (notify y))) as [Hpos|Hz]; injection Hs as <-; (apply (inv_later _ time); [|lia]);
      (eapply (init_step time y _ id t); init_solve Hp).
  - apply bool_decide_eq_true in Hlock. assert (Hni : waiter_index (fut t) = None) by (apply T4; congruence). injection Hs as <-. apply (inv_later _ time); [|lia]. destruct (generation_changed (notify y) (fut t)) eqn:Hgc.
    + eapply (init_step time y _ id t); init_solve Hp.
    + eapply (init_step time y _ id t); init_solve Hp.
      intros w' _. split; [done|]. left. unfold generation_changed in Hgc. apply negb_false_iff, N.eqb_eq in Hgc. done.
  - destruct (T6 w eq_refl) as [Hh Hcur]. unfold register, try_consume_stored_notification in Hs. assert (Hni : waiter_index (fut t) = None) by (apply T4; congruence).
    destruct (N.ltb_spec 0 (stored_notifications (notify y))) as [Hpos|Hz].
    + injection Hs as <-. apply (inv_later _ time); [|lia]. apply peak_up, inv_covered. eapply (init_step time y _ id t); init_solve Hp.
    + pose proof (register_step time y id t w Hinv ltac:(mlia) Ht Hp ltac:(lia)) as Hr. fold (slab y) in Hs. destruct (insert (slab y) _) as [s' at_]. injection Hs as <-. apply (inv_covered _ _ _ (covered y ∖ {[id]})) in Hr. unfold note_peak, set_covered, add_spent in *. simpl in *. by rewrite N.add_0_r.
  - apply bool_decide_eq_true in Hlock. destruct (T3 T2) as (i & e & Heo). pose proof Heo as [E1 E2 E3 E4 E5 E6]. rewrite (poll_waiting_eq _ _ _ _ i e E1 E2) in Hs. apply (inv_later _ time); [|lia].
    destruct (changed || generation_changed (notify y) (fut t) || notified e) eqn:Hdone.
    + injection Hs as <-. apply (spend _ _ _ _ (remove_step time y id t i e Hinv ltac:(mlia) Hlock Ht T2 Heo) eq_refl).
    + destruct (waker e) as [w0|] eqn:Hw; [|done]. injection Hs as <-. eapply (spend 0); [|done]. apply (repoll_step time y id t i e w Hinv Hlock Ht T2 Heo). unfold has_waker. by rewrite Hw.
  - injection Hs as <-. apply (inv_later _ time); [|lia]. destruct (storing_done time y id t Hinv Ht Hp) as [Hn Hi]. exact (store_token _ _ Hi ltac:(mlia) Hn).
Qed.

Lemma wake_nobody (m : gmap N Task) : wake [] <$> m = m.
Proof. rewrite <- (map_fmap_id m) at 2. apply map_fmap_ext. intros i t _. apply wake_nil. Qed.

(** Whether a chosen future's notification is covered is what its entry says. *)
Definition cov_ok y : Prop := ∀ id t i ep e, tasks y !! id = Some t → state (fut t) = SWaiting → waiter_index (fut t) = Some (i, ep) →
  entries (slab y) !! i = Some e → entry_generation e = initial_generation (fut t) →
  broadcast_covered_peer e = bool_decide (id ∈ covered y) ∧ (broadcast_covered_peer e = true → initial_generation (fut t) < generation (notify y)).

Lemma nobody_waits es : existsb has_waker es = false ↔ ∀ j e, es !! j = Some e → has_waker e = false.
Proof.
  split.
  - intros Hn j e He. destruct (has_waker e) eqn:Hw; [|done]. rewrite <- Hn. symmetry. apply existsb_exists. exists e. split; [|done]. apply list_elem_of_In. by apply list_elem_of_lookup_2 in He.
  - intros Hn. destruct (existsb has_waker es) eqn:He; [|done]. apply existsb_exists in He as (e & He & Hw). apply list_elem_of_In, list_elem_of_lookup in He as [j Hj]. by rewrite (Hn j e Hj) in Hw.
Qed.

(** Nobody sleeps once an entry without a waker is gone just when nobody did before. *)
Lemma remove_nobody s i e : slab_ok s → lenN (entries s) ≤ usize_MAX → entries s !! i = Some e → vacant e = false → has_waker e = false →
  existsb has_waker (entries s) = false ↔ ∀ j, ¬ asleep_at (remove s i) j.
Proof.
  intros Hok Hlen He Hv Hw. destruct (waiter_remove_spec s i e Hok Hlen He Hv) as [R1 R2 R3 R4 R5 R6]. rewrite nobody_waits. unfold asleep_at. split.
  - intros Hn j (e' & Hj & Hw'). pose proof (waker_not_vacant e' Hw') as Hv'. destruct (decide (j = i)) as [->|Hji]; [by rewrite (R3 e' Hj) in Hv'|]. apply R2 in Hj; [|done..]. by rewrite (Hn j e' Hj) in Hw'.
  - intros Hn j e' Hj. destruct (has_waker e') eqn:Hw'; [|done]. exfalso. apply (Hn j). exists e'. split; [|done]. apply R2; [congruence|by apply waker_not_vacant|done].
Qed.

Lemma drop_step time y id y' : inv 0 time y → cov_ok y → time + 2 ≤ u64_MAX → enabled y (ODrop id) = true → sys_step y (ODrop id) = Done y' → inv 0 (time + 1) y'.
Proof.
  intros Hinv Hcov Htime He Hs. simpl in *. destruct (tasks y !! id) as [t|] eqn:Ht; [|done]. injection Hs as <-. apply (inv_later _ time); [|lia]. apply andb_true_iff in He as [Hidle Hlock].
  pose proof (i_tasks _ _ _ Hinv id t Ht) as [T1 _ T3 _ _ _ _ _]. unfold drop_task. unfold is_waiting in *. destruct (bool_decide (state (fut t) = SWaiting)) eqn:Hw; simpl in Hlock.
  2:{ apply bool_decide_eq_false in Hw. apply (forget_step 0 time y id t Hinv Ht Hw). unfold is_idle in Hidle. unfold is_holding. by destruct (phase t). }
  apply bool_decide_eq_true in Hw. apply bool_decide_eq_true in Hlock. destruct (T3 Hw) as (i & e & Heo). pose proof Heo as [E1 E2 E3 E4 E5 E6]. rewrite (drop_waiting_eq _ _ i e E1 E2). cbv zeta.
  pose proof (remove_step time y id t i e Hinv ltac:(mlia) Hlock Ht Hw Heo) as H1. set (done_ := mkTask _ Idle None) in H1. set (y1 := put _ _ _) in H1. unfold token in *. fold (slab y). unfold swallows.
  destruct (holds_token (notify y) (fut t)) eqn:Htok; cbn [andb].
  2:{ pose proof (forget_step 0 time _ id done_ H1) as H3. simpl in H3. rewrite delete_insert_eq in H3. rewrite wake_nobody. unfold add_swallowed. simpl. rewrite N.add_0_r. apply H3; [|done|done]. by rewrite lookup_insert_eq. }
  assert (Hent : notified e = true ∧ entry_generation e = initial_generation (fut t)).
  { unfold holds_token in Htok. rewrite E1 in Htok. fold (slab y) in Htok. rewrite E2 in Htok. apply andb_true_iff in Htok as [? ?%N.eqb_eq]. done. } destruct Hent as [Hn Hg].
  assert (Hnw : has_waker e = false). { destruct (has_waker e) eqn:Hhw; [|done]. by rewrite (so_entry _ (i_slab _ _ _ Hinv) i e E2 Hhw) in Hn. }
  pose proof (remove_nobody (slab y) i e (i_slab _ _ _ Hinv) ltac:(pose proof (i_time _ _ _ Hinv); mlia) E2 E3 Hnw) as Hnob. destruct (Hcov id t i (slot_epoch e) e Ht Hw E1 E2 Hg) as [<- Hlater]. fold (slab y).
  pose proof (take_next_spec (slab y1) (i_slab _ _ _ H1) ltac:(pose proof (i_time _ _ _ H1); mlia)) as Hpick.
  pose proof (give_token time y1 H1 ltac:(mlia) Hlock) as H2. change (waiters (set_waiters (notify y) (remove (slab y) i))) with (slab y1). destruct (take_next_active_waker (slab y1)) as [s' [w|]].
  - assert (existsb has_waker (entries (slab y)) = true) as Hex.
    { destruct Hpick as (k & ek & [P1 P2 _ _ _]). destruct (existsb has_waker (entries (slab y))); [done|]. exfalso. apply (proj1 Hnob eq_refl k). exists ek. split; [exact P1|]. unfold has_waker. by rewrite P2. }
    pose proof (forget_step 0 time _ id (wake [w] done_) H2) as H3. simpl in H3. rewrite <- fmap_delete, delete_insert_eq in H3. unfold add_swallowed. simpl. rewrite Hex, andb_false_r, N.add_0_r. apply H3; [|done|done]. by rewrite lookup_fmap, lookup_insert_eq.
  - assert (existsb has_waker (entries (slab y)) = false) as -> by (apply Hnob, Hpick).
    destruct H2 as [Hnn H2]. rewrite wake_nobody, andb_true_r.
    destruct (broadcast_covered_peer e) eqn:Hcv.
    + specialize (Hlater eq_refl). assert (generation_changed (notify y) (fut t) = true) as -> by (unfold generation_changed; apply negb_true_iff, N.eqb_neq; lia). simpl. pose proof (forget_step 1 time _ id done_ H2) as H3. simpl in H3. rewrite delete_insert_eq in H3. specialize (H3 (lookup_insert_eq _ _ _) ltac:(done) eq_refl).
      eapply (recount 1 0 time time); [exact H3|done..| |done| |]; simpl; [pose proof (i_time _ _ _ Hinv); lia|lia|lia].
    + rewrite orb_true_r. eapply (own_step 1 0 time _ _ id (mkTask (mkNotified SDone None (initial_generation (fut t))) Storing None)); [exact H2|done|done|done| |done|simpl; lia|done| |done| | |done| |]; simpl.
      * rewrite insert_delete_eq, insert_insert_eq. done.
      * intros j Hj. left. split; simpl; congruence.
      * intros k [Hk _]. done.
      * intros t0 k. rewrite lookup_insert_eq. intros [= <-] [Hk _]. done.
      * split; simpl; try done.
      * rewrite lookup_insert_eq. unfold holds_token. simpl. lia.
Qed.

Lemma notify_one_step time y y' : inv 0 time y → time + 2 ≤ u64_MAX → enabled y ONotifyOne = true → sys_step y ONotifyOne = Done y' → inv 0 (time + 1) y'.
Proof.
  intros Hinv Htime He Hs. simpl in *. apply bool_decide_eq_true in He. pose proof (i_time _ _ _ Hinv) as Hb.
  assert (H1 : inv 1 (time + 1) (add_one y)) by (apply (recount 0 1 time (time + 1) y); try done; simpl; [lia|lia|lia|apply Hinv]).
  pose proof (give_token (time + 1) (add_one y) H1 ltac:(mlia) He) as H2. unfold notify_one in Hs. fold (slab y) in Hs. change (slab (add_one y)) with (slab y) in H2. destruct (take_next_active_waker (slab y)) as [s' [w|]]; injection Hs as <-; [exact H2|].
  destruct H2 as [Hn H2]. rewrite wake_nobody. exact (store_token _ _ H2 ltac:(mlia) Hn).
Qed.

Lemma notify_any_step time y o y' : inv 0 time y → cov_ok y → time + 2 ≤ u64_MAX → enabled y o = true → sys_step y o = Done y' → inv 0 (time + 1) y'.
Proof.
  intros Hinv Hcov Htime He Hs. destruct o as [id|id w|id|id| |k|k].
  - apply (inv_later _ time); [|lia]. by apply (notified_step time y id).
  - apply (inv_later _ time); [|lia]. by apply (poll_step time y id w).
  - by apply (task_step time y id).
  - by apply (drop_step time y id).
  - by apply (notify_one_step time y).
  - simpl in *. apply bool_decide_eq_true in He. pose proof (cast_step time y k Hinv ltac:(lia) He) as H. unfold advance_generation in H. injection Hs as <-. exact H.
  - simpl in He. apply andb_true_iff in He as [He Hl]. apply bool_decide_eq_true in Hl. destruct (casts y !! k) as [g|] eqn:Hk; [|by apply bool_decide_eq_true, is_Some_None in He].
    unfold sys_step in Hs. rewrite Hk in Hs. pose proof (cast_lock_step time y k g Hinv ltac:(mlia) Hl Hk) as H. destruct (wake_waiters (notify y) g) as [n' ws]. injection Hs as <-. apply (inv_later _ time); [by apply inv_covered|lia].
Qed.

Lemma notify_inv_new : inv 0 0 sys_new.
Proof.
  split; simpl; try done.
  - split; try done. constructor.
  - split_and!; [lia|lia|]. by intros j ?%elem_of_nil.
Qed.

(** *** Who is covered *)

(** A step after which every waiting future was waiting before, with an entry of the same
    generation and the same cover. *)
Lemma cov_frame y y' : cov_ok y → generation (notify y) ≤ generation (notify y') →
  (∀ id t' i ep e', tasks y' !! id = Some t' → state (fut t') = SWaiting → waiter_index (fut t') = Some (i, ep) → entries (slab y') !! i = Some e' →
     ∃ t e, tasks y !! id = Some t ∧ fut t = fut t' ∧ entries (slab y) !! i = Some e ∧ entry_generation e = entry_generation e' ∧
       broadcast_covered_peer e = broadcast_covered_peer e' ∧ (id ∈ covered y' ↔ id ∈ covered y)) → cov_ok y'.
Proof.
  intros Hcov Hg Hf id t' i ep e' Ht Hs Hi He Hgen. destruct (Hf id t' i ep e' Ht Hs Hi He) as (t & e & H1 & H2 & H3 & H4 & H5 & H6). rewrite <- H2 in *. rewrite <- H4 in Hgen.
  destruct (Hcov id t i ep e H1 Hs Hi H3 Hgen) as [C1 C2]. rewrite <- H5. split; [rewrite C1; by apply bool_decide_ext|]. intros Hc. specialize (C2 Hc). lia.
Qed.

Lemma cov_same y y' : cov_ok y → notify y' = notify y → tasks y' = tasks y → covered y' = covered y → cov_ok y'.
Proof. unfold cov_ok, slab. by intros Hcov -> -> ->. Qed.

(** One future changes and no entry does. *)
Lemma cov_own y y' id t' : cov_ok y → notify y' = notify y ∨ (slab y' = slab y ∧ generation (notify y) ≤ generation (notify y')) → tasks y' = <[id := t']> (tasks y) → covered y' = covered y →
  (state (fut t') = SWaiting → ∃ t, tasks y !! id = Some t ∧ fut t = fut t') → cov_ok y'.
Proof.
  intros Hcov Hn Ht Hc Hw. assert (slab y' = slab y ∧ generation (notify y) ≤ generation (notify y')) as [Hsl Hg] by (destruct Hn as [Hn|?]; [unfold slab; by rewrite Hn|done]). apply (cov_frame y); [done|done|].
  intros j tj i ep e Hj Hs Hi He. rewrite Hsl in He. rewrite Ht in Hj. apply lookup_insert_Some in Hj as [[<- <-]|[_ Hj]]; [destruct (Hw Hs) as (t & H1 & H2); exists t, e|exists tj, e]; by rewrite Hc.
Qed.

Lemma remove_sub s i j e : entries (remove s i) !! j = Some e → j ≠ i → entries s !! j = Some e.
Proof.
  unfold remove. destruct (entries s !! i) eqn:Hi; simpl; intros He%shrink_sub Hne; [|done]. by rewrite list_lookup_insert_ne in He.
Qed.

(** A slot is given up by the future that waited in it. *)
Lemma cov_remove time y y' id t i e : inv 0 time y → cov_ok y → tasks y !! id = Some t → state (fut t) = SWaiting → entry_of y (fut t) i e →
  slab y' = remove (slab y) i → generation (notify y') = generation (notify y) → covered y' = covered y →
  (∀ j tj, tasks y' !! j = Some tj → state (fut tj) = SWaiting → j ≠ id ∧ tasks y !! j = Some tj) → cov_ok y'.
Proof.
  intros Hinv Hcov Ht Hs Heo Hsl Hg Hc Htk. apply (cov_frame y); [done|by rewrite Hg|]. intros j tj k ep ek Hj Hsj Hi He. destruct (Htk j tj Hj Hsj) as [Hne Hj']. exists tj, ek. rewrite Hsl in He. rewrite Hc.
  split_and!; try done. apply (remove_sub _ i); [done|]. intros ->. apply Hne, (i_apart _ _ _ Hinv j id tj t i); [done|done|split; eauto|]. destruct Heo as [E1 _ _ _ _ _]. split; eauto.
Qed.

(** Choosing a waiter changes no generation and no cover. *)
Lemma cov_take y y' ts : cov_ok y → slab_ok (slab y) → lenN (entries (slab y)) ≤ usize_MAX → slab y' = (take_next_active_waker (slab y)).1 → generation (notify y') = generation (notify y) → covered y' = covered y →
  tasks y' = wake ts <$> tasks y → cov_ok y'.
Proof.
  intros Hcov Hok Hlen Hsl Hg Hc Ht. apply (cov_frame y); [done|by rewrite Hg|]. intros id t' i ep e' Hi Hs Hidx He. rewrite Ht in Hi. apply lookup_fmap_Some in Hi as (t & <- & Hi).
  assert (∃ e, entries (slab y) !! i = Some e ∧ entry_generation e = entry_generation e' ∧ broadcast_covered_peer e = broadcast_covered_peer e') as (e & H1 & H2 & H3).
  { pose proof (take_next_spec (slab y) Hok Hlen) as Hp. rewrite Hsl in He. destruct (take_next_active_waker (slab y)) as [s' [w|]]; simpl in He.
    - destruct Hp as (k & ek & [P1 _ -> _ _]). simpl in He. apply list_lookup_insert_Some in He as [(-> & <- & _)|[_ He]]; eauto.
    - destruct Hp as [_ ->]. eauto. }
  exists t, e. by rewrite Hc.
Qed.

Lemma cov_cast time y k g : inv 0 time y → cov_ok y → casts y !! k = Some g →
  let '(n', ws) := wake_waiters (notify y) g in cov_ok (set_covered (set_casts (set_tasks (set_notify y n') (wake ws <$> tasks y)) (delete k (casts y))) (covered y ∪ covers y g ws)).
Proof.
  intros Hinv Hcov Hk. rewrite wake_waiters_eq. fold (slab y). set (ws := cast_wakers _ _). set (woke := negb _). intros id t' i ep e' Hi Hs Hidx He Hgen. simpl in Hi. apply lookup_fmap_Some in Hi as (t & <- & Ht). simpl in *.
  apply list_lookup_fmap_Some in He as (e & -> & He). destruct (i_tasks _ _ _ Hinv id t Ht) as [_ _ T3 _ _ _ _ _]. destruct (T3 Hs) as (i0 & e0 & [E1 E2 E3 E4 E5 E6]). rewrite Hidx in E1. injection E1 as -> ->. assert (e0 = e) as -> by congruence. clear E2.
  destruct (i_casts _ _ _ Hinv k g Hk) as [_ Hgg]. destruct (cast_fields g woke e) as (F1 & F2 & F3 & F4 & _). rewrite F3 in Hgen.
  assert (Hnr : reached g e = false). { destruct (reached g e) eqn:Hr; [|done]. unfold reached in Hr. apply andb_true_iff in Hr as [Hr%N.ltb_lt _]. lia. } rewrite Hnr in Hgen.
  destruct (Hcov id t i0 (slot_epoch e) e Ht Hs Hidx He Hgen) as [C1 C2].
  assert (Hhold : holds_token (notify y) (fut t) = notified e). { unfold holds_token. rewrite Hidx. fold (slab y). rewrite He, Hgen, N.eqb_refl. apply andb_true_r. }
  assert (Hcovers : id ∈ covers y g ws ↔ woke = true ∧ notified e = true ∧ initial_generation (fut t) < g).
  { unfold covers, woke. destruct (bool_decide (ws = [])); [set_solver|]. rewrite elem_of_dom. unfold is_Some. setoid_rewrite map_lookup_filter_Some. rewrite <- Hhold, <- N.ltb_lt. split.
    - intros (t0 & Ht0 & [H1 H2]%andb_true_iff). rewrite Ht in Ht0. by injection Ht0 as <-.
    - intros (_ & H1 & H2). exists t. by rewrite H1, H2. }
  assert (Hflag : broadcast_covered_peer (cast_entry g woke e) = true ↔ broadcast_covered_peer e = true ∨ (woke = true ∧ notified e = true ∧ initial_generation (fut t) < g)).
  { unfold cast_entry, broadcast_entry. rewrite Hnr. destruct woke; [|naive_solver]. unfold cover_entry. rewrite Hgen, <- N.ltb_lt. destruct (initial_generation (fut t) <? g); simpl; [|naive_solver].
    destruct (notified e) eqn:Hn; simpl; [|naive_solver]. rewrite bool_decide_true; [naive_solver|]. destruct (waker e) eqn:Hw; [|done]. exfalso. assert (has_waker e = true) as Hhw by (unfold has_waker; rewrite Hw; by apply bool_decide_eq_true). by rewrite (so_entry _ (i_slab _ _ _ Hinv) i0 e He Hhw) in Hn. }
  split.
  - apply eq_bool_prop_intro. rewrite !Is_true_true, bool_decide_eq_true, Hflag, elem_of_union, Hcovers, C1, bool_decide_eq_true. done.
  - intros [Hc|(_ & _ & Hlt)]%Hflag; [by apply C2|lia].
Qed.

(** A future registers: its entry is new, and it is not covered. *)
Lemma cov_insert time y y' id t w s' at_ : inv 0 time y → cov_ok y → time < usize_MAX → tasks y !! id = Some t →
  insert (slab y) (mkEntry (Some w) false (initial_generation (fut t)) false 0) = (s', at_) → slab y' = s' → generation (notify y') = generation (notify y) →
  covered y' = covered y ∖ {[id]} → (∀ j tj, tasks y' !! j = Some tj → j = id ∧ waiter_index (fut tj) = Some at_ ∨ j ≠ id ∧ tasks y !! j = Some tj) → cov_ok y'.
Proof.
  intros Hinv Hcov Htime Ht Hins Hsl Hg Hc Htk. pose proof (waiter_insert_spec (slab y) (mkEntry (Some w) false (initial_generation (fut t)) false 0) (i_slab _ _ _ Hinv) ltac:(pose proof (i_time _ _ _ Hinv); lia) eq_refl eq_refl) as Hin.
  rewrite Hins in Hin. destruct at_ as [i ep]. destruct Hin as [N1 N2 N3 N4 _ _ _ _]. intros j tj k epk ek Hj Hsj Hidx He Hgen. rewrite Hsl in He. rewrite Hc, Hg. destruct (Htk j tj Hj) as [[-> Hat]|[Hne Hj']].
  - rewrite Hidx in Hat. injection Hat as -> _. rewrite N2 in He. injection He as <-. simpl. split; [symmetry; apply bool_decide_eq_false; set_solver|done].
  - destruct (to_waiting _ _ _ (i_tasks _ _ _ Hinv j tj Hj') Hsj) as (k' & e' & [E1 E2 E3 _ _ _]). rewrite Hidx in E1. injection E1 as <- ->.
    assert (k ≠ i) as Hki by (intros ->; by rewrite (N4 e' E2) in E3). rewrite N3 in He by done. destruct (Hcov j tj k _ ek Hj' Hsj Hidx He Hgen) as [C1 C2]. split; [|done]. rewrite C1. apply bool_decide_ext. set_solver.
Qed.

Lemma cov_task time y id y' : inv 0 time y → cov_ok y → time + 2 ≤ u64_MAX → enabled y (OStep id) = true → sys_step y (OStep id) = Done y' → cov_ok y'.
Proof.
  intros Hinv Hcov Htime He Hs. simpl in *. destruct (tasks y !! id) as [t|] eqn:Ht; [|done]. pose proof (i_tasks _ _ _ Hinv id t Ht) as [_ T2 T3 _ _ _ _ _]. unfold step_task in Hs. unfold phase_state in T2.
  destruct (phase t) as [|w|w|w|changed w|] eqn:Hp.
  - by injection Hs as <-.
  - unfold try_consume_stored_notification in Hs. destruct (0 <? _); injection Hs as <-; eapply (cov_own y); try done; simpl; [by right|by left|congruence].
  - injection Hs as <-. destruct (generation_changed _ _); eapply (cov_own y); try done; simpl; [by left|by left|congruence].
  - unfold register, try_consume_stored_notification in Hs. destruct (0 <? _).
    + injection Hs as <-. apply (cov_frame y); [done|done|]. intros j tj i ep e Hj Hsj Hi Hent. simpl in *. apply lookup_insert_Some in Hj as [[<- <-]|[Hne Hj]]; [done|]. exists tj, e. split_and!; try done. set_solver.
    + fold (slab y) in Hs. destruct (insert (slab y) _) as [s' at_] eqn:Hins. injection Hs as <-. eapply (cov_insert time y _ id t w s' at_); try done; [mlia|]. simpl. intros j tj [[<- <-]|[Hne Hj]]%lookup_insert_Some; [by left|by right].
  - destruct (T3 T2) as (i & e & Heo). pose proof Heo as [E1 E2 _ _ _ _]. rewrite (poll_waiting_eq _ _ _ _ i e E1 E2) in Hs. destruct (changed || generation_changed (notify y) (fut t) || notified e).
    + injection Hs as <-. eapply (cov_remove time y _ id t i e); try done. simpl. intros j tj [[<- <-]|[Hne Hj]]%lookup_insert_Some; [done|done].
    + destruct (waker e) as [w0|]; [|done]. injection Hs as <-. apply (cov_frame y); [done|done|]. intros j tj k ep ek Hj Hsj Hi Hent. simpl in *.
      assert (∃ e0, entries (slab y) !! k = Some e0 ∧ entry_generation e0 = entry_generation ek ∧ broadcast_covered_peer e0 = broadcast_covered_peer ek) as (e0 & H1 & H2 & H3) by (apply list_lookup_insert_Some in Hent as [(-> & <- & _)|[_ Hent]]; eauto).
      apply lookup_insert_Some in Hj as [[<- <-]|[Hne Hj]]; [exists t, e0|exists tj, e0]; done.
  - injection Hs as <-. apply (cov_frame y); [done|done|]. intros j tj k ep ek Hj Hsj Hi Hent. simpl in *. apply lookup_delete_Some in Hj as [_ Hj]. exists tj, ek. done.
Qed.

Lemma cov_drop time y id y' : inv 0 time y → cov_ok y → time + 2 ≤ u64_MAX → enabled y (ODrop id) = true → sys_step y (ODrop id) = Done y' → cov_ok y'.
Proof.
  intros Hinv Hcov Htime He Hs. simpl in *. destruct (tasks y !! id) as [t|] eqn:Ht; [|done]. injection Hs as <-. pose proof (i_tasks _ _ _ Hinv id t Ht) as [_ _ T3 _ _ _ _ _]. apply andb_true_iff in He as [_ Hlock].
  unfold drop_task. unfold is_waiting in *. destruct (bool_decide (state (fut t) = SWaiting)) eqn:Hw.
  2:{ apply (cov_frame y); [done|done|]. intros j tj k ep ek Hj Hsj Hi Hent. simpl in *. apply lookup_delete_Some in Hj as [_ Hj]. exists tj, ek. done. }
  apply bool_decide_eq_true in Hw. apply bool_decide_eq_true in Hlock. destruct (T3 Hw) as (i & e & Heo). pose proof Heo as [E1 E2 E3 _ _ _]. rewrite (drop_waiting_eq _ _ i e E1 E2). cbv zeta. fold (slab y).
  pose proof (remove_step time y id t i e Hinv ltac:(mlia) Hlock Ht Hw Heo) as H1. set (y1 := set_tasks (set_notify y (set_waiters (notify y) (remove (slab y) i))) (delete id (tasks y))).
  assert (Hc1 : cov_ok y1). { eapply (cov_remove time y y1 id t i e); try done. simpl. by intros j tj [Hne Hj]%lookup_delete_Some. }
  assert (Hput : ∀ z, cov_ok z → ∀ f, state f = SDone → cov_ok (put z id (mkTask f Storing None))).
  { intros z Hz f Hf. eapply (cov_own z); try done; [by left|]. simpl. congruence. }
  assert (Hadd : ∀ z k, cov_ok z → cov_ok (add_swallowed z k)) by (intros z k Hz; by apply (cov_same z)).
  assert (Hhold : ∀ z h, cov_ok z → cov_ok (set_holder z h)) by (intros z h Hz; by apply (cov_same z)).
  destruct (holds_token (notify y) (fut t)); [|apply Hadd; by rewrite wake_nobody].
  assert (Htake : ∀ ts, cov_ok (set_tasks (set_notify y1 (set_waiters (notify y1) (take_next_active_waker (slab y1)).1)) (wake ts <$> tasks y1))).
  { intros ts. apply (cov_take y1 _ ts); try done; [apply (i_slab _ _ _ H1)|]. change (lenN (entries (remove (slab y) i)) ≤ usize_MAX). pose proof (i_time _ _ _ H1) as (Hl & _). change (lenN (entries (remove (slab y) i)) ≤ time) in Hl. mlia. }
  change (waiters (set_waiters (notify y) (remove (slab y) i))) with (slab y1). destruct (take_next_active_waker (slab y1)) as [s' [w|]]; [apply Hadd; exact (Htake [w])|].
  destruct (negb _ || negb _); [apply Hhold, Hput; [apply Hadd|done]|apply Hadd]; exact (Htake []).
Qed.

Lemma cov_step time y o y' : inv 0 time y → cov_ok y → time + 2 ≤ u64_MAX → enabled y o = true → sys_step y o = Done y' → cov_ok y'.
Proof.
  intros Hinv Hcov Htime He Hs. destruct o as [id|id w|id|id| |k|k].
  - injection Hs as <-. eapply (cov_own y); try done. by left.
  - simpl in Hs. destruct (tasks y !! id) as [t|] eqn:Ht; injection Hs as <-; [|done]. destruct (state (fut t)) eqn:Hst; [| |done]; eapply (cov_own y); try done; simpl; [by left|congruence|by left|eauto].
  - by apply (cov_task time y id).
  - by apply (cov_drop time y id).
  - simpl in Hs. unfold notify_one in Hs. fold (slab y) in Hs. destruct (take_next_active_waker (slab y)) as [s' [w|]] eqn:Htk; injection Hs as <-; eapply (cov_take y); try done; try apply Hinv; simpl; try (by rewrite Htk); pose proof (i_time _ _ _ Hinv); mlia.
  - injection Hs as <-. apply (cov_frame y); [done| |]; simpl.
    + rewrite wrapping_add_exact by (pose proof (i_time _ _ _ Hinv); mlia). lia.
    + intros j tj a ep ek Hj Hsj Hi Hent. exists tj, ek. done.
  - unfold sys_step in Hs. destruct (casts y !! k) as [g|] eqn:Hk; [|by injection Hs as <-]. pose proof (cov_cast time y k g Hinv Hcov Hk) as H. destruct (wake_waiters (notify y) g) as [n' ws]. by injection Hs as <-.
Qed.

Lemma notify_reachable_all time y : reachable time y → time + 1 ≤ u64_MAX → inv 0 time y ∧ cov_ok y.
Proof.
  induction 1 as [|time y o y' _ IH He Hs]; intros Htime; [split; [apply notify_inv_new|by intros id t i ep e Ht]|]. destruct IH as [Hinv Hcov]; [lia|].
  split; [apply (notify_any_step time y o)|apply (cov_step time y o)]; done || lia.
Qed.

Lemma notify_reachable_inv time y : reachable time y → time + 1 ≤ u64_MAX → inv 0 time y.
Proof. intros Hr Ht. by apply notify_reachable_all. Qed.

(** ** No wake-up is lost *)

Lemma sleeper time y id t w : inv 0 time y → tasks y !! id = Some t → sleeps t = Some w →
  ∃ i e, waiter_index (fut t) = Some (i, slot_epoch e) ∧ entries (slab y) !! i = Some e ∧ waker e = Some w ∧ entry_of y (fut t) i e ∧ has_waker e = true.
Proof.
  intros Hinv Ht Hw. destruct (i_tasks _ _ _ Hinv id t Ht) as [_ _ T3 _ _ _ _ T8]. destruct (T8 w Hw) as (S1 & S2 & i & e & S3 & S4 & S5). exists i, e. destruct (T3 S1) as (i' & e' & Heo). pose proof Heo as [E1 E2 _ _ _ _].
  rewrite S3 in E1. injection E1 as <- _. assert (e' = e) as -> by congruence. split_and!; try done. unfold has_waker. rewrite S5. by apply bool_decide_eq_true.
Qed.

Lemma notify_returns time y o : inv 0 time y → enabled y o = true → ∃ y', sys_step y o = Done y'.
Proof.
  intros Hinv He. destruct o as [id|id w|id|id| |k|k]; simpl in *; try (by eexists).
  - destruct (tasks y !! id); by eexists.
  - destruct (tasks y !! id) as [t|] eqn:Ht; [|by eexists]. apply andb_true_iff in He as [_ Hlock]. pose proof (i_tasks _ _ _ Hinv id t Ht) as [_ T2 T3 _ _ _ _ _]. unfold step_task. unfold phase_state in T2. destruct (phase t) as [|w|w|w|changed w|] eqn:Hp.
    + by eexists.
    + destruct (try_consume_stored_notification (notify y)). by eexists.
    + by eexists.
    + destruct (register (notify y) (fut t) w) as [[]]. by eexists.
    + destruct (T3 T2) as (i & e & [E1 E2 E3 _ _ _]). rewrite (poll_waiting_eq _ _ _ _ i e E1 E2). destruct (changed || generation_changed (notify y) (fut t) || notified e) eqn:Hd; [by eexists|].
      apply orb_false_iff in Hd as [_ Hd]. unfold vacant in E3. rewrite Hd, andb_true_r in E3. apply bool_decide_eq_false in E3. destruct (waker e); [by eexists|done].
    + by eexists.
  - destruct (tasks y !! id); by eexists.
  - destruct (notify_one (notify y)). by eexists.
  - destruct (casts y !! k); by eexists.
Qed.

(** C21: In every interleaving of fewer than 2^64 accesses, a future that sleeps is
    registered with the waker of its last poll and was not chosen; no notification is
    stored; and nothing was broadcast since its first poll, or a broadcast that will reach
    it is about to take the lock, after which no future it covers sleeps.  While someone
    sleeps [notify_one] wakes a waiter.  Every operation returns, and who holds the lock
    can go on. *)
Theorem notify_no_lost_wakeup time y : reachable time y → time + 1 ≤ u64_MAX →
  (∀ id t w, tasks y !! id = Some t → sleeps t = Some w →
     (∃ i e, waiter_index (fut t) = Some (i, slot_epoch e) ∧ entries (waiters (notify y)) !! i = Some e ∧ waker e = Some w ∧ notified e = false) ∧
     stored_notifications (notify y) = 0 ∧ (generation (notify y) = initial_generation (fut t) ∨ ∃ k g, casts y !! k = Some g ∧ initial_generation (fut t) < g) ∧
     ∃ w', (notify_one (notify y)).2 = Some w') ∧
  (∀ k g y', casts y !! k = Some g → enabled y (OCastLock k) = true → sys_step y (OCastLock k) = Done y' → ∀ id t, tasks y' !! id = Some t → initial_generation (fut t) < g → sleeps t = None) ∧
  (∀ o, enabled y o = true → ∃ y', sys_step y o = Done y') ∧
  (∀ id, holder y = Some id → enabled y (OStep id) = true).
Proof.
  intros Hr Htime. pose proof (notify_reachable_inv time y Hr Htime) as Hinv. pose proof Hinv as [I1 I2 I3 I4 I5 I6 I7 I8 I9 I10 I11]. split_and!.
  - intros id t w Ht Hw. destruct (sleeper time y id t w Hinv Ht Hw) as (i & e & H1 & H2 & H3 & [E1 E2 E3 E4 E5 E6] & H4). assert (Hsl : asleep_at (slab y) i) by (by exists e). split_and!.
    + exists i, e. split_and!; try done. by apply (so_entry _ I1 i).
    + destruct (decide (0 < stored_notifications (notify y))) as [Hpos|]; [by destruct (I6 Hpos i)|lia].
    + by destruct (E5 H4).
    + unfold notify_one. fold (slab y). pose proof (take_next_spec (slab y) I1 ltac:(mlia)) as Hp. destruct (take_next_active_waker (slab y)) as [s' [w'|]]; [by exists w'|]. by destruct (proj1 Hp i).
  - intros k g y' Hk He Hs id t Ht Hg. unfold sys_step in Hs. rewrite Hk, wake_waiters_eq in Hs. injection Hs as <-. simpl in Ht. apply woken_tasks in Ht as (t0 & Ht & ->). simpl in *. destruct (sleeps t0) as [w|] eqn:Hw; [|done].
    destruct (sleeper time y id t0 w Hinv Ht Hw) as (i & e & H1 & H2 & H3 & [E1 E2 E3 E4 E5 E6] & H4). rewrite bool_decide_true; [done|]. apply (cast_wakes g _ i e w H2 H3). destruct (E5 H4). lia.
  - intros o. by apply (notify_returns time).
  - intros id Hh. destruct (I11 id Hh) as (t & Ht & Hhold). simpl. rewrite Ht. unfold is_idle, needs_lock, is_holding in *. by destruct (phase t).
Qed.

(** ** Notifications are conserved *)

(** C22: In every interleaving each call of [notify_one] is accounted for exactly once: its
    notification is stored, held by a waiter that was chosen, on its way back into the
    store, was spent on a poll that returned, or was swallowed.  The last happens only when
    a chosen future is dropped that a later broadcast covers - one that woke another
    future - while nobody waits ([swallows]); every other notification of a dropped future
    is passed on or stored.  A waiting future returns only when it was chosen or something was
    broadcast since its first poll.  The count of waiters is exact. *)
Theorem notify_conserves_notifications time y : reachable time y → time + 1 ≤ u64_MAX →
  ones y = stored_notifications (notify y) + held y + storing y + spent y + swallowed y ∧ (generation (notify y) = 0 → swallowed y = 0) ∧
  (∀ id t changed w n' f, tasks y !! id = Some t → phase t = Rechecking changed w → poll_waiting (notify y) (fut t) changed w = Done (n', f, Ready ()) →
     holds_token (notify y) (fut t) = true ∨ initial_generation (fut t) < generation (notify y)) ∧
  waiter_count (notify y) = waiting_entries (entries (waiters (notify y))).
Proof.
  intros Hr Htime. pose proof (notify_reachable_inv time y Hr Htime) as Hinv. pose proof Hinv as [I1 I2 I3 I4 I5 I6 I7 I8 I9 I10 I11]. split_and!; [lia|done| |apply I1].
  intros id t changed w n' f Ht Hp Hpoll. pose proof (I3 id t Ht) as [T1 T2 T3 _ T5 _ _ _]. unfold phase_state in T2. rewrite Hp in T2. destruct (T3 T2) as (i & e & [E1 E2 E3 E4 E5 E6]). rewrite (poll_waiting_eq _ _ _ _ i e E1 E2) in Hpoll.
  destruct changed; [right; by apply (T5 w)|]. destruct (generation_changed (notify y) (fut t)) eqn:Hgc; [right; by apply not_changed|]. simpl in Hpoll. destruct (notified e) eqn:Hn; [|by destruct (waker e)]. left.
  unfold holds_token. rewrite E1. fold (slab y). rewrite E2, Hn. simpl. apply N.eqb_eq. unfold generation_changed in Hgc. apply negb_false_iff, N.eqb_eq in Hgc. lia.
Qed.

(** ** A waiter is not passed over for ever *)

(** Whom a step wakes with a notification of [notify_one]. *)
Definition picks y (o : Op) : option Waker :=
  match o with
  | ONotifyOne => (notify_one (notify y)).2
  | ODrop id => match tasks y !! id with Some t => if is_waiting t then (drop_waiting (notify y) (fut t)).1.2 else None | None => None end
  | _ => None
  end.

Definition waits_at y (id : N) (i : nat) : Prop :=
  ∃ t e, tasks y !! id = Some t ∧ state (fut t) = SWaiting ∧ waiter_index (fut t) = Some (i, slot_epoch e) ∧ entries (slab y) !! i = Some e ∧ has_waker e = true.

(** A run of [m] steps during which a future waits and [k] others are chosen. *)
Inductive passed_over (id : N) y : N → nat → System → Prop :=
  | po_start i : waits_at y id i → passed_over id y 0 0 y
  | po_step m k y1 o y2 i : passed_over id y m k y1 → enabled y1 o = true → sys_step y1 o = Done y2 → waits_at y2 id i →
      passed_over id y (m + 1) (k + match picks y1 o with Some _ => 1 | None => 0 end) y2.

(** How many slots are scanned before [i], when there are never more than [L]. *)
Definition distance (L : nat) s (i : nat) : nat := if (scan_start s <=? i)%nat then (i - scan_start s)%nat else (L - scan_start s + i)%nat.

Lemma picked_closer L s w s' i0 e0 i : picked s w s' i0 e0 → asleep_at s i → i ≠ i0 → (length (entries s) ≤ L)%nat → (scan_start s ≤ L)%nat → (S (distance L s' i) ≤ distance L s i)%nat.
Proof.
  intros [P1 P2 -> _ P5] Hi Hne Hlen Hscan. specialize (P5 i Hi Hne). cbv zeta in P5. apply lookup_lt_Some in P1. destruct Hi as (e & He & _). apply lookup_lt_Some in He. unfold distance. simpl scan_start.
  destruct (Nat.leb_spec (S i0) i), (Nat.leb_spec (scan_start s) i); lia.
Qed.

Lemma same_scan L s s' i : scan_start s' = scan_start s → distance L s' i = distance L s i.
Proof. unfold distance. by intros ->. Qed.

(** The step is not the waiter's own, or its own poll again. *)
Lemma notify_one_closer time y y' id i j L : inv 0 time y → time + 2 ≤ u64_MAX → sys_step y ONotifyOne = Done y' → waits_at y id i → waits_at y' id j → (peak y ≤ L)%nat →
  i = j ∧ (match picks y ONotifyOne with Some _ => 1 | None => 0 end + distance L (slab y') i ≤ distance L (slab y) i)%nat.
Proof.
  intros Hinv Htime Hs (t & e & Ht & _ & H2 & H3 & H4) (t' & e' & Ht' & _ & K2 & K3 & K4) HL. pose proof Hinv as [I1 I2 _ _ _ _ _ _ _ (P1 & P2 & _) _]. pose proof (take_next_spec (slab y) I1 ltac:(mlia)) as Hp.
  simpl in *. unfold notify_one in *. fold (slab y) in *. destruct (take_next_active_waker (slab y)) as [s' [w|]]; injection Hs as <-; simpl in Ht'; apply woken_tasks in Ht' as (t0 & Ht0 & ->); rewrite Ht in Ht0; injection Ht0 as <-; simpl in K2; rewrite H2 in K2; injection K2 as <- _.
  - destruct Hp as (i0 & e0 & Hp). split; [done|]. apply (picked_closer L (slab y) w s' i0 e0 i Hp); [by exists e| |lia|lia]. intros ->. change (slab _) with s' in K3. destruct Hp as [Q1 Q2 -> _ _]. simpl in K3. rewrite list_lookup_insert_eq in K3 by (by apply lookup_lt_Some in Q1). by injection K3 as <-.
  - destruct Hp as [Hn _]. destruct (Hn i). by exists e.
Qed.

Lemma drop_closer time y y' id id' i j L : inv 0 time y → time + 2 ≤ u64_MAX → enabled y (ODrop id') = true → sys_step y (ODrop id') = Done y' → waits_at y id i → waits_at y' id j → (peak y ≤ L)%nat →
  i = j ∧ (match picks y (ODrop id') with Some _ => 1 | None => 0 end + distance L (slab y') i ≤ distance L (slab y) i)%nat.
Proof.
  intros Hinv Htime He Hs (t & e & Ht & H1 & H2 & H3 & H4) (t' & e' & Ht' & K1 & K2 & K3 & K4) HL. pose proof Hinv as [I1 I2 I3 I4 _ _ _ _ _ (P1 & P2 & _) _].
  simpl in *. destruct (tasks y !! id') as [td|] eqn:Htd; [|done]. injection Hs as <-. unfold drop_task in *. apply andb_true_iff in He as [_ Hlock]. unfold is_waiting in *. destruct (bool_decide (state (fut td) = SWaiting)) eqn:Hw; simpl in Hlock.
  2:{ simpl in Ht'. apply lookup_delete_Some in Ht' as [_ Ht']. rewrite Ht in Ht'. injection Ht' as <-. rewrite H2 in K2. by injection K2 as <- _. }
  apply bool_decide_eq_true in Hw. destruct (to_waiting _ _ _ (I3 id' td Htd) Hw) as (k & ed & [E1 E2 E3 _ _ _]). rewrite (drop_waiting_eq _ _ k ed E1 E2) in *. cbv zeta in *.
  destruct (waiter_remove_spec (slab y) k ed I1 ltac:(mlia) E2 E3) as [R1 R2 R3 R4 R5 R6]. fold (slab y) in *.
  assert (Hidx : ∀ next (m : gmap N Task), m = wake next <$> delete id' (tasks y) → m !! id = Some t' → id ≠ id' ∧ i = j).
  { intros next m -> Hm. apply woken_tasks in Hm as (t0 & Hm & ->). apply lookup_delete_Some in Hm as [Hne Hm]. rewrite Ht in Hm. injection Hm as <-. simpl in K2. rewrite H2 in K2. by injection K2 as <- _. }
  assert (Hasl : i ≠ k → asleep_at (remove (slab y) k) i) by (intros Hik; exists e; split; [|done]; apply R2; [done|by apply waker_not_vacant|done]).
  assert (Hik : id ≠ id' → i ≠ k) by (intros Hne ->; apply Hne, (I4 id id' t td k); [done|done|split; eauto|split; eauto]).
  destruct (holds_token (notify y) (fut td)).
  - change (waiters (set_waiters (notify y) (remove (slab y) k))) with (remove (slab y) k) in *. pose proof (take_next_spec (remove (slab y) k) R1 ltac:(unfold lenN in *; mlia)) as Hp. destruct (take_next_active_waker (remove (slab y) k)) as [s' [w|]].
    + destruct (Hidx _ _ eq_refl Ht') as [Hne <-]. split; [done|]. destruct Hp as (i0 & e0 & Hp). change (1 + distance L s' i ≤ distance L (slab y) i)%nat. rewrite <- (same_scan L (slab y) (remove (slab y) k)) by done.
      apply (picked_closer L _ w s' i0 e0 i Hp); [by apply Hasl, Hik| |lia|rewrite R4; lia]. intros ->. change (slab _) with s' in K3. destruct Hp as [Q1 Q2 -> _ _]. simpl in K3. rewrite list_lookup_insert_eq in K3 by (by apply lookup_lt_Some in Q1). by injection K3 as <-.
    + exfalso. destruct Hp as [Hn _]. assert (id ≠ id') as Hne; [|by apply (Hn i), Hasl, Hik]. destruct (negb _ || negb _); [|by destruct (Hidx _ _ eq_refl Ht')].
      intros ->. simpl in Ht'. rewrite lookup_insert_eq in Ht'. by injection Ht' as <-.
  - destruct (Hidx _ _ eq_refl Ht') as [Hne <-]. split; [done|]. simpl. by rewrite (same_scan L (slab y)).
Qed.

Lemma peak_mono y o y' : sys_step y o = Done y' → (peak y ≤ peak y')%nat.
Proof.
  destruct o as [id|id w|id|id| |k|k]; simpl.
  - by intros [= <-].
  - destruct (tasks y !! id) as [t|]; [|by intros [= <-]]. intros [= <-]. by destruct (state (fut t)).
  - destruct (tasks y !! id) as [t|]; [|by intros [= <-]]. unfold step_task. destruct (phase t) as [|w|w|w|changed w|].
    + by intros [= <-].
    + destruct (try_consume_stored_notification (notify y)) as [n' []]; by intros [= <-].
    + destruct (generation_changed (notify y) (fut t)); by intros [= <-].
    + destruct (register (notify y) (fut t) w) as [[n' f] p]. intros [= <-]. simpl. lia.
    + destruct (poll_waiting (notify y) (fut t) changed w) as [[[n' f] p]|]; [|done]. by intros [= <-].
    + by intros [= <-].
  - destruct (tasks y !! id) as [t|]; [|by intros [= <-]]. intros [= <-]. unfold drop_task. destruct (is_waiting t); [|done]. destruct (drop_waiting (notify y) (fut t)) as [[n' next] []]; done.
  - destruct (notify_one (notify y)). by intros [= <-].
  - by intros [= <-].
  - destruct (casts y !! k); [|by intros [= <-]]. by intros [= <-].
Qed.

Lemma step_closer time y y' id id' i j L : inv 0 time y → time + 2 ≤ u64_MAX → sys_step y (OStep id') = Done y' → waits_at y id i → waits_at y' id j →
  i = j ∧ distance L (slab y') i = distance L (slab y) i.
Proof.
  intros Hinv Htime Hs (t & e & Ht & H1 & H2 & H3 & H4) (t' & e' & Ht' & K1 & K2 & K3 & K4). pose proof Hinv as [I1 I2 I3 I4 _ _ _ _ _ _ _]. simpl in *. destruct (tasks y !! id') as [ts|] eqn:Hts; [|injection Hs as <-; rewrite Ht in Ht'; injection Ht' as <-; rewrite H2 in K2; by injection K2 as <- _].
  pose proof (I3 id' ts Hts) as [_ T2 T3 T4 _ _ _ _]. unfold step_task in Hs. unfold phase_state in T2.
  assert (Hidx : ∀ m : gmap N Task, m !! id = Some t' → m = tasks y ∨ (∃ tn, m = <[id' := tn]> (tasks y) ∧ (state (fut ts) = SInit ∨ state (fut tn) = SDone ∨ fut tn = fut ts)) ∨ m = delete id' (tasks y) → i = j).
  { intros m Hm Hcase. assert (fut t' = fut t) as Hf; [|rewrite Hf, H2 in K2; by injection K2 as <- _]. destruct Hcase as [->|[(tn & -> & Htn)| ->]]; [congruence| |by apply lookup_delete_Some in Hm as [_ Hm]; congruence].
    apply lookup_insert_Some in Hm as [[<- <-]|[_ Hm]]; [|congruence]. rewrite Ht in Hts. injection Hts as <-. destruct Htn as [?|[?|?]]; [congruence|congruence|done]. }
  destruct (phase ts) as [|w|w|w|changed w|] eqn:Hp.
  - injection Hs as <-. split; [|done]. apply (Hidx _ Ht'). by left.
  - unfold try_consume_stored_notification in Hs. destruct (0 <? stored_notifications (notify y)); injection Hs as <-; (split; [|done]); apply (Hidx _ Ht'); right; left; eexists; (split; [reflexivity|by left]).
  - destruct (generation_changed (notify y) (fut ts)); injection Hs as <-; (split; [|done]); apply (Hidx _ Ht'); right; left; eexists; (split; [reflexivity|by left]).
  - unfold register, try_consume_stored_notification in Hs. destruct (0 <? stored_notifications (notify y)).
    { injection Hs as <-. split; [|done]. apply (Hidx _ Ht'). right. left. eexists. split; [reflexivity|by left]. }
    fold (slab y) in Hs. pose proof (waiter_insert_spec (slab y) (mkEntry (Some w) false (initial_generation (fut ts)) false 0) I1 ltac:(mlia) eq_refl eq_refl) as Hin. destruct (insert (slab y) _) as [s' [i' ep]]. injection Hs as <-. split.
    + apply (Hidx _ Ht'). right. left. eexists. split; [reflexivity|by left].
    + apply same_scan. destruct Hin as [_ _ _ _ [Hsc|[Hz _]] _ _ _]; [done|]. rewrite (so_active _ I1) in Hz. pose proof (waiting_positive _ _ _ H3 H4). lia.
  - destruct (T3 T2) as (k & ed & [E1 E2 E3 _ _ _]). rewrite (poll_waiting_eq _ _ _ _ k ed E1 E2) in Hs. destruct (changed || generation_changed (notify y) (fut ts) || notified ed).
    + injection Hs as <-. split; [apply (Hidx _ Ht'); right; left; eexists; (split; [reflexivity|auto])|]. apply same_scan. exact (rm_scan _ _ _ (waiter_remove_spec (slab y) k ed I1 ltac:(mlia) E2 E3)).
    + destruct (waker ed); [|done]. injection Hs as <-. split; [apply (Hidx _ Ht'); right; left; eexists; (split; [reflexivity|auto])|done].
  - injection Hs as <-. split; [|done]. apply (Hidx _ Ht'). by do 2 right.
Qed.

Lemma closer time y o y' id i j L : inv 0 time y → time + 2 ≤ u64_MAX → enabled y o = true → sys_step y o = Done y' → waits_at y id i → waits_at y' id j → (peak y ≤ L)%nat →
  i = j ∧ (match picks y o with Some _ => 1 | None => 0 end + distance L (slab y') i ≤ distance L (slab y) i)%nat.
Proof.
  intros Hinv Htime He Hs Hi Hj HL. destruct o as [id'|id' w|id'|id'| |k|k].
  - destruct Hi as (t & e & Ht & H1 & H2 & H3 & H4), Hj as (t' & e' & Ht' & K1 & K2 & K3 & K4). injection Hs as <-. split; [|done]. simpl in Ht'. apply lookup_insert_Some in Ht' as [[<- <-]|[_ Ht']]; [done|]. rewrite Ht in Ht'. injection Ht' as <-. rewrite H2 in K2. by injection K2 as <- _.
  - destruct Hi as (t & e & Ht & H1 & H2 & H3 & H4), Hj as (t' & e' & Ht' & K1 & K2 & K3 & K4). simpl in *. destruct (tasks y !! id') as [t0|] eqn:Ht0; [|done]. injection Hs as <-.
    assert (fut t' = fut t) as Hf; [|rewrite Hf, H2 in K2; injection K2 as <- _; split; [done|by destruct (state (fut t0))]].
    destruct (state (fut t0)) eqn:Hst; [| |congruence]; simpl in Ht'; (apply lookup_insert_Some in Ht' as [[<- <-]|[_ Ht']]; [|congruence]); simpl in *; [congruence|]. rewrite Ht in Ht0. by injection Ht0 as <-.
  - destruct (step_closer time y y' id id' i j L Hinv Htime Hs Hi Hj) as [<- Hd]. split; [done|]. simpl. lia.
  - by apply (drop_closer time y y' id id').
  - by apply (notify_one_closer time y y' id).
  - destruct Hi as (t & e & Ht & H1 & H2 & H3 & H4), Hj as (t' & e' & Ht' & K1 & K2 & K3 & K4). injection Hs as <-. split; [|done]. simpl in Ht'. rewrite Ht in Ht'. injection Ht' as <-. rewrite H2 in K2. by injection K2 as <- _.
  - destruct Hi as (t & e & Ht & H1 & H2 & H3 & H4), Hj as (t' & e' & Ht' & K1 & K2 & K3 & K4). unfold sys_step in Hs. simpl in He. destruct (casts y !! k) as [g|]; [|done]. rewrite wake_waiters_eq in Hs. injection Hs as <-. split; [|done].
    simpl in Ht'. apply woken_tasks in Ht' as (t0 & Ht' & ->). rewrite Ht in Ht'. injection Ht' as <-. simpl in K2. rewrite H2 in K2. by injection K2 as <- _.
Qed.

Lemma passed_over_distance time id y m k y' : reachable time y → time + m + 1 ≤ u64_MAX → passed_over id y m k y' →
  reachable (time + m) y' ∧ ∃ i, waits_at y' id i ∧ ∀ L, (peak y' ≤ L)%nat → (k + distance L (slab y') i ≤ distance L (slab y) i ∧ scan_start (slab y) ≤ L ∧ i < L)%nat.
Proof.
  intros Hr Htime Hp. induction Hp as [i Hi|m k y1 o y2 j Hp IH He Hs Hj].
  - rewrite N.add_0_r. split; [done|]. exists i. split; [done|]. intros L HL. pose proof (notify_reachable_inv time y Hr ltac:(lia)) as [_ _ _ _ _ _ _ _ _ (P1 & P2 & _) _]. destruct Hi as (t & e & _ & _ & _ & He & _). apply lookup_lt_Some in He. split_and!; lia.
  - destruct (IH ltac:(lia)) as (Hr1 & i & Hi & HL). split; [rewrite N.add_assoc; by apply (reach_step _ y1 o)|]. exists j. split; [done|]. intros L Hpk. pose proof (peak_mono y1 o y2 Hs) as Hm.
    destruct (closer (time + m) y1 o y2 id i j L (notify_reachable_inv _ _ Hr1 ltac:(lia)) ltac:(lia) He Hs Hi Hj ltac:(lia)) as [<- Hd]. destruct (HL L ltac:(lia)) as (H1 & H2 & H3). split_and!; lia.
Qed.

(** C23: However futures come, go and are dropped, while a future waits [notify_one] and
    notifications that are passed on choose fewer others than there ever were futures
    waiting at the same time: no waiter is passed over for ever. *)
Theorem notify_one_bounded_bypass time id y m k y' : reachable time y → time + m + 1 ≤ u64_MAX → passed_over id y m k y' → (k < peak y')%nat.
Proof.
  intros Hr Htime Hp. destruct (passed_over_distance time id y m k y' Hr Htime Hp) as (_ & i & _ & HL). destruct (HL (peak y') ltac:(lia)) as (H1 & H2 & H3).
  unfold distance in H1. destruct (scan_start (slab y) <=? i)%nat eqn:E1; [apply Nat.leb_le in E1|apply Nat.leb_gt in E1]; lia.
Qed.

(** ** Runs *)

Fixpoint run_ops y (os : list Op) : exec System :=
  match os with
  | [] => Done y
  | o :: os => if enabled y o then y ← sys_step y o; run_ops y os else Panics
  end.

Lemma notify_run_reachable time y os y' : reachable time y → run_ops y os = Done y' → reachable (time + lenN os) y'.
Proof.
  revert time y. induction os as [|o os IH]; intros time y Hr; simpl; [intros [= <-]; by rewrite N.add_0_r|].
  destruct (enabled y o) eqn:He; [|done]. destruct (sys_step y o) as [y1|] eqn:Hs; [|done]. simpl. intros Hrun. rewrite len_cons, N.add_assoc. apply (IH _ y1); [by apply (reach_step time y o)|done].
Qed.

(** A future is created, polled and registers. *)
Definition arrive (id : N) (w : Waker) : list Op := [ONotified id; OPoll id w; OStep id; OStep id; OStep id].
Definition after (os : list Op) : System := match run_ops sys_new os with Done y => y | Panics => sys_new end.

Lemma notify_after_reachable os : match run_ops sys_new os with Done _ => true | Panics => false end = true → reachable (lenN os) (after os).
Proof. intros H. unfold after. destruct (run_ops sys_new os) as [y|] eqn:E; [|done]. apply (notify_run_reachable 0 sys_new os y); [constructor|done]. Qed.

(** Two futures wait; one of them is chosen. *)
Definition two_wait : list Op := arrive 0 10 ++ arrive 1 11.
Definition one_chosen : list Op := two_wait ++ [ONotifyOne].

Lemma notify_no_lost_wakeup_witness : ∃ t, tasks (after one_chosen) !! 1 = Some t ∧ sleeps t = Some 11 ∧
  ∃ i e, waiter_index (fut t) = Some (i, slot_epoch e) ∧ entries (waiters (notify (after one_chosen))) !! i = Some e ∧ waker e = Some 11 ∧ notified e = false.
Proof.
  destruct (notify_no_lost_wakeup 11 (after one_chosen) (notify_after_reachable one_chosen ltac:(vm_compute; reflexivity)) ltac:(vm_compute; discriminate)) as (H & _).
  assert (∃ t, tasks (after one_chosen) !! 1 = Some t ∧ sleeps t = Some 11) as (t & Ht & Hw) by (eexists; split; vm_compute; reflexivity).
  exists t. exact (conj Ht (conj Hw (proj1 (H 1 t 11 Ht Hw)))).
Defined.

(** The only waiter is chosen, a broadcast finds nobody else, and the waiter is dropped:
    its notification goes back into the store. *)
Definition baton_restored : list Op := arrive 0 10 ++ [ONotifyOne; OCast 0; OCastLock 0; ODrop 0; OStep 0].
Definition accounts y : Prop := ones y = stored_notifications (notify y) + held y + storing y + spent y + swallowed y.

Lemma notify_conserves_notifications_witness : held (after one_chosen) = 1 ∧ accounts (after one_chosen) ∧
  stored_notifications (notify (after baton_restored)) = 1 ∧ swallowed (after baton_restored) = 0 ∧ accounts (after baton_restored).
Proof.
  pose proof (notify_conserves_notifications 11 (after one_chosen) (notify_after_reachable one_chosen ltac:(vm_compute; reflexivity)) ltac:(vm_compute; discriminate)) as [H1 _].
  pose proof (notify_conserves_notifications (lenN baton_restored) (after baton_restored) (notify_after_reachable baton_restored ltac:(vm_compute; reflexivity)) ltac:(vm_compute; discriminate)) as [H2 _].
  split_and!; [vm_compute; reflexivity|exact H1|vm_compute; reflexivity|vm_compute; reflexivity|exact H2].
Defined.

Lemma notify_one_bounded_bypass_witness : passed_over 1 (after two_wait) 1 1 (after one_chosen) ∧ (1 < peak (after one_chosen))%nat.
Proof.
  assert (Hp : passed_over 1 (after two_wait) 1 1 (after one_chosen)).
  { apply (po_step 1 (after two_wait) 0 0 (after two_wait) ONotifyOne (after one_chosen) 1); [apply (po_start 1 _ 1)|vm_compute; reflexivity|vm_compute; reflexivity|];
      (eexists _, (mkEntry (Some 11) false 0 false 0); split; [vm_compute; reflexivity|]; split; [reflexivity|]; split; [reflexivity|]; split; vm_compute; reflexivity). }
  split; [exact Hp|]. exact (notify_one_bounded_bypass 10 1 (after two_wait) 1 1 (after one_chosen) (notify_after_reachable two_wait ltac:(vm_compute; reflexivity)) ltac:(vm_compute; discriminate) Hp).
Defined.

(** ** Where code and comments part *)

(** Three futures wait, the first is dropped and a fourth takes its slot: the next
    notification goes to the newcomer, past the two that waited before. *)
Lemma reused_slot_leapfrogs : let y := after (arrive 0 10 ++ arrive 1 11 ++ arrive 2 12 ++ [ODrop 0] ++ arrive 3 13) in
  reachable 21 y ∧ (notify_one (notify y)).2 = Some 13 ∧ (∃ t, tasks y !! 1 = Some t ∧ sleeps t = Some 11) ∧ (∃ t, tasks y !! 2 = Some t ∧ sleeps t = Some 12).
Proof.
  split; [apply (notify_after_reachable (arrive 0 10 ++ arrive 1 11 ++ arrive 2 12 ++ [ODrop 0] ++ arrive 3 13)); vm_compute; reflexivity|].
  split; [vm_compute; reflexivity|]. split; (eexists; split; vm_compute; reflexivity).
Qed.

(** [wait_until] finds its predicate false; then the predicate is made true and everyone
    is notified; then it creates and polls its future, and sleeps although the predicate
    holds and no notification is under way. *)
Lemma wait_until_misses_broadcast : let y := after ([OCast 0; OCastLock 0] ++ arrive 1 11) in
  until_step false false Checking = Awaiting ∧ reachable 7 y ∧ (∃ t, tasks y !! 1 = Some t ∧ sleeps t = Some 11) ∧ casts y = ∅ ∧ stored_notifications (notify y) = 0.
Proof.
  split; [done|]. split; [apply (notify_after_reachable ([OCast 0; OCastLock 0] ++ arrive 1 11)); vm_compute; reflexivity|]. split; [eexists; split; vm_compute; reflexivity|]. split; vm_compute; reflexivity.
Qed.
