(* ===== verification/Budget.v ===== *)
(** * Budgets and capability envelopes

    Models [src/types/budget.rs]: [Budget] with [combine]/[meet], consumption of
    polls and cost, and [CapabilityBudget] with [meet], [validate] and
    [plan_child].  (The min-plus curves of the same source file are in
    [Curves].)

    The theorems: [combine] is the greatest lower bound of the "at least as
    tight" order with [INFINITE] as its unit and [ZERO] as its bottom;
    consumption never grants more than the quota; a planned child envelope is
    bounded by its parent and refused exactly when a required dimension is
    missing or exhausted. *)

From S2P Require Import Prelude Ids.

(** ** Data *)

Record Budget := mkBudget {
  deadline : option Time.t;
  poll_quota : N;
  cost_quota : option N;
  priority : N;
}.

#[global] Instance Budget_eq_dec : EqDecision Budget.
Proof. solve_decision. Defined.

Definition INFINITE : Budget := mkBudget None u32_MAX None 0.
Definition ZERO : Budget := mkBudget (Some Time.ZERO) 0 (Some 0) 255.
Definition MINIMAL : Budget := mkBudget None 100 None 128.
Definition budget_new : Budget := mkBudget None u32_MAX None 128.
Definition budget_unlimited : Budget := INFINITE.
Definition with_deadline_secs (secs : N) : Budget :=
  mkBudget (Some (Time.from_secs secs)) u32_MAX None 128.
Definition with_deadline_ns (nanos : N) : Budget :=
  mkBudget (Some (Time.from_nanos nanos)) u32_MAX None 128.

(** ** Builders *)

Definition with_deadline (b : Budget) (d : Time.t) : Budget :=
  mkBudget (Some d) (poll_quota b) (cost_quota b) (priority b).
Definition with_timeout (b : Budget) (now : Time.t) (timeout : N) : Budget :=
  mkBudget (Some (Time.add now timeout)) (poll_quota b) (cost_quota b) (priority b).
Definition with_poll_quota (b : Budget) (quota : N) : Budget :=
  mkBudget (deadline b) quota (cost_quota b) (priority b).
Definition with_cost_quota (b : Budget) (quota : N) : Budget :=
  mkBudget (deadline b) (poll_quota b) (Some quota) (priority b).
Definition with_priority (b : Budget) (p : N) : Budget :=
  mkBudget (deadline b) (poll_quota b) (cost_quota b) p.

(** ** Inspection and consumption *)

Definition is_exhausted (b : Budget) : bool :=
  (poll_quota b =? 0) || match cost_quota b with Some 0 => true | _ => false end.

Definition is_past_deadline (b : Budget) (now : Time.t) : bool :=
  match deadline b with Some d => d <=? now | None => false end.

(** [consume_poll]: the budget afterwards and the previous quota. *)
Definition consume_poll (b : Budget) : Budget * option N :=
  if 0 <? poll_quota b
  then (with_poll_quota b (poll_quota b - 1), Some (poll_quota b))
  else (b, None).

Definition consume_cost (b : Budget) (cost : N) : Budget * bool :=
  match cost_quota b with
  | None => (b, true)
  | Some remaining =>
      if cost <=? remaining then (with_cost_quota b (remaining - cost), true) else (b, false)
  end.

Definition remaining_time (b : Budget) (now : Time.t) : option N :=
  match deadline b with
  | Some d => if now <? d then Some (saturating_sub (Time.as_nanos d) (Time.as_nanos now)) else None
  | None => None
  end.

Definition to_timeout (b : Budget) (now : Time.t) : option N := remaining_time b now.

(** ** Combination *)

Definition min_option (x y : option N) : option N :=
  match x, y with
  | Some a, Some b => Some (N.min a b)
  | Some a, None | None, Some a => Some a
  | None, None => None
  end.

Definition combine (self other : Budget) : Budget :=
  mkBudget (min_option (deadline self) (deadline other))
    (N.min (poll_quota self) (poll_quota other))
    (min_option (cost_quota self) (cost_quota other))
    (N.max (priority self) (priority other)).

Definition meet (self other : Budget) : Budget := combine self other.

(** The condition under which [combine] reports a tightened budget. *)
Definition option_tightened (c s o : option N) : bool :=
  match c, s, o with
  | Some c, Some s, Some o => (c <? s) || (c <? o)
  | Some _, None, _ | Some _, _, None => true
  | None, _, _ => false
  end.

Definition combine_tightened (self other : Budget) : bool :=
  let combined := combine self other in
  option_tightened (deadline combined) (deadline self) (deadline other)
  || ((poll_quota combined <? poll_quota self) || (poll_quota combined <? poll_quota other))
  || option_tightened (cost_quota combined) (cost_quota self) (cost_quota other)
  || ((priority self <? priority combined) || (priority other <? priority combined)).

(** ** Capability envelopes *)

Module CapabilityBudgetDimension.
Inductive t := MemoryBytes | CpuUnits | IoBytes | Cleanup | ArtifactBytes.
End CapabilityBudgetDimension.

Record CapabilityBudgetRequirements := mkRequirements {
  req_memory_bytes : bool;
  req_cpu_units : bool;
  req_io_bytes : bool;
  req_cleanup : bool;
  req_artifact_bytes : bool;
}.

Definition requirements_NONE : CapabilityBudgetRequirements :=
  mkRequirements false false false false false.

Inductive CapabilityBudgetRefusal :=
| MissingRequired (d : CapabilityBudgetDimension.t)
| Exhausted (d : CapabilityBudgetDimension.t).

Record CapabilityBudget := mkCapabilityBudget {
  memory_bytes : option N;
  cpu_units : option N;
  io_bytes : option N;
  cleanup_budget : option Budget;
  artifact_bytes : option N;
}.

Definition UNSPECIFIED : CapabilityBudget := mkCapabilityBudget None None None None None.

Definition meet_optional_u64 (parent child : option N) : option N :=
  match parent, child with
  | Some parent, Some child => Some (if parent <? child then parent else child)
  | Some v, None | None, Some v => Some v
  | None, None => None
  end.

Definition cap_meet (self child : CapabilityBudget) : CapabilityBudget :=
  mkCapabilityBudget
    (meet_optional_u64 (memory_bytes self) (memory_bytes child))
    (meet_optional_u64 (cpu_units self) (cpu_units child))
    (meet_optional_u64 (io_bytes self) (io_bytes child))
    (match cleanup_budget self, cleanup_budget child with
     | Some parent, Some child => Some (meet parent child)
     | Some b, None | None, Some b => Some b
     | None, None => None
     end)
    (meet_optional_u64 (artifact_bytes self) (artifact_bytes child)).

Definition validate_required_u64 (d : CapabilityBudgetDimension.t) (value : option N)
  (required : bool) : result () CapabilityBudgetRefusal :=
  if negb required then Ok ()
  else match value with
       | None => Err (MissingRequired d)
       | Some 0 => Err (Exhausted d)
       | Some _ => Ok ()
       end.

Definition validate_required_cleanup (budget : option Budget) (required : bool)
  : result () CapabilityBudgetRefusal :=
  if negb required then Ok ()
  else match budget with
       | None => Err (MissingRequired CapabilityBudgetDimension.Cleanup)
       | Some b => if is_exhausted b then Err (Exhausted CapabilityBudgetDimension.Cleanup) else Ok ()
       end.

Definition validate (self : CapabilityBudget) (req : CapabilityBudgetRequirements)
  : result () CapabilityBudgetRefusal :=
  let? _ := validate_required_u64 CapabilityBudgetDimension.MemoryBytes
              (memory_bytes self) (req_memory_bytes req) in
  let? _ := validate_required_u64 CapabilityBudgetDimension.CpuUnits
              (cpu_units self) (req_cpu_units req) in
  let? _ := validate_required_u64 CapabilityBudgetDimension.IoBytes
              (io_bytes self) (req_io_bytes req) in
  let? _ := validate_required_cleanup (cleanup_budget self) (req_cleanup req) in
  validate_required_u64 CapabilityBudgetDimension.ArtifactBytes
    (artifact_bytes self) (req_artifact_bytes req).

Definition plan_child (self child : CapabilityBudget) (req : CapabilityBudgetRequirements)
  : result CapabilityBudget CapabilityBudgetRefusal :=
  let effective := cap_meet self child in
  let? _ := validate effective req in Ok effective.

(** ** The tightness order *)

(** [opt_le x y]: the limit [x] is at most [y], with [None] for no limit. *)
Definition opt_le (x y : option N) : Prop :=
  match x, y with
  | _, None => True
  | None, Some _ => False
  | Some a, Some b => a ≤ b
  end.

(** [tighter a b]: budget [a] is at least as tight as [b] in every component. *)
Definition tighter (a b : Budget) : Prop :=
  opt_le (deadline a) (deadline b) ∧ poll_quota a ≤ poll_quota b ∧
  opt_le (cost_quota a) (cost_quota b) ∧ priority b ≤ priority a.

(** Field widths of the struct. *)
Definition budget_wf (b : Budget) : Prop :=
  match deadline b with Some d => d ≤ u64_MAX | None => True end ∧
  poll_quota b ≤ u32_MAX ∧
  match cost_quota b with Some c => c ≤ u64_MAX | None => True end ∧
  priority b ≤ u8_MAX.

#[global] Instance opt_le_partial : PartialOrder opt_le.
Proof.
  split; [split|].
  - intros [x|]; simpl; [lia|done].
  - intros [x|] [y|] [z|]; simpl; try done; lia.
  - intros [x|] [y|]; simpl; try done. intros. f_equal. lia.
Qed.

#[global] Instance tighter_partial : PartialOrder tighter.
Proof.
  split; [split|].
  - intros b. unfold tighter. split_and!; try done; lia.
  - intros a b c (H1 & H2 & H3 & H4) (H1' & H2' & H3' & H4').
    unfold tighter. split_and!; [by etrans|lia|by etrans|lia].
  - intros [d1 q1 c1 p1] [d2 q2 c2 p2] (H1 & H2 & H3 & H4) (H1' & H2' & H3' & H4'); simpl in *.
    f_equal; [by apply (anti_symm opt_le)|lia|by apply (anti_symm opt_le)|lia].
Qed.

Lemma opt_le_min x y z : opt_le z (min_option x y) ↔ opt_le z x ∧ opt_le z y.
Proof. destruct x, y, z; simpl; lia || tauto. Qed.

Lemma combine_glb a b c : tighter c (combine a b) ↔ tighter c a ∧ tighter c b.
Proof.
  unfold tighter, combine; simpl. rewrite !opt_le_min, N.min_glb_iff, N.max_lub_iff. tauto.
Qed.

Lemma combine_tighter_l a b : tighter (combine a b) a.
Proof. by apply (combine_glb a b (combine a b)). Qed.

Lemma combine_tighter_r a b : tighter (combine a b) b.
Proof. by apply (combine_glb a b (combine a b)). Qed.

(** [combine] as a semilattice operation, in stdpp's algebraic classes. *)
#[global] Instance min_option_comm : Comm (=) min_option.
Proof. intros [a|] [b|]; simpl; try done. f_equal. lia. Qed.

#[global] Instance min_option_assoc : Assoc (=) min_option.
Proof. intros [a|] [b|] [c|]; simpl; try done. f_equal. lia. Qed.

#[global] Instance combine_comm : Comm (=) combine.
Proof. intros a b. unfold combine. f_equal; [apply (comm _)|lia|apply (comm _)|lia]. Qed.

#[global] Instance combine_assoc : Assoc (=) combine.
Proof. intros a b c. unfold combine; simpl. f_equal; [apply (assoc _)|lia|apply (assoc _)|lia]. Qed.

Lemma combine_idemp b : combine b b = b.
Proof.
  destruct b as [d q c p]. unfold combine; simpl.
  f_equal; [destruct d|..|destruct c|]; simpl; try done; f_equal; lia.
Qed.

Lemma combine_INFINITE_l b : poll_quota b ≤ u32_MAX → combine INFINITE b = b.
Proof.
  destruct b as [d q c p]. unfold combine; simpl. intros Hq.
  f_equal; [by destruct d|lia|by destruct c|]. destruct p; done.
Qed.

Lemma combine_wf a b : budget_wf a → budget_wf b → budget_wf (combine a b).
Proof.
  destruct a as [[da|] qa [ca|] pa], b as [[db|] qb [cb|] pb]; unfold budget_wf; simpl; lia.
Qed.

(** A change is reported exactly when the two budgets differ. *)
Lemma option_tightened_spec x y : option_tightened (min_option x y) x y = true ↔ x ≠ y.
Proof.
  destruct x as [a|], y as [b|]; simpl; try done.
  rewrite orb_true_iff, !N.ltb_lt. split; [intros ? [= ->]; lia|].
  intros Hne. assert (a ≠ b) by congruence. lia.
Qed.

Lemma combine_tightened_spec a b : combine_tightened a b = true ↔ a ≠ b.
Proof.
  unfold combine_tightened. destruct a as [da qa ca pa], b as [db qb cb pb]; simpl.
  rewrite !orb_true_iff, !option_tightened_spec, !N.ltb_lt. split.
  - intros H [= -> -> -> ->]. destruct H as [[[H|H]|H]|H]; try done; lia.
  - intros H. destruct (decide (da = db)), (decide (ca = cb)); subst; try tauto.
    destruct (decide (qa = qb)), (decide (pa = pb)); subst; try lia. done.
Qed.

Lemma combine_ZERO_l b : priority b ≤ u8_MAX → combine ZERO b = ZERO.
Proof.
  destruct b as [d q c p]. unfold combine, ZERO, u8_MAX; simpl. intros Hp.
  f_equal; [destruct d|..|destruct c|]; simpl; try done; try (f_equal; unfold Time.ZERO); lia.
Qed.

(** ** Theorems on [combine] *)

(** [combine] computes the tightest common constraint: it is the greatest
    lower bound in the order "at least as tight", hence associative,
    commutative and idempotent; [INFINITE] is its unit, [ZERO] absorbs, and the
    field widths are respected. *)
Theorem budget_combine_lattice (a b c : Budget) : budget_wf a → budget_wf b →
  (tighter c (combine a b) ↔ tighter c a ∧ tighter c b) ∧
  combine a (combine b c) = combine (combine a b) c ∧ combine a b = combine b a ∧ combine a a = a ∧
  combine INFINITE a = a ∧ combine ZERO a = ZERO ∧ budget_wf (combine a b).
Proof.
  intros Ha Hb. split_and!.
  - apply combine_glb.
  - apply (assoc _).
  - apply (comm _).
  - apply combine_idemp.
  - apply combine_INFINITE_l. apply Ha.
  - apply combine_ZERO_l. apply Ha.
  - by apply combine_wf.
Qed.

Lemma budget_combine_lattice_witness :
  budget_wf MINIMAL ∧ budget_wf ZERO ∧
  (tighter ZERO (combine MINIMAL ZERO) ↔ tighter ZERO MINIMAL ∧ tighter ZERO ZERO).
Proof.
  assert (Ha : budget_wf MINIMAL) by (unfold budget_wf; simpl; mlia).
  assert (Hb : budget_wf ZERO) by (unfold budget_wf; simpl; mlia).
  split; [exact Ha|]. split; [exact Hb|]. exact (proj1 (budget_combine_lattice MINIMAL ZERO ZERO Ha Hb)).
Defined.

(** The unit of [combine] is unique and it is [INFINITE], with priority 0;
    no budget with the priority 128 that the module documentation names as
    neutral is a unit. *)
Theorem budget_unit_unique (e : Budget) : budget_wf e →
  ((∀ b, budget_wf b → combine e b = b) ↔ e = INFINITE).
Proof.
  intros He. split.
  - intros H. assert (Hi : budget_wf INFINITE) by (unfold budget_wf; simpl; mlia).
    specialize (H INFINITE Hi). rewrite <-H, (comm combine).
    symmetry. apply combine_INFINITE_l, He.
  - intros -> b Hb. apply combine_INFINITE_l, Hb.
Qed.

Lemma budget_unit_unique_witness :
  budget_wf budget_new ∧ ¬ (∀ b, budget_wf b → combine budget_new b = b).
Proof.
  assert (H : budget_wf budget_new) by (unfold budget_wf; simpl; mlia).
  split; [exact H|]. intros Hu. by apply (proj1 (budget_unit_unique budget_new H)) in Hu.
Defined.

(** ** Consumption *)

Inductive BudgetOp := ConsumePoll | ConsumeCost (cost : N).

(** Any interleaving of consumption calls, with the polls and the cost that
    were granted. *)
Fixpoint consume_all (b : Budget) (ops : list BudgetOp) : Budget * N * N :=
  match ops with
  | [] => (b, 0, 0)
  | ConsumePoll :: ops =>
      let '(b1, granted) := consume_poll b in
      let '(b2, polls, cost) := consume_all b1 ops in
      (b2, (match granted with Some _ => polls + 1 | None => polls end), cost)
  | ConsumeCost c :: ops =>
      let '(b1, granted) := consume_cost b c in
      let '(b2, polls, cost) := consume_all b1 ops in
      (b2, polls, (if granted then cost + c else cost))
  end.

Definition is_poll (op : BudgetOp) : bool :=
  match op with ConsumePoll => true | ConsumeCost _ => false end.

(** Budgets bound consumption: however polls and costs are interleaved,
    exactly the first [poll_quota] polls are granted, the granted cost and the
    remaining cost quota add up to the initial quota, and deadline and priority
    do not move. *)
Theorem budget_consumption_bounded (b b' : Budget) ops polls cost :
  consume_all b ops = (b', polls, cost) →
  polls = N.min (N.of_nat (count is_poll ops)) (poll_quota b) ∧
  polls + poll_quota b' = poll_quota b ∧
  match cost_quota b with
  | Some q => ∃ q', cost_quota b' = Some q' ∧ cost + q' = q
  | None => cost_quota b' = None
  end ∧
  deadline b' = deadline b ∧ priority b' = priority b.
Proof.
  revert b polls cost. induction ops as [|[|c] ops IH]; intros b polls cost Hrun; simpl in Hrun.
  - simplify_eq. split_and!; try done; [unfold count; simpl; lia..|]. destruct (cost_quota b'); eauto.
  - unfold consume_poll in Hrun. destruct (0 <? poll_quota b) eqn:Hq; N_bools;
      destruct (consume_all _ ops) as [[b2 p2] c2] eqn:Hr; simplify_eq;
      apply IH in Hr as (Hp & Hs & Hc & Hd & Hpr); rewrite count_cons; simpl in *;
      (split_and!; [lia|lia|done|done|done]).
  - unfold consume_cost in Hrun. destruct (cost_quota b) as [q|] eqn:Hq.
    + destruct (c <=? q) eqn:Hle; N_bools;
        destruct (consume_all _ ops) as [[b2 p2] c2] eqn:Hr; simplify_eq;
        apply IH in Hr as (Hp & Hs & Hc & Hd & Hpr); rewrite count_cons; simpl in *;
        rewrite ?Hq in Hc; destruct Hc as (q' & Hq' & Hsum);
        (split_and!; [lia|lia| |done|done]); exists q'; (split; [done|lia]).
    + destruct (consume_all _ ops) as [[b2 p2] c2] eqn:Hr. simplify_eq.
      apply IH in Hr as (Hp & Hs & Hc & Hd & Hpr). rewrite Hq in Hc. rewrite count_cons. simpl.
      split_and!; try done; lia.
Qed.

Lemma budget_consumption_bounded_witness :
  let b := with_cost_quota (with_poll_quota budget_new 2) 10 in
  let ops := [ConsumePoll; ConsumeCost 7; ConsumePoll; ConsumeCost 4; ConsumePoll; ConsumeCost 3] in
  consume_all b ops = (mkBudget None 0 (Some 0) 128, 2, 10) ∧
  ∃ q', cost_quota (mkBudget None 0 (Some 0) 128) = Some q' ∧ 10 + q' = 10.
Proof.
  intros b ops. split; [reflexivity|].
  exact (proj1 (proj2 (proj2 (budget_consumption_bounded b (mkBudget None 0 (Some 0) 128) ops 2 10 eq_refl)))).
Defined.

(** ** Capability envelopes *)

(** Status of one dimension: absent, used up, or available. *)
Inductive DimStatus := DimAbsent | DimUsedUp | DimAvailable.

Definition status_u64 (v : option N) : DimStatus :=
  match v with None => DimAbsent | Some n => if n =? 0 then DimUsedUp else DimAvailable end.

Definition dim_status (e : CapabilityBudget) (d : CapabilityBudgetDimension.t) : DimStatus :=
  match d with
  | CapabilityBudgetDimension.MemoryBytes => status_u64 (memory_bytes e)
  | CapabilityBudgetDimension.CpuUnits => status_u64 (cpu_units e)
  | CapabilityBudgetDimension.IoBytes => status_u64 (io_bytes e)
  | CapabilityBudgetDimension.Cleanup =>
      match cleanup_budget e with
      | None => DimAbsent
      | Some b => if is_exhausted b then DimUsedUp else DimAvailable
      end
  | CapabilityBudgetDimension.ArtifactBytes => status_u64 (artifact_bytes e)
  end.

Definition required (req : CapabilityBudgetRequirements) (d : CapabilityBudgetDimension.t) : bool :=
  match d with
  | CapabilityBudgetDimension.MemoryBytes => req_memory_bytes req
  | CapabilityBudgetDimension.CpuUnits => req_cpu_units req
  | CapabilityBudgetDimension.IoBytes => req_io_bytes req
  | CapabilityBudgetDimension.Cleanup => req_cleanup req
  | CapabilityBudgetDimension.ArtifactBytes => req_artifact_bytes req
  end.

(** The first required dimension, in declaration order, that is not available. *)
Definition all_dimensions : list CapabilityBudgetDimension.t :=
  [CapabilityBudgetDimension.MemoryBytes; CapabilityBudgetDimension.CpuUnits;
   CapabilityBudgetDimension.IoBytes; CapabilityBudgetDimension.Cleanup;
   CapabilityBudgetDimension.ArtifactBytes].

Definition refused (e : CapabilityBudget) (req : CapabilityBudgetRequirements)
  (d : CapabilityBudgetDimension.t) : bool :=
  required req d && match dim_status e d with DimAvailable => false | _ => true end.

Definition refusal (e : CapabilityBudget) (d : CapabilityBudgetDimension.t) : CapabilityBudgetRefusal :=
  match dim_status e d with DimAbsent => MissingRequired d | _ => Exhausted d end.

Definition first_refusal (e : CapabilityBudget) (req : CapabilityBudgetRequirements)
  : option CapabilityBudgetRefusal :=
  match List.find (refused e req) all_dimensions with
  | Some d => Some (refusal e d)
  | None => None
  end.

(** [cap_tighter a b]: envelope [a] allows at most what [b] allows. *)
Definition cap_tighter (a b : CapabilityBudget) : Prop :=
  opt_le (memory_bytes a) (memory_bytes b) ∧ opt_le (cpu_units a) (cpu_units b) ∧
  opt_le (io_bytes a) (io_bytes b) ∧
  match cleanup_budget a, cleanup_budget b with
  | _, None => True
  | None, Some _ => False
  | Some x, Some y => tighter x y
  end ∧
  opt_le (artifact_bytes a) (artifact_bytes b).

Lemma meet_optional_u64_min x y : meet_optional_u64 x y = min_option x y.
Proof.
  destruct x as [a|], y as [b|]; simpl; try done. destruct (N.ltb_spec a b); f_equal; lia.
Qed.

Lemma cap_meet_glb a b c : cap_tighter c (cap_meet a b) ↔ cap_tighter c a ∧ cap_tighter c b.
Proof.
  unfold cap_tighter, cap_meet; simpl. rewrite !meet_optional_u64_min, !opt_le_min.
  destruct (cleanup_budget a), (cleanup_budget b), (cleanup_budget c);
    unfold meet; rewrite ?combine_glb; tauto.
Qed.

#[global] Instance cap_tighter_refl : Reflexive cap_tighter.
Proof.
  intros c. unfold cap_tighter. split_and!; try done. by destruct (cleanup_budget c).
Qed.

(** One check of [validate], for any dimension. *)
Definition check_dim (e : CapabilityBudget) (req : CapabilityBudgetRequirements)
  (d : CapabilityBudgetDimension.t) : result () CapabilityBudgetRefusal :=
  if refused e req d then Err (refusal e d) else Ok ().

Lemma validate_u64_check d v (r : bool) :
  validate_required_u64 d v r =
  if r && match status_u64 v with DimAvailable => false | _ => true end
  then Err (match status_u64 v with DimAbsent => MissingRequired d | _ => Exhausted d end)
  else Ok ().
Proof. unfold validate_required_u64, status_u64. destruct r, v as [[|n]|]; done. Qed.

Lemma validate_cleanup_check e req :
  validate_required_cleanup (cleanup_budget e) (req_cleanup req) =
  check_dim e req CapabilityBudgetDimension.Cleanup.
Proof.
  unfold validate_required_cleanup, check_dim, refused, refusal; simpl.
  destruct (req_cleanup req), (cleanup_budget e) as [b|]; simpl; try done. by destruct (is_exhausted b).
Qed.

Lemma validate_first_refusal e req :
  validate e req = match first_refusal e req with Some r => Err r | None => Ok () end.
Proof.
  unfold validate, first_refusal, all_dimensions.
  rewrite validate_cleanup_check, !validate_u64_check.
  fold (check_dim e req CapabilityBudgetDimension.MemoryBytes).
  change (_ = _) with (
    (let? _ := check_dim e req CapabilityBudgetDimension.MemoryBytes in
     let? _ := check_dim e req CapabilityBudgetDimension.CpuUnits in
     let? _ := check_dim e req CapabilityBudgetDimension.IoBytes in
     let? _ := check_dim e req CapabilityBudgetDimension.Cleanup in
     check_dim e req CapabilityBudgetDimension.ArtifactBytes) =
    match (match List.find (refused e req) all_dimensions with
           | Some d => Some (refusal e d) | None => None end) with
    | Some r => Err r | None => Ok () end).
  unfold check_dim, all_dimensions, List.find. by repeat case_match.
Qed.

(** Planning a child envelope never widens it: on success the result is the
    greatest envelope below parent and child and every required dimension is
    available in it; it is refused exactly when some required dimension of that
    envelope is absent or used up, and the refusal names the first such
    dimension in declaration order. *)
Theorem plan_child_correct (parent child : CapabilityBudget) (req : CapabilityBudgetRequirements) :
  match plan_child parent child req with
  | Ok e =>
      (∀ c, cap_tighter c e ↔ cap_tighter c parent ∧ cap_tighter c child) ∧
      cap_tighter e parent ∧ cap_tighter e child ∧
      ∀ d, required req d = true → dim_status e d = DimAvailable
  | Err r => first_refusal (cap_meet parent child) req = Some r
  end.
Proof.
  unfold plan_child. rewrite validate_first_refusal.
  destruct (first_refusal _ req) as [r|] eqn:Hr; [done|].
  assert (Hglb := cap_meet_glb parent child).
  assert (cap_tighter (cap_meet parent child) parent ∧ cap_tighter (cap_meet parent child) child)
    as [Hp Hc] by (by apply Hglb).
  split_and!; [done..|]. intros d Hd. unfold first_refusal in Hr.
  destruct (List.find _ _) eqn:Hf; [done|].
  assert (Hall : In d all_dimensions) by (destruct d; simpl; tauto).
  apply (List.find_none _ _ Hf) in Hall. unfold refused in Hall. rewrite Hd in Hall.
  by destruct (dim_status _ d).
Qed.
