(* ===== verification/Curves.v ===== *)
(** * Min-plus curves

    Models the network-calculus part of [src/types/budget.rs]:
    [MinPlusCurve] (samples with a linear tail), its constructors,
    [min_plus_convolution], and the admission bounds [backlog_bound] and
    [delay_bound] of [CurveBudget].  Times are list positions ([nat]), values
    are [u64] with saturating arithmetic. *)

From S2P Require Import Prelude.

(** ** Data and constructors *)

Inductive CurveError :=
| EmptySamples
| NonMonotone (index : nat) (prev next : N).

Record MinPlusCurve := mkCurve { samples : list N; tail_rate : N }.

(** The validation loop of [new]: position [idx], the sample before it and the
    samples from it on. *)
Fixpoint check_samples (idx : nat) (prev : N) (rest : list N) : option CurveError :=
  match rest with
  | [] => None
  | next :: rest =>
      if next <? prev then Some (NonMonotone idx prev next) else check_samples (S idx) next rest
  end.

Definition curve_new (samples : list N) (tail_rate : N) : result MinPlusCurve CurveError :=
  match samples with
  | [] => Err EmptySamples
  | first :: rest =>
      match check_samples 1 first rest with
      | Some e => Err e
      | None => Ok (mkCurve samples tail_rate)
      end
  end.

Definition from_samples (samples : list N) : result MinPlusCurve CurveError := curve_new samples 0.

Definition from_token_bucket (burst rate : N) (horizon : nat) : MinPlusCurve :=
  mkCurve (map (λ t, saturating_add u64_MAX burst (saturating_mul u64_MAX rate (N.of_nat t)))
             (seq 0 (S horizon))) rate.

Definition from_rate_latency (rate : N) (latency horizon : nat) : MinPlusCurve :=
  mkCurve (map (λ t, if (t <=? latency)%nat then 0
                     else saturating_mul u64_MAX rate (N.of_nat (t - latency)))
             (seq 0 (S horizon))) rate.

(** ** Evaluation *)

Definition horizon (c : MinPlusCurve) : nat := (length (samples c) - 1)%nat.

(** [self.samples[i]]; out of range it would panic, which [curve_wf] excludes. *)
Definition sample (c : MinPlusCurve) (i : nat) : N := nth i (samples c) 0.

Definition value_at (c : MinPlusCurve) (t : nat) : N :=
  let h := horizon c in
  if (t <=? h)%nat then sample c t
  else saturating_add u64_MAX (sample c h)
         (saturating_mul u64_MAX (tail_rate c) (N.of_nat (t - h))).

(** ** Convolution *)

(** Inner loop: the best split of [t] among the candidates [ss]. *)
Fixpoint best_split (a b : MinPlusCurve) (t : nat) (ss : list nat) (best : N) : N :=
  match ss with
  | [] => best
  | s :: ss =>
      let sum := saturating_add u64_MAX (value_at a s) (value_at b (t - s)) in
      best_split a b t ss (if sum <? best then sum else best)
  end.

Definition min_plus_convolution (self other : MinPlusCurve) (horizon : nat) : MinPlusCurve :=
  mkCurve (map (λ t, best_split self other t (seq 0 (S t)) u64_MAX) (seq 0 (S horizon)))
    (N.min (tail_rate self) (tail_rate other)).

(** ** Admission bounds *)

Record CurveBudget := mkCurveBudget { arrival : MinPlusCurve; service : MinPlusCurve }.

Fixpoint backlog_loop (arrival service : MinPlusCurve) (ts : list nat) (worst : N) : N :=
  match ts with
  | [] => worst
  | t :: ts =>
      let backlog := saturating_sub (value_at arrival t) (value_at service t) in
      backlog_loop arrival service ts (if worst <? backlog then backlog else worst)
  end.

Definition backlog_bound (arrival service : MinPlusCurve) (horizon : nat) : N :=
  backlog_loop arrival service (seq 0 (S horizon)) 0.

(** The search for the smallest sufficient delay of one time. *)
Fixpoint find_delay (service : MinPlusCurve) (t : nat) (demand : N) (ds : list nat) : option nat :=
  match ds with
  | [] => None
  | d :: ds => if demand <=? value_at service (t + d) then Some d else find_delay service t demand ds
  end.

Fixpoint delay_loop (arrival service : MinPlusCurve) (max_delay : nat) (ts : list nat)
  (worst : nat) : option nat :=
  match ts with
  | [] => Some worst
  | t :: ts =>
      match find_delay service t (value_at arrival t) (seq 0 (S max_delay)) with
      | None => None
      | Some delay =>
          delay_loop arrival service max_delay ts (if (worst <? delay)%nat then delay else worst)
      end
  end.

Definition delay_bound (arrival service : MinPlusCurve) (horizon max_delay : nat) : option nat :=
  delay_loop arrival service max_delay (seq 0 (S horizon)) 0.

Definition curve_backlog_bound (c : CurveBudget) (horizon : nat) : N :=
  backlog_bound (arrival c) (service c) horizon.
Definition curve_delay_bound (c : CurveBudget) (horizon max_delay : nat) : option nat :=
  delay_bound (arrival c) (service c) horizon max_delay.

(** ** Well-formed curves *)

(** The promise of the type: at least one sample, nondecreasing, [u64] values. *)
Record curve_wf (c : MinPlusCurve) : Prop := {
  cw_nonempty : samples c ≠ [];
  cw_monotone : ∀ i, (S i < length (samples c))%nat → sample c i ≤ sample c (S i);
  cw_range : ∀ i, sample c i ≤ u64_MAX;
}.

Lemma check_samples_None idx prev rest :
  check_samples idx prev rest = None ↔
  ∀ i, (i < length rest)%nat → nth i (prev :: rest) 0 ≤ nth i rest 0.
Proof.
  revert idx prev. induction rest as [|x rest IH]; intros idx prev; simpl; [split; [lia|done]|].
  destruct (N.ltb_spec x prev) as [Hlt|Hle].
  - split; [done|]. intros H. specialize (H 0%nat). simpl in H. lia.
  - rewrite (IH (S idx) x). split.
    + intros H [|i] Hi; [done|]. apply H. lia.
    + intros H i Hi. apply (H (S i)). lia.
Qed.

Lemma check_samples_Some idx prev rest e :
  check_samples idx prev rest = Some e →
  ∃ k p n, e = NonMonotone (idx + k) p n ∧ (prev :: rest) !! k = Some p ∧ rest !! k = Some n ∧
    n < p ∧ ∀ i, (i < k)%nat → nth i (prev :: rest) 0 ≤ nth i rest 0.
Proof.
  revert idx prev. induction rest as [|x rest IH]; intros idx prev; simpl; [done|].
  destruct (N.ltb_spec x prev) as [Hlt|Hle].
  - intros [= <-]. exists 0%nat, prev, x. rewrite Nat.add_0_r. split_and!; try done. lia.
  - intros (k & p & n & -> & Hp & Hn & Hlt & Hmin)%IH. exists (S k), p, n.
    rewrite Nat.add_succ_r. split_and!; try done. intros [|i] Hi; [done|]. apply Hmin. lia.
Qed.

Lemma sample_map (f : nat → N) n i :
  (i < n)%nat → nth i (map f (seq 0 n)) 0 = f i.
Proof.
  intros Hi. rewrite (nth_indep _ 0 (f 0%nat)) by (by rewrite length_map, length_seq).
  rewrite map_nth, seq_nth by done. done.
Qed.

(** Curves built sample by sample from a monotone function. *)
Lemma curve_wf_map (f : nat → N) n r :
  (∀ t, (t < n)%nat → f t ≤ f (S t)) → (∀ t, f t ≤ u64_MAX) →
  curve_wf (mkCurve (map f (seq 0 (S n))) r).
Proof.
  intros Hm Hr. split; unfold sample; cbn [samples].
  - done.
  - intros i. rewrite length_map, length_seq. intros Hi.
    rewrite !(sample_map f (S n)) by lia. apply Hm. lia.
  - intros i. destruct (decide (i < S n)%nat).
    + by rewrite sample_map.
    + rewrite nth_overflow; [mlia|]. rewrite length_map, length_seq. lia.
Qed.

Lemma from_token_bucket_wf burst rate h : curve_wf (from_token_bucket burst rate h).
Proof. apply curve_wf_map; intros t; mlia || (intros; autounfold with machine; nia). Qed.

Lemma from_rate_latency_wf rate latency h : curve_wf (from_rate_latency rate latency h).
Proof.
  apply curve_wf_map; intros t.
  - intros _. destruct (Nat.leb_spec t latency), (Nat.leb_spec (S t) latency);
      autounfold with machine; nia.
  - destruct (t <=? latency)%nat; mlia.
Qed.

Lemma sample_mono c : curve_wf c → ∀ i j, (i ≤ j)%nat → (j < length (samples c))%nat →
  sample c i ≤ sample c j.
Proof.
  intros [_ Hm _] i j Hij. induction Hij as [|j Hij IH]; intros Hj; [done|].
  specialize (Hm j Hj). specialize (IH ltac:(lia)). lia.
Qed.

Lemma value_at_range c t : curve_wf c → value_at c t ≤ u64_MAX.
Proof. intros [_ _ Hr]. unfold value_at. destruct (t <=? _)%nat; [apply Hr|mlia]. Qed.

Lemma value_at_mono c i j : curve_wf c → (i ≤ j)%nat → value_at c i ≤ value_at c j.
Proof.
  intros Hwf Hij. pose proof Hwf as [Hne _ Hr]. unfold value_at, horizon.
  assert (length (samples c) ≠ 0%nat) by (by destruct (samples c)).
  destruct (Nat.leb_spec i (length (samples c) - 1)), (Nat.leb_spec j (length (samples c) - 1)).
  - apply sample_mono; [done|lia|lia].
  - pose proof (sample_mono c Hwf i (length (samples c) - 1) ltac:(lia) ltac:(lia)).
    specialize (Hr (length (samples c) - 1)%nat). specialize (Hr). mlia.
  - lia.
  - autounfold with machine. nia.
Qed.

(** ** Convolution *)

Lemma best_split_spec a b t ss best :
  best_split a b t ss best ≤ best ∧
  (∀ s, s ∈ ss → best_split a b t ss best ≤ saturating_add u64_MAX (value_at a s) (value_at b (t - s))) ∧
  (best_split a b t ss best = best ∨
   ∃ s, s ∈ ss ∧ best_split a b t ss best = saturating_add u64_MAX (value_at a s) (value_at b (t - s))).
Proof.
  revert best. induction ss as [|s ss IH]; intros best; simpl.
  - split_and!; [done| |by left]. by intros s ?%elem_of_nil.
  - set (sum := saturating_add u64_MAX (value_at a s) (value_at b (t - s))).
    destruct (IH (if sum <? best then sum else best)) as (Hle & Hall & Hex).
    destruct (N.ltb_spec sum best) as [Hlt|Hge].
    + split_and!; [lia| |].
      * intros s' [->|Hs']%elem_of_cons; [done|by apply Hall].
      * right. destruct Hex as [->|(s' & Hs' & ->)]; [exists s|exists s'];
          (split; [by constructor|done]).
    + split_and!; [lia| |].
      * intros s' [->|Hs']%elem_of_cons; [fold sum; lia|by apply Hall].
      * destruct Hex as [->|(s' & Hs' & ->)]; [by left|right; exists s'].
        split; [by constructor|done].
Qed.

(** Value of the convolution up to its horizon. *)
Lemma convolution_value a b h t : (t ≤ h)%nat →
  value_at (min_plus_convolution a b h) t = best_split a b t (seq 0 (S t)) u64_MAX.
Proof.
  intros Ht. unfold value_at, horizon, sample, min_plus_convolution. cbn [samples].
  rewrite length_map, length_seq.
  destruct (Nat.leb_spec t (S h - 1)); [|lia].
  by rewrite (sample_map (λ t, best_split a b t (seq 0 (S t)) u64_MAX) (S h)) by lia.
Qed.

Lemma elem_of_seq_0 s n : s ∈ seq 0 (S n) ↔ (s ≤ n)%nat.
Proof. rewrite elem_of_seq. lia. Qed.

Lemma convolution_is_inf a b t v :
  v = best_split a b t (seq 0 (S t)) u64_MAX ↔
  (∀ s, (s ≤ t)%nat → v ≤ saturating_add u64_MAX (value_at a s) (value_at b (t - s))) ∧
  ∃ s, (s ≤ t)%nat ∧ v = saturating_add u64_MAX (value_at a s) (value_at b (t - s)).
Proof.
  destruct (best_split_spec a b t (seq 0 (S t)) u64_MAX) as (Hle & Hall & Hex).
  setoid_rewrite elem_of_seq_0 in Hall. setoid_rewrite elem_of_seq_0 in Hex. split.
  - intros ->. split; [done|]. destruct Hex as [Heq|?]; [|done].
    exists 0%nat. split; [lia|]. specialize (Hall 0%nat ltac:(lia)). rewrite Heq in *.
    apply N.le_antisymm; [done|auto with machine].
  - intros [Hlb (s & Hs & ->)]. apply N.le_antisymm; [|by apply Hall].
    destruct Hex as [->|(s' & Hs' & ->)]; [auto with machine|by apply Hlb].
Qed.

Lemma convolution_mono a b t : curve_wf a → curve_wf b →
  best_split a b t (seq 0 (S t)) u64_MAX ≤ best_split a b (S t) (seq 0 (S (S t))) u64_MAX.
Proof.
  intros Ha Hb.
  destruct (proj1 (convolution_is_inf a b t _) eq_refl) as [Hlb _].
  destruct (proj1 (convolution_is_inf a b (S t) _) eq_refl) as [_ (s & Hs & ->)].
  destruct (decide (s ≤ t)%nat).
  - etrans; [apply (Hlb s); done|].
    apply saturating_add_mono; [done|]. apply value_at_mono; [done|lia].
  - etrans; [apply (Hlb t); done|]. replace s with (S t) by lia.
    rewrite !Nat.sub_diag. apply saturating_add_mono; [|done]. apply value_at_mono; [done|lia].
Qed.

(** [min_plus_convolution] computes the min-plus convolution: for every time
    up to the horizon its value is the least saturated sum
    [self(s) + other(t - s)] over the splits of [t], attained by some split, and
    the result of convolving two valid curves is again a valid
    (nondecreasing) curve. *)
Theorem min_plus_convolution_correct (a b : MinPlusCurve) (h : nat) :
  curve_wf a → curve_wf b →
  curve_wf (min_plus_convolution a b h) ∧
  ∀ t, (t ≤ h)%nat →
    (∀ s, (s ≤ t)%nat → value_at (min_plus_convolution a b h) t ≤
       saturating_add u64_MAX (value_at a s) (value_at b (t - s))) ∧
    ∃ s, (s ≤ t)%nat ∧ value_at (min_plus_convolution a b h) t =
       saturating_add u64_MAX (value_at a s) (value_at b (t - s)).
Proof.
  intros Ha Hb. split.
  - apply curve_wf_map; intros t.
    + intros _. by apply convolution_mono.
    + apply best_split_spec.
  - intros t Ht. apply convolution_is_inf. by apply convolution_value.
Qed.

Lemma min_plus_convolution_correct_witness :
  let a := from_token_bucket 3 2 4 in
  let b := from_rate_latency 5 1 4 in
  curve_wf a ∧ curve_wf b ∧ curve_wf (min_plus_convolution a b 4) ∧
  samples (min_plus_convolution a b 4) = [3; 3; 5; 7; 9].
Proof.
  intros a b. assert (Ha : curve_wf a) by apply from_token_bucket_wf.
  assert (Hb : curve_wf b) by apply from_rate_latency_wf.
  split; [exact Ha|]. split; [exact Hb|]. split; [|vm_compute; reflexivity].
  exact (proj1 (min_plus_convolution_correct a b 4 Ha Hb)).
Defined.

(** ** Validation *)

(** [MinPlusCurve::new] accepts exactly the nonempty nondecreasing sample
    vectors; otherwise it reports an empty vector or the first descent, with the
    two samples involved. *)
Theorem curve_new_correct (s : list N) (rate : N) :
  match curve_new s rate with
  | Ok c => c = mkCurve s rate ∧ s ≠ [] ∧
      ∀ i, (S i < length s)%nat → nth i s 0 ≤ nth (S i) s 0
  | Err EmptySamples => s = []
  | Err (NonMonotone idx p n) =>
      ∃ k, idx = S k ∧ s !! k = Some p ∧ s !! S k = Some n ∧ n < p ∧
        ∀ i, (i < k)%nat → nth i s 0 ≤ nth (S i) s 0
  end.
Proof.
  unfold curve_new. destruct s as [|x rest]; [done|].
  destruct (check_samples 1 x rest) as [e|] eqn:Hc.
  - apply check_samples_Some in Hc as (k & p & n & -> & Hp & Hn & Hlt & Hmin).
    exists k. split_and!; done.
  - split_and!; [done..|]. intros i Hi. simpl in Hi.
    apply (proj1 (check_samples_None _ _ _) Hc i). lia.
Qed.

(** ** Bounds *)

Lemma backlog_loop_spec ar sv ts worst :
  worst ≤ backlog_loop ar sv ts worst ∧
  (∀ t, t ∈ ts → value_at ar t - value_at sv t ≤ backlog_loop ar sv ts worst) ∧
  (backlog_loop ar sv ts worst = worst ∨
   ∃ t, t ∈ ts ∧ backlog_loop ar sv ts worst = value_at ar t - value_at sv t).
Proof.
  revert worst. induction ts as [|t ts IH]; intros worst; simpl.
  - split_and!; [done| |by left]. by intros t ?%elem_of_nil.
  - unfold saturating_sub. set (bl := value_at ar t - value_at sv t).
    destruct (IH (if worst <? bl then bl else worst)) as (Hle & Hall & Hex).
    destruct (N.ltb_spec worst bl).
    + split_and!; [lia| |].
      * intros s' [->|Hs']%elem_of_cons; [done|by apply Hall].
      * right. destruct Hex as [->|(s' & Hs' & ->)]; [exists t|exists s'];
          (split; [by constructor|done]).
    + split_and!; [lia| |].
      * intros s' [->|Hs']%elem_of_cons; [fold bl; lia|by apply Hall].
      * destruct Hex as [->|(s' & Hs' & ->)]; [by left|right; exists s'].
        split; [by constructor|done].
Qed.

Lemma find_delay_spec sv t demand ds :
  match find_delay sv t demand ds with
  | Some d => d ∈ ds ∧ demand ≤ value_at sv (t + d)
  | None => ∀ d, d ∈ ds → value_at sv (t + d) < demand
  end.
Proof.
  induction ds as [|d ds IH]; simpl; [by intros d ?%elem_of_nil|].
  destruct (N.leb_spec demand (value_at sv (t + d))) as [Hle|Hlt].
  - split; [by left|done].
  - destruct (find_delay sv t demand ds).
    + destruct IH. split; [by right|done].
    + intros d' [->|Hd']%elem_of_cons; [done|by apply IH].
Qed.

(** The delay found is the least one, candidates being tried in order. *)
Lemma find_delay_least sv t demand k n d :
  find_delay sv t demand (seq k n) = Some d → ∀ d', (k ≤ d' < d)%nat → value_at sv (t + d') < demand.
Proof.
  revert k. induction n as [|n IH]; intros k; simpl; [done|].
  destruct (N.leb_spec demand (value_at sv (t + k))) as [Hle|Hlt].
  - intros [= <-] d' ?. lia.
  - intros Hf d' ?. destruct (decide (d' = k)) as [->|]; [done|]. eapply IH; [done|lia].
Qed.

Lemma delay_loop_spec ar sv m ts worst :
  match delay_loop ar sv m ts worst with
  | Some d => (worst ≤ d)%nat ∧
      (∀ t, t ∈ ts → ∃ dt, (dt ≤ d)%nat ∧ value_at ar t ≤ value_at sv (t + dt)) ∧
      (d = worst ∨ ∃ t, t ∈ ts ∧ (d ≤ m)%nat ∧ ∀ d', (d' < d)%nat → value_at sv (t + d') < value_at ar t)
  | None => ∃ t, t ∈ ts ∧ ∀ d, (d ≤ m)%nat → value_at sv (t + d) < value_at ar t
  end.
Proof.
  revert worst. induction ts as [|t ts IH]; intros worst; cbn [delay_loop].
  - split_and!; [done| |by left]. by intros t ?%elem_of_nil.
  - pose proof (find_delay_spec sv t (value_at ar t) (seq 0 (S m))) as Hf.
    destruct (find_delay sv t _ _) as [dt|] eqn:Hfd.
    2: { exists t. split; [by left|]. intros d Hd. apply Hf. by apply elem_of_seq_0. }
    rewrite elem_of_seq_0 in Hf. destruct Hf as [Hm Hdt].
    pose proof (find_delay_least _ _ _ _ _ _ Hfd) as Hleast.
    specialize (IH (if (worst <? dt)%nat then dt else worst)).
    destruct (delay_loop ar sv m ts _) as [d|].
    + destruct IH as (Hle & Hall & Hex).
      destruct (Nat.ltb_spec worst dt); (split_and!; [lia| |]).
      1, 3: intros t' [->|Ht']%elem_of_cons; [exists dt; split; [lia|done]|by apply Hall].
      * right. destruct Hex as [->|(t' & Ht' & Hd)]; [exists t|exists t'].
        -- split_and!; [by left|done|]. intros d' ?. apply Hleast. lia.
        -- split; [by right|done].
      * destruct Hex as [->|(t' & Ht' & Hd)]; [by left|right]. exists t'. split; [by right|done].
    + destruct IH as (t' & Ht' & Hd). exists t'. split; [by right|done].
Qed.

(** [delay_bound] and [backlog_bound] are exact over the horizon: a returned
    delay [d] satisfies [arrival(t) <= service(t + d)] for every [t] up to the
    horizon and no smaller delay does, [None] means that some time needs more
    than [max_delay], and the backlog is the largest deficit of the horizon. *)
Theorem curve_bounds_exact (ar sv : MinPlusCurve) (h m : nat) : curve_wf sv →
  match delay_bound ar sv h m with
  | Some d => (d ≤ m)%nat ∧
      (∀ t, (t ≤ h)%nat → value_at ar t ≤ value_at sv (t + d)) ∧
      (∀ d', (d' < d)%nat → ∃ t, (t ≤ h)%nat ∧ value_at sv (t + d') < value_at ar t)
  | None => ∃ t, (t ≤ h)%nat ∧ ∀ d, (d ≤ m)%nat → value_at sv (t + d) < value_at ar t
  end ∧
  (∀ t, (t ≤ h)%nat → value_at ar t ≤ value_at sv t + backlog_bound ar sv h) ∧
  (∃ t, (t ≤ h)%nat ∧ backlog_bound ar sv h = value_at ar t - value_at sv t).
Proof.
  intros Hsv. split_and!.
  - unfold delay_bound. pose proof (delay_loop_spec ar sv m (seq 0 (S h)) 0) as Hd.
    destruct (delay_loop ar sv m _ 0) as [d|].
    + setoid_rewrite elem_of_seq_0 in Hd. destruct Hd as (_ & Hall & Hex). split_and!.
      * destruct Hex as [->|(t & _ & ? & _)]; [lia|done].
      * intros t Ht. destruct (Hall t Ht) as (dt & Hdt & Hv). etrans; [done|].
        apply value_at_mono; [done|lia].
      * intros d' Hd'. destruct Hex as [->|(t & Ht & _ & Hlt)]; [lia|]. exists t. eauto.
    + setoid_rewrite elem_of_seq_0 in Hd. done.
  - intros t Ht. destruct (backlog_loop_spec ar sv (seq 0 (S h)) 0) as (_ & Hall & _).
    setoid_rewrite elem_of_seq_0 in Hall. specialize (Hall t Ht). unfold backlog_bound. lia.
  - unfold backlog_bound. destruct (backlog_loop_spec ar sv (seq 0 (S h)) 0) as (_ & Hall & Hex).
    setoid_rewrite elem_of_seq_0 in Hall. setoid_rewrite elem_of_seq_0 in Hex.
    destruct Hex as [Heq|?]; [|done]. exists 0%nat. split; [lia|].
    specialize (Hall 0%nat ltac:(lia)). rewrite Heq in *. lia.
Qed.

Lemma curve_bounds_exact_witness :
  let ar := from_token_bucket 3 1 6 in
  let sv := from_rate_latency 2 2 6 in
  curve_wf sv ∧ delay_bound ar sv 6 10 = Some 4%nat ∧ backlog_bound ar sv 6 = 5 ∧
  (4 ≤ 10)%nat.
Proof.
  intros ar sv. assert (Hsv : curve_wf sv) by apply from_rate_latency_wf.
  assert (Hd : delay_bound ar sv 6 10 = Some 4%nat) by (vm_compute; reflexivity).
  split; [exact Hsv|]. split; [exact Hd|]. split; [vm_compute; reflexivity|].
  pose proof (curve_bounds_exact ar sv 6 10 Hsv) as [H _]. rewrite Hd in H. exact (proj1 H).
Defined.

(** The bound says nothing beyond the horizon: with a service of rate 1 and
    demand of rate 2 the delay bound for horizon 0 is 0, and one step later
    demand exceeds supply. *)
Lemma delay_bound_horizon_only :
  let ar := mkCurve [0] 2 in
  let sv := mkCurve [0] 1 in
  curve_wf ar ∧ curve_wf sv ∧ delay_bound ar sv 0 10 = Some 0%nat ∧ value_at sv (1 + 0) < value_at ar 1.
Proof.
  assert (H : ∀ r, curve_wf (mkCurve [0] r)).
  { intros r. split; [done| |].
    - intros i. simpl. lia.
    - intros i. unfold sample; simpl. destruct i as [|[|i]]; mlia. }
  split_and!; [apply H|apply H|reflexivity|vm_compute; reflexivity].
Qed.
