(* ===== verification/Cancel.v ===== *)
(** * Cancellation reasons

    Models [src/types/cancel.rs]: [CancelKind] with its severities,
    [CancelReason] with its cause chain, the limited attribution of causes,
    [strengthen], the cleanup budgets, and [CancelWitness] validation.
    Deserialization limits and [Display] are left out. *)

From S2P Require Import Prelude Ids Budget.

(** ** Attribution limits *)

Record CancelAttributionConfig := mkAttributionConfig {
  max_chain_depth : N;
  max_chain_memory : N;
}.

Definition DEFAULT_MAX_DEPTH : N := 16.
Definition DEFAULT_MAX_MEMORY : N := 4096.
Definition attribution_unlimited : CancelAttributionConfig := mkAttributionConfig usize_MAX usize_MAX.
Definition attribution_default : CancelAttributionConfig :=
  mkAttributionConfig DEFAULT_MAX_DEPTH DEFAULT_MAX_MEMORY.
Definition single_reason_cost : N := 80.
Definition estimated_chain_cost (depth : N) : N :=
  if depth =? 0 then 0 else single_reason_cost * depth + 8 * saturating_sub depth 1.

(** ** Kinds *)

Module CancelKind.

Inductive t :=
| User | Timeout | Deadline | PollQuota | CostBudget | FailFast | RaceLost
| ParentCancelled | ResourceUnavailable | Shutdown | LinkedExit.

#[global] Instance t_eq_dec : EqDecision t.
Proof. solve_decision. Defined.

Definition severity (k : t) : N :=
  match k with
  | User => 0
  | Timeout | Deadline => 1
  | PollQuota | CostBudget => 2
  | FailFast | RaceLost | LinkedExit => 3
  | ParentCancelled | ResourceUnavailable => 4
  | Shutdown => 5
  end.

End CancelKind.

(** ** Reasons *)

#[warnings="-register-all"]
Inductive CancelReason := mkCancelReason {
  kind : CancelKind.t;
  origin_region : RegionId;
  origin_task : option TaskId;
  timestamp : Time.t;
  message : option string;
  cause : option CancelReason;
  truncated : bool;
  truncated_at_depth : option N;
}.

Definition with_origin (k : CancelKind.t) (region : RegionId) (ts : Time.t) : CancelReason :=
  mkCancelReason k region None ts None None false None.

Definition reason_new (k : CancelKind.t) : CancelReason :=
  mkCancelReason k RegionId_testing_default None Time.ZERO None None false None.

Definition reason_user (msg : string) : CancelReason :=
  mkCancelReason CancelKind.User RegionId_testing_default None Time.ZERO (Some msg) None false None.

(** The constructors generated by [cancel_reason_constructors!]. *)
Definition reason_timeout : CancelReason := reason_new CancelKind.Timeout.
Definition reason_deadline : CancelReason := reason_new CancelKind.Deadline.
Definition reason_poll_quota : CancelReason := reason_new CancelKind.PollQuota.
Definition reason_cost_budget : CancelReason := reason_new CancelKind.CostBudget.
Definition sibling_failed : CancelReason := reason_new CancelKind.FailFast.
Definition race_loser : CancelReason := reason_new CancelKind.RaceLost.
Definition parent_cancelled : CancelReason := reason_new CancelKind.ParentCancelled.
Definition resource_unavailable : CancelReason := reason_new CancelKind.ResourceUnavailable.
Definition reason_shutdown : CancelReason := reason_new CancelKind.Shutdown.
Definition linked_exit : CancelReason := reason_new CancelKind.LinkedExit.

Definition with_task (r : CancelReason) (task : TaskId) : CancelReason :=
  mkCancelReason (kind r) (origin_region r) (Some task) (timestamp r) (message r) (cause r)
    (truncated r) (truncated_at_depth r).
Definition with_message (r : CancelReason) (msg : string) : CancelReason :=
  mkCancelReason (kind r) (origin_region r) (origin_task r) (timestamp r) (Some msg) (cause r)
    (truncated r) (truncated_at_depth r).
Definition with_cause (r c : CancelReason) : CancelReason :=
  mkCancelReason (kind r) (origin_region r) (origin_task r) (timestamp r) (message r) (Some c)
    (truncated r) (truncated_at_depth r).
Definition with_timestamp (r : CancelReason) (ts : Time.t) : CancelReason :=
  mkCancelReason (kind r) (origin_region r) (origin_task r) ts (message r) (cause r)
    (truncated r) (truncated_at_depth r).
Definition with_region (r : CancelReason) (region : RegionId) : CancelReason :=
  mkCancelReason (kind r) region (origin_task r) (timestamp r) (message r) (cause r)
    (truncated r) (truncated_at_depth r).

(** Assignments to [cause], [truncated] and [truncated_at_depth]. *)
Definition set_chain (r : CancelReason) (c : option CancelReason) (t : bool) (d : option N)
  : CancelReason :=
  mkCancelReason (kind r) (origin_region r) (origin_task r) (timestamp r) (message r) c t d.

(** ** Cause chains *)

Fixpoint chain (r : CancelReason) : list CancelReason :=
  r :: match cause r with Some c => chain c | None => [] end.

Definition chain_depth (r : CancelReason) : N := N.of_nat (length (chain r)).

Fixpoint root_cause (r : CancelReason) : CancelReason :=
  match cause r with Some c => root_cause c | None => r end.

Definition any_cause_is (r : CancelReason) (k : CancelKind.t) : bool :=
  existsb (λ c, bool_decide (kind c = k)) (chain r).

Definition any_truncated (r : CancelReason) : bool := existsb truncated (chain r).

Definition estimated_memory_cost (r : CancelReason) : N := estimated_chain_cost (chain_depth r).

Fixpoint truncate_chain (reason : CancelReason) (max_depth : N) : CancelReason :=
  if max_depth =? 0 then set_chain reason None true (Some 0)
  else
    match cause reason with
    | None => set_chain reason None false (truncated_at_depth reason)
    | Some c =>
        if max_depth =? 1 then set_chain reason None true (Some 1)
        else set_chain reason (Some (truncate_chain c (max_depth - 1)))
               (truncated reason) (truncated_at_depth reason)
    end.

(** The loop that finds how many cause levels fit in the memory limit; it runs
    at most [fuel] times, with [fuel] the depth of the cause chain. *)
Fixpoint memory_depth (max_memory cause_depth : N) (fuel : nat) (allowed_depth : N) : N :=
  match fuel with
  | O => allowed_depth
  | S fuel =>
      if (estimated_chain_cost (1 + allowed_depth + 1) <=? max_memory)
         && (allowed_depth <? cause_depth)
      then memory_depth max_memory cause_depth fuel (allowed_depth + 1)
      else allowed_depth
  end.

(** The three ways [with_cause_limited] ends. *)
Definition no_room (self : CancelReason) : CancelReason :=
  set_chain self (cause self) true (Some 1).
Definition with_truncated_cause (self c : CancelReason) (allowed : N) : CancelReason :=
  set_chain self (Some (truncate_chain c allowed)) true (Some (1 + allowed)).

Definition with_cause_limited (self c : CancelReason) (config : CancelAttributionConfig)
  : CancelReason :=
  let cause_depth := chain_depth c in
  let total_depth := 1 + cause_depth in
  if max_chain_depth config <? total_depth then
    let allowed_cause_depth := saturating_sub (max_chain_depth config) 1 in
    if allowed_cause_depth =? 0 then no_room self
    else with_truncated_cause self c allowed_cause_depth
  else if max_chain_memory config <? estimated_chain_cost total_depth then
    let allowed_depth :=
      memory_depth (max_chain_memory config) cause_depth (N.to_nat cause_depth) 0 in
    if allowed_depth =? 0 then no_room self
    else with_truncated_cause self c allowed_depth
  else with_cause self c.

(** ** Severity and strengthening *)

Definition severity (r : CancelReason) : N := CancelKind.severity (kind r).

Definition is_kind (r : CancelReason) (k : CancelKind.t) : bool :=
  match kind r, k with
  | CancelKind.User, CancelKind.User
  | CancelKind.Timeout, CancelKind.Timeout
  | CancelKind.Deadline, CancelKind.Deadline
  | CancelKind.PollQuota, CancelKind.PollQuota
  | CancelKind.CostBudget, CancelKind.CostBudget
  | CancelKind.FailFast, CancelKind.FailFast
  | CancelKind.RaceLost, CancelKind.RaceLost
  | CancelKind.ParentCancelled, CancelKind.ParentCancelled
  | CancelKind.ResourceUnavailable, CancelKind.ResourceUnavailable
  | CancelKind.LinkedExit, CancelKind.LinkedExit
  | CancelKind.Shutdown, CancelKind.Shutdown => true
  | _, _ => false
  end.

Definition is_shutdown (r : CancelReason) : bool :=
  match kind r with CancelKind.Shutdown => true | _ => false end.
Definition is_budget_exceeded (r : CancelReason) : bool :=
  match kind r with
  | CancelKind.Deadline | CancelKind.PollQuota | CancelKind.CostBudget => true
  | _ => false
  end.
Definition is_time_exceeded (r : CancelReason) : bool :=
  match kind r with CancelKind.Timeout | CancelKind.Deadline => true | _ => false end.

(** The field-by-field copy in [strengthen]. *)
Definition assign_from (self other : CancelReason) : CancelReason :=
  mkCancelReason (kind other) (origin_region other) (origin_task other) (timestamp other)
    (message other) (cause other) (truncated other) (truncated_at_depth other).

Definition message_replaces (current candidate : option string) : bool :=
  match current, candidate with
  | None, Some _ => true
  | Some cur, Some cand => String.ltb cand cur
  | _, _ => false
  end.

(** [strengthen]: the reason afterwards and whether it changed. *)
Definition strengthen (self other : CancelReason) : CancelReason * bool :=
  if severity self <? severity other then (assign_from self other, true)
  else if severity other <? severity self then (self, false)
  else if timestamp other <? timestamp self then (assign_from self other, true)
  else if timestamp self <? timestamp other then (self, false)
  else
    let should_replace := message_replaces (message self) (message other) in
    (if should_replace then assign_from self other else self, should_replace).

Definition strengthened (self other : CancelReason) : CancelReason := (strengthen self other).1.

(** ** Cleanup budgets *)

Definition cleanup_budget_of (r : CancelReason) : Budget :=
  match kind r with
  | CancelKind.User => with_priority (with_poll_quota budget_new 1000) 200
  | CancelKind.Timeout | CancelKind.Deadline =>
      with_priority (with_poll_quota budget_new 500) 210
  | CancelKind.PollQuota | CancelKind.CostBudget =>
      with_priority (with_poll_quota budget_new 300) 215
  | CancelKind.FailFast | CancelKind.RaceLost | CancelKind.ParentCancelled
  | CancelKind.ResourceUnavailable | CancelKind.LinkedExit =>
      with_priority (with_poll_quota budget_new 200) 220
  | CancelKind.Shutdown => with_priority (with_poll_quota budget_new 50) 255
  end.

(** ** Witnesses of the cancellation protocol *)

Module CancelPhase.

Inductive t := Requested | Cancelling | Finalizing | Completed.

Definition rank (p : t) : N :=
  match p with Requested => 0 | Cancelling => 1 | Finalizing => 2 | Completed => 3 end.

End CancelPhase.

Record CancelWitness := mkCancelWitness {
  w_task_id : TaskId;
  w_region_id : RegionId;
  w_epoch : N;
  w_phase : CancelPhase.t;
  w_reason : CancelReason;
}.

Inductive CancelWitnessError :=
| InitialEpochZero
| TaskMismatch
| RegionMismatch
| EpochMismatch
| PhaseRegression (from to : CancelPhase.t)
| ReasonWeakened (from to : CancelKind.t).

Definition validate_initial (w : CancelWitness) : result () CancelWitnessError :=
  if w_epoch w =? 0 then Err InitialEpochZero else Ok ().

Definition validate_transition (prev : option CancelWitness) (next : CancelWitness)
  : result () CancelWitnessError :=
  match prev with
  | None => Ok ()
  | Some prev =>
      if bool_decide (w_task_id prev ≠ w_task_id next) then Err TaskMismatch
      else if bool_decide (w_region_id prev ≠ w_region_id next) then Err RegionMismatch
      else if negb (w_epoch prev =? w_epoch next) then Err EpochMismatch
      else if CancelPhase.rank (w_phase next) <? CancelPhase.rank (w_phase prev)
      then Err (PhaseRegression (w_phase prev) (w_phase next))
      else if severity (w_reason next) <? severity (w_reason prev)
      then Err (ReasonWeakened (kind (w_reason prev)) (kind (w_reason next)))
      else Ok ()
  end.

(** ** Cause chains *)

(** Induction along the cause chain. *)
Lemma CancelReason_chain_ind (P : CancelReason → Prop) :
  (∀ r, cause r = None → P r) → (∀ r c, cause r = Some c → P c → P r) → ∀ r, P r.
Proof.
  intros Hnone Hsome. fix IH 1. intros r. destruct (cause r) as [c|] eqn:Hc.
  - apply (Hsome r c Hc). destruct r as [k g t ts m [c'|] tr d]; [|done].
    simpl in Hc. injection Hc as <-. apply IH.
  - by apply Hnone.
Qed.

Lemma chain_unfold r : chain r = r :: match cause r with Some c => chain c | None => [] end.
Proof. by destruct r. Qed.

Lemma chain_depth_unfold r :
  chain_depth r = 1 + match cause r with Some c => chain_depth c | None => 0 end.
Proof. unfold chain_depth. rewrite chain_unfold. destruct (cause r); simpl; lia. Qed.

Lemma chain_depth_pos r : 1 ≤ chain_depth r.
Proof. rewrite chain_depth_unfold. lia. Qed.

Lemma truncate_chain_unfold r n :
  truncate_chain r n =
  if n =? 0 then set_chain r None true (Some 0)
  else match cause r with
       | None => set_chain r None false (truncated_at_depth r)
       | Some c => if n =? 1 then set_chain r None true (Some 1)
                   else set_chain r (Some (truncate_chain c (n - 1))) (truncated r) (truncated_at_depth r)
       end.
Proof. by destruct r. Qed.

(** What identifies a link of the chain, apart from the bookkeeping of
    truncation. *)
Definition attribution (r : CancelReason) :
  CancelKind.t * RegionId * option TaskId * Time.t * option string :=
  (kind r, origin_region r, origin_task r, timestamp r, message r).

Lemma attribution_set_chain r c t d : attribution (set_chain r c t d) = attribution r.
Proof. done. Qed.

(** Truncation keeps the first [n] links. *)
Lemma truncate_chain_prefix r n : 1 ≤ n →
  attribution <$> chain (truncate_chain r n) = take (N.to_nat n) (attribution <$> chain r).
Proof.
  revert n. induction r as [r Hr|r c Hc IH] using CancelReason_chain_ind; intros n Hn.
  - rewrite truncate_chain_unfold, Hr. destruct (N.eqb_spec n 0); [lia|].
    rewrite !chain_unfold, Hr. simpl. rewrite attribution_set_chain.
    destruct (N.to_nat n) eqn:E; [lia|]. simpl. by rewrite take_nil.
  - rewrite truncate_chain_unfold, Hc. destruct (N.eqb_spec n 0); [lia|].
    destruct (N.eqb_spec n 1) as [->|Hn1].
    + rewrite !chain_unfold, Hc. simpl. by rewrite attribution_set_chain.
    + rewrite chain_unfold, (chain_unfold r), Hc. simpl. rewrite attribution_set_chain.
      rewrite IH by lia.
      replace (N.to_nat n) with (S (N.to_nat (n - 1))) by lia. done.
Qed.

Lemma truncate_chain_depth r n : 1 ≤ n →
  chain_depth (truncate_chain r n) = N.min n (chain_depth r).
Proof.
  intros Hn. apply (truncate_chain_prefix r) in Hn.
  apply (f_equal length) in Hn. rewrite length_take, !length_fmap in Hn.
  unfold chain_depth. lia.
Qed.

Lemma estimated_chain_cost_mono a b : a ≤ b → estimated_chain_cost a ≤ estimated_chain_cost b.
Proof.
  unfold estimated_chain_cost, saturating_sub, single_reason_cost.
  destruct (N.eqb_spec a 0), (N.eqb_spec b 0); lia.
Qed.

(** The memory loop stops at the largest depth that fits. *)
Lemma memory_depth_spec mem cd fuel a :
  cd ≤ a + N.of_nat fuel → a ≤ cd →
  (a = 0 ∨ estimated_chain_cost (1 + a) ≤ mem) →
  let r := memory_depth mem cd fuel a in
  a ≤ r ∧ r ≤ cd ∧ (r = 0 ∨ estimated_chain_cost (1 + r) ≤ mem) ∧
  (r = cd ∨ mem < estimated_chain_cost (1 + r + 1)).
Proof.
  revert a. induction fuel as [|fuel IH]; intros a Hf Ha Hm; simpl.
  - split_and!; [lia|lia|done|left; lia].
  - destruct (N.leb_spec (estimated_chain_cost (1 + a + 1)) mem) as [Hle|Hgt]; simpl.
    + destruct (N.ltb_spec a cd).
      * destruct (IH (a + 1)) as (? & ? & ? & ?); [lia|lia| |].
        { right. by replace (1 + (a + 1)) with (1 + a + 1) by lia. }
        split_and!; [lia|done..].
      * split_and!; [lia|lia|done|left; lia].
    + split_and!; [lia|lia|done|by right].
Qed.

Lemma with_truncated_cause_depth self c n : 1 ≤ n →
  chain_depth (with_truncated_cause self c n) = 1 + N.min n (chain_depth c).
Proof. intros Hn. rewrite chain_depth_unfold. simpl. by rewrite truncate_chain_depth. Qed.

Lemma chain_with_truncated_cause self c n : 1 ≤ n →
  attribution <$> chain (with_truncated_cause self c n) =
  attribution self :: take (N.to_nat n) (attribution <$> chain c).
Proof. intros Hn. rewrite chain_unfold. simpl. by rewrite truncate_chain_prefix. Qed.

(** A result [r] that consists of the reason and the first [n] links of the
    cause chain, with a mark when links are missing. *)
Record limited_chain (self c r : CancelReason) (n : N) : Prop := {
  lc_depth : chain_depth r = 1 + n;
  lc_le : n ≤ chain_depth c;
  lc_links : attribution <$> chain r =
    attribution self :: take (N.to_nat n) (attribution <$> chain c);
  lc_mark : truncated r = true ↔ truncated self = true ∨ n < chain_depth c;
}.

Lemma limited_no_room self c : cause self = None → limited_chain self c (no_room self) 0.
Proof.
  intros Hs. pose proof (chain_depth_pos c). unfold no_room. rewrite Hs.
  split; [done|lia|done|]. simpl. split; [right; lia|done].
Qed.

Lemma limited_truncated self c n :
  1 ≤ n → n < chain_depth c → limited_chain self c (with_truncated_cause self c n) n.
Proof.
  intros Hn Hc. split.
  - rewrite with_truncated_cause_depth by done. lia.
  - lia.
  - by apply chain_with_truncated_cause.
  - simpl. split; [by right|done].
Qed.

Lemma limited_full self c : limited_chain self c (with_cause self c) (chain_depth c).
Proof.
  split.
  - by rewrite chain_depth_unfold.
  - done.
  - rewrite chain_unfold. simpl. rewrite take_ge; [done|].
    rewrite length_fmap. unfold chain_depth. lia.
  - simpl. split; [by left|]. intros [?|?]; [done|lia].
Qed.

(** Attribution chains stay within their limits: for a reason without a
    cause, [with_cause_limited] returns the reason followed by a prefix of the
    cause chain; the depth limit holds (a lone reason apart), the memory limit
    holds unless the depth limit did the truncation, the prefix is as long as
    the limits allow, and the result is marked truncated exactly when links
    were dropped or the reason was marked before. *)
Theorem with_cause_limited_bounded (self c : CancelReason) (config : CancelAttributionConfig) :
  cause self = None →
  ∃ n, limited_chain self c (with_cause_limited self c config) n ∧
    (n = 0 ∨ 1 + n ≤ max_chain_depth config) ∧
    (1 + chain_depth c ≤ max_chain_depth config →
       n = 0 ∨ estimated_chain_cost (1 + n) ≤ max_chain_memory config) ∧
    (n = chain_depth c ∨ max_chain_depth config < 1 + n + 1 ∨
       max_chain_memory config < estimated_chain_cost (1 + n + 1)).
Proof.
  intros Hself. pose proof (chain_depth_pos c) as Hc. unfold with_cause_limited, saturating_sub.
  destruct (N.ltb_spec (max_chain_depth config) (1 + chain_depth c)) as [Hd|Hd].
  - destruct (N.eqb_spec (max_chain_depth config - 1) 0) as [H0|H0].
    + exists 0. split; [by apply limited_no_room|]. split_and!; [by left|by left|right; left; lia].
    + exists (max_chain_depth config - 1). split; [apply limited_truncated; lia|].
      split_and!; [right; lia|lia|right; left; lia].
  - destruct (N.ltb_spec (max_chain_memory config) (estimated_chain_cost (1 + chain_depth c))) as [Hm|Hm].
    + pose proof (memory_depth_spec (max_chain_memory config) (chain_depth c)
        (N.to_nat (chain_depth c)) 0 ltac:(lia) ltac:(lia) ltac:(by left)) as Hmd. simpl in Hmd.
      set (n := memory_depth _ _ _ 0) in *. destruct Hmd as (_ & Hn & Hfit & Hmax).
      assert (n < chain_depth c).
      { destruct (decide (n = chain_depth c)) as [E|]; [|lia].
        rewrite E in Hfit. destruct Hfit; [lia|]. lia. }
      exists n. destruct (N.eqb_spec n 0) as [H0|H0].
      * rewrite H0. split; [by apply limited_no_room|].
        split_and!; [by left|by left|right; right]. rewrite <-H0. destruct Hmax; [lia|done].
      * split; [apply limited_truncated; lia|].
        split_and!; [right; lia|done|right; right]. destruct Hmax; [lia|done].
    + exists (chain_depth c). split; [apply limited_full|].
      split_and!; [right; lia|by right|by left].
Qed.

(** A chain of [n + 1] equal reasons. *)
Fixpoint deep_chain (n : nat) : CancelReason :=
  match n with O => reason_timeout | S n => with_cause reason_timeout (deep_chain n) end.

Lemma with_cause_limited_bounded_witness :
  ∃ n, limited_chain reason_shutdown (deep_chain 9)
      (with_cause_limited reason_shutdown (deep_chain 9) (mkAttributionConfig 16 300)) n ∧
    (n = 0 ∨ 1 + n ≤ 16).
Proof.
  destruct (with_cause_limited_bounded reason_shutdown (deep_chain 9) (mkAttributionConfig 16 300) eq_refl)
    as (n & Hl & Hd & _).
  exists n. split; [exact Hl|exact Hd].
Defined.

(** The memory limit is not enforced on chains that exceed the depth limit:
    they are cut to the maximal depth whatever that depth costs.  Here the
    limits are depth 4 and 100 bytes, and the result is four reasons deep at an
    estimated 344 bytes. *)
Theorem with_cause_limited_skips_memory :
  let config := mkAttributionConfig 4 100 in
  let r := with_cause_limited reason_shutdown (deep_chain 9) config in
  chain_depth r = 4 ∧ max_chain_memory config < estimated_memory_cost r.
Proof. vm_compute. done. Qed.

(** When no cause level fits, [with_cause_limited] keeps the cause the reason
    already had, so the result can exceed the depth limit, although the depth is
    computed as if the old cause were replaced. *)
Theorem with_cause_limited_keeps_old_cause :
  let config := mkAttributionConfig 1 4096 in
  let self := with_cause reason_shutdown (deep_chain 4) in
  let r := with_cause_limited self reason_timeout config in
  cause r = cause self ∧ chain_depth r = 6 ∧ truncated r = true ∧ truncated_at_depth r = Some 1.
Proof. vm_compute. done. Qed.

(** ** Strengthening is a left-biased maximum *)

Lemma assign_from_eq self other : assign_from self other = other.
Proof. by destruct other. Qed.

(** [msg_le a b]: message [b] is preferred to [a] or they are equal; any message
    is preferred to none, a smaller one to a larger one. *)
Definition msg_le (a b : option string) : Prop :=
  match a, b with
  | None, _ => True
  | Some _, None => False
  | Some x, Some y => String.le y x
  end.

(** [weaker a b]: [b] is at least as strong as [a]. *)
Definition weaker (a b : CancelReason) : Prop :=
  severity a < severity b ∨
  (severity a = severity b ∧
   (timestamp b < timestamp a ∨ (timestamp a = timestamp b ∧ msg_le (message a) (message b)))).

(** The data the comparison looks at. *)
Definition strength (r : CancelReason) : N * Time.t * option string :=
  (severity r, timestamp r, message r).

Lemma ltb_leb x y : String.ltb x y = negb (String.leb y x).
Proof.
  unfold String.ltb, String.leb. rewrite (String.compare_antisym y x).
  by destruct (String.compare x y).
Qed.

Lemma message_replaces_spec a b :
  (message_replaces a b = true ∧ ¬ msg_le b a) ∨ (message_replaces a b = false ∧ msg_le b a).
Proof.
  destruct a as [x|], b as [y|]; simpl; try tauto.
  rewrite ltb_leb. unfold String.le. destruct (String.leb x y); simpl; tauto.
Qed.

#[global] Instance msg_le_total : Total msg_le.
Proof. intros [x|] [y|]; simpl; try tauto. apply (total String.le). Qed.

#[global] Instance msg_le_po : PartialOrder msg_le.
Proof.
  split; [split|].
  - intros [x|]; simpl; [reflexivity|done].
  - intros [x|] [y|] [z|]; simpl; try done. intros H1 H2. by transitivity y.
  - intros [x|] [y|]; simpl; try done. intros H1 H2. f_equal. by apply (anti_symm String.le).
Qed.

#[global] Instance weaker_preorder : PreOrder weaker.
Proof.
  split.
  - intros r. right. split; [done|]. right. done.
  - intros a b c [H1|(E1 & H1)] [H2|(E2 & H2)]; unfold weaker.
    + left. lia.
    + left. lia.
    + left. lia.
    + right. split; [congruence|].
      destruct H1 as [H1|(T1 & M1)], H2 as [H2|(T2 & M2)].
      * left. lia.
      * left. lia.
      * left. lia.
      * right. split; [congruence|by etrans].
Qed.

#[global] Instance weaker_total : Total weaker.
Proof.
  intros a b. unfold weaker.
  destruct (N.lt_trichotomy (severity a) (severity b)) as [?|[?|?]]; [by left; left| |by right; left].
  destruct (N.lt_trichotomy (timestamp a) (timestamp b)) as [?|[?|?]].
  - right. right. split; [done|by left].
  - destruct (total msg_le (message a) (message b)).
    + left. right. auto.
    + right. right. auto.
  - left. right. split; [done|by left].
Qed.

Lemma weaker_antisymm a b : weaker a b → weaker b a → strength a = strength b.
Proof.
  unfold strength.
  intros [H1|(E1 & [H1|(T1 & M1)])] [H2|(E2 & [H2|(T2 & M2)])]; try lia.
  assert (message a = message b) by (by apply (anti_symm msg_le)). congruence.
Qed.

(** [strengthen] replaces the reason exactly when the other one is strictly
    stronger. *)
Lemma strengthen_spec a b :
  (strengthen a b = (b, true) ∧ ¬ weaker b a) ∨ (strengthen a b = (a, false) ∧ weaker b a).
Proof.
  unfold strengthen, weaker. rewrite assign_from_eq.
  destruct (N.ltb_spec (severity a) (severity b)); [left; split; [done|lia]|].
  destruct (N.ltb_spec (severity b) (severity a)); [right; split; [done|by left]|].
  destruct (N.ltb_spec (timestamp b) (timestamp a)); [left; split; [done|lia]|].
  destruct (N.ltb_spec (timestamp a) (timestamp b)); [right; split; [done|right; split; [lia|by left]]|].
  destruct (message_replaces_spec (message a) (message b)) as [(-> & Hm)|(-> & Hm)].
  - left. split; [done|]. intros [?|(? & [?|(? & ?)])]; [lia|lia|done].
  - right. split; [done|]. right. split; [lia|]. right. split; [lia|done].
Qed.

(** [strengthened] picks its second argument exactly when it is strictly
    stronger. *)
Lemma strengthened_cases a b :
  (strengthened a b = b ∧ ¬ weaker b a ∧ weaker a b) ∨ (strengthened a b = a ∧ weaker b a).
Proof.
  unfold strengthened. destruct (strengthen_spec a b) as [(-> & Hn)|(-> & Hw)]; [left|by right].
  split_and!; [done..|]. by destruct (total weaker a b).
Qed.

Lemma strengthened_l a b : weaker a (strengthened a b).
Proof. destruct (strengthened_cases a b) as [(-> & _ & ?)|(-> & ?)]; [done|reflexivity]. Qed.

Lemma strengthened_r a b : weaker b (strengthened a b).
Proof. destruct (strengthened_cases a b) as [(-> & _ & ?)|(-> & ?)]; [reflexivity|done]. Qed.

Lemma weaker_severity a b : weaker a b → severity a ≤ severity b.
Proof. intros [?|(? & _)]; lia. Qed.

Lemma strengthened_severity a b : severity (strengthened a b) = N.max (severity a) (severity b).
Proof.
  destruct (strengthened_cases a b) as [(-> & _ & H)|(-> & H)];
    apply weaker_severity in H; lia.
Qed.

#[global] Instance strengthened_assoc : Assoc (=) strengthened.
Proof.
  intros a b c.
  destruct (strengthened_cases b c) as [(-> & Hbc & Hbc')|(-> & Hbc)],
    (strengthened_cases a b) as [(-> & Hab & Hab')|(-> & Hab)].
  - destruct (strengthened_cases a c) as [(-> & _)|(_ & Hca)],
      (strengthened_cases b c) as [(-> & _)|(_ & Hcb)]; try done.
    destruct Hab. by etrans.
  - done.
  - by destruct (strengthened_cases b c) as [(_ & ? & _)|(-> & _)].
  - destruct (strengthened_cases a c) as [(_ & Hca & _)|(-> & _)]; [|done].
    destruct Hca. by etrans.
Qed.

(** [strengthen] is the left-biased maximum of a total preorder (severity,
    then earlier timestamp, then message): the result is one of the two reasons
    unchanged, it has the larger severity, the operation is associative and
    idempotent, and the returned flag tells whether the reason changed. *)
Theorem strengthen_laws (a b c : CancelReason) :
  ((strengthen a b = (b, true) ∧ ¬ weaker b a) ∨ (strengthen a b = (a, false) ∧ weaker b a)) ∧
  severity (strengthened a b) = N.max (severity a) (severity b) ∧
  strengthened a (strengthened b c) = strengthened (strengthened a b) c ∧
  strengthened a a = a.
Proof.
  split_and!.
  - apply strengthen_spec.
  - apply strengthened_severity.
  - apply (assoc _).
  - by destruct (strengthened_cases a a) as [(? & _)|(? & _)].
Qed.

(** The reason that accumulates when requests arrive one after the other. *)
Definition strengthen_all (r : CancelReason) (rs : list CancelReason) : CancelReason :=
  foldl strengthened r rs.

Lemma strengthen_all_spec r rs :
  strengthen_all r rs ∈ r :: rs ∧ ∀ x, x ∈ r :: rs → weaker x (strengthen_all r rs).
Proof.
  revert r. induction rs as [|y rs IH]; intros r; simpl.
  - split; [by left|]. by intros x ->%list_elem_of_singleton.
  - destruct (IH (strengthened r y)) as [Hin Hmax]. split.
    + apply elem_of_cons in Hin as [->|Hin]; [|by right; right].
      destruct (strengthened_cases r y) as [(-> & _)|(-> & _)]; [by right; left|by left].
    + assert (Hs : weaker (strengthened r y) (strengthen_all (strengthened r y) rs))
        by (apply Hmax; by left).
      intros x [->|[->|Hx]%elem_of_cons]%elem_of_cons.
      * etrans; [apply strengthened_l|done].
      * etrans; [apply strengthened_r|done].
      * apply Hmax. by right.
Qed.

(** Concurrent cancellation requests are confluent: whatever order the same
    requests arrive in, the surviving reason has the same severity, timestamp
    and message, it is one of the requests, and no request is stronger. *)
Theorem strengthen_order_insensitive (r r' : CancelReason) (rs rs' : list CancelReason) :
  r :: rs ≡ₚ r' :: rs' →
  strength (strengthen_all r rs) = strength (strengthen_all r' rs') ∧
  strengthen_all r rs ∈ r :: rs ∧ ∀ x, x ∈ r :: rs → weaker x (strengthen_all r rs).
Proof.
  intros Hp. destruct (strengthen_all_spec r rs) as [Hin Hmax].
  destruct (strengthen_all_spec r' rs') as [Hin' Hmax']. split; [|done].
  apply weaker_antisymm.
  - apply Hmax'. by rewrite <-Hp.
  - apply Hmax. by rewrite Hp.
Qed.

Lemma strengthen_order_insensitive_witness :
  let t := with_timestamp reason_timeout 5 in
  let u := reason_user "stop" in
  [u; t; reason_shutdown] ≡ₚ [reason_shutdown; u; t] ∧
  strength (strengthen_all u [t; reason_shutdown]) = strength (strengthen_all reason_shutdown [u; t]).
Proof.
  intros t u.
  assert (Hp : [u; t; reason_shutdown] ≡ₚ [reason_shutdown; u; t]) by solve_Permutation.
  split; [exact Hp|]. exact (proj1 (strengthen_order_insensitive _ _ _ _ Hp)).
Defined.

(** Escalating a cancellation never loosens its cleanup: a more severe reason
    gets a cleanup budget at least as tight, and every cleanup budget is finite. *)
Theorem cleanup_budget_monotone (a b : CancelReason) : severity a ≤ severity b →
  tighter (cleanup_budget_of b) (cleanup_budget_of a) ∧ 1 ≤ poll_quota (cleanup_budget_of a) ≤ 1000.
Proof.
  unfold severity, cleanup_budget_of, tighter.
  destruct (kind a), (kind b); simpl; intros H; split_and!; try done; lia.
Qed.

Lemma cleanup_budget_monotone_witness :
  severity reason_timeout ≤ severity reason_shutdown ∧
  tighter (cleanup_budget_of reason_shutdown) (cleanup_budget_of reason_timeout).
Proof.
  assert (H : severity reason_timeout ≤ severity reason_shutdown) by (vm_compute; discriminate).
  split; [exact H|]. exact (proj1 (cleanup_budget_monotone _ _ H)).
Defined.
