(* ===== verification/Outcome.v ===== *)
(** * Outcomes and aggregation policies

    Models [src/types/outcome.rs] (the four-valued [Outcome] with its severity
    order and [join]) and [src/types/policy.rs] (the [Policy] trait with the
    [FailFast] and [CollectAll] implementations). *)

From S2P Require Import Prelude Ids Budget Cancel.

(** ** Severity *)

Module Severity.

Inductive t := Ok | Err | Cancelled | Panicked.

Definition as_u8 (s : t) : N :=
  match s with Ok => 0 | Err => 1 | Cancelled => 2 | Panicked => 3 end.

Definition from_u8 (value : N) : option t :=
  match value with
  | 0 => Some Ok
  | 1 => Some Err
  | 2 => Some Cancelled
  | 3 => Some Panicked
  | _ => None
  end.

End Severity.

Record PanicPayload := mkPanicPayload { panic_message : string }.

(** ** Outcomes *)

Module Outcome.

Inductive t (T E : Type) :=
| Ok (v : T)
| Err (e : E)
| Cancelled (r : CancelReason)
| Panicked (p : PanicPayload).
Arguments Ok {T E} _.
Arguments Err {T E} _.
Arguments Cancelled {T E} _.
Arguments Panicked {T E} _.

Inductive OutcomeError (E : Type) :=
| ErrorErr (e : E)
| ErrorCancelled (r : CancelReason)
| ErrorPanicked (p : PanicPayload).
Arguments ErrorErr {E} _.
Arguments ErrorCancelled {E} _.
Arguments ErrorPanicked {E} _.

Section ops.
Context {T E : Type}.

Definition severity (o : t T E) : Severity.t :=
  match o with
  | Ok _ => Severity.Ok
  | Err _ => Severity.Err
  | Cancelled _ => Severity.Cancelled
  | Panicked _ => Severity.Panicked
  end.

Definition severity_u8 (o : t T E) : N := Severity.as_u8 (severity o).

Definition is_ok (o : t T E) : bool := match o with Ok _ => true | _ => false end.
Definition is_err (o : t T E) : bool := match o with Err _ => true | _ => false end.
Definition is_cancelled (o : t T E) : bool := match o with Cancelled _ => true | _ => false end.
Definition is_panicked (o : t T E) : bool := match o with Panicked _ => true | _ => false end.

Definition into_result (o : t T E) : result T (OutcomeError E) :=
  match o with
  | Ok v => Prelude.Ok v
  | Err e => Prelude.Err (ErrorErr e)
  | Cancelled r => Prelude.Err (ErrorCancelled r)
  | Panicked p => Prelude.Err (ErrorPanicked p)
  end.

Definition map {U} (f : T → U) (o : t T E) : t U E :=
  match o with
  | Ok v => Ok (f v) | Err e => Err e | Cancelled r => Cancelled r | Panicked p => Panicked p
  end.

Definition map_err {F} (g : E → F) (o : t T E) : t T F :=
  match o with
  | Ok v => Ok v | Err e => Err (g e) | Cancelled r => Cancelled r | Panicked p => Panicked p
  end.

Definition and_then {U} (o : t T E) (f : T → t U E) : t U E :=
  match o with
  | Ok v => f v | Err e => Err e | Cancelled r => Cancelled r | Panicked p => Panicked p
  end.

Definition ok_or_else {F} (o : t T E) (f : () → F) : result T F :=
  match o with Ok v => Prelude.Ok v | _ => Prelude.Err (f ()) end.

Definition unwrap (o : t T E) : exec T :=
  match o with Ok v => Done v | _ => Panics end.

Definition expect_err (o : t T E) : exec E :=
  match o with Err e => Done e | _ => Panics end.

Definition unwrap_or (o : t T E) (default : T) : T :=
  match o with Ok v => v | _ => default end.

Definition from_result (r : result T E) : t T E :=
  match r with Prelude.Ok v => Ok v | Prelude.Err e => Err e end.

(** [join]: the worse of the two, left-biased. *)
Definition join (self other : t T E) : t T E :=
  match self, other with
  | Cancelled l, Cancelled r =>
      Cancelled (if Cancel.severity l <? Cancel.severity r then strengthened l r else l)
  | l, r => if severity_u8 r <=? severity_u8 l then l else r
  end.

Definition join_outcomes (a b : t T E) : t T E := join a b.

End ops.

End Outcome.

(** ** Policies *)

Inductive PolicyAction :=
| PolicyContinue
| CancelSiblings (r : CancelReason)
| Escalate.

Module AggregateDecision.

Inductive t (E : Type) :=
| AllOk
| FirstError (e : E)
| Cancelled (r : CancelReason)
| Panicked (payload : PanicPayload) (first_panic_index : nat).
Arguments AllOk {E}.
Arguments FirstError {E} _.
Arguments Cancelled {E} _.
Arguments Panicked {E} _ _.

End AggregateDecision.

(** The trait [Policy]; its associated error type is the parameter [E]. *)
Class Policy (P E : Type) := {
  on_child_outcome {T} : P → TaskId → Outcome.t T E → PolicyAction;
  aggregate_outcomes {T} : P → list (Outcome.t T E) → AggregateDecision.t E;
}.

Inductive FailFast := mkFailFast.
Inductive CollectAll := mkCollectAll.

Section policies.
Context {E : Type}.

Definition fail_fast_on_child {T} (_ : FailFast) (_ : TaskId) (o : Outcome.t T E) : PolicyAction :=
  match o with
  | Outcome.Ok _ | Outcome.Cancelled _ => PolicyContinue
  | Outcome.Err _ | Outcome.Panicked _ => CancelSiblings sibling_failed
  end.

(** The arm for [Outcome::Cancelled] of the scan. *)
Definition note_cancel (strongest_cancel : option CancelReason) (r : CancelReason)
  : option CancelReason :=
  match strongest_cancel with
  | None => Some r
  | Some existing => Some (strengthened existing r)
  end.

(** The arm for [Outcome::Err]. *)
Definition note_error (first_error : option E) (e : E) : option E :=
  match first_error with None => Some e | Some _ => first_error end.

(** The scan of [FailFast::aggregate_outcomes], [i] the enumeration index. *)
Fixpoint fail_fast_scan {T} (i : nat) (first_error : option E)
  (strongest_cancel : option CancelReason) (os : list (Outcome.t T E)) : AggregateDecision.t E :=
  match os with
  | [] =>
      match strongest_cancel with
      | Some r => AggregateDecision.Cancelled r
      | None =>
          match first_error with
          | Some e => AggregateDecision.FirstError e
          | None => AggregateDecision.AllOk
          end
      end
  | Outcome.Panicked p :: _ => AggregateDecision.Panicked p i
  | Outcome.Cancelled r :: os =>
      fail_fast_scan (S i) first_error (note_cancel strongest_cancel r) os
  | Outcome.Err e :: os =>
      fail_fast_scan (S i) (note_error first_error e) strongest_cancel os
  | Outcome.Ok _ :: os => fail_fast_scan (S i) first_error strongest_cancel os
  end.

Definition fail_fast_aggregate {T} (_ : FailFast) (os : list (Outcome.t T E))
  : AggregateDecision.t E := fail_fast_scan 0 None None os.

Definition collect_all_on_child {T} (_ : CollectAll) (_ : TaskId) (_ : Outcome.t T E)
  : PolicyAction := PolicyContinue.

(** The scan of [CollectAll::aggregate_outcomes]: the loop leaves either with
    the panic or with the two accumulators. *)
Fixpoint collect_all_scan {T} (i : nat) (first_error : option E)
  (strongest_cancel : option CancelReason) (os : list (Outcome.t T E))
  : AggregateDecision.t E + (option E * option CancelReason) :=
  match os with
  | [] => inr (first_error, strongest_cancel)
  | Outcome.Panicked p :: _ => inl (AggregateDecision.Panicked p i)
  | Outcome.Cancelled r :: os =>
      collect_all_scan (S i) first_error (note_cancel strongest_cancel r) os
  | Outcome.Err e :: os =>
      collect_all_scan (S i) (note_error first_error e) strongest_cancel os
  | Outcome.Ok _ :: os => collect_all_scan (S i) first_error strongest_cancel os
  end.

Definition map_or_else {A B} (o : option A) (d : () → B) (f : A → B) : B :=
  match o with Some x => f x | None => d () end.

Definition collect_all_aggregate {T} (_ : CollectAll) (os : list (Outcome.t T E))
  : AggregateDecision.t E :=
  match collect_all_scan 0 None None os with
  | inl d => d
  | inr (first_error, strongest_cancel) =>
      map_or_else strongest_cancel
        (λ _, map_or_else first_error (λ _, AggregateDecision.AllOk) AggregateDecision.FirstError)
        AggregateDecision.Cancelled
  end.

#[global] Instance FailFast_Policy : Policy FailFast E := {|
  on_child_outcome := @fail_fast_on_child;
  aggregate_outcomes := @fail_fast_aggregate;
|}.

#[global] Instance CollectAll_Policy : Policy CollectAll E := {|
  on_child_outcome := @collect_all_on_child;
  aggregate_outcomes := @collect_all_aggregate;
|}.

End policies.

(** ** The severity order on outcomes *)

Section join_laws.
Context {T E : Type}.
Implicit Types o a b c : Outcome.t T E.

(** The key [join] maximises: the severity, and among cancellations the
    severity of the reason. *)
Definition join_key (o : Outcome.t T E) : N :=
  match o with
  | Outcome.Cancelled r => 2 + Cancel.severity r
  | Outcome.Panicked _ => 8
  | o => Outcome.severity_u8 o
  end.

Lemma cancel_severity_max (r : CancelReason) : Cancel.severity r ≤ 5.
Proof. unfold Cancel.severity. destruct (kind r); simpl; lia. Qed.

Lemma strengthened_stronger r r' :
  Cancel.severity r < Cancel.severity r' → strengthened r r' = r'.
Proof.
  intros H. unfold strengthened, strengthen. by rewrite (proj2 (N.ltb_lt _ _) H), assign_from_eq.
Qed.

(** [join] is the left-biased maximum of [join_key]. *)
Lemma join_max a b :
  Outcome.join a b = if join_key a <? join_key b then b else a.
Proof.
  unfold Outcome.join, join_key, Outcome.severity_u8.
  destruct a as [v|e|r|p], b as [v'|e'|r'|p']; simpl; try done.
  all: try (pose proof (cancel_severity_max r)); try (pose proof (cancel_severity_max r')).
  all: repeat match goal with |- context [?x <? ?y] => destruct (N.ltb_spec x y) end; try done; try lia.
  by rewrite strengthened_stronger.
Qed.

Lemma join_key_severity a b :
  join_key a ≤ join_key b → Outcome.severity_u8 a ≤ Outcome.severity_u8 b.
Proof.
  unfold join_key, Outcome.severity_u8.
  destruct a as [v|e|r|p], b as [v'|e'|r'|p']; simpl; try lia.
  all: match goal with r : CancelReason |- _ => pose proof (cancel_severity_max r); lia end.
Qed.

Lemma join_severity a b :
  Outcome.severity_u8 (Outcome.join a b) =
  N.max (Outcome.severity_u8 a) (Outcome.severity_u8 b).
Proof.
  rewrite join_max. destruct (N.ltb_spec (join_key a) (join_key b)) as [H|H].
  - apply N.lt_le_incl, join_key_severity in H. lia.
  - apply join_key_severity in H. lia.
Qed.

#[global] Instance outcome_join_assoc : Assoc (=) (@Outcome.join T E).
Proof.
  intros a b c. rewrite !join_max.
  destruct (N.ltb_spec (join_key b) (join_key c)), (N.ltb_spec (join_key a) (join_key b)).
  all: repeat match goal with |- context [?x <? ?y] => destruct (N.ltb_spec x y) end; try done; lia.
Qed.

(** [join] takes the worse outcome: the severity of the result is the
    maximum, the result is one of the two outcomes unchanged and the left one
    unless the right one is strictly worse (by severity, or both cancelled and
    by severity of the reason), and the operation is associative and
    idempotent on whole outcomes. *)
Theorem outcome_join_laws a b c :
  Outcome.severity_u8 (Outcome.join a b) = N.max (Outcome.severity_u8 a) (Outcome.severity_u8 b) ∧
  (Outcome.join a b = if join_key a <? join_key b then b else a) ∧
  Outcome.join a (Outcome.join b c) = Outcome.join (Outcome.join a b) c ∧
  Outcome.join a a = a.
Proof.
  split_and!; [apply join_severity|apply join_max|apply (assoc _)|].
  rewrite join_max. by destruct (_ <? _).
Qed.

(** [and_then] and [Ok] form a monad over [map]. *)
Lemma outcome_monad_laws {U V} (o : Outcome.t T E) (f : T → Outcome.t U E) (g : U → Outcome.t V E) v :
  Outcome.and_then (Outcome.Ok v) f = f v ∧
  Outcome.and_then o Outcome.Ok = o ∧
  Outcome.and_then (Outcome.and_then o f) g = Outcome.and_then o (λ x, Outcome.and_then (f x) g).
Proof. split_and!; [done|by destruct o|by destruct o]. Qed.

End join_laws.

(** ** Aggregation *)

Section aggregation.
Context {E T : Type}.
Implicit Types (os : list (Outcome.t T E)) (o : Outcome.t T E).

(** Position and payload of the first panicked child. *)
Fixpoint first_panic (i : nat) os : option (nat * PanicPayload) :=
  match os with
  | [] => None
  | Outcome.Panicked p :: _ => Some (i, p)
  | _ :: os => first_panic (S i) os
  end.

Definition cancel_reasons os : list CancelReason :=
  omap (λ o, match o with Outcome.Cancelled r => Some r | _ => None end) os.

Definition child_errors os : list E :=
  omap (λ o, match o with Outcome.Err e => Some e | _ => None end) os.

(** The promised decision: the first panic, else the strongest cancellation,
    else the first error. *)
Definition aggregate_spec os : AggregateDecision.t E :=
  match first_panic 0 os, cancel_reasons os, child_errors os with
  | Some (i, p), _, _ => AggregateDecision.Panicked p i
  | None, r :: rs, _ => AggregateDecision.Cancelled (strengthen_all r rs)
  | None, [], e :: _ => AggregateDecision.FirstError e
  | None, [], [] => AggregateDecision.AllOk
  end.

(** What the accumulators of a scan make of the remaining children. *)
Definition pending_decision (i : nat) (fe : option E) (sc : option CancelReason) os
  : AggregateDecision.t E :=
  match first_panic i os, from_option (λ r, [r]) [] sc ++ cancel_reasons os,
        from_option (λ e, [e]) [] fe ++ child_errors os with
  | Some (i, p), _, _ => AggregateDecision.Panicked p i
  | None, r :: rs, _ => AggregateDecision.Cancelled (strengthen_all r rs)
  | None, [], e :: _ => AggregateDecision.FirstError e
  | None, [], [] => AggregateDecision.AllOk
  end.

Lemma fail_fast_scan_spec i fe sc os :
  fail_fast_scan i fe sc os = pending_decision i fe sc os.
Proof.
  revert i fe sc. induction os as [|[v|e|r|p] os IH]; intros i fe sc; simpl; try rewrite IH.
  - unfold pending_decision; simpl. by destruct sc, fe.
  - done.
  - unfold pending_decision; simpl. by destruct fe, sc, (first_panic _ _).
  - unfold pending_decision; simpl. by destruct fe, sc, (first_panic _ _).
  - done.
Qed.

Lemma collect_all_scan_spec i fe sc os :
  match collect_all_scan i fe sc os with
  | inl d => d
  | inr (fe, sc) =>
      map_or_else sc
        (λ _, map_or_else fe (λ _, AggregateDecision.AllOk) AggregateDecision.FirstError)
        AggregateDecision.Cancelled
  end = fail_fast_scan i fe sc os.
Proof.
  revert i fe sc. induction os as [|[v|e|r|p] os IH]; intros i fe sc; simpl; try done.
Qed.

(** A policy is lawful when it decides as promised. *)
Class LawfulPolicy (P : Type) `{Policy P E} : Prop :=
  aggregate_correct : ∀ (p : P) os, aggregate_outcomes p os = aggregate_spec os.

#[global] Instance FailFast_lawful : LawfulPolicy FailFast.
Proof. intros p os. apply fail_fast_scan_spec. Qed.

#[global] Instance CollectAll_lawful : LawfulPolicy CollectAll.
Proof.
  intros p os. simpl. unfold collect_all_aggregate.
  rewrite collect_all_scan_spec. apply fail_fast_scan_spec.
Qed.

(** The decision against the outcome that folding [join] over the children
    gives: same variant, same payload, and for cancellations the same
    severity. *)
Definition decision_agrees (d : AggregateDecision.t E) o : Prop :=
  match d, o with
  | AggregateDecision.AllOk, Outcome.Ok _ => True
  | AggregateDecision.FirstError e, Outcome.Err e' => e = e'
  | AggregateDecision.Cancelled r, Outcome.Cancelled r' => Cancel.severity r = Cancel.severity r'
  | AggregateDecision.Panicked p _, Outcome.Panicked p' => p = p'
  | _, _ => False
  end.

(** The decision of the accumulators alone. *)
Definition acc_decision (fe : option E) (sc : option CancelReason) : AggregateDecision.t E :=
  match sc, fe with
  | Some r, _ => AggregateDecision.Cancelled r
  | None, Some e => AggregateDecision.FirstError e
  | None, None => AggregateDecision.AllOk
  end.

Lemma join_panicked_l p os :
  foldl Outcome.join (Outcome.Panicked p) os = Outcome.Panicked p.
Proof.
  induction os as [|o os IH]; [done|]. simpl.
  by destruct o.
Qed.

Lemma scan_agrees i fe sc os o :
  decision_agrees (acc_decision fe sc) o →
  decision_agrees (fail_fast_scan i fe sc os) (foldl Outcome.join o os).
Proof.
  revert i fe sc o. induction os as [|o' os IH]; intros i fe sc o Ho; simpl.
  - by destruct sc, fe.
  - destruct o' as [v|e|r|p].
    + apply IH. destruct sc, fe, o; done.
    + apply IH. destruct sc, fe, o; try done; by simpl in *.
    + apply IH. rewrite join_max.
      destruct sc as [r0|], fe, o as [|?|r'|?]; try done; simpl in *.
      all: match goal with |- context [?x <? ?y] => destruct (N.ltb_spec x y) end; simpl.
      all: unfold Outcome.severity_u8 in *; simpl in *; try rewrite !strengthened_severity; try done; lia.
    + replace (Outcome.join o (Outcome.Panicked p)) with (@Outcome.Panicked T E p).
      * by rewrite join_panicked_l.
      * destruct sc, fe, o; done.
Qed.

(** Every lawful policy, and so both [FailFast] and [CollectAll], decides
    the aggregate of any list of children as promised (first panic with its
    index, else the strongest cancellation, else the first error), and the
    decision is the fold of [join] over the children. *)
Theorem policy_aggregate_correct `{LawfulPolicy P} (p : P) (v : T) os :
  aggregate_outcomes p os = aggregate_outcomes mkFailFast os ∧
  aggregate_outcomes p os = aggregate_outcomes mkCollectAll os ∧
  aggregate_outcomes p os = aggregate_spec os ∧
  decision_agrees (aggregate_outcomes p os) (foldl Outcome.join (Outcome.Ok v) os).
Proof.
  rewrite !aggregate_correct. split_and!; [done..|].
  change (aggregate_spec os) with (pending_decision 0 None None os).
  rewrite <-fail_fast_scan_spec. by apply scan_agrees.
Qed.

End aggregation.

Lemma policy_aggregate_correct_witness :
  let os := [Outcome.Ok 1; Outcome.Err 7; Outcome.Cancelled reason_timeout;
             Outcome.Cancelled reason_shutdown] in
  aggregate_outcomes mkCollectAll os = AggregateDecision.Cancelled reason_shutdown ∧
  decision_agrees (aggregate_outcomes mkFailFast os) (foldl Outcome.join (Outcome.Ok 0) os).
Proof.
  intros os. split; [vm_compute; reflexivity|].
  exact (proj2 (proj2 (proj2 (policy_aggregate_correct mkFailFast 0 os)))).
Defined.
