(* ===== verification/Cx.v ===== *)
(** * Task contexts

    Models [src/types/task_context.rs] ([CxInner], the state a task record and
    the task's [Cx] handles share) and the operations of [src/cx/cx.rs] that
    change it: checkpoints with their lock-free fast path, masking,
    cancellation through a handle.  Each operation is one critical section of
    the lock around [CxInner]; the clock reading is an argument.  Evidence
    sinks and logging are left out, wakers are numbers. *)

From S2P Require Import Prelude Ids Budget Cancel.

Definition Waker := N.

Definition MAX_MASK_DEPTH : N := 64.

(** ** Checkpoint accounting *)

Record CheckpointState := mkCheckpointState {
  last_checkpoint : option Time.t;
  last_message : option string;
  checkpoint_count : N;
}.

Definition checkpoint_state_new : CheckpointState := mkCheckpointState None None 0.

Definition record_at (s : CheckpointState) (at_ : Time.t) : CheckpointState :=
  mkCheckpointState (Some at_) None (wrapping_add u64_MAX (checkpoint_count s) 1).

Definition record_with_message_at (s : CheckpointState) (message : string) (at_ : Time.t)
  : CheckpointState :=
  mkCheckpointState (Some at_) (Some message) (wrapping_add u64_MAX (checkpoint_count s) 1).

(** ** The shared state *)

Record CxInner := mkCxInner {
  cx_region : RegionId;
  cx_task : TaskId;
  task_type : option string;
  cx_budget : Budget;
  budget_baseline : Budget;
  capability_budget : CapabilityBudget;
  cancel_requested : bool;
  cx_cancel_reason : option CancelReason;
  cancel_acknowledged : bool;
  cancel_waker : option Waker;
  mask_depth : N;
  checkpoint_state : CheckpointState;
  fast_cancel : bool;
  fast_path_count : N;
  fast_path_last_checkpoint_ns : N;
}.

Definition cx_inner_new (region : RegionId) (task : TaskId) (budget : Budget) : CxInner :=
  mkCxInner region task None budget budget UNSPECIFIED false None false None 0
    checkpoint_state_new false 0 0.

(** Assignments. *)
Definition set_cx_budget (i : CxInner) (b : Budget) : CxInner :=
  mkCxInner (cx_region i) (cx_task i) (task_type i) b b (capability_budget i)
    (cancel_requested i) (cx_cancel_reason i) (cancel_acknowledged i) (cancel_waker i)
    (mask_depth i) (checkpoint_state i) (fast_cancel i) (fast_path_count i)
    (fast_path_last_checkpoint_ns i).
Definition set_requested (i : CxInner) (v : bool) : CxInner :=
  mkCxInner (cx_region i) (cx_task i) (task_type i) (cx_budget i) (budget_baseline i)
    (capability_budget i) v (cx_cancel_reason i) (cancel_acknowledged i) (cancel_waker i)
    (mask_depth i) (checkpoint_state i) v (fast_path_count i) (fast_path_last_checkpoint_ns i).
Definition set_reason (i : CxInner) (r : option CancelReason) : CxInner :=
  mkCxInner (cx_region i) (cx_task i) (task_type i) (cx_budget i) (budget_baseline i)
    (capability_budget i) (cancel_requested i) r (cancel_acknowledged i) (cancel_waker i)
    (mask_depth i) (checkpoint_state i) (fast_cancel i) (fast_path_count i)
    (fast_path_last_checkpoint_ns i).
Definition set_acknowledged (i : CxInner) (v : bool) : CxInner :=
  mkCxInner (cx_region i) (cx_task i) (task_type i) (cx_budget i) (budget_baseline i)
    (capability_budget i) (cancel_requested i) (cx_cancel_reason i) v (cancel_waker i)
    (mask_depth i) (checkpoint_state i) (fast_cancel i) (fast_path_count i)
    (fast_path_last_checkpoint_ns i).
Definition set_mask_depth (i : CxInner) (d : N) : CxInner :=
  mkCxInner (cx_region i) (cx_task i) (task_type i) (cx_budget i) (budget_baseline i)
    (capability_budget i) (cancel_requested i) (cx_cancel_reason i) (cancel_acknowledged i)
    (cancel_waker i) d (checkpoint_state i) (fast_cancel i) (fast_path_count i)
    (fast_path_last_checkpoint_ns i).
Definition set_checkpoints (i : CxInner) (s : CheckpointState) (count ns : N) : CxInner :=
  mkCxInner (cx_region i) (cx_task i) (task_type i) (cx_budget i) (budget_baseline i)
    (capability_budget i) (cancel_requested i) (cx_cancel_reason i) (cancel_acknowledged i)
    (cancel_waker i) (mask_depth i) s (fast_cancel i) count ns.

(** [last_checkpoint.is_none_or(|t| drained > t)] *)
Definition newer_than (drained : Time.t) (last : option Time.t) : bool :=
  match last with None => true | Some t => t <? drained end.

(** Merging the fast-path counters into a checkpoint state. *)
Definition merge_fast_path (s : CheckpointState) (count ns : N) : CheckpointState :=
  let c := if 0 <? count then saturating_add u64_MAX (checkpoint_count s) count
           else checkpoint_count s in
  let l := if negb (ns =? 0) && newer_than (Time.from_nanos ns) (last_checkpoint s)
           then Some (Time.from_nanos ns) else last_checkpoint s in
  mkCheckpointState l (last_message s) c.

Definition drain_fast_path_checkpoint (i : CxInner) : CxInner :=
  set_checkpoints i
    (merge_fast_path (checkpoint_state i) (fast_path_count i) (fast_path_last_checkpoint_ns i)) 0 0.

Definition materialised_checkpoint_state (i : CxInner) : CheckpointState :=
  merge_fast_path (checkpoint_state i) (fast_path_count i) (fast_path_last_checkpoint_ns i).

(** ** Budget exhaustion at a checkpoint *)

Definition duration_millis_saturating (nanos : N) : N := N.min (nanos / 1000000) u64_MAX.

(** One of the later checks: strengthen the exhaustion found so far. *)
Definition note_exhaustion (candidate : CancelReason) (label : string) (remaining : option N)
  (exhaustion : option (CancelReason * string * option N)) : option (CancelReason * string * option N) :=
  match exhaustion with
  | Some (existing, kind, rem) =>
      let (existing', changed) := strengthen existing candidate in
      Some (existing', if changed then label else kind, rem)
  | None => Some (candidate, label, remaining)
  end.

Definition exhaustion_reason (k : CancelKind.t) (region : RegionId) (task : TaskId) (now : Time.t)
  : CancelReason := with_task (with_origin k region now) task.

Definition checkpoint_budget_exhaustion (region : RegionId) (task : TaskId) (budget : Budget)
  (now : Time.t) : option (CancelReason * string * option N) :=
  let deadline_remaining_ms := duration_millis_saturating <$> remaining_time budget now in
  let exhaustion :=
    if is_past_deadline budget now
    then Some (exhaustion_reason CancelKind.Deadline region task now, "time"%string,
               deadline_remaining_ms)
    else None in
  let exhaustion :=
    if poll_quota budget =? 0
    then note_exhaustion (exhaustion_reason CancelKind.PollQuota region task now) "poll"
           deadline_remaining_ms exhaustion
    else exhaustion in
  match cost_quota budget with
  | Some 0 =>
      note_exhaustion (exhaustion_reason CancelKind.CostBudget region task now) "cost"
        deadline_remaining_ms exhaustion
  | _ => exhaustion
  end.

Definition inner_exhaustion (i : CxInner) (now : Time.t) : option (CancelReason * string * option N) :=
  checkpoint_budget_exhaustion (cx_region i) (cx_task i) (cx_budget i) now.

Definition checkpoint_budget_usage (budget baseline : Budget) (now : Time.t)
  : option N * option N * option N :=
  let polls_used :=
    if poll_quota baseline =? u32_MAX then None
    else Some (saturating_sub (poll_quota baseline) (poll_quota budget)) in
  let cost_used :=
    match cost_quota baseline, cost_quota budget with
    | Some b, Some r => Some (saturating_sub b r)
    | _, _ => None
    end in
  (polls_used, cost_used, duration_millis_saturating <$> remaining_time budget now).

(** ** Checkpoints *)

(** [ErrorKind::Cancelled], the only error a checkpoint returns. *)
Inductive CheckpointError := ErrorKindCancelled.

Definition check_cancel_from_values (requested : bool) (depth : N) : result () CheckpointError :=
  if requested then if depth =? 0 then Err ErrorKindCancelled else Ok () else Ok ().

(** The write-locked part of [checkpoint] and [checkpoint_with], after the
    checkpoint has been recorded. *)
Definition observe_cancel (i : CxInner) (now : Time.t) : CxInner :=
  let i :=
    match inner_exhaustion i now with
    | Some (reason, _, _) =>
        let i := set_requested i true in
        match cx_cancel_reason i with
        | Some existing => set_reason i (Some (strengthened existing reason))
        | None => set_reason i (Some reason)
        end
    | None => i
    end in
  if cancel_requested i && (mask_depth i =? 0) then set_acknowledged i true else i.

(** The slow path of [checkpoint]. *)
Definition checkpoint_slow (i : CxInner) (now : Time.t) : CxInner * result () CheckpointError :=
  let i := drain_fast_path_checkpoint i in
  let i := set_checkpoints i (record_at (checkpoint_state i) now) (fast_path_count i)
             (fast_path_last_checkpoint_ns i) in
  let i := observe_cancel i now in
  (i, check_cancel_from_values (cancel_requested i) (mask_depth i)).

(** [Cx::checkpoint]: the read-locked fast path, else the slow path. *)
Definition checkpoint (i : CxInner) (now : Time.t) : CxInner * result () CheckpointError :=
  let cancelled := fast_cancel i in
  let exhausted :=
    negb cancelled && match inner_exhaustion i now with Some _ => true | None => false end in
  if negb cancelled && negb exhausted
  then (set_checkpoints i (checkpoint_state i) (wrapping_add u64_MAX (fast_path_count i) 1)
          (Time.as_nanos now), Ok ())
  else checkpoint_slow i now.

Definition checkpoint_with (i : CxInner) (msg : string) (now : Time.t)
  : CxInner * result () CheckpointError :=
  let i := drain_fast_path_checkpoint i in
  let i := set_checkpoints i (record_with_message_at (checkpoint_state i) msg now)
             (fast_path_count i) (fast_path_last_checkpoint_ns i) in
  let i := observe_cancel i now in
  (i, check_cancel_from_values (cancel_requested i) (mask_depth i)).

(** ** Masking *)

(** Entry of [Cx::masked], which panics at the nesting limit. *)
Definition mask_enter (i : CxInner) : exec CxInner :=
  if mask_depth i <? MAX_MASK_DEPTH then Done (set_mask_depth i (mask_depth i + 1)) else Panics.

(** [MaskGuard::drop], which runs on return and on unwinding. *)
Definition mask_exit (i : CxInner) : CxInner := set_mask_depth i (saturating_sub (mask_depth i) 1).

(** ** Cancellation through a handle: the new state and the waker to wake. *)

Definition set_cancel_requested (i : CxInner) (value : bool) : CxInner * option Waker :=
  let i := set_requested i value in
  if negb value then (set_reason i None, None) else (i, cancel_waker i).

Definition cancel_with (i : CxInner) (k : CancelKind.t) (msg : option string)
  : CxInner * option Waker :=
  let reason := with_task (with_region (reason_new k) (cx_region i)) (cx_task i) in
  let reason := match msg with Some m => with_message reason m | None => reason end in
  (set_reason (set_requested i true) (Some reason), cancel_waker i).

Definition cancel_fast (i : CxInner) (k : CancelKind.t) : CxInner * option Waker :=
  (set_reason (set_requested i true) (Some (with_region (reason_new k) (cx_region i))),
   cancel_waker i).

Definition set_cancel_reason (i : CxInner) (r : CancelReason) : CxInner * option Waker :=
  (set_reason (set_requested i true) (Some r), cancel_waker i).

(** ** Exhaustion *)

Definition exhausted_kind (b : Budget) (now : Time.t) : option CancelKind.t :=
  if poll_quota b =? 0 then Some CancelKind.PollQuota
  else match cost_quota b with
       | Some 0 => Some CancelKind.CostBudget
       | _ => if is_past_deadline b now then Some CancelKind.Deadline else None
       end.

(** Exactly one reason is reported, attributed to the task at the current time;
    an exhausted poll quota hides an exhausted cost quota, and both hide a
    missed deadline. *)
Lemma checkpoint_budget_exhaustion_spec region task b now :
  (λ e, e.1.1) <$> checkpoint_budget_exhaustion region task b now =
  (λ k, exhaustion_reason k region task now) <$> exhausted_kind b now.
Proof.
  unfold checkpoint_budget_exhaustion, exhausted_kind.
  destruct (is_past_deadline b now), (poll_quota b =? 0), (cost_quota b) as [[|c]|]; simpl; try done.
  all: unfold strengthen, exhaustion_reason, Cancel.severity; simpl.
  all: rewrite ?N.ltb_irrefl; simpl; try done.
Qed.

Lemma inner_exhaustion_None i now :
  inner_exhaustion i now = None ↔ exhausted_kind (cx_budget i) now = None.
Proof.
  pose proof (checkpoint_budget_exhaustion_spec (cx_region i) (cx_task i) (cx_budget i) now) as H.
  unfold inner_exhaustion. by destruct (checkpoint_budget_exhaustion _ _ _ _), (exhausted_kind _ _).
Qed.

(** ** The invariant of the shared state *)

Record cx_wf (i : CxInner) : Prop := {
  wf_fast : fast_cancel i = cancel_requested i;
  wf_mask : mask_depth i ≤ MAX_MASK_DEPTH;
  wf_reason : cancel_requested i = false → cx_cancel_reason i = None;
}.

(** Cancellation pending at a checkpoint: already requested, or the budget is
    exhausted now. *)
Definition cancel_pending (i : CxInner) (now : Time.t) : bool :=
  cancel_requested i || match exhausted_kind (cx_budget i) now with Some _ => true | None => false end.

(** What a checkpoint leaves as reason. *)
Definition pending_reason (i : CxInner) (now : Time.t) : option CancelReason :=
  match exhausted_kind (cx_budget i) now with
  | None => cx_cancel_reason i
  | Some k =>
      let r := exhaustion_reason k (cx_region i) (cx_task i) now in
      Some (match cx_cancel_reason i with Some old => strengthened old r | None => r end)
  end.

Record observed (i i' : CxInner) (now : Time.t) : Prop := {
  ob_requested : cancel_requested i' = cancel_pending i now;
  ob_fast : fast_cancel i = cancel_requested i → fast_cancel i' = cancel_pending i now;
  ob_reason : cx_cancel_reason i' = pending_reason i now;
  ob_ack : cancel_acknowledged i' =
    (cancel_acknowledged i || (cancel_pending i now && (mask_depth i =? 0)));
  ob_mask : mask_depth i' = mask_depth i;
  ob_budget : cx_budget i' = cx_budget i;
}.

Lemma observe_cancel_spec i now : observed i (observe_cancel i now) now.
Proof.
  unfold observe_cancel, inner_exhaustion, cancel_pending, pending_reason.
  pose proof (checkpoint_budget_exhaustion_spec (cx_region i) (cx_task i) (cx_budget i) now) as H.
  destruct (checkpoint_budget_exhaustion _ _ _ _) as [[[r l] rem]|],
    (exhausted_kind _ _) as [k|] eqn:Hk; simplify_eq/=.
  all: destruct i as [? ? ? ? ? ? req reason ack ? d ? fast ? ?]; simpl in *.
  all: destruct req, reason, (d =? 0) eqn:Hd; simpl; rewrite ?Hd; simpl.
  all: split; simpl; unfold cancel_pending, pending_reason; simpl; rewrite ?Hk, ?Hd; try done.
  all: by rewrite ?orb_true_r, ?orb_false_r.
Qed.

Lemma observed_checkpoints i i' s c n now :
  observed (set_checkpoints i s c n) i' now → observed i i' now.
Proof. intros [? ? ? ? ? ?]. by split. Qed.

Lemma checkpoint_slow_observed i now : observed i (checkpoint_slow i now).1 now.
Proof. eapply observed_checkpoints, observed_checkpoints, observe_cancel_spec. Qed.

Lemma checkpoint_with_observed i msg now : observed i (checkpoint_with i msg now).1 now.
Proof. eapply observed_checkpoints, observed_checkpoints, observe_cancel_spec. Qed.

(** On a well-formed state the fast path is taken exactly when nothing is
    pending. *)
Lemma checkpoint_paths i now : cx_wf i →
  checkpoint i now =
  if cancel_pending i now then checkpoint_slow i now
  else (set_checkpoints i (checkpoint_state i) (wrapping_add u64_MAX (fast_path_count i) 1) now, Ok ()).
Proof.
  intros [Hf _ _]. unfold checkpoint, cancel_pending. rewrite Hf.
  pose proof (inner_exhaustion_None i now) as H.
  destruct (cancel_requested i); [done|]. simpl.
  destruct (inner_exhaustion i now), (exhausted_kind (cx_budget i) now); try done.
  - by pose proof (proj2 H eq_refl).
  - by pose proof (proj1 H eq_refl).
Qed.

Lemma checkpoint_observed i now : cx_wf i → observed i (checkpoint i now).1 now.
Proof.
  intros Hwf. rewrite checkpoint_paths by done.
  destruct (cancel_pending i now) eqn:Hp; [apply checkpoint_slow_observed|].
  assert (cancel_requested i = false ∧ exhausted_kind (cx_budget i) now = None) as [Hr Hk].
  { unfold cancel_pending in Hp. by destruct (cancel_requested i), (exhausted_kind _ _). }
  split; simpl; rewrite ?Hp; try done.
  - by intros ->.
  - unfold pending_reason. by rewrite Hk.
  - by rewrite andb_false_l, orb_false_r.
Qed.

Lemma checkpoint_result i now : cx_wf i →
  (checkpoint i now).2 = check_cancel_from_values (cancel_pending i now) (mask_depth i).
Proof.
  intros Hwf. rewrite checkpoint_paths by done.
  destruct (cancel_pending i now) eqn:Hp; [|done].
  destruct (checkpoint_slow_observed i now) as [Hr _ _ _ Hm _].
  unfold checkpoint_slow in *. simpl in *. by rewrite Hr, Hm, Hp.
Qed.

Lemma observed_wf i i' now : cx_wf i → observed i i' now → cx_wf i'.
Proof.
  intros [Hf Hm Hr] [Oq Of Oe Oa Om Ob]. split.
  - by rewrite Oq, Of.
  - by rewrite Om.
  - rewrite Oq, Oe. unfold cancel_pending, pending_reason.
    destruct (cancel_requested i), (exhausted_kind _ _); try done.
Qed.

Lemma merge_fast_path_count s c n :
  checkpoint_count (merge_fast_path s c n) =
  if 0 <? c then saturating_add u64_MAX (checkpoint_count s) c else checkpoint_count s.
Proof. done. Qed.

Lemma observe_cancel_checkpoints i now :
  checkpoint_state (observe_cancel i now) = checkpoint_state i ∧
  fast_path_count (observe_cancel i now) = fast_path_count i.
Proof.
  unfold observe_cancel. destruct (inner_exhaustion i now) as [[[? ?] ?]|]; simpl.
  - destruct (cx_cancel_reason i); simpl; by destruct (mask_depth i =? 0).
  - by destruct (_ && _).
Qed.

(** Both paths count one checkpoint. *)
Lemma checkpoint_counts i now :
  checkpoint_count (checkpoint_state i) + fast_path_count i < u64_MAX →
  checkpoint_count (materialised_checkpoint_state (checkpoint i now).1) =
  checkpoint_count (materialised_checkpoint_state (checkpoint_slow i now).1).
Proof.
  intros Hlt. unfold checkpoint. destruct (_ && _); [|done].
  unfold checkpoint_slow, materialised_checkpoint_state. cbn [fst].
  set (j := set_checkpoints (drain_fast_path_checkpoint i) _ _ _).
  destruct (observe_cancel_checkpoints j now) as [-> ->]. subst j.
  rewrite !merge_fast_path_count. unfold drain_fast_path_checkpoint, record_at, set_checkpoints.
  cbn [checkpoint_state fast_path_count checkpoint_count].
  rewrite !merge_fast_path_count. change (0 <? 0) with false. cbn match.
  set (a := checkpoint_count _) in *. set (c := fast_path_count _) in *.
  rewrite (wrapping_add_1 _ c) by lia.
  destruct (N.ltb_spec 0 c), (N.ltb_spec 0 (c + 1)); try lia.
  - rewrite !saturating_add_exact by lia. rewrite wrapping_add_1 by lia. lia.
  - assert (c = 0) as -> by lia. rewrite saturating_add_exact by lia. by rewrite wrapping_add_1 by lia.
Qed.

(** [Cx::checkpoint] with its lock-free fast path decides as the fully
    locked path does.  On a well-formed context it fails exactly when
    cancellation is pending (requested, or the budget is exhausted at this
    time) and no mask is active; then cancellation is acknowledged; the pending
    reason is recorded, strengthened by the exhausted resource; and result,
    flags, reason and checkpoint count equal those of the slow path. *)
Theorem checkpoint_correct (i : CxInner) (now : Time.t) : cx_wf i →
  let (i', r) := checkpoint i now in
  let (i2, r2) := checkpoint_slow i now in
  cx_wf i' ∧
  (r = Err ErrorKindCancelled ↔ cancel_pending i now = true ∧ mask_depth i = 0) ∧
  (r = Err ErrorKindCancelled → cancel_acknowledged i' = true) ∧
  cx_cancel_reason i' = pending_reason i now ∧
  r = r2 ∧ cancel_requested i' = cancel_requested i2 ∧ cx_cancel_reason i' = cx_cancel_reason i2 ∧
  cancel_acknowledged i' = cancel_acknowledged i2 ∧
  (checkpoint_count (checkpoint_state i) + fast_path_count i < u64_MAX →
   checkpoint_count (materialised_checkpoint_state i') =
   checkpoint_count (materialised_checkpoint_state i2)).
Proof.
  intros Hwf.
  pose proof (checkpoint_observed i now Hwf) as Ho.
  pose proof (checkpoint_result i now Hwf) as Hr.
  pose proof (checkpoint_slow_observed i now) as Hs.
  pose proof (observed_wf _ _ _ Hwf Ho) as Hwf'.
  assert (Hr2 : (checkpoint_slow i now).2 = (checkpoint i now).2).
  { rewrite Hr. unfold checkpoint_slow in *. simpl in *. by rewrite (ob_requested _ _ _ Hs), (ob_mask _ _ _ Hs). }
  pose proof (checkpoint_counts i now) as Hc.
  destruct (checkpoint i now) as [i' r], (checkpoint_slow i now) as [i2 r2]; simpl in *.
  destruct Ho as [Oq Of Oe Oa Om Ob], Hs as [Sq Sf Se Sa Sm Sb].
  refine (conj Hwf' (conj _ (conj _ (conj Oe (conj _ (conj _ (conj _ (conj _ _)))))))); try congruence.
  - rewrite Hr. unfold check_cancel_from_values.
    destruct (cancel_pending i now), (N.eqb_spec (mask_depth i) 0); split; naive_solver.
  - rewrite Oa, Hr. unfold check_cancel_from_values.
    destruct (cancel_pending i now), (mask_depth i =? 0); try done. intros _. by rewrite orb_true_r.
  - exact Hc.
Qed.

Definition sample_task : TaskId := TaskId_from_arena (mkArenaIndex 3 0).
Definition sample_cx (b : Budget) : CxInner := cx_inner_new RegionId_testing_default sample_task b.

Lemma cx_inner_new_wf region task b : cx_wf (cx_inner_new region task b).
Proof. split; simpl; [done|unfold MAX_MASK_DEPTH; lia|done]. Qed.

Lemma checkpoint_correct_witness :
  let i := sample_cx (with_poll_quota budget_new 0) in
  (checkpoint i 5).2 = Err ErrorKindCancelled ∧ cancel_acknowledged (checkpoint i 5).1 = true.
Proof.
  intros i. split; [vm_compute; reflexivity|].
  pose proof (checkpoint_correct i 5 (cx_inner_new_wf _ _ _)) as H.
  destruct (checkpoint i 5) as [i' r] eqn:E. destruct (checkpoint_slow i 5) as [i2 r2].
  destruct H as (_ & Hr & Ha & _). apply Ha, Hr. split; vm_compute; reflexivity.
Defined.

(** ** Sequences of operations on a context *)

Inductive CxOp :=
| OpCheckpoint (now : Time.t)
| OpCheckpointWith (msg : string) (now : Time.t)
| OpMaskEnter
| OpMaskExit
| OpCancelWith (k : CancelKind.t) (msg : option string)
| OpCancelFast (k : CancelKind.t)
| OpSetReason (r : CancelReason)
| OpSetRequested (v : bool).

Definition cx_apply (i : CxInner) (op : CxOp) : exec CxInner :=
  match op with
  | OpCheckpoint now => Done (checkpoint i now).1
  | OpCheckpointWith msg now => Done (checkpoint_with i msg now).1
  | OpMaskEnter => mask_enter i
  | OpMaskExit => Done (mask_exit i)
  | OpCancelWith k msg => Done (cancel_with i k msg).1
  | OpCancelFast k => Done (cancel_fast i k).1
  | OpSetReason r => Done (set_cancel_reason i r).1
  | OpSetRequested v => Done (set_cancel_requested i v).1
  end.

Fixpoint cx_run (i : CxInner) (ops : list CxOp) : exec CxInner :=
  match ops with
  | [] => Done i
  | op :: ops => i' ← cx_apply i op; cx_run i' ops
  end.

Definition clears_cancel (op : CxOp) : bool :=
  match op with OpSetRequested v => negb v | _ => false end.

Lemma cx_apply_spec i op i' : cx_wf i → cx_apply i op = Done i' →
  cx_wf i' ∧ (cancel_requested i = true → clears_cancel op = false → cancel_requested i' = true).
Proof.
  intros Hwf Hop.
  assert (Hobs : ∀ j now, observed i j now →
    cx_wf j ∧ (cancel_requested i = true → clears_cancel op = false → cancel_requested j = true)).
  { intros j now Ho. split; [by eapply observed_wf|]. intros Hq _.
    rewrite (ob_requested _ _ _ Ho). unfold cancel_pending. by rewrite Hq. }
  destruct op; simpl in Hop; simplify_eq.
  - by eapply Hobs, checkpoint_observed.
  - by eapply Hobs, checkpoint_with_observed.
  - unfold mask_enter in Hop. crush. destruct Hwf as [? ? ?]. split; [split|]; simpl; try done.
    unfold MAX_MASK_DEPTH in *. lia.
  - destruct Hwf as [? ? ?]. split; [split|]; simpl; try done. unfold saturating_sub. lia.
  - destruct Hwf as [? ? ?]. by split; [split|].
  - destruct Hwf as [? ? ?]. by split; [split|].
  - destruct Hwf as [? ? ?]. by split; [split|].
  - destruct Hwf as [? ? ?]. unfold set_cancel_requested. destruct v; simpl; by split; [split|].
Qed.

Lemma cx_run_spec i ops i' : cx_wf i → cx_run i ops = Done i' →
  cx_wf i' ∧
  (cancel_requested i = true → forallb (λ op, negb (clears_cancel op)) ops = true →
   cancel_requested i' = true).
Proof.
  revert i. induction ops as [|op ops IH]; intros i Hwf Hrun; simpl in Hrun.
  - simplify_eq. done.
  - unfold mbind, exec_bind in Hrun. destruct (cx_apply i op) as [i1|] eqn:E; [|done].
    destruct (cx_apply_spec _ _ _ Hwf E) as [Hwf1 H1]. destruct (IH _ Hwf1 Hrun) as [Hwf' H'].
    split; [done|]. simpl. intros Hq Hops. N_bools. auto.
Qed.

(** Cancellation of a context is not lost: whatever handles, masked
    sections and checkpoints do afterwards (nothing but an explicit reset
    clears it), any later checkpoint outside every mask fails and acknowledges
    the cancellation, and mask nesting never exceeds its bound. *)
Theorem cx_cancel_sticky (i i' : CxInner) (ops : list CxOp) (now : Time.t) :
  cx_wf i → cancel_requested i = true →
  forallb (λ op, negb (clears_cancel op)) ops = true →
  cx_run i ops = Done i' →
  mask_depth i' ≤ MAX_MASK_DEPTH ∧
  (mask_depth i' = 0 →
   (checkpoint i' now).2 = Err ErrorKindCancelled ∧
   cancel_acknowledged (checkpoint i' now).1 = true).
Proof.
  intros Hwf Hq Hops Hrun. destruct (cx_run_spec _ _ _ Hwf Hrun) as [Hwf' H].
  specialize (H Hq Hops). split; [apply Hwf'|]. intros Hm.
  assert (Hp : cancel_pending i' now = true) by (unfold cancel_pending; by rewrite H).
  rewrite checkpoint_result, (ob_ack _ _ _ (checkpoint_observed i' now Hwf')), Hp, Hm by done.
  simpl. by rewrite orb_true_r.
Qed.

Lemma cx_cancel_sticky_witness :
  let i := (cancel_with (sample_cx budget_new) CancelKind.Shutdown None).1 in
  let ops := [OpMaskEnter; OpCheckpoint 4; OpMaskExit] in
  ∃ i', cx_run i ops = Done i' ∧ (checkpoint i' 9).2 = Err ErrorKindCancelled.
Proof.
  intros i ops. eexists. split; [vm_compute; reflexivity|].
  eapply (cx_cancel_sticky i _ ops 9); [|vm_compute; reflexivity..].
  eapply (proj1 (cx_apply_spec (sample_cx budget_new) (OpCancelWith CancelKind.Shutdown None) i
    (cx_inner_new_wf _ _ _) eq_refl)).
Defined.

(** A checkpoint on the fast path leaves the message of an earlier
    [checkpoint_with] in the checkpoint state, and at time zero it is counted
    but not recorded as last checkpoint; the slow path does both. *)
Theorem checkpoint_fast_path_gaps :
  let i := (checkpoint_with (sample_cx budget_new) "step 1" 7).1 in
  last_message (materialised_checkpoint_state (checkpoint i 8).1) = Some "step 1"%string ∧
  last_message (materialised_checkpoint_state (checkpoint_slow i 8).1) = None ∧
  (let s := materialised_checkpoint_state (checkpoint (sample_cx budget_new) Time.ZERO).1 in
   checkpoint_count s = 1 ∧ last_checkpoint s = None).
Proof. vm_compute. by repeat split. Qed.
