(* ===== verification/Task.v ===== *)
(** * Task records

    Models [src/record/task.rs]: the task state machine with its atomic phase
    cell, the cancellation protocol (request, acknowledge, cleanup, finalize),
    cancellation witnesses, mask counters, waiters, intrusive queue links and
    record recycling, and [consume_cancel_ack_locked] of
    [src/runtime/scheduler/worker.rs].  The [CxInner] behind [cx_inner] is
    shared with the task's handles: the handle operations of [Cx] act on the
    same field.  Tracing is left out. *)

From S2P Require Import Prelude Ids Budget Cancel Outcome Cx.

(** ** Phases *)

Module TaskPhase.

Inductive t := Created | Running | CancelRequested | Cancelling | Finalizing | Completed.

Definition is_terminal (p : t) : bool := match p with Completed => true | _ => false end.

Definition as_u8 (p : t) : N :=
  match p with
  | Created => 0 | Running => 1 | CancelRequested => 2 | Cancelling => 3 | Finalizing => 4
  | Completed => 5
  end.

Definition is_valid_transition (self next : t) : bool :=
  match as_u8 self, as_u8 next with
  | 0, (1 | 2 | 5) => true
  | 1, (2 | 5) => true
  | 2, (2 | 3 | 5) => true
  | 3, (3 | 4 | 5) => true
  | 4, (4 | 5) => true
  | _, _ => false
  end.

Definition from_u8 (value : N) : option t :=
  match value with
  | 0 => Some Created | 1 => Some Running | 2 => Some CancelRequested | 3 => Some Cancelling
  | 4 => Some Finalizing | 5 => Some Completed
  | _ => None
  end.

(** [TaskPhaseCell]: an atomic byte. *)
Definition cell := N.
Definition cell_new (p : t) : cell := as_u8 p.
Definition load (c : cell) : t := default Completed (from_u8 c).
Definition store (_ : cell) (p : t) : cell := as_u8 p.

End TaskPhase.

(** ** Wake states: the atomic byte of [TaskWakeState]. *)

Module TaskWakeState.

Definition cell := N.
Definition Idle : cell := 0.
Definition Polling : cell := 1.
Definition Notified : cell := 2.

Definition new : cell := Idle.
Definition notify (s : cell) : cell * bool := (Notified, s =? Idle).
Definition begin_poll (_ : cell) : cell := Polling.
Definition finish_poll (s : cell) : cell * bool :=
  if s =? Polling then (Idle, false) else (s, s =? Notified).
Definition clear (_ : cell) : cell := Idle.
Definition is_notified (s : cell) : bool := s =? Notified.

End TaskWakeState.

(** ** Records *)

Section task.
Context {E : Type}.

Definition TaskOutcome := Outcome.t () E.

Inductive TaskState :=
| Created
| Running
| CancelRequested (reason : CancelReason) (cleanup_budget : Budget)
| Cancelling (reason : CancelReason) (cleanup_budget : Budget)
| Finalizing (reason : CancelReason) (cleanup_budget : Budget)
| Completed (o : TaskOutcome).

Definition state_is_terminal (s : TaskState) : bool :=
  match s with Completed _ => true | _ => false end.
Definition is_cancelling (s : TaskState) : bool :=
  match s with CancelRequested _ _ | Cancelling _ _ | Finalizing _ _ => true | _ => false end.
Definition can_be_polled (s : TaskState) : bool :=
  match s with
  | Running | CancelRequested _ _ | Cancelling _ _ | Finalizing _ _ => true
  | _ => false
  end.

Record TaskRecord := mkTaskRecord {
  id : TaskId;
  owner : RegionId;
  state : TaskState;
  phase : TaskPhase.cell;
  wake_state : TaskWakeState.cell;
  cx_inner : option CxInner;
  has_cx : bool;
  created_at : Time.t;
  task_deadline : option Time.t;
  polls_remaining : N;
  total_polls : N;
  last_polled_step : N;
  waiters : list TaskId;
  cached_waker : option (Waker * N);
  cached_cancel_waker : option (Waker * N);
  cancel_epoch : N;
  is_local : bool;
  pinned_worker : option N;
  next_in_queue : option TaskId;
  prev_in_queue : option TaskId;
  queue_tag : N;
  heap_index : option N;
  sched_priority : N;
  sched_generation : N;
}.

Definition new_with_time (id : TaskId) (owner : RegionId) (budget : Budget) (created_at : Time.t)
  : TaskRecord :=
  mkTaskRecord id owner Created (TaskPhase.cell_new TaskPhase.Created) TaskWakeState.new None false created_at
    (deadline budget) (poll_quota budget) 0 0 [] None None 0 false None None None 0 None 0 0.

Definition task_new (id : TaskId) (owner : RegionId) (budget : Budget) : TaskRecord :=
  new_with_time id owner budget Time.ZERO.

(** Assignment of the fields the lifecycle changes. *)
Definition assign (t : TaskRecord) (s : TaskState) (p : TaskPhase.cell) (cx : option CxInner)
  (polls epoch : N) : TaskRecord :=
  mkTaskRecord (id t) (owner t) s p (wake_state t) cx (has_cx t) (created_at t) (task_deadline t) polls
    (total_polls t) (last_polled_step t) (waiters t) (cached_waker t) (cached_cancel_waker t)
    epoch (is_local t) (pinned_worker t) (next_in_queue t) (prev_in_queue t) (queue_tag t)
    (heap_index t) (sched_priority t) (sched_generation t).

Definition set_state (t : TaskRecord) (s : TaskState) (p : TaskPhase.t) : TaskRecord :=
  assign t s (TaskPhase.store (phase t) p) (cx_inner t) (polls_remaining t) (cancel_epoch t).
Definition update_cx (f : CxInner → CxInner) (t : TaskRecord) : TaskRecord :=
  assign t (state t) (phase t) (f <$> cx_inner t) (polls_remaining t) (cancel_epoch t).
Definition set_polls (t : TaskRecord) (n : N) : TaskRecord :=
  assign t (state t) (phase t) (cx_inner t) n (cancel_epoch t).
Definition set_epoch (t : TaskRecord) (n : N) : TaskRecord :=
  assign t (state t) (phase t) (cx_inner t) (polls_remaining t) n.

Definition set_cx_inner (t : TaskRecord) (inner : CxInner) : TaskRecord :=
  mkTaskRecord (id t) (owner t) (state t) (phase t) (wake_state t) (Some inner) (has_cx t) (created_at t)
    (deadline (cx_budget inner)) (polls_remaining t) (total_polls t) (last_polled_step t)
    (waiters t) (cached_waker t) (cached_cancel_waker t) (cancel_epoch t) (is_local t)
    (pinned_worker t) (next_in_queue t) (prev_in_queue t) (queue_tag t) (heap_index t)
    (sched_priority t) (sched_generation t).

(** ** Cancellation *)

(** The arm of [request_cancel_with_budget] for a task already in cleanup. *)
Definition strengthen_in_cleanup (t : TaskRecord) (new_budget : Budget) : TaskRecord :=
  let t := update_cx (λ i, set_cx_budget i new_budget) t in
  set_polls t (N.min (polls_remaining t) (poll_quota new_budget)).

(** The waker [request_cancel_with_budget] wakes at the end. *)
Definition waker_to_wake (t : TaskRecord) : option Waker :=
  match cx_inner t with
  | Some i => if cancel_requested i then cancel_waker i else None
  | None => None
  end.

(** The match on the state in [request_cancel_with_budget]: the record, the
    reason to publish in the context and the result. *)
Definition apply_request (t : TaskRecord) (reason : CancelReason) (cleanup_budget : Budget)
  : TaskRecord * option CancelReason * bool :=
  match state t with
  | CancelRequested existing_reason existing_budget =>
      let r := strengthened existing_reason reason in
      (set_state t (CancelRequested r (combine existing_budget cleanup_budget))
         TaskPhase.CancelRequested, Some r, false)
  | Cancelling existing_reason b =>
      let r := strengthened existing_reason reason in
      let new_budget := combine b cleanup_budget in
      (strengthen_in_cleanup (set_state t (Cancelling r new_budget) TaskPhase.Cancelling)
         new_budget, Some r, false)
  | Finalizing existing_reason b =>
      let r := strengthened existing_reason reason in
      let new_budget := combine b cleanup_budget in
      (strengthen_in_cleanup (set_state t (Finalizing r new_budget) TaskPhase.Finalizing)
         new_budget, Some r, false)
  | Created | Running =>
      let t := set_epoch t (if cancel_epoch t =? 0 then 1
                            else saturating_add u64_MAX (cancel_epoch t) 1) in
      (set_state t (CancelRequested reason cleanup_budget) TaskPhase.CancelRequested,
       Some reason, true)
  | Completed _ => (t, None, false)
  end.

(** [request_cancel_with_budget]: the record, whether this was the first
    request, and the waker woken. *)
Definition request_cancel_with_budget (t : TaskRecord) (reason : CancelReason)
  (cleanup_budget : Budget) : TaskRecord * bool * option Waker :=
  if state_is_terminal (state t) then (t, false, None)
  else
    let t := update_cx (λ i, set_requested i true) t in
    let '(t, updated_reason_for_inner, res) := apply_request t reason cleanup_budget in
    let t :=
      match updated_reason_for_inner with
      | Some r => update_cx (λ i, set_reason i (Some r)) t
      | None => t
      end in
    (t, res, waker_to_wake t).

Definition request_cancel (t : TaskRecord) (reason : CancelReason) : TaskRecord * bool * option Waker :=
  request_cancel_with_budget t reason (cleanup_budget_of reason).

Definition cancel_witness (t : TaskRecord) : option CancelWitness :=
  if cancel_epoch t =? 0 then None
  else
    let w p r := Some (mkCancelWitness (id t) (owner t) (cancel_epoch t) p r) in
    match state t with
    | CancelRequested r _ => w CancelPhase.Requested r
    | Cancelling r _ => w CancelPhase.Cancelling r
    | Finalizing r _ => w CancelPhase.Finalizing r
    | Completed (Outcome.Cancelled r) => w CancelPhase.Completed r
    | _ => None
    end.

Definition start_running (t : TaskRecord) : TaskRecord * bool :=
  match state t with
  | Created => (set_state t Running TaskPhase.Running, true)
  | _ => (t, false)
  end.

(** The outcome [complete] records. *)
Definition final_outcome (s : TaskState) (outcome : TaskOutcome) : TaskOutcome :=
  match s with
  | CancelRequested reason _ | Cancelling reason _ | Finalizing reason _ =>
      match outcome with
      | Outcome.Ok _ | Outcome.Err _ => Outcome.Cancelled reason
      | Outcome.Cancelled r => Outcome.Cancelled (strengthened reason r)
      | _ => outcome
      end
  | _ => outcome
  end.

Definition complete (t : TaskRecord) (outcome : TaskOutcome) : TaskRecord * bool :=
  if state_is_terminal (state t) then (t, false)
  else
    let outcome := final_outcome (state t) outcome in
    let t := if Outcome.is_cancelled outcome && (cancel_epoch t =? 0) then set_epoch t 1 else t in
    (set_state t (Completed outcome) TaskPhase.Completed, true).

Definition acknowledge_cancel (t : TaskRecord) : TaskRecord * option CancelReason :=
  match state t with
  | CancelRequested reason budget =>
      let t := update_cx (λ i, set_cx_budget i budget) t in
      let t := set_polls t (poll_quota budget) in
      (set_state t (Cancelling reason budget) TaskPhase.Cancelling, Some reason)
  | _ => (t, None)
  end.

Definition cleanup_done (t : TaskRecord) : TaskRecord * bool :=
  match state t with
  | Cancelling reason budget =>
      (set_state t (Finalizing reason budget) TaskPhase.Finalizing, true)
  | _ => (t, false)
  end.

Definition finalize_done_with_witness (t : TaskRecord) : TaskRecord * option CancelWitness :=
  match state t with
  | Finalizing reason _ =>
      (set_state t (Completed (Outcome.Cancelled reason)) TaskPhase.Completed,
       Some (mkCancelWitness (id t) (owner t) (cancel_epoch t) CancelPhase.Completed reason))
  | _ => (t, None)
  end.

Definition finalize_done (t : TaskRecord) : TaskRecord * bool :=
  let (t, w) := finalize_done_with_witness t in
  (t, match w with Some _ => true | None => false end).

Definition task_cancel_reason (t : TaskRecord) : option CancelReason :=
  match state t with
  | CancelRequested r _ | Cancelling r _ | Finalizing r _ => Some r
  | _ => None
  end.

Definition task_cleanup_budget (t : TaskRecord) : option Budget :=
  match state t with
  | CancelRequested _ b | Cancelling _ b | Finalizing _ b => Some b
  | _ => None
  end.

(** [Worker::consume_cancel_ack_locked] after the record has been found. *)
Definition consume_cancel_ack (t : TaskRecord) : TaskRecord * bool :=
  match cx_inner t with
  | None => (t, false)
  | Some i =>
      if cancel_acknowledged i
      then ((acknowledge_cancel (update_cx (λ i, set_acknowledged i false) t)).1, true)
      else (t, false)
  end.

(** ** Masks *)

Definition decrement_mask (t : TaskRecord) : TaskRecord * option N :=
  match cx_inner t with
  | Some i =>
      if 0 <? mask_depth i
      then (update_cx (λ i, set_mask_depth i (mask_depth i - 1)) t, Some (mask_depth i - 1))
      else (t, None)
  | None => (t, None)
  end.

Definition increment_mask (t : TaskRecord) : exec (TaskRecord * N) :=
  match cx_inner t with
  | Some i =>
      if mask_depth i <? MAX_MASK_DEPTH
      then Done (update_cx (λ i, set_mask_depth i (mask_depth i + 1)) t, mask_depth i + 1)
      else Panics
  | None => Done (t, 0)
  end.

(** ** Bookkeeping *)

Definition is_runnable (t : TaskRecord) : bool :=
  match state t with Created | Running => true | s => can_be_polled s end.

Definition set_waiters (t : TaskRecord) (ws : list TaskId) : TaskRecord :=
  mkTaskRecord (id t) (owner t) (state t) (phase t) (wake_state t) (cx_inner t) (has_cx t) (created_at t)
    (task_deadline t) (polls_remaining t) (total_polls t) (last_polled_step t) ws (cached_waker t)
    (cached_cancel_waker t) (cancel_epoch t) (is_local t) (pinned_worker t) (next_in_queue t)
    (prev_in_queue t) (queue_tag t) (heap_index t) (sched_priority t) (sched_generation t).

Definition add_waiter (t : TaskRecord) (waiter : TaskId) : TaskRecord :=
  if bool_decide (waiter ∈ waiters t) then t else set_waiters t (waiters t ++ [waiter]).

Definition set_queue_links (t : TaskRecord) (prev next : option TaskId) (tag : N) : TaskRecord :=
  mkTaskRecord (id t) (owner t) (state t) (phase t) (wake_state t) (cx_inner t) (has_cx t) (created_at t)
    (task_deadline t) (polls_remaining t) (total_polls t) (last_polled_step t) (waiters t)
    (cached_waker t) (cached_cancel_waker t) (cancel_epoch t) (is_local t) (pinned_worker t)
    next prev tag (heap_index t) (sched_priority t) (sched_generation t).
Definition clear_queue_links (t : TaskRecord) : TaskRecord := set_queue_links t None None 0.
Definition is_in_queue (t : TaskRecord) : bool := negb (queue_tag t =? 0).

Definition pin_to_worker (t : TaskRecord) (worker_id : N) : TaskRecord :=
  mkTaskRecord (id t) (owner t) (state t) (phase t) (wake_state t) (cx_inner t) (has_cx t) (created_at t)
    (task_deadline t) (polls_remaining t) (total_polls t) (last_polled_step t) (waiters t)
    (cached_waker t) (cached_cancel_waker t) (cancel_epoch t) true (Some worker_id)
    (next_in_queue t) (prev_in_queue t) (queue_tag t) (heap_index t) (sched_priority t)
    (sched_generation t).

(** [Recyclable::reset]. *)
Definition reset (_ : TaskRecord) : TaskRecord :=
  mkTaskRecord (TaskId_from_arena (mkArenaIndex 0 0)) (RegionId_from_arena (mkArenaIndex 0 0))
    Created (TaskPhase.cell_new TaskPhase.Created) TaskWakeState.new None false Time.ZERO None 0 0 0 [] None None 0
    false None None None 0 None 0 0.

End task.

Arguments TaskState : clear implicits.
Arguments TaskRecord : clear implicits.
Arguments TaskOutcome : clear implicits.

(** ** Sequences of operations *)

Section lifecycle.
Context {E : Type}.
Implicit Types (t : TaskRecord E) (s : TaskState E).

Inductive TaskOp :=
| TStart
| TRequestCancel (r : CancelReason) (b : Budget)
| TAcknowledge
| TConsumeAck
| TCleanupDone
| TFinalizeDone
| TComplete (o : TaskOutcome E)
| TIncrementMask
| TDecrementMask
| TAddWaiter (w : TaskId)
| TSetQueueLinks (prev next : option TaskId) (tag : N)
| TPin (worker : N)
| TCx (op : CxOp).

Definition task_apply t (op : TaskOp) : exec (TaskRecord E) :=
  match op with
  | TStart => Done (start_running t).1
  | TRequestCancel r b => Done (request_cancel_with_budget t r b).1.1
  | TAcknowledge => Done (acknowledge_cancel t).1
  | TConsumeAck => Done (consume_cancel_ack t).1
  | TCleanupDone => Done (cleanup_done t).1
  | TFinalizeDone => Done (finalize_done t).1
  | TComplete o => Done (complete t o).1
  | TIncrementMask => p ← increment_mask t; Done p.1
  | TDecrementMask => Done (decrement_mask t).1
  | TAddWaiter w => Done (add_waiter t w)
  | TSetQueueLinks prev next tag => Done (set_queue_links t prev next tag)
  | TPin w => Done (pin_to_worker t w)
  | TCx op =>
      match cx_inner t with
      | Some i => i' ← cx_apply i op; Done (update_cx (λ _, i') t)
      | None => Done t
      end
  end.

Fixpoint task_run t (ops : list TaskOp) : exec (TaskRecord E) :=
  match ops with
  | [] => Done t
  | op :: ops => t' ← task_apply t op; task_run t' ops
  end.

(** ** The invariant *)

Definition phase_of s : TaskPhase.t :=
  match s with
  | Created => TaskPhase.Created
  | Running => TaskPhase.Running
  | CancelRequested _ _ => TaskPhase.CancelRequested
  | Cancelling _ _ => TaskPhase.Cancelling
  | Finalizing _ _ => TaskPhase.Finalizing
  | Completed _ => TaskPhase.Completed
  end.

(** The cleanup budget in force, once cancellation has been acknowledged. *)
Definition active_cleanup s : option Budget :=
  match s with Cancelling _ b | Finalizing _ b => Some b | _ => None end.

(** Epochs: zero before a cancellation, one from the first request on. *)
Definition epoch_ok s (e : N) : Prop :=
  match s with
  | Created | Running => e = 0
  | CancelRequested _ _ | Cancelling _ _ | Finalizing _ _ => e = 1
  | Completed (Outcome.Cancelled _) => e = 1
  | Completed _ => e ≤ 1
  end.

Record task_wf t : Prop := {
  twf_phase : TaskPhase.load (phase t) = phase_of (state t);
  twf_epoch : epoch_ok (state t) (cancel_epoch t);
  twf_polls : ∀ b, active_cleanup (state t) = Some b → polls_remaining t ≤ poll_quota b;
  twf_cx : ∀ i, cx_inner t = Some i →
    cx_wf i ∧ ∀ b, active_cleanup (state t) = Some b → cx_budget i = b;
  twf_waiters : NoDup (waiters t);
}.

Lemma load_store c p : TaskPhase.load (TaskPhase.store c p) = p.
Proof. by destruct p. Qed.

(** Budgets and flags of the context after a step through a handle. *)
Lemma cx_apply_budget i op i' : cx_wf i → cx_apply i op = Done i' → cx_budget i' = cx_budget i.
Proof.
  intros Hwf H. destruct op; simpl in H; simplify_eq; try done.
  - apply (ob_budget _ _ _ (checkpoint_observed i now Hwf)).
  - apply (ob_budget _ _ _ (checkpoint_with_observed i msg now)).
  - unfold mask_enter in H. crush.
  - unfold set_cancel_requested. by destruct v.
Qed.

Lemma cx_wf_budget i b : cx_wf i → cx_wf (set_cx_budget i b).
Proof. by intros [? ? ?]. Qed.
Lemma cx_wf_requested i : cx_wf i → cx_wf (set_requested i true).
Proof. by intros [? ? ?]. Qed.
Lemma cx_wf_reason i r : cx_wf i → cancel_requested i = true → cx_wf (set_reason i (Some r)).
Proof. intros [? ? ?] Hq. split; simpl; try done. by rewrite Hq. Qed.
Lemma cx_wf_ack i v : cx_wf i → cx_wf (set_acknowledged i v).
Proof. by intros [? ? ?]. Qed.
Lemma cx_wf_mask i d : cx_wf i → d ≤ MAX_MASK_DEPTH → cx_wf (set_mask_depth i d).
Proof. intros [? ? ?] ?. by split. Qed.

(** ** The abstract lifecycle *)

Definition state_reason s : option CancelReason :=
  match s with
  | CancelRequested r _ | Cancelling r _ | Finalizing r _ => Some r
  | _ => None
  end.

(** A cancelled task may only complete as cancelled with a reason at least as
    strong, or by panicking. *)
Definition completes_as s (o : TaskOutcome E) : Prop :=
  match state_reason s, o with
  | None, _ => True
  | Some r, Outcome.Cancelled r' => weaker r r'
  | Some _, Outcome.Panicked _ => True
  | Some _, _ => False
  end.

Inductive state_move : TaskState E → TaskState E → Prop :=
| move_start : state_move Created Running
| move_request s r b : s = Created ∨ s = Running → state_move s (CancelRequested r b)
| move_strengthen_requested r b r' b' : weaker r r' → tighter b' b →
    state_move (CancelRequested r b) (CancelRequested r' b')
| move_strengthen_cancelling r b r' b' : weaker r r' → tighter b' b →
    state_move (Cancelling r b) (Cancelling r' b')
| move_strengthen_finalizing r b r' b' : weaker r r' → tighter b' b →
    state_move (Finalizing r b) (Finalizing r' b')
| move_acknowledge r b : state_move (CancelRequested r b) (Cancelling r b)
| move_cleanup r b : state_move (Cancelling r b) (Finalizing r b)
| move_complete s o : state_is_terminal s = false → completes_as s o →
    state_move s (Completed o).

(** A step of the record: no visible change of state, or one abstract move. *)
Record step_ok t t' : Prop := {
  so_wf : task_wf t';
  so_move : state t' = state t ∨ state_move (state t) (state t');
  so_id : id t' = id t;
  so_owner : owner t' = owner t;
}.

(** Steps that leave the lifecycle fields alone. *)
Lemma step_ok_frame t t' :
  task_wf t → state t' = state t → phase t' = phase t → cx_inner t' = cx_inner t →
  polls_remaining t' = polls_remaining t → cancel_epoch t' = cancel_epoch t →
  NoDup (waiters t') → id t' = id t → owner t' = owner t → step_ok t t'.
Proof.
  intros [? ? ? ? ?] Hs Hp Hc Hr He Hw Hi Ho. split; try done; [|by left].
  split; rewrite ?Hs, ?Hp, ?Hc, ?Hr, ?He; done.
Qed.

(** Steps that change only the context. *)
Lemma step_ok_cx t f :
  task_wf t → (∀ i, cx_inner t = Some i → cx_wf (f i) ∧ cx_budget (f i) = cx_budget i) →
  step_ok t (update_cx f t).
Proof.
  intros [Hp He Hr Hc Hw] Hf. split; simpl; try done; [|by left].
  split; simpl; try done. intros i. destruct (cx_inner t) as [i0|] eqn:E0; simpl; [|done].
  intros [= <-]. destruct (Hf i0 eq_refl) as [Hwf Hb]. split; [done|].
  intros b Hb'. rewrite Hb. by apply (Hc i0 eq_refl).
Qed.

Lemma start_running_ok t : task_wf t → step_ok t (start_running t).1.
Proof.
  intros Hwf. unfold start_running. destruct (state t) eqn:Hs; simpl.
  2-6: by apply step_ok_frame; try done; apply Hwf.
  destruct Hwf as [Hp He Hr Hc Hw]. rewrite Hs in *. split; simpl; try done.
  right. rewrite Hs. constructor.
Qed.

Lemma acknowledge_ok t : task_wf t → step_ok t (acknowledge_cancel t).1.
Proof.
  intros Hwf. unfold acknowledge_cancel. destruct (state t) eqn:Hs; simpl.
  3: { destruct Hwf as [Hp He Hr Hc Hw]. rewrite Hs in *. split; simpl; try done.
       - split; simpl; try done.
         + by intros b [= <-].
         + intros i. destruct (cx_inner t) as [i0|]; simpl; [|done]. intros [= <-].
           split; [by apply cx_wf_budget, (Hc i0)|]. by intros b [= <-].
       - right. rewrite Hs. constructor. }
  all: by apply step_ok_frame; try done; apply Hwf.
Qed.

Lemma cleanup_done_ok t : task_wf t → step_ok t (cleanup_done t).1.
Proof.
  intros Hwf. unfold cleanup_done. destruct (state t) eqn:Hs; simpl.
  4: { destruct Hwf as [Hp He Hr Hc Hw]. rewrite Hs in *. split; simpl; try done.
       right. rewrite Hs. constructor. }
  all: by apply step_ok_frame; try done; apply Hwf.
Qed.

Lemma finalize_done_ok t : task_wf t → step_ok t (finalize_done t).1.
Proof.
  intros Hwf. unfold finalize_done, finalize_done_with_witness. destruct (state t) eqn:Hs; simpl.
  5: { destruct Hwf as [Hp He Hr Hc Hw]. rewrite Hs in *. split; simpl; try done.
       - split; simpl; try done. intros i Hi. split; [by apply (Hc i)|done].
       - right. rewrite Hs. constructor; [done|]. unfold completes_as. simpl. reflexivity. }
  all: by apply step_ok_frame; try done; apply Hwf.
Qed.

Lemma final_outcome_completes s o : completes_as s (final_outcome s o).
Proof.
  unfold completes_as, final_outcome, state_reason.
  destruct s, o; try done; try reflexivity; apply strengthened_l.
Qed.

Lemma complete_ok t o : task_wf t → step_ok t (complete t o).1.
Proof.
  intros Hwf. unfold complete. destruct (state_is_terminal (state t)) eqn:Ht; simpl.
  { by apply step_ok_frame; try done; apply Hwf. }
  pose proof (final_outcome_completes (state t) o) as Hco.
  set (fo := final_outcome (state t) o) in *.
  assert (Hmv : state_move (state t) (Completed fo)) by by constructor.
  assert (He1 : cancel_epoch t ≤ 1).
  { destruct Hwf as [_ He _ _ _]. unfold epoch_ok in He. destruct (state t) as [| | | | |[]]; lia. }
  destruct Hwf as [Hp He Hr Hc Hw].
  assert (Hcx : ∀ i, cx_inner t = Some i → cx_wf i) by (intros i Hi; by apply (Hc i)).
  destruct (Outcome.is_cancelled fo && (cancel_epoch t =? 0)) eqn:Hb; simpl;
    (split; [|by right|done|done]); split; simpl; try done; try (by intros i Hi; split; [apply Hcx|]).
  - apply andb_true_iff in Hb as [Hb _]. by destruct fo.
  - destruct fo; try done. simpl in Hb. N_bools. lia.
Qed.

Lemma decrement_mask_ok t : task_wf t → step_ok t (decrement_mask t).1.
Proof.
  intros Hwf. unfold decrement_mask. destruct (cx_inner t) as [i|] eqn:Hi; simpl.
  2: by apply step_ok_frame; try done; apply Hwf.
  destruct (0 <? mask_depth i); simpl; [|by apply step_ok_frame; try done; apply Hwf].
  apply step_ok_cx; [done|]. intros j Hj. simplify_eq. split; [|done].
  destruct (twf_cx _ Hwf _ Hi) as [Hw _]. apply cx_wf_mask; [done|]. pose proof (wf_mask _ Hw). lia.
Qed.

Lemma increment_mask_ok t t' n : task_wf t → increment_mask t = Done (t', n) → step_ok t t'.
Proof.
  intros Hwf. unfold increment_mask. destruct (cx_inner t) as [i|] eqn:Hi; simpl.
  - destruct (N.ltb_spec (mask_depth i) MAX_MASK_DEPTH); [|done]. intros [= <- <-].
    apply step_ok_cx; [done|]. intros j Hj. simplify_eq. split; [|done].
    destruct (twf_cx _ Hwf _ Hi) as [Hw _]. apply cx_wf_mask; [done|]. lia.
  - intros [= <- <-]. by apply step_ok_frame; try done; apply Hwf.
Qed.

Lemma step_ok_trans t1 t2 t3 : step_ok t1 t2 → state t2 = state t1 → step_ok t2 t3 → step_ok t1 t3.
Proof. intros [? _ Hi Ho] Hs [? Hm Hi' Ho']. split; [done| |congruence..]. by rewrite <-Hs. Qed.

Lemma consume_ack_ok t : task_wf t → step_ok t (consume_cancel_ack t).1.
Proof.
  intros Hwf. unfold consume_cancel_ack. destruct (cx_inner t) as [i|] eqn:Hi; simpl.
  2: by apply step_ok_frame; try done; apply Hwf.
  destruct (cancel_acknowledged i); simpl; [|by apply step_ok_frame; try done; apply Hwf].
  assert (H1 : step_ok t (update_cx (λ i, set_acknowledged i false) t)).
  { apply step_ok_cx; [done|]. intros j Hj. split; [|done]. apply cx_wf_ack, (twf_cx _ Hwf j Hj). }
  eapply step_ok_trans; [exact H1|done|]. by apply acknowledge_ok, H1.
Qed.

(** Entering or strengthening cancellation: the three fields that matter. *)
Lemma apply_request_ok t r b t1 ur res : task_wf t →
  (∀ i, cx_inner t = Some i → cancel_requested i = true) →
  apply_request t r b = (t1, ur, res) →
  step_ok t t1 ∧ ∀ i, cx_inner t1 = Some i → cancel_requested i = true.
Proof.
  intros Hwf Hq H. pose proof Hwf as [Hp He Hr Hc Hw]. unfold apply_request in H.
  destruct (state t) as [| |r0 b0|r0 b0|r0 b0|o] eqn:Hs; simplify_eq/=.
  1,2: split; [|by simpl]; (split; [split; simpl; try done|right; rewrite Hs; simpl; constructor; by auto|done|done]).
  1,2: by rewrite He.
  - split; [|by simpl]. split; [split; simpl; try done| |done|done].
    right. rewrite Hs. simpl. constructor; [apply strengthened_l|apply combine_tighter_l].
  - split; [|intros i; destruct (cx_inner t) as [i0|]; simpl; [|done]; intros [= <-]; by apply (Hq i0)].
    split; [split; simpl; try done| |done|done].
    + intros b' [= <-]. apply N.le_min_r.
    + intros i. destruct (cx_inner t) as [i0|]; simpl; [|done]. intros [= <-].
      split; [by apply cx_wf_budget, (Hc i0)|]. by intros ? [= <-].
    + right. rewrite Hs. simpl. constructor; [apply strengthened_l|apply combine_tighter_l].
  - split; [|intros i; destruct (cx_inner t) as [i0|]; simpl; [|done]; intros [= <-]; by apply (Hq i0)].
    split; [split; simpl; try done| |done|done].
    + intros b' [= <-]. apply N.le_min_r.
    + intros i. destruct (cx_inner t) as [i0|]; simpl; [|done]. intros [= <-].
      split; [by apply cx_wf_budget, (Hc i0)|]. by intros ? [= <-].
    + right. rewrite Hs. simpl. constructor; [apply strengthened_l|apply combine_tighter_l].
  - split; [|done]. by apply step_ok_frame.
Qed.

Lemma step_ok_trans_r t1 t2 t3 : step_ok t1 t2 → step_ok t2 t3 → state t3 = state t2 → step_ok t1 t3.
Proof. intros [? Hm Hi Ho] [? _ Hi' Ho'] Hs. split; [done| |congruence..]. by rewrite Hs. Qed.

Lemma request_cancel_ok t r b : task_wf t → step_ok t (request_cancel_with_budget t r b).1.1.
Proof.
  intros Hwf. unfold request_cancel_with_budget.
  destruct (state_is_terminal (state t)); [by apply step_ok_frame; try done; apply Hwf|].
  assert (H1 : step_ok t (update_cx (λ i, set_requested i true) t)).
  { apply step_ok_cx; [done|]. intros i Hi. split; [|done]. by apply cx_wf_requested, (twf_cx _ Hwf i). }
  destruct (apply_request _ r b) as [[t1 ur] res] eqn:Heq.
  apply apply_request_ok in Heq as [H2 Hq]; [|apply H1|].
  2: { intros i. simpl. destruct (cx_inner t); simpl; [|done]. by intros [= <-]. }
  pose proof (step_ok_trans _ _ _ H1 eq_refl H2) as H3.
  destruct ur as [ru|]; [|done]. simpl.
  eapply step_ok_trans_r; [exact H3| |done].
  apply step_ok_cx; [apply H3|]. intros i Hi. split; [|done].
  apply cx_wf_reason; [|by apply Hq]. by apply (twf_cx _ (so_wf _ _ H3) i).
Qed.

Lemma add_waiter_ok t w : task_wf t → step_ok t (add_waiter t w).
Proof.
  intros Hwf. unfold add_waiter. destruct (bool_decide_reflect (w ∈ waiters t)) as [|Hn].
  - by apply step_ok_frame; try done; apply Hwf.
  - apply step_ok_frame; try done. simpl. apply NoDup_app. split; [apply Hwf|].
    split; [|apply NoDup_singleton]. by intros x Hx ->%list_elem_of_singleton.
Qed.

Lemma task_apply_ok t op t' : task_wf t → task_apply t op = Done t' → step_ok t t'.
Proof.
  intros Hwf H. destruct op; simpl in H; simplify_eq.
  - by apply start_running_ok.
  - by apply request_cancel_ok.
  - by apply acknowledge_ok.
  - by apply consume_ack_ok.
  - by apply cleanup_done_ok.
  - by apply finalize_done_ok.
  - by apply complete_ok.
  - unfold mbind, exec_bind in H. destruct (increment_mask t) as [[t1 n]|] eqn:Heq; simplify_eq/=.
    by eapply increment_mask_ok.
  - by apply decrement_mask_ok.
  - by apply add_waiter_ok.
  - by apply step_ok_frame; try done; apply Hwf.
  - by apply step_ok_frame; try done; apply Hwf.
  - destruct (cx_inner t) as [i|] eqn:Hi; simplify_eq; [|by apply step_ok_frame; try done; apply Hwf].
    unfold mbind, exec_bind in H. destruct (cx_apply i op) as [i'|] eqn:Heq; simplify_eq.
    destruct (twf_cx _ Hwf i Hi) as [Hi' _].
    apply step_ok_cx; [done|]. intros j Hj. simplify_eq.
    split; [by eapply cx_apply_spec|by eapply cx_apply_budget].
Qed.

(** ** Runs *)

Record run_ok t t' : Prop := {
  ro_wf : task_wf t';
  ro_moves : rtc state_move (state t) (state t');
  ro_id : id t' = id t;
  ro_owner : owner t' = owner t;
}.

Lemma task_run_ok t ops t' : task_wf t → task_run t ops = Done t' → run_ok t t'.
Proof.
  revert t. induction ops as [|op ops IH]; intros t Hwf H; simpl in H.
  - simplify_eq. by split.
  - unfold mbind, exec_bind in H. destruct (task_apply t op) as [t1|] eqn:Heq; [|done].
    apply task_apply_ok in Heq as [Hwf1 Hm Hi Ho]; [|done].
    destruct (IH _ Hwf1 H) as [Hwf' Hms Hi' Ho'].
    split; [done| |congruence..]. destruct Hm as [<-|Hm]; [done|]. by eapply rtc_l.
Qed.

Lemma state_move_terminal s s' : state_move s s' → state_is_terminal s = false.
Proof. by inversion 1; subst; try done; destruct_or?; subst. Qed.

Lemma state_moves_terminal s s' : rtc state_move s s' → state_is_terminal s = true → s' = s.
Proof. intros [|x y z Hm _] Ht; [done|]. apply state_move_terminal in Hm. congruence. Qed.

Lemma state_move_valid s s' : state_move s s' →
  TaskPhase.is_valid_transition (phase_of s) (phase_of s') = true.
Proof.
  inversion 1; subst; try done; [by destruct_or?; subst|].
  match goal with H : state_is_terminal ?x = false |- _ => by destruct x end.
Qed.

(** Along a run the cleanup budget only tightens while the task cleans up. *)
Lemma state_moves_budget s s' : rtc state_move s s' → ∀ b b',
  (match s with CancelRequested _ b | Cancelling _ b | Finalizing _ b => Some b | _ => None end) = Some b →
  (match s' with CancelRequested _ b | Cancelling _ b | Finalizing _ b => Some b | _ => None end) = Some b' →
  tighter b' b.
Proof.
  induction 1 as [s|s1 s2 s3 Hm Hms IH]; intros b b' Hb Hb'.
  - rewrite Hb in Hb'. by simplify_eq.
  - inversion Hm; subst; simplify_eq; try (destruct_or?; subst; done).
    all: try (by apply (IH _ _ eq_refl)).
    all: try (etrans; [by apply (IH _ _ eq_refl)|done]).
    apply state_moves_terminal in Hms as ->; done.
Qed.

(** ** Witnesses *)

Definition state_witness s : option (CancelPhase.t * CancelReason) :=
  match s with
  | CancelRequested r _ => Some (CancelPhase.Requested, r)
  | Cancelling r _ => Some (CancelPhase.Cancelling, r)
  | Finalizing r _ => Some (CancelPhase.Finalizing, r)
  | Completed (Outcome.Cancelled r) => Some (CancelPhase.Completed, r)
  | _ => None
  end.

Lemma cancel_witness_spec t : task_wf t →
  cancel_witness t =
  (λ '(p, r), mkCancelWitness (id t) (owner t) 1 p r) <$> state_witness (state t).
Proof.
  intros [_ He _ _ _]. unfold cancel_witness. unfold epoch_ok in He.
  destruct (state t) as [| |? ?|? ?|? ?|[]]; simpl in *; rewrite ?He; try done.
  all: by destruct (cancel_epoch t =? 0).
Qed.

Lemma state_moves_witness s s' : rtc state_move s s' → ∀ p r p' r',
  state_witness s = Some (p, r) → state_witness s' = Some (p', r') →
  CancelPhase.rank p ≤ CancelPhase.rank p' ∧ weaker r r'.
Proof.
  induction 1 as [s|s1 s2 s3 Hm Hms IH]; intros p r p' r' Hw Hw'.
  - rewrite Hw in Hw'. by simplify_eq.
  - inversion Hm as [|? ? ? Hor|? ? ? ? Hr|? ? ? ? Hr|? ? ? ? Hr| | |s o Ht Hc]; subst; simplify_eq/=.
    + by destruct Hor; subst.
    + destruct (IH _ _ _ _ eq_refl Hw'). split; [done|by etrans].
    + destruct (IH _ _ _ _ eq_refl Hw'). split; [done|by etrans].
    + destruct (IH _ _ _ _ eq_refl Hw'). split; [done|by etrans].
    + destruct (IH _ _ _ _ eq_refl Hw'). split; [simpl in *; lia|done].
    + destruct (IH _ _ _ _ eq_refl Hw'). split; [simpl in *; lia|done].
    + apply state_moves_terminal in Hms as ->; [|done]. unfold completes_as in Hc.
      destruct s1 as [| |? ?|? ?|? ?|?]; simplify_eq/=; destruct o; simplify_eq/=; (split; [lia|done]).
Qed.

(** ** Properties *)

(** Every operation of a task record, and every operation of a handle on
    the shared context, is a step of the abstract lifecycle: the state is
    unchanged or makes one abstract move (whose phase change
    [is_valid_transition] admits); the atomic phase cell agrees with the state
    afterwards; the epoch is zero before and one from the first cancellation
    on; identity and owner never change; a completed task never changes
    state. *)
Theorem task_refines_lifecycle (t t' : TaskRecord E) (op : TaskOp) :
  task_wf t → task_apply t op = Done t' →
  task_wf t' ∧
  (state t' = state t ∨
   state_move (state t) (state t') ∧
   TaskPhase.is_valid_transition (TaskPhase.load (phase t)) (TaskPhase.load (phase t')) = true) ∧
  TaskPhase.load (phase t') = phase_of (state t') ∧
  id t' = id t ∧ owner t' = owner t ∧ cancel_epoch t' ≤ 1 ∧
  (state_is_terminal (state t) = true → state t' = state t).
Proof.
  intros Hwf H. apply task_apply_ok in H as [Hwf' Hm Hi Ho]; [|done].
  pose proof (twf_phase _ Hwf') as Hp'. pose proof (twf_epoch _ Hwf') as He.
  refine (conj Hwf' (conj _ (conj Hp' (conj Hi (conj Ho (conj _ _)))))).
  - destruct Hm as [?|Hm]; [by left|]. right. split; [done|].
    rewrite Hp', (twf_phase _ Hwf). by apply state_move_valid.
  - unfold epoch_ok in He. destruct (state t') as [| | | | |[]]; lia.
  - destruct Hm as [?|Hm]; [done|]. apply state_move_terminal in Hm. congruence.
Qed.

(** The witnesses a task issues during any run form a valid protocol
    trace: a later witness validates against an earlier one (same task,
    region and epoch, phases do not regress, the reason does not weaken), and
    every witness is a valid initial one. *)
Theorem task_witnesses_validate (t t' : TaskRecord E) (ops : list TaskOp) (w w' : CancelWitness) :
  task_wf t → task_run t ops = Done t' →
  cancel_witness t = Some w → cancel_witness t' = Some w' →
  validate_transition (Some w) w' = Ok () ∧ validate_initial w' = Ok () ∧
  weaker (w_reason w) (w_reason w').
Proof.
  intros Hwf Hrun Hw Hw'. apply task_run_ok in Hrun as [Hwf' Hms Hi Ho]; [|done].
  rewrite cancel_witness_spec in Hw, Hw' by done.
  destruct (state_witness (state t)) as [[p r]|] eqn:E1; [|done].
  destruct (state_witness (state t')) as [[p' r']|] eqn:E2; simplify_eq/=.
  destruct (state_moves_witness _ _ Hms _ _ _ _ E1 E2) as [Hrank Hweak].
  rewrite Hi, Ho. split_and!; [|done..].
  rewrite !bool_decide_false by naive_solver. simpl.
  apply N.ltb_ge in Hrank as ->. apply weaker_severity, N.ltb_ge in Hweak as ->. done.
Qed.

(** Cleanup is bounded: once a task has acknowledged a cancellation with
    cleanup budget [b], every later cleanup budget is at least as tight, the
    polls remaining never exceed the poll quota of [b], and the context shows
    exactly the cleanup budget in force. *)
Theorem task_cleanup_bounded (t t' : TaskRecord E) (ops : list TaskOp) (b b' : Budget) :
  task_wf t → task_run t ops = Done t' →
  task_cleanup_budget t = Some b → active_cleanup (state t') = Some b' →
  tighter b' b ∧ polls_remaining t' ≤ poll_quota b ∧
  ∀ i, cx_inner t' = Some i → cx_budget i = b'.
Proof.
  intros Hwf Hrun Hb Hb'. apply task_run_ok in Hrun as [Hwf' Hms _ _]; [|done].
  assert (Ht : tighter b' b).
  { eapply state_moves_budget; [exact Hms|exact Hb|]. by destruct (state t'). }
  split; [done|]. split; [|intros i Hi; by apply (twf_cx _ Hwf' i Hi)].
  pose proof (twf_polls _ Hwf' _ Hb'). destruct Ht as (_ & Hq & _). lia.
Qed.

(** Completion never hides a cancellation or a panic: [complete] fails
    exactly on completed tasks, and otherwise records an outcome whose severity
    is that of the reported outcome, raised to cancelled when the task was being
    cancelled, with a reason at least as strong as the requested one. *)
Theorem task_complete_outcome (t : TaskRecord E) (o : TaskOutcome E) :
  let (t', ok) := complete t o in
  ok = negb (state_is_terminal (state t)) ∧
  (ok = false → t' = t) ∧
  (ok = true → ∃ o', state t' = Completed o' ∧
     Outcome.severity_u8 o' =
       N.max (Outcome.severity_u8 o) (if is_cancelling (state t) then 2 else 0) ∧
     (is_cancelling (state t) = false → o' = o) ∧
     (∀ p, o = Outcome.Panicked p → o' = o) ∧
     (∀ r r', task_cancel_reason t = Some r → o' = Outcome.Cancelled r' → weaker r r')).
Proof.
  unfold complete. destruct (state_is_terminal (state t)) eqn:Ht; [done|].
  split; [done|]. split; [done|]. intros _. exists (final_outcome (state t) o).
  split; [done|]. unfold final_outcome, task_cancel_reason, Outcome.severity_u8.
  destruct (state t), o; simpl in *; split_and!; try done.
  all: intros r0 r' [= <-] [= <-]; solve [reflexivity|apply strengthened_l].
Qed.

(** After a request on a task that is not yet cleaning up, the state asks for
    cancellation and the context has it pending. *)
Lemma request_cancel_pending t r b i : task_wf t →
  state_is_terminal (state t) = false → active_cleanup (state t) = None →
  cx_inner t = Some i →
  let t1 := (request_cancel_with_budget t r b).1.1 in
  ∃ r1 b1 i1, state t1 = CancelRequested r1 b1 ∧ weaker r r1 ∧ cx_inner t1 = Some i1 ∧
    cx_wf i1 ∧ cancel_requested i1 = true ∧ mask_depth i1 = mask_depth i.
Proof.
  intros Hwf Hs Ha Hi t1.
  assert (Hwf1 : task_wf t1) by apply (request_cancel_ok t r b Hwf).
  assert (∃ r1 b1 i1, state t1 = CancelRequested r1 b1 ∧ weaker r r1 ∧ cx_inner t1 = Some i1 ∧
    cancel_requested i1 = true ∧ mask_depth i1 = mask_depth i) as (r1 & b1 & i1 & ? & ? & Hi1 & ? & ?).
  { subst t1. unfold request_cancel_with_budget. rewrite Hs. unfold apply_request. simpl.
    destruct (state t) as [| |r0 b0|? ?|? ?|?]; try done; simpl; rewrite Hi; simpl.
    all: do 3 eexists; split_and!; try done; try reflexivity. apply strengthened_r. }
  exists r1, b1, i1. split_and!; try done. apply (twf_cx _ Hwf1 i1 Hi1).
Qed.

(** C31: The cancellation protocol reaches completion: for every task that is not
    yet cleaning up and whose context is unmasked, a cancel request, the next
    checkpoint (which fails), the acknowledgement by the worker, the end of
    cleanup and of finalization lead, without panicking, to a task completed as
    cancelled for a reason at least as strong as the requested one, with a
    witness for it. *)
Theorem cancel_protocol_completes (t : TaskRecord E) (r : CancelReason) (b : Budget)
  (i : CxInner) (now : Time.t) :
  task_wf t → state_is_terminal (state t) = false → active_cleanup (state t) = None →
  cx_inner t = Some i → mask_depth i = 0 →
  ∃ t' r',
    task_run t [TRequestCancel r b; TCx (OpCheckpoint now); TConsumeAck; TCleanupDone; TFinalizeDone]
      = Done t' ∧
    state t' = Completed (Outcome.Cancelled r') ∧ weaker r r' ∧
    cancel_witness t' = Some (mkCancelWitness (id t) (owner t) 1 CancelPhase.Completed r').
Proof.
  intros Hwf Hs Ha Hi Hm.
  destruct (request_cancel_pending t r b i Hwf Hs Ha Hi) as (r1 & b1 & i1 & Hs1 & Hr1 & Hi1 & Hwf1 & Hq1 & Hm1).
  set (t1 := (request_cancel_with_budget t r b).1.1) in *.
  set (i2 := (checkpoint i1 now).1).
  assert (Hack : cancel_acknowledged i2 = true).
  { unfold i2. rewrite (ob_ack _ _ _ (checkpoint_observed i1 now Hwf1)).
    unfold cancel_pending. rewrite Hq1, Hm1, Hm. simpl. by rewrite orb_true_r. }
  assert (∃ t', task_run t [TRequestCancel r b; TCx (OpCheckpoint now); TConsumeAck; TCleanupDone; TFinalizeDone]
      = Done t' ∧ state t' = Completed (Outcome.Cancelled r1)) as (t' & Hrun & Hs').
  { eexists. cbn [task_run task_apply mbind exec_bind]. fold t1. rewrite Hi1.
    cbn [cx_apply mbind exec_bind]. fold i2. split; [reflexivity|].
    unfold consume_cancel_ack. cbn [update_cx assign cx_inner]. rewrite Hi1. simpl. rewrite Hack. simpl.
    unfold acknowledge_cancel. simpl. rewrite Hs1. done. }
  exists t', r1. split_and!; try done.
  apply task_run_ok in Hrun as [Hwf' _ Hid Ho]; [|done].
  rewrite cancel_witness_spec by done. by rewrite Hs', Hid, Ho.
Qed.

Lemma new_with_time_wf tid region budget now : task_wf (@new_with_time E tid region budget now).
Proof. split; simpl; try done. constructor. Qed.

Lemma set_cx_inner_wf t i : task_wf t → active_cleanup (state t) = None → cx_wf i →
  task_wf (set_cx_inner t i).
Proof.
  intros [? ? ? ? ?] Ha Hi. split; simpl; try done. intros j [= <-]. split; [done|]. by rewrite Ha.
Qed.

End lifecycle.

Arguments TaskOp : clear implicits.

(** ** Witnesses on a concrete task *)

Definition sample_record : TaskRecord () :=
  set_cx_inner (task_new sample_task RegionId_testing_default budget_new) (sample_cx budget_new).

Lemma sample_record_wf : task_wf sample_record.
Proof. apply set_cx_inner_wf; [apply new_with_time_wf|done|apply cx_inner_new_wf]. Qed.

Definition cancelling_record : TaskRecord () :=
  (request_cancel sample_record reason_timeout).1.1.

Lemma cancelling_record_wf : task_wf cancelling_record.
Proof. apply request_cancel_ok, sample_record_wf. Qed.

Lemma task_refines_lifecycle_witness :
  state cancelling_record = CancelRequested reason_timeout (cleanup_budget_of reason_timeout) ∧
  task_wf (acknowledge_cancel cancelling_record).1.
Proof.
  split; [vm_compute; reflexivity|].
  apply (task_refines_lifecycle cancelling_record _ TAcknowledge cancelling_record_wf eq_refl).
Defined.

Lemma task_witnesses_validate_witness :
  ∃ t' w w',
    task_run cancelling_record [TAcknowledge; TRequestCancel reason_shutdown ZERO; TCleanupDone] = Done t' ∧
    cancel_witness cancelling_record = Some w ∧ cancel_witness t' = Some w' ∧
    kind (w_reason w') = CancelKind.Shutdown ∧ validate_transition (Some w) w' = Ok ().
Proof.
  do 3 eexists. split; [vm_compute; reflexivity|]. split; [vm_compute; reflexivity|].
  split; [vm_compute; reflexivity|]. split; [reflexivity|].
  eapply (task_witnesses_validate cancelling_record _
    [TAcknowledge; TRequestCancel reason_shutdown ZERO; TCleanupDone] _ _ cancelling_record_wf);
    vm_compute; reflexivity.
Defined.

Lemma task_cleanup_bounded_witness :
  ∃ t', task_run cancelling_record [TAcknowledge; TRequestCancel reason_shutdown (cleanup_budget_of reason_shutdown)]
      = Done t' ∧ polls_remaining t' = 50 ∧ polls_remaining t' ≤ poll_quota (cleanup_budget_of reason_timeout).
Proof.
  eexists. split; [vm_compute; reflexivity|]. split; [reflexivity|].
  eapply (task_cleanup_bounded cancelling_record _
    [TAcknowledge; TRequestCancel reason_shutdown (cleanup_budget_of reason_shutdown)]
    (cleanup_budget_of reason_timeout) _ cancelling_record_wf); vm_compute; reflexivity.
Defined.

Lemma cancel_protocol_completes_witness :
  ∃ t' r',
    task_run sample_record [TRequestCancel reason_shutdown ZERO; TCx (OpCheckpoint 3); TConsumeAck;
      TCleanupDone; TFinalizeDone] = Done t' ∧
    state t' = Completed (Outcome.Cancelled r').
Proof.
  destruct (cancel_protocol_completes sample_record reason_shutdown ZERO _ 3 sample_record_wf
    eq_refl eq_refl eq_refl eq_refl) as (t' & r' & Hrun & Hs & _).
  exists t', r'. split; [exact Hrun|exact Hs].
Defined.
