(* ===== verification/Wake.v ===== *)
(** * The wake protocol

    Models how wakers and workers use [TaskWakeState] of [src/record/task.rs]
    around the queues: [WorkStealingWaker::schedule] and the wake-state part of
    [Worker::execute] in [src/runtime/scheduler/worker.rs].  Any number of
    threads interleave at the granularity of single atomic accesses and queue
    operations (sequentially consistent); a waker thread that won the
    notification has not pushed the task yet, a worker that popped the task has
    not begun the poll yet. *)

From S2P Require Import Prelude Ids Budget Cancel Outcome Cx Task.

(** Where the scheduling tokens of one task are. *)
Record Protocol := mkProtocol {
  wake : TaskWakeState.cell;
  pushing : nat;     (** wakers between [notify] and [push] *)
  queued : nat;      (** entries in the local and global queues *)
  taken : nat;       (** workers between [pop] and [begin_poll] *)
  polling : nat;     (** workers polling the future *)
  requeuing : nat;   (** workers between [finish_poll] and [push] *)
  wanted : bool;     (** woken since the last [begin_poll] *)
  completed : bool;  (** the stored future has returned and is gone *)
}.

(** A task as stored: idle, in no queue. *)
Definition protocol_init : Protocol := mkProtocol TaskWakeState.new 0 0 0 0 0 false false.

(** [WorkStealingWaker::schedule] up to the push: the thread that finds the
    state idle is going to push the task. *)
Definition schedule (s : Protocol) : Protocol :=
  let (w', first) := TaskWakeState.notify (wake s) in
  mkProtocol w' (if first then S (pushing s) else pushing s) (queued s) (taken s) (polling s)
    (requeuing s) true (completed s).

(** The end of [Worker::execute] for a pending poll, up to the push; [n] other
    workers are polling. *)
Definition finish_pending (s : Protocol) (n : nat) : Protocol :=
  let (w', again) := TaskWakeState.finish_poll (wake s) in
  mkProtocol w' (pushing s) (queued s) (taken s) n
    (if again then S (requeuing s) else requeuing s) (wanted s) (completed s).

(** The steps of whoever holds the task: the waker that won it, a queue, a worker. *)
Inductive holder_step : Protocol → Protocol → Prop :=
(** [push] for the waker that found the state idle. *)
| step_push s n :
    pushing s = S n →
    holder_step s (mkProtocol (wake s) n (S (queued s)) (taken s) (polling s) (requeuing s)
      (wanted s) (completed s))
(** A worker pops the task, ... *)
| step_pop s n :
    queued s = S n →
    holder_step s (mkProtocol (wake s) (pushing s) n (S (taken s)) (polling s) (requeuing s)
      (wanted s) (completed s))
(** ... marks it as being polled when its future is still stored, ... *)
| step_begin_poll s n :
    taken s = S n → completed s = false →
    holder_step s (mkProtocol (TaskWakeState.begin_poll (wake s)) (pushing s) (queued s) n
      (S (polling s)) (requeuing s) false false)
(** (an entry for a task that is gone is dropped) *)
| step_stale s n :
    taken s = S n → completed s = true →
    holder_step s (mkProtocol (wake s) (pushing s) (queued s) n (polling s) (requeuing s)
      (wanted s) true)
(** ... a poll that returns completes the task and clears the state, ... *)
| step_complete s n :
    polling s = S n →
    holder_step s (mkProtocol (TaskWakeState.clear (wake s)) (pushing s) (queued s) (taken s) n
      (requeuing s) false true)
(** ... a pending poll is finished, ... *)
| step_finish_poll s n : polling s = S n → holder_step s (finish_pending s n)
(** ... pushing it again when a wake arrived during the poll. *)
| step_requeue s n :
    requeuing s = S n →
    holder_step s (mkProtocol (wake s) (pushing s) (S (queued s)) (taken s) (polling s) n
      (wanted s) (completed s)).

(** And wakers that notify at any time. *)
Inductive protocol_step : Protocol → Protocol → Prop :=
| step_notify s : protocol_step s (schedule s)
| step_holder s s' : holder_step s s' → protocol_step s s'.

(** [inevitable P s]: whatever the holder does, it goes on until [P] holds. *)
Inductive inevitable (P : Protocol → Prop) : Protocol → Prop :=
| inevitable_now s : P s → inevitable P s
| inevitable_later s : (∃ s', holder_step s s') → (∀ s', holder_step s s' → inevitable P s') → inevitable P s.

Definition tokens (s : Protocol) : nat :=
  (pushing s + queued s + taken s + polling s + requeuing s)%nat.

(** The invariant of a live task: the state is idle exactly when nobody holds
    the task, and otherwise exactly one holder exists; a wake since the last
    poll started is kept in the state byte.  A completed task has no poll. *)
Record protocol_wf (s : Protocol) : Prop := {
  pw_range : wake s = TaskWakeState.Idle ∨ wake s = TaskWakeState.Polling ∨
             wake s = TaskWakeState.Notified;
  pw_idle : completed s = false → wake s = TaskWakeState.Idle → tokens s = 0%nat;
  pw_busy : completed s = false → wake s ≠ TaskWakeState.Idle → tokens s = 1%nat;
  pw_polling : completed s = false → wake s = TaskWakeState.Polling →
               polling s = 1%nat ∧ wanted s = false;
  pw_wanted : completed s = false → wanted s = true → wake s = TaskWakeState.Notified;
  pw_completed : completed s = true → polling s = 0%nat ∧ requeuing s = 0%nat;
}.

Lemma protocol_init_wf : protocol_wf protocol_init.
Proof. split; simpl; try done. by left. Qed.

(** A worker inside [execute] holds the only token of a live task. *)
Lemma holder_unique s : protocol_wf s → completed s = false → (1 ≤ tokens s)%nat →
  wake s ≠ TaskWakeState.Idle ∧ tokens s = 1%nat.
Proof.
  intros Hwf Hc Ht. assert (Hn : wake s ≠ TaskWakeState.Idle).
  { intros E. pose proof (pw_idle _ Hwf Hc E). lia. }
  split; [done|]. by apply Hwf.
Qed.

Lemma polling_live s n : protocol_wf s → polling s = S n → completed s = false.
Proof. intros Hwf Hp. destruct (completed s) eqn:E; [|done]. destruct (pw_completed _ Hwf E). lia. Qed.

(** Moving the token between queues and threads. *)
Lemma move_token_wf s p q k r : protocol_wf s →
  (p + q + k + r = pushing s + queued s + taken s + requeuing s)%nat →
  (completed s = true → r = 0%nat) →
  protocol_wf (mkProtocol (wake s) p q k (polling s) r (wanted s) (completed s)).
Proof.
  intros [Hr Hi Hb Hp Hw Hc] Heq Hr0. unfold tokens in *. split; unfold tokens; simpl; try done.
  - intros C E. specialize (Hi C E). lia.
  - intros C E. specialize (Hb C E). lia.
  - intros C. split; [by apply Hc|auto].
Qed.

Lemma notify_wf s : protocol_wf s → protocol_wf (schedule s).
Proof.
  intros [Hr Hi Hb Hp Hw Hc]. unfold schedule, TaskWakeState.notify, tokens in *.
  split; unfold tokens; simpl; try done; [by auto|]. intros C _.
  destruct (N.eqb_spec (wake s) TaskWakeState.Idle) as [E|E];
    [specialize (Hi C E)|specialize (Hb C E)]; lia.
Qed.

Lemma finish_poll_wf s n : protocol_wf s → polling s = S n → protocol_wf (finish_pending s n).
Proof.
  intros Hwf Hn. pose proof (polling_live _ _ Hwf Hn) as C.
  destruct (holder_unique s Hwf C) as [Hne Ht]; [unfold tokens; lia|].
  pose proof Hwf as [Hr _ _ Hp Hw _]. unfold finish_pending, TaskWakeState.finish_poll, tokens in *.
  destruct (N.eqb_spec (wake s) TaskWakeState.Polling) as [E|E].
  - destruct (Hp C E) as [_ Hp2].
    split; unfold tokens; simpl; try done; [by auto|lia|by intros _; rewrite Hp2|congruence].
  - assert (wake s = TaskWakeState.Notified) as E2 by (destruct Hr as [|[|]]; done).
    rewrite E2. split; unfold tokens; simpl; try done; [by auto|lia|congruence].
Qed.

Lemma protocol_step_wf s s' : protocol_wf s → protocol_step s s' → protocol_wf s'.
Proof.
  intros Hwf Hstep.
  destruct Hstep as [s|s s' Hstep]; [by apply notify_wf|].
  destruct Hstep as [s n H|s n H|s n H C|s n H C|s n H|s n H|s n H].
  - apply move_token_wf; [done|lia|apply Hwf].
  - apply move_token_wf; [done|lia|apply Hwf].
  - destruct (holder_unique s Hwf C) as [_ Ht]; unfold tokens in *; [lia|].
    split; unfold tokens; simpl; try done; [by auto|lia|]. intros _ _. split; [lia|done].
  - pose proof Hwf as [Hr _ _ _ _ Hc]. specialize (Hc C). by split; simpl.
  - destruct (holder_unique s Hwf (polling_live _ _ Hwf H)) as [_ Ht]; unfold tokens in *; [lia|].
    split; simpl; try done; [by auto|]. intros _. lia.
  - by apply finish_poll_wf.
  - apply move_token_wf; [done|lia|]. intros C. destruct (pw_completed _ Hwf C). lia.
Qed.

Lemma protocol_reachable_wf s : rtc protocol_step protocol_init s → protocol_wf s.
Proof.
  intros H. assert (Hg : ∀ a b, rtc protocol_step a b → protocol_wf a → protocol_wf b).
  { induction 1 as [|x y z Hs _ IH]; [done|]. intros Hx. by eapply IH, protocol_step_wf. }
  by eapply Hg, protocol_init_wf.
Qed.

(** How many steps of the holder lead to the next poll. *)
Definition distance (s : Protocol) : nat :=
  (5 * polling s + 4 * requeuing s + 4 * pushing s + 2 * queued s + taken s)%nat.

(** A poll of the task has started since, or the task has completed. *)
Definition answered (s : Protocol) : Prop := completed s = true ∨ wanted s = false ∧ polling s = 1%nat.

(** Every step of the holder of a woken task answers the wake or brings the answer
    nearer, and there is one. *)
Lemma holder_progress s s' : protocol_wf s → completed s = false → wanted s = true → holder_step s s' →
  answered s' ∨ completed s' = false ∧ wanted s' = true ∧ (distance s' < distance s)%nat.
Proof.
  intros Hwf C Hw Hs. pose proof (pw_wanted _ Hwf C Hw) as Hnot.
  assert (Ht : tokens s = 1%nat) by (apply (pw_busy _ Hwf C); by rewrite Hnot). unfold tokens in Ht. unfold answered.
  destruct Hs as [s n H|s n H|s n H _|s n H C'|s n H|s n H|s n H]; simpl.
  - right. unfold distance. simpl. split_and!; [done|done|lia].
  - right. unfold distance. simpl. split_and!; [done|done|lia].
  - left. right. split; [done|lia].
  - congruence.
  - left. by left.
  - right. unfold finish_pending, TaskWakeState.finish_poll, distance. rewrite Hnot. simpl. split_and!; [done|done|lia].
  - right. unfold distance. simpl. split_and!; [done|done|lia].
Qed.

Lemma holder_moves s : protocol_wf s → completed s = false → wanted s = true → ∃ s', holder_step s s'.
Proof.
  intros Hwf C Hw. pose proof (pw_wanted _ Hwf C Hw) as Hnot.
  assert (Ht : tokens s = 1%nat) by (apply (pw_busy _ Hwf C); by rewrite Hnot). unfold tokens in Ht.
  destruct (pushing s) as [|p] eqn:Ep; [|eexists; by eapply step_push].
  destruct (queued s) as [|q] eqn:Eq; [|eexists; by eapply step_pop].
  destruct (taken s) as [|k] eqn:Ek; [|eexists; by eapply step_begin_poll].
  destruct (polling s) as [|o] eqn:Eo; [|eexists; by eapply step_finish_poll].
  destruct (requeuing s) as [|r] eqn:Er; [lia|eexists; by eapply step_requeue].
Qed.

Lemma wanted_inevitable n s : protocol_wf s → completed s = false → wanted s = true → (distance s ≤ n)%nat →
  inevitable answered s.
Proof.
  revert s. induction n as [n IH] using lt_wf_ind. intros s Hwf C Hw Hn. apply inevitable_later; [by apply holder_moves|].
  intros s' Hs. destruct (holder_progress s s' Hwf C Hw Hs) as [Ha|(C' & Hw' & Hd)]; [by apply inevitable_now|].
  apply (IH (distance s')); [lia|by eapply protocol_step_wf, step_holder|done|done|lia].
Qed.

(** C30: No wake is lost and no task is polled twice at a time.  In every
    reachable interleaving of any number of wakers and workers at most one
    worker polls the task; while it is live there is at most one holder and an
    idle task is in no queue; a live task woken since its last poll began is
    inevitably polled again (or completed by the poll that is running): whatever
    its holder does, and without any further wake, the holder has a next step
    until a new poll has begun; and a completed task is never polled again. *)
Theorem wake_protocol_correct (s : Protocol) : rtc protocol_step protocol_init s →
  (polling s ≤ 1)%nat ∧
  (completed s = true → polling s = 0%nat) ∧
  (completed s = false →
   (tokens s ≤ 1)%nat ∧ (tokens s = 0%nat ↔ wake s = TaskWakeState.Idle) ∧
   (wanted s = true → inevitable (λ s', completed s' = true ∨ wanted s' = false ∧ polling s' = 1%nat) s)).
Proof.
  intros Hr. apply protocol_reachable_wf in Hr as Hwf.
  destruct (completed s) eqn:C.
  { destruct (pw_completed _ Hwf C). split; [lia|done]. }
  assert (Ht : tokens s = 0%nat ∧ wake s = TaskWakeState.Idle ∨
               tokens s = 1%nat ∧ wake s ≠ TaskWakeState.Idle).
  { destruct (N.eq_dec (wake s) TaskWakeState.Idle) as [E|E];
      [left; split; [by apply Hwf|done]|right; split; [by apply Hwf|done]]. }
  split; [unfold tokens in Ht; lia|]. split; [done|]. intros _.
  split; [lia|]. split; [naive_solver lia|].
  intros Hw. exact (wanted_inevitable _ s Hwf C Hw (Nat.le_refl _)).
Qed.

(** A wake that arrives during a poll. *)
Definition woken_poll : Protocol := mkProtocol TaskWakeState.Notified 0 0 0 1 0 true false.

Lemma wake_protocol_correct_witness :
  rtc protocol_step protocol_init woken_poll ∧ wanted woken_poll = true ∧
  inevitable (λ s', completed s' = true ∨ wanted s' = false ∧ polling s' = 1%nat) woken_poll.
Proof.
  assert (H : rtc protocol_step protocol_init woken_poll).
  { eapply rtc_l; [exact (step_notify protocol_init)|]. eapply rtc_l; [apply step_holder, (step_push _ 0); reflexivity|].
    eapply rtc_l; [apply step_holder, (step_pop _ 0); reflexivity|]. eapply rtc_l; [apply step_holder, (step_begin_poll _ 0); reflexivity|].
    apply rtc_once. exact (step_notify _). }
  split; [exact H|]. split; [reflexivity|]. apply (wake_protocol_correct woken_poll H); reflexivity.
Defined.
