(* ===== verification/IntrusiveHeap.v ===== *)
(** * The intrusive priority heap

    Models [src/runtime/scheduler/intrusive_heap.rs]: a binary max-heap of task
    ids whose positions, priorities and arrival numbers live in the task records
    of the arena (fields [heap_index], [sched_priority], [sched_generation]).
    Indexing out of range panics; the loops carry fuel.

    The theorem: whatever the sequence of pushes, pops and removals, the heap
    behaves as a stable priority queue (highest priority first, first come first
    served among equals), and the positions stored in the records stay exact. *)

From S2P Require Import Prelude Ids Arena Budget Cancel Outcome Cx Task.

Section heap.
Context {E : Type}.
Notation Records := (Arena (TaskRecord E)).
Implicit Types (a : Records).

Record IntrusivePriorityHeap := mkHeap { heap : list TaskId; next_generation : N }.
Implicit Types (h : IntrusivePriorityHeap).

Definition heap_new : IntrusivePriorityHeap := mkHeap [] 0.
Definition heap_len h : N := lenN (heap h).
Definition heap_is_empty h : bool := bool_decide (heap h = []).
Definition heap_peek h : option TaskId := heap h !! 0%nat.

(** Assignment of the scheduling fields of a record. *)
Definition set_sched (r : TaskRecord E) (index : option N) (priority generation : N) : TaskRecord E :=
  mkTaskRecord (id r) (owner r) (state r) (phase r) (wake_state r) (cx_inner r) (has_cx r) (created_at r)
    (task_deadline r) (polls_remaining r) (total_polls r) (last_polled_step r) (waiters r) (cached_waker r)
    (cached_cancel_waker r) (cancel_epoch r) (is_local r) (pinned_worker r) (next_in_queue r)
    (prev_in_queue r) (queue_tag r) index priority generation.

Definition set_heap_index (index : option N) (r : TaskRecord E) : TaskRecord E :=
  set_sched r index (sched_priority r) (sched_generation r).
Definition clear_sched (r : TaskRecord E) : TaskRecord E := set_sched r None 0 0.

(** [if let Some(record) = arena.get_mut(task) { *record = f(record) }]. *)
Definition with_record a (t : TaskId) (f : TaskRecord E → TaskRecord E) : Records :=
  match get_mut a (task_arena_index t) with Some (r, put) => put (f r) | None => a end.

(** [pos as u32]. *)
Definition as_u32 (pos : nat) : N := N.of_nat pos mod (u32_MAX + 1).

(** [x.cast_signed() > 0] for a [u64]. *)
Definition signed_positive (x : N) : bool := (0 <? x) && (x <? 2 ^ 63).

Definition heap_contains h (t : TaskId) a : bool :=
  match get a (task_arena_index t) with
  | Some r =>
      match heap_index r with
      | None => false
      | Some pos => bool_decide (heap h !! N.to_nat pos = Some t)
      end
  | None => false
  end.

Definition sched_key a (t : TaskId) : N * N :=
  match get a (task_arena_index t) with Some r => (sched_priority r, sched_generation r) | None => (0, u64_MAX) end.

Definition higher_priority h (i j : nat) a : run bool :=
  match heap h !! i, heap h !! j with
  | Some task_a, Some task_b =>
      let '(prio_a, gen_a) := sched_key a task_a in
      let '(prio_b, gen_b) := sched_key a task_b in
      Returns (if prio_b <? prio_a then true
               else if prio_a <? prio_b then false
               else signed_positive (wrapping_sub u64_MAX gen_b gen_a))
  | _, _ => Panicked
  end.

(** [self.heap.swap(i, j)]. *)
Definition vec_swap {A} (l : list A) (i j : nat) : run (list A) :=
  match l !! i, l !! j with
  | Some x, Some y => Returns (<[j := x]> (<[i := y]> l))
  | _, _ => Panicked
  end.

Definition swap_positions h (i j : nat) a : run (IntrusivePriorityHeap * Records) :=
  l ← vec_swap (heap h) i j;
  match l !! i, l !! j with
  | Some x, Some y =>
      let a := with_record a x (set_heap_index (Some (as_u32 i))) in
      let a := with_record a y (set_heap_index (Some (as_u32 j))) in
      Returns (mkHeap l (next_generation h), a)
  | _, _ => Panicked
  end.

Fixpoint sift_up (fuel : nat) h (pos : nat) a : run (IntrusivePriorityHeap * Records * nat) :=
  if bool_decide (pos = 0)%nat then Returns (h, a, pos)
  else
    match fuel with
    | O => OutOfFuel
    | S fuel =>
        let parent := ((pos - 1) / 2)%nat in
        up ← higher_priority h pos parent a;
        if up : bool then
          p ← swap_positions h pos parent a;
          sift_up fuel p.1 parent p.2
        else Returns (h, a, pos)
    end.

Fixpoint sift_down (fuel : nat) h (pos : nat) a : run (IntrusivePriorityHeap * Records) :=
  match fuel with
  | O => OutOfFuel
  | S fuel =>
      let len := length (heap h) in
      let left := (2 * pos + 1)%nat in
      let right := (2 * pos + 2)%nat in
      largest ← (if bool_decide (left < len)%nat then
                   up ← higher_priority h left pos a;
                   Returns (if up : bool then left else pos)
                 else Returns pos);
      largest ← (if bool_decide (right < len)%nat then
                   up ← higher_priority h right largest a;
                   Returns (if up : bool then right else largest)
                 else Returns largest);
      if bool_decide (largest = pos) then Returns (h, a)
      else
        p ← swap_positions h pos largest a;
        sift_down fuel p.1 largest p.2
  end.

Definition reset_generation_if_empty h : IntrusivePriorityHeap :=
  if heap_is_empty h then mkHeap (heap h) 0 else h.

Definition heap_push h (t : TaskId) (priority : N) a : run (IntrusivePriorityHeap * Records) :=
  match get_mut a (task_arena_index t) with
  | None => Returns (h, a)
  | Some (r, put) =>
      match heap_index r with
      | Some _ => Returns (h, a)
      | None =>
          let generation := next_generation h in
          let pos := length (heap h) in
          let a := put (set_sched r (Some (as_u32 pos)) priority generation) in
          let h := mkHeap (heap h ++ [t]) (wrapping_add u64_MAX (next_generation h) 1) in
          p ← sift_up pos h pos a;
          Returns p.1
      end
  end.

Definition remove_at h (pos : nat) a : run (IntrusivePriorityHeap * Records) :=
  let last := (length (heap h) - 1)%nat in
  match heap h !! pos with
  | None => Panicked
  | Some t =>
      let a := with_record a t clear_sched in
      if bool_decide (pos = last) then
        Returns (reset_generation_if_empty (mkHeap (take last (heap h)) (next_generation h)), a)
      else
        l ← vec_swap (heap h) pos last;
        let h := mkHeap (take last l) (next_generation h) in
        match heap h !! pos with
        | None => Panicked
        | Some moved =>
            let a := with_record a moved (set_heap_index (Some (as_u32 pos))) in
            p ← sift_up pos h pos a;
            let '(h, a, new_pos) := p in
            if bool_decide (new_pos = pos) then sift_down (length (heap h)) h pos a else Returns (h, a)
        end
  end.

Definition heap_pop h a : run (IntrusivePriorityHeap * Records * option TaskId) :=
  match heap h with
  | [] => Returns (h, a, None)
  | t :: _ => p ← remove_at h 0 a; Returns (p, Some t)
  end.

Definition heap_remove h (t : TaskId) a : run (IntrusivePriorityHeap * Records * bool) :=
  match get a (task_arena_index t) with
  | None => Returns (h, a, false)
  | Some r =>
      match heap_index r with
      | None => Returns (h, a, false)
      | Some pos =>
          if bool_decide (heap h !! N.to_nat pos = Some t)
          then p ← remove_at h (N.to_nat pos) a; Returns (p, true)
          else Returns (h, with_record a t clear_sched, false)
      end
  end.

Definition heap_clear h a : IntrusivePriorityHeap * Records :=
  (reset_generation_if_empty (mkHeap [] (next_generation h)),
   foldl (λ a t, with_record a t clear_sched) a (heap h)).

End heap.

(** ** Heap order on lists *)

Definition parent (i : nat) : nat := ((i - 1) / 2)%nat.

Lemma parent_lt i : (0 < i)%nat → (parent i < i)%nat.
Proof. intros Hi. unfold parent. apply Nat.Div0.div_lt_upper_bound. lia. Qed.

Lemma parent_children i j : (0 < j)%nat → parent j = i ↔ j = (2 * i + 1)%nat ∨ j = (2 * i + 2)%nat.
Proof.
  intros Hj. unfold parent. pose proof (Nat.div_mod_eq (j - 1) 2). pose proof (Nat.mod_upper_bound (j - 1) 2). lia.
Qed.

(** [l] with positions [i] and [j] exchanged. *)
Definition swapped {A} (l : list A) (i j : nat) (x y : A) : list A := <[j := x]> (<[i := y]> l).

Section order.
Context {A : Type} (rank : A → N).
Implicit Types (l : list A) (pos i j : nat).

Definition ord_at l i : Prop := ∀ x y, l !! i = Some x → l !! parent i = Some y → rank x ≤ rank y.
Definition ordered l : Prop := ∀ i, (0 < i)%nat → ord_at l i.

(** Order everywhere but around [pos], whose children are below its parent. *)
Definition gap l pos : Prop :=
  (∀ i, (0 < i)%nat → i ≠ pos → parent i ≠ pos → ord_at l i) ∧
  (∀ c x y, (0 < c)%nat → parent c = pos → (0 < pos)%nat → l !! c = Some x → l !! parent pos = Some y → rank x ≤ rank y).
Definition kids_ok l pos : Prop := ∀ c, (0 < c)%nat → parent c = pos → ord_at l c.
Definition parent_ok l pos : Prop := (0 < pos)%nat → ord_at l pos.

Lemma gap_ordered l pos : gap l pos → kids_ok l pos → parent_ok l pos → ordered l.
Proof.
  intros [Hg _] Hk Hp i Hi. destruct (decide (i = pos)) as [->|]; [by apply Hp|].
  destruct (decide (parent i = pos)); [by apply Hk|by apply Hg].
Qed.

Lemma swapped_lookup l i j x y k : l !! i = Some x → l !! j = Some y → i ≠ j →
  swapped l i j x y !! k = if decide (k = j) then Some x else if decide (k = i) then Some y else l !! k.
Proof.
  intros Hi%lookup_lt_Some Hj%lookup_lt_Some Hij. unfold swapped.
  destruct (decide (k = j)) as [->|]; [apply list_lookup_insert_eq; by rewrite length_insert|].
  rewrite list_lookup_insert_ne by done.
  destruct (decide (k = i)) as [->|]; [by apply list_lookup_insert_eq|by apply list_lookup_insert_ne].
Qed.

(** Moving a larger element up. *)
Lemma gap_up l pos x y : (0 < pos)%nat → l !! pos = Some x → l !! parent pos = Some y → rank y < rank x → gap l pos →
  gap (swapped l pos (parent pos) x y) (parent pos) ∧ kids_ok (swapped l pos (parent pos) x y) (parent pos).
Proof.
  intros Hpos Hx Hy Hlt [Hg Hgrand]. pose proof (parent_lt pos Hpos) as Hpar.
  assert (Hl : ∀ k, swapped l pos (parent pos) x y !! k =
    if decide (k = parent pos) then Some x else if decide (k = pos) then Some y else l !! k)
    by (intros k; apply swapped_lookup; auto; lia).
  split; [split|].
  - intros i Hi Hne Hpne u v. rewrite !Hl. destruct (decide (i = parent pos)); [done|].
    destruct (decide (parent i = parent pos)); [done|]. destruct (decide (i = pos)) as [->|]; [done|].
    destruct (decide (parent i = pos)) as [Hpi|]; [|by apply Hg].
    intros Hu [= <-]. by eapply Hgrand.
  - intros c u v Hc Hpc Hpp. rewrite !Hl. pose proof (parent_lt (parent pos) Hpp). pose proof (parent_lt c Hc).
    destruct (decide (c = parent pos)); [lia|].
    destruct (decide (parent (parent pos) = parent pos)); [lia|]. destruct (decide (parent (parent pos) = pos)); [lia|].
    destruct (decide (c = pos)) as [->|].
    + intros [= <-] Hv. eapply (Hg (parent pos)); [lia|lia|lia|exact Hy|exact Hv].
    + intros Hu Hv. transitivity (rank y); [eapply (Hg c Hc); [lia|lia|exact Hu|by rewrite Hpc]|].
      eapply (Hg (parent pos)); [lia|lia|lia|exact Hy|exact Hv].
  - intros c Hc Hpc u v. rewrite !Hl, Hpc. destruct (decide (parent pos = parent pos)); [|done].
    pose proof (parent_lt c Hc). destruct (decide (c = parent pos)); [lia|].
    destruct (decide (c = pos)) as [->|].
    + intros [= <-] [= <-]. lia.
    + intros Hu [= <-]. transitivity (rank y); [|lia]. eapply (Hg c Hc); [done|lia|done|by rewrite Hpc].
Qed.

(** Moving the larger child up. *)
Lemma gap_down l pos j x z : (0 < j)%nat → parent j = pos → l !! pos = Some x → l !! j = Some z → rank x < rank z →
  (∀ c u, (0 < c)%nat → parent c = pos → l !! c = Some u → rank u ≤ rank z) →
  gap l pos → parent_ok l pos → gap (swapped l pos j x z) j ∧ parent_ok (swapped l pos j x z) j.
Proof.
  intros Hj Hpj Hx Hz Hlt Hbest [Hg Hgrand] Hpar. pose proof (parent_lt j Hj) as Hposj. rewrite Hpj in Hposj.
  assert (Hl : ∀ k, swapped l pos j x z !! k = if decide (k = j) then Some x else if decide (k = pos) then Some z else l !! k)
    by (intros k; apply swapped_lookup; auto; lia).
  split; [split|].
  - intros i Hi Hne Hpne u v. rewrite !Hl. destruct (decide (i = j)); [done|]. destruct (decide (parent i = j)); [done|].
    destruct (decide (i = pos)) as [->|].
    + pose proof (parent_lt pos Hi). destruct (decide (parent pos = pos)); [lia|]. intros [= <-] Hv.
      by apply (Hgrand j).
    + destruct (decide (parent i = pos)) as [Hpi|]; [|by apply Hg]. intros Hu [= <-]. by eapply Hbest.
  - intros c u v Hc Hpc _. rewrite !Hl, Hpj. pose proof (parent_lt c Hc).
    destruct (decide (c = j)); [lia|]. destruct (decide (c = pos)); [lia|].
    destruct (decide (pos = j)); [lia|]. destruct (decide (pos = pos)); [|done].
    intros Hu [= <-]. eapply (Hg c Hc); [lia|lia|done|by rewrite Hpc].
  - intros _ u v. rewrite !Hl, Hpj. destruct (decide (j = j)); [|done]. destruct (decide (pos = j)); [lia|].
    destruct (decide (pos = pos)); [|done]. intros [= <-] [= <-]. lia.
Qed.

(** The root is a maximum. *)
Lemma ordered_root l i x r : ordered l → l !! i = Some x → l !! 0%nat = Some r → rank x ≤ rank r.
Proof.
  intros Ho. revert x. induction i as [i IH] using lt_wf_ind. intros x Hx Hr.
  destruct (decide (i = 0%nat)) as [->|Hi]; [simplify_eq; lia|].
  assert (Hp : (parent i < i)%nat) by (apply parent_lt; lia).
  destruct (l !! parent i) as [y|] eqn:Hy; [|apply lookup_lt_Some in Hx; apply lookup_ge_None in Hy; lia].
  transitivity (rank y); [by apply (Ho i ltac:(lia))|by eapply IH].
Qed.

Lemma gap_snoc l x : ordered l → gap (l ++ [x]) (length l) ∧ kids_ok (l ++ [x]) (length l).
Proof.
  intros Ho. assert (Hend : ∀ c, (0 < c)%nat → parent c = length l → (l ++ [x]) !! c = None).
  { intros c Hc Hp. pose proof (parent_lt c Hc). apply lookup_ge_None. rewrite length_app. simpl. lia. }
  split; [split|].
  - intros i Hi Hne Hpne u v Hu Hv. pose proof (parent_lt i Hi).
    pose proof (lookup_lt_Some _ _ _ Hu) as Hlt. rewrite length_app in Hlt. simpl in Hlt.
    rewrite lookup_app_l in Hu, Hv by lia. by eapply Ho.
  - intros c u v Hc Hp _ Hu. by rewrite Hend in Hu.
  - intros c Hc Hp u v Hu. by rewrite Hend in Hu.
Qed.

(** Replacing position [pos] by the last element, which is dropped from the end. *)
Lemma gap_replace l pos z : ordered l → (S pos < length l)%nat → last l = Some z →
  gap (<[pos := z]> (take (length l - 1) l)) pos.
Proof.
  intros Ho Hpos Hlast. set (k := (length l - 1)%nat).
  assert (Hl : ∀ i u, i ≠ pos → <[pos := z]> (take k l) !! i = Some u → l !! i = Some u).
  { intros i u Hi Hu. rewrite list_lookup_insert_ne in Hu by done. by apply lookup_take_Some in Hu as [? _]. }
  split.
  - intros i Hi Hne Hpne u v Hu Hv. eapply (Ho i Hi); by apply Hl.
  - intros c u v Hc Hpc Hpp Hu Hv. pose proof (parent_lt c Hc). pose proof (parent_lt pos Hpp).
    apply Hl in Hu; [|lia]. apply Hl in Hv; [|lia].
    destruct (l !! pos) as [w|] eqn:Hw; [|apply lookup_ge_None in Hw; lia].
    transitivity (rank w); [eapply (Ho c Hc); [done|by rewrite Hpc]|eapply (Ho pos Hpp); eauto].
Qed.

Lemma ordered_take l k : ordered l → ordered (take k l).
Proof.
  intros Ho i Hi u v Hu Hv. apply lookup_take_Some in Hu as [Hu _], Hv as [Hv _]. by eapply Ho.
Qed.

End order.

(** ** The heap and the records *)

Section facts.
Context {E : Type}.
Notation Records := (Arena (TaskRecord E)).
Implicit Types (a : Records) (h : IntrusivePriorityHeap) (t u : TaskId).

Definition rec a t : option (TaskRecord E) := get a (task_arena_index t).

Lemma get_mut_rec a t : arena_wf a →
  match get_mut a (task_arena_index t) with
  | Some (r, put) => rec a t = Some r ∧ ∀ r', arena_wf (put r') ∧ ∀ u, rec (put r') u = if decide (u = t) then Some r' else rec a u
  | None => rec a t = None
  end.
Proof.
  intros Hwf. pose proof (get_mut_spec a (task_arena_index t) Hwf) as Hg. destruct (get_mut _ _) as [[r put]|]; [|done].
  destruct Hg as [Hg Hput]. split; [done|]. intros r'. destruct (Hput r') as (Hw & _ & _ & Hget). split; [done|].
  intros u. unfold rec. rewrite Hget. destruct t as [it], u as [iu]. simpl.
  destruct (decide (iu = it)) as [->|]; [by rewrite decide_True|]. rewrite decide_False; [done|]. by intros [= ->].
Qed.

Lemma with_record_spec a t f : arena_wf a →
  arena_wf (with_record a t f) ∧ ∀ u, rec (with_record a t f) u = if decide (u = t) then f <$> rec a t else rec a u.
Proof.
  intros Hwf. unfold with_record. pose proof (get_mut_rec a t Hwf) as Hg. destruct (get_mut _ _) as [[r put]|].
  - destruct Hg as [-> Hput]. destruct (Hput (f r)) as [? Hr]. done.
  - split; [done|]. intros u. destruct (decide (u = t)) as [->|]; [by rewrite Hg|done].
Qed.

(** The records differ at most in their heap positions. *)
Definition same_keys a a' : Prop := ∀ t, set_heap_index None <$> rec a' t = set_heap_index None <$> rec a t.

Lemma same_keys_refl a : same_keys a a.
Proof. done. Qed.

Lemma same_keys_trans a1 a2 a3 : same_keys a1 a2 → same_keys a2 a3 → same_keys a1 a3.
Proof. intros H1 H2 t. by rewrite H2. Qed.

Lemma same_keys_key a a' t : same_keys a a' → sched_key a' t = sched_key a t.
Proof.
  intros Hk. specialize (Hk t). unfold sched_key. fold (rec a t) (rec a' t).
  destruct (rec a t), (rec a' t); simplify_eq/=; [|done]. unfold set_heap_index, set_sched in Hk. congruence.
Qed.

(** The rank of a task: by priority, then by arrival. *)
Definition rank a t : N := (sched_key a t).1 * 2 ^ 64 + (u64_MAX - (sched_key a t).2).

Lemma same_keys_rank a a' t : same_keys a a' → rank a' t = rank a t.
Proof. intros Hk. unfold rank. by rewrite (same_keys_key a a'). Qed.

(** Every record in the heap knows its position, and no other record has one. *)
Record linked (l : list TaskId) a : Prop := {
  linked_wf : arena_wf a;
  linked_index : ∀ i t, l !! i = Some t → ∃ r, rec a t = Some r ∧ heap_index r = Some (N.of_nat i);
  linked_only : ∀ t r p, rec a t = Some r → heap_index r = Some p → l !! N.to_nat p = Some t;
}.

Lemma linked_NoDup l a : linked l a → NoDup l.
Proof.
  intros [_ Hi _]. apply NoDup_alt. intros i j t Ht Ht'.
  destruct (Hi i t Ht) as (r & Hr & Hx). destruct (Hi j t Ht') as (r' & Hr' & Hy). simplify_eq. lia.
Qed.

(** The arena bounds the heap, so positions fit [u32]. *)
Lemma linked_length l a : linked l a → (length l ≤ N.to_nat (u32_MAX + 1))%nat.
Proof.
  intros Hl. pose proof (linked_NoDup l a Hl) as Hnd. destruct Hl as [[Hlen _ _ _] Hi _].
  assert (Hsub : (λ t, N.to_nat (ai_index (task_arena_index t))) <$> l ⊆ seq 0 (length (slots a))).
  { intros k (t & -> & (i & Ht)%list_elem_of_lookup)%list_elem_of_fmap. destruct (Hi i t Ht) as (r & Hr & _).
    unfold rec, get in Hr. destruct (slots a !! _) as [s|] eqn:Hs; [|done]. apply elem_of_seq.
    apply lookup_lt_Some in Hs. lia. }
  assert (Hnd' : NoDup ((λ t, N.to_nat (ai_index (task_arena_index t))) <$> l)).
  { apply NoDup_fmap_2_strong; [|done]. intros t u (i & Ht)%list_elem_of_lookup (j & Hu)%list_elem_of_lookup Heq.
    destruct (Hi i t Ht) as (r & Hr & _), (Hi j u Hu) as (r' & Hr' & _). unfold rec, get in Hr, Hr'. rewrite Heq in Hr.
    destruct (slots a !! _) as [[v g|]|]; try done. repeat case_match; N_bools; simplify_eq/=.
    destruct t as [[ti tg]], u as [[ui ug]]. simpl in *. f_equal. f_equal; lia. }
  pose proof (NoDup_submseteq _ _ Hnd' Hsub) as Hss. apply submseteq_length in Hss.
  rewrite length_fmap, length_seq in Hss. lia.
Qed.

Lemma as_u32_small l a i : linked l a → (i < length l)%nat → as_u32 i = N.of_nat i.
Proof. intros Hl Hi. apply linked_length in Hl. unfold as_u32. apply N.mod_small. lia. Qed.

Lemma swapped_perm {A} (l : list A) i j x y : l !! i = Some x → l !! j = Some y → i ≠ j → swapped l i j x y ≡ₚ l.
Proof.
  intros Hi Hj Hij. apply Permutation_inj. split; [unfold swapped; by rewrite !length_insert|].
  exists (λ k, if decide (k = j) then i else if decide (k = i) then j else k). split.
  - intros p q. repeat case_decide; lia.
  - intros k. rewrite swapped_lookup by done. repeat case_decide; congruence.
Qed.

Lemma swap_positions_spec h a i j x y : linked (heap h) a → heap h !! i = Some x → heap h !! j = Some y → i ≠ j →
  ∃ a', swap_positions h i j a = Returns (mkHeap (swapped (heap h) i j x y) (next_generation h), a') ∧
    linked (swapped (heap h) i j x y) a' ∧ same_keys a a'.
Proof.
  intros Hl Hx Hy Hij. unfold swap_positions, vec_swap. rewrite Hx, Hy. simpl. fold (swapped (heap h) i j x y).
  assert (Hsw : ∀ k, swapped (heap h) i j x y !! k = if decide (k = j) then Some x else if decide (k = i) then Some y else heap h !! k)
    by (intros; by apply swapped_lookup).
  rewrite !Hsw, (decide_False (P := i = j)), !decide_True by done.
  rewrite !(as_u32_small (heap h) a) by (done || by eapply lookup_lt_Some).
  pose proof Hl as [Hwf Hidx Honly].
  destruct (with_record_spec a y (set_heap_index (Some (N.of_nat i))) Hwf) as [Hwf1 Hr1].
  destruct (with_record_spec _ x (set_heap_index (Some (N.of_nat j))) Hwf1) as [Hwf2 Hr2].
  eexists. split; [done|].
  assert (Hxy : x ≠ y) by (intros ->; apply Hij; eapply NoDup_lookup; eauto using linked_NoDup).
  assert (Hr : ∀ t, rec (with_record (with_record a y (set_heap_index (Some (N.of_nat i)))) x (set_heap_index (Some (N.of_nat j)))) t =
     if decide (t = x) then set_heap_index (Some (N.of_nat j)) <$> rec a x
     else if decide (t = y) then set_heap_index (Some (N.of_nat i)) <$> rec a y else rec a t).
  { intros t. rewrite Hr2, !Hr1. by rewrite (decide_False (P := x = y)). }
  split; [split; [done|..]|].
  - intros k t. rewrite Hsw, Hr. destruct (decide (k = j)) as [->|Hkj].
    + intros [= <-]. rewrite decide_True by done. destruct (Hidx i x Hx) as (r & -> & _). by eexists.
    + destruct (decide (k = i)) as [->|Hki].
      * intros [= <-]. rewrite decide_False, decide_True by done. destruct (Hidx j y Hy) as (r & -> & _). by eexists.
      * intros Ht. pose proof (linked_NoDup _ _ Hl) as Hnd.
        assert (t ≠ x) by (intros ->; apply Hki; by eapply NoDup_lookup).
        assert (t ≠ y) by (intros ->; apply Hkj; by eapply NoDup_lookup).
        rewrite !decide_False by done. by apply Hidx.
  - intros t r p. rewrite Hr, Hsw. destruct (decide (t = x)) as [->|].
    + destruct (rec a x); [|done]. intros [= <-] [= <-]. by rewrite decide_True by lia.
    + destruct (decide (t = y)) as [->|].
      * destruct (rec a y); [|done]. intros [= <-] [= <-]. rewrite decide_False, decide_True by lia. done.
      * intros Ht Hp. pose proof (Honly t r p Ht Hp). rewrite !decide_False; [done|..]; intros Heq; congruence.
  - intros t. rewrite Hr. repeat case_decide; subst; [by destruct (rec a x)|by destruct (rec a y)|done].
Qed.

(** *** Comparison *)

Record gens_ok (l : list TaskId) (next : N) a : Prop := {
  gens_lt : ∀ t, t ∈ l → (sched_key a t).2 < next;
  gens_small : next ≤ 2 ^ 63;
}.

Lemma gens_ok_keys l l' next a a' : gens_ok l next a → l' ⊆ l → same_keys a a' → gens_ok l' next a'.
Proof. intros [Hg ?] Hs Hk. split; [|done]. intros t Ht. rewrite (same_keys_key a a') by done. apply Hg, Hs, Ht. Qed.

Lemma higher_priority_spec h i j a x y next : gens_ok (heap h) next a → heap h !! i = Some x → heap h !! j = Some y →
  higher_priority h i j a = Returns (rank a y <? rank a x).
Proof.
  intros [Hg Hs] Hx Hy. unfold higher_priority. rewrite Hx, Hy. unfold rank.
  pose proof (Hg x ltac:(by eapply list_elem_of_lookup_2)) as Hgx. pose proof (Hg y ltac:(by eapply list_elem_of_lookup_2)) as Hgy.
  destruct (sched_key a x) as [px gx], (sched_key a y) as [py gy]. simpl in *. f_equal.
  assert (H63 : 2 ^ 63 = 9223372036854775808) by done. assert (H64 : 2 ^ 64 = 18446744073709551616) by done.
  unfold signed_positive, wrapping_sub, u64_MAX in *. rewrite H63, H64 in *.
  destruct (N.ltb_spec py px); [symmetry; apply N.ltb_lt; nia|].
  destruct (N.ltb_spec px py); [symmetry; apply N.ltb_ge; nia|]. assert (px = py) as -> by lia.
  destruct (N.le_gt_cases gx gy) as [Hle|Hgt].
  - replace (gy + (18446744073709551615 + 1) - gx) with (gy - gx + 1 * 18446744073709551616) by lia.
    rewrite N.Div0.mod_add, N.mod_small by lia.
    destruct (N.ltb_spec 0 (gy - gx)); simpl.
    + destruct (N.ltb_spec (gy - gx) 9223372036854775808); [|lia]. symmetry. apply N.ltb_lt. lia.
    + symmetry. apply N.ltb_ge. lia.
  - rewrite N.mod_small by lia. destruct (N.ltb_spec 0 (gy + (18446744073709551615 + 1) - gx)); [|lia]. simpl.
    destruct (N.ltb_spec (gy + (18446744073709551615 + 1) - gx) 9223372036854775808); [lia|].
    symmetry. apply N.ltb_ge. lia.
Qed.

(** *** Sifting *)

(** What a sift leaves: the same tasks and keys, linked, in an order [Q]. *)
Definition sifted (l : list TaskId) next a (Q : list TaskId → Prop) h' a' : Prop :=
  next_generation h' = next ∧ heap h' ≡ₚ l ∧ linked (heap h') a' ∧ same_keys a a' ∧ Q (heap h').

Lemma gap_rank a a' l pos : same_keys a a' → gap (rank a) l pos → gap (rank a') l pos.
Proof.
  intros Hk [Hg Hr]. split.
  - intros i Hi Hne Hpne u v Hu Hv. rewrite !(same_keys_rank a a') by done. by apply (Hg i Hi Hne Hpne u v).
  - intros c u v Hc Hpc Hpp Hu Hv. rewrite !(same_keys_rank a a') by done. by apply (Hr c u v).
Qed.

Lemma ordered_rank a a' l : same_keys a a' → ordered (rank a) l → ordered (rank a') l.
Proof. intros Hk Ho i Hi u v Hu Hv. rewrite !(same_keys_rank a a') by done. by apply (Ho i Hi u v). Qed.

Lemma sift_up_spec fuel h pos a x : linked (heap h) a → gens_ok (heap h) (next_generation h) a → (pos ≤ fuel)%nat →
  heap h !! pos = Some x → gap (rank a) (heap h) pos →
  ∃ h' a' pos', sift_up fuel h pos a = Returns (h', a', pos') ∧
    ((pos' = pos ∧ h' = h ∧ a' = a ∧ parent_ok (rank a) (heap h) pos) ∨
     ((pos' < pos)%nat ∧ sifted (heap h) (next_generation h) a (ordered (rank a)) h' a')).
Proof.
  revert h pos a. induction fuel as [|fuel IH]; intros h pos a Hl Hg Hf Hx Hgap; cbn [sift_up]; case_bool_decide as Hpos;
    try (by (eexists _, _, _; split; [done|]; left; split_and!; try done; intros ?; lia)); [lia|].
  assert (Hlt : (parent pos < pos)%nat) by (apply parent_lt; lia). change ((pos - 1) / 2)%nat with (parent pos).
  destruct (heap h !! parent pos) as [y|] eqn:Hy; [|apply lookup_lt_Some in Hx; apply lookup_ge_None in Hy; lia].
  rewrite (higher_priority_spec h pos (parent pos) a x y _ Hg Hx Hy). simpl.
  destruct (N.ltb_spec (rank a y) (rank a x)) as [Hr|Hr].
  - destruct (swap_positions_spec h a pos (parent pos) x y Hl Hx Hy) as (a1 & -> & Hl1 & Hk1); [lia|]. simpl.
    destruct (gap_up (rank a) (heap h) pos x y) as [Hgap1 Hkids]; [lia|done..|].
    set (l1 := swapped (heap h) pos (parent pos) x y) in *.
    assert (Hperm : l1 ≡ₚ heap h) by (apply swapped_perm; auto; lia).
    destruct (IH (mkHeap l1 (next_generation h)) (parent pos) a1) as (h' & a' & pos' & -> & Hres); simpl; try done.
    { eapply gens_ok_keys; [done| |done]. by intros t; rewrite Hperm. }
    { lia. }
    { unfold l1. rewrite swapped_lookup by (done || lia). by rewrite decide_True. }
    { by apply (gap_rank a). }
    exists h', a', pos'. split; [done|]. right. destruct Hres as [(-> & -> & -> & Hpar)|[Hlt' (Hn & Hp & Hl' & Hk' & Ho)]].
    + split; [done|]. split_and!; try done. simpl. apply (gap_ordered _ _ (parent pos)); try done.
      intros Hpp u v Hu Hv. rewrite <-!(same_keys_rank a a1) by done. by apply (Hpar Hpp).
    + split; [lia|]. split_and!; [done|by rewrite Hp|done|by eapply same_keys_trans|].
      by apply (ordered_rank a1 a); [intros t; by rewrite Hk1|].
  - eexists _, _, _. split; [done|]. left. split_and!; try done. intros _ u v Hu Hv. simplify_eq. done.
Qed.

(** The child the loop of [sift_down] picks, or [pos] itself. *)
Lemma largest_spec h pos a x : gens_ok (heap h) (next_generation h) a → heap h !! pos = Some x →
  ∃ j z, (largest ← (if bool_decide (2 * pos + 1 < length (heap h))%nat then
                       up ← higher_priority h (2 * pos + 1) pos a; Returns (if up : bool then (2 * pos + 1)%nat else pos)
                     else Returns pos);
          (if bool_decide (2 * pos + 2 < length (heap h))%nat then
             up ← higher_priority h (2 * pos + 2) largest a; Returns (if up : bool then (2 * pos + 2)%nat else largest)
           else Returns largest)) = Returns j ∧
    heap h !! j = Some z ∧ (j = pos ∨ ((0 < j)%nat ∧ parent j = pos ∧ rank a x < rank a z)) ∧
    (∀ c u, (0 < c)%nat → parent c = pos → heap h !! c = Some u → rank a u ≤ rank a z).
Proof.
  intros Hg Hx.
  assert (Hfirst : ∃ j z, (if bool_decide (2 * pos + 1 < length (heap h))%nat then
        up ← higher_priority h (2 * pos + 1) pos a; Returns (if up : bool then (2 * pos + 1)%nat else pos) else Returns pos) = Returns j ∧
      heap h !! j = Some z ∧ (j = pos ∨ (j = 2 * pos + 1)%nat ∧ rank a x < rank a z) ∧ rank a x ≤ rank a z ∧
      (∀ u, heap h !! (2 * pos + 1)%nat = Some u → rank a u ≤ rank a z)).
  { case_bool_decide as Hlt.
    - destruct (lookup_lt_is_Some_2 _ _ Hlt) as [z Hz]. rewrite (higher_priority_spec h _ pos a z x _ Hg Hz Hx). cbn [mbind run_bind].
      destruct (N.ltb_spec (rank a x) (rank a z)); [exists (2 * pos + 1)%nat, z|exists pos, x];
        split_and!; auto; try lia; intros u Hu; simplify_eq; lia.
    - exists pos, x. split_and!; auto. intros u Hu%lookup_lt_Some. lia. }
  destruct Hfirst as (j & z & -> & Hz & Hj & Hxz & Hleft). cbn [mbind run_bind].
  assert (Hkids : ∀ z', rank a z ≤ rank a z' → (∀ u, heap h !! (2 * pos + 2)%nat = Some u → rank a u ≤ rank a z') →
    ∀ c u, (0 < c)%nat → parent c = pos → heap h !! c = Some u → rank a u ≤ rank a z').
  { intros z' Hzz Hright c u Hc Hpc Hu. apply parent_children in Hpc as [->| ->]; [|by apply Hright|done].
    specialize (Hleft u Hu). lia. }
  assert (Hjp : j = pos ∨ (0 < j)%nat ∧ parent j = pos ∧ rank a x < rank a z).
  { destruct Hj as [->|[-> ?]]; [by left|]. right. split_and!; [lia| |done]. apply parent_children; lia. }
  case_bool_decide as Hlt.
  - destruct (lookup_lt_is_Some_2 _ _ Hlt) as [w Hw]. rewrite (higher_priority_spec h _ j a w z _ Hg Hw Hz). cbn [mbind run_bind].
    destruct (N.ltb_spec (rank a z) (rank a w)).
    + exists (2 * pos + 2)%nat, w. split_and!; auto.
      * right. split_and!; [lia|apply parent_children; lia|lia].
      * apply Hkids; [lia|]. intros u Hu. simplify_eq. lia.
    + exists j, z. split_and!; auto. apply Hkids; [lia|]. intros u Hu. simplify_eq. lia.
  - exists j, z. split_and!; auto. apply Hkids; [lia|]. intros u Hu%lookup_lt_Some. lia.
Qed.

Lemma sift_down_spec fuel h pos a x : linked (heap h) a → gens_ok (heap h) (next_generation h) a →
  (length (heap h) ≤ pos + fuel)%nat → heap h !! pos = Some x → gap (rank a) (heap h) pos → parent_ok (rank a) (heap h) pos →
  ∃ h' a', sift_down fuel h pos a = Returns (h', a') ∧ sifted (heap h) (next_generation h) a (ordered (rank a)) h' a'.
Proof.
  revert h pos a x. induction fuel as [|fuel IH]; intros h pos a x Hl Hg Hf Hx Hgap Hpar; cbn [sift_down].
  { apply lookup_lt_Some in Hx. lia. }
  destruct (largest_spec h pos a x Hg Hx) as (j & z & Hlargest & Hz & Hj & Hbest).
  change (∃ h' a', (largest ← (if bool_decide (2 * pos + 1 < length (heap h))%nat then
                       up ← higher_priority h (2 * pos + 1) pos a; Returns (if up : bool then (2 * pos + 1)%nat else pos)
                     else Returns pos);
          largest ← (if bool_decide (2 * pos + 2 < length (heap h))%nat then
             up ← higher_priority h (2 * pos + 2) largest a; Returns (if up : bool then (2 * pos + 2)%nat else largest)
           else Returns largest);
          if bool_decide (largest = pos) then Returns (h, a)
          else p ← swap_positions h pos largest a; sift_down fuel p.1 largest p.2) = Returns (h', a') ∧
     sifted (heap h) (next_generation h) a (ordered (rank a)) h' a').
  rewrite <-run_bind_assoc, Hlargest. clear Hlargest. cbn [mbind run_bind].
  case_bool_decide as Hjp.
  - eexists _, _. split; [done|]. split_and!; try done. apply (gap_ordered _ _ pos); try done.
    intros c Hc Hpc u v Hu Hv. rewrite Hpc in Hv. subst j. simplify_eq. by apply (Hbest c).
  - destruct Hj as [->|(Hj0 & Hpj & Hlt)]; [done|].
    destruct (swap_positions_spec h a pos j x z Hl Hx Hz) as (a1 & -> & Hl1 & Hk1); [done|]. cbn [fst snd mbind run_bind].
    destruct (gap_down (rank a) (heap h) pos j x z) as [Hgap1 Hpar1]; [done..|].
    set (l1 := swapped (heap h) pos j x z) in *.
    assert (Hperm : l1 ≡ₚ heap h) by (by apply swapped_perm).
    pose proof (parent_lt j Hj0).
    destruct (IH (mkHeap l1 (next_generation h)) j a1 x) as (h' & a' & -> & Hn & Hp & Hl' & Hk' & Ho); simpl; try done.
    { eapply gens_ok_keys; [done| |done]. by intros t; rewrite Hperm. }
    { rewrite (Permutation_length Hperm). lia. }
    { unfold l1. rewrite swapped_lookup by done. by rewrite decide_True. }
    { by apply (gap_rank a). }
    { intros Hpp u v Hu Hv. rewrite !(same_keys_rank a a1) by done. by apply (Hpar1 Hpp). }
    eexists _, _. split; [done|]. simpl in *. split_and!; [done|by rewrite Hp|done|by eapply same_keys_trans|].
    by apply (ordered_rank a1 a); [intros t; by rewrite Hk1|].
Qed.

(** *** Whole operations *)

Record heap_inv h a : Prop := {
  inv_linked : linked (heap h) a;
  inv_gens : gens_ok (heap h) (next_generation h) a;
  inv_ordered : ordered (rank a) (heap h);
}.

(** Every record but that of [t] keeps its scheduling keys. *)
Definition keys_but t a a' : Prop := ∀ u, u ≠ t → set_heap_index None <$> rec a' u = set_heap_index None <$> rec a u.

Lemma keys_but_key t a a' u : keys_but t a a' → u ≠ t → sched_key a' u = sched_key a u.
Proof.
  intros Hk Hu. specialize (Hk u Hu). unfold sched_key. fold (rec a u) (rec a' u).
  destruct (rec a u), (rec a' u); simplify_eq/=; [|done]. unfold set_heap_index, set_sched in Hk. congruence.
Qed.

Lemma keys_but_rank t a a' u : keys_but t a a' → u ≠ t → rank a' u = rank a u.
Proof. intros Hk Hu. unfold rank. by rewrite (keys_but_key t a a'). Qed.

Lemma keys_but_same t a a1 a' : keys_but t a a1 → same_keys a1 a' → keys_but t a a'.
Proof. intros Hk Hs u Hu. rewrite Hs. by apply Hk. Qed.

Lemma gap_ext (f g : TaskId → N) l pos : (∀ x, x ∈ l → g x = f x) → gap f l pos → gap g l pos.
Proof.
  intros Hfg [Hg Hr]. split.
  - intros i Hi Hne Hpne u v Hu Hv. rewrite !Hfg by (by eapply list_elem_of_lookup_2). by apply (Hg i Hi Hne Hpne u v).
  - intros c u v Hc Hpc Hpp Hu Hv. rewrite !Hfg by (by eapply list_elem_of_lookup_2). by apply (Hr c u v).
Qed.

Lemma ordered_ext (f g : TaskId → N) l : (∀ x, x ∈ l → g x = f x) → ordered f l → ordered g l.
Proof. intros Hfg Ho i Hi u v Hu Hv. rewrite !Hfg by (by eapply list_elem_of_lookup_2). by apply (Ho i Hi u v). Qed.

Lemma linked_snoc l a t r p g : linked l a → rec a t = Some r → heap_index r = None →
  ∃ a', (∀ a2, arena_wf a2 → (∀ u, rec a2 u = if decide (u = t) then Some (set_sched r (Some (N.of_nat (length l))) p g) else rec a u) →
          linked (l ++ [t]) a2) ∧ arena_wf a' ∧
        (∀ u, rec a' u = if decide (u = t) then Some (set_sched r (Some (N.of_nat (length l))) p g) else rec a u).
Proof.
  intros [Hwf Hi Ho] Hr Hn.
  destruct (with_record_spec a t (λ r, set_sched r (Some (N.of_nat (length l))) p g) Hwf) as [Hwf1 Hr1].
  eexists. split; [|split; [exact Hwf1|intros u; rewrite Hr1; case_decide; [by rewrite Hr|done]]].
  intros a2 Hwf2 Hr2. split; [done|..].
  - intros i u [Hu|[Hge Hu]]%lookup_app_Some.
    + destruct (Hi i u Hu) as (r' & Hr' & Hx). rewrite Hr2, decide_False; [eauto|]. intros ->. congruence.
    + apply list_lookup_singleton_Some in Hu as [Hlen <-]. rewrite Hr2, decide_True by done.
      eexists. split; [done|]. simpl. do 2 f_equal. lia.
  - intros u r' q. rewrite Hr2. case_decide as Hu.
    + intros [= <-] [= <-]. subst u. rewrite Nat2N.id. by rewrite lookup_app_r, Nat.sub_diag by lia.
    + intros Hru Hq. apply lookup_app_l_Some. by eapply Ho.
Qed.

(** The operations touch nothing of a record but its scheduling fields. *)
Definition framed a a' : Prop := ∀ u, clear_sched <$> rec a' u = clear_sched <$> rec a u.

Lemma framed_trans a1 a2 a3 : framed a1 a2 → framed a2 a3 → framed a1 a3.
Proof. intros Ha Hb u. by rewrite Hb. Qed.

Lemma same_keys_framed a a' : same_keys a a' → framed a a'.
Proof.
  intros Hs u. specialize (Hs u). destruct (rec a u), (rec a' u); simpl in *; try done.
  f_equal. apply Some_inj in Hs. exact (f_equal clear_sched Hs).
Qed.

Lemma with_record_framed a t f : arena_wf a → (∀ r, clear_sched (f r) = clear_sched r) → framed a (with_record a t f).
Proof.
  intros Hwf Hf u. destruct (with_record_spec a t f Hwf) as [_ ->]. case_decide; [subst|done].
  destruct (rec a t); simpl; [by rewrite Hf|done].
Qed.

Lemma framed_known a a' u : framed a a' → is_Some (rec a' u) ↔ is_Some (rec a u).
Proof. intros Hf. specialize (Hf u). unfold is_Some. destruct (rec a u), (rec a' u); naive_solver. Qed.

Lemma heap_push_new h a t p r : heap_inv h a → next_generation h < 2 ^ 63 → rec a t = Some r → heap_index r = None →
  ∃ h' a', heap_push h t p a = Returns (h', a') ∧ heap_inv h' a' ∧ heap h' ≡ₚ t :: heap h ∧
    next_generation h' = next_generation h + 1 ∧ keys_but t a a' ∧ framed a a' ∧ sched_key a' t = (p, next_generation h).
Proof.
  intros [Hl Hg Ho] Hgen Hr Hn. unfold heap_push. pose proof Hl as [Hwf _ _].
  pose proof (get_mut_rec a t Hwf) as Hgm. destruct (get_mut _ _) as [[r0 put]|]; [|congruence].
  destruct Hgm as [Hr0 Hput]. assert (r0 = r) as -> by congruence. rewrite Hn. clear Hr0.
  destruct (linked_snoc (heap h) a t r p (next_generation h) Hl Hr Hn) as (ax & Hlink & Hwfx & Hrx).
  pose proof (linked_length _ _ (Hlink ax Hwfx Hrx)) as Hlen. rewrite length_app in Hlen. simpl in Hlen.
  assert (as_u32 (length (heap h)) = N.of_nat (length (heap h))) as -> by (apply N.mod_small; lia).
  destruct (Hput (set_sched r (Some (N.of_nat (length (heap h)))) p (next_generation h))) as [Hwf1 Hr1].
  set (a1 := put _) in *. pose proof (Hlink a1 Hwf1 Hr1) as Hl1. rewrite wrapping_add_1 by (unfold u64_MAX; lia).
  assert (Hkeys : keys_but t a a1) by (intros u Hu; by rewrite Hr1, decide_False).
  assert (Hkt : sched_key a1 t = (p, next_generation h)).
  { unfold sched_key. fold (rec a1 t). by rewrite Hr1, decide_True. }
  assert (Hnotin : t ∉ heap h).
  { intros (i & Ht)%list_elem_of_lookup. destruct Hl as [_ Hi _]. destruct (Hi i t Ht) as (r' & ? & ?). congruence. }
  assert (Hg1 : gens_ok (heap h ++ [t]) (next_generation h + 1) a1).
  { split; [|lia]. intros u [Hu|Hu]%elem_of_app.
    - rewrite (keys_but_key t a a1) by (done || by intros ->). apply Hg in Hu. lia.
    - apply list_elem_of_singleton in Hu as ->. rewrite Hkt. simpl. lia. }
  destruct (gap_snoc (rank a1) (heap h) t) as [Hgap Hkids].
  { apply (ordered_ext (rank a)); [|done]. intros u Hu. apply (keys_but_rank t); [done|by intros ->]. }
  destruct (sift_up_spec (length (heap h)) (mkHeap (heap h ++ [t]) (next_generation h + 1)) (length (heap h)) a1 t)
    as (h' & a' & pos' & -> & Hres); simpl; try done.
  { rewrite lookup_app_r, Nat.sub_diag by lia. done. }
  eexists _, _. split; [done|]. simpl.
  assert (Hs : sifted (heap h ++ [t]) (next_generation h + 1) a1 (ordered (rank a1)) h' a').
  { destruct Hres as [(_ & -> & -> & Hpar)|[_ Hs]]; [|done]. split_and!; try done. by eapply gap_ordered. }
  destruct Hs as (Hnext & Hperm & Hl' & Hk' & Ho'). split; [|split_and!].
  - split; [done| |by apply (ordered_rank a1)]. rewrite Hnext. eapply gens_ok_keys; [done| |done]. by intros u; rewrite Hperm.
  - rewrite Hperm. symmetry. apply Permutation_cons_append.
  - done.
  - by eapply keys_but_same.
  - apply (framed_trans _ a1); [|by apply same_keys_framed]. intros u. rewrite Hr1. case_decide; [subst; by rewrite Hr|done].
  - by rewrite (same_keys_key a1 a').
Qed.

Lemma take_swapped {A} (l : list A) pos k x z : (k = length l - 1)%nat → (pos < k)%nat →
  take k (<[k := x]> (<[pos := z]> l)) = <[pos := z]> (take k l).
Proof. intros Hk Hp. by rewrite take_insert_ge, take_insert_lt by lia. Qed.

(** Taking position [pos] out: its record is cleared, the last element takes its place. *)
Lemma linked_remove l a pos t : linked l a → l !! pos = Some t →
  let a0 := with_record a t clear_sched in
  let k := (length l - 1)%nat in
  (pos = k → linked (take k l) a0) ∧
  (∀ z, (pos < k)%nat → last l = Some z → linked (<[pos := z]> (take k l)) (with_record a0 z (set_heap_index (Some (N.of_nat pos))))).
Proof.
  intros Hl Ht a0 k. pose proof (linked_NoDup l a Hl) as Hnd. pose proof Hl as [Hwf Hi Ho].
  destruct (with_record_spec a t clear_sched Hwf) as [Hwf0 Hr0]. fold a0 in Hwf0, Hr0.
  assert (Hne : ∀ i u, i ≠ pos → l !! i = Some u → u ≠ t) by (intros i u Hip Hu ->; apply Hip; by eapply NoDup_lookup).
  assert (Hcl : ∀ u r q, rec a0 u = Some r → heap_index r = Some q → u ≠ t ∧ rec a u = Some r).
  { intros u r q. rewrite Hr0. case_decide; [|done]. subst. by destruct (rec a t); intros; simplify_eq/=. }
  split.
  - intros Hpk. split; [done|..].
    + intros i u [Hu Hlt]%lookup_take_Some. rewrite Hr0, decide_False; [by apply Hi|]. eapply (Hne i); [lia|done].
    + intros u r q Hu Hq. destruct (Hcl u r q Hu Hq) as [Hut Hru]. pose proof (Ho u r q Hru Hq) as Hlook.
      apply lookup_take_Some. split; [done|]. pose proof (lookup_lt_Some _ _ _ Hlook).
      destruct (decide (N.to_nat q = k)) as [Hqk|]; [|lia]. rewrite Hqk, <-Hpk, Ht in Hlook. congruence.
  - intros z Hpk Hz. rewrite last_lookup in Hz. replace (pred (length l)) with k in Hz by lia.
    assert (Hzt : z ≠ t) by (eapply (Hne k); [lia|done]).
    destruct (with_record_spec a0 z (set_heap_index (Some (N.of_nat pos))) Hwf0) as [Hwf1 Hr1]. split; [done|..].
    + intros i u. destruct (decide (i = pos)) as [->|Hip].
      * rewrite list_lookup_insert_eq by (rewrite length_take; apply lookup_lt_Some in Ht; lia). intros [= <-].
        rewrite Hr1, decide_True, Hr0, decide_False by done. destruct (Hi k z Hz) as (r & -> & _). by eexists.
      * rewrite list_lookup_insert_ne by done. intros [Hu Hlt]%lookup_take_Some.
        assert (u ≠ z) by (intros ->; assert (i = k) by (by eapply NoDup_lookup); lia).
        rewrite Hr1, decide_False, Hr0, decide_False by (done || by eapply Hne). by apply Hi.
    + intros u r q. rewrite Hr1. case_decide as Huz.
      * subst u. rewrite Hr0, decide_False by done. destruct (Hi k z Hz) as (r' & -> & _). intros [= <-] [= <-].
        rewrite Nat2N.id. apply list_lookup_insert_eq. rewrite length_take. apply lookup_lt_Some in Ht. lia.
      * intros Hu Hq. destruct (Hcl u r q Hu Hq) as [Hut Hru]. pose proof (Ho u r q Hru Hq) as Hlook.
        assert (N.to_nat q ≠ pos) by (intros Hqe; rewrite Hqe, Ht in Hlook; congruence).
        assert (N.to_nat q ≠ k) by (intros Hqe; rewrite Hqe, Hz in Hlook; congruence).
        rewrite list_lookup_insert_ne by done. apply lookup_take_Some. split; [done|].
        apply lookup_lt_Some in Hlook. lia.
Qed.

Lemma keys_but_with_record t a f : arena_wf a → keys_but t a (with_record a t f).
Proof. intros Hwf u Hu. destruct (with_record_spec a t f Hwf) as [_ ->]. by rewrite decide_False. Qed.

Lemma keys_but_position t a a0 z i : arena_wf a0 → keys_but t a a0 → keys_but t a (with_record a0 z (set_heap_index i)).
Proof.
  intros Hwf Hk u Hu. destruct (with_record_spec a0 z (set_heap_index i) Hwf) as [_ ->].
  rewrite <-(Hk u Hu). case_decide; [subst|done]. by destruct (rec a0 z).
Qed.

Definition removed h a t h' a' : Prop :=
  heap_inv h' a' ∧ t :: heap h' ≡ₚ heap h ∧ next_generation h' = (if bool_decide (heap h' = []) then 0 else next_generation h) ∧
  keys_but t a a' ∧ framed a a'.

Lemma remove_last_spec h a pos t : heap_inv h a → heap h !! pos = Some t → pos = (length (heap h) - 1)%nat →
  ∃ h' a', remove_at h pos a = Returns (h', a') ∧ removed h a t h' a'.
Proof.
  intros [Hl Hg Ho] Ht Hpos. unfold remove_at. rewrite Ht, bool_decide_true by done. eexists _, _. split; [done|].
  pose proof (linked_wf _ _ Hl) as Hwf. destruct (linked_remove _ _ _ _ Hl Ht) as [Hlink _]. specialize (Hlink Hpos).
  pose proof (linked_NoDup _ _ Hl) as Hnd. pose proof (keys_but_with_record t a clear_sched Hwf) as Hk.
  assert (Hperm : t :: take (length (heap h) - 1) (heap h) ≡ₚ heap h).
  { rewrite <-(take_drop (length (heap h) - 1) (heap h)) at 3. rewrite (drop_S _ t) by (by rewrite <-Hpos).
    rewrite (drop_ge _ (S _)) by (apply lookup_lt_Some in Ht; lia). apply Permutation_cons_append. }
  assert (Hin : ∀ u, u ∈ take (length (heap h) - 1) (heap h) → u ∈ heap h ∧ u ≠ t).
  { rewrite <-Hperm in Hnd. apply NoDup_cons in Hnd as [Hni _]. intros u Hu. split; [|by intros ->].
    rewrite <-Hperm. by right. }
  set (l := take _ _) in *. unfold reset_generation_if_empty, heap_is_empty. cbn [heap next_generation].
  split_and!.
  - case_bool_decide as Hnil; (split; cbn [heap next_generation]; [done| |]).
    + rewrite Hnil. split; [by intros u Hu%not_elem_of_nil|lia].
    + rewrite Hnil. intros i Hi x y Hx. done.
    + split; [|by apply Hg]. intros u Hu. destruct (Hin u Hu). rewrite (keys_but_key t a) by done. by apply Hg.
    + apply (ordered_ext (rank a)); [|by apply ordered_take]. intros u Hu. destruct (Hin u Hu). by apply (keys_but_rank t).
  - by case_bool_decide.
  - by repeat case_bool_decide.
  - done.
  - by apply with_record_framed.
Qed.

Lemma replace_last_perm {A} (l : list A) pos (t z : A) : l !! pos = Some t → (S pos < length l)%nat → last l = Some z →
  t :: <[pos := z]> (take (length l - 1) l) ≡ₚ l.
Proof.
  intros Ht Hlt (l' & ->)%last_Some. rewrite length_app in *. simpl in *. replace (length l' + 1 - 1)%nat with (length l') by lia.
  rewrite take_app_length. rewrite lookup_app_l in Ht by lia. rewrite insert_take_drop by lia.
  rewrite <-(take_drop_middle l' pos t) at 3 by done. rewrite <-!app_assoc. simpl.
  rewrite (Permutation_middle (take pos l') _ t). apply Permutation_app_head, perm_skip, Permutation_cons_append.
Qed.

Lemma remove_at_spec h a pos t : heap_inv h a → heap h !! pos = Some t →
  ∃ h' a', remove_at h pos a = Returns (h', a') ∧ removed h a t h' a'.
Proof.
  intros Hinv Ht. destruct (decide (pos = length (heap h) - 1)%nat) as [Hpos|Hpos]; [by eapply remove_last_spec|].
  pose proof Hinv as [Hl Hg Ho]. pose proof (linked_wf _ _ Hl) as Hwf. pose proof (linked_NoDup _ _ Hl) as Hnd.
  pose proof (lookup_lt_Some _ _ _ Ht) as Hlt. destruct (last (heap h)) as [z|] eqn:Hz.
  2: { apply last_None in Hz. rewrite Hz in Hlt. simpl in Hlt. lia. }
  pose proof Hz as Hz'. rewrite last_lookup in Hz'. replace (pred (length (heap h))) with (length (heap h) - 1)%nat in Hz' by lia.
  unfold remove_at. rewrite Ht, bool_decide_false by done. unfold vec_swap. rewrite Ht, Hz'. cbn [run_bind mbind heap next_generation].
  rewrite take_swapped by lia. set (l := <[pos := z]> _) in *.
  assert (Hlpos : l !! pos = Some z) by (apply list_lookup_insert_eq; rewrite length_take; lia).
  assert (Hperm : t :: l ≡ₚ heap h) by (apply replace_last_perm; [done|lia|done]).
  rewrite Hlpos, (as_u32_small _ _ _ Hl Hlt).
  destruct (linked_remove _ _ _ _ Hl Ht) as [_ Hlink]. specialize (Hlink z ltac:(lia) Hz). fold l in Hlink.
  set (a0 := with_record a t clear_sched) in *. set (a1 := with_record a0 z _) in *.
  destruct (with_record_spec a t clear_sched Hwf) as [Hwf0 _]. fold a0 in Hwf0.
  assert (Hk : keys_but t a a1) by (apply keys_but_position, keys_but_with_record; done).
  assert (Hfr : framed a a1) by (apply (framed_trans _ a0); by apply with_record_framed).
  assert (Hin : ∀ u, u ∈ l → u ∈ heap h ∧ u ≠ t).
  { rewrite <-Hperm in Hnd. apply NoDup_cons in Hnd as [Hni _]. intros u Hu. split; [rewrite <-Hperm; by right|by intros ->]. }
  assert (Hgap : gap (rank a1) l pos).
  { apply (gap_ext (rank a)); [|apply gap_replace; [done|lia|done]]. intros u [_ Hu]%Hin. by apply (keys_but_rank t). }
  assert (Hg1 : gens_ok l (next_generation h) a1).
  { split; [|by apply Hg]. intros u Hu. destruct (Hin u Hu). rewrite (keys_but_key t a) by done. by apply Hg. }
  assert (Hfin : ∀ h' a', sifted l (next_generation h) a1 (ordered (rank a1)) h' a' → removed h a t h' a').
  { intros h' a' (Hnext & Hp & Hl' & Hs & Ho'). split_and!.
    - split; [done|rewrite Hnext; eapply gens_ok_keys; [done| |done]; by intros u; rewrite Hp|by apply (ordered_rank a1)].
    - by rewrite Hp.
    - rewrite bool_decide_false; [done|]. intros Hnil. rewrite Hnil in Hp. apply Permutation_nil_l in Hp. by rewrite <-Hp in Hlpos.
    - by eapply keys_but_same.
    - apply (framed_trans _ a1); [done|by apply same_keys_framed]. }
  destruct (sift_up_spec pos (mkHeap l (next_generation h)) pos a1 z) as (h1 & a2 & pos' & -> & Hres); try done.
  destruct Hres as [(-> & -> & -> & Hpar)|[Hlt' Hs]]; cbn [run_bind mbind].
  - rewrite bool_decide_true by done. cbn [heap].
    destruct (sift_down_spec (length l) (mkHeap l (next_generation h)) pos a1 z) as (h' & a' & -> & Hs); try done; [simpl; lia|].
    eexists _, _. split; [done|]. by apply Hfin.
  - rewrite bool_decide_false by lia. eexists _, _. split; [done|]. by apply Hfin.
Qed.

End facts.

(** ** Refinement of a stable priority queue *)

(** The abstract queue: tasks with their priorities, in order of arrival. *)
Notation Queue := (list (TaskId * N)).

(** The earliest of the entries of highest priority. *)
Fixpoint q_top (q : Queue) : option (TaskId * N) :=
  match q with
  | [] => None
  | e :: q => match q_top q with Some e' => Some (if e'.2 <=? e.2 then e else e') | None => Some e end
  end.

Definition q_without (t : TaskId) (q : Queue) : Queue := filter (λ e, e.1 ≠ t) q.

Inductive heap_op := HPush (t : TaskId) (priority : N) | HPop | HRemove (t : TaskId) | HClear.
Inductive heap_res := HDone | HPopped (t : option TaskId) | HRemoved (b : bool).

Definition q_step (known : TaskId → bool) (q : Queue) (o : heap_op) : Queue * heap_res :=
  match o with
  | HPush t p => (if known t && negb (bool_decide (t ∈ q.*1)) then q ++ [(t, p)] else q, HDone)
  | HPop => match q_top q with Some e => (q_without e.1 q, HPopped (Some e.1)) | None => (q, HPopped None) end
  | HRemove t => (q_without t q, HRemoved (bool_decide (t ∈ q.*1)))
  | HClear => ([], HDone)
  end.

Fixpoint q_run (known : TaskId → bool) (q : Queue) (os : list heap_op) : Queue * list heap_res :=
  match os with
  | [] => (q, [])
  | o :: os => let '(q, r) := q_step known q o in let '(q, rs) := q_run known q os in (q, r :: rs)
  end.

Fixpoint pushes (os : list heap_op) : N :=
  match os with [] => 0 | HPush _ _ :: os => 1 + pushes os | _ :: os => pushes os end.

Lemma q_top_bound q e m : (∀ x, x ∈ q → x.2 ≤ m) → q_top q = Some e → e.2 ≤ m.
Proof.
  revert e. induction q as [|x q IH]; intros e Hm; [done|]. cbn [q_top].
  assert (Hx : x.2 ≤ m) by (apply Hm; left). assert (Hq : ∀ y, y ∈ q → y.2 ≤ m) by (intros y Hy; apply Hm; by right).
  destruct (q_top q) as [e'|]; intros [= <-]; [|done]. case_match; [done|]. by apply IH.
Qed.

Lemma q_top_spec q1 e q2 : (∀ x, x ∈ q1 → x.2 < e.2) → (∀ x, x ∈ q2 → x.2 ≤ e.2) → q_top (q1 ++ e :: q2) = Some e.
Proof.
  intros H1 H2. induction q1 as [|x q1 IH]; cbn [app q_top].
  - destruct (q_top q2) as [e'|] eqn:He; [|done]. apply (q_top_bound _ _ _ H2) in He. by rewrite (proj2 (N.leb_le _ _) He).
  - rewrite IH by (intros y Hy; apply H1; by right). pose proof (H1 x ltac:(left)) as Hx.
    by rewrite (proj2 (N.leb_gt _ _) Hx).
Qed.

Lemma q_without_elem t q : ∀ x, x ∈ q_without t q ↔ x ∈ q ∧ x.1 ≠ t.
Proof. intros x. unfold q_without. rewrite list_elem_of_filter. tauto. Qed.

Lemma q_without_absent t q : t ∉ q.*1 → q_without t q = q.
Proof.
  intros Ht. induction q as [|x q IH]; [done|]. unfold q_without in *. csimpl in Ht. apply not_elem_of_cons in Ht as [Hx Hq].
  rewrite filter_cons_True by done. f_equal. by apply IH.
Qed.

Lemma q_without_perm t q : NoDup q.*1 → t ∈ q.*1 → t :: (q_without t q).*1 ≡ₚ q.*1.
Proof.
  intros Hnd Ht. induction q as [|x q IH]; csimpl in *; [by apply not_elem_of_nil in Ht|].
  apply NoDup_cons in Hnd as [Hx Hnd]. unfold q_without. destruct (decide (x.1 = t)) as [<-|Hne].
  - rewrite filter_cons_False by tauto. fold (q_without x.1 q). by rewrite q_without_absent.
  - rewrite filter_cons_True by done. csimpl. fold (q_without t q). rewrite perm_swap. constructor.
    apply IH; [done|]. apply elem_of_cons in Ht as [Ht|]; [congruence|done].
Qed.

Section refine.
Context {E : Type}.
Notation Records := (Arena (TaskRecord E)).
Implicit Types (a : Records) (h : IntrusivePriorityHeap) (t u : TaskId) (q : Queue).

Definition heap_step h a (o : heap_op) : run (IntrusivePriorityHeap * Records * heap_res) :=
  match o with
  | HPush t p => x ← heap_push h t p a; Returns (x, HDone)
  | HPop => x ← heap_pop h a; Returns (x.1, HPopped x.2)
  | HRemove t => x ← heap_remove h t a; Returns (x.1, HRemoved x.2)
  | HClear => Returns (heap_clear h a, HDone)
  end.

Fixpoint heap_run h a (os : list heap_op) : run (IntrusivePriorityHeap * Records * list heap_res) :=
  match os with
  | [] => Returns (h, a, [])
  | o :: os =>
      x ← heap_step h a o;
      y ← heap_run x.1.1 x.1.2 os;
      Returns (y.1, x.2 :: y.2)
  end.

Definition earlier a (x y : TaskId * N) : Prop := (sched_key a x.1).2 < (sched_key a y.1).2.

(** The heap [h] with the records [a] represents the queue [q]. *)
Record represents h a q : Prop := {
  rep_inv : heap_inv h a;
  rep_perm : q.*1 ≡ₚ heap h;
  rep_prio : ∀ x, x ∈ q → (sched_key a x.1).1 = x.2;
  rep_fifo : StronglySorted (earlier a) q;
}.

Lemma represents_NoDup h a q : represents h a q → NoDup q.*1.
Proof. intros [[Hl _ _] Hp _ _]. rewrite Hp. by eapply linked_NoDup. Qed.

Lemma represents_member h a q t : represents h a q →
  t ∈ q.*1 ↔ ∃ r p, rec a t = Some r ∧ heap_index r = Some p ∧ heap h !! N.to_nat p = Some t.
Proof.
  intros [[Hl _ _] Hp _ _]. rewrite Hp. split.
  - intros (i & Hi)%list_elem_of_lookup. destruct (linked_index _ _ Hl i t Hi) as (r & Hr & Hx).
    eexists _, _. split_and!; [done..|]. by rewrite Nat2N.id.
  - intros (r & p & _ & _ & Hi). by eapply list_elem_of_lookup_2.
Qed.

Lemma represents_index h a q t r : represents h a q → rec a t = Some r →
  heap_index r = None ↔ t ∉ q.*1.
Proof.
  intros Hrep Hr. rewrite (represents_member h a q t Hrep). split.
  - intros Hn (r' & p & ? & ? & ?). congruence.
  - intros Hn. destruct (heap_index r) as [p|] eqn:Hx; [|done]. destruct Hn. eexists _, _. split_and!; [done..|].
    destruct Hrep as [[Hl _ _] _ _ _]. by eapply (linked_only _ _ Hl).
Qed.

Lemma StronglySorted_ext {A} (R S : A → A → Prop) l : (∀ x y, x ∈ l → y ∈ l → R x y → S x y) → StronglySorted R l → StronglySorted S l.
Proof.
  intros HRS Hs. induction Hs as [|x l Hs IH Hall]; [constructor|]. constructor.
  - apply IH. intros y z Hy Hz. apply HRS; by right.
  - rewrite Forall_forall in Hall |- *. intros y Hy. apply HRS; [left|by right|by apply Hall].
Qed.

Lemma StronglySorted_snoc {A} (R : A → A → Prop) l x : StronglySorted R l → (∀ y, y ∈ l → R y x) → StronglySorted R (l ++ [x]).
Proof.
  intros Hs Hx. induction Hs as [|y l Hs IH Hall]; simpl; [by repeat constructor|]. constructor.
  - apply IH. intros z Hz. apply Hx. by right.
  - apply Forall_app. split; [done|]. constructor; [apply Hx; left|done].
Qed.

Lemma StronglySorted_filter {A} (R : A → A → Prop) (P : A → Prop) `{!∀ x, Decision (P x)} l :
  StronglySorted R l → StronglySorted R (filter P l).
Proof.
  induction 1 as [|x l Hs IH Hall]; [constructor|]. destruct (decide (P x)).
  - rewrite filter_cons_True by done. constructor; [done|]. rewrite Forall_forall in Hall |- *.
    intros y [_ Hy]%list_elem_of_filter. by apply Hall.
  - by rewrite filter_cons_False.
Qed.

Lemma push_refines h a q t p : represents h a q → next_generation h < 2 ^ 63 →
  ∃ h' a', heap_push h t p a = Returns (h', a') ∧ framed a a' ∧ next_generation h' ≤ next_generation h + 1 ∧
    represents h' a' (if bool_decide (is_Some (rec a t)) && negb (bool_decide (t ∈ q.*1)) then q ++ [(t, p)] else q).
Proof.
  intros Hrep Hn. pose proof Hrep as [Hinv Hp Hprio Hfifo]. pose proof (linked_wf _ _ (inv_linked _ _ Hinv)) as Hwf.
  destruct (rec a t) as [r|] eqn:Hr.
  2: { rewrite bool_decide_false by (by intros [? ?]). unfold heap_push. pose proof (get_mut_rec a t Hwf) as Hgm.
       destruct (get_mut _ _) as [[r0 put]|]; [destruct Hgm; congruence|]. eexists _, _. split; [done|]. by split_and!; [|lia|]. }
  rewrite (bool_decide_true (is_Some _)) by eauto. cbn [andb]. pose proof (represents_index _ _ _ _ _ Hrep Hr) as Hidx.
  destruct (heap_index r) as [pos|] eqn:Hx.
  - rewrite bool_decide_true by (apply dec_stable; intros ?%Hidx; done). unfold heap_push.
    pose proof (get_mut_rec a t Hwf) as Hgm. destruct (get_mut _ _) as [[r0 put]|]; [|congruence].
    destruct Hgm as [Hr0 _]. assert (r0 = r) as -> by congruence. rewrite Hx. eexists _, _. split; [done|]. by split_and!; [|lia|].
  - assert (Hni : t ∉ q.*1) by (by apply Hidx). rewrite bool_decide_false by done. simpl.
    destruct (heap_push_new h a t p r Hinv Hn Hr Hx) as (h' & a' & -> & Hinv' & Hp' & Hg' & Hk & Hfr & Hkt).
    eexists _, _. split; [done|]. split_and!; [done|lia|]. assert (Hne : ∀ x, x ∈ q → x.1 ≠ t).
    { intros x Hxq Hxt. apply Hni, list_elem_of_fmap. eauto. }
    split; [done|..].
    + rewrite fmap_app, Hp', <-Hp. symmetry. apply Permutation_cons_append.
    + intros x [Hxq|Hxq]%elem_of_app; [rewrite (keys_but_key t a) by eauto; by apply Hprio|].
      apply list_elem_of_singleton in Hxq as ->. cbn [fst]. by rewrite Hkt.
    + apply StronglySorted_snoc.
      * apply (StronglySorted_ext (earlier a)); [|done]. intros x y Hxq Hyq. unfold earlier. by rewrite !(keys_but_key t a a') by eauto.
      * intros x Hxq. unfold earlier. cbn [fst]. rewrite (keys_but_key t a), Hkt by eauto. simpl.
        apply (gens_lt _ _ _ (inv_gens _ _ Hinv)). rewrite <-Hp. apply list_elem_of_fmap. eauto.
Qed.

Lemma removed_refines h a q t h' a' : represents h a q → t ∈ q.*1 → removed h a t h' a' → represents h' a' (q_without t q).
Proof.
  intros Hrep Ht (Hinv' & Hp' & _ & Hk & _). pose proof (represents_NoDup _ _ _ Hrep) as Hnd.
  destruct Hrep as [Hinv Hp Hprio Hfifo]. split; [done|..].
  - apply (Permutation_cons_inv (a := t)). rewrite q_without_perm by done. by rewrite Hp', Hp.
  - intros x [Hx Hne]%q_without_elem. rewrite (keys_but_key t a) by done. by apply Hprio.
  - apply (StronglySorted_ext (earlier a)); [|by apply StronglySorted_filter].
    intros x y [_ Hx]%q_without_elem [_ Hy]%q_without_elem. unfold earlier. by rewrite !(keys_but_key t a a').
Qed.

(** The root of the heap is the abstract top. *)
Lemma peek_refines h a q : represents h a q → heap_peek h = fst <$> q_top q.
Proof.
  intros [Hinv Hp Hprio Hfifo]. unfold heap_peek. destruct (heap h) as [|r l] eqn:Hh.
  { apply Permutation_nil_r, fmap_nil_inv in Hp as ->. done. }
  assert (Hr : r ∈ q.*1) by (rewrite Hp; left). apply list_elem_of_fmap in Hr as ([r' p] & -> & Hr). simpl in *.
  apply list_elem_of_split in Hr as (q1 & q2 & ->).
  assert (Hrank : ∀ x, x ∈ q1 ++ (r', p) :: q2 → rank a x.1 ≤ rank a r').
  { intros x Hx. assert (Hin : x.1 ∈ heap h) by (rewrite Hh, <-Hp; apply list_elem_of_fmap; eauto).
    apply list_elem_of_lookup in Hin as (i & Hi). eapply (ordered_root _ _ i); [apply Hinv|done|by rewrite Hh]. }
  pose proof (Hprio (r', p) ltac:(set_solver)) as Hpr. simpl in Hpr.
  assert (Hsmall : ∀ x, x ∈ q1 ++ (r', p) :: q2 → (sched_key a x.1).2 < 2 ^ 63).
  { intros x Hx. assert (Hin : x.1 ∈ heap h) by (rewrite Hh, <-Hp; apply list_elem_of_fmap; eauto).
    pose proof (gens_lt _ _ _ (inv_gens _ _ Hinv) _ Hin). pose proof (gens_small _ _ _ (inv_gens _ _ Hinv)). lia. }
  pose proof (Hsmall (r', p) ltac:(set_solver)) as Hsr. simpl in Hsr. rewrite (q_top_spec q1 (r', p) q2); [done|..].
  - intros x Hx. pose proof (Hrank x ltac:(set_solver)) as Hle. pose proof (Hsmall x ltac:(set_solver)) as Hsx.
    pose proof (Hprio x ltac:(set_solver)) as Hpx. assert (He : earlier a x (r', p)).
    { apply (StronglySorted_app_1_elem_of (earlier a) q1 ((r', p) :: q2)); [done|done|left]. }
    unfold earlier in He. unfold rank, u64_MAX in Hle. simpl in *. lia.
  - intros x Hx. pose proof (Hrank x ltac:(set_solver)) as Hle. pose proof (Hsmall x ltac:(set_solver)) as Hsx.
    pose proof (Hprio x ltac:(set_solver)) as Hpx. unfold rank, u64_MAX in Hle. simpl in *. lia.
Qed.

Lemma clear_records l a : arena_wf a → let a' := foldl (λ a t, with_record a t clear_sched) a l in
  arena_wf a' ∧ framed a a' ∧ ∀ u, rec a' u = if decide (u ∈ l) then clear_sched <$> rec a u else rec a u.
Proof.
  revert a. induction l as [|t l IH]; intros a Hwf; [done|]. cbn [foldl].
  destruct (with_record_spec a t clear_sched Hwf) as [Hwf1 Hr1]. destruct (IH _ Hwf1) as (Hwf' & Hf' & Hr').
  cbv zeta. split; [done|]. split; [eapply framed_trans; [by apply (with_record_framed _ t clear_sched)|done]|]. intros u. rewrite Hr', Hr1.
  destruct (decide (u = t)) as [Hut|Hut], (decide (u ∈ l)) as [Hu|Hu]; try subst u;
    case_decide; try done; try (by exfalso; set_solver). by destruct (rec a t).
Qed.

Lemma clear_refines h a q : represents h a q →
  represents (heap_clear h a).1 (heap_clear h a).2 [] ∧ framed a (heap_clear h a).2 ∧ next_generation (heap_clear h a).1 = 0.
Proof.
  intros [[Hl Hg Ho] _ _ _]. pose proof Hl as [Hwf Hi Honly]. destruct (clear_records (heap h) a Hwf) as (Hwf' & Hf & Hr).
  unfold heap_clear. cbn [fst snd]. split_and!; [|done..].
  split; [|done|by intros x Hx%not_elem_of_nil|constructor]. split; cbn [reset_generation_if_empty heap_is_empty heap].
  - split; [done|done|]. intros t r p. rewrite Hr. case_decide as Ht; [by destruct (rec a t); intros; simplify_eq/=|].
    intros Hrt Hx. destruct Ht. eapply list_elem_of_lookup_2. by eapply Honly.
  - split; [by intros x Hx%not_elem_of_nil|done].
  - intros i _ x y Hx. done.
Qed.

Lemma removed_gen h a t h' a' : removed h a t h' a' → next_generation h' ≤ next_generation h.
Proof. intros (_ & _ & -> & _). case_bool_decide; lia. Qed.

Lemma step_refines h a q o known : represents h a q → next_generation h < 2 ^ 63 →
  (∀ t, known t = bool_decide (is_Some (rec a t))) →
  ∃ h' a', heap_step h a o = Returns (h', a', (q_step known q o).2) ∧ represents h' a' (q_step known q o).1 ∧
    framed a a' ∧ next_generation h' ≤ next_generation h + pushes [o].
Proof.
  intros Hrep Hn Hkn. destruct o as [t p| |t|]; cbn [heap_step q_step pushes].
  - rewrite Hkn. destruct (push_refines h a q t p Hrep Hn) as (h' & a' & -> & Hf & Hg & Hrep'). by eexists _, _.
  - pose proof (peek_refines _ _ _ Hrep) as Hpk. unfold heap_peek, heap_pop in *.
    destruct (heap h) as [|r l] eqn:Hh; simpl in Hpk.
    { destruct (q_top q); [done|]. eexists _, _. split; [done|]. by split_and!; [| |lia]. }
    destruct (q_top q) as [e|]; [|done]. injection Hpk as ->.
    destruct (remove_at_spec h a 0 e.1) as (h' & a' & -> & Hrm); [by apply Hrep|by rewrite Hh|].
    eexists _, _. split; [done|]. split_and!; [|by apply Hrm|pose proof (removed_gen _ _ _ _ _ Hrm); lia].
    eapply removed_refines; [done| |done]. destruct Hrep as [_ -> _ _]. rewrite Hh. left.
  - unfold heap_remove. pose proof (represents_member _ _ _ t Hrep) as Hm. fold (rec a t).
    destruct (bool_decide_reflect (t ∈ q.*1)) as [Ht|Ht].
    + apply Hm in Ht as Hm'. destruct Hm' as (r & pos & -> & -> & Hpos). rewrite bool_decide_true by done.
      destruct (remove_at_spec h a (N.to_nat pos) t) as (h' & a' & -> & Hrm); [by apply Hrep|done|].
      eexists _, _. split; [done|]. split_and!; [|by apply Hrm|pose proof (removed_gen _ _ _ _ _ Hrm); lia].
      by eapply removed_refines.
    + rewrite q_without_absent by done. destruct (rec a t) as [r|] eqn:Hr.
      * rewrite (proj2 (represents_index _ _ _ _ _ Hrep Hr) Ht). eexists _, _. split; [done|]. by split_and!; [| |lia].
      * eexists _, _. split; [done|]. by split_and!; [| |lia].
  - destruct (clear_refines h a q Hrep) as (Hrep' & Hf & Hg). destruct (heap_clear h a) as [h' a']. eexists _, _.
    split; [done|]. simpl in *. by split_and!; [| |lia].
Qed.

Lemma pushes_cons o os : pushes (o :: os) = pushes [o] + pushes os.
Proof. destruct o; cbn [pushes]; lia. Qed.

Lemma run_refines known os h a q : represents h a q → next_generation h + pushes os ≤ 2 ^ 63 - 1 →
  (∀ t, known t = bool_decide (is_Some (rec a t))) →
  ∃ h' a', heap_run h a os = Returns (h', a', (q_run known q os).2) ∧ represents h' a' (q_run known q os).1 ∧ framed a a'.
Proof.
  revert h a q. induction os as [|o os IH]; intros h a q Hrep Hn Hkn; [by eexists _, _|].
  rewrite pushes_cons in Hn. cbn [heap_run q_run].
  destruct (step_refines h a q o known Hrep) as (h1 & a1 & -> & Hrep1 & Hf1 & Hg1); [lia|done|].
  destruct (q_step known q o) as [q1 r]. cbn [run_bind mbind fst snd] in *.
  destruct (IH h1 a1 q1) as (h2 & a2 & -> & Hrep2 & Hf2); [done|lia| |].
  { intros t. rewrite Hkn. apply bool_decide_ext. symmetry. by apply framed_known. }
  destruct (q_run known q1 os) as [q2 rs]. eexists _, _. split; [done|]. split; [done|]. by eapply framed_trans.
Qed.

Lemma represents_new a : arena_wf a → (∀ t r, rec a t = Some r → heap_index r = None) → represents heap_new a [].
Proof.
  intros Hwf Hn. split; [|done|by intros x Hx%not_elem_of_nil|constructor]. split.
  - split; [done|done|]. intros t r p Hr Hp. apply Hn in Hr. congruence.
  - split; [by intros x Hx%not_elem_of_nil|done].
  - intros i _ x y Hx. done.
Qed.

Lemma represents_contains h a q t : represents h a q → heap_contains h t a = bool_decide (t ∈ q.*1).
Proof.
  intros Hrep. pose proof (represents_member _ _ _ t Hrep) as Hm. unfold heap_contains. fold (rec a t).
  destruct (bool_decide_reflect (t ∈ q.*1)) as [Ht|Ht].
  - apply Hm in Ht as (r & p & -> & -> & Hp). by apply bool_decide_true.
  - destruct (rec a t) as [r|] eqn:Hr; [|done]. by rewrite (proj2 (represents_index _ _ _ _ _ Hrep Hr) Ht).
Qed.

(** C16: The intrusive heap is a stable priority queue.  From an empty heap over
    any well-formed task arena in which no record claims a position, any sequence
    of pushes, pops, removals and clears (with fewer than 2^63 pushes, the range
    in which the wrapping comparison of arrival numbers is exact) returns without
    a panic, yields exactly the results of the reference queue that keeps its
    entries in order of arrival and pops the earliest entry of highest priority,
    and leaves a heap whose length, root and membership test agree with it; of
    the task records only the three scheduling fields change. *)
Theorem heap_refines_stable_queue a os : arena_wf a → (∀ t r, rec a t = Some r → heap_index r = None) → pushes os < 2 ^ 63 →
  ∃ h' a', let '(q, results) := q_run (λ t, bool_decide (is_Some (rec a t))) [] os in
    heap_run heap_new a os = Returns (h', a', results) ∧
    heap_len h' = lenN q ∧ heap_peek h' = fst <$> q_top q ∧
    (∀ t, heap_contains h' t a' = bool_decide (t ∈ q.*1)) ∧ framed a a'.
Proof.
  intros Hwf Hnone Hp. destruct (run_refines (λ t, bool_decide (is_Some (rec a t))) os heap_new a []) as (h' & a' & Hrun & Hrep & Hf);
    [by apply represents_new|simpl; lia|done|].
  exists h', a'. destruct (q_run _ [] os) as [q rs]. cbn [fst snd] in *. split_and!; [done|..|done].
  - unfold heap_len, lenN. by rewrite <-(rep_perm _ _ _ Hrep), length_fmap.
  - by apply peek_refines with a'.
  - intros t. by apply represents_contains.
Qed.

End refine.

Lemma unplaced {E} (a : Arena (TaskRecord E)) :
  Forall (λ s, match s with Occupied r _ => heap_index r = None | Vacant _ _ => True end) (slots a) →
  ∀ t r, rec a t = Some r → heap_index r = None.
Proof.
  intros Hall t r. unfold rec, get. destruct (slots a !! _) as [s|] eqn:Hs; [|done].
  apply (Forall_lookup_1 _ _ _ _ Hall) in Hs. destruct s; [|done]. case_match; [|done]. by intros [= <-].
Qed.

(** Four tasks in a fresh arena. *)
Definition heap_task (idx : ArenaIndex) : TaskRecord () := task_new (TaskId_from_arena idx) RegionId_testing_default INFINITE.
Definition heap_id (i : N) : TaskId := TaskId_from_arena (mkArenaIndex i 0).
Definition arena_add (a : Arena (TaskRecord ())) : Arena (TaskRecord ()) :=
  match insert_with a heap_task with Done (a', _) => a' | Panics => a end.
Definition four_tasks : Arena (TaskRecord ()) := arena_add (arena_add (arena_add (arena_add arena_new))).

Lemma arena_add_wf a : arena_wf a → arena_wf (arena_add a).
Proof.
  intros Hwf. pose proof (insert_with_spec a heap_task Hwf) as Hs. unfold arena_add.
  destruct (insert_with a heap_task) as [[a' idx]|]; [by apply Hs|done].
Qed.

Definition heap_script : list heap_op :=
  [HPush (heap_id 0) 3; HPush (heap_id 1) 7; HPush (heap_id 2) 7; HPush (heap_id 3) 5; HPush (heap_id 1) 9;
   HPush (heap_id 9) 255; HPop; HRemove (heap_id 3); HPush (heap_id 1) 7; HRemove (heap_id 8); HPop; HPop].

Lemma heap_refines_stable_queue_witness : ∃ h' a',
  heap_run heap_new four_tasks heap_script = Returns (h', a',
    [HDone; HDone; HDone; HDone; HDone; HDone; HPopped (Some (heap_id 1)); HRemoved true; HDone; HRemoved false;
     HPopped (Some (heap_id 2)); HPopped (Some (heap_id 1))]) ∧
  heap_len h' = 1 ∧ heap_peek h' = Some (heap_id 0).
Proof.
  assert (Hwf : arena_wf four_tasks) by (do 4 apply arena_add_wf; apply arena_wf_new).
  assert (Hn : ∀ t r, rec four_tasks t = Some r → heap_index r = None) by (apply unplaced; vm_compute; by repeat constructor).
  destruct (heap_refines_stable_queue four_tasks heap_script Hwf Hn) as (h' & a' & Hrun); [by vm_compute|].
  exists h', a'. destruct (q_run _ _ _) as [q rs] eqn:Hq. vm_compute in Hq. injection Hq as <- <-.
  destruct Hrun as (-> & -> & -> & _). done.
Defined.
