(* ===== verification/RegionHeap.v ===== *)
(** * Region heaps

    Models [src/runtime/region_heap.rs]: type-erased values in generational
    slots with an intrusive free list, statistics and bulk reclamation.  A type
    is its [TypeId] (a number), an erased value is the number standing for it;
    [size_of::<T>()] is an argument.  The process-wide allocation counter is
    left out. *)

From S2P Require Import Prelude Ids Arena.

(** ** Data *)

Record HeapStats := mkHeapStats {
  allocations : N;
  reclaimed : N;
  live_count : N;
  bytes_allocated : N;
  bytes_live : N;
}.

Definition TypeId := N.

Record HeapIndex := mkHeapIndex { hi_index : N; hi_generation : N; hi_type : TypeId }.

#[global] Instance HeapIndex_eq_dec : EqDecision HeapIndex.
Proof. solve_decision. Defined.

(** The boxed value with its dynamic type, and its size; the generation of a
    [HeapEntry] is the generation of its slot. *)
Record HeapEntry := mkHeapEntry { entry_type : TypeId; entry_value : N; size_hint : N }.

Notation HeapSlot := (Slot HeapEntry).

Record RegionHeap := mkRegionHeap {
  h_slots : list HeapSlot;
  h_free_head : option N;
  h_len : N;
  h_stats : HeapStats;
}.

Definition heap_new : RegionHeap := mkRegionHeap [] None 0 (mkHeapStats 0 0 0 0 0).

(** ** Operations *)

Definition u64_add (a b : N) : N := wrapping_add u64_MAX a b.

Definition count_alloc (s : HeapStats) (size : N) : HeapStats :=
  mkHeapStats (u64_add (allocations s) 1) (reclaimed s) (u64_add (live_count s) 1)
    (u64_add (bytes_allocated s) size) (u64_add (bytes_live s) size).

Definition alloc (h : RegionHeap) (ty : TypeId) (value size : N) : exec (RegionHeap * HeapIndex) :=
  let entry := mkHeapEntry ty value size in
  match h_free_head h with
  | Some free_index =>
      match h_slots h !! N.to_nat free_index with
      | Some (Vacant next_free generation) =>
          Done (mkRegionHeap (<[N.to_nat free_index := Occupied entry generation]> (h_slots h))
                  next_free (wrapping_add usize_MAX (h_len h) 1) (count_alloc (h_stats h) size),
                mkHeapIndex free_index generation ty)
      | Some (Occupied _ _) => Panics
      | None => Panics
      end
  | None =>
      let index := N.of_nat (length (h_slots h)) in
      if index <=? u32_MAX then
        Done (mkRegionHeap (h_slots h ++ [Occupied entry 0]) None
                (wrapping_add usize_MAX (h_len h) 1) (count_alloc (h_stats h) size),
              mkHeapIndex index 0 ty)
      else Panics
  end.

(** [get::<T>(index)]; the downcast compares the dynamic type. *)
Definition heap_get (h : RegionHeap) (ty : TypeId) (index : HeapIndex) : option N :=
  if negb (ty =? hi_type index) then None
  else
    match h_slots h !! N.to_nat (hi_index index) with
    | Some (Occupied entry generation) =>
        if generation =? hi_generation index
        then if entry_type entry =? ty then Some (entry_value entry) else None
        else None
    | _ => None
    end.

Definition heap_contains (h : RegionHeap) (index : HeapIndex) : bool :=
  match h_slots h !! N.to_nat (hi_index index) with
  | Some (Occupied _ generation) => generation =? hi_generation index
  | _ => false
  end.

Definition dealloc (h : RegionHeap) (index : HeapIndex) : RegionHeap * bool :=
  match h_slots h !! N.to_nat (hi_index index) with
  | Some (Occupied entry generation) =>
      if negb (generation =? hi_generation index) then (h, false)
      else
        let s := h_stats h in
        (mkRegionHeap
           (<[N.to_nat (hi_index index) :=
              Vacant (h_free_head h) (wrapping_add u32_MAX generation 1)]> (h_slots h))
           (Some (hi_index index)) (wrapping_sub usize_MAX (h_len h) 1)
           (mkHeapStats (allocations s) (u64_add (reclaimed s) 1)
              (wrapping_sub u64_MAX (live_count s) 1) (bytes_allocated s)
              (saturating_sub (bytes_live s) (size_hint entry))), true)
  | _ => (h, false)
  end.

Definition reclaim_all (h : RegionHeap) : RegionHeap :=
  let s := h_stats h in
  mkRegionHeap [] None 0
    (mkHeapStats (allocations s) (u64_add (reclaimed s) (h_len h)) 0 (bytes_allocated s) 0).

(** ** The representation invariant *)

Definition slot_bytes (s : HeapSlot) : N :=
  match s with Occupied e _ => size_hint e | Vacant _ _ => 0 end.

Definition total_bytes (sl : list HeapSlot) : N := foldr (λ s n, slot_bytes s + n) 0 sl.

Record heap_wf (h : RegionHeap) : Prop := {
  hw_length : N.of_nat (length (h_slots h)) ≤ u32_MAX + 1;
  hw_len : h_len h = N.of_nat (count is_occupied (h_slots h));
  hw_live : live_count (h_stats h) = h_len h;
  hw_bytes : bytes_live (h_stats h) = total_bytes (h_slots h);
  hw_range : bytes_live (h_stats h) ≤ u64_MAX;
  hw_free : ∃ l, chain (h_slots h) (h_free_head h) l ∧ NoDup l;
}.

Lemma total_bytes_app sl sl' : total_bytes (sl ++ sl') = total_bytes sl + total_bytes sl'.
Proof. unfold total_bytes. induction sl as [|s sl IH]; simpl; [done|]. rewrite IH. lia. Qed.

Lemma total_bytes_insert sl i s s' : sl !! i = Some s →
  total_bytes (<[i := s']> sl) + slot_bytes s = total_bytes sl + slot_bytes s'.
Proof.
  unfold total_bytes. revert i. induction sl as [|x sl IH]; intros [|i] H; simplify_eq/=; [lia|].
  apply IH in H. lia.
Qed.

Lemma heap_new_wf : heap_wf heap_new.
Proof.
  split; simpl; try done; try (unfold u32_MAX; lia). exists []. split; [done|constructor].
Qed.

Lemma reclaim_all_wf h : heap_wf (reclaim_all h).
Proof.
  split; simpl; try done; try (unfold u32_MAX; lia). exists []. split; [done|constructor].
Qed.

(** Counters after one allocation, without wrap-around. *)
Lemma count_alloc_exact h size : heap_wf h → bytes_live (h_stats h) + size ≤ u64_MAX →
  h_len h ≤ u32_MAX + 1 →
  live_count (count_alloc (h_stats h) size) = h_len h + 1 ∧
  bytes_live (count_alloc (h_stats h) size) = total_bytes (h_slots h) + size ∧
  wrapping_add usize_MAX (h_len h) 1 = h_len h + 1.
Proof.
  intros [_ _ Hl Hb _ _] Hs Hn.
  assert (h_len h < u64_MAX) by (unfold u32_MAX, u64_MAX in *; lia).
  simpl. unfold u64_add. rewrite Hb in Hs. rewrite Hl, Hb, !wrapping_add_1 by done. split_and!; [done| |done].
  unfold wrapping_add. apply N.mod_small. lia.
Qed.

Lemma len_bound h : heap_wf h → h_len h ≤ u32_MAX + 1.
Proof.
  intros [Hl -> _ _ _ _]. pose proof (count_le_length is_occupied (h_slots h)). lia.
Qed.

(** What an allocation does to the slots. *)
Lemma alloc_spec h ty v size : heap_wf h → bytes_live (h_stats h) + size ≤ u64_MAX →
  match alloc h ty v size with
  | Done (h', idx) =>
      heap_wf h' ∧ hi_type idx = ty ∧ h_len h' = h_len h + 1 ∧
      (∀ e g, h_slots h !! N.to_nat (hi_index idx) ≠ Some (Occupied e g)) ∧
      h_slots h' !! N.to_nat (hi_index idx) = Some (Occupied (mkHeapEntry ty v size) (hi_generation idx)) ∧
      (∀ i, i ≠ N.to_nat (hi_index idx) → h_slots h' !! i = h_slots h !! i)
  | Panics => h_free_head h = None ∧ N.of_nat (length (h_slots h)) = u32_MAX + 1
  end.
Proof.
  intros Hwf Hs. pose proof (len_bound h Hwf) as Hn.
  destruct (count_alloc_exact h size Hwf Hs Hn) as (Hc1 & Hc2 & Hc3). simpl in Hc1, Hc2.
  pose proof Hwf as [Hl Hlen Hlive Hb Hr (l & Hch & Hnd)].
  unfold alloc. destruct (h_free_head h) as [fi|] eqn:Hf.
  - destruct l as [|fi' l]; [done|]. destruct Hch as ([= <-] & next & g & Hfi & Hch).
    apply NoDup_cons in Hnd as [Hnin Hnd]. rewrite Hfi.
    pose proof (lookup_lt_Some _ _ _ Hfi) as Hlt.
    pose proof (count_insert is_occupied _ _ _ (Occupied (mkHeapEntry ty v size) g) Hfi) as Hcnt.
    pose proof (total_bytes_insert _ _ _ (Occupied (mkHeapEntry ty v size) g) Hfi) as Htb.
    simpl in Hcnt, Htb. split_and!; simpl; try done.
    + split; simpl; rewrite ?Hc1, ?Hc2, ?Hc3; try done.
      * by rewrite length_insert.
      * rewrite Hlen. lia.
      * lia.
      * lia.
      * exists l. split; [by apply chain_insert|done].
    + intros e g'. by rewrite Hfi.
    + by rewrite list_lookup_insert_eq.
    + intros i Hi. by rewrite list_lookup_insert_ne.
  - destruct (N.leb_spec (N.of_nat (length (h_slots h))) u32_MAX) as [Hle|Hgt]; [|split; [done|lia]].
    split_and!; simpl; try done.
    + split; simpl; rewrite ?Hc1, ?Hc2, ?Hc3; try done.
      * rewrite length_app. simpl. lia.
      * rewrite count_app, Hlen. unfold count at 3. simpl. lia.
      * rewrite total_bytes_app. simpl. lia.
      * lia.
      * exists []. split; [done|constructor].
    + intros e g. by rewrite Nat2N.id, lookup_ge_None_2.
    + by rewrite Nat2N.id, list_lookup_middle.
    + intros i Hi. rewrite Nat2N.id in Hi. destruct (decide (i < length (h_slots h))%nat).
      * by rewrite lookup_app_l.
      * rewrite !lookup_ge_None_2; [done|lia|]. rewrite length_app. simpl. lia.
Qed.

Lemma dealloc_spec h idx : heap_wf h →
  let (h', ok) := dealloc h idx in
  heap_wf h' ∧ ok = heap_contains h idx ∧ heap_contains h' idx = false ∧
  (∀ i, i ≠ N.to_nat (hi_index idx) → h_slots h' !! i = h_slots h !! i) ∧
  (ok = false → h' = h) ∧ (ok = true → h_len h' + 1 = h_len h).
Proof.
  intros Hwf. pose proof Hwf as [Hl Hlen Hlive Hb Hr (l & Hch & Hnd)].
  unfold dealloc. destruct (h_slots h !! N.to_nat (hi_index idx)) as [[e g|n g]|] eqn:Hi.
  2,3: split_and!; try done; unfold heap_contains; by rewrite Hi.
  destruct (N.eqb_spec g (hi_generation idx)) as [Hg|Hg]; simpl.
  2: { split_and!; try done; unfold heap_contains; rewrite Hi; by apply N.eqb_neq in Hg as ->. }
  pose proof (lookup_lt_Some _ _ _ Hi) as Hlt.
  set (s' := Vacant (h_free_head h) (wrapping_add u32_MAX g 1) : HeapSlot).
  pose proof (count_insert is_occupied _ _ _ s' Hi) as Hcnt.
  pose proof (total_bytes_insert _ _ _ s' Hi) as Htb. simpl in Hcnt, Htb.
  assert (Hpos : 1 ≤ h_len h) by (rewrite Hlen; lia).
  assert (Hsub : ∀ m, h_len h ≤ m → wrapping_sub m (h_len h) 1 = h_len h - 1).
  { intros m Hm. by apply wrapping_sub_small. }
  pose proof (len_bound h Hwf). assert (h_len h ≤ u64_MAX) by (unfold u32_MAX, u64_MAX in *; lia).
  split_and!; simpl; try done.
  - split; simpl; rewrite ?Hlive, ?Hsub by done; try done.
    + by rewrite length_insert.
    + lia.
    + unfold saturating_sub. lia.
    + unfold saturating_sub. lia.
    + exists (hi_index idx :: l). split.
      * split; [done|]. exists (h_free_head h), (wrapping_add u32_MAX g 1).
        rewrite list_lookup_insert_eq by done. split; [done|]. apply chain_insert; [|done].
        intros (? & ? & ?)%(chain_elem _ _ _ _ Hch). congruence.
      * constructor; [|done]. intros (? & ? & ?)%(chain_elem _ _ _ _ Hch). congruence.
  - unfold heap_contains. rewrite Hi. by apply N.eqb_eq in Hg as ->.
  - unfold heap_contains. simpl. by rewrite list_lookup_insert_eq.
  - intros i Hne. by rewrite list_lookup_insert_ne.
  - rewrite Hsub by done. lia.
Qed.

(** ** Properties *)

Lemma heap_get_contains h ty idx : heap_contains h idx = false → heap_get h ty idx = None.
Proof.
  unfold heap_contains, heap_get. intros H. destruct (negb _); [done|].
  destruct (h_slots h !! _) as [[e g|]|]; try done. by rewrite H.
Qed.

(** Reads depend only on the slot of the index. *)
Lemma heap_get_slot h h' ty idx :
  h_slots h' !! N.to_nat (hi_index idx) = h_slots h !! N.to_nat (hi_index idx) →
  heap_get h' ty idx = heap_get h ty idx.
Proof. unfold heap_get. by intros ->. Qed.

(** The region heap is a memory of typed values.  Allocation panics only
    when all 2^32 slots are taken; otherwise it returns an index that named
    nothing before, reads back as the stored value at the stored type and as
    nothing at any other type, and leaves every other live value alone.
    Deallocation succeeds exactly on live indices, makes the index dead and
    leaves other slots alone; reclamation makes every index dead; the counters
    of live values and bytes stay exact. *)
Theorem region_heap_correct (h : RegionHeap) (ty : TypeId) (v size : N) (idx : HeapIndex) :
  heap_wf h → bytes_live (h_stats h) + size ≤ u64_MAX →
  (match alloc h ty v size with
   | Panics => N.of_nat (length (h_slots h)) = u32_MAX + 1
   | Done (h', new_idx) =>
       heap_wf h' ∧ heap_contains h new_idx = false ∧
       (∀ ty', heap_get h' ty' new_idx = if ty' =? ty then Some v else None) ∧
       (∀ ty' j, heap_contains h j = true → heap_get h' ty' j = heap_get h ty' j)
   end) ∧
  (let (h', ok) := dealloc h idx in
   heap_wf h' ∧ ok = heap_contains h idx ∧
   (∀ ty', heap_get h' ty' idx = None) ∧
   (∀ ty' j, hi_index j ≠ hi_index idx → heap_get h' ty' j = heap_get h ty' j)) ∧
  heap_wf (reclaim_all h) ∧ ∀ ty' j, heap_get (reclaim_all h) ty' j = None.
Proof.
  intros Hwf Hs. split; [|split; [|split; [apply reclaim_all_wf|]]].
  - pose proof (alloc_spec h ty v size Hwf Hs) as H.
    destruct (alloc h ty v size) as [[h' ni]|]; [|by destruct H].
    destruct H as (Hwf' & Ht & _ & Hfresh & Hslot & Hother). split_and!; try done.
    + unfold heap_contains. destruct (h_slots h !! _) as [[e g|]|]; try done. by destruct (Hfresh e g).
    + intros ty'. unfold heap_get. rewrite Ht, Hslot, N.eqb_refl. simpl.
      destruct (N.eqb_spec ty' ty) as [->|]; simpl; [|done]. by rewrite N.eqb_refl.
    + intros ty' j Hj. apply heap_get_slot.
      destruct (decide (N.to_nat (hi_index j) = N.to_nat (hi_index ni))) as [E|Hne]; [|by apply Hother].
      exfalso. unfold heap_contains in Hj. rewrite E in Hj.
      destruct (h_slots h !! _) as [[e g|]|]; try done. by apply (Hfresh e g).
  - pose proof (dealloc_spec h idx Hwf) as H. destruct (dealloc h idx) as [h' ok].
    destruct H as (Hwf' & Hok & Hdead & Hother & _). split_and!; try done.
    + intros ty'. by apply heap_get_contains.
    + intros ty' j Hj. apply heap_get_slot, Hother. lia.
  - intros ty' j. by apply heap_get_contains.
Qed.

Definition sample_heap : RegionHeap :=
  match alloc heap_new 7 42 8 with Done (h, _) => h | Panics => heap_new end.

Lemma sample_heap_wf : heap_wf sample_heap.
Proof.
  pose proof (alloc_spec heap_new 7 42 8 heap_new_wf) as H. apply H. vm_compute. discriminate.
Qed.

Lemma region_heap_correct_witness :
  heap_get sample_heap 7 (mkHeapIndex 0 0 7) = Some 42 ∧
  ∀ ty, heap_get (dealloc sample_heap (mkHeapIndex 0 0 7)).1 ty (mkHeapIndex 0 0 7) = None.
Proof.
  split; [vm_compute; reflexivity|].
  assert (Hs : bytes_live (h_stats sample_heap) + 4 ≤ u64_MAX) by (vm_compute; discriminate).
  pose proof (region_heap_correct sample_heap 9 1 4 (mkHeapIndex 0 0 7) sample_heap_wf Hs) as (_ & H & _).
  destruct (dealloc sample_heap (mkHeapIndex 0 0 7)) as [h' ok]. exact (proj1 (proj2 (proj2 H))).
Defined.

(** Generations do not protect indices across a bulk reclamation: slots
    allocated afterwards start again at generation 0, so an index from before
    reads the value stored after it. *)
Theorem region_heap_stale_index_after_reclaim :
  ∃ h1 idx h2 idx2,
    alloc heap_new 7 42 8 = Done (h1, idx) ∧ alloc (reclaim_all h1) 7 99 8 = Done (h2, idx2) ∧
    heap_get (reclaim_all h1) 7 idx = None ∧ heap_get h2 7 idx = Some 99.
Proof. do 4 eexists. vm_compute. by repeat split. Qed.
