(* ===== verification/Region.v ===== *)
(** * Region records

    Models [src/record/region.rs] and the finalizer stack of
    [src/record/finalizer.rs]: the region state machine in its atomic byte,
    admission of children, tasks, obligations and heap values under limits,
    finalizers, cancellation reasons, closing with its notification, access
    through region references, and distributed snapshots.

    Every operation takes the lock on [RegionInner] once (admission re-checks the
    state under it, closing changes the state under it), so an operation is one
    step here; the optimistic first check repeats the second.  Closures and
    futures of finalizers are numbers.  Tracing spans are left out. *)

From S2P Require Import Prelude Ids Arena Budget Curves Cancel Outcome Cx Task RegionHeap.

#[local] Arguments N.of_nat : simpl never.

(** ** Region states *)

Module RegionState.

Inductive t := Open | Closing | Draining | Finalizing | Closed.

#[global] Instance t_eq_dec : EqDecision t.
Proof. solve_decision. Defined.

Definition as_u8 (s : t) : N :=
  match s with Open => 0 | Closing => 1 | Draining => 2 | Finalizing => 3 | Closed => 4 end.

Definition from_u8 (value : N) : option t :=
  match value with
  | 0 => Some Open | 1 => Some Closing | 2 => Some Draining | 3 => Some Finalizing
  | 4 => Some Closed
  | _ => None
  end.

Definition is_terminal (s : t) : bool := match s with Closed => true | _ => false end.
Definition can_spawn (s : t) : bool := match s with Open => true | _ => false end.
Definition can_accept_work (s : t) : bool := match s with Open => true | _ => false end.
Definition can_accept_cleanup_work (s : t) : bool :=
  match s with Open | Finalizing => true | _ => false end.
Definition is_draining (s : t) : bool := match s with Draining => true | _ => false end.
Definition is_closing (s : t) : bool :=
  match s with Closing | Draining | Finalizing => true | _ => false end.

(** [AtomicRegionState::transition]: a compare-and-exchange. *)
Definition transition (cell from to : t) : t * bool :=
  if as_u8 cell =? as_u8 from then (to, true) else (cell, false).

End RegionState.

(** ** Limits and errors *)

Record RegionLimits := mkRegionLimits {
  max_children : option N;
  max_tasks : option N;
  max_obligations : option N;
  max_heap_bytes : option N;
  curve_budget : option CurveBudget;
}.

Definition UNLIMITED : RegionLimits := mkRegionLimits None None None None None.

Inductive AdmissionKind := KChild | KTask | KObligation | KHeapBytes.

Inductive AdmissionError :=
| AdmissionClosed
| LimitReached (kind : AdmissionKind) (limit live : N).

Inductive RRefError :=
| RegionNotFound (r : RegionId)
| AllocationInvalid
| RRefRegionMismatch (expected actual : RegionId)
| RegionClosed
| WrongRegion.

Record RRef := mkRRef { rref_region : RegionId; rref_index : HeapIndex; rref_type : TypeId }.

(** ** Finalizers *)

Inductive Finalizer := FSync (f : N) | FAsync (fut : N).
Inductive FinalizerEscalation := Soft | BoundedLog | BoundedPanic.

Definition allows_continuation (e : FinalizerEscalation) : bool :=
  match e with BoundedLog => true | _ => false end.

Definition FINALIZER_POLL_BUDGET : N := 100.
Definition finalizer_budget : Budget := with_poll_quota budget_new FINALIZER_POLL_BUDGET.

Record FinalizerStack := mkFinalizerStack {
  finalizers_of : list Finalizer;
  escalation : FinalizerEscalation;
}.

Definition finalizers_new : FinalizerStack := mkFinalizerStack [] BoundedLog.
Definition finalizers_push (s : FinalizerStack) (f : Finalizer) : FinalizerStack :=
  mkFinalizerStack (finalizers_of s ++ [f]) (escalation s).
Definition finalizers_pop (s : FinalizerStack) : FinalizerStack * option Finalizer :=
  match vec_pop (finalizers_of s) with
  | Some (rest, f) => (mkFinalizerStack rest (escalation s), Some f)
  | None => (s, None)
  end.
Definition finalizers_empty (s : FinalizerStack) : bool :=
  match finalizers_of s with [] => true | _ => false end.

(** ** Records *)

Record RegionCloseState := mkRegionCloseState { closed : bool; close_waiters : list Waker }.

Section region.
Context {E : Type}.

Record RegionInner := mkRegionInner {
  r_budget : Budget;
  r_capability_budget : CapabilityBudget;
  children : list RegionId;
  tasks : list TaskId;
  finalizers : FinalizerStack;
  cancel_reason : option CancelReason;
  close_outcome : option (TaskOutcome E);
  limits : RegionLimits;
  pending_obligations : N;
  heap : RegionHeap;
}.

Record RegionRecord := mkRegionRecord {
  region_id : RegionId;
  parent : option RegionId;
  region_created_at : Time.t;
  close_notify : RegionCloseState;
  region_state : RegionState.t;
  inner : RegionInner;
  double_resolve_count : N;
}.

Definition new_with_time_and_capability_budget (id : RegionId) (parent : option RegionId)
  (budget : Budget) (created_at : Time.t) (cap : CapabilityBudget) : RegionRecord :=
  mkRegionRecord id parent created_at (mkRegionCloseState false []) RegionState.Open
    (mkRegionInner budget cap [] [] finalizers_new None None UNLIMITED 0 heap_new) 0.

Definition region_new (id : RegionId) (parent : option RegionId) (budget : Budget) : RegionRecord :=
  new_with_time_and_capability_budget id parent budget Time.ZERO UNSPECIFIED.

(** Assignments. *)
Definition set_inner (r : RegionRecord) (i : RegionInner) : RegionRecord :=
  mkRegionRecord (region_id r) (parent r) (region_created_at r) (close_notify r) (region_state r) i
    (double_resolve_count r).
Definition set_region_state (r : RegionRecord) (s : RegionState.t) : RegionRecord :=
  mkRegionRecord (region_id r) (parent r) (region_created_at r) (close_notify r) s (inner r)
    (double_resolve_count r).
Definition set_children (i : RegionInner) (l : list RegionId) : RegionInner :=
  mkRegionInner (r_budget i) (r_capability_budget i) l (tasks i) (finalizers i) (cancel_reason i)
    (close_outcome i) (limits i) (pending_obligations i) (heap i).
Definition set_tasks (i : RegionInner) (l : list TaskId) : RegionInner :=
  mkRegionInner (r_budget i) (r_capability_budget i) (children i) l (finalizers i) (cancel_reason i)
    (close_outcome i) (limits i) (pending_obligations i) (heap i).
Definition set_finalizers (i : RegionInner) (s : FinalizerStack) : RegionInner :=
  mkRegionInner (r_budget i) (r_capability_budget i) (children i) (tasks i) s (cancel_reason i)
    (close_outcome i) (limits i) (pending_obligations i) (heap i).
Definition set_cancel (i : RegionInner) (c : option CancelReason) : RegionInner :=
  mkRegionInner (r_budget i) (r_capability_budget i) (children i) (tasks i) (finalizers i) c
    (close_outcome i) (limits i) (pending_obligations i) (heap i).
Definition set_outcome (i : RegionInner) (o : option (TaskOutcome E)) : RegionInner :=
  mkRegionInner (r_budget i) (r_capability_budget i) (children i) (tasks i) (finalizers i)
    (cancel_reason i) o (limits i) (pending_obligations i) (heap i).
Definition set_obligations (i : RegionInner) (n : N) : RegionInner :=
  mkRegionInner (r_budget i) (r_capability_budget i) (children i) (tasks i) (finalizers i)
    (cancel_reason i) (close_outcome i) (limits i) n (heap i).
Definition set_heap (i : RegionInner) (h : RegionHeap) : RegionInner :=
  mkRegionInner (r_budget i) (r_capability_budget i) (children i) (tasks i) (finalizers i)
    (cancel_reason i) (close_outcome i) (limits i) (pending_obligations i) h.
Definition set_region_budget (i : RegionInner) (b : Budget) : RegionInner :=
  mkRegionInner b (r_capability_budget i) (children i) (tasks i) (finalizers i)
    (cancel_reason i) (close_outcome i) (limits i) (pending_obligations i) (heap i).
Definition set_limits_inner (i : RegionInner) (l : RegionLimits) : RegionInner :=
  mkRegionInner (r_budget i) (r_capability_budget i) (children i) (tasks i) (finalizers i)
    (cancel_reason i) (close_outcome i) l (pending_obligations i) (heap i).

Definition set_budget (r : RegionRecord) (b : Budget) : RegionRecord :=
  set_inner r (set_region_budget (inner r) b).
Definition set_limits (r : RegionRecord) (l : RegionLimits) : RegionRecord :=
  set_inner r (set_limits_inner (inner r) l).

Definition record_close_outcome (r : RegionRecord) (outcome : TaskOutcome E) : RegionRecord :=
  set_inner r (set_outcome (inner r)
    (Some (match close_outcome (inner r) with
           | Some existing => Outcome.join existing outcome
           | None => outcome
           end))).

(** The update of [cancel_reason] that several operations share. *)
Definition strengthened_reason (c : option CancelReason) (reason : CancelReason) : CancelReason :=
  match c with Some existing => strengthened existing reason | None => reason end.

Definition strengthen_cancel_reason (r : RegionRecord) (reason : CancelReason) : RegionRecord :=
  set_inner r (set_cancel (inner r) (Some (strengthened_reason (cancel_reason (inner r)) reason))).

Definition is_nil {A} (l : list A) : bool := match l with [] => true | _ => false end.

Definition has_live_work (r : RegionRecord) : bool :=
  let i := inner r in
  negb (is_nil (children i)) || negb (is_nil (tasks i)) || (0 <? pending_obligations i).

(** ** Admission *)

Definition limit_reached (limit : option N) (live : N) : option N :=
  match limit with Some l => if l <=? live then Some l else None | None => None end.

Definition add_child (r : RegionRecord) (child : RegionId) : RegionRecord * result () AdmissionError :=
  let i := inner r in
  if negb (RegionState.can_spawn (region_state r)) then (r, Err AdmissionClosed)
  else if bool_decide (child ∈ children i) then (r, Ok ())
  else
    let live := N.of_nat (length (children i)) in
    match limit_reached (max_children (limits i)) live with
    | Some l => (r, Err (LimitReached KChild l live))
    | None => (set_inner r (set_children i (children i ++ [child])), Ok ())
    end.

Definition remove_child (r : RegionRecord) (child : RegionId) : RegionRecord :=
  set_inner r (set_children (inner r) (filter (λ c, c ≠ child) (children (inner r)))).

Definition add_task_internal (r : RegionRecord) (task : TaskId) (cleanup_task : bool)
  : RegionRecord * result () AdmissionError :=
  let can_admit s :=
    if cleanup_task then RegionState.can_accept_cleanup_work s else RegionState.can_accept_work s in
  let i := inner r in
  if negb (can_admit (region_state r)) then (r, Err AdmissionClosed)
  else if bool_decide (task ∈ tasks i) then (r, Ok ())
  else
    let bypass_limit := cleanup_task && bool_decide (region_state r = RegionState.Finalizing) in
    let live := N.of_nat (length (tasks i)) in
    match (if bypass_limit then None else limit_reached (max_tasks (limits i)) live) with
    | Some l => (r, Err (LimitReached KTask l live))
    | None => (set_inner r (set_tasks i (tasks i ++ [task])), Ok ())
    end.

Definition add_task (r : RegionRecord) (task : TaskId) := add_task_internal r task false.
Definition add_cleanup_task (r : RegionRecord) (task : TaskId) := add_task_internal r task true.

Definition remove_task (r : RegionRecord) (task : TaskId) : RegionRecord :=
  set_inner r (set_tasks (inner r) (filter (λ t, t ≠ task) (tasks (inner r)))).

Definition try_reserve_obligation (r : RegionRecord) : RegionRecord * result () AdmissionError :=
  let i := inner r in
  if negb (RegionState.can_accept_work (region_state r)) then (r, Err AdmissionClosed)
  else
    match limit_reached (max_obligations (limits i)) (pending_obligations i) with
    | Some l => (r, Err (LimitReached KObligation l (pending_obligations i)))
    | None =>
        (set_inner r (set_obligations i (saturating_add usize_MAX (pending_obligations i) 1)), Ok ())
    end.

Definition resolve_obligation (r : RegionRecord) : RegionRecord :=
  match checked_sub (pending_obligations (inner r)) 1 with
  | Some n => set_inner r (set_obligations (inner r) n)
  | None =>
      mkRegionRecord (region_id r) (parent r) (region_created_at r) (close_notify r)
        (region_state r) (inner r) (wrapping_add u64_MAX (double_resolve_count r) 1)
  end.

Definition add_finalizer (r : RegionRecord) (f : Finalizer) : RegionRecord :=
  set_inner r (set_finalizers (inner r) (finalizers_push (finalizers (inner r)) f)).

Definition pop_finalizer (r : RegionRecord) : RegionRecord * option Finalizer :=
  let (s, f) := finalizers_pop (finalizers (inner r)) in
  (set_inner r (set_finalizers (inner r) s), f).

Definition heap_alloc (r : RegionRecord) (ty : TypeId) (value size : N)
  : exec (RegionRecord * result HeapIndex AdmissionError) :=
  let i := inner r in
  if RegionState.is_terminal (region_state r) then Done (r, Err AdmissionClosed)
  else
    let live_bytes := bytes_live (h_stats (heap i)) in
    let requested := saturating_add u64_MAX live_bytes size in
    match max_heap_bytes (limits i) with
    | Some limit =>
        if limit <? requested then Done (r, Err (LimitReached KHeapBytes limit live_bytes))
        else p ← alloc (heap i) ty value size; Done (set_inner r (set_heap i p.1), Ok p.2)
    | None => p ← alloc (heap i) ty value size; Done (set_inner r (set_heap i p.1), Ok p.2)
    end.

(** ** Closing *)

Definition inner_quiescent (i : RegionInner) : bool :=
  is_nil (children i) && is_nil (tasks i) && (pending_obligations i =? 0)
  && finalizers_empty (finalizers i).

Definition is_quiescent (r : RegionRecord) : bool := inner_quiescent (inner r).

Definition cancel_request (r : RegionRecord) (reason : CancelReason) : RegionRecord * bool :=
  (set_inner r (set_cancel (inner r) (Some (strengthened_reason (cancel_reason (inner r)) reason))),
   match cancel_reason (inner r) with Some _ => false | None => true end).

Definition begin_close (r : RegionRecord) (reason : option CancelReason) : RegionRecord * bool :=
  if bool_decide (region_state r = RegionState.Closed) then (r, false)
  else
    let r := match reason with Some c => strengthen_cancel_reason r c | None => r end in
    let (s, transitioned) :=
      RegionState.transition (region_state r) RegionState.Open RegionState.Closing in
    (set_region_state r s, transitioned).

Definition begin_drain (r : RegionRecord) : RegionRecord * bool :=
  let (s, ok) := RegionState.transition (region_state r) RegionState.Closing RegionState.Draining in
  (set_region_state r s, ok).

Definition begin_finalize (r : RegionRecord) : RegionRecord * bool :=
  let (s, ok) := RegionState.transition (region_state r) RegionState.Closing RegionState.Finalizing in
  if ok then (set_region_state r s, true)
  else
    let (s, ok) :=
      RegionState.transition (region_state r) RegionState.Draining RegionState.Finalizing in
    (set_region_state r s, ok).

(** The close notification: mark closed and take the waiters. *)
Definition notify_closed (r : RegionRecord) : RegionRecord * list Waker :=
  (mkRegionRecord (region_id r) (parent r) (region_created_at r) (mkRegionCloseState true [])
     (region_state r) (inner r) (double_resolve_count r), close_waiters (close_notify r)).

Definition default_outcome (i : RegionInner) : TaskOutcome E :=
  match cancel_reason i with Some reason => Outcome.Cancelled reason | None => Outcome.Ok () end.

(** [complete_close]: the record, whether the region closed, the wakers woken. *)
Definition complete_close (r : RegionRecord) : RegionRecord * bool * list Waker :=
  let i := inner r in
  if negb (inner_quiescent i) then (r, false, [])
  else
    let i := set_outcome i (Some (default (default_outcome i) (close_outcome i))) in
    let r := set_inner r i in
    let (s, transitioned) :=
      RegionState.transition (region_state r) RegionState.Finalizing RegionState.Closed in
    let r := set_region_state r s in
    if transitioned then
      let r := set_inner r (set_heap i (reclaim_all (heap i))) in
      let (r, waiters) := notify_closed r in
      (r, true, waiters)
    else (r, false, []).

(** ** Access through references *)

Definition read_heap (r : RegionRecord) (x : RRef) : result N RRefError :=
  match heap_get (heap (inner r)) (rref_type x) (rref_index x) with
  | Some v => Ok v
  | None => Err AllocationInvalid
  end.

Definition rref_get (r : RegionRecord) (x : RRef) : result N RRefError :=
  if bool_decide (rref_region x ≠ region_id r)
  then Err (RRefRegionMismatch (rref_region x) (region_id r))
  else if RegionState.is_terminal (region_state r) then Err RegionClosed
  else read_heap r x.

Definition access_witness (r : RegionRecord) : result RegionId RRefError :=
  if RegionState.is_terminal (region_state r) then Err RegionClosed else Ok (region_id r).

Definition validate_witness (x : RRef) (witness : RegionId) : result () RRefError :=
  if bool_decide (witness ≠ rref_region x) then Err WrongRegion else Ok ().

Definition rref_get_with (r : RegionRecord) (x : RRef) (witness : RegionId) : result N RRefError :=
  if bool_decide (witness ≠ region_id r) then Err WrongRegion
  else
    let? _ := validate_witness x witness in
    if RegionState.is_terminal (region_state r) then Err RegionClosed else read_heap r x.

(** ** Readiness *)

Definition can_finalize (r : RegionRecord) : bool :=
  match region_state r with RegionState.Closing | RegionState.Draining => true | _ => false end.

Definition ready_to_finalize (r : RegionRecord) (completed : TaskId → bool) : bool :=
  let i := inner r in
  is_nil (children i) && forallb completed (tasks i) && (pending_obligations i =? 0).

(** ** Distributed snapshots *)

(** [for x in xs { if !v.contains(&x) { v.push(x) } }] *)
Definition union_push {A} `{EqDecision A} (v xs : list A) : list A :=
  foldl (λ v x, if bool_decide (x ∈ v) then v else v ++ [x]) v xs.

Definition apply_distributed_snapshot (r : RegionRecord) (state : RegionState.t) (budget : Budget)
  (children_ : list RegionId) (tasks_ : list TaskId) (reason : option CancelReason)
  : RegionRecord * list Waker :=
  let prev_state := region_state r in
  let i := set_region_budget (inner r) budget in
  let i := set_children i (union_push (children i) children_) in
  let i := set_tasks i (union_push (tasks i) tasks_) in
  let i := set_cancel i reason in
  let r := set_region_state (set_inner r i) state in
  if bool_decide (state = RegionState.Closed) && bool_decide (prev_state ≠ RegionState.Closed)
  then notify_closed (set_inner r (set_heap i (reclaim_all (heap i))))
  else (r, []).

End region.

Arguments RegionInner : clear implicits.
Arguments RegionRecord : clear implicits.

(** ** Sequences of operations *)

Section lifecycle.
Context {E : Type}.
Implicit Types (r : RegionRecord E) (i : RegionInner E).

Inductive RegionOp :=
| RAddChild (c : RegionId)
| RRemoveChild (c : RegionId)
| RAddTask (t : TaskId)
| RAddCleanupTask (t : TaskId)
| RRemoveTask (t : TaskId)
| RReserveObligation
| RResolveObligation
| RAddFinalizer (f : Finalizer)
| RPopFinalizer
| RHeapAlloc (ty value size : N)
| RRecordOutcome (o : TaskOutcome E)
| RCancelRequest (c : CancelReason)
| RStrengthen (c : CancelReason)
| RSetBudget (b : Budget)
| RSetLimits (l : RegionLimits)
| RBeginClose (c : option CancelReason)
| RBeginDrain
| RBeginFinalize
| RCompleteClose.

Definition region_apply r (op : RegionOp) : exec (RegionRecord E) :=
  match op with
  | RAddChild c => Done (add_child r c).1
  | RRemoveChild c => Done (remove_child r c)
  | RAddTask t => Done (add_task r t).1
  | RAddCleanupTask t => Done (add_cleanup_task r t).1
  | RRemoveTask t => Done (remove_task r t)
  | RReserveObligation => Done (try_reserve_obligation r).1
  | RResolveObligation => Done (resolve_obligation r)
  | RAddFinalizer f => Done (add_finalizer r f)
  | RPopFinalizer => Done (pop_finalizer r).1
  | RHeapAlloc ty v size => p ← heap_alloc r ty v size; Done p.1
  | RRecordOutcome o => Done (record_close_outcome r o)
  | RCancelRequest c => Done (cancel_request r c).1
  | RStrengthen c => Done (strengthen_cancel_reason r c)
  | RSetBudget b => Done (set_budget r b)
  | RSetLimits l => Done (set_limits r l)
  | RBeginClose c => Done (begin_close r c).1
  | RBeginDrain => Done (begin_drain r).1
  | RBeginFinalize => Done (begin_finalize r).1
  | RCompleteClose => Done (complete_close r).1.1
  end.

Fixpoint region_run r (ops : list RegionOp) : exec (RegionRecord E) :=
  match ops with
  | [] => Done r
  | op :: ops => r' ← region_apply r op; region_run r' ops
  end.

(** ** The state machine and the invariant *)

(** Edges of the region state machine; a step that does not move is [rm_stay]. *)
Inductive region_move : RegionState.t → RegionState.t → Prop :=
| rm_stay s : region_move s s
| rm_close : region_move RegionState.Open RegionState.Closing
| rm_drain : region_move RegionState.Closing RegionState.Draining
| rm_finalize_closing : region_move RegionState.Closing RegionState.Finalizing
| rm_finalize : region_move RegionState.Draining RegionState.Finalizing
| rm_closed : region_move RegionState.Finalizing RegionState.Closed.

(** No work remains: what [complete_close] asks for, finalizers apart. *)
Record no_work i : Prop := {
  nw_children : children i = [];
  nw_tasks : tasks i = [];
  nw_obligations : pending_obligations i = 0;
}.

(** What holds of a closed region. *)
Record closed_ok r : Prop := {
  co_work : no_work (inner r);
  co_heap : h_slots (heap (inner r)) = [];
  co_notified : closed (close_notify r) = true ∧ close_waiters (close_notify r) = [];
  co_outcome : is_Some (close_outcome (inner r));
}.

Record region_wf r : Prop := {
  rw_children : NoDup (children (inner r));
  rw_tasks : NoDup (tasks (inner r));
  rw_closed : region_state r = RegionState.Closed → closed_ok r;
  rw_open : region_state r ≠ RegionState.Closed → closed (close_notify r) = false;
}.

(** Steps that leave the state alone. *)
Record stays r r' : Prop := {
  st_state : region_state r' = region_state r;
  st_id : region_id r' = region_id r;
  st_parent : parent r' = parent r;
  st_notify : close_notify r' = close_notify r;
}.

Record region_step_ok r r' : Prop := {
  rs_wf : region_wf r';
  rs_move : region_move (region_state r) (region_state r');
  rs_id : region_id r' = region_id r;
  rs_parent : parent r' = parent r;
}.

(** A change of the inner data of a region keeps the invariant when it keeps the
    lists duplicate-free and adds nothing to a closed region. *)
Lemma set_inner_ok r i : region_wf r → NoDup (children i) → NoDup (tasks i) →
  (region_state r = RegionState.Closed → no_work (inner r) → no_work i ∧
     h_slots (heap i) = h_slots (heap (inner r)) ∧
     (is_Some (close_outcome (inner r)) → is_Some (close_outcome i))) →
  region_step_ok r (set_inner r i).
Proof.
  intros [Hc Ht Hcl Ho] Hnc Hnt Hk. split; simpl; try done; [|constructor].
  split; simpl; try done. intros Hs. destruct (Hcl Hs) as [Hw Hh Hn Hout].
  destruct (Hk Hs Hw) as (Hw' & Hh' & Hout'). split; simpl; [done|congruence|done|auto].
Qed.

Lemma step_refl r : region_wf r → region_step_ok r r.
Proof. intros ?. split; try done. constructor. Qed.

Lemma NoDup_snoc {A} (l : list A) x : NoDup l → x ∉ l → NoDup (l ++ [x]).
Proof.
  intros Hl Hx. apply NoDup_app. split; [done|]. split; [|apply NoDup_singleton].
  by intros y Hy ->%list_elem_of_singleton.
Qed.

Lemma add_child_ok r c : region_wf r → region_step_ok r (add_child r c).1.
Proof.
  intros Hwf. unfold add_child. destruct (RegionState.can_spawn (region_state r)) eqn:Hs; simpl;
    [|by apply step_refl].
  destruct (bool_decide_reflect (c ∈ children (inner r))); [by apply step_refl|].
  destruct (limit_reached _ _); [by apply step_refl|].
  apply set_inner_ok; simpl; [done|apply NoDup_snoc; [apply Hwf|done]|apply Hwf|].
  intros Hc. by rewrite Hc in Hs.
Qed.

Lemma add_task_internal_ok r t b : region_wf r → region_step_ok r (add_task_internal r t b).1.
Proof.
  intros Hwf. unfold add_task_internal.
  destruct (if b then _ else _) eqn:Hs; simpl; [|by apply step_refl].
  destruct (bool_decide_reflect (t ∈ tasks (inner r))); [by apply step_refl|].
  destruct (if b && _ then _ else _); [by apply step_refl|].
  apply set_inner_ok; simpl; [done|apply Hwf|apply NoDup_snoc; [apply Hwf|done]|].
  intros Hc. rewrite Hc in Hs. by destruct b.
Qed.

Lemma filter_nil {A} (P : A → Prop) `{∀ x, Decision (P x)} (l : list A) : l = [] → filter P l = [].
Proof. by intros ->. Qed.

(** Operations on the inner data that need no guard. *)
Lemma inner_ops_ok r : region_wf r →
  (∀ c, region_step_ok r (remove_child r c)) ∧ (∀ t, region_step_ok r (remove_task r t)) ∧
  (∀ f, region_step_ok r (add_finalizer r f)) ∧ region_step_ok r (pop_finalizer r).1 ∧
  (∀ o, region_step_ok r (record_close_outcome r o)) ∧
  (∀ c, region_step_ok r (strengthen_cancel_reason r c)) ∧
  (∀ b, region_step_ok r (set_budget r b)) ∧ (∀ l, region_step_ok r (set_limits r l)).
Proof.
  intros Hwf. split_and!; intros.
  4: unfold pop_finalizer; destruct (finalizers_pop _) as [s f].
  all: apply set_inner_ok; simpl; try apply Hwf; try done; try (apply NoDup_filter, Hwf).
  all: intros _ [Hc Ht Ho]; split_and!; try done; split; simpl; try done; by apply filter_nil.
Qed.

Lemma try_reserve_ok r : region_wf r → region_step_ok r (try_reserve_obligation r).1.
Proof.
  intros Hwf. unfold try_reserve_obligation.
  destruct (RegionState.can_accept_work (region_state r)) eqn:Hs; simpl; [|by apply step_refl].
  destruct (limit_reached _ _); [by apply step_refl|].
  apply set_inner_ok; simpl; try apply Hwf. intros Hc. by rewrite Hc in Hs.
Qed.

Lemma resolve_ok r : region_wf r → region_step_ok r (resolve_obligation r).
Proof.
  intros Hwf. unfold resolve_obligation, checked_sub.
  destruct (N.leb_spec 1 (pending_obligations (inner r))).
  - apply set_inner_ok; simpl; try apply Hwf. intros _ [? ? ?]. lia.
  - split; simpl; try done; [|constructor]. destruct Hwf as [? ? Hcl ?]. split; simpl; try done.
    intros Hs. destruct (Hcl Hs). by split.
Qed.

Lemma heap_alloc_ok r ty v size r' res : region_wf r →
  heap_alloc r ty v size = Done (r', res) → region_step_ok r r'.
Proof.
  intros Hwf. unfold heap_alloc.
  destruct (RegionState.is_terminal (region_state r)) eqn:Hs.
  { intros [= <- <-]. by apply step_refl. }
  assert (Halloc : ∀ p, alloc (heap (inner r)) ty v size = Done p →
    region_step_ok r (set_inner r (set_heap (inner r) p.1))).
  { intros p _. apply set_inner_ok; simpl; try apply Hwf. intros Hc. by rewrite Hc in Hs. }
  unfold mbind, exec_bind. destruct (alloc _ ty v size) as [p|].
  - specialize (Halloc p eq_refl). destruct (max_heap_bytes _) as [l|]; [destruct (l <? _)|];
      intros [= <- <-]; by try apply step_refl.
  - destruct (max_heap_bytes _) as [l|]; [destruct (l <? _)|]; intros; simplify_eq; by apply step_refl.
Qed.

(** Moves of the state other than closing. *)
Lemma set_state_ok r s : region_wf r → region_move (region_state r) s → s ≠ RegionState.Closed →
  region_state r ≠ RegionState.Closed → region_step_ok r (set_region_state r s).
Proof. intros [? ? ? ?] Hm Hs Hr. split; simpl; try done. split; simpl; auto. done. Qed.

Lemma transition_eq r : set_region_state r (region_state r) = r.
Proof. by destruct r. Qed.

Lemma strengthen_ok r c : region_wf r → region_step_ok r (strengthen_cancel_reason r c).
Proof. intros Hwf. by apply inner_ops_ok. Qed.

Lemma begin_close_ok r c : region_wf r → region_step_ok r (begin_close r c).1.
Proof.
  intros Hwf. unfold begin_close. case_bool_decide as Hc; [by apply step_refl|].
  assert (∃ r1, r1 = match c with Some c => strengthen_cancel_reason r c | None => r end ∧
    region_step_ok r r1 ∧ region_state r1 = region_state r) as (r1 & <- & H1 & Hs).
  { eexists. split; [done|]. destruct c; [split; [by apply strengthen_ok|done]|].
    split; [by apply step_refl|done]. }
  unfold RegionState.transition. destruct (_ =? _) eqn:Heq; simpl.
  - assert (Ho : region_state r = RegionState.Open) by (rewrite <-Hs; by destruct (region_state r1)).
    destruct (set_state_ok r1 RegionState.Closing) as [? _ ? ?]; try apply H1; try congruence.
    { rewrite Hs, Ho. constructor. }
    destruct H1 as [_ _ ? ?]. split; simpl; [done| |congruence..]. rewrite Ho. constructor.
  - by rewrite transition_eq.
Qed.

Lemma begin_drain_ok r : region_wf r → region_step_ok r (begin_drain r).1.
Proof.
  intros Hwf. unfold begin_drain, RegionState.transition.
  destruct (region_state r) eqn:Hs; simpl; try (rewrite <-Hs, transition_eq; by apply step_refl).
  apply set_state_ok; rewrite ?Hs; try done. constructor.
Qed.

Lemma begin_finalize_ok r : region_wf r → region_step_ok r (begin_finalize r).1.
Proof.
  intros Hwf. unfold begin_finalize, RegionState.transition.
  destruct (region_state r) eqn:Hs; simpl; try (rewrite <-Hs, transition_eq; by apply step_refl).
  all: apply set_state_ok; rewrite ?Hs; try done; constructor.
Qed.

Lemma inner_quiescent_spec i : inner_quiescent i = true ↔
  no_work i ∧ finalizers_of (finalizers i) = [].
Proof.
  unfold inner_quiescent, is_nil, finalizers_empty. split.
  - intros H. apply andb_true_iff in H as [H Hf]. apply andb_true_iff in H as [H Ho].
    apply andb_true_iff in H as [Hc Ht]. apply N.eqb_eq in Ho.
    split; [split; [| |done]|]; repeat case_match; done.
  - intros [[-> -> ->] ->]. done.
Qed.

(** [complete_close] closes exactly the quiescent finalizing regions. *)
Lemma complete_close_cases r :
  (inner_quiescent (inner r) = true ∧ region_state r = RegionState.Finalizing ∧
   complete_close r =
     (mkRegionRecord (region_id r) (parent r) (region_created_at r) (mkRegionCloseState true [])
        RegionState.Closed
        (set_heap (set_outcome (inner r)
           (Some (default (default_outcome (inner r)) (close_outcome (inner r)))))
           (reclaim_all (heap (inner r))))
        (double_resolve_count r), true, close_waiters (close_notify r))) ∨
  ((complete_close r).1.2 = false ∧ (complete_close r).2 = [] ∧
   ((complete_close r).1.1 = r ∨
    (complete_close r).1.1 =
      set_inner r (set_outcome (inner r)
        (Some (default (default_outcome (inner r)) (close_outcome (inner r))))))) ∧
   ¬ (inner_quiescent (inner r) = true ∧ region_state r = RegionState.Finalizing).
Proof.
  unfold complete_close, RegionState.transition. destruct (inner_quiescent (inner r)) eqn:Hq; simpl.
  - destruct (region_state r) eqn:Hs; simpl; [right..|left|right]; split_and!; try done.
    all: try (by intros [_ ?]). all: right; unfold set_region_state, set_inner; simpl; by rewrite Hs.
  - right. split_and!; try done; [by left|]. by intros [? _].
Qed.

Lemma complete_close_ok r : region_wf r → region_step_ok r (complete_close r).1.1.
Proof.
  intros Hwf. destruct (complete_close_cases r) as [(Hq & Hs & ->)|[(_ & _ & [->| ->]) _]]; simpl.
  - apply inner_quiescent_spec in Hq as [Hw _]. destruct Hwf as [? ? ? ?].
    split; simpl; try done; [|rewrite Hs; constructor].
    split; simpl; try done. intros _. by split; simpl; try done; destruct Hw; split.
  - by apply step_refl.
  - apply set_inner_ok; simpl; try apply Hwf. intros _ [? ? ?]. by split_and!.
Qed.

Lemma region_apply_ok r op r' : region_wf r → region_apply r op = Done r' → region_step_ok r r'.
Proof.
  intros Hwf H. pose proof (inner_ops_ok r Hwf) as (H1 & H2 & H3 & H4 & H5 & H6 & H7 & H8).
  destruct op; simpl in H; simplify_eq; auto.
  - by apply add_child_ok.
  - by apply add_task_internal_ok.
  - by apply add_task_internal_ok.
  - by apply try_reserve_ok.
  - by apply resolve_ok.
  - unfold mbind, exec_bind in H. destruct (heap_alloc r ty value size) as [[r1 res]|] eqn:Ha; simplify_eq/=.
    by eapply heap_alloc_ok.
  - apply (H6 c).
  - by apply begin_close_ok.
  - by apply begin_drain_ok.
  - by apply begin_finalize_ok.
  - by apply complete_close_ok.
Qed.

Lemma region_run_ok r ops r' : region_wf r → region_run r ops = Done r' →
  region_wf r' ∧ rtc region_move (region_state r) (region_state r') ∧ region_id r' = region_id r.
Proof.
  revert r. induction ops as [|op ops IH]; intros r Hwf H; simpl in H.
  - by simplify_eq.
  - unfold mbind, exec_bind in H. destruct (region_apply r op) as [r1|] eqn:Ha; [|done].
    apply region_apply_ok in Ha as [Hwf1 Hm Hi _]; [|done].
    destruct (IH _ Hwf1 H) as (? & ? & ?). split_and!; [done|by eapply rtc_l|congruence].
Qed.

Lemma region_new_wf id p b t cap : region_wf (new_with_time_and_capability_budget id p b t cap : RegionRecord E).
Proof. by split; simpl; try done; constructor. Qed.

(** ** Properties *)

Lemma alloc_nonempty h ty v size h' idx : alloc h ty v size = Done (h', idx) → h_slots h' ≠ [].
Proof.
  unfold alloc. intros H Hn. apply (f_equal length) in Hn.
  destruct (h_free_head h) as [fi|].
  - destruct (h_slots h !! N.to_nat fi) as [[]|] eqn:Hl; simplify_eq/=.
    rewrite length_insert in Hn. apply lookup_lt_Some in Hl. lia.
  - destruct (_ <=? _); simplify_eq/=. rewrite length_app in Hn. simpl in Hn. lia.
Qed.

(** Only [complete_close] and allocation touch the heap. *)
Lemma region_apply_heap r op r' : region_apply r op = Done r' →
  h_slots (heap (inner r)) ≠ [] → h_slots (heap (inner r')) = [] → op = RCompleteClose.
Proof.
  intros H Hne He. destruct op; simpl in H; simplify_eq; try done; exfalso; apply Hne; revert He.
  - unfold add_child. repeat case_match; done.
  - unfold add_task, add_task_internal. repeat case_match; done.
  - unfold add_cleanup_task, add_task_internal. repeat case_match; done.
  - unfold try_reserve_obligation. repeat case_match; done.
  - unfold resolve_obligation. repeat case_match; done.
  - unfold pop_finalizer. by destruct (finalizers_pop _).
  - intros He. unfold mbind, exec_bind in H.
    destruct (heap_alloc r ty value size) as [[r1 res]|] eqn:Ha; simplify_eq/=.
    unfold heap_alloc, mbind, exec_bind in Ha.
    destruct (alloc _ ty value size) as [[h' idx]|] eqn:Hal.
    + apply alloc_nonempty in Hal. repeat case_match; simplify_eq/=; done.
    + repeat case_match; simplify_eq/=; done.
  - unfold begin_close. repeat case_match; done.
  - unfold begin_drain. by destruct (RegionState.transition _ _ _).
  - unfold begin_finalize. repeat case_match; done.
Qed.

Lemma region_apply_closes r op r' : region_apply r op = Done r' →
  region_state r ≠ RegionState.Closed → region_state r' = RegionState.Closed → op = RCompleteClose.
Proof.
  intros H Hne He. destruct op; simpl in H; simplify_eq; try done; exfalso; apply Hne; revert He.
  - unfold add_child. repeat case_match; done.
  - unfold add_task, add_task_internal. repeat case_match; done.
  - unfold add_cleanup_task, add_task_internal. repeat case_match; done.
  - unfold try_reserve_obligation. repeat case_match; done.
  - unfold resolve_obligation. repeat case_match; done.
  - unfold pop_finalizer. by destruct (finalizers_pop _).
  - intros He. unfold mbind, exec_bind in H.
    destruct (heap_alloc r ty value size) as [[r1 res]|] eqn:Ha; simplify_eq/=.
    unfold heap_alloc, mbind, exec_bind in Ha. repeat case_match; simplify_eq/=; done.
  - unfold begin_close, RegionState.transition. destruct c, (region_state r) eqn:Hs; simpl; rewrite ?Hs; done.
  - unfold begin_drain, RegionState.transition. by destruct (region_state r).
  - unfold begin_finalize, RegionState.transition. by destruct (region_state r).
Qed.

(** A region only moves along its state machine, one edge at a time; it
    closes, and its heap is reclaimed, only by [complete_close], and only when
    it is finalizing and quiescent (no children, tasks, obligations or
    finalizers), at which point every registered waiter is woken and the outcome
    is fixed. *)
Theorem region_closes_only_quiescent r op r' : region_wf r → region_apply r op = Done r' →
  region_wf r' ∧ region_move (region_state r) (region_state r') ∧
  region_id r' = region_id r ∧ parent r' = parent r ∧
  ((region_state r ≠ RegionState.Closed ∧ region_state r' = RegionState.Closed ∨
    h_slots (heap (inner r)) ≠ [] ∧ h_slots (heap (inner r')) = []) →
   op = RCompleteClose ∧ region_state r = RegionState.Finalizing ∧ is_quiescent r = true ∧
   complete_close r = (r', true, close_waiters (close_notify r)) ∧
   close_outcome (inner r') = Some (default (default_outcome (inner r)) (close_outcome (inner r)))).
Proof.
  intros Hwf H. pose proof (region_apply_ok _ _ _ Hwf H) as [? ? ? ?]. split_and!; try done.
  intros Hchg. assert (op = RCompleteClose) as ->.
  { destruct Hchg as [[? ?]|[? ?]]; [by eapply region_apply_closes|by eapply region_apply_heap]. }
  simpl in H. injection H as <-.
  destruct (complete_close_cases r) as [(Hq & Hs & E1)|[(_ & _ & [E1|E1]) _]].
  - unfold is_quiescent. rewrite E1. done.
  - rewrite E1 in Hchg. exfalso. by destruct Hchg as [[? ?]|[? ?]].
  - rewrite E1 in Hchg. exfalso. simpl in Hchg. by destruct Hchg as [[? ?]|[? ?]].
Qed.

(** Closed means closed.  Whatever sequence of operations a region goes
    through, once closed it has no children, tasks, pending obligations or heap
    values, its waiters have been notified and an outcome is recorded; no child,
    task, cleanup task, obligation or heap value is admitted; references into it
    cannot be read; and it stays closed. *)
Theorem region_closed_is_final r ops r' ops2 r2 : region_wf r →
  region_run r ops = Done r' → region_state r' = RegionState.Closed →
  region_run r' ops2 = Done r2 →
  region_state r2 = RegionState.Closed ∧ closed_ok r2 ∧
  (∀ c, add_child r2 c = (r2, Err AdmissionClosed)) ∧
  (∀ t, add_task r2 t = (r2, Err AdmissionClosed)) ∧
  (∀ t, add_cleanup_task r2 t = (r2, Err AdmissionClosed)) ∧
  try_reserve_obligation r2 = (r2, Err AdmissionClosed) ∧
  (∀ ty v size, heap_alloc r2 ty v size = Done (r2, Err AdmissionClosed)) ∧
  (∀ x v, rref_get r2 x ≠ Ok v) ∧ (∀ x w v, rref_get_with r2 x w ≠ Ok v).
Proof.
  intros Hwf H1 Hc H2. destruct (region_run_ok _ _ _ Hwf H1) as (Hwf' & _ & _).
  destruct (region_run_ok _ _ _ Hwf' H2) as (Hwf2 & Hms & _).
  assert (Hs : region_state r2 = RegionState.Closed).
  { rewrite Hc in Hms. remember RegionState.Closed as s eqn:E1. clear -Hms E1.
    induction Hms as [|s1 s2 s3 Hm _ IH]; [done|]. subst. inversion Hm; subst. by apply IH. }
  split; [done|]. split; [by apply Hwf2|].
  unfold add_child, add_task, add_cleanup_task, add_task_internal, try_reserve_obligation, heap_alloc,
    rref_get, rref_get_with. rewrite Hs. simpl. split_and!; try done.
  - intros x v. by case_bool_decide.
  - intros x w v. case_bool_decide; [done|]. by destruct (validate_witness x w).
Qed.

(** Admission respects state and limits on every branch: children and tasks
    are admitted only while open (cleanup tasks also while finalizing, where the
    task limit does not apply), a new one only below the limit, a known one
    without effect; obligations count up by one below the limit. *)
Theorem region_admission_correct r (c : RegionId) (t : TaskId) : region_wf r →
  (match add_child r c with
   | (r', Ok _) => region_state r = RegionState.Open ∧ c ∈ children (inner r') ∧
       (r' = r ∨ children (inner r') = children (inner r) ++ [c] ∧
        ∀ l, max_children (limits (inner r)) = Some l → N.of_nat (length (children (inner r'))) ≤ l)
   | (r', Err e) => r' = r ∧ (e = AdmissionClosed ↔ region_state r ≠ RegionState.Open) ∧
       ∀ k l n, e = LimitReached k l n → k = KChild ∧ max_children (limits (inner r)) = Some l ∧ l ≤ n
   end) ∧
  (∀ cleanup, match add_task_internal r t cleanup with
   | (r', Ok _) => (region_state r = RegionState.Open ∨
         cleanup = true ∧ region_state r = RegionState.Finalizing) ∧ t ∈ tasks (inner r') ∧
       (r' = r ∨ tasks (inner r') = tasks (inner r) ++ [t] ∧
        (region_state r = RegionState.Open →
         ∀ l, max_tasks (limits (inner r)) = Some l → N.of_nat (length (tasks (inner r'))) ≤ l))
   | (r', Err e) => r' = r ∧
       ∀ k l n, e = LimitReached k l n →
         k = KTask ∧ region_state r = RegionState.Open ∧ max_tasks (limits (inner r)) = Some l ∧ l ≤ n
   end) ∧
  (match try_reserve_obligation r with
   | (r', Ok _) => region_state r = RegionState.Open ∧
       pending_obligations (inner r') = N.min (pending_obligations (inner r) + 1) usize_MAX ∧
       ∀ l, max_obligations (limits (inner r)) = Some l → pending_obligations (inner r') ≤ l
   | (r', Err _) => r' = r
   end).
Proof.
  intros Hwf. split; [|split].
  - unfold add_child, limit_reached. destruct (region_state r) eqn:Hs; simpl; try (by split_and!).
    case_bool_decide as Hin; [split_and!; [done..|by left]|].
    destruct (max_children _) as [l|] eqn:Hl; [destruct (N.leb_spec l (N.of_nat (length (children (inner r)))))|].
    + split_and!; try done. intros k l' n [= <- <- <-]. done.
    + simpl. split_and!; [done|set_solver|]. right. split; [done|].
      intros l' [= ->]. rewrite length_app. simpl. lia.
    + simpl. split_and!; [done|set_solver|]. by right.
  - intros cleanup. unfold add_task_internal, limit_reached.
    destruct (region_state r) eqn:Hs, cleanup; simpl; try (by split_and!).
    all: case_bool_decide as Hin; [split_and!; [by auto|done|by left]|].
    all: try rewrite bool_decide_true by done; try rewrite bool_decide_false by done; simpl.
    all: try (destruct (max_tasks _) as [l|] eqn:Hl;
      [destruct (N.leb_spec l (N.of_nat (length (tasks (inner r)))))|]).
    all: try (split_and!; [done|intros k l' n [= <- <- <-]; done]).
    all: split_and!; [by auto|set_solver|]; right; (split; [done|]); try done.
    all: intros _ l' ?; simplify_eq; simpl; rewrite length_app; simpl; lia.
  - unfold try_reserve_obligation, limit_reached.
    destruct (region_state r) eqn:Hs; simpl; try done.
    destruct (max_obligations _) as [l|] eqn:Hl;
      [destruct (N.leb_spec l (pending_obligations (inner r)))|]; simpl; try done.
    split_and!; try done. intros l' [= ->]. unfold saturating_add. lia.
Qed.

(** Popping [n] finalizers in the finalizing phase. *)
Fixpoint pop_finalizers (n : nat) r : RegionRecord E * list Finalizer :=
  match n with
  | O => (r, [])
  | S n =>
      match pop_finalizer r with
      | (r, Some f) => let (r, fs) := pop_finalizers n r in (r, f :: fs)
      | (r, None) => (r, [])
      end
  end.

Lemma pop_finalizers_spec fs r :
  finalizers_of (finalizers (inner r)) = fs →
  pop_finalizers (length fs) r =
  (set_inner r (set_finalizers (inner r) (mkFinalizerStack [] (escalation (finalizers (inner r))))),
   reverse fs).
Proof.
  revert r. induction fs as [|f fs IH] using rev_ind; intros r Hf.
  - simpl. destruct r as [? ? ? ? ? [? ? ? ? [] ? ? ? ? ?] ?]; simpl in *. by subst.
  - rewrite length_app, Nat.add_comm. simpl. unfold pop_finalizer, finalizers_pop.
    assert (Hp : vec_pop (finalizers_of (finalizers (inner r))) = Some (fs, f)).
    { apply vec_pop_Some. done. }
    rewrite Hp. rewrite IH by done. simpl. by rewrite reverse_app.
Qed.

(** Closing makes progress: an open region without children, tasks and
    obligations closes after [begin_close], [begin_finalize] and popping its
    finalizers; they come out in reverse order of registration, each exactly
    once; the waiters are woken; and the outcome is the recorded one, or
    cancelled with the strengthened reason, or a success. *)
Theorem region_close_completes r (c : option CancelReason) :
  region_state r = RegionState.Open → no_work (inner r) →
  let fs := finalizers_of (finalizers (inner r)) in
  let (r1, ok1) := begin_close r c in
  let (r2, ok2) := begin_finalize r1 in
  let (r3, popped) := pop_finalizers (length fs) r2 in
  let '(r4, ok4, woken) := complete_close r3 in
  ok1 = true ∧ ok2 = true ∧ popped = reverse fs ∧ ok4 = true ∧
  region_state r4 = RegionState.Closed ∧ woken = close_waiters (close_notify r) ∧
  close_outcome (inner r4) =
    Some (match close_outcome (inner r) with
          | Some o => o
          | None =>
              match c, cancel_reason (inner r) with
              | Some c, old => Outcome.Cancelled (strengthened_reason old c)
              | None, Some old => Outcome.Cancelled old
              | None, None => Outcome.Ok ()
              end
          end).
Proof.
  intros Hs [Hc Ht Ho]. unfold begin_close. rewrite bool_decide_false by (by rewrite Hs).
  set (ra := match c with Some c => strengthen_cancel_reason r c | None => r end).
  assert (Hra : region_state ra = RegionState.Open ∧ finalizers (inner ra) = finalizers (inner r) ∧
    children (inner ra) = [] ∧ tasks (inner ra) = [] ∧ pending_obligations (inner ra) = 0 ∧
    close_notify ra = close_notify r ∧ close_outcome (inner ra) = close_outcome (inner r) ∧
    cancel_reason (inner ra) = match c, cancel_reason (inner r) with
      | Some c, old => Some (strengthened_reason old c) | None, old => old end) by (by destruct c).
  destruct Hra as (Hs1 & Hf1 & Hc1 & Ht1 & Ho1 & Hn1 & Hout1 & Hcr1). clearbody ra.
  unfold RegionState.transition at 1. rewrite Hs1. simpl.
  set (rb := set_region_state (set_region_state ra RegionState.Closing) RegionState.Finalizing).
  rewrite (pop_finalizers_spec (finalizers_of (finalizers (inner r))) rb) by (simpl; by rewrite Hf1).
  unfold complete_close, inner_quiescent, finalizers_empty. simpl. rewrite Hc1, Ht1, Ho1. simpl.
  split_and!; try done; [by rewrite Hn1|]. unfold default_outcome. simpl. rewrite Hout1, Hcr1.
  by destruct (close_outcome (inner r)), c, (cancel_reason (inner r)).
Qed.

End lifecycle.

Arguments RegionOp : clear implicits.

(** ** Snapshots *)

Lemma union_push_spec {A} `{EqDecision A} (v xs : list A) :
  (∀ x, x ∈ union_push v xs ↔ x ∈ v ∨ x ∈ xs) ∧ (NoDup v → NoDup (union_push v xs)).
Proof.
  revert v. induction xs as [|y xs IH]; intros v; simpl; [set_solver|].
  destruct (IH (if bool_decide (y ∈ v) then v else v ++ [y])) as [Hel Hnd].
  split.
  - intros x. rewrite Hel. case_bool_decide; set_solver.
  - intros Hv. apply Hnd. case_bool_decide; [done|]. by apply NoDup_snoc.
Qed.

(** Applying distributed snapshots never loses a child or task: the lists
    become the unions with the snapshot's, without duplicates, so that the
    resulting sets do not depend on the order in which two snapshots are
    applied, nor on applying one twice. *)
Theorem snapshot_union {E} (r : RegionRecord E) s1 b1 cs1 ts1 c1 s2 b2 cs2 ts2 c2 : region_wf r →
  let ra := (apply_distributed_snapshot (apply_distributed_snapshot r s1 b1 cs1 ts1 c1).1 s2 b2 cs2 ts2 c2).1 in
  let rb := (apply_distributed_snapshot (apply_distributed_snapshot r s2 b2 cs2 ts2 c2).1 s1 b1 cs1 ts1 c1).1 in
  (∀ t, t ∈ tasks (inner ra) ↔ t ∈ tasks (inner r) ∨ t ∈ ts1 ∨ t ∈ ts2) ∧
  (∀ c, c ∈ children (inner ra) ↔ c ∈ children (inner r) ∨ c ∈ cs1 ∨ c ∈ cs2) ∧
  NoDup (tasks (inner ra)) ∧ NoDup (children (inner ra)) ∧
  tasks (inner ra) ≡ₚ tasks (inner rb) ∧ children (inner ra) ≡ₚ children (inner rb).
Proof.
  intros [Hnc Hnt _ _].
  assert (Happ : ∀ (q : RegionRecord E) s b cs ts c,
    tasks (inner (apply_distributed_snapshot q s b cs ts c).1) = union_push (tasks (inner q)) ts ∧
    children (inner (apply_distributed_snapshot q s b cs ts c).1) = union_push (children (inner q)) cs).
  { intros. unfold apply_distributed_snapshot. by destruct (_ && _). }
  intros ra rb. subst ra rb.
  destruct (Happ (apply_distributed_snapshot r s1 b1 cs1 ts1 c1).1 s2 b2 cs2 ts2 c2) as [-> ->].
  destruct (Happ (apply_distributed_snapshot r s2 b2 cs2 ts2 c2).1 s1 b1 cs1 ts1 c1) as [-> ->].
  destruct (Happ r s1 b1 cs1 ts1 c1) as [-> ->], (Happ r s2 b2 cs2 ts2 c2) as [-> ->].
  assert (Hu : ∀ {A} `{EqDecision A} (v x y : list A), NoDup v →
    (∀ z, z ∈ union_push (union_push v x) y ↔ z ∈ v ∨ z ∈ x ∨ z ∈ y) ∧
    NoDup (union_push (union_push v x) y)).
  { intros A ? v x y Hv. destruct (union_push_spec v x) as [He Hd].
    destruct (union_push_spec (union_push v x) y) as [He' Hd']. split; [|auto].
    intros z. rewrite He', He. tauto. }
  destruct (Hu _ _ (tasks (inner r)) ts1 ts2 Hnt) as [Ht1 Hd1], (Hu _ _ (tasks (inner r)) ts2 ts1 Hnt) as [Ht2 Hd2].
  destruct (Hu _ _ (children (inner r)) cs1 cs2 Hnc) as [Hc1 Hd3], (Hu _ _ (children (inner r)) cs2 cs1 Hnc) as [Hc2 Hd4].
  split_and!; try done; apply NoDup_Permutation; try done; intros z; rewrite ?Ht1, ?Ht2, ?Hc1, ?Hc2; tauto.
Qed.

(** ** Concrete regions *)

Definition sample_region : RegionRecord () := region_new RegionId_testing_default None budget_new.

Lemma sample_region_wf : region_wf sample_region.
Proof. apply region_new_wf. Qed.

Definition close_ops : list (RegionOp ()) :=
  [RAddTask sample_task; RBeginClose (Some reason_shutdown); RRemoveTask sample_task;
   RBeginFinalize; RCompleteClose].

Lemma region_closes_only_quiescent_witness :
  region_wf (begin_close sample_region None).1 ∧
  region_move RegionState.Open RegionState.Closing.
Proof.
  destruct (region_closes_only_quiescent sample_region (RBeginClose None) _ sample_region_wf eq_refl)
    as (H1 & H2 & _).
  split; [exact H1|exact H2].
Defined.

Lemma region_closed_is_final_witness :
  ∃ r', region_run sample_region close_ops = Done r' ∧
    close_outcome (inner r') = Some (Outcome.Cancelled reason_shutdown) ∧
    region_state r' = RegionState.Closed ∧ add_task r' sample_task = (r', Err AdmissionClosed).
Proof.
  eexists. split; [vm_compute; reflexivity|]. split; [reflexivity|]. split; [reflexivity|].
  eapply (region_closed_is_final sample_region close_ops _ [] _ sample_region_wf);
    [vm_compute; reflexivity|reflexivity|reflexivity].
Defined.

Lemma region_admission_correct_witness :
  (add_child sample_region RegionId_testing_default).2 = Ok () ∧
  RegionId_testing_default ∈ children (inner (add_child sample_region RegionId_testing_default).1).
Proof.
  pose proof (region_admission_correct sample_region RegionId_testing_default sample_task
    sample_region_wf) as [H _].
  split; [reflexivity|exact (proj1 (proj2 H))].
Defined.

Lemma region_close_completes_witness :
  (complete_close (begin_finalize (begin_close sample_region None).1).1).1.2 = true.
Proof.
  assert (H : no_work (inner sample_region)) by (split; reflexivity).
  exact (proj1 (proj2 (proj2 (proj2 (region_close_completes sample_region None eq_refl H))))).
Defined.

Lemma snapshot_union_witness :
  tasks (inner (apply_distributed_snapshot (apply_distributed_snapshot sample_region
    RegionState.Open budget_new [] [sample_task] None).1 RegionState.Open budget_new [] [sample_task] None).1)
  ≡ₚ [sample_task].
Proof.
  exact (proj1 (proj2 (proj2 (proj2 (proj2 (snapshot_union sample_region RegionState.Open budget_new []
    [sample_task] None RegionState.Open budget_new [] [sample_task] None sample_region_wf)))))).
Defined.

(** A call of [complete_close] that does not close the region still fixes
    its outcome: on a quiescent open region the call returns false but records a
    success, and when the region is then cancelled and closes, it reports that
    success although a cancellation reason is set. *)
Theorem early_complete_close_hides_cancel :
  ∃ r', region_run sample_region
      [RCompleteClose; RBeginClose (Some reason_shutdown); RBeginFinalize; RCompleteClose] = Done r' ∧
    region_state r' = RegionState.Closed ∧ cancel_reason (inner r') = Some reason_shutdown ∧
    close_outcome (inner r') = Some (Outcome.Ok ()) ∧
    (complete_close sample_region).1.2 = false.
Proof. eexists. split; [vm_compute; reflexivity|]. by repeat split. Qed.

(** Closing does not stop heap allocation, and finalization may skip
    draining: a region that has begun to close still admits heap values, goes
    from closing straight to finalizing, and admits them there too. *)
Theorem heap_alloc_while_closing :
  ∃ r1 i1 r3 i3,
    heap_alloc (begin_close sample_region None).1 7 42 8 = Done (r1, Ok i1) ∧
    region_state r1 = RegionState.Closing ∧
    heap_alloc (begin_finalize r1).1 7 43 8 = Done (r3, Ok i3) ∧
    region_state r3 = RegionState.Finalizing.
Proof.
  do 4 eexists. split; [vm_compute; reflexivity|]. split; [reflexivity|].
  split; [vm_compute; reflexivity|reflexivity].
Qed.
