(* ===== verification/Obligation.v ===== *)
(** * Obligations

    Models [src/record/obligation.rs] (linear obligations: reserved, then
    committed, aborted or leaked) and [src/runtime/obligation_table.rs] (the
    table over the arena, its cached pending counters, the index by holder and
    the fence of finalized regions).  Backtraces are opaque numbers. *)

From S2P Require Import Prelude Ids Arena.

(** ** Data *)

Record SourceLocation := mkSourceLocation { loc_file : string; loc_line : N; loc_column : N }.

Inductive ObligationKind := SendPermit | Ack | Lease | IoOp | SemaphorePermit.
Inductive ObligationAbortReason := AbortCancel | AbortError | AbortExplicit.
Inductive ObligationState := Reserved | Committed | Aborted | Leaked.
Inductive ObligationResolution := ResCommit | ResAbort (r : ObligationAbortReason) | ResLeak.

#[global] Instance ObligationKind_eq_dec : EqDecision ObligationKind.
Proof. solve_decision. Defined.

Definition resolution_state (r : ObligationResolution) : ObligationState :=
  match r with ResCommit => Committed | ResAbort _ => Aborted | ResLeak => Leaked end.
Definition resolution_abort_reason (r : ObligationResolution) : option ObligationAbortReason :=
  match r with ResAbort reason => Some reason | _ => None end.

Definition ob_state_is_terminal (s : ObligationState) : bool :=
  match s with Committed | Aborted | Leaked => true | Reserved => false end.
Definition ob_state_is_success (s : ObligationState) : bool :=
  match s with Committed | Aborted => true | _ => false end.

Record ObligationRecord := mkObligationRecord {
  ob_id : ObligationId;
  ob_kind : ObligationKind;
  holder : TaskId;
  ob_region : RegionId;
  ob_state : ObligationState;
  description : option string;
  acquired_at : SourceLocation;
  acquire_backtrace : option N;
  reserved_at : Time.t;
  resolved_at : option Time.t;
  abort_reason : option ObligationAbortReason;
}.

Definition new_with_context (id : ObligationId) (kind : ObligationKind) (h : TaskId) (r : RegionId)
  (at_ : Time.t) (loc : SourceLocation) (bt : option N) : ObligationRecord :=
  mkObligationRecord id kind h r Reserved None loc bt at_ None None.

Definition with_description_and_context (id : ObligationId) (kind : ObligationKind) (h : TaskId)
  (r : RegionId) (at_ : Time.t) (desc : string) (loc : SourceLocation) (bt : option N)
  : ObligationRecord :=
  mkObligationRecord id kind h r Reserved (Some desc) loc bt at_ None None.

Definition is_pending (o : ObligationRecord) : bool :=
  match ob_state o with Reserved => true | _ => false end.

(** [resolve]: panics on an obligation that is not pending. *)
Definition resolve (o : ObligationRecord) (now : Time.t) (res : ObligationResolution)
  : exec (ObligationRecord * N) :=
  if is_pending o then
    Done (mkObligationRecord (ob_id o) (ob_kind o) (holder o) (ob_region o) (resolution_state res)
            (description o) (acquired_at o) (acquire_backtrace o) (reserved_at o) (Some now)
            (resolution_abort_reason res),
          Time.duration_since now (reserved_at o))
  else Panics.

Definition ob_commit (o : ObligationRecord) (now : Time.t) := resolve o now ResCommit.
Definition ob_abort (o : ObligationRecord) (now : Time.t) (r : ObligationAbortReason) :=
  resolve o now (ResAbort r).
Definition ob_mark_leaked (o : ObligationRecord) (now : Time.t) := resolve o now ResLeak.

(** [record.id = ...] *)
Definition set_ob_id (o : ObligationRecord) (id : ObligationId) : ObligationRecord :=
  mkObligationRecord id (ob_kind o) (holder o) (ob_region o) (ob_state o) (description o)
    (acquired_at o) (acquire_backtrace o) (reserved_at o) (resolved_at o) (abort_reason o).

(** ** The table *)

Notation HolderBucket := (list (TaskId * list ObligationId)) (only parsing).

Record ObligationTable := mkObligationTable {
  obligations : Arena ObligationRecord;
  by_holder : list HolderBucket;
  cached_pending : N;
  pending_by_kind : list N;
  pending_reserved_at_sum_ns : N;
  finalized_regions : gset RegionId;
}.

Definition OBLIGATION_KIND_COUNT : nat := 5.

Definition kind_index (k : ObligationKind) : nat :=
  match k with SendPermit => 0 | Ack => 1 | Lease => 2 | IoOp => 3 | SemaphorePermit => 4 end%nat.

Definition table_new : ObligationTable :=
  mkObligationTable arena_new [] 0 (replicate OBLIGATION_KIND_COUNT 0) 0 ∅.

Definition set_counters (t : ObligationTable) (p : N) (k : list N) (s : N) : ObligationTable :=
  mkObligationTable (obligations t) (by_holder t) p k s (finalized_regions t).
Definition set_table_arena (t : ObligationTable) (a : Arena ObligationRecord) : ObligationTable :=
  mkObligationTable a (by_holder t) (cached_pending t) (pending_by_kind t)
    (pending_reserved_at_sum_ns t) (finalized_regions t).
Definition set_by_holder (t : ObligationTable) (b : list HolderBucket) : ObligationTable :=
  mkObligationTable (obligations t) b (cached_pending t) (pending_by_kind t)
    (pending_reserved_at_sum_ns t) (finalized_regions t).

(** [self.pending_by_kind[i]] *)
Definition kind_count (t : ObligationTable) (k : ObligationKind) : N :=
  nth (kind_index k) (pending_by_kind t) 0.

Definition note_pending_added (t : ObligationTable) (kind : ObligationKind) (at_ : Time.t)
  : ObligationTable :=
  set_counters t (wrapping_add usize_MAX (cached_pending t) 1)
    (<[kind_index kind := wrapping_add usize_MAX (kind_count t kind) 1]> (pending_by_kind t))
    (saturating_add u128_MAX (pending_reserved_at_sum_ns t) (Time.as_nanos at_)).

Definition note_pending_removed (t : ObligationTable) (kind : ObligationKind) (at_ : Time.t)
  : exec ObligationTable :=
  match checked_sub (cached_pending t) 1, checked_sub (kind_count t kind) 1,
        checked_sub (pending_reserved_at_sum_ns t) (Time.as_nanos at_) with
  | Some p, Some k, Some s =>
      Done (set_counters t p (<[kind_index kind := k]> (pending_by_kind t)) s)
  | _, _, _ => Panics
  end.

(** *** The index by holder *)

Definition holder_slot (h : TaskId) : nat := N.to_nat (ai_index (task_arena_index h)).

(** The entry of the holder is extended, or a new entry is appended. *)
Fixpoint bucket_push (b : HolderBucket) (h : TaskId) (id : ObligationId) : HolderBucket :=
  match b with
  | [] => [(h, [id])]
  | (t, ids) :: b =>
      if bool_decide (t = h) then (t, ids ++ [id]) :: b else (t, ids) :: bucket_push b h id
  end.

Definition push_holder_id (bh : list HolderBucket) (h : TaskId) (id : ObligationId)
  : list HolderBucket :=
  let slot := holder_slot h in
  let bh := if (length bh <=? slot)%nat then bh ++ replicate (S slot - length bh) [] else bh in
  match bh !! slot with
  | Some entries => <[slot := bucket_push entries h id]> bh
  | None => bh
  end.

(** The index part of [remove]. *)
Definition bucket_remove (entries : HolderBucket) (h : TaskId) (id : ObligationId) : HolderBucket :=
  match position (λ e, bool_decide (e.1 = h)) entries with
  | None => entries
  | Some entry_index =>
      match entries !! entry_index with
      | None => entries
      | Some (t, ids) =>
          let ids := match position (λ i, bool_decide (i = id)) ids with
                     | Some pos => swap_remove ids pos
                     | None => ids
                     end in
          let entries := <[entry_index := (t, ids)]> entries in
          match ids with [] => swap_remove entries entry_index | _ => entries end
      end
  end.

Definition remove_holder_id (bh : list HolderBucket) (h : TaskId) (id : ObligationId)
  : list HolderBucket :=
  match bh !! holder_slot h with
  | Some entries => <[holder_slot h := bucket_remove entries h id]> bh
  | None => bh
  end.

Definition bucket_find (b : HolderBucket) (h : TaskId) : list ObligationId :=
  match position (λ e, bool_decide (e.1 = h)) b with
  | Some i => match b !! i with Some (_, ids) => ids | None => [] end
  | None => []
  end.

Definition ids_for_holder (t : ObligationTable) (h : TaskId) : list ObligationId :=
  match by_holder t !! holder_slot h with Some entries => bucket_find entries h | None => [] end.

(** *** Low-level operations *)

Definition note_if_pending (t : ObligationTable) (o : ObligationRecord) : ObligationTable :=
  if is_pending o then note_pending_added t (ob_kind o) (reserved_at o) else t.

Definition table_insert (t : ObligationTable) (o : ObligationRecord) : exec (ObligationTable * ArenaIndex) :=
  '(a, idx) ← insert_with (obligations t) (λ idx, set_ob_id o (ObligationId_from_arena idx));
  let t := set_table_arena t a in
  let t := set_by_holder t (push_holder_id (by_holder t) (holder o) (ObligationId_from_arena idx)) in
  Done (note_if_pending t o, idx).

Definition table_remove (t : ObligationTable) (index : ArenaIndex)
  : exec (ObligationTable * option ObligationRecord) :=
  match remove (obligations t) index with
  | (_, None) => Done (t, None)
  | (a, Some o) =>
      let t := set_table_arena t a in
      t ← (if is_pending o then note_pending_removed t (ob_kind o) (reserved_at o) else Done t);
      Done (set_by_holder t (remove_holder_id (by_holder t) (holder o) (ObligationId_from_arena index)),
            Some o)
  end.

(** *** Domain operations *)

Record ObligationCreateArgs := mkCreateArgs {
  args_kind : ObligationKind;
  args_holder : TaskId;
  args_region : RegionId;
  args_now : Time.t;
  args_description : option string;
  args_acquired_at : SourceLocation;
  args_backtrace : option N;
}.

Definition create_record (args : ObligationCreateArgs) (idx : ArenaIndex) : ObligationRecord :=
  let id := ObligationId_from_arena idx in
  match args_description args with
  | Some desc =>
      with_description_and_context id (args_kind args) (args_holder args) (args_region args)
        (args_now args) desc (args_acquired_at args) (args_backtrace args)
  | None =>
      new_with_context id (args_kind args) (args_holder args) (args_region args) (args_now args)
        (args_acquired_at args) (args_backtrace args)
  end.

Definition table_create (t : ObligationTable) (args : ObligationCreateArgs)
  : exec (ObligationTable * ObligationId) :=
  '(a, idx) ← insert_with (obligations t) (create_record args);
  let ob_id := ObligationId_from_arena idx in
  let t := set_table_arena t a in
  let t := set_by_holder t (push_holder_id (by_holder t) (args_holder args) ob_id) in
  let reserved := match Arena.get a idx with Some r => reserved_at r | None => args_now args end in
  Done (note_pending_added t (args_kind args) reserved, ob_id).

(** The two error kinds the table reports. *)
Inductive TableError := ObligationAlreadyResolved | RegionFinalized.

Record ObligationCommitInfo := mkCommitInfo {
  ci_id : ObligationId;
  ci_holder : TaskId;
  ci_region : RegionId;
  ci_kind : ObligationKind;
  ci_duration : N;
}.

Record ObligationAbortInfo := mkAbortInfo {
  ab_id : ObligationId;
  ab_holder : TaskId;
  ab_region : RegionId;
  ab_kind : ObligationKind;
  ab_duration : N;
  ab_reason : ObligationAbortReason;
}.

Record ObligationLeakInfo := mkLeakInfo {
  li_id : ObligationId;
  li_holder : TaskId;
  li_region : RegionId;
  li_kind : ObligationKind;
  li_duration : N;
  li_acquired_at : SourceLocation;
  li_backtrace : option N;
  li_description : option string;
}.

Definition commit_info (o : ObligationRecord) (d : N) : ObligationCommitInfo :=
  mkCommitInfo (ob_id o) (holder o) (ob_region o) (ob_kind o) d.
Definition abort_info (reason : ObligationAbortReason) (o : ObligationRecord) (d : N)
  : ObligationAbortInfo :=
  mkAbortInfo (ob_id o) (holder o) (ob_region o) (ob_kind o) d reason.
Definition leak_info (o : ObligationRecord) (d : N) : ObligationLeakInfo :=
  mkLeakInfo (ob_id o) (holder o) (ob_region o) (ob_kind o) d (acquired_at o)
    (acquire_backtrace o) (description o).

Definition is_region_finalized (t : ObligationTable) (r : RegionId) : bool :=
  bool_decide (r ∈ finalized_regions t).

Definition mark_region_finalized (t : ObligationTable) (r : RegionId) : ObligationTable :=
  mkObligationTable (obligations t) (by_holder t) (cached_pending t) (pending_by_kind t)
    (pending_reserved_at_sum_ns t) ({[r]} ∪ finalized_regions t).

(** The common tail of [commit], [abort] and [mark_leaked]. *)
Definition finish_resolution {I} (t : ObligationTable) (o : ObligationRecord)
  (put : ObligationRecord → Arena ObligationRecord) (r : exec (ObligationRecord * N))
  (info : ObligationRecord → N → I) : exec (ObligationTable * result I TableError) :=
  '(o', duration) ← r;
  t' ← note_pending_removed (set_table_arena t (put o')) (ob_kind o) (reserved_at o);
  Done (t', Ok (info o' duration)).

Definition table_commit (t : ObligationTable) (id : ObligationId) (now : Time.t)
  : exec (ObligationTable * result ObligationCommitInfo TableError) :=
  match Arena.get (obligations t) (obligation_arena_index id) with
  | None => Done (t, Err ObligationAlreadyResolved)
  | Some o0 =>
      if is_region_finalized t (ob_region o0) then Done (t, Err RegionFinalized)
      else
        match get_mut (obligations t) (obligation_arena_index id) with
        | None => Panics
        | Some (o, put) =>
            if negb (is_pending o) then Done (t, Err ObligationAlreadyResolved)
            else finish_resolution t o put (ob_commit o now) commit_info
        end
  end.

Definition table_abort (t : ObligationTable) (id : ObligationId) (now : Time.t)
  (reason : ObligationAbortReason) : exec (ObligationTable * result ObligationAbortInfo TableError) :=
  match Arena.get (obligations t) (obligation_arena_index id) with
  | None => Done (t, Err ObligationAlreadyResolved)
  | Some o0 =>
      if is_region_finalized t (ob_region o0) then Done (t, Err RegionFinalized)
      else
        match get_mut (obligations t) (obligation_arena_index id) with
        | None => Panics
        | Some (o, put) =>
            if negb (is_pending o) then Done (t, Err ObligationAlreadyResolved)
            else finish_resolution t o put (ob_abort o now reason) (abort_info reason)
        end
  end.

Definition table_mark_leaked (t : ObligationTable) (id : ObligationId) (now : Time.t)
  : exec (ObligationTable * result ObligationLeakInfo TableError) :=
  match get_mut (obligations t) (obligation_arena_index id) with
  | None => Done (t, Err ObligationAlreadyResolved)
  | Some (o, put) =>
      if negb (is_pending o) then Done (t, Err ObligationAlreadyResolved)
      else finish_resolution t o put (ob_mark_leaked o now) leak_info
  end.

(** *** Queries *)

(** Insertion sort on the derived order of ids; the keys are distinct. *)
Definition ObligationId_le (a b : ObligationId) : Prop :=
  ArenaIndex_le (obligation_arena_index a) (obligation_arena_index b) = true.

#[global] Instance ObligationId_le_dec : RelDecision ObligationId_le.
Proof. intros a b. unfold ObligationId_le. apply _. Defined.

Definition sorted_pending_ids_for_holder (t : ObligationTable) (h : TaskId) : list ObligationId :=
  merge_sort ObligationId_le
    (List.filter (λ id, match Arena.get (obligations t) (obligation_arena_index id) with
                        | Some o => is_pending o | None => false end) (ids_for_holder t h)).

Definition pending_obligation_ids_for_region (t : ObligationTable) (r : RegionId) : list ObligationId :=
  merge_sort ObligationId_le
    ((λ p, ObligationId_from_arena p.1) <$>
      List.filter (λ p, bool_decide (ob_region p.2 = r) && is_pending p.2) (iter (obligations t))).

Definition pending_count (t : ObligationTable) : N := cached_pending t.
Definition pending_count_for_kind (t : ObligationTable) (k : ObligationKind) : N := kind_count t k.

(** ** Counters *)

(** The weights the three counters add up. *)
Definition pending_weight (w : ObligationRecord → N) (p : ArenaIndex * ObligationRecord) : N :=
  if is_pending p.2 then w p.2 else 0.

Definition kind_weight (k : ObligationKind) (o : ObligationRecord) : N :=
  if bool_decide (ob_kind o = k) then 1 else 0.

Definition total (w : ObligationRecord → N) (t : ObligationTable) : N :=
  sum_over (pending_weight w) (iter (obligations t)).

Record counters_ok (t : ObligationTable) : Prop := {
  ct_pending : cached_pending t = total (λ _, 1) t;
  ct_length : length (pending_by_kind t) = OBLIGATION_KIND_COUNT;
  ct_kind : ∀ k, kind_count t k = total (kind_weight k) t;
  ct_sum : pending_reserved_at_sum_ns t = total reserved_at t;
}.

Lemma kind_index_lt k : (kind_index k < OBLIGATION_KIND_COUNT)%nat.
Proof. destruct k; unfold OBLIGATION_KIND_COUNT; simpl; lia. Qed.

Lemma kind_index_inj k k' : kind_index k = kind_index k' → k = k'.
Proof. by destruct k, k'. Qed.

Lemma nth_insert (l : list N) i j v : (i < length l)%nat →
  nth j (<[i := v]> l) 0 = if decide (i = j) then v else nth j l 0.
Proof.
  intros Hi. rewrite !nth_lookup. case_decide as Hd.
  - subst. by rewrite list_lookup_insert_eq.
  - by rewrite list_lookup_insert_ne.
Qed.

(** The table holds at most 2^32 records, each reserved at a 64-bit time. *)
Definition times_ok (t : ObligationTable) : Prop :=
  ∀ idx o, Arena.get (obligations t) idx = Some o → reserved_at o ≤ u64_MAX.

Lemma iter_length t : arena_wf (obligations t) →
  N.of_nat (length (iter (obligations t))) ≤ u32_MAX + 1.
Proof.
  intros [Hl Hc _ _]. rewrite iter_occ, <-(count_occ 0).
  pose proof (count_le_length is_occupied (slots (obligations t))). lia.
Qed.

Lemma total_bound w b t : arena_wf (obligations t) → (∀ o, w o ≤ b) →
  total w t ≤ (u32_MAX + 1) * b.
Proof.
  intros Hwf Hb. unfold total.
  etrans; [apply (sum_over_bound _ _ b)|].
  - intros [i o] _. unfold pending_weight. simpl. destruct (is_pending o); [apply Hb|lia].
  - apply N.mul_le_mono_r, iter_length, Hwf.
Qed.

Lemma total_mono w w' t : (∀ o, w o ≤ w' o) → total w t ≤ total w' t.
Proof.
  intros Hw. unfold total. induction (iter (obligations t)) as [|[i o] l IH]; simpl; [lia|].
  assert (pending_weight w (i, o) ≤ pending_weight w' (i, o)).
  { unfold pending_weight. simpl. destruct (is_pending o); [apply Hw|lia]. }
  lia.
Qed.

(** Adding to a table whose entries grew by one pending record. *)
Lemma note_added_ok t a k at_ w0 :
  counters_ok t → at_ ≤ u64_MAX →
  (∀ w, sum_over (pending_weight w) (iter a) = w w0 + total w t) →
  ob_kind w0 = k → reserved_at w0 = at_ →
  total (λ _, 1) t ≤ u32_MAX + 1 → total reserved_at t ≤ (u32_MAX + 1) * u64_MAX →
  ∀ bh, counters_ok (note_pending_added (set_by_holder (set_table_arena t a) bh) k at_).
Proof.
  intros [Hp Hl Hk Hs] Hat Hsum Hkw Hrw Hb1 Hb2 bh. subst k at_.
  assert (Hw1 : wrapping_add usize_MAX (cached_pending t) 1 = cached_pending t + 1).
  { apply wrapping_add_1. rewrite Hp. unfold usize_MAX, u64_MAX, u32_MAX in *. lia. }
  assert (Hk1 : kind_count t (ob_kind w0) ≤ u32_MAX + 1).
  { rewrite Hk. etrans; [|exact Hb1]. apply total_mono. intros o.
    unfold kind_weight. destruct (bool_decide _); lia. }
  split; simpl.
  - unfold total. simpl. rewrite Hsum, Hw1, Hp. lia.
  - by rewrite length_insert.
  - intros k'. unfold kind_count at 1. simpl.
    rewrite nth_insert by (rewrite Hl; apply kind_index_lt).
    change (kind_count (set_by_holder (set_table_arena t a) bh) (ob_kind w0))
      with (kind_count t (ob_kind w0)).
    change (nth (kind_index k') (pending_by_kind t) 0) with (kind_count t k').
    unfold total. simpl. rewrite Hsum. unfold kind_weight at 1. case_decide as Hd.
    + apply kind_index_inj in Hd as <-. rewrite bool_decide_true by done.
      rewrite wrapping_add_1; [rewrite Hk; lia|].
      unfold usize_MAX, u64_MAX, u32_MAX in *. lia.
    + rewrite bool_decide_false by (by intros <-). rewrite Hk. lia.
  - unfold total. simpl. rewrite Hsum, Hs. unfold Time.as_nanos.
    rewrite saturating_add_exact; [lia|]. unfold u128_MAX, u64_MAX, u32_MAX in *. lia.
Qed.

(** Removing one pending record never underflows. *)
Lemma note_removed_ok t a k at_ w0 : counters_ok t →
  (∀ w, total w t = w w0 + sum_over (pending_weight w) (iter a)) →
  ob_kind w0 = k → reserved_at w0 = at_ →
  ∃ t', note_pending_removed (set_table_arena t a) k at_ = Done t' ∧ counters_ok t' ∧
    obligations t' = a ∧ by_holder t' = by_holder t ∧ finalized_regions t' = finalized_regions t.
Proof.
  intros [Hp Hl Hk Hs] Hsum <- <-. unfold note_pending_removed, checked_sub, kind_count. simpl.
  unfold kind_count in Hk. rewrite Hp, Hk, Hs, !Hsum. unfold kind_weight at 1 3.
  rewrite bool_decide_true by done. unfold Time.as_nanos.
  repeat match goal with |- context [?x <=? ?y] => destruct (N.leb_spec x y); [|lia] end.
  eexists. split; [reflexivity|]. split; [|done]. split; simpl.
  - unfold total. simpl. lia.
  - by rewrite length_insert.
  - intros k'. unfold kind_count. simpl. rewrite nth_insert by (rewrite Hl; apply kind_index_lt).
    unfold total. simpl. case_decide as Hd.
    + apply kind_index_inj in Hd as <-. lia.
    + rewrite Hk, Hsum. unfold kind_weight at 1. rewrite bool_decide_false by (by intros <-). lia.
  - unfold total. simpl. lia.
Qed.

(** ** The index by holder *)

Lemma bucket_find_cons t ids b h :
  bucket_find ((t, ids) :: b) h = if bool_decide (t = h) then ids else bucket_find b h.
Proof.
  unfold bucket_find. simpl. case_bool_decide; [done|].
  destruct (position _ b) as [i|] eqn:E; [|done]. done.
Qed.

Lemma bucket_find_elem b h ids : NoDup b.*1 → (h, ids) ∈ b → bucket_find b h = ids.
Proof.
  induction b as [|[t ids'] b IH]; intros Hnd Hin; [by apply elem_of_nil in Hin|].
  rewrite bucket_find_cons. apply NoDup_cons in Hnd as [Hni Hnd].
  apply elem_of_cons in Hin as [[= <- <-]|Hin]; [by rewrite bool_decide_true|].
  rewrite bool_decide_false; [by apply IH|]. intros ->. apply Hni.
  apply list_elem_of_fmap. by exists (h, ids).
Qed.

Lemma bucket_find_absent b h : h ∉ b.*1 → bucket_find b h = [].
Proof.
  induction b as [|[t ids'] b IH]; intros Hni; [done|]. rewrite bucket_find_cons.
  apply not_elem_of_cons in Hni as [Hne Hni]. rewrite bool_decide_false by (by intros ->). by apply IH.
Qed.

(** The buckets are compared up to order. *)
Lemma bucket_find_perm b b' h : b ≡ₚ b' → NoDup b.*1 → bucket_find b h = bucket_find b' h.
Proof.
  intros Hp Hnd. assert (Hnd' : NoDup b'.*1) by (by rewrite <-Hp).
  destruct (decide (h ∈ b.*1)) as [Hin|Hni].
  - apply list_elem_of_fmap in Hin as ([h' ids] & -> & Hin). simpl.
    rewrite (bucket_find_elem b h' ids) by done. symmetry. apply bucket_find_elem; [done|]. by rewrite <-Hp.
  - rewrite !bucket_find_absent; [done| |done]. by rewrite <-Hp.
Qed.

Lemma bucket_push_find b h id h' :
  bucket_find (bucket_push b h id) h' =
  if decide (h' = h) then bucket_find b h ++ [id] else bucket_find b h'.
Proof.
  induction b as [|[t ids] b IH]; simpl.
  - rewrite bucket_find_cons. case_bool_decide; case_decide; done || congruence.
  - case_bool_decide as Ht; rewrite !bucket_find_cons.
    + subst. case_decide; [subst; by rewrite !bool_decide_true|]. by rewrite !bool_decide_false.
    + rewrite IH. case_decide; [subst; by rewrite !bool_decide_false|done].
Qed.

Lemma bucket_push_keys b h id :
  (∀ k, k ∈ (bucket_push b h id).*1 ↔ k = h ∨ k ∈ b.*1) ∧
  (NoDup b.*1 → NoDup (bucket_push b h id).*1).
Proof.
  induction b as [|[t ids] b [IH1 IH2]]; simpl.
  - split; [intros k; set_solver|]. intros _. apply NoDup_singleton.
  - case_bool_decide as Ht; simpl.
    + subst. split; [intros k; set_solver|done].
    + split; [intros k; rewrite !elem_of_cons, IH1; tauto|].
      intros [Hni Hnd]%NoDup_cons. constructor; [|auto]. rewrite IH1. naive_solver.
Qed.

Lemma insert_perm {A} (l : list A) i x : l !! i = Some x →
  ∃ rest, l ≡ₚ x :: rest ∧ ∀ y, <[i:=y]> l ≡ₚ y :: rest.
Proof.
  intros Hi. exists (take i l ++ drop (S i) l). split.
  - rewrite <-(take_drop_middle l i x Hi) at 1. by rewrite <-Permutation_middle.
  - intros y. rewrite insert_take_drop by (by eapply lookup_lt_Some). by rewrite <-Permutation_middle.
Qed.

Lemma bucket_remove_spec b h id : NoDup b.*1 →
  NoDup (bucket_remove b h id).*1 ∧
  (∀ k, k ∈ (bucket_remove b h id).*1 → k ∈ b.*1) ∧
  (∀ h', h' ≠ h → bucket_find (bucket_remove b h id) h' = bucket_find b h') ∧
  (id ∈ bucket_find b h → bucket_find b h ≡ₚ id :: bucket_find (bucket_remove b h id) h).
Proof.
  intros Hnd. unfold bucket_remove.
  destruct (position _ b) as [ei|] eqn:Hei.
  2: { split_and!; try done. unfold bucket_find. rewrite Hei. by intros ?%elem_of_nil. }
  destruct (position_Some _ _ _ Hei) as ([t ids] & Ht & Hth). simpl in Hth. apply bool_decide_eq_true in Hth as ->.
  rewrite Ht. destruct (insert_perm b ei _ Ht) as (rest & Hb & Hins).
  assert (Hfind : bucket_find b h = ids).
  { apply bucket_find_elem; [done|]. by eapply list_elem_of_lookup_2. }
  assert (Hnd2 : h ∉ rest.*1 ∧ NoDup rest.*1).
  { rewrite Hb in Hnd. by apply NoDup_cons in Hnd. }
  destruct Hnd2 as [Hni Hndr].
  set (ids' := match position _ ids with Some pos => swap_remove ids pos | None => ids end).
  assert (Hids : id ∈ ids → ids ≡ₚ id :: ids').
  { intros Hin. unfold ids'. destruct (position _ ids) as [pos|] eqn:Hpos.
    - apply position_Some in Hpos as (x & Hx & Heq). apply bool_decide_eq_true in Heq as ->.
      by apply swap_remove_Permutation.
    - apply (position_None _ _ Hpos) in Hin. by apply bool_decide_eq_false in Hin. }
  assert (Hgoal : ∀ b', (b' ≡ₚ (h, ids') :: rest ∨ b' ≡ₚ rest ∧ ids' = []) →
    NoDup b'.*1 ∧ (∀ k, k ∈ b'.*1 → k ∈ b.*1) ∧
    (∀ h', h' ≠ h → bucket_find b' h' = bucket_find b h') ∧
    (id ∈ bucket_find b h → bucket_find b h ≡ₚ id :: bucket_find b' h)).
  { intros b' Hb'. assert (Hndb' : NoDup b'.*1).
    { destruct Hb' as [Hb'|[Hb' _]]; rewrite Hb'; [by apply NoDup_cons|done]. }
    assert (Hfb : bucket_find b' h = ids').
    { destruct Hb' as [Hb'|[Hb' Hn]]; rewrite (bucket_find_perm _ _ _ Hb' Hndb').
      - rewrite bucket_find_cons. by rewrite bool_decide_true.
      - rewrite Hn. by apply bucket_find_absent. }
    split_and!; [done| | |].
    - intros k. rewrite Hb. destruct Hb' as [Hb'|[Hb' _]]; rewrite Hb'; simpl; set_solver.
    - intros h' Hne. rewrite (bucket_find_perm _ _ h' Hb Hnd), bucket_find_cons, bool_decide_false by done.
      destruct Hb' as [Hb'|[Hb' _]]; rewrite (bucket_find_perm _ _ _ Hb' Hndb'); [|done].
      by rewrite bucket_find_cons, bool_decide_false.
    - rewrite Hfind, Hfb. apply Hids. }
  apply Hgoal. destruct ids' as [|i0 l0] eqn:Hids'; [|left; apply Hins].
  right. split; [|done]. assert (Hlk : (<[ei:=(h, [])]> b) !! ei = Some (h, ([] : list ObligationId))).
  { apply list_lookup_insert_eq. by eapply lookup_lt_Some. }
  apply swap_remove_Permutation in Hlk.
  eapply Permutation_cons_inv. etrans; [symmetry; exact Hlk|apply Hins].
Qed.

(** ** The invariant of the table *)

Definition find_ids (bh : list HolderBucket) (h : TaskId) : list ObligationId :=
  match bh !! holder_slot h with Some entries => bucket_find entries h | None => [] end.

Definition buckets_ok (bh : list HolderBucket) : Prop :=
  ∀ s (b : HolderBucket), bh !! s = Some b → NoDup b.*1 ∧ ∀ k, k ∈ b.*1 → holder_slot k = s.

Record table_wf (t : ObligationTable) : Prop := {
  tw_arena : arena_wf (obligations t);
  tw_ids : ∀ idx o, Arena.get (obligations t) idx = Some o → ob_id o = ObligationId_from_arena idx;
  tw_times : times_ok t;
  tw_counters : counters_ok t;
  tw_buckets : buckets_ok (by_holder t);
  tw_nodup : ∀ h, NoDup (find_ids (by_holder t) h);
  tw_index : ∀ h id, id ∈ find_ids (by_holder t) h ↔
    ∃ o, Arena.get (obligations t) (obligation_arena_index id) = Some o ∧ holder o = h;
}.

(** Growing the bucket vector changes no lookup. *)
Definition grow (bh : list HolderBucket) (slot : nat) : list HolderBucket :=
  if (length bh <=? slot)%nat then bh ++ replicate (S slot - length bh) [] else bh.

Lemma grow_spec bh slot :
  (∃ b, grow bh slot !! slot = Some b) ∧
  (∀ h, find_ids (grow bh slot) h = find_ids bh h) ∧ (buckets_ok bh → buckets_ok (grow bh slot)).
Proof.
  unfold grow. destruct (Nat.leb_spec (length bh) slot) as [Hle|Hlt].
  - split_and!.
    + apply lookup_lt_is_Some. rewrite length_app, length_replicate. lia.
    + intros h. unfold find_ids. destruct (decide (holder_slot h < length bh)%nat).
      * by rewrite lookup_app_l.
      * rewrite (lookup_ge_None_2 bh) by lia. rewrite lookup_app_r by lia.
        destruct (replicate _ _ !! _) as [b|] eqn:Hb; [|done].
        apply lookup_replicate in Hb as [-> _]. done.
    + intros Hok s b [Hb|[_ Hb]]%lookup_app_Some; [by apply Hok|].
      apply lookup_replicate in Hb as [-> _]. split; [constructor|]. by intros k ?%elem_of_nil.
  - split_and!; try done. by apply lookup_lt_is_Some.
Qed.

Lemma push_holder_spec bh h id :
  (∀ h', find_ids (push_holder_id bh h id) h' =
         if decide (h' = h) then find_ids bh h ++ [id] else find_ids bh h') ∧
  (buckets_ok bh → buckets_ok (push_holder_id bh h id)).
Proof.
  unfold push_holder_id. fold (grow bh (holder_slot h)).
  destruct (grow_spec bh (holder_slot h)) as ([b Hb] & Hf & Hok). rewrite Hb. split.
  - intros h'. rewrite <-!Hf. unfold find_ids at 1.
    destruct (decide (holder_slot h' = holder_slot h)) as [E|Hne].
    + rewrite E, list_lookup_insert_eq by (by eapply lookup_lt_Some). rewrite bucket_push_find.
      unfold find_ids. rewrite E, Hb. done.
    + rewrite list_lookup_insert_ne by done. case_decide as Hd; [by subst|done].
  - intros Hok0 s b' [(<- & <- & _)|[_ Hs]]%list_lookup_insert_Some; [|by apply (Hok Hok0)].
    destruct (Hok Hok0 _ _ Hb) as [Hnd Hk]. destruct (bucket_push_keys b h id) as [Hkeys Hnd'].
    split; [auto|]. intros k [->|?]%Hkeys; auto.
Qed.

Lemma remove_holder_spec bh h id : buckets_ok bh →
  buckets_ok (remove_holder_id bh h id) ∧
  (∀ h', h' ≠ h → find_ids (remove_holder_id bh h id) h' = find_ids bh h') ∧
  (id ∈ find_ids bh h → find_ids bh h ≡ₚ id :: find_ids (remove_holder_id bh h id) h).
Proof.
  intros Hok. unfold remove_holder_id. destruct (bh !! holder_slot h) as [b|] eqn:Hb.
  2: { split_and!; try done. unfold find_ids. rewrite Hb. by intros ?%elem_of_nil. }
  destruct (Hok _ _ Hb) as [Hnd Hk].
  destruct (bucket_remove_spec b h id Hnd) as (Hnd' & Hk' & Hother & Hperm).
  assert (Hlt : (holder_slot h < length bh)%nat) by (by eapply lookup_lt_Some).
  split_and!.
  - intros s b' [(<- & <- & _)|[_ Hs]]%list_lookup_insert_Some; [|by apply Hok]. split; [done|]. auto.
  - intros h' Hne. unfold find_ids. destruct (decide (holder_slot h' = holder_slot h)) as [E|Hs].
    + rewrite E, list_lookup_insert_eq, Hb by done. auto.
    + by rewrite list_lookup_insert_ne.
  - unfold find_ids. rewrite list_lookup_insert_eq, Hb by done. done.
Qed.

(** ** Operations preserve the invariant *)

Lemma table_new_wf : table_wf table_new.
Proof.
  split; simpl; try done.
  - apply arena_wf_new.
  - split; try done. by intros [].
  - intros h. constructor.
  - intros h id. split; [by intros ?%elem_of_nil|]. by intros (o & ? & _).
Qed.

Lemma total_note_weights t : table_wf t →
  total (λ _, 1) t ≤ u32_MAX + 1 ∧ total reserved_at t ≤ (u32_MAX + 1) * u64_MAX.
Proof.
  intros Hwf. pose proof (iter_length t (tw_arena t Hwf)) as Hl. split; unfold total.
  - etrans; [apply (sum_over_bound _ _ 1)|lia]. intros [i o] _. unfold pending_weight. simpl.
    destruct (is_pending o); lia.
  - etrans; [apply (sum_over_bound _ _ u64_MAX)|by apply N.mul_le_mono_r].
    intros [i o] Hin%iter_get. apply (tw_times t Hwf) in Hin. unfold pending_weight. simpl.
    destruct (is_pending o); lia.
Qed.

(** Everything but the counters after an insertion. *)
Lemma insert_entry_ok t f a idx o : table_wf t → insert_post (obligations t) f a idx → f idx = o →
  ob_id o = ObligationId_from_arena idx → reserved_at o ≤ u64_MAX →
  table_wf (note_if_pending (set_by_holder (set_table_arena t a)
    (push_holder_id (by_holder t) (holder o) (ObligationId_from_arena idx))) o).
Proof.
  intros Hwf Hip Hfo Hid Hat. pose proof (total_note_weights t Hwf) as [Hb1 Hb2].
  pose proof Hwf as [Ha Hids Htm Hc Hbk Hnd Hix]. pose proof Hip as [Ha' _ [Hnl _] Hget _].
  rewrite Hfo in Hget.
  assert (Hnone : Arena.get (obligations t) idx = None).
  { destruct (Arena.get (obligations t) idx) eqn:E; [|done]. destruct Hnl. apply live_get. by eexists. }
  pose proof (iter_insert_perm _ _ _ _ Hnone Hget) as Hperm.
  assert (Hsum : ∀ w, sum_over (pending_weight w) (iter a) =
    (if is_pending o then w o else 0) + total w t).
  { intros w. rewrite Hperm. simpl. done. }
  set (t1 := set_by_holder (set_table_arena t a) _).
  assert (Hc' : counters_ok (note_if_pending t1 o)).
  { unfold note_if_pending. destruct (is_pending o) eqn:Hpo; [by eapply note_added_ok|].
    destruct Hc as [Hc1 Hc2 Hc3 Hc4].
    split; simpl; unfold total; simpl; rewrite ?Hsum; try done.
    intros k. rewrite Hsum. apply Hc3. }
  destruct (push_holder_spec (by_holder t) (holder o) (ObligationId_from_arena idx)) as [Hpf Hpb].
  assert (Hobl : obligations (note_if_pending t1 o) = a) by (unfold note_if_pending; by destruct (is_pending o)).
  assert (Hbh : by_holder (note_if_pending t1 o) = by_holder t1) by (unfold note_if_pending; by destruct (is_pending o)).
  split; rewrite ?Hobl, ?Hbh; simpl; try done.
  - intros j o'. rewrite Hget. case_decide as Hd; [intros [= <-]; by rewrite Hd|apply Hids].
  - intros j o'. rewrite Hobl, Hget. case_decide; [by intros [= <-]|apply Htm].
  - by apply Hpb.
  - intros h. rewrite Hpf. case_decide as Hd; [|done]. apply NoDup_app.
    split; [done|]. split; [|apply NoDup_singleton].
    intros x Hx ->%list_elem_of_singleton. apply Hix in Hx as (o' & Hg & _). simpl in Hg. congruence.
  - intros h id. rewrite Hpf. destruct id as [j]. simpl.
    assert (Hiff : ObligationId_from_arena j ∈ find_ids (by_holder t) h ↔
      ∃ o', Arena.get (obligations t) j = Some o' ∧ holder o' = h) by apply (Hix h (ObligationId_from_arena j)).
    rewrite Hget. case_decide as Hh; [rewrite elem_of_app, list_elem_of_singleton; subst h|].
    + rewrite Hiff. case_decide as Hj.
      * subst j. split; [|naive_solver]. intros _. by exists o.
      * naive_solver.
    + rewrite Hiff. case_decide as Hj; [|done]. subst j. rewrite Hnone.
      split; [by intros (? & ? & _)|]. intros (o' & [= <-] & ?). congruence.
Qed.

(** A pending record is replaced by a resolved one with the same identity. *)
Lemma resolve_entry_ok t a idx o o' : table_wf t → arena_wf a →
  Arena.get (obligations t) idx = Some o → is_pending o = true → is_pending o' = false →
  ob_id o' = ob_id o → holder o' = holder o → reserved_at o' = reserved_at o →
  (∀ j, Arena.get a j = if decide (j = idx) then Some o' else Arena.get (obligations t) j) →
  ∃ t', note_pending_removed (set_table_arena t a) (ob_kind o) (reserved_at o) = Done t' ∧
    table_wf t' ∧ obligations t' = a ∧ finalized_regions t' = finalized_regions t.
Proof.
  intros Hwf Ha Hg Hp Hp' Hid Hh Hr Hget. pose proof Hwf as [_ Hids Htm Hc Hbk Hnd Hix].
  destruct (iter_update_perm _ _ _ _ _ Hg Hget) as (rest & Hi1 & Hi2).
  destruct (note_removed_ok t a (ob_kind o) (reserved_at o) o Hc) as (t' & Hdone & Hc' & Hob & Hbh & Hfr); try done.
  { intros w. unfold total. rewrite Hi1, Hi2. simpl. unfold pending_weight at 1 3. simpl. rewrite Hp, Hp'. lia. }
  exists t'. split; [done|]. split; [|done].
  split; rewrite ?Hob, ?Hbh; try done.
  - intros j oj. rewrite Hget. case_decide as Hd; [|apply Hids]. intros [= <-]. rewrite Hd, Hid. by apply Hids.
  - intros j oj. rewrite Hob, Hget. case_decide; [|apply Htm]. intros [= <-]. rewrite Hr. by eapply Htm.
  - intros h id. rewrite Hix, Hget. case_decide as Hd; [|done]. rewrite Hd, Hg.
    split; intros (x & [= <-] & Hx); eexists; (split; [done|]); congruence.
Qed.

Lemma remove_entry_ok t a idx o : table_wf t → remove_post (obligations t) idx a →
  Arena.get (obligations t) idx = Some o →
  ∃ t', (if is_pending o then note_pending_removed (set_table_arena t a) (ob_kind o) (reserved_at o)
         else Done (set_table_arena t a)) = Done t' ∧
    table_wf (set_by_holder t' (remove_holder_id (by_holder t') (holder o) (ObligationId_from_arena idx))) ∧
    obligations t' = a ∧ finalized_regions t' = finalized_regions t.
Proof.
  intros Hwf [Ha _ _ Hget _ _] Hg. pose proof Hwf as [_ Hids Htm Hc Hbk Hnd Hix].
  pose proof (iter_delete_perm _ _ _ _ Hg Hget) as Hperm.
  assert (Hsum : ∀ w, total w t = (if is_pending o then w o else 0) + sum_over (pending_weight w) (iter a)).
  { intros w. unfold total. rewrite Hperm. done. }
  assert (∃ t', (if is_pending o then note_pending_removed (set_table_arena t a) (ob_kind o) (reserved_at o)
         else Done (set_table_arena t a)) = Done t' ∧ counters_ok t' ∧ obligations t' = a ∧
         by_holder t' = by_holder t ∧ finalized_regions t' = finalized_regions t)
    as (t' & Hdone & Hc' & Hob & Hbh & Hfr).
  { destruct (is_pending o); [by eapply note_removed_ok|]. eexists. split; [done|]. split; [|done].
    destruct Hc as [Hc1 Hc2 Hc3 Hc4]. split; simpl; unfold total; simpl.
    - by rewrite Hc1, Hsum.
    - done.
    - intros k. rewrite <-(N.add_0_l (sum_over _ _)), <-(Hsum (kind_weight k)). apply Hc3.
    - by rewrite Hc4, Hsum. }
  exists t'. split; [done|]. split; [|done].
  destruct (remove_holder_spec (by_holder t) (holder o) (ObligationId_from_arena idx) Hbk) as (Hb' & Hother & Hmine).
  assert (Hin : ObligationId_from_arena idx ∈ find_ids (by_holder t) (holder o)) by (apply Hix; eauto).
  specialize (Hmine Hin).
  split; simpl; rewrite ?Hob, ?Hbh; try done.
  - intros j oj. rewrite Hget. case_decide; [done|apply Hids].
  - intros j oj. simpl. rewrite Hob, Hget. case_decide; [done|apply Htm].
  - by destruct Hc'.
  - intros h. destruct (decide (h = holder o)) as [->|Hne]; [|by rewrite Hother].
    specialize (Hnd (holder o)). rewrite Hmine in Hnd. by apply NoDup_cons in Hnd as [_ ?].
  - intros h [j]. simpl. rewrite Hget.
    pose proof (Hix h (ObligationId_from_arena j)) as Hj. simpl in Hj.
    destruct (decide (h = holder o)) as [->|Hne].
    + specialize (Hnd (holder o)). rewrite Hmine in Hj, Hnd. rewrite elem_of_cons in Hj.
      apply NoDup_cons in Hnd as [Hni _]. case_decide as Hd.
      * subst j. split; [done|]. by intros (? & ? & _).
      * rewrite <-Hj. split; [auto|]. intros [[= ?]|?]; [congruence|done].
    + rewrite Hother, Hj by done. case_decide as Hd; [|done]. subst j.
      split; [|by intros (? & ? & _)]. intros (x & Hx & Hhx). congruence.
Qed.

(** ** Resolutions *)

(** The record after a resolution. *)
Definition resolved_record (o : ObligationRecord) (now : Time.t) (res : ObligationResolution)
  : ObligationRecord :=
  mkObligationRecord (ob_id o) (ob_kind o) (holder o) (ob_region o) (resolution_state res)
    (description o) (acquired_at o) (acquire_backtrace o) (reserved_at o) (Some now)
    (resolution_abort_reason res).

Lemma resolved_not_pending o now res : is_pending (resolved_record o now res) = false.
Proof. by destruct res. Qed.

(** A successful resolution: from pending to resolved, nothing else changes. *)
Record resolution_post (t t' : ObligationTable) (id : ObligationId) (o : ObligationRecord)
  (now : Time.t) (res : ObligationResolution) : Prop := {
  rs_wf : table_wf t';
  rs_before : Arena.get (obligations t) (obligation_arena_index id) = Some o;
  rs_pending : is_pending o = true;
  rs_get : ∀ j, Arena.get (obligations t') j =
    if decide (j = obligation_arena_index id) then Some (resolved_record o now res)
    else Arena.get (obligations t) j;
  rs_le : slots_le (slots (obligations t)) (slots (obligations t'));
  rs_finalized : finalized_regions t' = finalized_regions t;
  rs_count : cached_pending t' + 1 = cached_pending t;
}.

Lemma finish_resolution_ok {I} t id o put now res (info : ObligationRecord → N → I) : table_wf t →
  get_mut (obligations t) (obligation_arena_index id) = Some (o, put) → is_pending o = true →
  ∃ t', finish_resolution t o put (resolve o now res) info =
    Done (t', Ok (info (resolved_record o now res) (Time.duration_since now (reserved_at o)))) ∧
    resolution_post t t' id o now res.
Proof.
  intros Hwf Hgm Hp. unfold finish_resolution, resolve. rewrite Hp. simpl.
  fold (resolved_record o now res).
  pose proof (get_mut_spec (obligations t) (obligation_arena_index id) (tw_arena t Hwf)) as H.
  rewrite Hgm in H. destruct H as [Hg Hput].
  destruct (Hput (resolved_record o now res)) as (Ha & Hle & _ & Hget).
  destruct (resolve_entry_ok t (put (resolved_record o now res)) (obligation_arena_index id) o
    (resolved_record o now res) Hwf Ha Hg Hp (resolved_not_pending _ _ _) eq_refl eq_refl eq_refl Hget)
    as (t' & Hdone & Hwf' & Hob & Hfr).
  unfold mbind, exec_bind. rewrite Hdone. exists t'. split; [done|].
  split; rewrite ?Hob; try done.
  destruct (iter_update_perm _ _ _ _ _ Hg Hget) as (rest & Hi1 & Hi2).
  rewrite (ct_pending t (tw_counters t Hwf)), (ct_pending t' (tw_counters t' Hwf')).
  unfold total. rewrite Hob, Hi1, Hi2. simpl. unfold pending_weight at 1 3. simpl.
  rewrite Hp, resolved_not_pending. lia.
Qed.

(** How a resolution request ends: refused without effect, or done. *)
Inductive resolution_result {I} (t : ObligationTable) (id : ObligationId) (now : Time.t)
  (res : ObligationResolution) (fenced : bool) (info : ObligationRecord → N → I) :
  ObligationTable → result I TableError → Prop :=
| rr_absent : Arena.get (obligations t) (obligation_arena_index id) = None →
    resolution_result t id now res fenced info t (Err ObligationAlreadyResolved)
| rr_fenced o : Arena.get (obligations t) (obligation_arena_index id) = Some o →
    fenced = true → ob_region o ∈ finalized_regions t →
    resolution_result t id now res fenced info t (Err RegionFinalized)
| rr_resolved o : Arena.get (obligations t) (obligation_arena_index id) = Some o →
    (fenced = true → ob_region o ∉ finalized_regions t) → is_pending o = false →
    resolution_result t id now res fenced info t (Err ObligationAlreadyResolved)
| rr_done o t' : resolution_post t t' id o now res →
    (fenced = true → ob_region o ∉ finalized_regions t) →
    resolution_result t id now res fenced info t'
      (Ok (info (resolved_record o now res) (Time.duration_since now (reserved_at o)))).

Lemma get_mut_get {T} (a : Arena T) idx :
  match get_mut a idx with Some (v, _) => Arena.get a idx = Some v | None => Arena.get a idx = None end.
Proof.
  unfold get_mut, Arena.get. destruct (slots a !! _) as [[v g|]|]; try done. by destruct (g =? _).
Qed.

Lemma table_commit_ok t id now : table_wf t → ∃ t' r, table_commit t id now = Done (t', r) ∧
  resolution_result t id now ResCommit true commit_info t' r.
Proof.
  intros Hwf. unfold table_commit, is_region_finalized, ob_commit.
  pose proof (get_mut_get (obligations t) (obligation_arena_index id)) as Hgm.
  destruct (get_mut _ _) as [[o put]|] eqn:E; rewrite Hgm.
  - case_bool_decide as Hf; [do 2 eexists; split; [done|by eapply rr_fenced]|].
    destruct (is_pending o) eqn:Hp; simpl.
    + destruct (finish_resolution_ok t id o put now ResCommit commit_info Hwf E Hp) as (t' & -> & Hpost).
      do 2 eexists. split; [done|]. by eapply rr_done.
    + do 2 eexists. split; [done|]. by eapply rr_resolved.
  - do 2 eexists. split; [done|]. by apply rr_absent.
Qed.

Lemma table_abort_ok t id now reason : table_wf t → ∃ t' r, table_abort t id now reason = Done (t', r) ∧
  resolution_result t id now (ResAbort reason) true (abort_info reason) t' r.
Proof.
  intros Hwf. unfold table_abort, is_region_finalized, ob_abort.
  pose proof (get_mut_get (obligations t) (obligation_arena_index id)) as Hgm.
  destruct (get_mut _ _) as [[o put]|] eqn:E; rewrite Hgm.
  - case_bool_decide as Hf; [do 2 eexists; split; [done|by eapply rr_fenced]|].
    destruct (is_pending o) eqn:Hp; simpl.
    + destruct (finish_resolution_ok t id o put now (ResAbort reason) (abort_info reason) Hwf E Hp) as (t' & -> & Hpost).
      do 2 eexists. split; [done|]. by eapply rr_done.
    + do 2 eexists. split; [done|]. by eapply rr_resolved.
  - do 2 eexists. split; [done|]. by apply rr_absent.
Qed.

Lemma table_mark_leaked_ok t id now : table_wf t → ∃ t' r, table_mark_leaked t id now = Done (t', r) ∧
  resolution_result t id now ResLeak false leak_info t' r.
Proof.
  intros Hwf. unfold table_mark_leaked, ob_mark_leaked.
  pose proof (get_mut_get (obligations t) (obligation_arena_index id)) as Hgm.
  destruct (get_mut _ _) as [[o put]|] eqn:E.
  - destruct (is_pending o) eqn:Hp; simpl.
    + destruct (finish_resolution_ok t id o put now ResLeak leak_info Hwf E Hp) as (t' & -> & Hpost).
      do 2 eexists. split; [done|]. by eapply rr_done.
    + do 2 eexists. split; [done|]. by eapply rr_resolved.
  - do 2 eexists. split; [done|]. by apply rr_absent.
Qed.

(** Resolving an obligation is exact on every branch and never panics on a
    well-formed table: an unknown or resolved obligation is refused as already
    resolved, commits and aborts in a finalized region are refused by the fence
    (leaks are not), each refusal changes nothing; otherwise the record alone
    becomes committed, aborted or leaked at the given time, the pending counters
    drop by one and the report carries the record and how long it was held. *)
Theorem obligation_resolution_correct (t : ObligationTable) (id : ObligationId) (now : Time.t)
  (reason : ObligationAbortReason) : table_wf t →
  (∃ t' r, table_commit t id now = Done (t', r) ∧
     resolution_result t id now ResCommit true commit_info t' r) ∧
  (∃ t' r, table_abort t id now reason = Done (t', r) ∧
     resolution_result t id now (ResAbort reason) true (abort_info reason) t' r) ∧
  (∃ t' r, table_mark_leaked t id now = Done (t', r) ∧
     resolution_result t id now ResLeak false leak_info t' r).
Proof.
  intros Hwf. split_and!; [by apply table_commit_ok|by apply table_abort_ok|by apply table_mark_leaked_ok].
Qed.

(** ** Sequences of operations *)

Inductive TableOp :=
| OInsert (o : ObligationRecord)
| ORemove (idx : ArenaIndex)
| OCreate (args : ObligationCreateArgs)
| OCommit (id : ObligationId) (now : Time.t)
| OAbort (id : ObligationId) (now : Time.t) (reason : ObligationAbortReason)
| OLeak (id : ObligationId) (now : Time.t)
| OFinalizeRegion (r : RegionId).

(** What the exactly-once property looks at: the obligation an operation
    resolved, if it did. *)
Definition success {I} (id : ObligationId) (r : result I TableError) : option ObligationId :=
  match r with Ok _ => Some id | Err _ => None end.

Definition table_apply (t : ObligationTable) (op : TableOp) : exec (ObligationTable * option ObligationId) :=
  match op with
  | OInsert o => '(t, _) ← table_insert t o; Done (t, None)
  | ORemove idx => '(t, _) ← table_remove t idx; Done (t, None)
  | OCreate args => '(t, _) ← table_create t args; Done (t, None)
  | OCommit id now => '(t, r) ← table_commit t id now; Done (t, success id r)
  | OAbort id now reason => '(t, r) ← table_abort t id now reason; Done (t, success id r)
  | OLeak id now => '(t, r) ← table_mark_leaked t id now; Done (t, success id r)
  | OFinalizeRegion r => Done (mark_region_finalized t r, None)
  end.

Fixpoint table_run (t : ObligationTable) (ops : list TableOp)
  : exec (ObligationTable * list (option ObligationId)) :=
  match ops with
  | [] => Done (t, [])
  | op :: ops =>
      '(t, out) ← table_apply t op;
      '(t, outs) ← table_run t ops;
      Done (t, out :: outs)
  end.

(** Times are 64-bit. *)
Definition op_ok (op : TableOp) : Prop :=
  match op with
  | OInsert o => reserved_at o ≤ u64_MAX
  | OCreate args => args_now args ≤ u64_MAX
  | _ => True
  end.

(** An obligation that can never be resolved again. *)
Definition settled (t : ObligationTable) (id : ObligationId) : Prop :=
  (∃ o, Arena.get (obligations t) (obligation_arena_index id) = Some o ∧ is_pending o = false) ∨
  spent (obligations t) (obligation_arena_index id).

Record table_step_ok (t t' : ObligationTable) (out : option ObligationId) : Prop := {
  ts_wf : table_wf t';
  ts_settled : ∀ id, settled t id → settled t' id ∧ out ≠ Some id;
  ts_success : ∀ id, out = Some id → settled t' id;
}.

Lemma settled_grow t t' id : slots_le (slots (obligations t)) (slots (obligations t')) →
  (∀ o, Arena.get (obligations t) (obligation_arena_index id) = Some o → is_pending o = false →
    Arena.get (obligations t') (obligation_arena_index id) = Some o ∨ spent (obligations t') (obligation_arena_index id)) →
  settled t id → settled t' id.
Proof.
  intros Hle Hkeep [(o & Hg & Hp)|Hs]; [|right; by eapply spent_mono].
  destruct (Hkeep o Hg Hp); [left; by exists o|by right].
Qed.

Lemma insert_step_ok t f a idx o : table_wf t → insert_post (obligations t) f a idx → f idx = o →
  ob_id o = ObligationId_from_arena idx → reserved_at o ≤ u64_MAX →
  table_step_ok t (note_if_pending (set_by_holder (set_table_arena t a)
    (push_holder_id (by_holder t) (holder o) (ObligationId_from_arena idx))) o) None.
Proof.
  intros Hwf Hip Hfo Hid Hat. split; [by eapply insert_entry_ok| |done].
  intros id Hs. split; [|done].
  assert (Hob : obligations (note_if_pending (set_by_holder (set_table_arena t a)
    (push_holder_id (by_holder t) (holder o) (ObligationId_from_arena idx))) o) = a)
    by (unfold note_if_pending; by destruct (is_pending o)).
  pose proof Hip as [_ Hle [Hnl _] Hget _].
  eapply (settled_grow t); [by rewrite Hob| |done]. rewrite Hob. intros o' Hg _. left. rewrite Hget.
  case_decide as Hd; [|done]. destruct Hnl. apply live_get. rewrite <-Hd. by eexists.
Qed.

Lemma resolution_step_ok {I} t id now res fenced (info : ObligationRecord → N → I) t' r :
  table_wf t → resolution_result t id now res fenced info t' r → table_step_ok t t' (success id r).
Proof.
  intros Hwf [?|o ? ? ?|o ? ? ?|o t1 Hpost Hfr]; simpl; try (by split).
  destruct Hpost as [Hwf' Hg Hp Hget Hle _ _].
  assert (Hset : settled t1 id).
  { left. exists (resolved_record o now res). split; [|apply resolved_not_pending].
    rewrite Hget. by rewrite decide_True. }
  split; [done| |by intros ? [= <-]].
  intros id' Hs. split.
  - eapply (settled_grow t); [done| |done]. intros o' Hg' Hp'. left. rewrite Hget. case_decide as Hd; [|done].
    rewrite Hd in Hg'. congruence.
  - intros [= <-]. destruct Hs as [(o' & Hg' & Hp')|Hs]; [congruence|].
    apply spent_get in Hs. congruence.
Qed.

Lemma create_record_spec args idx :
  ob_id (create_record args idx) = ObligationId_from_arena idx ∧
  is_pending (create_record args idx) = true ∧ holder (create_record args idx) = args_holder args ∧
  reserved_at (create_record args idx) = args_now args ∧ ob_kind (create_record args idx) = args_kind args.
Proof. unfold create_record. by destruct (args_description args). Qed.

Lemma table_remove_ok t idx : table_wf t →
  ∃ t' o, table_remove t idx = Done (t', o) ∧ table_step_ok t t' None.
Proof.
  intros Hwf. unfold table_remove.
  pose proof (remove_spec (obligations t) idx (tw_arena t Hwf)) as H.
  destruct (remove (obligations t) idx) as [a [o|]].
  - destruct H as [Hg Hpost]. destruct (remove_entry_ok t a idx o Hwf Hpost Hg) as (t' & Hdone & Hwf' & Hob & _).
    unfold mbind, exec_bind. rewrite Hdone. do 2 eexists. split; [done|]. split; [done| |done].
    intros id Hs. split; [|done]. pose proof Hpost as [_ Hle Hsp Hget _ _].
    eapply (settled_grow t); simpl; rewrite ?Hob; [done| |done]. intros o' Hg' _. rewrite Hget.
    case_decide as Hd; [|by left]. right. by rewrite Hd.
  - do 2 eexists. split; [done|]. by split.
Qed.

Lemma table_apply_ok t op : table_wf t → op_ok op →
  match table_apply t op with
  | Done (t', out) => table_step_ok t t' out
  | Panics => arena_full (obligations t)
  end.
Proof.
  intros Hwf Hop. destruct op as [o|idx|args|id now|id now reason|id now|r]; simpl.
  - pose proof (insert_with_spec (obligations t) (λ idx, set_ob_id o (ObligationId_from_arena idx)) (tw_arena t Hwf)) as H.
    unfold table_insert. destruct (insert_with _ _) as [[a idx]|]; simpl; [|done].
    eapply (insert_step_ok t _ a idx (set_ob_id o (ObligationId_from_arena idx))); by try apply H.
  - destruct (table_remove_ok t idx Hwf) as (t' & o & -> & ?). done.
  - pose proof (insert_with_spec (obligations t) (create_record args) (tw_arena t Hwf)) as H.
    unfold table_create. destruct (insert_with _ _) as [[a idx]|]; simpl; [|done].
    destruct (create_record_spec args idx) as (Hid & Hp & Hh & Hr & Hk).
    pose proof (insert_step_ok t _ a idx _ Hwf H eq_refl Hid ltac:(by rewrite Hr)) as Hstep.
    unfold note_if_pending in Hstep. rewrite Hp, Hh, Hr, Hk in Hstep.
    rewrite (ip_get _ _ _ _ H idx), decide_True by done. by rewrite Hr.
  - destruct (table_commit_ok t id now Hwf) as (t' & r & -> & Hr). by eapply resolution_step_ok.
  - destruct (table_abort_ok t id now reason Hwf) as (t' & r & -> & Hr). by eapply resolution_step_ok.
  - destruct (table_mark_leaked_ok t id now Hwf) as (t' & r & -> & Hr). by eapply resolution_step_ok.
  - split; [|intros id Hs; by split|done]. destruct Hwf as [? ? ? Hc ? ? ?]. split; try done. by destruct Hc.
Qed.

Lemma table_run_ok t ops t' outs : table_wf t → Forall op_ok ops →
  table_run t ops = Done (t', outs) →
  table_wf t' ∧ ∀ id,
    (settled t id → Some id ∉ outs) ∧ (count (λ o, bool_decide (o = Some id)) outs ≤ 1)%nat.
Proof.
  revert t outs. induction ops as [|op ops IH]; intros t outs Hwf Hops H; simpl in H.
  - simplify_eq. split; [done|]. intros id. split; [by intros _ ?%elem_of_nil|]. unfold count. simpl. lia.
  - apply Forall_cons in Hops as [Hop Hops]. pose proof (table_apply_ok t op Hwf Hop) as Hstep.
    unfold mbind, exec_bind in H. destruct (table_apply t op) as [[t1 out]|]; [|done].
    destruct (table_run t1 ops) as [[t2 outs2]|] eqn:Hrun; simplify_eq.
    destruct Hstep as [Hwf1 Hset Hsucc]. destruct (IH _ _ Hwf1 Hops Hrun) as [Hwf2 Hid].
    split; [done|]. intros id. destruct (Hid id) as [Hnone Hcnt]. rewrite count_cons. split.
    + intros Hs. destruct (Hset id Hs) as [Hs1 Hne].
      apply not_elem_of_cons. split; [congruence|by apply Hnone].
    + case_bool_decide as Ho; [|lia]. apply Hsucc, Hnone in Ho.
      assert (count (λ o, bool_decide (o = Some id)) outs2 = 0%nat) as ->; [|lia].
      unfold count. destruct (List.filter _ outs2) as [|x l] eqn:Ef; [done|].
      assert (Hx : In x (List.filter (λ o, bool_decide (o = Some id)) outs2)) by (rewrite Ef; by left).
      apply filter_In in Hx as [Hx Hb]. apply bool_decide_eq_true in Hb as ->.
      by apply list_elem_of_In in Hx.
Qed.

(** C29: Every obligation is resolved at most once.  In any sequence of
    insertions, removals, creations, commits, aborts, leak marks and region
    finalizations on a new table, at most one resolution of a given obligation
    succeeds, whatever happens to its slot afterwards. *)
Theorem obligation_exactly_once ops t outs (id : ObligationId) : Forall op_ok ops →
  table_run table_new ops = Done (t, outs) →
  (count (λ o, bool_decide (o = Some id)) outs ≤ 1)%nat.
Proof. intros Hops Hrun. eapply table_run_ok; [apply table_new_wf|done|done]. Qed.

(** The cached aggregates agree with a scan of the arena after any sequence
    of operations: the pending count, the count of each kind and the sum of
    reservation times are those of the pending records, and the index lists for
    every holder exactly the ids of its records, each once; and a single
    operation panics only when the arena is full. *)
Theorem obligation_table_consistent ops t outs op : Forall op_ok ops → op_ok op →
  table_run table_new ops = Done (t, outs) →
  pending_count t = N.of_nat (count (λ p, is_pending p.2) (iter (obligations t))) ∧
  (∀ k, pending_count_for_kind t k =
    N.of_nat (count (λ p, is_pending p.2 && bool_decide (ob_kind p.2 = k)) (iter (obligations t)))) ∧
  pending_reserved_at_sum_ns t = total reserved_at t ∧
  (∀ h, NoDup (ids_for_holder t h) ∧ ∀ id, id ∈ ids_for_holder t h ↔
    ∃ o, Arena.get (obligations t) (obligation_arena_index id) = Some o ∧ holder o = h) ∧
  (table_apply t op = Panics → arena_full (obligations t)).
Proof.
  intros Hops Hop Hrun. destruct (table_run_ok _ _ _ _ table_new_wf Hops Hrun) as [Hwf _].
  pose proof Hwf as [Ha _ _ [Hp _ Hk Hs] _ Hnd Hix]. split_and!.
  - unfold pending_count. rewrite Hp. unfold total. rewrite <-sum_over_count. done.
  - intros k. unfold pending_count_for_kind. rewrite Hk. unfold total. rewrite <-sum_over_count.
    generalize (iter (obligations t)). induction l as [|[i o] l IH]; [done|]. simpl.
    rewrite IH. unfold pending_weight, kind_weight. simpl. by destruct (is_pending o), (bool_decide _).
  - done.
  - intros h. split; [apply Hnd|apply Hix].
  - intros Hpan. pose proof (table_apply_ok t op Hwf Hop) as H. by rewrite Hpan in H.
Qed.

(** ** Queries and examples *)

#[global] Instance ObligationId_le_total : Total ObligationId_le.
Proof.
  intros [[i g]] [[i' g']]. unfold ObligationId_le, ArenaIndex_le. simpl.
  destruct (N.ltb_spec i i'), (N.ltb_spec i' i), (N.eqb_spec i i'), (N.eqb_spec i' i),
    (N.leb_spec g g'), (N.leb_spec g' g); simpl; auto; lia.
Qed.

#[global] Instance ObligationId_le_trans : Transitive ObligationId_le.
Proof.
  intros [[i g]] [[i' g']] [[j k]]. unfold ObligationId_le, ArenaIndex_le. simpl. intros H1 H2.
  apply orb_true_iff in H1, H2. rewrite !andb_true_iff, !N.ltb_lt, !N.eqb_eq, !N.leb_le in H1, H2.
  apply orb_true_iff. rewrite andb_true_iff, N.ltb_lt, N.eqb_eq, N.leb_le. lia.
Qed.

(** The holder index answers queries for pending obligations. *)
Lemma pending_ids_spec t (h : TaskId) : table_wf t →
  let ids := sorted_pending_ids_for_holder t h in
  Sorted ObligationId_le ids ∧ NoDup ids ∧
  ∀ id, id ∈ ids ↔ ∃ o, Arena.get (obligations t) (obligation_arena_index id) = Some o ∧
    holder o = h ∧ is_pending o = true.
Proof.
  intros Hwf ids. pose proof (tw_index t Hwf h) as Hix. pose proof (tw_nodup t Hwf h) as Hnd.
  change (find_ids (by_holder t) h) with (ids_for_holder t h) in Hix, Hnd.
  subst ids. unfold sorted_pending_ids_for_holder. set (p := λ id : ObligationId, _).
  split; [apply Sorted_merge_sort, _|]. rewrite merge_sort_Permutation. split.
  - apply NoDup_ListNoDup, List.NoDup_filter, NoDup_ListNoDup, Hnd.
  - intros id. rewrite merge_sort_Permutation, list_elem_of_In, filter_In, <-list_elem_of_In, Hix. unfold p.
    split; [intros [(o & -> & Hh) Hp]; by exists o|].
    intros (o & -> & Hh & Hp). split; [by exists o|done].
Qed.

(** The pending obligations of a task are found through the holder index:
    the query returns, in increasing order of ids and without duplicates,
    exactly the ids of the pending records the task holds. *)
Theorem pending_ids_of_holder_exact ops t outs (h : TaskId) : Forall op_ok ops →
  table_run table_new ops = Done (t, outs) →
  let ids := sorted_pending_ids_for_holder t h in
  Sorted ObligationId_le ids ∧ NoDup ids ∧
  ∀ id, id ∈ ids ↔ ∃ o, Arena.get (obligations t) (obligation_arena_index id) = Some o ∧
    holder o = h ∧ is_pending o = true.
Proof.
  intros Hops Hrun. apply pending_ids_spec.
  by destruct (table_run_ok _ _ _ _ table_new_wf Hops Hrun) as [Hwf _].
Qed.

Definition sample_holder : TaskId := TaskId_from_arena (mkArenaIndex 2 0).
Definition sample_args (k : ObligationKind) (now : Time.t) : ObligationCreateArgs :=
  mkCreateArgs k sample_holder RegionId_testing_default now None (mkSourceLocation "lib.rs" 1 1) None.

Definition sample_ops : list TableOp :=
  [OCreate (sample_args Lease 5); OCreate (sample_args Ack 7);
   OCommit (ObligationId_from_arena (mkArenaIndex 0 0)) 9;
   OAbort (ObligationId_from_arena (mkArenaIndex 0 0)) 10 AbortExplicit].

Lemma sample_ops_ok : Forall op_ok sample_ops.
Proof. repeat constructor; vm_compute; discriminate. Qed.

Lemma obligation_exactly_once_witness :
  ∃ t outs, table_run table_new sample_ops = Done (t, outs) ∧
    outs = [None; None; Some (ObligationId_from_arena (mkArenaIndex 0 0)); None] ∧
    (count (λ o, bool_decide (o = Some (ObligationId_from_arena (mkArenaIndex 0 0)))) outs ≤ 1)%nat.
Proof.
  do 2 eexists. split; [vm_compute; reflexivity|]. split; [reflexivity|].
  eapply (obligation_exactly_once sample_ops); [apply sample_ops_ok|vm_compute; reflexivity].
Defined.

Lemma obligation_table_consistent_witness :
  ∃ t outs, table_run table_new sample_ops = Done (t, outs) ∧ pending_count t = 1 ∧
    (table_apply t (ORemove (mkArenaIndex 0 0)) = Panics → arena_full (obligations t)).
Proof.
  do 2 eexists. split; [vm_compute; reflexivity|]. split; [reflexivity|].
  eapply (obligation_table_consistent sample_ops _ _ (ORemove (mkArenaIndex 0 0)));
    [apply sample_ops_ok|exact I|vm_compute; reflexivity].
Defined.

Lemma pending_ids_of_holder_exact_witness :
  ∃ t outs, table_run table_new sample_ops = Done (t, outs) ∧
    sorted_pending_ids_for_holder t sample_holder = [ObligationId_from_arena (mkArenaIndex 1 0)] ∧
    NoDup (sorted_pending_ids_for_holder t sample_holder).
Proof.
  do 2 eexists. split; [vm_compute; reflexivity|]. split; [vm_compute; reflexivity|].
  eapply (pending_ids_of_holder_exact sample_ops); [apply sample_ops_ok|vm_compute; reflexivity].
Defined.

Lemma obligation_resolution_correct_witness :
  ∃ t' r, table_commit table_new (ObligationId_from_arena (mkArenaIndex 0 0)) 3 = Done (t', r) ∧
    r = Err ObligationAlreadyResolved.
Proof.
  destruct (obligation_resolution_correct table_new (ObligationId_from_arena (mkArenaIndex 0 0)) 3
    AbortCancel table_new_wf) as [(t' & r & H & _) _].
  exists t', r. split; [exact H|]. vm_compute in H. by injection H as <- <-.
Defined.
