(* ===== verification/Trace.v ===== *)
(** * Trace events

    Models the events of [src/trace/event.rs] ([TraceEventKind], [TraceData],
    [TraceEvent]), the independence relation of [src/trace/independence.rs], the
    deterministic hasher of [src/util/det_hash.rs] and the sort keys of
    [src/trace/canonicalize.rs].  Strings are the strings of their UTF-8 bytes. *)

From S2P Require Import Prelude Ids Clocks Cancel Outcome Obligation Bytes.

Module Kind.

Inductive t :=
  | Spawn | Schedule | Yield | Wake | Poll | Complete
  | CancelRequest | CancelAck
  | WorkerCancelRequested | WorkerCancelAcknowledged | WorkerDrainStarted | WorkerDrainCompleted | WorkerFinalizeCompleted
  | RegionCloseBegin | RegionCloseComplete | RegionCreated | RegionCancelled
  | ObligationReserve | ObligationCommit | ObligationAbort | ObligationLeak
  | TimeAdvance | TimerScheduled | TimerFired | TimerCancelled
  | IoRequested | IoReady | IoResult | IoError
  | RngSeed | RngValue | Checkpoint | FuturelockDetected | ChaosInjection | UserTrace
  | MonitorCreated | MonitorDropped | DownDelivered | LinkCreated | LinkDropped | ExitDelivered.

#[global] Instance t_eq_dec : EqDecision t.
Proof. solve_decision. Defined.

End Kind.

(** [DownReason] of [src/monitor.rs]. *)
Inductive DownReason := DownNormal | DownError (msg : string) | DownCancelled (r : CancelReason) | DownPanicked (p : PanicPayload).

Module Data.

Inductive t :=
  | NoData
  | Task (task : TaskId) (region : RegionId)
  | Region (region : RegionId) (parent : option RegionId)
  | Obligation (obligation : ObligationId) (task : TaskId) (region : RegionId) (kind : ObligationKind) (state : ObligationState)
      (duration_ns : option N) (abort_reason : option ObligationAbortReason)
  | Cancel (task : TaskId) (region : RegionId) (reason : CancelReason)
  | Worker (worker_id : string) (job_id decision_seq replay_hash : N) (task : TaskId) (region : RegionId) (obligation : ObligationId)
  | RegionCancel (region : RegionId) (reason : CancelReason)
  | Time (old new : N)
  | Timer (timer_id : N) (deadline : option N)
  | IoRequested (token interest : N)
  | IoReady (token readiness : N)
  | IoResult (token : N) (bytes : Z)
  | IoError (token kind : N)
  | RngSeed (seed : N)
  | RngValue (value : N)
  | Checkpoint (sequence active_tasks active_regions : N)
  | Futurelock (task : TaskId) (region : RegionId) (idle_steps : N) (held : list (ObligationId * ObligationKind))
  | Monitor (monitor_ref : N) (watcher : TaskId) (watcher_region : RegionId) (monitored : TaskId)
  | Down (monitor_ref : N) (watcher monitored : TaskId) (completion_vt : N) (reason : DownReason)
  | Link (link_ref : N) (task_a : TaskId) (region_a : RegionId) (task_b : TaskId) (region_b : RegionId)
  | Exit (link_ref : N) (from to : TaskId) (failure_vt : N) (reason : DownReason)
  | Message (msg : string)
  | Chaos (kind : string) (task : option TaskId) (detail : string).

End Data.

Record TraceEvent := mkTraceEvent {
  version : N; seq_no : N; ev_at : N; logical_time : option LogicalTime; ev_kind : Kind.t; ev_data : Data.t }.

(** ** Decidable equality, the derived [PartialEq] *)

#[global] Instance CancelReason_eq_dec : EqDecision CancelReason.
Proof.
  unfold EqDecision. fix go 1. intros a b. refine (match a, b with
    | mkCancelReason k1 r1 t1 s1 m1 c1 b1 d1, mkCancelReason k2 r2 t2 s2 m2 c2 b2 d2 =>
        cast_if_and4 (decide (k1 = k2 ∧ r1 = r2 ∧ t1 = t2)) (decide (s1 = s2 ∧ m1 = m2)) (decide (b1 = b2 ∧ d1 = d2))
          (match c1, c2 return Decision (c1 = c2) with
           | Some x, Some y => cast_if (go x y) | None, None => left eq_refl | _, _ => right _ end)
    end); clear go; naive_solver congruence.
Defined.

#[global] Instance PanicPayload_eq_dec : EqDecision PanicPayload.
Proof. solve_decision. Defined.
#[global] Instance DownReason_eq_dec : EqDecision DownReason.
Proof. solve_decision. Defined.
#[global] Instance ObligationState_eq_dec : EqDecision ObligationState.
Proof. solve_decision. Defined.
#[global] Instance ObligationAbortReason_eq_dec : EqDecision ObligationAbortReason.
Proof. solve_decision. Defined.
#[global] Instance Data_eq_dec : EqDecision Data.t.
Proof. solve_decision. Defined.

(** ** Independence *)

Inductive Resource :=
  | RTask (t : TaskId) | RRegion (r : RegionId) | RObligation (o : ObligationId) | RTimer (n : N) | RIoToken (n : N)
  | RGlobalClock | RGlobalRng | RGlobalState.

Inductive AccessMode := Read | Write.

#[global] Instance Resource_eq_dec : EqDecision Resource.
Proof. solve_decision. Defined.
#[global] Instance AccessMode_eq_dec : EqDecision AccessMode.
Proof. solve_decision. Defined.

Record ResourceAccess := mkAccess { resource : Resource; mode : AccessMode }.
Definition read (r : Resource) : ResourceAccess := mkAccess r Read.
Definition write (r : Resource) : ResourceAccess := mkAccess r Write.

Definition accesses_conflict (a b : ResourceAccess) : bool :=
  bool_decide (resource a = resource b) && (bool_decide (mode a = Write) || bool_decide (mode b = Write)).

Definition resource_footprint (e : TraceEvent) : list ResourceAccess :=
  match ev_kind e, ev_data e with
  | (Kind.Spawn | Kind.Schedule | Kind.Yield | Kind.Wake | Kind.Poll | Kind.Complete), Data.Task task region
  | Kind.CancelAck, Data.Cancel task region _ => [write (RTask task); read (RRegion region)]
  | Kind.CancelRequest, Data.Cancel task region _ => [write (RTask task); write (RRegion region)]
  | Kind.RegionCreated, Data.Region region parent =>
      write (RRegion region) :: match parent with Some p => [read (RRegion p)] | None => [] end
  | (Kind.RegionCloseBegin | Kind.RegionCloseComplete), Data.Region region _
  | Kind.RegionCancelled, Data.RegionCancel region _ => [write (RRegion region)]
  | (Kind.ObligationReserve | Kind.ObligationCommit | Kind.ObligationAbort | Kind.ObligationLeak), Data.Obligation obligation task region _ _ _ _ =>
      [write (RObligation obligation); read (RTask task); read (RRegion region)]
  | Kind.TimeAdvance, _ => [write RGlobalClock]
  | (Kind.TimerScheduled | Kind.TimerFired | Kind.TimerCancelled), Data.Timer timer_id _ => [write (RTimer timer_id); read RGlobalClock]
  | Kind.IoRequested, Data.IoRequested token _
  | Kind.IoReady, Data.IoReady token _
  | Kind.IoResult, Data.IoResult token _
  | Kind.IoError, Data.IoError token _ => [write (RIoToken token)]
  | (Kind.RngSeed | Kind.RngValue), _ => [write RGlobalRng]
  | Kind.Checkpoint, _ => [read RGlobalState]
  | Kind.FuturelockDetected, Data.Futurelock task region _ _ => [read (RTask task); read (RRegion region)]
  | Kind.ChaosInjection, Data.Chaos _ task _ =>
      write RGlobalState :: match task with Some t => [write (RTask t)] | None => [] end
  | Kind.UserTrace, _ => []
  | (Kind.MonitorCreated | Kind.MonitorDropped), Data.Monitor _ watcher watcher_region monitored =>
      [write (RTask watcher); read (RRegion watcher_region); read (RTask monitored)]
  | Kind.DownDelivered, Data.Down _ watcher monitored _ _ => [write (RTask watcher); read (RTask monitored); read RGlobalClock]
  | (Kind.LinkCreated | Kind.LinkDropped), Data.Link _ task_a region_a task_b region_b =>
      [write (RTask task_a); read (RRegion region_a); write (RTask task_b); read (RRegion region_b)]
  | Kind.ExitDelivered, Data.Exit _ from to _ _ => [read (RTask from); write (RTask to); read RGlobalClock]
  | _, _ => [write RGlobalState]
  end.

Definition independent (a b : TraceEvent) : bool :=
  if seq_no a =? seq_no b then false
  else
    let fa := resource_footprint a in
    let fb := resource_footprint b in
    if bool_decide (fa = []) || bool_decide (fb = []) then true
    else negb (existsb (λ ra, existsb (accesses_conflict ra) fb) fa).

(** ** The deterministic hasher *)

Definition SEED : N := 0x16f11fe89b0d677c.
Definition MULTIPLIER : N := 0x517cc1b727220a95.
Definition wrapping_mul (a b : N) : N := (a * b) mod 2 ^ 64.

Definition mix_byte (state byte : N) : N := N.lxor (wrapping_mul state MULTIPLIER) byte.
Definition mix_bytes (state : N) (bytes : list N) : N := foldl mix_byte state bytes.
Definition write_u8 (state i : N) : N := mix_byte state i.
Definition write_u64 (state i : N) : N := mix_bytes state (to_le_bytes 8 i).
Definition write_usize (state i : N) : N := write_u64 state i.
Definition finish (state : N) : N :=
  let h := state in
  let h := N.lxor h (N.shiftr h 33) in
  let h := wrapping_mul h 0xff51afd7ed558ccd in
  let h := N.lxor h (N.shiftr h 33) in
  let h := wrapping_mul h 0xc4ceb9fe1a85ec53 in
  N.lxor h (N.shiftr h 33).

(** [Hash for str]: the bytes and [0xff]. *)
Definition string_bytes (s : string) : list N := Ascii.N_of_ascii <$> String.list_ascii_of_string s.
Definition hash_str (state : N) (s : string) : N := write_u8 (mix_bytes state (string_bytes s)) 255.

(** ** Sort keys *)

Definition kind_discriminant (k : Kind.t) : N :=
  match k with
  | Kind.Spawn => 0 | Kind.Schedule => 1 | Kind.Yield => 2 | Kind.Wake => 3 | Kind.Poll => 4 | Kind.Complete => 5
  | Kind.CancelRequest => 6 | Kind.CancelAck => 7 | Kind.RegionCloseBegin => 8 | Kind.RegionCloseComplete => 9
  | Kind.RegionCreated => 10 | Kind.RegionCancelled => 11 | Kind.ObligationReserve => 12 | Kind.ObligationCommit => 13
  | Kind.ObligationAbort => 14 | Kind.ObligationLeak => 15 | Kind.TimeAdvance => 16 | Kind.TimerScheduled => 17
  | Kind.TimerFired => 18 | Kind.TimerCancelled => 19 | Kind.IoRequested => 20 | Kind.IoReady => 21 | Kind.IoResult => 22
  | Kind.IoError => 23 | Kind.RngSeed => 24 | Kind.RngValue => 25 | Kind.Checkpoint => 26 | Kind.FuturelockDetected => 27
  | Kind.ChaosInjection => 28 | Kind.UserTrace => 29 | Kind.MonitorCreated => 30 | Kind.MonitorDropped => 31
  | Kind.DownDelivered => 32 | Kind.LinkCreated => 33 | Kind.LinkDropped => 34 | Kind.ExitDelivered => 35
  | Kind.WorkerCancelRequested => 36 | Kind.WorkerCancelAcknowledged => 37 | Kind.WorkerDrainStarted => 38
  | Kind.WorkerDrainCompleted => 39 | Kind.WorkerFinalizeCompleted => 40
  end.

Definition pack_arena (i : ArenaIndex) : N := N.lor (N.shiftl (ai_index i) 32) (ai_generation i).
Definition pack_task (t : TaskId) : N := pack_arena (task_arena_index t).
Definition pack_region (r : RegionId) : N := pack_arena (region_arena_index r).

(** [bytes.cast_unsigned()] of an [i64]. *)
Definition cast_unsigned (z : Z) : N := Z.to_N (z mod 2 ^ 64).

(** The tuple [(u8, u64, u64, u64)]. *)
Record sort_key := mkKey { key_kind : N; primary : N; secondary : N; tertiary : N }.

Definition event_sort_key (e : TraceEvent) : sort_key :=
  let k := kind_discriminant (ev_kind e) in
  match ev_data e with
  | Data.Task task region | Data.Cancel task region _ | Data.Futurelock task region _ _ => mkKey k (pack_task task) (pack_region region) 0
  | Data.Region region parent => mkKey k (pack_region region) (match parent with Some p => pack_region p | None => 0 end) 0
  | Data.RegionCancel region _ => mkKey k (pack_region region) 0 0
  | Data.Obligation obligation task region _ _ _ _ =>
      mkKey k (pack_arena (obligation_arena_index obligation)) (pack_task task) (pack_region region)
  | Data.Time old new => mkKey k old new 0
  | Data.Timer timer_id _ => mkKey k timer_id 0 0
  | Data.IoRequested token _ | Data.IoReady token _ => mkKey k token 0 0
  | Data.IoResult token bytes => mkKey k token (N.lxor (cast_unsigned bytes) (N.shiftl 1 63)) 0
  | Data.IoError token kind => mkKey k token kind 0
  | Data.RngSeed seed => mkKey k seed 0 0
  | Data.RngValue value => mkKey k value 0 0
  | Data.Checkpoint sequence active_tasks active_regions => mkKey k sequence active_tasks active_regions
  | Data.Chaos _ task _ => mkKey k (match task with Some t => pack_task t | None => 0 end) 0 0
  | Data.Message msg => mkKey k (finish (hash_str SEED msg)) 0 0
  | Data.Monitor monitor_ref watcher _ monitored => mkKey k monitor_ref (pack_task watcher) (pack_task monitored)
  | Data.Down monitor_ref _ monitored completion_vt _ => mkKey k completion_vt (pack_task monitored) monitor_ref
  | Data.Link link_ref task_a _ task_b _ => mkKey k link_ref (pack_task task_a) (pack_task task_b)
  | Data.Exit link_ref from _ failure_vt _ => mkKey k failure_vt (pack_task from) link_ref
  | Data.Worker _ job_id _ _ task region _ => mkKey k job_id (pack_task task) (pack_region region)
  | Data.NoData => mkKey k 0 0 0
  end.

(** The derived order on tuples. *)
Definition key_cmp (a b : sort_key) : comparison :=
  match N.compare (key_kind a) (key_kind b) with
  | Eq => match N.compare (primary a) (primary b) with
          | Eq => match N.compare (secondary a) (secondary b) with
                  | Eq => N.compare (tertiary a) (tertiary b)
                  | c => c
                  end
          | c => c
          end
  | c => c
  end.

Definition event_cmp (a b : TraceEvent) : comparison := key_cmp (event_sort_key a) (event_sort_key b).

Definition semantically_equal_event (a b : TraceEvent) : bool :=
  (version a =? version b) && bool_decide (ev_kind a = ev_kind b) && bool_decide (ev_data a = ev_data b).

Definition event_hash_key (e : TraceEvent) : sort_key := event_sort_key e.
Definition hash_key (state : N) (k : sort_key) : N :=
  write_u64 (write_u64 (write_u64 (write_u8 state (key_kind k)) (primary k)) (secondary k)) (tertiary k).
