(* ===== verification/Foata.v ===== *)
(** * Canonical traces

    Models [src/trace/canonicalize.rs]: the Foata normal form of a trace (layers
    of mutually independent events, each sorted by key), its fingerprint, the
    fingerprint computed without building the form, and the trace monoid.

    The theorems: the normal form is a layering of the trace and is reached from
    it by swapping adjacent independent events; equality in the monoid is trace
    equivalence; the two fingerprints agree; concatenation satisfies the laws of
    a monoid.  They assume that the events of a trace have different sequence
    numbers, and that independent events with the same sort key have the same
    content; the last part shows where the code leaves these assumptions to
    chance. *)

From S2P Require Import Prelude Ids Clocks Cancel Outcome Obligation Bytes Trace.

(** ** The code *)

(** [slice.sort_by(cmp)]: a stable sort. *)
Section sort.
Context {A : Type} (cmp : A → A → comparison).

Fixpoint insert_by (x : A) (l : list A) : list A :=
  match l with
  | [] => [x]
  | y :: l => match cmp x y with Gt => y :: insert_by x l | _ => x :: y :: l end
  end.
Definition sort_by (l : list A) : list A := foldr insert_by [] l.

End sort.

Record FoataTrace := mkFoata { layers : list (list TraceEvent) }.

Definition depth (f : FoataTrace) : nat := length (layers f).
Definition foata_len (f : FoataTrace) : nat := sum_list (length <$> layers f).
Definition foata_is_empty (f : FoataTrace) : bool := bool_decide (layers f = []).
Definition flatten (f : FoataTrace) : list TraceEvent := concat (layers f).

(** The inner loop: [layer_of[j]] from the layers of the events before. *)
Definition layer_step (before : list (TraceEvent * nat)) (e : TraceEvent) : nat :=
  foldl (λ m p, if negb (independent p.1 e) then Nat.max m (p.2 + 1) else m) 0%nat before.

(** The outer loop: every event with its layer. *)
Fixpoint assign (before : list (TraceEvent * nat)) (events : list TraceEvent) : list (TraceEvent * nat) :=
  match events with
  | [] => before
  | e :: events => assign (before ++ [(e, layer_step before e)]) events
  end.

Definition max_layer (l : list nat) : nat := foldl Nat.max 0%nat l.

(** [layers[layer].push(x)] *)
Definition place {A} (ls : list (list A)) (p : A * nat) : list (list A) := alter (λ l, l ++ [p.1]) p.2 ls.
Definition group {A} (n : nat) (l : list (A * nat)) : list (list A) := foldl place (replicate n []) l.

Definition canonicalize (events : list TraceEvent) : FoataTrace :=
  if bool_decide (events = []) then mkFoata []
  else
    let assigned := assign [] events in
    mkFoata (sort_by event_cmp <$> group (max_layer assigned.*2 + 1) assigned).

(** Hashing of the layers: the number and length of each, then its keys. *)
Definition hash_layer (state : N) (layer_idx : nat) (keys : list sort_key) : N :=
  foldl hash_key (write_usize (write_usize state (N.of_nat layer_idx)) (N.of_nat (length keys))) keys.
Fixpoint hash_layers (state : N) (layer_idx : nat) (ls : list (list sort_key)) : N :=
  match ls with [] => state | keys :: ls => hash_layers (hash_layer state layer_idx keys) (S layer_idx) ls end.

Definition fingerprint (f : FoataTrace) : N := finish (hash_layers SEED 0 (map event_hash_key <$> layers f)).

(** The same by indices, without building the form. *)
Definition trace_fingerprint (events : list TraceEvent) : N :=
  if bool_decide (events = []) then fingerprint (mkFoata [])
  else
    let layer_of := (assign [] events).*2 in
    let layer_indices := group (max_layer layer_of + 1) (zip (seq 0 (length events)) layer_of) in
    let key idx := match events !! idx with Some e => event_hash_key e | None => mkKey 0 0 0 0 end in
    let cmp a b := match events !! a, events !! b with Some x, Some y => event_cmp x y | _, _ => Eq end in
    finish (hash_layers SEED 0 ((λ indices, map key (sort_by cmp indices)) <$> layer_indices)).

(** *** The trace monoid *)

Record TraceMonoid := mkMonoid { canonical : FoataTrace; class_fingerprint : N }.

Definition identity : TraceMonoid := mkMonoid (mkFoata []) (fingerprint (mkFoata [])).
Definition from_events (events : list TraceEvent) : TraceMonoid :=
  let c := canonicalize events in mkMonoid c (fingerprint c).
Definition is_identity (t : TraceMonoid) : bool := foata_is_empty (canonical t).

Definition monoid_concat (self other : TraceMonoid) : TraceMonoid :=
  if is_identity self then mkMonoid (mkFoata (layers (canonical other))) (class_fingerprint other)
  else if is_identity other then mkMonoid (mkFoata (layers (canonical self))) (class_fingerprint self)
  else from_events (flatten (canonical self) ++ flatten (canonical other)).

Definition critical_path_length (t : TraceMonoid) : nat := depth (canonical t).
Definition max_parallelism (t : TraceMonoid) : nat := foldl Nat.max 0%nat (length <$> layers (canonical t)).

Definition equivalent (self other : TraceMonoid) : bool := class_fingerprint self =? class_fingerprint other.

Definition layers_equal (la lb : list TraceEvent) : bool :=
  if negb (length la =? length lb)%nat then false else forallb (λ p, semantically_equal_event p.1 p.2) (zip la lb).
Definition equivalent_exact (self other : TraceMonoid) : bool :=
  if negb (depth (canonical self) =? depth (canonical other))%nat then false
  else forallb (λ p, layers_equal p.1 p.2) (zip (layers (canonical self)) (layers (canonical other))).

(** [PartialEq for TraceMonoid] *)
Definition monoid_eq (self other : TraceMonoid) : bool :=
  if negb (class_fingerprint self =? class_fingerprint other) then false else equivalent_exact self other.

(** ** Sorting *)

Definition key_le (a b : sort_key) : Prop :=
  key_kind a < key_kind b ∨ key_kind a = key_kind b ∧ (primary a < primary b ∨ primary a = primary b ∧
    (secondary a < secondary b ∨ secondary a = secondary b ∧ tertiary a ≤ tertiary b)).

Lemma key_cmp_le a b : key_cmp a b ≠ Gt ↔ key_le a b.
Proof.
  unfold key_cmp, key_le. destruct (N.compare_spec (key_kind a) (key_kind b)), (N.compare_spec (primary a) (primary b)),
    (N.compare_spec (secondary a) (secondary b)), (N.compare_spec (tertiary a) (tertiary b)); split; intros; try done; lia.
Qed.

Lemma key_cmp_gt a b : key_cmp a b = Gt → key_le b a.
Proof.
  unfold key_cmp, key_le. destruct (N.compare_spec (key_kind a) (key_kind b)), (N.compare_spec (primary a) (primary b)),
    (N.compare_spec (secondary a) (secondary b)), (N.compare_spec (tertiary a) (tertiary b)); intros; try done; lia.
Qed.

#[global] Instance key_le_trans : Transitive key_le.
Proof. intros a b c. unfold key_le. lia. Qed.
#[global] Instance key_le_antisym : AntiSymm (=) key_le.
Proof. intros [] []. unfold key_le. simpl. intros. f_equal; lia. Qed.

Section sort_facts.
Context {A : Type} (f : A → sort_key).
Let cmp (x y : A) : comparison := key_cmp (f x) (f y).

Lemma insert_by_perm x l : insert_by cmp x l ≡ₚ x :: l.
Proof. induction l as [|y l IH]; [done|]. simpl. destruct (cmp x y); [done|done|]. rewrite IH. apply perm_swap. Qed.

Lemma sort_by_perm l : sort_by cmp l ≡ₚ l.
Proof. induction l as [|x l IH]; [done|]. simpl. by rewrite insert_by_perm, IH. Qed.

Lemma insert_by_sorted x l : StronglySorted key_le (f <$> l) → StronglySorted key_le (f <$> insert_by cmp x l).
Proof.
  induction l as [|y l IH]; intros Hs; simpl; [by repeat constructor|]. inversion_clear Hs as [|? ? Hs' Hall].
  assert (Hle : cmp x y ≠ Gt → StronglySorted key_le (f x :: f y :: (f <$> l))).
  { intros Hc%key_cmp_le. constructor; [by constructor|]. constructor; [done|]. eapply Forall_impl; [exact Hall|]. intros z Hz. by trans (f y). }
  destruct (cmp x y) eqn:Hc; [by apply Hle|by apply Hle|]. simpl. constructor; [by apply IH|].
  rewrite insert_by_perm. simpl. constructor; [by apply key_cmp_gt|done].
Qed.

Lemma sort_by_sorted l : StronglySorted key_le (f <$> sort_by cmp l).
Proof. induction l as [|x l IH]; [constructor|]. simpl. by apply insert_by_sorted. Qed.

(** The keys of a sorted list are determined by the elements. *)
Lemma sort_by_keys l l' : l ≡ₚ l' → f <$> sort_by cmp l = f <$> sort_by cmp l'.
Proof.
  intros Hp. apply (StronglySorted_unique key_le); [apply sort_by_sorted..|]. by rewrite !sort_by_perm, Hp.
Qed.

End sort_facts.

Lemma insert_by_elem {A} (cmp : A → A → comparison) x l y : y ∈ insert_by cmp x l → y ∈ x :: l.
Proof.
  induction l as [|z l IH]; simpl; [done|]. destruct (cmp x z); [done|done|]. intros [->|Hy]%elem_of_cons; [right; left|].
  apply IH, elem_of_cons in Hy as [->|Hy]; [left|right; by right].
Qed.

Lemma sort_by_elem {A} (cmp : A → A → comparison) l y : y ∈ sort_by cmp l → y ∈ l.
Proof. induction l as [|x l IH]; simpl; [done|]. intros [->|Hy]%insert_by_elem%elem_of_cons; [left|right; auto]. Qed.

(** Sorting the images is sorting by the images' keys. *)
Lemma sort_by_fmap {A B} (g : A → B) (cmp : B → B → comparison) (cmp' : A → A → comparison) l :
  (∀ x y, x ∈ l → y ∈ l → cmp' x y = cmp (g x) (g y)) → g <$> sort_by cmp' l = sort_by cmp (g <$> l).
Proof.
  assert (Hins : ∀ x l, (∀ y, y ∈ l → cmp' x y = cmp (g x) (g y)) → g <$> insert_by cmp' x l = insert_by cmp (g x) (g <$> l)).
  { intros x k. induction k as [|y k IH]; intros Hk; [done|]. simpl. rewrite (Hk y) by left. destruct (cmp (g x) (g y)); [done|done|].
    rewrite fmap_cons. f_equal. apply IH. intros z Hz. apply Hk. by right. }
  induction l as [|x l IH]; intros Hl; [done|]. simpl. rewrite Hins.
  - rewrite IH; [done|]. intros y z Hy Hz. apply Hl; by right.
  - intros y Hy%sort_by_elem. apply Hl; [left|by right].
Qed.

(** ** Trace equivalence *)

Lemma accesses_conflict_sym a b : accesses_conflict a b = accesses_conflict b a.
Proof.
  unfold accesses_conflict. rewrite orb_comm. f_equal. apply bool_decide_ext. split; congruence.
Qed.

(** Some access of one list conflicts with some access of the other. *)
Definition clash (fa fb : list ResourceAccess) : bool := existsb (λ ra, existsb (accesses_conflict ra) fb) fa.

Lemma clash_spec fa fb : clash fa fb = true ↔ ∃ ra rb, ra ∈ fa ∧ rb ∈ fb ∧ accesses_conflict ra rb = true.
Proof.
  unfold clash. rewrite existsb_exists. split.
  - intros (ra & Ha & (rb & Hb & Hc)%existsb_exists). exists ra, rb. rewrite !list_elem_of_In. auto.
  - intros (ra & rb & Ha & Hb & Hc). exists ra. rewrite <-list_elem_of_In. split; [done|]. apply existsb_exists. exists rb. rewrite <-list_elem_of_In. auto.
Qed.

Lemma clash_sym fa fb : clash fa fb = clash fb fa.
Proof.
  destruct (clash fa fb) eqn:H1, (clash fb fa) eqn:H2; try done; exfalso.
  - apply clash_spec in H1 as (ra & rb & Ha & Hb & Hc). assert (clash fb fa = true); [|congruence]. apply clash_spec. exists rb, ra. by rewrite accesses_conflict_sym.
  - apply clash_spec in H2 as (ra & rb & Ha & Hb & Hc). assert (clash fa fb = true); [|congruence]. apply clash_spec. exists rb, ra. by rewrite accesses_conflict_sym.
Qed.

(** Independence: different events without a conflict. *)
Lemma independent_spec a b : independent a b = negb (seq_no a =? seq_no b) && negb (clash (resource_footprint a) (resource_footprint b)).
Proof.
  unfold independent. destruct (seq_no a =? seq_no b); [done|]. cbn [negb andb]. fold (clash (resource_footprint a) (resource_footprint b)).
  destruct (bool_decide (resource_footprint a = [])) eqn:Ha; cbn [orb].
  - apply bool_decide_eq_true in Ha as ->. done.
  - destruct (bool_decide (resource_footprint b = [])) eqn:Hb; [|done]. apply bool_decide_eq_true in Hb as ->. rewrite clash_sym. done.
Qed.

Lemma independent_sym a b : independent a b = independent b a.
Proof. rewrite !independent_spec, clash_sym, (N.eqb_sym (seq_no a)). done. Qed.

(** Reachable by swaps of adjacent independent events. *)
Inductive trace_equiv : list TraceEvent → list TraceEvent → Prop :=
  | te_nil : trace_equiv [] []
  | te_skip x l l' : trace_equiv l l' → trace_equiv (x :: l) (x :: l')
  | te_swap x y l : independent x y = true → trace_equiv (x :: y :: l) (y :: x :: l)
  | te_trans l1 l2 l3 : trace_equiv l1 l2 → trace_equiv l2 l3 → trace_equiv l1 l3.

#[global] Instance trace_equiv_refl : Reflexive trace_equiv.
Proof. intros l. induction l; by constructor. Qed.
#[global] Instance trace_equiv_trans : Transitive trace_equiv.
Proof. intros l1 l2 l3. apply te_trans. Qed.
#[global] Instance trace_equiv_sym : Symmetric trace_equiv.
Proof. induction 1; [constructor|by constructor|by apply te_swap; rewrite independent_sym|by etrans]. Qed.

Lemma trace_equiv_perm l l' : trace_equiv l l' → l ≡ₚ l'.
Proof. induction 1; [done|by constructor|apply perm_swap|by etrans]. Qed.

Lemma trace_equiv_app_head k l l' : trace_equiv l l' → trace_equiv (k ++ l) (k ++ l').
Proof. intros H. induction k; [done|]. by apply te_skip. Qed.

Lemma trace_equiv_app_tail k l l' : trace_equiv l l' → trace_equiv (l ++ k) (l' ++ k).
Proof. induction 1; simpl; [done|by apply te_skip|by apply te_swap|by etrans]. Qed.

#[global] Instance trace_equiv_app : Proper (trace_equiv ==> trace_equiv ==> trace_equiv) app.
Proof. intros l1 l1' H1 l2 l2' H2. etrans; [by apply trace_equiv_app_tail|by apply trace_equiv_app_head]. Qed.

Lemma trace_equiv_concat ls ls' : Forall2 trace_equiv ls ls' → trace_equiv (concat ls) (concat ls').
Proof. induction 1 as [|l l' ls ls' Hl _ IH]; simpl; [done|]. by rewrite Hl, IH. Qed.

(** An event moves to the front of events it is independent of. *)
Lemma trace_equiv_move l e : (∀ x, x ∈ l → independent x e = true) → trace_equiv (l ++ [e]) (e :: l).
Proof.
  induction l as [|x l IH]; intros Hi; [done|]. simpl. etrans; [apply te_skip, IH; intros y Hy; apply Hi; by right|].
  apply te_swap, Hi. left.
Qed.

(** Mutually independent events may be permuted. *)
Lemma trace_equiv_shuffle l l' : l ≡ₚ l' → NoDup (seq_no <$> l) →
  (∀ x y, x ∈ l → y ∈ l → seq_no x ≠ seq_no y → independent x y = true) → trace_equiv l l'.
Proof.
  intros Hp. induction Hp as [|x l l' Hp IH|x y l|l1 l2 l3 Hp1 IH1 Hp2 IH2]; intros Hnd Hi.
  - constructor.
  - apply te_skip, IH; [by apply NoDup_cons in Hnd as [_ ?]|]. intros a b Ha Hb. apply Hi; by right.
  - apply te_swap, Hi; [left|right; left|]. simpl in Hnd. apply NoDup_cons in Hnd as [Hn _]. intros Heq. apply Hn. rewrite Heq. left.
  - etrans; [by apply IH1|]. apply IH2; [by rewrite <-Hp1|]. intros a b Ha Hb. apply Hi; by rewrite Hp1.
Qed.

(** ** Layers *)

Notation assigned w := (assign [] w).

Lemma layer_step_le before e k : (layer_step before e ≤ k)%nat ↔ ∀ p, p ∈ before → independent p.1 e = false → (p.2 + 1 ≤ k)%nat.
Proof.
  unfold layer_step. assert (Hg : ∀ l m, (foldl (λ m (p : TraceEvent * nat), if negb (independent p.1 e) then Nat.max m (p.2 + 1) else m) m l ≤ k)%nat ↔
    (m ≤ k)%nat ∧ ∀ p, p ∈ l → independent p.1 e = false → (p.2 + 1 ≤ k)%nat).
  { induction l as [|q l IH]; intros m; simpl; [split; [intros; split; [done|by intros p ?%not_elem_of_nil]|by intros []]|].
    rewrite IH. split.
    - intros [Hm Hl]. destruct (independent q.1 e) eqn:Hq; simpl in Hm; (split; [lia|]); intros p [->|Hp]%elem_of_cons Hd; [congruence|auto|lia|auto].
    - intros [Hm Hl]. split; [|intros p Hp; apply Hl; by right]. destruct (independent q.1 e) eqn:Hq; simpl; [done|]. specialize (Hl q ltac:(left) Hq). lia. }
  rewrite Hg. naive_solver lia.
Qed.

Lemma layer_step_ge before e p : p ∈ before → independent p.1 e = false → (p.2 + 1 ≤ layer_step before e)%nat.
Proof. intros Hp Hd. by apply (proj1 (layer_step_le before e (layer_step before e)) (le_n _)). Qed.

Lemma layer_step_perm before before' e : before ≡ₚ before' → layer_step before e = layer_step before' e.
Proof. intros Hp. apply Nat.le_antisymm; apply layer_step_le; intros p Hin; apply layer_step_ge; by rewrite ?Hp in *. Qed.

Lemma assign_app before l l' : assign before (l ++ l') = assign (assign before l) l'.
Proof. revert before. induction l as [|e l IH]; intros before; [done|]. apply IH. Qed.

Lemma assign_perm before before' l : before ≡ₚ before' → assign before l ≡ₚ assign before' l.
Proof.
  revert before before'. induction l as [|e l IH]; intros before before' Hp; [done|]. simpl. apply IH. by rewrite (layer_step_perm _ _ _ Hp), Hp.
Qed.

Lemma layer_step_independent before x n e : independent x e = true → layer_step (before ++ [(x, n)]) e = layer_step before e.
Proof.
  intros Hi. unfold layer_step. rewrite foldl_app. simpl. by rewrite Hi.
Qed.

(** Equivalent traces give every event the same layer. *)
Lemma assign_equiv l l' before : trace_equiv l l' → assign before l ≡ₚ assign before l'.
Proof.
  intros He. revert before. induction He as [|x l l' He IH|x y l Hi|l1 l2 l3 _ IH1 _ IH2]; intros before; simpl.
  - done.
  - apply IH.
  - apply assign_perm. rewrite (layer_step_independent _ x _ y), (layer_step_independent _ y _ x) by (done || by rewrite independent_sym).
    rewrite <-!app_assoc. apply Permutation_app_head. simpl. apply perm_swap.
  - etrans; [apply IH1|apply IH2].
Qed.

Lemma assign_fst before l : (assign before l).*1 = before.*1 ++ l.
Proof.
  revert before. induction l as [|e l IH]; intros before; simpl; [by rewrite app_nil_r|]. rewrite IH, fmap_app, <-app_assoc. done.
Qed.

Lemma assigned_snoc l e : assigned (l ++ [e]) = assigned l ++ [(e, layer_step (assigned l) e)].
Proof. by rewrite assign_app. Qed.

(** The layers of a trace: dependent events are in increasing layers, and an
    event above the bottom depends on one in the layer below. *)
Lemma assigned_order l i j p q : assigned l !! i = Some p → assigned l !! j = Some q → (i < j)%nat → independent p.1 q.1 = false → (p.2 < q.2)%nat.
Proof.
  revert i j p q. induction l as [|e l IH] using rev_ind; intros i j p q; [done|]. rewrite assigned_snoc.
  intros Hi [[_ Hj]|[-> <-]]%lookup_snoc_Some Hij Hd.
  - rewrite lookup_app_l in Hi by (apply lookup_lt_Some in Hj; lia). by eapply IH.
  - rewrite lookup_app_l in Hi by done. apply list_elem_of_lookup_2 in Hi. simpl in *. pose proof (layer_step_ge _ _ _ Hi Hd). lia.
Qed.

Lemma layer_step_reached before e k : layer_step before e = S k → ∃ p, p ∈ before ∧ independent p.1 e = false ∧ p.2 = k.
Proof.
  intros Hk. destruct (decide (Exists (λ p, independent p.1 e = false ∧ p.2 = k) before)) as [Hex|Hno].
  - apply Exists_exists in Hex as (p & Hp & Hd & Hpk). eauto.
  - exfalso. assert (layer_step before e ≤ k)%nat; [|lia]. apply layer_step_le. intros p Hp Hd.
    pose proof (layer_step_ge _ _ _ Hp Hd) as Hge. destruct (decide (p.2 = k)) as [Heq|]; [|lia]. exfalso. apply Hno, Exists_exists. eauto.
Qed.

Lemma assigned_below l q k : q ∈ assigned l → q.2 = S k → ∃ p, p ∈ assigned l ∧ independent p.1 q.1 = false ∧ p.2 = k.
Proof.
  induction l as [|e l IH] using rev_ind; [by intros ?%not_elem_of_nil|]. rewrite assigned_snoc. intros [Hq|Hq]%elem_of_app Hk.
  - destruct (IH Hq Hk) as (p & Hp & ?). exists p. split; [apply elem_of_app; by left|done].
  - apply list_elem_of_singleton in Hq as ->. simpl in *. destruct (layer_step_reached _ _ _ Hk) as (p & Hp & ?). exists p. split; [apply elem_of_app; by left|done].
Qed.

(** ** The normal form *)

Definition layer_list {A} (l : list (A * nat)) (k : nat) : list A := (filter (λ p, p.2 = k) l).*1.

Lemma layer_list_snoc {A} (l : list (A * nat)) p k : layer_list (l ++ [p]) k = layer_list l k ++ (if decide (p.2 = k) then [p.1] else []).
Proof. unfold layer_list. rewrite filter_app, fmap_app. f_equal. rewrite filter_cons. by case_decide. Qed.

Lemma layer_list_elem {A} (l : list (A * nat)) k x : x ∈ layer_list l k ↔ (x, k) ∈ l.
Proof.
  unfold layer_list. rewrite list_elem_of_fmap. split.
  - intros ([y k'] & -> & [Hk Hin]%list_elem_of_filter). simpl in *. by subst.
  - intros Hin. exists (x, k). split; [done|]. by apply list_elem_of_filter.
Qed.

Lemma group_eq {A} n (l : list (A * nat)) : (∀ p, p ∈ l → (p.2 < n)%nat) → group n l = layer_list l <$> seq 0 n.
Proof.
  induction l as [|p l IH] using rev_ind; intros Hn.
  - unfold group. simpl. apply list_eq. intros i. rewrite list_lookup_fmap. destruct (decide (i < n)%nat).
    + rewrite lookup_replicate_2, lookup_seq_lt by done. done.
    + rewrite lookup_ge_None_2 by (rewrite length_replicate; lia). rewrite lookup_seq_ge by lia. done.
  - unfold group. rewrite foldl_app. fold (group n l). rewrite IH by (intros q Hq; apply Hn, elem_of_app; by left). simpl. unfold place.
    pose proof (Hn p ltac:(apply elem_of_app; right; left)) as Hp. apply list_eq. intros i.
    destruct (decide (i = p.2)) as [->|Hne].
    + rewrite list_lookup_alter_eq, !list_lookup_fmap, lookup_seq_lt by done. simpl. by rewrite layer_list_snoc, decide_True.
    + rewrite list_lookup_alter_ne, !list_lookup_fmap by done. destruct (decide (i < n)%nat).
      * rewrite lookup_seq_lt by done. simpl. by rewrite layer_list_snoc, decide_False, app_nil_r.
      * by rewrite lookup_seq_ge by lia.
Qed.

Lemma max_layer_le l k : (max_layer l ≤ k)%nat ↔ ∀ x, x ∈ l → (x ≤ k)%nat.
Proof.
  unfold max_layer. assert (Hg : ∀ l m, (foldl Nat.max m l ≤ k)%nat ↔ (m ≤ k)%nat ∧ ∀ x, x ∈ l → (x ≤ k)%nat).
  { intros l'. induction l' as [|y l' IH]; intros m; simpl; [split; [intros; split; [done|by intros x ?%not_elem_of_nil]|by intros []]|].
    rewrite IH. split; [intros [H1 H2]; split; [lia|]; intros x [->|Hx]%elem_of_cons; [lia|auto]|].
    intros [H1 H2]. split; [|intros x Hx; apply H2; by right]. specialize (H2 y ltac:(left)). lia. }
  rewrite Hg. naive_solver lia.
Qed.

Lemma max_layer_perm l l' : l ≡ₚ l' → max_layer l = max_layer l'.
Proof. intros Hp. apply Nat.le_antisymm; apply max_layer_le; intros x Hx; apply (proj1 (max_layer_le _ _) (le_n _)); by rewrite ?Hp in *. Qed.

Lemma max_layer_elem l : l ≠ [] → max_layer l ∈ l.
Proof.
  intros Hne. destruct (decide (max_layer l ∈ l)) as [|Hno]; [done|]. exfalso. destruct (max_layer l) as [|k] eqn:Hk.
  - destruct l as [|x l]; [done|]. assert (x ≤ max_layer (x :: l))%nat by (apply (proj1 (max_layer_le _ _) (le_n _)); left). apply Hno.
    assert (x = 0%nat) as -> by lia. left.
  - assert (max_layer l ≤ k)%nat; [|lia]. apply max_layer_le. intros x Hx. assert (x ≤ max_layer l)%nat by (by apply (proj1 (max_layer_le _ _) (le_n _))).
    destruct (decide (x = S k)) as [->|]; [done|lia].
Qed.

(** The number of layers, and the layers before they are sorted. *)
Definition height (w : list TraceEvent) : nat := match w with [] => 0%nat | _ => (max_layer (assigned w).*2 + 1)%nat end.

Lemma canonicalize_eq w : layers (canonicalize w) = (λ k, sort_by event_cmp (layer_list (assigned w) k)) <$> seq 0 (height w).
Proof.
  unfold canonicalize, height. destruct w as [|e w]; [done|]. rewrite bool_decide_false by done. cbn [layers]. rewrite group_eq, <-list_fmap_compose; [done|].
  intros p Hp. assert (p.2 ≤ max_layer (assigned (e :: w)).*2)%nat; [|lia]. apply (proj1 (max_layer_le _ _) (le_n _)). by apply list_elem_of_fmap_2.
Qed.

Lemma height_bound w p : p ∈ assigned w → (p.2 < height w)%nat.
Proof.
  destruct w as [|e w]; [by intros ?%not_elem_of_nil|]. intros Hp. unfold height.
  assert (p.2 ≤ max_layer (assigned (e :: w)).*2)%nat; [|lia]. apply (proj1 (max_layer_le _ _) (le_n _)). by apply list_elem_of_fmap_2.
Qed.

(** Every layer is inhabited. *)
Lemma layers_inhabited w k : (k < height w)%nat → ∃ e, (e, k) ∈ assigned w.
Proof.
  intros Hk. destruct w as [|e0 w]; [simpl in Hk; lia|]. unfold height in Hk.
  assert (Htop : ∃ p, p ∈ assigned (e0 :: w) ∧ (k ≤ p.2)%nat).
  { assert (Hin : max_layer (assigned (e0 :: w)).*2 ∈ (assigned (e0 :: w)).*2).
    { apply max_layer_elem. intros Hnil%(f_equal length). rewrite length_fmap, <-(length_fmap fst), assign_fst in Hnil. done. }
    apply list_elem_of_fmap in Hin as (p & Hp & Hin). exists p. split; [done|]. lia. }
  destruct Htop as (p & Hp & Hle). remember (p.2 - k)%nat as d eqn:Hd. revert p Hp Hle Hd. induction d as [|d IH]; intros p Hp Hle Hd.
  - exists p.1. assert (p.2 = k) as <- by lia. by destruct p.
  - destruct (p.2) as [|m] eqn:Hpm; [lia|]. destruct (assigned_below _ _ _ Hp Hpm) as (q & Hq & _ & Hqm). apply (IH q Hq); lia.
Qed.

(** Same layer, different events: independent. *)
Lemma same_layer_independent w x y k : NoDup (seq_no <$> w) → (x, k) ∈ assigned w → (y, k) ∈ assigned w → seq_no x ≠ seq_no y → independent x y = true.
Proof.
  intros Hnd (i & Hi)%list_elem_of_lookup (j & Hj)%list_elem_of_lookup Hne. destruct (independent x y) eqn:Hd; [done|]. exfalso.
  destruct (Nat.lt_trichotomy i j) as [Hij|[->|Hij]].
  - pose proof (assigned_order _ _ _ _ _ Hi Hj Hij Hd). simpl in *. lia.
  - congruence.
  - rewrite independent_sym in Hd. pose proof (assigned_order _ _ _ _ _ Hj Hi Hij Hd). simpl in *. lia.
Qed.

Lemma layer_list_nodup w k : NoDup (seq_no <$> w) → NoDup (seq_no <$> layer_list (assigned w) k).
Proof.
  intros Hnd. replace w with ((assigned w).*1) in Hnd by apply (assign_fst []). unfold layer_list.
  eapply sublist_NoDup; [exact Hnd|]. apply fmap_sublist, fmap_sublist, sublist_filter.
Qed.

(** The layers, in order, are an equivalent arrangement of the trace. *)
Lemma layered_equiv w n : (height w ≤ n)%nat → trace_equiv w (concat (layer_list (assigned w) <$> seq 0 n)).
Proof.
  revert n. induction w as [|e w IH] using rev_ind; intros n Hn.
  - clear. assert (Hnil : ∀ s, concat (layer_list (assigned []) <$> seq s n) = []) by (induction n as [|n IHn]; intros s; simpl; [done|apply IHn]). by rewrite Hnil.
  - set (k := layer_step (assigned w) e). assert (Hin : (e, k) ∈ assigned (w ++ [e])) by (rewrite assigned_snoc; apply elem_of_app; right; left).
    pose proof (height_bound _ _ Hin) as Hk. simpl in Hk.
    assert (Hw : (height w ≤ n)%nat).
    { destruct w as [|e0 w']; [simpl; lia|]. unfold height in *. destruct ((e0 :: w') ++ [e]) as [|? ?] eqn:Heq; [done|]. rewrite <-Heq in *.
      assert (max_layer (assigned (e0 :: w')).*2 ≤ max_layer (assigned ((e0 :: w') ++ [e])).*2)%nat; [|lia].
      apply max_layer_le. intros x Hx. apply (proj1 (max_layer_le _ _) (le_n _)). rewrite assigned_snoc, fmap_app. apply elem_of_app. by left. }
    etrans; [apply trace_equiv_app_tail, (IH n Hw)|].
    replace n with (S k + (n - S k))%nat by lia. rewrite !seq_app, !fmap_app, !concat_app, <-app_assoc.
    assert (Hhi : layer_list (assigned (w ++ [e])) <$> seq (0 + S k) (n - S k) = layer_list (assigned w) <$> seq (0 + S k) (n - S k)).
    { apply list_fmap_ext. intros i x Hx. apply lookup_seq in Hx as [-> Hx]. rewrite assigned_snoc, layer_list_snoc, decide_False, app_nil_r; [done|]. simpl. fold k. lia. }
    assert (Hlo : concat (layer_list (assigned (w ++ [e])) <$> seq 0 (S k)) = concat (layer_list (assigned w) <$> seq 0 (S k)) ++ [e]).
    { rewrite seq_S, !fmap_app, !concat_app. simpl. rewrite !app_nil_r, <-app_assoc. f_equal.
      - f_equal. apply list_fmap_ext. intros i x Hx. apply lookup_seq in Hx as [-> Hx]. rewrite assigned_snoc, layer_list_snoc, decide_False, app_nil_r; [done|]. simpl. fold k. lia.
      - by rewrite assigned_snoc, layer_list_snoc, decide_True. }
    rewrite Hhi, Hlo, <-app_assoc. apply trace_equiv_app_head. apply trace_equiv_move. intros x Hx.
    apply list_elem_of_In, in_concat in Hx as (ly & Hly & Hx). apply list_elem_of_In, list_elem_of_fmap in Hly as (m & -> & Hm). apply elem_of_seq in Hm.
    apply list_elem_of_In, layer_list_elem in Hx. destruct (independent x e) eqn:Hd; [done|]. pose proof (layer_step_ge _ _ _ Hx Hd) as Hge. fold k in Hge. simpl in Hge. lia.
Qed.

(** The normal form is equivalent to the trace. *)
Lemma flatten_equiv w : NoDup (seq_no <$> w) → trace_equiv w (flatten (canonicalize w)).
Proof.
  intros Hnd. unfold flatten. rewrite canonicalize_eq. etrans; [by apply layered_equiv|]. apply trace_equiv_concat.
  induction (seq 0 (height w)) as [|k ks IH]; constructor; [|done]. apply trace_equiv_shuffle.
  - symmetry. apply (sort_by_perm event_sort_key).
  - by apply layer_list_nodup.
  - intros x y Hx%layer_list_elem Hy%layer_list_elem. by apply (same_layer_independent w x y k).
Qed.

(** ** Content *)

Notation same_content a b := (semantically_equal_event a b = true).
Notation same_layers := (Forall2 (Forall2 (λ a b, same_content a b))).

Lemma same_content_spec a b : same_content a b ↔ version a = version b ∧ ev_kind a = ev_kind b ∧ ev_data a = ev_data b.
Proof. unfold semantically_equal_event. rewrite !andb_true_iff, N.eqb_eq, !bool_decide_eq_true. tauto. Qed.

Lemma same_content_refl a : same_content a a.
Proof. by apply same_content_spec. Qed.

Lemma same_content_key a b : same_content a b → event_sort_key a = event_sort_key b.
Proof. intros (_ & Hk & Hd)%same_content_spec. unfold event_sort_key. by rewrite Hk, Hd. Qed.

Lemma same_content_footprint a b : same_content a b → resource_footprint a = resource_footprint b.
Proof. intros (_ & Hk & Hd)%same_content_spec. unfold resource_footprint. by rewrite Hk, Hd. Qed.

Lemma same_content_independent a b a' b' : same_content a a' → same_content b b' → seq_no a ≠ seq_no b → seq_no a' ≠ seq_no b' →
  independent a b = independent a' b'.
Proof.
  intros Ha%same_content_footprint Hb%same_content_footprint Hn Hn'. rewrite !independent_spec, Ha, Hb.
  by rewrite (proj2 (N.eqb_neq _ _) Hn), (proj2 (N.eqb_neq _ _) Hn').
Qed.

Lemma layers_equal_spec la lb : layers_equal la lb = true ↔ Forall2 (λ a b, same_content a b) la lb.
Proof.
  unfold layers_equal. revert lb. induction la as [|a la IH]; intros [|b lb]; simpl;
    [split; [constructor|done]|split; [done|by inversion 1]|split; [done|by inversion 1]|].
  specialize (IH lb). destruct (length la =? length lb)%nat; simpl in *.
  - rewrite andb_true_iff, IH. split; [intros []; by constructor|intros Hf; inversion Hf; auto].
  - split; [done|]. intros Hf. inversion Hf. tauto.
Qed.

Lemma equivalent_exact_spec a b : equivalent_exact a b = true ↔ same_layers (layers (canonical a)) (layers (canonical b)).
Proof.
  unfold equivalent_exact, depth. generalize (layers (canonical a)) (layers (canonical b)). intros la. induction la as [|x la IH]; intros [|y lb]; simpl;
    [split; [constructor|done]|split; [done|by inversion 1]|split; [done|by inversion 1]|].
  specialize (IH lb). destruct (length la =? length lb)%nat; simpl in *.
  - rewrite andb_true_iff, IH, layers_equal_spec. split; [intros []; by constructor|intros Hf; inversion Hf; auto].
  - split; [done|]. intros Hf. inversion Hf. tauto.
Qed.

(** The fingerprint is a function of the keys, which the content determines. *)
Lemma fingerprint_keys f g : (map event_hash_key <$> layers f) = (map event_hash_key <$> layers g) → fingerprint f = fingerprint g.
Proof. unfold fingerprint. by intros ->. Qed.

Lemma same_layers_keys la lb : same_layers la lb → map event_hash_key <$> la = map event_hash_key <$> lb.
Proof.
  induction 1 as [|x y la lb Hxy _ IH]; [done|]. rewrite !fmap_cons. f_equal; [|done]. clear -Hxy.
  induction Hxy as [|a b x y Hab _ IH]; [done|]. simpl. f_equal; [by apply same_content_key|done].
Qed.

Lemma monoid_eq_spec w w' : monoid_eq (from_events w) (from_events w') = true ↔ same_layers (layers (canonicalize w)) (layers (canonicalize w')).
Proof.
  unfold monoid_eq. rewrite <-(equivalent_exact_spec (from_events w) (from_events w')). split; [by destruct (negb _)|]. intros Hex.
  pose proof (proj1 (equivalent_exact_spec _ _) Hex) as Hl. simpl in Hl.
  change (class_fingerprint (from_events w)) with (fingerprint (canonicalize w)). change (class_fingerprint (from_events w')) with (fingerprint (canonicalize w')).
  rewrite (fingerprint_keys _ _ (same_layers_keys _ _ Hl)), N.eqb_refl. done.
Qed.

(** ** Invariance *)

(** Independent events with the same key have the same content. *)
Definition ties_ok (w : list TraceEvent) : Prop :=
  ∀ a b, a ∈ w → b ∈ w → independent a b = true → event_sort_key a = event_sort_key b → same_content a b.

Lemma keys_Forall2 {A} (f : A → sort_key) (R : A → A → Prop) l l' : f <$> l = f <$> l' →
  (∀ x y, x ∈ l → y ∈ l' → f x = f y → R x y) → Forall2 R l l'.
Proof.
  revert l'. induction l as [|x l IH]; intros [|y l'] Heq HR; [constructor|done|done|]. rewrite !fmap_cons in Heq. injection Heq as Hxy Heq.
  constructor; [apply HR; [left|left|done]|]. apply IH; [done|]. intros a b Ha Hb. apply HR; by right.
Qed.

Lemma unique_by_seq w x y : NoDup (seq_no <$> w) → x ∈ w → y ∈ w → seq_no x = seq_no y → x = y.
Proof.
  intros Hnd (i & Hi)%list_elem_of_lookup (j & Hj)%list_elem_of_lookup Heq. assert (i = j); [|congruence].
  eapply NoDup_lookup; [exact Hnd|rewrite list_lookup_fmap, Hi; done|rewrite list_lookup_fmap, Hj; simpl; by rewrite Heq].
Qed.

Lemma assigned_elem w x k : (x, k) ∈ assigned w → x ∈ w.
Proof. intros Hx. pose proof (assign_fst [] w) as Hf. simpl in Hf. rewrite <-Hf. apply list_elem_of_fmap. by exists (x, k). Qed.

Lemma canonicalize_equiv w w' : trace_equiv w w' → NoDup (seq_no <$> w) → ties_ok w → same_layers (layers (canonicalize w)) (layers (canonicalize w')).
Proof.
  intros He Hnd Ht. pose proof (assign_equiv w w' [] He) as Hp. rewrite !canonicalize_eq.
  assert (Hh : height w = height w').
  { unfold height. destruct w as [|x w], w' as [|y w']; try done; [apply trace_equiv_perm, Permutation_nil_l in He; done|
      apply trace_equiv_perm, Permutation_nil_r in He; done|]. f_equal. apply max_layer_perm. by rewrite Hp. }
  rewrite Hh. induction (seq 0 (height w')) as [|k ks IH]; constructor; [|done].
  assert (Hl : layer_list (assigned w) k ≡ₚ layer_list (assigned w') k) by (unfold layer_list; by rewrite Hp).
  apply (keys_Forall2 event_sort_key); [by apply (sort_by_keys event_sort_key)|].
  intros x y Hx Hy Hk. unfold event_cmp in Hx, Hy. rewrite (sort_by_perm event_sort_key) in Hx. rewrite (sort_by_perm event_sort_key), <-Hl in Hy.
  apply layer_list_elem in Hx, Hy. destruct (decide (seq_no x = seq_no y)) as [Heq|Hne].
  - rewrite (unique_by_seq w x y); [apply same_content_refl|done|by eapply assigned_elem..|done].
  - apply Ht; [by eapply assigned_elem..| |done]. by apply (same_layer_independent w x y k).
Qed.

(** *** Traces with the same content *)

Lemma layer_step_sim A B e e' : Forall2 (λ p q, p.2 = q.2 ∧ independent p.1 e = independent q.1 e') A B → layer_step A e = layer_step B e'.
Proof.
  intros Hf. unfold layer_step.
  assert (Hm : ∀ m, foldl (λ m (p : TraceEvent * nat), if negb (independent p.1 e) then Nat.max m (p.2 + 1) else m) m A =
    foldl (λ m (p : TraceEvent * nat), if negb (independent p.1 e') then Nat.max m (p.2 + 1) else m) m B); [|apply Hm].
  induction Hf as [|p q A B [H1 H2] _ IH]; intros m; [done|]. simpl. rewrite H1, H2. apply IH.
Qed.

Lemma assigned_sim u v : Forall2 (λ a b, same_content a b) u v → NoDup (seq_no <$> u) → NoDup (seq_no <$> v) →
  Forall2 (λ p q, same_content p.1 q.1 ∧ p.2 = q.2) (assigned u) (assigned v).
Proof.
  revert v. induction u as [|e u IH] using rev_ind; intros v Hf Hu Hv; [by apply Forall2_nil_inv_l in Hf as ->; constructor|].
  apply Forall2_app_inv_l in Hf as (v' & l & Hf & Hl & ->). apply Forall2_cons_inv_l in Hl as (e' & l' & He & Hl & ->). apply Forall2_nil_inv_l in Hl as ->.
  rewrite fmap_app in Hu, Hv. apply NoDup_app in Hu as (Hu & Hue & _), Hv as (Hv & Hve & _). specialize (IH v' Hf Hu Hv).
  rewrite !assigned_snoc. apply Forall2_app; [done|]. constructor; [|constructor]. split; [done|]. simpl. apply layer_step_sim.
  apply Forall2_same_length_lookup. apply Forall2_same_length_lookup in IH as [Hlen IH]. split; [done|]. intros i p q Hp Hq.
  destruct (IH i p q Hp Hq) as [Hc Hk]. split; [done|]. apply same_content_independent; [done|done|..].
  - intros Heq. apply (Hue (seq_no e)); [|left]. rewrite <-Heq. apply list_elem_of_fmap_2. apply list_elem_of_lookup_2 in Hp. destruct p as [x k]. by eapply assigned_elem.
  - intros Heq. apply (Hve (seq_no e')); [|left]. rewrite <-Heq. apply list_elem_of_fmap_2. apply list_elem_of_lookup_2 in Hq. destruct q as [x k]. by eapply assigned_elem.
Qed.

Lemma insert_by_sim a b l l' : same_content a b → Forall2 (λ a b, same_content a b) l l' →
  Forall2 (λ a b, same_content a b) (insert_by event_cmp a l) (insert_by event_cmp b l').
Proof.
  intros Hab Hl. induction Hl as [|x y l l' Hxy Hl IH]; simpl; [by repeat constructor|]. unfold event_cmp at 1 3.
  rewrite (same_content_key _ _ Hab), (same_content_key _ _ Hxy). destruct (key_cmp _ _); by repeat constructor.
Qed.

Lemma sort_by_sim l l' : Forall2 (λ a b, same_content a b) l l' → Forall2 (λ a b, same_content a b) (sort_by event_cmp l) (sort_by event_cmp l').
Proof. induction 1 as [|x y l l' Hxy Hl IH]; simpl; [constructor|]. by apply insert_by_sim. Qed.

Lemma canonicalize_sim u v : Forall2 (λ a b, same_content a b) u v → NoDup (seq_no <$> u) → NoDup (seq_no <$> v) →
  same_layers (layers (canonicalize u)) (layers (canonicalize v)).
Proof.
  intros Hf Hu Hv. pose proof (assigned_sim u v Hf Hu Hv) as Ha. rewrite !canonicalize_eq.
  assert (Hh : height u = height v).
  { assert (Hs : (assigned u).*2 = (assigned v).*2).
    { clear -Ha. induction Ha as [|p q A B [_ Hpq] _ IH]; [done|]. rewrite !fmap_cons. by f_equal. }
    unfold height. destruct u, v; try done; [by inversion Hf|by inversion Hf|]. by rewrite Hs. }
  rewrite Hh. induction (seq 0 (height v)) as [|k ks IH]; constructor; [|done]. apply sort_by_sim. clear -Ha. unfold layer_list.
  induction Ha as [|[x i] [y j] A B [Hc Hij] _ IH]; simpl in *; [constructor|]. subst j. rewrite !filter_cons. simpl. case_decide; [by constructor|done].
Qed.

Lemma same_layers_trans la lb lc : same_layers la lb → same_layers lb lc → same_layers la lc.
Proof.
  assert (Ht : Transitive (λ a b, same_content a b)) by (intros a b c; rewrite !same_content_spec; intros (? & ? & ?) (? & ? & ?); split_and!; congruence).
  intros H1 H2. by trans lb.
Qed.

Lemma same_layers_sym la lb : same_layers la lb → same_layers lb la.
Proof.
  assert (Ht : Symmetric (λ a b, same_content a b)) by (intros a b; rewrite !same_content_spec; intros (? & ? & ?); split_and!; congruence).
  intros H1. by symmetry.
Qed.

Lemma same_layers_flatten la lb : same_layers la lb → Forall2 (λ a b, same_content a b) (concat la) (concat lb).
Proof. induction 1 as [|x y la lb Hxy _ IH]; simpl; [constructor|]. by apply Forall2_app. Qed.

Lemma equiv_nodup w w' : trace_equiv w w' → NoDup (seq_no <$> w) → NoDup (seq_no <$> w').
Proof. intros He%trace_equiv_perm. by rewrite He. Qed.

Lemma equiv_ties w w' : trace_equiv w w' → ties_ok w → ties_ok w'.
Proof. intros He%trace_equiv_perm Ht a b Ha Hb. rewrite <-He in Ha, Hb. by apply Ht. Qed.

(** Traces with the same content have the same ties. *)
Lemma sim_ties u v : Forall2 (λ a b, same_content a b) u v → NoDup (seq_no <$> u) → ties_ok u → ties_ok v.
Proof.
  intros Hf Hnd Ht a b (i & Hi)%list_elem_of_lookup (j & Hj)%list_elem_of_lookup Hab Hk.
  destruct (Forall2_lookup_r _ _ _ _ _ Hf Hi) as (a' & Hi' & Ha), (Forall2_lookup_r _ _ _ _ _ Hf Hj) as (b' & Hj' & Hb).
  assert (Hne : seq_no a ≠ seq_no b) by (intros Heq; rewrite independent_spec, Heq, N.eqb_refl in Hab; done).
  assert (Hne' : seq_no a' ≠ seq_no b').
  { intros Heq. assert (a' = b') by (apply (unique_by_seq u); [done|by eapply list_elem_of_lookup_2..|done]). subst b'.
    assert (i = j); [|congruence]. eapply NoDup_lookup; [exact Hnd|rewrite list_lookup_fmap, Hi'; done|rewrite list_lookup_fmap, Hj'; done]. }
  assert (Hc : same_content a' b').
  { apply Ht; [by eapply list_elem_of_lookup_2..| |].
    - by rewrite (same_content_independent a' b' a b).
    - by rewrite (same_content_key _ _ Ha), (same_content_key _ _ Hb). }
  rewrite same_content_spec in Ha, Hb, Hc |- *. destruct Ha as (? & ? & ?), Hb as (? & ? & ?), Hc as (? & ? & ?). split_and!; congruence.
Qed.

(** Equal up to swaps of independent events and renumbering. *)
Definition same_trace (w w' : list TraceEvent) : Prop :=
  ∃ u v, trace_equiv w u ∧ Forall2 (λ a b, same_content a b) u v ∧ trace_equiv v w'.

Lemma monoid_eq_complete w w' : NoDup (seq_no <$> w) → NoDup (seq_no <$> w') → ties_ok w → same_trace w w' →
  monoid_eq (from_events w) (from_events w') = true.
Proof.
  intros Hw Hw' Ht (u & v & Hu & Huv & Hv). apply monoid_eq_spec.
  pose proof (equiv_nodup _ _ Hu Hw) as Hun. pose proof (equiv_nodup _ _ (symmetry Hv) Hw') as Hvn.
  pose proof (sim_ties u v Huv Hun (equiv_ties _ _ Hu Ht)) as Hvt.
  eapply same_layers_trans; [by apply canonicalize_equiv|]. eapply same_layers_trans; [by apply canonicalize_sim|]. by apply canonicalize_equiv.
Qed.

Lemma monoid_eq_sound w w' : NoDup (seq_no <$> w) → NoDup (seq_no <$> w') → monoid_eq (from_events w) (from_events w') = true → same_trace w w'.
Proof.
  intros Hw Hw' Hm%monoid_eq_spec. exists (flatten (canonicalize w)), (flatten (canonicalize w')).
  split; [by apply flatten_equiv|]. split; [by apply same_layers_flatten|]. symmetry. by apply flatten_equiv.
Qed.

Lemma same_content_list_refl l : Forall2 (λ a b, same_content a b) l l.
Proof. induction l; constructor; [apply same_content_refl|done]. Qed.

Lemma same_trace_equiv w w' : trace_equiv w w' → same_trace w w'.
Proof. intros He. exists w', w'. split_and!; [done|apply same_content_list_refl|done]. Qed.

Lemma same_trace_app w1 w1' w2 w2' : same_trace w1 w1' → same_trace w2 w2' → same_trace (w1 ++ w2) (w1' ++ w2').
Proof.
  intros (u1 & v1 & H1 & H1' & H1'') (u2 & v2 & H2 & H2' & H2''). exists (u1 ++ u2), (v1 ++ v2).
  split_and!; [by apply trace_equiv_app|by apply Forall2_app|by apply trace_equiv_app].
Qed.

(** *** Concatenation *)

Lemma from_events_identity w : is_identity (from_events w) = bool_decide (w = []).
Proof.
  unfold is_identity, foata_is_empty. change (canonical (from_events w)) with (canonicalize w). apply bool_decide_ext.
  rewrite canonicalize_eq. unfold height. destruct w; [done|]. rewrite Nat.add_1_r. done.
Qed.

(** The concatenation is built from an arrangement of the two traces. *)
Lemma concat_from_events w1 w2 : NoDup (seq_no <$> w1) → NoDup (seq_no <$> w2) →
  ∃ w, monoid_concat (from_events w1) (from_events w2) = from_events w ∧ trace_equiv w (w1 ++ w2).
Proof.
  intros H1 H2. unfold monoid_concat. rewrite !from_events_identity. case_bool_decide as Hn1; [|case_bool_decide as Hn2].
  - exists w2. subst w1. split; [|done]. unfold from_events. simpl. by destruct (canonicalize w2).
  - exists w1. subst w2. rewrite app_nil_r. split; [|done]. unfold from_events. simpl. by destruct (canonicalize w1).
  - eexists. split; [done|]. symmetry. apply trace_equiv_app; by apply flatten_equiv.
Qed.

(** ** The properties *)

(** For a trace whose events have different sequence numbers, [canonicalize]
    is the Foata normal form: no layer is empty and each is sorted by key, the
    events of a layer are pairwise independent, every event above the first layer
    depends on an event of the layer below, and the form read layer by layer is
    reached from the trace by swapping adjacent independent events. *)
Theorem foata_normal_form w : NoDup (seq_no <$> w) →
  let f := canonicalize w in
  (∀ ly, ly ∈ layers f → ly ≠ [] ∧ StronglySorted key_le (event_sort_key <$> ly)) ∧
  (∀ ly x y, ly ∈ layers f → x ∈ ly → y ∈ ly → seq_no x ≠ seq_no y → independent x y = true) ∧
  (∀ k ly ly' y, layers f !! k = Some ly → layers f !! S k = Some ly' → y ∈ ly' → ∃ x, x ∈ ly ∧ independent x y = false) ∧
  trace_equiv w (flatten f).
Proof.
  intros Hnd f. unfold f. assert (Hin : ∀ k x, x ∈ sort_by event_cmp (layer_list (assigned w) k) ↔ (x, k) ∈ assigned w).
  { intros k x. unfold event_cmp. rewrite (sort_by_perm event_sort_key). apply layer_list_elem. }
  rewrite canonicalize_eq. split_and!.
  - intros ly (k & -> & Hk)%list_elem_of_fmap. apply elem_of_seq in Hk. split; [|apply (sort_by_sorted event_sort_key)].
    destruct (layers_inhabited w k) as (e & He%Hin); [lia|]. intros Hnil. rewrite Hnil in He. by apply not_elem_of_nil in He.
  - intros ly x y (k & -> & Hk)%list_elem_of_fmap Hx%Hin Hy%Hin. by apply (same_layer_independent w x y k).
  - intros k ly ly' y Hly Hly' Hy. apply list_lookup_fmap_Some in Hly as (a & -> & Ha), Hly' as (b & -> & Hb). apply lookup_seq in Ha as [-> Ha], Hb as [-> Hb].
    apply Hin in Hy. destruct (assigned_below w (y, (0 + S k)%nat) k Hy eq_refl) as ([x m] & Hx & Hd & Hm). simpl in *. subst m. exists x. split; [by apply Hin|done].
  - by apply flatten_equiv.
Qed.

(** C26: Equality of trace monoid elements decides trace equivalence: the elements
    of two traces are equal exactly when one trace becomes the other by swapping
    adjacent independent events, up to sequence numbers and times. *)
Theorem monoid_equality_is_trace_equivalence w w' :
  NoDup (seq_no <$> w) → NoDup (seq_no <$> w') → ties_ok w →
  monoid_eq (from_events w) (from_events w') = true ↔ same_trace w w'.
Proof. intros Hw Hw' Ht. split; [by apply monoid_eq_sound|by apply monoid_eq_complete]. Qed.

(** Concatenation makes the elements a monoid: the identity is neutral, the
    element of a concatenated trace is the product of the elements, the product
    is associative and it respects equality. *)
Theorem trace_monoid_laws w1 w2 w3 : NoDup (seq_no <$> w1 ++ w2 ++ w3) → ties_ok (w1 ++ w2 ++ w3) →
  monoid_concat identity (from_events w1) = from_events w1 ∧
  monoid_concat (from_events w1) identity = from_events w1 ∧
  monoid_eq (monoid_concat (from_events w1) (from_events w2)) (from_events (w1 ++ w2)) = true ∧
  monoid_eq (monoid_concat (monoid_concat (from_events w1) (from_events w2)) (from_events w3))
            (monoid_concat (from_events w1) (monoid_concat (from_events w2) (from_events w3))) = true ∧
  (∀ w1', NoDup (seq_no <$> w1' ++ w2) → monoid_eq (from_events w1) (from_events w1') = true →
    monoid_eq (monoid_concat (from_events w1) (from_events w2)) (monoid_concat (from_events w1') (from_events w2)) = true).
Proof.
  intros Hnd Ht. assert (Hnd12 : NoDup (seq_no <$> w1 ++ w2)) by (rewrite app_assoc, fmap_app in Hnd; by apply NoDup_app in Hnd as (? & _)).
  assert (Hnd23 : NoDup (seq_no <$> w2 ++ w3)) by (rewrite fmap_app in Hnd; by apply NoDup_app in Hnd as (_ & _ & ?)).
  assert (Ht12 : ties_ok (w1 ++ w2)) by (intros a b Ha Hb; apply Ht; rewrite app_assoc; apply elem_of_app; by left).
  assert (H1 : NoDup (seq_no <$> w1)) by (rewrite fmap_app in Hnd12; by apply NoDup_app in Hnd12 as (? & _)).
  assert (H2 : NoDup (seq_no <$> w2)) by (rewrite fmap_app in Hnd12; by apply NoDup_app in Hnd12 as (_ & _ & ?)).
  assert (H3 : NoDup (seq_no <$> w3)) by (rewrite fmap_app in Hnd23; by apply NoDup_app in Hnd23 as (_ & _ & ?)).
  destruct (concat_from_events w1 w2 H1 H2) as (w12 & E12 & Q12), (concat_from_events w2 w3 H2 H3) as (w23 & E23 & Q23).
  pose proof (equiv_nodup _ _ (symmetry Q12) Hnd12) as N12. pose proof (equiv_nodup _ _ (symmetry Q23) Hnd23) as N23.
  assert (Hid : ∀ w, mkMonoid (mkFoata (layers (canonicalize w))) (fingerprint (canonicalize w)) = from_events w) by (intros w; unfold from_events; by destruct (canonicalize w)).
  split_and!.
  - apply Hid.
  - unfold monoid_concat. rewrite from_events_identity. case_bool_decide as Hn; [by subst w1|]. apply Hid.
  - rewrite E12. apply monoid_eq_complete; [done|done|by eapply equiv_ties|by apply same_trace_equiv].
  - rewrite E12, E23. destruct (concat_from_events w12 w3 N12 H3) as (wl & -> & Ql), (concat_from_events w1 w23 H1 N23) as (wr & -> & Qr).
    assert (Ql' : trace_equiv wl (w1 ++ w2 ++ w3)) by (rewrite Ql, Q12, <-app_assoc; done).
    assert (Qr' : trace_equiv wr (w1 ++ w2 ++ w3)) by (rewrite Qr, Q23; done).
    apply monoid_eq_complete; [by eapply equiv_nodup|by eapply equiv_nodup|by eapply equiv_ties|]. apply same_trace_equiv. by rewrite Ql', Qr'.
  - intros w1' Hnd' Hm. rewrite fmap_app in Hnd'. pose proof Hnd' as (H1' & _)%NoDup_app. rewrite <-fmap_app in Hnd'.
    apply monoid_eq_sound in Hm; [|done|done]. destruct (concat_from_events w1' w2 H1' H2) as (w12' & -> & Q12'). rewrite E12.
    destruct (same_trace_app _ _ w2 w2 Hm (same_trace_equiv _ _ (reflexivity w2))) as (u & v & Hu & Huv & Hv).
    apply monoid_eq_complete; [done|by eapply equiv_nodup|by eapply equiv_ties|]. exists u, v. split_and!; [by rewrite Q12|done|by rewrite Q12'].
Qed.

(** *** Fingerprints *)

Lemma layer_list_fmap {A B} (g : A → B) (l : list (A * nat)) k : layer_list ((λ p, (g p.1, p.2)) <$> l) k = g <$> layer_list l k.
Proof. induction l as [|[x i] l IH]; [done|]. unfold layer_list in *. rewrite fmap_cons, !filter_cons. simpl. case_decide; [|done]. rewrite !fmap_cons. by f_equal. Qed.

(** [trace_fingerprint], which works on indices and never builds the normal
    form, returns the fingerprint of the normal form for every trace. *)
Theorem trace_fingerprint_agrees w : trace_fingerprint w = fingerprint (canonicalize w).
Proof.
  unfold trace_fingerprint. case_bool_decide as Hn; [by subst w|]. destruct w as [|e0 w0]; [done|]. clear Hn. set (w := e0 :: w0).
  set (g := λ i, default e0 (w !! i)). set (l := zip (seq 0 (length w)) (assigned w).*2).
  assert (Hlen : length (assigned w) = length w) by (rewrite <-(length_fmap fst), (assign_fst [] w); done).
  assert (Hl : (λ p, (g p.1, p.2)) <$> l = assigned w).
  { apply list_eq. intros i. unfold l. rewrite list_lookup_fmap, lookup_zip_with. destruct (assigned w !! i) as [[x k]|] eqn:Hi.
    - pose proof (lookup_lt_Some _ _ _ Hi) as Hlt. rewrite lookup_seq_lt by lia.
      assert (Hk : (assigned w).*2 !! i = Some k) by (by rewrite list_lookup_fmap, Hi). rewrite Hk. simpl. unfold g.
      assert (Hx : (assigned w).*1 !! i = Some x) by (by rewrite list_lookup_fmap, Hi). rewrite (assign_fst [] w) in Hx. simpl in Hx. by rewrite Hx.
    - apply lookup_ge_None in Hi. rewrite lookup_seq_ge by lia. done. }
  assert (Hdom : ∀ p, p ∈ l → (p.1 < length w)%nat ∧ (p.2 < height w)%nat).
  { intros p Hp. split; [destruct p; apply elem_of_zip_l, elem_of_seq in Hp; apply Hp|]. pose proof (height_bound w (g p.1, p.2)) as Hb. apply Hb. rewrite <-Hl.
    apply list_elem_of_fmap. by exists p. }
  unfold fingerprint. do 2 f_equal. rewrite canonicalize_eq. change (max_layer _ + 1)%nat with (height w). fold l.
  rewrite group_eq by (intros; by apply Hdom). rewrite <-!list_fmap_compose. apply list_fmap_ext. intros i k _. unfold compose.
  rewrite <-Hl, layer_list_fmap.
  assert (Hg : ∀ x, x ∈ layer_list l k → w !! x = Some (g x)).
  { intros x Hx%layer_list_elem. destruct (Hdom _ Hx) as [Hlt _]. destruct (lookup_lt_is_Some_2 w x Hlt) as [e He]. unfold g. by rewrite He. }
  rewrite <-(sort_by_fmap g event_cmp (λ a b, match w !! a, w !! b with Some x, Some y => event_cmp x y | _, _ => Eq end))
    by (intros x y Hx Hy; by rewrite (Hg x Hx), (Hg y Hy)).
  rewrite map_map. apply map_ext_in. intros x Hx%list_elem_of_In. by rewrite (Hg x (sort_by_elem _ _ _ Hx)).
Qed.

(** ** Concrete traces *)

Definition tid (n : N) : TaskId := TaskId_from_arena (mkArenaIndex n 0).
Definition rid (n : N) : RegionId := RegionId_from_arena (mkArenaIndex n 0).
Definition task_event (seq : N) (k : Kind.t) (n : N) : TraceEvent := mkTraceEvent 1 seq 0 None k (Data.Task (tid n) (rid 0)).

(** Two tasks, interleaved in two ways. *)
Definition spawns : list TraceEvent := [task_event 1 Kind.Spawn 2; task_event 2 Kind.Spawn 1].
Definition polls : list TraceEvent := [task_event 3 Kind.Poll 1; task_event 4 Kind.Complete 1].
Definition last_poll : list TraceEvent := [task_event 5 Kind.Poll 2].
Definition rescheduled : list TraceEvent :=
  [task_event 11 Kind.Spawn 1; task_event 12 Kind.Poll 1; task_event 13 Kind.Spawn 2; task_event 14 Kind.Poll 2; task_event 15 Kind.Complete 1].

(** Deciding the assumption on ties. *)
Definition ties_okb (w : list TraceEvent) : bool :=
  forallb (λ a, forallb (λ b, negb (independent a b) || negb (match event_cmp a b with Eq => true | _ => false end) || semantically_equal_event a b) w) w.

Lemma ties_okb_sound w : ties_okb w = true → ties_ok w.
Proof.
  intros H a b Ha Hb Hi Hk. unfold ties_okb in H. rewrite forallb_forall in H. apply list_elem_of_In in Ha, Hb.
  specialize (H a Ha). rewrite forallb_forall in H. specialize (H b Hb). unfold event_cmp in H.
  rewrite Hi, Hk in H. unfold key_cmp in H. by rewrite !N.compare_refl in H.
Qed.

Example layers_of_two_tasks :
  map (map seq_no) (layers (canonicalize (spawns ++ polls ++ last_poll))) = [[2; 1]; [3; 5]; [4]] ∧
  critical_path_length (from_events (spawns ++ polls ++ last_poll)) = 3%nat ∧
  max_parallelism (from_events (spawns ++ polls ++ last_poll)) = 2%nat.
Proof. by vm_compute. Qed.

Lemma foata_normal_form_witness : trace_equiv (spawns ++ polls) (flatten (canonicalize (spawns ++ polls))).
Proof. apply (foata_normal_form (spawns ++ polls)). apply (bool_decide_unpack _). by vm_compute. Defined.

Lemma monoid_equality_is_trace_equivalence_witness : same_trace (spawns ++ polls ++ last_poll) rescheduled.
Proof.
  apply (monoid_equality_is_trace_equivalence (spawns ++ polls ++ last_poll) rescheduled);
    [apply (bool_decide_unpack _); by vm_compute|apply (bool_decide_unpack _); by vm_compute|apply ties_okb_sound; by vm_compute|by vm_compute].
Defined.

Lemma trace_monoid_laws_witness :
  monoid_eq (monoid_concat (monoid_concat (from_events spawns) (from_events polls)) (from_events last_poll))
            (monoid_concat (from_events spawns) (monoid_concat (from_events polls) (from_events last_poll))) = true.
Proof.
  assert (Hnd : NoDup (seq_no <$> spawns ++ polls ++ last_poll)) by (apply (bool_decide_unpack _); by vm_compute).
  assert (Ht : ties_ok (spawns ++ polls ++ last_poll)) by (apply ties_okb_sound; by vm_compute).
  exact (proj1 (proj2 (proj2 (proj2 (trace_monoid_laws spawns polls last_poll Hnd Ht))))).
Defined.

(** *** Where the assumptions matter *)

(** Two reports on the same task commute and have the same key, but not the same
    content: the normal forms of equivalent traces differ. *)
Definition report (seq idle_steps : N) : TraceEvent :=
  mkTraceEvent 1 seq 0 None Kind.FuturelockDetected (Data.Futurelock (tid 1) (rid 0) idle_steps []).

Lemma equivalent_traces_with_tied_keys_differ :
  trace_equiv [report 1 10; report 2 20] [report 2 20; report 1 10] ∧
  monoid_eq (from_events [report 1 10; report 2 20]) (from_events [report 2 20; report 1 10]) = false.
Proof. split; [by apply te_swap|by vm_compute]. Qed.

(** The fingerprint hashes keys, which leave out the reason of a cancellation. *)
Lemma fingerprint_ignores_cancel_reason k1 k2 :
  let ev k := mkTraceEvent 1 1 0 None Kind.RegionCancelled (Data.RegionCancel (rid 1) (reason_new k)) in
  equivalent (from_events [ev k1]) (from_events [ev k2]) = true.
Proof. unfold equivalent. apply N.eqb_refl. Qed.

(** Traces numbered apart compare equal whatever their numbers, but a product
    takes events with the same number for dependent. *)
Lemma product_depends_on_numbers :
  monoid_eq (from_events [task_event 1 Kind.Spawn 1]) (from_events [task_event 2 Kind.Spawn 1]) = true ∧
  monoid_eq (monoid_concat (from_events [task_event 1 Kind.Spawn 1]) (from_events [task_event 1 Kind.Spawn 2]))
            (monoid_concat (from_events [task_event 2 Kind.Spawn 1]) (from_events [task_event 1 Kind.Spawn 2])) = false.
Proof. by vm_compute. Qed.
