(* ===== verification/ScheduledSet.v ===== *)
(** * The set of scheduled tasks

    Models [ScheduledSet] of [src/runtime/scheduler/priority.rs]: which tasks are in
    the lanes of a scheduler.  A vector indexed by arena index holds the generation
    of the scheduled task plus one; an index at which several generations are
    scheduled, and every index beyond the cap of the vector, is tracked in a hash
    set.  The theorem: through growth, collisions and their collapse the structure
    answers as a finite set does. *)

From S2P Require Import Prelude Ids.

Definition DENSE_COLLISION : N := u64_MAX.
Definition MAX_DENSE_LEN : N := 1048576.
Definition MIN_DENSE_LEN : N := 64.

Record ScheduledSet := mkSet { dense : list N; overflow : gset TaskId; set_len : N }.
Implicit Types (s : ScheduledSet) (task : TaskId).

(** [next_power_of_two], which is 0 where it overflows. *)
Definition next_power_of_two (x : N) : N := let p := 2 ^ N.log2_up x in if p <=? u64_MAX then p else 0.

Definition with_capacity (capacity : N) : ScheduledSet :=
  let dense_len := clamp (next_power_of_two (N.max capacity 1)) MIN_DENSE_LEN MAX_DENSE_LEN in
  mkSet (replicate (N.to_nat dense_len) 0) ∅ 0.

Definition is_empty s : bool := set_len s =? 0.

Notation index_of task := (ai_index (task_arena_index task)).
Notation generation_of task := (ai_generation (task_arena_index task)).

Definition tag_of task : N := if generation_of task =? u64_MAX then DENSE_COLLISION else generation_of task + 1.

Definition contains s task : bool :=
  match dense s !! N.to_nat (index_of task) with
  | None => bool_decide (task ∈ overflow s)
  | Some existing =>
      if existing =? tag_of task then true
      else if existing =? DENSE_COLLISION then bool_decide (task ∈ overflow s)
      else false
  end.

Fixpoint grow_loop (fuel : nat) (new_len needed : N) : run N :=
  match fuel with
  | O => OutOfFuel
  | S fuel => if new_len <? needed then grow_loop fuel (saturating_mul usize_MAX new_len 2) needed else Returns new_len
  end.

Definition grow_dense_to_fit s (idx : N) : run ScheduledSet :=
  let needed := idx + 1 in
  new_len ← grow_loop 64 (N.max (lenN (dense s)) 1) needed;
  let new_len := clamp new_len MIN_DENSE_LEN MAX_DENSE_LEN in
  Returns (if lenN (dense s) <? new_len then mkSet (dense s ++ replicate (N.to_nat (new_len - lenN (dense s))) 0) (overflow s) (set_len s) else s).

(** [self.overflow.insert(task)], counting a new member. *)
Definition insert_overflow s task : ScheduledSet * bool :=
  if bool_decide (task ∈ overflow s) then (s, false)
  else (mkSet (dense s) ({[task]} ∪ overflow s) (wrapping_add usize_MAX (set_len s) 1), true).

Definition set_dense s (idx : N) (tag : N) : list N := <[N.to_nat idx := tag]> (dense s).

Definition insert s task : run (ScheduledSet * bool) :=
  let idx := index_of task in
  let tag := tag_of task in
  s ← (if (idx <? MAX_DENSE_LEN) && (lenN (dense s) <=? idx) then grow_dense_to_fit s idx else Returns s);
  match dense s !! N.to_nat idx with
  | None => Returns (insert_overflow s task)
  | Some existing =>
      if existing =? 0 then Returns (mkSet (set_dense s idx tag) (overflow s) (wrapping_add usize_MAX (set_len s) 1), true)
      else if existing =? tag then Returns (s, false)
      else if existing =? DENSE_COLLISION then Returns (insert_overflow s task)
      else if existing - 1 <=? u32_MAX then
        if idx <=? u32_MAX then
          let old_task := TaskId_from_arena (mkArenaIndex idx (existing - 1)) in
          let s := mkSet (set_dense s idx DENSE_COLLISION) ({[old_task]} ∪ overflow s) (set_len s) in
          Returns (insert_overflow s task)
        else Panicked
      else Panicked
  end.

(** The loop of [collapse_collision_slot]: the members with this index, at most two. *)
Fixpoint scan_overflow (idx : N) (candidates : list TaskId) (remaining : option TaskId) : option TaskId * bool :=
  match candidates with
  | [] => (remaining, false)
  | c :: cs =>
      if negb (index_of c =? idx) then scan_overflow idx cs remaining
      else match remaining with
           | Some _ => (remaining, true)
           | None => scan_overflow idx cs (Some c)
           end
  end.

Definition collapse_collision_slot s (idx : N) : ScheduledSet :=
  match dense s !! N.to_nat idx with
  | Some x =>
      if negb (x =? DENSE_COLLISION) then s
      else match scan_overflow idx (elements (overflow s)) None with
           | (_, true) => s
           | (None, false) => mkSet (set_dense s idx 0) (overflow s) (set_len s)
           | (Some task, false) => mkSet (set_dense s idx (generation_of task + 1)) (overflow s ∖ {[task]}) (set_len s)
           end
  | None => s
  end.

Definition remove_overflow s task : ScheduledSet * bool :=
  if bool_decide (task ∈ overflow s) then (mkSet (dense s) (overflow s ∖ {[task]}) (wrapping_sub usize_MAX (set_len s) 1), true)
  else (s, false).

Definition remove s task : ScheduledSet * bool :=
  let idx := index_of task in
  let tag := tag_of task in
  match dense s !! N.to_nat idx with
  | None => remove_overflow s task
  | Some existing =>
      if existing =? 0 then (s, false)
      else if existing =? tag then (mkSet (set_dense s idx 0) (overflow s) (wrapping_sub usize_MAX (set_len s) 1), true)
      else if existing =? DENSE_COLLISION then
        let '(s, removed) := remove_overflow s task in
        (if removed then collapse_collision_slot s idx else s, removed)
      else (s, false)
  end.

Definition clear s : ScheduledSet := mkSet ((λ _, 0) <$> dense s) ∅ 0.

(** ** The set it stands for *)

Implicit Types X : gset TaskId.

(** The fields of a task identifier are [u32]. *)
Definition valid_task task : Prop := index_of task ≤ u32_MAX ∧ generation_of task ≤ u32_MAX.
#[global] Instance valid_task_dec task : Decision (valid_task task) := _.

Definition member (d : list N) (o : gset TaskId) task : Prop :=
  match d !! N.to_nat (index_of task) with
  | None => task ∈ o
  | Some x => x = generation_of task + 1 ∨ (x = DENSE_COLLISION ∧ task ∈ o)
  end.

Record set_rep s X : Prop := {
  sr_mem task : valid_task task → task ∈ X ↔ member (dense s) (overflow s) task;
  sr_valid task : task ∈ X → valid_task task;
  sr_over task : task ∈ overflow s → valid_task task ∧
    match dense s !! N.to_nat (index_of task) with None => MAX_DENSE_LEN ≤ index_of task | Some x => x = DENSE_COLLISION end;
  sr_tags i x : dense s !! i = Some x → x = DENSE_COLLISION ∨ x ≤ u32_MAX + 1;
  sr_cap : lenN (dense s) ≤ MAX_DENSE_LEN;
  sr_len : set_len s = N.of_nat (size X) ∧ set_len s ≤ usize_MAX;
}.

Lemma tag_valid task : valid_task task → tag_of task = generation_of task + 1 ∧ generation_of task + 1 ≠ DENSE_COLLISION.
Proof. intros [_ Hg]. unfold tag_of, DENSE_COLLISION. destruct (N.eqb_spec (generation_of task) u64_MAX); mlia. Qed.

Lemma contains_member s task : valid_task task → contains s task = true ↔ member (dense s) (overflow s) task.
Proof.
  intros Hv. destruct (tag_valid task Hv) as [Ht Hn]. unfold contains, member. rewrite Ht. destruct (dense s !! _) as [x|]; [|apply bool_decide_eq_true].
  destruct (N.eqb_spec x (generation_of task + 1)); [tauto|]. destruct (N.eqb_spec x DENSE_COLLISION); [rewrite bool_decide_eq_true; tauto|]. split; [done|tauto].
Qed.

Lemma rep_contains s X task : set_rep s X → valid_task task → contains s task = bool_decide (task ∈ X).
Proof.
  intros Hr Hv. apply eq_true_iff_eq. rewrite (contains_member s task Hv), bool_decide_eq_true. symmetry. by apply (sr_mem s X Hr).
Qed.

(** One slot of the vector, and the members with its index, change. *)
Lemma rep_update s X (i y : N) o X' n : set_rep s X → is_Some (dense s !! N.to_nat i) →
  (∀ task, index_of task ≠ i → (task ∈ o ↔ task ∈ overflow s) ∧ (task ∈ X' ↔ task ∈ X)) →
  (∀ task, index_of task = i → valid_task task → (task ∈ X' ↔ y = generation_of task + 1 ∨ (y = DENSE_COLLISION ∧ task ∈ o))) →
  (∀ task, index_of task = i → (task ∈ X' → valid_task task) ∧ (task ∈ o → valid_task task ∧ y = DENSE_COLLISION)) →
  y = DENSE_COLLISION ∨ y ≤ u32_MAX + 1 → n = N.of_nat (size X') ∧ n ≤ usize_MAX →
  set_rep (mkSet (set_dense s i y) o n) X'.
Proof.
  intros [Hm Hv Ho Ht Hc Hl] Hi Hother Hself Hval Hy Hn. assert (Hat : ∀ task, index_of task = i → set_dense s i y !! N.to_nat (index_of task) = Some y).
  { intros task ->. unfold set_dense. by apply list_lookup_insert_eq, lookup_lt_is_Some. }
  assert (Hne : ∀ task, index_of task ≠ i → set_dense s i y !! N.to_nat (index_of task) = dense s !! N.to_nat (index_of task)).
  { intros task Hne. unfold set_dense. apply list_lookup_insert_ne. lia. }
  split; simpl; [| | | | |done].
  - intros task Hvt. unfold member. destruct (decide (index_of task = i)) as [Heq|Hne'].
    + rewrite Hat by done. by apply Hself.
    + rewrite Hne by done. destruct (Hother task Hne') as [H1 H2]. rewrite H2, (Hm task Hvt). unfold member. destruct (dense s !! N.to_nat (index_of task)); tauto.
  - intros task Hx. destruct (decide (index_of task = i)) as [Heq|Hne']; [by apply (proj1 (Hval task Heq))|]. apply Hv, (Hother task Hne'), Hx.
  - intros task Hx. destruct (decide (index_of task = i)) as [Heq|Hne'].
    + rewrite Hat by done. by apply (proj2 (Hval task Heq)).
    + rewrite Hne by done. apply Ho, (Hother task Hne'), Hx.
  - intros j x. unfold set_dense. rewrite list_lookup_insert_Some. intros [(_ & <- & _)|[_ Hj]]; [done|by eapply Ht].
  - unfold set_dense, lenN in *. by rewrite length_insert.
Qed.

(** Only the hash set changes, at an index beyond the cap. *)
Lemma rep_update_overflow s X task o X' n : set_rep s X → dense s !! N.to_nat (index_of task) = None → MAX_DENSE_LEN ≤ index_of task → valid_task task →
  (∀ t, t ≠ task → (t ∈ o ↔ t ∈ overflow s) ∧ (t ∈ X' ↔ t ∈ X)) → (task ∈ X' ↔ task ∈ o) → n = N.of_nat (size X') ∧ n ≤ usize_MAX →
  set_rep (mkSet (dense s) o n) X'.
Proof.
  intros [Hm Hv Ho Ht Hc Hl] Hi Hmax Hvt Hother Hself Hn. split; simpl; [| | |done|done|done].
  - intros t Hvt'. destruct (decide (t = task)) as [->|Hne]; [unfold member; by rewrite Hi|]. destruct (Hother t Hne) as [H1 H2]. rewrite H2, (Hm t Hvt'). unfold member.
    destruct (dense s !! N.to_nat (index_of t)); tauto.
  - intros t Hx. destruct (decide (t = task)) as [->|Hne]; [done|]. apply Hv, (Hother t Hne), Hx.
  - intros t Hx. destruct (decide (t = task)) as [->|Hne]; [by rewrite Hi|]. apply Ho, (Hother t Hne), Hx.
Qed.

Lemma size_add X task : task ∉ X → size ({[task]} ∪ X) = S (size X).
Proof. intros Hn. rewrite size_union by set_solver. by rewrite size_singleton. Qed.

Lemma size_del X task : task ∈ X → size X = S (size (X ∖ {[task]})).
Proof. intros Hx. rewrite <-(size_add (X ∖ {[task]}) task) by set_solver. f_equal. apply set_eq. intros t. destruct (decide (t = task)); set_solver. Qed.

(** ** The operations *)

Lemma grow_loop_spec fuel n needed : 0 < n → needed ≤ 2 ^ N.of_nat fuel * n → needed ≤ MAX_DENSE_LEN → n ≤ MAX_DENSE_LEN →
  ∃ m, grow_loop (S fuel) n needed = Returns m ∧ needed ≤ m ∧ n ≤ m.
Proof.
  revert n. induction fuel as [|fuel IH]; intros n Hn Hf Hm Hn'.
  - simpl. destruct (N.ltb_spec n needed) as [Hlt|]; [simpl in Hf; lia|]. exists n. done.
  - cbn [grow_loop]. destruct (N.ltb_spec n needed) as [Hlt|]; [|exists n; done].
    assert (E : saturating_mul usize_MAX n 2 = 2 * n) by (unfold saturating_mul, MAX_DENSE_LEN in *; mlia).
    destruct (decide (2 * n ≤ MAX_DENSE_LEN)) as [Hle|Hgt].
    + rewrite E. destruct (IH (2 * n)) as (m & Hr & H1 & H2); [lia| |done|done|]. { rewrite Nat2N.inj_succ, N.pow_succ_r' in Hf. lia. } cbn [grow_loop] in Hr. exists m. split; [done|lia].
    + rewrite E. destruct (N.ltb_spec (2 * n) needed); [lia|]. exists (2 * n). split; [done|]. lia.
Qed.

Lemma grow_rep s X idx : set_rep s X → idx < MAX_DENSE_LEN → lenN (dense s) ≤ idx →
  ∃ s', grow_dense_to_fit s idx = Returns s' ∧ set_rep s' X ∧ is_Some (dense s' !! N.to_nat idx) ∧ overflow s' = overflow s ∧ set_len s' = set_len s.
Proof.
  intros [Hm Hv Ho Ht Hc Hl] Hidx Hlen. unfold grow_dense_to_fit. destruct (grow_loop_spec 63 (N.max (lenN (dense s)) 1) (idx + 1)) as (m & -> & H1 & H2); [lia|unfold MAX_DENSE_LEN in *; simpl; lia|lia|unfold MAX_DENSE_LEN in *; lia|].
  cbn [mbind run_bind]. set (m' := clamp m MIN_DENSE_LEN MAX_DENSE_LEN). assert (Hm' : idx < m' ∧ m' ≤ MAX_DENSE_LEN).
  { unfold m', clamp, MIN_DENSE_LEN, MAX_DENSE_LEN in *. destruct (N.ltb_spec m 64); [lia|]. destruct (N.ltb_spec 1048576 m); lia. }
  destruct (N.ltb_spec (lenN (dense s)) m'); [|lia]. eexists. split; [done|]. unfold lenN in *.
  assert (Hlong : length (dense s ++ replicate (N.to_nat (m' - N.of_nat (length (dense s)))) 0) = N.to_nat m') by (rewrite length_app, length_replicate; lia).
  assert (Hat : ∀ i, (dense s ++ replicate (N.to_nat (m' - N.of_nat (length (dense s)))) 0) !! i =
    match dense s !! i with Some x => Some x | None => if decide (i < N.to_nat m')%nat then Some 0 else None end).
  { intros i. destruct (dense s !! i) as [x|] eqn:Hi; [by apply lookup_app_l_Some|]. apply lookup_ge_None in Hi. rewrite lookup_app_r by lia. case_decide as Hd.
    - apply lookup_replicate_2. lia.
    - apply lookup_replicate_None. lia. }
  split_and!; [|simpl; apply lookup_lt_is_Some; rewrite Hlong; lia|done|done]. split; simpl; [|done| | | |done].
  - intros task Hvt. rewrite (Hm task Hvt). unfold member. simpl. rewrite Hat. destruct (dense s !! N.to_nat (index_of task)) as [x|] eqn:Hi; [done|]. case_decide as Hd; [|done].
    split; [|unfold DENSE_COLLISION; intros [?|[? _]]; mlia]. intros Hin. destruct (Ho task Hin) as [_ Hbig]. rewrite Hi in Hbig. lia.
  - intros task Hin. destruct (Ho task Hin) as [Hvt Hbig]. split; [done|]. rewrite Hat. destruct (dense s !! N.to_nat (index_of task)); [done|]. case_decide; [lia|done].
  - intros i x. rewrite Hat. destruct (dense s !! i) eqn:Hi; [intros [= <-]; by eapply Ht|]. case_decide; [|done]. intros [= <-]. right. lia.
  - unfold lenN. rewrite Hlong. lia.
Qed.

Lemma index_lt s i : is_Some (dense s !! N.to_nat i) → lenN (dense s) ≤ MAX_DENSE_LEN → i < MAX_DENSE_LEN.
Proof. intros Hi Hc. apply lookup_lt_is_Some in Hi. unfold lenN in Hc. lia. Qed.

(** A task is a set member or is added to the hash set. *)
Lemma insert_overflow_rep s X task : set_rep s X → valid_task task → N.of_nat (size X) < usize_MAX →
  match dense s !! N.to_nat (index_of task) with None => MAX_DENSE_LEN ≤ index_of task | Some x => x = DENSE_COLLISION end →
  (insert_overflow s task).2 = bool_decide (task ∉ X) ∧ set_rep (insert_overflow s task).1 ({[task]} ∪ X).
Proof.
  intros Hr Hv Hs Hat. pose proof Hr as [Hm Hval Ho Ht Hc Hl]. destruct (tag_valid task Hv) as [_ Hnc].
  assert (Hin : task ∈ X ↔ task ∈ overflow s).
  { rewrite (Hm task Hv). unfold member. destruct (dense s !! _) as [x|]; [|done]. subst x. split; [intros [?|[_ ?]]; [congruence|done]|tauto]. }
  unfold insert_overflow. case_bool_decide as Hd; simpl.
  - split; [by rewrite bool_decide_false by tauto|]. by replace ({[task]} ∪ X) with X by set_solver.
  - assert (Hx : task ∉ X) by tauto. split; [by rewrite bool_decide_true|]. rewrite wrapping_add_1 by lia.
    destruct (dense s !! N.to_nat (index_of task)) as [x|] eqn:Hi.
    + subst x. replace (dense s) with (set_dense s (index_of task) DENSE_COLLISION) by (by apply list_insert_id). apply (rep_update s X); [done|eauto| | | |by left|rewrite size_add by done; lia].
      * intros t Hne. assert (t ≠ task) by congruence. set_solver.
      * intros t Heq Hvt. rewrite elem_of_union, elem_of_singleton, (Hm t Hvt). unfold member. rewrite Heq, Hi. destruct (tag_valid t Hvt) as [_ Hnt]. set_solver.
      * intros t Heq. split; [intros [->%elem_of_singleton|?]%elem_of_union; [done|by apply Hval]|]. intros [->%elem_of_singleton|Hin']%elem_of_union; [done|]. split; [by apply Ho|done].
    + apply (rep_update_overflow s X task); [done|done|done|done|set_solver|set_solver|rewrite size_add by done; lia].
Qed.

Lemma insert_rep s X task : set_rep s X → valid_task task → N.of_nat (size X) < usize_MAX →
  ∃ s', insert s task = Returns (s', bool_decide (task ∉ X)) ∧ set_rep s' ({[task]} ∪ X).
Proof.
  intros Hr0 Hv Hs. destruct (tag_valid task Hv) as [Htag Hnc]. unfold insert. rewrite Htag.
  assert (Hgrow : ∃ s1, (if (index_of task <? MAX_DENSE_LEN) && (lenN (dense s) <=? index_of task) then grow_dense_to_fit s (index_of task) else Returns s) = Returns s1 ∧ set_rep s1 X ∧
    (dense s1 !! N.to_nat (index_of task) = None → MAX_DENSE_LEN ≤ index_of task)).
  { destruct (N.ltb_spec (index_of task) MAX_DENSE_LEN) as [Hlt|Hge]; simpl; [|exists s; auto]. destruct (N.leb_spec (lenN (dense s)) (index_of task)) as [Hle|Hgt].
    - destruct (grow_rep s X _ Hr0 Hlt Hle) as (s1 & -> & Hr1 & [x Hx] & _). exists s1. split_and!; [done|done|by rewrite Hx].
    - exists s. split_and!; [done|done|]. intros Hn%lookup_ge_None. unfold lenN in Hgt. lia. }
  destruct Hgrow as (s1 & -> & Hr & Hbig). cbn [mbind run_bind]. pose proof Hr as [Hm Hval Ho Ht Hc Hl].
  destruct (dense s1 !! N.to_nat (index_of task)) as [x|] eqn:Hi.
  2: { destruct (insert_overflow_rep s1 X task Hr Hv Hs) as [H1 H2]; [rewrite Hi; by apply Hbig|]. destruct (insert_overflow s1 task) as [s2 b]. simpl in H1. subst b. eauto. }
  assert (Hmem : task ∈ X ↔ x = generation_of task + 1 ∨ (x = DENSE_COLLISION ∧ task ∈ overflow s1)) by (rewrite (Hm task Hv); unfold member; by rewrite Hi).
  assert (Hnone : x ≠ DENSE_COLLISION → ∀ t, index_of t = index_of task → t ∉ overflow s1). { intros Hx t Heq Hin. destruct (Ho t Hin) as [_ Hd]. rewrite Heq, Hi in Hd. done. }
  destruct (N.eqb_spec x 0) as [->|Hx0].
  { assert (Hnx : task ∉ X) by (rewrite Hmem; unfold DENSE_COLLISION; intros [?|[? _]]; mlia). rewrite bool_decide_true by done. eexists. split; [done|]. rewrite wrapping_add_1 by lia.
    apply (rep_update s1 X); [done|eauto| | | |right; destruct Hv; lia|rewrite size_add by done; lia].
    - intros t Hne. assert (t ≠ task) by congruence. set_solver.
    - intros t Heq Hvt. rewrite elem_of_union, elem_of_singleton, (Hm t Hvt). unfold member. rewrite Heq, Hi. split.
      + intros [->|[H|[H _]]]; [by left|unfold DENSE_COLLISION in *; mlia|unfold DENSE_COLLISION in *; mlia].
      + intros [H|[H _]]; [|done]. left. destruct t as [[ti tg]], task as [[ki kg]]. simpl in *. f_equal. f_equal; [done|lia].
    - intros t Heq. split; [intros [->%elem_of_singleton|?]%elem_of_union; [done|by apply Hval]|]. intros Hin. exfalso. apply (Hnone ltac:(unfold DENSE_COLLISION; mlia) t Heq Hin). }
  destruct (N.eqb_spec x (generation_of task + 1)) as [->|Hxt].
  { assert (Hx : task ∈ X) by tauto. rewrite bool_decide_false by tauto. eexists. split; [done|]. by replace ({[task]} ∪ X) with X by set_solver. }
  destruct (N.eqb_spec x DENSE_COLLISION) as [->|Hxc].
  { destruct (insert_overflow_rep s1 X task Hr Hv Hs) as [H1 H2]; [by rewrite Hi|]. destruct (insert_overflow s1 task) as [s2 b]. simpl in H1. subst b. eauto. }
  assert (Hx32 : x ≤ u32_MAX + 1) by (destruct (Ht _ _ Hi); [done|lia]). rewrite (proj2 (N.leb_le (x - 1) u32_MAX)) by lia. destruct Hv as [Hv1 Hv2]. rewrite (proj2 (N.leb_le (index_of task) u32_MAX)) by done.
  set (old := TaskId_from_arena (mkArenaIndex (index_of task) (x - 1))). assert (Hvold : valid_task old) by (unfold old; split; simpl; lia).
  assert (Hold : old ∈ X) by (apply (Hm old Hvold); unfold member; simpl; rewrite Hi; left; lia).
  assert (Hr2 : set_rep (mkSet (set_dense s1 (index_of task) DENSE_COLLISION) ({[old]} ∪ overflow s1) (set_len s1)) X).
  { apply (rep_update s1 X); [done|eauto| | | |by left|done].
    - intros t Hne. assert (t ≠ old) by (intros ->; by destruct Hne). set_solver.
    - intros t Heq Hvt. rewrite (Hm t Hvt). unfold member. rewrite Heq, Hi. destruct (tag_valid t Hvt) as [_ Hnt]. split.
      + intros [H|[H _]]; [|done]. right. split; [done|]. apply elem_of_union_l, elem_of_singleton. destruct t as [[ti tg]]. simpl in *. unfold old. f_equal. f_equal; [done|lia].
      + intros [H|[_ [->%elem_of_singleton|H]%elem_of_union]]; [by destruct Hnt|left; simpl; lia|by destruct (Hnone Hxc t Heq)].
    - intros t Heq. split; [by apply Hval|]. intros [->%elem_of_singleton|Hin]%elem_of_union; [done|by destruct (Hnone Hxc t Heq)]. }
  destruct (insert_overflow_rep _ X task Hr2 (conj Hv1 Hv2) Hs) as [H1 H2]; [simpl; unfold set_dense; rewrite list_lookup_insert_eq; [done|by eapply lookup_lt_Some]|].
  destruct (insert_overflow _ task) as [s2 b]. simpl in H1. subst b. eauto.
Qed.

Lemma scan_spec idx l r :
  match scan_overflow idx l r with
  | (_, true) => True
  | (None, false) => r = None ∧ ∀ c, c ∈ l → index_of c ≠ idx
  | (Some t, false) => (r = Some t ∧ ∀ c, c ∈ l → index_of c ≠ idx) ∨
      (r = None ∧ t ∈ l ∧ index_of t = idx ∧ ∀ c, c ∈ l → index_of c = idx → c = t)
  end.
Proof.
  revert r. induction l as [|c l IH]; intros r; simpl; [destruct r; [left|]; (split; [done|by intros c ?%not_elem_of_nil])|].
  destruct (N.eqb_spec (index_of c) idx) as [Heq|Hne]; simpl.
  - destruct r as [t|]; [done|]. specialize (IH (Some c)). destruct (scan_overflow idx l (Some c)) as [[t|] []]; [done| |done|by destruct IH].
    destruct IH as [[[= <-] Hl]|[? _]]; [|done]. right. split_and!; [done|left|done|]. intros c' [->|Hc']%elem_of_cons Hi; [done|by destruct (Hl c')].
  - specialize (IH r). destruct (scan_overflow idx l r) as [[t|] []]; [done| |done|].
    + destruct IH as [[-> Hl]|(-> & Ht & Hi & Hl)]; [left|right]; (split_and!; try done); [| by right|]; intros c' [->|Hc']%elem_of_cons; [done|by apply Hl|done|by apply Hl].
    + destruct IH as [-> Hl]. split; [done|]. intros c' [->|Hc']%elem_of_cons; [done|by apply Hl].
Qed.

Lemma collapse_rep s X i : set_rep s X → dense s !! N.to_nat i = Some DENSE_COLLISION → set_rep (collapse_collision_slot s i) X.
Proof.
  intros Hr Hi. pose proof Hr as [Hm Hval Ho Ht Hc Hl]. unfold collapse_collision_slot. rewrite Hi, N.eqb_refl. simpl.
  pose proof (scan_spec i (elements (overflow s)) None) as Hscan. destruct (scan_overflow i (elements (overflow s)) None) as [[t|] []]; [done| |done|].
  - destruct Hscan as [[? _]|(_ & Hto%elem_of_elements & Hti & Hall)]; [done|]. assert (Hvt : valid_task t) by apply (Ho t Hto). destruct (tag_valid t Hvt) as [_ Hnt].
    apply (rep_update s X); [done|eauto| | | |right; destruct Hvt; lia|done].
    + intros t' Hne. assert (t' ≠ t) by congruence. set_solver.
    + intros t' Heq Hv'. rewrite (Hm t' Hv'). unfold member. rewrite Heq, Hi. destruct (tag_valid t' Hv') as [_ Hnt']. split.
      * intros [H|[_ Hin]]; [by destruct Hnt'|]. left. rewrite (Hall t') by (by try apply elem_of_elements). done.
      * intros [H|[H _]]; [|by destruct Hnt]. right. split; [done|]. assert (t' = t) as ->; [|done]. destruct t as [[ti tg]], t' as [[ui ug]]. simpl in *. f_equal. f_equal; [congruence|lia].
    + intros t' Heq. split; [by apply Hval|]. intros [Hin Hne]%elem_of_difference. destruct Hne. apply elem_of_singleton. apply Hall; [by apply elem_of_elements|done].
  - destruct Hscan as [_ Hnone]. apply (rep_update s X); [done|eauto|done| | |right; lia|done].
    + intros t' Heq Hv'. rewrite (Hm t' Hv'). unfold member. rewrite Heq, Hi. destruct (tag_valid t' Hv') as [_ Hnt']. split.
      * intros [H|[_ Hin]]; [by destruct Hnt'|]. destruct (Hnone t'); [by apply elem_of_elements|done].
      * intros [H|[H _]]; [lia|done].
    + intros t' Heq. split; [by apply Hval|]. intros Hin. destruct (Hnone t'); [by apply elem_of_elements|done].
Qed.

Lemma remove_overflow_rep s X task : set_rep s X → valid_task task → 
  match dense s !! N.to_nat (index_of task) with None => True | Some x => x = DENSE_COLLISION end →
  (remove_overflow s task).2 = bool_decide (task ∈ X) ∧ set_rep (remove_overflow s task).1 (X ∖ {[task]}) ∧ dense (remove_overflow s task).1 = dense s.
Proof.
  intros Hr Hv Hat. pose proof Hr as [Hm Hval Ho Ht Hc Hl]. destruct (tag_valid task Hv) as [_ Hnc].
  assert (Hin : task ∈ X ↔ task ∈ overflow s).
  { rewrite (Hm task Hv). unfold member. destruct (dense s !! _) as [x|]; [|done]. subst x. split; [intros [?|[_ ?]]; [congruence|done]|tauto]. }
  unfold remove_overflow. case_bool_decide as Hd; simpl.
  2: { split_and!; [by rewrite bool_decide_false by tauto| |done]. by replace (X ∖ {[task]}) with X by set_solver. }
  assert (Hx : task ∈ X) by tauto. split_and!; [by rewrite bool_decide_true| |done]. pose proof (size_del X task Hx) as Hsz.
  assert (Hlen : wrapping_sub usize_MAX (set_len s) 1 = N.of_nat (size (X ∖ {[task]})) ∧ wrapping_sub usize_MAX (set_len s) 1 ≤ usize_MAX) by (rewrite wrapping_sub_small; lia).
  destruct (dense s !! N.to_nat (index_of task)) as [x|] eqn:Hi.
  - subst x. replace (dense s) with (set_dense s (index_of task) DENSE_COLLISION) by (by apply list_insert_id). apply (rep_update s X); [done|eauto| | | |by left|done].
    + intros t Hne. assert (t ≠ task) by congruence. set_solver.
    + intros t Heq Hvt. rewrite elem_of_difference, (Hm t Hvt). unfold member. rewrite Heq, Hi. destruct (tag_valid t Hvt) as [_ Hnt]. set_solver.
    + intros t Heq. split; [intros [? _]%elem_of_difference; by apply Hval|]. intros [Hin' _]%elem_of_difference. split; [by apply Ho|done].
  - destruct (Ho task Hd) as [_ Hbig]. rewrite Hi in Hbig. apply (rep_update_overflow s X task); [done|done|done|done|set_solver|set_solver|done].
Qed.

Lemma remove_rep s X task : set_rep s X → valid_task task →
  (remove s task).2 = bool_decide (task ∈ X) ∧ set_rep (remove s task).1 (X ∖ {[task]}).
Proof.
  intros Hr Hv. pose proof Hr as [Hm Hval Ho Ht Hc Hl]. destruct (tag_valid task Hv) as [Htag Hnc]. unfold remove. rewrite Htag.
  destruct (dense s !! N.to_nat (index_of task)) as [x|] eqn:Hi.
  2: { destruct (remove_overflow_rep s X task Hr Hv) as (H1 & H2 & _); [by rewrite Hi|]. done. }
  assert (Hmem : task ∈ X ↔ x = generation_of task + 1 ∨ (x = DENSE_COLLISION ∧ task ∈ overflow s)) by (rewrite (Hm task Hv); unfold member; by rewrite Hi).
  assert (Hsame : task ∉ X → (s, false).2 = bool_decide (task ∈ X) ∧ set_rep (s, false).1 (X ∖ {[task]})).
  { intros Hn. simpl. rewrite bool_decide_false by done. by replace (X ∖ {[task]}) with X by set_solver. }
  destruct (N.eqb_spec x 0) as [->|Hx0]; [apply Hsame; rewrite Hmem; unfold DENSE_COLLISION; intros [?|[? _]]; mlia|].
  destruct (N.eqb_spec x (generation_of task + 1)) as [->|Hxt]; simpl.
  { assert (Hx : task ∈ X) by tauto. split; [by rewrite bool_decide_true|]. pose proof (size_del X task Hx) as Hsz.
    assert (Hnone : ∀ t, index_of t = index_of task → t ∉ overflow s). { intros t Heq Hin. destruct (Ho t Hin) as [_ Hd]. rewrite Heq, Hi in Hd. done. }
    apply (rep_update s X); [done|eauto| | | |right; lia|rewrite wrapping_sub_small; lia].
    - intros t Hne. assert (t ≠ task) by congruence. set_solver.
    - intros t Heq Hvt. rewrite elem_of_difference, (Hm t Hvt), elem_of_singleton. unfold member. rewrite Heq, Hi. split; [|intros [H|[H _]]; unfold DENSE_COLLISION in *; mlia].
      intros [[H|[H _]] Hne]; [|done]. destruct Hne. destruct t as [[ti tg]], task as [[ki kg]]. simpl in *. f_equal. f_equal; [done|lia].
    - intros t Heq. split; [intros [? _]%elem_of_difference; by apply Hval|]. intros Hin. by destruct (Hnone t Heq). }
  destruct (N.eqb_spec x DENSE_COLLISION) as [->|Hxc]; [|apply Hsame; rewrite Hmem; tauto].
  destruct (remove_overflow_rep s X task Hr Hv) as (H1 & H2 & H3); [by rewrite Hi|]. destruct (remove_overflow s task) as [s1 b]. simpl in *. split; [done|].
  destruct b; [|done]. apply collapse_rep; [done|by rewrite H3].
Qed.

Lemma with_capacity_rep c : set_rep (with_capacity c) ∅.
Proof.
  unfold with_capacity. set (n := clamp _ _ _). assert (Hn : n ≤ MAX_DENSE_LEN).
  { unfold n, clamp. destruct (N.ltb_spec (next_power_of_two (N.max c 1)) MIN_DENSE_LEN); [unfold MIN_DENSE_LEN, MAX_DENSE_LEN; lia|]. destruct (N.ltb_spec MAX_DENSE_LEN (next_power_of_two (N.max c 1))); lia. }
  split; simpl; [|done|done| | |split; [done|mlia]].
  - intros task _. unfold member. destruct (replicate (N.to_nat n) 0 !! N.to_nat (index_of task)) as [x|] eqn:E; [|set_solver]. apply lookup_replicate in E as [-> _]. unfold DENSE_COLLISION. split; [set_solver|]. intros [?|[? _]]; mlia.
  - intros i x [-> _]%lookup_replicate. right. lia.
  - unfold lenN. rewrite length_replicate. lia.
Qed.

Lemma clear_rep s X : set_rep s X → set_rep (clear s) ∅.
Proof.
  intros [_ _ _ _ Hc _]. split; simpl; [|done|done| | |split; [done|mlia]].
  - intros task _. unfold member. rewrite list_lookup_fmap. destruct (dense s !! _); simpl; [|set_solver]. unfold DENSE_COLLISION. split; [set_solver|]. intros [?|[? _]]; mlia.
  - intros i x. rewrite list_lookup_fmap. destruct (dense s !! i); [|done]. intros [= <-]. right. lia.
  - unfold lenN. by rewrite length_fmap.
Qed.

(** ** Every sequence of operations *)

Inductive set_op := SInsert (task : TaskId) | SRemove (task : TaskId) | SContains (task : TaskId) | SLen | SClear.

Definition set_do s (o : set_op) : run (ScheduledSet * N) :=
  match o with
  | SInsert task => '(s, b) ← insert s task; Returns (s, N.b2n b)
  | SRemove task => let '(s, b) := remove s task in Returns (s, N.b2n b)
  | SContains task => Returns (s, N.b2n (contains s task))
  | SLen => Returns (s, set_len s)
  | SClear => Returns (clear s, 0)
  end.

Definition set_spec X (o : set_op) : gset TaskId * N :=
  match o with
  | SInsert task => ({[task]} ∪ X, N.b2n (bool_decide (task ∉ X)))
  | SRemove task => (X ∖ {[task]}, N.b2n (bool_decide (task ∈ X)))
  | SContains task => (X, N.b2n (bool_decide (task ∈ X)))
  | SLen => (X, N.of_nat (size X))
  | SClear => (∅, 0)
  end.

Fixpoint set_do_all s (os : list set_op) : run (ScheduledSet * list N) :=
  match os with
  | [] => Returns (s, [])
  | o :: os => '(s, x) ← set_do s o; '(s, xs) ← set_do_all s os; Returns (s, x :: xs)
  end.

Fixpoint set_spec_all X (os : list set_op) : gset TaskId * list N :=
  match os with
  | [] => (X, [])
  | o :: os => let '(X, x) := set_spec X o in let '(X, xs) := set_spec_all X os in (X, x :: xs)
  end.

Definition op_valid (o : set_op) : Prop := match o with SInsert t | SRemove t | SContains t => valid_task t | _ => True end.

Lemma set_do_rep s X o : set_rep s X → op_valid o → N.of_nat (size X) < usize_MAX →
  ∃ s', set_do s o = Returns (s', (set_spec X o).2) ∧ set_rep s' (set_spec X o).1 ∧ (size (set_spec X o).1 ≤ S (size X))%nat.
Proof.
  intros Hr Hv Hs. destruct o as [t|t|t| |]; simpl in *.
  - destruct (insert_rep s X t Hr Hv Hs) as (s' & -> & Hr'). cbn [mbind run_bind]. eexists. split_and!; [done|done|]. destruct (decide (t ∈ X)); [replace ({[t]} ∪ X) with X by set_solver; lia|by rewrite size_add].
  - destruct (remove_rep s X t Hr Hv) as [Hb Hr']. destruct (remove s t) as [s' b]. simpl in *. subst b. eexists. split_and!; [done|done|]. pose proof (subseteq_size (X ∖ {[t]}) X ltac:(set_solver)). lia.
  - eexists. split_and!; [by rewrite (rep_contains s X t Hr Hv)|done|lia].
  - eexists. split_and!; [by rewrite (proj1 (sr_len s X Hr))|done|lia].
  - eexists. split_and!; [done|by eapply clear_rep|]. apply Nat.le_0_l.
Qed.

(** For every capacity and every sequence of fewer than 2^64 operations on task
    identifiers, the set of scheduled tasks answers as a finite set does: [insert] and
    [remove] report whether the set changed, the count is exact, and nothing panics,
    whatever growth, collisions of generations and collapses happen inside. *)
Theorem scheduled_set_is_set c os : Forall op_valid os → lenN os < usize_MAX →
  ∃ s, set_do_all (with_capacity c) os = Returns (s, (set_spec_all ∅ os).2) ∧ set_rep s (set_spec_all ∅ os).1.
Proof.
  intros Hv Hlen. assert (Hgen : ∀ s X, set_rep s X → N.of_nat (size X) + lenN os < usize_MAX →
    ∃ s', set_do_all s os = Returns (s', (set_spec_all X os).2) ∧ set_rep s' (set_spec_all X os).1).
  { clear Hlen. induction Hv as [|o os Ho Hos IH]; intros s X Hr Hs; simpl; [eauto|]. rewrite len_cons in Hs. destruct (set_do_rep s X o Hr Ho) as (s' & -> & Hr' & Hsz); [lia|].
    cbn [mbind run_bind]. destruct (set_spec X o) as [X' x]. simpl in *. destruct (IH s' X' Hr') as (s2 & -> & Hr2); [lia|]. cbn [mbind run_bind].
    destruct (set_spec_all X' os) as [X2 xs]. simpl in *. eauto. }
  apply Hgen; [apply with_capacity_rep|]. change (size (∅ : gset TaskId)) with 0%nat. lia.
Qed.

(** Two generations at one index, one far index; the collision collapses again. *)
Definition set_script : list set_op :=
  let t i g := TaskId_from_arena (mkArenaIndex i g) in
  [SInsert (t 70 1); SInsert (t 70 2); SInsert (t 70 1); SLen; SContains (t 70 2); SRemove (t 70 1); SContains (t 70 2); SInsert (t 2000000 0); SRemove (t 70 1); SLen].

Lemma scheduled_set_is_set_witness : ∃ s, set_do_all (with_capacity 4) set_script = Returns (s, [1; 1; 0; 2; 1; 1; 1; 1; 0; 2]).
Proof.
  destruct (scheduled_set_is_set 4 set_script) as (s & E & _); [unfold set_script; repeat constructor; unfold valid_task; simpl; mlia|by vm_compute|].
  exists s. rewrite E. by f_equal.
Defined.
