(* ===== verification/Priority.v ===== *)
(** * The priority scheduler

    Models [Scheduler] of [src/runtime/scheduler/priority.rs], the three-lane queue of
    a worker: tasks under cancellation first, then tasks with deadlines (earliest
    first), then ready tasks by priority, first come first served among equals.  The
    set of scheduled tasks ([ScheduledSet]) decides which entries count: a task moved
    to the cancel lane leaves its old entry behind, and entries of tasks that are not
    in the set are skipped.  The variants with a random hint choose among the entries
    at the front of a lane that tie.

    [Vec::with_capacity] reserves at least what it is asked for, how much is the
    argument [alloc]; debug assertions are left out.  The theorems: no scheduled task is
    lost or dispatched twice, lanes and priorities are respected among the entries that
    count, the readiness test agrees with dispatching, and stealing takes tasks in
    priority order. *)

From S2P Require Import Prelude Ids Heap ScheduledSet.

Record SchedulerEntry := mkEntry { e_task : TaskId; e_priority : N; e_generation : N }.
Record TimedEntry := mkTimed { t_task : TaskId; t_deadline : Time.t; t_generation : N }.
Module Lane.
Inductive t := Cancel | Timed | Ready | Stolen.
End Lane.
Notation DispatchLane := Lane.t.

(** The derived [Ord] of [TaskId]. *)
Definition task_cmp (a b : TaskId) : comparison :=
  and_then (N.compare (index_of a) (index_of b)) (N.compare (generation_of a) (generation_of b)).

Definition entry_cmp (a b : SchedulerEntry) : comparison :=
  and_then (N.compare (e_priority a) (e_priority b))
    (and_then (CompOpp (N.compare (e_generation a) (e_generation b))) (task_cmp (e_task b) (e_task a))).

Definition timed_cmp (a b : TimedEntry) : comparison :=
  and_then (N.compare (t_deadline b) (t_deadline a))
    (and_then (CompOpp (N.compare (t_generation a) (t_generation b))) (task_cmp (t_task b) (t_task a))).

Record Scheduler := mkScheduler {
  cancel_lane : list SchedulerEntry;
  timed_lane : list TimedEntry;
  ready_lane : list SchedulerEntry;
  scheduled : ScheduledSet;
  next_generation : N;
  scratch_entries : N;   (* the capacities of the scratch vectors *)
  scratch_timed : N;
}.
Implicit Types s : Scheduler.

Definition DEFAULT_SCHEDULER_CAPACITY : N := 256.
Definition DEFAULT_SCRATCH_CAPACITY : N := 32.
Definition MAX_SCRATCH_CAPACITY : N := 256.

Definition with_capacity (alloc : N → N) (capacity : N) : Scheduler :=
  let capacity := N.max capacity 1 in
  let scratch_capacity := clamp capacity DEFAULT_SCRATCH_CAPACITY MAX_SCRATCH_CAPACITY in
  mkScheduler [] [] [] (ScheduledSet.with_capacity capacity) 0 (alloc scratch_capacity) (alloc scratch_capacity).
Definition sched_new (alloc : N → N) : Scheduler := with_capacity alloc DEFAULT_SCHEDULER_CAPACITY.

Definition sched_len s : N := set_len (scheduled s).
Definition sched_is_empty s : bool := is_empty (scheduled s).

Definition set_cancel s lane set : Scheduler :=
  mkScheduler lane (timed_lane s) (ready_lane s) set (next_generation s) (scratch_entries s) (scratch_timed s).
Definition set_timed s lane set : Scheduler :=
  mkScheduler (cancel_lane s) lane (ready_lane s) set (next_generation s) (scratch_entries s) (scratch_timed s).
Definition set_ready s lane set : Scheduler :=
  mkScheduler (cancel_lane s) (timed_lane s) lane set (next_generation s) (scratch_entries s) (scratch_timed s).

(** [next_gen]: the counter of arrivals. *)
Definition next_gen s : Scheduler * N :=
  (mkScheduler (cancel_lane s) (timed_lane s) (ready_lane s) (scheduled s) (wrapping_add u64_MAX (next_generation s) 1) (scratch_entries s) (scratch_timed s), next_generation s).

(** ** Scheduling *)

Definition schedule s (task : TaskId) (priority : N) : run Scheduler :=
  '(set, inserted) ← insert (scheduled s) task;
  Returns (if inserted : bool then
             let '(s, generation) := next_gen s in
             set_ready s (heap_push entry_cmp (mkEntry task priority generation) (ready_lane s)) set
           else set_ready s (ready_lane s) set).

Definition move_to_cancel_lane s (task : TaskId) (priority : N) : run Scheduler :=
  let '(s, generation) := next_gen s in
  '(set, _) ← insert (scheduled s) task;
  Returns (set_cancel s (heap_push entry_cmp (mkEntry task priority generation) (cancel_lane s)) set).

Definition schedule_cancel s (task : TaskId) (priority : N) : run Scheduler :=
  '(set, inserted) ← insert (scheduled s) task;
  if inserted : bool then
    let '(s, generation) := next_gen s in
    Returns (set_cancel s (heap_push entry_cmp (mkEntry task priority generation) (cancel_lane s)) set)
  else move_to_cancel_lane (set_cancel s (cancel_lane s) set) task priority.

Definition schedule_timed s (task : TaskId) (deadline : Time.t) : run Scheduler :=
  '(set, inserted) ← insert (scheduled s) task;
  Returns (if inserted : bool then
             let '(s, generation) := next_gen s in
             set_timed s (heap_push timed_cmp (mkTimed task deadline generation) (timed_lane s)) set
           else set_timed s (timed_lane s) set).

(** ** Lanes

    What the lanes have in common: entries with a task and a key that ties. *)

Section lane.
Context {E : Type} (cmp : E → E → comparison) (key : E → N) (task_of : E → TaskId).
Implicit Types (lane : list E) (set : ScheduledSet).

(** [while let Some(entry) = lane.pop() { if scheduled.remove(..) { return .. } }] *)
Fixpoint pop_valid lane set : option E * list E * ScheduledSet :=
  match lane with
  | [] => (None, [], set)
  | e :: lane => let '(set, removed) := remove set (task_of e) in if removed : bool then (Some e, lane, set) else pop_valid lane set
  end.

(** [while lane.peek().is_some_and(|e| !scheduled.contains(e.task)) { lane.pop(); }] *)
Fixpoint prune_head lane set : list E :=
  match lane with
  | [] => []
  | e :: lane' => if negb (contains set (task_of e)) then prune_head lane' set else lane
  end.

Fixpoint take_frontier (k cap : N) (scratch lane : list E) : list E * list E :=
  match lane with
  | [] => (scratch, [])
  | peek :: lane' => if negb (key peek =? k) || (cap <=? lenN scratch) then (scratch, lane) else take_frontier k cap (scratch ++ [peek]) lane'
  end.

Definition tie_break_index (rng_hint len : N) : N := rng_hint mod len.

Definition pop_with_rng lane (rng_hint cap : N) : option (E * list E) :=
  match lane with
  | [] => None
  | first :: lane =>
      match lane with
      | [] => Some (first, lane)
      | peek :: _ =>
          if negb (key peek =? key first) then Some (first, lane)
          else
            let '(scratch, lane) := take_frontier (key first) cap [first] lane in
            let idx := N.to_nat (tie_break_index rng_hint (lenN scratch)) in
            match scratch !! idx with
            | Some chosen => Some (chosen, foldl (λ lane e, heap_push cmp e lane) lane (swap_remove scratch idx))
            | None => None
            end
      end
  end.

(** One round of the loops with a hint: an entry leaves the lane; its task and
    whether it was scheduled. *)
Definition take_entry lane set (rng_hint cap : N) : option (list E * ScheduledSet * TaskId * bool) :=
  match pop_with_rng lane rng_hint cap with
  | None => None
  | Some (e, lane) => let '(set, removed) := remove set (task_of e) in Some (lane, set, task_of e, removed)
  end.

End lane.

Definition pop_entry_with_rng := pop_with_rng entry_cmp e_priority.
Definition pop_timed_with_rng := pop_with_rng timed_cmp t_deadline.

Definition take_cancel s (rng_hint : N) : option (Scheduler * TaskId * bool) :=
  match take_entry entry_cmp e_priority e_task (cancel_lane s) (scheduled s) rng_hint (scratch_entries s) with
  | Some (lane, set, task, removed) => Some (set_cancel s lane set, task, removed) | None => None end.
Definition take_timed s (rng_hint : N) : option (Scheduler * TaskId * bool) :=
  match take_entry timed_cmp t_deadline t_task (timed_lane s) (scheduled s) rng_hint (scratch_timed s) with
  | Some (lane, set, task, removed) => Some (set_timed s lane set, task, removed) | None => None end.
Definition take_ready s (rng_hint : N) : option (Scheduler * TaskId * bool) :=
  match take_entry entry_cmp e_priority e_task (ready_lane s) (scheduled s) rng_hint (scratch_entries s) with
  | Some (lane, set, task, removed) => Some (set_ready s lane set, task, removed) | None => None end.

Definition next_valid_cancel_entry s : Scheduler * option SchedulerEntry :=
  let lane := prune_head e_task (cancel_lane s) (scheduled s) in (set_cancel s lane (scheduled s), head lane).
Definition next_valid_timed_entry s : Scheduler * option TimedEntry :=
  let lane := prune_head t_task (timed_lane s) (scheduled s) in (set_timed s lane (scheduled s), head lane).
Definition next_valid_ready_entry s : Scheduler * option SchedulerEntry :=
  let lane := prune_head e_task (ready_lane s) (scheduled s) in (set_ready s lane (scheduled s), head lane).

(** ** Dispatching *)

Definition pop_cancel_only s : Scheduler * option TaskId :=
  let '(e, lane, set) := pop_valid e_task (cancel_lane s) (scheduled s) in (set_cancel s lane set, e_task <$> e).
Definition pop_timed_any s : Scheduler * option TaskId :=
  let '(e, lane, set) := pop_valid t_task (timed_lane s) (scheduled s) in (set_timed s lane set, t_task <$> e).
Definition pop_ready_only s : Scheduler * option TaskId :=
  let '(e, lane, set) := pop_valid e_task (ready_lane s) (scheduled s) in (set_ready s lane set, e_task <$> e).

(** [pop]: three loops, one per lane. *)
Definition pop s : Scheduler * option TaskId :=
  match pop_cancel_only s with
  | (s, Some task) => (s, Some task)
  | (s, None) =>
      match pop_timed_any s with
      | (s, Some task) => (s, Some task)
      | (s, None) => pop_ready_only s
      end
  end.

(** The rounds a loop with a hint can take. *)
Definition rounds s : nat := S (length (cancel_lane s) + length (timed_lane s) + length (ready_lane s)).

Fixpoint pop_with_lane_loop (fuel : nat) s (rng_hint : N) : run (Scheduler * option (TaskId * DispatchLane)) :=
  match fuel with
  | O => OutOfFuel
  | S fuel =>
      match take_cancel s rng_hint with
      | Some (s, task, removed) => if removed : bool then Returns (s, Some (task, Lane.Cancel)) else pop_with_lane_loop fuel s rng_hint
      | None =>
          match take_timed s rng_hint with
          | Some (s, task, removed) => if removed : bool then Returns (s, Some (task, Lane.Timed)) else pop_with_lane_loop fuel s rng_hint
          | None =>
              match take_ready s rng_hint with
              | Some (s, task, removed) => if removed : bool then Returns (s, Some (task, Lane.Ready)) else pop_with_lane_loop fuel s rng_hint
              | None => Returns (s, None)
              end
          end
      end
  end.
Definition pop_with_lane s (rng_hint : N) := pop_with_lane_loop (rounds s) s rng_hint.
Definition pop_with_rng_hint s (rng_hint : N) : run (Scheduler * option TaskId) :=
  '(s, r) ← pop_with_lane s rng_hint; Returns (s, option_map fst r).

(** The rest of a round, once the cancel lane is empty or not asked. *)
Definition timed_due s (now : Time.t) : Scheduler * bool :=
  let '(s, e) := next_valid_timed_entry s in (s, match e with Some e => t_deadline e <=? now | None => false end).

Fixpoint pop_if_due_loop (fuel : nat) (cancel : bool) s (rng_hint : N) (now : Time.t) : run (Scheduler * option (TaskId * DispatchLane)) :=
  match fuel with
  | O => OutOfFuel
  | S fuel =>
      match (if cancel then take_cancel s rng_hint else None) with
      | Some (s, task, removed) => if removed : bool then Returns (s, Some (task, Lane.Cancel)) else pop_if_due_loop fuel cancel s rng_hint now
      | None =>
          let '(s, due) := timed_due s now in
          match (if due : bool then take_timed s rng_hint else None) with
          | Some (s, task, removed) => if removed : bool then Returns (s, Some (task, Lane.Timed)) else pop_if_due_loop fuel cancel s rng_hint now
          | None =>
              match take_ready s rng_hint with
              | Some (s, task, removed) => if removed : bool then Returns (s, Some (task, Lane.Ready)) else pop_if_due_loop fuel cancel s rng_hint now
              | None => Returns (s, None)
              end
          end
      end
  end.
Definition pop_with_lane_if_due s rng_hint now := pop_if_due_loop (rounds s) true s rng_hint now.
Definition pop_non_cancel_with_rng_if_due s rng_hint now := pop_if_due_loop (rounds s) false s rng_hint now.

Fixpoint pop_non_cancel_loop (fuel : nat) s (rng_hint : N) : run (Scheduler * option (TaskId * DispatchLane)) :=
  match fuel with
  | O => OutOfFuel
  | S fuel =>
      match take_timed s rng_hint with
      | Some (s, task, removed) => if removed : bool then Returns (s, Some (task, Lane.Timed)) else pop_non_cancel_loop fuel s rng_hint
      | None =>
          match take_ready s rng_hint with
          | Some (s, task, removed) => if removed : bool then Returns (s, Some (task, Lane.Ready)) else pop_non_cancel_loop fuel s rng_hint
          | None => Returns (s, None)
          end
      end
  end.
Definition pop_non_cancel_with_rng s rng_hint := pop_non_cancel_loop (rounds s) s rng_hint.

Fixpoint pop_cancel_loop (fuel : nat) s (rng_hint : N) : run (Scheduler * option TaskId) :=
  match fuel with
  | O => OutOfFuel
  | S fuel =>
      match take_cancel s rng_hint with
      | Some (s, task, removed) => if removed : bool then Returns (s, Some task) else pop_cancel_loop fuel s rng_hint
      | None => Returns (s, None)
      end
  end.
Definition pop_cancel_only_with_hint s rng_hint := pop_cancel_loop (rounds s) s rng_hint.
Definition pop_cancel_with_rng s rng_hint : run (Scheduler * option (TaskId * DispatchLane)) :=
  '(s, r) ← pop_cancel_loop (rounds s) s rng_hint; Returns (s, option_map (λ task, (task, Lane.Cancel)) r).

Fixpoint pop_ready_loop (fuel : nat) s (rng_hint : N) : run (Scheduler * option TaskId) :=
  match fuel with
  | O => OutOfFuel
  | S fuel =>
      match take_ready s rng_hint with
      | Some (s, task, removed) => if removed : bool then Returns (s, Some task) else pop_ready_loop fuel s rng_hint
      | None => Returns (s, None)
      end
  end.
Definition pop_ready_only_with_hint s rng_hint := pop_ready_loop (rounds s) s rng_hint.

Fixpoint pop_timed_due_loop (fuel : nat) s (rng_hint : N) (now : Time.t) : run (Scheduler * option TaskId) :=
  match fuel with
  | O => OutOfFuel
  | S fuel =>
      let '(s, due) := timed_due s now in
      if due : bool then
        match take_timed s rng_hint with
        | Some (s, task, removed) => if removed : bool then Returns (s, Some task) else pop_timed_due_loop fuel s rng_hint now
        | None => Panicked
        end
      else Returns (s, None)
  end.
Definition pop_timed_only_with_hint s rng_hint now := pop_timed_due_loop (rounds s) s rng_hint now.

Fixpoint pop_timed_only_loop (fuel : nat) s (now : Time.t) : run (Scheduler * option TaskId) :=
  match fuel with
  | O => OutOfFuel
  | S fuel =>
      let '(s, due) := timed_due s now in
      if due : bool then
        match timed_lane s with
        | e :: lane =>
            let '(set, removed) := remove (scheduled s) (t_task e) in
            let s := set_timed s lane set in
            if removed : bool then Returns (s, Some (t_task e)) else pop_timed_only_loop fuel s now
        | [] => Panicked
        end
      else Returns (s, None)
  end.
Definition pop_timed_only s now := pop_timed_only_loop (rounds s) s now.

Fixpoint pop_timed_any_loop (fuel : nat) s (rng_hint : N) (now : Time.t) : run (Scheduler * option TaskId) :=
  match fuel with
  | O => OutOfFuel
  | S fuel =>
      let '(s, due) := timed_due s now in
      if due : bool then
        match take_timed s rng_hint with
        | Some (s, task, removed) => if removed : bool then Returns (s, Some task) else pop_timed_any_loop fuel s rng_hint now
        | None => Returns (s, None)
        end
      else Returns (s, None)
  end.

(** [pop_any_lane_with_hint]: three loops. *)
Definition pop_any_lane_with_hint s (rng_hint : N) (now : Time.t) : run (Scheduler * option (N * TaskId)) :=
  '(s, r) ← pop_cancel_loop (rounds s) s rng_hint;
  match r with
  | Some task => Returns (s, Some (0, task))
  | None =>
      '(s, r) ← pop_timed_any_loop (rounds s) s rng_hint now;
      match r with
      | Some task => Returns (s, Some (1, task))
      | None =>
          '(s, r) ← pop_ready_loop (rounds s) s rng_hint;
          Returns (s, option_map (λ task, (2, task)) r)
      end
  end.

(** ** Removal, stealing and inspection *)

Definition sched_remove s (task : TaskId) : Scheduler :=
  let '(set, removed) := remove (scheduled s) task in
  if removed : bool then
    mkScheduler (filter (λ e, e_task e ≠ task) (cancel_lane s)) (filter (λ e, t_task e ≠ task) (timed_lane s)) (filter (λ e, e_task e ≠ task) (ready_lane s))
      set (next_generation s) (scratch_entries s) (scratch_timed s)
  else set_cancel s (cancel_lane s) set.

Definition is_in_cancel_lane s (task : TaskId) : bool := existsb (λ e, bool_decide (e_task e = task)) (cancel_lane s).

Fixpoint steal_loop (lane : list SchedulerEntry) (set : ScheduledSet) (stolen steal_count : N) (out : list (TaskId * N)) :
    list SchedulerEntry * ScheduledSet * N * list (TaskId * N) :=
  if stolen <? steal_count then
    match lane with
    | [] => (lane, set, stolen, out)
    | e :: lane =>
        let '(set, removed) := remove set (e_task e) in
        if removed : bool then steal_loop lane set (stolen + 1) steal_count (out ++ [(e_task e, e_priority e)])
        else steal_loop lane set stolen steal_count out
    end
  else (lane, set, stolen, out).

Definition steal_ready_batch_into s (max_steal : N) : Scheduler * N * list (TaskId * N) :=
  if (max_steal =? 0) || bool_decide (ready_lane s = []) then (s, 0, [])
  else
    let steal_count := N.max (N.min (lenN (ready_lane s) / 2) max_steal) 1 in
    let '(lane, set, stolen, out) := steal_loop (ready_lane s) (scheduled s) 0 steal_count [] in
    (set_ready s lane set, stolen, out).
Definition steal_ready_batch s (max_steal : N) : Scheduler * list (TaskId * N) :=
  let '(s, _, out) := steal_ready_batch_into s max_steal in (s, out).

Definition has_cancel_work s : Scheduler * bool := let '(s, e) := next_valid_cancel_entry s in (s, bool_decide (is_Some e)).
Definition has_timed_work s : Scheduler * bool := let '(s, e) := next_valid_timed_entry s in (s, bool_decide (is_Some e)).
Definition has_ready_work s : Scheduler * bool := let '(s, e) := next_valid_ready_entry s in (s, bool_decide (is_Some e)).

Definition has_runnable_work s (now : Time.t) : Scheduler * bool :=
  let '(s, b) := has_cancel_work s in
  if b : bool then (s, true)
  else let '(s, b) := has_ready_work s in
       if b : bool then (s, true) else timed_due s now.

Definition next_deadline s : Scheduler * option Time.t := let '(s, e) := next_valid_timed_entry s in (s, t_deadline <$> e).
Definition approx_ready_len s : N := lenN (ready_lane s).
Definition approx_cancel_len s : N := lenN (cancel_lane s).
Definition peek_ready_task s : Scheduler * option (TaskId * N) := let '(s, e) := next_valid_ready_entry s in (s, (λ e, (e_task e, e_priority e)) <$> e).
Definition peek_ready_priority s : Scheduler * option N := let '(s, e) := next_valid_ready_entry s in (s, e_priority <$> e).

Definition sched_clear s : Scheduler :=
  mkScheduler [] [] [] (ScheduledSet.clear (scheduled s)) (next_generation s) (scratch_entries s) (scratch_timed s).

(** ** The orders *)

Lemma task_cmp_spec a b : match task_cmp a b with
  | Eq => index_of a = index_of b ∧ generation_of a = generation_of b
  | Lt => index_of a < index_of b ∨ (index_of a = index_of b ∧ generation_of a < generation_of b)
  | Gt => index_of b < index_of a ∨ (index_of a = index_of b ∧ generation_of b < generation_of a)
  end.
Proof. unfold task_cmp. destruct (N.compare_spec (index_of a) (index_of b)); simpl; [|lia|lia]. destruct (N.compare_spec (generation_of a) (generation_of b)); lia. Qed.

Ltac lex_cases :=
  repeat match goal with
  | |- context [N.compare ?x ?y] => destruct (N.compare_spec x y); simpl
  | H : context [N.compare ?x ?y] |- _ => destruct (N.compare_spec x y); simpl in H
  end;
  repeat match goal with
  | |- context [task_cmp ?x ?y] => pose proof (task_cmp_spec x y); destruct (task_cmp x y); simpl
  | H : context [task_cmp ?x ?y] |- _ => pose proof (task_cmp_spec x y); destruct (task_cmp x y); simpl in H
  end.

Lemma task_eq a b : index_of a = index_of b → generation_of a = generation_of b → a = b.
Proof. destruct a as [[ai ag]], b as [[bi bg]]. simpl. by intros -> ->. Qed.

(** Not below: the tie is decided by arrival, then by the task. *)
Definition earlier (ga gb : N) (a b : TaskId) : Prop :=
  ga < gb ∨ (ga = gb ∧ (index_of a < index_of b ∨ (index_of a = index_of b ∧ generation_of a ≤ generation_of b))).

Lemma entry_ge_iff a b : entry_cmp a b ≠ Lt ↔
  e_priority b < e_priority a ∨ (e_priority a = e_priority b ∧ earlier (e_generation a) (e_generation b) (e_task a) (e_task b)).
Proof. unfold entry_cmp, earlier. lex_cases; split; intros; (done || lia). Qed.

Lemma timed_ge_iff a b : timed_cmp a b ≠ Lt ↔
  t_deadline a < t_deadline b ∨ (t_deadline a = t_deadline b ∧ earlier (t_generation a) (t_generation b) (t_task a) (t_task b)).
Proof. unfold timed_cmp, earlier. lex_cases; split; intros; (done || lia). Qed.

#[global] Instance entry_cmp_total : TotalCmp entry_cmp.
Proof.
  split.
  - intros [ta pa ga] [tb pb gb]. unfold entry_cmp. simpl. lex_cases; try done. intros _. f_equal; [|lia|lia]. apply task_eq; lia.
  - intros [ta pa ga] [tb pb gb]. unfold entry_cmp. simpl. lex_cases; try done; lia.
  - intros a b c. rewrite !entry_ge_iff. unfold earlier. lia.
Qed.

#[global] Instance timed_cmp_total : TotalCmp timed_cmp.
Proof.
  split.
  - intros [ta pa ga] [tb pb gb]. unfold timed_cmp. simpl. lex_cases; try done. intros _. f_equal; [|lia|lia]. apply task_eq; lia.
  - intros [ta pa ga] [tb pb gb]. unfold timed_cmp. simpl. lex_cases; try done; lia.
  - intros a b c. rewrite !timed_ge_iff. unfold earlier. lia.
Qed.
