(* ===== verification/PriorityThms.v ===== *)
(** * What the priority scheduler guarantees

    The invariant of [Priority]: lanes are heaps, and every scheduled task has an entry
    in some lane; then the effect of dispatching on the entries that count, for each
    loop, and the properties. *)

From S2P Require Import Prelude Ids Heap ScheduledSet Priority.

(** ** One lane *)

Section lane.
Context {E : Type} (cmp : E → E → comparison) (key : E → N) (task_of : E → TaskId) (before : N → N → Prop).
Context `{!TotalCmp cmp} `{!PreOrder before}.
Context (key_ok : ∀ a b, cmp a b ≠ Lt → before (key a) (key b)).
Implicit Types (lane : list E) (X : gset TaskId).

Lemma frontier_spec k cap scratch lane : let '(sc, rest) := take_frontier key k cap scratch lane in
  sc ++ rest = scratch ++ lane ∧ (∃ more, sc = scratch ++ more) ∧ ((∀ x, x ∈ scratch → key x = k) → ∀ x, x ∈ sc → key x = k).
Proof.
  revert scratch. induction lane as [|e lane IH]; intros scratch; simpl; [split_and!; [done|exists []; by rewrite app_nil_r|done]|].
  destruct (negb (key e =? k) || _) eqn:Hb; [split_and!; [done|exists []; by rewrite app_nil_r|done]|]. N_bools. specialize (IH (scratch ++ [e])).
  destruct (take_frontier key k cap (scratch ++ [e]) lane) as [sc rest]. destruct IH as (H1 & (more & H2) & H3). split_and!.
  - by rewrite H1, <-app_assoc.
  - exists (e :: more). by rewrite H2, <-app_assoc.
  - intros Hs. apply H3. intros x [Hx| ->%list_elem_of_singleton]%elem_of_app; [by apply Hs|done].
Qed.

Lemma push_all_spec l lane : heap_ok cmp lane → heap_ok cmp (foldl (λ lane e, heap_push cmp e lane) lane l) ∧ foldl (λ lane e, heap_push cmp e lane) lane l ≡ₚ l ++ lane.
Proof.
  revert lane. induction l as [|e l IH]; intros lane Hl; simpl; [done|]. destruct (IH (heap_push cmp e lane)) as [H1 H2]; [by apply heap_push_ok|]. split; [done|].
  rewrite H2, heap_push_perm. by rewrite Permutation_middle.
Qed.

Lemma suffix_ok l lane : heap_ok cmp (l ++ lane) → heap_ok cmp lane.
Proof. induction l as [|x l IH]; [done|]. intros [H _]%heap_tail_ok. by apply IH. Qed.

(** An entry leaves a heap; it ties with the greatest. *)
Lemma pop_with_rng_spec lane rng cap : heap_ok cmp lane → lane ≠ [] →
  ∃ e lane', pop_with_rng cmp key lane rng cap = Some (e, lane') ∧ lane ≡ₚ e :: lane' ∧ heap_ok cmp lane' ∧ ∀ x, x ∈ lane → before (key e) (key x).
Proof.
  intros Hok Hne. destruct lane as [|first lane]; [done|]. pose proof Hok as [Hok' Hge]%heap_tail_ok.
  assert (Hfirst : ∀ x, x ∈ first :: lane → before (key first) (key x)).
  { intros x [->|Hx]%elem_of_cons; [done|]. apply key_ok. by eapply Forall_forall in Hge. }
  unfold pop_with_rng. destruct lane as [|peek lane]; [eexists _, _; split_and!; [done|done|done|done]|].
  destruct (N.eqb_spec (key peek) (key first)) as [Htie|]; simpl negb; cbn match; [|eexists _, _; split_and!; [done|done|done|done]].
  pose proof (frontier_spec (key first) cap [first] (peek :: lane)) as Hf. destruct (take_frontier key (key first) cap [first] (peek :: lane)) as [sc rest]. destruct Hf as (Happ & (more & Hmore) & Hkey).
  assert (Hlen : 0 < lenN sc) by (rewrite Hmore; unfold lenN; rewrite length_app; simpl; lia).
  assert (Hidx : (N.to_nat (tie_break_index rng (lenN sc)) < length sc)%nat) by (unfold tie_break_index; pose proof (N.mod_lt rng (lenN sc)); unfold lenN in *; lia).
  apply lookup_lt_is_Some in Hidx as [e He]. rewrite He. assert (Hrest : heap_ok cmp rest) by (eapply (suffix_ok sc); rewrite Happ; exact Hok).
  destruct (push_all_spec (swap_remove sc (N.to_nat (tie_break_index rng (lenN sc)))) rest Hrest) as [H1 H2]. eexists _, _. split_and!; [done| |done|].
  - rewrite H2. change (first :: peek :: lane) with ([first] ++ peek :: lane). rewrite <-Happ. rewrite (swap_remove_Permutation _ _ _ He) at 1. done.
  - intros x Hx. rewrite (Hkey ltac:(by intros y ->%list_elem_of_singleton) e) by (by eapply list_elem_of_lookup_2). by apply Hfirst.
Qed.

(** What a lane loses: only entries of tasks that are not scheduled afterwards. *)
Record keeps lane lane' X : Prop := {
  keeps_ok : heap_ok cmp lane';
  keeps_old e : e ∈ lane' → e ∈ lane;
  keeps_valid e : e ∈ lane → task_of e ∈ X → e ∈ lane';
}.

Lemma keeps_refl lane X : heap_ok cmp lane → keeps lane lane X.
Proof. by split. Qed.

Lemma keeps_trans lane1 lane2 lane3 X X' : keeps lane1 lane2 X → X' ⊆ X → keeps lane2 lane3 X' → keeps lane1 lane3 X'.
Proof. intros [_ A2 A3] Hs [B1 B2 B3]. split; [done|auto|]. intros e He Hx. apply B3; [|done]. apply A3; [done|]. by apply Hs. Qed.

Lemma keeps_less lane lane' X X' : keeps lane lane' X → X' ⊆ X → keeps lane lane' X'.
Proof. intros [A1 A2 A3] Hs. split; [done|done|]. intros e He Hx. apply A3; [done|]. by apply Hs. Qed.

(** One round: an entry that ties with the first leaves, its task with it. *)
Lemma take_entry_spec lane set rng cap X : heap_ok cmp lane → set_rep set X → (∀ e, e ∈ lane → valid_task (task_of e)) →
  match take_entry cmp key task_of lane set rng cap with
  | None => lane = []
  | Some (lane', set', task, removed) => removed = bool_decide (task ∈ X) ∧ set_rep set' (X ∖ {[task]}) ∧ keeps lane lane' (X ∖ {[task]}) ∧ length lane = S (length lane') ∧
      ∃ e, e ∈ lane ∧ task_of e = task ∧ ∀ x, x ∈ lane → before (key e) (key x)
  end.
Proof.
  intros Hok Hr Hv. unfold take_entry. destruct lane as [|e0 lane0]; [done|]. destruct (pop_with_rng_spec (e0 :: lane0) rng cap Hok) as (e & lane' & -> & Hp & Hok' & Hb); [done|].
  assert (He : e ∈ e0 :: lane0) by (rewrite Hp; left). pose proof (remove_rep set X (task_of e) Hr (Hv e He)) as [H1 H2]. destruct (remove set (task_of e)) as [set' removed]. simpl in *.
  split_and!; [done|done| |by apply Permutation_length in Hp|eauto]. split; [done|intros x Hx; rewrite Hp; by right|]. intros x Hx Hxx. rewrite Hp in Hx. apply elem_of_cons in Hx as [->|Hx]; [|done]. set_solver.
Qed.

(** The loop without a hint: the first entry that counts. *)
Lemma pop_valid_spec lane set X : heap_ok cmp lane → set_rep set X → (∀ e, e ∈ lane → valid_task (task_of e)) →
  match pop_valid task_of lane set with
  | (None, lane', set') => set_rep set' X ∧ lane' = [] ∧ ∀ e, e ∈ lane → task_of e ∉ X
  | (Some e, lane', set') => e ∈ lane ∧ task_of e ∈ X ∧ set_rep set' (X ∖ {[task_of e]}) ∧ keeps lane lane' (X ∖ {[task_of e]}) ∧ (length lane' < length lane)%nat ∧
      ∀ x, x ∈ lane → task_of x ∈ X → cmp e x ≠ Lt
  end.
Proof.
  revert set. induction lane as [|e lane IH]; intros set Hok Hr Hv; simpl; [split_and!; [done|done|by intros e ?%not_elem_of_nil]|]. pose proof Hok as [Hok' Hge]%heap_tail_ok.
  pose proof (remove_rep set X (task_of e) Hr (Hv e ltac:(left))) as [H1 H2]. destruct (remove set (task_of e)) as [set' removed]. simpl in *. subst removed. case_bool_decide as Hx.
  - split_and!; [left|done|done| |lia|].
    + split; [done|by right|]. intros x [->|Hx']%elem_of_cons Hxx; [set_solver|done].
    + intros x [->|Hx']%elem_of_cons _; [by apply cmp_refl|by eapply Forall_forall in Hge].
  - replace (X ∖ {[task_of e]}) with X in H2 by set_solver. specialize (IH set' Hok' H2 ltac:(intros x Hx'; apply Hv; by right)). destruct (pop_valid task_of lane set') as [[[e'|] lane'] set''].
    + destruct IH as (I1 & I2 & I3 & [I4 I5 I6] & I7 & I8). split_and!; [by right|done|done| |lia|].
      * split; [done|intros x Hx'; right; by apply I5|]. intros x [->|Hx']%elem_of_cons Hxx; [set_solver|by apply I6].
      * intros x [->|Hx']%elem_of_cons Hxx; [done|by apply I8].
    + destruct IH as (I1 & I2 & I3). split_and!; [done|done|]. intros x [->|Hx']%elem_of_cons; [done|by apply I3].
Qed.

(** Pruning: stale entries at the front go. *)
Lemma prune_spec lane set X : heap_ok cmp lane → set_rep set X → (∀ e, e ∈ lane → valid_task (task_of e)) →
  keeps lane (prune_head task_of lane set) X ∧ (length (prune_head task_of lane set) ≤ length lane)%nat ∧
  match prune_head task_of lane set with
  | [] => ∀ e, e ∈ lane → task_of e ∉ X
  | e :: _ => task_of e ∈ X ∧ ∀ x, x ∈ lane → task_of x ∈ X → before (key e) (key x)
  end.
Proof.
  intros Hok Hr. induction lane as [|e lane IH]; intros Hv; simpl; [split_and!; [by apply keeps_refl|done|by intros e ?%not_elem_of_nil]|]. pose proof Hok as [Hok' Hge]%heap_tail_ok.
  rewrite (rep_contains set X (task_of e) Hr (Hv e ltac:(left))). case_bool_decide as Hx; simpl.
  - split_and!; [by apply keeps_refl|done|done|]. intros x [->|Hx']%elem_of_cons _; [done|]. apply key_ok. by eapply Forall_forall in Hge.
  - destruct (IH Hok') as ([I1 I2 I3] & I4 & I5); [intros x Hx'; apply Hv; by right|]. split_and!; [|lia|].
    + split; [done|intros x Hx'; right; by apply I2|]. intros x [->|Hx']%elem_of_cons Hxx; [done|by apply I3].
    + destruct (prune_head task_of lane set) as [|e' l']; [intros x [->|Hx']%elem_of_cons; [done|by apply I5]|]. split; [apply I5|]. intros x [->|Hx']%elem_of_cons Hxx; [done|by apply I5].
Qed.

End lane.

(** ** The scheduler *)

Implicit Types (s : Scheduler) (X : gset TaskId) (t : TaskId).

(** The scheduler holds the tasks of [X]: its set is [X], its lanes are heaps, and each
    task of [X] has an entry. *)
Record sched_rep s X : Prop := {
  sp_set : set_rep (scheduled s) X;
  sp_cancel : heap_ok entry_cmp (cancel_lane s);
  sp_timed : heap_ok timed_cmp (timed_lane s);
  sp_ready : heap_ok entry_cmp (ready_lane s);
  sp_entries e : e ∈ cancel_lane s ∨ e ∈ ready_lane s → valid_task (e_task e);
  sp_timers e : e ∈ timed_lane s → valid_task (t_task e);
  sp_cover t : t ∈ X → (∃ e, e ∈ cancel_lane s ∧ e_task e = t) ∨ (∃ e, e ∈ timed_lane s ∧ t_task e = t) ∨ (∃ e, e ∈ ready_lane s ∧ e_task e = t);
}.

Definition entries s : nat := length (cancel_lane s) + length (timed_lane s) + length (ready_lane s).

(** Only entries that do not count afterwards are gone. *)
Record kept s s' X : Prop := {
  kept_cancel : keeps entry_cmp e_task (cancel_lane s) (cancel_lane s') X;
  kept_timed : keeps timed_cmp t_task (timed_lane s) (timed_lane s') X;
  kept_ready : keeps entry_cmp e_task (ready_lane s) (ready_lane s') X;
  kept_generation : next_generation s' = next_generation s;
}.

Lemma kept_refl s X X' : sched_rep s X' → kept s s X.
Proof. intros []. split; [by apply keeps_refl..|done]. Qed.

Lemma kept_trans s1 s2 s3 X X' : kept s1 s2 X → X' ⊆ X → kept s2 s3 X' → kept s1 s3 X'.
Proof. intros [A1 A2 A3 A4] Hs [B1 B2 B3 B4]. split; [by eapply keeps_trans..|congruence]. Qed.

Lemma kept_rep s s' X X' : sched_rep s X → kept s s' X' → X' ⊆ X → set_rep (scheduled s') X' → sched_rep s' X'.
Proof.
  intros [P1 P2 P3 P4 P5 P6 P7] [[A1 A2 A3] [B1 B2 B3] [C1 C2 C3] _] Hs Hr. split; [done|done|done|done| | |].
  - intros e [He|He]; apply P5; [left|right]; auto.
  - intros e He. auto.
  - intros t Ht. destruct (P7 t (Hs t Ht)) as [(e & He & <-)|[(e & He & <-)|(e & He & <-)]]; [left|right; left|right; right]; exists e; auto.
Qed.

(** *** What dispatching may choose *)

Definition due_ok (due : option Time.t) (e : TimedEntry) : Prop := match due with None => True | Some now => t_deadline e ≤ now end.
Definition no_cancel s X : Prop := ∀ e, e ∈ cancel_lane s → e_task e ∉ X.
Definition no_timed (due : option Time.t) s X : Prop := ∀ e, e ∈ timed_lane s → t_task e ∈ X → ¬ due_ok due e.
Definition no_ready s X : Prop := ∀ e, e ∈ ready_lane s → e_task e ∉ X.

(** [t] leaves through [lane]: no lane before it had an entry that counts, and within
    the lane its entry is among the best that count. *)
Definition best (c : bool) (due : option Time.t) s X t (lane : DispatchLane) : Prop :=
  match lane with
  | Lane.Cancel => c = true ∧ ∃ e, e ∈ cancel_lane s ∧ e_task e = t ∧ ∀ x, x ∈ cancel_lane s → e_task x ∈ X → e_priority x ≤ e_priority e
  | Lane.Timed => (c = true → no_cancel s X) ∧
      ∃ e, e ∈ timed_lane s ∧ t_task e = t ∧ due_ok due e ∧ ∀ x, x ∈ timed_lane s → t_task x ∈ X → t_deadline e ≤ t_deadline x
  | Lane.Ready => (c = true → no_cancel s X) ∧ no_timed due s X ∧
      ∃ e, e ∈ ready_lane s ∧ e_task e = t ∧ ∀ x, x ∈ ready_lane s → e_task x ∈ X → e_priority x ≤ e_priority e
  | Lane.Stolen => False
  end.

Definition outcome (c : bool) (due : option Time.t) s X s' (r : option (TaskId * DispatchLane)) : Prop :=
  match r with
  | None => sched_rep s' X ∧ kept s s' X ∧ (c = true → no_cancel s X) ∧ no_timed due s X ∧ no_ready s X
  | Some (t, lane) => t ∈ X ∧ sched_rep s' (X ∖ {[t]}) ∧ kept s s' (X ∖ {[t]}) ∧ best c due s X t lane
  end.

Lemma best_kept c due s s1 X t lane : kept s s1 X → t ∈ X → best c due s1 X t lane → best c due s X t lane.
Proof.
  intros [[A1 A2 A3] [B1 B2 B3] [C1 C2 C3] _] Ht. destruct lane; simpl; [| | |done].
  - intros [Hc (e & He & Hte & Hb)]. split; [done|]. exists e. split_and!; [auto|done|]. intros x Hx Hxx. apply Hb; auto.
  - intros [Hc (e & He & Hte & Hd & Hb)]. split; [intros ? x Hx Hxx; eapply (Hc ltac:(done) x); auto|]. exists e. split_and!; [auto|done|done|]. intros x Hx Hxx. apply Hb; auto.
  - intros (Hc & Hd & e & He & Hte & Hb). split_and!; [intros ? x Hx Hxx; eapply (Hc ltac:(done) x); auto|intros x Hx Hxx; apply Hd; auto|]. exists e. split_and!; [auto|done|]. intros x Hx Hxx. apply Hb; auto.
Qed.

Lemma outcome_kept c due s s1 X s' r : kept s s1 X → outcome c due s1 X s' r → outcome c due s X s' r.
Proof.
  intros Hk. destruct r as [[t lane]|]; simpl.
  - intros (Ht & Hr & Hk' & Hb). split_and!; [done|done|eapply kept_trans; [exact Hk|set_solver|done]|by eapply best_kept].
  - intros (Hr & Hk' & Hc & Hd & Hn). pose proof Hk as [[A1 A2 A3] [B1 B2 B3] [C1 C2 C3] _]. split_and!; [done|by eapply kept_trans|..].
    + intros ? x Hx Hxx. eapply (Hc ltac:(done) x); auto.
    + intros x Hx Hxx. apply Hd; auto.
    + intros x Hx Hxx. eapply (Hn x); auto.
Qed.

(** *** One round *)

Definition by_priority (a b : N) : Prop := b ≤ a.
#[local] Instance by_priority_preorder : PreOrder by_priority.
Proof. split; [intros x; unfold by_priority; lia|intros x y z; unfold by_priority; lia]. Qed.
#[local] Instance by_deadline_preorder : PreOrder N.le := _.

Lemma entry_key_ok a b : entry_cmp a b ≠ Lt → by_priority (e_priority a) (e_priority b).
Proof. rewrite entry_ge_iff. unfold by_priority. lia. Qed.
Lemma timed_key_ok a b : timed_cmp a b ≠ Lt → t_deadline a ≤ t_deadline b.
Proof. rewrite timed_ge_iff. lia. Qed.

Ltac same_lanes H := split; [first [done|by apply keeps_refl, H]..|done].

Lemma take_cancel_spec s X rng : sched_rep s X →
  match take_cancel s rng with
  | None => cancel_lane s = []
  | Some (s1, t, b) => b = bool_decide (t ∈ X) ∧ sched_rep s1 (X ∖ {[t]}) ∧ kept s s1 (X ∖ {[t]}) ∧ (entries s1 < entries s)%nat ∧
      ∃ e, e ∈ cancel_lane s ∧ e_task e = t ∧ ∀ x, x ∈ cancel_lane s → e_priority x ≤ e_priority e
  end.
Proof.
  intros Hr. pose proof (take_entry_spec entry_cmp e_priority e_task by_priority entry_key_ok (cancel_lane s) (scheduled s) rng (scratch_entries s) X (sp_cancel s X Hr) (sp_set s X Hr)
    (λ e He, sp_entries s X Hr e (or_introl He))) as Ht. unfold take_cancel. destruct (take_entry _ _ _ _ _ _ _) as [[[[lane' set'] t] b]|]; [|done].
  destruct Ht as (H1 & H2 & H3 & H4 & H5). assert (Hk : kept s (set_cancel s lane' set') (X ∖ {[t]})) by same_lanes Hr. split_and!; [done|eapply kept_rep; [done|done|set_solver|done]|done|unfold entries; simpl; lia|done].
Qed.

Lemma take_timed_spec s X rng : sched_rep s X →
  match take_timed s rng with
  | None => timed_lane s = []
  | Some (s1, t, b) => b = bool_decide (t ∈ X) ∧ sched_rep s1 (X ∖ {[t]}) ∧ kept s s1 (X ∖ {[t]}) ∧ (entries s1 < entries s)%nat ∧
      ∃ e, e ∈ timed_lane s ∧ t_task e = t ∧ ∀ x, x ∈ timed_lane s → t_deadline e ≤ t_deadline x
  end.
Proof.
  intros Hr. pose proof (take_entry_spec timed_cmp t_deadline t_task N.le timed_key_ok (timed_lane s) (scheduled s) rng (scratch_timed s) X (sp_timed s X Hr) (sp_set s X Hr)
    (sp_timers s X Hr)) as Ht. unfold take_timed. destruct (take_entry _ _ _ _ _ _ _) as [[[[lane' set'] t] b]|]; [|done].
  destruct Ht as (H1 & H2 & H3 & H4 & H5). assert (Hk : kept s (set_timed s lane' set') (X ∖ {[t]})) by same_lanes Hr. split_and!; [done|eapply kept_rep; [done|done|set_solver|done]|done|unfold entries; simpl; lia|done].
Qed.

Lemma take_ready_spec s X rng : sched_rep s X →
  match take_ready s rng with
  | None => ready_lane s = []
  | Some (s1, t, b) => b = bool_decide (t ∈ X) ∧ sched_rep s1 (X ∖ {[t]}) ∧ kept s s1 (X ∖ {[t]}) ∧ (entries s1 < entries s)%nat ∧
      ∃ e, e ∈ ready_lane s ∧ e_task e = t ∧ ∀ x, x ∈ ready_lane s → e_priority x ≤ e_priority e
  end.
Proof.
  intros Hr. pose proof (take_entry_spec entry_cmp e_priority e_task by_priority entry_key_ok (ready_lane s) (scheduled s) rng (scratch_entries s) X (sp_ready s X Hr) (sp_set s X Hr)
    (λ e He, sp_entries s X Hr e (or_intror He))) as Ht. unfold take_ready. destruct (take_entry _ _ _ _ _ _ _) as [[[[lane' set'] t] b]|]; [|done].
  destruct Ht as (H1 & H2 & H3 & H4 & H5). assert (Hk : kept s (set_ready s lane' set') (X ∖ {[t]})) by same_lanes Hr. split_and!; [done|eapply kept_rep; [done|done|set_solver|done]|done|unfold entries; simpl; lia|done].
Qed.

(** Looking at a lane prunes it. *)
Lemma next_timed_spec s X : sched_rep s X →
  let '(s1, e) := next_valid_timed_entry s in sched_rep s1 X ∧ kept s s1 X ∧ (entries s1 ≤ entries s)%nat ∧ e = head (timed_lane s1) ∧ cancel_lane s1 = cancel_lane s ∧ ready_lane s1 = ready_lane s ∧
    match e with
    | Some e => t_task e ∈ X ∧ ∀ x, x ∈ timed_lane s → t_task x ∈ X → t_deadline e ≤ t_deadline x
    | None => no_timed None s X
    end.
Proof.
  intros Hr. unfold next_valid_timed_entry. pose proof (prune_spec timed_cmp t_deadline t_task N.le timed_key_ok (timed_lane s) (scheduled s) X (sp_timed s X Hr) (sp_set s X Hr) (sp_timers s X Hr)) as (H1 & H2 & H3).
  set (lane := prune_head t_task (timed_lane s) (scheduled s)) in *. assert (Hk : kept s (set_timed s lane (scheduled s)) X) by same_lanes Hr.
  split_and!; [eapply kept_rep; [done|done|done|apply Hr]|done|unfold entries; simpl; lia|done|done|done|]. destruct lane as [|e lane]; simpl; [|done]. intros x Hx Hxx. by destruct (H3 x Hx).
Qed.

Lemma next_entry_spec s X (lane : list SchedulerEntry) (put : list SchedulerEntry → ScheduledSet → Scheduler) : sched_rep s X →
  heap_ok entry_cmp lane → (∀ e, e ∈ lane → valid_task (e_task e)) → (∀ lane', keeps entry_cmp e_task lane lane' X → kept s (put lane' (scheduled s)) X) → (∀ lane', scheduled (put lane' (scheduled s)) = scheduled s) →
  let lane' := prune_head e_task lane (scheduled s) in
  sched_rep (put lane' (scheduled s)) X ∧ kept s (put lane' (scheduled s)) X ∧
  match head lane' with
  | Some e => e ∈ lane ∧ e_task e ∈ X ∧ ∀ x, x ∈ lane → e_task x ∈ X → e_priority x ≤ e_priority e
  | None => ∀ e, e ∈ lane → e_task e ∉ X
  end.
Proof.
  intros Hr Hok Hv Hput Hset lane'. pose proof (prune_spec entry_cmp e_priority e_task by_priority entry_key_ok lane (scheduled s) X Hok (sp_set s X Hr) Hv) as (H1 & H2 & H3). fold lane' in H1, H2, H3.
  pose proof (Hput _ H1) as Hk. split_and!; [eapply kept_rep; [done|done|done|rewrite Hset; apply Hr]|done|]. destruct lane' as [|e l]; simpl; [done|]. split; [apply (keeps_old _ _ _ _ _ H1); left|done].
Qed.

Lemma next_cancel_spec s X : sched_rep s X →
  let '(s1, e) := next_valid_cancel_entry s in sched_rep s1 X ∧ kept s s1 X ∧
    match e with Some e => e ∈ cancel_lane s ∧ e_task e ∈ X ∧ ∀ x, x ∈ cancel_lane s → e_task x ∈ X → e_priority x ≤ e_priority e | None => no_cancel s X end.
Proof.
  intros Hr. apply (next_entry_spec s X (cancel_lane s) (set_cancel s)); [done|apply Hr|intros e He; apply (sp_entries s X Hr); by left|intros lane' Hk; same_lanes Hr|done].
Qed.

Lemma next_ready_spec s X : sched_rep s X →
  let '(s1, e) := next_valid_ready_entry s in sched_rep s1 X ∧ kept s s1 X ∧
    match e with Some e => e ∈ ready_lane s ∧ e_task e ∈ X ∧ ∀ x, x ∈ ready_lane s → e_task x ∈ X → e_priority x ≤ e_priority e | None => no_ready s X end.
Proof.
  intros Hr. apply (next_entry_spec s X (ready_lane s) (set_ready s)); [done|apply Hr|intros e He; apply (sp_entries s X Hr); by right|intros lane' Hk; same_lanes Hr|done].
Qed.

Lemma timed_due_spec s X now : sched_rep s X →
  let '(s1, due) := timed_due s now in sched_rep s1 X ∧ kept s s1 X ∧ (entries s1 ≤ entries s)%nat ∧ cancel_lane s1 = cancel_lane s ∧ ready_lane s1 = ready_lane s ∧
    (due = true → ∃ e, head (timed_lane s1) = Some e ∧ t_task e ∈ X ∧ t_deadline e ≤ now) ∧ (due = false → no_timed (Some now) s X).
Proof.
  intros Hr. unfold timed_due. pose proof (next_timed_spec s X Hr) as Hn. destruct (next_valid_timed_entry s) as [s1 e]. destruct Hn as (H1 & H2 & H3 & H4 & H5 & H6 & H7).
  split_and!; try done; destruct e as [e|].
  - intros Hd. N_bools. exists e. split_and!; [done|apply H7|done].
  - done.
  - intros Hd x Hx Hxx. N_bools. simpl. destruct H7 as [_ H7]. specialize (H7 x Hx Hxx). lia.
  - intros _ x Hx Hxx. by destruct (H7 x Hx Hxx).
Qed.

(** *** The loops with a hint *)

Lemma round c due s X s1 t b lane k : b = bool_decide (t ∈ X) → sched_rep s1 (X ∖ {[t]}) → kept s s1 (X ∖ {[t]}) → (t ∈ X → best c due s X t lane) →
  (sched_rep s1 X → ∃ s' r, k = Returns (s', r) ∧ outcome c due s1 X s' r) →
  ∃ s' r, (if b then Returns (s1, Some (t, lane)) else k) = Returns (s', r) ∧ outcome c due s X s' r.
Proof.
  intros -> Hr Hk Hb Hrest. case_bool_decide as Hx; [eexists _, _; split; [done|]; simpl; auto|]. replace (X ∖ {[t]}) with X in Hr, Hk by set_solver.
  destruct (Hrest Hr) as (s' & r & -> & Ho). eexists _, _. split; [done|by eapply outcome_kept].
Qed.

Lemma nil_no_cancel s X : cancel_lane s = [] → no_cancel s X.
Proof. intros H e. rewrite H. by intros ?%not_elem_of_nil. Qed.
Lemma nil_no_ready s X : ready_lane s = [] → no_ready s X.
Proof. intros H e. rewrite H. by intros ?%not_elem_of_nil. Qed.
Lemma nil_no_timed due s X : timed_lane s = [] → no_timed due s X.
Proof. intros H e. rewrite H. by intros ?%not_elem_of_nil. Qed.

Lemma pop_with_lane_loop_spec fuel s X rng : sched_rep s X → (entries s < fuel)%nat →
  ∃ s' r, pop_with_lane_loop fuel s rng = Returns (s', r) ∧ outcome true None s X s' r.
Proof.
  revert s. induction fuel as [|fuel IH]; intros s Hr Hf; [lia|]. cbn [pop_with_lane_loop].
  pose proof (take_cancel_spec s X rng Hr) as Hc. destruct (take_cancel s rng) as [[[s1 t] b]|].
  { destruct Hc as (Hb & Hr1 & Hk & Hl & e & He & Ht & Hm). eapply round; [done|done|done| |intros; apply IH; [done|lia]]. intros _. split; [done|]. exists e. auto. }
  apply (nil_no_cancel s X) in Hc. pose proof (take_timed_spec s X rng Hr) as Ht. destruct (take_timed s rng) as [[[s1 t] b]|].
  { destruct Ht as (Hb & Hr1 & Hk & Hl & e & He & Ht & Hm). eapply round; [done|done|done| |intros; apply IH; [done|lia]]. intros _. split; [done|]. exists e. split_and!; [done|done|done|auto]. }
  apply (nil_no_timed None s X) in Ht. pose proof (take_ready_spec s X rng Hr) as Hy. destruct (take_ready s rng) as [[[s1 t] b]|].
  { destruct Hy as (Hb & Hr1 & Hk & Hl & e & He & Hte & Hm). eapply round; [done|done|done| |intros; apply IH; [done|lia]]. intros _. split_and!; [done|done|]. exists e. auto. }
  eexists _, _. split; [done|]. split_and!; [done|by eapply kept_refl|done|done|by apply nil_no_ready].
Qed.

Lemma pop_non_cancel_loop_spec fuel s X rng : sched_rep s X → (entries s < fuel)%nat →
  ∃ s' r, pop_non_cancel_loop fuel s rng = Returns (s', r) ∧ outcome false None s X s' r.
Proof.
  revert s. induction fuel as [|fuel IH]; intros s Hr Hf; [lia|]. cbn [pop_non_cancel_loop].
  pose proof (take_timed_spec s X rng Hr) as Ht. destruct (take_timed s rng) as [[[s1 t] b]|].
  { destruct Ht as (Hb & Hr1 & Hk & Hl & e & He & Ht & Hm). eapply round; [done|done|done| |intros; apply IH; [done|lia]]. intros _. split; [done|]. exists e. split_and!; [done|done|done|auto]. }
  apply (nil_no_timed None s X) in Ht. pose proof (take_ready_spec s X rng Hr) as Hy. destruct (take_ready s rng) as [[[s1 t] b]|].
  { destruct Hy as (Hb & Hr1 & Hk & Hl & e & He & Hte & Hm). eapply round; [done|done|done| |intros; apply IH; [done|lia]]. intros _. split_and!; [done|done|]. exists e. auto. }
  eexists _, _. split; [done|]. split_and!; [done|by eapply kept_refl|done|done|by apply nil_no_ready].
Qed.

Lemma pop_if_due_loop_spec fuel c s X rng now : sched_rep s X → (entries s < fuel)%nat →
  ∃ s' r, pop_if_due_loop fuel c s rng now = Returns (s', r) ∧ outcome c (Some now) s X s' r.
Proof.
  revert s. induction fuel as [|fuel IH]; intros s Hr Hf; [lia|]. cbn [pop_if_due_loop].
  assert (Hcancel : match (if c then take_cancel s rng else None) with
    | Some (s1, t, b) => c = true ∧ b = bool_decide (t ∈ X) ∧ sched_rep s1 (X ∖ {[t]}) ∧ kept s s1 (X ∖ {[t]}) ∧ (entries s1 < entries s)%nat ∧
      ∃ e, e ∈ cancel_lane s ∧ e_task e = t ∧ ∀ x, x ∈ cancel_lane s → e_priority x ≤ e_priority e
    | None => c = true → no_cancel s X end).
  { destruct c; [|done]. pose proof (take_cancel_spec s X rng Hr) as Hc. destruct (take_cancel s rng) as [[[s1 t] b]|]; [done|]. intros _. by apply nil_no_cancel. }
  destruct (if c then take_cancel s rng else None) as [[[s1 t] b]|].
  { destruct Hcancel as (-> & Hb & Hr1 & Hk & Hl & e & He & Ht & Hm). eapply round; [done|done|done| |intros; apply IH; [done|lia]]. intros _. split; [done|]. exists e. auto. }
  pose proof (timed_due_spec s X now Hr) as Hd. destruct (timed_due s now) as [s0 due]. destruct Hd as (Hr0 & Hk0 & Hl0 & Hc0 & Hy0 & Hdue & Hno).
  assert (Hcancel0 : c = true → no_cancel s0 X) by (intros Hc e; rewrite Hc0; by apply Hcancel).
  assert (Hmain : ∃ s' r, match (if due then take_timed s0 rng else None) with
      | Some (s1, t, b) => if b : bool then Returns (s1, Some (t, Lane.Timed)) else pop_if_due_loop fuel c s1 rng now
      | None => match take_ready s0 rng with
        | Some (s1, t, b) => if b : bool then Returns (s1, Some (t, Lane.Ready)) else pop_if_due_loop fuel c s1 rng now
        | None => Returns (s0, None) end end = Returns (s', r) ∧ outcome c (Some now) s0 X s' r).
  { destruct due.
    - destruct (Hdue eq_refl) as (e0 & Hhead & He0x & He0d). assert (He0 : e0 ∈ timed_lane s0) by (by apply head_Some_elem_of). pose proof (take_timed_spec s0 X rng Hr0) as Ht.
      destruct (take_timed s0 rng) as [[[s1 t] b]|]; [|rewrite Ht in He0; by apply not_elem_of_nil in He0].
      destruct Ht as (Hb & Hr1 & Hk & Hl & e & He & Ht & Hm). eapply round; [done|done|done| |intros; apply IH; [done|lia]]. intros _. split; [done|]. exists e.
      split_and!; [done|done| |auto]. simpl. specialize (Hm e0 He0). lia.
    - specialize (Hno eq_refl). assert (Hno0 : no_timed (Some now) s0 X) by (intros e He; apply Hno; by apply (keeps_old _ _ _ _ _ (kept_timed _ _ _ Hk0))).
      pose proof (take_ready_spec s0 X rng Hr0) as Hy. destruct (take_ready s0 rng) as [[[s1 t] b]|].
      + destruct Hy as (Hb & Hr1 & Hk & Hl & e & He & Hte & Hm). eapply round; [done|done|done| |intros; apply IH; [done|lia]]. intros _. split_and!; [done|done|]. exists e. auto.
      + eexists _, _. split; [done|]. split_and!; [done|by eapply kept_refl|done|done|by apply nil_no_ready]. }
  destruct Hmain as (s' & r & E & Ho). exists s', r. split; [exact E|by eapply outcome_kept].
Qed.

(** *** Loops over one lane *)

Definition best_ready s X t : Prop := ∃ e, e ∈ ready_lane s ∧ e_task e = t ∧ ∀ x, x ∈ ready_lane s → e_task x ∈ X → e_priority x ≤ e_priority e.

Section one_lane.
Context (X : gset TaskId) (nothing : Scheduler → Prop) (good : Scheduler → TaskId → Prop).
Context (nothing_kept : ∀ s s1, kept s s1 X → nothing s1 → nothing s) (good_kept : ∀ s s1 t, kept s s1 X → t ∈ X → good s1 t → good s t).

Definition lane_outcome s s' (r : option TaskId) : Prop :=
  match r with
  | None => sched_rep s' X ∧ kept s s' X ∧ nothing s
  | Some t => t ∈ X ∧ sched_rep s' (X ∖ {[t]}) ∧ kept s s' (X ∖ {[t]}) ∧ good s t
  end.

Lemma lane_outcome_kept s s1 s' r : kept s s1 X → lane_outcome s1 s' r → lane_outcome s s' r.
Proof.
  intros Hk. destruct r as [t|]; simpl.
  - intros (Ht & Hr & Hk' & Hb). split_and!; [done|done|eapply kept_trans; [exact Hk|set_solver|done]|by eapply good_kept].
  - intros (Hr & Hk' & Hn). split_and!; [done|by eapply kept_trans|by eapply nothing_kept].
Qed.

Lemma lane_round s s1 t b k : b = bool_decide (t ∈ X) → sched_rep s1 (X ∖ {[t]}) → kept s s1 (X ∖ {[t]}) → (t ∈ X → good s t) →
  (sched_rep s1 X → ∃ s' r, k = Returns (s', r) ∧ lane_outcome s1 s' r) →
  ∃ s' r, (if b then Returns (s1, Some t) else k) = Returns (s', r) ∧ lane_outcome s s' r.
Proof.
  intros -> Hr Hk Hb Hrest. case_bool_decide as Hx; [eexists _, _; split; [done|]; simpl; auto|]. replace (X ∖ {[t]}) with X in Hr, Hk by set_solver.
  destruct (Hrest Hr) as (s' & r & -> & Ho). eexists _, _. split; [done|by eapply lane_outcome_kept].
Qed.

End one_lane.

Definition cancel_outcome s X := lane_outcome X (λ s, no_cancel s X) (λ s t, best true None s X t Lane.Cancel) s.
Definition ready_outcome s X := lane_outcome X (λ s, no_ready s X) (λ s t, best_ready s X t) s.
Definition timed_outcome now s X := lane_outcome X (λ s, no_timed (Some now) s X) (λ s t, best false (Some now) s X t Lane.Timed) s.

Lemma no_cancel_kept X s s1 : kept s s1 X → no_cancel s1 X → no_cancel s X.
Proof. intros [[A1 A2 A3] _ _ _] H e He Hx. apply (H e); auto. Qed.
Lemma no_ready_kept X s s1 : kept s s1 X → no_ready s1 X → no_ready s X.
Proof. intros [_ _ [A1 A2 A3] _] H e He Hx. apply (H e); auto. Qed.
Lemma no_timed_kept due X s s1 : kept s s1 X → no_timed due s1 X → no_timed due s X.
Proof. intros [_ [A1 A2 A3] _ _] H e He Hx. apply (H e); auto. Qed.
Lemma best_ready_kept X s s1 t : kept s s1 X → t ∈ X → best_ready s1 X t → best_ready s X t.
Proof. intros [_ _ [A1 A2 A3] _] Ht (e & He & Hte & Hb). exists e. split_and!; [auto|done|]. intros x Hx Hxx. apply Hb; auto. Qed.

Lemma pop_cancel_loop_spec fuel s X rng : sched_rep s X → (entries s < fuel)%nat → ∃ s' r, pop_cancel_loop fuel s rng = Returns (s', r) ∧ cancel_outcome s X s' r.
Proof.
  revert s. induction fuel as [|fuel IH]; intros s Hr Hf; [lia|]. cbn [pop_cancel_loop]. pose proof (take_cancel_spec s X rng Hr) as Hc. destruct (take_cancel s rng) as [[[s1 t] b]|].
  - destruct Hc as (Hb & Hr1 & Hk & Hl & e & He & Ht & Hm). eapply lane_round; [apply no_cancel_kept|intros; by eapply best_kept|done|done|done| |intros; apply IH; [done|lia]]. intros _. split; [done|]. exists e. auto.
  - eexists _, _. split; [done|]. split_and!; [done|by eapply kept_refl|by apply nil_no_cancel].
Qed.

Lemma pop_ready_loop_spec fuel s X rng : sched_rep s X → (entries s < fuel)%nat → ∃ s' r, pop_ready_loop fuel s rng = Returns (s', r) ∧ ready_outcome s X s' r.
Proof.
  revert s. induction fuel as [|fuel IH]; intros s Hr Hf; [lia|]. cbn [pop_ready_loop]. pose proof (take_ready_spec s X rng Hr) as Hc. destruct (take_ready s rng) as [[[s1 t] b]|].
  - destruct Hc as (Hb & Hr1 & Hk & Hl & e & He & Ht & Hm). eapply lane_round; [apply no_ready_kept|apply best_ready_kept|done|done|done| |intros; apply IH; [done|lia]]. intros _. exists e. auto.
  - eexists _, _. split; [done|]. split_and!; [done|by eapply kept_refl|by apply nil_no_ready].
Qed.

(** The three loops over timed entries that are due differ in how the entry leaves. *)
Lemma timed_loop_spec (loop : nat → Scheduler → run (Scheduler * option TaskId)) (take : Scheduler → option (Scheduler * TaskId * bool)) now X :
  (∀ fuel s, ∃ none, loop (S fuel) s = (let '(s, due) := timed_due s now in
     if due : bool then match take s with Some (s, task, removed) => if removed : bool then Returns (s, Some task) else loop fuel s | None => none end else Returns (s, None))) →
  (∀ s, sched_rep s X → match take s with
    | None => timed_lane s = []
    | Some (s1, t, b) => b = bool_decide (t ∈ X) ∧ sched_rep s1 (X ∖ {[t]}) ∧ kept s s1 (X ∖ {[t]}) ∧ (entries s1 < entries s)%nat ∧
        ∃ e, e ∈ timed_lane s ∧ t_task e = t ∧ ∀ x, x ∈ timed_lane s → t_deadline e ≤ t_deadline x end) →
  ∀ fuel s, sched_rep s X → (entries s < fuel)%nat → ∃ s' r, loop fuel s = Returns (s', r) ∧ timed_outcome now s X s' r.
Proof.
  intros Hloop Htake fuel. induction fuel as [|fuel IH]; intros s Hr Hf; [lia|]. destruct (Hloop fuel s) as (none & ->).
  pose proof (timed_due_spec s X now Hr) as Hd. destruct (timed_due s now) as [s0 due]. destruct Hd as (Hr0 & Hk0 & Hl0 & Hc0 & Hy0 & Hdue & Hno). destruct due.
  - destruct (Hdue eq_refl) as (e0 & Hhead & He0x & He0d). assert (He0 : e0 ∈ timed_lane s0) by (by apply head_Some_elem_of). pose proof (Htake s0 Hr0) as Ht.
    destruct (take s0) as [[[s1 t] b]|]; [|rewrite Ht in He0; by apply not_elem_of_nil in He0]. destruct Ht as (Hb & Hr1 & Hk & Hl & e & He & Ht & Hm).
    destruct (lane_round X (λ s, no_timed (Some now) s X) (λ s t, best false (Some now) s X t Lane.Timed) (no_timed_kept _ X) (λ s s1 t Hk Ht, best_kept _ _ s s1 X t Lane.Timed Hk Ht) s0 s1 t b (loop fuel s1) Hb Hr1 Hk) as (s' & r & -> & Ho).
    + intros _. split; [done|]. exists e. split_and!; [done|done|simpl; specialize (Hm e0 He0); lia|auto].
    + intros. apply IH; [done|lia].
    + eexists _, _. split; [done|]. eapply lane_outcome_kept; [apply no_timed_kept|intros; by eapply best_kept|done|done].
  - eexists _, _. split; [done|]. split_and!; [done|done|by apply Hno].
Qed.

(** Popping the head of the timed lane. *)
Definition take_timed_head s : option (Scheduler * TaskId * bool) :=
  match timed_lane s with
  | e :: lane => let '(set, removed) := remove (scheduled s) (t_task e) in Some (set_timed s lane set, t_task e, removed)
  | [] => None
  end.

Lemma take_timed_head_spec s X : sched_rep s X →
  match take_timed_head s with
  | None => timed_lane s = []
  | Some (s1, t, b) => b = bool_decide (t ∈ X) ∧ sched_rep s1 (X ∖ {[t]}) ∧ kept s s1 (X ∖ {[t]}) ∧ (entries s1 < entries s)%nat ∧
      ∃ e, e ∈ timed_lane s ∧ t_task e = t ∧ ∀ x, x ∈ timed_lane s → t_deadline e ≤ t_deadline x
  end.
Proof.
  intros Hr. unfold take_timed_head. pose proof (sp_timed s X Hr) as Hok. destruct (timed_lane s) as [|e lane] eqn:Hl; [done|].
  assert (Hv : valid_task (t_task e)) by (apply (sp_timers s X Hr); rewrite Hl; left). pose proof (remove_rep _ X (t_task e) (sp_set s X Hr) Hv) as [H1 H2]. destruct (remove (scheduled s) (t_task e)) as [set' b]. simpl in *.
  pose proof Hok as [Hok' Hge]%heap_tail_ok. assert (Hk : kept s (set_timed s lane set') (X ∖ {[t_task e]})).
  { split; [by apply keeps_refl, Hr| |by apply keeps_refl, Hr|done]. simpl. rewrite Hl. split; [done|by right|]. intros x [->|Hx]%elem_of_cons Hxx; [set_solver|done]. }
  split_and!; [done|eapply kept_rep; [done|done|set_solver|done]|done|unfold entries; simpl; rewrite Hl; simpl; lia|]. exists e. split_and!; [left|done|].
  intros x [->|Hx]%elem_of_cons; [lia|]. eapply Forall_forall in Hge; [|exact Hx]. by apply timed_key_ok.
Qed.

Lemma pop_timed_due_loop_spec fuel s X rng now : sched_rep s X → (entries s < fuel)%nat → ∃ s' r, pop_timed_due_loop fuel s rng now = Returns (s', r) ∧ timed_outcome now s X s' r.
Proof. apply (timed_loop_spec (λ fuel s, pop_timed_due_loop fuel s rng now) (λ s, take_timed s rng)); [intros f s'; by eexists|intros s' Hr; by apply take_timed_spec]. Qed.

Lemma pop_timed_any_loop_spec fuel s X rng now : sched_rep s X → (entries s < fuel)%nat → ∃ s' r, pop_timed_any_loop fuel s rng now = Returns (s', r) ∧ timed_outcome now s X s' r.
Proof.
  revert s. induction fuel as [|fuel IH]; intros s Hr Hf; [lia|]. destruct (pop_timed_due_loop_spec (S fuel) s X rng now Hr Hf) as (s' & r & E & Ho).
  assert (Heq : ∀ f s1 s2 r, pop_timed_due_loop f s1 rng now = Returns (s2, r) → pop_timed_any_loop f s1 rng now = Returns (s2, r)).
  { clear. induction f as [|f IH]; intros s1 s2 r; [done|]. cbn [pop_timed_due_loop pop_timed_any_loop]. destruct (timed_due s1 now) as [s0 []]; [|done].
    destruct (take_timed s0 rng) as [[[s3 t] []]|]; [done|apply IH|done]. }
  eauto.
Qed.

Lemma pop_timed_only_loop_spec fuel s X now : sched_rep s X → (entries s < fuel)%nat → ∃ s' r, pop_timed_only_loop fuel s now = Returns (s', r) ∧ timed_outcome now s X s' r.
Proof.
  apply (timed_loop_spec (λ fuel s, pop_timed_only_loop fuel s now) take_timed_head); [|intros s' Hr; by apply take_timed_head_spec]. intros f s'. exists Panicked. cbn [pop_timed_only_loop].
  destruct (timed_due s' now) as [s0 []]; [|done]. unfold take_timed_head. destruct (timed_lane s0) as [|e lane]; [done|]. by destruct (remove (scheduled s0) (t_task e)).
Qed.

(** *** [pop]: the first entry that counts *)

Definition first_of {E} (cmp : E → E → comparison) (task_of : E → TaskId) (lane : list E) X t : Prop :=
  ∃ e, e ∈ lane ∧ task_of e = t ∧ ∀ x, x ∈ lane → task_of x ∈ X → cmp e x ≠ Lt.

(** Cancel lane, then timed lane, then ready lane; in each, the order of the lane. *)
Definition first_valid s X t : Prop :=
  first_of entry_cmp e_task (cancel_lane s) X t ∨
  (no_cancel s X ∧ first_of timed_cmp t_task (timed_lane s) X t) ∨
  (no_cancel s X ∧ no_timed None s X ∧ first_of entry_cmp e_task (ready_lane s) X t).

Definition popped s X s' (r : option TaskId) : Prop :=
  match r with
  | None => sched_rep s' X ∧ kept s s' X ∧ no_cancel s X ∧ no_timed None s X ∧ no_ready s X
  | Some t => t ∈ X ∧ sched_rep s' (X ∖ {[t]}) ∧ kept s s' (X ∖ {[t]}) ∧ first_valid s X t
  end.

Lemma empty_keeps {E} (cmp : E → E → comparison) (task_of : E → TaskId) lane X : (∀ e, e ∈ lane → task_of e ∉ X) → keeps cmp task_of lane [] X.
Proof. intros H. split; [constructor|by intros e ?%not_elem_of_nil|]. intros e He Hx. by destruct (H e He). Qed.

Lemma pop_cancel_only_spec s X : sched_rep s X → let '(s', r) := pop_cancel_only s in
  match r with
  | None => sched_rep s' X ∧ kept s s' X ∧ no_cancel s X ∧ timed_lane s' = timed_lane s ∧ ready_lane s' = ready_lane s
  | Some t => t ∈ X ∧ sched_rep s' (X ∖ {[t]}) ∧ kept s s' (X ∖ {[t]}) ∧ first_of entry_cmp e_task (cancel_lane s) X t
  end.
Proof.
  intros Hr. unfold pop_cancel_only. pose proof (pop_valid_spec entry_cmp e_priority e_task by_priority entry_key_ok (cancel_lane s) (scheduled s) X (sp_cancel s X Hr) (sp_set s X Hr) (λ e He, sp_entries s X Hr e (or_introl He))) as Hp.
  destruct (pop_valid e_task (cancel_lane s) (scheduled s)) as [[[e|] lane'] set']; simpl.
  - destruct Hp as (H1 & H2 & H3 & H4 & H5 & H6). assert (Hk : kept s (set_cancel s lane' set') (X ∖ {[e_task e]})) by same_lanes Hr. split_and!; [done|eapply kept_rep; [done|done|set_solver|done]|done|by exists e].
  - destruct Hp as (H1 & -> & H3). assert (Hk : kept s (set_cancel s [] set') X) by (split; [by apply empty_keeps|by apply keeps_refl, Hr|by apply keeps_refl, Hr|done]).
    split_and!; [eapply kept_rep; [done|done|done|done]|done|done|done|done].
Qed.

Lemma pop_timed_any_spec s X : sched_rep s X → let '(s', r) := pop_timed_any s in
  match r with
  | None => sched_rep s' X ∧ kept s s' X ∧ no_timed None s X ∧ ready_lane s' = ready_lane s
  | Some t => t ∈ X ∧ sched_rep s' (X ∖ {[t]}) ∧ kept s s' (X ∖ {[t]}) ∧ first_of timed_cmp t_task (timed_lane s) X t
  end.
Proof.
  intros Hr. unfold pop_timed_any. pose proof (pop_valid_spec timed_cmp t_deadline t_task N.le timed_key_ok (timed_lane s) (scheduled s) X (sp_timed s X Hr) (sp_set s X Hr) (sp_timers s X Hr)) as Hp.
  destruct (pop_valid t_task (timed_lane s) (scheduled s)) as [[[e|] lane'] set']; simpl.
  - destruct Hp as (H1 & H2 & H3 & H4 & H5 & H6). assert (Hk : kept s (set_timed s lane' set') (X ∖ {[t_task e]})) by same_lanes Hr. split_and!; [done|eapply kept_rep; [done|done|set_solver|done]|done|by exists e].
  - destruct Hp as (H1 & -> & H3). assert (Hk : kept s (set_timed s [] set') X) by (split; [by apply keeps_refl, Hr|by apply empty_keeps|by apply keeps_refl, Hr|done]).
    split_and!; [eapply kept_rep; [done|done|done|done]|done| |done]. intros x Hx Hxx. by destruct (H3 x Hx).
Qed.

Lemma pop_ready_only_spec s X : sched_rep s X → let '(s', r) := pop_ready_only s in
  match r with
  | None => sched_rep s' X ∧ kept s s' X ∧ no_ready s X
  | Some t => t ∈ X ∧ sched_rep s' (X ∖ {[t]}) ∧ kept s s' (X ∖ {[t]}) ∧ first_of entry_cmp e_task (ready_lane s) X t
  end.
Proof.
  intros Hr. unfold pop_ready_only. pose proof (pop_valid_spec entry_cmp e_priority e_task by_priority entry_key_ok (ready_lane s) (scheduled s) X (sp_ready s X Hr) (sp_set s X Hr) (λ e He, sp_entries s X Hr e (or_intror He))) as Hp.
  destruct (pop_valid e_task (ready_lane s) (scheduled s)) as [[[e|] lane'] set']; simpl.
  - destruct Hp as (H1 & H2 & H3 & H4 & H5 & H6). assert (Hk : kept s (set_ready s lane' set') (X ∖ {[e_task e]})) by same_lanes Hr. split_and!; [done|eapply kept_rep; [done|done|set_solver|done]|done|by exists e].
  - destruct Hp as (H1 & -> & H3). assert (Hk : kept s (set_ready s [] set') X) by (split; [by apply keeps_refl, Hr|by apply keeps_refl, Hr|by apply empty_keeps|done]).
    split_and!; [eapply kept_rep; [done|done|done|done]|done|done].
Qed.

Lemma pop_spec s X : sched_rep s X → let '(s', r) := pop s in popped s X s' r.
Proof.
  intros Hr. unfold pop. pose proof (pop_cancel_only_spec s X Hr) as Hc. destruct (pop_cancel_only s) as [s1 [t|]].
  { destruct Hc as (H1 & H2 & H3 & H4). split_and!; [done|done|done|by left]. }
  destruct Hc as (Hr1 & Hk1 & Hc & Hl1 & Hl2). pose proof (pop_timed_any_spec s1 X Hr1) as Ht. destruct (pop_timed_any s1) as [s2 [t|]].
  { destruct Ht as (H1 & H2 & H3 & H4). split_and!; [done|done|eapply kept_trans; [exact Hk1|set_solver|done]|]. right. left. split; [done|]. by rewrite <-Hl1. }
  destruct Ht as (Hr2 & Hk2 & Ht & Hl3). assert (Ht' : no_timed None s X) by (intros e He; apply Ht; by rewrite Hl1). pose proof (pop_ready_only_spec s2 X Hr2) as Hy. destruct (pop_ready_only s2) as [s3 [t|]].
  - destruct Hy as (H1 & H2 & H3 & H4). split_and!; [done|done|eapply kept_trans; [exact Hk1|set_solver|]; eapply kept_trans; [exact Hk2|set_solver|done]|]. right. right. split_and!; [done|done|]. by rewrite <-Hl2, <-Hl3.
  - destruct Hy as (Hr3 & Hk3 & Hy). split_and!; [done|by eapply kept_trans; [exact Hk1|done|]; eapply kept_trans|done|done|]. intros e He. apply Hy. by rewrite Hl3, Hl2.
Qed.

(** With no entry that counts nothing is scheduled. *)
Lemma nothing_scheduled s X : sched_rep s X → no_cancel s X → no_timed None s X → no_ready s X → X = ∅.
Proof.
  intros Hr Hc Ht Hy. apply set_eq. intros t. split; [|set_solver]. intros Hx. destruct (sp_cover s X Hr t Hx) as [(e & He & <-)|[(e & He & <-)|(e & He & <-)]]; exfalso.
  - by apply (Hc e He).
  - by apply (Ht e He).
  - by apply (Hy e He).
Qed.

(** *** Entering and leaving *)

Lemma enter_ready s X t p set : sched_rep s X → valid_task t → set_rep set ({[t]} ∪ X) →
  sched_rep (set_ready (next_gen s).1 (heap_push entry_cmp (mkEntry t p (next_generation s)) (ready_lane s)) set) ({[t]} ∪ X).
Proof.
  intros [P1 P2 P3 P4 P5 P6 P7] Hv Hr. split; simpl; [done|done|done|by apply (heap_push_ok _)| |done|].
  - intros e [He|He]; [apply P5; by left|]. rewrite heap_push_perm in He. apply elem_of_cons in He as [->|He]; [done|apply P5; by right].
  - intros t' [->%elem_of_singleton|Ht]%elem_of_union; [right; right; eexists; split; [rewrite heap_push_perm; left|done]|].
    destruct (P7 t' Ht) as [?|[?|(e & He & Hte)]]; [by left|right; by left|right; right]. exists e. split; [rewrite heap_push_perm; by right|done].
Qed.

Lemma enter_cancel s X t p set : sched_rep s X → valid_task t → set_rep set ({[t]} ∪ X) →
  sched_rep (set_cancel (next_gen s).1 (heap_push entry_cmp (mkEntry t p (next_generation s)) (cancel_lane s)) set) ({[t]} ∪ X).
Proof.
  intros [P1 P2 P3 P4 P5 P6 P7] Hv Hr. split; simpl; [done|by apply (heap_push_ok _)|done|done| |done|].
  - intros e [He|He]; [|apply P5; by right]. rewrite heap_push_perm in He. apply elem_of_cons in He as [->|He]; [done|apply P5; by left].
  - intros t' [->%elem_of_singleton|Ht]%elem_of_union; [left; eexists; split; [rewrite heap_push_perm; left|done]|].
    destruct (P7 t' Ht) as [(e & He & Hte)|?]; [left|by right]. exists e. split; [rewrite heap_push_perm; by right|done].
Qed.

Lemma enter_timed s X t d set : sched_rep s X → valid_task t → set_rep set ({[t]} ∪ X) →
  sched_rep (set_timed (next_gen s).1 (heap_push timed_cmp (mkTimed t d (next_generation s)) (timed_lane s)) set) ({[t]} ∪ X).
Proof.
  intros [P1 P2 P3 P4 P5 P6 P7] Hv Hr. split; simpl; [done|done|by apply (heap_push_ok _)|done|done| |].
  - intros e He. rewrite heap_push_perm in He. apply elem_of_cons in He as [->|He]; [done|by apply P6].
  - intros t' [->%elem_of_singleton|Ht]%elem_of_union; [right; left; eexists; split; [rewrite heap_push_perm; left|done]|].
    destruct (P7 t' Ht) as [?|[(e & He & Hte)|?]]; [by left|right; left|right; by right]. exists e. split; [rewrite heap_push_perm; by right|done].
Qed.

Lemma set_swap s X set : sched_rep s X → set_rep set X → sched_rep (set_cancel s (cancel_lane s) set) X ∧ sched_rep (set_timed s (timed_lane s) set) X ∧ sched_rep (set_ready s (ready_lane s) set) X.
Proof. intros [] Hr. by split_and!; split. Qed.

Lemma already X t : t ∈ X → {[t]} ∪ X = X.
Proof. set_solver. Qed.

Lemma schedule_spec s X t p : sched_rep s X → valid_task t → N.of_nat (size X) < usize_MAX → ∃ s', schedule s t p = Returns s' ∧ sched_rep s' ({[t]} ∪ X).
Proof.
  intros Hr Hv Hs. unfold schedule. destruct (insert_rep _ X t (sp_set s X Hr) Hv Hs) as (set & -> & Hset). cbn [mbind run_bind]. eexists. split; [done|].
  case_bool_decide as Hx; [by apply (enter_ready s)|]. rewrite already in * by done. by apply set_swap.
Qed.

Lemma schedule_timed_spec s X t d : sched_rep s X → valid_task t → N.of_nat (size X) < usize_MAX → ∃ s', schedule_timed s t d = Returns s' ∧ sched_rep s' ({[t]} ∪ X).
Proof.
  intros Hr Hv Hs. unfold schedule_timed. destruct (insert_rep _ X t (sp_set s X Hr) Hv Hs) as (set & -> & Hset). cbn [mbind run_bind]. eexists. split; [done|].
  case_bool_decide as Hx; [by apply (enter_timed s)|]. rewrite already in * by done. by apply set_swap.
Qed.

Lemma move_to_cancel_lane_spec s X t p : sched_rep s X → valid_task t → N.of_nat (size X) < usize_MAX → ∃ s', move_to_cancel_lane s t p = Returns s' ∧ sched_rep s' ({[t]} ∪ X).
Proof.
  intros Hr Hv Hs. unfold move_to_cancel_lane. simpl. destruct (insert_rep _ X t (sp_set s X Hr) Hv Hs) as (set & -> & Hset). cbn [mbind run_bind]. eexists. split; [done|]. by apply (enter_cancel s).
Qed.

Lemma schedule_cancel_spec s X t p : sched_rep s X → valid_task t → N.of_nat (size X) < usize_MAX → ∃ s', schedule_cancel s t p = Returns s' ∧ sched_rep s' ({[t]} ∪ X).
Proof.
  intros Hr Hv Hs. unfold schedule_cancel. destruct (insert_rep _ X t (sp_set s X Hr) Hv Hs) as (set & -> & Hset). cbn [mbind run_bind].
  case_bool_decide as Hx; [eexists; split; [done|]; by apply (enter_cancel s)|]. rewrite already in Hset by done. apply move_to_cancel_lane_spec; [by apply set_swap|done|done].
Qed.

Lemma sched_remove_spec s X t : sched_rep s X → valid_task t → sched_rep (sched_remove s t) (X ∖ {[t]}).
Proof.
  intros Hr Hv. unfold sched_remove. pose proof (remove_rep _ X t (sp_set s X Hr) Hv) as [H1 H2]. destruct (remove (scheduled s) t) as [set b]. simpl in *. subst b. case_bool_decide as Hx.
  - destruct Hr as [P1 P2 P3 P4 P5 P6 P7]. split; simpl; [done|by apply (heap_filter_ok _)..| | |].
    + intros e [[_ He]%list_elem_of_filter|[_ He]%list_elem_of_filter]; apply P5; [by left|by right].
    + intros e [_ He]%list_elem_of_filter. by apply P6.
    + intros t' [Ht Hne]%elem_of_difference. assert (t' ≠ t) by set_solver. destruct (P7 t' Ht) as [(e & He & <-)|[(e & He & <-)|(e & He & <-)]]; [left|right; left|right; right]; exists e; (split; [by apply list_elem_of_filter|done]).
  - replace (X ∖ {[t]}) with X in * by set_solver. by apply set_swap.
Qed.

Lemma sched_clear_spec s X : sched_rep s X → sched_rep (sched_clear s) ∅.
Proof.
  intros [P1 _ _ _ _ _ _]. split; simpl; [by eapply clear_rep|constructor|constructor|constructor|by intros e [?%not_elem_of_nil|?%not_elem_of_nil]|by intros e ?%not_elem_of_nil|set_solver].
Qed.

Lemma with_capacity_spec alloc c : sched_rep (with_capacity alloc c) ∅.
Proof. split; simpl; [apply with_capacity_rep|constructor|constructor|constructor|by intros e [?%not_elem_of_nil|?%not_elem_of_nil]|by intros e ?%not_elem_of_nil|set_solver]. Qed.

(** *** Stealing *)

Lemma steal_loop_spec lane set stolen n out X : set_rep set X → (∀ e, e ∈ lane → valid_task (e_task e)) → stolen ≤ n →
  let '(lane', set', stolen', out') := steal_loop lane set stolen n out in
  ∃ pre es, lane = pre ++ lane' ∧ es `sublist_of` pre ∧ out' = out ++ ((λ e, (e_task e, e_priority e)) <$> es) ∧ stolen' = stolen + lenN es ∧ stolen' ≤ n ∧
    NoDup (e_task <$> es) ∧ (∀ e, e ∈ es → e_task e ∈ X) ∧ set_rep set' (X ∖ list_to_set (e_task <$> es)) ∧ (∀ e, e ∈ pre → e_task e ∈ X → e_task e ∈ e_task <$> es) ∧ (stolen' < n → lane' = []).
Proof.
  revert set stolen out X. induction lane as [|e lane IH]; intros set stolen out X Hr Hv Hn; simpl.
  { assert (Hend : ∃ pre es : list SchedulerEntry, [] = pre ++ [] ∧ es `sublist_of` pre ∧ out = out ++ ((λ e, (e_task e, e_priority e)) <$> es) ∧ stolen = stolen + lenN es ∧ stolen ≤ n ∧
    NoDup (e_task <$> es) ∧ (∀ e, e ∈ es → e_task e ∈ X) ∧ set_rep set (X ∖ list_to_set (e_task <$> es)) ∧ (∀ e, e ∈ pre → e_task e ∈ X → e_task e ∈ e_task <$> es) ∧ (stolen < n → [] = ([] : list SchedulerEntry))).
    { exists [], []. simpl. rewrite ?app_nil_r, difference_empty_L. split_and!; try done; first [by apply NoDup_nil_2|by intros x ?%not_elem_of_nil|unfold lenN; simpl; lia|intros; lia]. }
    by destruct (stolen <? n). }
  destruct (N.ltb_spec stolen n) as [Hlt|Hge].
  2: { exists [], []. simpl. rewrite ?app_nil_r, difference_empty_L. split_and!; try done; [unfold lenN; simpl; lia|constructor|by intros x ?%not_elem_of_nil|by intros x ?%not_elem_of_nil|lia]. }
  pose proof (remove_rep set X (e_task e) Hr (Hv e ltac:(left))) as [H1 H2]. destruct (remove set (e_task e)) as [set' b]. simpl in *. subst b.
  assert (Hv' : ∀ x, x ∈ lane → valid_task (e_task x)) by (intros x Hx; apply Hv; by right). case_bool_decide as Hx.
  - specialize (IH set' (stolen + 1) (out ++ [(e_task e, e_priority e)]) (X ∖ {[e_task e]}) H2 Hv' ltac:(lia)). destruct (steal_loop lane set' (stolen + 1) n (out ++ _)) as [[[lane' set''] stolen'] out'].
    destruct IH as (pre & es & -> & Hsub & -> & -> & Hle & Hnd & Hes & Hr' & Hpre & Hend). exists (e :: pre), (e :: es). split_and!; [done|by constructor|by rewrite <-app_assoc|rewrite len_cons; lia|done| | | | |done].
    + simpl. constructor; [|done]. intros (x & Hxe & Hxi)%list_elem_of_fmap. specialize (Hes x Hxi). set_solver.
    + intros x [->|Hxi]%elem_of_cons; [done|]. specialize (Hes x Hxi). set_solver.
    + simpl. by rewrite <-difference_difference_l_L.
    + intros x [->|Hxi]%elem_of_cons Hxx; simpl; [left|]. destruct (decide (e_task x = e_task e)) as [->|Hne]; [left|]. right. apply Hpre; [done|set_solver].
  - replace (X ∖ {[e_task e]}) with X in H2 by set_solver. specialize (IH set' stolen out X H2 Hv' Hn). destruct (steal_loop lane set' stolen n out) as [[[lane' set''] stolen'] out'].
    destruct IH as (pre & es & -> & Hsub & -> & -> & Hle & Hnd & Hes & Hr' & Hpre & Hend). exists (e :: pre), es. split_and!; try done; [by apply sublist_cons|].
    intros x [->|Hxi]%elem_of_cons Hxx; [done|by apply Hpre].
Qed.

Lemma sorted_app_ge (l1 l2 : list SchedulerEntry) a b : heap_ok entry_cmp (l1 ++ l2) → a ∈ l1 → b ∈ l2 → e_priority b ≤ e_priority a.
Proof.
  induction l1 as [|x l1 IH]; simpl; [by intros _ ?%not_elem_of_nil|]. intros [Hok Hge]%heap_tail_ok [->|Ha]%elem_of_cons Hb; [|by apply IH].
  eapply Forall_forall in Hge; [|apply elem_of_app; right; exact Hb]. by apply entry_key_ok.
Qed.

(** What a thief gets: distinct scheduled tasks in order of priority, the best there are. *)
Definition stolen_ok s X s' (max_steal : N) (out : list (TaskId * N)) : Prop :=
  let taken := list_to_set out.*1 in
  lenN out ≤ max_steal ∧ lenN out ≤ N.max 1 (lenN (ready_lane s) / 2) ∧ NoDup out.*1 ∧ (∀ t, t ∈ out.*1 → t ∈ X) ∧ sched_rep s' (X ∖ taken) ∧ kept s s' (X ∖ taken) ∧
  StronglySorted (λ a b : TaskId * N, b.2 ≤ a.2) out ∧ (∀ a e, a ∈ out → e ∈ ready_lane s' → e_priority e ≤ a.2) ∧
  (out = [] → max_steal = 0 ∨ no_ready s X).

Lemma steal_spec s X n : sched_rep s X → let '(s', k, out) := steal_ready_batch_into s n in k = lenN out ∧ stolen_ok s X s' n out.
Proof.
  intros Hr. unfold steal_ready_batch_into. destruct (_ || _) eqn:Hb.
  { split; [done|]. unfold stolen_ok. simpl. rewrite difference_empty_L. split_and!; try done; [unfold lenN; simpl; lia|unfold lenN; simpl; lia|constructor|by intros t ?%not_elem_of_nil|by eapply kept_refl|constructor|by intros a e ?%not_elem_of_nil|].
    intros _. apply orb_true_iff in Hb as [Hb|Hb]; [N_bools; by left|]. apply bool_decide_eq_true in Hb. right. by apply nil_no_ready. }
  N_bools. apply bool_decide_eq_false in H0. set (c := N.max (N.min (lenN (ready_lane s) / 2) n) 1).
  pose proof (steal_loop_spec (ready_lane s) (scheduled s) 0 c [] X (sp_set s X Hr) (λ e He, sp_entries s X Hr e (or_intror He)) ltac:(lia)) as Hl.
  destruct (steal_loop (ready_lane s) (scheduled s) 0 c []) as [[[lane' set'] stolen] out]. destruct Hl as (pre & es & Hlane & Hsub & -> & -> & Hle & Hnd & Hes & Hr' & Hpre & Hend). simpl app.
  assert (H1 : ((λ e, (e_task e, e_priority e)) <$> es).*1 = e_task <$> es) by (by rewrite <-list_fmap_compose).
  assert (Hlen : lenN ((λ e, (e_task e, e_priority e)) <$> es) = lenN es) by (unfold lenN; by rewrite length_fmap). pose proof (sp_ready s X Hr) as Hok. rewrite Hlane in Hok.
  assert (Hk : kept s (set_ready s lane' set') (X ∖ list_to_set (e_task <$> es))).
  { split; [by apply keeps_refl, Hr|by apply keeps_refl, Hr| |done]. simpl. rewrite Hlane. split; [by eapply suffix_ok|intros e He; apply elem_of_app; by right|].
    intros e [He|He]%elem_of_app Hx; [|done]. apply elem_of_difference in Hx as [Hx Hn]. destruct Hn. apply elem_of_list_to_set. by apply Hpre. }
  split; [by rewrite Hlen|]. unfold stolen_ok. cbv zeta. rewrite H1, Hlen. split_and!; [unfold c in Hle; lia|unfold c in Hle; lia|done| |eapply kept_rep; [done|done|set_solver|done]|done| | |].
  - intros t (e & -> & He)%list_elem_of_fmap. by apply Hes.
  - assert (Hsort : heap_ok entry_cmp es). { clear -Hok Hsub. assert (Hp : heap_ok entry_cmp pre) by (clear Hsub; induction pre as [|x pre IH]; [constructor|]; simpl in Hok; pose proof Hok as [Hok1 Hge]%heap_tail_ok; constructor; [by apply IH|by apply Forall_app in Hge as [? _]]).
      clear Hok. induction Hsub as [|x l1 l2 Hs IH|x l1 l2 Hs IH]; [done| |]; pose proof Hp as [Hp' Hge]%heap_tail_ok; [|by apply IH]. constructor; [by apply IH|]. eapply Forall_impl; [|intros y Hy; exact Hy].
      apply Forall_forall. intros y Hy. eapply Forall_forall in Hge; [exact Hge|]. by eapply elem_of_submseteq; [exact Hy|apply sublist_submseteq]. }
    clear -Hsort. induction Hsort as [|x l Hl IH Hge]; simpl; constructor; [done|]. apply Forall_forall. intros y (z & -> & Hz)%list_elem_of_fmap. eapply Forall_forall in Hge; [|exact Hz]. by apply entry_key_ok.
  - intros a e (x & -> & Hx)%list_elem_of_fmap He. simpl. apply (sorted_app_ge pre lane'); [done| |exact He]. by eapply elem_of_submseteq; [exact Hx|apply sublist_submseteq].
  - intros Hnil%fmap_nil_inv. subst es. right. intros e He Hx. unfold lenN in Hle, Hend. simpl in *. specialize (Hend ltac:(unfold c; lia)). subst lane'. rewrite app_nil_r in Hlane. rewrite Hlane in He. specialize (Hpre e He Hx). by apply not_elem_of_nil in Hpre.
Qed.

(** *** Readiness *)

Lemma has_runnable_work_spec s X now : sched_rep s X → let '(s', b) := has_runnable_work s now in
  sched_rep s' X ∧ kept s s' X ∧ (b = false ↔ no_cancel s X ∧ no_timed (Some now) s X ∧ no_ready s X).
Proof.
  intros Hr. unfold has_runnable_work, has_cancel_work, has_ready_work. pose proof (next_cancel_spec s X Hr) as Hc. destruct (next_valid_cancel_entry s) as [s1 e1]. destruct Hc as (Hr1 & Hk1 & Hc).
  destruct e1 as [e1|].
  { rewrite bool_decide_true by eauto. split_and!; [done|done|]. split; [done|]. intros (Hn & _ & _). destruct Hc as (H1 & H2 & _). by destruct (Hn e1 H1). }
  rewrite bool_decide_false by (by intros []). pose proof (next_ready_spec s1 X Hr1) as Hy. destruct (next_valid_ready_entry s1) as [s2 e2]. destruct Hy as (Hr2 & Hk2 & Hy).
  destruct e2 as [e2|].
  { rewrite bool_decide_true by eauto. split_and!; [done|by eapply kept_trans|]. split; [done|]. intros (_ & _ & Hn). destruct Hy as (H1 & H2 & _). exfalso. apply (Hn e2); [|done]. by apply (keeps_old _ _ _ _ _ (kept_ready _ _ _ Hk1)). }
  rewrite bool_decide_false by (by intros []). assert (Hk : kept s s2 X) by (by eapply kept_trans). pose proof (timed_due_spec s2 X now Hr2) as Hd. destruct (timed_due s2 now) as [s3 b]. destruct Hd as (Hr3 & Hk3 & _ & _ & _ & Hdue & Hno).
  split_and!; [done|by eapply kept_trans|]. split.
  - intros ->. split_and!; [done|eapply no_timed_kept; [exact Hk|by apply Hno]|eapply no_ready_kept; [exact Hk1|done]].
  - intros (_ & Ht & _). destruct b; [|done]. destruct (Hdue eq_refl) as (e & Hh & Hx & Hd). exfalso. apply (Ht e); [|done|done]. apply (keeps_old _ _ _ _ _ (kept_timed _ _ _ Hk)), (keeps_old _ _ _ _ _ (kept_timed _ _ _ Hk3)).
    by apply head_Some_elem_of.
Qed.

(** *** [pop_any_lane_with_hint] *)

Definition lane_number (lane : DispatchLane) : N := match lane with Lane.Cancel => 0 | Lane.Timed => 1 | _ => 2 end.

Lemma pop_any_spec s X rng now : sched_rep s X →
  ∃ s' r, pop_any_lane_with_hint s rng now = Returns (s', option_map (λ p, (lane_number p.2, p.1)) r) ∧ outcome true (Some now) s X s' r.
Proof.
  intros Hr. unfold pop_any_lane_with_hint. destruct (pop_cancel_loop_spec (rounds s) s X rng Hr) as (s1 & r1 & -> & H1); [unfold rounds, entries; lia|]. cbn [mbind run_bind]. destruct r1 as [t|].
  { destruct H1 as (Ht & Hr1 & Hk1 & Hb). exists s1, (Some (t, Lane.Cancel)). split; [done|]. split_and!; done. }
  destruct H1 as (Hr1 & Hk1 & Hc). destruct (pop_timed_any_loop_spec (rounds s1) s1 X rng now Hr1) as (s2 & r2 & -> & H2); [unfold rounds, entries; lia|]. cbn [mbind run_bind]. destruct r2 as [t|].
  { destruct H2 as (Ht & Hr2 & Hk2 & [_ Hb]). exists s2, (Some (t, Lane.Timed)). split; [done|]. eapply outcome_kept; [exact Hk1|]. split_and!; [done|done|done|]. split; [|done].
    intros _ e He. apply Hc. by apply (keeps_old _ _ _ _ _ (kept_cancel _ _ _ Hk1)). }
  destruct H2 as (Hr2 & Hk2 & Ht). destruct (pop_ready_loop_spec (rounds s2) s2 X rng Hr2) as (s3 & r3 & -> & H3); [unfold rounds, entries; lia|]. cbn [mbind run_bind].
  assert (Hk : kept s s2 X) by (by eapply kept_trans). assert (Hc2 : no_cancel s2 X) by (intros e He; apply Hc; by apply (keeps_old _ _ _ _ _ (kept_cancel _ _ _ Hk))).
  assert (Ht2 : no_timed (Some now) s2 X) by (intros e He; apply Ht; by apply (keeps_old _ _ _ _ _ (kept_timed _ _ _ Hk2))). destruct r3 as [t|].
  - destruct H3 as (Ht3 & Hr3 & Hk3 & Hb). exists s3, (Some (t, Lane.Ready)). split; [done|]. eapply outcome_kept; [exact Hk|]. split_and!; [done|done|done|]. split_and!; [done|done|exact Hb].
  - destruct H3 as (Hr3 & Hk3 & Hy). exists s3, None. split; [done|]. eapply outcome_kept; [exact Hk|]. split_and!; done.
Qed.

(** ** Every sequence of operations *)

Inductive QOp :=
  | QSchedule (t : TaskId) (priority : N)
  | QScheduleCancel (t : TaskId) (priority : N)
  | QScheduleTimed (t : TaskId) (deadline : Time.t)
  | QMoveToCancel (t : TaskId) (priority : N)
  | QRemove (t : TaskId)
  | QClear
  | QPop
  | QPopLane (rng_hint : N)
  | QPopIfDue (rng_hint : N) (now : Time.t)
  | QPopNonCancel (rng_hint : N)
  | QPopNonCancelIfDue (rng_hint : N) (now : Time.t)
  | QPopAny (rng_hint : N) (now : Time.t)
  | QPopCancelOnly
  | QPopCancelHint (rng_hint : N)
  | QPopTimedOnly (now : Time.t)
  | QPopTimedHint (rng_hint : N) (now : Time.t)
  | QPopReadyOnly
  | QPopReadyHint (rng_hint : N)
  | QSteal (max_steal : N)
  | QHasWork (now : Time.t).

(** The new state and the tasks that leave. *)
Definition sched_do s (o : QOp) : run (Scheduler * list TaskId) :=
  match o with
  | QSchedule t p => s ← schedule s t p; Returns (s, [])
  | QScheduleCancel t p => s ← schedule_cancel s t p; Returns (s, [])
  | QScheduleTimed t d => s ← schedule_timed s t d; Returns (s, [])
  | QMoveToCancel t p => s ← move_to_cancel_lane s t p; Returns (s, [])
  | QRemove t => Returns (sched_remove s t, [])
  | QClear => Returns (sched_clear s, [])
  | QPop => let '(s, r) := pop s in Returns (s, option_list r)
  | QPopLane rng => '(s, r) ← pop_with_lane s rng; Returns (s, option_list (option_map fst r))
  | QPopIfDue rng now => '(s, r) ← pop_with_lane_if_due s rng now; Returns (s, option_list (option_map fst r))
  | QPopNonCancel rng => '(s, r) ← pop_non_cancel_with_rng s rng; Returns (s, option_list (option_map fst r))
  | QPopNonCancelIfDue rng now => '(s, r) ← pop_non_cancel_with_rng_if_due s rng now; Returns (s, option_list (option_map fst r))
  | QPopAny rng now => '(s, r) ← pop_any_lane_with_hint s rng now; Returns (s, option_list (option_map snd r))
  | QPopCancelOnly => let '(s, r) := pop_cancel_only s in Returns (s, option_list r)
  | QPopCancelHint rng => '(s, r) ← pop_cancel_only_with_hint s rng; Returns (s, option_list r)
  | QPopTimedOnly now => '(s, r) ← pop_timed_only s now; Returns (s, option_list r)
  | QPopTimedHint rng now => '(s, r) ← pop_timed_only_with_hint s rng now; Returns (s, option_list r)
  | QPopReadyOnly => let '(s, r) := pop_ready_only s in Returns (s, option_list r)
  | QPopReadyHint rng => '(s, r) ← pop_ready_only_with_hint s rng; Returns (s, option_list r)
  | QSteal n => let '(s, out) := steal_ready_batch s n in Returns (s, out.*1)
  | QHasWork now => Returns ((has_runnable_work s now).1, [])
  end.

Definition qop_valid (o : QOp) : Prop :=
  match o with QSchedule t _ | QScheduleCancel t _ | QScheduleTimed t _ | QMoveToCancel t _ | QRemove t => valid_task t | _ => True end.

(** The contract: scheduling adds to a set of tasks, dispatching takes distinct members
    out of it, and dispatching without conditions finds a member if there is one. *)
Definition abs_step X (o : QOp) (out : list TaskId) (X' : gset TaskId) : Prop :=
  match o with
  | QSchedule t _ | QScheduleCancel t _ | QScheduleTimed t _ | QMoveToCancel t _ => out = [] ∧ X' = {[t]} ∪ X
  | QRemove t => out = [] ∧ X' = X ∖ {[t]}
  | QClear => out = [] ∧ X' = ∅
  | QHasWork _ => out = [] ∧ X' = X
  | QPop | QPopLane _ => NoDup out ∧ (∀ t, t ∈ out → t ∈ X) ∧ X' = X ∖ list_to_set out ∧ (out = [] → X = ∅)
  | _ => NoDup out ∧ (∀ t, t ∈ out → t ∈ X) ∧ X' = X ∖ list_to_set out
  end.

Fixpoint sched_run s (os : list QOp) : run (Scheduler * list (list TaskId)) :=
  match os with
  | [] => Returns (s, [])
  | o :: os => '(s, out) ← sched_do s o; '(s, outs) ← sched_run s os; Returns (s, out :: outs)
  end.

Fixpoint abs_run X (os : list QOp) (outs : list (list TaskId)) (X' : gset TaskId) : Prop :=
  match os, outs with
  | [], [] => X' = X
  | o :: os, out :: outs => ∃ X1, abs_step X o out X1 ∧ abs_run X1 os outs X'
  | _, _ => False
  end.

(** A dispatched task, if any, as a list. *)
Lemma one_out X s' (r : option TaskId) (P : Prop) (Q : TaskId → Prop) :
  match r with None => sched_rep s' X ∧ P | Some t => t ∈ X ∧ sched_rep s' (X ∖ {[t]}) ∧ Q t end →
  let X' := X ∖ list_to_set (option_list r) in NoDup (option_list r) ∧ (∀ t, t ∈ option_list r → t ∈ X) ∧ sched_rep s' X' ∧ (r = None → P).
Proof.
  destruct r as [t|]; simpl.
  - intros (H1 & H2 & H3). split_and!; [apply NoDup_singleton|by intros t' ->%list_elem_of_singleton| |done]. by rewrite union_empty_r_L.
  - intros (H1 & H2). split_and!; [apply NoDup_nil_2|by intros t ?%not_elem_of_nil| |done]. by rewrite difference_empty_L.
Qed.

Lemma outcome_out c due s X s' r : outcome c due s X s' r →
  match option_map fst r with None => sched_rep s' X ∧ ((c = true → no_cancel s X) ∧ no_timed due s X ∧ no_ready s X) | Some t => t ∈ X ∧ sched_rep s' (X ∖ {[t]}) ∧ True end.
Proof. destruct r as [[t lane]|]; simpl; [by intros (? & ? & _)|by intros (? & _ & ?)]. Qed.

Lemma lane_outcome_out X nothing good s s' r : lane_outcome X nothing good s s' r → match r with None => sched_rep s' X ∧ True | Some t => t ∈ X ∧ sched_rep s' (X ∖ {[t]}) ∧ True end.
Proof. destruct r as [t|]; simpl; [by intros (? & ? & _)|by intros (? & _)]. Qed.

Lemma none_out (r : option TaskId) : option_list r = [] → r = None.
Proof. by destruct r. Qed.

Lemma sched_do_spec s X o : sched_rep s X → qop_valid o → N.of_nat (size X) < usize_MAX → ∃ s' out X', sched_do s o = Returns (s', out) ∧ sched_rep s' X' ∧ abs_step X o out X'.
Proof.
  intros Hr Hv Hs. destruct o; simpl in Hv; cbn [sched_do abs_step].
  - destruct (schedule_spec s X t priority Hr Hv Hs) as (s' & -> & Hr'). cbn [mbind run_bind]. eauto 8.
  - destruct (schedule_cancel_spec s X t priority Hr Hv Hs) as (s' & -> & Hr'). cbn [mbind run_bind]. eauto 8.
  - destruct (schedule_timed_spec s X t deadline Hr Hv Hs) as (s' & -> & Hr'). cbn [mbind run_bind]. eauto 8.
  - destruct (move_to_cancel_lane_spec s X t priority Hr Hv Hs) as (s' & -> & Hr'). cbn [mbind run_bind]. eauto 8.
  - eexists _, _, _. split_and!; [done|by apply sched_remove_spec|done|done].
  - eexists _, _, _. split_and!; [done|by eapply sched_clear_spec|done|done].
  - pose proof (pop_spec s X Hr) as Hp. destruct (pop s) as [s' r].
    assert (Hp' : match r with None => sched_rep s' X ∧ X = ∅ | Some t => t ∈ X ∧ sched_rep s' (X ∖ {[t]}) ∧ True end).
    { destruct r; simpl in Hp; [by destruct Hp as (? & ? & _)|]. destruct Hp as (? & _ & ? & ? & ?). split; [done|]. by apply (nothing_scheduled s X Hr). }
    apply one_out in Hp' as (? & ? & ? & ?). eexists _, _, _. split_and!; [done|eassumption|done|done|done|]. intros ?%none_out. auto.
  - destruct (pop_with_lane_loop_spec (rounds s) s X rng_hint Hr) as (s' & r & E & Ho); [unfold rounds, entries; lia|]. unfold pop_with_lane. rewrite E. cbn [mbind run_bind].
    apply outcome_out, one_out in Ho as (? & ? & ? & Hn). eexists _, _, _. split_and!; [done|eassumption|done|done|done|]. intros Hnil%none_out. destruct (Hn Hnil) as (? & ? & ?). by apply (nothing_scheduled s X Hr); auto.
  - destruct (pop_if_due_loop_spec (rounds s) true s X rng_hint now Hr) as (s' & r & E & Ho); [unfold rounds, entries; lia|]. unfold pop_with_lane_if_due. rewrite E. cbn [mbind run_bind].
    apply outcome_out, one_out in Ho as (? & ? & ? & Hn). eexists _, _, _. by split_and!.
  - destruct (pop_non_cancel_loop_spec (rounds s) s X rng_hint Hr) as (s' & r & E & Ho); [unfold rounds, entries; lia|]. unfold pop_non_cancel_with_rng. rewrite E. cbn [mbind run_bind].
    apply outcome_out, one_out in Ho as (? & ? & ? & Hn). eexists _, _, _. by split_and!.
  - destruct (pop_if_due_loop_spec (rounds s) false s X rng_hint now Hr) as (s' & r & E & Ho); [unfold rounds, entries; lia|]. unfold pop_non_cancel_with_rng_if_due. rewrite E. cbn [mbind run_bind].
    apply outcome_out, one_out in Ho as (? & ? & ? & Hn). eexists _, _, _. by split_and!.
  - destruct (pop_any_spec s X rng_hint now Hr) as (s' & r & -> & Ho). cbn [mbind run_bind]. assert (Hsnd : option_map snd (option_map (λ p : TaskId * DispatchLane, (lane_number p.2, p.1)) r) = option_map fst r) by (by destruct r). rewrite Hsnd.
    apply outcome_out, one_out in Ho as (? & ? & ? & Hn). eexists _, _, _. by split_and!.
  - pose proof (pop_cancel_only_spec s X Hr) as Hp. destruct (pop_cancel_only s) as [s' r]. apply one_out in Hp as (? & ? & ? & ?). eexists _, _, _. by split_and!.
  - destruct (pop_cancel_loop_spec (rounds s) s X rng_hint Hr) as (s' & r & E & Ho); [unfold rounds, entries; lia|]. unfold pop_cancel_only_with_hint. rewrite E. cbn [mbind run_bind].
    apply lane_outcome_out, one_out in Ho as (? & ? & ? & Hn). eexists _, _, _. by split_and!.
  - destruct (pop_timed_only_loop_spec (rounds s) s X now Hr) as (s' & r & E & Ho); [unfold rounds, entries; lia|]. unfold pop_timed_only. rewrite E. cbn [mbind run_bind].
    apply lane_outcome_out, one_out in Ho as (? & ? & ? & Hn). eexists _, _, _. by split_and!.
  - destruct (pop_timed_due_loop_spec (rounds s) s X rng_hint now Hr) as (s' & r & E & Ho); [unfold rounds, entries; lia|]. unfold pop_timed_only_with_hint. rewrite E. cbn [mbind run_bind].
    apply lane_outcome_out, one_out in Ho as (? & ? & ? & Hn). eexists _, _, _. by split_and!.
  - pose proof (pop_ready_only_spec s X Hr) as Hp. destruct (pop_ready_only s) as [s' r]. apply one_out in Hp as (? & ? & ? & ?). eexists _, _, _. by split_and!.
  - destruct (pop_ready_loop_spec (rounds s) s X rng_hint Hr) as (s' & r & E & Ho); [unfold rounds, entries; lia|]. unfold pop_ready_only_with_hint. rewrite E. cbn [mbind run_bind].
    apply lane_outcome_out, one_out in Ho as (? & ? & ? & Hn). eexists _, _, _. by split_and!.
  - unfold steal_ready_batch. pose proof (steal_spec s X max_steal Hr) as Hp. destruct (steal_ready_batch_into s max_steal) as [[s' k] out]. destruct Hp as (_ & _ & _ & Hnd & Hin & Hr' & _). eexists _, _, _. by split_and!.
  - pose proof (has_runnable_work_spec s X now Hr) as Hp. destruct (has_runnable_work s now) as [s' b]. destruct Hp as (Hr' & _). eexists _, _, _. by split_and!.
Qed.

Lemma abs_step_size X o out X' : abs_step X o out X' → (size X' ≤ S (size X))%nat.
Proof.
  assert (Hadd : ∀ t, (size ({[t]} ∪ X) ≤ S (size X))%nat) by (intros t; destruct (decide (t ∈ X)); [rewrite already by done; lia|by rewrite size_add]).
  assert (Hsub : ∀ Y, (size (X ∖ Y) ≤ S (size X))%nat) by (intros Y; pose proof (subseteq_size (X ∖ Y) X ltac:(set_solver)); lia).
  destruct o; simpl; intros H; destruct_and?; subst; try done; first [by apply Hadd|by apply Hsub|lia|apply Nat.le_0_l].
Qed.

(** *** The properties *)

(** C8: No task is lost and none is dispatched twice.  For every sequence of fewer than
    2^64 scheduling, removal, dispatching, stealing and inspection operations, every
    operation returns, and the scheduler behaves as a set of tasks: what leaves it are
    distinct tasks that were scheduled and had not left, the count is exact, and
    [pop] and [pop_with_lane] find a task whenever one is scheduled. *)
Theorem scheduler_loses_no_task alloc c os : Forall qop_valid os → lenN os < usize_MAX →
  ∃ s outs X, sched_run (with_capacity alloc c) os = Returns (s, outs) ∧ abs_run ∅ os outs X ∧ sched_rep s X ∧ sched_len s = N.of_nat (size X).
Proof.
  intros Hv Hlen. assert (Hgen : ∀ s X, sched_rep s X → N.of_nat (size X) + lenN os < usize_MAX →
    ∃ s' outs X', sched_run s os = Returns (s', outs) ∧ abs_run X os outs X' ∧ sched_rep s' X').
  { clear Hlen. induction Hv as [|o os Ho Hos IH]; intros s X Hr Hs; [by exists s, [], X|]. rewrite len_cons in Hs. cbn [sched_run].
    destruct (sched_do_spec s X o Hr Ho) as (s1 & out & X1 & -> & Hr1 & Ha); [lia|]. pose proof (abs_step_size X o out X1 Ha) as Hsz. cbn [mbind run_bind].
    destruct (IH s1 X1 Hr1) as (s2 & outs & X2 & -> & Ha2 & Hr2); [lia|]. cbn [mbind run_bind]. exists s2, (out :: outs), X2. split_and!; [done|by exists X1|done]. }
  destruct (Hgen (with_capacity alloc c) ∅ (with_capacity_spec alloc c)) as (s & outs & X & E & Ha & Hr); [change (size (∅ : gset TaskId)) with 0%nat; lia|].
  exists s, outs, X. split_and!; [done|done|done|]. apply (sr_len _ _ (sp_set s X Hr)).
Qed.

(** C17: Order of dispatch.  In a scheduler that holds the tasks [X], [pop] takes the
    first entry, in the order cancel lane, timed lane, ready lane and within each by
    priority or deadline, then by arrival, whose task is in [X]; the variants with a
    hint take one that ties with it, timed entries only when due; and the readiness
    test answers yes exactly when dispatching finds a task. *)
Theorem scheduler_dispatch_order s X rng now : sched_rep s X →
  (match (pop s).2 with Some t => t ∈ X ∧ first_valid s X t | None => X = ∅ end) ∧
  (∃ s' r, pop_with_lane s rng = Returns (s', r) ∧ match r with Some (t, lane) => t ∈ X ∧ best true None s X t lane | None => X = ∅ end) ∧
  (∃ s' r, pop_with_lane_if_due s rng now = Returns (s', r) ∧
    match r with Some (t, lane) => t ∈ X ∧ best true (Some now) s X t lane | None => no_cancel s X ∧ no_timed (Some now) s X ∧ no_ready s X end ∧
    (has_runnable_work s now).2 = bool_decide (is_Some r)) ∧
  (∃ s' r, pop_non_cancel_with_rng_if_due s rng now = Returns (s', r) ∧
    match r with Some (t, lane) => t ∈ X ∧ best false (Some now) s X t lane | None => no_timed (Some now) s X ∧ no_ready s X end).
Proof.
  intros Hr. split_and!.
  - pose proof (pop_spec s X Hr) as Hp. destruct (pop s) as [s' [t|]]; simpl in *; [by destruct Hp as (? & _ & _ & ?)|]. destruct Hp as (_ & _ & ? & ? & ?). by apply (nothing_scheduled s X Hr).
  - destruct (pop_with_lane_loop_spec (rounds s) s X rng Hr) as (s' & r & E & Ho); [unfold rounds, entries; lia|]. exists s', r. split; [exact E|].
    destruct r as [[t lane]|]; [by destruct Ho as (? & _ & _ & ?)|]. destruct Ho as (_ & _ & ? & ? & ?). apply (nothing_scheduled s X Hr); auto.
  - destruct (pop_if_due_loop_spec (rounds s) true s X rng now Hr) as (s' & r & E & Ho); [unfold rounds, entries; lia|]. exists s', r. split; [exact E|].
    pose proof (has_runnable_work_spec s X now Hr) as Hw. destruct (has_runnable_work s now) as [s1 b]. destruct Hw as (_ & _ & Hw). simpl. destruct r as [[t lane]|].
    + destruct Ho as (Ht & _ & _ & Hb). split; [done|]. rewrite bool_decide_true by eauto. destruct b; [done|]. destruct Hw as [Hw _]. destruct (Hw eq_refl) as (Hc & Hd & Hn). exfalso. destruct lane; simpl in Hb; [| | |done].
      * destruct Hb as [_ (e & He & Hte & _)]. apply (Hc e He). by rewrite Hte.
      * destruct Hb as [_ (e & He & Hte & Hdd & _)]. apply (Hd e He); [by rewrite Hte|done].
      * destruct Hb as (_ & _ & e & He & Hte & _). apply (Hn e He). by rewrite Hte.
    + destruct Ho as (_ & _ & Hc & Hd & Hn). split; [auto|]. rewrite bool_decide_false by (by intros []). apply Hw. auto.
  - destruct (pop_if_due_loop_spec (rounds s) false s X rng now Hr) as (s' & r & E & Ho); [unfold rounds, entries; lia|]. exists s', r. split; [exact E|].
    destruct r as [[t lane]|]; [by destruct Ho as (? & _ & _ & ?)|]. by destruct Ho as (_ & _ & _ & ? & ?).
Qed.

(** Stealing.  A thief takes at most what it asks for and at most half of the ready
    lane (at least one entry); it gets distinct scheduled tasks in non-increasing priority,
    none of them below an entry left in the lane, and nothing only when no ready task is
    scheduled; the victim keeps all other tasks. *)
Theorem scheduler_steals_best s X n : sched_rep s X → let '(s', out) := steal_ready_batch s n in stolen_ok s X s' n out.
Proof.
  intros Hr. unfold steal_ready_batch. pose proof (steal_spec s X n Hr) as Hp. destruct (steal_ready_batch_into s n) as [[s' k] out]. by destruct Hp.
Qed.

(** *** Runs *)

Definition tid (i : N) : TaskId := TaskId_from_arena (mkArenaIndex i 0).
Definition sched_script : list QOp :=
  [QSchedule (tid 1) 5; QSchedule (tid 2) 9; QSchedule (tid 3) 9; QScheduleTimed (tid 4) 100; QScheduleCancel (tid 1) 1; QPop; QPop; QPopIfDue 1 50; QPopAny 0 50; QSteal 4; QPop].

Lemma scheduler_loses_no_task_witness : ∃ s outs X, sched_run (with_capacity id 8) sched_script = Returns (s, outs) ∧ abs_run ∅ sched_script outs X ∧
  outs = [[]; []; []; []; []; [tid 1]; [tid 4]; [tid 3]; [tid 2]; []; []].
Proof.
  destruct (scheduler_loses_no_task id 8 sched_script) as (s & outs & X & E & Ha & _ & _); [unfold sched_script; repeat constructor; unfold valid_task; simpl; mlia|by vm_compute|].
  exists s, outs, X. split_and!; [done|done|]. assert (Hout : (λ r : run (Scheduler * list (list TaskId)), match r with Returns (_, outs) => outs | _ => [] end) (sched_run (with_capacity id 8) sched_script) = outs) by (by rewrite E). rewrite <-Hout. by vm_compute.
Defined.

(** A scheduler with two ready tasks and one timed task. *)
Definition small_sched : Scheduler :=
  match sched_run (with_capacity id 8) [QSchedule (tid 1) 5; QSchedule (tid 2) 9; QScheduleTimed (tid 4) 100] with Returns (s, _) => s | _ => with_capacity id 8 end.

Lemma small_sched_rep : sched_rep small_sched {[tid 4; tid 2; tid 1]}.
Proof.
  pose proof (with_capacity_spec id 8) as H0. destruct (schedule_spec _ _ (tid 1) 5 H0) as (s1 & E1 & H1); [unfold valid_task; simpl; mlia|by vm_compute|].
  destruct (schedule_spec _ _ (tid 2) 9 H1) as (s2 & E2 & H2); [unfold valid_task; simpl; mlia|by vm_compute|]. destruct (schedule_timed_spec _ _ (tid 4) 100 H2) as (s3 & E3 & H3); [unfold valid_task; simpl; mlia|by vm_compute|].
  assert (E : small_sched = s3) by (unfold small_sched; cbn [sched_run sched_do]; rewrite E1; cbn [mbind run_bind]; rewrite E2; cbn [mbind run_bind]; rewrite E3; done).
  rewrite E. replace {[tid 4; tid 2; tid 1]} with ({[tid 4]} ∪ ({[tid 2]} ∪ ({[tid 1]} ∪ (∅ : gset TaskId)))) by set_solver. done.
Qed.

Lemma scheduler_dispatch_order_witness : first_valid small_sched {[tid 4; tid 2; tid 1]} (tid 4) ∧ (has_runnable_work small_sched 50).2 = true.
Proof.
  destruct (scheduler_dispatch_order small_sched {[tid 4; tid 2; tid 1]} 0 50 small_sched_rep) as (Hp & _ & (s' & r & E & _ & Hw) & _). split.
  - assert (Hpop : (pop small_sched).2 = Some (tid 4)) by (by vm_compute). rewrite Hpop in Hp. apply Hp.
  - rewrite Hw. apply bool_decide_eq_true. destruct r; [eauto|]. exfalso. assert (Hx : match pop_with_lane_if_due small_sched 0 50 with Returns (_, None) => false | _ => true end = true) by (by vm_compute). by rewrite E in Hx.
Defined.

Lemma scheduler_steals_best_witness : (steal_ready_batch small_sched 3).2 = [(tid 2, 9)] ∧ stolen_ok small_sched {[tid 4; tid 2; tid 1]} (steal_ready_batch small_sched 3).1 3 (steal_ready_batch small_sched 3).2.
Proof.
  split; [by vm_compute|]. pose proof (scheduler_steals_best small_sched {[tid 4; tid 2; tid 1]} 3 small_sched_rep) as H. by destruct (steal_ready_batch small_sched 3).
Defined.

(** An entry left behind by a move to the cancel lane counts again when its task is
    scheduled again: a task with a deadline in the future is dispatched at once, and a
    ready task of the lowest priority is dispatched as if it were under cancellation. *)
Lemma stale_entry_runs_timed_task_early :
  ∃ s outs, sched_run (with_capacity id 8) [QSchedule (tid 1) 5; QMoveToCancel (tid 1) 5; QPop; QScheduleTimed (tid 1) 1000] = Returns (s, outs) ∧ outs = [[]; []; [tid 1]; []] ∧
  ∃ s', pop_with_lane_if_due s 0 10 = Returns (s', Some (tid 1, Lane.Ready)).
Proof. eexists _, _. split; [by vm_compute|]. split; [done|]. eexists. by vm_compute. Qed.

Lemma stale_entry_jumps_the_queue :
  ∃ s outs, sched_run (with_capacity id 8) [QScheduleCancel (tid 1) 1; QScheduleCancel (tid 1) 9; QPop; QSchedule (tid 1) 0; QSchedule (tid 2) 200] = Returns (s, outs) ∧ outs = [[]; []; [tid 1]; []; []] ∧
  ∃ s', pop_with_lane s 0 = Returns (s', Some (tid 1, Lane.Cancel)).
Proof. eexists _, _. split; [by vm_compute|]. split; [done|]. eexists. by vm_compute. Qed.
