(* ===== verification/GlobalQueue.v ===== *)
(** * The counted FIFO queue of the global scheduler

    [runtime/scheduler/global_queue.rs]: a queue shared by all threads, with a
    count of its items that is raised before an item enters and a number of
    published items that poppers reserve from.  The queue inside is the crate
    [faa_array_queue], which is not part of the repository: [Fifo] is its interface,
    a linearizable queue, and a list meets it.  Every access to an atomic or to the
    inner queue is one step of a program ([Atomic]); [fetch_update] takes effect at
    the access that succeeds. *)

From S2P Require Import Prelude Atomic.

Class Fifo (T Q : Type) := {
  fifo_empty : Q;
  enqueue : Q → T → Q;
  dequeue : Q → Q * option T;
}.

Class FifoLaws (T Q : Type) `{!Fifo T Q} := {
  fifo_view : Q → list T;
  fifo_view_empty : fifo_view fifo_empty = [];
  fifo_view_enqueue q x : fifo_view (enqueue q x) = fifo_view q ++ [x];
  fifo_view_dequeue q :
    match fifo_view q with
    | [] => fifo_view (dequeue q).1 = [] ∧ (dequeue q).2 = None
    | x :: l => fifo_view (dequeue q).1 = l ∧ (dequeue q).2 = Some x
    end;
}.

#[global] Instance list_fifo {T} : Fifo T (list T) := {|
  fifo_empty := [];
  enqueue := λ q x, q ++ [x];
  dequeue := λ q, match q with [] => ([], None) | x :: l => (l, Some x) end;
|}.

#[global, refine] Instance list_fifo_laws {T} : FifoLaws T (list T) := {| fifo_view := id |}.
Proof.
  - done.
  - done.
  - by intros [|x l].
Defined.

Module Faa.

Record FaaFifoQueue (Q : Type) := mkFaaFifoQueue { inner : Q; count : N; published : N }.
Arguments mkFaaFifoQueue {Q} _ _ _.
Arguments inner {Q} _.
Arguments count {Q} _.
Arguments published {Q} _.

(** What is left to publish of a count added in advance; the queue it belongs to is
    the one the program runs on. *)
Record CountReservation := mkCountReservation { remaining : N }.

Section queue.
Context {T Q : Type} `{!Fifo T Q}.
Local Notation Queue := (FaaFifoQueue Q).
Implicit Types q : Queue.

Definition faa_default : Queue := mkFaaFifoQueue fifo_empty 0 0.

Definition set_inner i q : Queue := mkFaaFifoQueue i (count q) (published q).
Definition set_count n q : Queue := mkFaaFifoQueue (inner q) n (published q).
Definition set_published n q : Queue := mkFaaFifoQueue (inner q) (count q) n.

(** [fetch_add] on an [AtomicUsize] wraps. *)
Definition count_add (n : N) : prog Queue unit := modify (λ q, set_count (wrapping_add usize_MAX (count q) n) q).
Definition published_add (n : N) : prog Queue unit := modify (λ q, set_published (wrapping_add usize_MAX (published q) n) q).
Definition inner_enqueue (item : T) : prog Queue unit := modify (λ q, set_inner (enqueue (inner q) item) q).
Definition inner_dequeue : prog Queue (option T) := act (λ q, (set_inner (dequeue (inner q)).1 q, (dequeue (inner q)).2)).

Definition decrement_count : prog Queue unit :=
  modify (λ q, match checked_sub (count q) 1 with Some n => set_count n q | None => q end).
Definition count_sub (n : N) : prog Queue unit :=
  if n =? 0 then Ret () else modify (λ q, set_count (saturating_sub (count q) n) q).
Definition try_reserve_published : prog Queue bool :=
  act (λ q, match checked_sub (published q) 1 with Some n => (set_published n q, true) | None => (q, false) end).

Definition push (item : T) : prog Queue unit := count_add 1;; inner_enqueue item;; published_add 1.
Definition push_uncounted (item : T) : prog Queue unit := inner_enqueue item;; published_add 1.
Definition add_count (n : N) : prog Queue unit := if 0 <? n then count_add n else Ret ().
Definition reserve_count (n : N) : prog Queue CountReservation := add_count n;; Ret (mkCountReservation n).
Definition rollback_count (n : N) : prog Queue unit := count_sub n.
Definition publish_one (r : CountReservation) : CountReservation := mkCountReservation (saturating_sub (remaining r) 1).
Definition drop_reservation (r : CountReservation) : prog Queue unit := rollback_count (remaining r).

Definition pop : prog Queue (option T) :=
  reserved ← try_reserve_published;
  if negb reserved then Ret None else
  result ← inner_dequeue;
  match result with
  | Some item => decrement_count;; Ret (Some item)
  | None => published_add 1;; Ret None
  end.

(** The two loops of [pop_batch_into]: at most [n] reservations, then as many items
    as there are. *)
Fixpoint reserve_loop (n : nat) (reserved : N) : prog Queue N :=
  match n with
  | O => Ret reserved
  | S n => ok ← try_reserve_published; if (ok : bool) then reserve_loop n (reserved + 1) else Ret reserved
  end.

Fixpoint dequeue_loop (n : nat) (out : list T) : prog Queue (list T) :=
  match n with
  | O => Ret out
  | S n => item ← inner_dequeue; match item with Some item => dequeue_loop n (out ++ [item]) | None => Ret out end
  end.

Definition pop_batch_into (max : N) (out : list T) : prog Queue (N * list T) :=
  if max =? 0 then Ret (0, out) else
  reserved ← reserve_loop (N.to_nat max) 0;
  if reserved =? 0 then Ret (0, out) else
  let start_len := lenN out in
  out ← dequeue_loop (N.to_nat reserved) out;
  let drained := saturating_sub (lenN out) start_len in
  (if drained <? reserved then published_add (saturating_sub reserved drained) else Ret ());;
  (if 0 <? drained then count_sub drained else Ret ());;
  Ret (drained, out).

Definition queue_len : prog Queue N := load count.
Definition queue_is_empty : prog Queue bool := n ← queue_len; Ret (n =? 0).

(** [reserve_count] for a batch, each item published under the reservation, and the
    reservation dropped: the form in which callers use it. *)
Fixpoint publish_loop (items : list T) (r : CountReservation) : prog Queue CountReservation :=
  match items with
  | [] => Ret r
  | item :: items => push_uncounted item;; publish_loop items (publish_one r)
  end.
Definition publish_batch (items : list T) : prog Queue unit :=
  r ← reserve_count (lenN items); r ← publish_loop items r; drop_reservation r.

End queue.

(** ** What a thread owes a queue

    The token of a thread: items it has yet to enqueue, items it has taken, and how
    far its bookkeeping is behind: counted but not enqueued, enqueued but not
    published, reserved but not dequeued, dequeued but not subtracted. *)
Record Debt (T : Type) := mkDebt { todo : list T; got : list T; counted : N; unpublished : N; reserved : N; taken : N }.
Arguments mkDebt {T} _ _ _ _ _ _.
Arguments todo {T} _.
Arguments got {T} _.
Arguments counted {T} _.
Arguments unpublished {T} _.
Arguments reserved {T} _.
Arguments taken {T} _.

Section debts.
Context {T Q : Type} `{!Fifo T Q, !FifoLaws T Q}.
Local Notation Queue := (FaaFifoQueue Q).
Implicit Types (q : Queue) (d : Debt T).

(** A thread that has nothing to do with the queue, one that has items to push and
    one that has taken items. *)
Definition owes (items : list T) : Debt T := mkDebt items [] 0 0 0 0.
Definition has (items : list T) : Debt T := mkDebt [] items 0 0 0 0.

(** The moves of a thread. *)
Inductive qmove q : Debt T → Queue → Debt T → Prop :=
| q_idle d : qmove q d q d
| q_count n ts gs c u r k : c + n ≤ lenN ts →
    qmove q (mkDebt ts gs c u r k) (set_count (wrapping_add usize_MAX (count q) n) q) (mkDebt ts gs (c + n) u r k)
| q_enqueue x ts gs c u r k : 0 < c →
    qmove q (mkDebt (x :: ts) gs c u r k) (set_inner (enqueue (inner q) x) q) (mkDebt ts gs (c - 1) (u + 1) r k)
| q_publish ts gs c u r k : 0 < u →
    qmove q (mkDebt ts gs c u r k) (set_published (wrapping_add usize_MAX (published q) 1) q) (mkDebt ts gs c (u - 1) r k)
| q_reserve n ts gs c u r k : checked_sub (published q) 1 = Some n →
    qmove q (mkDebt ts gs c u r k) (set_published n q) (mkDebt ts gs c u (r + 1) k)
| q_return n ts gs c u r k : n ≤ r →
    qmove q (mkDebt ts gs c u r k) (set_published (wrapping_add usize_MAX (published q) n) q) (mkDebt ts gs c u (r - n) k)
| q_dequeue x ts gs c u r k : 0 < r → (dequeue (inner q)).2 = Some x →
    qmove q (mkDebt ts gs c u r k) (set_inner (dequeue (inner q)).1 q) (mkDebt ts (gs ++ [x]) c u (r - 1) (k + 1))
| q_miss d : (dequeue (inner q)).2 = None → qmove q d (set_inner (dequeue (inner q)).1 q) d
| q_subtract n ts gs c u r k : n ≤ k →
    qmove q (mkDebt ts gs c u r k) (set_count (count q - n) q) (mkDebt ts gs c u r (k - n)).

(** The state of the queue and of all threads: no item is lost or made up, the
    published number and the count are off by what the threads owe. *)
Record queue_inv q (ds : list (Debt T)) (items : list T) : Prop := {
  qi_items : items ≡ₚ fifo_view (inner q) ++ concat (todo <$> ds) ++ concat (got <$> ds);
  qi_published : lenN (fifo_view (inner q)) = published q + sum_over unpublished ds + sum_over reserved ds;
  qi_count : count q = lenN (fifo_view (inner q)) + sum_over counted ds + sum_over taken ds;
  qi_debts : Forall (λ d, counted d ≤ lenN (todo d) ∧ taken d ≤ lenN (got d)) ds;
}.

Lemma queue_inv_perm q ds ds' items : ds ≡ₚ ds' → queue_inv q ds items → queue_inv q ds' items.
Proof.
  intros Hp [Hi Hu Hc Hd]. split.
  - by rewrite <- (concat_perm todo _ _ Hp), <- (concat_perm got _ _ Hp).
  - by rewrite <- Hp.
  - by rewrite <- Hp.
  - by rewrite <- Hp.
Qed.

Lemma concat_len (ds : list (Debt T)) : Forall (λ d, counted d ≤ lenN (todo d) ∧ taken d ≤ lenN (got d)) ds →
  sum_over counted ds ≤ lenN (concat (todo <$> ds)) ∧ sum_over taken ds ≤ lenN (concat (got <$> ds)).
Proof. induction 1 as [|d ds [Hc Ht] _ IH]; csimpl; [done|]. rewrite !len_app. lia. Qed.

Lemma queue_inv_bound q ds items : queue_inv q ds items → count q ≤ lenN items ∧ published q ≤ lenN items.
Proof.
  intros [Hi Hu Hc Hd]. apply concat_len in Hd. assert (lenN items = lenN (fifo_view (inner q)) + lenN (concat (todo <$> ds)) + lenN (concat (got <$> ds))).
  { unfold lenN. rewrite (Permutation_length Hi), !length_app. lia. }
  lia.
Qed.

Lemma dequeue_some q x : (dequeue (inner q)).2 = Some x → fifo_view (inner q) = x :: fifo_view (dequeue (inner q)).1.
Proof. intros E. pose proof (fifo_view_dequeue (inner q)) as H. destruct (fifo_view (inner q)); destruct H as [H1 H2]; congruence. Qed.

Lemma dequeue_none q : (dequeue (inner q)).2 = None → fifo_view (inner q) = [] ∧ fifo_view (dequeue (inner q)).1 = [].
Proof. intros E. pose proof (fifo_view_dequeue (inner q)) as H. destruct (fifo_view (inner q)); destruct H as [H1 H2]; [done|congruence]. Qed.

(** Every move keeps it. *)
Lemma qmove_inv q d q' d' ds items : lenN items ≤ usize_MAX → qmove q d q' d' → queue_inv q (d :: ds) items → queue_inv q' (d' :: ds) items.
Proof.
  intros Hmax Hm [Hi Hu Hc [Hd Hds]%Forall_cons]. pose proof (concat_len ds Hds) as [Hl1 Hl2].
  assert (lenN items = lenN (fifo_view (inner q)) + lenN (concat (todo <$> d :: ds)) + lenN (concat (got <$> d :: ds))) as Hlen.
  { unfold lenN. rewrite (Permutation_length Hi), !length_app. lia. }
  destruct Hm as [d|n ts gs c u r k Hn|x ts gs c u r k Hn|ts gs c u r k Hn|n ts gs c u r k Hn|n ts gs c u r k Hn|x ts gs c u r k Hn E|d E|n ts gs c u r k Hn];
    csimpl in *; rewrite ?len_app, ?len_cons in *; simpl in *; (split; simpl; [..|apply Forall_cons; (split; [|exact Hds])]); simpl in *; rewrite ?len_app, ?len_cons; try done; try lia.
  - rewrite wrapping_add_exact by lia. lia.
  - rewrite fifo_view_enqueue, Hi. solve_Permutation.
  - rewrite fifo_view_enqueue, len_app. simpl. change (lenN [x]) with 1. lia.
  - rewrite fifo_view_enqueue, len_app. simpl. change (lenN [x]) with 1. lia.
  - rewrite wrapping_add_exact by lia. lia.
  - unfold checked_sub in Hn. destruct (N.leb_spec 1 (published q)); simplify_eq. lia.
  - rewrite wrapping_add_exact by lia. lia.
  - apply dequeue_some in E. rewrite Hi, E. solve_Permutation.
  - apply dequeue_some in E. rewrite E, len_cons in *. lia.
  - apply dequeue_some in E. rewrite E, len_cons in *. lia.
  - apply dequeue_none in E as [E1 E2]. by rewrite E2, Hi, E1.
  - apply dequeue_none in E as [E1 E2]. by rewrite E2, <- E1.
  - apply dequeue_none in E as [E1 E2]. by rewrite E2, <- E1.
Qed.

(** ** The operations as moves *)

Local Notation follows := (sim (λ _ : Queue, True) qmove).

Lemma follows_modify (f : Queue → Queue) (post : Debt T → unit → Prop) d d' :
  (∀ q, qmove q d (f q) d') → post d' () → follows post d (modify f).
Proof. intros Hf Hp q _. split; [done|]. exists d'. by split. Qed.

Lemma follows_count n ts gs c u r k :
  c + n ≤ lenN ts → follows (λ d _, d = mkDebt ts gs (c + n) u r k) (mkDebt ts gs c u r k) (count_add n).
Proof. intros Hn. eapply follows_modify; [|done]. intros q. by constructor. Qed.

Lemma follows_push_uncounted x ts gs c u r k :
  0 < c → follows (λ d _, d = mkDebt ts gs (c - 1) u r k) (mkDebt (x :: ts) gs c u r k) (push_uncounted x).
Proof.
  intros Hc. eapply sim_bind; [eapply (follows_modify _ (λ d _, d = mkDebt ts gs (c - 1) (u + 1) r k)); [intros q; by constructor | done]|].
  intros d [] ->. eapply follows_modify; [intros q; apply q_publish; lia|]. simpl. f_equal. lia.
Qed.

Lemma follows_push x ts gs : follows (λ d _, d = mkDebt ts gs 0 0 0 0) (mkDebt (x :: ts) gs 0 0 0 0) (push x).
Proof.
  eapply sim_bind; [apply (follows_count 1); rewrite len_cons; lia|]. intros d [] ->. by apply (follows_push_uncounted x ts gs 1 0 0 0).
Qed.

Lemma follows_publish_loop items ts gs res : remaining res = lenN items →
  follows (λ d res, d = mkDebt ts gs 0 0 0 0 ∧ remaining res = 0) (mkDebt (items ++ ts) gs (lenN items) 0 0 0) (publish_loop items res).
Proof.
  revert res. induction items as [|x items IH]; intros res Hr; [by split|]. cbn [publish_loop app].
  eapply sim_bind; [apply follows_push_uncounted; rewrite len_cons; lia|]. intros d [] ->.
  replace (lenN (x :: items) - 1) with (lenN items) by (rewrite len_cons; lia). apply IH.
  unfold publish_one, saturating_sub. simpl. rewrite Hr, len_cons. lia.
Qed.

Lemma follows_publish_batch items ts gs : follows (λ d _, d = mkDebt ts gs 0 0 0 0) (mkDebt (items ++ ts) gs 0 0 0 0) (publish_batch items).
Proof.
  unfold publish_batch. eapply (sim_bind _ _ (λ d res, d = mkDebt (items ++ ts) gs (lenN items) 0 0 0 ∧ remaining res = lenN items)).
  - unfold reserve_count, add_count. destruct (N.ltb_spec 0 (lenN items)) as [H|H].
    + eapply sim_bind; [apply follows_count; rewrite len_app; lia|]. by intros d [] ->.
    + simpl. replace (lenN items) with 0 by lia. done.
  - intros d res [-> Hr]. eapply sim_bind; [by apply follows_publish_loop|]. intros d res' [-> Hr']. unfold drop_reservation, rollback_count, count_sub. by rewrite Hr'.
Qed.

Lemma follows_reserve ts gs c u r k :
  follows (λ d (ok : bool), d = mkDebt ts gs c u (if ok then r + 1 else r) k) (mkDebt ts gs c u r k) try_reserve_published.
Proof.
  intros q _. split; [done|]. simpl; destruct (checked_sub (published q) 1) eqn:E; simpl; eexists; (split; [|done]); by constructor.
Qed.

Lemma follows_dequeue ts gs c u r k : 0 < r →
  follows (λ d o, d = match o with Some x => mkDebt ts (gs ++ [x]) c u (r - 1) (k + 1) | None => mkDebt ts gs c u r k end)
    (mkDebt ts gs c u r k) inner_dequeue.
Proof.
  intros Hr q _. split; [done|]. simpl; destruct ((dequeue (inner q)).2) eqn:E; simpl; eexists; (split; [|done]); by constructor.
Qed.

Lemma follows_subtract n ts gs c u r k (p : prog Queue unit) : n ≤ k → 0 < n →
  p = modify (λ q, set_count (count q - n) q) → follows (λ d _, d = mkDebt ts gs c u r (k - n)) (mkDebt ts gs c u r k) p.
Proof. intros Hn H0 ->. eapply follows_modify; [|done]. intros q. by constructor. Qed.

Lemma follows_decrement ts gs c u r k : 0 < k → follows (λ d _, d = mkDebt ts gs c u r (k - 1)) (mkDebt ts gs c u r k) decrement_count.
Proof.
  intros Hk q _. split; [done|]. exists (mkDebt ts gs c u r (k - 1)). split; [|done].
  replace (match checked_sub (count q) 1 with Some n => set_count n q | None => q end) with (set_count (count q - 1) q); [apply q_subtract; lia|].
  unfold checked_sub. destruct (N.leb_spec 1 (count q)); [done|]. destruct q as [i c0 p0]. unfold set_count. simpl in *. f_equal. lia.
Qed.

Lemma follows_pop ts gs : follows (λ d o, d = mkDebt ts (gs ++ option_list o) 0 0 0 0) (mkDebt ts gs 0 0 0 0) pop.
Proof.
  eapply sim_bind; [apply follows_reserve|]. intros d [|] ->; cbn [negb]; [|simpl; by rewrite app_nil_r].
  eapply sim_bind; [by apply follows_dequeue|]. intros d [x|] ->.
  - eapply sim_bind; [by apply follows_decrement|]. by intros d [] ->.
  - eapply sim_bind; [eapply (follows_modify _ (λ d _, d = mkDebt ts gs 0 0 0 0)); [intros q; by apply (q_return q 1) | done]|].
    intros d [] ->. simpl. by rewrite app_nil_r.
Qed.

Lemma follows_reserve_loop n m ts gs : follows (λ d r, d = mkDebt ts gs 0 0 r 0) (mkDebt ts gs 0 0 m 0) (reserve_loop n m).
Proof.
  revert m. induction n as [|n IH]; intros m; [done|]. cbn [reserve_loop]. eapply sim_bind; [apply follows_reserve|]. intros d [|] ->; [apply IH | done].
Qed.

Lemma follows_dequeue_loop n out ts gs r k : N.of_nat n ≤ r →
  follows (λ d out', ∃ new, out' = out ++ new ∧ lenN new ≤ N.of_nat n ∧ d = mkDebt ts (gs ++ new) 0 0 (r - lenN new) (k + lenN new)) (mkDebt ts gs 0 0 r k) (dequeue_loop n out).
Proof.
  assert (Hnil : ∀ n out gs r k, ∃ new : list T, out = out ++ new ∧ lenN new ≤ N.of_nat n ∧ mkDebt ts gs 0 0 r k = mkDebt ts (gs ++ new) 0 0 (r - lenN new) (k + lenN new)).
  { intros. exists []. rewrite !app_nil_r, N.sub_0_r, N.add_0_r. split_and!; [done|change (lenN (@nil T)) with 0; lia|done]. }
  revert out gs r k. induction n as [|n IH]; intros out gs r k Hn; [apply Hnil|]. cbn [dequeue_loop].
  eapply sim_bind; [apply follows_dequeue; lia|]. intros d [x|] ->; [|apply Hnil].
  eapply sim_mono; [|apply IH; lia]. intros d' out' (new & -> & Hl & ->). exists (x :: new). rewrite <- !app_assoc, len_cons. simpl. split_and!; [done|lia|]. f_equal; lia.
Qed.

Lemma follows_pop_batch n out ts gs :
  follows (λ d r, ∃ new, r = (lenN new, out ++ new) ∧ d = mkDebt ts (gs ++ new) 0 0 0 0) (mkDebt ts gs 0 0 0 0) (pop_batch_into n out).
Proof.
  assert (Hnil : ∃ new : list T, (0, out) = (lenN new, out ++ new) ∧ mkDebt ts gs 0 0 0 0 = mkDebt ts (gs ++ new) 0 0 0 0).
  { exists []. by rewrite !app_nil_r. }
  unfold pop_batch_into. destruct (n =? 0); [apply Hnil|]. eapply sim_bind; [apply follows_reserve_loop|]. intros d r ->.
  destruct (N.eqb_spec r 0) as [->|Hr]; [apply Hnil|]. eapply sim_bind; [apply follows_dequeue_loop; lia|]. intros d out' (new & -> & Hl & ->).
  rewrite len_app. replace (saturating_sub (lenN out + lenN new) (lenN out)) with (lenN new) by mlia.
  eapply (sim_bind _ _ (λ d _, d = mkDebt ts (gs ++ new) 0 0 0 (lenN new))).
  - destruct (N.ltb_spec (lenN new) r) as [Hlt|Hge]; [|simpl; f_equal; lia].
    eapply follows_modify; [intros q; apply (q_return q (saturating_sub r (lenN new))); mlia|]. f_equal; mlia.
  - intros d [] ->. eapply (sim_bind _ _ (λ d _, d = mkDebt ts (gs ++ new) 0 0 0 0)).
    + destruct (N.ltb_spec 0 (lenN new)) as [Hlt|Hge]; [|simpl; f_equal; lia].
      unfold count_sub. rewrite (proj2 (N.eqb_neq _ _)) by lia. eapply follows_modify; [intros q; apply q_subtract; done|]. f_equal. lia.
    + intros d [] ->. by exists new.
Qed.

End debts.

End Faa.
