(* ===== verification/Injector.v ===== *)
(** * The global injection queue

    [runtime/scheduler/global_injector.rs]: the three lanes through which all
    threads hand tasks to the workers.  The cancel lane is a counted queue; the
    timed lane is a binary heap under a mutex with a cached earliest deadline; the
    ready lane is a counted queue in front of which, under contention, one thread
    combines the injections of others.  Every access to an atomic, to the inner
    queues or under a mutex is one step of a program ([Atomic]).  A [try_lock] that
    fails is an input of the program ([contended]); the two loads of [active] in
    [inject_ready_contentious] are separate steps, as [active] is written outside
    the mutex too.  The rounds of the combiner carry fuel: it goes on as long as
    others add to its batch, and [None] says that the fuel ran out. *)

From S2P Require Import Prelude Ids Heap Priority Atomic GlobalQueue.

Module Injector.

Definition READY_COMBINER_IN_FLIGHT_THRESHOLD : N := 4.
Definition READY_COMBINER_BACKLOG_THRESHOLD : N := 256.
Definition READY_COMBINER_MAX_BATCH : N := 64.

Record PriorityTask := mkPriorityTask { pt_task : TaskId; pt_priority : N }.
Record TimedTask := mkTimedTask { tt_task : TaskId; tt_deadline : Time.t; tt_generation : N }.

#[global] Instance PriorityTask_eq_dec : EqDecision PriorityTask.
Proof. solve_decision. Defined.

(** [diff.cmp(&0)] for the [i64] that a [u64] difference is cast to. *)
Definition sign_cmp (diff : N) : comparison := if diff =? 0 then Eq else if diff <=? isize_MAX then Gt else Lt.

Definition timed_task_cmp (a b : TimedTask) : comparison :=
  and_then (N.compare (tt_deadline b) (tt_deadline a))
    (and_then (sign_cmp (wrapping_sub u64_MAX (tt_generation b) (tt_generation a))) (task_cmp (tt_task b) (tt_task a))).

Record ReadyCombiner := mkReadyCombiner {
  active : bool;
  in_flight : N;
  pending : list PriorityTask;
  direct_injections : N;
  deferred_injections : N;
  combined_injections : N;
  fallback_injections : N;
  combiner_claim_failures : N;
  mode_entries : N;
  mode_exits : N;
  flushes : N;
  max_batch : N;
  max_in_flight : N;
}.
Record TimedQueue := mkTimedQueue { heap : list TimedTask; next_generation : N }.

Definition set_active x c : ReadyCombiner :=
  mkReadyCombiner x (in_flight c) (pending c) (direct_injections c) (deferred_injections c) (combined_injections c) (fallback_injections c) (combiner_claim_failures c) (mode_entries c) (mode_exits c) (flushes c) (max_batch c) (max_in_flight c).
Definition set_in_flight x c : ReadyCombiner :=
  mkReadyCombiner (active c) x (pending c) (direct_injections c) (deferred_injections c) (combined_injections c) (fallback_injections c) (combiner_claim_failures c) (mode_entries c) (mode_exits c) (flushes c) (max_batch c) (max_in_flight c).
Definition set_pending x c : ReadyCombiner :=
  mkReadyCombiner (active c) (in_flight c) x (direct_injections c) (deferred_injections c) (combined_injections c) (fallback_injections c) (combiner_claim_failures c) (mode_entries c) (mode_exits c) (flushes c) (max_batch c) (max_in_flight c).
Definition set_direct_injections x c : ReadyCombiner :=
  mkReadyCombiner (active c) (in_flight c) (pending c) x (deferred_injections c) (combined_injections c) (fallback_injections c) (combiner_claim_failures c) (mode_entries c) (mode_exits c) (flushes c) (max_batch c) (max_in_flight c).
Definition set_deferred_injections x c : ReadyCombiner :=
  mkReadyCombiner (active c) (in_flight c) (pending c) (direct_injections c) x (combined_injections c) (fallback_injections c) (combiner_claim_failures c) (mode_entries c) (mode_exits c) (flushes c) (max_batch c) (max_in_flight c).
Definition set_combined_injections x c : ReadyCombiner :=
  mkReadyCombiner (active c) (in_flight c) (pending c) (direct_injections c) (deferred_injections c) x (fallback_injections c) (combiner_claim_failures c) (mode_entries c) (mode_exits c) (flushes c) (max_batch c) (max_in_flight c).
Definition set_fallback_injections x c : ReadyCombiner :=
  mkReadyCombiner (active c) (in_flight c) (pending c) (direct_injections c) (deferred_injections c) (combined_injections c) x (combiner_claim_failures c) (mode_entries c) (mode_exits c) (flushes c) (max_batch c) (max_in_flight c).
Definition set_combiner_claim_failures x c : ReadyCombiner :=
  mkReadyCombiner (active c) (in_flight c) (pending c) (direct_injections c) (deferred_injections c) (combined_injections c) (fallback_injections c) x (mode_entries c) (mode_exits c) (flushes c) (max_batch c) (max_in_flight c).
Definition set_mode_entries x c : ReadyCombiner :=
  mkReadyCombiner (active c) (in_flight c) (pending c) (direct_injections c) (deferred_injections c) (combined_injections c) (fallback_injections c) (combiner_claim_failures c) x (mode_exits c) (flushes c) (max_batch c) (max_in_flight c).
Definition set_mode_exits x c : ReadyCombiner :=
  mkReadyCombiner (active c) (in_flight c) (pending c) (direct_injections c) (deferred_injections c) (combined_injections c) (fallback_injections c) (combiner_claim_failures c) (mode_entries c) x (flushes c) (max_batch c) (max_in_flight c).
Definition set_flushes x c : ReadyCombiner :=
  mkReadyCombiner (active c) (in_flight c) (pending c) (direct_injections c) (deferred_injections c) (combined_injections c) (fallback_injections c) (combiner_claim_failures c) (mode_entries c) (mode_exits c) x (max_batch c) (max_in_flight c).
Definition set_max_batch x c : ReadyCombiner :=
  mkReadyCombiner (active c) (in_flight c) (pending c) (direct_injections c) (deferred_injections c) (combined_injections c) (fallback_injections c) (combiner_claim_failures c) (mode_entries c) (mode_exits c) (flushes c) x (max_in_flight c).
Definition set_max_in_flight x c : ReadyCombiner :=
  mkReadyCombiner (active c) (in_flight c) (pending c) (direct_injections c) (deferred_injections c) (combined_injections c) (fallback_injections c) (combiner_claim_failures c) (mode_entries c) (mode_exits c) (flushes c) (max_batch c) x.

Record ReadyCombinerSnapshot := mkReadyCombinerSnapshot {
  snap_direct_injections : N;
  snap_deferred_injections : N;
  snap_combined_injections : N;
  snap_fallback_injections : N;
  snap_combiner_claim_failures : N;
  snap_mode_entries : N;
  snap_mode_exits : N;
  snap_flushes : N;
  snap_max_batch : N;
  snap_max_in_flight : N;
  snap_current_in_flight : N;
  snap_pending_len : N;
  snap_ready_len : N;
}.

Section injector.
Context {Q : Type} `{!Fifo PriorityTask Q}.

Record GlobalInjector := mkGlobalInjector {
  cancel_queue : Faa.FaaFifoQueue Q;
  timed_queue : TimedQueue;
  ready_queue : Faa.FaaFifoQueue Q;
  ready_combiner : ReadyCombiner;
  timed_count : N;
  cached_earliest_deadline : N;
}.
Implicit Types g : GlobalInjector.

Definition set_cancel_queue x g : GlobalInjector :=
  mkGlobalInjector x (timed_queue g) (ready_queue g) (ready_combiner g) (timed_count g) (cached_earliest_deadline g).
Definition set_timed_queue x g : GlobalInjector :=
  mkGlobalInjector (cancel_queue g) x (ready_queue g) (ready_combiner g) (timed_count g) (cached_earliest_deadline g).
Definition set_ready_queue x g : GlobalInjector :=
  mkGlobalInjector (cancel_queue g) (timed_queue g) x (ready_combiner g) (timed_count g) (cached_earliest_deadline g).
Definition set_ready_combiner x g : GlobalInjector :=
  mkGlobalInjector (cancel_queue g) (timed_queue g) (ready_queue g) x (timed_count g) (cached_earliest_deadline g).
Definition set_timed_count x g : GlobalInjector :=
  mkGlobalInjector (cancel_queue g) (timed_queue g) (ready_queue g) (ready_combiner g) x (cached_earliest_deadline g).
Definition set_cached_earliest_deadline x g : GlobalInjector :=
  mkGlobalInjector (cancel_queue g) (timed_queue g) (ready_queue g) (ready_combiner g) (timed_count g) x.

Definition injector_new : GlobalInjector :=
  mkGlobalInjector Faa.faa_default (mkTimedQueue [] 0) Faa.faa_default (mkReadyCombiner false 0 [] 0 0 0 0 0 0 0 0 0 0) 0 u64_MAX.

Definition on_cancel {A} (p : prog (Faa.FaaFifoQueue Q) A) : prog GlobalInjector A := zoom cancel_queue set_cancel_queue p.
Definition on_ready {A} (p : prog (Faa.FaaFifoQueue Q) A) : prog GlobalInjector A := zoom ready_queue set_ready_queue p.
Definition on_combiner {A} (p : prog ReadyCombiner A) : prog GlobalInjector A := zoom ready_combiner set_ready_combiner p.

(** ** The combiner *)

(** [fetch_add] and [fetch_max] on a counter of the combiner. *)
Definition fetch_add (field : ReadyCombiner → N) (set : N → ReadyCombiner → ReadyCombiner) (n : N) : prog ReadyCombiner N :=
  act (λ c, (set (wrapping_add usize_MAX (field c) n) c, field c)).
Definition fetch_max (field : ReadyCombiner → N) (set : N → ReadyCombiner → ReadyCombiner) (n : N) : prog ReadyCombiner unit :=
  modify (λ c, set (N.max (field c) n) c).

Definition begin_injection : prog ReadyCombiner N :=
  before ← fetch_add in_flight set_in_flight 1;
  let observed := wrapping_add usize_MAX before 1 in
  fetch_max max_in_flight set_max_in_flight observed;;
  Ret observed.
Definition finish_injection : prog ReadyCombiner unit :=
  modify (λ c, set_in_flight (wrapping_sub usize_MAX (in_flight c) 1) c).
Definition should_combine (in_flight ready_backlog : N) : bool :=
  (READY_COMBINER_IN_FLIGHT_THRESHOLD <=? in_flight) || ((1 <? in_flight) && (READY_COMBINER_BACKLOG_THRESHOLD <=? ready_backlog)).

(** The critical sections on [pending]: taking at most [take] entries, and leaving
    the combining mode when there are none. *)
Definition drain_pending (take : N) : prog ReadyCombiner (list PriorityTask) :=
  act (λ c, let drain_len := N.min take (lenN (pending c)) in (set_pending (dropN drain_len (pending c)) c, takeN drain_len (pending c))).
Definition next_batch : prog ReadyCombiner (option (list PriorityTask)) :=
  act (λ c, match pending c with
            | [] => (set_mode_exits (wrapping_add usize_MAX (mode_exits c) 1) (set_active false c), None)
            | _ => let take := N.min READY_COMBINER_MAX_BATCH (lenN (pending c)) in
                   (set_pending (dropN take (pending c)) c, Some (takeN take (pending c)))
            end).

Definition publish_ready_batch (batch : list PriorityTask) : prog GlobalInjector unit :=
  if lenN batch =? 0 then Ret () else
  on_combiner (fetch_max max_batch set_max_batch (lenN batch));;
  on_combiner (fetch_add flushes set_flushes 1);;
  on_combiner (fetch_add combined_injections set_combined_injections (lenN batch));;
  on_ready (Faa.publish_batch batch).

Fixpoint flush_loop (fuel : nat) (batch : list PriorityTask) : prog GlobalInjector (option unit) :=
  match fuel with
  | O => Ret None
  | S fuel =>
      let take := saturating_sub READY_COMBINER_MAX_BATCH (lenN batch) in
      more ← on_combiner (drain_pending take);
      publish_ready_batch (batch ++ more);;
      next ← on_combiner next_batch;
      match next with None => Ret (Some ()) | Some batch => flush_loop fuel batch end
  end.
Definition flush_ready_combiner_with (fuel : nat) (first : PriorityTask) : prog GlobalInjector (option unit) := flush_loop fuel [first].

(** [active.compare_exchange(false, true)]. *)
Definition claim : prog ReadyCombiner bool :=
  act (λ c, if active c then (c, false) else (set_active true c, true)).

(** Pushing to [pending] after [active] was seen, looking again, and taking the entry
    back when the combiner has left: whether it stays. *)
Definition defer (entry : PriorityTask) : prog ReadyCombiner bool :=
  act (λ c, let p := pending c ++ [entry] in
            if active c then (set_pending p c, true)
            else (set_pending (if bool_decide (last p = Some entry) then removelast p else p) c, false)).

Definition inject_ready_contentious (fuel : nat) (contended : bool) (entry : PriorityTask) : prog GlobalInjector (option unit) :=
  claimed ← on_combiner claim;
  if (claimed : bool) then
    on_combiner (fetch_add mode_entries set_mode_entries 1);;
    flush_ready_combiner_with fuel entry
  else
    on_combiner (fetch_add combiner_claim_failures set_combiner_claim_failures 1);;
    deferred ← (if contended then Ret false else
                is_active ← on_combiner (load active);
                if (is_active : bool) then on_combiner (defer entry) else Ret false);
    if (deferred : bool) then
      on_combiner (fetch_add deferred_injections set_deferred_injections 1);;
      Ret (Some ())
    else
      on_ready (Faa.push entry);;
      on_combiner (fetch_add fallback_injections set_fallback_injections 1);;
      Ret (Some ()).

(** ** Injecting *)

Definition inject_cancel (task : TaskId) (priority : N) : prog GlobalInjector unit := on_cancel (Faa.push (mkPriorityTask task priority)).

Definition earliest_of (h : list TimedTask) : N := match h with [] => u64_MAX | t :: _ => Time.as_nanos (tt_deadline t) end.

Definition inject_timed (task : TaskId) (deadline : Time.t) : prog GlobalInjector unit :=
  modify (λ g, set_timed_count (wrapping_add usize_MAX (timed_count g) 1) g);;
  modify (λ g, let queue := timed_queue g in
               let generation := next_generation queue in
               let h := heap_push timed_task_cmp (mkTimedTask task deadline generation) (heap queue) in
               set_cached_earliest_deadline (earliest_of h) (set_timed_queue (mkTimedQueue h (wrapping_add u64_MAX generation 1)) g)).

Definition inject_ready (fuel : nat) (contended : bool) (task : TaskId) (priority : N) : prog GlobalInjector (option unit) :=
  let entry := mkPriorityTask task priority in
  in_flight ← on_combiner begin_injection;
  ready_backlog ← on_ready Faa.queue_len;
  done ← (if should_combine in_flight ready_backlog then inject_ready_contentious fuel contended entry
          else on_ready (Faa.push entry);;
               on_combiner (fetch_add direct_injections set_direct_injections 1);;
               Ret (Some ()));
  match done with
  | None => Ret None
  | Some _ => on_combiner finish_injection;; Ret (Some ())
  end.

Definition inject_ready_uncounted (task : TaskId) (priority : N) : prog GlobalInjector unit :=
  on_ready (Faa.push_uncounted (mkPriorityTask task priority)).
Definition reserve_ready_count (n : N) : prog GlobalInjector Faa.CountReservation := on_ready (Faa.reserve_count n).

(** ** Taking *)

Definition pop_cancel : prog GlobalInjector (option PriorityTask) := on_cancel Faa.pop.

Definition decrement_timed_count : prog GlobalInjector unit :=
  modify (λ g, match checked_sub (timed_count g) 1 with Some n => set_timed_count n g | None => g end).

Definition heap_popped g (h : list TimedTask) : GlobalInjector :=
  set_cached_earliest_deadline (earliest_of h) (set_timed_queue (mkTimedQueue h (next_generation (timed_queue g))) g).

Definition pop_timed : prog GlobalInjector (option TimedTask) :=
  n ← load timed_count;
  if n =? 0 then Ret None else
  result ← act (λ g, match heap (timed_queue g) with [] => (heap_popped g [], None) | t :: h => (heap_popped g h, Some t) end);
  match result with Some t => decrement_timed_count;; Ret (Some t) | None => Ret None end.

Definition peek_earliest_deadline : prog GlobalInjector (option Time.t) :=
  n ← load timed_count;
  if n =? 0 then Ret None else
  cached ← load cached_earliest_deadline;
  Ret (if cached =? u64_MAX then None else Some (Time.from_nanos cached)).

Definition pop_timed_if_due (now : Time.t) : prog GlobalInjector (option TimedTask) :=
  n ← load timed_count;
  if n =? 0 then Ret None else
  cached ← load cached_earliest_deadline;
  if negb (cached =? u64_MAX) && (now <? Time.from_nanos cached) then Ret None else
  result ← act (λ g, match heap (timed_queue g) with
                     | t :: h => if tt_deadline t <=? now then (heap_popped g h, Some t) else (g, None)
                     | [] => (g, None)
                     end);
  match result with Some t => decrement_timed_count;; Ret (Some t) | None => Ret None end.

Definition pop_ready : prog GlobalInjector (option PriorityTask) := on_ready Faa.pop.
Definition pop_ready_batch_into (max : N) (out : list PriorityTask) : prog GlobalInjector (N * list PriorityTask) := on_ready (Faa.pop_batch_into max out).

(** ** Looking *)

Definition has_cancel_work : prog GlobalInjector bool := e ← on_cancel Faa.queue_is_empty; Ret (negb e).
Definition cancel_count : prog GlobalInjector N := on_cancel Faa.queue_len.
Definition has_timed_work : prog GlobalInjector bool := n ← load timed_count; Ret (0 <? n).
Definition has_ready_work : prog GlobalInjector bool := e ← on_ready Faa.queue_is_empty; Ret (negb e).
Definition ready_count : prog GlobalInjector N := on_ready Faa.queue_len.

Definition injector_is_empty : prog GlobalInjector bool :=
  c ← on_cancel Faa.queue_is_empty;
  if negb c then Ret false else
  n ← load timed_count;
  if negb (n =? 0) then Ret false else on_ready Faa.queue_is_empty.

Definition has_runnable_work (now : Time.t) : prog GlobalInjector bool :=
  c ← on_cancel Faa.queue_is_empty;
  if negb c then Ret true else
  r ← on_ready Faa.queue_is_empty;
  if negb r then Ret true else
  n ← load timed_count;
  if n =? 0 then Ret false else
  earliest ← load cached_earliest_deadline;
  Ret (negb (earliest =? u64_MAX) && (Time.from_nanos earliest <=? now)).

Definition injector_len : prog GlobalInjector N :=
  c ← on_cancel Faa.queue_len; t ← load timed_count; r ← on_ready Faa.queue_len; Ret (wrapping_add usize_MAX (wrapping_add usize_MAX c t) r).

Definition snapshot (ready_len : N) : prog ReadyCombiner ReadyCombinerSnapshot :=
  v_direct_injections ← load direct_injections;
  v_deferred_injections ← load deferred_injections;
  v_combined_injections ← load combined_injections;
  v_fallback_injections ← load fallback_injections;
  v_combiner_claim_failures ← load combiner_claim_failures;
  v_mode_entries ← load mode_entries;
  v_mode_exits ← load mode_exits;
  v_flushes ← load flushes;
  v_max_batch ← load max_batch;
  v_max_in_flight ← load max_in_flight;
  v_in_flight ← load in_flight;
  v_pending_len ← load (λ c, lenN (pending c));
  Ret (mkReadyCombinerSnapshot v_direct_injections v_deferred_injections v_combined_injections v_fallback_injections v_combiner_claim_failures v_mode_entries v_mode_exits v_flushes v_max_batch v_max_in_flight v_in_flight v_pending_len ready_len).
Definition ready_combiner_snapshot : prog GlobalInjector ReadyCombinerSnapshot := n ← on_ready Faa.queue_len; on_combiner (snapshot n).

End injector.
Arguments GlobalInjector : clear implicits.

End Injector.
