(* ===== verification/InjectorThms.v ===== *)
(** * What the global injection queue guarantees

    For every interleaving of the accesses of any number of threads: no task is lost
    or duplicated on its way through the lanes, and once the threads are done the
    counters are exact and the combiner has drained.  Each thread carries a token
    that says what it holds and how far its bookkeeping is behind. *)

From S2P Require Import Prelude Ids Heap Priority Atomic GlobalQueue Injector.
Import Faa Injector.

(** ** Tokens and moves *)

Record TDebt := mkTDebt { t_todo : list (TaskId * Time.t); t_got : list (TaskId * Time.t); t_counted : N; t_taken : N }.

(** With the combiner: whether the thread combines and is in flight, entries it holds
    that no statistic accounts for, entries it took over, and whether it deferred. *)
Record CDebt := mkCDebt { combining : bool; flying : bool; unaccounted : N; eaten : N; deferred : N }.
Record Token := mkToken { tk_cancel : Debt PriorityTask; tk_ready : Debt PriorityTask; tk_timed : TDebt; tk_comb : CDebt }.

Definition accounted (c : ReadyCombiner) : N := direct_injections c + combined_injections c + fallback_injections c.
Definition same_core (c c' : ReadyCombiner) : Prop := active c' = active c ∧ in_flight c' = in_flight c ∧ pending c' = pending c.

Inductive cmove (c : ReadyCombiner) : Debt PriorityTask * CDebt → ReadyCombiner → Debt PriorityTask * CDebt → Prop :=
| c_stat c' x : same_core c c' → accounted c' = accounted c → cmove c x c' x
| c_begin d b u e k :
    cmove c (d, mkCDebt b false u e k) (set_in_flight (wrapping_add usize_MAX (in_flight c) 1) c) (d, mkCDebt b true u e k)
| c_finish d b u e k :
    cmove c (d, mkCDebt b true u e k) (set_in_flight (wrapping_sub usize_MAX (in_flight c) 1) c) (d, mkCDebt b false u e k)
| c_claim d f u e k : active c = false → cmove c (d, mkCDebt false f u e k) (set_active true c) (d, mkCDebt true f u e k)
| c_drain n ts gs f u e k :
    cmove c (mkDebt ts gs 0 0 0 0, mkCDebt true f u e k) (set_pending (dropN n (pending c)) c)
      (mkDebt (ts ++ takeN n (pending c)) gs 0 0 0 0, mkCDebt true f (u + lenN (takeN n (pending c))) (e + lenN (takeN n (pending c))) k)
| c_exit c' d f u e k : pending c = [] → same_core (set_active false c) c' → accounted c' = accounted c →
    cmove c (d, mkCDebt true f u e k) c' (d, mkCDebt false f u e k)
| c_defer x ts gs b f u e : active c = true → 0 < u →
    cmove c (mkDebt (x :: ts) gs 0 0 0 0, mkCDebt b f u e 0) (set_pending (pending c ++ [x]) c) (mkDebt ts gs 0 0 0 0, mkCDebt b f (u - 1) e 1)
| c_account n c' d b f u e k : n ≤ u → same_core c c' → (accounted c + n ≤ usize_MAX → accounted c' = accounted c + n) →
    cmove c (d, mkCDebt b f u e k) c' (d, mkCDebt b f (u - n) e k).

Section threads.
Context {Q : Type} `{!Fifo PriorityTask Q, !FifoLaws PriorityTask Q}.
Local Notation GI := (GlobalInjector Q).
Implicit Types g : GI.

Inductive tmove g : TDebt → GI → TDebt → Prop :=
| t_count x gs : tmove g (mkTDebt [x] gs 0 0) (set_timed_count (wrapping_add usize_MAX (timed_count g) 1) g) (mkTDebt [x] gs 1 0)
| t_push task deadline gs :
    let queue := timed_queue g in
    let h := heap_push timed_task_cmp (mkTimedTask task deadline (next_generation queue)) (heap queue) in
    tmove g (mkTDebt [(task, deadline)] gs 1 0)
      (set_cached_earliest_deadline (earliest_of h) (set_timed_queue (mkTimedQueue h (wrapping_add u64_MAX (next_generation queue) 1)) g)) (mkTDebt [] gs 0 0)
| t_none ts gs c k : heap (timed_queue g) = [] → tmove g (mkTDebt ts gs c k) (heap_popped g []) (mkTDebt ts gs c k)
| t_pop ts gs c k t h : heap (timed_queue g) = t :: h →
    tmove g (mkTDebt ts gs c k) (heap_popped g h) (mkTDebt ts (gs ++ [(tt_task t, tt_deadline t)]) c (k + 1))
| t_subtract ts gs c k : 0 < k → tmove g (mkTDebt ts gs c k) (set_timed_count (timed_count g - 1) g) (mkTDebt ts gs c (k - 1)).

Inductive move g : Token → GI → Token → Prop :=
| m_idle t : move g t g t
| m_cancel d d' q r t c : qmove (cancel_queue g) d q d' → move g (mkToken d r t c) (set_cancel_queue q g) (mkToken d' r t c)
| m_ready d d' q r t c : qmove (ready_queue g) d q d' → move g (mkToken r d t c) (set_ready_queue q g) (mkToken r d' t c)
| m_timed g' d r t t' c : tmove g t g' t' → move g (mkToken d r t c) g' (mkToken d r t' c)
| m_comb c' d t x x' : cmove (ready_combiner g) x c' x' → move g (mkToken d x.1 t x.2) (set_ready_combiner c' g) (mkToken d x'.1 t x'.2).

(** ** The invariant *)

Definition entry_of (t : TimedTask) : TimedEntry := mkTimed (tt_task t) (tt_deadline t) (tt_generation t).
Definition edf (a b : TimedTask) : comparison := timed_cmp (entry_of a) (entry_of b).
Definition job_of (t : TimedTask) : TaskId * Time.t := (tt_task t, tt_deadline t).

Record timed_inv g (ds : list TDebt) (jobs : list (TaskId * Time.t)) : Prop := {
  ti_jobs : jobs ≡ₚ (job_of <$> heap (timed_queue g)) ++ concat (t_todo <$> ds) ++ concat (t_got <$> ds);
  ti_count : timed_count g = lenN (heap (timed_queue g)) + sum_over t_counted ds + sum_over t_taken ds;
  ti_debts : Forall (λ d, t_counted d ≤ lenN (t_todo d) ∧ t_taken d ≤ lenN (t_got d)) ds;
  ti_cached : cached_earliest_deadline g = earliest_of (heap (timed_queue g));
  ti_heap : heap_ok edf (heap (timed_queue g));
  ti_gens : Forall (λ t, tt_generation t < next_generation (timed_queue g)) (heap (timed_queue g));
  ti_next : next_generation (timed_queue g) + lenN (concat (t_todo <$> ds)) = lenN jobs;
}.

Record comb_inv (c : ReadyCombiner) (ds : list CDebt) (injected : N) : Prop := {
  ci_active : sum_over (λ d, if combining d then 1 else 0) ds = if active c then 1 else 0;
  ci_pending : pending c ≠ [] → active c = true;
  ci_flight : in_flight c = sum_over (λ d, if flying d then 1 else 0) ds;
  ci_account : accounted c + sum_over unaccounted ds + lenN (pending c) = injected;
  ci_eaten : sum_over eaten ds + lenN (pending c) = sum_over deferred ds;
  ci_once : Forall (λ d, deferred d ≤ 1) ds;
}.

Record inj_inv (cancels readys : list PriorityTask) (jobs : list (TaskId * Time.t)) (injected : N) g (ts : list Token) : Prop := {
  ii_cancel : queue_inv (cancel_queue g) (tk_cancel <$> ts) cancels;
  ii_ready : ∃ rest, readys ≡ₚ pending (ready_combiner g) ++ rest ∧ queue_inv (ready_queue g) (tk_ready <$> ts) rest;
  ii_timed : timed_inv g (tk_timed <$> ts) jobs;
  ii_comb : comb_inv (ready_combiner g) (tk_comb <$> ts) injected;
}.

(** *** Every move keeps it *)

#[local] Instance edf_total : TotalCmp edf.
Proof.
  split.
  - intros [] [] E. apply (cmp_eq (cmp := timed_cmp)) in E. unfold entry_of in E. simpl in E. by simplify_eq.
  - intros a b. apply (cmp_opp (cmp := timed_cmp)).
  - intros a b c. apply (cmp_trans (cmp := timed_cmp)).
Qed.

Lemma timed_task_cmp_edf a b : tt_generation a ≤ isize_MAX → tt_generation b ≤ isize_MAX → timed_task_cmp a b = edf a b.
Proof.
  intros Ha Hb. unfold timed_task_cmp, edf, timed_cmp, entry_of. simpl. f_equal. f_equal.
  destruct (N.compare_spec (tt_generation a) (tt_generation b)) as [E|H|H]; simpl; unfold sign_cmp.
  - rewrite E, wrapping_sub_small by mlia. by rewrite N.sub_diag.
  - rewrite wrapping_sub_small by mlia. rewrite (proj2 (N.eqb_neq _ _)) by lia. by rewrite (proj2 (N.leb_le _ _)) by lia.
  - unfold wrapping_sub. rewrite N.mod_small by mlia. rewrite (proj2 (N.eqb_neq _ _)) by mlia. by rewrite (proj2 (N.leb_gt _ _)) by mlia.
Qed.

Lemma heap_push_edf x h : tt_generation x ≤ isize_MAX → Forall (λ t, tt_generation t ≤ isize_MAX) h → heap_push timed_task_cmp x h = heap_push edf x h.
Proof. intros Hx. induction 1 as [|y h Hy _ IH]; simpl; [done|]. rewrite timed_task_cmp_edf by done. by rewrite IH. Qed.

Lemma tdebts_len ds : Forall (λ d, t_counted d ≤ lenN (t_todo d) ∧ t_taken d ≤ lenN (t_got d)) ds →
  sum_over t_counted ds ≤ lenN (concat (t_todo <$> ds)) ∧ sum_over t_taken ds ≤ lenN (concat (t_got <$> ds)).
Proof. induction 1 as [|d ds [Hc Ht] _ IH]; csimpl; [done|]. rewrite !len_app. lia. Qed.

Lemma tmove_inv g d g' d' ds jobs : lenN jobs ≤ isize_MAX → tmove g d g' d' → timed_inv g (d :: ds) jobs → timed_inv g' (d' :: ds) jobs.
Proof.
  intros Hmax Hm [Hj Hc [Hd Hds]%Forall_cons Hca Hh Hg Hn]. pose proof (tdebts_len ds Hds) as [Hl1 Hl2].
  assert (lenN jobs = lenN (heap (timed_queue g)) + lenN (concat (t_todo <$> d :: ds)) + lenN (concat (t_got <$> d :: ds))) as Hlen.
  { unfold lenN. rewrite (Permutation_length Hj), !length_app, length_fmap. lia. }
  destruct Hm as [x gs|task deadline gs|ts gs c k E|ts gs c k t h E|ts gs c k Hk]; csimpl in *; rewrite ?len_app, ?len_cons in *; simpl in *.
  - split; csimpl; try done; rewrite ?len_cons; [rewrite wrapping_add_1 by mlia; lia|constructor; [simpl; change (lenN [x]) with 1; lia|done]|lia].
  - subst h queue. set (t := mkTimedTask task deadline (next_generation (timed_queue g))). assert (Forall (λ t, tt_generation t ≤ isize_MAX) (heap (timed_queue g))) as Hs.
    { eapply Forall_impl; [exact Hg|]. simpl. intros. mlia. }
    rewrite heap_push_edf by (done || (simpl; mlia)).
    split; csimpl; rewrite ?heap_push_perm; try done.
    + rewrite Hj. simpl. change (job_of t) with (task, deadline). solve_Permutation.
    + unfold lenN in *. rewrite heap_push_length. lia.
    + by constructor.
    + by apply (heap_push_ok edf).
    + rewrite wrapping_add_1 by mlia. constructor; [simpl; lia|]. eapply Forall_impl; [exact Hg|]. simpl. lia.
    + rewrite wrapping_add_1 by mlia. lia.
  - rewrite E in *. split; csimpl; rewrite ?len_app; try done. by constructor.
  - rewrite E in *. apply heap_tail_ok in Hh as [Hh _]. apply Forall_cons in Hg as [_ Hg]. rewrite len_cons in *. split; csimpl; try done.
    + rewrite Hj. csimpl. unfold job_of at 1. solve_Permutation.
    + rewrite Hc. lia.
    + constructor; [|done]. simpl. rewrite len_app. simpl in *. change (lenN [(tt_task t, tt_deadline t)]) with 1. lia.
    + rewrite len_app. lia.
  - split; csimpl; rewrite ?len_app; try done; [lia|]. constructor; [simpl; lia|done].
Qed.

Lemma queue_inv_todo (q : FaaFifoQueue Q) ts ts' gs c u r k ds rest rest' :
  queue_inv q (mkDebt ts gs c u r k :: ds) rest → rest' ++ ts ≡ₚ rest ++ ts' → c ≤ lenN ts' →
  queue_inv q (mkDebt ts' gs c u r k :: ds) rest'.
Proof.
  intros [Hi Hu Hc [Hd Hds]%Forall_cons] Hp Hl. split; try done.
  - apply (Permutation_app_inv_r ts). rewrite Hp, Hi. csimpl. solve_Permutation.
  - constructor; [|done]. simpl in *. lia.
Qed.

Lemma queue_inv_head (q : FaaFifoQueue Q) x ts gs c u r k ds rest :
  queue_inv q (mkDebt (x :: ts) gs c u r k :: ds) rest → ∃ rest', rest ≡ₚ x :: rest'.
Proof.
  intros [Hi _ _ _]. exists (fifo_view (inner q) ++ ts ++ concat (todo <$> ds) ++ concat (got <$> mkDebt (x :: ts) gs c u r k :: ds)).
  rewrite Hi. csimpl. solve_Permutation.
Qed.

Definition readys_held (c : ReadyCombiner) (q : FaaFifoQueue Q) (ds : list (Debt PriorityTask)) (readys : list PriorityTask) : Prop :=
  ∃ rest, readys ≡ₚ pending c ++ rest ∧ queue_inv q ds rest.

Lemma cmove_inv c x c' x' cds q rds readys injected : injected ≤ usize_MAX → lenN cds < usize_MAX → cmove c x c' x' →
  comb_inv c (x.2 :: cds) injected → readys_held c q (x.1 :: rds) readys → comb_inv c' (x'.2 :: cds) injected ∧ readys_held c' q (x'.1 :: rds) readys.
Proof.
  intros Hmax Hthr Hm [Ha Hp Hf Hc He [Ho Hos]%Forall_cons] (rest & Hr & Hq). pose proof (sum_indicator flying cds) as Hfl.
  destruct Hm as [c' [d cd] (E1 & E2 & E3) E4|d b u e k|d b u e k|d f u e k E|n ts gs f u e k|c' d f u e k E (E1 & E2 & E3) E4|x ts gs b f u e E Hu|n c' d b f u e k Hn (E1 & E2 & E3) E4];
    simpl in *; (split; [split; simpl; rewrite ?E1, ?E2, ?E3, ?E4; try done; try lia; try (by constructor)|]);
    try (exists rest; rewrite ?E3; by split).
  - rewrite wrapping_add_1 by lia. lia.
  - rewrite wrapping_sub_small by mlia. lia.
  - rewrite E in Ha. lia.
  - intros Hd. apply Hp. intros E. apply Hd. rewrite E. apply drop_nil.
  - change (accounted (set_pending _ c)) with (accounted c). rewrite <- Hc, len_dropN, len_takeN. lia.
  - rewrite <- He, len_dropN, len_takeN. lia.
  - exists (takeN n (pending c) ++ rest). split; simpl.
    + rewrite Hr, <- (take_dropN n (pending c)) at 1. solve_Permutation.
    + eapply queue_inv_todo; [exact Hq| |lia]. solve_Permutation.
  - destruct (active c); lia.
  - change (accounted (set_pending _ c)) with (accounted c). rewrite len_app. change (lenN [x]) with 1. lia.
  - rewrite len_app. change (lenN [x]) with 1. lia.
  - destruct (queue_inv_head _ _ _ _ _ _ _ _ _ _ Hq) as (rest' & Hrest). exists rest'. split; simpl; [rewrite Hr, Hrest; solve_Permutation|].
    eapply queue_inv_todo; [exact Hq| |lia]. rewrite Hrest. solve_Permutation.
Qed.

Lemma timed_inv_same g g' ds jobs : timed_queue g' = timed_queue g → timed_count g' = timed_count g → cached_earliest_deadline g' = cached_earliest_deadline g →
  timed_inv g ds jobs → timed_inv g' ds jobs.
Proof. intros E1 E2 E3 []. by split; rewrite ?E1, ?E2, ?E3. Qed.

Lemma move_inv cancels readys jobs injected g t g' t' ts :
  lenN cancels ≤ usize_MAX → lenN readys ≤ usize_MAX → lenN jobs ≤ isize_MAX → injected ≤ usize_MAX → lenN ts < usize_MAX →
  move g t g' t' → inj_inv cancels readys jobs injected g (t :: ts) → inj_inv cancels readys jobs injected g' (t' :: ts).
Proof.
  intros Hmc Hmr Hmj Hmi Hthr Hm [Hc Hr Ht Hb]. destruct Hm as [t|d d' q r t c Hq|d d' q r t c Hq|g' d r t t' c Hq|c' d t x x' Hq]; csimpl in *.
  - by split.
  - split; csimpl; [by eapply qmove_inv|done|by apply (timed_inv_same g)|done].
  - destruct Hr as (rest & Hr & Hi). split; csimpl; [done| |by apply (timed_inv_same g)|done]. exists rest. split; [done|]. eapply qmove_inv; [|done..].
    assert (lenN readys = lenN (pending (ready_combiner g)) + lenN rest); [|lia]. unfold lenN. rewrite (Permutation_length Hr), length_app. lia.
  - assert (cancel_queue g' = cancel_queue g ∧ ready_queue g' = ready_queue g ∧ ready_combiner g' = ready_combiner g) as (E1 & E2 & E3) by (by destruct Hq).
    split; csimpl; rewrite ?E1, ?E2, ?E3; [done|done|by eapply tmove_inv|done].
  - destruct (cmove_inv (ready_combiner g) x c' x' (tk_comb <$> ts) (ready_queue g) (tk_ready <$> ts) readys injected) as [Hb' Hr'];
      [done|unfold lenN in *; by rewrite length_fmap|done..|]. split; csimpl; [done|done|by apply (timed_inv_same g)|done].
Qed.

Lemma inj_inv_perm cancels readys jobs injected g ts ts' : ts ≡ₚ ts' → inj_inv cancels readys jobs injected g ts → inj_inv cancels readys jobs injected g ts'.
Proof.
  intros Hp [Hc (rest & Hr & Hq) [Hj1 Hj2 Hj3 Hj4 Hj5 Hj6 Hj7] [Hb1 Hb2 Hb3 Hb4 Hb5 Hb6]]. split.
  - by eapply queue_inv_perm; [apply fmap_Permutation|].
  - exists rest. split; [done|]. by eapply queue_inv_perm; [apply fmap_Permutation|].
  - assert (tk_timed <$> ts ≡ₚ tk_timed <$> ts') as Hp' by by apply fmap_Permutation. split; try done.
    + by rewrite <- (concat_perm t_todo _ _ Hp'), <- (concat_perm t_got _ _ Hp').
    + by rewrite <- Hp'.
    + by rewrite <- Hp'.
    + rewrite <- Hj7. unfold lenN. by rewrite (concat_perm t_todo _ _ Hp').
  - assert (tk_comb <$> ts ≡ₚ tk_comb <$> ts') as Hp' by by apply fmap_Permutation. split; try done; by rewrite <- Hp'.
Qed.

(** ** The operations of a thread *)

Inductive InjectorOp :=
| InjectCancel (task : TaskId) (priority : N)
| InjectTimed (task : TaskId) (deadline : Time.t)
| InjectReady (contended : bool) (task : TaskId) (priority : N)
| InjectBatch (entries : list PriorityTask)   (* under one [reserve_ready_count] *)
| PopCancel
| PopTimed
| PopTimedIfDue (now : Time.t)
| PopReady
| PopReadyBatch (max : N).

(** What the thread takes away, by lane. *)
Record Out := mkOut { out_cancel : list PriorityTask; out_timed : list (TaskId * Time.t); out_ready : list PriorityTask }.
Definition out_none : Out := mkOut [] [] [].

Definition op_prog (fuel : nat) (o : InjectorOp) : prog GI (option Out) :=
  match o with
  | InjectCancel task priority => inject_cancel task priority;; Ret (Some out_none)
  | InjectTimed task deadline => inject_timed task deadline;; Ret (Some out_none)
  | InjectReady contended task priority =>
      done ← inject_ready fuel contended task priority; Ret (match done with Some _ => Some out_none | None => None end)
  | InjectBatch entries => on_ready (publish_batch entries);; Ret (Some out_none)
  | PopCancel => r ← pop_cancel; Ret (Some (mkOut (option_list r) [] []))
  | PopTimed => r ← pop_timed; Ret (Some (mkOut [] (job_of <$> option_list r) []))
  | PopTimedIfDue now => r ← pop_timed_if_due now; Ret (Some (mkOut [] (job_of <$> option_list r) []))
  | PopReady => r ← pop_ready; Ret (Some (mkOut [] [] (option_list r)))
  | PopReadyBatch max => r ← pop_ready_batch_into max []; Ret (Some (mkOut [] [] r.2))
  end.

(** What an operation brings in. *)
Definition in_cancel (o : InjectorOp) : list PriorityTask := match o with InjectCancel t p => [mkPriorityTask t p] | _ => [] end.
Definition in_timed (o : InjectorOp) : list (TaskId * Time.t) := match o with InjectTimed t d => [(t, d)] | _ => [] end.
Definition in_ready (o : InjectorOp) : list PriorityTask :=
  match o with InjectReady _ t p => [mkPriorityTask t p] | InjectBatch entries => entries | _ => [] end.
Definition in_counted (o : InjectorOp) : N := match o with InjectReady _ _ _ => 1 | _ => 0 end.

Definition start_token (o : InjectorOp) : Token :=
  mkToken (owes (in_cancel o)) (owes (in_ready o)) (mkTDebt (in_timed o) [] 0 0) (mkCDebt false false (in_counted o) 0 0).
Definition end_token (fuel : nat) (t : Token) (r : option Out) : Prop :=
  match r with
  | Some out => tk_cancel t = has (out_cancel out) ∧ tk_ready t = has (out_ready out) ∧ tk_timed t = mkTDebt [] (out_timed out) 0 0 ∧
      combining (tk_comb t) = false ∧ flying (tk_comb t) = false ∧ unaccounted (tk_comb t) = 0
  | None => N.of_nat fuel ≤ eaten (tk_comb t)
  end.

Local Notation injects := (sim (λ _ : GI, True) move).

(** *** Programs on a part of the injector *)

Lemma lift_cancel {A} (post : Debt PriorityTask → A → Prop) d r t c (p : prog (FaaFifoQueue Q) A) :
  sim (λ _, True) qmove post d p → injects (λ tk a, ∃ d', tk = mkToken d' r t c ∧ post d' a) (mkToken d r t c) (on_cancel p).
Proof. intros Hp. apply (sim_zoom _ _ (λ _, True) qmove (λ _, True) move (λ d, mkToken d r t c)); [done| |done]. intros g q d1 d2 _ _ Hm. by split; [|constructor]. Qed.

Lemma lift_ready {A} (post : Debt PriorityTask → A → Prop) d r t c (p : prog (FaaFifoQueue Q) A) :
  sim (λ _, True) qmove post r p → injects (λ tk a, ∃ r', tk = mkToken d r' t c ∧ post r' a) (mkToken d r t c) (on_ready p).
Proof. intros Hp. apply (sim_zoom _ _ (λ _, True) qmove (λ _, True) move (λ r, mkToken d r t c)); [done| |done]. intros g q d1 d2 _ _ Hm. by split; [|constructor]. Qed.

Lemma lift_comb {A} (post : Debt PriorityTask * CDebt → A → Prop) d r t c (p : prog ReadyCombiner A) :
  sim (λ _, True) cmove post (r, c) p → injects (λ tk a, ∃ x, tk = mkToken d x.1 t x.2 ∧ post x a) (mkToken d r t c) (on_combiner p).
Proof. intros Hp. apply (sim_zoom _ _ (λ _, True) cmove (λ _, True) move (λ x, mkToken d x.1 t x.2) post (r, c)); [done| |done]. intros g q d1 d2 _ _ Hm. by split; [|constructor]. Qed.

(** A step of the combiner, and one that only touches statistics. *)
Lemma comb_step {A} (f : ReadyCombiner → ReadyCombiner * A) (post : Token → A → Prop) d r t c :
  (∀ x, ∃ y, cmove x (r, c) (f x).1 y ∧ post (mkToken d y.1 t y.2) (f x).2) → injects post (mkToken d r t c) (on_combiner (act f)).
Proof.
  intros Hf. eapply sim_mono; [|apply (lift_comb (λ x a, post (mkToken d x.1 t x.2) a))].
  - by intros tk a (x & -> & Hx).
  - intros x _. split; [done|]. destruct (Hf x) as (y & Hy & Hp). exists y. by split.
Qed.

Lemma comb_stat {A} (f : ReadyCombiner → ReadyCombiner * A) (post : Token → A → Prop) d r t c :
  (∀ x, same_core x (f x).1 ∧ accounted (f x).1 = accounted x) → (∀ a, post (mkToken d r t c) a) → injects post (mkToken d r t c) (on_combiner (act f)).
Proof. intros Hf Hp. apply comb_step. intros x. exists (r, c). destruct (Hf x) as [H1 H2]. split; [by constructor|apply Hp]. Qed.

Lemma comb_note (f : ReadyCombiner → ReadyCombiner) d r t c :
  (∀ x, same_core x (f x) ∧ accounted (f x) = accounted x) → injects (λ tk _, tk = mkToken d r t c) (mkToken d r t c) (on_combiner (modify f)).
Proof. intros Hf. by apply (comb_stat (λ x, (f x, ()))). Qed.

Lemma comb_account (field : ReadyCombiner → N) set n d r t b f u e k :
  (∀ x v, same_core x (set v x)) → (∀ x, field x ≤ accounted x) → (∀ x v, accounted (set v x) + field x = accounted x + v) → n ≤ u →
  injects (λ tk _, tk = mkToken d r t (mkCDebt b f (u - n) e k)) (mkToken d r t (mkCDebt b f u e k)) (on_combiner (fetch_add field set n)).
Proof.
  intros Hs Hle Ha Hn. apply comb_step. intros x. exists (r, mkCDebt b f (u - n) e k). split; [|done]. simpl. apply c_account; [done|done|].
  intros Hmax. specialize (Hle x). rewrite wrapping_add_exact by lia. specialize (Ha x (field x + n)). lia.
Qed.

(** *** The combiner *)

Lemma injects_publish batch d gs t f e k :
  injects (λ tk _, tk = mkToken d (has gs) t (mkCDebt true f 0 e k)) (mkToken d (mkDebt batch gs 0 0 0 0) t (mkCDebt true f (lenN batch) e k)) (publish_ready_batch batch).
Proof.
  unfold publish_ready_batch. destruct (N.eqb_spec (lenN batch) 0) as [E|E].
  { apply len_0 in E as ->. done. }
  eapply sim_bind; [by apply comb_note|]. intros tk [] ->.
  eapply sim_bind; [apply (comb_stat _ (λ tk _, tk = mkToken d (mkDebt batch gs 0 0 0 0) t (mkCDebt true f (lenN batch) e k))); done|]. intros tk a' ->.
  eapply sim_bind; [apply (comb_account combined_injections set_combined_injections (lenN batch)); [done|unfold accounted; lia|unfold accounted; simpl; lia|lia]|]. intros tk a'' ->.
  pose proof (follows_publish_batch (Q := Q) batch [] gs) as Hp. rewrite app_nil_r in Hp.
  eapply sim_mono; [|apply lift_ready, Hp]. intros tk [] (r & -> & ->). f_equal. f_equal. lia.
Qed.

Lemma injects_flush fuel batch d gs t f e k :
  injects (λ tk r, match r with
                   | Some _ => ∃ e', tk = mkToken d (has gs) t (mkCDebt false f 0 e' k)
                   | None => N.of_nat fuel + e ≤ eaten (tk_comb tk)
                   end) (mkToken d (mkDebt batch gs 0 0 0 0) t (mkCDebt true f (lenN batch) e k)) (flush_loop fuel batch).
Proof.
  revert batch e. induction fuel as [|fuel IH]; intros batch e; [simpl; lia|]. cbn [flush_loop].
  eapply (sim_bind _ _ (λ tk more, ∃ e', e ≤ e' ∧ tk = mkToken d (mkDebt (batch ++ more) gs 0 0 0 0) t (mkCDebt true f (lenN (batch ++ more)) e' k))).
  { apply comb_step. intros c. simpl. eexists (mkDebt _ _ _ _ _ _, mkCDebt _ _ _ _ _). split; [apply c_drain|]. simpl. eexists. split; [|rewrite len_app; done]. lia. }
  intros tk more (e1 & He & ->). eapply sim_bind; [apply injects_publish|]. intros tk [] ->.
  eapply (sim_bind _ _ (λ tk next, match next with
    | None => tk = mkToken d (has gs) t (mkCDebt false f 0 e1 k)
    | Some b => ∃ e', e1 + 1 ≤ e' ∧ tk = mkToken d (mkDebt b gs 0 0 0 0) t (mkCDebt true f (lenN b) e' k) end)).
  { apply comb_step. intros c. simpl. destruct (pending c) as [|x l] eqn:E; simpl.
    - exists (has gs, mkCDebt false f 0 e1 k). split; [|done]. by apply c_exit.
    - set (n := N.min READY_COMBINER_MAX_BATCH (lenN (x :: l))). eexists. rewrite <- E. split; [apply (c_drain c n [] gs f 0 e1 k)|]. simpl.
      exists (e1 + lenN (takeN n (pending c))). split; [|by rewrite N.add_0_l]. rewrite len_takeN, E. unfold n, READY_COMBINER_MAX_BATCH. rewrite len_cons. lia. }
  intros tk [b|]; [|intros ->; by exists e1]. intros (e2 & He2 & ->). eapply sim_mono; [|apply IH]. intros tk [u|] H; [done|]. lia.
Qed.

Lemma injects_contentious fuel contended x d gs t :
  injects (λ tk r, match r with
                   | Some _ => ∃ e k, tk = mkToken d (has gs) t (mkCDebt false true 0 e k)
                   | None => N.of_nat fuel ≤ eaten (tk_comb tk)
                   end) (mkToken d (mkDebt [x] gs 0 0 0 0) t (mkCDebt false true 1 0 0)) (inject_ready_contentious fuel contended x).
Proof.
  unfold inject_ready_contentious. eapply (sim_bind _ _ (λ tk (b : bool), tk = mkToken d (mkDebt [x] gs 0 0 0 0) t (mkCDebt b true 1 0 0))).
  { apply comb_step. intros c. simpl. destruct (active c) eqn:E; simpl; eexists (_, _); (split; [|done]); [by apply c_stat | by apply c_claim]. }
  intros tk [|] ->.
  - eapply sim_bind; [apply (comb_stat _ (λ tk _, tk = mkToken d (mkDebt [x] gs 0 0 0 0) t (mkCDebt true true 1 0 0))); done|]. intros tk a ->.
    eapply sim_mono; [|apply (injects_flush fuel [x])]. intros tk [u|] H; [destruct H as (e & ->); eauto|]. lia.
  - eapply sim_bind; [apply (comb_stat _ (λ tk _, tk = mkToken d (mkDebt [x] gs 0 0 0 0) t (mkCDebt false true 1 0 0))); done|]. intros tk a ->.
    eapply (sim_bind _ _ (λ tk (b : bool), tk = if b then mkToken d (has gs) t (mkCDebt false true 0 0 1) else mkToken d (mkDebt [x] gs 0 0 0 0) t (mkCDebt false true 1 0 0))).
    { destruct contended; [done|]. eapply (sim_bind _ _ (λ tk _, tk = mkToken d (mkDebt [x] gs 0 0 0 0) t (mkCDebt false true 1 0 0))).
      { change (load active) with (act (λ c, (c, active c))). by apply comb_stat. }
      intros tk [|] ->; [|done]. apply comb_step. intros c. simpl. destruct (active c) eqn:E; simpl.
      - eexists (_, _). split; [by apply c_defer|]. done.
      - rewrite last_snoc, bool_decide_true, removelast_last by done. eexists (_, _). split; [by apply c_stat|]. done. }
    intros tk [|] ->.
    + eapply sim_bind; [apply (comb_stat _ (λ tk _, tk = mkToken d (has gs) t (mkCDebt false true 0 0 1))); done|]. intros tk b ->. simpl. eauto.
    + eapply sim_bind; [apply lift_ready, follows_push|]. intros tk [] (r & -> & ->).
      eapply sim_bind; [apply (comb_account fallback_injections set_fallback_injections 1); [done|unfold accounted; lia|unfold accounted; simpl; lia|lia]|]. intros tk b ->. simpl. eauto.
Qed.

Lemma injects_ready fuel contended x p d gs t :
  injects (λ tk r, match r with
                   | Some _ => ∃ e k, tk = mkToken d (has gs) t (mkCDebt false false 0 e k)
                   | None => N.of_nat fuel ≤ eaten (tk_comb tk)
                   end) (mkToken d (mkDebt [mkPriorityTask x p] gs 0 0 0 0) t (mkCDebt false false 1 0 0)) (inject_ready fuel contended x p).
Proof.
  unfold inject_ready. set (entry := mkPriorityTask x p).
  eapply (sim_bind _ _ (λ tk _, tk = mkToken d (mkDebt [entry] gs 0 0 0 0) t (mkCDebt false true 1 0 0))).
  { unfold begin_injection. eapply sim_mono; [|eapply lift_comb, (sim_bind _ _ (λ y _, y = (mkDebt [entry] gs 0 0 0 0, mkCDebt false true 1 0 0)))].
    - intros tk a (y & -> & Hy). exact Hy.
    - intros c _. split; [done|]. eexists. split; [apply c_begin|]. done.
    - intros y a -> c _. split; [done|]. eexists. split; [by apply c_stat|]. done. }
  intros tk n ->. eapply (sim_bind _ _ (λ tk _, tk = mkToken d (mkDebt [entry] gs 0 0 0 0) t (mkCDebt false true 1 0 0))).
  { eapply sim_mono; [|apply (lift_ready (λ r _, r = mkDebt [entry] gs 0 0 0 0))]; [by intros tk a (r & -> & ->)|]. intros q _. split; [done|]. eexists. split; [apply q_idle|]. done. }
  intros tk m ->. eapply (sim_bind _ _ (λ tk r, match r with
    | Some _ => ∃ e k, tk = mkToken d (has gs) t (mkCDebt false true 0 e k) | None => N.of_nat fuel ≤ eaten (tk_comb tk) end)).
  { destruct (should_combine n m); [apply injects_contentious|]. eapply sim_bind; [apply lift_ready, follows_push|]. intros tk [] (r & -> & ->).
    eapply sim_bind; [apply (comb_account direct_injections set_direct_injections 1); [done|unfold accounted; lia|unfold accounted; simpl; lia|lia]|]. intros tk b ->. simpl. eauto. }
  intros tk [u|]; [|done]. intros (e & k & ->). eapply sim_bind; [|intros tk' b H; exact H].
  change finish_injection with (Act (λ c, set_in_flight (wrapping_sub usize_MAX (in_flight c) 1) c) (λ _, Ret ())).
  intros g _. split; [done|]. exists (mkToken d (has gs) t (mkCDebt false false 0 e k)). split; [|simpl; eauto].
  apply (m_comb g _ d t (has gs, mkCDebt false true 0 e k) (has gs, mkCDebt false false 0 e k)). constructor.
Qed.

(** *** The timed lane *)

Lemma injects_look {A} (f : GI → A) (post : Token → A → Prop) tk : (∀ a, post tk a) → injects post tk (load f).
Proof. intros Hp g _. split; [done|]. exists tk. split; [constructor|apply Hp]. Qed.

Lemma injects_timed_modify (f : GI → GI) d r t t' c : (∀ g, tmove g t (f g) t') → injects (λ tk _, tk = mkToken d r t' c) (mkToken d r t c) (modify f).
Proof. intros Hf g _. split; [done|]. eexists. split; [by apply m_timed|done]. Qed.

Lemma injects_inject_timed task deadline d r c :
  injects (λ tk _, tk = mkToken d r (mkTDebt [] [] 0 0) c) (mkToken d r (mkTDebt [(task, deadline)] [] 0 0) c) (inject_timed task deadline).
Proof.
  eapply sim_bind; [apply (injects_timed_modify _ _ _ _ (mkTDebt [(task, deadline)] [] 1 0)); intros g; constructor|]. intros tk [] ->.
  apply injects_timed_modify. intros g. apply t_push.
Qed.

Lemma injects_decrement_timed d r ts gs n k c : 0 < k →
  injects (λ tk _, tk = mkToken d r (mkTDebt ts gs n (k - 1)) c) (mkToken d r (mkTDebt ts gs n k) c) decrement_timed_count.
Proof.
  intros Hk. apply injects_timed_modify. intros g.
  replace (match checked_sub (timed_count g) 1 with Some n => set_timed_count n g | None => g end) with (set_timed_count (timed_count g - 1) g); [by apply t_subtract|].
  unfold checked_sub. destruct (N.leb_spec 1 (timed_count g)); [done|]. destruct g. unfold set_timed_count. simpl in *. f_equal. lia.
Qed.

Definition nothing_timed : TDebt := mkTDebt [] [] 0 0.

Lemma injects_finish_pop d r c (p : prog GI (option TimedTask)) :
  injects (λ tk o, tk = mkToken d r (match o with Some t => mkTDebt [] [job_of t] 0 1 | None => nothing_timed end) c) (mkToken d r nothing_timed c) p →
  injects (λ tk o, tk = mkToken d r (mkTDebt [] (job_of <$> option_list o) 0 0) c) (mkToken d r nothing_timed c)
    (o ← p; match o with Some t => decrement_timed_count;; Ret (Some t) | None => Ret None end).
Proof.
  intros Hp. eapply sim_bind; [exact Hp|]. intros tk [t|] ->; [|done]. eapply sim_bind; [by apply injects_decrement_timed|]. by intros tk [] ->.
Qed.

Lemma injects_pop_timed d r c : injects (λ tk o, tk = mkToken d r (mkTDebt [] (job_of <$> option_list o) 0 0) c) (mkToken d r nothing_timed c) pop_timed.
Proof.
  unfold pop_timed. eapply sim_bind; [by apply (injects_look _ (λ tk _, tk = mkToken d r nothing_timed c))|]. intros tk n ->. destruct (n =? 0); [done|].
  apply injects_finish_pop. intros g _. split; [done|]. simpl. destruct (heap (timed_queue g)) as [|t h] eqn:E; simpl; eexists; (split; [|done]); apply m_timed.
  - by apply t_none.
  - by apply (t_pop g [] [] 0 0).
Qed.

Lemma injects_pop_due now d r c : injects (λ tk o, tk = mkToken d r (mkTDebt [] (job_of <$> option_list o) 0 0) c) (mkToken d r nothing_timed c) (pop_timed_if_due now).
Proof.
  unfold pop_timed_if_due. eapply sim_bind; [by apply (injects_look _ (λ tk _, tk = mkToken d r nothing_timed c))|]. intros tk n ->. destruct (n =? 0); [done|].
  eapply sim_bind; [by apply (injects_look _ (λ tk _, tk = mkToken d r nothing_timed c))|]. intros tk m ->. destruct (negb _ && _); [done|].
  apply injects_finish_pop. intros g _. split; [done|]. simpl. destruct (heap (timed_queue g)) as [|t h] eqn:E; simpl.
  - eexists. split; [apply m_idle|done].
  - destruct (tt_deadline t <=? now); simpl; eexists; (split; [|done]); [apply m_timed; by apply (t_pop g [] [] 0 0)|apply m_idle].
Qed.

(** *** All of them *)

Lemma op_follows fuel o : injects (end_token fuel) (start_token o) (op_prog fuel o).
Proof.
  destruct o as [task priority|task deadline|contended task priority|entries| | |now| |max]; unfold start_token, owes; simpl in_cancel; simpl in_ready; simpl in_timed; simpl in_counted; cbn [op_prog].
  - eapply sim_bind; [apply lift_cancel, follows_push|]. intros tk [] (d & -> & ->). done.
  - eapply sim_bind; [apply injects_inject_timed|]. by intros tk [] ->.
  - eapply sim_bind; [apply injects_ready|]. intros tk [u|]; [|done]. by intros (e & k & ->).
  - pose proof (follows_publish_batch (Q := Q) entries [] []) as Hp. rewrite app_nil_r in Hp. eapply sim_bind; [apply lift_ready, Hp|]. intros tk [] (d & -> & ->). done.
  - eapply sim_bind; [apply lift_cancel, (follows_pop [] [])|]. intros tk a (d & -> & ->). done.
  - eapply sim_bind; [apply injects_pop_timed|]. by intros tk a ->.
  - eapply sim_bind; [apply injects_pop_due|]. by intros tk a ->.
  - eapply sim_bind; [apply lift_ready, (follows_pop [] [])|]. intros tk a (d & -> & ->). done.
  - eapply sim_bind; [apply lift_ready, (follows_pop_batch max [] [] [])|]. intros tk a (d & -> & new & -> & ->). done.
Qed.

(** ** Reachable states

    Any number of threads, each performing an operation, in any interleaving. *)
Inductive reach (fuel : nat) : list InjectorOp → GI → gmap N (prog GI (option Out)) → Prop :=
| reach_new : reach fuel [] injector_new ∅
| reach_start ops g ps i o : reach fuel ops g ps → ps !! i = None → reach fuel (o :: ops) g (<[i := op_prog fuel o]> ps)
| reach_step ops g ps g' ps' : reach fuel ops g ps → pool_step (g, ps) (g', ps') → reach fuel ops g' ps'.

Definition cancels_in (ops : list InjectorOp) := ops ≫= in_cancel.
Definition readys_in (ops : list InjectorOp) := ops ≫= in_ready.
Definition jobs_in (ops : list InjectorOp) := ops ≫= in_timed.
Definition injected_in (ops : list InjectorOp) : N := sum_over in_counted ops.

(** Sizes that the counters of the code can represent. *)
Definition fits (ops : list InjectorOp) : Prop := lenN ops < isize_MAX ∧ lenN (readys_in ops) ≤ isize_MAX.

Lemma queue_inv_new (q : FaaFifoQueue Q) new ds items : queue_inv q ds items → queue_inv q (owes new :: ds) (new ++ items).
Proof. intros [Hi Hu Hc Hd]. split; csimpl; [|done|done|constructor; [simpl; lia|done]]. rewrite Hi. solve_Permutation. Qed.

Lemma queue_inv_default : queue_inv (faa_default (Q := Q)) [] [].
Proof. split; simpl; rewrite ?fifo_view_empty; (done || constructor). Qed.

Lemma inj_inv_start ops g ts o : inj_inv (cancels_in ops) (readys_in ops) (jobs_in ops) (injected_in ops) g ts →
  inj_inv (cancels_in (o :: ops)) (readys_in (o :: ops)) (jobs_in (o :: ops)) (injected_in (o :: ops)) g (start_token o :: ts).
Proof.
  intros [Hc (rest & Hr & Hq) [Hj1 Hj2 Hj3 Hj4 Hj5 Hj6 Hj7] [Hb1 Hb2 Hb3 Hb4 Hb5 Hb6]]. split; csimpl.
  - by apply queue_inv_new.
  - exists (in_ready o ++ rest). split; [rewrite Hr; solve_Permutation|]. by apply queue_inv_new.
  - split; csimpl; try done.
    + rewrite Hj1. solve_Permutation.
    + constructor; [simpl; lia|done].
    + rewrite !len_app, <- Hj7. lia.
  - split; csimpl; try done; [unfold injected_in in *; simpl; lia|]. constructor; [simpl; lia|done].
Qed.

Lemma reach_inv fuel ops g ps : reach fuel ops g ps → fits ops →
  ∃ tokens, carried (λ _, True) move (end_token fuel) tokens ps ∧ length (all_of tokens) = length ops ∧
    inj_inv (cancels_in ops) (readys_in ops) (jobs_in ops) (injected_in ops) g (all_of tokens).
Proof.
  induction 1 as [|ops g ps i o Hr IH Hi|ops g ps g' ps' Hr IH Hs]; intros Hf.
  - exists ∅. unfold all_of. rewrite map_to_list_empty. split; [split; [set_solver|done]|]. split; [done|].
    split; simpl; [apply queue_inv_default|exists []; split; [done|apply queue_inv_default]|split; simpl; (done || constructor)|split; simpl; (done || constructor)].
  - destruct IH as (tokens & Hc & Hl & HJ).
    { destruct Hf as [H1 H2]. change (readys_in (o :: ops)) with (in_ready o ++ readys_in ops) in H2. rewrite len_cons in H1. rewrite len_app in H2. split; lia. }
    assert (tokens !! i = None) as Hti by (apply not_elem_of_dom; destruct Hc as [-> _]; by apply not_elem_of_dom).
    exists (<[i := start_token o]> tokens). split; [apply carried_start; [done|apply op_follows]|]. split; [rewrite all_of_insert by done; simpl; lia|].
    eapply inj_inv_perm; [symmetry; by apply all_of_insert|]. by apply inj_inv_start.
  - destruct (IH Hf) as (tokens & Hc & Hl & HJ). destruct Hf as [H1 H2].
    assert (lenN (cancels_in ops) ≤ lenN ops ∧ lenN (jobs_in ops) ≤ lenN ops ∧ injected_in ops ≤ lenN ops) as (Hb1 & Hb2 & Hb3).
    { clear. unfold cancels_in, jobs_in, injected_in. induction ops as [|o ops IH]; [done|]. csimpl. rewrite !len_app, !len_cons. destruct o; simpl; rewrite ?len_cons; change (lenN (@nil PriorityTask)) with 0; change (lenN (@nil (TaskId * Time.t))) with 0; lia. }
    edestruct (pool_keeps (λ _, True) move (end_token fuel) (λ g l, length l = length ops ∧ inj_inv (cancels_in ops) (readys_in ops) (jobs_in ops) (injected_in ops) g l)
      g ps g' ps' tokens) as (_ & tokens' & Hc' & Hl' & HJ'); [| |done|done|done|done|by exists tokens'].
    + intros w l l' Hp [HL Hinv]. split; [by rewrite <- Hp|by eapply inj_inv_perm].
    + intros t t' others _ Hm [HL Hinv]. split; [done|]. eapply move_inv; [..|done|done]; try mlia. unfold lenN in *. simpl in HL. mlia.
Qed.

(** What the finished threads took away. *)
Definition out_of {A} (f : Out → list A) (p : prog GI (option Out)) : list A := match p with Ret (Some out) => f out | _ => [] end.
Definition outs {A} (f : Out → list A) (ps : gmap N (prog GI (option Out))) : list A := (map_to_list ps).*2 ≫= out_of f.
Definition settled (ps : gmap N (prog GI (option Out))) : Prop := ∀ i p, ps !! i = Some p → ∃ out, p = Ret (Some out).

Lemma pairs_got {A} fuel (f : Out → list A) (h : Token → list A) (pairs : list (Token * prog GI (option Out))) :
  (∀ t out, end_token fuel t (Some out) → h t = f out) → Forall (λ x, injects (end_token fuel) x.1 x.2) pairs →
  ∃ rest, concat (h <$> pairs.*1) ≡ₚ (pairs.*2 ≫= out_of f) ++ rest ∧ (Forall (λ p, ∃ out, p = Ret (Some out)) pairs.*2 → rest = []).
Proof.
  intros Hh. induction 1 as [|[t p] pairs Hp _ (rest & IH & Hs)]; [by exists []|]. csimpl. destruct p as [[out|]|fn k]; simpl.
  - exists rest. split; [rewrite (Hh t out Hp), IH; solve_Permutation|]. by intros [_ ?]%Forall_cons; auto.
  - exists (h t ++ rest). split; [rewrite IH; solve_Permutation|]. by intros [[out ?] _]%Forall_cons.
  - exists (h t ++ rest). split; [rewrite IH; solve_Permutation|]. by intros [[out ?] _]%Forall_cons.
Qed.

Lemma carried_got {A} fuel tokens ps (f : Out → list A) (h : Token → list A) : carried (λ _, True) move (end_token fuel) tokens ps →
  (∀ t out, end_token fuel t (Some out) → h t = f out) →
  ∃ rest, concat (h <$> all_of tokens) ≡ₚ outs f ps ++ rest ∧ (settled ps → rest = []).
Proof.
  intros (pairs & H1 & H2 & H3)%carried_pairs Hh. destruct (pairs_got fuel f h pairs Hh H3) as (rest & Hr & Hs). exists rest. split.
  - rewrite <- (concat_perm h _ _ H1), Hr. unfold outs. by rewrite H2.
  - intros Hset. apply Hs. rewrite H2. apply Forall_fmap, Forall_forall. intros [i p] Hi%elem_of_map_to_list. exact (Hset i p Hi).
Qed.

(** The tokens of threads that are done. *)
Definition finished fuel (t : Token) : Prop := ∃ out, end_token fuel t (Some out).

Lemma settled_finished fuel tokens ps : carried (λ _, True) move (end_token fuel) tokens ps → settled ps → Forall (finished fuel) (all_of tokens).
Proof.
  intros (pairs & <- & H2 & H3)%carried_pairs Hs. apply Forall_fmap, Forall_forall. intros [t p] Hin. simpl.
  assert (p ∈ (map_to_list ps).*2) as ([i p'] & -> & Hi)%list_elem_of_fmap by (rewrite <- H2; apply list_elem_of_fmap; by exists (t, p)).
  apply elem_of_map_to_list in Hi. destruct (Hs _ _ Hi) as [out ->]. exists out. rewrite Forall_forall in H3. exact (H3 _ Hin).
Qed.

Definition cancel_items g : list PriorityTask := fifo_view (inner (cancel_queue g)).
Definition ready_items g : list PriorityTask := fifo_view (inner (ready_queue g)).

(** A queue whose threads are done is exact. *)
Lemma queue_inv_done (q : FaaFifoQueue Q) ds items : queue_inv q ds items → Forall (λ d, ∃ l, d = has l) ds →
  items ≡ₚ fifo_view (inner q) ++ concat (got <$> ds) ∧ published q = lenN (fifo_view (inner q)) ∧ count q = lenN (fifo_view (inner q)).
Proof.
  intros [Hi Hu Hc Hd] Hs. assert (∀ f : Debt PriorityTask → N, (∀ l, f (has l) = 0) → sum_over f ds = 0) as Hz.
  { intros f Hf. apply sum_zero. eapply Forall_impl; [exact Hs|]. intros d [l ->]. apply Hf. }
  rewrite !Hz in Hu by done. rewrite !Hz in Hc by done. split_and!; [|lia|lia].
  rewrite Hi, (concat_nil todo); [done|]. eapply Forall_impl; [exact Hs|]. by intros d [l ->].
Qed.

Lemma enough_fuel fuel cancels readys jobs injected g tokens ps i :
  carried (λ _, True) move (end_token fuel) tokens ps → inj_inv cancels readys jobs injected g (all_of tokens) →
  (length (all_of tokens) < fuel)%nat → ps !! i ≠ Some (Ret None).
Proof.
  intros Hc [_ _ _ [_ _ _ _ He Ho]] Hfuel Hi. assert (is_Some (tokens !! i)) as [t Ht].
  { apply elem_of_dom. destruct Hc as [-> _]. apply elem_of_dom. eauto. }
  assert (N.of_nat fuel ≤ eaten (tk_comb t)) as Hle by exact (proj2 Hc i t (Ret None) Ht Hi).
  assert (eaten (tk_comb t) ≤ sum_over eaten (tk_comb <$> all_of tokens)).
  { apply sum_one, list_elem_of_fmap. exists t. split; [done|]. apply list_elem_of_fmap. exists (i, t). split; [done|]. by apply elem_of_map_to_list. }
  assert (sum_over deferred (tk_comb <$> all_of tokens) ≤ N.of_nat (length (tk_comb <$> all_of tokens)) * 1) as Hd.
  { apply sum_over_bound. by apply Forall_forall. }
  rewrite length_fmap in Hd. lia.
Qed.

Lemma finished_lanes fuel (ts : list Token) : Forall (finished fuel) ts →
  Forall (λ d, ∃ l, d = has l) (tk_cancel <$> ts) ∧ Forall (λ d, ∃ l, d = has l) (tk_ready <$> ts) ∧
  Forall (λ d, ∃ l, d = mkTDebt [] l 0 0) (tk_timed <$> ts) ∧
  Forall (λ d, combining d = false ∧ flying d = false ∧ unaccounted d = 0) (tk_comb <$> ts).
Proof. intros H. split_and!; apply Forall_fmap; (eapply Forall_impl; [exact H|]); intros t (out & H1 & H2 & H3 & H4); simpl; eauto. Qed.

Lemma timed_inv_done g ds jobs : timed_inv g ds jobs → Forall (λ d, ∃ l, d = mkTDebt [] l 0 0) ds →
  jobs ≡ₚ (job_of <$> heap (timed_queue g)) ++ concat (t_got <$> ds) ∧ timed_count g = lenN (heap (timed_queue g)).
Proof.
  intros [Hj Hc _ _ _ _ _] Hs. rewrite Hj, (concat_nil t_todo), Hc, !sum_zero; [split; [done|lia]|..]; (eapply Forall_impl; [exact Hs|]); by intros d [l ->].
Qed.

Lemma comb_inv_done c ds injected : comb_inv c ds injected → Forall (λ d, combining d = false ∧ flying d = false ∧ unaccounted d = 0) ds →
  active c = false ∧ in_flight c = 0 ∧ pending c = [] ∧ accounted c = injected.
Proof.
  intros [Ha Hp Hf Hc _ _] Hs. assert (∀ f : CDebt → N, (∀ d, combining d = false ∧ flying d = false ∧ unaccounted d = 0 → f d = 0) → sum_over f ds = 0) as Hz.
  { intros f H0. apply sum_zero. eapply Forall_impl; [exact Hs|]. exact H0. }
  rewrite Hz in Ha by (by intros d (-> & _)). rewrite Hz in Hf by (by intros d (_ & -> & _)). rewrite Hz in Hc by (by intros d (_ & _ & ->)).
  destruct (active c); [done|]. assert (pending c = []) as E by (destruct (pending c); [done|by discriminate Hp]). rewrite E in Hc. change (lenN (@nil PriorityTask)) with 0 in Hc. split_and!; [done|done|done|lia].
Qed.

(** Where everything that was injected is. *)
Lemma conserved fuel cancels readys jobs injected g tokens ps :
  carried (λ _, True) move (end_token fuel) tokens ps → inj_inv cancels readys jobs injected g (all_of tokens) →
  ∃ fc ft fr, cancels ≡ₚ cancel_items g ++ outs out_cancel ps ++ fc ∧
    jobs ≡ₚ (job_of <$> heap (timed_queue g)) ++ outs out_timed ps ++ ft ∧
    readys ≡ₚ ready_items g ++ pending (ready_combiner g) ++ outs out_ready ps ++ fr ∧
    (settled ps → fc = [] ∧ ft = [] ∧ fr = [] ∧ pending (ready_combiner g) = []).
Proof.
  intros Hc [Hqc (rest & Hrest & Hqr) Ht Hb].
  destruct (carried_got fuel tokens ps out_cancel (λ t, got (tk_cancel t)) Hc) as (r1 & G1 & S1); [intros t out H; by rewrite (proj1 H)|].
  destruct (carried_got fuel tokens ps out_ready (λ t, got (tk_ready t)) Hc) as (r2 & G2 & S2); [intros t out H; by rewrite (proj1 (proj2 H))|].
  destruct (carried_got fuel tokens ps out_timed (λ t, t_got (tk_timed t)) Hc) as (r3 & G3 & S3); [intros t out H; by rewrite (proj1 (proj2 (proj2 H)))|].
  exists (concat (todo <$> (tk_cancel <$> all_of tokens)) ++ r1), (concat (t_todo <$> (tk_timed <$> all_of tokens)) ++ r3), (concat (todo <$> (tk_ready <$> all_of tokens)) ++ r2).
  split_and!.
  - rewrite (qi_items _ _ _ Hqc). rewrite <- (list_fmap_compose tk_cancel got). unfold compose. rewrite G1. unfold cancel_items. solve_Permutation.
  - rewrite (ti_jobs _ _ _ Ht). rewrite <- (list_fmap_compose tk_timed t_got). unfold compose. rewrite G3. solve_Permutation.
  - rewrite Hrest, (qi_items _ _ _ Hqr). rewrite <- (list_fmap_compose tk_ready got). unfold compose. rewrite G2. unfold ready_items. solve_Permutation.
  - intros Hs. destruct (finished_lanes fuel _ (settled_finished fuel _ _ Hc Hs)) as (F1 & F2 & F3 & F4). rewrite S1, S2, S3 by done.
    rewrite !concat_nil; [split_and!; try done; by apply (comb_inv_done _ _ _ Hb F4)|..]; (eapply Forall_impl; [eassumption|]); by intros d [l ->].
Qed.

(** ** The guarantees *)

(** C9: No task is lost and none is duplicated on its way through the global queue.  For
    every interleaving of the accesses of any number of threads: what was injected is
    in the lanes, set aside for the combiner, taken by threads that are done or in the
    hands of threads that are not; no combiner goes round more often than there are
    threads; and once all threads are done nothing is in between: the combiner has
    left with nothing set aside, the counts of all lanes are exact and the statistics
    account for every injection. *)
Theorem injector_conserves_tasks fuel ops g ps : reach fuel ops g ps → fits ops → (length ops < fuel)%nat →
  (∀ i, ps !! i ≠ Some (Ret None)) ∧
  (∃ fc ft fr, cancels_in ops ≡ₚ cancel_items g ++ outs out_cancel ps ++ fc ∧
    jobs_in ops ≡ₚ (job_of <$> heap (timed_queue g)) ++ outs out_timed ps ++ ft ∧
    readys_in ops ≡ₚ ready_items g ++ pending (ready_combiner g) ++ outs out_ready ps ++ fr ∧
    (settled ps → fc = [] ∧ ft = [] ∧ fr = [] ∧ pending (ready_combiner g) = [])) ∧
  (settled ps → active (ready_combiner g) = false ∧ in_flight (ready_combiner g) = 0 ∧
    count (cancel_queue g) = lenN (cancel_items g) ∧ timed_count g = lenN (heap (timed_queue g)) ∧ count (ready_queue g) = lenN (ready_items g) ∧
    published (cancel_queue g) = lenN (cancel_items g) ∧ published (ready_queue g) = lenN (ready_items g) ∧
    accounted (ready_combiner g) = injected_in ops).
Proof.
  intros Hr Hf Hfuel. destruct (reach_inv _ _ _ _ Hr Hf) as (tokens & Hc & Hl & HJ). split_and!.
  - intros i. eapply enough_fuel; [done..|]. by rewrite Hl.
  - by eapply conserved.
  - intros Hs. destruct (finished_lanes fuel _ (settled_finished fuel _ _ Hc Hs)) as (F1 & F2 & F3 & F4). destruct HJ as [Hqc (rest & Hrest & Hqr) Ht Hb].
    destruct (comb_inv_done _ _ _ Hb F4) as (? & ? & ? & ?). destruct (queue_inv_done _ _ _ Hqc F1) as (_ & ? & ?).
    destruct (queue_inv_done _ _ _ Hqr F2) as (_ & ? & ?). destruct (timed_inv_done _ _ _ Ht F3) as (_ & ?). done.
Qed.

(** Earliest deadline first.  In every reachable state the cached deadline is that of
    the first timed entry, and [pop_timed_if_due] gives the entry that is due, of the
    earliest deadline and among those the first that arrived; it gives none only if
    nothing in the lane is due. *)
Definition before (a b : TimedTask) : Prop := tt_deadline a < tt_deadline b ∨ (tt_deadline a = tt_deadline b ∧ tt_generation a ≤ tt_generation b).

Lemma head_before t h : heap_ok edf (t :: h) → Forall (before t) (t :: h).
Proof.
  intros [_ Hh]%heap_tail_ok. constructor; [right; split; [done|lia]|]. eapply Forall_impl; [exact Hh|]. intros t' H%timed_ge_iff. unfold earlier in H. simpl in H. unfold before. lia.
Qed.

Theorem injector_timed_edf fuel ops g ps now : reach fuel ops g ps → fits ops →
  cached_earliest_deadline g = earliest_of (heap (timed_queue g)) ∧
  match (alone (pop_timed_if_due now) g).2 with
  | Some t => t ∈ heap (timed_queue g) ∧ tt_deadline t ≤ now ∧ Forall (before t) (heap (timed_queue g))
  | None => Forall (λ t, now < tt_deadline t) (heap (timed_queue g))
  end.
Proof.
  intros Hr Hf. destruct (reach_inv _ _ _ _ Hr Hf) as (tokens & _ & _ & [_ _ [_ Hc _ He Hh _ _] _]). split; [done|].
  unfold pop_timed_if_due. rewrite alone_bind. cbn [alone load fst snd]. destruct (N.eqb_spec (timed_count g) 0) as [E|E].
  { simpl. assert (heap (timed_queue g) = []) as -> by (apply len_0; lia). constructor. }
  rewrite alone_bind. cbn [alone load fst snd]. rewrite He. destruct (heap (timed_queue g)) as [|t h] eqn:Eh.
  { destruct (negb _ && _); [constructor|]. rewrite alone_bind. cbn [alone act fst snd]. rewrite Eh. constructor. }
  pose proof (head_before t h Hh) as Hb. assert (∀ d, d < tt_deadline t → Forall (λ t', d < tt_deadline t') (t :: h)) as Hlater.
  { intros d Hd. eapply Forall_impl; [exact Hb|]. unfold before. intros t' H. lia. }
  simpl earliest_of. unfold Time.as_nanos, Time.from_nanos. destruct (N.eqb_spec (tt_deadline t) u64_MAX) as [E1|E1], (N.ltb_spec now (tt_deadline t)) as [E2|E2]; simpl negb; simpl andb; cbv iota;
    try (by apply Hlater); rewrite alone_bind; cbn [alone act fst snd]; rewrite Eh.
  - rewrite (proj2 (N.leb_gt _ _)) by done. simpl. by apply Hlater.
  - rewrite (proj2 (N.leb_le _ _)) by done. cbn [snd fst]. rewrite alone_bind. simpl. split_and!; [left|done|done].
  - rewrite (proj2 (N.leb_le _ _)) by done. cbn [snd fst]. rewrite alone_bind. simpl. split_and!; [left|done|done].
Qed.

End threads.

(** ** Runs *)

Section runs.
Context {Q : Type} `{!Fifo PriorityTask Q, !FifoLaws PriorityTask Q}.
Local Notation pool := (GlobalInjector Q * gmap N (prog (GlobalInjector Q) (option Out)))%type.

(** Threads [0..] perform [ops] and take steps in the order of [schedule]. *)
Definition thread_step (c : pool) (i : N) : pool :=
  match c.2 !! i with Some (Act f k) => (f c.1, <[i := k c.1]> c.2) | _ => c end.
Fixpoint start_all (fuel : nat) (i : N) (ops : list InjectorOp) (c : pool) : pool :=
  match ops with [] => c | o :: ops => start_all fuel (i + 1) ops (c.1, <[i := op_prog fuel o]> c.2) end.
Definition drive (schedule : list N) (c : pool) : pool := foldl thread_step c schedule.

Lemma drive_reach fuel ops schedule c : reach fuel ops c.1 c.2 → reach fuel ops (drive schedule c).1 (drive schedule c).2.
Proof.
  revert c. induction schedule as [|i schedule IH]; intros c Hr; [done|]. apply IH. unfold thread_step. destruct c as [g ps]. simpl in *.
  destruct (ps !! i) as [[a|f k]|] eqn:E; [done| |done]. simpl. eapply reach_step; [exact Hr|]. by constructor.
Qed.

Lemma start_reach fuel ops i old c : reach fuel old c.1 c.2 → (∀ j, i ≤ j → c.2 !! j = None) →
  reach fuel (rev ops ++ old) (start_all fuel i ops c).1 (start_all fuel i ops c).2 ∧ (∀ j, i + lenN ops ≤ j → (start_all fuel i ops c).2 !! j = None).
Proof.
  revert i old c. induction ops as [|o ops IH]; intros i old c Hr Hfree; [split; [done|]; intros j Hj; apply Hfree; change (lenN (@nil InjectorOp)) with 0 in Hj; lia|].
  simpl. rewrite <- app_assoc. simpl. destruct (IH (i + 1) (o :: old) (c.1, <[i := op_prog fuel o]> c.2)) as [H1 H2].
  - apply reach_start; [done|]. apply Hfree. lia.
  - intros j Hj. simpl. rewrite lookup_insert_ne by lia. apply Hfree. lia.
  - split; [done|]. intros j Hj. apply H2. rewrite len_cons in Hj. lia.
Qed.

Definition settledb (c : pool) : bool := forallb (λ x, match x.2 with Ret (Some _) => true | _ => false end) (map_to_list c.2).
Lemma settledb_ok c : settledb c = true → settled c.2.
Proof.
  intros H i p Hi. unfold settledb in H. rewrite forallb_forall in H. specialize (H (i, p)). destruct p as [[out|]|f k]; [eauto|..]; simpl in H; discriminate H; apply list_elem_of_In; by apply elem_of_map_to_list.
Qed.

End runs.

(** Five injections start together, so that one thread combines; a timed and a
    cancelled task and two poppers join. *)
Definition tid (i : N) : TaskId := TaskId_from_arena (mkArenaIndex i 0).
Definition busy_ops : list InjectorOp :=
  [InjectReady false (tid 1) 10; InjectReady false (tid 2) 20; InjectReady true (tid 3) 30; InjectReady false (tid 4) 40; InjectReady false (tid 5) 50;
   InjectCancel (tid 6) 1; InjectTimed (tid 7) 100; InjectTimed (tid 8) 50].
Definition busy_schedule : list N := [0; 1; 2; 3; 4] ++ flat_map (λ _, [0; 1; 2; 3; 4; 5; 6; 7]) (seq 0 60).
Definition busy : GlobalInjector (list PriorityTask) * gmap N (prog (GlobalInjector (list PriorityTask)) (option Out)) :=
  drive busy_schedule (start_all 20 0 busy_ops (injector_new, ∅)).

Lemma busy_reach : reach 20 (rev busy_ops) busy.1 busy.2.
Proof.
  unfold busy. apply drive_reach. destruct (start_reach 20 busy_ops 0 [] (injector_new (Q := list PriorityTask), ∅)) as [H _]; [constructor|done|].
  rewrite app_nil_r in H. exact H.
Qed.

Lemma busy_fits : fits (rev busy_ops).
Proof. split; vm_compute; [done|discriminate]. Qed.

Lemma injector_conserves_tasks_witness :
  deferred_injections (ready_combiner busy.1) = 1 ∧ combined_injections (ready_combiner busy.1) = 2 ∧
  count (ready_queue busy.1) = 5 ∧ (pt_priority <$> ready_items busy.1) = [10; 20; 30; 40; 50] ∧ accounted (ready_combiner busy.1) = 5.
Proof.
  destruct (injector_conserves_tasks 20 (rev busy_ops) busy.1 busy.2 busy_reach busy_fits) as (_ & _ & Hs); [vm_compute; lia|].
  destruct Hs as (_ & _ & _ & _ & Hc & _ & _ & Ha); [apply settledb_ok; vm_compute; reflexivity|].
  split_and!; [vm_compute; reflexivity|vm_compute; reflexivity|rewrite Hc; vm_compute; reflexivity|vm_compute; reflexivity|rewrite Ha; vm_compute; reflexivity].
Defined.

Lemma injector_timed_edf_witness :
  cached_earliest_deadline busy.1 = 50 ∧ (tt_deadline <$> (alone (pop_timed_if_due 60) busy.1).2) = Some 50 ∧ Forall (before (mkTimedTask (tid 8) 50 1)) (heap (timed_queue busy.1)).
Proof.
  pose proof (injector_timed_edf 20 (rev busy_ops) busy.1 busy.2 60 busy_reach busy_fits) as [Hc Hp].
  assert ((alone (pop_timed_if_due 60) busy.1).2 = Some (mkTimedTask (tid 8) 50 1)) as E by (vm_compute; reflexivity).
  rewrite E in Hp. split_and!; [rewrite Hc; vm_compute; reflexivity|by rewrite E|apply Hp].
Defined.
