(* ===== verification/LocalQueue.v ===== *)
(** * The local queue of a worker

    [runtime/scheduler/local_queue.rs]: the owner pushes and pops at the back, other
    workers steal at the front, tasks pinned to their worker are not stolen, and an
    index of the tasks that are present keeps a task from entering twice.  Every
    operation is a critical section under the lock of the queue (and of the task
    arena when stealing); [cached_len] mirrors the length and is read without the
    lock.  [steal_task] of [runtime/scheduler/stealing.rs] chooses a victim.  The
    release build does not look a task up in the arena when it is pushed. *)

From S2P Require Import Prelude Ids Arena Task.

Module LocalQueue.

Section local_queue.
Context {E : Type}.

Record LocalQueue := mkLocalQueue { queue : list TaskId; presence : gset TaskId; cached_len : N }.
Implicit Types (q : LocalQueue) (tasks : Arena (TaskRecord E)).

Definition new : LocalQueue := mkLocalQueue [] ∅ 0.

(** [presence.insert(task)] and, when it was absent, [queue.push(task)]. *)
Definition push_inner (task : TaskId) (inner : list TaskId * gset TaskId) : list TaskId * gset TaskId :=
  if bool_decide (task ∈ inner.2) then inner else (inner.1 ++ [task], {[task]} ∪ inner.2).
Definition published (inner : list TaskId * gset TaskId) : LocalQueue := mkLocalQueue inner.1 inner.2 (lenN inner.1).

Definition push q (task : TaskId) : LocalQueue := published (push_inner task (queue q, presence q)).
Definition schedule_local_push_unchecked q (task : TaskId) : LocalQueue := published (push_inner task (queue q, presence q)).
Definition schedule_local_push q (task : TaskId) : LocalQueue * bool := (schedule_local_push_unchecked q task, true).
Definition push_many q (ts : list TaskId) : LocalQueue :=
  match ts with [] => q | _ => published (foldl (λ inner t, push_inner t inner) (queue q, presence q) ts) end.

(** The critical section of [pop]; [pop] first looks at the cached length. *)
Definition pop_locked q : LocalQueue * option TaskId :=
  match last (queue q) with
  | Some task => (mkLocalQueue (removelast (queue q)) (presence q ∖ {[task]}) (lenN (removelast (queue q))), Some task)
  | None => (mkLocalQueue (queue q) (presence q) (lenN (queue q)), None)
  end.
Definition pop q : LocalQueue * option TaskId := if cached_len q =? 0 then (q, None) else pop_locked q.
Definition is_empty q : bool := cached_len q =? 0.
Definition len q : N := cached_len q.
Definition snapshot_tasks q : list TaskId := queue q.

(** ** Stealing *)

Definition SKIPPED_LOCALS_INLINE_CAP : N := 8.

Definition pinned tasks (task : TaskId) : bool :=
  match Arena.get tasks (task_arena_index task) with Some record => is_local record | None => false end.

Definition compact_scanned_prefix (l : list TaskId) (kept_prefix_len scanned_len : N) : list TaskId :=
  if kept_prefix_len =? scanned_len then l else takeN kept_prefix_len l ++ dropN scanned_len l.

Definition keep_at (l : list TaskId) (kept scanned : N) (task : TaskId) : list TaskId :=
  if kept =? scanned then l else <[N.to_nat kept := task]> l.

Fixpoint steal_loop tasks (n : nat) (l : list TaskId) (kept scanned : N) : list TaskId * N * N * option TaskId :=
  match n, l !! N.to_nat scanned with
  | S n, Some task =>
      if pinned tasks task then steal_loop tasks n (keep_at l kept scanned task) (kept + 1) (scanned + 1)
      else (l, kept, scanned + 1, Some task)
  | _, _ => (l, kept, scanned, None)
  end.

Definition steal tasks q : LocalQueue * option TaskId :=
  let scan_limit := N.min (lenN (queue q)) SKIPPED_LOCALS_INLINE_CAP in
  let '(l, kept, scanned, stolen) := steal_loop tasks (N.to_nat scan_limit) (queue q) 0 0 in
  let l := compact_scanned_prefix l kept scanned in
  (mkLocalQueue l (match stolen with Some task => presence q ∖ {[task]} | None => presence q end) (lenN l), stolen).

Fixpoint steal_batch_loop tasks (n : nat) (steal_limit : N) (src dest : list TaskId * gset TaskId) (kept scanned stolen : N) :
    (list TaskId * gset TaskId) * (list TaskId * gset TaskId) * N * N * N :=
  match n, src.1 !! N.to_nat scanned with
  | S n, Some task =>
      if stolen <? steal_limit then
        if pinned tasks task then steal_batch_loop tasks n steal_limit (keep_at src.1 kept scanned task, src.2) dest (kept + 1) (scanned + 1) stolen
        else steal_batch_loop tasks n steal_limit (src.1, src.2 ∖ {[task]}) (dest.1 ++ [task], {[task]} ∪ dest.2) kept (scanned + 1) (stolen + 1)
      else (src, dest, kept, scanned, stolen)
  | _, _ => (src, dest, kept, scanned, stolen)
  end.

Definition steal_batch_locked tasks (src dest : list TaskId * gset TaskId) : (list TaskId * gset TaskId) * (list TaskId * gset TaskId) * bool :=
  let initial_len := lenN src.1 in
  if initial_len =? 0 then (src, dest, false) else
  let steal_limit := clamp (initial_len / 2) 1 256 in
  let scan_limit := N.min initial_len SKIPPED_LOCALS_INLINE_CAP in
  let '(src, dest, kept, scanned, stolen) := steal_batch_loop tasks (N.to_nat scan_limit) steal_limit src dest 0 0 0 in
  ((compact_scanned_prefix src.1 kept scanned, src.2), dest, 0 <? stolen).

(** From one queue to another over the same tasks. *)
Definition steal_batch tasks (src dest : LocalQueue) : LocalQueue * LocalQueue * bool :=
  let '(s, d, stole) := steal_batch_locked tasks (queue src, presence src) (queue dest, presence dest) in
  (published s, published d, stole).

Definition stealable_len_hint tasks q : N :=
  if cached_len q =? 0 then 0 else
  let scan_limit := N.min (lenN (queue q)) SKIPPED_LOCALS_INLINE_CAP in
  lenN (filter (λ t, pinned tasks t = false) (takeN scan_limit (queue q))).

(** ** Choosing a victim

    The two candidates and the start of the scan are drawn at random below the
    number of queues; they are inputs here. *)

Definition circular_index (start offset length : N) : N := (start + offset) mod length.

Definition steal_at tasks (qs : list LocalQueue) (i : N) : list LocalQueue * option TaskId :=
  match qs !! N.to_nat i with
  | Some q => let '(q, r) := steal tasks q in (<[N.to_nat i := q]> qs, r)
  | None => (qs, None)
  end.
Definition hint_at tasks (qs : list LocalQueue) (i : N) : N := match qs !! N.to_nat i with Some q => stealable_len_hint tasks q | None => 0 end.

Fixpoint scan_queues tasks (n : nat) (start offset primary secondary : N) (qs : list LocalQueue) : list LocalQueue * option TaskId :=
  match n with
  | O => (qs, None)
  | S n =>
      let idx := circular_index start offset (lenN qs) in
      if (idx =? primary) || (idx =? secondary) then scan_queues tasks n start (offset + 1) primary secondary qs
      else match steal_at tasks qs idx with
           | (qs, Some task) => (qs, Some task)
           | (qs, None) => scan_queues tasks n start (offset + 1) primary secondary qs
           end
  end.

Definition steal_task tasks (draw1 draw2 draw3 : N) (qs : list LocalQueue) : list LocalQueue * option TaskId :=
  let length := lenN qs in
  if length =? 0 then (qs, None) else
  if length =? 1 then steal_at tasks qs 0 else
  let idx1 := draw1 in
  let idx2 := if idx1 =? draw2 then (idx1 + 1) mod length else draw2 in
  let len1 := hint_at tasks qs idx1 in
  let len2 := hint_at tasks qs idx2 in
  let '(primary, primary_hint, secondary, secondary_hint) := if len2 <=? len1 then (idx1, len1, idx2, len2) else (idx2, len2, idx1, len1) in
  match (if 0 <? primary_hint then steal_at tasks qs primary else (qs, None)) with
  | (qs, Some task) => (qs, Some task)
  | (qs, None) =>
      match (if 0 <? secondary_hint then steal_at tasks qs secondary else (qs, None)) with
      | (qs, Some task) => (qs, Some task)
      | (qs, None) => scan_queues tasks (N.to_nat length) draw3 0 primary secondary qs
      end
  end.

(** ** What the queue is

    A list of distinct tasks; its index and its cached length agree with it. *)
Record rep q (l : list TaskId) : Prop := {
  rep_queue : queue q = l;
  rep_presence : presence q = list_to_set l;
  rep_len : cached_len q = lenN l;
  rep_distinct : NoDup l;
}.

Definition add (l : list TaskId) (task : TaskId) : list TaskId := if bool_decide (task ∈ l) then l else l ++ [task].
Definition take_back (l : list TaskId) : list TaskId * option TaskId := match last l with Some t => (removelast l, Some t) | None => (l, None) end.

(** The first task among the first eight that is not pinned. *)
Definition frontier (l : list TaskId) : list TaskId := takeN SKIPPED_LOCALS_INLINE_CAP l.
Definition take_front tasks (l : list TaskId) : list TaskId * option TaskId :=
  match list_find (λ t, pinned tasks t = false) (frontier l) with
  | Some (i, t) => (take i l ++ drop (S i) l, Some t)
  | None => (l, None)
  end.

(** Up to [limit] tasks that are not pinned: what stays of the scanned part, what
    moves, and what was not scanned. *)
Fixpoint pick tasks (limit : N) (l : list TaskId) : list TaskId * list TaskId * list TaskId :=
  match l with
  | [] => ([], [], [])
  | t :: l' =>
      if limit =? 0 then ([], [], l)
      else if pinned tasks t then let '(k, m, r) := pick tasks limit l' in (t :: k, m, r)
      else let '(k, m, r) := pick tasks (limit - 1) l' in (k, t :: m, r)
  end.
Definition move_front tasks (src : list TaskId) : list TaskId * list TaskId :=
  let '(k, m, r) := pick tasks (clamp (lenN src / 2) 1 256) (frontier src) in (k ++ r ++ dropN SKIPPED_LOCALS_INLINE_CAP src, m).

Lemma push_inner_rep task l : NoDup l → push_inner task (l, list_to_set l) = (add l task, list_to_set (add l task)) ∧ NoDup (add l task).
Proof.
  intros Hd. unfold push_inner, add. simpl. destruct (decide (task ∈ l)) as [Hin|Hin].
  - by rewrite !bool_decide_true by (done || by apply elem_of_list_to_set).
  - rewrite !bool_decide_false by (done || by rewrite elem_of_list_to_set). split; [f_equal; set_solver|].
    apply NoDup_app. split_and!; [done| |apply NoDup_singleton]. intros x Hx ->%list_elem_of_singleton. done.
Qed.

Lemma new_rep : rep new [].
Proof. by split; [..|constructor]. Qed.

Lemma push_rep q l task : rep q l → rep (push q task) (add l task).
Proof. intros [E1 E2 E3 Hd]. unfold push. rewrite E1, E2. destruct (push_inner_rep task l Hd) as [-> Hn]. by split. Qed.

Lemma push_many_rep q l ts : rep q l → rep (push_many q ts) (foldl add l ts).
Proof.
  intros Hr. destruct ts as [|t ts]; [done|]. unfold push_many. destruct Hr as [E1 E2 E3 Hd]. rewrite E1, E2.
  assert (∀ l, NoDup l → foldl (λ inner t, push_inner t inner) (l, list_to_set l) (t :: ts) = (foldl add l (t :: ts), list_to_set (foldl add l (t :: ts))) ∧ NoDup (foldl add l (t :: ts))) as H.
  { clear. generalize (t :: ts). clear. intros ts. induction ts as [|t ts IH]; intros l Hd; [done|]. simpl. destruct (push_inner_rep t l Hd) as [-> Hn]. by apply IH. }
  destruct (H l Hd) as [-> Hn]. by split.
Qed.

Lemma last_split {A} (l : list A) x : last l = Some x → l = removelast l ++ [x].
Proof. intros Hl. apply last_Some in Hl as [l' ->]. by rewrite removelast_last. Qed.

Lemma local_pop_rep q l : rep q l → rep (pop q).1 (take_back l).1 ∧ (pop q).2 = (take_back l).2.
Proof.
  intros [E1 E2 E3 Hd]. unfold pop, pop_locked, take_back. rewrite E3, E1, E2. destruct (last l) as [t|] eqn:El.
  - apply last_split in El. set (l' := removelast l) in *. clearbody l'. rewrite El in Hd |- *. rewrite len_app. change (lenN [t]) with 1. rewrite (proj2 (N.eqb_neq _ _)) by lia.
    apply NoDup_app in Hd as (Hd & Hn & _). split; [|done]. split; simpl; [done| |done|done]. rewrite list_to_set_app_L. simpl. apply set_eq. intros x.
    rewrite elem_of_difference, !elem_of_union, !elem_of_list_to_set. split; [set_solver|]. intros Hx. split; [by left|]. intros ->%elem_of_singleton. apply (Hn t); [done|]. by left.
  - apply last_None in El as ->. simpl. split; [by split|done].
Qed.

(** Stealing one. *)
Lemma local_steal_loop_spec tasks n l k : (N.to_nat k + n ≤ length l)%nat →
  steal_loop tasks n l k k = match list_find (λ t, pinned tasks t = false) (take n (drop (N.to_nat k) l)) with
                             | Some (i, t) => (l, k + N.of_nat i, k + N.of_nat i + 1, Some t)
                             | None => (l, k + N.of_nat n, k + N.of_nat n, None)
                             end.
Proof.
  revert k. induction n as [|n IH]; intros k Hk; [simpl; by rewrite N.add_0_r|].
  destruct (lookup_lt_is_Some_2 l (N.to_nat k)) as [t Ht]; [lia|]. cbn [steal_loop]. rewrite Ht, (drop_S l t (N.to_nat k) Ht). simpl.
  destruct (pinned tasks t) eqn:Ep.
  - rewrite decide_False by congruence. unfold keep_at. rewrite N.eqb_refl, IH by lia. replace (N.to_nat (k + 1)) with (S (N.to_nat k)) by lia.
    destruct (list_find _ (take n _)) as [[i t']|]; simpl; [by replace (k + N.of_nat (S i)) with (k + 1 + N.of_nat i) by lia|by replace (k + N.of_nat (S n)) with (k + 1 + N.of_nat n) by lia].
  - rewrite decide_True by done. by rewrite N.add_0_r.
Qed.

Lemma NoDup_delete (l : list TaskId) i t : NoDup l → l !! i = Some t →
  NoDup (take i l ++ drop (S i) l) ∧ (list_to_set l ∖ {[t]} : gset TaskId) = list_to_set (take i l ++ drop (S i) l).
Proof.
  intros Hd Hi. rewrite <- (take_drop_middle l i t Hi) in Hd. apply NoDup_app in Hd as (H1 & H2 & H3). apply NoDup_cons in H3 as [H4 H5]. split.
  - apply NoDup_app. split_and!; [done| |done]. intros x Hx Hx'. apply (H2 x Hx). by right.
  - rewrite <- (take_drop_middle l i t Hi) at 1. rewrite !list_to_set_app_L. simpl. apply set_eq. intros x. rewrite elem_of_difference, !elem_of_union, !elem_of_list_to_set, !elem_of_singleton.
    split; [naive_solver|]. intros Hx. split; [naive_solver|]. intros ->. destruct Hx as [Hx|Hx]; [|done]. apply (H2 t Hx). by left.
Qed.

Lemma frontier_take l : frontier l = take (N.to_nat (N.min (lenN l) SKIPPED_LOCALS_INLINE_CAP)) l.
Proof.
  unfold frontier, takeN, lenN. destruct (N.le_ge_cases (N.of_nat (length l)) SKIPPED_LOCALS_INLINE_CAP) as [H|H].
  - rewrite N.min_l, Nat2N.id by done. rewrite firstn_all, take_ge; [done|lia].
  - by rewrite N.min_r.
Qed.

Lemma steal_rep tasks q l : rep q l → rep (steal tasks q).1 (take_front tasks l).1 ∧ (steal tasks q).2 = (take_front tasks l).2.
Proof.
  intros [E1 E2 E3 Hd]. unfold steal, take_front. rewrite E1, E2. rewrite local_steal_loop_spec by (unfold lenN; lia). rewrite drop_0, <- frontier_take.
  destruct (list_find _ (frontier l)) as [[i t]|] eqn:El.
  - apply list_find_Some in El as (Hi & _). unfold frontier, takeN in Hi. apply lookup_take_Some in Hi as [Hi _].
    destruct (NoDup_delete l i t Hd Hi) as [Hn Hp]. unfold compact_scanned_prefix. rewrite (proj2 (N.eqb_neq _ _)) by lia.
    unfold takeN, dropN. replace (N.to_nat (0 + N.of_nat i)) with i by lia. replace (N.to_nat (0 + N.of_nat i + 1)) with (S i) by lia. split; [|done]. by split.
  - unfold compact_scanned_prefix. rewrite N.eqb_refl. split; [|done]. by split.
Qed.

Lemma lookup_middle_eq {A} (l : list A) x k n : N.of_nat (length l) = n → (l ++ x :: k) !! N.to_nat n = Some x.
Proof. intros <-. rewrite Nat2N.id. by apply list_lookup_middle. Qed.

(** Keeping a task: the prefix of kept tasks grows by it. *)
Lemma keep_at_spec buf t post kept : take (length kept) buf = kept →
  ∃ buf', keep_at (buf ++ t :: post) (lenN kept) (lenN buf) t = buf' ++ post ∧ length buf' = S (length buf) ∧ take (length (kept ++ [t])) buf' = kept ++ [t].
Proof.
  intros Hk. unfold keep_at, lenN. assert (length kept ≤ length buf)%nat by (rewrite <- Hk, length_take; lia).
  destruct (N.eqb_spec (N.of_nat (length kept)) (N.of_nat (length buf))) as [He|He].
  - apply Nat2N.inj in He. rewrite He, firstn_all in Hk. subst buf. exists (kept ++ [t]). rewrite <- app_assoc, firstn_all, length_app. simpl. split_and!; [done|lia|done].
  - exists (<[length kept := t]> buf ++ [t]). rewrite Nat2N.id, insert_app_l, <- app_assoc by lia. split; [done|]. rewrite !length_app, length_insert. simpl. split; [lia|].
    rewrite take_app_le by (rewrite length_insert; lia). rewrite Nat.add_1_r. rewrite (take_S_r _ _ t) by (apply list_lookup_insert_eq; lia).
    rewrite take_insert_ge by lia. by rewrite Hk.
Qed.

(** Stealing a batch: [buf] holds the part scanned so far, whose prefix are the tasks
    kept. *)
Lemma steal_batch_loop_spec tasks limit n : ∀ (buf post kept : list TaskId) (sp : gset TaskId) dl (dp : gset TaskId) stolen,
  (n ≤ length post)%nat → take (length kept) buf = kept → stolen ≤ limit →
  let '(k, m, r) := pick tasks (limit - stolen) (take n post) in
  ∃ buf', steal_batch_loop tasks n limit (buf ++ post, sp) (dl, dp) (lenN kept) (lenN buf) stolen =
    ((buf' ++ r ++ drop n post, sp ∖ list_to_set m), (dl ++ m, list_to_set m ∪ dp), lenN (kept ++ k), lenN buf', stolen + lenN m) ∧
    length buf' = (length buf + length k + length m)%nat ∧ take (length (kept ++ k)) buf' = kept ++ k.
Proof.
  assert (Hstop : ∀ (buf kept : list TaskId) (sp : gset TaskId) (dl : list TaskId) (dp : gset TaskId) (stolen : N) (l : list TaskId), take (length kept) buf = kept → ∃ buf', ((buf ++ l, sp), (dl, dp), lenN kept, lenN buf, stolen) =
    ((buf' ++ l, sp ∖ list_to_set []), (dl ++ [], list_to_set [] ∪ dp), lenN (kept ++ []), lenN buf', stolen + lenN (@nil TaskId)) ∧
    length buf' = (length buf + 0 + 0)%nat ∧ take (length (kept ++ @nil TaskId)) buf' = kept ++ []).
  { intros buf kept sp dl dp stolen l Hk. exists buf. rewrite !app_nil_r. split_and!; [|lia|done]. simpl. change (lenN (@nil TaskId)) with 0. rewrite N.add_0_r. repeat f_equal; set_solver. }
  induction n as [|n IH]; intros buf post kept sp dl dp stolen Hn Hk Hs; [rewrite take_0, drop_0; simpl; by apply Hstop|].
  destruct post as [|t post]; [simpl in Hn; lia|]. cbn [steal_batch_loop fst snd take pick drop]. rewrite (lookup_middle_eq buf t post) by done.
  destruct (N.eqb_spec (limit - stolen) 0) as [El|El].
  { rewrite (proj2 (N.ltb_ge _ _)) by lia. replace ((t :: take n post) ++ drop n post) with (t :: post) by (by rewrite <- (take_drop n post) at 1). by apply Hstop. }
  rewrite (proj2 (N.ltb_lt _ _)) by lia. simpl in Hn. destruct (pinned tasks t) eqn:Ep.
  - destruct (keep_at_spec buf t post kept Hk) as (buf1 & -> & Hl1 & Hk1). specialize (IH buf1 post (kept ++ [t]) sp dl dp stolen ltac:(lia) Hk1 Hs).
    destruct (pick tasks (limit - stolen) (take n post)) as [[k m] r]. destruct IH as (buf' & He & Hl & Ht). exists buf'. rewrite <- app_assoc in He, Ht. simpl in He, Ht.
    replace (lenN (kept ++ [t])) with (lenN kept + 1) in He by (rewrite len_app; done). replace (lenN buf1) with (lenN buf + 1) in He by (unfold lenN; lia). split_and!; [exact He|simpl; lia|exact Ht].
  - specialize (IH (buf ++ [t]) post kept (sp ∖ {[t]}) (dl ++ [t]) ({[t]} ∪ dp) (stolen + 1) ltac:(lia)).
    replace (limit - (stolen + 1)) with (limit - stolen - 1) in IH by lia.
    destruct (pick tasks (limit - stolen - 1) (take n post)) as [[k m] r]. destruct IH as (buf' & He & Hl & Ht); [|lia|].
    { assert (length kept ≤ length buf)%nat by (rewrite <- Hk, length_take; lia). by rewrite take_app_le. }
    exists buf'. rewrite <- !app_assoc in He. simpl in He. rewrite len_app in He. change (lenN [t]) with 1 in He. rewrite He. rewrite length_app in Hl. simpl in *. split_and!; [|lia|done].
    rewrite len_cons. f_equal; [|lia]. rewrite difference_difference_l_L, (assoc_L (∪)), (comm_L (∪) (list_to_set m)). done.
Qed.

Lemma pick_perm tasks limit l : let '(k, m, r) := pick tasks limit l in k ++ m ++ r ≡ₚ l.
Proof.
  revert limit. induction l as [|t l IH]; intros limit; [constructor|]. simpl. destruct (limit =? 0); [reflexivity|]. destruct (pinned tasks t).
  - specialize (IH limit). destruct (pick tasks limit l) as [[k m] r]. simpl. by rewrite IH.
  - specialize (IH (limit - 1)). destruct (pick tasks (limit - 1) l) as [[k m] r]. rewrite <- IH. simpl. solve_Permutation.
Qed.

Lemma frontier_split l : frontier l ++ dropN SKIPPED_LOCALS_INLINE_CAP l = l.
Proof. apply take_dropN. Qed.

Lemma move_front_perm tasks l : (move_front tasks l).1 ++ (move_front tasks l).2 ≡ₚ l.
Proof.
  unfold move_front. pose proof (pick_perm tasks (clamp (lenN l / 2) 1 256) (frontier l)) as Hp. destruct (pick _ _ _) as [[k m] r]. simpl.
  rewrite <- (frontier_split l) at 2. rewrite <- Hp. solve_Permutation.
Qed.

Lemma steal_batch_rep tasks src dest ls ld : rep src ls → rep dest ld → (∀ t, t ∈ ls → t ∉ ld) →
  let '(src', dest', stole) := steal_batch tasks src dest in
  rep src' (move_front tasks ls).1 ∧ rep dest' (ld ++ (move_front tasks ls).2) ∧ stole = bool_decide ((move_front tasks ls).2 ≠ []).
Proof.
  intros [E1 E2 E3 Hd] [F1 F2 F3 Hdd] Hdisj. pose proof (move_front_perm tasks ls) as Hperm. unfold steal_batch, steal_batch_locked. simpl. rewrite E1, E2, F1, F2.
  destruct (N.eqb_spec (lenN ls) 0) as [H0|H0].
  { apply len_0 in H0 as ->. simpl. rewrite app_nil_r. split_and!; [by split|by split|done]. }
  unfold move_front in *. set (limit := clamp (lenN ls / 2) 1 256) in *. set (n := N.to_nat (N.min (lenN ls) SKIPPED_LOCALS_INLINE_CAP)).
  assert (n ≤ length ls)%nat as Hn by (unfold n, lenN; lia).
  pose proof (steal_batch_loop_spec tasks limit n [] ls [] (list_to_set ls) ld (list_to_set ld) 0 Hn eq_refl ltac:(lia)) as Hspec.
  rewrite N.sub_0_r in Hspec. change (take n ls) with (take (N.to_nat (N.min (lenN ls) SKIPPED_LOCALS_INLINE_CAP)) ls) in Hspec. rewrite <- frontier_take in Hspec.
  assert (drop n ls = dropN SKIPPED_LOCALS_INLINE_CAP ls) as Hdrop.
  { unfold n, dropN, lenN. destruct (N.le_ge_cases (N.of_nat (length ls)) SKIPPED_LOCALS_INLINE_CAP); [rewrite N.min_l by done; rewrite !drop_ge by lia; done|by rewrite N.min_r]. }
  destruct (pick tasks limit (frontier ls)) as [[k m] r]. destruct Hspec as (buf & Hs & Hl & Ht). rewrite Hdrop in Hs. simpl in Hs, Hl, Ht, Hperm.
  change (lenN (@nil TaskId)) with 0 in Hs. rewrite Hs. clear Hs. simpl.
  assert (compact_scanned_prefix (buf ++ r ++ dropN SKIPPED_LOCALS_INLINE_CAP ls) (lenN k) (lenN buf) = k ++ r ++ dropN SKIPPED_LOCALS_INLINE_CAP ls) as ->.
  { unfold compact_scanned_prefix. destruct (N.eqb_spec (lenN k) (lenN buf)) as [He|He]; unfold lenN in He.
    - apply Nat2N.inj in He. rewrite He, firstn_all in Ht. by rewrite Ht.
    - unfold takeN, dropN, lenN. rewrite !Nat2N.id, take_app_le, Ht, drop_app_length by lia. done. }
  set (rest := k ++ r ++ dropN SKIPPED_LOCALS_INLINE_CAP ls) in *. rewrite <- Hperm in Hd. apply NoDup_app in Hd as (Hd1 & Hd2 & Hd3). split_and!.
  - split; simpl; [done| |done|done]. apply set_eq. intros x. rewrite elem_of_difference, !elem_of_list_to_set, <- Hperm, elem_of_app. split; [naive_solver|]. intros Hx. split; [by left|by apply Hd2].
  - split; simpl; [done| |done|].
    + rewrite list_to_set_app_L. apply (comm_L (∪)).
    + apply NoDup_app. split_and!; [done| |done]. intros x Hx Hm. apply (Hdisj x); [|done]. rewrite <- Hperm. apply elem_of_app. by right.
  - destruct m; [by rewrite bool_decide_false by auto|]. rewrite bool_decide_true by done. rewrite len_cons. apply N.ltb_lt. lia.
Qed.

(** ** The queues of all workers

    Operations by worker, and the same on plain lists. *)

Inductive QueueOp :=
| Push (i : nat) (task : TaskId)
| PushMany (i : nat) (ts : list TaskId)
| Pop (i : nat)
| Steal (i : nat)
| StealBatch (i j : nat).

Definition queue_do tasks (qs : list LocalQueue) (o : QueueOp) : list LocalQueue * option TaskId :=
  match o with
  | Push i task => (alter (λ q, push q task) i qs, None)
  | PushMany i ts => (alter (λ q, push_many q ts) i qs, None)
  | Pop i => match qs !! i with Some q => (<[i := (pop q).1]> qs, (pop q).2) | None => (qs, None) end
  | Steal i => match qs !! i with Some q => (<[i := (steal tasks q).1]> qs, (steal tasks q).2) | None => (qs, None) end
  | StealBatch i j =>
      match qs !! i, qs !! j with
      | Some src, Some dest => if decide (i = j) then (qs, None) else let '(src, dest, _) := steal_batch tasks src dest in (<[j := dest]> (<[i := src]> qs), None)
      | _, _ => (qs, None)
      end
  end.

Definition list_do tasks (ls : list (list TaskId)) (o : QueueOp) : list (list TaskId) * option TaskId :=
  match o with
  | Push i task => (alter (λ l, add l task) i ls, None)
  | PushMany i ts => (alter (λ l, foldl add l ts) i ls, None)
  | Pop i => match ls !! i with Some l => (<[i := (take_back l).1]> ls, (take_back l).2) | None => (ls, None) end
  | Steal i => match ls !! i with Some l => (<[i := (take_front tasks l).1]> ls, (take_front tasks l).2) | None => (ls, None) end
  | StealBatch i j =>
      match ls !! i, ls !! j with
      | Some src, Some dest => if decide (i = j) then (ls, None) else (<[j := dest ++ (move_front tasks src).2]> (<[i := (move_front tasks src).1]> ls), None)
      | _, _ => (ls, None)
      end
  end.

Fixpoint queue_run tasks (qs : list LocalQueue) (os : list QueueOp) : list LocalQueue * list (option TaskId) :=
  match os with [] => (qs, []) | o :: os => let '(qs, r) := queue_do tasks qs o in let '(qs, rs) := queue_run tasks qs os in (qs, r :: rs) end.
Fixpoint list_run tasks (ls : list (list TaskId)) (os : list QueueOp) : list (list TaskId) * list (option TaskId) :=
  match os with [] => (ls, []) | o :: os => let '(ls, r) := list_do tasks ls o in let '(ls, rs) := list_run tasks ls os in (ls, r :: rs) end.

(** A task is scheduled in one queue at a time: it is not pushed while another queue
    holds it. *)
Definition elsewhere (ls : list (list TaskId)) (i : nat) (task : TaskId) : Prop := ∃ j l, j ≠ i ∧ ls !! j = Some l ∧ task ∈ l.
Definition op_once (ls : list (list TaskId)) (o : QueueOp) : Prop :=
  match o with Push i task => ¬ elsewhere ls i task | PushMany i ts => Forall (λ t, ¬ elsewhere ls i t) ts | _ => True end.
Fixpoint run_once tasks (ls : list (list TaskId)) (os : list QueueOp) : Prop :=
  match os with [] => True | o :: os => op_once ls o ∧ run_once tasks (list_do tasks ls o).1 os end.

Definition disjoint_lists (ls : list (list TaskId)) : Prop := ∀ i j li lj t, ls !! i = Some li → ls !! j = Some lj → t ∈ li → t ∈ lj → i = j.

Lemma elem_of_add l task x : x ∈ add l task ↔ x ∈ l ∨ x = task.
Proof. unfold add. case_bool_decide; [naive_solver|]. rewrite elem_of_app, list_elem_of_singleton. done. Qed.

Lemma elem_of_adds ts l x : x ∈ foldl add l ts ↔ x ∈ l ∨ x ∈ ts.
Proof. revert l. induction ts as [|t ts IH]; intros l; simpl; [set_solver|]. rewrite IH, elem_of_add. set_solver. Qed.

Lemma take_back_perm l : (take_back l).1 ++ option_list (take_back l).2 ≡ₚ l.
Proof. unfold take_back. destruct (last l) as [t|] eqn:El; simpl; [by rewrite <- (last_split l t El)|by rewrite app_nil_r]. Qed.

Lemma take_front_perm tasks l : (take_front tasks l).1 ++ option_list (take_front tasks l).2 ≡ₚ l.
Proof.
  unfold take_front. destruct (list_find _ (frontier l)) as [[i t]|] eqn:El; simpl; [|by rewrite app_nil_r].
  apply list_find_Some in El as (Hi & _). unfold frontier, takeN in Hi. apply lookup_take_Some in Hi as [Hi _].
  rewrite <- (take_drop_middle l i t Hi) at 3. solve_Permutation.
Qed.

(** Changing one list so that what is new in it is nowhere else. *)
Lemma disjoint_update ls i l l' : disjoint_lists ls → ls !! i = Some l → (∀ t, t ∈ l' → t ∈ l ∨ ¬ elsewhere ls i t) → disjoint_lists (<[i := l']> ls).
Proof.
  intros Hd Hi Hl'. assert (Hc : ∀ b lb t, b ≠ i → ls !! b = Some lb → t ∈ lb → t ∈ l' → False).
  { intros b lb t Hb Elb Ht Ht'. destruct (Hl' t Ht') as [Hin|Hne]; [apply Hb; by eapply (Hd b i)|]. apply Hne. by exists b, lb. }
  intros a b la lb t Ha Hb Hta Htb. destruct (decide (a = i)) as [->|Hna], (decide (b = i)) as [->|Hnb]; [done|..].
  - rewrite list_lookup_insert_eq in Ha by (eapply lookup_lt_Some; exact Hi). rewrite list_lookup_insert_ne in Hb by done. simplify_eq. exfalso. by eapply (Hc b).
  - rewrite list_lookup_insert_eq in Hb by (eapply lookup_lt_Some; exact Hi). rewrite list_lookup_insert_ne in Ha by done. simplify_eq. exfalso. by eapply (Hc a).
  - rewrite list_lookup_insert_ne in Ha, Hb by done. by eapply Hd.
Qed.

Lemma disjoint_less ls i l l' : disjoint_lists ls → ls !! i = Some l → (∀ t, t ∈ l' → t ∈ l) → disjoint_lists (<[i := l']> ls).
Proof. intros Hd Hi Hl. eapply disjoint_update; [done..|]. intros t Ht. left. by apply Hl. Qed.

Lemma alter_insert {A} (f : A → A) i (l : list A) x : l !! i = Some x → alter f i l = <[i := f x]> l.
Proof. revert i. induction l as [|y l IH]; intros [|i] Hi; simplify_eq/=; [done|]. f_equal. by apply IH. Qed.

Lemma alter_none {A} (f : A → A) i (l : list A) : l !! i = None → alter f i l = l.
Proof. revert i. induction l as [|y l IH]; intros [|i] Hi; simplify_eq/=; [done..|]. f_equal. by apply IH. Qed.

Lemma add_disjoint ls i l ts : disjoint_lists ls → ls !! i = Some l → Forall (λ t, ¬ elsewhere ls i t) ts → disjoint_lists (<[i := foldl add l ts]> ls).
Proof. intros Hd Hi Ho. eapply disjoint_update; [done..|]. intros t [Ht|Ht]%elem_of_adds; [by left|right]. by eapply Forall_forall in Ho. Qed.

Lemma rep_lookup qs ls i : Forall2 rep qs ls → match qs !! i, ls !! i with Some q, Some l => rep q l | None, None => True | _, _ => False end.
Proof. intros H. pose proof (Forall2_lookup_lr rep qs ls i) as Hr. destruct (qs !! i) eqn:E1, (ls !! i) eqn:E2; [eauto|..|done]; apply Forall2_length in H; apply lookup_lt_Some in E1 || apply lookup_lt_Some in E2; apply lookup_ge_None in E1 || apply lookup_ge_None in E2; lia. Qed.

Lemma queue_do_rep tasks qs ls o : Forall2 rep qs ls → disjoint_lists ls → op_once ls o →
  Forall2 rep (queue_do tasks qs o).1 (list_do tasks ls o).1 ∧ (queue_do tasks qs o).2 = (list_do tasks ls o).2 ∧ disjoint_lists (list_do tasks ls o).1.
Proof.
  intros Hr Hd Ho. assert (Hl := λ i, rep_lookup qs ls i Hr). destruct o as [i task|i ts|i|i|i j]; simpl in *; specialize (Hl i) as Hi; destruct (qs !! i) as [q|] eqn:Eq, (ls !! i) as [l|] eqn:El; try done.
  - rewrite (alter_insert _ i qs q), (alter_insert _ i ls l) by done. split_and!; [apply Forall2_insert; [done|by apply push_rep]|done|]. by apply (add_disjoint ls i l [task]); [..|constructor].
  - by rewrite !alter_none by done.
  - rewrite (alter_insert _ i qs q), (alter_insert _ i ls l) by done. split_and!; [apply Forall2_insert; [done|by apply push_many_rep]|done|]. by apply add_disjoint.
  - by rewrite !alter_none by done.
  - destruct (local_pop_rep q l Hi) as [Hp1 Hp2]. simpl. split_and!; [by apply Forall2_insert|done|]. eapply disjoint_less; [done..|]. intros t Ht. rewrite <- (take_back_perm l), elem_of_app. by left.
  - destruct (steal_rep tasks q l Hi) as [Hp1 Hp2]. simpl. split_and!; [by apply Forall2_insert|done|]. eapply disjoint_less; [done..|]. intros t Ht. rewrite <- (take_front_perm tasks l), elem_of_app. by left.
  - specialize (Hl j). destruct (qs !! j) as [q'|] eqn:Eq', (ls !! j) as [l'|] eqn:El'; try done. destruct (decide (i = j)) as [->|Hne]; [done|].
    assert (∀ t, t ∈ l → t ∉ l') as Hdis by (intros t Ht Ht'; apply Hne; by eapply (Hd i j)).
    pose proof (steal_batch_rep tasks q q' l l' Hi Hl Hdis) as Hs. destruct (steal_batch tasks q q') as [[src dest] stole]. destruct Hs as (Hs1 & Hs2 & _). simpl.
    split_and!; [by apply Forall2_insert; [apply Forall2_insert|]|done|]. pose proof (move_front_perm tasks l) as Hp.
    eapply disjoint_update; [eapply (disjoint_less ls i l); [done..|]|by rewrite list_lookup_insert_ne|].
    + intros t Ht. rewrite <- Hp, elem_of_app. by left.
    + intros t [Ht|Ht]%elem_of_app; [by left|right]. intros (a & la & Hna & Ha & Hta). assert (t ∈ l) as Htl by (rewrite <- Hp, elem_of_app; by right).
      destruct (decide (a = i)) as [->|Hni].
      * rewrite list_lookup_insert_eq in Ha by (by eapply lookup_lt_Some). simplify_eq. assert (NoDup ((move_front tasks l).1 ++ (move_front tasks l).2)) as (_ & Hn & _)%NoDup_app by (rewrite Hp; apply Hi). by apply (Hn t).
      * rewrite list_lookup_insert_ne in Ha by done. apply Hni. by eapply (Hd a i).
Qed.

(** Local queues are lists of distinct tasks.  Whatever the owners and the thieves do,
    if a task is in one queue at a time, the operations answer as they do on plain
    lists: the owner takes the newest task, a thief takes the oldest of the first eight
    that are not pinned, a batch moves in order, and the index and the cached length
    agree with the contents. *)
Theorem local_queues_are_lists tasks n os : run_once tasks (replicate n []) os →
  (queue_run tasks (replicate n new) os).2 = (list_run tasks (replicate n []) os).2 ∧
  Forall2 rep (queue_run tasks (replicate n new) os).1 (list_run tasks (replicate n []) os).1.
Proof.
  assert (Hgen : ∀ qs ls, Forall2 rep qs ls → disjoint_lists ls → run_once tasks ls os →
    (queue_run tasks qs os).2 = (list_run tasks ls os).2 ∧ Forall2 rep (queue_run tasks qs os).1 (list_run tasks ls os).1).
  { induction os as [|o os IH]; intros qs ls Hr Hd Ho; [done|]. simpl in Ho. destruct Ho as [Ho Hos]. destruct (queue_do_rep tasks qs ls o Hr Hd Ho) as (H1 & H2 & H3).
    simpl. destruct (queue_do tasks qs o) as [qs' r], (list_do tasks ls o) as [ls' r']. simpl in *. subst r'. destruct (IH qs' ls' H1 H3 Hos) as [H4 H5].
    destruct (queue_run tasks qs' os), (list_run tasks ls' os). simpl in *. by subst. }
  apply Hgen.
  - apply Forall2_replicate, new_rep.
  - intros i j li lj t Hi _ Ht. apply lookup_replicate in Hi as [-> _]. by apply not_elem_of_nil in Ht.
Qed.

(** *** Choosing a victim *)

Definition has_loot tasks (ls : list (list TaskId)) (i : N) : Prop := ∃ l t, ls !! N.to_nat i = Some l ∧ t ∈ frontier l ∧ pinned tasks t = false.

Lemma take_front_none tasks l : (take_front tasks l).2 = None → (take_front tasks l).1 = l ∧ Forall (λ t, pinned tasks t = true) (frontier l).
Proof.
  unfold take_front. destruct (list_find _ _) as [[i t]|] eqn:Ef; [done|]. intros _. split; [done|]. apply list_find_None in Ef. eapply Forall_impl; [exact Ef|]. intros t Ht. destruct (pinned tasks t) eqn:Ep; [done|by destruct Ht].
Qed.

Lemma no_loot tasks ls i l : ls !! N.to_nat i = Some l → Forall (λ t, pinned tasks t = true) (frontier l) → ¬ has_loot tasks ls i.
Proof. intros Hi Hf (l' & t & Hi' & Ht & Hp). simplify_eq. eapply Forall_forall in Hf; [|exact Ht]. congruence. Qed.

Lemma steal_at_none tasks qs ls i : Forall2 rep qs ls → (steal_at tasks qs i).2 = None → Forall2 rep (steal_at tasks qs i).1 ls ∧ ¬ has_loot tasks ls i.
Proof.
  intros Hr. pose proof (rep_lookup qs ls (N.to_nat i) Hr) as Hl. unfold steal_at. destruct (qs !! N.to_nat i) as [q|] eqn:Eq, (ls !! N.to_nat i) as [l|] eqn:El; try done.
  - destruct (steal_rep tasks q l Hl) as [H1 H2]. destruct (steal tasks q) as [q' r]. simpl in *. intros ->. symmetry in H2. apply take_front_none in H2 as [H2 Hf]. rewrite H2 in H1.
    split; [|by eapply no_loot]. rewrite <- (list_insert_id ls (N.to_nat i) l El). by apply Forall2_insert.
  - intros _. split; [done|]. intros (l & t & Hi & _). congruence.
Qed.

Lemma hint_zero tasks qs ls i : Forall2 rep qs ls → hint_at tasks qs i = 0 → ¬ has_loot tasks ls i.
Proof.
  intros Hr. pose proof (rep_lookup qs ls (N.to_nat i) Hr) as Hl. unfold hint_at. destruct (qs !! N.to_nat i) as [q|] eqn:Eq, (ls !! N.to_nat i) as [l|] eqn:El; try done.
  - destruct Hl as [E1 _ E3 _]. unfold stealable_len_hint. rewrite E1, E3. destruct (N.eqb_spec (lenN l) 0) as [H0|H0].
    + apply len_0 in H0 as ->. intros _. by eapply no_loot; [exact El|constructor].
    + intros H. eapply no_loot; [exact El|]. rewrite frontier_take. apply len_0 in H. unfold takeN in H. apply Forall_forall. intros t Ht. destruct (pinned tasks t) eqn:Ep; [done|].
      assert (t ∈ filter (λ t, pinned tasks t = false) (take (N.to_nat (N.min (lenN l) SKIPPED_LOCALS_INLINE_CAP)) l)) as Hin by (by apply list_elem_of_filter). rewrite H in Hin. by apply not_elem_of_nil in Hin.
  - intros _ (l & t & Hi & _). congruence.
Qed.

Lemma scan_queues_none tasks n start off p s qs ls : Forall2 rep qs ls → (scan_queues tasks n start off p s qs).2 = None →
  ∀ o, off ≤ o → o < off + N.of_nat n → let i := circular_index start o (lenN ls) in i = p ∨ i = s ∨ ¬ has_loot tasks ls i.
Proof.
  revert off qs. induction n as [|n IH]; intros off qs Hr Hn o Ho1 Ho2; [lia|]. cbn [scan_queues] in Hn. assert (lenN qs = lenN ls) as Hlen by (unfold lenN; by erewrite Forall2_length).
  rewrite Hlen in Hn. set (i := circular_index start off (lenN ls)) in *. destruct (N.eqb_spec i p) as [Hp|Hp]; simpl in Hn; [|destruct (N.eqb_spec i s) as [Hs|Hs]; simpl in Hn].
  - destruct (decide (o = off)) as [->|Hne]; [by left|]. eapply IH; [done..|lia|lia].
  - destruct (decide (o = off)) as [->|Hne]; [by right; left|]. eapply IH; [done..|lia|lia].
  - pose proof (steal_at_none tasks qs ls i Hr) as Hst. destruct (steal_at tasks qs i) as [qs' [t|]]; [done|]. destruct (Hst eq_refl) as [Hr' Hno].
    destruct (decide (o = off)) as [->|Hne]; [by right; right|]. eapply IH; [exact Hr'|done|lia|lia].
Qed.

(** A scan that starts anywhere and goes around meets every index. *)
Lemma circular_covers start length j : start < length → j < length → ∃ o, o < length ∧ circular_index start o length = j.
Proof.
  intros Hs Hj. exists ((j + length - start) mod length). split; [apply N.mod_lt; lia|]. unfold circular_index.
  rewrite N.Div0.add_mod_idemp_r. replace (start + (j + length - start)) with (j + 1 * length) by lia. rewrite N.Div0.mod_add. by apply N.mod_small.
Qed.

(** The search for work to steal finds some whenever a queue shows any: it gives
    nothing only if no queue has a task that is not pinned among its first eight. *)
Theorem steal_task_finds_work tasks d1 d2 d3 qs ls : Forall2 rep qs ls → d1 < lenN qs → d2 < lenN qs → d3 < lenN qs →
  (steal_task tasks d1 d2 d3 qs).2 = None → ∀ i, ¬ has_loot tasks ls i.
Proof.
  intros Hr H1 H2 H3 Hn i. assert (lenN qs = lenN ls) as Hlen by (unfold lenN; by erewrite Forall2_length).
  destruct (N.lt_ge_cases i (lenN ls)) as [Hi|Hi]; [|intros (l & t & Hl%lookup_lt_Some & _); unfold lenN in *; lia]. revert Hn. unfold steal_task.
  destruct (N.eqb_spec (lenN qs) 0) as [E0|E0]; [lia|]. destruct (N.eqb_spec (lenN qs) 1) as [E1|E1].
  { intros Hs%(steal_at_none _ _ ls); [|done]. assert (i = 0) as -> by lia. apply Hs. }
  set (idx2 := if d1 =? d2 then _ else _). set (h1 := hint_at tasks qs d1). set (h2 := hint_at tasks qs idx2).
  assert (∀ a h b h', h = hint_at tasks qs a → h' = hint_at tasks qs b →
    (match (if 0 <? h then steal_at tasks qs a else (qs, None)) with
     | (qs1, Some task) => (qs1, Some task)
     | (qs1, None) => match (if 0 <? h' then steal_at tasks qs1 b else (qs1, None)) with
                      | (qs2, Some task) => (qs2, Some task)
                      | (qs2, None) => scan_queues tasks (N.to_nat (lenN qs)) d3 0 a b qs2 end end).2 = None → ¬ has_loot tasks ls i) as Hboth.
  { intros a h b h' -> ->. assert (∀ c qs', Forall2 rep qs' ls → (∀ r, (if 0 <? hint_at tasks qs c then steal_at tasks qs' c else (qs', None)) = r → r.2 = None → Forall2 rep r.1 ls ∧ ¬ has_loot tasks ls c)) as Htry.
    { intros c qs' Hr' r <-. destruct (N.ltb_spec 0 (hint_at tasks qs c)) as [Hh|Hh]; [by apply steal_at_none|]. intros _. split; [done|]. eapply hint_zero; [exact Hr|lia]. }
    destruct (if 0 <? hint_at tasks qs a then _ else _) as [qs1 [t|]] eqn:Ea; [done|]. destruct (Htry a qs Hr _ Ea eq_refl) as [Hr1 Hno1]. simpl in Hr1.
    destruct (if 0 <? hint_at tasks qs b then _ else _) as [qs2 [t|]] eqn:Eb; [done|]. destruct (Htry b qs1 Hr1 _ Eb eq_refl) as [Hr2 Hno2]. simpl in Hr2. intros Hs.
    destruct (circular_covers d3 (lenN ls) i) as (o & Ho & Hc); [lia|done|].
    destruct (scan_queues_none tasks (N.to_nat (lenN qs)) d3 0 a b qs2 ls Hr2 Hs o) as [Hp|[Hp|Hp]]; [lia|lia|..]; rewrite Hc in Hp; [by rewrite Hp|by rewrite Hp|done]. }
  destruct (h2 <=? h1); intros Hn; [by apply (Hboth d1 h1 idx2 h2)|by apply (Hboth idx2 h2 d1 h1)].
Qed.

End local_queue.

(** ** Runs *)

Definition no_tasks : Arena (TaskRecord unit) := Arena.arena_new.
Definition tid (i : N) : TaskId := TaskId_from_arena (mkArenaIndex i 0).
Definition queue_script : list QueueOp :=
  [Push 0 (tid 1); Push 0 (tid 2); Push 0 (tid 2); PushMany 0 [tid 3; tid 4; tid 5]; StealBatch 0 1; Pop 0; Steal 0; Pop 1; Steal 1; Pop 1].

Lemma local_queues_are_lists_witness :
  (queue_run no_tasks (replicate 2 new) queue_script).2 = [None; None; None; None; None; Some (tid 5); Some (tid 3); Some (tid 2); Some (tid 1); None] ∧
  Forall2 rep (queue_run no_tasks (replicate 2 new) queue_script).1 [[tid 4]; []].
Proof.
  destruct (local_queues_are_lists no_tasks 2 queue_script) as [H1 H2].
  - assert (∀ t, ¬ elsewhere [[]; []] 0 t) as H0 by (intros t ([|[|j]] & l & Hj & Hl & Ht); simpl in *; simplify_eq; by apply not_elem_of_nil in Ht).
    assert (∀ l t, ¬ elsewhere [l; []] 0 t) as H1 by (intros l t ([|[|j]] & l' & Hj & Hl & Ht); simpl in *; simplify_eq; by apply not_elem_of_nil in Ht).
    vm_compute. repeat split; try apply H0; try apply H1; repeat constructor; apply H1.
  - rewrite H1. split; [vm_compute; reflexivity|exact H2].
Defined.

Lemma steal_task_finds_work_witness : (steal_task no_tasks 0 0 0 [push new (tid 7); new; new]).2 = Some (tid 7).
Proof.
  destruct (steal_task no_tasks 0 0 0 [push new (tid 7); new; new]).2 as [t|] eqn:Es; [rewrite <- Es; vm_compute; reflexivity|]. exfalso.
  apply (steal_task_finds_work no_tasks 0 0 0 [push new (tid 7); new; new] [[tid 7]; []; []]) with (i := 0); [|done..|].
  - repeat constructor; try done; try apply NoDup_singleton; set_solver.
  - exists [tid 7], (tid 7). split_and!; [done|left|done].
Defined.

(** A batch steal does not look whether the destination holds the task already: with a
    task in both queues the destination holds it twice, and after one of them is
    popped the index has lost the other, so that the task can enter again. *)
Lemma steal_batch_drifts :
  let dest := (steal_batch no_tasks (push new (tid 1)) (push new (tid 1))).1.2 in
  queue dest = [tid 1; tid 1] ∧ queue (pop dest).1 = [tid 1] ∧ presence (pop dest).1 = ∅ ∧ queue (push (pop dest).1 (tid 1)) = [tid 1; tid 1].
Proof. vm_compute. auto. Qed.

End LocalQueue.
