(* ===== verification/ThreeLane.v ===== *)
(** * Dispatch by a worker of the three-lane scheduler

    [runtime/scheduler/three_lane.rs]: how a worker chooses the next task among the
    global queue ([Injector]), its own priority scheduler ([Priority]), its stealable
    queue ([LocalQueue]), its queue of pinned tasks and the queues of the other
    workers, and the streaks and metrics that keep the choice fair.  The shared queues
    are the world; each access to them is one step ([Atomic]), so that other workers
    may interfere between any two.  The fields only the worker touches are a record
    that is passed along.

    Inputs of a call are the suggestion of the governor, the time, the numbers the
    generator draws and whether a [try_lock] fails: the theorems hold for all of them.
    What firing expired timers does at the start of a call is part of the interference.
    The policy that adapts the cancel limit is represented by its current limit.  The
    governor, the monitors that only observe dispatches, and the metrics and fields that
    belong to them, to parking and to evidence are left out. *)

From S2P Require Import Prelude Ids Arena Task Heap ScheduledSet Priority Atomic GlobalQueue Injector LocalQueue.
Import Injector.

Module ThreeLane.

Definition DEFAULT_CANCEL_STREAK_LIMIT : N := 16.
Definition DEFAULT_STEAL_BATCH_SIZE : N := 4.
Definition GLOBAL_READY_BATCH_DRAIN_MIN_DEPTH : N := 8.

Inductive SchedulingSuggestion := DrainObligations | DrainRegions | MeetDeadlines | NoPreference.

Inductive AdaptiveBatchDecisionReason := Disabled | FixedFallback | ReadyContentionScaleUp | CancelDebtFloor | CooldownHold.

Record AdaptiveBatchSizingProfile := mkProfile {
  enabled : bool; min_batch_size : N; max_batch_size : N; scale_up_ready_depth : N;
  scale_up_in_flight : N; scale_up_claim_failures : N; cancel_debt_floor : N; cooldown_steps : N;
}.
Record AdaptiveBatchDecisionSnapshot := mkDecision {
  selected_batch_size : N; fixed_batch_size : N; ready_depth : N; cancel_debt : N;
  combiner_in_flight : N; combiner_claim_failures_delta : N; reason : AdaptiveBatchDecisionReason;
}.
Record AdaptiveBatchRuntimeState := mkBatchState {
  active_batch_size : N; cooldown_remaining : N; last_combiner_claim_failures : N; last_snapshot : option AdaptiveBatchDecisionSnapshot;
}.
Record StealLocalityCounters := mkStealCounters {
  preferred_fast_steals : N; remote_fast_steals : N; preferred_heap_steals : N; remote_heap_steals : N;
}.
Record PreemptionMetrics := mkMetrics {
  cancel_dispatches : N;
  timed_dispatches : N;
  ready_dispatches : N;
  browser_ready_handoff_yields : N;
  fairness_yields : N;
  max_ready_dispatch_stall : N;
  max_timed_dispatch_stall : N;
  ready_priority_inversions : N;
  max_ready_priority_inversion_gap : N;
  max_cancel_streak : N;
  fallback_cancel_dispatches : N;
  base_limit_exceedances : N;
  effective_limit_exceedances : N;
  max_effective_limit_observed : N;
  adaptive_current_limit : N;
  global_ready_batch_drains : N;
  global_ready_batch_tasks : N;
  adaptive_batch_scale_up_events : N;
  adaptive_batch_cancel_floor_hits : N;
  adaptive_batch_cooldown_holds : N;
  adaptive_batch_max_selected : N;
}.
Record Worker := mkWorker {
  preferred_heap_stealer_count : N;
  preferred_fast_stealer_count : N;
  global_ready_buffer : list PriorityTask;
  steal_batch_size : N;
  cancel_streak : N;
  ready_dispatch_streak : N;
  browser_ready_handoff_limit : N;
  cancel_streak_limit : N;
  adaptive_cancel_policy : option N;
  preemption_metrics : PreemptionMetrics;
  fast_queue_dispatch_streak : N;
  fast_queue_fairness_limit : N;
  timed_dispatch_streak : N;
  timed_fairness_limit : N;
  adaptive_batch_profile : option AdaptiveBatchSizingProfile;
  adaptive_batch_state : AdaptiveBatchRuntimeState;
  steal_locality_counters : StealLocalityCounters;
}.
Implicit Types (m : PreemptionMetrics) (wk : Worker).

Definition set_cancel_dispatches x m : PreemptionMetrics :=
  mkMetrics x (timed_dispatches m) (ready_dispatches m) (browser_ready_handoff_yields m) (fairness_yields m) (max_ready_dispatch_stall m) (max_timed_dispatch_stall m) (ready_priority_inversions m) (max_ready_priority_inversion_gap m) (max_cancel_streak m) (fallback_cancel_dispatches m) (base_limit_exceedances m) (effective_limit_exceedances m) (max_effective_limit_observed m) (adaptive_current_limit m) (global_ready_batch_drains m) (global_ready_batch_tasks m) (adaptive_batch_scale_up_events m) (adaptive_batch_cancel_floor_hits m) (adaptive_batch_cooldown_holds m) (adaptive_batch_max_selected m).
Definition set_timed_dispatches x m : PreemptionMetrics :=
  mkMetrics (cancel_dispatches m) x (ready_dispatches m) (browser_ready_handoff_yields m) (fairness_yields m) (max_ready_dispatch_stall m) (max_timed_dispatch_stall m) (ready_priority_inversions m) (max_ready_priority_inversion_gap m) (max_cancel_streak m) (fallback_cancel_dispatches m) (base_limit_exceedances m) (effective_limit_exceedances m) (max_effective_limit_observed m) (adaptive_current_limit m) (global_ready_batch_drains m) (global_ready_batch_tasks m) (adaptive_batch_scale_up_events m) (adaptive_batch_cancel_floor_hits m) (adaptive_batch_cooldown_holds m) (adaptive_batch_max_selected m).
Definition set_ready_dispatches x m : PreemptionMetrics :=
  mkMetrics (cancel_dispatches m) (timed_dispatches m) x (browser_ready_handoff_yields m) (fairness_yields m) (max_ready_dispatch_stall m) (max_timed_dispatch_stall m) (ready_priority_inversions m) (max_ready_priority_inversion_gap m) (max_cancel_streak m) (fallback_cancel_dispatches m) (base_limit_exceedances m) (effective_limit_exceedances m) (max_effective_limit_observed m) (adaptive_current_limit m) (global_ready_batch_drains m) (global_ready_batch_tasks m) (adaptive_batch_scale_up_events m) (adaptive_batch_cancel_floor_hits m) (adaptive_batch_cooldown_holds m) (adaptive_batch_max_selected m).
Definition set_browser_ready_handoff_yields x m : PreemptionMetrics :=
  mkMetrics (cancel_dispatches m) (timed_dispatches m) (ready_dispatches m) x (fairness_yields m) (max_ready_dispatch_stall m) (max_timed_dispatch_stall m) (ready_priority_inversions m) (max_ready_priority_inversion_gap m) (max_cancel_streak m) (fallback_cancel_dispatches m) (base_limit_exceedances m) (effective_limit_exceedances m) (max_effective_limit_observed m) (adaptive_current_limit m) (global_ready_batch_drains m) (global_ready_batch_tasks m) (adaptive_batch_scale_up_events m) (adaptive_batch_cancel_floor_hits m) (adaptive_batch_cooldown_holds m) (adaptive_batch_max_selected m).
Definition set_fairness_yields x m : PreemptionMetrics :=
  mkMetrics (cancel_dispatches m) (timed_dispatches m) (ready_dispatches m) (browser_ready_handoff_yields m) x (max_ready_dispatch_stall m) (max_timed_dispatch_stall m) (ready_priority_inversions m) (max_ready_priority_inversion_gap m) (max_cancel_streak m) (fallback_cancel_dispatches m) (base_limit_exceedances m) (effective_limit_exceedances m) (max_effective_limit_observed m) (adaptive_current_limit m) (global_ready_batch_drains m) (global_ready_batch_tasks m) (adaptive_batch_scale_up_events m) (adaptive_batch_cancel_floor_hits m) (adaptive_batch_cooldown_holds m) (adaptive_batch_max_selected m).
Definition set_max_ready_dispatch_stall x m : PreemptionMetrics :=
  mkMetrics (cancel_dispatches m) (timed_dispatches m) (ready_dispatches m) (browser_ready_handoff_yields m) (fairness_yields m) x (max_timed_dispatch_stall m) (ready_priority_inversions m) (max_ready_priority_inversion_gap m) (max_cancel_streak m) (fallback_cancel_dispatches m) (base_limit_exceedances m) (effective_limit_exceedances m) (max_effective_limit_observed m) (adaptive_current_limit m) (global_ready_batch_drains m) (global_ready_batch_tasks m) (adaptive_batch_scale_up_events m) (adaptive_batch_cancel_floor_hits m) (adaptive_batch_cooldown_holds m) (adaptive_batch_max_selected m).
Definition set_max_timed_dispatch_stall x m : PreemptionMetrics :=
  mkMetrics (cancel_dispatches m) (timed_dispatches m) (ready_dispatches m) (browser_ready_handoff_yields m) (fairness_yields m) (max_ready_dispatch_stall m) x (ready_priority_inversions m) (max_ready_priority_inversion_gap m) (max_cancel_streak m) (fallback_cancel_dispatches m) (base_limit_exceedances m) (effective_limit_exceedances m) (max_effective_limit_observed m) (adaptive_current_limit m) (global_ready_batch_drains m) (global_ready_batch_tasks m) (adaptive_batch_scale_up_events m) (adaptive_batch_cancel_floor_hits m) (adaptive_batch_cooldown_holds m) (adaptive_batch_max_selected m).
Definition set_ready_priority_inversions x m : PreemptionMetrics :=
  mkMetrics (cancel_dispatches m) (timed_dispatches m) (ready_dispatches m) (browser_ready_handoff_yields m) (fairness_yields m) (max_ready_dispatch_stall m) (max_timed_dispatch_stall m) x (max_ready_priority_inversion_gap m) (max_cancel_streak m) (fallback_cancel_dispatches m) (base_limit_exceedances m) (effective_limit_exceedances m) (max_effective_limit_observed m) (adaptive_current_limit m) (global_ready_batch_drains m) (global_ready_batch_tasks m) (adaptive_batch_scale_up_events m) (adaptive_batch_cancel_floor_hits m) (adaptive_batch_cooldown_holds m) (adaptive_batch_max_selected m).
Definition set_max_ready_priority_inversion_gap x m : PreemptionMetrics :=
  mkMetrics (cancel_dispatches m) (timed_dispatches m) (ready_dispatches m) (browser_ready_handoff_yields m) (fairness_yields m) (max_ready_dispatch_stall m) (max_timed_dispatch_stall m) (ready_priority_inversions m) x (max_cancel_streak m) (fallback_cancel_dispatches m) (base_limit_exceedances m) (effective_limit_exceedances m) (max_effective_limit_observed m) (adaptive_current_limit m) (global_ready_batch_drains m) (global_ready_batch_tasks m) (adaptive_batch_scale_up_events m) (adaptive_batch_cancel_floor_hits m) (adaptive_batch_cooldown_holds m) (adaptive_batch_max_selected m).
Definition set_max_cancel_streak x m : PreemptionMetrics :=
  mkMetrics (cancel_dispatches m) (timed_dispatches m) (ready_dispatches m) (browser_ready_handoff_yields m) (fairness_yields m) (max_ready_dispatch_stall m) (max_timed_dispatch_stall m) (ready_priority_inversions m) (max_ready_priority_inversion_gap m) x (fallback_cancel_dispatches m) (base_limit_exceedances m) (effective_limit_exceedances m) (max_effective_limit_observed m) (adaptive_current_limit m) (global_ready_batch_drains m) (global_ready_batch_tasks m) (adaptive_batch_scale_up_events m) (adaptive_batch_cancel_floor_hits m) (adaptive_batch_cooldown_holds m) (adaptive_batch_max_selected m).
Definition set_fallback_cancel_dispatches x m : PreemptionMetrics :=
  mkMetrics (cancel_dispatches m) (timed_dispatches m) (ready_dispatches m) (browser_ready_handoff_yields m) (fairness_yields m) (max_ready_dispatch_stall m) (max_timed_dispatch_stall m) (ready_priority_inversions m) (max_ready_priority_inversion_gap m) (max_cancel_streak m) x (base_limit_exceedances m) (effective_limit_exceedances m) (max_effective_limit_observed m) (adaptive_current_limit m) (global_ready_batch_drains m) (global_ready_batch_tasks m) (adaptive_batch_scale_up_events m) (adaptive_batch_cancel_floor_hits m) (adaptive_batch_cooldown_holds m) (adaptive_batch_max_selected m).
Definition set_base_limit_exceedances x m : PreemptionMetrics :=
  mkMetrics (cancel_dispatches m) (timed_dispatches m) (ready_dispatches m) (browser_ready_handoff_yields m) (fairness_yields m) (max_ready_dispatch_stall m) (max_timed_dispatch_stall m) (ready_priority_inversions m) (max_ready_priority_inversion_gap m) (max_cancel_streak m) (fallback_cancel_dispatches m) x (effective_limit_exceedances m) (max_effective_limit_observed m) (adaptive_current_limit m) (global_ready_batch_drains m) (global_ready_batch_tasks m) (adaptive_batch_scale_up_events m) (adaptive_batch_cancel_floor_hits m) (adaptive_batch_cooldown_holds m) (adaptive_batch_max_selected m).
Definition set_effective_limit_exceedances x m : PreemptionMetrics :=
  mkMetrics (cancel_dispatches m) (timed_dispatches m) (ready_dispatches m) (browser_ready_handoff_yields m) (fairness_yields m) (max_ready_dispatch_stall m) (max_timed_dispatch_stall m) (ready_priority_inversions m) (max_ready_priority_inversion_gap m) (max_cancel_streak m) (fallback_cancel_dispatches m) (base_limit_exceedances m) x (max_effective_limit_observed m) (adaptive_current_limit m) (global_ready_batch_drains m) (global_ready_batch_tasks m) (adaptive_batch_scale_up_events m) (adaptive_batch_cancel_floor_hits m) (adaptive_batch_cooldown_holds m) (adaptive_batch_max_selected m).
Definition set_max_effective_limit_observed x m : PreemptionMetrics :=
  mkMetrics (cancel_dispatches m) (timed_dispatches m) (ready_dispatches m) (browser_ready_handoff_yields m) (fairness_yields m) (max_ready_dispatch_stall m) (max_timed_dispatch_stall m) (ready_priority_inversions m) (max_ready_priority_inversion_gap m) (max_cancel_streak m) (fallback_cancel_dispatches m) (base_limit_exceedances m) (effective_limit_exceedances m) x (adaptive_current_limit m) (global_ready_batch_drains m) (global_ready_batch_tasks m) (adaptive_batch_scale_up_events m) (adaptive_batch_cancel_floor_hits m) (adaptive_batch_cooldown_holds m) (adaptive_batch_max_selected m).
Definition set_adaptive_current_limit x m : PreemptionMetrics :=
  mkMetrics (cancel_dispatches m) (timed_dispatches m) (ready_dispatches m) (browser_ready_handoff_yields m) (fairness_yields m) (max_ready_dispatch_stall m) (max_timed_dispatch_stall m) (ready_priority_inversions m) (max_ready_priority_inversion_gap m) (max_cancel_streak m) (fallback_cancel_dispatches m) (base_limit_exceedances m) (effective_limit_exceedances m) (max_effective_limit_observed m) x (global_ready_batch_drains m) (global_ready_batch_tasks m) (adaptive_batch_scale_up_events m) (adaptive_batch_cancel_floor_hits m) (adaptive_batch_cooldown_holds m) (adaptive_batch_max_selected m).
Definition set_global_ready_batch_drains x m : PreemptionMetrics :=
  mkMetrics (cancel_dispatches m) (timed_dispatches m) (ready_dispatches m) (browser_ready_handoff_yields m) (fairness_yields m) (max_ready_dispatch_stall m) (max_timed_dispatch_stall m) (ready_priority_inversions m) (max_ready_priority_inversion_gap m) (max_cancel_streak m) (fallback_cancel_dispatches m) (base_limit_exceedances m) (effective_limit_exceedances m) (max_effective_limit_observed m) (adaptive_current_limit m) x (global_ready_batch_tasks m) (adaptive_batch_scale_up_events m) (adaptive_batch_cancel_floor_hits m) (adaptive_batch_cooldown_holds m) (adaptive_batch_max_selected m).
Definition set_global_ready_batch_tasks x m : PreemptionMetrics :=
  mkMetrics (cancel_dispatches m) (timed_dispatches m) (ready_dispatches m) (browser_ready_handoff_yields m) (fairness_yields m) (max_ready_dispatch_stall m) (max_timed_dispatch_stall m) (ready_priority_inversions m) (max_ready_priority_inversion_gap m) (max_cancel_streak m) (fallback_cancel_dispatches m) (base_limit_exceedances m) (effective_limit_exceedances m) (max_effective_limit_observed m) (adaptive_current_limit m) (global_ready_batch_drains m) x (adaptive_batch_scale_up_events m) (adaptive_batch_cancel_floor_hits m) (adaptive_batch_cooldown_holds m) (adaptive_batch_max_selected m).
Definition set_adaptive_batch_scale_up_events x m : PreemptionMetrics :=
  mkMetrics (cancel_dispatches m) (timed_dispatches m) (ready_dispatches m) (browser_ready_handoff_yields m) (fairness_yields m) (max_ready_dispatch_stall m) (max_timed_dispatch_stall m) (ready_priority_inversions m) (max_ready_priority_inversion_gap m) (max_cancel_streak m) (fallback_cancel_dispatches m) (base_limit_exceedances m) (effective_limit_exceedances m) (max_effective_limit_observed m) (adaptive_current_limit m) (global_ready_batch_drains m) (global_ready_batch_tasks m) x (adaptive_batch_cancel_floor_hits m) (adaptive_batch_cooldown_holds m) (adaptive_batch_max_selected m).
Definition set_adaptive_batch_cancel_floor_hits x m : PreemptionMetrics :=
  mkMetrics (cancel_dispatches m) (timed_dispatches m) (ready_dispatches m) (browser_ready_handoff_yields m) (fairness_yields m) (max_ready_dispatch_stall m) (max_timed_dispatch_stall m) (ready_priority_inversions m) (max_ready_priority_inversion_gap m) (max_cancel_streak m) (fallback_cancel_dispatches m) (base_limit_exceedances m) (effective_limit_exceedances m) (max_effective_limit_observed m) (adaptive_current_limit m) (global_ready_batch_drains m) (global_ready_batch_tasks m) (adaptive_batch_scale_up_events m) x (adaptive_batch_cooldown_holds m) (adaptive_batch_max_selected m).
Definition set_adaptive_batch_cooldown_holds x m : PreemptionMetrics :=
  mkMetrics (cancel_dispatches m) (timed_dispatches m) (ready_dispatches m) (browser_ready_handoff_yields m) (fairness_yields m) (max_ready_dispatch_stall m) (max_timed_dispatch_stall m) (ready_priority_inversions m) (max_ready_priority_inversion_gap m) (max_cancel_streak m) (fallback_cancel_dispatches m) (base_limit_exceedances m) (effective_limit_exceedances m) (max_effective_limit_observed m) (adaptive_current_limit m) (global_ready_batch_drains m) (global_ready_batch_tasks m) (adaptive_batch_scale_up_events m) (adaptive_batch_cancel_floor_hits m) x (adaptive_batch_max_selected m).
Definition set_adaptive_batch_max_selected x m : PreemptionMetrics :=
  mkMetrics (cancel_dispatches m) (timed_dispatches m) (ready_dispatches m) (browser_ready_handoff_yields m) (fairness_yields m) (max_ready_dispatch_stall m) (max_timed_dispatch_stall m) (ready_priority_inversions m) (max_ready_priority_inversion_gap m) (max_cancel_streak m) (fallback_cancel_dispatches m) (base_limit_exceedances m) (effective_limit_exceedances m) (max_effective_limit_observed m) (adaptive_current_limit m) (global_ready_batch_drains m) (global_ready_batch_tasks m) (adaptive_batch_scale_up_events m) (adaptive_batch_cancel_floor_hits m) (adaptive_batch_cooldown_holds m) x.

Definition set_preferred_heap_stealer_count x wk : Worker :=
  mkWorker x (preferred_fast_stealer_count wk) (global_ready_buffer wk) (steal_batch_size wk) (cancel_streak wk) (ready_dispatch_streak wk) (browser_ready_handoff_limit wk) (cancel_streak_limit wk) (adaptive_cancel_policy wk) (preemption_metrics wk) (fast_queue_dispatch_streak wk) (fast_queue_fairness_limit wk) (timed_dispatch_streak wk) (timed_fairness_limit wk) (adaptive_batch_profile wk) (adaptive_batch_state wk) (steal_locality_counters wk).
Definition set_preferred_fast_stealer_count x wk : Worker :=
  mkWorker (preferred_heap_stealer_count wk) x (global_ready_buffer wk) (steal_batch_size wk) (cancel_streak wk) (ready_dispatch_streak wk) (browser_ready_handoff_limit wk) (cancel_streak_limit wk) (adaptive_cancel_policy wk) (preemption_metrics wk) (fast_queue_dispatch_streak wk) (fast_queue_fairness_limit wk) (timed_dispatch_streak wk) (timed_fairness_limit wk) (adaptive_batch_profile wk) (adaptive_batch_state wk) (steal_locality_counters wk).
Definition set_global_ready_buffer x wk : Worker :=
  mkWorker (preferred_heap_stealer_count wk) (preferred_fast_stealer_count wk) x (steal_batch_size wk) (cancel_streak wk) (ready_dispatch_streak wk) (browser_ready_handoff_limit wk) (cancel_streak_limit wk) (adaptive_cancel_policy wk) (preemption_metrics wk) (fast_queue_dispatch_streak wk) (fast_queue_fairness_limit wk) (timed_dispatch_streak wk) (timed_fairness_limit wk) (adaptive_batch_profile wk) (adaptive_batch_state wk) (steal_locality_counters wk).
Definition set_steal_batch_size x wk : Worker :=
  mkWorker (preferred_heap_stealer_count wk) (preferred_fast_stealer_count wk) (global_ready_buffer wk) x (cancel_streak wk) (ready_dispatch_streak wk) (browser_ready_handoff_limit wk) (cancel_streak_limit wk) (adaptive_cancel_policy wk) (preemption_metrics wk) (fast_queue_dispatch_streak wk) (fast_queue_fairness_limit wk) (timed_dispatch_streak wk) (timed_fairness_limit wk) (adaptive_batch_profile wk) (adaptive_batch_state wk) (steal_locality_counters wk).
Definition set_cancel_streak x wk : Worker :=
  mkWorker (preferred_heap_stealer_count wk) (preferred_fast_stealer_count wk) (global_ready_buffer wk) (steal_batch_size wk) x (ready_dispatch_streak wk) (browser_ready_handoff_limit wk) (cancel_streak_limit wk) (adaptive_cancel_policy wk) (preemption_metrics wk) (fast_queue_dispatch_streak wk) (fast_queue_fairness_limit wk) (timed_dispatch_streak wk) (timed_fairness_limit wk) (adaptive_batch_profile wk) (adaptive_batch_state wk) (steal_locality_counters wk).
Definition set_ready_dispatch_streak x wk : Worker :=
  mkWorker (preferred_heap_stealer_count wk) (preferred_fast_stealer_count wk) (global_ready_buffer wk) (steal_batch_size wk) (cancel_streak wk) x (browser_ready_handoff_limit wk) (cancel_streak_limit wk) (adaptive_cancel_policy wk) (preemption_metrics wk) (fast_queue_dispatch_streak wk) (fast_queue_fairness_limit wk) (timed_dispatch_streak wk) (timed_fairness_limit wk) (adaptive_batch_profile wk) (adaptive_batch_state wk) (steal_locality_counters wk).
Definition set_browser_ready_handoff_limit x wk : Worker :=
  mkWorker (preferred_heap_stealer_count wk) (preferred_fast_stealer_count wk) (global_ready_buffer wk) (steal_batch_size wk) (cancel_streak wk) (ready_dispatch_streak wk) x (cancel_streak_limit wk) (adaptive_cancel_policy wk) (preemption_metrics wk) (fast_queue_dispatch_streak wk) (fast_queue_fairness_limit wk) (timed_dispatch_streak wk) (timed_fairness_limit wk) (adaptive_batch_profile wk) (adaptive_batch_state wk) (steal_locality_counters wk).
Definition set_cancel_streak_limit x wk : Worker :=
  mkWorker (preferred_heap_stealer_count wk) (preferred_fast_stealer_count wk) (global_ready_buffer wk) (steal_batch_size wk) (cancel_streak wk) (ready_dispatch_streak wk) (browser_ready_handoff_limit wk) x (adaptive_cancel_policy wk) (preemption_metrics wk) (fast_queue_dispatch_streak wk) (fast_queue_fairness_limit wk) (timed_dispatch_streak wk) (timed_fairness_limit wk) (adaptive_batch_profile wk) (adaptive_batch_state wk) (steal_locality_counters wk).
Definition set_adaptive_cancel_policy x wk : Worker :=
  mkWorker (preferred_heap_stealer_count wk) (preferred_fast_stealer_count wk) (global_ready_buffer wk) (steal_batch_size wk) (cancel_streak wk) (ready_dispatch_streak wk) (browser_ready_handoff_limit wk) (cancel_streak_limit wk) x (preemption_metrics wk) (fast_queue_dispatch_streak wk) (fast_queue_fairness_limit wk) (timed_dispatch_streak wk) (timed_fairness_limit wk) (adaptive_batch_profile wk) (adaptive_batch_state wk) (steal_locality_counters wk).
Definition set_preemption_metrics x wk : Worker :=
  mkWorker (preferred_heap_stealer_count wk) (preferred_fast_stealer_count wk) (global_ready_buffer wk) (steal_batch_size wk) (cancel_streak wk) (ready_dispatch_streak wk) (browser_ready_handoff_limit wk) (cancel_streak_limit wk) (adaptive_cancel_policy wk) x (fast_queue_dispatch_streak wk) (fast_queue_fairness_limit wk) (timed_dispatch_streak wk) (timed_fairness_limit wk) (adaptive_batch_profile wk) (adaptive_batch_state wk) (steal_locality_counters wk).
Definition set_fast_queue_dispatch_streak x wk : Worker :=
  mkWorker (preferred_heap_stealer_count wk) (preferred_fast_stealer_count wk) (global_ready_buffer wk) (steal_batch_size wk) (cancel_streak wk) (ready_dispatch_streak wk) (browser_ready_handoff_limit wk) (cancel_streak_limit wk) (adaptive_cancel_policy wk) (preemption_metrics wk) x (fast_queue_fairness_limit wk) (timed_dispatch_streak wk) (timed_fairness_limit wk) (adaptive_batch_profile wk) (adaptive_batch_state wk) (steal_locality_counters wk).
Definition set_fast_queue_fairness_limit x wk : Worker :=
  mkWorker (preferred_heap_stealer_count wk) (preferred_fast_stealer_count wk) (global_ready_buffer wk) (steal_batch_size wk) (cancel_streak wk) (ready_dispatch_streak wk) (browser_ready_handoff_limit wk) (cancel_streak_limit wk) (adaptive_cancel_policy wk) (preemption_metrics wk) (fast_queue_dispatch_streak wk) x (timed_dispatch_streak wk) (timed_fairness_limit wk) (adaptive_batch_profile wk) (adaptive_batch_state wk) (steal_locality_counters wk).
Definition set_timed_dispatch_streak x wk : Worker :=
  mkWorker (preferred_heap_stealer_count wk) (preferred_fast_stealer_count wk) (global_ready_buffer wk) (steal_batch_size wk) (cancel_streak wk) (ready_dispatch_streak wk) (browser_ready_handoff_limit wk) (cancel_streak_limit wk) (adaptive_cancel_policy wk) (preemption_metrics wk) (fast_queue_dispatch_streak wk) (fast_queue_fairness_limit wk) x (timed_fairness_limit wk) (adaptive_batch_profile wk) (adaptive_batch_state wk) (steal_locality_counters wk).
Definition set_timed_fairness_limit x wk : Worker :=
  mkWorker (preferred_heap_stealer_count wk) (preferred_fast_stealer_count wk) (global_ready_buffer wk) (steal_batch_size wk) (cancel_streak wk) (ready_dispatch_streak wk) (browser_ready_handoff_limit wk) (cancel_streak_limit wk) (adaptive_cancel_policy wk) (preemption_metrics wk) (fast_queue_dispatch_streak wk) (fast_queue_fairness_limit wk) (timed_dispatch_streak wk) x (adaptive_batch_profile wk) (adaptive_batch_state wk) (steal_locality_counters wk).
Definition set_adaptive_batch_profile x wk : Worker :=
  mkWorker (preferred_heap_stealer_count wk) (preferred_fast_stealer_count wk) (global_ready_buffer wk) (steal_batch_size wk) (cancel_streak wk) (ready_dispatch_streak wk) (browser_ready_handoff_limit wk) (cancel_streak_limit wk) (adaptive_cancel_policy wk) (preemption_metrics wk) (fast_queue_dispatch_streak wk) (fast_queue_fairness_limit wk) (timed_dispatch_streak wk) (timed_fairness_limit wk) x (adaptive_batch_state wk) (steal_locality_counters wk).
Definition set_adaptive_batch_state x wk : Worker :=
  mkWorker (preferred_heap_stealer_count wk) (preferred_fast_stealer_count wk) (global_ready_buffer wk) (steal_batch_size wk) (cancel_streak wk) (ready_dispatch_streak wk) (browser_ready_handoff_limit wk) (cancel_streak_limit wk) (adaptive_cancel_policy wk) (preemption_metrics wk) (fast_queue_dispatch_streak wk) (fast_queue_fairness_limit wk) (timed_dispatch_streak wk) (timed_fairness_limit wk) (adaptive_batch_profile wk) x (steal_locality_counters wk).
Definition set_steal_locality_counters x wk : Worker :=
  mkWorker (preferred_heap_stealer_count wk) (preferred_fast_stealer_count wk) (global_ready_buffer wk) (steal_batch_size wk) (cancel_streak wk) (ready_dispatch_streak wk) (browser_ready_handoff_limit wk) (cancel_streak_limit wk) (adaptive_cancel_policy wk) (preemption_metrics wk) (fast_queue_dispatch_streak wk) (fast_queue_fairness_limit wk) (timed_dispatch_streak wk) (timed_fairness_limit wk) (adaptive_batch_profile wk) (adaptive_batch_state wk) x.

(** [counter += 1] on a [u64]: wraps without overflow checks. *)
Definition bump (n : N) : N := wrapping_add u64_MAX n 1.
Definition on_metrics (f : PreemptionMetrics → PreemptionMetrics) wk : Worker := set_preemption_metrics (f (preemption_metrics wk)) wk.

(** ** Streaks and metrics *)

Definition record_cancel_dispatch wk (base_limit effective_limit : N) : Worker :=
  let wk := on_metrics (λ m, set_cancel_dispatches (bump (cancel_dispatches m)) m) wk in
  let wk := if max_cancel_streak (preemption_metrics wk) <? cancel_streak wk then on_metrics (set_max_cancel_streak (cancel_streak wk)) wk else wk in
  let wk := if base_limit <? cancel_streak wk then on_metrics (λ m, set_base_limit_exceedances (bump (base_limit_exceedances m)) m) wk else wk in
  let wk := if effective_limit <? cancel_streak wk then on_metrics (λ m, set_effective_limit_exceedances (bump (effective_limit_exceedances m)) m) wk else wk in
  set_timed_dispatch_streak 0 wk.

Definition record_timed_dispatch wk : Worker :=
  let wk := if max_timed_dispatch_stall (preemption_metrics wk) <? cancel_streak wk then on_metrics (set_max_timed_dispatch_stall (cancel_streak wk)) wk else wk in
  on_metrics (λ m, set_timed_dispatches (bump (timed_dispatches m)) m) (set_ready_dispatch_streak 0 (set_cancel_streak 0 wk)).

Definition record_ready_dispatch wk : Worker :=
  let wk := if max_ready_dispatch_stall (preemption_metrics wk) <? cancel_streak wk then on_metrics (set_max_ready_dispatch_stall (cancel_streak wk)) wk else wk in
  let wk := set_ready_dispatch_streak (saturating_add usize_MAX (ready_dispatch_streak wk) 1) (set_cancel_streak 0 wk) in
  on_metrics (λ m, set_ready_dispatches (bump (ready_dispatches m)) m) (set_timed_dispatch_streak 0 wk).

Definition record_ready_priority_inversion wk (blocked_task : option (TaskId * N)) (executing_priority : option N) : Worker :=
  match blocked_task, executing_priority with
  | Some (_, blocked_priority), Some executing_priority =>
      if blocked_priority <=? executing_priority then wk else
      let wk := on_metrics (λ m, set_ready_priority_inversions (bump (ready_priority_inversions m)) m) wk in
      let gap := saturating_sub blocked_priority executing_priority in
      if max_ready_priority_inversion_gap (preemption_metrics wk) <? gap then on_metrics (set_max_ready_priority_inversion_gap gap) wk else wk
  | _, _ => wk
  end.

Definition current_base_cancel_limit wk : N :=
  N.max (match adaptive_cancel_policy wk with None => cancel_streak_limit wk | Some limit => limit end) 1.

(** ** The certificate *)

Record PreemptionFairnessCertificate := mkCertificate {
  cert_base_limit : N; cert_effective_limit : N; observed_max_cancel_streak : N; cert_cancel_dispatches : N; cert_timed_dispatches : N;
  cert_ready_dispatches : N; cert_fairness_yields : N; observed_max_ready_stall_steps : N; observed_max_timed_stall_steps : N;
  cert_ready_priority_inversions : N; cert_max_ready_priority_inversion_gap : N; cert_fallback_cancel_dispatches : N;
  cert_base_limit_exceedances : N; cert_effective_limit_exceedances : N; adaptive_enabled : bool; cert_adaptive_current_limit : N;
}.
Definition preemption_fairness_certificate wk : PreemptionFairnessCertificate :=
  let m := preemption_metrics wk in
  let adaptive_current_limit := match adaptive_cancel_policy wk with None => cancel_streak_limit wk | Some limit => limit end in
  let effective_limit := N.max (N.max (max_effective_limit_observed m) adaptive_current_limit) 1 in
  mkCertificate adaptive_current_limit effective_limit (max_cancel_streak m) (cancel_dispatches m) (timed_dispatches m) (ready_dispatches m) (fairness_yields m)
    (max_ready_dispatch_stall m) (max_timed_dispatch_stall m) (ready_priority_inversions m) (max_ready_priority_inversion_gap m) (fallback_cancel_dispatches m)
    (base_limit_exceedances m) (effective_limit_exceedances m) (match adaptive_cancel_policy wk with None => false | Some _ => true end) adaptive_current_limit.
Definition ready_stall_bound_steps (c : PreemptionFairnessCertificate) : N := saturating_add usize_MAX (cert_effective_limit c) 1.
Definition observed_non_cancel_stall_steps (c : PreemptionFairnessCertificate) : N := N.max (observed_max_ready_stall_steps c) (observed_max_timed_stall_steps c).
Definition invariant_holds (c : PreemptionFairnessCertificate) : bool :=
  (cert_effective_limit_exceedances c =? 0) && (observed_max_cancel_streak c <=? cert_effective_limit c) && (cert_ready_priority_inversions c =? 0).

(** ** The size of a batch *)

Definition normalized (p : AdaptiveBatchSizingProfile) (fixed_batch_size : N) : AdaptiveBatchSizingProfile :=
  let fixed_batch_size := N.max fixed_batch_size 1 in
  let min_batch_size := N.max (min_batch_size p) 1 in
  let max_batch_size := N.max (N.max (max_batch_size p) min_batch_size) fixed_batch_size in
  mkProfile (enabled p) min_batch_size max_batch_size (scale_up_ready_depth p) (scale_up_in_flight p) (scale_up_claim_failures p) (cancel_debt_floor p) (cooldown_steps p).
Definition contention_scale_up_batch_size (p : AdaptiveBatchSizingProfile) (fixed_batch_size : N) : N :=
  let fixed_batch_size := N.min (N.max fixed_batch_size 1) (max_batch_size p) in
  if max_batch_size p <=? fixed_batch_size then fixed_batch_size else
  let headroom := saturating_sub (max_batch_size p) fixed_batch_size in
  clamp (saturating_add usize_MAX fixed_batch_size (N.max (headroom / 2) 1)) (min_batch_size p) (max_batch_size p).
Definition fixed_ready_batch_size wk : N := N.max (steal_batch_size wk) 1.

Definition batch_state_active (n : N) (s : AdaptiveBatchRuntimeState) := mkBatchState n (cooldown_remaining s) (last_combiner_claim_failures s) (last_snapshot s).
Definition batch_state_cooldown (n : N) (s : AdaptiveBatchRuntimeState) := mkBatchState (active_batch_size s) n (last_combiner_claim_failures s) (last_snapshot s).
Definition batch_state_failures (n : N) (s : AdaptiveBatchRuntimeState) := mkBatchState (active_batch_size s) (cooldown_remaining s) n (last_snapshot s).
Definition batch_state_snapshot (d : AdaptiveBatchDecisionSnapshot) (s : AdaptiveBatchRuntimeState) := mkBatchState (active_batch_size s) (cooldown_remaining s) (last_combiner_claim_failures s) (Some d).
Definition on_batch_state (f : AdaptiveBatchRuntimeState → AdaptiveBatchRuntimeState) wk : Worker := set_adaptive_batch_state (f (adaptive_batch_state wk)) wk.

(** What [select_ready_batch_decision] decides from what it has read. *)
Definition decide_batch wk (profile : AdaptiveBatchSizingProfile) (fixed_batch_size ready_depth cancel_debt claim_failures_delta max_in_flight current_in_flight : N) :
    Worker * N * AdaptiveBatchDecisionReason :=
  if 0 <? cooldown_remaining (adaptive_batch_state wk) then
    let selected := clamp (N.max (active_batch_size (adaptive_batch_state wk)) fixed_batch_size) (min_batch_size profile) (max_batch_size profile) in
    let wk := on_batch_state (λ s, batch_state_cooldown (saturating_sub (cooldown_remaining s) 1) s) wk in
    (on_metrics (λ m, set_adaptive_batch_cooldown_holds (bump (adaptive_batch_cooldown_holds m)) m) wk, selected, CooldownHold)
  else if (cancel_debt_floor profile <=? cancel_debt) && (min_batch_size profile <? fixed_batch_size) then
    let selected := min_batch_size profile in
    let wk := on_batch_state (batch_state_active selected) wk in
    (on_metrics (λ m, set_adaptive_batch_cancel_floor_hits (bump (adaptive_batch_cancel_floor_hits m)) m) wk, selected, CancelDebtFloor)
  else
    let combiner_ready := (scale_up_in_flight profile <=? max_in_flight) || (scale_up_in_flight profile <=? current_in_flight) in
    let claim_ready := scale_up_claim_failures profile <=? claim_failures_delta in
    if (scale_up_ready_depth profile <=? ready_depth) && combiner_ready && claim_ready && (fixed_batch_size <? max_batch_size profile) then
      let selected := contention_scale_up_batch_size profile fixed_batch_size in
      let wk := on_batch_state (λ s, batch_state_cooldown (cooldown_steps profile) (batch_state_active selected s)) wk in
      (on_metrics (λ m, set_adaptive_batch_scale_up_events (bump (adaptive_batch_scale_up_events m)) m) wk, selected, ReadyContentionScaleUp)
    else (on_batch_state (batch_state_active fixed_batch_size) wk, fixed_batch_size, FixedFallback).

(** ** Creation and configuration

    A worker of [new_with_options_and_task_table], what the loop does to it when it
    has slept, and the part of the scheduler's setters for each worker.  The policy
    chooses among a few limits by floating-point rewards: which is an input, as is the
    count of failed claims that a reset reads. *)

Definition DEFAULT_BROWSER_READY_HANDOFF_LIMIT : N := 0.
Definition ADAPTIVE_STREAK_ARMS : list N := [4; 8; 16; 32; 64].

Definition new_worker (worker_count limit : N) : Worker :=
  let limit := N.max limit 1 in
  let others := saturating_sub (N.max worker_count 1) 1 in
  mkWorker others others [] DEFAULT_STEAL_BATCH_SIZE 0 0 DEFAULT_BROWSER_READY_HANDOFF_LIMIT limit None
    (mkMetrics 0 0 0 0 0 0 0 0 0 0 0 0 0 0 limit 0 0 0 0 0 0) 0 4 0 6 None (mkBatchState 0 0 0 None) (mkStealCounters 0 0 0 0).

Definition parked wk : Worker := set_ready_dispatch_streak 0 (set_cancel_streak 0 wk).

Definition reset_adaptive_batch_state (failures : N) wk : Worker :=
  set_adaptive_batch_state (mkBatchState (fixed_ready_batch_size wk) 0 failures None) wk.
Definition configure_steal_batch_size (size failures : N) wk : Worker :=
  reset_adaptive_batch_state failures (set_steal_batch_size (N.max size 1) wk).
Definition configure_adaptive_batch_profile (profile : option AdaptiveBatchSizingProfile) (failures : N) wk : Worker :=
  let wk := reset_adaptive_batch_state failures (set_adaptive_batch_profile profile wk) in
  on_metrics (λ m, set_adaptive_batch_max_selected (fixed_ready_batch_size wk)
    (set_adaptive_batch_cooldown_holds 0 (set_adaptive_batch_cancel_floor_hits 0 (set_adaptive_batch_scale_up_events 0 m)))) wk.
Definition configure_browser_ready_handoff_limit (limit : N) wk : Worker :=
  let wk := set_browser_ready_handoff_limit limit wk in if limit =? 0 then set_ready_dispatch_streak 0 wk else wk.

Definition use_arm (limit : N) wk : Worker := on_metrics (set_adaptive_current_limit limit) (set_adaptive_cancel_policy (Some limit) wk).
Definition configure_adaptive_cancel_streak (enable : bool) wk : Worker :=
  if enable then match adaptive_cancel_policy wk with Some limit => use_arm limit wk | None => use_arm 16 wk end
  else on_metrics (set_adaptive_current_limit (cancel_streak_limit wk)) (set_adaptive_cancel_policy None wk).

(** An epoch of the policy closes: it selects an arm. *)
Definition adaptive_on_dispatch (arm : nat) wk : Worker :=
  match adaptive_cancel_policy wk, ADAPTIVE_STREAK_ARMS !! arm with
  | Some _, Some limit => use_arm limit wk
  | _, _ => wk
  end.

(** ** The shared queues, as one worker sees them *)

Section worker.
Context {E Q : Type} `{!Fifo PriorityTask Q}.

Record World := mkWorld {
  global : GlobalInjector Q;
  local : Scheduler;
  fast_queue : LocalQueue.LocalQueue;
  local_ready : list TaskId;
  stealers : list Scheduler;
  fast_stealers : list LocalQueue.LocalQueue;
  tasks : Arena (TaskRecord E);
}.
Implicit Types w : World.

Definition set_global x w : World :=
  mkWorld x (local w) (fast_queue w) (local_ready w) (stealers w) (fast_stealers w) (tasks w).
Definition set_local x w : World :=
  mkWorld (global w) x (fast_queue w) (local_ready w) (stealers w) (fast_stealers w) (tasks w).
Definition set_fast_queue x w : World :=
  mkWorld (global w) (local w) x (local_ready w) (stealers w) (fast_stealers w) (tasks w).
Definition set_local_ready x w : World :=
  mkWorld (global w) (local w) (fast_queue w) x (stealers w) (fast_stealers w) (tasks w).
Definition set_stealers x w : World :=
  mkWorld (global w) (local w) (fast_queue w) (local_ready w) x (fast_stealers w) (tasks w).
Definition set_fast_stealers x w : World :=
  mkWorld (global w) (local w) (fast_queue w) (local_ready w) (stealers w) x (tasks w).
Definition set_tasks x w : World :=
  mkWorld (global w) (local w) (fast_queue w) (local_ready w) (stealers w) (fast_stealers w) x.

(** What a call takes from outside. *)
Record Draws := mkDraws {
  hint_streak : N;          (* hints drawn for ties *)
  hint_ready : N;
  local_locked : bool;      (* whether a [try_lock] fails *)
}.
Record Inputs := mkInputs {
  suggestion : SchedulingSuggestion;
  now : Time.t;
  hint_lanes : N;
  hint_cancel : N;
  start_fast_preferred : N; (* where a scan of victims starts *)
  start_fast_remote : N;
  start_heap_preferred : N;
  start_heap_remote : N;
  local_ready_locked : bool;
  stealer_locked : N → bool;
  early : Draws;            (* for the ready phase past the timed limit, and in its place *)
  late : Draws;
}.
Implicit Types (i : Inputs) (d : Draws).

(** Steps of the worker: they may run out of fuel or panic only where the scheduler
    they use does. *)
Definition step (A : Type) : Type := prog World (run A).
Definition ok {A} (p : prog World A) : step A := prog_then p (λ a, Ret (Returns a)).
Definition andthen {A B} (p : step A) (k : A → step B) : step B :=
  prog_then p (λ r, match r with Returns a => k a | Panicked => Ret Panicked | OutOfFuel => Ret OutOfFuel end).
Local Notation "x <~ p ; q" := (andthen p (λ x, q)) (at level 100, p at level 99, q at level 200, right associativity).
Local Notation "' x <~ p ; q" := (andthen p (λ x, q)) (at level 100, x strict pattern, p at level 99, q at level 200, right associativity).

Definition on_global {A} (p : prog (GlobalInjector Q) A) : step A := ok (zoom global set_global p).
Definition on_local {A} (f : Scheduler → run (Scheduler * A)) : step A :=
  act (λ w, match f (local w) with Returns (s, a) => (set_local s w, Returns a) | Panicked => (w, Panicked) | OutOfFuel => (w, OutOfFuel) end).
Definition look_local {A} (f : Scheduler → Scheduler * A) : step A := on_local (λ s, Returns (f s)).

(** [LocalQueue::pop]: the length is read before the lock is taken. *)
Definition pop_fast : step (option TaskId) :=
  n <~ ok (load (λ w, LocalQueue.cached_len (fast_queue w)));
  if n =? 0 then Ret (Returns None) else
  ok (act (λ w, let '(q, r) := LocalQueue.pop_locked (fast_queue w) in (set_fast_queue q w, r))).
Definition pop_local_ready : step (option TaskId) :=
  ok (act (λ w, match local_ready w with [] => (w, None) | t :: l => (set_local_ready l w, Some t) end)).

(** A phase dispatches a task or leaves it to the next. *)
Definition or_else (p : step (Worker * option TaskId)) (k : Worker → step (Worker * option TaskId)) : step (Worker * option TaskId) :=
  '(wk, r) <~ p; match r with Some t => Ret (Returns (wk, Some t)) | None => k wk end.
Definition dispatched wk (t : TaskId) : step (Worker * option TaskId) := Ret (Returns (wk, Some t)).
Definition nothing wk : step (Worker * option TaskId) := Ret (Returns (wk, None)).

(** ** The ready phase *)

Definition cancel_debt_signal : step N :=
  g <~ on_global cancel_count; l <~ look_local (λ s, (s, approx_cancel_len s)); Ret (Returns (saturating_add usize_MAX g l)).

Definition select_ready_batch_decision wk : step (Worker * AdaptiveBatchDecisionSnapshot) :=
  let fixed_batch_size := fixed_ready_batch_size wk in
  ready_depth <~ on_global ready_count;
  combiner <~ on_global ready_combiner_snapshot;
  cancel_debt <~ cancel_debt_signal;
  let claim_failures_delta := saturating_sub (snap_combiner_claim_failures combiner) (last_combiner_claim_failures (adaptive_batch_state wk)) in
  let wk := on_batch_state (batch_state_failures (snap_combiner_claim_failures combiner)) wk in
  let '(wk, selected, reason) :=
    match adaptive_batch_profile wk with
    | Some profile =>
        let profile := normalized profile fixed_batch_size in
        if enabled profile then
          decide_batch wk profile fixed_batch_size ready_depth cancel_debt claim_failures_delta (snap_max_in_flight combiner) (snap_current_in_flight combiner)
        else (wk, fixed_batch_size, Disabled)
    | None => (wk, fixed_batch_size, Disabled)
    end in
  let wk := on_metrics (λ m, set_adaptive_batch_max_selected (N.max (adaptive_batch_max_selected m) selected) m) wk in
  let snapshot := mkDecision selected fixed_batch_size ready_depth cancel_debt (N.max (snap_max_in_flight combiner) (snap_current_in_flight combiner)) claim_failures_delta reason in
  Ret (Returns (on_batch_state (batch_state_snapshot snapshot) wk, snapshot)).

(** [buffer.pop()] *)
Definition pop_buffer wk : Worker * option PriorityTask :=
  match last (global_ready_buffer wk) with
  | Some t => (set_global_ready_buffer (removelast (global_ready_buffer wk)) wk, Some t)
  | None => (wk, None)
  end.

Definition take_global_ready_task wk : step (Worker * option PriorityTask) :=
  match pop_buffer wk with
  | (wk, Some prefetched) => Ret (Returns (wk, Some prefetched))
  | (wk, None) =>
      '(wk, decision) <~ select_ready_batch_decision wk;
      let batch_size := N.max (selected_batch_size decision) 1 in
      let batch_threshold := N.max (saturating_mul usize_MAX batch_size 2) GLOBAL_READY_BATCH_DRAIN_MIN_DEPTH in
      drained <~ (if 1 <? batch_size then
                    depth <~ on_global ready_count;
                    if batch_threshold <=? depth then
                      '(n, buffer) <~ on_global (pop_ready_batch_into batch_size []);
                      Ret (Returns (Some (n, buffer)))
                    else Ret (Returns None)
                  else Ret (Returns None));
      let wk := match drained with Some (_, buffer) => set_global_ready_buffer buffer wk | None => wk end in
      match drained with
      | Some (n, buffer) =>
          if 0 <? n then
            let wk := set_global_ready_buffer (rev buffer) wk in
            let wk := on_metrics (λ m, set_global_ready_batch_tasks (wrapping_add u64_MAX (global_ready_batch_tasks m) n) (set_global_ready_batch_drains (bump (global_ready_batch_drains m)) m)) wk in
            Ret (Returns (pop_buffer wk))
          else t <~ on_global pop_ready; Ret (Returns (wk, t))
      | None => t <~ on_global pop_ready; Ret (Returns (wk, t))
      end
  end.

Definition peek_blocked_local_ready_for_inversion d : step (option (TaskId * N)) :=
  if local_locked d then Ret (Returns None) else look_local peek_ready_task.
Definition task_sched_priority (task : TaskId) : step (option N) :=
  ok (load (λ w, sched_priority <$> Arena.get (tasks w) (task_arena_index task))).

(** The local ready lane, first or last depending on the streak of stolen work. *)
Definition pop_local_lane wk (hint : N) : step (Worker * option TaskId) :=
  t <~ on_local (λ s, pop_ready_only_with_hint s hint);
  match t with
  | Some task => dispatched (set_fast_queue_dispatch_streak 0 (record_ready_dispatch wk)) task
  | None => nothing wk
  end.

Definition try_phase3_ready_work d wk : step (Worker * option TaskId) :=
  pinned <~ pop_local_ready;
  match pinned with
  | Some task => dispatched (set_fast_queue_dispatch_streak 0 (record_ready_dispatch wk)) task
  | None =>
      let should_prioritize_local := fast_queue_fairness_limit wk <=? fast_queue_dispatch_streak wk in
      or_else (if should_prioritize_local then pop_local_lane wk (hint_streak d) else nothing wk) (λ wk,
      fast <~ pop_fast;
      match fast with
      | Some task =>
          blocked <~ peek_blocked_local_ready_for_inversion d;
          wk <~ match blocked with
                | Some _ => priority <~ task_sched_priority task; Ret (Returns (record_ready_priority_inversion wk blocked priority))
                | None => Ret (Returns wk)
                end;
          let wk := record_ready_dispatch wk in
          dispatched (set_fast_queue_dispatch_streak (wrapping_add usize_MAX (fast_queue_dispatch_streak wk) 1) wk) task
      | None =>
          '(wk, shared) <~ take_global_ready_task wk;
          match shared with
          | Some pt =>
              blocked <~ peek_blocked_local_ready_for_inversion d;
              let wk := record_ready_priority_inversion wk blocked (Some (pt_priority pt)) in
              dispatched (set_fast_queue_dispatch_streak 0 (record_ready_dispatch wk)) (pt_task pt)
          | None => if should_prioritize_local then nothing wk else pop_local_lane wk (hint_ready d)
          end
      end)
  end.

(** ** Stealing *)

Definition count_steal (fast preferred : bool) wk : Worker :=
  let c := steal_locality_counters wk in
  set_steal_locality_counters
    (match fast, preferred with
     | true, true => mkStealCounters (bump (preferred_fast_steals c)) (remote_fast_steals c) (preferred_heap_steals c) (remote_heap_steals c)
     | true, false => mkStealCounters (preferred_fast_steals c) (bump (remote_fast_steals c)) (preferred_heap_steals c) (remote_heap_steals c)
     | false, true => mkStealCounters (preferred_fast_steals c) (remote_fast_steals c) (bump (preferred_heap_steals c)) (remote_heap_steals c)
     | false, false => mkStealCounters (preferred_fast_steals c) (remote_fast_steals c) (preferred_heap_steals c) (bump (remote_heap_steals c))
     end) wk.

(** [fast_stealers[idx].steal()]. *)
Definition steal_fast (idx : N) : step (option TaskId) :=
  ok (act (λ w, match fast_stealers w !! N.to_nat idx with
                | Some q => let '(q, r) := LocalQueue.steal (tasks w) q in (set_fast_stealers (<[N.to_nat idx := q]> (fast_stealers w)) w, r)
                | None => (w, None)
                end)).

(** A segment of victims, from a start and around. *)
Fixpoint scan_segment (probe : N → step (option TaskId)) (first len start : N) (n : nat) (k : N) : step (option TaskId) :=
  match n with
  | O => Ret (Returns None)
  | S n => r <~ probe (first + (start + k) mod len); match r with Some t => Ret (Returns (Some t)) | None => scan_segment probe first len start n (k + 1) end
  end.
Definition scan_victims (probe : N → step (option TaskId)) (first len start : N) : step (option TaskId) :=
  if len =? 0 then Ret (Returns None) else scan_segment probe first len (start mod len) (N.to_nat len) 0.

Fixpoint schedule_all (l : list (TaskId * N)) (s : Scheduler) : run Scheduler :=
  match l with [] => Returns s | (task, priority) :: l => s ← schedule s task priority; schedule_all l s end.
Fixpoint push_fast_all (l : list TaskId) : step unit :=
  match l with [] => Ret (Returns ()) | t :: l => _ <~ ok (modify (λ w, set_fast_queue (LocalQueue.push (fast_queue w) t) w)); push_fast_all l end.

(** A victim's scheduler: a batch is taken, the first task is dispatched and the rest
    goes to the local ready lane if that has work, else to the local queue. *)
Definition steal_heap i (batch : N) (idx : N) : step (option TaskId) :=
  if stealer_locked i idx then Ret (Returns None) else
  stolen <~ ok (act (λ w, match stealers w !! N.to_nat idx with
                          | Some s => let '(s, n, out) := steal_ready_batch_into s batch in (set_stealers (<[N.to_nat idx := s]> (stealers w)) w, out)
                          | None => (w, [])
                          end));
  match stolen with
  | [] => Ret (Returns None)
  | (first_task, _) :: rest =>
      match rest with
      | [] => Ret (Returns (Some first_task))
      | _ =>
          busy <~ look_local peek_ready_priority;
          match busy with
          | Some _ => _ <~ on_local (λ s, s ← schedule_all rest s; Returns (s, ())); Ret (Returns (Some first_task))
          | None => _ <~ push_fast_all (rev rest.*1); Ret (Returns (Some first_task))
          end
      end
  end.

Definition try_steal i wk : step (Worker * option TaskId) :=
  fast_count <~ ok (load (λ w, lenN (fast_stealers w)));
  heap_count <~ ok (load (λ w, lenN (stealers w)));
  let preferred_len := N.min (preferred_fast_stealer_count wk) fast_count in
  or_else (r <~ scan_victims steal_fast 0 preferred_len (start_fast_preferred i); Ret (Returns (match r with Some _ => count_steal true true wk | None => wk end, r))) (λ wk,
  or_else (r <~ scan_victims steal_fast preferred_len (saturating_sub fast_count preferred_len) (start_fast_remote i); Ret (Returns (match r with Some _ => count_steal true false wk | None => wk end, r))) (λ wk,
  let preferred_len := N.min (preferred_heap_stealer_count wk) heap_count in
  or_else (r <~ scan_victims (steal_heap i (steal_batch_size wk)) 0 preferred_len (start_heap_preferred i); Ret (Returns (match r with Some _ => count_steal false true wk | None => wk end, r))) (λ wk,
  r <~ scan_victims (steal_heap i (steal_batch_size wk)) preferred_len (saturating_sub heap_count preferred_len) (start_heap_remote i); Ret (Returns (match r with Some _ => count_steal false false wk | None => wk end, r))))).

(** ** Choosing the next task *)

Definition should_force_ready_handoff i wk : step bool :=
  let limit := browser_ready_handoff_limit wk in
  if (limit =? 0) || (ready_dispatch_streak wk <? limit) then Ret (Returns false) else
  fast <~ ok (load (λ w, LocalQueue.is_empty (fast_queue w)));
  if negb fast then Ret (Returns true) else
  if negb (match global_ready_buffer wk with [] => true | _ => false end) then Ret (Returns true) else
  shared <~ on_global Injector.has_ready_work;
  if (shared : bool) then Ret (Returns true) else
  pinned <~ (if local_ready_locked i then Ret (Returns false) else ok (load (λ w, match local_ready w with [] => false | _ => true end)));
  if (pinned : bool) then Ret (Returns true) else
  look_local Priority.has_ready_work.

Definition try_cancel_work i : step (option TaskId) :=
  shared <~ on_global pop_cancel;
  match shared with
  | Some pt => Ret (Returns (Some (pt_task pt)))
  | None => on_local (λ s, pop_cancel_only_with_hint s (hint_cancel i))
  end.

(** A task that a cancel lane or a timed lane gave, if any, is dispatched as such. *)
Definition dispatch_cancel wk (base_limit effective_limit : N) (r : option TaskId) : step (Worker * option TaskId) :=
  match r with
  | Some task => dispatched (record_cancel_dispatch (set_ready_dispatch_streak 0 (set_cancel_streak (wrapping_add usize_MAX (cancel_streak wk) 1) wk)) base_limit effective_limit) task
  | None => nothing wk
  end.
Definition dispatch_timed wk (track : bool) (r : option TaskId) : step (Worker * option TaskId) :=
  match r with
  | Some task =>
      let wk := record_timed_dispatch wk in
      dispatched (if track then set_timed_dispatch_streak (wrapping_add usize_MAX (timed_dispatch_streak wk) 1) wk else wk) task
  | None => nothing wk
  end.

Definition global_cancel wk base_limit effective_limit : step (Worker * option TaskId) :=
  r <~ on_global pop_cancel; dispatch_cancel wk base_limit effective_limit (pt_task <$> r).
Definition local_cancel i wk base_limit effective_limit : step (Worker * option TaskId) :=
  r <~ on_local (λ s, pop_cancel_only_with_hint s (hint_lanes i)); dispatch_cancel wk base_limit effective_limit r.
Definition global_timed i wk track : step (Worker * option TaskId) :=
  r <~ on_global (pop_timed_if_due (now i)); dispatch_timed wk track (tt_task <$> r).
Definition local_timed i wk track : step (Worker * option TaskId) :=
  r <~ on_local (λ s, pop_timed_only_with_hint s (hint_lanes i) (now i)); dispatch_timed wk track r.

Definition is_meet_deadlines (s : SchedulingSuggestion) : bool := match s with MeetDeadlines => true | _ => false end.
Definition effective_limit_of (s : SchedulingSuggestion) (base_limit : N) : N :=
  match s with DrainObligations | DrainRegions => saturating_mul usize_MAX base_limit 2 | _ => base_limit end.

(** Phases 1 and 2: the cancel and timed lanes in the order of the suggestion. *)
Definition priority_lanes i wk (base_limit effective_limit : N) (check_cancel check_timed : bool) : step (Worker * option TaskId) :=
  let cancel (p : Worker → step (Worker * option TaskId)) wk := if check_cancel then p wk else nothing wk in
  if is_meet_deadlines (suggestion i) && check_timed then
    or_else (global_timed i wk true) (λ wk,
    or_else (local_timed i wk true) (λ wk,
    or_else (cancel (λ wk, global_cancel wk base_limit effective_limit) wk) (λ wk,
    cancel (λ wk, local_cancel i wk base_limit effective_limit) wk)))
  else
    or_else (cancel (λ wk, global_cancel wk base_limit effective_limit) wk) (λ wk,
    or_else (cancel (λ wk, local_cancel i wk base_limit effective_limit) wk) (λ wk,
    or_else (global_timed i wk false) (λ wk,
    local_timed i wk false))).

(** Phase 5: nothing else had work, so the streak may be exceeded by one. *)
Definition fallback_cancel i wk (base_limit effective_limit : N) (check_cancel : bool) : step (Worker * option TaskId) :=
  if check_cancel then nothing (set_ready_dispatch_streak 0 wk) else
  r <~ try_cancel_work i;
  match r with
  | Some task =>
      let wk := on_metrics (λ m, set_fallback_cancel_dispatches (bump (fallback_cancel_dispatches m)) m) wk in
      dispatched (record_cancel_dispatch (set_ready_dispatch_streak 0 (set_cancel_streak 1 wk)) base_limit effective_limit) task
  | None => nothing (set_ready_dispatch_streak 0 (set_cancel_streak 0 wk))
  end.

Definition next_task i wk : step (Worker * option TaskId) :=
  let base_limit := current_base_cancel_limit wk in
  let wk := on_metrics (set_adaptive_current_limit base_limit) wk in
  let effective_limit := effective_limit_of (suggestion i) base_limit in
  let wk := if max_effective_limit_observed (preemption_metrics wk) <? effective_limit then on_metrics (set_max_effective_limit_observed effective_limit) wk else wk in
  let check_cancel := cancel_streak wk <? effective_limit in
  let yield wk := on_metrics (λ m, set_fairness_yields (bump (fairness_yields m)) m) wk in
  let wk := if check_cancel then wk else yield wk in
  let check_timed := timed_dispatch_streak wk <? timed_fairness_limit wk in
  or_else (if negb check_timed && is_meet_deadlines (suggestion i) then
             '(wk, r) <~ try_phase3_ready_work (early i) wk;
             match r with Some task => dispatched (set_timed_dispatch_streak 0 wk) task | None => nothing (yield wk) end
           else nothing wk) (λ wk,
  or_else (priority_lanes i wk base_limit effective_limit check_cancel check_timed) (λ wk,
  force <~ should_force_ready_handoff i wk;
  if (force : bool) then
    let wk := on_metrics (λ m, set_browser_ready_handoff_yields (bump (browser_ready_handoff_yields m)) m) wk in
    nothing (set_ready_dispatch_streak 0 (set_cancel_streak 0 wk))
  else
  or_else (try_phase3_ready_work (late i) wk) (λ wk,
  or_else ('(wk, r) <~ try_steal i wk; match r with Some task => dispatched (record_ready_dispatch wk) task | None => nothing wk end) (λ wk,
  fallback_cancel i wk base_limit effective_limit check_cancel)))).

End worker.

End ThreeLane.
