(* ===== verification/ThreeLaneTrace.v ===== *)
(** * Where a worker takes its tasks from

    A call of [next_task] is a sequence of accesses to the shared queues.  Here the
    lane a dispatched task came from is read off these accesses, by what each found and
    what it left in the queues, and not off the worker's own counters; and each phase of
    a call is shown to leave alone the lanes that it does not serve. *)

From S2P Require Import Prelude Ids Arena Task Heap ScheduledSet Priority PriorityThms Atomic GlobalQueue Injector LocalQueue ThreeLane.
Import Injector ThreeLane.

Section sources.
Context {E Q : Type} `{!Fifo PriorityTask Q, !FifoLaws PriorityTask Q}.
Local Notation World := (@World E Q).
Implicit Types (w : World) (wk : Worker) (i : Inputs).

(** ** The lane of a dispatched task *)

(** A queue had an entry of the task and is shorter afterwards. *)
Definition lost {X} (task_of : X → TaskId) (l l' : list X) (t : TaskId) : bool :=
  existsb (λ x, bool_decide (task_of x = t)) l && (length l' <? length l)%nat.
(** The task was scheduled and is not any more. *)
Definition unscheduled (s s' : Scheduler) (t : TaskId) : bool := contains (scheduled s) t && negb (contains (scheduled s') t).

Definition cancel_items w : list PriorityTask := fifo_view (Faa.inner (cancel_queue (global w))).
Definition timed_items w : list TimedTask := heap (timed_queue (global w)).
Definition fast_items w : list TaskId := LocalQueue.queue (fast_queue w).

(** An access that takes the task out of a cancel lane, the global or the local one; out
    of a timed lane; out of the stealable queue of the worker. *)
Definition from_cancel w w' (t : TaskId) : bool :=
  lost pt_task (cancel_items w) (cancel_items w') t ||
  lost e_task (cancel_lane (local w)) (cancel_lane (local w')) t && unscheduled (local w) (local w') t.
Definition from_timed w w' (t : TaskId) : bool :=
  lost tt_task (timed_items w) (timed_items w') t ||
  lost t_task (timed_lane (local w)) (timed_lane (local w')) t && unscheduled (local w) (local w') t.
Definition from_fast w w' (t : TaskId) : bool := lost (λ x, x) (fast_items w) (fast_items w') t.

(** One of the accesses of a call takes the task. *)
Definition takes (K : World → World → TaskId → bool) (l : list (World * World)) (t : TaskId) : bool :=
  existsb (λ x, K x.1 x.2 t) l.

(** ** Accesses that leave lanes alone *)

Definition cancel_kept w w' : Prop := cancel_items w' = cancel_items w ∧ cancel_lane (local w') = cancel_lane (local w).
Definition timed_kept w w' : Prop := timed_items w' = timed_items w ∧ timed_lane (local w') = timed_lane (local w).
Definition fast_kept w w' : Prop := (length (fast_items w) ≤ length (fast_items w'))%nat.
Definition lanes_kept w w' : Prop := cancel_kept w w' ∧ timed_kept w w'.

Lemma lost_not {X} (f : X → TaskId) (l l' : list X) t : (length l ≤ length l')%nat → lost f l l' t = false.
Proof. intros Hl. unfold lost. rewrite (proj2 (Nat.ltb_ge _ _) Hl). apply andb_false_r. Qed.

Lemma cancel_kept_not w w' t : cancel_kept w w' → from_cancel w w' t = false.
Proof. intros [H1 H2]. unfold from_cancel. by rewrite H1, H2, !lost_not. Qed.
Lemma timed_kept_not w w' t : timed_kept w w' → from_timed w w' t = false.
Proof. intros [H1 H2]. unfold from_timed. by rewrite H1, H2, !lost_not. Qed.
Lemma fast_kept_not w w' t : fast_kept w w' → from_fast w w' t = false.
Proof. intros Hl. by apply lost_not. Qed.

(** [keeps R p]: every access of [p] leaves the queues as [R] says. *)
Definition keeps {A} (R : World → World → Prop) (p : prog World A) : Prop := never (λ w w', ¬ R w w') p.

Lemma keeps_mono {A} (R R' : World → World → Prop) (p : prog World A) : (∀ w w', R w w' → R' w w') → keeps R p → keeps R' p.
Proof. intros HR. unfold keeps. induction p as [a|f k IH]; [done|]. intros Hp w. destruct (Hp w) as [H1 H2]. split; [naive_solver|by apply IH]. Qed.

Lemma keeps_quiet {A} R K G (p : prog World A) l a : (∀ w w' t, R w w' → K w w' t = false) → keeps R p → trace G p l a → ∀ t, takes K l t = false.
Proof.
  intros HK Hp Ht t. pose proof (never_trace _ _ _ _ _ Hp Ht) as Hf. clear Ht. unfold takes. induction Hf as [|x l Hx _ IH]; [done|]. simpl.
  destruct (K x.1 x.2 t) eqn:Ek; [|apply IH]. exfalso. apply Hx. intros HR. by rewrite (HK _ _ _ HR) in Ek.
Qed.

Section keeping.
Context (R : World → World → Prop) (Rrefl : ∀ w, R w w).

Lemma keeps_ok {A} (p : prog World A) : keeps R p → keeps R (ok p).
Proof. intros Hp. by apply never_bind. Qed.
Lemma keeps_andthen {A B} (p : step A) (k : A → step B) : keeps R p → (∀ a, keeps R (k a)) → keeps R (andthen p k).
Proof. intros Hp Hk. apply never_bind; [done|]. intros [a| |]; [apply Hk|done|done]. Qed.
Lemma keeps_or_else (p : step (Worker * option TaskId)) k : keeps R p → (∀ wk, keeps R (k wk)) → keeps R (or_else p k).
Proof. intros Hp Hk. apply keeps_andthen; [done|]. intros [wk [t|]]; [done|apply Hk]. Qed.
Lemma keeps_load {A} (f : World → A) : keeps R (ok (load f)).
Proof. apply keeps_ok, never_load. intros w H. by apply H. Qed.
Lemma keeps_act {A} (f : World → World * A) : (∀ w, R w (f w).1) → keeps R (act f).
Proof. intros Hf. apply never_act. intros w H. by apply H. Qed.
Lemma keeps_local {A} (f : Scheduler → run (Scheduler * A)) :
  (∀ w s a, f (local w) = Returns (s, a) → R w (set_local s w)) → keeps R (on_local f).
Proof. intros Hf. apply keeps_act. intros w. destruct (f (local w)) as [[s a]| |] eqn:Ef; [by eapply Hf|apply Rrefl..]. Qed.
Lemma keeps_look {A} (f : Scheduler → Scheduler * A) : (∀ w, R w (set_local (f (local w)).1 w)) → keeps R (look_local f).
Proof. intros Hf. apply keeps_local. intros w s a H. cbn beta in H. specialize (Hf w). injection H as H. rewrite H in Hf. exact Hf. Qed.
Lemma keeps_global {A} (p : prog (GlobalInjector Q) A) (RG : GlobalInjector Q → GlobalInjector Q → Prop) :
  (∀ g w, RG (global w) g → R w (set_global g w)) → never (λ g g', ¬ RG g g') p → keeps R (on_global p).
Proof. intros HR Hp. apply keeps_ok. eapply never_zoom; [|exact Hp]. intros g w Hn HRG. by apply Hn, HR. Qed.

End keeping.

(** Steps of the injector that touch neither its cancel queue nor its timed one. *)
Definition shared_kept (g g' : GlobalInjector Q) : Prop := cancel_queue g' = cancel_queue g ∧ timed_queue g' = timed_queue g.

Lemma ready_shared {A} (p : prog (Faa.FaaFifoQueue Q) A) : never (λ g g', ¬ shared_kept g g') (on_ready p).
Proof. apply (never_zoom _ _ _ (λ _ _, False)); [intros q g H; by apply H|apply never_none; by intros w w' H]. Qed.
Lemma combiner_shared {A} (p : prog ReadyCombiner A) : never (λ g g', ¬ shared_kept g g') (on_combiner p).
Proof. apply (never_zoom _ _ _ (λ _ _, False)); [intros q g H; by apply H|apply never_none; by intros w w' H]. Qed.
Lemma cancel_count_shared : never (λ g g', ¬ shared_kept g g') cancel_count.
Proof.
  apply (never_zoom _ _ _ (λ q q', q' ≠ q)); [|apply never_load; tauto]. intros q g Hn ->. apply Hn. by destruct g.
Qed.
Lemma snapshot_shared : never (λ g g', ¬ shared_kept g g') ready_combiner_snapshot.
Proof. apply never_bind; [apply ready_shared|]. intros n. apply combiner_shared. Qed.
Lemma has_ready_shared : never (λ g g', ¬ shared_kept g g') Injector.has_ready_work.
Proof. apply never_bind; [apply ready_shared|]. done. Qed.

(** What a phase must leave alone: here the lanes, or the stealable queue. *)
Definition lanes_rel w w' : Prop := lanes_kept w w' ∧ fast_kept w w'.

Lemma lanes_refl w : lanes_rel w w.
Proof. split; [by split; split|]. by unfold fast_kept. Qed.
Lemma lanes_other w w' : global w' = global w → local w' = local w → fast_queue w' = fast_queue w → lanes_rel w w'.
Proof.
  unfold lanes_rel, lanes_kept, cancel_kept, timed_kept, fast_kept, cancel_items, timed_items, fast_items. by intros -> -> ->.
Qed.
Lemma shared_lanes g w : shared_kept (global w) g → lanes_rel w (set_global g w).
Proof. intros [H1 H2]. unfold lanes_rel, lanes_kept, cancel_kept, timed_kept, fast_kept, cancel_items, timed_items, fast_items. simpl. by rewrite H1, H2. Qed.
Lemma local_lanes s w : cancel_lane s = cancel_lane (local w) → timed_lane s = timed_lane (local w) → lanes_rel w (set_local s w).
Proof. intros H1 H2. split; [by split; split|]. by unfold fast_kept. Qed.

Lemma take_ready_lanes s rng s' t b : take_ready s rng = Some (s', t, b) → cancel_lane s' = cancel_lane s ∧ timed_lane s' = timed_lane s.
Proof. unfold take_ready. intros H. repeat case_match; by simplify_eq. Qed.
Lemma pop_ready_lanes fuel s rng s' r : pop_ready_loop fuel s rng = Returns (s', r) → cancel_lane s' = cancel_lane s ∧ timed_lane s' = timed_lane s.
Proof.
  revert s. induction fuel as [|fuel IH]; intros s; cbn [pop_ready_loop]; [done|].
  destruct (take_ready s rng) as [[[s1 t] []]|] eqn:Et; [|intros H%IH|by intros [= <- _]].
  - intros [= <- _]. by eapply take_ready_lanes.
  - apply take_ready_lanes in Et as [<- <-]. done.
Qed.
Lemma schedule_lanes l s s' : schedule_all l s = Returns s' → cancel_lane s' = cancel_lane s ∧ timed_lane s' = timed_lane s.
Proof.
  revert s. induction l as [|[t p] l IH]; intros s; cbn [schedule_all]; [by intros [= <-]|]. unfold mbind, run_bind, schedule.
  destruct (insert (scheduled s) t) as [[set ins]| |]; [|done|done]. cbn [mbind run_bind].
  intros H%IH. by destruct ins.
Qed.

(** ** The phases *)

Ltac keeping := repeat lazymatch goal with
  | |- keeps _ (Ret _) => exact I
  | |- keeps _ (dispatched _ _) => exact I
  | |- keeps _ (nothing _) => exact I
  | |- keeps _ (andthen _ _) => apply keeps_andthen; [|intros ?]
  | |- keeps _ (or_else _ _) => apply keeps_or_else; [|intros ?]
  | |- keeps _ (ok (load _)) => apply keeps_load; [done || apply lanes_refl]
  | |- keeps _ (match ?x with _ => _ end) => destruct x
  end.

Lemma global_keeps {A} (p : prog (GlobalInjector Q) A) : never (λ g g', ¬ shared_kept g g') p → keeps lanes_rel (on_global p).
Proof. apply keeps_global. exact shared_lanes. Qed.

Lemma peek_keeps {A} (f : option SchedulerEntry → A) :
  keeps lanes_rel (look_local (λ s, let '(s, e) := next_valid_ready_entry s in (s, f e))).
Proof. apply keeps_look; [apply lanes_refl|]. intros w. by apply local_lanes. Qed.

Lemma ready_lane_keeps hint : keeps lanes_rel (on_local (λ s, pop_ready_only_with_hint s hint)).
Proof. apply keeps_local; [apply lanes_refl|]. intros w s a [H1 H2]%pop_ready_lanes. by apply local_lanes. Qed.

Lemma local_lane_keeps wk hint : keeps lanes_rel (pop_local_lane wk hint).
Proof. unfold pop_local_lane. keeping. apply ready_lane_keeps. Qed.

Lemma pinned_keeps : keeps lanes_rel pop_local_ready.
Proof. apply keeps_ok, keeps_act. intros w. by destruct (local_ready w); apply lanes_other. Qed.

Lemma inversion_keeps d : keeps lanes_rel (peek_blocked_local_ready_for_inversion d).
Proof. unfold peek_blocked_local_ready_for_inversion. keeping. apply (peek_keeps (λ e, (λ e, (e_task e, e_priority e)) <$> e)). Qed.

Lemma select_keeps wk : keeps lanes_rel (select_ready_batch_decision wk).
Proof.
  unfold select_ready_batch_decision, cancel_debt_signal. keeping.
  - apply global_keeps, ready_shared.
  - apply global_keeps, snapshot_shared.
  - apply global_keeps, cancel_count_shared.
  - apply keeps_look; [apply lanes_refl|]. intros w. by apply local_lanes.
Qed.

Lemma take_global_keeps wk : keeps lanes_rel (take_global_ready_task wk).
Proof.
  unfold take_global_ready_task. keeping; first [apply select_keeps|apply global_keeps, ready_shared].
Qed.

Lemma pop_fast_keeps : keeps lanes_kept pop_fast.
Proof.
  unfold pop_fast. keeping. apply keeps_ok, keeps_act. intros w. destruct (LocalQueue.pop_locked _). by split; split.
Qed.

Lemma kept_lanes w w' : lanes_rel w w' → lanes_kept w w'.
Proof. by intros [? _]. Qed.

(** The ready phase serves neither cancelled nor timed work. *)
Lemma phase3_keeps d wk : keeps lanes_kept (try_phase3_ready_work d wk).
Proof.
  unfold try_phase3_ready_work, task_sched_priority. keeping;
    first [apply pop_fast_keeps|eapply keeps_mono; [exact kept_lanes|]];
    first [apply pinned_keeps|apply local_lane_keeps|apply inversion_keeps|apply take_global_keeps|idtac].
Qed.

Lemma push_fast_keeps l : keeps lanes_rel (push_fast_all l).
Proof.
  induction l as [|t l IH]; [done|]. cbn [push_fast_all]. keeping; [|exact IH]. apply keeps_ok. intros w. split; [|done]. intros Hn. apply Hn.
  split; [done|]. unfold fast_kept, fast_items. simpl. unfold LocalQueue.push, LocalQueue.published, LocalQueue.push_inner. simpl.
  repeat case_match; simplify_eq/=; rewrite ?length_app; simpl; lia.
Qed.

Lemma steal_heap_keeps i batch idx : keeps lanes_rel (steal_heap i batch idx).
Proof.
  unfold steal_heap. keeping.
  - apply keeps_ok, keeps_act. intros w. destruct (stealers w !! _) as [s|]; [|apply lanes_refl]. destruct (steal_ready_batch_into s batch) as [[? ?] ?]. by apply lanes_other.
  - apply (peek_keeps (λ e, e_priority <$> e)).
  - apply keeps_local; [apply lanes_refl|]. unfold mbind, run_bind. intros w s u Hs. destruct (schedule_all _ _) as [s1| |] eqn:Es; simplify_eq.
    apply schedule_lanes in Es as [H1 H2]. by apply local_lanes.
  - apply push_fast_keeps.
Qed.

Lemma scan_keeps (probe : N → step (option TaskId)) first len start : (∀ idx, keeps lanes_rel (probe idx)) → keeps lanes_rel (scan_victims probe first len start).
Proof.
  intros Hp. unfold scan_victims. destruct (len =? 0); [done|]. generalize (N.to_nat len) as n. generalize 0 as k. intros k n. revert k.
  induction n as [|n IH]; intros k; [done|]. cbn [scan_segment]. keeping; [apply Hp|apply IH].
Qed.

Lemma steal_fast_keeps idx : keeps lanes_rel (steal_fast idx).
Proof. apply keeps_ok, keeps_act. intros w. destruct (fast_stealers w !! _) as [q|]; [|apply lanes_refl]. destruct (LocalQueue.steal _ q). by apply lanes_other. Qed.

Lemma try_steal_keeps i wk : keeps lanes_rel (try_steal i wk).
Proof. unfold try_steal. keeping; apply scan_keeps; [apply steal_fast_keeps..|apply steal_heap_keeps|apply steal_heap_keeps]. Qed.

Lemma handoff_keeps i wk : keeps lanes_rel (should_force_ready_handoff i wk).
Proof.
  unfold should_force_ready_handoff. keeping; [apply global_keeps, has_ready_shared|].
  apply keeps_look; [apply lanes_refl|]. intros w. unfold Priority.has_ready_work, next_valid_ready_entry. by apply local_lanes.
Qed.

(** ** Accesses that serve a lane

    [tracks K p post]: when a step takes a task of the kind [K], what it returns
    satisfies [post]. *)

Lemma takes_app K l1 l2 t : takes K (l1 ++ l2) t = takes K l1 t || takes K l2 t.
Proof. apply existsb_app. Qed.

Section tracking.
Context (G : World → Prop) (K : World → World → TaskId → bool).

Definition tracks {A} (p : step A) (post : A → Prop) : Prop := ∀ l a t, trace G p l (Returns a) → takes K l t = true → post a.

Lemma tracks_quiet {A} R (p : step A) post : (∀ w w' t, R w w' → K w w' t = false) → keeps R p → tracks p post.
Proof. intros HK Hp l a t Ht Hk. by rewrite (keeps_quiet R K G p l _ HK Hp Ht) in Hk. Qed.

Lemma tracks_mono {A} (p : step A) (post post' : A → Prop) : (∀ a, post a → post' a) → tracks p post → tracks p post'.
Proof. intros Hpp Hp l a t Ht Hk. by eapply Hpp, Hp. Qed.

Lemma tracks_bind {A B} (p : step A) (k : A → step B) mid post : tracks p mid →
  (∀ a b, mid a → may G (k a) (Returns b) → post b) → (∀ a, may G p (Returns a) → tracks (k a) post) → tracks (andthen p k) post.
Proof.
  intros Hp Hm Hk l b t Ht Htk. apply trace_bind in Ht as (l1 & l2 & r & -> & H1 & H2). destruct r as [a| |]; [|by inversion H2..].
  rewrite takes_app in Htk. apply orb_true_iff in Htk as [Htk|Htk].
  - eapply Hm; [by eapply Hp|]. by eapply trace_may.
  - eapply Hk; [by eapply trace_may|done|done].
Qed.

(** A step that takes nothing, then one that may. *)
Lemma tracks_then {A B} R (p : step A) (k : A → step B) post : (∀ w w' t, R w w' → K w w' t = false) → keeps R p →
  (∀ a, may G p (Returns a) → tracks (k a) post) → tracks (andthen p k) post.
Proof. intros HK Hp Hk. eapply (tracks_bind _ _ (λ _, False)); [by eapply tracks_quiet|done|done]. Qed.

Lemma tracks_ret {A} (r : run A) post : tracks (Ret r) post.
Proof. intros l a t Ht Hk. by inversion Ht; subst. Qed.

Lemma tracks_or_else (p : step (Worker * option TaskId)) k post : tracks p (λ x, x.2 ≠ None ∧ post x) →
  (∀ wk, may G p (Returns (wk, None)) → tracks (k wk) post) → tracks (or_else p k) post.
Proof.
  intros Hp Hk. eapply tracks_bind; [exact Hp| |].
  - intros [wk [t|]] b [Hn Hpost] Hb; [|done]. apply may_ret_iff in Hb. by simplify_eq.
  - intros [wk [t|]] Hm; [apply tracks_ret|by apply Hk].
Qed.

End tracking.

Section serving.
Context (G : World → Prop) (HG : ∀ w, G w → ∃ X, sched_rep (local w) X).

Lemma lost_same {X} (f : X → TaskId) (l l' : list X) t : l' = l → lost f l l' t = false.
Proof. intros ->. by apply lost_not. Qed.

(** A step over a queue of the injector that returns nothing leaves the queue. *)
Lemma tracks_global {A} K (p : prog (GlobalInjector Q) (option A)) (RG : GlobalInjector Q → GlobalInjector Q → Prop) :
  (∀ g w t, RG (global w) g → K w (set_global g w) t = false) →
  (∀ l, trace (λ _, True) p l None → Forall (λ x, RG x.1 x.2) l) → tracks G K (on_global p) (λ r, r ≠ None).
Proof.
  intros HK Hp l a t Ht Hk ->. apply trace_bind in Ht as (l1 & l2 & r & -> & H1 & H2). inversion H2; subst.
  apply trace_zoom in H1 as (lv & Hv & Hf). specialize (Hp lv Hv). rewrite takes_app, orb_false_r in Hk.
  assert (takes K l1 t = false) as Hn; [|congruence]. clear Hk Hv H2. unfold takes.
  induction Hf as [|[w w'] [g g'] l1 lv [Hg Hw] _ IH]; [done|]. apply Forall_cons in Hp as [Hx Hp]. simpl in *. subst. rewrite HK by done. by apply IH.
Qed.

Lemma faa_none (l : list (Faa.FaaFifoQueue Q * Faa.FaaFifoQueue Q)) : trace (λ _, True) Faa.pop l None → Forall (λ x, fifo_view (Faa.inner x.2) = fifo_view (Faa.inner x.1)) l.
Proof.
  unfold Faa.pop. intros (l1 & l2 & r & -> & H1 & H2)%trace_bind. apply Forall_app. split.
  { apply trace_act_inv in H1 as (q & _ & -> & _). constructor; [|constructor]. simpl. by destruct (checked_sub _ _). }
  destruct r; cbn [negb] in H2; [|by inversion H2]. apply trace_bind in H2 as (l3 & l4 & r & -> & H3 & H4).
  apply trace_act_inv in H3 as (q & _ & -> & ->). cbn [fst snd] in *. pose proof (fifo_view_dequeue (Faa.inner q)) as Hd.
  destruct (dequeue (Faa.inner q)) as [q' [x|]] eqn:Eq; cbn [fst snd] in *.
  - exfalso. apply trace_bind in H4 as (? & ? & ? & _ & _ & H4). by inversion H4.
  - constructor; [simpl; by destruct (fifo_view (Faa.inner q)); destruct Hd|].
    apply trace_bind in H4 as (l5 & l6 & r & -> & H5 & H6). inversion H6; subst. rewrite app_nil_r.
    inversion H5 as [|? ? ? ? ? _ Hk]; subst. inversion Hk; subst. constructor; [done|constructor].
Qed.

Lemma global_cancel_tracks : tracks G from_cancel (on_global pop_cancel) (λ r, r ≠ None).
Proof.
  apply (tracks_global _ _ (λ g g', fifo_view (Faa.inner (cancel_queue g')) = fifo_view (Faa.inner (cancel_queue g)))).
  - intros g w t H. unfold from_cancel, cancel_items. simpl. by rewrite !lost_same.
  - intros l (lv & Hv & Hf)%trace_zoom. pose proof (faa_none lv Hv) as Hn. clear Hv.
    induction Hf as [|[g g'] [q q'] l lv [Hq Hg] _ IH]; constructor; apply Forall_cons in Hn as [Hx Hn]; simpl in *; subst; [exact Hx|by apply IH].
Qed.

Lemma global_timed_tracks now : tracks G from_timed (on_global (pop_timed_if_due now)) (λ r, r ≠ None).
Proof.
  apply (tracks_global _ _ (λ g g', timed_queue g' = timed_queue g)).
  - intros g w t H. unfold from_timed, timed_items. simpl. by rewrite H, !lost_same.
  - intros l. unfold pop_timed_if_due. intros (l1 & l2 & n & -> & H1 & H2)%trace_bind. apply trace_load_inv in H1 as (g & _ & -> & ->).
    constructor; [done|]. destruct (timed_count g =? 0); [by inversion H2|]. apply trace_bind in H2 as (l3 & l4 & c & -> & H3 & H4).
    apply trace_load_inv in H3 as (g2 & _ & -> & ->). constructor; [done|]. destruct (_ && _); [by inversion H4|].
    apply trace_bind in H4 as (l5 & l6 & r & -> & H5 & H6). apply trace_act_inv in H5 as (g3 & _ & -> & ->). simpl.
    destruct (heap (timed_queue g3)) as [|tt h]; simpl in *; [inversion H6; subst; by constructor|].
    destruct (tt_deadline tt <=? now); simpl in *; [|inversion H6; subst; by constructor].
    exfalso. inversion H6 as [|? ? ? ? ? _ Hk]; subst. by inversion Hk.
Qed.

(** A pop of the local scheduler that finds nothing unschedules nothing. *)
Lemma unscheduled_not s s' X t : sched_rep s X → sched_rep s' X → valid_task t → unscheduled s s' t = false.
Proof.
  intros Hs Hs' Hv. unfold unscheduled. rewrite (rep_contains _ X t (sp_set _ _ Hs) Hv), (rep_contains _ X t (sp_set _ _ Hs') Hv). by case_bool_decide.
Qed.

Lemma lost_entry {X} (f : X → TaskId) (l l' : list X) t : lost f l l' t = true → ∃ x, x ∈ l ∧ f x = t.
Proof. intros [(x & Hx & Ht)%existsb_exists _]%andb_true_iff. exists x. split; [by apply list_elem_of_In|by apply bool_decide_eq_true in Ht]. Qed.

Lemma local_cancel_tracks hint : tracks G from_cancel (on_local (λ s, pop_cancel_only_with_hint s hint)) (λ r, r ≠ None).
Proof.
  intros l a t Ht Hk ->. apply trace_act_inv in Ht as (w & Hw & -> & Hr). destruct (HG w Hw) as [X HX].
  destruct (pop_cancel_loop_spec (rounds (local w)) (local w) X hint HX) as (s' & r & E' & Ho); [unfold rounds, entries; lia|].
  unfold takes in Hk. simpl in Hk. unfold pop_cancel_only_with_hint in *. rewrite E' in *. simpl in *. simplify_eq. destruct Ho as (Hr' & _).
  rewrite orb_false_r in Hk. unfold from_cancel in Hk. cbn [local set_local] in Hk. rewrite lost_same in Hk by done. simpl in Hk.
  apply andb_true_iff in Hk as [(e & He & <-)%lost_entry Hu]. rewrite (unscheduled_not _ _ X) in Hu; [done|done|done|]. apply (sp_entries _ _ HX). by left.
Qed.

Lemma local_timed_tracks hint now : tracks G from_timed (on_local (λ s, pop_timed_only_with_hint s hint now)) (λ r, r ≠ None).
Proof.
  intros l a t Ht Hk ->. apply trace_act_inv in Ht as (w & Hw & -> & Hr). destruct (HG w Hw) as [X HX].
  destruct (pop_timed_due_loop_spec (rounds (local w)) (local w) X hint now HX) as (s' & r & E' & Ho); [unfold rounds, entries; lia|].
  unfold takes in Hk. simpl in Hk. unfold pop_timed_only_with_hint in *. rewrite E' in *. simpl in *. simplify_eq. destruct Ho as (Hr' & _).
  rewrite orb_false_r in Hk. unfold from_timed in Hk. cbn [local set_local] in Hk. rewrite lost_same in Hk by done. simpl in Hk.
  apply andb_true_iff in Hk as [(e & He & <-)%lost_entry Hu]. rewrite (unscheduled_not _ _ X) in Hu; [done|done|done|]. by apply (sp_timers _ _ HX).
Qed.

Lemma pop_fast_tracks : tracks G from_fast pop_fast (λ r, r ≠ None).
Proof.
  eapply (tracks_then _ _ fast_kept); [apply fast_kept_not|apply keeps_load; by unfold fast_kept|]. intros n _. destruct (n =? 0); [apply tracks_ret|].
  intros l a t Ht Hk ->. apply trace_bind in Ht as (l1 & l2 & r & -> & H1 & H2). inversion H2; subst. apply trace_act_inv in H1 as (w & _ & -> & Hr).
  unfold LocalQueue.pop_locked in Hr. unfold takes in Hk. simpl in Hk. unfold from_fast, fast_items, LocalQueue.pop_locked in Hk.
  destruct (last (LocalQueue.queue (fast_queue w))); [done|]. simpl in Hk. by rewrite lost_same in Hk.
Qed.

End serving.

(** ** What the cancel and timed lanes leave alone *)

Definition but_cancel w w' : Prop := timed_kept w w' ∧ fast_kept w w'.
Definition but_timed w w' : Prop := cancel_kept w w' ∧ fast_kept w w'.

Lemma but_cancel_refl w : but_cancel w w.
Proof. split; [by split|]. by unfold fast_kept. Qed.
Lemma but_timed_refl w : but_timed w w.
Proof. split; [by split|]. by unfold fast_kept. Qed.

Lemma global_cancel_keeps : keeps but_cancel (on_global pop_cancel).
Proof.
  apply (keeps_global _ _ (λ g g', timed_queue g' = timed_queue g)).
  - intros g w H. split; [|by unfold fast_kept]. split; [|done]. unfold timed_items. simpl. by rewrite H.
  - apply (never_zoom _ _ _ (λ _ _, False)); [intros q g H; by apply H|apply never_none; by intros w w' H].
Qed.

Lemma global_timed_keeps now : keeps but_timed (on_global (pop_timed_if_due now)).
Proof.
  apply (keeps_global _ _ (λ g g', cancel_queue g' = cancel_queue g)).
  - intros g w H. split; [|by unfold fast_kept]. split; [|done]. unfold cancel_items. simpl. by rewrite H.
  - unfold pop_timed_if_due. apply never_bind; [apply never_load; tauto|]. intros n. destruct (n =? 0); [done|].
    apply never_bind; [apply never_load; tauto|]. intros c. destruct (_ && _); [done|]. apply never_bind.
    + apply never_act. intros g H. apply H. destruct (heap (timed_queue g)) as [|t h]; [done|]. by destruct (tt_deadline t <=? now).
    + intros [t|]; [|done]. apply never_bind; [|done]. intros g. split; [|done]. intros H. apply H. by destruct (checked_sub _ _).
Qed.

Lemma pop_cancel_lanes fuel s rng s' r : pop_cancel_loop fuel s rng = Returns (s', r) → timed_lane s' = timed_lane s.
Proof.
  revert s. induction fuel as [|fuel IH]; intros s; cbn [pop_cancel_loop]; [done|]. unfold take_cancel.
  destruct (take_entry _ _ _ _ _ _ _) as [[[[lane set] t] []]|]; [by intros [= <- _]|intros H%IH; exact H|by intros [= <- _]].
Qed.

Lemma pop_timed_lanes fuel s rng now s' r : pop_timed_due_loop fuel s rng now = Returns (s', r) → cancel_lane s' = cancel_lane s.
Proof.
  revert s. induction fuel as [|fuel IH]; intros s; cbn [pop_timed_due_loop]; [done|]. unfold timed_due, next_valid_timed_entry, take_timed.
  cbn [fst snd]. destruct (match head _ with Some _ => _ | None => _ end); [|by intros [= <- _]].
  destruct (take_entry _ _ _ _ _ _ _) as [[[[lane set] t] []]|]; [by intros [= <- _]|intros H%IH; exact H|done].
Qed.

Lemma local_cancel_keeps hint : keeps but_cancel (on_local (λ s, pop_cancel_only_with_hint s hint)).
Proof. apply keeps_local; [apply but_cancel_refl|]. intros w s a H%pop_cancel_lanes. split; [by split|]. by unfold fast_kept. Qed.

Lemma local_timed_keeps hint now : keeps but_timed (on_local (λ s, pop_timed_only_with_hint s hint now)).
Proof. apply keeps_local; [apply but_timed_refl|]. intros w s a H%pop_timed_lanes. split; [by split|]. by unfold fast_kept. Qed.

Lemma but_cancel_not w w' t : but_cancel w w' → from_timed w w' t = false.
Proof. intros [H _]. by apply timed_kept_not. Qed.
Lemma but_timed_not w w' t : but_timed w w' → from_cancel w w' t = false.
Proof. intros [H _]. by apply cancel_kept_not. Qed.
Lemma but_cancel_fast w w' t : but_cancel w w' → from_fast w w' t = false.
Proof. intros [_ H]. by apply fast_kept_not. Qed.
Lemma but_timed_fast w w' t : but_timed w w' → from_fast w w' t = false.
Proof. intros [_ H]. by apply fast_kept_not. Qed.
Lemma lanes_cancel w w' t : lanes_kept w w' → from_cancel w w' t = false.
Proof. intros [H _]. by apply cancel_kept_not. Qed.
Lemma lanes_timed w w' t : lanes_kept w w' → from_timed w w' t = false.
Proof. intros [_ H]. by apply timed_kept_not. Qed.
Lemma lanes_fast w w' t : lanes_rel w w' → from_fast w w' t = false.
Proof. intros [_ H]. by apply fast_kept_not. Qed.

End sources.
