(* ===== verification/ThreeLaneThms.v ===== *)
(** * Fairness of a worker

    The contract in the documentation of [runtime/scheduler/three_lane.rs], for every
    interference of other threads: [ensures G p post] says that a step of the worker
    returns, and with what, if every access finds a world in which [G] holds. *)

From S2P Require Import Prelude Ids Arena Task Heap ScheduledSet Priority PriorityThms Atomic GlobalQueue Injector LocalQueue ThreeLane ThreeLaneTrace.
Import Injector ThreeLane.

Section fairness.
Context {E Q : Type} `{!Fifo PriorityTask Q, !FifoLaws PriorityTask Q}.
Local Notation World := (@World E Q).
Implicit Types (w : World) (wk : Worker) (i : Inputs).

(** ** Reasoning about steps *)

Definition ensures {A} (G : World → Prop) (p : step (E := E) (Q := Q) A) (post : A → Prop) : Prop :=
  ∀ r, may G p r → ∃ a, r = Returns a ∧ post a.

Section rules.
Context (G : World → Prop).

Lemma ensures_ret {A} (a : A) (post : A → Prop) : post a → ensures G (Ret (Returns a)) post.
Proof. intros Hp r Hr. apply may_ret_iff in Hr as ->. eauto. Qed.

Lemma ensures_bind {A B} (p : step A) (k : A → step B) mid post :
  ensures G p mid → (∀ a, mid a → ensures G (k a) post) → ensures G (andthen p k) post.
Proof.
  intros Hp Hk r Hr. apply (may_bind G p) in Hr as (ra & Ha & Hb). destruct (Hp ra Ha) as (a & -> & Hm). by apply (Hk a Hm).
Qed.

Lemma ensures_mono {A} (p : step A) (post post' : A → Prop) : (∀ a, post a → post' a) → ensures G p post → ensures G p post'.
Proof. intros Hpp Hp r Hr. destruct (Hp r Hr) as (a & -> & Ha). eauto. Qed.

Lemma ensures_ok {A} (p : prog World A) (post : A → Prop) : (∀ a, may G p a → post a) → ensures G (ok p) post.
Proof. intros Hp r Hr. apply (may_bind G p) in Hr as (a & Ha & Hb). apply may_ret_iff in Hb as ->. eauto. Qed.

Lemma ensures_act {A} (f : World → World * A) (post : A → Prop) : (∀ w, G w → post (f w).2) → ensures G (ok (act f)) post.
Proof. intros Hf. apply ensures_ok. intros a (w & Hw & ->)%may_act_iff. by apply Hf. Qed.

Lemma ensures_load {A} (f : World → A) (post : A → Prop) : (∀ w, G w → post (f w)) → ensures G (ok (load f)) post.
Proof. intros Hf. apply ensures_ok. intros a (w & Hw & ->)%may_load_iff. by apply Hf. Qed.

Lemma ensures_local {A} (f : Scheduler → run (Scheduler * A)) (post : A → Prop) :
  (∀ w, G w → ∃ s a, f (local w) = Returns (s, a) ∧ post a) → ensures G (on_local f) post.
Proof. intros Hf r (w & Hw & ->)%may_act_iff. destruct (Hf w Hw) as (s & a & -> & Ha). simpl. eauto. Qed.

Lemma ensures_look {A} (f : Scheduler → Scheduler * A) (post : A → Prop) : (∀ w, G w → post (f (local w)).2) → ensures G (look_local f) post.
Proof. intros Hf. apply ensures_local. intros w Hw. specialize (Hf w Hw). destruct (f (local w)) as [s a]. eauto. Qed.

Lemma ensures_or_else (p : step (Worker * option TaskId)) k (mid : Worker → Prop) post :
  ensures G p (λ x, match x.2 with Some t => post (x.1, Some t) | None => mid x.1 end) → (∀ wk, mid wk → ensures G (k wk) post) → ensures G (or_else p k) post.
Proof. intros Hp Hk. eapply ensures_bind; [exact Hp|]. intros [wk [t|]] H; [by apply ensures_ret|by apply Hk]. Qed.

Lemma ensures_any {A} (p : prog World A) : ensures G (ok p) (λ _, True).
Proof. by apply ensures_ok. Qed.

End rules.
(** ** What counts of a worker

    Its configuration, and its streaks and the metrics of the certificate. *)

Definition conf wk :=
  (cancel_streak_limit wk, adaptive_cancel_policy wk, browser_ready_handoff_limit wk, fast_queue_fairness_limit wk, timed_fairness_limit wk,
   steal_batch_size wk, (preferred_fast_stealer_count wk, preferred_heap_stealer_count wk)).

Record Core := mkCore {
  k_cancel : N; k_ready : N; k_timed : N;        (* the streaks *)
  n_cancel : N; n_timed : N; n_ready : N;        (* dispatches *)
  top_cancel : N; top_timed : N; top_ready : N;  (* the longest cancel streak, and stalls by it *)
  n_exceeded : N; top_limit : N;
}.
Definition core wk : Core :=
  let m := preemption_metrics wk in
  mkCore (cancel_streak wk) (ready_dispatch_streak wk) (timed_dispatch_streak wk) (cancel_dispatches m) (timed_dispatches m) (ready_dispatches m)
    (max_cancel_streak m) (max_timed_dispatch_stall m) (max_ready_dispatch_stall m) (effective_limit_exceedances m) (max_effective_limit_observed m).

Definition core_ready (c : Core) : Core :=
  mkCore 0 (saturating_add usize_MAX (k_ready c) 1) 0 (n_cancel c) (n_timed c) (bump (n_ready c))
    (top_cancel c) (top_timed c) (N.max (top_ready c) (k_cancel c)) (n_exceeded c) (top_limit c).
Definition core_timed (track : bool) (c : Core) : Core :=
  mkCore 0 0 (if track then wrapping_add usize_MAX (k_timed c) 1 else k_timed c) (n_cancel c) (bump (n_timed c)) (n_ready c)
    (top_cancel c) (N.max (top_timed c) (k_cancel c)) (top_ready c) (n_exceeded c) (top_limit c).
Definition core_cancel (streak limit : N) (c : Core) : Core :=
  mkCore streak 0 0 (bump (n_cancel c)) (n_timed c) (n_ready c)
    (N.max (top_cancel c) streak) (top_timed c) (top_ready c) (if limit <? streak then bump (n_exceeded c) else n_exceeded c) (top_limit c).
Definition core_limit (limit : N) (c : Core) : Core :=
  mkCore (k_cancel c) (k_ready c) (k_timed c) (n_cancel c) (n_timed c) (n_ready c) (top_cancel c) (top_timed c) (top_ready c) (n_exceeded c) (N.max (top_limit c) limit).
Definition core_streaks (cancel ready : N) (c : Core) : Core :=
  mkCore cancel ready (k_timed c) (n_cancel c) (n_timed c) (n_ready c) (top_cancel c) (top_timed c) (top_ready c) (n_exceeded c) (top_limit c).

(** The configuration is made of machine integers. *)
Record conf_ok wk : Prop := {
  co_cancel : cancel_streak_limit wk ≤ usize_MAX;
  co_policy : ∀ limit, adaptive_cancel_policy wk = Some limit → limit ≤ usize_MAX;
  co_timed : timed_fairness_limit wk ≤ usize_MAX;
  co_fast : fast_queue_fairness_limit wk ≤ usize_MAX;
}.
Definition limit_of i wk : N := effective_limit_of (suggestion i) (current_base_cancel_limit wk).

Lemma limit_bounds i wk : conf_ok wk → 1 ≤ limit_of i wk ≤ usize_MAX.
Proof.
  intros [H1 H2 _ _]. unfold limit_of, current_base_cancel_limit. assert (1 ≤ usize_MAX) as H0 by done.
  assert (∀ l, l ≤ usize_MAX → 1 ≤ effective_limit_of (suggestion i) (N.max l 1) ≤ usize_MAX) as H by (intros l Hl; unfold effective_limit_of, saturating_mul; destruct (suggestion i); lia).
  destruct (adaptive_cancel_policy wk) as [l|]; apply H; auto.
Qed.

Lemma max_if a b : N.max a b = if a <? b then b else a.
Proof. destruct (N.ltb_spec a b); lia. Qed.

Lemma record_ready_spec wk : core (record_ready_dispatch wk) = core_ready (core wk) ∧ conf (record_ready_dispatch wk) = conf wk.
Proof. unfold record_ready_dispatch, core_ready, core. simpl. rewrite max_if. by destruct (max_ready_dispatch_stall (preemption_metrics wk) <? cancel_streak wk). Qed.

Lemma record_timed_spec wk : core (record_timed_dispatch wk) = core_timed false (core wk) ∧ conf (record_timed_dispatch wk) = conf wk.
Proof. unfold record_timed_dispatch, core_timed, core. simpl. rewrite max_if. by destruct (max_timed_dispatch_stall (preemption_metrics wk) <? cancel_streak wk). Qed.

Lemma record_cancel_spec wk base limit streak : cancel_streak wk = streak → ready_dispatch_streak wk = 0 →
  core (record_cancel_dispatch wk base limit) = core_cancel streak limit (core wk) ∧ conf (record_cancel_dispatch wk base limit) = conf wk.
Proof.
  intros Hs Hr. unfold record_cancel_dispatch, core_cancel, core. simpl. rewrite max_if, <- Hs.
  destruct (max_cancel_streak (preemption_metrics wk) <? cancel_streak wk); simpl; destruct (base <? cancel_streak wk); simpl; destruct (limit <? cancel_streak wk); simpl; by rewrite ?Hr.
Qed.

Lemma inversion_spec wk b p : core (record_ready_priority_inversion wk b p) = core wk ∧ conf (record_ready_priority_inversion wk b p) = conf wk ∧
  fast_queue_dispatch_streak (record_ready_priority_inversion wk b p) = fast_queue_dispatch_streak wk.
Proof. unfold record_ready_priority_inversion. destruct b as [[t bp]|], p as [ep|]; try done. destruct (bp <=? ep); [done|]. by destruct (_ <? _). Qed.

(** ** Worlds

    Well-formed, and with work that the worker can see. *)

Definition sched_ok (s : Scheduler) : Prop := ∃ X, sched_rep s X ∧ N.of_nat (size X) ≤ isize_MAX.
Record world_ok w : Prop := {
  wo_local : sched_ok (local w);
  wo_stealers : Forall sched_ok (stealers w);
  wo_fast : ∃ l, LocalQueue.rep (fast_queue w) l;
  wo_fast_stealers : Forall (λ q, ∃ l, LocalQueue.rep q l) (fast_stealers w);
}.

(** The places where work can wait that is not in a cancel lane. *)
Inductive Source := Pinned | Fast | GlobalReady | LocalReady | StealFast (n j : N) | StealHeap (n j : N) | GlobalTimed | LocalTimed.

Definition visible (src : Source) i w : Prop :=
  match src with
  | Pinned => local_ready w ≠ []
  | Fast => LocalQueue.queue (fast_queue w) ≠ []
  | GlobalReady => let q := ready_queue (global w) in 0 < Faa.published q ∧ fifo_view (Faa.inner q) ≠ []
  | LocalReady => ∀ X, sched_rep (local w) X → ¬ no_ready (local w) X
  | StealFast n j => lenN (fast_stealers w) = n ∧ LocalQueue.has_loot (tasks w) (LocalQueue.queue <$> fast_stealers w) j
  | StealHeap n j => lenN (stealers w) = n ∧ ∃ s, stealers w !! N.to_nat j = Some s ∧ ∀ X, sched_rep s X → ¬ no_ready s X
  | GlobalTimed => let g := global w in timed_count g ≠ 0 ∧ cached_earliest_deadline g = earliest_of (heap (timed_queue g)) ∧ ∃ t h, heap (timed_queue g) = t :: h ∧ tt_deadline t ≤ now i
  | LocalTimed => ∀ X, sched_rep (local w) X → ¬ no_timed (Some (now i)) (local w) X
  end.

(** Ready work that the worker can take without stealing. *)
Definition own_ready (src : Source) : bool := match src with Pinned | Fast | GlobalReady | LocalReady => true | _ => false end.

Section call.
Context (G : World → Prop) (i : Inputs) (src : option Source).
Context (HG : ∀ w, G w → world_ok w ∧ ∀ s, src = Some s → visible s i w).
Context (Hlock : ∀ n j, src = Some (StealHeap n j) → stealer_locked i j = false).

Lemma ready_lane_spec hint : ensures G (on_local (λ s, pop_ready_only_with_hint s hint)) (λ r, src = Some LocalReady → r ≠ None).
Proof.
  apply ensures_local. intros w Hw. destruct (HG w Hw) as [Hok Hv]. destruct (wo_local w Hok) as (X & HX & _).
  destruct (pop_ready_loop_spec (rounds (local w)) (local w) X hint HX) as (s & r & Er & Ho); [unfold rounds, entries; lia|]. exists s, r. split; [exact Er|].
  intros ->. destruct r; [done|]. destruct Ho as (_ & _ & Hno). by destruct (Hv LocalReady eq_refl X HX).
Qed.

Lemma cancel_lane_spec hint : ensures G (on_local (λ s, pop_cancel_only_with_hint s hint)) (λ _, True).
Proof.
  apply ensures_local. intros w Hw. destruct (HG w Hw) as [Hok _]. destruct (wo_local w Hok) as (X & HX & _).
  destruct (pop_cancel_loop_spec (rounds (local w)) (local w) X hint HX) as (s & r & Er & _); [unfold rounds, entries; lia|]. eauto.
Qed.

Lemma timed_lane_spec hint : ensures G (on_local (λ s, pop_timed_only_with_hint s hint (now i))) (λ r, src = Some LocalTimed → r ≠ None).
Proof.
  apply ensures_local. intros w Hw. destruct (HG w Hw) as [Hok Hv]. destruct (wo_local w Hok) as (X & HX & _).
  destruct (pop_timed_due_loop_spec (rounds (local w)) (local w) X hint (now i) HX) as (s & r & Er & Ho); [unfold rounds, entries; lia|]. exists s, r. split; [exact Er|].
  intros ->. destruct r; [done|]. destruct Ho as (_ & _ & Hno). by destruct (Hv LocalTimed eq_refl X HX).
Qed.

Lemma pop_fast_spec : ensures G pop_fast (λ r, src = Some Fast → r ≠ None).
Proof.
  eapply ensures_bind; [apply (ensures_load G _ (λ n, src = Some Fast → n ≠ 0))|].
  - intros w Hw ->. destruct (HG w Hw) as [Hok Hv]. destruct (wo_fast w Hok) as (l & [Hq _ Hl _]). rewrite Hl. specialize (Hv Fast eq_refl). simpl in Hv. rewrite Hq in Hv.
    by intros ->%len_0.
  - intros n Hn. destruct (N.eqb_spec n 0) as [->|_]; [apply ensures_ret; intros E'; by destruct (Hn E')|].
    apply ensures_act. intros w Hw ->. destruct (HG w Hw) as [_ Hv]. specialize (Hv Fast eq_refl). simpl in Hv. unfold LocalQueue.pop_locked.
    destruct (last (LocalQueue.queue (fast_queue w))) eqn:El; [done|]. by apply last_None in El.
Qed.

Lemma pop_pinned_spec : ensures G pop_local_ready (λ r, src = Some Pinned → r ≠ None).
Proof. apply ensures_act. intros w Hw ->. destruct (HG w Hw) as [_ Hv]. specialize (Hv Pinned eq_refl). simpl in Hv. by destruct (local_ready w). Qed.

Lemma faa_pop_some (G' : Faa.FaaFifoQueue Q → Prop) r : (∀ q, G' q → 0 < Faa.published q ∧ fifo_view (Faa.inner q) ≠ []) → may G' Faa.pop r → r ≠ None.
Proof.
  intros HG' (ok & Ho & Hr)%may_bind. apply may_act_iff in Ho as (q & Hq & ->). unfold checked_sub in Hr. rewrite (proj2 (N.leb_le _ _)) in Hr by (specialize (HG' q Hq); lia). cbn [snd negb] in Hr.
  apply may_bind in Hr as (o & Ho & Hr). apply may_act_iff in Ho as (q' & Hq' & ->). cbn [snd] in Hr. pose proof (fifo_view_dequeue (Faa.inner q')) as Hd.
  destruct (HG' q' Hq') as [_ Hv]. destruct (fifo_view (Faa.inner q')) as [|x l]; [done|]. destruct Hd as [_ Hd]. rewrite Hd in Hr. apply may_bind in Hr as (u & _ & Hr). by apply may_ret_iff in Hr as ->.
Qed.

Lemma pop_ready_some : ensures G (on_global pop_ready) (λ r, src = Some GlobalReady → r ≠ None).
Proof.
  apply ensures_ok. intros r Hr ->. unfold pop_ready, on_ready in Hr.
  eapply (may_zoom _ _ _ (λ g, 0 < Faa.published (ready_queue g) ∧ fifo_view (Faa.inner (ready_queue g)) ≠ [])) in Hr; [|intros w Hw; exact (proj2 (HG w Hw) GlobalReady eq_refl)].
  eapply (may_zoom _ _ _ (λ q, 0 < Faa.published q ∧ fifo_view (Faa.inner q) ≠ [])) in Hr; [|done]. eapply faa_pop_some; [|exact Hr]. done.
Qed.

(** *** The ready phase *)

Definition stays wk wk' : Prop := core wk' = core wk ∧ conf wk' = conf wk ∧ fast_queue_dispatch_streak wk' = fast_queue_dispatch_streak wk.

Lemma pop_buffer_stays wk : stays wk (pop_buffer wk).1.
Proof. unfold pop_buffer. by destruct (last (global_ready_buffer wk)). Qed.

Lemma decide_batch_stays wk p a b c d e f : stays wk (decide_batch wk p a b c d e f).1.1.
Proof. unfold decide_batch. by repeat case_match. Qed.

Lemma select_spec wk : ensures G (select_ready_batch_decision wk) (λ x, stays wk x.1).
Proof.
  unfold select_ready_batch_decision. eapply ensures_bind; [apply ensures_any|]. intros depth _. eapply ensures_bind; [apply ensures_any|]. intros combiner _.
  eapply (ensures_bind _ _ _ (λ _, True)).
  { eapply ensures_bind; [apply ensures_any|]. intros g _. eapply ensures_bind; [by apply (ensures_look _ _ (λ _, True))|]. intros l _. by apply ensures_ret. }
  intros debt _. set (wk1 := on_batch_state _ wk). assert (stays wk wk1) as H1 by done. clearbody wk1.
  destruct (adaptive_batch_profile wk1) as [profile|]; [destruct (enabled _)|]; [|by apply ensures_ret..].
  pose proof (decide_batch_stays wk1 (normalized profile (fixed_ready_batch_size wk)) (fixed_ready_batch_size wk) depth debt
    (saturating_sub (snap_combiner_claim_failures combiner) (last_combiner_claim_failures (adaptive_batch_state wk))) (snap_max_in_flight combiner) (snap_current_in_flight combiner)) as H2.
  destruct (decide_batch _ _ _ _ _ _ _ _) as [[wk2 n] why]. apply ensures_ret. destruct H1 as (E1 & E2 & E3), H2 as (F1 & F2 & F3). simpl in *.
  split_and!; [by rewrite <- E1, <- F1|by rewrite <- E2, <- F2|by rewrite <- E3, <- F3].
Qed.

Lemma pop_batch_len (G' : GlobalInjector Q → Prop) n r : may G' (pop_ready_batch_into n []) r → r.1 = lenN r.2.
Proof.
  unfold pop_ready_batch_into, on_ready. intros H. apply (may_zoom _ _ _ (λ _, True)) in H; [|done]. unfold Faa.pop_batch_into in H. destruct (n =? 0); [by apply may_ret_iff in H as ->|].
  apply may_bind in H as (res & _ & H). destruct (res =? 0); [by apply may_ret_iff in H as ->|]. apply may_bind in H as (out & _ & H). apply may_bind in H as (u & _ & H). apply may_bind in H as (u' & _ & H).
  apply may_ret_iff in H as ->. simpl. change (lenN (@nil PriorityTask)) with 0. mlia.
Qed.

Lemma pop_buffer_some wk : global_ready_buffer wk ≠ [] → (pop_buffer wk).2 ≠ None.
Proof. intros Hl. unfold pop_buffer. destruct (last (global_ready_buffer wk)) eqn:El; [done|]. by apply last_None in El. Qed.

Lemma take_global_spec wk : ensures G (take_global_ready_task wk) (λ x, stays wk x.1 ∧ (src = Some GlobalReady → x.2 ≠ None)).
Proof.
  unfold take_global_ready_task. pose proof (pop_buffer_stays wk) as H1. destruct (pop_buffer wk) as [wk1 [pt|]]; [by apply ensures_ret|]. simpl in H1.
  eapply ensures_bind; [apply select_spec|]. intros [wk2 decision] H2. simpl in H2. assert (stays wk wk2) as H3.
  { destruct H1 as (? & ? & ?), H2 as (? & ? & ?). split_and!; congruence. }
  eapply (ensures_bind _ _ _ (λ d, match d with Some (n, l) => n = lenN l | None => True end)).
  { destruct (1 <? _); [|by apply ensures_ret]. eapply ensures_bind; [apply ensures_any|]. intros depth _. destruct (_ <=? depth); [|by apply ensures_ret].
    eapply (ensures_bind _ _ _ (λ x, x.1 = lenN x.2)).
    { apply ensures_ok. intros a Ha. apply (may_zoom _ _ _ (λ _, True)) in Ha; [|done]. by apply pop_batch_len in Ha. }
    intros [n l] Hn. by apply ensures_ret. }
  intros [[n l]|] Hd; [destruct (N.ltb_spec 0 n) as [Hn|Hn]|].
  - apply ensures_ret. split; [|intros _; apply pop_buffer_some; intros El; apply (f_equal (@length _)) in El; simpl in El; rewrite length_rev in El; unfold lenN in Hd; lia].
    unfold pop_buffer. simpl. destruct (last (rev l)); exact H3.
  - eapply ensures_bind; [apply pop_ready_some|]. intros r Hr. by apply ensures_ret.
  - eapply ensures_bind; [apply pop_ready_some|]. intros r Hr. by apply ensures_ret.
Qed.

(** What dispatching ready work does to the worker. *)
Definition took_ready wk (x : Worker * option TaskId) : Prop :=
  conf x.1 = conf wk ∧
  match x.2 with
  | Some _ => core x.1 = core_ready (core wk) ∧
      (fast_queue_dispatch_streak x.1 = 0 ∨
       fast_queue_dispatch_streak x.1 = wrapping_add usize_MAX (fast_queue_dispatch_streak wk) 1 ∧ (src = Some LocalReady → fast_queue_dispatch_streak wk < fast_queue_fairness_limit wk))
  | None => core x.1 = core wk ∧ fast_queue_dispatch_streak x.1 = fast_queue_dispatch_streak wk ∧ (∀ s, src = Some s → own_ready s = false)
  end.

Lemma local_lane_spec wk wk' hint : stays wk wk' → ensures G (pop_local_lane wk' hint) (λ x, conf x.1 = conf wk ∧
  match x.2 with Some _ => core x.1 = core_ready (core wk) ∧ fast_queue_dispatch_streak x.1 = 0 | None => stays wk x.1 ∧ src ≠ Some LocalReady end).
Proof.
  intros (H1 & H2 & H3). eapply ensures_bind; [apply ready_lane_spec|]. intros [t|] Hr; apply ensures_ret; simpl.
  - destruct (record_ready_spec wk') as [E1 E2]. split; [by rewrite <- H2, <- E2|]. split; [|done]. by rewrite <- H1, <- E1.
  - split; [done|]. split; [done|]. intros ->. by apply Hr.
Qed.

Lemma phase3_spec d wk : ensures G (try_phase3_ready_work d wk) (took_ready wk).
Proof.
  assert (Hdone : ∀ wk' n t, core wk' = core wk → conf wk' = conf wk → n = 0 ∨ (n = wrapping_add usize_MAX (fast_queue_dispatch_streak wk) 1 ∧ (src = Some LocalReady → fast_queue_dispatch_streak wk < fast_queue_fairness_limit wk)) →
    took_ready wk (set_fast_queue_dispatch_streak n (record_ready_dispatch wk'), Some t)).
  { intros wk' n t H1 H2 Hn. destruct (record_ready_spec wk') as [E1 E2]. split; [by rewrite <- H2, <- E2|]. split; [by rewrite <- H1, <- E1|exact Hn]. }
  unfold try_phase3_ready_work. eapply ensures_bind; [apply pop_pinned_spec|]. intros [t|] Hpin; [by apply ensures_ret, Hdone; [..|left]|].
  set (first := fast_queue_fairness_limit wk <=? fast_queue_dispatch_streak wk).
  eapply (ensures_or_else _ _ _ (λ wk1, stays wk wk1 ∧ (first = true → src ≠ Some LocalReady))).
  { destruct first eqn:Ef; [|by apply ensures_ret]. eapply ensures_mono; [|by apply (local_lane_spec wk)]. intros [wk1 [t|]] [Hc H]; simpl in *; [destruct H; split; simpl; auto|]. by destruct H. }
  intros wk1 ((H1 & H2 & H3) & Hfirst). assert (src = Some LocalReady → fast_queue_dispatch_streak wk < fast_queue_fairness_limit wk) as Hlim.
  { intros E'. unfold first in Hfirst. destruct (N.leb_spec (fast_queue_fairness_limit wk) (fast_queue_dispatch_streak wk)); [by destruct (Hfirst eq_refl)|done]. }
  eapply ensures_bind; [apply pop_fast_spec|]. intros [t|] Hfast.
  - eapply (ensures_bind _ _ _ (λ _, True)). { unfold peek_blocked_local_ready_for_inversion. destruct (local_locked d); [by apply ensures_ret|by apply ensures_look]. }
    intros blocked _. eapply (ensures_bind _ _ _ (stays wk)).
    { destruct blocked; [|by apply ensures_ret]. eapply ensures_bind; [apply ensures_any|]. intros prio _. apply ensures_ret. destruct (inversion_spec wk1 (Some p) prio) as (E1 & E2 & E3). split_and!; congruence. }
    intros wk2 (E1 & E2 & E3). apply ensures_ret. apply Hdone; [done|done|]. right. split; [|done]. unfold record_ready_dispatch. destruct (_ <? _); simpl; by rewrite E3.
  - eapply ensures_bind; [apply take_global_spec|]. intros [wk2 [pt|]] [(E1 & E2 & E3) Hg]; simpl in *.
    + eapply (ensures_bind _ _ _ (λ _, True)). { unfold peek_blocked_local_ready_for_inversion. destruct (local_locked d); [by apply ensures_ret|by apply ensures_look]. }
      intros blocked _. apply ensures_ret. destruct (inversion_spec wk2 blocked (Some (pt_priority pt))) as (F1 & F2 & F3). apply Hdone; [congruence|congruence|by left].
    + assert (Hnone : ∀ wk3, stays wk wk3 → src ≠ Some LocalReady → took_ready wk (wk3, None)).
      { intros wk3 (F1 & F2 & F3) Hl. split; [done|]. split_and!; [done|done|]. simpl. intros s' Hs. destruct s'; simpl; try done; exfalso; [by apply Hpin|by apply Hfast|by apply Hg]. }
      assert (stays wk wk2) as Hst by (split_and!; congruence). destruct first eqn:Ef; [apply ensures_ret, Hnone; auto|].
      eapply ensures_mono; [|by apply (local_lane_spec wk)]. intros [wk3 [t|]] [Hc H]; simpl in *; [destruct H; split; simpl; auto|]. destruct H. by apply Hnone.
Qed.

(** *** Stealing *)

Lemma scan_segment_spec (probe : N → step (option TaskId)) (P : N → Prop) first len start n k :
  (∀ idx, ensures G (probe idx) (λ r, r = None → ¬ P idx)) →
  ensures G (scan_segment probe first len start n k) (λ r, r = None → ∀ o, k ≤ o → o < k + N.of_nat n → ¬ P (first + (start + o) mod len)).
Proof.
  intros Hp. revert k. induction n as [|n IH]; intros k; [apply ensures_ret; intros _ o H1 H2; lia|]. cbn [scan_segment].
  eapply ensures_bind; [apply Hp|]. intros [t|] Ht; [by apply ensures_ret|]. eapply ensures_mono; [|apply IH]. intros r Hr E' o H1 H2.
  destruct (decide (o = k)) as [->|Hne]; [by apply Ht|]. apply (Hr E'); lia.
Qed.

Lemma scan_victims_spec (probe : N → step (option TaskId)) (P : N → Prop) first len start :
  (∀ idx, ensures G (probe idx) (λ r, r = None → ¬ P idx)) →
  ensures G (scan_victims probe first len start) (λ r, r = None → ∀ j, first ≤ j → j < first + len → ¬ P j).
Proof.
  intros Hp. unfold scan_victims. destruct (N.eqb_spec len 0) as [->|Hl]; [apply ensures_ret; intros _ j H1 H2; lia|].
  eapply ensures_mono; [|by apply (scan_segment_spec probe P)]. intros r Hr E' j H1 H2.
  destruct (LocalQueue.circular_covers (start mod len) len (j - first)) as (o & Ho & Hc); [apply N.mod_lt; lia|lia|].
  unfold LocalQueue.circular_index in Hc. specialize (Hr E' o). replace j with (first + (start mod len + o) mod len) by lia. apply Hr; lia.
Qed.

Lemma steal_fast_spec idx : ensures G (steal_fast idx) (λ r, r = None → ¬ ∃ n, src = Some (StealFast n idx)).
Proof.
  apply ensures_act. intros w Hw Hn [n ->]. destruct (HG w Hw) as [Hok Hv]. destruct (Hv _ eq_refl) as (_ & l & t & Hl & Ht & Hp).
  rewrite list_lookup_fmap in Hl. destruct (fast_stealers w !! N.to_nat idx) as [q|] eqn:Eq; [|done]. simpl in Hl. simplify_eq.
  pose proof (wo_fast_stealers w Hok) as Hf. rewrite Forall_forall in Hf. destruct (Hf q) as (l & Hrep); [by eapply list_elem_of_lookup_2|].
  destruct (LocalQueue.steal_rep (tasks w) q l Hrep) as [_ H2]. destruct (LocalQueue.steal (tasks w) q) as [q' r]. simpl in *. rewrite Hn in H2. symmetry in H2.
  apply LocalQueue.take_front_none in H2 as [_ H2]. rewrite (LocalQueue.rep_queue _ _ Hrep) in Ht. eapply Forall_forall in H2; [|exact Ht]. congruence.
Qed.

Lemma scheduled_valid s X t : sched_rep s X → t ∈ X → valid_task t.
Proof. intros Hr Ht. destruct (sp_cover s X Hr t Ht) as [(e & He & <-)|[(e & He & <-)|(e & He & <-)]]; [apply (sp_entries s X Hr); by left|by apply (sp_timers s X Hr)|apply (sp_entries s X Hr); by right]. Qed.

Lemma schedule_all_spec l s X : sched_rep s X → Forall valid_task l.*1 → N.of_nat (size X) + lenN l < usize_MAX → ∃ s', schedule_all l s = Returns s'.
Proof.
  revert s X. induction l as [|[t p] l IH]; intros s X Hr Hv Hs; [by exists s|]. rewrite len_cons in Hs. apply Forall_cons in Hv as [Hv Hvs]. cbn [schedule_all].
  destruct (schedule_spec s X t p Hr Hv) as (s' & -> & Hr'); [lia|]. cbn [mbind run_bind]. apply (IH s' _ Hr' Hvs).
  assert (size ({[t]} ∪ X) ≤ S (size X))%nat; [|lia]. rewrite size_union_alt, size_singleton. apply le_n_S, subseteq_size. set_solver.
Qed.

Lemma push_fast_all_spec l : ensures G (push_fast_all l) (λ _, True).
Proof. induction l as [|t l IH]; [by apply ensures_ret|]. cbn [push_fast_all]. eapply ensures_bind; [apply ensures_any|]. intros _ _. exact IH. Qed.

Lemma stolen_few s X s' n out : stolen_ok s X s' n out → lenN out ≤ N.of_nat (size X).
Proof.
  intros (_ & _ & Hd & Hin & _). unfold lenN. rewrite <- (length_fmap fst), <- (size_list_to_set (C := gset TaskId)) by done.
  assert (size (list_to_set out.*1 : gset TaskId) ≤ size X)%nat; [apply subseteq_size; set_solver|lia].
Qed.

Definition batch_usable (batch : N) : Prop := ∀ n j, src = Some (StealHeap n j) → 0 < batch.

Lemma take_batch_spec batch idx : batch_usable batch →
  ensures G (ok (act (λ w, match stealers w !! N.to_nat idx with
                          | Some s => let '(s, n, out) := steal_ready_batch_into s batch in (set_stealers (<[N.to_nat idx := s]> (stealers w)) w, out)
                          | None => (w, [])
                          end)))
    (λ out, Forall valid_task out.*1 ∧ lenN out ≤ isize_MAX ∧ (out = [] → ∀ n, src ≠ Some (StealHeap n idx))).
Proof.
  intros Hb. apply ensures_act. intros w Hw. destruct (HG w Hw) as [Hok Hv]. destruct (stealers w !! N.to_nat idx) as [s|] eqn:Es.
  - pose proof (wo_stealers w Hok) as Hs. rewrite Forall_forall in Hs. destruct (Hs s) as (X & HX & Hn); [by eapply list_elem_of_lookup_2|].
    pose proof (steal_spec s X batch HX) as Hp. destruct (steal_ready_batch_into s batch) as [[s' k] out]. destruct Hp as [_ Hp]. simpl. pose proof (stolen_few _ _ _ _ _ Hp) as Hf.
    destruct Hp as (_ & _ & _ & Hin & _ & _ & _ & _ & Hnil). split_and!.
    + apply Forall_forall. intros t Ht. by apply (scheduled_valid s X), Hin.
    + lia.
    + intros Ho n E'. destruct (Hnil Ho) as [E0|Hno]; [specialize (Hb n idx E'); lia|]. destruct (Hv _ E') as (_ & s0 & E0 & Hr). simplify_eq. by apply (Hr X HX).
  - simpl. split_and!; [constructor|by vm_compute|]. intros _ n E'. destruct (Hv _ E') as (_ & s0 & E0 & _). congruence.
Qed.

Lemma steal_heap_spec batch idx : batch_usable batch → ensures G (steal_heap i batch idx) (λ r, r = None → ¬ ∃ n, src = Some (StealHeap n idx)).
Proof.
  intros Hb. unfold steal_heap. destruct (stealer_locked i idx) eqn:El; [apply ensures_ret; intros _ [n E']; by rewrite (Hlock n idx E') in El|].
  eapply ensures_bind; [by apply take_batch_spec|]. intros [|[t p] rest] (Hv & Hl & Hn); [apply ensures_ret; intros _ [n E']; by apply (Hn eq_refl n)|].
  destruct rest as [|x rest']; [by apply ensures_ret|]. set (rest := x :: rest') in *. clearbody rest. rewrite len_cons in Hl. apply Forall_cons in Hv as [_ Hv].
  eapply (ensures_bind _ _ _ (λ _, True)); [by apply ensures_look|]. intros [busy|] _.
  - eapply (ensures_bind _ _ _ (λ _, True)); [|intros _ _; by apply ensures_ret]. apply ensures_local. intros w Hw. destruct (wo_local w (proj1 (HG w Hw))) as (X & HX & Hs).
    destruct (schedule_all_spec rest (local w) X HX Hv) as (s' & ->); [mlia|]. by eexists _, _.
  - eapply ensures_bind; [apply push_fast_all_spec|]. intros _ _. by apply ensures_ret.
Qed.

(** One pass over a segment of victims, counted when it finds something. *)
Lemma pass_spec probe P first len start fast preferred wk : (∀ idx, ensures G (probe idx) (λ r, r = None → ¬ P idx)) →
  ensures G (andthen (scan_victims probe first len start) (λ r, Ret (Returns (match r with Some _ => count_steal fast preferred wk | None => wk end, r))))
    (λ x, match x.2 with Some _ => stays wk x.1 | None => x.1 = wk ∧ ∀ j, first ≤ j → j < first + len → ¬ P j end).
Proof.
  intros Hp. eapply ensures_bind; [by apply (scan_victims_spec probe P)|]. intros [t|] Hr; apply ensures_ret; simpl; [by destruct fast, preferred|split; auto].
Qed.

Definition steals (s : Source) : bool := match s with StealFast _ _ | StealHeap _ _ => true | _ => false end.

Lemma try_steal_spec wk : batch_usable (steal_batch_size wk) →
  ensures G (try_steal i wk) (λ x, stays wk x.1 ∧ (x.2 = None → ∀ s, src = Some s → steals s = false)).
Proof.
  intros Hb. unfold try_steal.
  eapply (ensures_bind _ _ _ (λ c, ∀ n j, src = Some (StealFast n j) → j < c)).
  { apply ensures_load. intros w Hw n j E'. destruct (proj2 (HG w Hw) _ E') as (_ & l & t & Hl & _). apply lookup_lt_Some in Hl. rewrite length_fmap in Hl. unfold lenN. lia. }
  intros fc Hfc. eapply (ensures_bind _ _ _ (λ c, ∀ n j, src = Some (StealHeap n j) → j < c)).
  { apply ensures_load. intros w Hw n j E'. destruct (proj2 (HG w Hw) _ E') as (_ & s & Hl & _). apply lookup_lt_Some in Hl. unfold lenN. lia. }
  intros hc Hhc.
  eapply (ensures_or_else _ _ _ (λ wk', wk' = wk ∧ ∀ j, 0 ≤ j → j < 0 + N.min (preferred_fast_stealer_count wk) fc → ¬ ∃ n, src = Some (StealFast n j))).
  { eapply ensures_mono; [|apply (pass_spec steal_fast), steal_fast_spec]. intros [wk' [t|]] H; simpl in *; [by split|exact H]. }
  intros ? [-> H1]. eapply (ensures_or_else _ _ _ (λ wk', wk' = wk ∧ ∀ n j, src ≠ Some (StealFast n j))).
  { eapply ensures_mono; [|apply (pass_spec steal_fast), steal_fast_spec]. intros [wk' [t|]] H; simpl in *; [by split|]. destruct H as [-> H]. split; [done|]. intros n j E'.
    specialize (Hfc n j E'). unfold saturating_sub in H. destruct (N.lt_ge_cases j (N.min (preferred_fast_stealer_count wk) fc)); [apply (H1 j); eauto; lia|apply (H j); eauto; lia]. }
  intros ? [-> H2]. eapply (ensures_or_else _ _ _ (λ wk', wk' = wk ∧ ∀ j, 0 ≤ j → j < 0 + N.min (preferred_heap_stealer_count wk) hc → ¬ ∃ n, src = Some (StealHeap n j))).
  { eapply ensures_mono; [|apply (pass_spec (steal_heap i _)); intros; by apply steal_heap_spec]. intros [wk' [t|]] H; simpl in *; [by split|exact H]. }
  intros ? [-> H3]. eapply ensures_mono; [|apply (pass_spec (steal_heap i _)); intros; by apply steal_heap_spec]. intros [wk' [t|]] H; simpl in *; [by split|]. destruct H as [-> H]. split; [done|].
  intros _ s E'. destruct s as [| | | |n j|n j| |]; try done; exfalso; [by apply (H2 n j)|]. specialize (Hhc n j E'). unfold saturating_sub in H.
  destruct (N.lt_ge_cases j (N.min (preferred_heap_stealer_count wk) hc)); [apply (H3 j); eauto; lia|apply (H j); eauto; lia].
Qed.

(** *** The cancel and timed lanes *)

Lemma pop_due_some : ensures G (on_global (pop_timed_if_due (now i))) (λ r, src = Some GlobalTimed → r ≠ None).
Proof.
  apply ensures_ok. intros r Hr E'. assert (Hv : ∀ w, G w → visible GlobalTimed i w) by (intros w Hw; by apply (proj2 (HG w Hw))).
  eapply (may_zoom _ _ _ (λ g, timed_count g ≠ 0 ∧ cached_earliest_deadline g = earliest_of (heap (timed_queue g)) ∧ ∃ t h, heap (timed_queue g) = t :: h ∧ tt_deadline t ≤ now i)) in Hr; [|exact Hv].
  unfold pop_timed_if_due in Hr. apply may_bind in Hr as (n & (g & (Hn & _) & ->)%may_load_iff & Hr). rewrite (proj2 (N.eqb_neq _ _) Hn) in Hr.
  apply may_bind in Hr as (c & (g2 & (_ & Hc & t & h & Hh & Ht) & ->)%may_load_iff & Hr). rewrite Hc, Hh in Hr. cbn [earliest_of] in Hr.
  rewrite (proj2 (N.ltb_ge _ _)), andb_false_r in Hr by (unfold Time.from_nanos, Time.as_nanos; lia).
  apply may_bind in Hr as (o & (g3 & (_ & _ & t3 & h3 & Hh3 & Ht3) & ->)%may_act_iff & Hr). rewrite Hh3 in Hr. rewrite (proj2 (N.leb_le _ _) Ht3) in Hr. cbn [snd] in Hr.
  apply may_bind in Hr as (u & _ & Hr). by apply may_ret_iff in Hr as ->.
Qed.

Definition took_timed wk track (from : Source) (x : Worker * option TaskId) : Prop :=
  match x.2 with
  | Some _ => conf x.1 = conf wk ∧ core x.1 = core_timed track (core wk) ∧ fast_queue_dispatch_streak x.1 = fast_queue_dispatch_streak wk
  | None => x.1 = wk ∧ src ≠ Some from
  end.

Lemma fast_timed wk : fast_queue_dispatch_streak (record_timed_dispatch wk) = fast_queue_dispatch_streak wk.
Proof. unfold record_timed_dispatch. by destruct (_ <? _). Qed.

Lemma timed_dispatched wk track r from : (src = Some from → r ≠ None) → ensures G (dispatch_timed wk track r) (took_timed wk track from).
Proof.
  intros Hs. destruct r as [t|]; apply ensures_ret; [|split; [done|]; intros E'; by apply Hs]. destruct (record_timed_spec wk) as [E1 E2]. pose proof (fast_timed wk) as E3. unfold took_timed; simpl.
  destruct track; simpl; [|done]. split_and!; [done| |done]. clear. unfold record_timed_dispatch, core, core_timed; simpl. rewrite max_if. by destruct (max_timed_dispatch_stall (preemption_metrics wk) <? cancel_streak wk).
Qed.

Lemma global_timed_spec wk track : ensures G (global_timed i wk track) (took_timed wk track GlobalTimed).
Proof. eapply ensures_bind; [apply pop_due_some|]. intros r Hr. apply timed_dispatched. intros E'. destruct r; [done|]. by destruct (Hr E'). Qed.

Lemma local_timed_spec wk track : ensures G (local_timed i wk track) (took_timed wk track LocalTimed).
Proof. eapply ensures_bind; [apply timed_lane_spec|]. intros r Hr. by apply timed_dispatched. Qed.

Definition took_cancel wk limit (x : Worker * option TaskId) : Prop :=
  match x.2 with
  | Some _ => conf x.1 = conf wk ∧ core x.1 = core_cancel (cancel_streak wk + 1) limit (core wk) ∧ fast_queue_dispatch_streak x.1 = fast_queue_dispatch_streak wk
  | None => x.1 = wk
  end.

Lemma fast_cancel wk base limit : fast_queue_dispatch_streak (record_cancel_dispatch wk base limit) = fast_queue_dispatch_streak wk.
Proof. unfold record_cancel_dispatch. by repeat case_match. Qed.

Lemma cancel_dispatched wk base limit r : cancel_streak wk < limit → limit ≤ usize_MAX → ensures G (dispatch_cancel wk base limit r) (took_cancel wk limit).
Proof.
  intros Hs Hl. destruct r as [t|]; apply ensures_ret; [|done]. unfold took_cancel. cbn [fst snd]. rewrite wrapping_add_exact by lia. rewrite fast_cancel.
  destruct (record_cancel_spec (set_ready_dispatch_streak 0 (set_cancel_streak (cancel_streak wk + 1) wk)) base limit (cancel_streak wk + 1)) as [-> ->]; done.
Qed.

Lemma global_cancel_spec wk base limit : cancel_streak wk < limit → limit ≤ usize_MAX → ensures G (global_cancel wk base limit) (took_cancel wk limit).
Proof. intros H1 H2. eapply ensures_bind; [apply ensures_any|]. intros r _. by apply cancel_dispatched. Qed.

Lemma local_cancel_spec wk base limit : cancel_streak wk < limit → limit ≤ usize_MAX → ensures G (local_cancel i wk base limit) (took_cancel wk limit).
Proof. intros H1 H2. eapply ensures_bind; [apply cancel_lane_spec|]. intros r _. by apply cancel_dispatched. Qed.

Definition timed_source (s : Source) : bool := match s with GlobalTimed | LocalTimed => true | _ => false end.

Definition took_lane wk limit (check_cancel track : bool) (x : Worker * option TaskId) : Prop :=
  match x.2 with
  | Some _ => conf x.1 = conf wk ∧ fast_queue_dispatch_streak x.1 = fast_queue_dispatch_streak wk ∧
      (core x.1 = core_timed track (core wk) ∨ check_cancel = true ∧ core x.1 = core_cancel (cancel_streak wk + 1) limit (core wk))
  | None => x.1 = wk ∧ ∀ s, src = Some s → timed_source s = false
  end.

Lemma priority_lanes_spec wk base limit check_cancel check_timed : limit ≤ usize_MAX → (check_cancel = true → cancel_streak wk < limit) →
  ensures G (priority_lanes i wk base limit check_cancel check_timed) (took_lane wk limit check_cancel (is_meet_deadlines (suggestion i) && check_timed)).
Proof.
  intros Hl Hc. set (track := is_meet_deadlines (suggestion i) && check_timed).
  assert (Hcancel : ∀ (p : Worker → step (Worker * option TaskId)) mid, mid wk → (cancel_streak wk < limit → ensures G (p wk) (took_cancel wk limit)) →
    ensures G (if check_cancel then p wk else nothing wk) (λ x, match x.2 with Some t => took_lane wk limit check_cancel track (x.1, Some t) | None => x.1 = wk ∧ mid x.1 end)).
  { intros p mid Hm Hp. destruct check_cancel; [|by apply ensures_ret]. eapply ensures_mono; [|apply Hp; auto]. intros [wk' [t|]] H; unfold took_cancel in H; simpl in *; [|by subst]. destruct H as (? & ? & ?). unfold took_lane. simpl. auto. }
  assert (Htimed : ∀ from p (mid : Worker → Prop), (src ≠ Some from → mid wk) → ensures G p (took_timed wk track from) →
    ensures G p (λ x, match x.2 with Some t => took_lane wk limit check_cancel track (x.1, Some t) | None => x.1 = wk ∧ mid x.1 end)).
  { intros from p mid Hm Hp. eapply ensures_mono; [|apply Hp]. intros [wk' [t|]] H; unfold took_timed in H; simpl in *; [|destruct H; subst; auto]. destruct H as (? & ? & ?). unfold took_lane. simpl. auto. }
  unfold priority_lanes. fold track. destruct track eqn:Et.
  - eapply (ensures_or_else _ _ _ (λ wk', wk' = wk ∧ src ≠ Some GlobalTimed)); [apply (Htimed GlobalTimed _ (λ _, src ≠ Some GlobalTimed)); [done|apply global_timed_spec]|]. intros ? [-> H1].
    eapply (ensures_or_else _ _ _ (λ wk', wk' = wk ∧ src ≠ Some LocalTimed)); [apply (Htimed LocalTimed _ (λ _, src ≠ Some LocalTimed)); [done|apply local_timed_spec]|]. intros ? [-> H2].
    eapply (ensures_or_else _ _ _ (λ wk', wk' = wk ∧ True)); [apply (Hcancel (λ wk, global_cancel wk base limit) (λ _, True)); [done|intros; by apply global_cancel_spec]|]. intros ? [-> _].
    eapply ensures_mono; [|apply (Hcancel (λ wk, local_cancel i wk base limit) (λ _, True)); [done|intros; by apply local_cancel_spec]].
    intros [wk' [t|]] H; simpl in *; [done|]. destruct H as [-> _]. split; [done|]. by intros [] E'; simpl.
  - eapply (ensures_or_else _ _ _ (λ wk', wk' = wk ∧ True)); [apply (Hcancel (λ wk, global_cancel wk base limit) (λ _, True)); [done|intros; by apply global_cancel_spec]|]. intros ? [-> _].
    eapply (ensures_or_else _ _ _ (λ wk', wk' = wk ∧ True)); [apply (Hcancel (λ wk, local_cancel i wk base limit) (λ _, True)); [done|intros; by apply local_cancel_spec]|]. intros ? [-> _].
    eapply (ensures_or_else _ _ _ (λ wk', wk' = wk ∧ src ≠ Some GlobalTimed)); [apply (Htimed GlobalTimed _ (λ _, src ≠ Some GlobalTimed)); [done|apply global_timed_spec]|]. intros ? [-> H1].
    eapply ensures_mono; [|apply (Htimed LocalTimed _ (λ _, src ≠ Some LocalTimed)); [done|apply local_timed_spec]].
    intros [wk' [t|]] H; simpl in *; [done|]. destruct H as [-> H2]. split; [done|]. by intros [] E'; simpl.
Qed.

(** *** The rest of a call *)

Lemma handoff_spec wk : ensures G (should_force_ready_handoff i wk) (λ b, b = true → browser_ready_handoff_limit wk ≠ 0 ∧ browser_ready_handoff_limit wk ≤ ready_dispatch_streak wk).
Proof.
  unfold should_force_ready_handoff. destruct ((browser_ready_handoff_limit wk =? 0) || (ready_dispatch_streak wk <? browser_ready_handoff_limit wk)) eqn:Eb; [by apply ensures_ret|].
  N_bools. eapply ensures_mono; [intros b _ _; split; lia|]. eapply ensures_bind; [apply ensures_any|]. intros f _. destruct (negb f); [by apply (ensures_ret _ _ (λ _, True))|].
  destruct (negb _); [by apply ensures_ret|]. eapply ensures_bind; [apply ensures_any|]. intros [] _; [by apply ensures_ret|].
  eapply (ensures_bind _ _ _ (λ _, True)); [destruct (local_ready_locked i); [by apply ensures_ret|apply ensures_any]|]. intros [] _; [by apply ensures_ret|by apply ensures_look].
Qed.

Lemma try_cancel_spec : ensures G (try_cancel_work i) (λ _, True).
Proof. eapply ensures_bind; [apply ensures_any|]. intros [pt|] _; [by apply ensures_ret|apply cancel_lane_spec]. Qed.

Lemma fallback_spec wk base limit check_cancel : ensures G (fallback_cancel i wk base limit check_cancel) (λ x, conf x.1 = conf wk ∧
  fast_queue_dispatch_streak x.1 = fast_queue_dispatch_streak wk ∧
  match x.2 with
  | Some _ => check_cancel = false ∧ core x.1 = core_cancel 1 limit (core wk)
  | None => core x.1 = core_streaks (if check_cancel then cancel_streak wk else 0) 0 (core wk)
  end).
Proof.
  unfold fallback_cancel. destruct check_cancel; [by apply ensures_ret|]. eapply ensures_bind; [apply try_cancel_spec|]. intros [t|] _; [|by apply ensures_ret].
  set (wk1 := set_ready_dispatch_streak 0 _). apply ensures_ret. cbn [fst snd]. rewrite fast_cancel. destruct (record_cancel_spec wk1 base limit 1) as [-> ->]; done.
Qed.

(** What a call does, by what it returns: a cancelled task within the limit, or one
    more beyond it when nothing else was found; a timed task; a ready task; or
    nothing, to hand off to the host or because there is nothing. *)
Inductive outcome wk : Worker → option TaskId → Prop :=
| out_cancel wk' t : cancel_streak wk < limit_of i wk →
    core wk' = core_cancel (cancel_streak wk + 1) (limit_of i wk) (core_limit (limit_of i wk) (core wk)) →
    fast_queue_dispatch_streak wk' = fast_queue_dispatch_streak wk → outcome wk wk' (Some t)
| out_fallback wk' t : limit_of i wk ≤ cancel_streak wk → src = None →
    core wk' = core_cancel 1 (limit_of i wk) (core_limit (limit_of i wk) (core wk)) →
    fast_queue_dispatch_streak wk' = fast_queue_dispatch_streak wk → outcome wk wk' (Some t)
| out_timed track wk' t : core wk' = core_timed track (core_limit (limit_of i wk) (core wk)) →
    (is_meet_deadlines (suggestion i) = true → track = true ∧ timed_dispatch_streak wk < timed_fairness_limit wk ∨ ∀ s, src = Some s → own_ready s = false) →
    fast_queue_dispatch_streak wk' = fast_queue_dispatch_streak wk → outcome wk wk' (Some t)
| out_ready wk' t : core wk' = core_ready (core_limit (limit_of i wk) (core wk)) →
    (fast_queue_dispatch_streak wk' = 0 ∨ fast_queue_dispatch_streak wk' = fast_queue_dispatch_streak wk ∨
     fast_queue_dispatch_streak wk' = wrapping_add usize_MAX (fast_queue_dispatch_streak wk) 1 ∧ (src = Some LocalReady → fast_queue_dispatch_streak wk < fast_queue_fairness_limit wk)) →
    outcome wk wk' (Some t)
| out_handoff wk' : core wk' = core_streaks 0 0 (core_limit (limit_of i wk) (core wk)) →
    browser_ready_handoff_limit wk ≠ 0 → browser_ready_handoff_limit wk ≤ ready_dispatch_streak wk →
    fast_queue_dispatch_streak wk' = fast_queue_dispatch_streak wk → outcome wk wk' None
| out_idle wk' : src = None →
    core wk' = core_streaks (if cancel_streak wk <? limit_of i wk then cancel_streak wk else 0) 0 (core_limit (limit_of i wk) (core wk)) →
    fast_queue_dispatch_streak wk' = fast_queue_dispatch_streak wk → outcome wk wk' None.

(** The worker as the lanes see it: the limit is noted, and perhaps that it yields. *)
Definition noted wk wk' : Prop :=
  core wk' = core_limit (limit_of i wk) (core wk) ∧ conf wk' = conf wk ∧ fast_queue_dispatch_streak wk' = fast_queue_dispatch_streak wk.

Lemma yield_noted wk wk' m : noted wk wk' → noted wk (on_metrics (set_fairness_yields m) wk').
Proof. intros H. exact H. Qed.

Lemma limit_noted wk base : noted wk (let wk1 := on_metrics (set_adaptive_current_limit base) wk in
  if max_effective_limit_observed (preemption_metrics wk1) <? limit_of i wk then on_metrics (set_max_effective_limit_observed (limit_of i wk)) wk1 else wk1).
Proof. unfold noted, core_limit, core. simpl. rewrite max_if. by destruct (max_effective_limit_observed (preemption_metrics wk) <? limit_of i wk). Qed.

Lemma noted_fields wk wk' : noted wk wk' → cancel_streak wk' = cancel_streak wk ∧ timed_dispatch_streak wk' = timed_dispatch_streak wk ∧ ready_dispatch_streak wk' = ready_dispatch_streak wk ∧
  timed_fairness_limit wk' = timed_fairness_limit wk ∧ fast_queue_fairness_limit wk' = fast_queue_fairness_limit wk ∧ browser_ready_handoff_limit wk' = browser_ready_handoff_limit wk ∧
  steal_batch_size wk' = steal_batch_size wk.
Proof.
  intros (H1 & H2 & _). pose proof (f_equal k_cancel H1). pose proof (f_equal k_timed H1). pose proof (f_equal k_ready H1). unfold conf in H2. simplify_eq. done.
Qed.

Definition answered wk (x : Worker * option TaskId) : Prop := conf x.1 = conf wk ∧ outcome wk x.1 x.2.

Lemma ready_answered wk wk' x t : noted wk wk' → took_ready wk' x → x.2 = Some t → answered wk x.
Proof.
  intros Hn [Hc H] E'. destruct (noted_fields wk wk' Hn) as (_ & _ & _ & _ & Ef & _). destruct Hn as (N1 & N2 & N3). rewrite E' in H. destruct H as [H1 H2]. rewrite N3, Ef in H2. rewrite N1 in H1.
  split; [by rewrite Hc|]. rewrite E'. apply out_ready; [done|tauto].
Qed.

Lemma ready_missed wk wk' x : noted wk wk' → took_ready wk' x → x.2 = None → noted wk x.1 ∧ ∀ s, src = Some s → own_ready s = false.
Proof. intros (N1 & N2 & N3) [Hc H] E'. rewrite E' in H. destruct H as (H1 & H2 & H3). split; [|done]. split_and!; congruence. Qed.

Lemma rest_spec wk wk1 base check : check = (cancel_streak wk <? limit_of i wk) → batch_usable (steal_batch_size wk) → noted wk wk1 → (∀ s, src = Some s → timed_source s = false) →
  ensures G (andthen (should_force_ready_handoff i wk1) (λ force : bool,
    if force then nothing (set_ready_dispatch_streak 0 (set_cancel_streak 0 (on_metrics (λ m, set_browser_ready_handoff_yields (bump (browser_ready_handoff_yields m)) m) wk1)))
    else or_else (try_phase3_ready_work (late i) wk1) (λ wk2,
      or_else (andthen (try_steal i wk2) (λ '(wk2, r), match r with Some task => dispatched (record_ready_dispatch wk2) task | None => nothing wk2 end)) (λ wk2,
        fallback_cancel i wk2 base (limit_of i wk) check)))) (answered wk).
Proof.
  intros -> Hb Hn Ht. destruct (noted_fields wk wk1 Hn) as (Fc & _ & Fr & _ & _ & Fh & _). eapply ensures_bind; [apply handoff_spec|]. intros [] Hf.
  { apply ensures_ret. destruct Hf as [Hf1 Hf2]; [done|]. destruct Hn as (N1 & N2 & N3). rewrite Fh in Hf1, Hf2. rewrite Fr in Hf2. split; [exact N2|]. apply out_handoff; try done.
    change (core_streaks 0 0 (core wk1) = core_streaks 0 0 (core_limit (limit_of i wk) (core wk))). by rewrite N1. }
  eapply (ensures_or_else _ _ _ (λ wk2, noted wk wk2 ∧ ∀ s, src = Some s → own_ready s = false)).
  { eapply ensures_mono; [|apply phase3_spec]. intros x Hx. destruct x as [wk2 [t|]] eqn:Ex; simpl; [by eapply ready_answered|by eapply (ready_missed wk wk1 (wk2, None))]. }
  clear Hn Fc Fr Fh Hf wk1. intros wk1 [Hn Ho]. destruct (noted_fields wk wk1 Hn) as (Fc & _ & _ & _ & _ & _ & Fs).
  eapply (ensures_or_else _ _ _ (λ wk2, noted wk wk2 ∧ ∀ s, src = Some s → steals s = false)).
  { eapply ensures_bind; [apply try_steal_spec; by rewrite Fs|]. intros [wk2 [t|]] [(S1 & S2 & S3) Hs]; simpl in *; apply ensures_ret; simpl.
    - destruct Hn as (N1 & N2 & N3). destruct (record_ready_spec wk2) as [R1 R2]. split; simpl; [congruence|]. apply out_ready; [congruence|]. right. left.
      transitivity (fast_queue_dispatch_streak wk2); [|congruence]. unfold record_ready_dispatch. by destruct (_ <? _).
    - destruct Hn as (N1 & N2 & N3). split; [split_and!; congruence|auto]. }
  clear Hn Fc Fs wk1. intros wk1 [Hn Hs]. destruct (noted_fields wk wk1 Hn) as (Fc & _). assert (src = None) as Hsrc.
  { destruct src as [s0|]; [|done]. specialize (Ht s0 eq_refl). specialize (Ho s0 eq_refl). specialize (Hs s0 eq_refl). by destruct s0. }
  destruct Hn as (N1 & N2 & N3). eapply ensures_mono; [|apply fallback_spec]. intros [wk2 r] (C1 & C2 & C3). simpl in *. split; [simpl; congruence|]. simpl. rewrite Fc in C3. destruct r as [t|].
  - destruct C3 as [C3 C4]. N_bools. apply out_fallback; congruence || lia.
  - apply out_idle; congruence.
Qed.

Lemma ready_streak wk wk' t : took_ready wk (wk', Some t) → took_ready wk (set_timed_dispatch_streak 0 wk', Some t).
Proof.
  intros (H1 & H2 & H3). split; [exact H1|]. split; [|exact H3]. simpl in *. rewrite <- H2. assert (timed_dispatch_streak wk' = 0) as H4 by exact (f_equal k_timed H2). unfold core. simpl. by rewrite H4.
Qed.

Lemma early_spec wk wk1 check_timed : noted wk wk1 → check_timed = (timed_dispatch_streak wk <? timed_fairness_limit wk) →
  ensures G (if negb check_timed && is_meet_deadlines (suggestion i) then
      andthen (try_phase3_ready_work (early i) wk1) (λ '(wk, r), match r with Some task => dispatched (set_timed_dispatch_streak 0 wk) task
        | None => nothing (on_metrics (λ m, set_fairness_yields (bump (fairness_yields m)) m) wk) end)
    else nothing wk1)
    (λ x, match x.2 with
          | Some t => answered wk (x.1, Some t)
          | None => noted wk x.1 ∧ (is_meet_deadlines (suggestion i) = true → check_timed = true ∨ ∀ s, src = Some s → own_ready s = false)
          end).
Proof.
  intros Hn ->. destruct (N.ltb_spec (timed_dispatch_streak wk) (timed_fairness_limit wk)); simpl; [apply ensures_ret; simpl; auto|].
  destruct (is_meet_deadlines (suggestion i)); [|by apply ensures_ret]. eapply ensures_bind; [apply phase3_spec|]. intros [wk2 [t|]] Hx; apply ensures_ret; simpl.
  - eapply ready_answered; [done| |done]. by apply ready_streak.
  - destruct (ready_missed wk wk1 (wk2, None) Hn Hx eq_refl) as [Hn2 Hs]. auto.
Qed.

Lemma next_task_spec wk : conf_ok wk → batch_usable (steal_batch_size wk) → ensures G (next_task i wk) (answered wk).
Proof.
  intros Hk Hb. unfold next_task. fold (limit_of i wk). pose proof (limit_noted wk (current_base_cancel_limit wk)) as Hn. cbn zeta in Hn |- *. set (wk1 := if max_effective_limit_observed _ <? _ then _ else _) in *. clearbody wk1.
  set (wk2 := if cancel_streak wk1 <? limit_of i wk then wk1 else _). assert (noted wk wk2) as Hn2 by (unfold wk2; destruct (cancel_streak wk1 <? limit_of i wk); [done|by apply yield_noted]). clearbody wk2.
  destruct (noted_fields wk wk1 Hn) as (-> & _). destruct (noted_fields wk wk2 Hn2) as (_ & -> & _ & -> & _).
  eapply (ensures_or_else _ _ _ (λ wk2, noted wk wk2 ∧ (is_meet_deadlines (suggestion i) = true → (timed_dispatch_streak wk <? timed_fairness_limit wk) = true ∨ ∀ s, src = Some s → own_ready s = false))); [by apply (early_spec wk)|]. clear Hn Hn2 wk1 wk2. intros wk1 [Hn Hm]. destruct (limit_bounds i wk Hk) as [_ Hmax]. destruct (noted_fields wk wk1 Hn) as (Fc & _).
  eapply (ensures_or_else _ _ _ (λ wk2, wk2 = wk1 ∧ ∀ s, src = Some s → timed_source s = false)).
  - eapply ensures_mono; [|apply priority_lanes_spec; [done|]; rewrite Fc; apply N.ltb_lt]. intros [wk2 [t|]] H; [|exact H]. destruct H as (L1 & L2 & L3), Hn as (N1 & N2 & N3).
    split; [simpl in *; congruence|]. rewrite N1, Fc in L3. simpl in *. destruct L3 as [L3|[Hc L3]].
    + eapply out_timed; [exact L3| |congruence]. intros Em. rewrite Em. simpl. destruct (Hm Em) as [Ht|Ht]; [left|by right]. split; [done|by apply N.ltb_lt].
    + N_bools. apply out_cancel; congruence || lia.
  - intros ? [-> Ht]. by apply rest_spec.
Qed.

(** *** Counters and lanes

    A call that takes a task out of a lane counts it as work of that lane. *)

Lemma local_rep w : G w → ∃ X, sched_rep (local w) X.
Proof. intros Hw. destruct (wo_local w (proj1 (HG w Hw))) as (X & HX & _). eauto. Qed.

Definition found (post : Worker → Prop) (x : Worker * option TaskId) : Prop := x.2 ≠ None ∧ post x.1.

(** Dispatching what a pop found. *)
Lemma tracks_dispatch {A} K (p : step (option A)) (f : option A → step (Worker * option TaskId)) post : tracks G K p (λ r, r ≠ None) →
  (∀ a b, may G (f (Some a)) (Returns b) → found post b) → (∀ r, tracks G K (f r) (found post)) → tracks G K (andthen p f) (found post).
Proof. intros Hp Hf Hq. eapply tracks_bind; [exact Hp| |auto]. intros [a|] b Hn Hb; [by eapply Hf|done]. Qed.

Section tracked.
Context (K : World → World → TaskId → bool) (post : Worker → Prop) (wk : Worker).

(** The cancel and timed lanes, whatever each of them does to the worker when it finds
    something. *)
Lemma priority_lanes_tracks wk1 base limit check_cancel check_timed :
  tracks G K (global_cancel wk1 base limit) (found post) → tracks G K (local_cancel i wk1 base limit) (found post) →
  (∀ track, tracks G K (global_timed i wk1 track) (found post)) → (∀ track, tracks G K (local_timed i wk1 track) (found post)) →
  tracks G K (priority_lanes i wk1 base limit check_cancel check_timed) (found post).
Proof.
  intros H1 H2 H3 H4.
  assert (Hidle : ∀ {A} (p : step (option A)) f, (∀ a b, may G (f (Some a)) (Returns b) → b.2 ≠ None) → f None = nothing wk1 → ∀ wk2, may G (andthen p f) (Returns (wk2, None)) → wk2 = wk1).
  { intros A p f Hf Hn wk2 Hm. apply (may_bind G p) in Hm as (ra & _ & Hm). destruct ra as [[a|]| |]; [by apply Hf in Hm| |by apply may_ret_iff in Hm..]. rewrite Hn in Hm. apply may_ret_iff in Hm. by simplify_eq. }
  assert (Hc : ∀ r (b : Worker * option TaskId), may G (dispatch_cancel wk1 base limit (Some r)) (Returns b) → b.2 ≠ None) by (intros r b Hb%may_ret_iff; by simplify_eq).
  assert (Ht : ∀ track r (b : Worker * option TaskId), may G (dispatch_timed wk1 track (Some r)) (Returns b) → b.2 ≠ None) by (intros track r b Hb%may_ret_iff; by simplify_eq).
  assert (Hgc : ∀ wk2, may G (global_cancel wk1 base limit) (Returns (wk2, None)) → wk2 = wk1) by (apply Hidle; [intros a; apply Hc|done]).
  assert (Hlc : ∀ wk2, may G (local_cancel i wk1 base limit) (Returns (wk2, None)) → wk2 = wk1) by (apply Hidle; [intros a; apply Hc|done]).
  assert (Hgt : ∀ track wk2, may G (global_timed i wk1 track) (Returns (wk2, None)) → wk2 = wk1) by (intros track; apply Hidle; [intros a; apply Ht|done]).
  assert (Hlt : ∀ track wk2, may G (local_timed i wk1 track) (Returns (wk2, None)) → wk2 = wk1) by (intros track; apply Hidle; [intros a; apply Ht|done]).
  assert (Hno : ∀ wk2, may G (nothing wk1) (Returns (wk2, None)) → wk2 = wk1) by (intros wk2 Hm%may_ret_iff; by simplify_eq).
  assert (Hfind : ∀ p, tracks G K p (found post) → tracks G K p (λ x, x.2 ≠ None ∧ found post x)) by (intros p; apply tracks_mono; intros x Hx; split; [apply Hx|done]).
  unfold priority_lanes. destruct (is_meet_deadlines (suggestion i) && check_timed).
  - apply tracks_or_else; [auto|]. intros ? ->%Hgt. apply tracks_or_else; [auto|]. intros ? ->%Hlt. destruct check_cancel.
    + apply tracks_or_else; [auto|]. by intros ? ->%Hgc.
    + apply tracks_or_else; [apply tracks_ret|]. intros ? ->%Hno. apply tracks_ret.
  - assert (Htimed : tracks G K (or_else (global_timed i wk1 false) (λ wk2, local_timed i wk2 false)) (found post)) by (apply tracks_or_else; [auto|]; by intros ? ->%Hgt).
    destruct check_cancel.
    + apply tracks_or_else; [auto|]. intros ? ->%Hgc. apply tracks_or_else; [auto|]. by intros ? ->%Hlc.
    + apply tracks_or_else; [apply tracks_ret|]. intros ? ->%Hno. apply tracks_or_else; [apply tracks_ret|]. by intros ? ->%Hno.
Qed.

Context (Hk : conf_ok wk) (Hb : batch_usable (steal_batch_size wk)).
Context (Hphase : ∀ d wk1, noted wk wk1 → tracks G K (try_phase3_ready_work d wk1) (found post)).
Context (Hlanes : ∀ wk1 base c t, noted wk wk1 → tracks G K (priority_lanes i wk1 base (limit_of i wk) c t) (found post)).
Context (Hquiet : ∀ w w' t, lanes_rel w w' → K w w' t = false).
Context (Hfall : ∀ wk1 base c, noted wk wk1 → tracks G K (fallback_cancel i wk1 base (limit_of i wk) c) (λ x, post x.1)).
Context (Hstreak : ∀ wk1, post wk1 → post (set_timed_dispatch_streak 0 wk1)).

Lemma found_post p : tracks G K p (found post) → tracks G K p (λ x, x.2 ≠ None ∧ post x.1).
Proof. done. Qed.

Lemma rest_tracks wk1 base check : noted wk wk1 →
  tracks G K (andthen (should_force_ready_handoff i wk1) (λ force : bool,
    if force then nothing (set_ready_dispatch_streak 0 (set_cancel_streak 0 (on_metrics (λ m, set_browser_ready_handoff_yields (bump (browser_ready_handoff_yields m)) m) wk1)))
    else or_else (try_phase3_ready_work (late i) wk1) (λ wk2,
      or_else (andthen (try_steal i wk2) (λ '(wk2, r), match r with Some task => dispatched (record_ready_dispatch wk2) task | None => nothing wk2 end)) (λ wk2,
        fallback_cancel i wk2 base (limit_of i wk) check)))) (λ x, post x.1).
Proof.
  intros Hn. eapply tracks_then; [exact Hquiet|apply handoff_keeps|]. intros [] _; [apply tracks_ret|].
  apply tracks_or_else; [by apply found_post, Hphase|]. intros wk2 Hm. destruct (phase3_spec (late i) wk1 _ Hm) as (x & [= <-] & Hx).
  destruct (ready_missed wk wk1 (wk2, None) Hn Hx eq_refl) as [Hn2 _]. simpl in Hn2.
  apply tracks_or_else.
  - eapply tracks_then; [exact Hquiet|apply try_steal_keeps|]. intros [wk3 [t|]] _; apply tracks_ret.
  - intros wk3 Hm3. apply Hfall. apply (may_bind G (try_steal i wk2)) in Hm3 as (ra & H1 & H2).
    destruct (noted_fields wk wk2 Hn2) as (_ & _ & _ & _ & _ & _ & Fs). destruct (try_steal_spec wk2 ltac:(by rewrite Fs) _ H1) as ([wk4 r] & -> & (S1 & S2 & S3) & _).
    destruct r as [t|]; apply may_ret_iff in H2; [done|]. injection H2 as <-. destruct Hn2 as (N1 & N2 & N3). simpl in *. split_and!; congruence.
Qed.

Lemma next_task_tracks : tracks G K (next_task i wk) (λ x, post x.1).
Proof.
  unfold next_task. fold (limit_of i wk). pose proof (limit_noted wk (current_base_cancel_limit wk)) as Hn. cbn zeta in Hn |- *. set (wk1 := if max_effective_limit_observed _ <? _ then _ else _) in *. clearbody wk1.
  set (wk2 := if cancel_streak wk1 <? limit_of i wk then wk1 else _). assert (noted wk wk2) as Hn2 by (unfold wk2; destruct (cancel_streak wk1 <? limit_of i wk); [done|by apply yield_noted]). clearbody wk2.
  destruct (noted_fields wk wk1 Hn) as (-> & _). destruct (noted_fields wk wk2 Hn2) as (_ & -> & _ & -> & _). destruct (limit_bounds i wk Hk) as [_ Hmax].
  apply tracks_or_else.
  { destruct (_ && _); [|apply tracks_ret]. eapply tracks_bind; [by apply Hphase| |intros [wk3 [t|]] _; apply tracks_ret].
    intros [wk3 [t|]] b [Hf Hp] Hm; [|done]. apply may_ret_iff in Hm. simplify_eq. split; [done|]. simpl in *. auto. }
  intros wk3 Hm. destruct (early_spec wk wk2 _ Hn2 eq_refl _ Hm) as (x & [= <-] & Hn3 & _). simpl in Hn3. destruct (noted_fields wk wk3 Hn3) as (Fc & _).
  apply tracks_or_else; [by apply found_post, Hlanes|]. intros wk4 Hm4.
  destruct (priority_lanes_spec wk3 (current_base_cancel_limit wk) (limit_of i wk) (cancel_streak wk <? limit_of i wk) (timed_dispatch_streak wk <? timed_fairness_limit wk) Hmax ltac:(rewrite Fc; apply N.ltb_lt) _ Hm4) as (x & [= <-] & Hx & _).
  simpl in Hx. subst wk4. by apply rest_tracks.
Qed.

End tracked.

Lemma cancel_counts wk base limit r b : may G (dispatch_cancel wk base limit (Some r)) (Returns b) → found (λ wk', cancel_dispatches (preemption_metrics wk') = bump (cancel_dispatches (preemption_metrics wk))) b.
Proof. intros Hb%may_ret_iff. simplify_eq. split; [done|]. simpl. unfold record_cancel_dispatch. by repeat case_match. Qed.

Lemma timed_counts wk track r b : may G (dispatch_timed wk track (Some r)) (Returns b) → found (λ wk', timed_dispatches (preemption_metrics wk') = bump (timed_dispatches (preemption_metrics wk))) b.
Proof. intros Hb%may_ret_iff. simplify_eq. split; [done|]. simpl. destruct track; simpl; unfold record_timed_dispatch; by repeat case_match. Qed.

Lemma noted_counts wk wk' : noted wk wk' → cancel_dispatches (preemption_metrics wk') = cancel_dispatches (preemption_metrics wk) ∧ timed_dispatches (preemption_metrics wk') = timed_dispatches (preemption_metrics wk).
Proof. intros (H & _). split; [exact (f_equal n_cancel H)|exact (f_equal n_timed H)]. Qed.

(** A call that takes a task out of a cancel lane counts a cancel dispatch. *)
Lemma cancel_counted wk : conf_ok wk → batch_usable (steal_batch_size wk) →
  tracks G from_cancel (next_task i wk) (λ x, cancel_dispatches (preemption_metrics x.1) = bump (cancel_dispatches (preemption_metrics wk))).
Proof.
  intros Hk Hb. apply (next_task_tracks from_cancel (λ wk', cancel_dispatches (preemption_metrics wk') = bump (cancel_dispatches (preemption_metrics wk)))); try done.
  - intros d wk1 _. eapply tracks_quiet; [exact lanes_cancel|apply phase3_keeps].
  - intros wk1 base c t Hn. destruct (noted_counts wk wk1 Hn) as [<- _]. apply priority_lanes_tracks.
    + apply tracks_dispatch; [by apply global_cancel_tracks|intros a b; apply cancel_counts|intros [a|]; apply tracks_ret].
    + apply tracks_dispatch; [apply local_cancel_tracks, local_rep|intros a b; apply cancel_counts|intros [a|]; apply tracks_ret].
    + intros track. eapply tracks_then; [exact but_timed_not|apply global_timed_keeps|intros [a|] _; apply tracks_ret].
    + intros track. eapply tracks_then; [exact but_timed_not|apply local_timed_keeps|intros [a|] _; apply tracks_ret].
  - intros w w' t [H _]. by apply lanes_cancel.
  - intros wk1 base c Hn. destruct (noted_counts wk wk1 Hn) as [<- _]. unfold fallback_cancel. destruct c; [apply tracks_ret|].
    eapply (tracks_bind _ _ _ _ (λ r, r ≠ None)).
    + unfold try_cancel_work. eapply tracks_bind; [by apply global_cancel_tracks| |].
      * intros [a|] b Hn' Hm; [|done]. apply may_ret_iff in Hm. by simplify_eq.
      * intros [a|] _; [apply tracks_ret|apply local_cancel_tracks, local_rep].
    + intros [a|] b Hn' Hm; [|done]. apply may_ret_iff in Hm. simplify_eq. simpl. unfold record_cancel_dispatch. by repeat case_match.
    + intros [a|] _; apply tracks_ret.
Qed.

(** A call that takes a task out of a timed lane counts a timed dispatch. *)
Lemma timed_counted wk : conf_ok wk → batch_usable (steal_batch_size wk) →
  tracks G from_timed (next_task i wk) (λ x, timed_dispatches (preemption_metrics x.1) = bump (timed_dispatches (preemption_metrics wk))).
Proof.
  intros Hk Hb. apply (next_task_tracks from_timed (λ wk', timed_dispatches (preemption_metrics wk') = bump (timed_dispatches (preemption_metrics wk)))); try done.
  - intros d wk1 _. eapply tracks_quiet; [exact lanes_timed|apply phase3_keeps].
  - intros wk1 base c t Hn. destruct (noted_counts wk wk1 Hn) as [_ <-]. apply priority_lanes_tracks.
    + eapply tracks_then; [exact but_cancel_not|apply global_cancel_keeps|intros [a|] _; apply tracks_ret].
    + eapply tracks_then; [exact but_cancel_not|apply local_cancel_keeps|intros [a|] _; apply tracks_ret].
    + intros track. apply tracks_dispatch; [by apply global_timed_tracks|intros a b; apply timed_counts|intros [a|]; apply tracks_ret].
    + intros track. apply tracks_dispatch; [apply local_timed_tracks, local_rep|intros a b; apply timed_counts|intros [a|]; apply tracks_ret].
  - intros w w' t [H _]. by apply lanes_timed.
  - intros wk1 base c Hn. unfold fallback_cancel. destruct c; [apply tracks_ret|].
    eapply tracks_then; [exact but_cancel_not| |intros [a|] _; apply tracks_ret]. unfold try_cancel_work.
    apply keeps_andthen; [apply global_cancel_keeps|]. intros [a|]; [done|apply local_cancel_keeps].
Qed.

(** A call that takes a task out of the stealable queue lengthens its streak, within the
    limit while the local ready lane has work. *)
Definition fast_counted_post wk wk' : Prop := fast_queue_dispatch_streak wk' = wrapping_add usize_MAX (fast_queue_dispatch_streak wk) 1 ∧
  (src = Some LocalReady → fast_queue_dispatch_streak wk < fast_queue_fairness_limit wk).

Lemma phase3_fast d wk : tracks G from_fast (try_phase3_ready_work d wk) (found (fast_counted_post wk)).
Proof.
  unfold try_phase3_ready_work. eapply tracks_then; [exact lanes_fast|apply pinned_keeps|]. intros [t|] _; [apply tracks_ret|].
  set (first := fast_queue_fairness_limit wk <=? fast_queue_dispatch_streak wk). apply tracks_or_else.
  { destruct first; [|apply tracks_ret]. eapply tracks_quiet; [exact lanes_fast|apply local_lane_keeps]. }
  intros wk1 Hm. assert (stays wk wk1 ∧ (src = Some LocalReady → fast_queue_dispatch_streak wk < fast_queue_fairness_limit wk)) as [(_ & _ & H3) Hlim].
  { unfold first in Hm. destruct (N.leb_spec (fast_queue_fairness_limit wk) (fast_queue_dispatch_streak wk)).
    - destruct (local_lane_spec wk wk (hint_streak d) ltac:(done) _ Hm) as (x & [= <-] & _ & Hs & Hn). done.
    - apply may_ret_iff in Hm. simplify_eq. done. }
  eapply tracks_bind; [apply pop_fast_tracks| |].
  - intros [t|] b Hn Hb; [|done]. apply (may_bind G (peek_blocked_local_ready_for_inversion d)) in Hb as (rb & _ & Hb). destruct rb as [blocked| |]; [|by apply may_ret_iff in Hb..].
    match type of Hb with may _ (andthen ?p _) _ => apply (may_bind G p) in Hb as (rw & Hw & Hb) end. destruct rw as [wk2| |]; [|by apply may_ret_iff in Hb..].
    apply may_ret_iff in Hb. simplify_eq. split; [done|]. cbn [fst]. split; [|done].
    assert (fast_queue_dispatch_streak wk2 = fast_queue_dispatch_streak wk) as E2.
    { destruct blocked as [p|]; [|apply may_ret_iff in Hw; by simplify_eq]. apply (may_bind G (task_sched_priority t)) in Hw as (rp & _ & Hw).
      destruct rp as [prio| |]; [|by apply may_ret_iff in Hw..]. apply may_ret_iff in Hw. destruct (inversion_spec wk1 (Some p) prio) as (_ & _ & E3). rewrite <- H3, <- E3. set (wk3 := record_ready_priority_inversion _ _ _) in *. by simplify_eq. }
    unfold record_ready_dispatch. destruct (_ <? _); simpl; by rewrite E2.
  - intros [t|] _.
    + eapply tracks_then; [exact lanes_fast|apply inversion_keeps|]. intros [p|] _; (eapply tracks_then; [exact lanes_fast| |intros wk2 _; apply tracks_ret]); [|done].
      apply keeps_andthen; [apply keeps_load, lanes_refl|done].
    + eapply tracks_then; [exact lanes_fast|apply take_global_keeps|]. intros [wk2 [pt|]] _.
      * eapply tracks_then; [exact lanes_fast|apply inversion_keeps|]. intros blocked _. apply tracks_ret.
      * destruct first; [apply tracks_ret|]. eapply tracks_quiet; [exact lanes_fast|apply local_lane_keeps].
Qed.

Lemma fast_counted wk : conf_ok wk → batch_usable (steal_batch_size wk) → tracks G from_fast (next_task i wk) (λ x, fast_counted_post wk x.1).
Proof.
  intros Hk Hb. apply (next_task_tracks from_fast (fast_counted_post wk)); try done.
  - intros d wk1 Hn. destruct (noted_fields wk wk1 Hn) as (_ & _ & _ & _ & Ef & _). destruct Hn as (_ & _ & E3). unfold fast_counted_post. rewrite <- E3, <- Ef. apply phase3_fast.
  - intros wk1 base c t Hn. apply priority_lanes_tracks.
    + eapply tracks_then; [exact but_cancel_fast|apply global_cancel_keeps|intros [a|] _; apply tracks_ret].
    + eapply tracks_then; [exact but_cancel_fast|apply local_cancel_keeps|intros [a|] _; apply tracks_ret].
    + intros track. eapply tracks_then; [exact but_timed_fast|apply global_timed_keeps|intros [a|] _; apply tracks_ret].
    + intros track. eapply tracks_then; [exact but_timed_fast|apply local_timed_keeps|intros [a|] _; apply tracks_ret].
  - exact lanes_fast.
  - intros wk1 base c Hn. unfold fallback_cancel. destruct c; [apply tracks_ret|].
    eapply tracks_then; [exact but_cancel_fast| |intros [a|] _; apply tracks_ret]. unfold try_cancel_work.
    apply keeps_andthen; [apply global_cancel_keeps|]. intros [a|]; [done|apply local_cancel_keeps].
Qed.

End call.

(** ** Every run

    Calls of [next_task] under any interference that keeps the queues well formed,
    with parking and every change of configuration in between. *)

Inductive worker_step : Worker → Worker → Prop :=
| ws_call i wk wk' r : may world_ok (next_task i wk) (Returns (wk', r)) → worker_step wk wk'
| ws_park wk : worker_step wk (parked wk)
| ws_arm arm wk : worker_step wk (adaptive_on_dispatch arm wk)
| ws_adaptive enable wk : worker_step wk (configure_adaptive_cancel_streak enable wk)
| ws_batch size failures wk : worker_step wk (configure_steal_batch_size size failures wk)
| ws_profile profile failures wk : worker_step wk (configure_adaptive_batch_profile profile failures wk)
| ws_handoff limit wk : worker_step wk (configure_browser_ready_handoff_limit limit wk).

Definition certified (c : Core) : Prop :=
  n_exceeded c = 0 ∧ k_cancel c ≤ top_limit c ∧ top_cancel c ≤ top_limit c ∧ top_timed c ≤ top_limit c ∧ top_ready c ≤ top_limit c.

Lemma conf_ok_eq wk wk' : conf wk' = conf wk → conf_ok wk → conf_ok wk'.
Proof. unfold conf. intros Hc [H1 H2 H3 H4]. injection Hc as E1 E2 _ E4 E5 _ _ _. split; rewrite ?E1, ?E2, ?E4, ?E5; done. Qed.

Lemma call_spec i src wk r (G : World → Prop) : (∀ w, G w → world_ok w ∧ ∀ s, src = Some s → visible s i w) →
  (∀ n j, src = Some (StealHeap n j) → stealer_locked i j = false ∧ 0 < steal_batch_size wk) → conf_ok wk → may G (next_task i wk) r →
  ∃ wk' t, r = Returns (wk', t) ∧ conf wk' = conf wk ∧ outcome i src wk wk' t.
Proof.
  intros HG Hl Hk Hr. destruct (next_task_spec G i src HG (λ n j E', proj1 (Hl n j E')) wk Hk (λ n j E', proj2 (Hl n j E')) r Hr) as ([wk' t] & -> & Hc & Ho). eauto.
Qed.

Lemma outcome_certified i src wk wk' t : conf_ok wk → outcome i src wk wk' t → certified (core wk) → certified (core wk').
Proof.
  intros Hk Ho. destruct (limit_bounds i wk Hk) as [Hmin Hmax]. intros (C1 & C2 & C3 & C4 & C5).
  destruct Ho as [wk' t Hs -> _|wk' t Hs _ -> _|track wk' t -> _ _|wk' t -> _|wk' -> _ _ _|wk' _ -> _]; unfold certified, core_cancel, core_timed, core_ready, core_streaks, core_limit; simpl in *.
  - rewrite (proj2 (N.ltb_ge _ _)) by lia. lia.
  - rewrite (proj2 (N.ltb_ge _ _)) by lia. lia.
  - lia.
  - lia.
  - lia.
  - destruct (_ <? _); lia.
Qed.

Lemma arm_bound arm limit : ADAPTIVE_STREAK_ARMS !! arm = Some limit → limit ≤ usize_MAX.
Proof. unfold ADAPTIVE_STREAK_ARMS. do 5 (destruct arm as [|arm]; [intros [= <-]; by vm_compute|]). done. Qed.

Lemma step_certified wk wk' : worker_step wk wk' → conf_ok wk ∧ certified (core wk) → conf_ok wk' ∧ certified (core wk').
Proof.
  assert (Harm : ∀ limit wk, limit ≤ usize_MAX → conf_ok wk → conf_ok (use_arm limit wk)) by (intros limit wk0 Hl [H1 H2 H3 H4]; split; simpl; [done|congruence|done|done]).
  intros Hs [Hk Hc]. destruct Hs as [i wk wk' r Hr|wk|arm wk|enable wk|size failures wk|profile failures wk|limit wk].
  - destruct (call_spec i None wk _ world_ok ltac:(done) ltac:(done) Hk Hr) as (wk2 & t & [= <- <-] & E' & Ho). split; [by apply (conf_ok_eq wk)|by eapply outcome_certified].
  - split; [by apply (conf_ok_eq wk)|]. destruct Hc as (C1 & C2 & C3 & C4 & C5). split_and!; try done. simpl. lia.
  - unfold adaptive_on_dispatch. destruct (adaptive_cancel_policy wk); [|done]. destruct (ADAPTIVE_STREAK_ARMS !! arm) eqn:Ea; [|done]. split; [apply Harm; [by eapply arm_bound|done]|exact Hc].
  - unfold configure_adaptive_cancel_streak. destruct enable; [destruct (adaptive_cancel_policy wk) eqn:Ep|].
    + split; [apply Harm; [by apply (co_policy wk Hk)|done]|exact Hc].
    + split; [by apply Harm|exact Hc].
    + split; [|exact Hc]. destruct Hk as [H1 H2 H3 H4]. by split.
  - split; [|exact Hc]. destruct Hk as [H1 H2 H3 H4]. by split.
  - split; [|exact Hc]. destruct Hk as [H1 H2 H3 H4]. by split.
  - unfold configure_browser_ready_handoff_limit. destruct Hk as [H1 H2 H3 H4]. destruct (limit =? 0); (split; [by split|exact Hc]).
Qed.

Lemma run_certified wk wk' : rtc worker_step wk wk' → conf_ok wk ∧ certified (core wk) → conf_ok wk' ∧ certified (core wk').
Proof. induction 1 as [|x y z Hs _ IH]; [done|]. intros Hx. by eapply IH, step_certified. Qed.

(** C18: Whatever other threads do to the queues, and however a worker is parked and
    reconfigured between its calls: each call of [next_task] returns, and the
    certificate of the worker never reports a cancel dispatch beyond the effective
    limit, nor a cancel streak or a stall of ready or timed work longer than the
    effective limit it states; so its invariant fails only by a recorded inversion of
    priorities. *)
Theorem worker_certificate_sound workers limit wk : limit ≤ usize_MAX → rtc worker_step (new_worker workers limit) wk →
  (∀ i r, may world_ok (next_task i wk) r → ∃ wk' t, r = Returns (wk', t)) ∧
  let c := preemption_fairness_certificate wk in
  cert_effective_limit_exceedances c = 0 ∧ observed_max_cancel_streak c ≤ cert_effective_limit c ∧ observed_non_cancel_stall_steps c ≤ cert_effective_limit c ∧
  invariant_holds c = (cert_ready_priority_inversions c =? 0).
Proof.
  intros Hl Hr. assert (conf_ok wk ∧ certified (core wk)) as [Hk (C1 & C2 & C3 & C4 & C5)].
  { apply (run_certified _ _ Hr). split; [split; simpl; try done; mlia|split_and!; simpl; lia]. }
  split; [intros i r Hm; destruct (call_spec i None wk r world_ok ltac:(done) ltac:(done) Hk Hm) as (wk' & t & -> & _); eauto|].
  simpl in *. unfold invariant_holds, observed_non_cancel_stall_steps. simpl. rewrite C1. split_and!; [done|lia|lia|]. rewrite (proj2 (N.leb_le _ _)) by lia. done.
Qed.

(** ** Streaks

    [streak G inputs K n wk wk']: [n] calls in a row, each of which dispatches a task
    that one of its accesses took out of a lane of the kind [K]; the policy may change
    the limit after each. *)

Inductive streak (G : Inputs → World → Prop) (inputs : Worker → Inputs → Prop) (K : World → World → TaskId → bool) : N → Worker → Worker → Prop :=
| streak_none wk : streak G inputs K 0 wk wk
| streak_more n i wk wk1 wk2 wk3 l t : inputs wk i → trace (G i) (next_task i wk) l (Returns (wk1, Some t)) → takes K l t = true →
    wk2 = wk1 ∨ (∃ arm, wk2 = adaptive_on_dispatch arm wk1) → streak G inputs K n wk2 wk3 → streak G inputs K (n + 1) wk wk3.

(** The worker's own counts of dispatches. *)
Definition counts_cancel wk wk' : Prop := cancel_dispatches (preemption_metrics wk') = bump (cancel_dispatches (preemption_metrics wk)).
Definition counts_timed wk wk' : Prop := timed_dispatches (preemption_metrics wk') = bump (timed_dispatches (preemption_metrics wk)).

(** Worlds in which the work at the source is visible. *)
Definition seen (src : Source) i w : Prop := world_ok w ∧ visible src i w.
Definition reachable (src : Source) wk i : Prop := ∀ n j, src = StealHeap n j → stealer_locked i j = false ∧ 0 < steal_batch_size wk.

Lemma bump_moves n : bump n ≠ n.
Proof.
  unfold bump, wrapping_add. intros Hn. assert (n < u64_MAX + 1) as Hlt by (rewrite <- Hn; apply N.mod_lt; mlia).
  destruct (decide (n = u64_MAX)) as [->|]; [by vm_compute in Hn|]. rewrite N.mod_small in Hn; lia.
Qed.

Lemma seen_call src i wk r : reachable src wk i → conf_ok wk → may (seen src i) (next_task i wk) r → ∃ wk' t, r = Returns (wk', t) ∧ conf wk' = conf wk ∧ outcome i (Some src) wk wk' t.
Proof. intros Hr Hk Hm. eapply call_spec; [|intros n j [= E']; by apply (Hr n j)|done|exact Hm]. intros w [H1 H2]. split; [done|]. by intros s [= <-]. Qed.

(** What the policy does in between keeps the streaks and the limits of the other
    lanes. *)
Definition lanes wk := (cancel_streak wk, timed_dispatch_streak wk, fast_queue_dispatch_streak wk, timed_fairness_limit wk, fast_queue_fairness_limit wk, steal_batch_size wk).

Lemma between wk wk' : conf_ok wk → wk' = wk ∨ (∃ arm, wk' = adaptive_on_dispatch arm wk) → conf_ok wk' ∧ lanes wk' = lanes wk.
Proof.
  intros Hk [->|[arm ->]]; [done|]. unfold adaptive_on_dispatch. destruct (adaptive_cancel_policy wk); [|done]. destruct (ADAPTIVE_STREAK_ARMS !! arm) as [l|] eqn:Ea; [|done].
  split; [|done]. pose proof (arm_bound _ _ Ea). destruct Hk as [H1 H2 H3 H4]. split; simpl; try done. congruence.
Qed.

(** A streak that each call lengthens a counter by, up to a limit that the calls
    respect, is no longer than the limit. *)
Lemma streak_bounded src inputs K (count limit : Worker → N) n wk wk' :
  (∀ x i, inputs x i → reachable src x i) →
  (∀ x y, lanes x = lanes y → count x = count y ∧ limit x = limit y) → (∀ x y, conf x = conf y → limit x = limit y) →
  (∀ i x y t, conf_ok x → inputs x i → outcome i (Some src) x y (Some t) →
     (∃ l, trace (seen src i) (next_task i x) l (Returns (y, Some t)) ∧ takes K l t = true) → count x < limit x ∧ count y = count x + 1) →
  conf_ok wk → streak (seen src) inputs K n wk wk' → n ≤ limit wk.
Proof.
  intros Hin Hlanes Hconf Hkind Hk Hs. assert (n = 0 ∨ n + count wk ≤ limit wk); [|lia]. induction Hs as [wk|n i wk wk1 wk2 wk3 l t Hi Hm Hkd Hb Hs IH]; [by left|right].
  destruct (seen_call src i wk _ (Hin _ _ Hi) Hk (trace_may _ _ _ _ Hm)) as (? & ? & [= <- <-] & Hc & Ho). destruct (Hkind i wk wk1 t Hk Hi Ho ltac:(by exists l)) as [H1 H2].
  destruct (between wk1 wk2 (conf_ok_eq _ _ Hc Hk) Hb) as [Hk2 Hl]. apply Hlanes in Hl as [Hl1 Hl2]. apply Hconf in Hc. destruct (IH Hk2); lia.
Qed.

Lemma conf_limits x y : conf x = conf y → timed_fairness_limit x = timed_fairness_limit y ∧ fast_queue_fairness_limit x = fast_queue_fairness_limit y.
Proof. unfold conf. intros Hc. by simplify_eq. Qed.

(** A call shows which of the counters moved. *)
Ltac counters := repeat match goal with H : core _ = _ |- _ => first
  [ pose proof (f_equal n_cancel H); pose proof (f_equal n_timed H); pose proof (f_equal k_cancel H); pose proof (f_equal k_timed H); clear H ] end; simpl in *.

Lemma cancel_kind i src wk wk' t : src ≠ None → outcome i src wk wk' (Some t) → counts_cancel wk wk' → cancel_streak wk < limit_of i wk ∧ cancel_streak wk' = cancel_streak wk + 1.
Proof.
  unfold counts_cancel. intros Hsrc Ho Hc. pose proof (bump_moves (cancel_dispatches (preemption_metrics wk))) as Hb. inversion Ho; subst; counters; try congruence. split; congruence.
Qed.

Lemma timed_kind i src wk wk' t : conf_ok wk → own_ready src = true → is_meet_deadlines (suggestion i) = true → outcome i (Some src) wk wk' (Some t) → counts_timed wk wk' →
  timed_dispatch_streak wk < timed_fairness_limit wk ∧ timed_dispatch_streak wk' = timed_dispatch_streak wk + 1.
Proof.
  unfold counts_timed. intros Hk Hown Hm Ho Hc. pose proof (bump_moves (timed_dispatches (preemption_metrics wk))) as Hb. inversion Ho as [| |track ? ? Hcore Ht Hf| | |]; subst; counters; try congruence.
  destruct (Ht Hm) as [[-> Hlt]|Hn]; [|by rewrite (Hn src eq_refl) in Hown]. split; [done|]. pose proof (co_timed wk Hk). rewrite wrapping_add_exact in *; lia.
Qed.

(** What a call took, as the worker counts it. *)
Section taken.
Context (src : Source) (i : Inputs) (wk : Worker) (Hr : reachable src wk i) (Hk : conf_ok wk).

Lemma seen_ok w : seen src i w → world_ok w ∧ ∀ s, Some src = Some s → visible s i w.
Proof. intros [H1 H2]. split; [done|]. by intros s [= <-]. Qed.
Lemma seen_lock n j : Some src = Some (StealHeap n j) → stealer_locked i j = false.
Proof. intros [= E']. by apply (Hr n j). Qed.
Lemma seen_batch : batch_usable (Some src) (steal_batch_size wk).
Proof. intros n j [= E']. by apply (Hr n j). Qed.

Lemma taken_cancel wk' r l t : trace (seen src i) (next_task i wk) l (Returns (wk', r)) → takes from_cancel l t = true → counts_cancel wk wk'.
Proof. apply (cancel_counted (seen src i) i (Some src) seen_ok seen_lock wk Hk seen_batch l (wk', r) t). Qed.
Lemma taken_timed wk' r l t : trace (seen src i) (next_task i wk) l (Returns (wk', r)) → takes from_timed l t = true → counts_timed wk wk'.
Proof. apply (timed_counted (seen src i) i (Some src) seen_ok seen_lock wk Hk seen_batch l (wk', r) t). Qed.
Lemma taken_fast wk' r l t : trace (seen src i) (next_task i wk) l (Returns (wk', r)) → takes from_fast l t = true →
  fast_queue_dispatch_streak wk' = wrapping_add usize_MAX (fast_queue_dispatch_streak wk) 1 ∧ (src = LocalReady → fast_queue_dispatch_streak wk < fast_queue_fairness_limit wk).
Proof. intros Ht Hk'. destruct (fast_counted (seen src i) i (Some src) seen_ok seen_lock wk Hk seen_batch l (wk', r) t Ht Hk') as [H1 H2]. split; [done|]. intros ->. by apply H2. Qed.
End taken.

(** C10: While work that is not cancelled (pinned, queued, ready, timed and due, or in a
    victim's queue) stays visible to a worker, whatever else other threads do and
    whatever the limits are, up to [limit], that the governor and the policy set:
    at most [limit] calls in a row dispatch a task that they took out of a cancel lane,
    the global queue of cancelled tasks or the cancel lane of the local scheduler; and
    each call dispatches some task unless it is handing off to the host after a burst
    of ready work. *)
Theorem worker_cancel_fairness src limit wk : conf_ok wk →
  (∀ n wk', streak (seen src) (λ x i, reachable src x i ∧ limit_of i x ≤ limit) from_cancel n wk wk' → n ≤ limit) ∧
  (∀ i r, reachable src wk i → browser_ready_handoff_limit wk = 0 ∨ ready_dispatch_streak wk < browser_ready_handoff_limit wk → may (seen src i) (next_task i wk) r →
     ∃ wk' t, r = Returns (wk', Some t)).
Proof.
  intros Hk. split.
  - intros n wk' Hs. eapply (streak_bounded src _ from_cancel cancel_streak (λ _, limit)) in Hs; [done|by intros x i [H _]| |done| |done].
    + unfold lanes. intros x y Hl. by simplify_eq.
    + intros i x y t Hx [Hr Hlim] Ho (l & Ht & Hc). destruct (cancel_kind i (Some src) x y t ltac:(done) Ho); [|lia]. by eapply taken_cancel.
  - intros i r Hr Hh Hm. destruct (seen_call src i wk r Hr Hk Hm) as (wk' & [t|] & -> & _ & Ho); [eauto|]. inversion Ho; subst; lia || done.
Qed.

(** C19: While ready work of its own stays visible to a worker, at most
    [timed_fairness_limit] calls in a row dispatch a task that they took out of a timed
    lane, global or local, when deadlines are to be met; and while its local ready lane
    has work, at most [fast_queue_fairness_limit] calls in a row dispatch a task that
    they took out of the worker's stealable queue. *)
Theorem worker_lane_fairness wk : conf_ok wk →
  (∀ src n wk', own_ready src = true → streak (seen src) (λ _ i, is_meet_deadlines (suggestion i) = true) from_timed n wk wk' → n ≤ timed_fairness_limit wk) ∧
  (∀ n wk', streak (seen LocalReady) (λ _ _, True) from_fast n wk wk' → n ≤ fast_queue_fairness_limit wk).
Proof.
  intros Hk. split.
  - intros src n wk' Hown Hs. assert (Hr : ∀ x i, reachable src x i) by (by intros x i n0 j ->).
    eapply (streak_bounded src _ from_timed timed_dispatch_streak timed_fairness_limit) in Hs; [done| | | | |done].
    + intros x i _. apply Hr.
    + unfold lanes. intros x y Hl. by simplify_eq.
    + intros x y Hc. apply (conf_limits x y Hc).
    + intros i x y t Hx Hm Ho (l & Ht & Hc). eapply timed_kind; [done|done|done|done|]. eapply taken_timed; [apply Hr|done|done|done].
  - intros n wk' Hs. assert (Hr : ∀ x i, reachable LocalReady x i) by (by intros x i n0 j).
    eapply (streak_bounded LocalReady _ from_fast fast_queue_dispatch_streak fast_queue_fairness_limit) in Hs; [done|by intros x i _| | | |done].
    + unfold lanes. intros x y Hl. by simplify_eq.
    + intros x y Hc. apply (conf_limits x y Hc).
    + intros i x y t Hx _ Ho (l & Ht & Hc). destruct (taken_fast LocalReady i x (Hr x i) Hx y (Some t) l t Ht Hc) as [H1 H2]. specialize (H2 eq_refl).
      split; [done|]. pose proof (co_fast x Hx). rewrite wrapping_add_exact in H1; lia.
Qed.

(** A streak in a world that others restore: [okb] looks at each call, the worker, its
    accesses and the task. *)
Fixpoint replay (okb : Worker → list (World * World) → TaskId → bool) i w (n : nat) wk : option Worker :=
  match n with
  | O => Some wk
  | S n => match restored w (next_task i wk) with
           | Returns (wk', Some t) => if okb wk (accesses w (next_task i wk)) t then replay okb i w n wk' else None
           | _ => None
           end
  end.

Lemma replay_streak okb G inputs K i w n wk wk' : G i w → (∀ x l t, okb x l t = true → inputs x i ∧ takes K l t = true) → replay okb i w n wk = Some wk' →
  streak G inputs K (N.of_nat n) wk wk'.
Proof.
  intros Hw Hok. revert wk. induction n as [|n IH]; intros wk Hr; simpl in Hr; [simplify_eq; constructor|].
  destruct (restored w (next_task i wk)) as [[wk1 [t|]]| |] eqn:Er; try done. destruct (okb wk _ t) eqn:Eo; [|done]. destruct (Hok _ _ _ Eo) as [Hi Hk].
  replace (N.of_nat (S n)) with (N.of_nat n + 1) by lia. apply (streak_more _ _ _ _ i _ wk1 wk1 _ (accesses w (next_task i wk)) t); [done| |done|by left|by apply IH].
  rewrite <- Er. by apply trace_restored.
Qed.

End fairness.

(** ** On concrete queues

    A local scheduler with two ready tasks and one that is not due, a task in the
    stealable queue, a cancelled one and a due one in the global queue, and a victim
    with a task. *)

Definition filled : World (E := ()) (Q := list PriorityTask) :=
  mkWorld (alone (inject_cancel (tid 9) 7;; inject_timed (tid 8) 10) injector_new).1 small_sched (LocalQueue.push LocalQueue.new (tid 7)) []
    [] [LocalQueue.push LocalQueue.new (tid 5)] arena_new.
Definition quiet_global : World (E := ()) (Q := list PriorityTask) := set_global injector_new filled.
Definition inputs_of (s : SchedulingSuggestion) : Inputs := mkInputs s 50 0 0 0 0 0 0 false (λ _, false) (mkDraws 0 0 false) (mkDraws 0 0 false).

Lemma small_sched_ready X : sched_rep small_sched X → ¬ no_ready small_sched X.
Proof.
  intros HX Hn. assert (valid_task (tid 2)) as Hv by (unfold valid_task; simpl; mlia). pose proof (rep_contains _ _ _ (sp_set _ _ HX) Hv) as Hc.
  assert (Hb : contains (scheduled small_sched) (tid 2) = true) by (by vm_compute). rewrite Hb in Hc. symmetry in Hc. apply bool_decide_eq_true in Hc.
  assert (He : existsb (λ e, bool_decide (e_task e = tid 2)) (ready_lane small_sched) = true) by (by vm_compute). apply existsb_exists in He as (e & He & Et). apply bool_decide_eq_true in Et.
  apply (Hn e); [by apply list_elem_of_In|by rewrite Et].
Qed.

Lemma filled_ok g : world_ok (set_global g filled).
Proof.
  split; simpl.
  - exists {[tid 4; tid 2; tid 1]}. split; [apply small_sched_rep|by vm_compute].
  - constructor.
  - eexists. apply LocalQueue.push_rep, LocalQueue.new_rep.
  - repeat constructor. eexists. apply LocalQueue.push_rep, LocalQueue.new_rep.
Qed.

Lemma filled_seen g i : seen LocalReady i (set_global g filled).
Proof. split; [apply filled_ok|exact small_sched_ready]. Qed.

Lemma new_conf workers limit : limit ≤ usize_MAX → conf_ok (new_worker workers limit).
Proof. intros Hl. split; simpl; try done. mlia. Qed.

(** Two cancelled tasks, then the limit is reached and the queued task runs. *)
Definition after (i : Inputs) (n : nat) wk : Worker := default wk (replay (λ _ _ _, true) i filled n wk).

Lemma worker_certificate_sound_witness :
  let c := preemption_fairness_certificate (after (inputs_of NoPreference) 3 (new_worker 2 2)) in
  cert_cancel_dispatches c = 2 ∧ cert_timed_dispatches c = 1 ∧ observed_max_timed_stall_steps c = 2 ∧ invariant_holds c = true.
Proof.
  destruct (worker_certificate_sound (E := ()) (Q := list PriorityTask) 2 2 (after (inputs_of NoPreference) 3 (new_worker 2 2))) as (_ & _ & _ & _ & Hi); [by vm_compute| |].
  - apply (rtc_l _ _ (after (inputs_of NoPreference) 1 (new_worker 2 2))).
    { apply (ws_call (inputs_of NoPreference) _ _ (Some (tid 9))). replace (Returns _) with (restored filled (next_task (inputs_of NoPreference) (new_worker 2 2))) by (by vm_compute). apply may_restored, (filled_ok (global filled)). }
    apply (rtc_l _ _ (after (inputs_of NoPreference) 2 (new_worker 2 2))).
    { apply (ws_call (inputs_of NoPreference) _ _ (Some (tid 9))). replace (Returns _) with (restored filled (next_task (inputs_of NoPreference) (after (inputs_of NoPreference) 1 (new_worker 2 2)))) by (by vm_compute).
      apply may_restored, (filled_ok (global filled)). }
    apply rtc_once. apply (ws_call (inputs_of NoPreference) _ _ (Some (tid 8))). replace (Returns _) with (restored filled (next_task (inputs_of NoPreference) (after (inputs_of NoPreference) 2 (new_worker 2 2)))) by (by vm_compute).
    apply may_restored, (filled_ok (global filled)).
  - split_and!; [by vm_compute|by vm_compute|by vm_compute|]. cbv zeta in Hi |- *. rewrite Hi. by vm_compute.
Defined.

Lemma worker_cancel_fairness_witness :
  (∃ wk', replay (λ x l t, takes from_cancel l t && (limit_of (inputs_of DrainRegions) x <=? 4)) (inputs_of DrainRegions) filled 4 (new_worker 2 2) = Some wk' ∧ cancel_streak wk' = 4) ∧
  N.of_nat 4 ≤ 4 ∧
  (∃ wk' t, restored filled (next_task (inputs_of DrainRegions) (after (inputs_of DrainRegions) 4 (new_worker 2 2))) = Returns (wk', Some t)).
Proof.
  set (i := inputs_of DrainRegions). assert (Hr : ∀ wk, reachable LocalReady wk i) by done. assert (conf_ok (new_worker 2 2)) as Hk by (apply new_conf; by vm_compute).
  assert (Hrun : ∃ wk', replay (λ x l t, takes from_cancel l t && (limit_of i x <=? 4)) i filled 4 (new_worker 2 2) = Some wk' ∧ cancel_streak wk' = 4) by (eexists; by vm_compute).
  split; [exact Hrun|]. destruct Hrun as (wk' & Hrun & _).
  destruct (worker_cancel_fairness (E := ()) (Q := list PriorityTask) LocalReady 4 (new_worker 2 2) Hk) as [H1 _]. split.
  - apply (H1 _ wk'). eapply replay_streak; [apply (filled_seen (global filled))| |exact Hrun]. intros x l t Hxy. apply andb_true_iff in Hxy as [Hxy Hl]. split; [split; [apply Hr|by apply N.leb_le]|done].
  - set (wk4 := after i 4 (new_worker 2 2)). assert (conf_ok wk4) as Hk4 by (apply (conf_ok_eq (new_worker 2 2)); [vm_compute; reflexivity|exact Hk]).
    destruct (worker_cancel_fairness (E := ()) (Q := list PriorityTask) LocalReady 4 wk4 Hk4) as [_ H2]. apply (H2 i _ (Hr _)); [left; by vm_compute|].
    apply may_restored, (filled_seen (global filled)).
Defined.

Lemma worker_lane_fairness_witness :
  (∃ wk', replay (λ _ l t, takes from_timed l t) (inputs_of MeetDeadlines) filled 6 (new_worker 2 2) = Some wk' ∧ replay (λ _ l t, takes from_timed l t) (inputs_of MeetDeadlines) filled 7 (new_worker 2 2) = None) ∧ N.of_nat 6 ≤ 6 ∧
  (∃ wk', replay (λ _ l t, takes from_fast l t) (inputs_of NoPreference) quiet_global 4 (new_worker 2 2) = Some wk' ∧ replay (λ _ l t, takes from_fast l t) (inputs_of NoPreference) quiet_global 5 (new_worker 2 2) = None) ∧ N.of_nat 4 ≤ 4.
Proof.
  assert (conf_ok (new_worker 2 2)) as Hk by (apply new_conf; by vm_compute). destruct (worker_lane_fairness (E := ()) (Q := list PriorityTask) (new_worker 2 2) Hk) as [H1 H2].
  assert (Ht : ∃ wk', replay (λ _ l t, takes from_timed l t) (inputs_of MeetDeadlines) filled 6 (new_worker 2 2) = Some wk' ∧ replay (λ _ l t, takes from_timed l t) (inputs_of MeetDeadlines) filled 7 (new_worker 2 2) = None) by (eexists; by vm_compute).
  assert (Hf : ∃ wk', replay (λ _ l t, takes from_fast l t) (inputs_of NoPreference) quiet_global 4 (new_worker 2 2) = Some wk' ∧ replay (λ _ l t, takes from_fast l t) (inputs_of NoPreference) quiet_global 5 (new_worker 2 2) = None) by (eexists; by vm_compute).
  split; [exact Ht|]. destruct Ht as (wk1 & Ht & _). split.
  { apply (H1 LocalReady _ wk1); [done|]. eapply replay_streak; [apply (filled_seen (global filled))| |exact Ht]. intros x l t Hxy. by split. }
  split; [exact Hf|]. destruct Hf as (wk2 & Hf & _). apply (H2 _ wk2). eapply replay_streak; [apply (filled_seen injector_new)| |exact Hf]. intros x l t Hxy. by split.
Defined.

(** The contract in the documentation counts stealable ready work too, but past the
    limit only the ready work of the worker itself is probed before timed work: with
    nothing of its own and a task to steal, the timed lane goes on. *)
Definition stealable_only : World (E := ()) (Q := list PriorityTask) :=
  mkWorld (alone (inject_timed (tid 8) 10) injector_new).1 (with_capacity (λ n, n) 8) LocalQueue.new [] [] (fast_stealers filled) arena_new.

Lemma stealable_work_waits :
  (∀ i, visible (StealFast 1 0) i stealable_only) ∧ (∃ wk', replay (λ _ l t, takes from_timed l t) (inputs_of MeetDeadlines) stealable_only 50 (new_worker 2 2) = Some wk').
Proof.
  split; [|eexists; by vm_compute]. intros i. split; [by vm_compute|]. exists [tid 5], (tid 5). split_and!; [by vm_compute|by left|by vm_compute].
Qed.
