(* ===== verification/TaskTable.v ===== *)
(** * The task table

    Models [src/runtime/task_table.rs] (arena of task records, parallel vector of
    stored futures, cached counters) and the recycling pool of
    [src/util/pool.rs] the table draws its records from. *)

From S2P Require Import Prelude Ids Arena Budget Cx Outcome Task.

(** ** The recycling pool

    [Pool] is a bounded deque behind a mutex; the trait [Recyclable] is a class. *)

Class Recyclable (T : Type) := recycle : T → T.

Section pool.
Context {T : Type}.

Record Pool := mkPool { storage : list T; max_size : N }.

Definition pool_new (max_size : N) : Pool := mkPool [] max_size.

Definition pool_try_get (p : Pool) : Pool * option T :=
  match storage p with
  | [] => (p, None)
  | x :: rest => (mkPool rest (max_size p), Some x)
  end.

Definition pool_put (p : Pool) (item : T) : Pool * bool :=
  if N.of_nat (length (storage p)) <? max_size p
  then (mkPool (item :: storage p) (max_size p), true)
  else (p, false).

Definition put_recycled `{Recyclable T} (p : Pool) (item : T) : Pool * bool :=
  pool_put p (recycle item).

End pool.
Arguments Pool : clear implicits.

(** ** The table *)

(** A stored future is opaque to the table. *)
Definition StoredTask := N.

Definition LIVE_PHASE_COUNT : nat := 5.

Record TaskRecordPoolStats := mkPoolStats {
  hits : N;
  misses : N;
  recycled : N;
  recycle_drops : N;
}.

Section table.
Context {E : Type}.

#[global] Instance TaskRecord_Recyclable : Recyclable (TaskRecord E) := reset.

Record TaskTable := mkTaskTable {
  tt_arena : Arena (TaskRecord E);
  stored_futures : list (option StoredTask);
  stored_future_len : N;
  task_record_pool : Pool (TaskRecord E);
  pool_stats : TaskRecordPoolStats;
  phase_counts : list N;
  live_task_count_cache : N;
  deadline_sum_ns : N;
  tasks_with_deadline : N;
}.

Definition recommended_pool_limit_for_capacity (capacity : N) : N :=
  let quarter := capacity / 4 in
  if quarter <? 64 then 64 else if 512 <? quarter then 512 else quarter.

Definition with_capacity_and_pool_limit (_capacity pool_limit : N) : TaskTable :=
  mkTaskTable arena_new [] 0 (pool_new pool_limit) (mkPoolStats 0 0 0 0)
    (replicate LIVE_PHASE_COUNT 0) 0 0 0.

Definition with_capacity (capacity : N) : TaskTable :=
  with_capacity_and_pool_limit capacity (recommended_pool_limit_for_capacity capacity).

Definition task_table_new : TaskTable := with_capacity_and_pool_limit 0 256.

(** Assignment of groups of fields. *)
Definition set_arena (t : TaskTable) (a : Arena (TaskRecord E)) : TaskTable :=
  mkTaskTable a (stored_futures t) (stored_future_len t) (task_record_pool t) (pool_stats t)
    (phase_counts t) (live_task_count_cache t) (deadline_sum_ns t) (tasks_with_deadline t).
Definition set_futures (t : TaskTable) (f : list (option StoredTask)) (n : N) : TaskTable :=
  mkTaskTable (tt_arena t) f n (task_record_pool t) (pool_stats t)
    (phase_counts t) (live_task_count_cache t) (deadline_sum_ns t) (tasks_with_deadline t).
Definition set_pool (t : TaskTable) (p : Pool (TaskRecord E)) (s : TaskRecordPoolStats) : TaskTable :=
  mkTaskTable (tt_arena t) (stored_futures t) (stored_future_len t) p s
    (phase_counts t) (live_task_count_cache t) (deadline_sum_ns t) (tasks_with_deadline t).
Definition set_phases (t : TaskTable) (pc : list N) (live : N) : TaskTable :=
  mkTaskTable (tt_arena t) (stored_futures t) (stored_future_len t) (task_record_pool t)
    (pool_stats t) pc live (deadline_sum_ns t) (tasks_with_deadline t).
Definition set_deadlines (t : TaskTable) (sum n : N) : TaskTable :=
  mkTaskTable (tt_arena t) (stored_futures t) (stored_future_len t) (task_record_pool t)
    (pool_stats t) (phase_counts t) (live_task_count_cache t) sum n.

(** *** Counters *)

Definition phase_index (p : TaskPhase.t) : nat := N.to_nat (TaskPhase.as_u8 p).
Definition phase_live (p : TaskPhase.t) : bool := (phase_index p <? LIVE_PHASE_COUNT)%nat.

Definition bump (f : N → N) (pc : list N) (i : nat) : list N := alter f i pc.

Definition enter_phase (t : TaskTable) (p : TaskPhase.t) : TaskTable :=
  if phase_live p then
    set_phases t (bump (λ n, saturating_add usize_MAX n 1) (phase_counts t) (phase_index p))
      (saturating_add usize_MAX (live_task_count_cache t) 1)
  else t.

Definition leave_phase (t : TaskTable) (p : TaskPhase.t) : TaskTable :=
  if phase_live p then
    set_phases t (bump (λ n, saturating_sub n 1) (phase_counts t) (phase_index p))
      (saturating_sub (live_task_count_cache t) 1)
  else t.

Definition add_deadline (t : TaskTable) (d : option Time.t) : TaskTable :=
  match d with
  | Some d => set_deadlines t (saturating_add u128_MAX (deadline_sum_ns t) (Time.as_nanos d))
                (wrapping_add usize_MAX (tasks_with_deadline t) 1)
  | None => t
  end.

Definition drop_deadline (t : TaskTable) (d : option Time.t) : TaskTable :=
  match d with
  | Some d => set_deadlines t (saturating_sub (deadline_sum_ns t) (Time.as_nanos d))
                (saturating_sub (tasks_with_deadline t) 1)
  | None => t
  end.

Definition note_phase_transition (t : TaskTable) (old new : TaskPhase.t) : TaskTable :=
  if TaskPhase.as_u8 old =? TaskPhase.as_u8 new then t
  else enter_phase (leave_phase t old) new.

Definition note_task_added (t : TaskTable) (p : TaskPhase.t) (d : option Time.t) : TaskTable :=
  add_deadline (enter_phase t p) d.

Definition note_task_removed (t : TaskTable) (p : TaskPhase.t) (d : option Time.t) : TaskTable :=
  drop_deadline (leave_phase t p) d.

Definition note_deadline_changed (t : TaskTable) (old new : option Time.t) : TaskTable :=
  if bool_decide (old = new) then t else add_deadline (drop_deadline t old) new.

(** *** Insertion and removal *)

Definition set_task_id (r : TaskRecord E) (i : TaskId) : TaskRecord E :=
  mkTaskRecord i (owner r) (state r) (phase r) (wake_state r) (cx_inner r) (has_cx r) (created_at r)
    (task_deadline r) (polls_remaining r) (total_polls r) (last_polled_step r) (waiters r)
    (cached_waker r) (cached_cancel_waker r) (cancel_epoch r) (is_local r) (pinned_worker r)
    (next_in_queue r) (prev_in_queue r) (queue_tag r) (heap_index r) (sched_priority r)
    (sched_generation r).

Definition table_insert (t : TaskTable) (r : TaskRecord E) : exec (TaskTable * ArenaIndex) :=
  let p := TaskPhase.load (phase r) in
  let d := task_deadline r in
  '(a, idx) ← insert_with (tt_arena t) (λ idx, set_task_id r (TaskId_from_arena idx));
  Done (note_task_added (set_arena t a) p d, idx).

(** [stored_futures[slot].take()], with the occupancy count. *)
Definition take_future (t : TaskTable) (slot : nat) : TaskTable * option StoredTask :=
  match stored_futures t !! slot with
  | Some (Some f) =>
      (set_futures t (<[slot := None]> (stored_futures t))
         (wrapping_sub usize_MAX (stored_future_len t) 1), Some f)
  | _ => (t, None)
  end.

Definition table_remove (t : TaskTable) (index : ArenaIndex) : TaskTable * option (TaskRecord E) :=
  match remove (tt_arena t) index with
  | (_, None) => (t, None)
  | (a, Some r) =>
      let t := set_arena t a in
      let t := (take_future t (N.to_nat (ai_index index))).1 in
      (note_task_removed t (TaskPhase.load (phase r)) (task_deadline r), Some r)
  end.

Definition remove_and_recycle (t : TaskTable) (index : ArenaIndex) : TaskTable :=
  match table_remove t index with
  | (t, None) => t
  | (t, Some r) =>
      let s := pool_stats t in
      let (p, kept) := put_recycled (task_record_pool t) r in
      set_pool t p
        (if kept then mkPoolStats (hits s) (misses s) (wrapping_add usize_MAX (recycled s) 1) (recycle_drops s)
         else mkPoolStats (hits s) (misses s) (recycled s) (wrapping_add usize_MAX (recycle_drops s) 1))
  end.

Definition task (t : TaskTable) (task_id : TaskId) : option (TaskRecord E) :=
  Arena.get (tt_arena t) (task_arena_index task_id).

(** A record from the pool, or a fresh one. *)
Definition take_record (t : TaskTable) (fresh : TaskRecord E) : TaskTable * TaskRecord E :=
  let s := pool_stats t in
  match pool_try_get (task_record_pool t) with
  | (p, Some r) =>
      (set_pool t p (mkPoolStats (wrapping_add usize_MAX (hits s) 1) (misses s) (recycled s) (recycle_drops s)), r)
  | (p, None) =>
      (set_pool t p (mkPoolStats (hits s) (wrapping_add usize_MAX (misses s) 1) (recycled s) (recycle_drops s)), fresh)
  end.

(** The identity and budget fields both pooled insertions assign. *)
Definition assign_identity (r : TaskRecord E) (i : TaskId) (own : RegionId) (budget : Budget)
  (at_ : Time.t) : TaskRecord E :=
  mkTaskRecord i own (state r) (phase r) (wake_state r) (cx_inner r) (has_cx r) at_
    (deadline budget) (poll_quota budget) (total_polls r) (last_polled_step r) (waiters r)
    (cached_waker r) (cached_cancel_waker r) (cancel_epoch r) (is_local r) (pinned_worker r)
    (next_in_queue r) (prev_in_queue r) (queue_tag r) (heap_index r) (sched_priority r)
    (sched_generation r).

Definition insert_pooled_task (t : TaskTable) (task_id : TaskId) (own : RegionId) (budget : Budget)
  (created_at : Time.t) : exec (TaskTable * ArenaIndex) :=
  let (t, r) := take_record t (new_with_time task_id own budget created_at) in
  table_insert t (assign_identity r task_id own budget created_at).

(** The bookkeeping after an insertion reads the record back from the arena. *)
Definition note_inserted (t : TaskTable) (idx : ArenaIndex) : TaskTable :=
  match Arena.get (tt_arena t) idx with
  | Some r => note_task_added t (TaskPhase.load (phase r)) (task_deadline r)
  | None => t
  end.

Definition insert_task_with (t : TaskTable) (f : ArenaIndex → TaskRecord E)
  : exec (TaskTable * ArenaIndex) :=
  '(a, idx) ← insert_with (tt_arena t) (λ idx, set_task_id (f idx) (TaskId_from_arena idx));
  Done (note_inserted (set_arena t a) idx, idx).

Definition insert_pooled_task_with (t : TaskTable) (factory : ArenaIndex → TaskRecord E → TaskRecord E)
  : exec (TaskTable * ArenaIndex) :=
  let (t, r) := take_record t
    (task_new (TaskId_from_arena (mkArenaIndex 0 0)) RegionId_testing_default INFINITE) in
  '(a, idx) ← insert_with (tt_arena t) (λ idx, set_task_id (factory idx r) (TaskId_from_arena idx));
  Done (note_inserted (set_arena t a) idx, idx).

(** [update_task]: the closure is a computation on the record. *)
Definition update_task {R} (t : TaskTable) (task_id : TaskId)
  (f : TaskRecord E → exec (TaskRecord E * R)) : exec (TaskTable * option R) :=
  match get_mut (tt_arena t) (task_arena_index task_id) with
  | None => Done (t, None)
  | Some (r, put) =>
      let old_phase := TaskPhase.load (phase r) in
      '(r', res) ← f r;
      let new_phase := TaskPhase.load (phase r') in
      let t := note_phase_transition (set_arena t (put r')) old_phase new_phase in
      let t :=
        match phase_live old_phase, phase_live new_phase with
        | true, true => note_deadline_changed t (task_deadline r) (task_deadline r')
        | true, false => note_deadline_changed t (task_deadline r) None
        | false, true => note_deadline_changed t None (task_deadline r')
        | false, false => t
        end in
      Done (t, Some res)
  end.

Definition remove_and_recycle_task (t : TaskTable) (task_id : TaskId) : TaskTable :=
  remove_and_recycle t (task_arena_index task_id).

(** *** Stored futures *)

Definition future_slot (task_id : TaskId) : nat := N.to_nat (ai_index (task_arena_index task_id)).

Definition store_spawned_task (t : TaskTable) (task_id : TaskId) (stored : StoredTask) : TaskTable :=
  match task t task_id with
  | None => t
  | Some _ =>
      let slot := future_slot task_id in
      let fs := stored_futures t ++ replicate (S slot - length (stored_futures t)) None in
      set_futures t (<[slot := Some stored]> fs)
        (match fs !! slot with
         | Some (Some _) => stored_future_len t
         | _ => wrapping_add usize_MAX (stored_future_len t) 1
         end)
  end.

Definition get_stored_future (t : TaskTable) (task_id : TaskId) : option StoredTask :=
  match task t task_id with
  | None => None
  | Some _ => default None (stored_futures t !! future_slot task_id)
  end.

Definition remove_stored_future (t : TaskTable) (task_id : TaskId) : TaskTable * option StoredTask :=
  match task t task_id with
  | None => (t, None)
  | Some _ => take_future t (future_slot task_id)
  end.

(** *** Queries *)

Definition record_phase_is (p : TaskPhase.t) (e : ArenaIndex * TaskRecord E) : bool :=
  TaskPhase.as_u8 (TaskPhase.load (phase e.2)) =? TaskPhase.as_u8 p.

Definition count_in_phase (t : TaskTable) (p : TaskPhase.t) : N :=
  if phase_live p then N.of_nat (count (record_phase_is p) (iter (tt_arena t))) else 0.

Definition live_task_count (t : TaskTable) : N :=
  N.of_nat (count (λ e, phase_live (TaskPhase.load (phase e.2))) (iter (tt_arena t))).

End table.

Arguments TaskTable : clear implicits.

(** ** The invariant *)

Section invariant.
Context {E : Type}.
Implicit Types (t : TaskTable E) (r : TaskRecord E) (l : list (ArenaIndex * TaskRecord E)).

(** What every pooled record is. *)
Definition blank : TaskRecord E :=
  reset (task_new (TaskId_from_arena (mkArenaIndex 0 0)) RegionId_testing_default INFINITE).

(** The cached phase counters against the list of entries. *)
Record phases_ok (pc : list N) (live : N) l : Prop := {
  ph_length : length pc = LIVE_PHASE_COUNT;
  ph_counts : ∀ p, phase_live p = true →
    pc !! phase_index p = Some (N.of_nat (count (record_phase_is p) l));
  ph_live : live = N.of_nat (count (λ e, phase_live (TaskPhase.load (phase e.2))) l);
}.

(** A stored future sits at the slot of a live record. *)
Record futures_ok t : Prop := {
  fu_len : stored_future_len t = N.of_nat (count (λ f, match f with Some _ => true | None => false end) (stored_futures t));
  fu_live : ∀ slot f, stored_futures t !! slot = Some (Some f) →
    ∃ g, is_Some (Arena.get (tt_arena t) (mkArenaIndex (N.of_nat slot) g));
  fu_bound : (length (stored_futures t) ≤ length (slots (tt_arena t)))%nat;
}.

Record tt_wf t : Prop := {
  tt_arena_ok : arena_wf (tt_arena t);
  tt_ids : ∀ idx r, Arena.get (tt_arena t) idx = Some r → id r = TaskId_from_arena idx;
  tt_records : ∀ idx r, Arena.get (tt_arena t) idx = Some r → task_wf r;
  tt_phases : phases_ok (phase_counts t) (live_task_count_cache t) (iter (tt_arena t));
  tt_futures : futures_ok t;
  tt_pool : Forall (λ r, r = blank) (storage (task_record_pool t));
  tt_pool_bound : N.of_nat (length (storage (task_record_pool t))) ≤ max_size (task_record_pool t);
}.

#[global] Instance phases_ok_Proper : Proper ((=) ==> (=) ==> (≡ₚ) ==> (iff)) phases_ok.
Proof.
  intros pc ? <- n ? <- l l' Hl. split; intros [H1 H2 H3]; split; try done.
  1,3: intros p Hp; rewrite (H2 p Hp); by rewrite (count_Permutation _ _ _ Hl).
  all: rewrite H3; by rewrite (count_Permutation _ _ _ Hl).
Qed.

Lemma phase_index_inj p q : (TaskPhase.as_u8 p =? TaskPhase.as_u8 q) = bool_decide (phase_index p = phase_index q).
Proof. by destruct p, q. Qed.

Lemma enter_phase_ok t l idx r : phases_ok (phase_counts t) (live_task_count_cache t) l →
  N.of_nat (length l) < usize_MAX →
  phases_ok (phase_counts (enter_phase t (TaskPhase.load (phase r))))
    (live_task_count_cache (enter_phase t (TaskPhase.load (phase r)))) ((idx, r) :: l).
Proof.
  intros [H1 H2 H3] Hlen. unfold enter_phase. set (q := TaskPhase.load (phase r)).
  assert (Hq : ∀ p, record_phase_is p (idx, r) = bool_decide (phase_index p = phase_index q)).
  { intros p. unfold record_phase_is. simpl. fold q. rewrite phase_index_inj. apply bool_decide_ext. lia. }
  destruct (phase_live q) eqn:Hl.
  - split; simpl; unfold bump; [by rewrite length_alter| |].
    + intros p Hp. rewrite count_cons, Hq. case_bool_decide as Hi.
      * rewrite Hi, list_lookup_alter_eq, <-Hi, (H2 p Hp). simpl. f_equal.
        pose proof (count_le_length (record_phase_is p) l). rewrite saturating_add_exact by lia. lia.
      * rewrite list_lookup_alter_ne by done. by rewrite (H2 p Hp).
    + rewrite count_cons. simpl. fold q. rewrite Hl.
      pose proof (count_le_length (λ e : ArenaIndex * TaskRecord E, phase_live (TaskPhase.load (phase e.2))) l).
      rewrite H3, saturating_add_exact by lia. lia.
  - split; [done| |].
    + intros p Hp. rewrite count_cons, Hq, (H2 p Hp). case_bool_decide as Hi; [|done].
      unfold phase_live in Hp, Hl. rewrite Hi in Hp. congruence.
    + rewrite count_cons. simpl. fold q. by rewrite Hl, H3.
Qed.

Lemma leave_phase_ok t l idx r :
  phases_ok (phase_counts t) (live_task_count_cache t) ((idx, r) :: l) →
  phases_ok (phase_counts (leave_phase t (TaskPhase.load (phase r))))
    (live_task_count_cache (leave_phase t (TaskPhase.load (phase r)))) l.
Proof.
  intros [H1 H2 H3]. unfold leave_phase. set (q := TaskPhase.load (phase r)) in *.
  assert (Hq : ∀ p, record_phase_is p (idx, r) = bool_decide (phase_index p = phase_index q)).
  { intros p. unfold record_phase_is. simpl. fold q. rewrite phase_index_inj. apply bool_decide_ext. lia. }
  rewrite count_cons in H3. simpl in H3. fold q in H3.
  destruct (phase_live q) eqn:Hl.
  - split; simpl; unfold bump; [by rewrite length_alter| |].
    + intros p Hp. specialize (H2 p Hp). rewrite count_cons, Hq in H2. case_bool_decide as Hi.
      * rewrite Hi, list_lookup_alter_eq, <-Hi, H2. simpl. f_equal. unfold saturating_sub. lia.
      * by rewrite list_lookup_alter_ne.
    + unfold saturating_sub. lia.
  - split; [done| |lia].
    intros p Hp. specialize (H2 p Hp). rewrite count_cons, Hq in H2. case_bool_decide as Hi; [|done].
    unfold phase_live in Hp, Hl. rewrite Hi in Hp. congruence.
Qed.

Lemma phase_transition_ok t l idx r r' : N.of_nat (length l) < usize_MAX →
  phases_ok (phase_counts t) (live_task_count_cache t) ((idx, r) :: l) →
  let t' := note_phase_transition t (TaskPhase.load (phase r)) (TaskPhase.load (phase r')) in
  phases_ok (phase_counts t') (live_task_count_cache t') ((idx, r') :: l).
Proof.
  intros Hlen H. unfold note_phase_transition. simpl. case_match eqn:Heq.
  - destruct H as [H1 H2 H3]. split; [done| |].
    + intros p Hp. rewrite (H2 p Hp), !count_cons. unfold record_phase_is. simpl.
      apply N.eqb_eq in Heq. by rewrite Heq.
    + rewrite H3, !count_cons. simpl. unfold phase_live, phase_index. apply N.eqb_eq in Heq. by rewrite Heq.
  - apply enter_phase_ok; [|done]. by apply leave_phase_ok in H.
Qed.

(** The deadline caches are separate from everything else. *)
Record same_but_deadlines t t' : Prop := {
  sb_arena : tt_arena t' = tt_arena t;
  sb_futures : stored_futures t' = stored_futures t;
  sb_flen : stored_future_len t' = stored_future_len t;
  sb_pool : task_record_pool t' = task_record_pool t;
  sb_counts : phase_counts t' = phase_counts t;
  sb_live : live_task_count_cache t' = live_task_count_cache t;
}.

Lemma sb_refl t : same_but_deadlines t t. Proof. done. Qed.
Lemma add_deadline_same t d : same_but_deadlines t (add_deadline t d).
Proof. by destruct d. Qed.
Lemma drop_deadline_same t d : same_but_deadlines t (drop_deadline t d).
Proof. by destruct d. Qed.
Lemma deadline_changed_same t d d' : same_but_deadlines t (note_deadline_changed t d d').
Proof. unfold note_deadline_changed. case_bool_decide; [done|]. by destruct d, d'. Qed.

Lemma tt_wf_same t t' : same_but_deadlines t t' → tt_wf t → tt_wf t'.
Proof.
  intros [Ha Hf Hn Hp Hc Hl] [? ? ? ? [? ? ?] ? ?]. split; rewrite ?Ha, ?Hp, ?Hc, ?Hl; try done.
  split; by rewrite ?Ha, ?Hf, ?Hn.
Qed.

Lemma enter_phase_frame t p :
  tt_arena (enter_phase t p) = tt_arena t ∧ stored_futures (enter_phase t p) = stored_futures t ∧
  stored_future_len (enter_phase t p) = stored_future_len t ∧
  task_record_pool (enter_phase t p) = task_record_pool t.
Proof. unfold enter_phase. by case_match. Qed.

Lemma leave_phase_frame t p :
  tt_arena (leave_phase t p) = tt_arena t ∧ stored_futures (leave_phase t p) = stored_futures t ∧
  stored_future_len (leave_phase t p) = stored_future_len t ∧
  task_record_pool (leave_phase t p) = task_record_pool t.
Proof. unfold leave_phase. by case_match. Qed.

Lemma iter_bound {T} (a : Arena T) : arena_wf a → N.of_nat (length (iter a)) ≤ u32_MAX + 1.
Proof.
  intros [Hlen _ _ _]. rewrite iter_occ, <-count_occ.
  pose proof (count_le_length is_occupied (slots a)). lia.
Qed.

(** ** The operations keep the invariant *)

(** One entry is replaced in the arena, or added, or dropped; these are the three
    ways the operations change it. *)

Lemma tt_insert_ok t g a idx : tt_wf t → insert_post (tt_arena t) g a idx →
  task_wf (g idx) → id (g idx) = TaskId_from_arena idx →
  tt_wf (note_task_added (set_arena t a) (TaskPhase.load (phase (g idx))) (task_deadline (g idx))).
Proof.
  intros Hwf Hip Hr Hid. pose proof Hwf as [Ha Hids Hrec Hph Hfu Hpo Hpb].
  pose proof Hip as [Ha' Hle [Hnl _] Hget _].
  assert (Hnone : Arena.get (tt_arena t) idx = None).
  { destruct (Arena.get (tt_arena t) idx) eqn:Hg; [|done]. destruct Hnl. apply live_get. by eexists. }
  eapply tt_wf_same; [apply add_deadline_same|].
  destruct (enter_phase_frame (set_arena t a) (TaskPhase.load (phase (g idx)))) as (E1 & E2 & E3 & E4).
  split; rewrite ?E1, ?E4; simpl; try done.
  - intros j r. rewrite Hget. case_decide as Hd; [intros [= <-]; by rewrite Hd|apply Hids].
  - intros j r. rewrite Hget. case_decide as Hd; [by intros [= <-]|apply Hrec].
  - rewrite (iter_insert_perm _ _ _ _ Hnone Hget). apply enter_phase_ok; [done|].
    pose proof (iter_bound _ Ha). unfold u32_MAX, usize_MAX, u64_MAX in *. lia.
  - destruct Hfu as [Hf1 Hf2 Hf3]. split; rewrite ?E1, ?E2, ?E3; simpl; [done| |].
    + intros slot f Hs. destruct (Hf2 slot f Hs) as [gen Hg]. exists gen. rewrite Hget. by case_decide.
    + pose proof (slots_le_length _ _ Hle). lia.
Qed.

Lemma take_future_spec t slot : (stored_future_len t ≤ u32_MAX + 1) →
  stored_future_len t = N.of_nat (count (λ f, match f with Some _ => true | None => false end) (stored_futures t)) →
  let t' := (take_future t slot).1 in
  stored_future_len t' = N.of_nat (count (λ f, match f with Some _ => true | None => false end) (stored_futures t')) ∧
  (∀ s f, stored_futures t' !! s = Some (Some f) → s ≠ slot ∧ stored_futures t !! s = Some (Some f)) ∧
  length (stored_futures t') = length (stored_futures t) ∧
  (take_future t slot).2 = default None (stored_futures t !! slot) ∧
  tt_arena t' = tt_arena t ∧ task_record_pool t' = task_record_pool t ∧
  phase_counts t' = phase_counts t ∧ live_task_count_cache t' = live_task_count_cache t.
Proof.
  intros Hb Hlen. unfold take_future. destruct (stored_futures t !! slot) as [[f|]|] eqn:Hs; simpl.
  2-3: split_and!; try done; intros s f' Hs'; (split; [|done]); intros ->; congruence.
  split_and!; try done; [|intros s f'|by rewrite length_insert].
  - pose proof (count_insert (λ f, match f with Some _ => true | None => false end) _ _ _ None Hs) as Hc.
    simpl in Hc. rewrite wrapping_sub_small; unfold usize_MAX, u64_MAX, u32_MAX in *; lia.
  - intros [(_ & H & _)|[Hne Hs']]%list_lookup_insert_Some; [done|]. split; [congruence|done].
Qed.

Lemma stored_len_bound t : arena_wf (tt_arena t) → futures_ok t → stored_future_len t ≤ u32_MAX + 1.
Proof.
  intros [Hl _ _ _] [Hf1 _ Hf3]. rewrite Hf1.
  pose proof (count_le_length (λ f : option StoredTask, match f with Some _ => true | None => false end) (stored_futures t)). lia.
Qed.

Lemma get_same_slot {T} (a : Arena T) i g g' v v' :
  Arena.get a (mkArenaIndex i g) = Some v → Arena.get a (mkArenaIndex i g') = Some v' → g = g'.
Proof. unfold Arena.get. simpl. crush. Qed.

(** Removal: the record leaves with its stored future. *)
Lemma tt_remove_ok t idx : tt_wf t →
  match table_remove t idx with
  | (t', Some r) => Arena.get (tt_arena t) idx = Some r ∧ tt_wf t' ∧
      remove_post (tt_arena t) idx (tt_arena t') ∧ task_record_pool t' = task_record_pool t
  | (t', None) => Arena.get (tt_arena t) idx = None ∧ t' = t
  end.
Proof.
  intros Hwf. pose proof Hwf as [Ha Hids Hrec Hph Hfu Hpo Hpb]. unfold table_remove.
  pose proof (remove_spec (tt_arena t) idx Ha) as Hrm.
  destruct (remove (tt_arena t) idx) as [a [r|]]; [|by destruct Hrm]. destruct Hrm as [Hg Hpost].
  pose proof Hpost as [Ha' Hle _ Hget _ _].
  set (t1 := set_arena t a). pose proof (stored_len_bound t Ha Hfu) as Hsb.
  destruct (take_future_spec t1 (N.to_nat (ai_index idx)) Hsb (fu_len t Hfu))
    as (F1 & F2 & F3 & _ & F4 & F5 & F6 & F7).
  set (t2 := (take_future t1 (N.to_nat (ai_index idx))).1) in *.
  set (q := TaskPhase.load (phase r)).
  destruct (leave_phase_frame t2 q) as (E1 & E2 & E3 & E4).
  destruct (drop_deadline_same (leave_phase t2 q) (task_deadline r)) as [D1 D2 D3 D4 D5 D6].
  assert (Harena : tt_arena (note_task_removed t2 q (task_deadline r)) = a).
  { unfold note_task_removed. by rewrite D1, E1, F4. }
  split; [done|]. rewrite Harena. split; [|split; [done|unfold note_task_removed; by rewrite D4, E4, F5]].
  eapply tt_wf_same; [apply drop_deadline_same|].
  split; rewrite ?E1, ?F4, ?E4, ?F5; simpl; try done.
  - intros j r'. rewrite Hget. case_decide; [done|apply Hids].
  - intros j r'. rewrite Hget. case_decide; [done|apply Hrec].
  - eapply (leave_phase_ok t2). rewrite F6, F7.
    rewrite <-(iter_delete_perm _ _ _ _ Hg Hget). apply Hph.
  - split; rewrite ?E1, ?E2, ?E3, ?F4; [done| |].
    + intros slot f (Hne & Hs)%F2. destruct (fu_live t Hfu slot f Hs) as [gen Hgen]. exists gen.
      simpl. rewrite Hget. case_decide as Hd; [|done]. subst idx. simpl in Hne. lia.
    + rewrite F3. simpl. pose proof (slots_le_length _ _ Hle). pose proof (fu_bound t Hfu). lia.
Qed.

(** What an update does: the one record changes as the closure says. *)
Lemma tt_update_ok {R} t tid (f : TaskRecord E → exec (TaskRecord E * R)) : tt_wf t →
  (∀ r r' x, task t tid = Some r → f r = Done (r', x) → task_wf r' ∧ id r' = id r) →
  match update_task t tid f with
  | Done (t', Some x) => ∃ r r', task t tid = Some r ∧ f r = Done (r', x) ∧ tt_wf t' ∧
      (∀ j, task t' j = if decide (j = tid) then Some r' else task t j) ∧
      slots_le (slots (tt_arena t)) (slots (tt_arena t')) ∧
      task_record_pool t' = task_record_pool t
  | Done (t', None) => task t tid = None ∧ t' = t
  | Panics => ∃ r, task t tid = Some r ∧ f r = Panics
  end.
Proof.
  intros Hwf Hf. pose proof Hwf as [Ha Hids Hrec Hph Hfu Hpo Hpb]. unfold update_task, task in *.
  pose proof (get_mut_spec (tt_arena t) (task_arena_index tid) Ha) as Hgm.
  destruct (get_mut _ _) as [[r put]|]; [|done]. destruct Hgm as [Hg Hput].
  unfold mbind, exec_bind. destruct (f r) as [[r' x]|] eqn:Hfr; [|by exists r].
  destruct (Hf r r' x Hg Hfr) as [Hr' Hid]. destruct (Hput r') as (Ha' & Hle & _ & Hget).
  set (q := TaskPhase.load (phase r)). set (q' := TaskPhase.load (phase r')).
  set (t2 := note_phase_transition (set_arena t (put r')) q q').
  assert (Hframe : tt_arena t2 = put r' ∧ stored_futures t2 = stored_futures t ∧
    stored_future_len t2 = stored_future_len t ∧ task_record_pool t2 = task_record_pool t).
  { unfold t2, note_phase_transition. case_match; [done|].
    destruct (enter_phase_frame (leave_phase (set_arena t (put r')) q) q') as (-> & -> & -> & ->).
    by destruct (leave_phase_frame (set_arena t (put r')) q) as (-> & -> & -> & ->). }
  destruct Hframe as (E1 & E2 & E3 & E4).
  assert (Hwf2 : tt_wf t2).
  { split; rewrite ?E1, ?E4; try done.
    - intros j rj. rewrite Hget. case_decide as Hd; [|apply Hids]. intros [= <-]. rewrite Hid, Hd. by apply Hids.
    - intros j rj. rewrite Hget. case_decide as Hd; [by intros [= <-]|apply Hrec].
    - destruct (iter_update_perm _ _ _ _ _ Hg Hget) as (rest & Hi1 & Hi2). rewrite Hi2.
      apply phase_transition_ok; [|simpl; by rewrite <-Hi1].
      pose proof (iter_bound _ Ha) as Hb. rewrite Hi1 in Hb. simpl in Hb. unfold u32_MAX, usize_MAX, u64_MAX in *. lia.
    - destruct Hfu as [Hf1 Hf2 Hf3]. split; rewrite ?E1, ?E2, ?E3; [done| |].
      + intros slot g Hs. destruct (Hf2 slot g Hs) as [gen Hgen]. exists gen. rewrite Hget. by case_decide.
      + pose proof (slots_le_length _ _ Hle). lia. }
  set (t3 := if phase_live q then _ else _).
  assert (Hsame : same_but_deadlines t2 t3).
  { unfold t3. repeat case_match; try apply deadline_changed_same; done. }
  exists r, r'. destruct Hsame as [S1 S2 S3 S4 S5 S6].
  split_and!; try done; [by eapply tt_wf_same| | |congruence].
  - intros [j]. simpl. rewrite S1, E1, Hget. destruct tid as [i]. simpl. repeat case_decide; congruence.
  - by rewrite S1, E1.
Qed.

(** Recycling: the record is gone and a blank one may join the pool. *)
Lemma recycle_ok t tid : tt_wf t →
  let t' := remove_and_recycle_task t tid in
  tt_wf t' ∧ (∀ j, task t' j = if decide (j = tid) then None else task t j) ∧
  slots_le (slots (tt_arena t)) (slots (tt_arena t')).
Proof.
  intros Hwf. unfold remove_and_recycle_task, remove_and_recycle, task. simpl.
  pose proof (tt_remove_ok t (task_arena_index tid) Hwf) as H.
  destruct (table_remove t (task_arena_index tid)) as [t1 [r|]].
  - destruct H as (Hg & Hwf1 & Hpost & Hpool). destruct (put_recycled (task_record_pool t1) r) as [p kept] eqn:Hput.
    assert (Hp : Forall (λ r, r = blank) (storage p) ∧ N.of_nat (length (storage p)) ≤ max_size p).
    { unfold put_recycled, pool_put in Hput. destruct Hwf1 as [? ? ? ? ? Hf Hb].
      destruct (N.ltb_spec (N.of_nat (length (storage (task_record_pool t1)))) (max_size (task_record_pool t1)));
        simplify_eq/=; [|done]. split; [by constructor|lia]. }
    destruct Hwf1 as [? ? ? ? [? ? ?] _ _]. split_and!; [split; simpl; try done; by destruct Hp| |].
    + intros [j]. simpl. rewrite (rp_get _ _ _ Hpost). destruct tid as [i]. simpl. repeat case_decide; congruence.
    + apply Hpost.
  - destruct H as [Hg ->]. split_and!; [done| |done].
    intros [j]. destruct tid as [i]. simpl in *. case_decide; [congruence|done].
Qed.

(** A record taken from the pool or made fresh becomes, once its identity is
    assigned, exactly a new record. *)
Lemma blank_assign tid own b at_ : assign_identity blank tid own b at_ = new_with_time tid own b at_.
Proof. done. Qed.

Lemma take_record_ok t fresh : tt_wf t →
  let '(t', r) := take_record t fresh in
  tt_wf t' ∧ (r = blank ∨ r = fresh) ∧ tt_arena t' = tt_arena t.
Proof.
  intros Hwf. pose proof Hwf as [Ha Hids Hrec Hph [? ? ?] Hpo Hpb].
  unfold take_record, pool_try_get. destruct (storage (task_record_pool t)) as [|r rest] eqn:Hs.
  - split_and!; [|by right|done]. split; simpl; rewrite ?Hs; try done.
  - inversion_clear Hpo as [|? ? Hr Hrest]. split_and!; [|by left|done].
    split; simpl; try done. simpl in Hpb. lia.
Qed.

Lemma note_inserted_eq t g a idx : insert_post (tt_arena t) g a idx →
  note_inserted (set_arena t a) idx =
  note_task_added (set_arena t a) (TaskPhase.load (phase (g idx))) (task_deadline (g idx)).
Proof. intros Hip. unfold note_inserted. simpl. rewrite (ip_get _ _ _ _ Hip), decide_True by done. done. Qed.

Lemma note_added_arena t p d : tt_arena (note_task_added t p d) = tt_arena t.
Proof.
  unfold note_task_added. destruct (add_deadline_same (enter_phase t p) d) as [-> _ _ _ _ _].
  apply enter_phase_frame.
Qed.

(** The closure of [create_task_infrastructure] and its effect: a new record. *)
Lemma insert_pooled_with_ok t own b at_ : tt_wf t →
  match insert_pooled_task_with t (λ idx r, assign_identity r (TaskId_from_arena idx) own b at_) with
  | Done (t', idx) => tt_wf t' ∧ ¬ live (tt_arena t) idx ∧ ¬ spent (tt_arena t) idx ∧
      (∀ j, task t' j = if decide (j = TaskId_from_arena idx)
                        then Some (new_with_time (TaskId_from_arena idx) own b at_) else task t j) ∧
      slots_le (slots (tt_arena t)) (slots (tt_arena t'))
  | Panics => arena_full (tt_arena t)
  end.
Proof.
  intros Hwf. unfold insert_pooled_task_with.
  pose proof (take_record_ok t (task_new (TaskId_from_arena (mkArenaIndex 0 0)) RegionId_testing_default INFINITE) Hwf) as Htk.
  destruct (take_record _ _) as [t1 r]. destruct Htk as (Hwf1 & Hr & Harena).
  set (g := λ idx, set_task_id (assign_identity r (TaskId_from_arena idx) own b at_) (TaskId_from_arena idx)).
  assert (Hg : ∀ idx, g idx = new_with_time (TaskId_from_arena idx) own b at_) by (by destruct Hr; subst).
  pose proof (insert_with_spec (tt_arena t1) g (tt_arena_ok t1 Hwf1)) as Hins.
  unfold mbind, exec_bind. destruct (insert_with (tt_arena t1) g) as [[a idx]|]; [|by rewrite <-Harena].
  rewrite (note_inserted_eq t1 g a idx Hins).
  assert (Hwf' := tt_insert_ok t1 g a idx Hwf1 Hins ltac:(rewrite Hg; apply new_with_time_wf) ltac:(by rewrite Hg)).
  pose proof Hins as [_ Hle [Hnl Hns] Hget _]. rewrite Harena in *.
  split_and!; try done.
  - intros [j]. unfold task. rewrite note_added_arena. simpl. rewrite Hget, Hg. repeat case_decide; congruence.
  - by rewrite note_added_arena.
Qed.

(** Insertion leaves the stored futures alone. *)
Lemma pooled_futures t own b at_ :
  match insert_pooled_task_with t (λ idx r, assign_identity r (TaskId_from_arena idx) own b at_) with
  | Done (t', _) => stored_futures t' = stored_futures t
  | Panics => True
  end.
Proof.
  unfold insert_pooled_task_with, take_record. destruct (pool_try_get _) as [p [r|]];
    unfold mbind, exec_bind; destruct (insert_with _ _) as [[a idx]|]; try done;
    unfold note_inserted; (case_match; [|done]); unfold note_task_added;
    rewrite (sb_futures _ _ (add_deadline_same _ _)); by rewrite (proj1 (proj2 (enter_phase_frame _ _))).
Qed.

Lemma store_future_ok t tid f : tt_wf t →
  let t' := store_spawned_task t tid f in
  tt_wf t' ∧ tt_arena t' = tt_arena t ∧ (is_Some (task t tid) → get_stored_future t' tid = Some f).
Proof.
  intros Hwf. pose proof Hwf as [Ha Hids Hrec Hph Hfu Hpo Hpb].
  unfold store_spawned_task, get_stored_future. simpl.
  destruct (task t tid) as [r|] eqn:Hg; [|by rewrite Hg; split_and!; try done; intros [? [=]]].
  assert (Hg' := Hg). unfold task in Hg'. simpl. unfold task. simpl. rewrite Hg'.
  set (slot := future_slot tid). set (fs := stored_futures t ++ _).
  assert (Hsl : (slot < length (slots (tt_arena t)))%nat).
  { unfold Arena.get in Hg'. unfold slot, future_slot. crush. by eapply lookup_lt_Some. }
  destruct Hfu as [Hf1 Hf2 Hf3].
  assert (Hlen : (length fs = Nat.max (length (stored_futures t)) (S slot))%nat).
  { unfold fs. rewrite length_app, length_replicate. lia. }
  assert (Hcnt : ∀ p : option StoredTask → bool, p None = false → count p fs = count p (stored_futures t)).
  { intros p Hp. unfold fs. rewrite count_app. replace (count p (replicate _ _)) with 0%nat; [lia|].
    generalize (S slot - length (stored_futures t))%nat as n. induction n as [|n IH]; [done|].
    simpl. rewrite count_cons, Hp, <-IH. done. }
  assert (Hold : ∀ s f', fs !! s = Some (Some f') → stored_futures t !! s = Some (Some f')).
  { intros s f' [Hs|[_ Hs]]%lookup_app_Some; [done|]. by apply lookup_replicate in Hs as [? _]. }
  destruct (lookup_lt_is_Some_2 fs slot) as [x Hx]; [lia|].
  assert (Hslot : (<[slot:=Some f]> fs) !! slot = Some (Some f)) by (apply list_lookup_insert_eq; lia).
  split_and!; [|done|intros _; by rewrite Hslot].
  split; simpl; try done. split; simpl.
  - pose proof (count_insert (λ f : option StoredTask, match f with Some _ => true | None => false end) _ _ _ (Some f) Hx) as Hc.
    simpl in Hc. rewrite Hcnt in Hc by done. rewrite Hx.
    pose proof (stored_len_bound t Ha ltac:(by split)) as Hsb.
    destruct x; rewrite ?wrapping_add_1; unfold usize_MAX, u64_MAX, u32_MAX in *; lia.
  - intros s f' [(<- & _ & _)|[_ Hs]]%list_lookup_insert_Some; [|by apply Hold, Hf2 in Hs].
    destruct tid as [[i g]]. exists g. unfold slot, future_slot. simpl in *. rewrite N2Nat.id, Hg'. by eexists.
  - rewrite length_insert, Hlen. lia.
Qed.

Lemma remove_stored_ok t tid : tt_wf t →
  let '(t', f) := remove_stored_future t tid in
  tt_wf t' ∧ tt_arena t' = tt_arena t ∧ f = get_stored_future t tid ∧ get_stored_future t' tid = None.
Proof.
  intros Hwf. pose proof Hwf as [Ha Hids Hrec Hph Hfu Hpo Hpb].
  unfold remove_stored_future, get_stored_future.
  destruct (task t tid) as [r|] eqn:Hg; [|by rewrite Hg].
  destruct (take_future_spec t (future_slot tid) (stored_len_bound t Ha Hfu) (fu_len t Hfu))
    as (F1 & F2 & F3 & F4 & F5 & F6 & F7 & F8).
  destruct (take_future t (future_slot tid)) as [t' f]. simpl in *.
  split_and!; try done.
  - split; rewrite ?F5, ?F6, ?F7, ?F8; try done. split; rewrite ?F5; [done| |].
    + intros s f' (_ & Hs)%F2. by eapply fu_live.
    + rewrite F3. apply Hfu.
  - unfold task. rewrite F5. fold (task t tid). rewrite Hg.
    destruct (stored_futures t' !! future_slot tid) as [[f'|]|] eqn:Hs; try done.
    by apply F2 in Hs as [? _].
Qed.

End invariant.

(** ** Sequences of operations *)

Section sequences.
Context {E : Type}.
Implicit Types (t : TaskTable E).

(** The operations of the table's interface; [update_task] with the operations of
    a task record.  Raw mutable access to the arena is not part of it. *)
Inductive TTOp :=
| TTInsert (r : TaskRecord E)
| TTInsertPooled (own : RegionId) (b : Budget) (now : Time.t)
| TTUpdate (tid : TaskId) (op : TaskOp E)
| TTRemove (tid : TaskId)
| TTRecycle (tid : TaskId)
| TTStore (tid : TaskId) (f : StoredTask)
| TTTake (tid : TaskId).

Definition tt_apply t (op : TTOp) : exec (TaskTable E) :=
  match op with
  | TTInsert r => p ← table_insert t r; Done p.1
  | TTInsertPooled own b now =>
      p ← insert_pooled_task_with t (λ idx r, assign_identity r (TaskId_from_arena idx) own b now); Done p.1
  | TTUpdate tid op => p ← update_task t tid (λ r, r' ← task_apply r op; Done (r', ())); Done p.1
  | TTRemove tid => Done (table_remove t (task_arena_index tid)).1
  | TTRecycle tid => Done (remove_and_recycle_task t tid)
  | TTStore tid f => Done (store_spawned_task t tid f)
  | TTTake tid => Done (remove_stored_future t tid).1
  end.

Fixpoint tt_run t (ops : list TTOp) : exec (TaskTable E) :=
  match ops with
  | [] => Done t
  | op :: ops => t' ← tt_apply t op; tt_run t' ops
  end.

Definition tt_op_ok (op : TTOp) : Prop := match op with TTInsert r => task_wf r | _ => True end.

Lemma with_limit_wf capacity limit : tt_wf (with_capacity_and_pool_limit capacity limit : TaskTable E).
Proof.
  split; simpl; try done; try lia; [apply arena_wf_new|].
  split; [done|by intros []|done].
Qed.

Lemma task_table_new_wf : tt_wf (task_table_new : TaskTable E).
Proof. apply with_limit_wf. Qed.

Lemma set_task_id_wf (r : TaskRecord E) i : task_wf r → task_wf (set_task_id r i).
Proof. by intros [? ? ? ? ?]; split. Qed.

Lemma tt_apply_ok t op t' : tt_wf t → tt_op_ok op → tt_apply t op = Done t' → tt_wf t'.
Proof.
  intros Hwf Hop. destruct op as [r|own b now|tid op|tid|tid|tid f|tid]; simpl; unfold mbind, exec_bind.
  - unfold table_insert. pose proof (insert_with_spec (tt_arena t) (λ idx, set_task_id r (TaskId_from_arena idx)) (tt_arena_ok t Hwf)) as H.
    unfold mbind, exec_bind. destruct (insert_with _ _) as [[a idx]|]; [|done]. intros [= <-].
    by apply (tt_insert_ok t _ a idx Hwf H (set_task_id_wf r _ Hop)).
  - pose proof (insert_pooled_with_ok t own b now Hwf) as H.
    destruct (insert_pooled_task_with _ _) as [[t1 idx]|]; [|done]. intros [= <-]. apply H.
  - pose proof (tt_update_ok t tid (λ r, r' ← task_apply r op; Done (r', ())) Hwf) as H.
    destruct (update_task _ _ _) as [[t1 [x|]]|]; [| |done]; intros [= <-].
    + destruct H as (r & r' & _ & _ & Hwf' & _); [|done].
      intros r0 r0' x0 Hr Hd. unfold mbind, exec_bind in Hd.
      destruct (task_apply r0 op) as [r1|] eqn:Ha; simplify_eq.
      apply task_apply_ok in Ha as [? _ ? _]; [done|by eapply tt_records].
    + destruct H as [_ ->]; [|done]. intros r0 r0' x0 Hr Hd. unfold mbind, exec_bind in Hd.
      destruct (task_apply r0 op) as [r1|] eqn:Ha; simplify_eq.
      apply task_apply_ok in Ha as [? _ ? _]; [done|by eapply tt_records].
  - pose proof (tt_remove_ok t (task_arena_index tid) Hwf) as H. intros [= <-].
    destruct (table_remove _ _) as [t1 [r|]]; [apply H|by destruct H as [_ ->]].
  - intros [= <-]. by apply recycle_ok.
  - intros [= <-]. by apply store_future_ok.
  - pose proof (remove_stored_ok t tid Hwf) as H. intros [= <-].
    destruct (remove_stored_future t tid). apply H.
Qed.

Lemma tt_run_ok t ops t' : tt_wf t → Forall tt_op_ok ops → tt_run t ops = Done t' → tt_wf t'.
Proof.
  revert t. induction ops as [|op ops IH]; intros t Hwf Hops H; simpl in H; [by simplify_eq|].
  inversion_clear Hops. unfold mbind, exec_bind in H.
  destruct (tt_apply t op) as [t1|] eqn:Ha; [|done]. eapply IH; [by eapply tt_apply_ok|done|done].
Qed.

(** After any sequence of operations of the task table, the cached counter of
    every live phase and the cached count of live tasks equal a scan of the
    arena, every record carries the id of its slot, the cached number of stored
    futures is exact and every stored future belongs to a live record, and the
    pool holds at most its bound of reset records. *)
Theorem task_table_consistent (ops : list TTOp) t : Forall tt_op_ok ops →
  tt_run task_table_new ops = Done t →
  (∀ p, phase_live p = true → phase_counts t !! phase_index p = Some (count_in_phase t p)) ∧
  live_task_count_cache t = live_task_count t ∧
  (∀ tid r, task t tid = Some r → id r = tid ∧ task_wf r) ∧
  stored_future_len t = N.of_nat (count (λ f, match f with Some _ => true | None => false end) (stored_futures t)) ∧
  (∀ slot f, stored_futures t !! slot = Some (Some f) →
     ∃ g, is_Some (task t (TaskId_from_arena (mkArenaIndex (N.of_nat slot) g)))) ∧
  N.of_nat (length (storage (task_record_pool t))) ≤ max_size (task_record_pool t) ∧
  Forall (λ r, r = blank) (storage (task_record_pool t)).
Proof.
  intros Hops Hrun. apply tt_run_ok in Hrun as [Ha Hids Hrec [_ Hph Hlv] [Hf1 Hf2 _] Hpo Hpb];
    [|apply task_table_new_wf|done].
  split_and!; try done.
  - intros p Hp. rewrite (Hph p Hp). unfold count_in_phase. by rewrite Hp.
  - intros [i] r Hr. split; [by apply Hids|by eapply Hrec].
Qed.

(** Whatever the table went through, a task created from the recycling pool
    is indistinguishable from a fresh one: the record is exactly that of
    [TaskRecord::new_with_time], under an id that is neither live nor used
    before, no future of an earlier task is attached to it, and no other task
    changes; creation panics only when all 2^32 slots are in use. *)
Theorem pooled_task_is_fresh (ops : list TTOp) t (own : RegionId) (b : Budget) (now : Time.t) :
  Forall tt_op_ok ops → tt_run task_table_new ops = Done t →
  match insert_pooled_task_with t (λ idx r, assign_identity r (TaskId_from_arena idx) own b now) with
  | Done (t', idx) =>
      let tid := TaskId_from_arena idx in
      task t' tid = Some (new_with_time tid own b now) ∧ get_stored_future t' tid = None ∧
      ¬ live (tt_arena t) idx ∧ ¬ spent (tt_arena t) idx ∧
      ∀ tid', tid' ≠ tid → task t' tid' = task t tid'
  | Panics => arena_full (tt_arena t)
  end.
Proof.
  intros Hops Hrun. apply tt_run_ok in Hrun as Hwf; [|apply task_table_new_wf|done].
  pose proof (insert_pooled_with_ok t own b now Hwf) as H.
  pose proof (pooled_futures t own b now) as Hpf.
  destruct (insert_pooled_task_with _ _) as [[t' idx]|]; [|done].
  destruct H as (Hwf' & Hnl & Hns & Hget & _). simpl.
  assert (Htask : task t' (TaskId_from_arena idx) = Some (new_with_time (TaskId_from_arena idx) own b now))
    by (by rewrite Hget, decide_True).
  split_and!; try done; [|intros tid' Hne; by rewrite Hget, decide_False].
  unfold get_stored_future. rewrite Htask, Hpf.
  destruct (stored_futures t !! _) as [[f|]|] eqn:Hs; try done. exfalso.
  destruct (fu_live t (tt_futures t Hwf) _ _ Hs) as [g [r Hg]].
  destruct idx as [i gi]. unfold future_slot in Hg. simpl in Hg. rewrite N2Nat.id in Hg.
  assert (Hgi : gi ≠ g) by (intros ->; apply Hnl, live_get; by eexists).
  assert (Hold : task t' (TaskId_from_arena (mkArenaIndex i g)) = Some r)
    by (rewrite Hget, decide_False by congruence; exact Hg).
  by eapply Hgi, get_same_slot.
Qed.

End sequences.

(** ** Witnesses and a gap *)

Definition own0 : RegionId := RegionId_testing_default.
Definition tid0 : TaskId := TaskId_from_arena (mkArenaIndex 0 0).
Definition with_deadline_at (n : N) : Budget := mkBudget (Some n) 10 None 128.

Definition table_ops : list (TTOp (E:=())) :=
  [TTInsertPooled own0 (with_deadline_at 10) 0; TTInsertPooled own0 (with_deadline_at 20) 0;
   TTStore tid0 7; TTUpdate tid0 TStart; TTUpdate tid0 (TComplete (Outcome.Ok ())); TTRecycle tid0].

Lemma table_ops_ok : Forall tt_op_ok table_ops.
Proof. by repeat constructor. Qed.

Lemma task_table_consistent_witness :
  ∃ t, tt_run task_table_new table_ops = Done t ∧ live_task_count_cache t = live_task_count t ∧
    live_task_count t = 1 ∧ stored_future_len t = 0.
Proof.
  eexists. split; [vm_compute; reflexivity|]. split_and!; [|vm_compute; reflexivity..].
  eapply (task_table_consistent table_ops); [apply table_ops_ok|vm_compute; reflexivity].
Defined.

Definition table_after : TaskTable () :=
  match tt_run task_table_new table_ops with Done t => t | Panics => task_table_new end.

Lemma pooled_task_is_fresh_witness :
  ∃ t' idx, tt_run task_table_new table_ops = Done table_after ∧
    insert_pooled_task_with table_after
      (λ idx r, assign_identity r (TaskId_from_arena idx) own0 INFINITE 5) = Done (t', idx) ∧
    idx = mkArenaIndex 0 1 ∧ get_stored_future t' (TaskId_from_arena idx) = None.
Proof.
  assert (Hrun : tt_run task_table_new table_ops = Done table_after) by (vm_compute; reflexivity).
  pose proof (pooled_task_is_fresh table_ops table_after own0 INFINITE 5 table_ops_ok Hrun) as H.
  destruct (insert_pooled_task_with table_after _) as [[t' idx]|] eqn:Hi; [|vm_compute in Hi; discriminate Hi].
  exists t', idx. split_and!; [done|done| |apply H].
  vm_compute in Hi. injection Hi as <- <-. reflexivity.
Defined.

(** The deadline of a completed task is dropped from the cached sum twice: by
    [update_task] when the task completes and by [remove] when the record goes.
    In [table_ops] the task with deadline 20 is still live, yet the sum is 10 and
    the number of tasks with a deadline is 0. *)
Theorem deadline_dropped_twice :
  ∃ t, tt_run task_table_new table_ops = Done t ∧ live_task_count t = 1 ∧
    task_deadline <$> task t (TaskId_from_arena (mkArenaIndex 1 0)) = Some (Some 20) ∧
    deadline_sum_ns t = 10 ∧ tasks_with_deadline t = 0.
Proof. eexists. split; [vm_compute; reflexivity|]. by vm_compute. Qed.
