(* ===== verification/RegionTable.v ===== *)
(** * The region table

    Models [src/runtime/region_table.rs]: an arena of region records with creation
    of root and child regions, admission by the parent and rollback.  Region
    records change through shared references (interior mutability), which is a
    write at the record's slot here. *)

From S2P Require Import Prelude Ids Arena Budget Cancel Cx Outcome Task RegionHeap Region.

Inductive RegionPriority := Critical | High | Normal | Low | BestEffort.

Inductive RegionCreateError :=
| ParentNotFound (r : RegionId)
| ParentClosed (region : RegionId) (s : RegionState.t)
| ParentAtCapacity (region : RegionId) (limit live : N)
| ResourcePressure (requested : RegionPriority) (reason : string)
| CapabilityBudgetRefused (parent_id : RegionId) (reason : CapabilityBudgetRefusal).

Section table.
Context {E : Type}.

(** The table is a struct of one field, its arena. *)
Notation RegionTable := (Arena (RegionRecord E)).
Implicit Types (a : RegionTable).

Definition get_region a (rid : RegionId) : option (RegionRecord E) :=
  Arena.get a (region_arena_index rid).

(** A call on the record behind [regions.get(id)]. *)
Definition with_region {R} a (rid : RegionId) (f : RegionRecord E → RegionRecord E * R)
  : RegionTable * option R :=
  match get_mut a (region_arena_index rid) with
  | Some (r, put) => let (r', x) := f r in (put r', Some x)
  | None => (a, None)
  end.

Definition write_region a (rid : RegionId) (f : RegionRecord E → RegionRecord E) : RegionTable :=
  (with_region a rid (λ r, (f r, ()))).1.

Definition draining_region_count a : N :=
  N.of_nat (count (λ e, match region_state e.2 with
                        | RegionState.Draining | RegionState.Finalizing => true
                        | _ => false
                        end) (iter a)).

Definition table_remove a (index : ArenaIndex) : RegionTable * option (RegionRecord E) :=
  match remove a index with
  | (_, None) => (a, None)
  | (a, Some removed) =>
      (match parent removed with
       | Some p => write_region a p (λ r, remove_child r (region_id removed))
       | None => a
       end, Some removed)
  end.

Definition create_root_with_capability_budget a (budget : Budget) (cap : CapabilityBudget)
  (now : Time.t) : exec (RegionTable * RegionId) :=
  '(a, idx) ← insert_with a (λ idx,
     new_with_time_and_capability_budget (RegionId_from_arena idx) None budget now cap);
  Done (a, RegionId_from_arena idx).

(** [add_child] on the parent with the error of the table. *)
Definition admit_child a (p id : RegionId) : RegionTable * result () RegionCreateError :=
  match with_region a p (λ r, let '(r', res) := add_child r id in (r', (res, region_state r'))) with
  | (_, None) => (a, Err (ParentNotFound p))
  | (a, Some (Ok _, _)) => (a, Ok ())
  | (a, Some (Err AdmissionClosed, s)) => (a, Err (ParentClosed p s))
  | (a, Some (Err (LimitReached _ limit live), _)) => (a, Err (ParentAtCapacity p limit live))
  end.

Definition create_child_with_capability_budget a (p : RegionId) (budget : Budget)
  (cap : CapabilityBudget) (requirements : CapabilityBudgetRequirements) (now : Time.t)
  : exec (RegionTable * result RegionId RegionCreateError) :=
  match get_region a p with
  | None => Done (a, Err (ParentNotFound p))
  | Some pr =>
      let effective_budget := meet (r_budget (inner pr)) budget in
      match plan_child (r_capability_budget (inner pr)) cap requirements with
      | Err reason => Done (a, Err (CapabilityBudgetRefused p reason))
      | Ok effective_cap =>
          '(a, idx) ← insert_with a (λ idx,
             new_with_time_and_capability_budget (RegionId_from_arena idx) (Some p)
               effective_budget now effective_cap);
          let id := RegionId_from_arena idx in
          match admit_child a p id with
          | (a, Err err) => Done ((remove a idx).1, Err err)
          | (a, Ok _) => Done (a, Ok id)
          end
      end
  end.

Definition create_child a (p : RegionId) (budget : Budget) (now : Time.t) :=
  create_child_with_capability_budget a p budget UNSPECIFIED requirements_NONE now.

Definition table_set_limits a (rid : RegionId) (l : RegionLimits) : RegionTable * bool :=
  match with_region a rid (λ r, (set_limits r l, ())) with
  | (a, Some _) => (a, true)
  | (a, None) => (a, false)
  end.

(** ** What the operations do *)

(** One record changes. *)
Record wrote a (rid : RegionId) (r' : RegionRecord E) a' : Prop := {
  wr_wf : arena_wf a';
  wr_le : slots_le (slots a) (slots a');
  wr_len : len a' = len a;
  wr_get : ∀ j, get_region a' j = if decide (j = rid) then Some r' else get_region a j;
}.

Lemma with_region_spec {R} a rid (f : RegionRecord E → RegionRecord E * R) : arena_wf a →
  match get_region a rid with
  | Some r => ∃ a', with_region a rid f = (a', Some (f r).2) ∧ wrote a rid (f r).1 a'
  | None => with_region a rid f = (a, None)
  end.
Proof.
  intros Ha. unfold get_region, with_region.
  pose proof (get_mut_spec a (region_arena_index rid) Ha) as Hg.
  destruct (get_mut a _) as [[r put]|]; [|by rewrite Hg].
  destruct Hg as [-> Hput]. destruct (f r) as [r' x]. simpl. exists (put r'). split; [done|].
  destruct (Hput r') as (H1 & H2 & H3 & H4). split; try done.
  intros [j]. unfold get_region. simpl. rewrite H4. destruct rid as [i]. simpl. repeat case_decide; congruence.
Qed.

Lemma write_region_spec a rid f : arena_wf a →
  match get_region a rid with
  | Some r => wrote a rid (f r) (write_region a rid f)
  | None => write_region a rid f = a
  end.
Proof.
  intros Ha. unfold write_region. pose proof (with_region_spec a rid (λ r, (f r, ())) Ha) as H.
  destruct (get_region a rid) as [r|]; [|by rewrite H]. by destruct H as (a' & -> & ?).
Qed.

Lemma insert_region_get a f a' idx : insert_post a f a' idx → ∀ j, get_region a' j =
  if decide (j = RegionId_from_arena idx) then Some (f idx) else get_region a j.
Proof.
  intros H [j]. unfold get_region. simpl. rewrite (ip_get _ _ _ _ H). repeat case_decide; congruence.
Qed.

Lemma remove_region_get a idx a' : remove_post a idx a' → ∀ j, get_region a' j =
  if decide (j = RegionId_from_arena idx) then None else get_region a j.
Proof.
  intros H [j]. unfold get_region. simpl. rewrite (rp_get _ _ _ H). repeat case_decide; congruence.
Qed.

Lemma insert_region_fresh a f a' idx : insert_post a f a' idx →
  get_region a (RegionId_from_arena idx) = None.
Proof.
  intros H. unfold get_region. simpl. destruct (Arena.get a idx) eqn:Hg; [|done].
  destruct (proj1 (ip_new _ _ _ _ H)). apply live_get. by eexists.
Qed.

(** How creating a child ends. *)
Inductive create_result a (p : RegionId) (budget : Budget) (cap : CapabilityBudget)
  (req : CapabilityBudgetRequirements) (now : Time.t) : RegionTable → result RegionId RegionCreateError → Prop :=
| cr_no_parent : get_region a p = None → create_result a p budget cap req now a (Err (ParentNotFound p))
| cr_refused pr reason : get_region a p = Some pr →
    plan_child (r_capability_budget (inner pr)) cap req = Err reason →
    create_result a p budget cap req now a (Err (CapabilityBudgetRefused p reason))
| cr_rejected pr a' err : get_region a p = Some pr →
    (region_state pr ≠ RegionState.Open ∧ err = ParentClosed p (region_state pr) ∨
     region_state pr = RegionState.Open ∧ ∃ l, max_children (limits (inner pr)) = Some l ∧
       l ≤ N.of_nat (length (children (inner pr))) ∧
       err = ParentAtCapacity p l (N.of_nat (length (children (inner pr))))) →
    arena_wf a' → slots_le (slots a) (slots a') → len a' = len a →
    (∀ j, get_region a' j = get_region a j) →
    create_result a p budget cap req now a' (Err err)
| cr_created pr eff a' id : get_region a p = Some pr → region_state pr = RegionState.Open →
    plan_child (r_capability_budget (inner pr)) cap req = Ok eff →
    arena_wf a' → slots_le (slots a) (slots a') → len a' = len a + 1 →
    get_region a id = None → ¬ spent a (region_arena_index id) →
    (∀ j, get_region a' j =
       if decide (j = id) then
         Some (new_with_time_and_capability_budget id (Some p) (meet (r_budget (inner pr)) budget) now eff)
       else if decide (j = p) then
         Some (set_inner pr (set_children (inner pr) (children (inner pr) ++ [id])))
       else get_region a j) →
    create_result a p budget cap req now a' (Ok id).

(** Admission of a child that is not listed yet. *)
Lemma add_child_new (r : RegionRecord E) c : c ∉ children (inner r) →
  match (add_child r c).2 with
  | Ok _ => region_state r = RegionState.Open ∧
      (add_child r c).1 = set_inner r (set_children (inner r) (children (inner r) ++ [c]))
  | Err AdmissionClosed => region_state r ≠ RegionState.Open ∧ (add_child r c).1 = r
  | Err (LimitReached _ l live) => region_state r = RegionState.Open ∧
      max_children (limits (inner r)) = Some l ∧ l ≤ live ∧
      live = N.of_nat (length (children (inner r))) ∧ (add_child r c).1 = r
  end.
Proof.
  intros Hc. unfold add_child. destruct (region_state r) eqn:Hs; simpl; try done.
  rewrite bool_decide_eq_false_2 by done. unfold limit_reached.
  destruct (max_children (limits (inner r))) as [l|]; [|done].
  destruct (N.leb_spec l (N.of_nat (length (children (inner r))))); simpl; [|done]. by split_and!.
Qed.

Lemma create_child_ok a p budget cap req now : arena_wf a →
  (∀ rid r c, get_region a rid = Some r → c ∈ children (inner r) → is_Some (get_region a c)) →
  match create_child_with_capability_budget a p budget cap req now with
  | Done (a', res) => create_result a p budget cap req now a' res
  | Panics => arena_full a
  end.
Proof.
  intros Ha Hch. unfold create_child_with_capability_budget.
  destruct (get_region a p) as [pr|] eqn:Hp; [|by apply cr_no_parent].
  destruct (plan_child _ _ _) as [eff|reason] eqn:Hpl; [|by eapply cr_refused].
  set (f := λ idx, new_with_time_and_capability_budget (RegionId_from_arena idx) (Some p)
     (meet (r_budget (inner pr)) budget) now eff : RegionRecord E).
  pose proof (insert_with_spec a f Ha) as Hins. unfold mbind, exec_bind.
  destruct (insert_with a f) as [[a1 idx]|]; [|done].
  set (id := RegionId_from_arena idx). pose proof (insert_region_get _ _ _ _ Hins) as Hget1.
  pose proof (insert_region_fresh _ _ _ _ Hins) as Hfresh. fold id in Hget1, Hfresh.
  assert (Hne : p ≠ id) by congruence.
  assert (Hp1 : get_region a1 p = Some pr) by (by rewrite Hget1, decide_False).
  assert (Hnot : id ∉ children (inner pr)) by (intros Hin; destruct (Hch _ _ _ Hp Hin); congruence).
  pose proof (with_region_spec a1 p
    (λ r, let '(r', res) := add_child r id in (r', (res, region_state r'))) (ip_wf _ _ _ _ Hins)) as Hwr.
  rewrite Hp1 in Hwr. destruct Hwr as (a2 & Hwr & Hwrote). unfold admit_child. rewrite Hwr.
  pose proof (add_child_new pr id Hnot) as Hadd.
  destruct (add_child pr id) as [pr' res] eqn:Hac. simpl in *.
  destruct Hwrote as [Ha2 Hle2 Hlen2 Hget2]. pose proof Hins as [Ha1 Hle1 [_ Hns] _ Hlen1].
  assert (Hget : ∀ j, get_region a2 j = if decide (j = id) then Some (f idx)
    else if decide (j = p) then Some pr' else get_region a j).
  { intros j. rewrite Hget2, Hget1. repeat case_decide; congruence. }
  assert (Hroll : ∀ err, pr' = pr →
    (region_state pr ≠ RegionState.Open ∧ err = ParentClosed p (region_state pr) ∨
     region_state pr = RegionState.Open ∧ ∃ l, max_children (limits (inner pr)) = Some l ∧
       l ≤ N.of_nat (length (children (inner pr))) ∧
       err = ParentAtCapacity p l (N.of_nat (length (children (inner pr))))) →
    create_result a p budget cap req now (remove a2 idx).1 (Err err)).
  { intros err -> Herr. pose proof (remove_spec a2 idx Ha2) as Hrm.
    assert (Hid : Arena.get a2 idx = Some (f idx)).
    { pose proof (Hget id) as H. by rewrite decide_True in H. }
    destruct (remove a2 idx) as [a3 [x|]]; [|by destruct Hrm; congruence]. destruct Hrm as [_ Hpost].
    eapply cr_rejected; try done; simpl; [apply Hpost| | |].
    - etrans; [done|]. etrans; [done|]. apply Hpost.
    - pose proof (rp_len _ _ _ Hpost). lia.
    - intros j. rewrite (remove_region_get _ _ _ Hpost). fold id. rewrite Hget. repeat case_decide; congruence. }
  destruct res as [[]|[|k l live]].
  - destruct Hadd as [Ho ->]. eapply cr_created; try done; [by etrans|lia].
  - destruct Hadd as [Ho ->]. apply Hroll; [done|]. by left.
  - destruct Hadd as (Ho & Hm & Hl & -> & ->). apply Hroll; [done|]. right. split; [done|]. by exists l.
Qed.

End table.
Notation RegionTable E := (Arena (RegionRecord E)) (only parsing).

(** Creating a child region is exact on every branch.  An unknown parent, a
    refused capability budget, a parent that is not open and a parent at its child
    limit are reported as such and no region changes (the record inserted before
    admission is rolled back); otherwise the child appears under a fresh id, open,
    with the meet of the parent's budget and the requested one and the planned
    capability budget, the parent lists it, and no other region changes.  Creation
    panics only when all 2^32 slots are in use. *)
Theorem create_child_correct {E} (a : RegionTable E) p budget cap req now : arena_wf a →
  (∀ rid r c, get_region a rid = Some r → c ∈ children (inner r) → is_Some (get_region a c)) →
  match create_child_with_capability_budget a p budget cap req now with
  | Done (a', res) => create_result a p budget cap req now a' res
  | Panics => arena_full a
  end.
Proof. apply create_child_ok. Qed.

(** ** Witness *)

Definition root_id : RegionId := RegionId_testing_default.

Definition one_region : RegionTable () :=
  match create_root_with_capability_budget arena_new budget_new UNSPECIFIED 0 with
  | Done (a, _) => a
  | Panics => arena_new
  end.

Lemma one_region_wf : arena_wf one_region.
Proof.
  assert (H := insert_with_spec (arena_new (T:=RegionRecord ()))
    (λ idx, new_with_time_and_capability_budget (RegionId_from_arena idx) None budget_new 0 UNSPECIFIED)
    arena_wf_new). by apply H.
Qed.

Lemma one_region_children rid r c : get_region one_region rid = Some r → c ∈ children (inner r) →
  is_Some (get_region one_region c).
Proof.
  destruct rid as [[i g]]. unfold get_region, Arena.get. simpl.
  destruct (N.to_nat i) as [|n]; [|done]. simpl. destruct g; [|done]. intros [= <-] H.
  by apply not_elem_of_nil in H.
Qed.

Lemma create_child_correct_witness : ∃ a',
  create_child_with_capability_budget one_region root_id (with_poll_quota budget_new 5) UNSPECIFIED
    requirements_NONE 3 = Done (a', Ok (RegionId_from_arena (mkArenaIndex 1 0))) ∧
  create_result one_region root_id (with_poll_quota budget_new 5) UNSPECIFIED requirements_NONE 3 a'
    (Ok (RegionId_from_arena (mkArenaIndex 1 0))).
Proof.
  pose proof (create_child_correct one_region root_id (with_poll_quota budget_new 5) UNSPECIFIED
    requirements_NONE 3 one_region_wf one_region_children) as H.
  destruct (create_child_with_capability_budget one_region _ _ _ _ _) as [[a' res]|] eqn:Hc;
    [|vm_compute in Hc; discriminate Hc].
  exists a'. assert (Hr : res = Ok (RegionId_from_arena (mkArenaIndex 1 0))).
  { vm_compute in Hc. injection Hc as <- <-. reflexivity. }
  rewrite Hr in *. split; [reflexivity|exact H].
Defined.
