(* ===== verification/Runtime.v ===== *)
(** * The runtime state

    Models the orchestration of [src/runtime/state.rs]: the three tables
    (regions, tasks, obligations), the finalizer machinery, leak handling, the
    cancellation of a region tree, task completion and the state machine
    [advance_region_state] that closes regions bottom-up.

    Not part of the model: trace events, metrics, epochs, the debt monitor and the
    protocol validator (they observe and log, no decision depends on them), region
    priorities and resource envelopes, the capability handles of [Cx].  The clock
    is the field [rt_now]. *)

From S2P Require Import Prelude Ids Arena Budget Cancel Cx Outcome Task RegionHeap Region Obligation TaskTable RegionTable.

(** ** The environment: code the runtime calls but does not contain *)

(** Running the synchronous finalizer [f] either returns or panics with a
    payload; whether the calling thread is already unwinding; what the pressure
    governor says about a region of the given priority. *)
Class Environment := {
  run_sync_closure : N → option PanicPayload;
  thread_panicking : bool;
  governor_rejects : RegionPriority → option string;
}.

(** ** State *)

Inductive ObligationLeakResponse := LeakPanic | LeakLog | LeakSilent | LeakRecover.

Record LeakEscalation := mkLeakEscalation { threshold : N; escalate_to : ObligationLeakResponse }.

Inductive FinalizerHistoryEvent :=
| HRegistered (fid : N) (region : RegionId) (time : Time.t)
| HRan (fid : N) (time : Time.t)
| HRegionClosed (region : RegionId) (time : Time.t).

Inductive SpawnError :=
| SpawnRegionNotFound (r : RegionId)
| SpawnRegionClosed (r : RegionId)
| SpawnRegionAtCapacity (r : RegionId) (limit live : N).

(** The error kinds [create_obligation] reports. *)
Inductive ObligationError := EkRegionClosed | EkTaskNotOwned | EkAdmissionDenied.

Inductive TaskCompletionKind := CkOk | CkErr | CkCancelled | CkPanicked | CkUnknown.

Record CancelRegionNode := mkNode {
  node_id : RegionId;
  node_parent : option RegionId;
  node_depth : N;
}.

(** The fields that serve leak handling. *)
Record LeakState := mkLeakState {
  obligation_leak_response : ObligationLeakResponse;
  leak_escalation : option LeakEscalation;
  leak_count : N;
  handling_leaks : N;
  in_flight_leak_ids : gset ObligationId;
}.

(** The fields that serve finalizers. *)
Record FinalizerState := mkFinalizerState {
  finalizing_regions : list RegionId;
  pending_finalizer_ids : gmap RegionId (list N);
  async_finalizer_tasks : gmap TaskId N;
  active_async_finalizers : gmap RegionId TaskId;
  finalizer_history : list FinalizerHistoryEvent;
  next_finalizer_id : N;
}.

Definition RECENTLY_CLOSED_REGION_CAPACITY : nat := 4096.
Definition FINALIZER_TIME_BUDGET_NANOS : N := 5000000000.

Section runtime.
Context {E : Type} `{Environment}.

(** Tombstones of closed regions. *)
Record ClosedRegions := mkClosedRegions {
  recently_closed_regions : gset RegionId;
  recently_closed_region_outcomes : gmap RegionId (TaskOutcome E);
  recently_closed_region_order : list RegionId;
}.

Record RuntimeState := mkState {
  rt_regions : Arena (RegionRecord E);
  rt_tasks : TaskTable E;
  rt_obligations : ObligationTable;
  rt_now : Time.t;
  root_region : option RegionId;
  cancel_attribution : CancelAttributionConfig;
  leaks : LeakState;
  fin : FinalizerState;
  tombs : ClosedRegions;
  woken : list Waker; (** the wakers woken so far *)
}.

Definition runtime_new (task_capacity : N) : RuntimeState :=
  mkState arena_new (with_capacity task_capacity) table_new Time.ZERO None attribution_default
    (mkLeakState LeakPanic None 0 0 ∅) (mkFinalizerState [] ∅ ∅ ∅ [] 0)
    (mkClosedRegions ∅ ∅ []) [].

(** Assignments. *)
Definition set_regions (s : RuntimeState) a := mkState a (rt_tasks s) (rt_obligations s) (rt_now s)
  (root_region s) (cancel_attribution s) (leaks s) (fin s) (tombs s) (woken s).
Definition set_task_table (s : RuntimeState) t := mkState (rt_regions s) t (rt_obligations s) (rt_now s)
  (root_region s) (cancel_attribution s) (leaks s) (fin s) (tombs s) (woken s).
Definition set_obligation_table (s : RuntimeState) o := mkState (rt_regions s) (rt_tasks s) o (rt_now s)
  (root_region s) (cancel_attribution s) (leaks s) (fin s) (tombs s) (woken s).
Definition set_root (s : RuntimeState) r := mkState (rt_regions s) (rt_tasks s) (rt_obligations s) (rt_now s)
  r (cancel_attribution s) (leaks s) (fin s) (tombs s) (woken s).
Definition set_leaks (s : RuntimeState) l := mkState (rt_regions s) (rt_tasks s) (rt_obligations s) (rt_now s)
  (root_region s) (cancel_attribution s) l (fin s) (tombs s) (woken s).
Definition set_fin (s : RuntimeState) f := mkState (rt_regions s) (rt_tasks s) (rt_obligations s) (rt_now s)
  (root_region s) (cancel_attribution s) (leaks s) f (tombs s) (woken s).
Definition set_tombs (s : RuntimeState) t := mkState (rt_regions s) (rt_tasks s) (rt_obligations s) (rt_now s)
  (root_region s) (cancel_attribution s) (leaks s) (fin s) t (woken s).
Definition wake (s : RuntimeState) (w : list Waker) := mkState (rt_regions s) (rt_tasks s) (rt_obligations s)
  (rt_now s) (root_region s) (cancel_attribution s) (leaks s) (fin s) (tombs s) (woken s ++ w).

Definition set_finalizing (f : FinalizerState) l := mkFinalizerState l (pending_finalizer_ids f)
  (async_finalizer_tasks f) (active_async_finalizers f) (finalizer_history f) (next_finalizer_id f).
Definition set_pending_ids (f : FinalizerState) p := mkFinalizerState (finalizing_regions f) p
  (async_finalizer_tasks f) (active_async_finalizers f) (finalizer_history f) (next_finalizer_id f).
Definition set_async (f : FinalizerState) a b := mkFinalizerState (finalizing_regions f)
  (pending_finalizer_ids f) a b (finalizer_history f) (next_finalizer_id f).
Definition push_history (f : FinalizerState) e := mkFinalizerState (finalizing_regions f)
  (pending_finalizer_ids f) (async_finalizer_tasks f) (active_async_finalizers f)
  (finalizer_history f ++ [e]) (next_finalizer_id f).

Implicit Types (s : RuntimeState).

Definition region s (rid : RegionId) : option (RegionRecord E) := get_region (rt_regions s) rid.
Definition get_task s (tid : TaskId) : option (TaskRecord E) := task (rt_tasks s) tid.
Definition get_obligation s (id : ObligationId) : option ObligationRecord :=
  Arena.get (obligations (rt_obligations s)) (obligation_arena_index id).

(** A call on the region record behind its id, when it is there. *)
Definition on_region s (rid : RegionId) (f : RegionRecord E → RegionRecord E) : RuntimeState :=
  set_regions s (write_region (rt_regions s) rid f).

(** ** Configuration *)

Definition set_obligation_leak_response s (response : ObligationLeakResponse) : RuntimeState :=
  let l := leaks s in
  set_leaks s (mkLeakState response (leak_escalation l) (leak_count l) (handling_leaks l) (in_flight_leak_ids l)).

Definition set_leak_escalation s (escalation : option LeakEscalation) : RuntimeState :=
  let l := leaks s in
  set_leaks s (mkLeakState (obligation_leak_response l) escalation (leak_count l) (handling_leaks l)
                 (in_flight_leak_ids l)).

Definition set_cancel_attribution_config s (config : CancelAttributionConfig) : RuntimeState :=
  mkState (rt_regions s) (rt_tasks s) (rt_obligations s) (rt_now s) (root_region s) config (leaks s) (fin s)
    (tombs s) (woken s).

(** The field [now], which the owner of the state advances. *)
Definition set_now s (now : Time.t) : RuntimeState :=
  mkState (rt_regions s) (rt_tasks s) (rt_obligations s) now (root_region s) (cancel_attribution s)
    (leaks s) (fin s) (tombs s) (woken s).

(** ** Creation of regions and tasks *)

Definition create_root_region_with_capability_budget s (budget : Budget) (cap : CapabilityBudget)
  : run (RuntimeState * RegionId) :=
  '(a, id) ← lift (create_root_with_capability_budget (rt_regions s) budget cap (rt_now s));
  Returns (set_root (set_regions s a) (Some id), id).

Definition check_resource_pressure_for_region (priority : RegionPriority)
  : result () RegionCreateError :=
  match priority with
  | Critical | High => Ok ()
  | _ => match governor_rejects priority with
         | Some reason => Err (ResourcePressure priority reason)
         | None => Ok ()
         end
  end.

Definition create_child_region_with_capability_budget_and_priority s (p : RegionId)
  (budget : Budget) (cap : CapabilityBudget) (requirements : CapabilityBudgetRequirements)
  (priority : RegionPriority) : run (RuntimeState * result RegionId RegionCreateError) :=
  match check_resource_pressure_for_region priority with
  | Err e => Returns (s, Err e)
  | Ok _ =>
      '(a, res) ← lift (create_child_with_capability_budget (rt_regions s) p budget cap
                          requirements (rt_now s));
      Returns (set_regions s a, res)
  end.

Definition set_region_limits s (rid : RegionId) (l : RegionLimits) : RuntimeState * bool :=
  let (a, ok) := table_set_limits (rt_regions s) rid l in (set_regions s a, ok).

Definition recycle_task s (tid : TaskId) : RuntimeState :=
  set_task_table s (remove_and_recycle_task (rt_tasks s) tid).

Definition rt_update_task {R} s (tid : TaskId) (f : TaskRecord E → exec (TaskRecord E * R))
  : run (RuntimeState * option R) :=
  '(t, x) ← lift (update_task (rt_tasks s) tid f); Returns (set_task_table s t, x).

Definition set_has_cx (r : TaskRecord E) : TaskRecord E :=
  mkTaskRecord (id r) (owner r) (state r) (phase r) (wake_state r) (cx_inner r) true (created_at r)
    (task_deadline r) (polls_remaining r) (total_polls r) (last_polled_step r) (waiters r)
    (cached_waker r) (cached_cancel_waker r) (cancel_epoch r) (is_local r) (pinned_worker r)
    (next_in_queue r) (prev_in_queue r) (queue_tag r) (heap_index r) (sched_priority r)
    (sched_generation r).

Definition create_task_infrastructure s (rid : RegionId) (budget : Budget) (cleanup_task : bool)
  : run (RuntimeState * result TaskId SpawnError) :=
  '(t, idx) ← lift (insert_pooled_task_with (rt_tasks s)
     (λ idx r, assign_identity r (TaskId_from_arena idx) rid budget (rt_now s)));
  let s := set_task_table s t in
  let task_id := TaskId_from_arena idx in
  match with_region (rt_regions s) rid
          (λ r, if cleanup_task then add_cleanup_task r task_id else add_task r task_id) with
  | (a, Some (Ok _)) =>
      let s := set_regions s a in
      '(s, _) ← rt_update_task s task_id
         (λ r, Done (set_has_cx (set_cx_inner r (cx_inner_new rid task_id budget)), ()));
      Returns (s, Ok task_id)
  | (a, Some (Err AdmissionClosed)) =>
      Returns (recycle_task (set_regions s a) task_id, Err (SpawnRegionClosed rid))
  | (a, Some (Err (LimitReached _ limit live))) =>
      Returns (recycle_task (set_regions s a) task_id, Err (SpawnRegionAtCapacity rid limit live))
  | (_, None) => Returns (recycle_task s task_id, Err (SpawnRegionNotFound rid))
  end.

Definition create_task s (rid : RegionId) (budget : Budget) (future : StoredTask)
  : run (RuntimeState * result TaskId SpawnError) :=
  '(s, res) ← create_task_infrastructure s rid budget false;
  match res with
  | Err e => Returns (s, Err e)
  | Ok task_id =>
      Returns (set_task_table s (store_spawned_task (rt_tasks s) task_id future), Ok task_id)
  end.

Definition cancel_task s (tid : TaskId) (reason : CancelReason) : run (RuntimeState * bool) :=
  '(s, x) ← rt_update_task s tid (λ r,
     Done (let '(r', newly, w) := request_cancel_with_budget r reason (cleanup_budget_of reason) in
           (r', (newly, w))));
  match x with
  | Some (newly, w) => Returns (wake s (option_list w), newly)
  | None => Returns (s, false)
  end.

Definition complete_task s (tid : TaskId) (outcome : TaskOutcome E) : run (RuntimeState * bool) :=
  '(s, x) ← rt_update_task s tid (λ r, Done (complete r outcome));
  Returns (s, default false x).

(** ** Finalizers *)

Definition allocate_finalizer_id s : exec (RuntimeState * N) :=
  let f := fin s in
  let fid := next_finalizer_id f in
  if fid <? u64_MAX then
    Done (set_fin s (mkFinalizerState (finalizing_regions f) (pending_finalizer_ids f)
            (async_finalizer_tasks f) (active_async_finalizers f) (finalizer_history f) (fid + 1)), fid)
  else Panics.

(** [pending_finalizer_ids.entry(region).or_default().push(id)] *)
Definition push_pending_id s (rid : RegionId) (fid : N) : RuntimeState :=
  let f := fin s in
  set_fin s (set_pending_ids f
    (<[rid := default [] (pending_finalizer_ids f !! rid) ++ [fid]]> (pending_finalizer_ids f))).

Definition record_finalizer_registration s (fid : N) (rid : RegionId) : RuntimeState :=
  let s := push_pending_id s rid fid in
  set_fin s (push_history (fin s) (HRegistered fid rid (rt_now s))).

Definition record_finalizer_run s (fid : N) : RuntimeState :=
  set_fin s (push_history (fin s) (HRan fid (rt_now s))).

Definition record_finalizer_close s (rid : RegionId) : RuntimeState :=
  let f := fin s in
  let s := set_fin s (set_pending_ids f (delete rid (pending_finalizer_ids f))) in
  set_fin s (push_history (fin s) (HRegionClosed rid (rt_now s))).

(** [register_sync_finalizer] and [register_async_finalizer] differ in the kind
    of the finalizer only. *)
Definition register_finalizer s (rid : RegionId) (fz : Finalizer) : run (RuntimeState * bool) :=
  match region s rid with
  | None => Returns (s, false)
  | Some r =>
      if RegionState.is_closing (region_state r) || RegionState.is_terminal (region_state r)
      then Returns (s, false)
      else
        '(s, fid) ← lift (allocate_finalizer_id s);
        let s := on_region s rid (λ r, add_finalizer r fz) in
        Returns (record_finalizer_registration s fid rid, true)
  end.

Definition pop_tracked_finalizer s (rid : RegionId) : exec (RuntimeState * option (N * Finalizer)) :=
  match with_region (rt_regions s) rid pop_finalizer with
  | (a, Some (Some fz)) =>
      let s := set_regions s a in
      match pending_finalizer_ids (fin s) !! rid with
      | None => Panics
      | Some ids =>
          match vec_pop ids with
          | None => Panics
          | Some (rest, fid) =>
              let p := pending_finalizer_ids (fin s) in
              Done (set_fin s (set_pending_ids (fin s)
                      (match rest with [] => delete rid p | _ => <[rid := rest]> p end)),
                    Some (fid, fz))
          end
      end
  | (a, Some None) => Done (set_regions s a, None)
  | (a, None) => Done (s, None)
  end.

(** The loop pops at most one finalizer per turn, so the length of the stack
    bounds the number of turns. *)
Fixpoint run_sync_finalizers_loop (fuel : nat) s (rid : RegionId)
  : run (RuntimeState * option (N * Finalizer)) :=
  match fuel with
  | O => OutOfFuel
  | S fuel =>
      '(s, popped) ← lift (pop_tracked_finalizer s rid);
      match popped with
      | None => Returns (s, None)
      | Some (fid, FSync f) =>
          let s :=
            match run_sync_closure f with
            | Some payload => on_region s rid (λ r, record_close_outcome r (Outcome.Panicked payload))
            | None => s
            end in
          run_sync_finalizers_loop fuel (record_finalizer_run s fid) rid
      | Some (fid, FAsync fut) => Returns (s, Some (fid, FAsync fut))
      end
  end.

Definition finalizer_count s (rid : RegionId) : nat :=
  match region s rid with Some r => length (finalizers_of (finalizers (inner r))) | None => O end.

Definition run_sync_finalizers_tracked s (rid : RegionId) :=
  run_sync_finalizers_loop (S (finalizer_count s rid)) s rid.

(** ** Closing regions *)

Definition can_region_complete_close s (rid : RegionId) : bool :=
  match region s rid with
  | None => false
  | Some r =>
      match region_state r with
      | RegionState.Closed => true
      | RegionState.Finalizing =>
          finalizers_empty (finalizers (inner r))
          && negb (bool_decide (is_Some (active_async_finalizers (fin s) !! rid)))
          && is_nil (tasks (inner r))
          && (pending_obligations (inner r) =? 0)
          && is_nil (children (inner r))
      | _ => false
      end
  end.

(** The eviction loop of [remember_closed_region]. *)
Fixpoint evict (order : list RegionId) (c : ClosedRegions) : ClosedRegions :=
  match order with
  | [] => mkClosedRegions (recently_closed_regions c) (recently_closed_region_outcomes c) []
  | x :: rest =>
      if (RECENTLY_CLOSED_REGION_CAPACITY <? length order)%nat
      then evict rest (mkClosedRegions (recently_closed_regions c ∖ {[x]})
                         (delete x (recently_closed_region_outcomes c)) rest)
      else mkClosedRegions (recently_closed_regions c) (recently_closed_region_outcomes c) order
  end.

Definition remember_closed_region (c : ClosedRegions) (rid : RegionId)
  (outcome : option (TaskOutcome E)) : ClosedRegions :=
  if bool_decide (rid ∈ recently_closed_regions c) then c
  else
    let order := recently_closed_region_order c ++ [rid] in
    evict order (mkClosedRegions ({[rid]} ∪ recently_closed_regions c)
      (match outcome with
       | Some o => <[rid := o]> (recently_closed_region_outcomes c)
       | None => recently_closed_region_outcomes c
       end) order).

(** [finalizing_regions.swap_remove] at the first occurrence. *)
Definition unlist_finalizing (l : list RegionId) (rid : RegionId) : list RegionId :=
  match position (λ r, bool_decide (r = rid)) l with
  | Some pos => swap_remove l pos
  | None => l
  end.

(** The close of a finalizing region: the record, the fence, the parent, the
    tombstone and the slot; the region to continue with is the parent. *)
Definition close_region s (rid : RegionId) (parent_id : option RegionId)
  : RuntimeState * option RegionId :=
  match with_region (rt_regions s) rid
          (λ r, let '(r', ok, ws) := complete_close r in (r', (ok, ws))) with
  | (_, None) => (s, None)
  | (a, Some (false, _)) => (set_regions s a, None)
  | (a, Some (true, ws)) =>
      let s := wake (set_regions s a) ws in
      let s := set_fin s (set_finalizing (fin s) (unlist_finalizing (finalizing_regions (fin s)) rid)) in
      let s := record_finalizer_close s rid in
      let s := set_obligation_table s (mark_region_finalized (rt_obligations s) rid) in
      let s := match parent_id with
               | Some p => on_region s p (λ r, remove_child r rid)
               | None => s
               end in
      let close_outcome := match region s rid with Some r => close_outcome (inner r) | None => None end in
      let s := if bool_decide (root_region s = Some rid) then set_root s None else s in
      let s := set_tombs s (remember_closed_region (tombs s) rid close_outcome) in
      (set_regions s (RegionTable.table_remove (rt_regions s) (region_arena_index rid)).1, parent_id)
  end.

(** ** Obligations and leaks

    Resolving an obligation advances its region, which may find leaks in it and
    in its ancestors and resolve those in turn: the functions below take the
    function that advances a region as an argument. *)

Section advance.
Context (adv : RuntimeState → RegionId → run RuntimeState).

(** The tail of [commit_obligation], [abort_obligation] and
    [mark_obligation_leaked]. *)
Definition after_resolution s (rid : RegionId) : run RuntimeState :=
  adv (on_region s rid resolve_obligation) rid.

Definition commit_obligation_with s (id : ObligationId) : run (RuntimeState * result N TableError) :=
  '(t, res) ← lift (table_commit (rt_obligations s) id (rt_now s));
  let s := set_obligation_table s t in
  match res with
  | Err e => Returns (s, Err e)
  | Ok info => s ← after_resolution s (ci_region info); Returns (s, Ok (ci_duration info))
  end.

Definition abort_obligation_with s (id : ObligationId) (reason : ObligationAbortReason)
  : run (RuntimeState * result N TableError) :=
  '(t, res) ← lift (table_abort (rt_obligations s) id (rt_now s) reason);
  let s := set_obligation_table s t in
  match res with
  | Err e => Returns (s, Err e)
  | Ok info => s ← after_resolution s (ab_region info); Returns (s, Ok (ab_duration info))
  end.

Definition mark_obligation_leaked_with s (id : ObligationId)
  : run (RuntimeState * result N TableError) :=
  '(t, res) ← lift (table_mark_leaked (rt_obligations s) id (rt_now s));
  let s := set_obligation_table s t in
  match res with
  | Err e => Returns (s, Err e)
  | Ok info => s ← after_resolution s (li_region info); Returns (s, Ok (li_duration info))
  end.

(** The ids of the leaks of [collect_obligation_leaks]; the report's other
    fields only reach the log. *)
Definition collect_obligation_leaks s (predicate : ObligationRecord → bool) : list ObligationId :=
  ob_id <$> List.filter (λ o, is_pending o && predicate o) (iter (obligations (rt_obligations s))).*2.

Definition obligation_pending s (id : ObligationId) : bool :=
  match get_obligation s id with Some o => is_pending o | None => false end.

Definition collect_obligation_leaks_for_holder s (tid : TaskId) : list ObligationId :=
  omap (λ id, match get_obligation s id with
              | Some o => if is_pending o then Some (ob_id o) else None
              | None => None
              end) (ids_for_holder (rt_obligations s) tid).

Definition leak_response (l : LeakState) : ObligationLeakResponse :=
  let response :=
    match leak_escalation l with
    | Some esc => if threshold esc <=? leak_count l then escalate_to esc else obligation_leak_response l
    | None => obligation_leak_response l
    end in
  match response with
  | LeakPanic => if thread_panicking then LeakLog else LeakPanic
  | _ => response
  end.

Fixpoint mark_all_leaked s (ids : list ObligationId) : run RuntimeState :=
  match ids with
  | [] => Returns s
  | id :: ids => '(s, _) ← mark_obligation_leaked_with s id; mark_all_leaked s ids
  end.

Fixpoint abort_all s (ids : list ObligationId) (reason : ObligationAbortReason) : run RuntimeState :=
  match ids with
  | [] => Returns s
  | id :: ids => '(s, _) ← abort_obligation_with s id reason; abort_all s ids reason
  end.

Definition begin_leak_batch (l : LeakState) (ids : list ObligationId) : LeakState :=
  mkLeakState (obligation_leak_response l) (leak_escalation l)
    (saturating_add u64_MAX (leak_count l) (N.of_nat (length ids)))
    (saturating_add usize_MAX (handling_leaks l) 1)
    (in_flight_leak_ids l ∪ list_to_set ids).

Definition end_leak_batch (l : LeakState) (ids : list ObligationId) : LeakState :=
  mkLeakState (obligation_leak_response l) (leak_escalation l) (leak_count l)
    (saturating_sub (handling_leaks l) 1) (in_flight_leak_ids l ∖ list_to_set ids).

Definition handle_obligation_leaks s (error_leaks : list ObligationId) : run RuntimeState :=
  let leak_ids := List.filter (λ id, obligation_pending s id
                     && negb (bool_decide (id ∈ in_flight_leak_ids (leaks s)))) error_leaks in
  match leak_ids with
  | [] => Returns s
  | _ =>
      let s := set_leaks s (begin_leak_batch (leaks s) leak_ids) in
      match leak_response (leaks s) with
      | LeakPanic => _ ← mark_all_leaked s leak_ids; Panicked
      | LeakLog | LeakSilent =>
          s ← mark_all_leaked s leak_ids; Returns (set_leaks s (end_leak_batch (leaks s) leak_ids))
      | LeakRecover =>
          s ← abort_all s leak_ids AbortError; Returns (set_leaks s (end_leak_batch (leaks s) leak_ids))
      end
  end.

(** Leaks of a finalizing region without tasks. *)
Definition detect_region_leaks s (rid : RegionId) : run RuntimeState :=
  match region s rid with
  | Some r =>
      if (0 <? pending_obligations (inner r)) && is_nil (tasks (inner r))
      then handle_obligation_leaks s
             (collect_obligation_leaks s (λ o, bool_decide (ob_region o = rid)))
      else Returns s
  | None => Returns s
  end.

(** One turn of the loop of [advance_region_state]: the state and the region the
    next turn looks at. *)
Definition advance_turn s (rid : RegionId) : run (RuntimeState * option RegionId) :=
  match region s rid with
  | None => Returns (s, None)
  | Some r =>
      match region_state r with
      | RegionState.Closing | RegionState.Draining =>
          let no_children := is_nil (children (inner r)) in
          let no_tasks := is_nil (tasks (inner r)) in
          if no_children && no_tasks then
            let s := on_region s rid (λ r, (begin_finalize r).1) in
            if (begin_finalize r).2
            then Returns (set_fin s (set_finalizing (fin s) (finalizing_regions (fin s) ++ [rid])), Some rid)
            else Returns (s, None)
          else if negb no_children && bool_decide (region_state r = RegionState.Closing)
          then Returns (on_region s rid (λ r, (begin_drain r).1), None)
          else Returns (s, None)
      | RegionState.Finalizing =>
          if bool_decide (is_Some (active_async_finalizers (fin s) !! rid)) then Returns (s, None)
          else
            '(s, barrier) ← run_sync_finalizers_tracked s rid;
            match barrier with
            | Some (fid, fz) =>
                Returns (push_pending_id (on_region s rid (λ r, add_finalizer r fz)) rid fid, None)
            | None =>
                s ← detect_region_leaks s rid;
                if can_region_complete_close s rid
                then Returns (close_region s rid (parent r))
                else Returns (s, None)
            end
      | _ => Returns (s, None)
      end
  end.

End advance.

(** The loop, with fuel. *)
Fixpoint advance (fuel : nat) s (rid : RegionId) : run RuntimeState :=
  match fuel with
  | O => OutOfFuel
  | S fuel =>
      '(s, next) ← advance_turn (advance fuel) s rid;
      match next with
      | None => Returns s
      | Some rid => advance fuel s rid
      end
  end.

(** Every turn that continues moves one region one state ahead, every nested call
    follows the resolution of a pending obligation. *)
Definition region_rank (r : RegionRecord E) : N :=
  match region_state r with RegionState.Finalizing => 1 | RegionState.Closed => 0 | _ => 2 end.

Definition advance_measure s : N :=
  sum_over (λ e, region_rank e.2) (iter (rt_regions s)) + cached_pending (rt_obligations s).

Definition advance_region_state s (rid : RegionId) : run RuntimeState :=
  advance (S (N.to_nat (advance_measure s))) s rid.

(** The end of a region's body: [begin_close(None)] on its record, then the advance. *)
Definition end_region s (rid : RegionId) : run RuntimeState :=
  advance_region_state (on_region s rid (λ r, (begin_close r None).1)) rid.

Definition commit_obligation := commit_obligation_with advance_region_state.
Definition abort_obligation := abort_obligation_with advance_region_state.
Definition mark_obligation_leaked := mark_obligation_leaked_with advance_region_state.

Definition create_obligation s (kind : ObligationKind) (h : TaskId) (rid : RegionId)
  (description : option string) (acquired_at : SourceLocation)
  : run (RuntimeState * result ObligationId ObligationError) :=
  match region s rid with
  | None => Returns (s, Err EkRegionClosed)
  | Some _ =>
      match get_task s h with
      | None => Returns (s, Err EkTaskNotOwned)
      | Some tr =>
          if negb (bool_decide (owner tr = rid)) then Returns (s, Err EkTaskNotOwned)
          else
            match with_region (rt_regions s) rid try_reserve_obligation with
            | (_, None) => Returns (s, Err EkRegionClosed)
            | (a, Some (Err AdmissionClosed)) => Returns (set_regions s a, Err EkRegionClosed)
            | (a, Some (Err (LimitReached _ _ _))) => Returns (set_regions s a, Err EkAdmissionDenied)
            | (a, Some (Ok _)) =>
                let s := set_regions s a in
                '(t, id) ← lift (table_create (rt_obligations s)
                   (mkCreateArgs kind h rid (rt_now s) description acquired_at None));
                Returns (set_obligation_table s t, Ok id)
            end
      end
  end.

(** ** Completion of tasks *)

Definition completion_kind (st : TaskState E) : TaskCompletionKind :=
  match st with
  | Completed (Outcome.Ok _) => CkOk
  | Completed (Outcome.Err _) => CkErr
  | Completed (Outcome.Cancelled _) => CkCancelled
  | Completed (Outcome.Panicked _) => CkPanicked
  | _ => CkUnknown
  end.

(** [cancel_waker.take()] through the shared context. *)
Definition clear_cancel_waker (i : CxInner) : CxInner :=
  mkCxInner (cx_region i) (cx_task i) (task_type i) (cx_budget i) (budget_baseline i)
    (capability_budget i) (cancel_requested i) (cx_cancel_reason i) (cancel_acknowledged i) None
    (mask_depth i) (checkpoint_state i) (fast_cancel i) (fast_path_count i)
    (fast_path_last_checkpoint_ns i).

(** A write through the shared parts of a task record (its context, its wake
    state) that no counter of the table depends on. *)
Definition poke_task s (tid : TaskId) (f : TaskRecord E → TaskRecord E) : RuntimeState :=
  match get_mut (tt_arena (rt_tasks s)) (task_arena_index tid) with
  | Some (r, put) => set_task_table s (set_arena (rt_tasks s) (put (f r)))
  | None => s
  end.

(** An async finalizer task that completes releases the barrier of its region. *)
Definition finish_async_finalizer s (tid : TaskId) (own : RegionId) : RuntimeState :=
  match async_finalizer_tasks (fin s) !! tid with
  | Some fid =>
      let f := fin s in
      let active := active_async_finalizers f in
      let s := set_fin s (set_async f (delete tid (async_finalizer_tasks f))
                 (if bool_decide (active !! own = Some tid) then delete own active else active)) in
      record_finalizer_run s fid
  | None => s
  end.

(** The last part of [task_completed]: orphaned obligations are aborted, the
    record is recycled, the owner forgets the task and advances. *)
Definition retire_task s (tid : TaskId) (own : RegionId) (close_outcome : option (TaskOutcome E))
  : run RuntimeState :=
  let s := finish_async_finalizer s tid own in
  s ← abort_all advance_region_state s (sorted_pending_ids_for_holder (rt_obligations s) tid) AbortCancel;
  let s := recycle_task s tid in
  let s := on_region s own (λ r,
    let r := match close_outcome with Some o => record_close_outcome r o | None => r end in
    remove_task r tid) in
  advance_region_state s own.

Definition task_completed s (tid : TaskId) : run (RuntimeState * list TaskId) :=
  '(s, taken) ← rt_update_task s tid (λ r, Done (set_waiters r [], waiters r));
  match taken with
  | None => Returns (s, [])
  | Some ws =>
      match get_task s tid with
      | None => Returns (s, ws)
      | Some tr =>
          let s := poke_task s tid (update_cx clear_cancel_waker) in
          let close_outcome := match state tr with Completed o => Some o | _ => None end in
          let own := owner tr in
          s ← match completion_kind (state tr) with
              | CkCancelled => Returns s
              | _ => handle_obligation_leaks advance_region_state s
                       (collect_obligation_leaks_for_holder s tid)
              end;
          s ← retire_task s tid own close_outcome;
          Returns (s, ws)
      end
  end.

(** ** Cancellation of a region and its descendants *)

(** The traversal visits each region of the tree once; the number of live regions
    and the target bound its turns. *)
Fixpoint collect_loop (fuel : nat) s (stack : list (RegionId * option RegionId * N))
  (result : list CancelRegionNode) : option (list CancelRegionNode) :=
  match vec_pop stack with
  | None => Some result
  | Some (rest, (rid, p, depth)) =>
      match fuel with
      | O => None
      | S fuel =>
          let result := result ++ [mkNode rid p depth] in
          let kids := match region s rid with Some r => children (inner r) | None => [] end in
          collect_loop fuel s (rest ++ ((λ c, (c, Some rid, depth + 1)) <$> kids)) result
      end
  end.

Definition collect_region_and_descendants_with_depth s (rid : RegionId) : option (list CancelRegionNode) :=
  collect_loop (S (length (iter (rt_regions s)))) s [(rid, None, 0)] [].

(** A stable sort by depth. *)
Fixpoint insert_node (n : CancelRegionNode) (l : list CancelRegionNode) : list CancelRegionNode :=
  match l with
  | [] => [n]
  | m :: l' => if node_depth n <=? node_depth m then n :: l else m :: insert_node n l'
  end.

Definition sort_by_depth (l : list CancelRegionNode) : list CancelRegionNode := foldr insert_node [] l.

(** The reason a region of the subtree is cancelled for. *)
Definition region_reason s (target : RegionId) (reason : CancelReason) (n : CancelRegionNode)
  (reasons : gmap RegionId CancelReason) : CancelReason :=
  if bool_decide (node_id n = target) then reason
  else
    match node_parent n with
    | Some p =>
        let parent_reason :=
          match reasons !! p with
          | Some r => r
          | None => with_origin CancelKind.ParentCancelled p (rt_now s)
          end in
        with_cause_limited (with_timestamp (Cancel.with_region parent_cancelled p) (timestamp reason))
          parent_reason (cancel_attribution s)
    | None =>
        with_cause_limited (with_timestamp parent_cancelled (timestamp reason)) reason
          (cancel_attribution s)
    end.

Definition mark_region (rr : CancelReason) (r : RegionRecord E) : RegionRecord E :=
  let (r', began) := begin_close r (Some rr) in
  if began then r'
  else if bool_decide (region_state r' = RegionState.Closed) then r'
  else strengthen_cancel_reason r' rr.

(** First pass: regions. *)
Fixpoint mark_regions s (target : RegionId) (reason : CancelReason) (nodes : list CancelRegionNode)
  (reasons : gmap RegionId CancelReason) : RuntimeState * gmap RegionId CancelReason :=
  match nodes with
  | [] => (s, reasons)
  | n :: nodes =>
      let rr := region_reason s target reason n reasons in
      mark_regions (on_region s (node_id n) (mark_region rr)) target reason nodes
        (<[node_id n := rr]> reasons)
  end.

(** Cancellation of one task, with the entry of the work list it yields. *)
Definition cancel_one s (tid : TaskId) (reason : CancelReason)
  : run (RuntimeState * list (TaskId * N)) :=
  let budget := cleanup_budget_of reason in
  '(s, x) ← rt_update_task s tid (λ r,
     Done (let '(r', newly, w) := request_cancel_with_budget r reason budget in
           (r', (newly || is_cancelling (state r'), w))));
  match x with
  | Some (listed, w) =>
      Returns (wake s (option_list w), if (listed : bool) then [(tid, priority budget)] else [])
  | None => Returns (s, [])
  end.

Fixpoint cancel_tasks s (tids : list TaskId) (reason : CancelReason)
  : run (RuntimeState * list (TaskId * N)) :=
  match tids with
  | [] => Returns (s, [])
  | tid :: tids =>
      '(s, l1) ← cancel_one s tid reason;
      '(s, l2) ← cancel_tasks s tids reason;
      Returns (s, l1 ++ l2)
  end.

(** Second pass: tasks. *)
Fixpoint cancel_region_tasks s (reason : CancelReason) (nodes : list CancelRegionNode)
  (reasons : gmap RegionId CancelReason) : run (RuntimeState * list (TaskId * N)) :=
  match nodes with
  | [] => Returns (s, [])
  | n :: nodes =>
      let tids := match region s (node_id n) with Some r => tasks (inner r) | None => [] end in
      '(s, l1) ← cancel_tasks s tids (default reason (reasons !! node_id n));
      '(s, l2) ← cancel_region_tasks s reason nodes reasons;
      Returns (s, l1 ++ l2)
  end.

(** Third pass: regions without work advance. *)
Fixpoint advance_idle s (nodes : list CancelRegionNode) : run RuntimeState :=
  match nodes with
  | [] => Returns s
  | n :: nodes =>
      match region s (node_id n) with
      | None => advance_idle s nodes
      | Some r =>
          if is_nil (children (inner r)) && is_nil (tasks (inner r))
          then s ← advance_region_state s (node_id n); advance_idle s nodes
          else advance_idle s nodes
      end
  end.

Definition cancel_request s (rid : RegionId) (reason : CancelReason)
  : run (RuntimeState * list (TaskId * N)) :=
  match collect_region_and_descendants_with_depth s rid with
  | None => OutOfFuel
  | Some nodes =>
      let nodes := sort_by_depth nodes in
      let (s, reasons) := mark_regions s rid reason nodes ∅ in
      '(s, tasks_to_cancel) ← cancel_region_tasks s reason nodes reasons;
      s ← advance_idle s nodes;
      Returns (s, tasks_to_cancel)
  end.

(** ** Policies *)

Definition cancel_sibling_tasks s (rid : RegionId) (child : TaskId) (reason : CancelReason)
  : run (RuntimeState * list (TaskId * N)) :=
  match region s rid with
  | None => Returns (s, [])
  | Some r => cancel_tasks s (filter (λ t, t ≠ child) (tasks (inner r))) reason
  end.

Definition apply_policy_on_child_outcome {P} `{Policy P E} s (rid : RegionId) (child : TaskId)
  (outcome : Outcome.t () E) (policy : P) : run (RuntimeState * PolicyAction * list (TaskId * N)) :=
  let action := on_child_outcome policy child outcome in
  match action with
  | CancelSiblings reason =>
      '(s, l) ← cancel_sibling_tasks s rid child reason; Returns (s, action, l)
  | _ => Returns (s, action, [])
  end.

(** ** Async finalizers *)

Definition notify_task (r : TaskRecord E) : TaskRecord E :=
  mkTaskRecord (id r) (owner r) (state r) (phase r) (TaskWakeState.notify (wake_state r)).1 (cx_inner r)
    (has_cx r) (created_at r) (task_deadline r) (polls_remaining r) (total_polls r)
    (last_polled_step r) (waiters r) (cached_waker r) (cached_cancel_waker r) (cancel_epoch r)
    (is_local r) (pinned_worker r) (next_in_queue r) (prev_in_queue r) (queue_tag r) (heap_index r)
    (sched_priority r) (sched_generation r).

Definition spawn_finalizer_task s (rid : RegionId) (fid : N) (future : N)
  : run (RuntimeState * option (TaskId * N)) :=
  let dl := Time.saturating_add_nanos (rt_now s) FINALIZER_TIME_BUDGET_NANOS in
  let budget := with_deadline finalizer_budget dl in
  '(s, res) ← create_task_infrastructure s rid budget true;
  match res with
  | Err _ => Returns (s, None)
  | Ok tid =>
      let s := set_task_table s (store_spawned_task (rt_tasks s) tid future) in
      let s := poke_task s tid notify_task in
      let f := fin s in
      let s := set_fin s (set_async f (<[tid := fid]> (async_finalizer_tasks f))
                            (<[rid := tid]> (active_async_finalizers f))) in
      Returns (s, Some (tid, priority budget))
  end.

Definition ready_for_finalizer s (rid : RegionId) : bool :=
  negb (bool_decide (is_Some (active_async_finalizers (fin s) !! rid)))
  && match region s rid with
     | Some r => negb (finalizers_empty (finalizers (inner r)))
     | None => false
     end.

Fixpoint start_async_finalizers s (rids : list RegionId) : run (RuntimeState * list (TaskId * N)) :=
  match rids with
  | [] => Returns (s, [])
  | rid :: rids =>
      '(s, barrier) ← run_sync_finalizers_tracked s rid;
      match barrier with
      | Some (fid, FAsync future) =>
          '(s, started) ← spawn_finalizer_task s rid fid future;
          match started with
          | Some e =>
              '(s, l) ← start_async_finalizers s rids; Returns (s, e :: l)
          | None =>
              start_async_finalizers
                (push_pending_id (on_region s rid (λ r, add_finalizer r (FAsync future))) rid fid) rids
          end
      | _ => start_async_finalizers s rids
      end
  end.

Definition drain_ready_async_finalizers s : run (RuntimeState * list (TaskId * N)) :=
  start_async_finalizers s (List.filter (ready_for_finalizer s) (finalizing_regions (fin s))).

(** ** Queries *)

Definition can_region_finalize s (rid : RegionId) : bool :=
  match region s rid with
  | None => false
  | Some r =>
      forallb (λ t, match get_task s t with Some tr => state_is_terminal (state tr) | None => true end)
        (tasks (inner r))
      && forallb (λ c, match region s c with Some cr => RegionState.is_terminal (region_state cr) | None => true end)
           (children (inner r))
  end.

Definition region_close_outcome s (rid : RegionId) : option (TaskOutcome E) :=
  match (match region s rid with Some r => close_outcome (inner r) | None => None end) with
  | Some o => Some o
  | None => recently_closed_region_outcomes (tombs s) !! rid
  end.

(** [io_idle]: no driver, or a driver without registrations. *)
Definition is_quiescent s (io_idle : bool) : bool :=
  (live_task_count (rt_tasks s) =? 0) && (cached_pending (rt_obligations s) =? 0) && io_idle
  && forallb (λ e, finalizers_empty (finalizers (inner e.2)) && negb (RegionState.is_closing (region_state e.2)))
       (iter (rt_regions s)).

End runtime.

Arguments RuntimeState : clear implicits.
