(* ===== verification/RuntimeInv.v ===== *)
(** * The invariant of the runtime state

    What ties the three tables and the finalizer bookkeeping of
    [src/runtime/state.rs] together, and that every operation of [Runtime] keeps
    it.  The parts are stated on lookup functions so that each operation is
    justified by the records it touches. *)

From S2P Require Import Prelude Ids Arena Budget Cancel Cx Outcome Task RegionHeap Region Obligation TaskTable RegionTable Runtime.

(** ** Updates of lookup functions *)

Definition upd {K V} `{EqDecision K} (f : K → option V) (k : K) (v : option V) (f' : K → option V) : Prop :=
  ∀ j, f' j = if decide (j = k) then v else f j.

Lemma upd_same {K V} `{EqDecision K} (f : K → option V) k v f' : upd f k v f' → f' k = v.
Proof. intros H. by rewrite H, decide_True. Qed.
Lemma upd_other {K V} `{EqDecision K} (f : K → option V) k v f' j : upd f k v f' → j ≠ k → f' j = f j.
Proof. intros H ?. by rewrite H, decide_False. Qed.

(** [upd_cases H x]: is the key the updated one? *)
Ltac upd_at H :=
  match type of H with
  | upd _ ?k _ ?f' =>
      repeat match goal with
      | G : f' ?j = _ |- _ => rewrite (H j) in G; destruct (decide (j = k)); [try subst j|]
      end
  end.

Section invariant.
Context {E : Type}.
Implicit Types (reg : RegionId → option (RegionRecord E)) (tsk : TaskId → option (TaskRecord E))
  (s : RuntimeState E).

(** ** The parts of the invariant *)

(** The regions form a forest; none is closed; a finalizing region has no
    children left. *)
Record tree_wf reg : Prop := {
  tr_wf rid r : reg rid = Some r → region_wf r ∧ region_id r = rid ∧ region_state r ≠ RegionState.Closed;
  tr_up c cr p : reg c = Some cr → parent cr = Some p →
    ∃ pr, reg p = Some pr ∧ c ∈ children (inner pr);
  tr_down p pr c : reg p = Some pr → c ∈ children (inner pr) →
    ∃ cr, reg c = Some cr ∧ parent cr = Some p;
  tr_depth : ∃ d : RegionId → nat, ∀ c cr p, reg c = Some cr → parent cr = Some p → (d p < d c)%nat;
  tr_final rid r : reg rid = Some r → region_state r = RegionState.Finalizing → children (inner r) = [];
}.

(** Every task is listed by a live region, its owner, and by no other. *)
Record owns_wf reg tsk : Prop := {
  ow_task t tr : tsk t = Some tr → ∃ r, reg (owner tr) = Some r ∧ t ∈ tasks (inner r);
  ow_region rid r t : reg rid = Some r → t ∈ tasks (inner r) → ∃ tr, tsk t = Some tr ∧ owner tr = rid;
}.

Definition pending_in (rid : RegionId) (e : ArenaIndex * ObligationRecord) : bool :=
  is_pending e.2 && bool_decide (ob_region e.2 = rid).

(** A region counts its pending obligations, and a pending obligation is held by
    a live task of its region. *)
Record obs_wf reg tsk (o : Arena ObligationRecord) : Prop := {
  ob_count rid r : reg rid = Some r →
    pending_obligations (inner r) = N.of_nat (count (pending_in rid) (iter o));
  ob_owner idx ob : Arena.get o idx = Some ob → is_pending ob = true →
    ∃ tr, tsk (holder ob) = Some tr ∧ owner tr = ob_region ob;
}.

(** Finalizer ids mirror the finalizer stacks; the list of finalizing regions is
    exact; async finalizers in flight are tasks of their region. *)
Record fin_wf reg tsk (f : FinalizerState) : Prop := {
  fi_ids rid r : reg rid = Some r →
    length (default [] (pending_finalizer_ids f !! rid)) = length (finalizers_of (finalizers (inner r)));
  fi_dom rid l : pending_finalizer_ids f !! rid = Some l → is_Some (reg rid);
  fi_nodup : NoDup (finalizing_regions f);
  fi_list rid : rid ∈ finalizing_regions f ↔
    ∃ r, reg rid = Some r ∧ region_state r = RegionState.Finalizing;
  fi_active rid t : active_async_finalizers f !! rid = Some t →
    is_Some (async_finalizer_tasks f !! t) ∧ ∃ tr, tsk t = Some tr ∧ owner tr = rid;
  fi_async t n : async_finalizer_tasks f !! t = Some n →
    ∃ tr, tsk t = Some tr ∧ active_async_finalizers f !! owner tr = Some t;
}.

Record rt_wf (s : RuntimeState E) : Prop := {
  ri_arena : arena_wf (rt_regions s);
  ri_tasks : tt_wf (rt_tasks s);
  ri_table : table_wf (rt_obligations s);
  ri_now : rt_now s ≤ u64_MAX;
  ri_fence rid : rid ∈ finalized_regions (rt_obligations s) →
    spent (rt_regions s) (region_arena_index rid);
  ri_tree : tree_wf (region s);
  ri_owns : owns_wf (region s) (get_task s);
  ri_obs : obs_wf (region s) (get_task s) (obligations (rt_obligations s));
  ri_fin : fin_wf (region s) (get_task s) (fin s);
}.

(** ** One region record changes *)

Lemma tree_upd reg reg' rid r r' : tree_wf reg → reg rid = Some r → upd reg rid (Some r') reg' →
  region_step_ok r r' → children (inner r') = children (inner r) →
  region_state r' ≠ RegionState.Closed →
  (region_state r' = RegionState.Finalizing → children (inner r') = []) → tree_wf reg'.
Proof.
  intros [Hw Hu Hd [d Hdep] Hf] Hr Hupd [Hwf' _ Hid Hpar] Hch Hcl Hfin. split.
  - intros j rj Hj. upd_at Hupd; simplify_eq; [|by apply Hw].
    split_and!; try done. rewrite Hid. by apply Hw.
  - intros c cr p Hc Hp. assert (∃ cr0, reg c = Some cr0 ∧ parent cr0 = Some p) as (cr0 & Hc0 & Hp0).
    { upd_at Hupd; simplify_eq; [exists r; split; [done|congruence]|by exists cr]. }
    destruct (Hu c cr0 p Hc0 Hp0) as (pr & Hpr & Hin). rewrite (Hupd p). case_decide; [|by exists pr].
    subst. exists r'. split; [done|]. rewrite Hch. congruence.
  - intros p pr c Hp Hc. assert (∃ pr0, reg p = Some pr0 ∧ c ∈ children (inner pr0)) as (pr0 & Hp0 & Hc0).
    { upd_at Hupd; simplify_eq; [exists r; split; [done|congruence]|by exists pr]. }
    destruct (Hd p pr0 c Hp0 Hc0) as (cr & Hcr & Hpar'). rewrite (Hupd c). case_decide; [|by exists cr].
    subst. exists r'. split; [done|]. congruence.
  - exists d. intros c cr p Hc Hp. upd_at Hupd; simplify_eq; [|by eapply Hdep].
    eapply Hdep; [done|congruence].
  - intros j rj Hj Hs. upd_at Hupd; simplify_eq; [auto|by eapply Hf].
Qed.

Lemma owns_upd_region reg reg' tsk rid r r' : owns_wf reg tsk → reg rid = Some r →
  upd reg rid (Some r') reg' → tasks (inner r') = tasks (inner r) → owns_wf reg' tsk.
Proof.
  intros [Ht Hr] Hrid Hupd Htk. split.
  - intros t tr Htr. destruct (Ht t tr Htr) as (r0 & Hr0 & Hin). rewrite (Hupd (owner tr)).
    case_decide as Hd; [|by exists r0]. exists r'. split; [done|]. rewrite Htk. congruence.
  - intros j rj t Hj Hin. upd_at Hupd; simplify_eq; [|by eapply Hr]. eapply Hr; [done|congruence].
Qed.

Lemma obs_upd_region reg reg' tsk o rid r r' : obs_wf reg tsk o → reg rid = Some r →
  upd reg rid (Some r') reg' → pending_obligations (inner r') = pending_obligations (inner r) →
  obs_wf reg' tsk o.
Proof.
  intros [Hc Ho] Hrid Hupd Hp. split; [|done].
  intros j rj Hj. upd_at Hupd; simplify_eq; [|by apply Hc]. rewrite Hp. by apply Hc.
Qed.

Lemma fin_upd_region reg reg' tsk f rid r r' : fin_wf reg tsk f → reg rid = Some r →
  upd reg rid (Some r') reg' →
  length (finalizers_of (finalizers (inner r'))) = length (finalizers_of (finalizers (inner r))) →
  (region_state r' = RegionState.Finalizing ↔ region_state r = RegionState.Finalizing) →
  fin_wf reg' tsk f.
Proof.
  intros [Hi Hd Hn Hl Ha Has] Hrid Hupd Hfz Hst. split; try done.
  - intros j rj Hj. upd_at Hupd; simplify_eq; [|by apply Hi]. rewrite Hfz. by apply Hi.
  - intros j l Hj. rewrite (Hupd j). case_decide; [done|by eapply Hd].
  - intros j. rewrite Hl, (Hupd j). case_decide; [|done]. subst. rewrite Hrid. naive_solver.
Qed.

(** ** Regions of the state *)

Lemma on_region_None (s : RuntimeState E) rid f : arena_wf (rt_regions s) → region s rid = None →
  on_region s rid f = s.
Proof.
  intros Ha Hr. unfold on_region. pose proof (write_region_spec (rt_regions s) rid f Ha) as H.
  unfold region in Hr. rewrite Hr in H. rewrite H. by destruct s.
Qed.

Lemma on_region_Some (s : RuntimeState E) rid f r : arena_wf (rt_regions s) → region s rid = Some r →
  wrote (rt_regions s) rid (f r) (rt_regions (on_region s rid f)) ∧
  upd (region s) rid (Some (f r)) (region (on_region s rid f)).
Proof.
  intros Ha Hr. pose proof (write_region_spec (rt_regions s) rid f Ha) as H.
  unfold region in Hr. rewrite Hr in H. split; [done|]. intros j. apply H.
Qed.

(** The fields of a record the links between the tables depend on. *)
Record same_links (r r' : RegionRecord E) : Prop := {
  sl_step : region_step_ok r r';
  sl_children : children (inner r') = children (inner r);
  sl_tasks : tasks (inner r') = tasks (inner r);
  sl_pending : pending_obligations (inner r') = pending_obligations (inner r);
  sl_fin : length (finalizers_of (finalizers (inner r'))) = length (finalizers_of (finalizers (inner r)));
  sl_final : region_state r' = RegionState.Finalizing ↔ region_state r = RegionState.Finalizing;
  sl_open : region_state r ≠ RegionState.Closed → region_state r' ≠ RegionState.Closed;
}.

Lemma rt_on_region s rid f r : rt_wf s → region s rid = Some r → same_links r (f r) →
  rt_wf (on_region s rid f).
Proof.
  intros Hwf Hr [Hst Hch Htk Hp Hfz Hfs Ho]. destruct Hwf as [Ha Htt Htb Hnow Hfe Htr Hown Hob Hfi].
  destruct (on_region_Some s rid f r Ha Hr) as [[Ha' Hle _ _] Hupd].
  assert (Hw := tr_wf _ Htr _ _ Hr). destruct Hw as (_ & _ & Hncl).
  split; try done.
  - intros j Hj. eapply spent_mono; [done|by apply Hfe].
  - eapply tree_upd; try done; [by apply Ho|]. rewrite Hfs, Hch. by apply (tr_final _ Htr rid).
  - by eapply owns_upd_region.
  - by eapply obs_upd_region.
  - by eapply fin_upd_region.
Qed.

(** Same, when the region may be gone. *)
Lemma rt_on_region' s rid f : rt_wf s →
  (∀ r, region s rid = Some r → region_wf r → region_state r ≠ RegionState.Closed → same_links r (f r)) →
  rt_wf (on_region s rid f).
Proof.
  intros Hwf Hf. destruct (region s rid) as [r|] eqn:Hr.
  - destruct (tr_wf _ (ri_tree s Hwf) _ _ Hr) as (? & _ & ?). eapply rt_on_region; [done..|]. by apply Hf.
  - rewrite on_region_None; [done|apply Hwf|done].
Qed.

(** Operations that keep the links. *)
Lemma links_outcome r o : region_wf r → same_links r (record_close_outcome r o).
Proof. intros Hwf. split; try done. by apply inner_ops_ok. Qed.
Lemma links_limits r l : region_wf r → same_links r (set_limits r l).
Proof. intros Hwf. split; try done. by apply inner_ops_ok. Qed.

Lemma begin_close_inner (r : RegionRecord E) c : (begin_close r (Some c)).1 = r ∨
  (inner (begin_close r (Some c)).1 = set_cancel (inner r) (Some (strengthened_reason (cancel_reason (inner r)) c)) ∧
   (region_state (begin_close r (Some c)).1 = region_state r ∨
    region_state r = RegionState.Open ∧ region_state (begin_close r (Some c)).1 = RegionState.Closing)).
Proof.
  unfold begin_close. case_bool_decide; [by left|]. right. unfold RegionState.transition. simpl.
  destruct (region_state r) eqn:Hs; simpl; rewrite ?Hs; auto.
Qed.

Lemma links_begin_close r c : region_wf r → region_state r ≠ RegionState.Closed →
  same_links r (begin_close r (Some c)).1.
Proof.
  intros Hwf Ho. destruct (begin_close_inner r c) as [->|[Hi Hs]]; [by split; try done; apply step_refl|].
  split; try (by rewrite Hi); [by apply begin_close_ok| |].
  - destruct Hs as [->|[-> ->]]; naive_solver.
  - destruct Hs as [->|[_ ->]]; done.
Qed.

Lemma begin_close_none_inner (r : RegionRecord E) : inner (begin_close r None).1 = inner r ∧
  (region_state (begin_close r None).1 = region_state r ∨
   region_state r = RegionState.Open ∧ region_state (begin_close r None).1 = RegionState.Closing).
Proof.
  unfold begin_close. case_bool_decide; [auto|]. unfold RegionState.transition. simpl.
  destruct (region_state r) eqn:Hs; simpl; rewrite ?Hs; auto.
Qed.

Lemma links_begin_close_none r : region_wf r → region_state r ≠ RegionState.Closed →
  same_links r (begin_close r None).1.
Proof.
  intros Hwf Ho. destruct (begin_close_none_inner r) as [Hi Hs].
  split; try (by rewrite Hi); [by apply begin_close_ok| |].
  - destruct Hs as [->|[-> ->]]; naive_solver.
  - destruct Hs as [->|[_ ->]]; done.
Qed.

Lemma links_trans r1 r2 r3 : same_links r1 r2 → same_links r2 r3 →
  (region_state r3 = region_state r2) → same_links r1 r3.
Proof.
  intros [[? ? ? ?] ? ? ? ? ? ?] [[? ? ? ?] ? ? ? ? ? ?] Hs.
  split; try congruence; [split; try congruence|naive_solver].
Qed.

Lemma links_mark_region rr r : region_wf r → region_state r ≠ RegionState.Closed →
  same_links r (mark_region rr r).
Proof.
  intros Hwf Ho. unfold mark_region. pose proof (links_begin_close r rr Hwf Ho) as Hb.
  destruct (begin_close r (Some rr)) as [r' b]. simpl in *. destruct b; [done|].
  case_bool_decide; [done|]. eapply links_trans; [done| |done].
  split; try done. apply strengthen_ok, Hb.
Qed.

Lemma links_begin_drain r : region_wf r → same_links r (begin_drain r).1.
Proof.
  intros Hwf. assert (Hin : inner (begin_drain r).1 = inner r).
  { unfold begin_drain, RegionState.transition. by destruct (region_state r). }
  split; try (by rewrite Hin); [by apply begin_drain_ok|..].
  all: unfold begin_drain, RegionState.transition; by destruct (region_state r) eqn:Hs; simpl; rewrite ?Hs.
Qed.

(** ** Finalizer stacks *)

(** The stack of one region and its ids change together. *)
Lemma fin_upd_stack reg reg' tsk f f' rid r r' : fin_wf reg tsk f → reg rid = Some r →
  upd reg rid (Some r') reg' → region_state r' = region_state r →
  finalizing_regions f' = finalizing_regions f →
  async_finalizer_tasks f' = async_finalizer_tasks f →
  active_async_finalizers f' = active_async_finalizers f →
  (∀ j, j ≠ rid → pending_finalizer_ids f' !! j = pending_finalizer_ids f !! j) →
  length (default [] (pending_finalizer_ids f' !! rid)) = length (finalizers_of (finalizers (inner r'))) →
  fin_wf reg' tsk f'.
Proof.
  intros [Hi Hd Hn Hl Ha Has] Hrid Hupd Hst Ef Ea Eb Hids Hlen. split; rewrite ?Ef, ?Ea, ?Eb; try done.
  - intros j rj Hj. upd_at Hupd; simplify_eq; [done|]. rewrite Hids by done. by apply Hi.
  - intros j l Hj. rewrite (Hupd j). case_decide as Hjr; [done|]. rewrite Hids in Hj by done. by eapply Hd.
  - intros j. rewrite Hl, (Hupd j). case_decide; [|done]. subst. rewrite Hrid.
    split; intros (x & [= <-] & ?); eexists; (split; [done|]); congruence.
Qed.

Lemma rt_stack s s' rid r r' : rt_wf s → region s rid = Some r →
  wrote (rt_regions s) rid r' (rt_regions s') → rt_tasks s' = rt_tasks s →
  rt_obligations s' = rt_obligations s → rt_now s' = rt_now s →
  region_step_ok r r' → region_state r' = region_state r →
  children (inner r') = children (inner r) → tasks (inner r') = tasks (inner r) →
  pending_obligations (inner r') = pending_obligations (inner r) →
  fin_wf (region s') (get_task s') (fin s') → rt_wf s'.
Proof.
  intros Hwf Hr Hwr Et Eo En Hstep Hst Hc Ht Hp Hf. pose proof Hwf as [Ha Htt Htb Hnow Hfe Htr Hown Hob _].
  assert (Hupd : upd (region s) rid (Some r') (region s')) by (intros j; apply Hwr).
  assert (Htask : get_task s' = get_task s) by (unfold get_task; by rewrite Et).
  destruct (tr_wf _ Htr _ _ Hr) as (_ & _ & Hncl).
  split; rewrite ?Et, ?Eo, ?En, ?Htask; try done.
  - apply Hwr.
  - intros j Hj. eapply spent_mono; [apply Hwr|by apply Hfe].
  - eapply tree_upd; try done; rewrite Hst; [done|]. rewrite Hc. by apply (tr_final _ Htr rid).
  - by eapply owns_upd_region.
  - by eapply obs_upd_region.
  - by rewrite Htask in Hf.
Qed.

(** What a popped finalizer leaves behind. *)
Record popped (s : RuntimeState E) (rid : RegionId) (r : RegionRecord E) (fid : N) (fz : Finalizer)
  (s' : RuntimeState E) : Prop := {
  po_stack : ∃ l, finalizers_of (finalizers (inner r)) = l ++ [fz] ∧
    wrote (rt_regions s) rid
      (set_inner r (set_finalizers (inner r) (mkFinalizerStack l (escalation (finalizers (inner r))))))
      (rt_regions s');
  po_ids : ∃ ids, pending_finalizer_ids (fin s) !! rid = Some (ids ++ [fid]) ∧
    pending_finalizer_ids (fin s') =
      match ids with [] => delete rid (pending_finalizer_ids (fin s))
                   | _ => <[rid := ids]> (pending_finalizer_ids (fin s)) end;
  po_same : s' = set_fin (set_regions s (rt_regions s')) (set_pending_ids (fin s) (pending_finalizer_ids (fin s')));
}.

Lemma pop_tracked_spec s rid : rt_wf s →
  match region s rid with
  | None => pop_tracked_finalizer s rid = Done (s, None)
  | Some r =>
      (finalizers_of (finalizers (inner r)) = [] ∧ ∃ a, wrote (rt_regions s) rid r a ∧
         pop_tracked_finalizer s rid = Done (set_regions s a, None)) ∨
      ∃ fid fz s', pop_tracked_finalizer s rid = Done (s', Some (fid, fz)) ∧ popped s rid r fid fz s'
  end.
Proof.
  intros Hwf. unfold pop_tracked_finalizer, region.
  pose proof (with_region_spec (rt_regions s) rid pop_finalizer (ri_arena s Hwf)) as Hw.
  destruct (get_region (rt_regions s) rid) as [r|] eqn:Hr; [|by rewrite Hw].
  destruct Hw as (a & -> & Hwr). unfold pop_finalizer, finalizers_pop in *.
  pose proof (fi_ids _ _ _ (ri_fin s Hwf) rid r Hr) as Hlen.
  destruct (vec_pop (finalizers_of (finalizers (inner r)))) as [[l fz]|] eqn:Hv; simpl in *.
  - right. apply vec_pop_Some in Hv. rewrite Hv, length_app in Hlen. simpl in Hlen.
    destruct (pending_finalizer_ids (fin s) !! rid) as [ids|] eqn:Hids; simpl in Hlen; [|lia].
    destruct (vec_pop ids) as [[ids' fid]|] eqn:Hvi.
    2: { apply vec_pop_None in Hvi. subst. simpl in Hlen. lia. }
    apply vec_pop_Some in Hvi. subst ids. do 3 eexists. split; [done|].
    split; simpl; [by exists l|by exists ids'|done].
  - left. apply vec_pop_None in Hv. split; [done|]. exists a. split; [|done].
    destruct r as [? ? ? ? ? [? ? ? ? [] ? ? ? ? ?] ?]. done.
Qed.

Lemma popped_wf s rid r fid fz s' : rt_wf s → region s rid = Some r → popped s rid r fid fz s' → rt_wf s'.
Proof.
  intros Hwf Hr [(l & Hl & Hwr) (ids & Hids & Hids') Hs'].
  assert (Efin : fin s' = set_pending_ids (fin s) (pending_finalizer_ids (fin s'))) by (by rewrite Hs').
  destruct (tr_wf _ (ri_tree s Hwf) _ _ Hr) as (Hrw & _ & _).
  eapply rt_stack; [done|done|done|by rewrite Hs'..| | |done|done|done|]; [|done|].
  - apply set_inner_ok; simpl; try apply Hrw. intros _ [? ? ?]. by split_and!.
  - assert (Htask : get_task s' = get_task s) by (rewrite Hs'; done). rewrite Htask.
    eapply fin_upd_stack; [apply Hwf|done|intros j; apply Hwr|done|by rewrite Efin..| |].
    + intros j Hj. rewrite Hids'. destruct ids; [by rewrite lookup_delete_ne|by rewrite lookup_insert_ne].
    + pose proof (fi_ids _ _ _ (ri_fin s Hwf) rid r Hr) as Hlen. rewrite Hids, Hl in Hlen.
      rewrite Hids'. simpl in *. rewrite !length_app in Hlen. simpl in Hlen.
      destruct ids; [rewrite lookup_delete_eq|rewrite lookup_insert_eq]; simpl in *; lia.
Qed.

(** A finalizer and its id go on their stacks. *)
Lemma push_wf s rid fid fz : rt_wf s → is_Some (region s rid) →
  rt_wf (push_pending_id (on_region s rid (λ r, add_finalizer r fz)) rid fid).
Proof.
  intros Hwf [r Hr]. destruct (tr_wf _ (ri_tree s Hwf) _ _ Hr) as (Hrw & _ & _).
  destruct (on_region_Some s rid (λ r, add_finalizer r fz) r (ri_arena s Hwf) Hr) as [Hwr Hupd].
  eapply (rt_stack s _ rid r); [done|done|done|done..| | |done|done|done|]; [|done|].
  - by apply inner_ops_ok.
  - eapply (fin_upd_stack (region s)); [apply Hwf|done|done|done..| |].
    + intros j Hj. simpl. by rewrite lookup_insert_ne.
    + simpl. rewrite lookup_insert_eq. simpl. rewrite !length_app. simpl.
      pose proof (fi_ids _ _ _ (ri_fin s Hwf) rid r Hr). lia.
Qed.

(** ** What advancing a region may change

    Regions lose finalizers and children, move along the state machine and close;
    tasks and obligations stay as they are. *)

Record kept (r r' : RegionRecord E) : Prop := {
  k_id : region_id r' = region_id r;
  k_parent : parent r' = parent r;
  k_tasks : tasks (inner r') = tasks (inner r);
  k_children : ∀ c, c ∈ children (inner r') → c ∈ children (inner r);
  k_reason : Region.cancel_reason (inner r') = Region.cancel_reason (inner r);
  k_limits : limits (inner r') = limits (inner r);
  k_move : rtc region_move (region_state r) (region_state r');
  k_open : region_state r' = RegionState.Open ↔ region_state r = RegionState.Open;
}.

#[global] Instance kept_preorder : PreOrder kept.
Proof.
  split; [by intros r; split|]. intros r1 r2 r3 [] []. split; try congruence; [auto|by etrans|tauto].
Qed.

Record adv_rel (s s' : RuntimeState E) : Prop := {
  ar_tasks : rt_tasks s' = rt_tasks s;
  ar_obligations : obligations (rt_obligations s') = obligations (rt_obligations s);
  ar_holders : by_holder (rt_obligations s') = by_holder (rt_obligations s);
  ar_cached : cached_pending (rt_obligations s') = cached_pending (rt_obligations s);
  ar_fence : finalized_regions (rt_obligations s) ⊆ finalized_regions (rt_obligations s');
  ar_now : rt_now s' = rt_now s;
  ar_attribution : cancel_attribution s' = cancel_attribution s;
  ar_leaks : leaks s' = leaks s;
  ar_async : async_finalizer_tasks (fin s') = async_finalizer_tasks (fin s);
  ar_active : active_async_finalizers (fin s') = active_async_finalizers (fin s);
  ar_slots : slots_le (slots (rt_regions s)) (slots (rt_regions s'));
  ar_kept rid r' : region s' rid = Some r' → ∃ r, region s rid = Some r ∧ kept r r';
  ar_gone rid r : region s rid = Some r → region s' rid = None →
    tasks (inner r) = [] ∧ region_state r ≠ RegionState.Open ∧
    rid ∈ finalized_regions (rt_obligations s');
  ar_measure : advance_measure s' ≤ advance_measure s;
}.

#[global] Instance adv_rel_preorder : PreOrder adv_rel.
Proof.
  split.
  - intros s. split; try done; [|by intros; congruence]. intros rid r Hr. by exists r.
  - intros s1 s2 s3 H12 H23. pose proof H12 as []. pose proof H23 as []. split; try congruence; try (by etrans).
    + intros rid r3 H3. destruct (ar_kept _ _ H23 rid r3 H3) as (r2 & H2 & K23).
      destruct (ar_kept _ _ H12 rid r2 H2) as (r1 & H1 & K12). exists r1. split; [done|by etrans].
    + intros rid r H1 H3. destruct (region s2 rid) as [r2|] eqn:H2.
      * destruct (ar_gone _ _ H23 rid r2 H2 H3) as (Ht & Ho & Hf).
        destruct (ar_kept _ _ H12 rid r2 H2) as (r0 & Hr0 & Hk). assert (r0 = r) as -> by congruence.
        split_and!; [by rewrite <-(k_tasks _ _ Hk)|by rewrite <-(k_open _ _ Hk)|done].
      * destruct (ar_gone _ _ H12 rid r H1 H2) as (Ht & Ho & Hf). split_and!; [done|done|].
        by apply (ar_fence _ _ H23).
Qed.

(** *** The measure *)

Definition rank_sum (a : Arena (RegionRecord E)) : N := sum_over (λ e, region_rank e.2) (iter a).

Lemma get_region_idx (a a' : Arena (RegionRecord E)) rid v :
  (∀ j, get_region a' j = if decide (j = rid) then v else get_region a j) →
  ∀ j, Arena.get a' j = if decide (j = region_arena_index rid) then v else Arena.get a j.
Proof.
  intros H j. specialize (H (RegionId_from_arena j)). unfold get_region in H. simpl in H. rewrite H.
  destruct rid as [i]. simpl. repeat case_decide; congruence.
Qed.

Lemma rank_wrote a rid r r' a' : get_region a rid = Some r → wrote a rid r' a' →
  rank_sum a' + region_rank r = rank_sum a + region_rank r'.
Proof.
  intros Hr Hwr.
  destruct (iter_update_perm a a' (region_arena_index rid) r r' Hr
    (get_region_idx _ _ _ _ (wr_get _ _ _ _ Hwr))) as (rest & H1 & H2).
  unfold rank_sum. rewrite H1, H2. simpl. lia.
Qed.

Lemma rank_removed a idx r a' : Arena.get a idx = Some r → remove_post a idx a' →
  rank_sum a = region_rank r + rank_sum a'.
Proof.
  intros Hr Hp. unfold rank_sum. by rewrite (iter_delete_perm _ _ _ _ Hr (rp_get _ _ _ Hp)).
Qed.

(** One region changes and the rest of the state as far as [adv_rel] looks. *)
Lemma adv_rel_write s s' rid r r' : region s rid = Some r →
  wrote (rt_regions s) rid r' (rt_regions s') → kept r r' → region_rank r' ≤ region_rank r →
  rt_tasks s' = rt_tasks s → rt_obligations s' = rt_obligations s → rt_now s' = rt_now s →
  cancel_attribution s' = cancel_attribution s → leaks s' = leaks s →
  async_finalizer_tasks (fin s') = async_finalizer_tasks (fin s) →
  active_async_finalizers (fin s') = active_async_finalizers (fin s) → adv_rel s s'.
Proof.
  intros Hr Hwr Hk Hrk Et Eo En Ec El Ea Eb.
  assert (Hupd : upd (region s) rid (Some r') (region s')) by (intros j; apply Hwr).
  split; rewrite ?Eo; try done; [apply Hwr| | |].
  - intros j rj Hj. upd_at Hupd; simplify_eq; [by exists r|by exists rj].
  - intros j rj Hj Hn. upd_at Hupd; congruence.
  - unfold advance_measure. rewrite Eo. pose proof (rank_wrote _ _ _ _ _ Hr Hwr). unfold rank_sum in *. lia.
Qed.

(** ** Running synchronous finalizers *)

Lemma rt_set_fin s f : rt_wf s → fin_wf (region s) (get_task s) f → rt_wf (set_fin s f).
Proof. by intros [] ?. Qed.

Lemma rt_history s e : rt_wf s → rt_wf (set_fin s (push_history (fin s) e)).
Proof. intros Hwf. apply rt_set_fin; [done|]. by destruct (ri_fin s Hwf). Qed.

Lemma adv_rel_frame (s s' : RuntimeState E) : rt_regions s' = rt_regions s → rt_tasks s' = rt_tasks s →
  rt_obligations s' = rt_obligations s → rt_now s' = rt_now s →
  cancel_attribution s' = cancel_attribution s → leaks s' = leaks s →
  async_finalizer_tasks (fin s') = async_finalizer_tasks (fin s) →
  active_async_finalizers (fin s') = active_async_finalizers (fin s) → adv_rel s s'.
Proof.
  intros Er Et Eo En Ec El Ea Eb.
  assert (Hreg : region s' = region s) by (unfold region; by rewrite Er).
  split; rewrite ?Eo, ?Er; try done.
  - intros rid r. rewrite Hreg. intros Hr. by exists r.
  - intros rid r. rewrite Hreg. congruence.
  - unfold advance_measure. by rewrite Er, Eo.
Qed.

Lemma adv_history s e : adv_rel s (set_fin s (push_history (fin s) e)).
Proof. by apply adv_rel_frame. Qed.

(** The state after the synchronous finalizers on top of the stack ran. *)
Record ran_sync (s : RuntimeState E) (rid : RegionId) (r : RegionRecord E) (s' : RuntimeState E)
  (barrier : option (N * Finalizer)) : Prop := {
  rn_wf : rt_wf s';
  rn_adv : adv_rel s s';
  rn_region : ∃ r', region s' rid = Some r' ∧ region_state r' = region_state r ∧
    children (inner r') = children (inner r) ∧
    match barrier with
    | None => finalizers_of (finalizers (inner r')) = []
    | Some (_, fz) => ∃ fut, fz = FAsync fut
    end;
  rn_other j : j ≠ rid → region s' j = region s j;
  rn_finalizing : finalizing_regions (fin s') = finalizing_regions (fin s);
}.

Lemma kept_fin (r : RegionRecord E) st : kept r (set_inner r (set_finalizers (inner r) st)).
Proof. by split. Qed.

Lemma popped_adv s rid r fid fz s' : region s rid = Some r → popped s rid r fid fz s' → adv_rel s s'.
Proof.
  intros Hr [(l & Hl & Hwr) _ Hs'].
  eapply adv_rel_write; [done|done|apply kept_fin|done|by rewrite Hs'..].
Qed.

Lemma outcome_adv s rid r o : rt_wf s → region s rid = Some r →
  adv_rel s (on_region s rid (λ r, record_close_outcome r o)).
Proof.
  intros Hwf Hr. destruct (on_region_Some s rid (λ r, record_close_outcome r o) r (ri_arena s Hwf) Hr) as [Hwr _].
  eapply adv_rel_write; [done|done| |done|done..]. by split.
Qed.

Context `{!Environment}.

Lemma run_sync_loop_ok fuel s rid r : rt_wf s → region s rid = Some r →
  (length (finalizers_of (finalizers (inner r))) < fuel)%nat →
  ∃ s' b, run_sync_finalizers_loop fuel s rid = Returns (s', b) ∧ ran_sync s rid r s' b.
Proof.
  revert s r. induction fuel as [|fuel IH]; intros s r Hwf Hr Hfuel; [lia|]. simpl.
  pose proof (pop_tracked_spec s rid Hwf) as Hpop. rewrite Hr in Hpop.
  destruct Hpop as [[Hnil (a & Hwr & ->)]|(fid & fz & s1 & -> & Hpop)]; simpl.
  - exists (set_regions s a), None. split; [done|].
    destruct (tr_wf _ (ri_tree s Hwf) _ _ Hr) as (Hrw & _ & _).
    assert (Hupd : upd (region s) rid (Some r) (region (set_regions s a))) by (intros j; apply Hwr).
    split.
    + eapply (rt_stack s _ rid r r); [done|done|done|done|done|done|by apply step_refl|done|done|done|done|].
      eapply fin_upd_region; [apply Hwf|done|done|done|done].
    + by eapply adv_rel_write.
    + exists r. split; [by eapply upd_same|done].
    + intros j Hj. by eapply upd_other.
    + done.
  - pose proof (popped_wf _ _ _ _ _ _ Hwf Hr Hpop) as Hwf1. pose proof (popped_adv _ _ _ _ _ _ Hr Hpop) as Hadv1.
    destruct Hpop as [(l & Hl & Hwr) _ Hs1]. set (r1 := set_inner r _) in Hwr.
    assert (Hupd : upd (region s) rid (Some r1) (region s1)) by (intros j; apply Hwr).
    assert (Hr1 : region s1 rid = Some r1) by (by eapply upd_same).
    assert (Efz : finalizing_regions (fin s1) = finalizing_regions (fin s)) by (by rewrite Hs1).
    destruct fz as [f|fut].
    2: { exists s1, (Some (fid, FAsync fut)). split; [done|]. split; try done.
         - exists r1. split_and!; try done. by exists fut.
         - intros j Hj. by eapply upd_other. }
    set (s2 := match run_sync_closure f with Some payload => _ | None => s1 end).
    assert (H2 : rt_wf s2 ∧ adv_rel s1 s2 ∧ finalizing_regions (fin s2) = finalizing_regions (fin s1) ∧
      (∃ r2, region s2 rid = Some r2 ∧ region_state r2 = region_state r1 ∧
        children (inner r2) = children (inner r1) ∧ finalizers (inner r2) = finalizers (inner r1)) ∧
      ∀ j, j ≠ rid → region s2 j = region s1 j).
    { unfold s2. destruct (run_sync_closure f) as [payload|]; [|split_and!; try done; by exists r1].
      destruct (on_region_Some s1 rid (λ r, record_close_outcome r (Outcome.Panicked payload)) r1
        (ri_arena s1 Hwf1) Hr1) as [_ Hupd2].
      split_and!; [|by eapply outcome_adv|done| |].
      - apply rt_on_region'; [done|]. intros. by apply links_outcome.
      - eexists. split; [by eapply upd_same|done].
      - intros j Hj. by eapply upd_other. }
    destruct H2 as (Hwf2 & Hadv2 & Efz2 & (r2 & Hr2 & Hst2 & Hch2 & Hfin2) & Hoth2).
    destruct (IH (record_finalizer_run s2 fid) r2) as (s' & b & -> & [Hwf' Hadv' (r' & Hr' & Hst' & Hch' & Hb) Hoth Hfz]).
    { by apply rt_history. } { done. }
    { rewrite Hfin2. simpl. rewrite Hl, length_app in Hfuel. simpl in Hfuel. lia. }
    exists s', b. split; [done|]. split; [done| | | |].
    + etrans; [exact Hadv1|]. etrans; [exact Hadv2|]. etrans; [apply adv_history|exact Hadv'].
    + exists r'. rewrite Hst', Hst2, Hch', Hch2. done.
    + intros j Hj. rewrite (Hoth j Hj). change (region s2 j = region s j). rewrite Hoth2 by done.
      by eapply upd_other.
    + rewrite Hfz. simpl. by rewrite Efz2.
Qed.

Lemma run_sync_ok s rid r : rt_wf s → region s rid = Some r →
  ∃ s' b, run_sync_finalizers_tracked s rid = Returns (s', b) ∧ ran_sync s rid r s' b.
Proof.
  intros Hwf Hr. apply run_sync_loop_ok; [done|done|]. unfold finalizer_count. rewrite Hr. lia.
Qed.

(** ** Closing a region *)

Lemma count_none {A} (p : A → bool) (l : list A) : (∀ x, x ∈ l → p x = false) → count p l = 0%nat.
Proof.
  induction l as [|x l IH]; intros Hl; [done|]. rewrite count_cons, (Hl x), IH; [done| |left].
  intros y Hy. apply Hl. by right.
Qed.

(** A region without tasks has no pending obligations: every pending obligation
    is held by a live task of its region. *)
Lemma no_region_leaks s rid r : rt_wf s → region s rid = Some r → tasks (inner r) = [] →
  pending_obligations (inner r) = 0.
Proof.
  intros Hwf Hr Ht. destruct (ri_obs s Hwf) as [Hc Ho]. rewrite (Hc rid r Hr), count_none; [done|].
  intros [idx o] Hin%iter_get. unfold pending_in. simpl. destruct (is_pending o) eqn:Hp; [|done]. simpl.
  apply bool_decide_eq_false. intros Hrid. destruct (Ho idx o Hin Hp) as (tr & Htr & Hown).
  destruct (ow_task _ _ (ri_owns s Hwf) _ _ Htr) as (r0 & Hr0 & Hin0).
  assert (r0 = r) as -> by congruence. rewrite Ht in Hin0. by apply not_elem_of_nil in Hin0.
Qed.

Lemma detect_none adv s rid r : rt_wf s → region s rid = Some r → detect_region_leaks adv s rid = Returns s.
Proof.
  intros Hwf Hr. unfold detect_region_leaks. rewrite Hr. destruct (is_nil (tasks (inner r))) eqn:Ht.
  - rewrite (no_region_leaks s rid r Hwf Hr); [done|]. unfold is_nil in Ht. by destruct (tasks (inner r)).
  - by rewrite andb_false_r.
Qed.

Lemma filter_twice {A} (P : A → Prop) `{∀ x, Decision (P x)} (l : list A) : filter P (filter P l) = filter P l.
Proof.
  induction l as [|x l IH]; [done|]. rewrite !filter_cons. case_decide; [|exact IH].
  rewrite filter_cons, decide_True by done. by rewrite IH.
Qed.

Lemma remove_child_twice (r : RegionRecord E) c : remove_child (remove_child r c) c = remove_child r c.
Proof. unfold remove_child, set_inner, set_children. simpl. by rewrite filter_twice. Qed.

(** The regions after a close: the region is gone, its parent forgets it. *)
Definition close_lookup reg (rid : RegionId) (p : option RegionId) : RegionId → option (RegionRecord E) :=
  λ j, if decide (j = rid) then None
       else if decide (Some j = p) then (λ r, remove_child r rid) <$> reg j else reg j.

Lemma close_regions_spec a rid r rc a1 : arena_wf a → get_region a rid = Some r →
  wrote a rid rc a1 → region_id rc = rid → parent r ≠ Some rid → parent rc = parent r →
  let a2 := match parent r with Some p => write_region a1 p (λ r, remove_child r rid) | None => a1 end in
  let a4 := (RegionTable.table_remove a2 (region_arena_index rid)).1 in
  get_region a2 rid = Some rc ∧
  arena_wf a4 ∧ slots_le (slots a) (slots a4) ∧ spent a4 (region_arena_index rid) ∧
  (∀ j, get_region a4 j = close_lookup (get_region a) rid (parent r) j) ∧
  rank_sum a4 + region_rank r = rank_sum a.
Proof.
  intros Ha Hr Hwr Hid Hne Hpar. pose proof (rank_wrote _ _ _ _ _ Hr Hwr) as Hrk.
  destruct Hwr as [Ha1 Hle1 _ Hget1]. intros a2.
  assert (H2 : arena_wf a2 ∧ slots_le (slots a1) (slots a2) ∧ rank_sum a2 = rank_sum a1 ∧
    ∀ j, get_region a2 j = if decide (Some j = parent r) then (λ r, remove_child r rid) <$> get_region a1 j
                           else get_region a1 j).
  { unfold a2. destruct (parent r) as [p|]; [|by split_and!].
    pose proof (write_region_spec a1 p (λ r, remove_child r rid) Ha1) as Hw.
    destruct (get_region a1 p) as [pr|] eqn:Hp.
    - pose proof (rank_wrote _ _ _ _ _ Hp Hw) as Hrk2. destruct Hw as [? ? _ Hw]. split_and!; try done.
      + replace (region_rank (remove_child pr rid)) with (region_rank pr) in Hrk2 by done. lia.
      + intros j. rewrite Hw. repeat case_decide; simplify_eq; try done. by rewrite Hp.
    - rewrite Hw. split_and!; try done. intros j. case_decide; [|done]. simplify_eq. by rewrite Hp. }
  destruct H2 as (Ha2 & Hle2 & Hrk2 & Hget2).
  assert (Hrid2 : get_region a2 rid = Some rc).
  { rewrite Hget2, decide_False by congruence. by rewrite Hget1, decide_True. }
  split; [done|]. unfold RegionTable.table_remove.
  pose proof (remove_spec a2 (region_arena_index rid) Ha2) as Hrm.
  destruct (remove a2 (region_arena_index rid)) as [a3 [x|]]; [|destruct Hrm; unfold get_region in *; congruence].
  destruct Hrm as [Hx Hpost]. assert (x = rc) as -> by (unfold get_region in *; congruence).
  pose proof (rank_removed _ _ _ _ Hrid2 Hpost) as Hrk3. rewrite Hpar, Hid. cbn [fst].
  assert (Hget3 : ∀ j, get_region a3 j = if decide (j = rid) then None else get_region a2 j).
  { intros j. rewrite (remove_region_get _ _ _ Hpost). destruct rid; done. }
  assert (Hfin : ∀ a4, arena_wf a4 → slots_le (slots a3) (slots a4) → rank_sum a4 = rank_sum a3 →
    (∀ j, get_region a4 j = if decide (Some j = parent r) then (λ r, remove_child r rid) <$> get_region a3 j
                            else get_region a3 j) →
    arena_wf a4 ∧ slots_le (slots a) (slots a4) ∧ spent a4 (region_arena_index rid) ∧
    (∀ j, get_region a4 j = close_lookup (get_region a) rid (parent r) j) ∧
    rank_sum a4 + region_rank r = rank_sum a).
  { intros a4 Ha4 Hle4 Hrk4 Hget4. split_and!; try done.
    - etrans; [done|]. etrans; [done|]. etrans; [apply Hpost|done].
    - eapply spent_mono; [done|apply Hpost].
    - intros j. unfold close_lookup. rewrite Hget4, Hget3, Hget2, Hget1.
      repeat case_decide; simplify_eq; try done.
      destruct (get_region a j); simpl; [|done]. by rewrite remove_child_twice.
    - lia. }
  destruct (parent r) as [p|]; [|by apply Hfin; try apply Hpost].
  pose proof (write_region_spec a3 p (λ r, remove_child r rid) (rp_wf _ _ _ Hpost)) as Hw.
  destruct (get_region a3 p) as [pr|] eqn:Hp.
  - pose proof (rank_wrote _ _ _ _ _ Hp Hw) as Hrk4. destruct Hw as [? ? _ Hw]. apply Hfin; try done.
    + replace (region_rank (remove_child pr rid)) with (region_rank pr) in Hrk4 by done. lia.
    + intros j. rewrite Hw. repeat case_decide; simplify_eq; try done. by rewrite Hp.
  - rewrite Hw. apply Hfin; try done; [apply Hpost|]. intros j. case_decide; [|done]. simplify_eq. by rewrite Hp.
Qed.

(** A region left after a close, and what it was before. *)
Lemma close_lookup_Some reg rid p j rj : close_lookup reg rid p j = Some rj → j ≠ rid ∧ ∃ r0, reg j = Some r0 ∧
  ((Some j = p ∧ rj = remove_child r0 rid) ∨ (Some j ≠ p ∧ rj = r0)).
Proof.
  unfold close_lookup. repeat case_decide; [done| |].
  - destruct (reg j) as [r0|]; simpl; [|done]. intros [= <-]. split; [done|]. exists r0. auto.
  - intros Hj. split; [done|]. exists rj. auto.
Qed.

Lemma close_lookup_intro reg rid p j r0 : reg j = Some r0 → j ≠ rid →
  close_lookup reg rid p j = Some (if decide (Some j = p) then remove_child r0 rid else r0).
Proof. intros Hj Hne. unfold close_lookup. rewrite decide_False by done. rewrite Hj. by case_decide. Qed.

Lemma elem_of_children_remove (r : RegionRecord E) c x :
  x ∈ children (inner (remove_child r c)) ↔ x ≠ c ∧ x ∈ children (inner r).
Proof. simpl. by rewrite list_elem_of_filter. Qed.

Lemma tree_close reg reg' rid r : tree_wf reg → reg rid = Some r → children (inner r) = [] →
  (∀ j, reg' j = close_lookup reg rid (parent r) j) → tree_wf reg'.
Proof.
  intros [Hw Hu Hd [d Hdep] Hf] Hr Hch Hreg. split.
  - intros j rj. rewrite Hreg. intros (Hne & r0 & Hr0 & [[_ ->]|[_ ->]])%close_lookup_Some; [|by apply Hw].
    destruct (Hw _ _ Hr0) as (Hwf & Hid & Hcl). split_and!; try done. by apply inner_ops_ok.
  - intros c cr p. rewrite Hreg. intros (Hne & r0 & Hr0 & Hcase)%close_lookup_Some Hp.
    assert (Hp0 : parent r0 = Some p) by (by destruct Hcase as [[_ ->]|[_ ->]]).
    destruct (Hu c r0 p Hr0 Hp0) as (pr & Hpr & Hin).
    assert (p ≠ rid). { intros ->. assert (pr = r) as -> by congruence. rewrite Hch in Hin. by apply not_elem_of_nil in Hin. }
    rewrite Hreg, (close_lookup_intro _ _ _ _ pr) by done. eexists. split; [done|].
    case_decide; [|done]. by apply elem_of_children_remove.
  - intros p pr c. rewrite Hreg. intros (Hne & pr0 & Hpr0 & Hcase)%close_lookup_Some Hc.
    assert (Hc0 : c ∈ children (inner pr0)).
    { destruct Hcase as [[_ ->]|[_ ->]]; [|done]. by apply elem_of_children_remove in Hc as [_ ?]. }
    destruct (Hd p pr0 c Hpr0 Hc0) as (cr & Hcr & Hpar).
    assert (c ≠ rid).
    { destruct Hcase as [[_ ->]|[Hnp ->]]; [by apply elem_of_children_remove in Hc as [? _]|].
      intros ->. apply Hnp. congruence. }
    rewrite Hreg, (close_lookup_intro _ _ _ _ cr) by done. eexists. split; [done|]. by case_decide.
  - exists d. intros c cr p. rewrite Hreg. intros (Hne & r0 & Hr0 & Hcase)%close_lookup_Some Hp.
    eapply Hdep; [done|]. by destruct Hcase as [[_ ->]|[_ ->]].
  - intros j rj. rewrite Hreg. intros (Hne & r0 & Hr0 & [[_ ->]|[_ ->]])%close_lookup_Some Hs; [|by eapply Hf].
    simpl in *. rewrite (Hf j r0 Hr0 Hs). done.
Qed.

Lemma owns_close reg reg' tsk rid r : owns_wf reg tsk → reg rid = Some r → tasks (inner r) = [] →
  (∀ j, reg' j = close_lookup reg rid (parent r) j) → owns_wf reg' tsk.
Proof.
  intros [Ht Ho] Hr Htk Hreg. split.
  - intros t tr Htr. destruct (Ht t tr Htr) as (r0 & Hr0 & Hin).
    assert (owner tr ≠ rid).
    { intros Heq. rewrite Heq in Hr0. assert (r0 = r) as -> by congruence. rewrite Htk in Hin. by apply not_elem_of_nil in Hin. }
    rewrite Hreg, (close_lookup_intro _ _ _ _ r0) by done. eexists. split; [done|]. by case_decide.
  - intros j rj t. rewrite Hreg. intros (Hne & r0 & Hr0 & Hcase)%close_lookup_Some Hin.
    eapply Ho; [done|]. by destruct Hcase as [[_ ->]|[_ ->]].
Qed.

Lemma obs_close reg reg' tsk o rid r : obs_wf reg tsk o → reg rid = Some r →
  (∀ j, reg' j = close_lookup reg rid (parent r) j) → obs_wf reg' tsk o.
Proof.
  intros [Hc Ho] Hr Hreg. split; [|done]. intros j rj. rewrite Hreg.
  intros (Hne & r0 & Hr0 & Hcase)%close_lookup_Some. rewrite <-(Hc j r0 Hr0). by destruct Hcase as [[_ ->]|[_ ->]].
Qed.

Lemma unlist_spec l rid : NoDup l →
  NoDup (unlist_finalizing l rid) ∧ ∀ x, x ∈ unlist_finalizing l rid ↔ x ∈ l ∧ x ≠ rid.
Proof.
  intros Hnd. unfold unlist_finalizing. destruct (position _ l) as [pos|] eqn:Hpos.
  - apply position_Some in Hpos as (x & Hx & Heq). apply bool_decide_eq_true in Heq as ->.
    pose proof (swap_remove_Permutation l pos rid Hx) as Hp. rewrite Hp in Hnd.
    apply NoDup_cons in Hnd as [Hni Hnd]. split; [done|]. intros x. rewrite Hp at 2. rewrite elem_of_cons.
    split; [|naive_solver]. intros Hin. split; [by right|]. intros ->. done.
  - split; [done|]. intros x. split; [|naive_solver]. intros Hin. split; [done|]. intros ->.
    pose proof (position_None _ _ Hpos rid Hin) as Hf. by apply bool_decide_eq_false in Hf.
Qed.

Lemma fin_close reg reg' tsk f f' rid r : fin_wf reg tsk f → reg rid = Some r →
  (∀ j, reg' j = close_lookup reg rid (parent r) j) →
  finalizing_regions f' = unlist_finalizing (finalizing_regions f) rid →
  pending_finalizer_ids f' = delete rid (pending_finalizer_ids f) →
  async_finalizer_tasks f' = async_finalizer_tasks f →
  active_async_finalizers f' = active_async_finalizers f → fin_wf reg' tsk f'.
Proof.
  intros [Hi Hd Hn Hl Ha Has] Hr Hreg Ef Ep Ea Eb.
  destruct (unlist_spec (finalizing_regions f) rid Hn) as [Hnd Hel].
  split; rewrite ?Ef, ?Ep, ?Ea, ?Eb; try done.
  - intros j rj. rewrite Hreg. intros (Hne & r0 & Hr0 & Hcase)%close_lookup_Some.
    rewrite lookup_delete_ne by done. rewrite (Hi j r0 Hr0). by destruct Hcase as [[_ ->]|[_ ->]].
  - intros j l [Hne Hj]%lookup_delete_Some. destruct (Hd j l Hj) as [r0 Hr0].
    rewrite Hreg, (close_lookup_intro _ _ _ _ r0) by done. by eexists.
  - intros j. rewrite Hel, Hl, Hreg. split.
    + intros [(r0 & Hr0 & Hs) Hne]. rewrite (close_lookup_intro _ _ _ _ r0) by done. eexists. split; [done|]. by case_decide.
    + intros (rj & (Hne & r0 & Hr0 & Hcase)%close_lookup_Some & Hs). split; [|done]. exists r0. split; [done|].
      by destruct Hcase as [[_ ->]|[_ ->]].
Qed.

Lemma mark_finalized_wf t rid : table_wf t → table_wf (mark_region_finalized t rid).
Proof. intros [? ? ? Hc ? ? ?]. split; try done. by destruct Hc. Qed.

Lemma can_close_spec s rid : can_region_complete_close s rid = true →
  ∃ r, region s rid = Some r ∧ (region_state r ≠ RegionState.Closed →
    region_state r = RegionState.Finalizing ∧ finalizers_of (finalizers (inner r)) = [] ∧
    active_async_finalizers (fin s) !! rid = None ∧ tasks (inner r) = [] ∧
    pending_obligations (inner r) = 0 ∧ children (inner r) = []).
Proof.
  unfold can_region_complete_close. destruct (region s rid) as [r|]; [|done]. intros Hc. exists r. split; [done|].
  intros Hncl. destruct (region_state r) eqn:Hs; try done.
  unfold finalizers_empty, is_nil in Hc. N_bools.
  destruct (finalizers_of (finalizers (inner r))); [|done]. destruct (tasks (inner r)); [|done].
  destruct (children (inner r)); [|done].
  split_and!; try done. apply eq_None_not_Some. by eapply bool_decide_eq_false_1.
Qed.

(** What a close does to the state. *)
Record closed_region (s : RuntimeState E) (rid : RegionId) (r : RegionRecord E) (s' : RuntimeState E) : Prop := {
  cd_wf : rt_wf s';
  cd_adv : adv_rel s s';
  cd_measure : advance_measure s' < advance_measure s;
  cd_regions j : region s' j = close_lookup (region s) rid (parent r) j;
  cd_history : finalizer_history (fin s') = finalizer_history (fin s) ++ [HRegionClosed rid (rt_now s)];
  cd_pending : pending_finalizer_ids (fin s') = delete rid (pending_finalizer_ids (fin s));
}.

Lemma close_region_ok s rid r : rt_wf s → region s rid = Some r → can_region_complete_close s rid = true →
  ∃ s', close_region s rid (parent r) = (s', parent r) ∧ closed_region s rid r s'.
Proof.
  intros Hwf Hr Hcan. pose proof Hwf as [Ha Htt Htb Hnow Hfe Htr Hown Hob Hfi].
  destruct (tr_wf _ Htr _ _ Hr) as (Hrw & Hid & Hncl).
  destruct (can_close_spec s rid Hcan) as (r0 & Hr0 & Hspec). assert (r0 = r) as -> by congruence.
  destruct (Hspec Hncl) as (Hst & Hfz & Hact & Htk & Hpo & Hch).
  destruct (complete_close_cases r) as [(Hq & _ & Hcc)|[_ Hno]].
  2: { destruct Hno. split; [|done]. by apply inner_quiescent_spec. }
  set (rc := mkRegionRecord (region_id r) _ _ _ _ _ _) in Hcc.
  unfold close_region.
  pose proof (with_region_spec (rt_regions s) rid
    (λ r, let '(r', ok, ws) := complete_close r in (r', (ok, ws))) Ha) as Hw.
  unfold region in Hr. rewrite Hr, Hcc in Hw. destruct Hw as (a1 & -> & Hwr). cbn [fst snd] in Hwr.
  assert (Hne : parent r ≠ Some rid).
  { intros Hp. destruct (tr_depth _ Htr) as [d Hd]. specialize (Hd rid r rid Hr Hp). lia. }
  destruct (close_regions_spec (rt_regions s) rid r rc a1 Ha Hr Hwr Hid Hne eq_refl)
    as (_ & Ha4 & Hle4 & Hsp4 & Hget4 & Hrk4).
  eexists. split; [reflexivity|].
  set (a4 := (RegionTable.table_remove _ (region_arena_index rid)).1) in *.
  match goal with |- closed_region _ _ _ ?x => set (s' := x) end.
  assert (Hregs : rt_regions s' = a4).
  { unfold s', a4. cbn. destruct (parent r); case_bool_decide; done. }
  assert (Hframe : rt_tasks s' = rt_tasks s ∧ rt_obligations s' = mark_region_finalized (rt_obligations s) rid ∧
    rt_now s' = rt_now s ∧ cancel_attribution s' = cancel_attribution s ∧ leaks s' = leaks s ∧
    finalizing_regions (fin s') = unlist_finalizing (finalizing_regions (fin s)) rid ∧
    pending_finalizer_ids (fin s') = delete rid (pending_finalizer_ids (fin s)) ∧
    async_finalizer_tasks (fin s') = async_finalizer_tasks (fin s) ∧
    active_async_finalizers (fin s') = active_async_finalizers (fin s) ∧
    finalizer_history (fin s') = finalizer_history (fin s) ++ [HRegionClosed rid (rt_now s)]).
  { unfold s'. cbn. destruct (parent r); case_bool_decide; done. }
  destruct Hframe as (Et & Eo & En & Ec & El & Ef & Ep & Eas & Eac & Eh).
  assert (Hreg : ∀ j, region s' j = close_lookup (region s) rid (parent r) j).
  { intros j. unfold region. rewrite Hregs. apply Hget4. }
  assert (Htask : get_task s' = get_task s) by (unfold get_task; by rewrite Et).
  assert (Hmeas : advance_measure s' < advance_measure s).
  { unfold advance_measure. rewrite Hregs, Eo. simpl. unfold rank_sum in Hrk4.
    replace (region_rank r) with 1 in Hrk4 by (unfold region_rank; by rewrite Hst). lia. }
  split; try done.
  - split; rewrite ?Hregs, ?Et, ?Eo, ?En, ?Htask; try done.
    + by apply mark_finalized_wf.
    + intros j. simpl. rewrite elem_of_union, elem_of_singleton. intros [->|Hj]; [done|].
      eapply spent_mono; [done|by apply Hfe].
    + by eapply tree_close.
    + by eapply owns_close.
    + by eapply obs_close.
    + by eapply fin_close.
  - split; rewrite ?Eo, ?Hregs; try done.
    + simpl. set_solver.
    + intros j rj. rewrite Hreg. intros (Hj & r0 & Hr0' & Hcase)%close_lookup_Some. exists r0. split; [done|].
      destruct Hcase as [[_ ->]|[_ ->]]; [|done]. split; try done. intros c. by rewrite elem_of_children_remove; intros [_ ?].
    + intros j rj Hj. rewrite Hreg. intros Hn. assert (j = rid) as ->.
      { destruct (decide (j = rid)); [done|]. rewrite (close_lookup_intro _ _ _ _ rj) in Hn; done. }
      assert (rj = r) as -> by (unfold region in Hj; congruence). split_and!; [done|congruence|]. simpl. set_solver.
    + lia.
Qed.

(** *** Entering the finalizing state *)

Lemma begin_finalize_spec (r : RegionRecord E) :
  region_state r = RegionState.Closing ∨ region_state r = RegionState.Draining →
  begin_finalize r = (set_region_state r RegionState.Finalizing, true).
Proof.
  intros [Hs|Hs]; unfold begin_finalize, RegionState.transition; rewrite Hs; simpl; done.
Qed.

Lemma begin_finalize_step s rid r : rt_wf s → region s rid = Some r →
  region_state r = RegionState.Closing ∨ region_state r = RegionState.Draining →
  children (inner r) = [] →
  let s1 := on_region s rid (λ r, (begin_finalize r).1) in
  let s' := set_fin s1 (set_finalizing (fin s1) (finalizing_regions (fin s1) ++ [rid])) in
  rt_wf s' ∧ adv_rel s s' ∧ advance_measure s' < advance_measure s ∧
  upd (region s) rid (Some (set_region_state r RegionState.Finalizing)) (region s').
Proof.
  intros Hwf Hr Hst Hch. pose proof Hwf as [Ha Htt Htb Hnow Hfe Htr Hown Hob Hfi].
  destruct (tr_wf _ Htr _ _ Hr) as (Hrw & Hid & Hncl). simpl.
  destruct (on_region_Some s rid (λ r, (begin_finalize r).1) r Ha Hr) as [Hwr Hupd].
  rewrite begin_finalize_spec in Hwr, Hupd by done. simpl in Hwr, Hupd.
  set (s1 := on_region s rid _) in *. set (rf := set_region_state r RegionState.Finalizing) in *.
  assert (Hstep : region_step_ok r rf).
  { pose proof (begin_finalize_ok r Hrw) as Hs. by rewrite begin_finalize_spec in Hs. }
  assert (Hk : kept r rf).
  { split; try done; [by apply rtc_once, Hstep|]. simpl. destruct Hst as [-> | ->]; done. }
  split_and!.
  - split; try done; [apply Hwr| | | | |].
    + intros j Hj. eapply spent_mono; [apply Hwr|by apply Hfe].
    + by eapply tree_upd.
    + by eapply owns_upd_region.
    + by eapply obs_upd_region.
    + destruct Hfi as [Hi Hd Hn Hl Hac Has]. split; simpl; try done.
      * intros j rj Hj. change (region s1 j = Some rj) in Hj. upd_at Hupd; simplify_eq; [exact (Hi _ _ Hr)|by apply Hi].
      * intros j l Hj. change (is_Some (region s1 j)). rewrite (Hupd j). case_decide; [done|by eapply Hd].
      * apply NoDup_snoc; [done|]. intros Hin%Hl. destruct Hin as (r0 & Hr0 & Hs0).
        assert (r0 = r) as -> by congruence. destruct Hst; congruence.
      * intros j. change (j ∈ finalizing_regions (fin s) ++ [rid] ↔ ∃ r0, region s1 j = Some r0 ∧ region_state r0 = RegionState.Finalizing).
        rewrite elem_of_app, list_elem_of_singleton, Hl, (Hupd j). case_decide as Hj.
        -- split; [|by right]. intros _. by exists rf.
        -- split; [by intros [?|?]|by left].
  - eapply adv_rel_write; [done|exact Hwr|done| |done..].
    unfold region_rank. destruct Hst as [-> | ->]; simpl; lia.
  - unfold advance_measure. simpl. pose proof (rank_wrote _ _ _ _ _ Hr Hwr) as Hrk. unfold rank_sum in Hrk.
    replace (region_rank r) with 2 in Hrk by (unfold region_rank; destruct Hst as [-> | ->]; done).
    change (region_rank rf) with 1 in Hrk. simpl in *. lia.
  - done.
Qed.

(** ** Advancing a region *)

(** A region that is closing waits for something: a child, a task, or an async
    finalizer on top of its stack. *)
Definition waits (r : RegionRecord E) : Prop :=
  match region_state r with
  | RegionState.Open | RegionState.Closed => True
  | RegionState.Closing | RegionState.Draining => children (inner r) ≠ [] ∨ tasks (inner r) ≠ []
  | RegionState.Finalizing =>
      tasks (inner r) ≠ [] ∨ ∃ l fut, finalizers_of (finalizers (inner r)) = l ++ [FAsync fut]
  end.

(** All regions wait for something, but those in [X]. *)
Definition stall_within (X : RegionId → Prop) s : Prop := ∀ rid r, region s rid = Some r → waits r ∨ X rid.
Definition no_stall s : Prop := ∀ rid r, region s rid = Some r → waits r.

Lemma no_stall_within s X : no_stall s → stall_within X s.
Proof. intros Hs j r Hj. left. by eapply Hs. Qed.
Lemma stall_within_none s : stall_within (λ _, False) s → no_stall s.
Proof. intros Hs j r Hj. by destruct (Hs j r Hj). Qed.

Lemma stall_upd_waits X s s' rid r' : stall_within (λ j, j = rid ∨ X j) s →
  upd (region s) rid (Some r') (region s') → waits r' → stall_within X s'.
Proof. intros Hs Hupd Hw j rj Hj. upd_at Hupd; simplify_eq; [by left|]. destruct (Hs j rj Hj) as [|[|]]; auto; done. Qed.

Lemma stall_upd_free X s s' rid r' : stall_within (λ j, j = rid ∨ X j) s →
  upd (region s) rid r' (region s') → stall_within (λ j, j = rid ∨ X j) s'.
Proof. intros Hs Hupd j rj Hj. upd_at Hupd; simplify_eq; [by right; left|]. by apply Hs. Qed.

Lemma stall_waits X s rid : stall_within (λ j, j = rid ∨ X j) s →
  (∀ r, region s rid = Some r → waits r) → stall_within X s.
Proof.
  intros Hs Hw j rj Hj. destruct (decide (j = rid)) as [->|Hne]; [left; by apply Hw|].
  destruct (Hs j rj Hj) as [|[|]]; auto; done.
Qed.

(** What one call of [advance_region_state] achieves. *)
Record advanced s (rid : RegionId) s' : Prop := {
  ad_wf : rt_wf s';
  ad_rel : adv_rel s s';
  ad_stall X : stall_within (λ j, j = rid ∨ X j) s → stall_within X s';
}.

(** One turn of the loop. *)
Record turned s (rid : RegionId) s' (next : option RegionId) : Prop := {
  tu_wf : rt_wf s';
  tu_rel : adv_rel s s';
  tu_stall X : stall_within (λ j, j = rid ∨ X j) s →
    stall_within (match next with None => X | Some j => λ k, k = j ∨ X k end) s';
  tu_next : is_Some next → advance_measure s' < advance_measure s;
}.

Lemma turned_stay s rid r : rt_wf s → region s rid = Some r → waits r → turned s rid s None.
Proof.
  intros Hwf Hr Hw. split; [done|done| |by intros [? [=]]].
  intros X Hs. eapply stall_waits; [done|]. intros r0 Hr0. congruence.
Qed.

(** The turn of a region that drains. *)
Lemma drain_turn s rid r : rt_wf s → region s rid = Some r →
  region_state r = RegionState.Closing → children (inner r) ≠ [] →
  turned s rid (on_region s rid (λ r, (begin_drain r).1)) None.
Proof.
  intros Hwf Hr Hs Hc. destruct (tr_wf _ (ri_tree s Hwf) _ _ Hr) as (Hrw & _ & _).
  destruct (on_region_Some s rid (λ r, (begin_drain r).1) r (ri_arena s Hwf) Hr) as [Hwr Hupd].
  assert (Hd : (begin_drain r).1 = set_region_state r RegionState.Draining).
  { unfold begin_drain, RegionState.transition. by rewrite Hs. }
  simpl in Hwr, Hupd. rewrite Hd in Hwr, Hupd. split; [| | |by intros [? [=]]].
  - apply rt_on_region'; [done|]. intros. by apply links_begin_drain.
  - eapply adv_rel_write; [done|exact Hwr| |simpl; unfold region_rank; by rewrite Hs|done..].
    split; try done; [|by rewrite Hs]. rewrite Hs. apply rtc_once. constructor.
  - intros X Hst. eapply stall_upd_waits; [done|exact Hupd|]. left. done.
Qed.

(** The turn of a finalizing region without a barrier. *)
Lemma finalizing_turn adv s rid r s1 b : rt_wf s → region s rid = Some r →
  region_state r = RegionState.Finalizing → ran_sync s rid r s1 b →
  active_async_finalizers (fin s) !! rid = None →
  ∃ s' next,
    match b with
    | Some (fid, fz) => Returns (push_pending_id (on_region s1 rid (λ r, add_finalizer r fz)) rid fid, None)
    | None =>
        s ← detect_region_leaks adv s1 rid;
        if can_region_complete_close s rid then Returns (close_region s rid (parent r)) else Returns (s, None)
    end = Returns (s', next) ∧ turned s rid s' next.
Proof.
  intros Hwf Hr Hst [Hwf1 Hadv (r1 & Hr1 & Hst1 & Hch1 & Hb) Hoth Hfz] Hact.
  assert (Hstall1 : ∀ X, stall_within (λ j, j = rid ∨ X j) s → stall_within (λ j, j = rid ∨ X j) s1).
  { intros X Hs j rj Hj. destruct (decide (j = rid)); [by right; left|]. rewrite Hoth in Hj by done. by eapply Hs. }
  destruct b as [[fid fz]|].
  - destruct Hb as [fut ->]. do 2 eexists. split; [done|].
    destruct (on_region_Some s1 rid (λ r, add_finalizer r (FAsync fut)) r1 (ri_arena s1 Hwf1) Hr1) as [Hwr Hupd].
    split; [by apply push_wf| | |by intros [? [=]]].
    + etrans; [exact Hadv|]. eapply adv_rel_write; [done|exact Hwr|by split|done..].
    + intros X Hs%Hstall1. eapply stall_upd_waits; [done|exact Hupd|].
      unfold waits. simpl. rewrite Hst1, Hst. right. eexists _, _. reflexivity.
  - rewrite (detect_none adv s1 rid r1 Hwf1 Hr1). unfold mbind, run_bind.
    destruct (can_region_complete_close s1 rid) eqn:Hcan.
    + destruct (ar_kept _ _ Hadv _ _ Hr1) as (r0 & Hr0 & Hk). assert (r0 = r) as -> by congruence.
      destruct (close_region_ok s1 rid r1 Hwf1 Hr1 Hcan) as (s' & Hcl & [Hwf' Hadv' Hm Hregs _ _]).
      rewrite <-(k_parent _ _ Hk), Hcl. do 2 eexists. split; [done|].
      split; [done|by etrans| |intros _; pose proof (ar_measure _ _ Hadv); lia].
      intros X Hs%Hstall1 j rj Hj. rewrite Hregs in Hj.
      apply close_lookup_Some in Hj as (Hjr & r0 & Hj0 & [[Hp _]|[_ ->]]); [rewrite <-Hp; by right; left|].
      destruct (Hs j r0 Hj0) as [|[|]]; [by left|done|]. right. by destruct (parent r1); [right|].
    + do 2 eexists. split; [done|]. split; [done|done| |by intros [? [=]]].
      intros X Hs%Hstall1. eapply stall_waits; [done|]. intros rj Hj.
      assert (rj = r1) as -> by congruence. unfold waits. rewrite Hst1, Hst.
      left. intros Htk. revert Hcan. unfold can_region_complete_close. rewrite Hr1, Hst1, Hst.
      rewrite (ar_active _ _ Hadv), Hact, Htk, (no_region_leaks s1 rid r1 Hwf1 Hr1 Htk), Hch1,
        (tr_final _ (ri_tree s Hwf) rid r Hr Hst). unfold finalizers_empty. by rewrite Hb.
Qed.

Lemma advance_turn_ok adv s rid : rt_wf s →
  ∃ s' next, advance_turn adv s rid = Returns (s', next) ∧ turned s rid s' next.
Proof.
  intros Hwf. unfold advance_turn. destruct (region s rid) as [r|] eqn:Hr.
  2: { do 2 eexists. split; [done|]. split; [done|done| |by intros [? [=]]].
       intros X Hs. eapply stall_waits; [done|]. intros r Hr'. congruence. }
  assert (Hclosing : region_state r = RegionState.Closing ∨ region_state r = RegionState.Draining →
    ∃ s' next, (if is_nil (children (inner r)) && is_nil (tasks (inner r)) then
       let s0 := on_region s rid (λ r, (begin_finalize r).1) in
       if (begin_finalize r).2
       then Returns (set_fin s0 (set_finalizing (fin s0) (finalizing_regions (fin s0) ++ [rid])), Some rid)
       else Returns (s0, None)
     else if negb (is_nil (children (inner r))) && bool_decide (region_state r = RegionState.Closing)
     then Returns (on_region s rid (λ r, (begin_drain r).1), None)
     else Returns (s, None)) = Returns (s', next) ∧ turned s rid s' next).
  { intros Hst. destruct (is_nil (children (inner r))) eqn:Hc; simpl.
    - assert (Hc' : children (inner r) = []) by (unfold is_nil in Hc; by destruct (children (inner r))).
      destruct (is_nil (tasks (inner r))) eqn:Ht.
      + rewrite begin_finalize_spec by done. simpl.
        destruct (begin_finalize_step s rid r Hwf Hr Hst Hc') as (Hwf' & Hadv & Hm & Hupd).
        do 2 eexists. split; [done|]. split; try done. intros X Hs. by eapply stall_upd_free.
      + do 2 eexists. split; [done|]. eapply turned_stay; [done..|]. unfold waits.
        destruct Hst as [-> | ->]; right; intros Hn; by rewrite Hn in Ht.
    - assert (Hc' : children (inner r) ≠ []) by (intros Hn; by rewrite Hn in Hc).
      case_bool_decide; do 2 eexists; (split; [done|]); [by eapply drain_turn|].
      eapply turned_stay; [done..|]. unfold waits. destruct Hst as [-> | ->]; by left. }
  destruct (region_state r) eqn:Hst; [|auto|auto| |].
  - do 2 eexists. split; [done|]. eapply turned_stay; [done..|]. unfold waits. by rewrite Hst.
  - clear Hclosing. case_bool_decide as Hact.
    + do 2 eexists. split; [done|]. eapply turned_stay; [done..|]. unfold waits. rewrite Hst. left.
      destruct Hact as [t Hact]. destruct (fi_active _ _ _ (ri_fin s Hwf) _ _ Hact) as (_ & tr & Htr & Hown).
      destruct (ow_task _ _ (ri_owns s Hwf) _ _ Htr) as (r0 & Hr0 & Hin). intros Hn.
      assert (r0 = r) as -> by congruence. rewrite Hn in Hin. by apply not_elem_of_nil in Hin.
    + destruct (run_sync_ok s rid r Hwf Hr) as (s1 & b & -> & Hran). simpl.
      apply (finalizing_turn adv s rid r s1 b); try done. by apply eq_None_not_Some.
  - destruct (tr_wf _ (ri_tree s Hwf) _ _ Hr) as (_ & _ & ?). congruence.
Qed.

Lemma advance_ok fuel s rid : rt_wf s → (N.to_nat (advance_measure s) < fuel)%nat →
  ∃ s', advance fuel s rid = Returns s' ∧ advanced s rid s'.
Proof.
  revert s rid. induction fuel as [|fuel IH]; intros s rid Hwf Hfuel; [lia|]. simpl.
  destruct (advance_turn_ok (advance fuel) s rid Hwf) as (s1 & next & -> & [Hwf1 Hadv Hst Hm]). simpl.
  destruct next as [j|]; [|by exists s1].
  destruct (IH s1 j Hwf1) as (s' & -> & [Hwf' Hadv' Hst']); [specialize (Hm ltac:(done)); lia|].
  exists s'. split; [done|]. split; [done|by etrans|]. intros X Hs. by apply Hst', Hst.
Qed.

Lemma advance_region_state_ok s rid : rt_wf s →
  ∃ s', advance_region_state s rid = Returns s' ∧ advanced s rid s'.
Proof. intros Hwf. apply advance_ok; [done|lia]. Qed.

End invariant.
