(* ===== verification/RuntimeOps.v ===== *)
(** * The operations of the runtime keep its invariant

    For every operation of [Runtime]: the invariant of [RuntimeInv] holds after it,
    no closing region is left waiting for nothing, the descendants of a cancelled
    region are cancelled, the operation does not run out of fuel, and it panics
    only for the reasons stated. *)

From S2P Require Import Prelude Ids Arena Budget Cancel Cx Outcome Task RegionHeap Region Obligation TaskTable RegionTable Runtime RuntimeInv.

Section ops.
Context {E : Type} `{!Environment}.
Implicit Types (reg : RegionId → option (RegionRecord E)) (tsk : TaskId → option (TaskRecord E))
  (s : RuntimeState E).

(** ** The invariant between operations *)

(** Regions that were cancelled, as opposed to closed by their own end. *)
Definition cancelled (r : RegionRecord E) : Prop := is_Some (Region.cancel_reason (inner r)).

Definition closing_down reg : Prop := ∀ p pr, reg p = Some pr → cancelled pr →
  region_state pr ≠ RegionState.Open ∧ ∀ c cr, c ∈ children (inner pr) → reg c = Some cr → cancelled cr.

Record rt_inv s : Prop := {
  inv_wf : rt_wf s;
  inv_stall : no_stall s;
  inv_closing : closing_down (region s);
}.

Lemma closing_down_mono reg reg' :
  (∀ rid r', reg' rid = Some r' → ∃ r, reg rid = Some r ∧
     (∀ c, c ∈ children (inner r') → c ∈ children (inner r)) ∧
     (region_state r' = RegionState.Open → region_state r = RegionState.Open) ∧
     Region.cancel_reason (inner r') = Region.cancel_reason (inner r)) →
  closing_down reg → closing_down reg'.
Proof.
  intros Hk Hc p pr' Hp Hcan. destruct (Hk _ _ Hp) as (pr & Hp0 & Kp1 & Kp2 & Kp3). unfold cancelled in *. rewrite Kp3 in Hcan.
  destruct (Hc p pr Hp0 Hcan) as [Ho Hch]. split; [auto|]. intros c cr' Hin Hcr.
  destruct (Hk _ _ Hcr) as (cr & Hc0 & _ & _ & Kc3). rewrite Kc3. apply (Hch c); auto.
Qed.

Lemma closing_down_kept reg reg' :
  (∀ rid r', reg' rid = Some r' → ∃ r, reg rid = Some r ∧ kept r r') →
  closing_down reg → closing_down reg'.
Proof.
  intros Hk. apply closing_down_mono. intros rid r' Hr'. destruct (Hk rid r' Hr') as (r & Hr & Kr).
  exists r. split_and!; [done|apply Kr|by intros ?; apply Kr|apply Kr].
Qed.

(** ** Changes of the task table *)

Lemma owns_ext reg tsk tsk' : (∀ j, tsk' j = tsk j) → owns_wf reg tsk → owns_wf reg tsk'.
Proof. intros He [H1 H2]. split; intros *; rewrite ?He; eauto. Qed.

Lemma owns_upd_task reg tsk tsk' tid tr tr' : owns_wf reg tsk → tsk tid = Some tr →
  upd tsk tid (Some tr') tsk' → owner tr' = owner tr → owns_wf reg tsk'.
Proof.
  intros [H1 H2] Ht Hupd Ho. split.
  - intros t x Hx. upd_at Hupd; simplify_eq; [rewrite Ho; by apply H1|by apply H1].
  - intros rid r t Hr Hin. destruct (H2 rid r t Hr Hin) as (x & Hx & Hox). rewrite (Hupd t).
    case_decide; [|by exists x]. subst t. exists tr'. split; [done|]. congruence.
Qed.

Lemma obs_upd_task reg tsk tsk' o tid tr tr' : obs_wf reg tsk o → tsk tid = Some tr →
  upd tsk tid (Some tr') tsk' → owner tr' = owner tr → obs_wf reg tsk' o.
Proof.
  intros [H1 H2] Ht Hupd Ho. split; [done|]. intros idx ob Hg Hp.
  destruct (H2 idx ob Hg Hp) as (x & Hx & Hox). rewrite (Hupd (holder ob)).
  case_decide as Hd; [|by exists x]. exists tr'. split; [done|]. congruence.
Qed.

Lemma fin_upd_task reg tsk tsk' f tid tr tr' : fin_wf reg tsk f → tsk tid = Some tr →
  upd tsk tid (Some tr') tsk' → owner tr' = owner tr → fin_wf reg tsk' f.
Proof.
  intros [Hi Hd Hn Hl Ha Has] Ht Hupd Ho. split; try done.
  - intros rid t Hact. destruct (Ha rid t Hact) as [Hs (x & Hx & Hox)]. split; [done|]. rewrite (Hupd t).
    case_decide as Hd'; [|by exists x]. subst t. exists tr'. split; [done|]. congruence.
  - intros t n Hasn. destruct (Has t n Hasn) as (x & Hx & Hax). rewrite (Hupd t).
    case_decide as Hd'; [|by exists x]. subst t. exists tr'. split; [done|]. congruence.
Qed.

(** A table with the same tasks. *)
Lemma rt_task_ext s t : rt_wf s → tt_wf t → (∀ j, task t j = get_task s j) → rt_wf (set_task_table s t).
Proof.
  intros [Ha Htt Htb Hnow Hfe Htr Hown Hob Hfi] Ht He. split; try done.
  - by eapply owns_ext.
  - destruct Hob as [H1 H2]. split; [done|]. intros idx ob Hg Hp. unfold get_task. simpl.
    rewrite He. by apply (H2 idx).
  - destruct Hfi as [Hi Hd Hn Hl Hac Has]. split; try done; unfold get_task; simpl.
    + intros rid tid Hx. destruct (Hac rid tid Hx) as [? ?]. split; [done|]. by rewrite He.
    + intros tid n Hx. rewrite He. by eapply Has.
Qed.

(** A table in which one record changed. *)
Lemma rt_task_upd s t tid tr tr' : rt_wf s → get_task s tid = Some tr → tt_wf t →
  upd (get_task s) tid (Some tr') (task t) → owner tr' = owner tr → rt_wf (set_task_table s t).
Proof.
  intros [Ha Htt Htb Hnow Hfe Htr Hown Hob Hfi] Hg Ht Hupd Ho. split; try done.
  - by eapply owns_upd_task.
  - by eapply obs_upd_task.
  - by eapply fin_upd_task.
Qed.

(** The result of [update_task] on the state. *)
Lemma rt_update_ok {R} s tid (f : TaskRecord E → exec (TaskRecord E * R)) : rt_wf s →
  (∀ r r' x, get_task s tid = Some r → f r = Done (r', x) → step_ok r r') →
  match rt_update_task s tid f with
  | Returns (s', Some x) => ∃ r r' t, get_task s tid = Some r ∧ f r = Done (r', x) ∧
      s' = set_task_table s t ∧ tt_wf t ∧ upd (get_task s) tid (Some r') (get_task s') ∧
      step_ok r r' ∧ rt_wf s'
  | Returns (s', None) => get_task s tid = None ∧ s' = s
  | Panicked => ∃ r, get_task s tid = Some r ∧ f r = Panics
  | OutOfFuel => False
  end.
Proof.
  intros Hwf Hf. unfold rt_update_task, lift.
  pose proof (tt_update_ok (rt_tasks s) tid f (ri_tasks s Hwf)) as Hu.
  destruct (update_task (rt_tasks s) tid f) as [[t [x|]]|]; simpl.
  - destruct Hu as (r & r' & Hg & Hd & Htt & Hupd & _).
    { intros r r' y Hg Hd. destruct (Hf r r' y Hg Hd). done. }
    pose proof (Hf r r' x Hg Hd) as Hstep. exists r, r', t. split_and!; try done.
    eapply rt_task_upd; [done|done|done|exact Hupd|apply Hstep].
  - destruct Hu as [Hg ->]; [|by destruct s].
    intros r r' y Hg Hd. destruct (Hf r r' y Hg Hd). done.
  - apply Hu. intros r r' y Hg Hd. destruct (Hf r r' y Hg Hd). done.
Qed.

(** Changes of tasks leave regions, obligations and finalizers alone. *)
Lemma rt_inv_tasks s t : rt_inv s → rt_wf (set_task_table s t) → rt_inv (set_task_table s t).
Proof. intros [_ Hs Hc] Hwf. by split. Qed.

Lemma rt_inv_wake s w : rt_inv s → rt_inv (wake s w).
Proof. intros [[] Hs Hc]. by split. Qed.

(** A total closure that is a step of the task record. *)
Lemma rt_update_total {R} s tid (g : TaskRecord E → TaskRecord E * R) : rt_wf s →
  (∀ r, get_task s tid = Some r → task_wf r → step_ok r (g r).1) →
  ∃ s' x, rt_update_task s tid (λ r, Done (g r)) = Returns (s', x) ∧ rt_wf s' ∧
    (∃ t, s' = set_task_table s t) ∧
    match x with
    | Some y => ∃ r, get_task s tid = Some r ∧ y = (g r).2 ∧ step_ok r (g r).1 ∧
        upd (get_task s) tid (Some (g r).1) (get_task s')
    | None => get_task s tid = None ∧ s' = s
    end.
Proof.
  intros Hwf Hg. pose proof (rt_update_ok s tid (λ r, Done (g r)) Hwf) as Hu.
  assert (Hside : ∀ r r' x, get_task s tid = Some r → Done (g r) = Done (r', x) → step_ok r r').
  { intros r r' x Hr [= Hd]. specialize (Hg r Hr (tt_records _ (ri_tasks s Hwf) _ _ Hr)). by rewrite Hd in Hg. }
  specialize (Hu Hside). destruct (rt_update_task s tid _) as [[s' [x|]]| |]; [| |by destruct Hu as (? & _ & ?)|done].
  - destruct Hu as (r & r' & t & Hr & [= Hd] & Hs' & _ & Hupd & Hst & Hwf').
    exists s', (Some x). split_and!; try done; [by exists t|]. exists r. rewrite Hd. by split_and!.
  - destruct Hu as [Hr ->]. exists s, None. split_and!; try done. exists (rt_tasks s). by destruct s.
Qed.

Lemma cancel_task_ok s tid reason : rt_inv s →
  ∃ s' b, cancel_task s tid reason = Returns (s', b) ∧ rt_inv s'.
Proof.
  intros Hinv. pose proof (inv_wf s Hinv) as Hwf. unfold cancel_task.
  match goal with |- context [rt_update_task s tid (λ r, Done (@?g r))] =>
    destruct (rt_update_total s tid g Hwf) as (s1 & x & -> & Hwf' & [t ->] & Hx) end.
  - intros r _ Hr. pose proof (request_cancel_ok r reason (cleanup_budget_of reason) Hr) as Hs.
    by destruct (request_cancel_with_budget _ _ _) as [[? ?] ?].
  - simpl. destruct x as [[newly w]|]; do 2 eexists; (split; [done|]); [by apply rt_inv_wake, rt_inv_tasks|by apply rt_inv_tasks].
Qed.

Lemma complete_task_ok s tid o : rt_inv s → ∃ s' b, complete_task s tid o = Returns (s', b) ∧ rt_inv s'.
Proof.
  intros Hinv. pose proof (inv_wf s Hinv) as Hwf. unfold complete_task.
  destruct (rt_update_total s tid (λ r, complete r o) Hwf) as (s1 & x & -> & Hwf' & [t ->] & Hx).
  - intros r _ Hr. by apply complete_ok.
  - simpl. do 2 eexists. split; [done|]. by apply rt_inv_tasks.
Qed.

(** Writes through the shared parts of a record. *)
Lemma poke_update s tid f r : get_task s tid = Some r → phase (f r) = phase r →
  task_deadline (f r) = task_deadline r →
  rt_update_task s tid (λ r, Done (f r, ())) = Returns (poke_task s tid f, Some ()).
Proof.
  intros Hr Hp Hd. unfold rt_update_task, update_task, poke_task, lift. unfold get_task, task in Hr.
  pose proof (get_mut_get (tt_arena (rt_tasks s)) (task_arena_index tid)) as Hg. rewrite Hr in Hg.
  destruct (get_mut _ _) as [[r0 put]|]; [|done]. injection Hg as ->. simpl. rewrite Hp, Hd.
  unfold note_phase_transition. rewrite N.eqb_refl. unfold note_deadline_changed.
  rewrite bool_decide_eq_true_2 by done. by destruct (phase_live _).
Qed.

Lemma poke_ok s tid f : rt_wf s →
  (∀ r, get_task s tid = Some r → task_wf r → step_ok r (f r) ∧ phase (f r) = phase r ∧ task_deadline (f r) = task_deadline r) →
  rt_wf (poke_task s tid f) ∧ (∃ t, poke_task s tid f = set_task_table s t) ∧
  ∀ j, get_task (poke_task s tid f) j = if decide (j = tid) then f <$> get_task s tid else get_task s j.
Proof.
  intros Hwf Hf. destruct (get_task s tid) as [r|] eqn:Hr.
  - destruct (Hf r eq_refl (tt_records _ (ri_tasks s Hwf) _ _ Hr)) as (Hst & Hp & Hd).
    pose proof (poke_update s tid f r Hr Hp Hd) as Hu.
    destruct (rt_update_total s tid (λ r, (f r, ())) Hwf) as (s1 & x & Heq & Hwf' & Ht & Hx).
    { intros r0 Hr0 _. assert (r0 = r) as -> by congruence. done. }
    rewrite Hu in Heq. injection Heq as <- <-. split_and!; [done|done|].
    destruct Hx as (r0 & Hr0 & _ & _ & Hupd). assert (r0 = r) as -> by congruence. apply Hupd.
  - assert (Heq : poke_task s tid f = s).
    { unfold poke_task. unfold get_task, task in Hr.
      pose proof (get_mut_get (tt_arena (rt_tasks s)) (task_arena_index tid)) as Hg. rewrite Hr in Hg.
      destruct (get_mut _ _) as [[? ?]|]; [done|]. done. }
    rewrite Heq. split_and!; [done|exists (rt_tasks s); by destruct s|].
    intros j. case_decide; [subst; done|done].
Qed.

(** ** Creation of regions *)

Definition link_child (r : RegionRecord E) (c : RegionId) : RegionRecord E :=
  set_inner r (set_children (inner r) (children (inner r) ++ [c])).

(** The regions once [new] is inserted under [rid] and linked to its parent. *)
Definition insert_lookup reg (rid : RegionId) (new : RegionRecord E) : RegionId → option (RegionRecord E) :=
  λ j, if decide (j = rid) then Some new
       else if decide (Some j = parent new) then (λ r, link_child r rid) <$> reg j else reg j.

(** What creation requires of the new record. *)
Record fresh_region reg (rid : RegionId) (new : RegionRecord E) : Prop := {
  fr_none : reg rid = None;
  fr_wf : region_wf new;
  fr_id : region_id new = rid;
  fr_open : region_state new = RegionState.Open;
  fr_empty : children (inner new) = [] ∧ tasks (inner new) = [] ∧ pending_obligations (inner new) = 0 ∧
    finalizers_of (finalizers (inner new)) = [];
  fr_reason : Region.cancel_reason (inner new) = None;
  fr_parent p : parent new = Some p → ∃ pr, reg p = Some pr ∧ region_state pr = RegionState.Open;
}.

Lemma insert_lookup_Some reg rid new j rj : fresh_region reg rid new → insert_lookup reg rid new j = Some rj →
  (j = rid ∧ rj = new) ∨
  (j ≠ rid ∧ ∃ r0, reg j = Some r0 ∧ ((Some j = parent new ∧ rj = link_child r0 rid ∧ region_state r0 = RegionState.Open) ∨
     (Some j ≠ parent new ∧ rj = r0))).
Proof.
  intros Hfr. unfold insert_lookup. case_decide as H1; [intros [= <-]; by left|].
  case_decide as H2; intros Hj; right; (split; [done|]).
  - destruct (reg j) as [r0|] eqn:Hr0; simplify_eq/=. exists r0. split; [done|]. left. split_and!; try done.
    destruct (fr_parent _ _ _ Hfr j) as (pr & Hpr & Ho); [done|]. congruence.
  - exists rj. split; [done|by right].
Qed.

Lemma insert_lookup_old reg rid new j r0 : fresh_region reg rid new → reg j = Some r0 →
  insert_lookup reg rid new j = Some (if decide (Some j = parent new) then link_child r0 rid else r0).
Proof.
  intros Hfr Hj. unfold insert_lookup. rewrite decide_False by (intros ->; pose proof (fr_none _ _ _ Hfr); congruence).
  rewrite Hj. by case_decide.
Qed.

Lemma tree_insert reg reg' rid new : tree_wf reg → fresh_region reg rid new →
  (∀ j, reg' j = insert_lookup reg rid new j) → tree_wf reg'.
Proof.
  intros [Hw Hu Hd [d Hdep] Hf] Hfr Hreg. pose proof Hfr as [Hn Hnw Hid Ho (Hch & _) _ Hpar].
  assert (Hnot : ∀ p pr, reg p = Some pr → rid ∉ children (inner pr)).
  { intros p pr Hp Hin. destruct (Hd p pr rid Hp Hin) as (? & ? & _). congruence. }
  split.
  - intros j rj. rewrite Hreg. intros [[-> ->]|(Hne & r0 & Hr0 & [(_ & -> & Hop)|(_ & ->)])]%insert_lookup_Some; try done.
    + split_and!; [done|done|congruence].
    + destruct (Hw _ _ Hr0) as (Hwf & Hid0 & Hcl). split_and!; try done.
      eapply set_inner_ok; simpl; [done|apply NoDup_snoc; [apply Hwf|by eapply Hnot]|apply Hwf|congruence].
    + by apply Hw.
  - intros c cr p. rewrite Hreg. intros Hc Hp. apply insert_lookup_Some in Hc; [|done].
    destruct Hc as [[-> ->]|(Hne & r0 & Hr0 & Hcase)].
    + destruct (Hpar p Hp) as (pr & Hpr & _). rewrite Hreg, (insert_lookup_old _ _ _ _ pr) by done.
      rewrite decide_True by done. eexists. split; [done|]. simpl. apply elem_of_app. right. by left.
    + assert (Hp0 : parent r0 = Some p) by (by destruct Hcase as [(_ & -> & _)|(_ & ->)]).
      destruct (Hu c r0 p Hr0 Hp0) as (pr & Hpr & Hin).
      rewrite Hreg, (insert_lookup_old _ _ _ _ pr) by done. eexists. split; [done|].
      case_decide; [|done]. simpl. apply elem_of_app. by left.
  - intros p pr c. rewrite Hreg. intros Hp Hc. apply insert_lookup_Some in Hp; [|done].
    destruct Hp as [[-> ->]|(Hne & r0 & Hr0 & Hcase)]; [rewrite Hch in Hc; by apply not_elem_of_nil in Hc|].
    assert (Hcc : c ∈ children (inner r0) ∨ (c = rid ∧ Some p = parent new)).
    { destruct Hcase as [(? & -> & _)|(_ & ->)]; [|by left]. simpl in Hc. apply elem_of_app in Hc as [Hc|Hc]; [by left|].
      apply list_elem_of_singleton in Hc as ->. by right. }
    destruct Hcc as [Hcc|[-> Hpn]].
    + destruct (Hd p r0 c Hr0 Hcc) as (cr & Hcr & Hpc). rewrite Hreg, (insert_lookup_old _ _ _ _ cr) by done.
      eexists. split; [done|]. by case_decide.
    + rewrite Hreg. unfold insert_lookup. rewrite decide_True by done. by eexists.
  - exists (λ j, if decide (j = rid) then match parent new with Some p => S (d p) | None => O end else d j).
    intros c cr p. rewrite Hreg. intros Hc Hp. apply insert_lookup_Some in Hc; [|done].
    destruct Hc as [[-> ->]|(Hne & r0 & Hr0 & Hcase)].
    + rewrite (decide_True (P:=rid = rid)) by done. rewrite Hp. rewrite decide_False; [lia|].
      destruct (Hpar p Hp) as (pr & Hpr & _). intros ->. congruence.
    + assert (Hp0 : parent r0 = Some p) by (by destruct Hcase as [(_ & -> & _)|(_ & ->)]).
      rewrite (decide_False (P:=c = rid)) by done. destruct (Hu c r0 p Hr0 Hp0) as (pr & Hpr & _).
      rewrite decide_False by (intros ->; congruence). by eapply Hdep.
  - intros j rj. rewrite Hreg. intros Hj Hs. apply insert_lookup_Some in Hj; [|done].
    destruct Hj as [[-> ->]|(Hne & r0 & Hr0 & [(_ & -> & Hop)|(_ & ->)])]; [done|simpl in Hs; congruence|by eapply Hf].
Qed.

Lemma rt_insert_region s a rid new : rt_inv s → arena_wf a → slots_le (slots (rt_regions s)) (slots a) →
  fresh_region (region s) rid new → (∀ j, get_region a j = insert_lookup (region s) rid new j) →
  rt_inv (set_regions s a).
Proof.
  intros [Hwf Hst Hcd] Ha Hle Hfr Hreg. pose proof Hwf as [_ Htt Htb Hnow Hfe Htr Hown Hob Hfi].
  pose proof Hfr as [Hn Hnw Hid Ho (Hch & Htk & Hpo & Hfz) Hno Hpar].
  assert (Hnotask : ∀ t tr, get_task s t = Some tr → owner tr ≠ rid).
  { intros t tr Ht Heq. destruct (ow_task _ _ Hown t tr Ht) as (r0 & Hr0 & _). rewrite Heq in Hr0. congruence. }
  change (∀ j, region (set_regions s a) j = insert_lookup (region s) rid new j) in Hreg.
  assert (Hold : ∀ j rj, region (set_regions s a) j = Some rj → j = rid ∧ rj = new ∨
    ∃ r0, region s j = Some r0 ∧ region_state rj = region_state r0 ∧ tasks (inner rj) = tasks (inner r0) ∧
      pending_obligations (inner rj) = pending_obligations (inner r0) ∧
      finalizers (inner rj) = finalizers (inner r0) ∧
      (rj = r0 ∨ region_state r0 = RegionState.Open)).
  { intros j rj. rewrite Hreg. intros [[-> ->]|(Hne & r0 & Hr0 & [(_ & -> & Hop)|(_ & ->)])]%insert_lookup_Some; auto;
      right; exists r0; split_and!; auto. }
  split; [|intros j rj Hj|intros p pr Hp Hcan].
  - split; try done.
    + intros j Hj. eapply spent_mono; [done|by apply Hfe].
    + by eapply tree_insert.
    + split.
      * intros t tr Ht. destruct (ow_task _ _ Hown t tr Ht) as (r0 & Hr0 & Hin).
        rewrite Hreg, (insert_lookup_old _ _ _ _ r0) by done. eexists. split; [done|]. by case_decide.
      * intros j rj t Hj Hin. destruct (Hold j rj Hj) as [[-> ->]|(r0 & Hr0 & _ & Htk0 & _)].
        { rewrite Htk in Hin. by apply not_elem_of_nil in Hin. }
        rewrite Htk0 in Hin. by eapply (ow_region _ _ Hown).
    + destruct Hob as [Hc Hoo]. split; [|done]. intros j rj Hj.
      destruct (Hold j rj Hj) as [[-> ->]|(r0 & Hr0 & _ & _ & Hpo0 & _)]; [|rewrite Hpo0; by apply Hc].
      rewrite Hpo, count_none; [done|]. intros [idx o] Hin%iter_get. unfold pending_in. simpl.
      destruct (is_pending o) eqn:Hp; [|done]. apply bool_decide_eq_false. intros Hr.
      destruct (Hoo idx o Hin Hp) as (tr & Htr0 & Hown0). by apply (Hnotask _ _ Htr0); congruence.
    + destruct Hfi as [Hi Hd Hnd Hl Hac Has]. split; try done.
      * intros j rj Hj. destruct (Hold j rj Hj) as [[-> ->]|(r0 & Hr0 & _ & _ & _ & Hf0 & _)]; [|rewrite Hf0; by apply Hi].
        rewrite Hfz. destruct (pending_finalizer_ids (fin s) !! rid) as [l|] eqn:Hl0; [|simpl; by rewrite Hl0].
        destruct (Hd rid l Hl0). congruence.
      * intros j l Hj. destruct (Hd j l Hj) as [r0 Hr0]. rewrite Hreg, (insert_lookup_old _ _ _ _ r0) by done. done.
      * intros j. simpl. rewrite Hl. split.
        -- intros (r0 & Hr0 & Hs0). rewrite Hreg, (insert_lookup_old _ _ _ _ r0) by done. eexists. split; [done|]. by case_decide.
        -- intros (rj & Hj & Hs0). destruct (Hold j rj Hj) as [[-> ->]|(r0 & Hr0 & Hs1 & _)]; [congruence|].
           exists r0. split; [done|congruence].
  - destruct (Hold j rj Hj) as [[-> ->]|(r0 & Hr0 & Hs0 & _ & _ & _ & [->|Hop])]; [unfold waits; by rewrite Ho|by eapply Hst|].
    unfold waits. by rewrite Hs0, Hop.
  - assert (Hreason : ∀ j rj, region (set_regions s a) j = Some rj → j = rid ∧ rj = new ∨
      ∃ r0, region s j = Some r0 ∧ Region.cancel_reason (inner rj) = Region.cancel_reason (inner r0)).
    { intros j rj. rewrite Hreg. intros [[-> ->]|(Hne & r0 & Hr0 & [(_ & -> & _)|(_ & ->)])]%insert_lookup_Some; eauto. }
    destruct (Hold p pr Hp) as [[-> ->]|(p0 & Hp0 & Hsp & _ & _ & _ & Hcase)]; [unfold cancelled in Hcan; rewrite Hno in Hcan; by destruct Hcan|].
    assert (Hcan0 : cancelled p0). { unfold cancelled in *. destruct (Hreason p pr Hp) as [[-> _]|(p1 & Hp1 & Hcr)]; [congruence|]. assert (p1 = p0) as -> by congruence. by rewrite <-Hcr. }
    destruct (Hcd p p0 Hp0 Hcan0) as [Hop0 Hch0]. destruct Hcase as [->|Hop]; [|done]. split; [done|]. intros c cr Hin Hc.
    destruct (Hreason c cr Hc) as [[-> ->]|(c0 & Hc0 & Hcr)].
    + destruct (tr_down _ Htr _ _ _ Hp0 Hin) as (? & ? & _). congruence.
    + unfold cancelled. rewrite Hcr. by apply (Hch0 c).
Qed.

Lemma create_root_ok s b cap : rt_inv s →
  match create_root_region_with_capability_budget s b cap with
  | Returns (s', rid) => rt_inv s' ∧ ¬ spent (rt_regions s) (region_arena_index rid)
  | Panicked => arena_full (rt_regions s)
  | OutOfFuel => False
  end.
Proof.
  intros Hinv. unfold create_root_region_with_capability_budget, create_root_with_capability_budget.
  pose proof (insert_with_spec (rt_regions s) (λ idx,
     new_with_time_and_capability_budget (RegionId_from_arena idx) None b (rt_now s) cap : RegionRecord E)
     (ri_arena s (inv_wf s Hinv))) as Hins.
  unfold mbind, exec_bind, run_bind, lift. destruct (insert_with _ _) as [[a idx]|]; [|done].
  split; [|apply Hins].
  assert (Hr : rt_inv (set_regions s a)); [|by destruct Hr as [[] ? ?]; split].
  pose proof (insert_region_get _ _ _ _ Hins) as Hget.
  eapply (rt_insert_region s a (RegionId_from_arena idx) (new_with_time_and_capability_budget
    (RegionId_from_arena idx) None b (rt_now s) cap)); [done|apply Hins|apply Hins| |].
  - split; try done; [by eapply insert_region_fresh|apply region_new_wf].
  - intros j. rewrite Hget. unfold insert_lookup. repeat case_decide; done.
Qed.

Lemma children_live s : rt_wf s → ∀ rid r c, get_region (rt_regions s) rid = Some r →
  c ∈ children (inner r) → is_Some (get_region (rt_regions s) c).
Proof. intros Hwf rid r c Hr Hc. destruct (tr_down _ (ri_tree s Hwf) rid r c Hr Hc) as (cr & ? & _). by exists cr. Qed.

(** A change of the arena no lookup sees. *)
Lemma rt_wf_regions_ext s a : rt_wf s → arena_wf a → slots_le (slots (rt_regions s)) (slots a) →
  (∀ j, get_region a j = get_region (rt_regions s) j) → rt_wf (set_regions s a).
Proof.
  intros [_ Htt Htb Hnow Hfe Htr Hown Hob Hfi] Ha Hle He.
  assert (Hreg : ∀ j, region (set_regions s a) j = region s j) by (intros j; apply He).
  split; try done.
  - intros j Hj. eapply spent_mono; [done|by apply Hfe].
  - destruct Htr as [H1 H2 H3 [d H4] H5]. split; [| | |exists d|]; intros *; rewrite ?Hreg; eauto.
  - destruct Hown as [H1 H2]. split; intros *; rewrite ?Hreg; eauto.
  - destruct Hob as [H1 H2]. split; intros *; rewrite ?Hreg; eauto.
  - destruct Hfi as [H1 H2 H3 H4 H5 H6]. split; intros *; rewrite ?Hreg; eauto.
Qed.

(** Stalls and states depend on the regions only. *)
Lemma rt_inv_same_regions s s' : rt_inv s → rt_wf s' → (∀ j, region s' j = region s j) → rt_inv s'.
Proof.
  intros [_ Hst Hcd] Hwf Hreg. split; [done|by intros j r; rewrite Hreg; apply Hst|].
  eapply closing_down_mono; [|exact Hcd]. intros rid r'. rewrite Hreg. by exists r'.
Qed.

Lemma rt_regions_ext s a : rt_inv s → arena_wf a → slots_le (slots (rt_regions s)) (slots a) →
  (∀ j, get_region a j = get_region (rt_regions s) j) → rt_inv (set_regions s a).
Proof.
  intros Hinv Ha Hle He. eapply rt_inv_same_regions; [done|apply rt_wf_regions_ext; [apply Hinv|done..]|done].
Qed.

Lemma create_child_region_ok s p b cap req pri : rt_inv s →
  match create_child_region_with_capability_budget_and_priority s p b cap req pri with
  | Returns (s', _) => rt_inv s'
  | Panicked => arena_full (rt_regions s)
  | OutOfFuel => False
  end.
Proof.
  intros Hinv. unfold create_child_region_with_capability_budget_and_priority.
  destruct (check_resource_pressure_for_region pri); [|done].
  pose proof (create_child_ok (rt_regions s) p b cap req (rt_now s) (ri_arena s (inv_wf s Hinv))
    (children_live s (inv_wf s Hinv))) as Hcr.
  unfold mbind, run_bind, lift. destruct (create_child_with_capability_budget _ _ _ _ _ _) as [[a res]|]; [|done].
  destruct Hcr as [?|? ? ? ?|pr a err Hp Herr Ha Hle _ He|pr eff a rid Hp Ho Hpl Ha Hle _ Hnone Hns Hget].
  - by destruct s.
  - by destruct s.
  - by apply rt_regions_ext.
  - eapply (rt_insert_region s a rid (new_with_time_and_capability_budget rid (Some p)
      (meet (r_budget (inner pr)) b) (rt_now s) eff)); [done..| |].
    + split; try done; [apply region_new_wf|]. intros q [= <-]. by exists pr.
    + intros j. rewrite Hget. unfold insert_lookup. simpl. repeat case_decide; simplify_eq; try done.
      unfold region. by rewrite Hp.
Qed.

(** ** One region changes without any effect on the others *)

Lemma rt_inv_on_region s rid f : rt_inv s →
  (∀ r, region s rid = Some r → region_wf r → region_state r ≠ RegionState.Closed →
     same_links r (f r) ∧ region_state (f r) = region_state r ∧
     finalizers (inner (f r)) = finalizers (inner r) ∧ Region.cancel_reason (inner (f r)) = Region.cancel_reason (inner r)) →
  rt_inv (on_region s rid f).
Proof.
  intros [Hwf Hst Hcd] Hf. destruct (region s rid) as [r|] eqn:Hr.
  2: { rewrite on_region_None; [done|apply Hwf|done]. }
  destruct (tr_wf _ (ri_tree s Hwf) _ _ Hr) as (Hrw & _ & Hncl).
  destruct (Hf r eq_refl Hrw Hncl) as (Hsl & Hs & Hfz & Hcr).
  destruct (on_region_Some s rid f r (ri_arena s Hwf) Hr) as [_ Hupd].
  split; [by eapply rt_on_region| |].
  - intros j rj Hj. upd_at Hupd; simplify_eq; [|by eapply Hst].
    specialize (Hst rid r Hr). unfold waits in *.
    by rewrite Hs, (sl_children _ _ Hsl), (sl_tasks _ _ Hsl), Hfz.
  - eapply (closing_down_mono (region s)); [|done]. intros j rj Hj. upd_at Hupd; simplify_eq; [|by exists rj].
    exists r. split_and!; [done| |by rewrite Hs|done]. by rewrite (sl_children _ _ Hsl).
Qed.

Lemma set_region_limits_eq s rid l : (set_region_limits s rid l).1 = on_region s rid (λ r, set_limits r l).
Proof.
  unfold set_region_limits, table_set_limits, on_region, write_region. by destruct (RegionTable.with_region _ _ _) as [a [[]|]].
Qed.

Lemma set_region_limits_ok s rid l : rt_inv s → rt_inv (set_region_limits s rid l).1.
Proof.
  intros Hinv. rewrite set_region_limits_eq. apply rt_inv_on_region; [done|].
  intros. split_and!; [by apply links_limits|done|done|done].
Qed.

Lemma register_finalizer_ok s rid fz : rt_inv s →
  match register_finalizer s rid fz with
  | Returns (s', _) => rt_inv s'
  | Panicked => next_finalizer_id (fin s) = u64_MAX ∨ u64_MAX < next_finalizer_id (fin s)
  | OutOfFuel => False
  end.
Proof.
  intros Hinv. unfold register_finalizer. destruct (region s rid) as [r|] eqn:Hr; [|done].
  destruct (RegionState.is_closing (region_state r) || RegionState.is_terminal (region_state r)) eqn:Hst; [done|].
  assert (Ho : region_state r = RegionState.Open) by (by destruct (region_state r)).
  unfold allocate_finalizer_id. destruct (N.ltb_spec (next_finalizer_id (fin s)) u64_MAX); simpl; [|lia].
  destruct Hinv as [Hwf Hs Hcd].
  set (s1 := set_fin s _).
  assert (Hwf1 : rt_wf s1) by (apply rt_set_fin; [done|]; by destruct (ri_fin s Hwf)).
  destruct (on_region_Some s1 rid (λ r, add_finalizer r fz) r (ri_arena s1 Hwf1) Hr) as [_ Hupd].
  split; [| |].
  - unfold record_finalizer_registration. apply rt_history, push_wf; [done|]. by exists r.
  - intros j rj Hj. change (region (on_region s1 rid (λ r, add_finalizer r fz)) j = Some rj) in Hj.
    upd_at Hupd; simplify_eq; [unfold waits; simpl; by rewrite Ho|by eapply Hs].
  - eapply (closing_down_mono (region s)); [|done]. intros j rj Hj.
    change (region (on_region s1 rid (λ r, add_finalizer r fz)) j = Some rj) in Hj.
    upd_at Hupd; simplify_eq; [by exists r|by exists rj].
Qed.

(** ** Creation of tasks *)

Definition link_task (r : RegionRecord E) (t : TaskId) : RegionRecord E :=
  set_inner r (set_tasks (inner r) (tasks (inner r) ++ [t])).

Lemma add_task_new (r : RegionRecord E) tid c : tid ∉ tasks (inner r) →
  match (add_task_internal r tid c).2 with
  | Ok _ => (add_task_internal r tid c).1 = link_task r tid ∧
      (if c then RegionState.can_accept_cleanup_work (region_state r)
       else RegionState.can_accept_work (region_state r)) = true
  | Err _ => (add_task_internal r tid c).1 = r
  end.
Proof.
  intros Hn. unfold add_task_internal.
  match goal with |- context [if negb ?b then _ else _] => destruct b eqn:Hadm end; simpl; [|done].
  rewrite bool_decide_eq_false_2 by done. by destruct (if c && _ then _ else _).
Qed.

Lemma link_task_step r tid : region_wf r → tid ∉ tasks (inner r) → region_state r ≠ RegionState.Closed →
  region_step_ok r (link_task r tid).
Proof.
  intros Hwf Hn Hc. apply set_inner_ok; simpl; [done|apply Hwf|apply NoDup_snoc; [apply Hwf|done]|done].
Qed.

(** A new task joins its region. *)
Lemma rt_add_task s t tid tr rid r a : rt_wf s → region s rid = Some r → get_task s tid = None →
  tt_wf t → upd (get_task s) tid (Some tr) (task t) → owner tr = rid →
  wrote (rt_regions s) rid (link_task r tid) a → rt_wf (set_regions (set_task_table s t) a).
Proof.
  intros Hwf Hr Hnone Htt Htu Hown Hwr. pose proof Hwf as [Ha _ Htb Hnow Hfe Htr Howns Hob Hfi].
  set (s' := set_regions _ a).
  assert (Hupd : upd (region s) rid (Some (link_task r tid)) (region s')) by (intros j; apply Hwr).
  change (upd (get_task s) tid (Some tr) (get_task s')) in Htu.
  destruct (tr_wf _ Htr _ _ Hr) as (Hrw & _ & Hncl).
  assert (Hnin : tid ∉ tasks (inner r)).
  { intros Hin. destruct (ow_region _ _ Howns _ _ _ Hr Hin) as (? & ? & _). congruence. }
  assert (Hold : ∀ t x, get_task s t = Some x → get_task s' t = Some x).
  { intros t0 x Hx. rewrite (upd_other _ _ _ _ _ Htu); [done|congruence]. }
  assert (Hlinked : ∀ j rj, region s j = Some rj → ∃ rj', region s' j = Some rj' ∧
    (∀ t, t ∈ tasks (inner rj) → t ∈ tasks (inner rj'))).
  { intros j rj Hj. rewrite (Hupd j). case_decide; [|by exists rj]. subst. eexists. split; [done|].
    assert (rj = r) as -> by congruence. intros t0 Ht0. simpl. apply elem_of_app. by left. }
  split; try done.
  - apply Hwr.
  - intros j Hj. eapply spent_mono; [apply Hwr|by apply Hfe].
  - eapply tree_upd; [done|exact Hr|exact Hupd|by apply link_task_step|done..|]. apply (tr_final _ Htr rid r Hr).
  - split.
    + intros t0 x Hx. destruct (decide (t0 = tid)) as [->|Hne].
      * rewrite (upd_same _ _ _ _ Htu) in Hx. simplify_eq. exists (link_task r tid). split; [by eapply upd_same|].
           simpl. apply elem_of_app. right. by left.
      * rewrite (upd_other _ _ _ _ _ Htu) in Hx by done. destruct (ow_task _ _ Howns _ _ Hx) as (r0 & Hr0 & Hin).
           destruct (Hlinked _ _ Hr0) as (r1 & Hr1 & Hsub). exists r1. auto.
    + intros j rj t0 Hj Hin. destruct (decide (t0 = tid)) as [->|Hne].
      * exists tr. split; [by eapply upd_same|]. upd_at Hupd; simplify_eq; [done|].
           destruct (ow_region _ _ Howns _ _ _ Hj Hin) as (? & ? & _). congruence.
      * rewrite (upd_other _ _ _ _ _ Htu) by done. upd_at Hupd; simplify_eq; [|by eapply (ow_region _ _ Howns)].
           simpl in Hin. apply elem_of_app in Hin as [Hin|Hin]; [by eapply (ow_region _ _ Howns)|].
           by apply list_elem_of_singleton in Hin.
  - eapply (obs_upd_region (region s)); [|exact Hr|exact Hupd|done]. destruct Hob as [H1 H2]. split; [done|].
      intros idx o Hg Hp. destruct (H2 idx o Hg Hp) as (x & Hx & ?). exists x. split; [by apply Hold|done].
  - eapply (fin_upd_region (region s)); [|exact Hr|exact Hupd|done|done].
      destruct Hfi as [Hi Hd Hn Hl Hac Has]. split; try done.
    + intros j t0 Hj. destruct (Hac j t0 Hj) as (? & x & Hx & ?). split; [done|]. exists x. split; [by apply Hold|done].
    + intros t0 n Ht0. destruct (Has t0 n Ht0) as (x & Hx & ?). exists x. split; [by apply Hold|done].
Qed.

Lemma link_waits r tid : waits (link_task r tid).
Proof.
  assert (Hne : tasks (inner (link_task r tid)) ≠ []) by (simpl; by destruct (tasks (inner r))).
  unfold waits. destruct (region_state _); auto.
Qed.

Lemma closing_link reg reg' rid r tid : closing_down reg → reg rid = Some r →
  upd reg rid (Some (link_task r tid)) reg' → closing_down reg'.
Proof.
  intros Hcd Hr Hupd. eapply closing_down_mono; [|done]. intros j rj Hj.
  upd_at Hupd; simplify_eq; [by exists r|by exists rj].
Qed.

Lemma rt_inv_link s s' rid r tid : rt_inv s → rt_wf s' → region s rid = Some r →
  upd (region s) rid (Some (link_task r tid)) (region s') → rt_inv s'.
Proof.
  intros [_ Hst Hcd] Hwf Hr Hupd. split; [done| |by eapply closing_link].
  intros j rj Hj. upd_at Hupd; simplify_eq; [apply link_waits|by eapply Hst].
Qed.

(** How the creation of a task ends. *)
Inductive task_created s (rid : RegionId) (b : Budget) (cleanup : bool) : RuntimeState E → result TaskId SpawnError → Prop :=
| tc_ok s' tid r : rt_wf s' → region s rid = Some r → get_task s tid = None →
    (if cleanup then RegionState.can_accept_cleanup_work (region_state r)
     else RegionState.can_accept_work (region_state r)) = true →
    upd (get_task s) tid (Some (set_has_cx (set_cx_inner (new_with_time tid rid b (rt_now s))
        (cx_inner_new rid tid b)))) (get_task s') →
    upd (region s) rid (Some (link_task r tid)) (region s') →
    rt_obligations s' = rt_obligations s → fin s' = fin s → rt_now s' = rt_now s →
    task_created s rid b cleanup s' (Ok tid)
| tc_err s' e : rt_wf s' → (∀ j, get_task s' j = get_task s j) → (∀ j, region s' j = region s j) →
    rt_obligations s' = rt_obligations s → fin s' = fin s → rt_now s' = rt_now s →
    (region s rid = None ∨ ∃ r, region s rid = Some r ∧
       ((if cleanup then RegionState.can_accept_cleanup_work (region_state r)
         else RegionState.can_accept_work (region_state r)) = false ∨
        is_Some (max_tasks (limits (inner r))) ∧ (cleanup = true → region_state r ≠ RegionState.Finalizing))) →
    task_created s rid b cleanup s' (Err e).

Lemma rt_rollback s t tid a : rt_wf s → tt_wf t → get_task s tid = None →
  (∀ j, j ≠ tid → task t j = get_task s j) →
  arena_wf a → slots_le (slots (rt_regions s)) (slots a) →
  (∀ j, get_region a j = get_region (rt_regions s) j) →
  let s' := recycle_task (set_regions (set_task_table s t) a) tid in
  rt_wf s' ∧ (∀ j, get_task s' j = get_task s j) ∧ (∀ j, region s' j = region s j).
Proof.
  intros Hwf Htt Hnone Hold Ha Hle He. pose proof (rt_wf_regions_ext s a Hwf Ha Hle He) as Hwf1.
  destruct (recycle_ok t tid Htt) as (Htt' & Hget & _).
  assert (Htask : ∀ j, task (remove_and_recycle_task t tid) j = get_task s j).
  { intros j. rewrite Hget. case_decide as Hj; [by rewrite Hj|by apply Hold]. }
  split_and!; [|done|intros j; apply He]. apply (rt_task_ext (set_regions s a)); [done|done|exact Htask].
Qed.

Lemma create_task_infrastructure_ok s rid b cleanup : rt_wf s →
  match create_task_infrastructure s rid b cleanup with
  | Returns (s', res) => task_created s rid b cleanup s' res
  | Panicked => arena_full (tt_arena (rt_tasks s))
  | OutOfFuel => False
  end.
Proof.
  intros Hwf. unfold create_task_infrastructure.
  pose proof (insert_pooled_with_ok (rt_tasks s) rid b (rt_now s) (ri_tasks s Hwf)) as Hins.
  unfold mbind, run_bind, lift. destruct (insert_pooled_task_with _ _) as [[t idx]|]; [|done].
  destruct Hins as (Htt & Hnl & _ & Hget & _). set (tid := TaskId_from_arena idx) in *.
  assert (Hnone : get_task s tid = None).
  { unfold get_task, task. simpl. destruct (Arena.get _ _) eqn:Hg; [|done]. destruct Hnl. apply live_get. by eexists. }
  assert (Hold : ∀ j, j ≠ tid → task t j = get_task s j) by (intros j Hj; by rewrite Hget, decide_False).
  cbn [rt_regions set_task_table].
  pose proof (with_region_spec (rt_regions s) rid
    (λ r, if cleanup then add_cleanup_task r tid else add_task r tid) (ri_arena s Hwf)) as Hw.
  destruct (get_region (rt_regions s) rid) as [r|] eqn:Hr.
  2: { rewrite Hw. destruct (rt_rollback s t tid (rt_regions s)) as (H1 & H2 & H3); try done; [apply Hwf|].
       eapply tc_err; try done. by left. }
  destruct Hw as (a & -> & Hwr).
  assert (Hnin : tid ∉ tasks (inner r)).
  { intros Hin. destruct (ow_region _ _ (ri_owns s Hwf) _ _ _ Hr Hin) as (? & ? & _). congruence. }
  pose proof (add_task_new r tid cleanup Hnin) as Hadd.
  assert (Hadm : (if cleanup then add_cleanup_task r tid else add_task r tid) = add_task_internal r tid cleanup)
    by (by destruct cleanup). rewrite Hadm in *.
  assert (Herr : ∀ e, (add_task_internal r tid cleanup).2 = Err e →
    ∃ r, region s rid = Some r ∧
       ((if cleanup then RegionState.can_accept_cleanup_work (region_state r)
         else RegionState.can_accept_work (region_state r)) = false ∨
        is_Some (max_tasks (limits (inner r))) ∧ (cleanup = true → region_state r ≠ RegionState.Finalizing))).
  { intros e He. exists r. split; [done|]. revert He. unfold add_task_internal.
    match goal with |- context [if negb ?b then _ else _] => destruct b eqn:Hb end; simpl; [|by left].
    rewrite bool_decide_eq_false_2 by done. destruct (cleanup && _) eqn:Hby; [done|].
    unfold limit_reached. destruct (max_tasks (limits (inner r))); [|done]. intros _. right. split; [done|].
    intros -> Hf. by rewrite Hf in Hby. }
  destruct (add_task_internal r tid cleanup) as [r' res]. simpl in *.
  assert (Hroll : ∀ e e', res = Err e → task_created s rid b cleanup
    (recycle_task (set_regions (set_task_table s t) a) tid) (Err e')).
  { intros e e' ->. subst r'. destruct (rt_rollback s t tid a) as (H1 & H2 & H3); try done; [apply Hwr|apply Hwr| |].
    - intros j. rewrite (wr_get _ _ _ _ Hwr). case_decide; [by subst|done].
    - eapply tc_err; try done. right. by eapply Herr. }
  destruct res as [[]|[|k l live]]; [|by eapply Hroll..].
  destruct Hadd as [-> Hacc].
  set (s1 := set_regions (set_task_table s t) a).
  assert (Htu : upd (get_task s) tid (Some (new_with_time tid rid b (rt_now s))) (task t)) by exact Hget.
  assert (Hwf1 : rt_wf s1) by (by eapply rt_add_task).
  destruct (rt_update_total s1 tid (λ r, (set_has_cx (set_cx_inner r (cx_inner_new rid tid b)), ())) Hwf1)
    as (s2 & x & Heq & Hwf2 & [t2 ->] & Hx).
  - intros r0 Hr0 _. assert (r0 = new_with_time tid rid b (rt_now s)) as ->.
    { pose proof (upd_same _ _ _ _ Htu) as Hs. unfold get_task in Hr0. simpl in Hr0. congruence. }
    split; simpl; try done; [|by left].
    destruct (set_cx_inner_wf (E:=E) (new_with_time tid rid b (rt_now s)) (cx_inner_new rid tid b)
      (new_with_time_wf _ _ _ _) eq_refl (cx_inner_new_wf _ _ _)) as [? ? ? ? ?]. by split.
  - rewrite Heq.
    destruct x as [[]|]; [|destruct Hx as [Hx _]; unfold get_task in Hx; simpl in Hx; pose proof (upd_same _ _ _ _ Htu); congruence].
    destruct Hx as (r0 & Hr0 & _ & Hst & Hupd2).
    assert (r0 = new_with_time tid rid b (rt_now s)) as ->.
    { pose proof (upd_same _ _ _ _ Htu) as Hs. unfold get_task in Hr0. simpl in Hr0. congruence. }
    eapply (tc_ok s rid b cleanup _ tid r); try done.
    + intros j. rewrite (Hupd2 j). case_decide; [done|]. by apply Hold.
    + intros j. apply Hwr.
Qed.

Lemma rt_store s tid f : rt_wf s →
  rt_wf (set_task_table s (store_spawned_task (rt_tasks s) tid f)) ∧
  ∀ j, task (store_spawned_task (rt_tasks s) tid f) j = get_task s j.
Proof.
  intros Hwf. destruct (store_future_ok (rt_tasks s) tid f (ri_tasks s Hwf)) as (Htt & Ha & _).
  assert (Hj : ∀ j, task (store_spawned_task (rt_tasks s) tid f) j = get_task s j) by (intros j; unfold task; by rewrite Ha).
  split; [by apply rt_task_ext|done].
Qed.

Lemma rt_inv_store s tid f : rt_inv s → rt_inv (set_task_table s (store_spawned_task (rt_tasks s) tid f)).
Proof. intros Hinv. apply rt_inv_tasks; [done|]. apply rt_store, Hinv. Qed.

Lemma create_task_ok s rid b future : rt_inv s →
  match create_task s rid b future with
  | Returns (s', _) => rt_inv s'
  | Panicked => arena_full (tt_arena (rt_tasks s))
  | OutOfFuel => False
  end.
Proof.
  intros Hinv. unfold create_task. pose proof (create_task_infrastructure_ok s rid b false (inv_wf s Hinv)) as Hc.
  unfold mbind, run_bind. destruct (create_task_infrastructure s rid b false) as [[s1 res]| |]; [|done|done].
  destruct Hc as [s1 tid r Hwf1 Hr _ _ _ Hupd|s1 e Hwf1 _ Hreg]; [|by eapply rt_inv_same_regions].
  eapply rt_inv_store, rt_inv_link; [exact Hinv|done|exact Hr|exact Hupd].
Qed.

(** ** Obligations *)

Lemma table_create_spec t args : table_wf t → args_now args ≤ u64_MAX →
  match table_create t args with
  | Done (t', oid) => table_wf t' ∧
      insert_post (obligations t) (create_record args) (obligations t') (obligation_arena_index oid) ∧
      finalized_regions t' = finalized_regions t
  | Panics => arena_full (obligations t)
  end.
Proof.
  intros Hwf Hnow. pose proof (table_apply_ok t (OCreate args) Hwf Hnow) as Happ. simpl in Happ.
  unfold table_create, mbind, exec_bind in *.
  pose proof (insert_with_spec (obligations t) (create_record args) (tw_arena t Hwf)) as Hins.
  destruct (insert_with _ _) as [[a idx]|]; simpl in *; [|done]. split; [apply Happ|]. by split.
Qed.

Lemma create_record_owner args idx : holder (create_record args idx) = args_holder args ∧
  ob_region (create_record args idx) = args_region args ∧ is_pending (create_record args idx) = true.
Proof. unfold create_record. by destruct (args_description args). Qed.

Definition reserve (r : RegionRecord E) (n : N) : RegionRecord E := set_inner r (set_obligations (inner r) n).

Lemma links_reserve r n : region_wf r → region_state r ≠ RegionState.Closed → region_step_ok r (reserve r n).
Proof. intros Hwf Ho. apply set_inner_ok; simpl; [done|apply Hwf|apply Hwf|done]. Qed.

(** The count of one region and the table change together. *)
Lemma rt_obligations_upd s s' rid r n : rt_inv s → region s rid = Some r →
  wrote (rt_regions s) rid (reserve r n) (rt_regions s') →
  rt_tasks s' = rt_tasks s → fin s' = fin s → rt_now s' = rt_now s →
  table_wf (rt_obligations s') →
  finalized_regions (rt_obligations s') = finalized_regions (rt_obligations s) →
  obs_wf (region s') (get_task s) (obligations (rt_obligations s')) → rt_inv s'.
Proof.
  intros [Hwf Hst Hcd] Hr Hwr Et Ef En Htb' Hfr Hob'. pose proof Hwf as [Ha Htt Htb Hnow Hfe Htr Howns Hob Hfi].
  assert (Hupd : upd (region s) rid (Some (reserve r n)) (region s')) by (intros j; apply Hwr).
  assert (Htask : get_task s' = get_task s) by (unfold get_task; by rewrite Et).
  destruct (tr_wf _ Htr _ _ Hr) as (Hrw & _ & Hncl).
  split; [| |].
  - split; rewrite ?Et, ?En, ?Htask, ?Ef; try done.
    + apply Hwr.
    + intros j. rewrite Hfr. intros Hj. eapply spent_mono; [apply Hwr|by apply Hfe].
    + eapply tree_upd; [done|exact Hr|exact Hupd|by apply links_reserve|done..|]. apply (tr_final _ Htr rid r Hr).
    + by eapply owns_upd_region.
    + by eapply fin_upd_region.
  - intros j rj Hj. upd_at Hupd; simplify_eq; [exact (Hst _ _ Hr)|by eapply Hst].
  - eapply (closing_down_mono (region s)); [|done]. intros j rj Hj. upd_at Hupd; simplify_eq; [by exists r|by exists rj].
Qed.

Lemma pending_bound s rid : rt_wf s →
  N.of_nat (count (pending_in rid) (iter (obligations (rt_obligations s)))) < usize_MAX.
Proof.
  intros Hwf. pose proof (iter_bound _ (tw_arena _ (ri_table s Hwf))).
  pose proof (count_le_length (pending_in rid) (iter (obligations (rt_obligations s)))).
  unfold usize_MAX, u64_MAX, u32_MAX in *. lia.
Qed.

Lemma try_reserve_spec (r : RegionRecord E) :
  match (try_reserve_obligation r).2 with
  | Ok _ => region_state r = RegionState.Open ∧
      (try_reserve_obligation r).1 = reserve r (saturating_add usize_MAX (pending_obligations (inner r)) 1)
  | Err _ => (try_reserve_obligation r).1 = r
  end.
Proof.
  unfold try_reserve_obligation. destruct (region_state r); simpl; try done. by destruct (limit_reached _ _).
Qed.

Lemma create_obligation_ok s k h rid d loc : rt_inv s →
  match create_obligation s k h rid d loc with
  | Returns (s', _) => rt_inv s'
  | Panicked => arena_full (obligations (rt_obligations s))
  | OutOfFuel => False
  end.
Proof.
  intros Hinv. pose proof (inv_wf s Hinv) as Hwf. unfold create_obligation.
  destruct (region s rid) as [r|] eqn:Hr; [|done]. destruct (get_task s h) as [tr|] eqn:Ht; [|done].
  case_bool_decide as Hown; simpl; [|done].
  pose proof (with_region_spec (rt_regions s) rid try_reserve_obligation (ri_arena s Hwf)) as Hw.
  unfold region in Hr. rewrite Hr in Hw. destruct Hw as (a & -> & Hwr).
  pose proof (try_reserve_spec r) as Hres. destruct (try_reserve_obligation r) as [r' res]. simpl in *.
  assert (Hsame : r' = r → rt_inv (set_regions s a)).
  { intros ->. apply rt_regions_ext; [done|apply Hwr|apply Hwr|].
    intros j. rewrite (wr_get _ _ _ _ Hwr). case_decide; [by subst|done]. }
  destruct res as [[]|[|? ? ?]]; [|by auto..]. destruct Hres as [Ho ->].
  set (args := mkCreateArgs k h rid (rt_now s) d loc None).
  pose proof (table_create_spec (rt_obligations s) args (ri_table s Hwf) (ri_now s Hwf)) as Hcr.
  unfold mbind, run_bind, lift. cbn [rt_obligations set_regions]. destruct (table_create _ args) as [[t oid]|]; [|done].
  destruct Hcr as (Htb & Hins & Hfr). set (s' := set_obligation_table _ t).
  destruct (create_record_owner args (obligation_arena_index oid)) as (Hh & Hreg & Hp).
  assert (Hnone : Arena.get (obligations (rt_obligations s)) (obligation_arena_index oid) = None).
  { destruct (Arena.get (obligations (rt_obligations s)) (obligation_arena_index oid)) eqn:Hg; [|done].
    destruct (proj1 (ip_new _ _ _ _ Hins)). apply live_get. by eexists. }
  pose proof (iter_insert_perm _ _ _ _ Hnone (ip_get _ _ _ _ Hins)) as Hperm.
  eapply (rt_obligations_upd s s' rid r); [done|exact Hr|exact Hwr|done..|]. split.
  - intros j rj Hj. change (get_region a j = Some rj) in Hj. rewrite (wr_get _ _ _ _ Hwr) in Hj.
    simpl. rewrite (count_Permutation _ _ _ Hperm), count_cons. unfold pending_in at 1. simpl. rewrite Hp, Hreg. simpl.
    pose proof (pending_bound s j Hwf) as Hb. pose proof (ob_count _ _ _ (ri_obs s Hwf) j) as Hc. case_decide as Hjr.
    + subst j. simplify_eq. rewrite bool_decide_eq_true_2 by done. simpl. rewrite (Hc r Hr).
      rewrite saturating_add_exact by lia. lia.
    + rewrite bool_decide_eq_false_2 by done. rewrite (Hc rj Hj). lia.
  - intros idx o Hg Hpo. rewrite (ip_get _ _ _ _ Hins) in Hg. case_decide.
    + simplify_eq. rewrite Hh, Hreg. by exists tr.
    + by eapply (ob_owner _ _ _ (ri_obs s Hwf)).
Qed.

End ops.
