(* ===== verification/RuntimeResolve.v ===== *)
(** * Resolution of obligations and completion of tasks

    The operations of [Runtime] that resolve obligations, handle leaks and retire
    tasks keep the invariant of [RuntimeOps]. *)

From S2P Require Import Prelude Ids Arena Budget Cancel Cx Outcome Task RegionHeap Region Obligation TaskTable RegionTable Runtime RuntimeInv RuntimeOps.

Section resolution.
Context {E : Type} `{!Environment}.
Implicit Types (reg : RegionId → option (RegionRecord E)) (tsk : TaskId → option (TaskRecord E))
  (s : RuntimeState E).

(** *** Resolution

    How the state may change while obligations are resolved and regions advance:
    tasks stay, obligations are only resolved. *)

Definition ob_rel (a a' : Arena ObligationRecord) : Prop := ∀ idx,
  match Arena.get a idx, Arena.get a' idx with
  | Some o, Some o' => holder o' = holder o ∧ ob_region o' = ob_region o ∧ ob_id o' = ob_id o ∧
      (is_pending o' = true → o' = o) ∧ (is_pending o = false → o' = o)
  | None, None => True
  | _, _ => False
  end.

#[global] Instance ob_rel_preorder : PreOrder ob_rel.
Proof.
  split.
  - intros a idx. by destruct (Arena.get a idx).
  - intros a1 a2 a3 H12 H23 idx. specialize (H12 idx). specialize (H23 idx).
    destruct (Arena.get a1 idx), (Arena.get a2 idx), (Arena.get a3 idx); try done.
    destruct H12 as (? & ? & ? & Hq1 & Hn1), H23 as (? & ? & ? & Hq2 & Hn2). split_and!; try congruence.
    + intros Hp. pose proof (Hq2 Hp). subst. by apply Hq1.
    + intros Hp. pose proof (Hn1 Hp). subst. by apply Hn2.
Qed.

Record res_rel s s' : Prop := {
  re_tasks : rt_tasks s' = rt_tasks s;
  re_obs : ob_rel (obligations (rt_obligations s)) (obligations (rt_obligations s'));
  re_now : rt_now s' = rt_now s;
  re_attribution : cancel_attribution s' = cancel_attribution s;
  re_async : async_finalizer_tasks (fin s') = async_finalizer_tasks (fin s);
  re_active : active_async_finalizers (fin s') = active_async_finalizers (fin s);
  re_fence : finalized_regions (rt_obligations s) ⊆ finalized_regions (rt_obligations s');
  re_slots : slots_le (slots (rt_regions s)) (slots (rt_regions s'));
  re_kept rid r' : region s' rid = Some r' → ∃ r, region s rid = Some r ∧ kept r r';
  re_gone rid r : region s rid = Some r → region s' rid = None →
    tasks (inner r) = [] ∧ region_state r ≠ RegionState.Open ∧
    rid ∈ finalized_regions (rt_obligations s');
}.

#[global] Instance res_rel_preorder : PreOrder res_rel.
Proof.
  split.
  - intros s. split; try done; [|by intros; congruence]. intros rid r Hr. by exists r.
  - intros s1 s2 s3 H12 H23. pose proof H12 as []. pose proof H23 as []. split; try congruence; try (by etrans).
    + intros rid r3 H3. destruct (re_kept _ _ H23 rid r3 H3) as (r2 & H2 & K23).
      destruct (re_kept _ _ H12 rid r2 H2) as (r1 & H1 & K12). exists r1. split; [done|by etrans].
    + intros rid r H1 H3. destruct (region s2 rid) as [r2|] eqn:H2.
      * destruct (re_gone _ _ H23 rid r2 H2 H3) as (Ht & Ho & Hf).
        destruct (re_kept _ _ H12 rid r2 H2) as (r0 & Hr0 & Hk). assert (r0 = r) as -> by congruence.
        split_and!; [by rewrite <-(k_tasks _ _ Hk)|by rewrite <-(k_open _ _ Hk)|done].
      * destruct (re_gone _ _ H12 rid r H1 H2) as (Ht & Ho & Hf). split_and!; [done|done|].
        by apply (re_fence _ _ H23).
Qed.

Lemma adv_res s s' : adv_rel s s' → res_rel s s'.
Proof. intros []. split; try done. by rewrite ar_obligations. Qed.

Lemma res_pending s s' oid : res_rel s s' → obligation_pending s' oid = true → obligation_pending s oid = true.
Proof.
  intros Hr. unfold obligation_pending, get_obligation. specialize (re_obs _ _ Hr (obligation_arena_index oid)) as Ho.
  destruct (Arena.get (obligations (rt_obligations s)) _), (Arena.get (obligations (rt_obligations s')) _); try done.
  intros Hp. destruct Ho as (_ & _ & _ & Ho & _). by rewrite (Ho Hp) in Hp.
Qed.

Lemma resolved_ob_rel t t' oid o now res : resolution_post t t' oid o now res →
  ob_rel (obligations t) (obligations t').
Proof.
  intros [_ Hb Hp Hget _ _ _] idx. rewrite Hget. case_decide as Hd.
  - rewrite Hd, Hb. split_and!; try done; [by rewrite resolved_not_pending|congruence].
  - by destruct (Arena.get (obligations t) idx).
Qed.

(** Only the records of [ids] change. *)
Definition touches (ids : list ObligationId) s s' : Prop := ∀ idx, ObligationId_from_arena idx ∉ ids →
  Arena.get (obligations (rt_obligations s')) idx = Arena.get (obligations (rt_obligations s)) idx.

Lemma touches_trans ids1 ids2 s1 s2 s3 : touches ids1 s1 s2 → touches ids2 s2 s3 → touches (ids1 ++ ids2) s1 s3.
Proof. intros H1 H2' idx Hn. rewrite elem_of_app in Hn. rewrite H2', H1; tauto. Qed.

Lemma touches_mono ids1 ids2 s s' : (∀ i, i ∈ ids1 → i ∈ ids2) → touches ids1 s s' → touches ids2 s s'.
Proof. intros Hsub Ht idx Hn. apply Ht. auto. Qed.

(** A pending obligation is resolved and its region told. *)
Lemma resolve_step s t oid o now res : rt_inv s → resolution_post (rt_obligations s) t oid o now res →
  let s' := on_region (set_obligation_table s t) (ob_region o) resolve_obligation in
  rt_inv s' ∧ res_rel s s' ∧ obligation_pending s' oid = false ∧ touches [oid] s s'.
Proof.
  intros Hinv Hpost. pose proof (inv_wf s Hinv) as Hwf. pose proof Hpost as [Htb Hb Hp Hget Hle Hfr Hcnt].
  destruct (ob_owner _ _ _ (ri_obs s Hwf) _ _ Hb Hp) as (tr & Htr & Hown).
  destruct (ow_task _ _ (ri_owns s Hwf) _ _ Htr) as (r & Hr & _). rewrite Hown in Hr.
  set (rid := ob_region o) in *. set (s0 := set_obligation_table s t).
  destruct (on_region_Some s0 rid resolve_obligation r (ri_arena s Hwf) Hr) as [Hwr Hupd].
  destruct (iter_update_perm _ _ _ _ _ Hb Hget) as (rest & Hi1 & Hi2).
  assert (Hn : ∀ j, count (pending_in j) (iter (obligations (rt_obligations s))) =
    ((if decide (rid = j) then 1 else 0) + count (pending_in j) (iter (obligations t)))%nat).
  { intros j. rewrite (count_Permutation _ _ _ Hi1), (count_Permutation _ _ _ Hi2), !count_cons.
    unfold pending_in at 1 3. simpl. rewrite Hp, resolved_not_pending. simpl. fold rid.
    destruct (decide (rid = j)); [by rewrite bool_decide_eq_true_2|by rewrite bool_decide_eq_false_2]. }
  pose proof (ob_count _ _ _ (ri_obs s Hwf) rid r Hr) as Hc. rewrite (Hn rid), decide_True in Hc by done.
  assert (Hres : resolve_obligation r = reserve r (pending_obligations (inner r) - 1)).
  { unfold resolve_obligation, checked_sub. destruct (N.leb_spec 1 (pending_obligations (inner r))); [done|lia]. }
  rewrite Hres in Hwr, Hupd. set (s' := on_region s0 rid resolve_obligation) in *.
  split_and!.
  - eapply (rt_obligations_upd s s' rid r); [done|exact Hr|exact Hwr|done..|]. split.
    + intros j rj Hj. upd_at Hupd; simplify_eq; simpl; [lia|].
      pose proof (ob_count _ _ _ (ri_obs s Hwf) j rj Hj) as Hcj. rewrite (Hn j), decide_False in Hcj by congruence. done.
    + intros idx ob Hg Hpo. simpl in Hg. rewrite Hget in Hg. case_decide.
      * simplify_eq. by rewrite resolved_not_pending in Hpo.
      * by eapply (ob_owner _ _ _ (ri_obs s Hwf)).
  - split; try done.
    + by eapply resolved_ob_rel.
    + simpl. by rewrite Hfr.
    + apply Hwr.
    + intros j rj Hj. upd_at Hupd; simplify_eq; [by exists r|by exists rj].
    + intros j rj Hj Hno. upd_at Hupd; [done|]. change (region s j = None) in Hno. congruence.
  - unfold obligation_pending, get_obligation. simpl. rewrite Hget, decide_True by done. apply resolved_not_pending.
  - intros idx Hni. simpl. rewrite Hget, decide_False; [done|]. intros ->. apply Hni. destruct oid. by left.
Qed.

Lemma advance_keeps_inv s rid : rt_inv s → ∃ s', advance_region_state s rid = Returns s' ∧ rt_inv s' ∧ adv_rel s s'.
Proof.
  intros [Hwf Hst Hcd]. destruct (advance_region_state_ok s rid Hwf) as (s' & Heq & [Hwf' Hadv Hs']).
  exists s'. split_and!; [done| |done]. split; [done| |].
  - by apply stall_within_none, Hs', no_stall_within.
  - eapply closing_down_kept; [apply Hadv|done].
Qed.

(** The end of a region's body closes the region at once when nothing is left in it. *)
Lemma end_region_ok s rid : rt_inv s → ∃ s', end_region s rid = Returns s' ∧ rt_inv s' ∧
  adv_rel (on_region s rid (λ r, (begin_close r None).1)) s'.
Proof.
  intros [Hwf Hst Hcd]. unfold end_region. set (f := λ r : RegionRecord E, (begin_close r None).1).
  set (s1 := on_region s rid f).
  assert (Hwf1 : rt_wf s1) by (apply rt_on_region'; [done|]; intros r _; apply links_begin_close_none).
  assert (Hreg : ∀ j r', region s1 j = Some r' → ∃ r, region s j = Some r ∧ (j = rid ∧ r' = f r ∨ j ≠ rid ∧ r' = r)).
  { intros j r' Hj. unfold s1 in Hj. destruct (region s rid) as [r|] eqn:Hr.
    - destruct (on_region_Some s rid f r (ri_arena s Hwf) Hr) as [_ Hupd]. upd_at Hupd; simplify_eq; [exists r|exists r']; auto.
    - rewrite on_region_None in Hj by (done || apply Hwf). exists r'. split; [done|]. right. split; [congruence|done]. }
  destruct (advance_region_state_ok s1 rid Hwf1) as (s' & Heq & [Hwf' Hadv Hs']). exists s'. split_and!; [done| |done].
  split; [done| |].
  - apply stall_within_none, Hs'. intros j r' Hj. destruct (Hreg j r' Hj) as (r & Hr & [[-> ->]|[_ ->]]); [auto|].
    left. by eapply Hst.
  - eapply closing_down_kept; [apply Hadv|]. eapply closing_down_mono; [|exact Hcd]. intros j r' Hj.
    destruct (Hreg j r' Hj) as (r & Hr & [[-> ->]|[_ ->]]); [|by exists r].
    destruct (begin_close_none_inner r) as [Hi Hs]. exists r. unfold f. rewrite Hi. split_and!; try done.
    destruct Hs as [->|[-> _]]; done.
Qed.

Lemma after_resolution_ok s t oid o now res : rt_inv s → resolution_post (rt_obligations s) t oid o now res →
  ∃ s', after_resolution advance_region_state (set_obligation_table s t) (ob_region o) = Returns s' ∧
    rt_inv s' ∧ res_rel s s' ∧ obligation_pending s' oid = false ∧ touches [oid] s s'.
Proof.
  intros Hinv Hpost. destruct (resolve_step s t oid o now res Hinv Hpost) as (Hinv1 & Hrel1 & Hp1 & Ht1).
  unfold after_resolution.
  destruct (advance_keeps_inv _ (ob_region o) Hinv1) as (s' & -> & Hinv' & Hadv). exists s'.
  split_and!; [done|done|etrans; [exact Hrel1|by apply adv_res]| |].
  - destruct (obligation_pending s' oid) eqn:Hp; [|done].
    apply (res_pending _ _ _ (adv_res _ _ Hadv)) in Hp. congruence.
  - intros idx Hn. rewrite (ar_obligations _ _ Hadv). by apply Ht1.
Qed.

(** The three resolutions: a live obligation is not pending afterwards. *)
Definition resolves (s : RuntimeState E) (oid : ObligationId) (m : run (RuntimeState E * result N TableError)) : Prop :=
  ∃ s' x, m = Returns (s', x) ∧ rt_inv s' ∧ res_rel s s' ∧ obligation_pending s' oid = false ∧ touches [oid] s s'.

Lemma set_table_same s : set_obligation_table s (rt_obligations s) = s.
Proof. by destruct s. Qed.

Lemma pending_not_fenced s oid o : rt_inv s → get_obligation s oid = Some o → is_pending o = true →
  ob_region o ∉ finalized_regions (rt_obligations s).
Proof.
  intros Hinv Hg Hp Hin. pose proof (inv_wf s Hinv) as Hwf.
  destruct (ob_owner _ _ _ (ri_obs s Hwf) _ _ Hg Hp) as (tr & Htr & Hown).
  destruct (ow_task _ _ (ri_owns s Hwf) _ _ Htr) as (r & Hr & _). rewrite Hown in Hr.
  apply (ri_fence s Hwf), spent_get in Hin. unfold region, get_region in Hr. congruence.
Qed.

Lemma commit_obligation_ok s oid : rt_inv s → resolves s oid (commit_obligation s oid).
Proof.
  intros Hinv. unfold commit_obligation, commit_obligation_with.
  destruct (table_commit_ok (rt_obligations s) oid (rt_now s) (ri_table s (inv_wf s Hinv))) as (t & r & -> & Hr).
  simpl. destruct Hr as [Hg|o Hg _ Hf|o Hg _ Hnp|o t Hpost _].
  1-3: rewrite set_table_same; do 2 eexists; (split; [done|]); split_and!; try done;
    unfold obligation_pending, get_obligation; rewrite Hg; try done.
  - destruct (is_pending o) eqn:Hp; [|done]. by destruct (pending_not_fenced s oid o Hinv Hg Hp).
  - destruct (after_resolution_ok s t oid o _ _ Hinv Hpost) as (s' & Heq & Hpost'). simpl.
    rewrite Heq. simpl. by do 2 eexists.
Qed.

Lemma abort_obligation_ok s oid reason : rt_inv s →
  resolves s oid (abort_obligation_with advance_region_state s oid reason).
Proof.
  intros Hinv. unfold abort_obligation_with.
  destruct (table_abort_ok (rt_obligations s) oid (rt_now s) reason (ri_table s (inv_wf s Hinv))) as (t & r & -> & Hr).
  simpl. destruct Hr as [Hg|o Hg _ Hf|o Hg _ Hnp|o t Hpost _].
  1-3: rewrite set_table_same; do 2 eexists; (split; [done|]); split_and!; try done;
    unfold obligation_pending, get_obligation; rewrite Hg; try done.
  - destruct (is_pending o) eqn:Hp; [|done]. by destruct (pending_not_fenced s oid o Hinv Hg Hp).
  - destruct (after_resolution_ok s t oid o _ _ Hinv Hpost) as (s' & Heq & Hpost'). simpl.
    rewrite Heq. simpl. by do 2 eexists.
Qed.

Lemma mark_leaked_ok s oid : rt_inv s →
  resolves s oid (mark_obligation_leaked_with advance_region_state s oid).
Proof.
  intros Hinv. unfold mark_obligation_leaked_with.
  destruct (table_mark_leaked_ok (rt_obligations s) oid (rt_now s) (ri_table s (inv_wf s Hinv))) as (t & r & -> & Hr).
  simpl. destruct Hr as [Hg|o Hg Hf _|o Hg _ Hnp|o t Hpost _]; [|done| |].
  1-2: rewrite set_table_same; do 2 eexists; (split; [done|]); split_and!; try done;
    unfold obligation_pending, get_obligation; by rewrite Hg.
  destruct (after_resolution_ok s t oid o _ _ Hinv Hpost) as (s' & Heq & Hpost'). simpl.
  rewrite Heq. simpl. by do 2 eexists.
Qed.

(** ** Batches and leaks *)

(** A batch: every obligation of the list is resolved, no other is touched. *)
Definition resolves_all s (ids : list ObligationId) s' : Prop :=
  rt_inv s' ∧ res_rel s s' ∧ (∀ oid, oid ∈ ids → obligation_pending s' oid = false) ∧ touches ids s s'.

Lemma resolves_all_nil s : rt_inv s → resolves_all s [] s.
Proof. intros Hinv. split_and!; [done|done|by intros ? ?%not_elem_of_nil|done]. Qed.

Lemma resolves_all_cons s oid ids s1 s' : rt_inv s1 → res_rel s s1 → obligation_pending s1 oid = false →
  touches [oid] s s1 → resolves_all s1 ids s' → resolves_all s (oid :: ids) s'.
Proof.
  intros Hinv1 Hr1 Hp1 Ht1 (Hinv & Hr & Hp & Ht). split_and!; [done|by etrans| |].
  - intros j [->|Hj]%elem_of_cons; [|by apply Hp].
    destruct (obligation_pending s' oid) eqn:Hq; [|done]. by rewrite (res_pending _ _ _ Hr Hq) in Hp1.
  - exact (touches_trans [oid] ids s s1 s' Ht1 Ht).
Qed.

Lemma abort_all_ok s ids reason : rt_inv s →
  ∃ s', abort_all advance_region_state s ids reason = Returns s' ∧ resolves_all s ids s'.
Proof.
  revert s. induction ids as [|oid ids IH]; intros s Hinv; simpl.
  { exists s. split; [done|]. by apply resolves_all_nil. }
  destruct (abort_obligation_ok s oid reason Hinv) as (s1 & x & -> & Hinv1 & Hr1 & Hp1 & Ht1). simpl.
  destruct (IH s1 Hinv1) as (s' & -> & Hall). exists s'. split; [done|]. by eapply resolves_all_cons.
Qed.

Lemma mark_all_leaked_ok s ids : rt_inv s →
  ∃ s', mark_all_leaked advance_region_state s ids = Returns s' ∧ resolves_all s ids s'.
Proof.
  revert s. induction ids as [|oid ids IH]; intros s Hinv; simpl.
  { exists s. split; [done|]. by apply resolves_all_nil. }
  destruct (mark_leaked_ok s oid Hinv) as (s1 & x & -> & Hinv1 & Hr1 & Hp1 & Ht1). simpl.
  destruct (IH s1 Hinv1) as (s' & -> & Hall). exists s'. split; [done|]. by eapply resolves_all_cons.
Qed.

(** When the configured reaction to leaks can be a panic. *)
Definition leak_may_panic (l : LeakState) : Prop := thread_panicking = false ∧
  (obligation_leak_response l = LeakPanic ∨ ∃ esc, leak_escalation l = Some esc ∧ escalate_to esc = LeakPanic).

Lemma leak_response_panic l : leak_response l = LeakPanic → leak_may_panic l.
Proof.
  unfold leak_response, leak_may_panic. destruct (leak_escalation l) as [esc|].
  - destruct (threshold esc <=? leak_count l).
    + destruct (escalate_to esc) eqn:He; try done. destruct thread_panicking; [done|]. intros _. split; [done|]. right. by exists esc.
    + destruct (obligation_leak_response l); try done. destruct thread_panicking; [done|]. intros _. split; [done|]. by left.
  - destruct (obligation_leak_response l); try done. destruct thread_panicking; [done|]. intros _. split; [done|]. by left.
Qed.

Lemma rt_inv_leaks s l : rt_inv s → rt_inv (set_leaks s l).
Proof. intros [[] Hs Hc]. by split. Qed.

Lemma res_leaks s l : res_rel s (set_leaks s l).
Proof. split; try done; [|by intros; simplify_eq/=; unfold region in *; simpl in *; congruence]. intros rid r Hr. by exists r. Qed.

Lemma handle_leaks_ok s ids : rt_inv s →
  match handle_obligation_leaks advance_region_state s ids with
  | Returns s' => rt_inv s' ∧ res_rel s s' ∧ touches ids s s'
  | Panicked => leak_may_panic (leaks s)
  | OutOfFuel => False
  end.
Proof.
  intros Hinv. unfold handle_obligation_leaks.
  set (l := List.filter _ ids). assert (Hsub : ∀ i, i ∈ l → i ∈ ids).
  { intros i Hi. apply list_elem_of_In, filter_In in Hi as [Hi _]. by apply list_elem_of_In. }
  destruct l as [|i l0] eqn:Hl; [done|]. rewrite <-Hl in *. clear Hl i l0.
  set (s0 := set_leaks s _). assert (Hinv0 : rt_inv s0) by (by apply rt_inv_leaks).
  destruct (mark_all_leaked_ok s0 l Hinv0) as (s1 & Hm & Hinv1 & Hr1 & _ & Ht1).
  destruct (abort_all_ok s0 l AbortError Hinv0) as (s2 & Ha & Hinv2 & Hr2 & _ & Ht2).
  assert (Hend : ∀ s' e, rt_inv s' → res_rel s0 s' → touches l s0 s' →
    rt_inv (set_leaks s' e) ∧ res_rel s (set_leaks s' e) ∧ touches ids s (set_leaks s' e)).
  { intros s' e Hi Hr Ht. split_and!; [by apply rt_inv_leaks| |exact (touches_mono _ _ _ _ Hsub Ht)].
    etrans; [apply res_leaks|]. etrans; [exact Hr|apply res_leaks]. }
  destruct (leak_response (leaks s0)) eqn:Hresp; rewrite ?Hm, ?Ha; simpl; auto.
  by apply leak_response_panic in Hresp.
Qed.

(** ** Retirement of a task *)

Definition note_outcome (co : option (TaskOutcome E)) (r : RegionRecord E) : RegionRecord E :=
  match co with Some o => record_close_outcome r o | None => r end.

Lemma note_outcome_same co r : region_state (note_outcome co r) = region_state r ∧
  children (inner (note_outcome co r)) = children (inner r) ∧ tasks (inner (note_outcome co r)) = tasks (inner r) ∧
  pending_obligations (inner (note_outcome co r)) = pending_obligations (inner r) ∧
  finalizers (inner (note_outcome co r)) = finalizers (inner r) ∧
  Region.cancel_reason (inner (note_outcome co r)) = Region.cancel_reason (inner r).
Proof. by destruct co. Qed.

Lemma retire_region_step co r tid : region_wf r → region_step_ok r (remove_task (note_outcome co r) tid).
Proof.
  intros Hwf. destruct co as [o|]; [|by apply inner_ops_ok].
  assert (H1 : region_step_ok r (record_close_outcome r o)) by (by apply inner_ops_ok).
  assert (H2' : region_step_ok (record_close_outcome r o) (remove_task (record_close_outcome r o) tid))
    by (apply inner_ops_ok, H1).
  destruct H1, H2'. by split.
Qed.

Lemma retire_ok s tid tr co : rt_inv s → get_task s tid = Some tr →
  async_finalizer_tasks (fin s) !! tid = None →
  (∀ idx o, Arena.get (obligations (rt_obligations s)) idx = Some o → holder o = tid → is_pending o = false) →
  let s' := on_region (recycle_task s tid) (owner tr) (λ r, remove_task (note_outcome co r) tid) in
  rt_wf s' ∧ stall_within (λ j, j = owner tr) s' ∧ closing_down (region s') ∧ upd (get_task s) tid None (get_task s') ∧
  ∃ r, region s (owner tr) = Some r ∧
    upd (region s) (owner tr) (Some (remove_task (note_outcome co r) tid)) (region s').
Proof.
  intros [Hwf Hst Hcd] Ht Has Hnp. pose proof Hwf as [Ha Htt Htb Hnow Hfe Htr Howns Hob Hfi].
  destruct (ow_task _ _ Howns _ _ Ht) as (r & Hr & Hin). destruct (tr_wf _ Htr _ _ Hr) as (Hrw & _ & Hncl).
  destruct (recycle_ok (rt_tasks s) tid Htt) as (Htt' & Hget & _).
  set (own := owner tr) in *. set (f := λ r, remove_task (note_outcome co r) tid).
  set (s0 := recycle_task s tid). set (s' := on_region s0 own f). simpl.
  destruct (on_region_Some s0 own f r Ha Hr) as [Hwr Hupd]. change (upd (region s) own (Some (f r)) (region s')) in Hupd.
  assert (Htu : upd (get_task s) tid None (get_task s')) by exact Hget.
  destruct (note_outcome_same co r) as (Es & Ec & Et & Ep & Ef & Ecr).
  assert (Hstay : ∀ t x, t ≠ tid → get_task s t = Some x → get_task s' t = Some x).
  { intros t x Hne Hx. by rewrite (upd_other _ _ _ _ _ Htu). }
  split_and!; [split; try done| | |done|by exists r].
  - apply Hwr.
  - intros j Hj. eapply spent_mono; [apply Hwr|by apply Hfe].
  - eapply tree_upd; [done|exact Hr|exact Hupd|by apply retire_region_step|done|by rewrite <-Es in Hncl|].
    simpl. rewrite Es, Ec. by apply (tr_final _ Htr own).
  - split.
    + intros t x Hx. assert (Hne : t ≠ tid) by (intros ->; by rewrite (upd_same _ _ _ _ Htu) in Hx).
      rewrite (upd_other _ _ _ _ _ Htu) in Hx by done. destruct (ow_task _ _ Howns _ _ Hx) as (r0 & Hr0 & Hin0).
      rewrite (Hupd (owner x)). case_decide as Hd; [|by exists r0]. exists (f r). split; [done|].
      simpl. apply list_elem_of_filter. split; [congruence|].
      rewrite Hd in Hr0. assert (r0 = r) as -> by congruence. by rewrite Et.
    + intros j rj t Hj Hinj. upd_at Hupd; simplify_eq.
      * simpl in Hinj. apply list_elem_of_filter in Hinj as [Hne Hinj]. rewrite Et in Hinj.
        rewrite (upd_other _ _ _ _ _ Htu) by done. by eapply (ow_region _ _ Howns).
      * destruct (ow_region _ _ Howns _ _ _ Hj Hinj) as (x & Hx & Hox). exists x. split; [|done].
        apply Hstay; [|done]. intros ->. unfold own in *. congruence.
  - eapply (obs_upd_region (region s)); [|exact Hr|exact Hupd|exact Ep]. destruct Hob as [Hc Hoo]. split; [done|].
    intros idx o Hg Hp. destruct (Hoo idx o Hg Hp) as (x & Hx & Hox). exists x. split; [|done].
    apply Hstay; [|done]. intros Heq. by rewrite (Hnp idx o Hg Heq) in Hp.
  - eapply (fin_upd_region (region s)); [|exact Hr|exact Hupd|simpl; by rewrite Ef|simpl; by rewrite Es].
    destruct Hfi as [Hi Hd Hn Hl Hac Hasy]. split; try done.
    + intros j t Hj. destruct (Hac j t Hj) as ([n Hn0] & x & Hx & Hox). split; [by exists n|]. exists x. split; [|done].
      apply Hstay; [|done]. intros ->. congruence.
    + intros t n Htn. destruct (Hasy t n Htn) as (x & Hx & Hox). exists x. split; [|done].
      apply Hstay; [|done]. intros ->. change (async_finalizer_tasks (fin s) !! tid = Some n) in Htn. congruence.
  - intros j rj Hj. upd_at Hupd; simplify_eq; [by right|]. left. by eapply Hst.
  - eapply (closing_down_mono (region s)); [|done]. intros j rj Hj. upd_at Hupd; simplify_eq; [|by exists rj].
    exists r. simpl. rewrite Es, Ec, Ecr. by split_and!.
Qed.

(** ** Completion *)

Lemma leaks_of_holder s tid oid : rt_wf s → oid ∈ collect_obligation_leaks_for_holder s tid →
  ∃ o, get_obligation s oid = Some o ∧ holder o = tid.
Proof.
  intros Hwf (id0 & Hin & Hm)%list_elem_of_omap.
  change (ids_for_holder (rt_obligations s) tid) with (find_ids (by_holder (rt_obligations s)) tid) in Hin.
  apply (tw_index _ (ri_table s Hwf)) in Hin as (o & Hg & Hh). unfold get_obligation in Hm. rewrite Hg in Hm.
  destruct (is_pending o); simplify_eq. rewrite (tw_ids _ (ri_table s Hwf) _ _ Hg). by exists o.
Qed.

Lemma finish_async_ok s tid tr : rt_inv s → get_task s tid = Some tr →
  let s' := finish_async_finalizer s tid (owner tr) in
  rt_inv s' ∧ async_finalizer_tasks (fin s') !! tid = None ∧ s' = set_fin s (fin s').
Proof.
  intros Hinv Ht. unfold finish_async_finalizer.
  destruct (async_finalizer_tasks (fin s) !! tid) as [fid|] eqn:Ha; simpl; [|by destruct s].
  destruct Hinv as [Hwf Hst Hcd]. destruct (ri_fin s Hwf) as [Hi Hd Hn Hl Hac Has].
  destruct (Has tid fid Ha) as (x & Hx & Hact). assert (x = tr) as -> by congruence.
  rewrite bool_decide_eq_true_2 by done.
  split_and!; [|apply lookup_delete_eq|done]. split; [|done|done].
  apply rt_history, rt_set_fin; [done|]. split; simpl; try done.
  - intros rid t [Hne Hrt]%lookup_delete_Some. destruct (Hac rid t Hrt) as (Hsome & y & Hy & Hoy).
    split; [|by exists y]. rewrite lookup_delete_ne; [done|]. intros <-. congruence.
  - intros t n [Hne Htn]%lookup_delete_Some. destruct (Has t n Htn) as (y & Hy & Hoy). exists y. split; [done|].
    rewrite lookup_delete_ne; [done|]. intros Heq. congruence.
Qed.

(** What the completion of [tid] leaves behind. *)
Record task_retired s (tid : TaskId) s' : Prop := {
  td_inv : rt_inv s';
  td_tasks : upd (get_task s) tid None (get_task s');
  td_obs : ob_rel (obligations (rt_obligations s)) (obligations (rt_obligations s'));
  td_mine idx o : Arena.get (obligations (rt_obligations s')) idx = Some o → holder o = tid → is_pending o = false;
  td_others idx o : Arena.get (obligations (rt_obligations s)) idx = Some o → holder o ≠ tid →
    Arena.get (obligations (rt_obligations s')) idx = Some o;
  td_fence : finalized_regions (rt_obligations s) ⊆ finalized_regions (rt_obligations s');
  td_slots : slots_le (slots (rt_regions s)) (slots (rt_regions s'));
  td_kept rid r' : region s' rid = Some r' → ∃ r, region s rid = Some r ∧
    tasks (inner r') = filter (λ t, t ≠ tid) (tasks (inner r)) ∧
    (region_state r' = RegionState.Open ↔ region_state r = RegionState.Open);
  td_gone rid r : region s rid = Some r → region s' rid = None →
    (∀ t, t ∈ tasks (inner r) → t = tid) ∧ region_state r ≠ RegionState.Open ∧
    rid ∈ finalized_regions (rt_obligations s');
}.

Lemma owner_tasks_filter s rid r tid tr : rt_wf s → region s rid = Some r → get_task s tid = Some tr →
  owner tr ≠ rid → filter (λ t, t ≠ tid) (tasks (inner r)) = tasks (inner r).
Proof.
  intros Hwf Hr Ht Hne. apply filter_id. intros t Hin ->.
  destruct (ow_region _ _ (ri_owns s Hwf) _ _ _ Hr Hin) as (x & Hx & Ho). congruence.
Qed.

(** The end of a completion: nothing of the task is left, its region advances. *)
Lemma retire_advance s tid tr co : rt_inv s → get_task s tid = Some tr →
  async_finalizer_tasks (fin s) !! tid = None →
  (∀ idx o, Arena.get (obligations (rt_obligations s)) idx = Some o → holder o = tid → is_pending o = false) →
  ∃ s', advance_region_state (on_region (recycle_task s tid) (owner tr)
      (λ r, remove_task (note_outcome co r) tid)) (owner tr) = Returns s' ∧ task_retired s tid s'.
Proof.
  intros Hinv Ht Has Hnp.
  destruct (retire_ok s tid tr co Hinv Ht Has Hnp) as (Hwf1 & Hst1 & Hcd1 & Htu & r & Hr & Hupd).
  set (s1 := on_region _ _ _) in *.
  destruct (advance_region_state_ok s1 (owner tr) Hwf1) as (s' & -> & [Hwf' Hadv Hst']).
  exists s'. split; [done|]. destruct (note_outcome_same co r) as (Es & _ & Et & _).
  assert (Hslots : slots_le (slots (rt_regions s)) (slots (rt_regions s1))).
  { destruct (on_region_Some (recycle_task s tid) (owner tr) (λ r, remove_task (note_outcome co r) tid) r
      (ri_arena s (inv_wf s Hinv)) Hr) as [Hwr _]. apply Hwr. }
  assert (Hob : obligations (rt_obligations s') = obligations (rt_obligations s)) by (by rewrite (ar_obligations _ _ Hadv)).
  assert (Hone : ∀ j rj, region s1 j = Some rj → ∃ r0, region s j = Some r0 ∧
    tasks (inner rj) = filter (λ t, t ≠ tid) (tasks (inner r0)) ∧ region_state rj = region_state r0).
  { intros j rj Hj. rewrite (Hupd j) in Hj. case_decide as Hjo; simplify_eq.
    - exists r. simpl. by rewrite Et, Es.
    - exists rj. split_and!; [done| |done]. symmetry. eapply owner_tasks_filter; [apply Hinv|done|done|congruence]. }
  split.
  - split; [done| |eapply closing_down_kept; [apply Hadv|done]].
    apply stall_within_none, Hst'. intros j rj Hj. destruct (Hst1 j rj Hj); auto.
  - intros j. unfold get_task. rewrite (ar_tasks _ _ Hadv). apply Htu.
  - by rewrite Hob.
  - intros idx o. rewrite Hob. apply Hnp.
  - intros idx o. by rewrite Hob.
  - by apply (ar_fence _ _ Hadv).
  - etrans; [exact Hslots|apply Hadv].
  - intros j r' Hj. destruct (ar_kept _ _ Hadv j r' Hj) as (r1 & Hr1 & Hk).
    destruct (Hone j r1 Hr1) as (r0 & Hr0 & Hts & Hss). exists r0. split_and!; [done| |].
    + by rewrite (k_tasks _ _ Hk).
    + by rewrite (k_open _ _ Hk), Hss.
  - intros j r0 Hj Hno. destruct (region s1 j) as [r1|] eqn:Hr1.
    2: { rewrite (Hupd j) in Hr1. case_decide; congruence. }
    destruct (Hone j r1 Hr1) as (r2 & Hr2 & Hts & Hss). assert (r2 = r0) as -> by congruence.
    destruct (ar_gone _ _ Hadv j r1 Hr1 Hno) as (Htk & Ho & Hf). split_and!; [|congruence|done].
    intros t Hin. destruct (decide (t = tid)); [done|]. exfalso. apply (not_elem_of_nil t).
    rewrite <-Htk, Hts. by apply list_elem_of_filter.
Qed.

(** Retirement seen from an earlier state with the same regions and, but for
    [tid], the same tasks. *)
Lemma task_retired_from s s1 tid s' : task_retired s1 tid s' →
  (∀ j, j ≠ tid → get_task s1 j = get_task s j) → res_rel s s1 ∨
  (rt_regions s1 = rt_regions s ∧ rt_obligations s1 = rt_obligations s) →
  (∀ idx o, Arena.get (obligations (rt_obligations s)) idx = Some o → holder o ≠ tid →
     Arena.get (obligations (rt_obligations s1)) idx = Some o) → task_retired s tid s'.
Proof.
  intros [Hi Ht Ho Hm Hot Hf Hsl Hk Hg] Htask Hrel Hoth.
  assert (Hre : ob_rel (obligations (rt_obligations s)) (obligations (rt_obligations s1)) ∧
    finalized_regions (rt_obligations s) ⊆ finalized_regions (rt_obligations s1) ∧
    slots_le (slots (rt_regions s)) (slots (rt_regions s1)) ∧
    (∀ rid r', region s1 rid = Some r' → ∃ r, region s rid = Some r ∧ tasks (inner r') = tasks (inner r) ∧
       (region_state r' = RegionState.Open ↔ region_state r = RegionState.Open)) ∧
    ∀ rid r, region s rid = Some r → region s1 rid = None → tasks (inner r) = [] ∧
      region_state r ≠ RegionState.Open ∧ rid ∈ finalized_regions (rt_obligations s1)).
  { destruct Hrel as [[]|[Er Eo]].
    - split_and!; try done. intros rid r' Hr'. destruct (re_kept0 rid r' Hr') as (r & Hr & Hkr).
      exists r. split_and!; [done|apply Hkr|apply Hkr].
    - unfold region. rewrite Er, Eo. split_and!; try done; [|by intros; congruence]. intros rid r' Hr'. by exists r'. }
  destruct Hre as (R1 & R2 & R3 & R4 & R5). split; try done; try (by etrans).
  - intros j. rewrite Ht. case_decide; [done|]. by apply Htask.
  - intros idx o Hg0 Hne. apply Hot; [|done]. by apply Hoth.
  - intros rid r' Hr'. destruct (Hk rid r' Hr') as (r1 & Hr1 & Ht1 & Ho1).
    destruct (R4 rid r1 Hr1) as (r & Hr & Ht0 & Ho0). exists r. split_and!; [done|by rewrite Ht1, Ht0|by rewrite Ho1].
  - intros rid r Hr Hn. destruct (region s1 rid) as [r1|] eqn:Hr1.
    + destruct (R4 rid r1 Hr1) as (r0 & Hr0 & Ht0 & Ho0). assert (r0 = r) as -> by congruence.
      destruct (Hg rid r1 Hr1 Hn) as (G1 & G2 & G3). rewrite Ht0 in G1. rewrite Ho0 in G2. by split_and!.
    + destruct (R5 rid r Hr Hr1) as (G1 & G2 & G3). split_and!; [|done|by apply Hf].
      rewrite G1. by intros t ?%not_elem_of_nil.
Qed.

(** The tail of [task_completed], once leaks are handled. *)
Lemma retire_task_ok s tid tr co : rt_inv s → get_task s tid = Some tr →
  ∃ s', retire_task s tid (owner tr) co = Returns s' ∧ task_retired s tid s'.
Proof.
  intros Hinv Ht. destruct (finish_async_ok s tid tr Hinv Ht) as (Hinv1 & Has1 & Hs1). unfold retire_task.
  set (s1 := finish_async_finalizer s tid (owner tr)) in *.
  assert (Er : rt_regions s1 = rt_regions s ∧ rt_obligations s1 = rt_obligations s ∧ rt_tasks s1 = rt_tasks s)
    by (by rewrite Hs1). destruct Er as (Er & Eo & Et).
  pose proof (pending_ids_spec (rt_obligations s1) tid (ri_table s1 (inv_wf s1 Hinv1))) as (_ & _ & Hids).
  destruct (abort_all_ok s1 (sorted_pending_ids_for_holder (rt_obligations s1) tid) AbortCancel Hinv1)
    as (s2 & -> & Hinv2 & Hr2 & Hp2 & Ht2). unfold mbind, run_bind.
  assert (Htr2 : get_task s2 tid = Some tr) by (unfold get_task; by rewrite (re_tasks _ _ Hr2), Et).
  destruct (retire_advance s2 tid tr co Hinv2 Htr2) as (s' & Hs' & Hret).
  - by rewrite (re_async _ _ Hr2).
  - intros idx o Hg Hh. destruct (is_pending o) eqn:Hp; [|done].
    pose proof (re_obs _ _ Hr2 idx) as Hx. rewrite Hg in Hx.
    destruct (Arena.get (obligations (rt_obligations s1)) idx) as [o1|] eqn:Hg1; [|done].
    destruct Hx as (Hh1 & _ & _ & Hsame & _). specialize (Hsame Hp). subst o1.
    specialize (Hp2 (ObligationId_from_arena idx)). unfold obligation_pending, get_obligation in Hp2. simpl in Hp2.
    rewrite Hg, Hp in Hp2. apply Hp2, Hids. by exists o.
  - exists s'. split; [exact Hs'|].
    eapply (task_retired_from s s1); [|by intros; unfold get_task; rewrite Et|by right|by rewrite Eo].
    eapply (task_retired_from s1 s2); [done| |by left|].
    + intros j _. unfold get_task. by rewrite (re_tasks _ _ Hr2).
    + intros idx o Hg Hne. rewrite Ht2; [done|]. rewrite Hids. simpl. intros (o' & Hg' & Hh & _). congruence.
Qed.

(** The first part: the waiters and the cancel waker are taken. *)
Lemma take_waiters_ok s tid tr : rt_inv s → get_task s tid = Some tr →
  ∃ s1, rt_update_task s tid (λ r, Done (set_waiters r [], waiters r)) = Returns (s1, Some (waiters tr)) ∧
    get_task s1 tid = Some (set_waiters tr []) ∧
    let s2 := poke_task s1 tid (update_cx clear_cancel_waker) in
    rt_inv s2 ∧ get_task s2 tid = Some (update_cx clear_cancel_waker (set_waiters tr [])) ∧
    (∀ j, j ≠ tid → get_task s2 j = get_task s j) ∧
    rt_regions s2 = rt_regions s ∧ rt_obligations s2 = rt_obligations s ∧ leaks s2 = leaks s.
Proof.
  intros Hinv Ht. pose proof (inv_wf s Hinv) as Hwf.
  destruct (rt_update_total s tid (λ r, (set_waiters r [], waiters r)) Hwf) as (s1 & x & -> & Hwf1 & [t1 Hs1] & Hx).
  { intros r _ Hr. apply step_ok_frame; try done. constructor. }
  destruct x as [ws|]; [|destruct Hx; congruence]. destruct Hx as (r & Hr & -> & _ & Hupd).
  assert (r = tr) as -> by congruence. simpl in *. exists s1. split; [done|]. split; [by eapply upd_same|].
  destruct (poke_ok s1 tid (update_cx clear_cancel_waker) Hwf1) as (Hwf2 & [t2 Hs2] & Hget2).
  { intros r _ [? ? ? Hcx ?]. split_and!; [|done|done]. split; try done; [|by left]. split; try done.
    simpl. intros i Hi. destruct (cx_inner r) as [i0|]; simplify_eq/=. destruct (Hcx i0 eq_refl) as [[] Hb].
    split; [by split|done]. }
  split_and!; try (by rewrite Hs2, Hs1).
  - assert (Hinv1 : rt_inv s1) by (rewrite Hs1 in Hwf1 |- *; by apply rt_inv_tasks).
    rewrite Hs2 in Hwf2 |- *. by apply rt_inv_tasks.
  - by rewrite Hget2, decide_True, (upd_same _ _ _ _ Hupd).
  - intros j Hj. rewrite Hget2, decide_False by done. by apply (upd_other _ _ _ _ _ Hupd).
Qed.

(** Leaks of the holder are handled unless the task was cancelled. *)
Lemma completion_leaks_ok s tid tr : rt_inv s → get_task s tid = Some tr →
  match match completion_kind (state tr) with
        | CkCancelled => Returns s
        | _ => handle_obligation_leaks advance_region_state s (collect_obligation_leaks_for_holder s tid)
        end with
  | Returns s' => rt_inv s' ∧ res_rel s s' ∧
      ∀ idx o, Arena.get (obligations (rt_obligations s)) idx = Some o → holder o ≠ tid →
        Arena.get (obligations (rt_obligations s')) idx = Some o
  | Panicked => leak_may_panic (leaks s) ∧ completion_kind (state tr) ≠ CkCancelled ∧
      collect_obligation_leaks_for_holder s tid ≠ []
  | OutOfFuel => False
  end.
Proof.
  intros Hinv Ht. set (ids := collect_obligation_leaks_for_holder s tid).
  assert (Hleak : completion_kind (state tr) ≠ CkCancelled →
    match handle_obligation_leaks advance_region_state s ids with
    | Returns s' => rt_inv s' ∧ res_rel s s' ∧
        ∀ idx o, Arena.get (obligations (rt_obligations s)) idx = Some o → holder o ≠ tid →
          Arena.get (obligations (rt_obligations s')) idx = Some o
    | Panicked => leak_may_panic (leaks s) ∧ completion_kind (state tr) ≠ CkCancelled ∧ ids ≠ []
    | OutOfFuel => False
    end).
  { intros Hck. pose proof (handle_leaks_ok s ids Hinv) as Hh.
    destruct (handle_obligation_leaks _ _ _) as [s'| |] eqn:Heq; [|by split_and!; [|done|intros Hn; by rewrite Hn in Heq]|done].
    destruct Hh as (Hinv' & Hr & Htc). split_and!; [done|done|].
    intros idx o Hg Hne. rewrite Htc; [done|].
    intros (o' & Hg' & Hh')%leaks_of_holder; [|apply Hinv]. unfold get_obligation in Hg'. simpl in Hg'. congruence. }
  destruct (completion_kind (state tr)); try (by apply Hleak). done.
Qed.

(** What [task_completed] returns in every case. *)
Lemma task_completed_ok s tid : rt_inv s →
  match task_completed s tid with
  | Returns (s', ws) =>
      match get_task s tid with
      | None => s' = s ∧ ws = []
      | Some tr => ws = waiters tr ∧ task_retired s tid s'
      end
  | Panicked => leak_may_panic (leaks s) ∧
      ∃ tr, get_task s tid = Some tr ∧ completion_kind (state tr) ≠ CkCancelled ∧
        collect_obligation_leaks_for_holder s tid ≠ []
  | OutOfFuel => False
  end.
Proof.
  intros Hinv. unfold task_completed. destruct (get_task s tid) as [tr|] eqn:Ht.
  - destruct (take_waiters_ok s tid tr Hinv Ht) as (s1 & -> & Ht1 & Hinv2 & Ht2 & Hoth & Er & Eo & El).
    unfold mbind, run_bind. rewrite Ht1. set (s2 := poke_task s1 tid _) in *.
    pose proof (completion_leaks_ok s2 tid _ Hinv2 Ht2) as Hlk. simpl in *.
    match type of Hlk with match ?m with _ => _ end => destruct m as [s3| |] end; [| |done].
    + destruct Hlk as (Hinv3 & Hr3 & Hob3). set (co := match state tr with Completed o => Some o | _ => None end).
      assert (Ht3 : get_task s3 tid = Some (update_cx clear_cancel_waker (set_waiters tr [])))
        by (unfold get_task; by rewrite (re_tasks _ _ Hr3)).
      destruct (retire_task_ok s3 tid _ co Hinv3 Ht3) as (s' & Hs' & Hret). simpl in Hs'. rewrite Hs'.
      split; [done|]. eapply (task_retired_from s s2); [|done|by right|by rewrite Eo].
      eapply (task_retired_from s2 s3); [done| |by left|done].
      intros j _. unfold get_task. by rewrite (re_tasks _ _ Hr3).
    + destruct Hlk as (Hp & Hck & Hne). rewrite El in Hp. split; [done|]. exists tr. split_and!; [done|done|].
      unfold collect_obligation_leaks_for_holder, get_obligation in *. by rewrite Eo in Hne.
  - destruct (rt_update_total s tid (λ r, (set_waiters r [], waiters r)) (inv_wf s Hinv)) as (s1 & x & -> & _ & _ & Hx).
    { intros r _ Hr. apply step_ok_frame; try done. constructor. }
    unfold mbind, run_bind. destruct x; [|by destruct Hx as [_ ->]]. destruct Hx as (r & Hr & _). congruence.
Qed.

End resolution.
