(* ===== verification/RuntimeCancel.v ===== *)
(** * Cancellation of a region tree

    [cancel_request] of [src/runtime/state.rs]: the traversal visits the subtree
    of the target once, parents come before children after the sort, every region
    of the subtree starts closing with a reason that chains to its parent's, every
    unfinished task of the subtree is asked to stop and reported, and regions
    without work advance. *)

From S2P Require Import Prelude Ids Arena Budget Cancel Cx Outcome Task RegionHeap Region Obligation TaskTable RegionTable Runtime RuntimeInv RuntimeOps RuntimeResolve.

Section cancellation.
Context {E : Type} `{!Environment}.
Implicit Types (s : RuntimeState E) (n m : CancelRegionNode).

(** ** The traversal *)

Definition child_of s (p c : RegionId) : Prop := ∃ pr, region s p = Some pr ∧ c ∈ children (inner pr).

(** [subtree s rid x]: [x] is [rid] or a descendant of it. *)
Definition subtree s : RegionId → RegionId → Prop := rtc (child_of s).

Definition stack_node (e : RegionId * option RegionId * N) : CancelRegionNode := mkNode e.1.1 e.1.2 e.2.

(** How a node of the traversal is linked to the ones before it. *)
Definition linked s (root : RegionId) (result : list CancelRegionNode) n : Prop :=
  (node_id n = root ∧ node_parent n = None ∧ node_depth n = 0) ∨
  ∃ m, m ∈ result ∧ node_parent n = Some (node_id m) ∧ child_of s (node_id m) (node_id n) ∧
    node_depth n = node_depth m + 1.

Record traversal s (root : RegionId) (stack result : list CancelRegionNode) : Prop := {
  tv_nodup : NoDup (node_id <$> (result ++ stack));
  tv_sub n : n ∈ result ++ stack → subtree s root (node_id n);
  tv_root : root ∈ node_id <$> (result ++ stack);
  tv_closed n c : n ∈ result → child_of s (node_id n) c → c ∈ node_id <$> (result ++ stack);
  tv_links n : n ∈ result ++ stack → linked s root result n;
}.

Lemma child_depth s : rt_wf s → ∃ d : RegionId → nat,
  (∀ p c, child_of s p c → (d p < d c)%nat) ∧ ∀ x y, subtree s x y → (d x ≤ d y)%nat.
Proof.
  intros Hwf. destruct (tr_depth _ (ri_tree s Hwf)) as [d Hd]. exists d.
  assert (Hc : ∀ p c, child_of s p c → (d p < d c)%nat).
  { intros p c (pr & Hp & Hin). destruct (tr_down _ (ri_tree s Hwf) p pr c Hp Hin) as (cr & Hcr & Hpar). by eapply Hd. }
  split; [done|]. induction 1 as [|x y z Hxy _ IH]; [lia|]. specialize (Hc _ _ Hxy). lia.
Qed.

Lemma child_parent s p q c : rt_wf s → child_of s p c → child_of s q c → p = q.
Proof.
  intros Hwf (pr & Hp & Hc) (qr & Hq & Hc').
  destruct (tr_down _ (ri_tree s Hwf) p pr c Hp Hc) as (cr & Hcr & ?).
  destruct (tr_down _ (ri_tree s Hwf) q qr c Hq Hc') as (cr' & Hcr' & ?). congruence.
Qed.

(** The children a visit of [x] pushes. *)
Definition kids s (x : RegionId) (depth : N) : list CancelRegionNode :=
  (λ c, mkNode c (Some x) (depth + 1)) <$>
    match region s x with Some r => children (inner r) | None => [] end.

Lemma elem_of_kids s x d n : n ∈ kids s x d ↔
  child_of s x (node_id n) ∧ node_parent n = Some x ∧ node_depth n = d + 1.
Proof.
  unfold kids, child_of. rewrite list_elem_of_fmap. split.
  - intros (c & -> & Hc). simpl. split_and!; try done. destruct (region s x) as [r|]; [by exists r|].
    by apply not_elem_of_nil in Hc.
  - intros ((r & Hr & Hc) & Hp & Hd). destruct n as [i p k]. simpl in *. subst.
    exists i. rewrite Hr. done.
Qed.

Lemma kids_ids s x d : node_id <$> kids s x d = match region s x with Some r => children (inner r) | None => [] end.
Proof. unfold kids. rewrite <-list_fmap_compose. apply list_fmap_id. Qed.

Lemma traversal_step s root rest n result : rt_wf s → traversal s root (rest ++ [n]) result →
  traversal s root (rest ++ kids s (node_id n) (node_depth n)) (result ++ [n]).
Proof.
  intros Hwf [Hnd Hsub Hroot Hcl Hlk]. set (K := kids s (node_id n) (node_depth n)).
  assert (Hperm : (result ++ [n]) ++ rest ++ K ≡ₚ (result ++ rest ++ [n]) ++ K).
  { rewrite <-!(assoc_L (++)). apply Permutation_app_head. rewrite !(assoc_L (++)). apply Permutation_app_tail, Permutation_app_comm. }
  assert (Hin : n ∈ result ++ rest ++ [n]) by (rewrite !elem_of_app; right; right; by left).
  assert (Hres : n ∉ result).
  { intros Hn. rewrite fmap_app, NoDup_app in Hnd. destruct Hnd as (_ & Hdis & _).
    apply (Hdis (node_id n)); [by apply list_elem_of_fmap_2|]. apply list_elem_of_fmap_2, elem_of_app. right. by left. }
  assert (Hids : ∀ m, m ∈ result → node_id m ≠ node_id n).
  { intros m Hm Heq. rewrite fmap_app, NoDup_app in Hnd. destruct Hnd as (_ & Hdis & _).
    apply (Hdis (node_id m)); [by apply list_elem_of_fmap_2|]. rewrite Heq. apply list_elem_of_fmap_2, elem_of_app. right. by left. }
  destruct (child_depth s Hwf) as (d & Hd & Hdle).
  split.
  - rewrite Hperm, fmap_app, NoDup_app. split_and!; [done| |].
    + intros c Hc HK. unfold K in HK. apply list_elem_of_fmap in Hc as (m & -> & Hm).
      apply list_elem_of_fmap in HK as (k & Heq & Hk). apply elem_of_kids in Hk as (Hch & _). rewrite <-Heq in Hch.
      destruct (Hlk m Hm) as [(Hr & _)|(q & Hq & _ & Hcq & _)].
      * rewrite Hr in Hch. specialize (Hd _ _ Hch). specialize (Hdle _ _ (Hsub n Hin)). lia.
      * apply (Hids q Hq). by eapply child_parent.
    + unfold K. rewrite kids_ids. destruct (region s (node_id n)) as [r|] eqn:Hr; [|constructor].
      destruct (tr_wf _ (ri_tree s Hwf) _ _ Hr) as (Hrw & _ & _). apply Hrw.
  - intros m. rewrite Hperm, elem_of_app. intros [Hm|(Hc & _)%elem_of_kids]; [by apply Hsub|].
    eapply rtc_r; [by apply Hsub|done].
  - rewrite Hperm, fmap_app, elem_of_app. by left.
  - intros m c Hm Hc. rewrite Hperm, fmap_app, elem_of_app. apply elem_of_app in Hm as [Hm|Hm%list_elem_of_singleton]; [|subst m].
    + left. by eapply Hcl.
    + right. apply list_elem_of_fmap. exists (mkNode c (Some (node_id n)) (node_depth n + 1)). split; [done|].
      by apply elem_of_kids.
  - intros m. rewrite Hperm, elem_of_app. intros [Hm|(Hc & Hp & Hdp)%elem_of_kids].
    + destruct (Hlk m Hm) as [?|(q & Hq & ?)]; [by left|]. right. exists q. split; [|done]. apply elem_of_app. by left.
    + right. exists n. split_and!; try done. apply elem_of_app. right. by left.
Qed.

(** The traversal never holds more nodes than there are regions, plus a target
    that may be gone. *)
Lemma traversal_bound s root stack result : rt_wf s → traversal s root stack result →
  (length (result ++ stack) ≤ S (length (iter (rt_regions s))))%nat.
Proof.
  intros Hwf [Hnd Hsub _ _ _].
  rewrite <-(length_fmap node_id),  <-(length_fmap (λ e, RegionId_from_arena e.1) (iter (rt_regions s))).
  change (S (length ?l)) with (length (root :: l)).
  apply submseteq_length, NoDup_submseteq; [done|].
  intros x (n & -> & Hn)%list_elem_of_fmap. specialize (Hsub n Hn).
  apply rtc_inv_r in Hsub as [->|(y & _ & (pr & Hp & Hc))]; [by left|]. right.
  destruct (tr_down _ (ri_tree s Hwf) _ _ _ Hp Hc) as (cr & Hcr & _).
  apply list_elem_of_fmap. exists (region_arena_index (node_id n), cr). simpl. destruct (node_id n); split; [done|].
  by apply iter_get.
Qed.

Lemma collect_loop_ok fuel s root stack result : rt_wf s →
  traversal s root (stack_node <$> stack) result →
  (S (length (iter (rt_regions s))) ≤ length result + fuel)%nat →
  ∃ nodes, collect_loop fuel s stack result = Some nodes ∧ traversal s root [] nodes.
Proof.
  intros Hwf. revert stack result. induction fuel as [|fuel IH]; intros stack result Htv Hf; simpl;
    destruct (vec_pop stack) as [[rest [[x p] d]]|] eqn:Hpop.
  2,4: apply vec_pop_None in Hpop; subst; by exists result.
  all: apply vec_pop_Some in Hpop; subst stack; rewrite fmap_app in Htv; simpl in Htv.
  - pose proof (traversal_bound _ _ _ _ Hwf Htv) as Hb. rewrite !length_app in Hb. simpl in Hb. lia.
  - apply IH; [|rewrite length_app; simpl; lia].
    apply traversal_step in Htv; [|done]. unfold kids in Htv. simpl in Htv.
    rewrite fmap_app, <-list_fmap_compose. exact Htv.
Qed.

Lemma collect_ok s rid : rt_wf s →
  ∃ nodes, collect_region_and_descendants_with_depth s rid = Some nodes ∧ traversal s rid [] nodes.
Proof.
  intros Hwf. apply collect_loop_ok; [done| |simpl; lia]. simpl. split; simpl.
  - apply NoDup_singleton.
  - intros n Hn%list_elem_of_singleton. subst. constructor.
  - by left.
  - by intros n c ?%not_elem_of_nil.
  - intros n Hn%list_elem_of_singleton. subst. by left.
Qed.

(** ** Sorting by depth *)

Lemma insert_node_perm n l : insert_node n l ≡ₚ n :: l.
Proof.
  induction l as [|m l IH]; simpl; [done|]. destruct (_ <=? _); [done|]. rewrite IH. by constructor.
Qed.

Lemma sort_perm l : sort_by_depth l ≡ₚ l.
Proof. induction l as [|n l IH]; simpl; [done|]. by rewrite insert_node_perm, IH. Qed.

Definition depth_le n m : Prop := node_depth n ≤ node_depth m.

Lemma sort_sorted l : StronglySorted depth_le (sort_by_depth l).
Proof.
  induction l as [|n l IH]; simpl; [constructor|]. induction IH as [|m l' Hs IH' Hall]; simpl; [by repeat constructor|].
  destruct (N.leb_spec (node_depth n) (node_depth m)) as [Hle|Hlt].
  - constructor; [by constructor|]. constructor; [done|]. eapply Forall_impl; [done|]. unfold depth_le. intros; lia.
  - constructor; [done|]. apply Forall_forall. intros k. rewrite insert_node_perm, elem_of_cons.
    unfold depth_le. intros [->|Hk]; [lia|]. rewrite Forall_forall in Hall. by apply Hall.
Qed.

Lemma sorted_before l1 n l2 m : StronglySorted depth_le (l1 ++ n :: l2) → m ∈ l1 ++ n :: l2 →
  node_depth m < node_depth n → m ∈ l1.
Proof.
  intros Hs Hm Hlt. apply elem_of_app in Hm as [|[->|Hm]%elem_of_cons]; [done|lia|].
  assert (Hs2 : StronglySorted depth_le (n :: l2)).
  { clear Hm. induction l1 as [|a l1 IH]; [done|]. apply IH. by inversion Hs. }
  apply StronglySorted_inv in Hs2 as [_ Hall]. rewrite Forall_forall in Hall.
  specialize (Hall m Hm). unfold depth_le in Hall. lia.
Qed.

(** What the three passes need of the list of nodes. *)
Record plan s (root : RegionId) (nodes : list CancelRegionNode) : Prop := {
  pl_nodup : NoDup (node_id <$> nodes);
  pl_ids x : x ∈ node_id <$> nodes ↔ subtree s root x;
  pl_parents l1 n l2 : nodes = l1 ++ n :: l2 → node_id n ≠ root →
    ∃ p, node_parent n = Some p ∧ child_of s p (node_id n) ∧ p ∈ node_id <$> l1;
}.

Lemma plan_ok s rid : rt_wf s →
  ∃ nodes, collect_region_and_descendants_with_depth s rid = Some nodes ∧ plan s rid (sort_by_depth nodes).
Proof.
  intros Hwf. destruct (collect_ok s rid Hwf) as (nodes & -> & [Hnd Hsub Hroot Hcl Hlk]).
  rewrite app_nil_r in *. exists nodes. split; [done|]. split.
  - by rewrite sort_perm.
  - intros x. rewrite sort_perm. split; [by intros (n & -> & Hn)%list_elem_of_fmap; apply Hsub|].
    intros Hx. assert (Hgen : ∀ y, y ∈ node_id <$> nodes → subtree s y x → x ∈ node_id <$> nodes); [|by eapply Hgen].
    clear Hx. intros y Hy Hyx. revert Hy. induction Hyx as [|y z x Hyz _ IH]; [done|].
    intros (n & -> & Hn)%list_elem_of_fmap. apply IH. by eapply Hcl.
  - intros l1 n l2 Heq Hne. assert (Hn : n ∈ nodes).
    { rewrite <-sort_perm, Heq. apply elem_of_app. right. by left. }
    destruct (Hlk n Hn) as [(? & _)|(m & Hm & Hp & Hc & Hd)]; [done|].
    exists (node_id m). split_and!; [done|done|]. apply list_elem_of_fmap_2.
    apply (sorted_before l1 n l2); [rewrite <-Heq; apply sort_sorted| |lia]. by rewrite <-Heq, sort_perm.
Qed.

(** ** First pass: the regions of the subtree start closing *)

Record marked (ids : list RegionId) s s' : Prop := {
  ma_frame : s' = set_regions s (rt_regions s');
  ma_slots : slots_le (slots (rt_regions s)) (slots (rt_regions s'));
  ma_regions j : match region s j, region s' j with
    | Some r, Some r' => children (inner r') = children (inner r) ∧ tasks (inner r') = tasks (inner r) ∧
        (j ∉ ids → r' = r) ∧
        (j ∈ ids → region_state r' ≠ RegionState.Open ∧ is_Some (Region.cancel_reason (inner r')))
    | None, None => True
    | _, _ => False
    end;
}.

Lemma marked_nil s : marked [] s s.
Proof. split; [by destruct s|done|]. intros j. destruct (region s j); [|done]. split_and!; try done. by intros ?%not_elem_of_nil. Qed.

Lemma marked_cons x ids s1 s2 s3 : marked [x] s1 s2 → marked ids s2 s3 → marked (x :: ids) s1 s3.
Proof.
  intros [F1 S1 R1] [F2 S2 R2]. split; [rewrite F2, F1; by destruct s1|by etrans|].
  intros j. specialize (R1 j). specialize (R2 j).
  destruct (region s1 j) as [r1|], (region s2 j) as [r2|], (region s3 j) as [r3|]; try done.
  destruct R1 as (C1 & T1 & N1 & I1), R2 as (C2 & T2 & N2 & I2). split_and!; try congruence.
  - rewrite not_elem_of_cons. intros [Hjx Hj]. rewrite (N2 Hj). apply N1. by intros ?%list_elem_of_singleton.
  - intros Hj. destruct (decide (j ∈ ids)) as [Hi|Hi]; [by apply I2|]. rewrite (N2 Hi).
    apply elem_of_cons in Hj as [->|]; [|done]. apply I1. by left.
Qed.

Lemma mark_region_spec rr (r : RegionRecord E) : region_state r ≠ RegionState.Closed →
  region_state (mark_region rr r) ≠ RegionState.Open ∧ is_Some (Region.cancel_reason (inner (mark_region rr r))) ∧
  (Region.cancel_reason (inner r) = None → Region.cancel_reason (inner (mark_region rr r)) =
     Some (if bool_decide (region_state r = RegionState.Open) then rr else strengthened_reason (Some rr) rr)).
Proof.
  intros Hc. unfold mark_region, begin_close. rewrite bool_decide_eq_false_2 by done.
  unfold RegionState.transition. simpl. destruct (region_state r) eqn:Hs; simpl; rewrite ?Hs; try done; simpl;
    split_and!; try done; try (by eexists); intros Hn; rewrite Hn; try done.
Qed.

Lemma mark_one s n rr : rt_wf s → rt_wf (on_region s (node_id n) (mark_region rr)) ∧
  marked [node_id n] s (on_region s (node_id n) (mark_region rr)).
Proof.
  intros Hwf. split; [apply rt_on_region'; [done|]; intros; by apply links_mark_region|].
  destruct (region s (node_id n)) as [r|] eqn:Hr.
  - destruct (on_region_Some s (node_id n) (mark_region rr) r (ri_arena s Hwf) Hr) as [Hwr Hupd].
    destruct (tr_wf _ (ri_tree s Hwf) _ _ Hr) as (Hrw & _ & Hncl).
    destruct (links_mark_region rr r Hrw Hncl) as [_ Hch Htk _ _ _ _]. destruct (mark_region_spec rr r Hncl) as (Ho & Hsome & _).
    split; [done|apply Hwr|]. intros j. rewrite (Hupd j). case_decide as Hj.
    + subst j. rewrite Hr. split_and!; try done. intros Hn. destruct Hn. by left.
    + destruct (region s j); [|done]. split_and!; try done. by intros ?%list_elem_of_singleton.
  - rewrite on_region_None; [|apply Hwf|done]. split; [by destruct s|done|]. intros j.
    destruct (region s j) eqn:Hj; [|done]. split_and!; try done. intros ?%list_elem_of_singleton. congruence.
Qed.

Lemma mark_regions_ok target reason nodes s reasons : rt_wf s →
  rt_wf (mark_regions s target reason nodes reasons).1 ∧
  marked (node_id <$> nodes) s (mark_regions s target reason nodes reasons).1.
Proof.
  revert s reasons. induction nodes as [|n nodes IH]; intros s reasons Hwf; simpl; [split; [done|apply marked_nil]|].
  destruct (mark_one s n (region_reason s target reason n reasons) Hwf) as [Hwf1 Hm1].
  edestruct IH as [Hwf' Hm']; [exact Hwf1|]. split; [exact Hwf'|]. by eapply marked_cons.
Qed.

(** The reason of every region but the target chains to the one of its parent. *)
Definition chained (target : RegionId) (reason : CancelReason) (cfg : CancelAttributionConfig)
  (reasons : gmap RegionId CancelReason) n : Prop :=
  ∃ rr, reasons !! node_id n = Some rr ∧ (node_id n = target → rr = reason) ∧
    (node_id n ≠ target → ∃ p pr, node_parent n = Some p ∧ reasons !! p = Some pr ∧
       rr = with_cause_limited (with_timestamp (Cancel.with_region parent_cancelled p) (timestamp reason)) pr cfg).

Lemma chained_insert target reason cfg reasons n x rr : chained target reason cfg reasons n →
  reasons !! x = None → chained target reason cfg (<[x := rr]> reasons) n.
Proof.
  intros (r & Hr & Ht & Hp) Hx. exists r. split_and!; [by rewrite lookup_insert_ne by congruence|done|].
  intros Hne. destruct (Hp Hne) as (p & pr & ? & Hpr & ?). exists p, pr. split_and!; try done.
  by rewrite lookup_insert_ne by congruence.
Qed.

Lemma mark_reasons s0 target reason nodes : ∀ before s reasons, plan s0 target (before ++ nodes) →
  (∀ x, is_Some (reasons !! x) ↔ x ∈ node_id <$> before) →
  (∀ n, n ∈ before → chained target reason (cancel_attribution s) reasons n) →
  ∀ n, n ∈ before ++ nodes →
    chained target reason (cancel_attribution s) (mark_regions s target reason nodes reasons).2 n.
Proof.
  induction nodes as [|n0 nodes IH]; intros before s reasons Hpl Hdom Hch n Hn; simpl.
  { rewrite app_nil_r in Hn. by apply Hch. }
  set (rr := region_reason s target reason n0 reasons).
  assert (Hnew : reasons !! node_id n0 = None).
  { apply eq_None_not_Some. rewrite Hdom. intros Hin. pose proof (pl_nodup _ _ _ Hpl) as Hnd.
    rewrite fmap_app in Hnd. apply NoDup_app in Hnd as (_ & Hdis & _). apply (Hdis _ Hin). by left. }
  assert (Happ : before ++ n0 :: nodes = (before ++ [n0]) ++ nodes) by (by rewrite <-(assoc_L (++))).
  rewrite Happ in Hpl, Hn.
  apply (IH (before ++ [n0]) (on_region s (node_id n0) (mark_region rr)) (<[node_id n0 := rr]> reasons)); try done.
  - intros x. rewrite fmap_app, elem_of_app, <-Hdom. simpl. rewrite list_elem_of_singleton.
    destruct (decide (x = node_id n0)) as [->|Hne]; [rewrite lookup_insert_eq; split; [by right|done]|].
    rewrite lookup_insert_ne by done. split; [by left|by intros [?|?]].
  - intros m [Hm|Hm%list_elem_of_singleton]%elem_of_app; [by apply chained_insert; [apply Hch|]|]. subst m.
    exists rr. rewrite lookup_insert_eq. split_and!; [done| |].
    + intros Ht. unfold rr, region_reason. by rewrite bool_decide_eq_true_2.
    + intros Ht. destruct (pl_parents _ _ _ Hpl before n0 nodes) as (p & Hp & _ & Hin); [by rewrite Happ|done|].
      apply Hdom in Hin as [pr Hpr]. exists p, pr. split_and!; [done|by rewrite lookup_insert_ne by congruence|].
      unfold rr, region_reason. by rewrite bool_decide_eq_false_2, Hp, Hpr by done.
Qed.

(** ** Second pass: the tasks of the subtree are asked to stop *)

Definition active_task s (t : TaskId) : Prop :=
  ∃ tr, get_task s t = Some tr ∧ state_is_terminal (state tr) = false.

#[global] Instance active_task_dec s t : Decision (active_task s t).
Proof.
  refine (match get_task s t as o return get_task s t = o → _ with
    | Some tr => λ Ht, if decide (state_is_terminal (state tr) = false) then left _ else right _
    | None => λ Ht, right _ end eq_refl); unfold active_task; rewrite Ht.
  - by exists tr.
  - intros (x & [= <-] & ?). done.
  - by intros (x & ? & _).
Defined.

(** Only task records and the list of woken wakers change; a task in [tids] is
    being cancelled unless it was done. *)
Record stopped (tids : list TaskId) s s' : Prop := {
  sp_frame : ∃ t w, s' = wake (set_task_table s t) w;
  sp_tasks t : match get_task s t, get_task s' t with
    | Some r, Some r' => owner r' = owner r ∧ state_is_terminal (state r') = state_is_terminal (state r) ∧
        (t ∉ tids → r' = r) ∧ (state_is_terminal (state r) = true → r' = r) ∧
        (t ∈ tids → state_is_terminal (state r) = false → is_cancelling (state r') = true)
    | None, None => True
    | _, _ => False
    end;
}.

Lemma stopped_nil s : stopped [] s s.
Proof.
  split; [exists (rt_tasks s), []; destruct s; unfold wake; simpl; by rewrite app_nil_r|].
  intros t. destruct (get_task s t); [|done]. split_and!; try done. by intros ?%not_elem_of_nil.
Qed.

Lemma stopped_app l1 l2 s1 s2 s3 : stopped l1 s1 s2 → stopped l2 s2 s3 → stopped (l1 ++ l2) s1 s3.
Proof.
  intros [(t1 & w1 & F1) T1] [(t2 & w2 & F2) T2]. split.
  - exists t2, (w1 ++ w2). rewrite F2, F1. unfold wake, set_task_table. simpl. by rewrite <-(assoc_L (++)).
  - intros t. specialize (T1 t). specialize (T2 t).
    destruct (get_task s1 t) as [r1|], (get_task s2 t) as [r2|], (get_task s3 t) as [r3|]; try done.
    destruct T1 as (O1 & S1 & N1 & D1 & C1), T2 as (O2 & S2 & N2 & D2 & C2). split_and!; try congruence.
    + rewrite elem_of_app. intros Hn. rewrite N2, N1; tauto.
    + intros Hd. rewrite D2; [by apply D1|congruence].
    + intros Hin Hd. destruct (decide (t ∈ l2)) as [Hi|Hi]; [apply C2; [done|congruence]|]. rewrite (N2 Hi).
      apply elem_of_app in Hin as [|]; [by apply C1|done].
Qed.

Lemma stopped_active tids s s' t : stopped tids s s' → active_task s' t ↔ active_task s t.
Proof.
  intros [_ Ht]. specialize (Ht t). unfold active_task.
  destruct (get_task s t) as [r|], (get_task s' t) as [r'|]; try done.
  destruct Ht as (_ & Hs & _). split; intros (x & [= <-] & Hx); eexists; (split; [done|]); congruence.
Qed.

Lemma request_cancelling (r : TaskRecord E) reason b : state_is_terminal (state r) = false →
  is_cancelling (state (request_cancel_with_budget r reason b).1.1) = true.
Proof.
  intros Ht. unfold request_cancel_with_budget. rewrite Ht. unfold apply_request. simpl.
  destruct (state r) as [| | | | |o]; simpl in *; try done.
Qed.

Lemma cancelling_not_terminal (st : TaskState E) : is_cancelling st = true → state_is_terminal st = false.
Proof. by destruct st. Qed.

Lemma cancel_one_ok s tid reason : rt_wf s →
  ∃ s' l, cancel_one s tid reason = Returns (s', l) ∧ rt_wf s' ∧ stopped [tid] s s' ∧
    l = if decide (active_task s tid) then [(tid, priority (cleanup_budget_of reason))] else [].
Proof.
  intros Hwf. unfold cancel_one.
  match goal with |- context [rt_update_task s tid (λ r, Done (@?g r))] =>
    pose proof (rt_update_total s tid g Hwf) as Hu end.
  simpl in Hu. destruct Hu as (s1 & x & -> & Hwf1 & [t Hs1] & Hx).
  { intros r _ Hr. pose proof (request_cancel_ok r reason (cleanup_budget_of reason) Hr) as Hs.
    by destruct (request_cancel_with_budget _ _ _) as [[? ?] ?]. }
  simpl. destruct x as [[listed w]|].
  - destruct Hx as (r & Hr & Heq & Hst & Hupd).
    pose proof (request_cancelling r reason (cleanup_budget_of reason)) as Hcan.
    assert (Hterm : state_is_terminal (state r) = true →
      request_cancel_with_budget r reason (cleanup_budget_of reason) = (r, false, None)).
    { intros Ht. unfold request_cancel_with_budget. by rewrite Ht. }
    destruct (request_cancel_with_budget r reason _) as [[r' newly] w'] eqn:Hreq. simpl in *. simplify_eq.
    do 2 eexists. split; [done|]. split_and!; [by destruct Hwf1|split|].
    + by exists t, (option_list w').
    + intros j. change (get_task (wake _ _) j) with (get_task (set_task_table s t) j). rewrite (Hupd j). case_decide as Hj.
      * subst j. rewrite Hr. destruct (state_is_terminal (state r)) eqn:Ht.
        -- specialize (Hterm eq_refl). simplify_eq. by split_and!.
        -- specialize (Hcan eq_refl). split_and!; try done; [apply Hst|by apply cancelling_not_terminal|].
           intros Hn. destruct Hn. by left.
      * destruct (get_task s j); [|done]. split_and!; try done. by intros ?%list_elem_of_singleton.
    + destruct (decide (active_task s tid)) as [(x & Hx & Hnt)|Hna].
      * assert (x = r) as -> by congruence. rewrite (Hcan Hnt), orb_true_r. done.
      * destruct (state_is_terminal (state r)) eqn:Ht; [|destruct Hna; by exists r].
        specialize (Hterm eq_refl). simplify_eq. by destruct (state r).
  - destruct Hx as [Hr Hs]. do 2 eexists. split; [done|]. split_and!; [done|split|].
    + exists t, []. rewrite Hs1. unfold wake. simpl. by rewrite app_nil_r.
    + intros j. rewrite Hs. destruct (get_task s j) eqn:Hj; [|done]. split_and!; try done.
      intros ?%list_elem_of_singleton. congruence.
    + rewrite decide_False; [done|]. intros (x & ? & _). congruence.
Qed.

Lemma filter_active_ext tids (l : list TaskId) s s' : stopped tids s s' → filter (active_task s') l = filter (active_task s) l.
Proof. intros Hst. apply list_filter_iff. intros t. by eapply stopped_active. Qed.

Lemma cancel_tasks_ok tids reason s : rt_wf s →
  ∃ s' l, cancel_tasks s tids reason = Returns (s', l) ∧ rt_wf s' ∧ stopped tids s s' ∧
    l.*1 = filter (active_task s) tids.
Proof.
  revert s. induction tids as [|t tids IH]; intros s Hwf; simpl.
  { do 2 eexists. split; [done|]. split_and!; [done|apply stopped_nil|done]. }
  destruct (cancel_one_ok s t reason Hwf) as (s1 & l1 & -> & Hwf1 & Hs1 & ->). simpl.
  destruct (IH s1 Hwf1) as (s2 & l2 & -> & Hwf2 & Hs2 & Hl2). simpl.
  do 2 eexists. split; [done|]. split_and!; [done|exact (stopped_app [t] tids s s1 s2 Hs1 Hs2)|].
  rewrite fmap_app, Hl2, (filter_active_ext _ _ _ _ Hs1), filter_cons. by destruct (decide (active_task s t)).
Qed.

(** The tasks of the regions of the plan. *)
Definition tasks_of s (x : RegionId) : list TaskId :=
  match region s x with Some r => tasks (inner r) | None => [] end.

Lemma stopped_region tids s s' x : stopped tids s s' → region s' x = region s x.
Proof. intros [(t & w & ->) _]. done. Qed.

Lemma cancel_region_tasks_ok reason reasons nodes s : rt_wf s →
  ∃ s' l, cancel_region_tasks s reason nodes reasons = Returns (s', l) ∧ rt_wf s' ∧
    stopped ((node_id <$> nodes) ≫= tasks_of s) s s' ∧
    l.*1 = filter (active_task s) ((node_id <$> nodes) ≫= tasks_of s).
Proof.
  revert s. induction nodes as [|n nodes IH]; intros s Hwf; simpl.
  { do 2 eexists. split; [done|]. split_and!; [done|apply stopped_nil|done]. }
  fold (tasks_of s (node_id n)).
  destruct (cancel_tasks_ok (tasks_of s (node_id n)) (default reason (reasons !! node_id n)) s Hwf)
    as (s1 & l1 & -> & Hwf1 & Hs1 & Hl1). simpl.
  destruct (IH s1 Hwf1) as (s2 & l2 & -> & Hwf2 & Hs2 & Hl2). simpl.
  assert (Heq : (node_id <$> nodes) ≫= tasks_of s1 = (node_id <$> nodes) ≫= tasks_of s).
  { apply list_bind_ext; [|done]. intros x. unfold tasks_of. by rewrite (stopped_region _ _ _ x Hs1). }
  rewrite Heq in Hs2, Hl2. do 2 eexists. split; [done|]. split_and!; [done|by eapply stopped_app|].
  by rewrite fmap_app, filter_app, Hl1, Hl2, (filter_active_ext _ _ _ _ Hs1).
Qed.

(** ** Third pass: regions without work advance *)

(** A region that has children or tasks waits for them. *)
Lemma busy_waits s rid r : rt_wf s → region s rid = Some r →
  is_nil (children (inner r)) && is_nil (tasks (inner r)) = false → waits r.
Proof.
  intros Hwf Hr Hb. unfold waits, is_nil in *. pose proof (tr_final _ (ri_tree s Hwf) rid r Hr) as Hf.
  destruct (region_state r); try done; [| |rewrite Hf in Hb by done; left];
    destruct (children (inner r)), (tasks (inner r)); simpl in Hb; try done; auto; by right.
Qed.

Lemma advance_idle_ok nodes s : rt_wf s → stall_within (λ j, j ∈ node_id <$> nodes) s →
  closing_down (region s) →
  ∃ s', advance_idle s nodes = Returns s' ∧ rt_inv s' ∧ adv_rel s s'.
Proof.
  revert s. induction nodes as [|n nodes IH]; intros s Hwf Hst Hcd; simpl.
  { exists s. split_and!; [done| |done]. split; [done| |done]. intros j r Hj.
    destruct (Hst j r Hj) as [|Hin]; [done|]. by apply not_elem_of_nil in Hin. }
  assert (Hst' : stall_within (λ j, j = node_id n ∨ j ∈ node_id <$> nodes) s).
  { intros j r Hj. destruct (Hst j r Hj) as [|Hin]; [by left|]. right. by apply elem_of_cons in Hin. }
  destruct (region s (node_id n)) as [r|] eqn:Hr.
  2: { apply IH; [done| |done]. eapply stall_waits; [exact Hst'|]. congruence. }
  destruct (is_nil (children (inner r)) && is_nil (tasks (inner r))) eqn:Hb.
  - destruct (advance_region_state_ok s (node_id n) Hwf) as (s1 & -> & [Hwf1 Hadv Hs1]). simpl.
    destruct (IH s1 Hwf1) as (s' & -> & Hinv & Hadv'); [by apply Hs1| |].
    { eapply closing_down_kept; [apply Hadv|done]. }
    exists s'. split_and!; [done|done|by etrans].
  - apply IH; [done| |done]. eapply stall_waits; [exact Hst'|]. intros r0 Hr0.
    assert (r0 = r) as -> by congruence. by eapply busy_waits.
Qed.

(** ** The whole request *)

Record cancelled_tree s (rid : RegionId) s' (l : list TaskId) : Prop := {
  ct_nodup : NoDup l;
  ct_list t : t ∈ l ↔ ∃ tr, get_task s t = Some tr ∧ state_is_terminal (state tr) = false ∧ subtree s rid (owner tr);
  ct_tasks t : match get_task s t, get_task s' t with
    | Some r, Some r' => (t ∈ l → is_cancelling (state r') = true) ∧ (t ∉ l → r' = r)
    | None, None => True
    | _, _ => False
    end;
  ct_regions x r' : subtree s rid x → region s' x = Some r' →
    region_state r' ≠ RegionState.Open ∧ is_Some (Region.cancel_reason (inner r'));
  ct_others x r r' : ¬ subtree s rid x → region s x = Some r → region s' x = Some r' →
    Region.cancel_reason (inner r') = Region.cancel_reason (inner r) ∧
    (region_state r' = RegionState.Open ↔ region_state r = RegionState.Open);
  ct_kept x r' : region s' x = Some r' → ∃ r, region s x = Some r ∧ tasks (inner r') = tasks (inner r);
  ct_closed x r : region s x = Some r → region s' x = None →
    tasks (inner r) = [] ∧ x ∈ finalized_regions (rt_obligations s');
  ct_obligations : obligations (rt_obligations s') = obligations (rt_obligations s);
  ct_fence : finalized_regions (rt_obligations s) ⊆ finalized_regions (rt_obligations s');
  ct_slots : slots_le (slots (rt_regions s)) (slots (rt_regions s'));
}.

(** After the first pass the subtree of the target is cancelled. *)
Lemma marked_closing s rid nodes s1 : rt_inv s → plan s rid nodes → marked (node_id <$> nodes) s s1 →
  closing_down (region s1) ∧ stall_within (λ j, j ∈ node_id <$> nodes) s1.
Proof.
  intros [Hwf Hst Hcd] Hpl [_ _ Hm]. split.
  - intros p pr' Hp Hcan. pose proof (Hm p) as Hmp. rewrite Hp in Hmp. destruct (region s p) as [pr|] eqn:Hps; [|done]. destruct Hmp as (Hch & _ & Hpn & Hpi).
    assert (Hdown : ∀ c cr', c ∈ children (inner pr') → region s1 c = Some cr' → c ∉ node_id <$> nodes → ∃ cr, region s c = Some cr ∧ cr' = cr ∧ pr' = pr ∧ c ∈ children (inner pr)).
    { intros c cr' Hin Hc Hcin. pose proof (Hm c) as Hmc. rewrite Hc in Hmc. destruct (region s c) as [cr|] eqn:Hcs; [|done]. destruct Hmc as (_ & _ & Hcn & _). rewrite Hch in Hin.
      exists cr. split_and!; [done|by apply Hcn| |done]. apply Hpn. intros Hpin. apply Hcin.
      apply (pl_ids _ _ _ Hpl). apply (pl_ids _ _ _ Hpl) in Hpin. eapply rtc_r; [exact Hpin|]. by exists pr. }
    split.
    + destruct (decide (p ∈ node_id <$> nodes)) as [Hpin|Hpin]; [by apply Hpi|]. rewrite (Hpn Hpin) in *. by apply (Hcd p pr Hps).
    + intros c cr' Hin Hc. destruct (decide (c ∈ node_id <$> nodes)) as [Hcin|Hcin].
      * pose proof (Hm c) as Hmc. rewrite Hc in Hmc. destruct (region s c) as [cr|]; [|done]. destruct Hmc as (_ & _ & _ & Hci). by apply Hci.
      * destruct (Hdown c cr' Hin Hc Hcin) as (cr & Hcs & -> & -> & Hin0). by apply (proj2 (Hcd p pr Hps Hcan) c).
  - intros j r' Hj. pose proof (Hm j) as Hmj. rewrite Hj in Hmj. destruct (region s j) as [r|] eqn:Hjs; [|done].
    destruct (decide (j ∈ node_id <$> nodes)) as [Hin|Hin]; [by right|]. left.
    destruct Hmj as (_ & _ & Hn & _). rewrite (Hn Hin). by eapply Hst.
Qed.

(** The tasks the second pass visits. *)
Lemma plan_tasks s rid nodes : rt_wf s → plan s rid nodes →
  NoDup ((node_id <$> nodes) ≫= tasks_of s) ∧
  ∀ t, t ∈ (node_id <$> nodes) ≫= tasks_of s ↔ ∃ tr, get_task s t = Some tr ∧ subtree s rid (owner tr).
Proof.
  intros Hwf Hpl.
  assert (Htk : ∀ x t, t ∈ tasks_of s x ↔ ∃ tr, get_task s t = Some tr ∧ owner tr = x).
  { intros x t. unfold tasks_of. split.
    - destruct (region s x) as [r|] eqn:Hr; [|by intros ?%not_elem_of_nil]. by apply (ow_region _ _ (ri_owns s Hwf)).
    - intros (tr & Ht & <-). destruct (ow_task _ _ (ri_owns s Hwf) t tr Ht) as (r & -> & Hin). done. }
  split.
  - apply NoDup_bind; [| |apply Hpl].
    + intros x y t _ _ Hx Hy. apply Htk in Hx as (? & ? & ?). apply Htk in Hy as (? & ? & ?). congruence.
    + intros x _. unfold tasks_of. destruct (region s x) as [r|] eqn:Hr; [|constructor].
      destruct (tr_wf _ (ri_tree s Hwf) _ _ Hr) as (Hrw & _). apply Hrw.
  - intros t. rewrite list_elem_of_bind. setoid_rewrite Htk. setoid_rewrite (pl_ids _ _ _ Hpl).
    split; [intros (x & (tr & ? & <-) & ?); by exists tr|]. intros (tr & ? & ?). exists (owner tr). split; [by exists tr|done].
Qed.

(** The first two passes. *)
Lemma passes_effect s rid nodes s1 s2 l : rt_wf s → plan s rid nodes → marked (node_id <$> nodes) s s1 →
  stopped ((node_id <$> nodes) ≫= tasks_of s) s1 s2 →
  l = filter (active_task s1) ((node_id <$> nodes) ≫= tasks_of s) → cancelled_tree s rid s2 l.
Proof.
  intros Hwf Hpl [Hf1 Hsl1 Hm] Hs2 ->. destruct (plan_tasks s rid nodes Hwf Hpl) as [Hnd Hmem].
  set (tids := (node_id <$> nodes) ≫= tasks_of s) in *.
  assert (Htask1 : ∀ t, get_task s1 t = get_task s t) by (intros t; by rewrite Hf1).
  assert (Hreg2 : ∀ x, region s2 x = region s1 x) by (intros x; by eapply stopped_region).
  destruct Hs2 as [(t2 & w2 & Hf2) Ht2].
  assert (Hlist : ∀ t, t ∈ filter (active_task s1) tids ↔ active_task s t ∧ t ∈ tids).
  { intros t. rewrite list_elem_of_filter. unfold active_task. by rewrite Htask1. }
  split; try (by rewrite Hf2, Hf1).
  - by apply NoDup_filter.
  - intros t. rewrite Hlist, Hmem. unfold active_task. naive_solver.
  - intros t. specialize (Ht2 t). rewrite Htask1 in Ht2.
    destruct (get_task s t) as [r|] eqn:Ht, (get_task s2 t) as [r'|]; try done.
    destruct Ht2 as (_ & _ & Hn & Hterm & Hc). rewrite Hlist. split.
    + intros [(x & Hx & Hnt) Hin]. simplify_eq. by apply Hc.
    + intros Hnl. destruct (state_is_terminal (state r)) eqn:Hst; [by apply Hterm|]. apply Hn. intros Hin.
      apply Hnl. split; [by exists r|done].
  - intros x r' Hsub. rewrite Hreg2. intros Hr'. specialize (Hm x). rewrite Hr' in Hm. destruct (region s x); [|done].
    apply Hm. by apply (pl_ids _ _ _ Hpl).
  - intros x r r' Hns Hr. rewrite Hreg2. intros Hr'. specialize (Hm x). rewrite Hr, Hr' in Hm.
    destruct Hm as (_ & _ & Hni & _). rewrite Hni; [done|]. by rewrite (pl_ids _ _ _ Hpl).
  - intros x r'. rewrite Hreg2. intros Hr'. specialize (Hm x). rewrite Hr' in Hm. destruct (region s x) as [r|]; [|done].
    exists r. split; [done|apply Hm].
  - intros x r Hr. rewrite Hreg2. intros Hr'. specialize (Hm x). by rewrite Hr, Hr' in Hm.
Qed.

(** The third pass. *)
Lemma effect_advance s rid s2 s' l : cancelled_tree s rid s2 l → adv_rel s2 s' → cancelled_tree s rid s' l.
Proof.
  intros [Hnd Hl Ht Hr Ho Hk Hc Hob Hfe Hsl] Hadv.
  assert (Ht' : ∀ t, get_task s' t = get_task s2 t) by (intros t; unfold get_task; by rewrite (ar_tasks _ _ Hadv)).
  split; try done.
  - intros t. rewrite Ht'. apply Ht.
  - intros x r' Hsub Hr'. destruct (ar_kept _ _ Hadv x r' Hr') as (r2 & Hr2 & Hkr).
    rewrite (k_reason _ _ Hkr), (k_open _ _ Hkr). by eapply Hr.
  - intros x r r' Hns Hr0 Hr'. destruct (ar_kept _ _ Hadv x r' Hr') as (r2 & Hr2 & Hkr).
    rewrite (k_reason _ _ Hkr), (k_open _ _ Hkr). by eapply Ho.
  - intros x r' Hr'. destruct (ar_kept _ _ Hadv x r' Hr') as (r2 & Hr2 & Hkr). rewrite (k_tasks _ _ Hkr). by apply Hk.
  - intros x r Hr0 Hn. destruct (region s2 x) as [r2|] eqn:Hr2.
    + destruct (Hk x r2 Hr2) as (r0 & Hr0' & Htk). assert (r0 = r) as -> by congruence.
      destruct (ar_gone _ _ Hadv x r2 Hr2 Hn) as (Htn & _ & Hfin). split; [congruence|done].
    + destruct (Hc x r Hr0 Hr2) as [? ?]. split; [done|]. by apply (ar_fence _ _ Hadv).
  - by rewrite (ar_obligations _ _ Hadv).
  - etrans; [done|apply (ar_fence _ _ Hadv)].
  - etrans; [done|apply (ar_slots _ _ Hadv)].
Qed.

Lemma cancel_request_ok s rid reason : rt_inv s →
  ∃ s' l, cancel_request s rid reason = Returns (s', l) ∧ rt_inv s' ∧ cancelled_tree s rid s' l.*1.
Proof.
  intros Hinv. pose proof (inv_wf s Hinv) as Hwf. unfold cancel_request.
  destruct (plan_ok s rid Hwf) as (nodes & -> & Hpl). set (ns := sort_by_depth nodes) in *.
  destruct (mark_regions_ok rid reason ns s ∅ Hwf) as [Hwf1 Hm].
  destruct (mark_regions s rid reason ns ∅) as [s1 reasons]. simpl in Hwf1, Hm.
  destruct (marked_closing s rid ns s1 Hinv Hpl Hm) as [Hcd1 Hst1].
  destruct (cancel_region_tasks_ok reason reasons ns s1 Hwf1) as (s2 & l & -> & Hwf2 & Hs2 & Hl).
  assert (Htk : (node_id <$> ns) ≫= tasks_of s1 = (node_id <$> ns) ≫= tasks_of s).
  { apply list_bind_ext; [|done]. intros x. unfold tasks_of. pose proof (ma_regions _ _ _ Hm x) as Hx.
    destruct (region s x), (region s1 x); try done. apply Hx. }
  rewrite Htk in Hs2, Hl.
  assert (Hreg2 : ∀ x, region s2 x = region s1 x) by (intros x; by eapply stopped_region).
  unfold mbind, run_bind. destruct (advance_idle_ok ns s2 Hwf2) as (s' & -> & Hinv' & Hadv).
  { intros j r. rewrite Hreg2. apply Hst1. }
  { eapply closing_down_mono; [|exact Hcd1]. intros x r'. rewrite Hreg2. by exists r'. }
  do 2 eexists. split; [done|]. split; [done|]. eapply effect_advance; [|done]. by eapply passes_effect.
Qed.

Lemma cancel_siblings_ok s rid child reason : rt_inv s →
  ∃ s' l, cancel_sibling_tasks s rid child reason = Returns (s', l) ∧ rt_inv s' ∧
    l.*1 = filter (active_task s) (filter (λ t, t ≠ child) (tasks_of s rid)) ∧
    stopped (filter (λ t, t ≠ child) (tasks_of s rid)) s s'.
Proof.
  intros Hinv. unfold cancel_sibling_tasks, tasks_of. destruct (region s rid) as [r|].
  - destruct (cancel_tasks_ok (filter (λ t, t ≠ child) (tasks (inner r))) reason s (inv_wf s Hinv))
      as (s' & l & -> & Hwf' & Hst & Hl). do 2 eexists. split; [done|]. split_and!; [|done|done].
    destruct Hinv as [_ Hs Hc]. pose proof Hst as [(t & w & Hf) _]. split; [done|by rewrite Hf|by rewrite Hf].
  - do 2 eexists. split; [done|]. split_and!; [done|done|apply stopped_nil].
Qed.

End cancellation.
