(* ===== verification/RuntimeFinal.v ===== *)
(** * Async finalizers

    [drain_ready_async_finalizers] of [src/runtime/state.rs] keeps the invariant
    and gives every finalizing region that waits for an async finalizer a task
    that runs it; the state in which every closing region waits for work that can go on. *)

From S2P Require Import Prelude Ids Arena Budget Cancel Cx Outcome Task RegionHeap Region Obligation TaskTable RegionTable Runtime RuntimeInv RuntimeOps RuntimeResolve RuntimeCancel.

Section finalizers.
Context {E : Type} `{!Environment}.
Implicit Types (s : RuntimeState E).

Lemma notify_step (r : TaskRecord E) : task_wf r → step_ok r (notify_task r).
Proof. intros Hr. apply step_ok_frame; try done. apply Hr. Qed.

(** A task is registered as the async finalizer of its region. *)
Lemma register_async_wf s tid tr fid : rt_wf s → get_task s tid = Some tr →
  active_async_finalizers (fin s) !! owner tr = None →
  rt_wf (set_fin s (set_async (fin s) (<[tid := fid]> (async_finalizer_tasks (fin s)))
                      (<[owner tr := tid]> (active_async_finalizers (fin s))))).
Proof.
  intros Hwf Ht Hact. apply rt_set_fin; [done|]. destruct (ri_fin s Hwf) as [Hi Hd Hn Hl Hac Has].
  split; simpl; try done.
  - intros rid t [[<- <-]|[Hne Hrt]]%lookup_insert_Some.
    + split; [by rewrite lookup_insert_eq|by exists tr].
    + destruct (Hac rid t Hrt) as (Hs & x & Hx & Hox). split; [|by exists x].
      destruct (decide (t = tid)) as [->|Htt]; [by rewrite lookup_insert_eq|by rewrite lookup_insert_ne].
  - intros t n [[<- <-]|[Hne Htn]]%lookup_insert_Some; [exists tr; split; [done|by rewrite lookup_insert_eq]|].
    destruct (Has t n Htn) as (x & Hx & Hax). exists x. split; [done|].
    rewrite lookup_insert_ne; [done|]. intros Heq. rewrite <-Heq in Hax. congruence.
Qed.

(** In a finalizing region the finalizer task is always admitted. *)
Lemma spawn_finalizer_ok s rid r fid fut : rt_wf s → region s rid = Some r →
  region_state r = RegionState.Finalizing → active_async_finalizers (fin s) !! rid = None →
  match spawn_finalizer_task s rid fid fut with
  | Returns (s', Some (tid, _)) => rt_wf s' ∧ get_task s tid = None ∧ is_Some (get_task s' tid) ∧
      (∀ t, t ≠ tid → get_task s' t = get_task s t) ∧
      upd (region s) rid (Some (link_task r tid)) (region s') ∧
      active_async_finalizers (fin s') = <[rid := tid]> (active_async_finalizers (fin s)) ∧
      finalizing_regions (fin s') = finalizing_regions (fin s) ∧ rt_obligations s' = rt_obligations s
  | Returns (_, None) => False
  | Panicked => arena_full (tt_arena (rt_tasks s))
  | OutOfFuel => False
  end.
Proof.
  intros Hwf Hr Hst Hact. unfold spawn_finalizer_task. set (b := with_deadline _ _).
  pose proof (create_task_infrastructure_ok s rid b true Hwf) as Hc. unfold mbind, run_bind.
  destruct (create_task_infrastructure s rid b true) as [[s1 res]| |]; [|done|done].
  destruct Hc as [s1 tid r0 Hwf1 Hr0 Hnone _ Htu Hupd Eo Ef En|s1 e _ _ _ _ _ _ Hno].
  2: { destruct Hno as [?|(r0 & Hr0 & Hno)]; [congruence|]. assert (r0 = r) as -> by congruence.
       rewrite Hst in Hno. destruct Hno as [|[_ Hno]]; [done|]. by apply Hno. }
  assert (r0 = r) as -> by congruence. set (tr := set_has_cx _) in Htu.
  destruct (rt_store s1 tid fut Hwf1) as [Hwf2 Hget2]. set (s2 := set_task_table s1 _) in *.
  destruct (poke_ok s2 tid notify_task Hwf2) as (Hwf3 & [t3 Hs3] & Hget3).
  { intros x _ Hx. split_and!; [by apply notify_step|done|done]. }
  set (s3 := poke_task s2 tid notify_task) in *.
  assert (Htid : get_task s3 tid = Some (notify_task tr)).
  { rewrite Hget3, decide_True by done. unfold get_task at 1. simpl. rewrite Hget2. by rewrite (Htu tid), decide_True. }
  assert (Efin : fin s3 = fin s) by (rewrite Hs3; exact Ef).
  split_and!; try done.
  - apply (register_async_wf s3 tid (notify_task tr)); [done|done|]. by rewrite Efin.
  - intros t Hne. change (get_task s3 t = get_task s t). rewrite Hget3, decide_False by done.
    unfold get_task at 1. simpl. rewrite Hget2. by rewrite (Htu t), decide_False.
  - intros j. change (region s3 j = if decide (j = rid) then Some (link_task r tid) else region s j). rewrite Hs3. apply Hupd.
  - simpl. by rewrite Efin.
  - simpl. by rewrite Efin.
  - simpl. rewrite Hs3. exact Eo.
Qed.

(** ** The loop over the ready regions *)

(** A region that is ready: finalizing, with no async finalizer in flight. *)
Definition ready s (rid : RegionId) : Prop := active_async_finalizers (fin s) !! rid = None ∧
  ∃ r, region s rid = Some r ∧ region_state r = RegionState.Finalizing.

(** What starting finalizers does to the regions. *)
Record started s (rids : list RegionId) s' : Prop := {
  sd_inv : rt_inv s';
  sd_tasks rid : rid ∈ rids → ∃ r, region s' rid = Some r ∧ tasks (inner r) ≠ [];
  sd_mono j r' : region s' j = Some r' → ∃ r, region s j = Some r ∧ region_state r' = region_state r ∧
    children (inner r') = children (inner r) ∧ (tasks (inner r) ≠ [] → tasks (inner r') ≠ []);
  sd_live j r : region s j = Some r → is_Some (region s' j);
  sd_other j : j ∉ rids → region s' j = region s j ∧
    active_async_finalizers (fin s') !! j = active_async_finalizers (fin s) !! j;
  sd_obligations : obligations (rt_obligations s') = obligations (rt_obligations s);
  sd_fence : finalized_regions (rt_obligations s) ⊆ finalized_regions (rt_obligations s');
  sd_old t : is_Some (get_task s t) → get_task s' t = get_task s t;
}.

Lemma started_nil s : rt_inv s → started s [] s.
Proof.
  intros Hinv. split; try done; [by intros ? ?%not_elem_of_nil|]. intros j r' Hr'. by exists r'.
Qed.

Lemma started_cons rid rids s s1 s' : started s [rid] s1 → started s1 rids s' → started s (rid :: rids) s'.
Proof.
  intros [I1 T1 M1 L1 O1 B1 F1 G1] [I2 T2 M2 L2 O2 B2 F2 G2]. split; try done; try congruence; try (by etrans).
  - intros j [->|Hj]%elem_of_cons; [|by apply T2]. destruct (T1 rid) as (r1 & Hr1 & Ht1); [by left|].
    destruct (L2 _ _ Hr1) as [r' Hr']. exists r'. split; [done|].
    destruct (M2 _ _ Hr') as (r0 & Hr0 & _ & _ & Hm). apply Hm. congruence.
  - intros j r' Hr'. destruct (M2 j r' Hr') as (r1 & Hr1 & ? & ? & Ht2).
    destruct (M1 j r1 Hr1) as (r & Hr & ? & ? & Ht1). exists r. split_and!; [done|congruence|congruence|auto].
  - intros j r Hr. destruct (L1 j r Hr) as [r1 Hr1]. by eapply L2.
  - intros j [Hj1 Hj2]%not_elem_of_cons. destruct (O1 j) as [Q1 Q2]; [by intros ?%list_elem_of_singleton|].
    destruct (O2 j Hj2) as [Q3 Q4]. split; congruence.
  - intros t Ht. rewrite G2, G1; [done|done|by rewrite G1].
Qed.

(** An async finalizer on top of the stack is found at once. *)
Lemma run_sync_async_top s rid r l fut : rt_wf s → region s rid = Some r →
  finalizers_of (finalizers (inner r)) = l ++ [FAsync fut] →
  ∃ s' fid, run_sync_finalizers_tracked s rid = Returns (s', Some (fid, FAsync fut)).
Proof.
  intros Hwf Hr Hl. unfold run_sync_finalizers_tracked. simpl. pose proof (pop_tracked_spec s rid Hwf) as Hp.
  rewrite Hr in Hp. destruct Hp as [[Hn _]|(fid & fz & s' & -> & [(l' & Hl' & _) _ _])].
  - rewrite Hl in Hn. by destruct l.
  - rewrite Hl in Hl'. apply app_inj_tail in Hl' as [_ <-]. simpl. by do 2 eexists.
Qed.

(** One ready region: the sync finalizers on top run, then the async one starts. *)
Lemma start_one s rid r : rt_inv s → region s rid = Some r → region_state r = RegionState.Finalizing →
  active_async_finalizers (fin s) !! rid = None →
  ∃ s1 b, run_sync_finalizers_tracked s rid = Returns (s1, b) ∧ rt_tasks s1 = rt_tasks s ∧
    match b with
    | None => started s [rid] s1
    | Some (fid, fz) => ∃ fut, fz = FAsync fut ∧
        match spawn_finalizer_task s1 rid fid fut with
        | Returns (s', Some _) => started s [rid] s'
        | Panicked => arena_full (tt_arena (rt_tasks s))
        | _ => False
        end
    end.
Proof.
  intros [Hwf Hst Hcd] Hr Hs Hact. destruct (run_sync_ok s rid r Hwf Hr) as (s1 & b & Hrun & [Hwf1 Hadv Hreg Hoth Hfz]).
  exists s1, b. split; [done|]. split; [apply Hadv|]. destruct Hreg as (r1 & Hr1 & Hs1 & Hc1 & Hb).
  destruct (ar_kept _ _ Hadv _ _ Hr1) as (r0 & Hr0 & Hk). assert (r0 = r) as -> by congruence.
  assert (Hcd1 : closing_down (region s1)) by (eapply closing_down_kept; [apply Hadv|done]).
  assert (Hwait : ∀ j rj, j ≠ rid → region s1 j = Some rj → waits rj).
  { intros j rj Hne Hj. rewrite Hoth in Hj by done. by eapply Hst. }
  destruct b as [[fid fz]|].
  - destruct Hb as [fut ->]. exists fut. split; [done|].
    pose proof (spawn_finalizer_ok s1 rid r1 fid fut Hwf1 Hr1) as Hsp.
    rewrite (ar_active _ _ Hadv), (ar_tasks _ _ Hadv), Hs1 in Hsp. specialize (Hsp Hs Hact).
    destruct (spawn_finalizer_task s1 rid fid fut) as [[s' [[tid pr]|]]| |]; [|done..].
    destruct Hsp as (Hwf' & Hnone & Htid & Hold & Hupd & Ha' & _ & Ho'). split.
    + split; [done| |by eapply closing_link]. intros j rj Hj. upd_at Hupd; simplify_eq; [apply link_waits|by eapply Hwait].
    + intros j Hj%list_elem_of_singleton. subst j. exists (link_task r1 tid). split; [by eapply upd_same|]. simpl. by destruct (tasks (inner r1)).
    + intros j rj Hj. upd_at Hupd; simplify_eq.
      * exists r. simpl. split_and!; [done|done|done|]. intros _. by destruct (tasks (inner r1)).
      * rewrite Hoth in Hj by done. by exists rj.
    + intros j rj Hj. rewrite (Hupd j). case_decide; [done|]. rewrite Hoth by done. by exists rj.
    + intros j Hj. assert (Hne : j ≠ rid) by (intros ->; apply Hj; by left).
      rewrite (upd_other _ _ _ _ _ Hupd), Hoth, Ha', lookup_insert_ne by done. done.
    + by rewrite Ho', (ar_obligations _ _ Hadv).
    + rewrite Ho'. apply Hadv.
    + intros t [x Hx]. assert (Hx1 : get_task s1 t = Some x) by (unfold get_task; by rewrite (ar_tasks _ _ Hadv)).
      rewrite Hold, Hx1; [done|]. intros ->. congruence.
  - assert (Htk : tasks (inner r1) ≠ []).
    { rewrite (k_tasks _ _ Hk). pose proof (Hst rid r Hr) as Hw. unfold waits in Hw. rewrite Hs in Hw.
      destruct Hw as [|(l & fut & Hl)]; [done|].
      destruct (run_sync_async_top s rid r l fut Hwf Hr Hl) as (? & ? & ?). congruence. }
    split.
    + split; [done| |done]. intros j rj Hj. destruct (decide (j = rid)) as [->|Hne]; [|by eapply Hwait].
      assert (rj = r1) as -> by congruence. unfold waits. rewrite Hs1, Hs. by left.
    + intros j Hj%list_elem_of_singleton. subst j. by exists r1.
    + intros j rj Hj. destruct (decide (j = rid)) as [->|Hne].
      * assert (rj = r1) as -> by congruence. exists r. by split_and!.
      * rewrite Hoth in Hj by done. by exists rj.
    + intros j rj Hj. destruct (decide (j = rid)) as [->|Hne]; [by exists r1|]. rewrite Hoth by done. by exists rj.
    + intros j Hj. assert (Hne : j ≠ rid) by (intros ->; apply Hj; by left).
      by rewrite Hoth, (ar_active _ _ Hadv) by done.
    + apply Hadv.
    + apply Hadv.
    + intros t _. unfold get_task. by rewrite (ar_tasks _ _ Hadv).
Qed.

Lemma start_async_ok rids s : rt_inv s → NoDup rids → (∀ rid, rid ∈ rids → ready s rid) →
  match start_async_finalizers s rids with
  | Returns (s', _) => started s rids s'
  | Panicked => ∃ rids1 rids2 s1 l1, rids = rids1 ++ rids2 ∧
      start_async_finalizers s rids1 = Returns (s1, l1) ∧ arena_full (tt_arena (rt_tasks s1))
  | OutOfFuel => False
  end.
Proof.
  revert s. induction rids as [|rid rids IH]; intros s Hinv Hnd Hready; simpl; [by apply started_nil|].
  apply NoDup_cons in Hnd as [Hnin Hnd].
  destruct (Hready rid ltac:(by left)) as (Hact & r & Hr & Hs).
  destruct (start_one s rid r Hinv Hr Hs Hact) as (s1 & b & Hrun & Htt & Hb).
  assert (Hnext : ∀ s2, started s [rid] s2 → (∀ j, j ∈ rids → ready s2 j)).
  { intros s2 [_ _ _ _ Ho _ _ _] j Hj. destruct (Ho j) as [Hrj Haj].
    { intros ?%list_elem_of_singleton. by subst. }
    unfold ready. rewrite Hrj, Haj. apply Hready. by right. }
  rewrite Hrun. unfold mbind, run_bind. destruct b as [[fid fz]|].
  - destruct Hb as (fut & -> & Hsp).
    destruct (spawn_finalizer_task s1 rid fid fut) as [[s2 [e|]]| |] eqn:Hspawn; [|done| |done].
    + specialize (IH s2 (sd_inv _ _ _ Hsp) Hnd (Hnext s2 Hsp)).
      destruct (start_async_finalizers s2 rids) as [[s' l]| |]; [by eapply started_cons| |done].
      destruct IH as (l1 & l2 & s3 & out & -> & Heq & Hfull). exists (rid :: l1), l2, s3, (e :: out).
      split_and!; [done| |done]. simpl. rewrite Hrun. unfold mbind, run_bind. by rewrite Hspawn, Heq.
    + exists [], (rid :: rids), s, []. by split_and!.
  - specialize (IH s1 (sd_inv _ _ _ Hb) Hnd (Hnext s1 Hb)).
    destruct (start_async_finalizers s1 rids) as [[s' l]| |]; [by eapply started_cons| |done].
    destruct IH as (l1 & l2 & s3 & out & -> & Heq & Hfull). exists (rid :: l1), l2, s3, out.
    split_and!; [done| |done]. simpl. rewrite Hrun. unfold mbind, run_bind. by rewrite Heq.
Qed.

Lemma ready_list_ok s : rt_wf s →
  let rids := List.filter (ready_for_finalizer s) (finalizing_regions (fin s)) in
  NoDup rids ∧ ∀ rid, rid ∈ rids → ready s rid.
Proof.
  intros Hwf rids. split; [apply NoDup_ListNoDup, List.NoDup_filter, NoDup_ListNoDup, (fi_nodup _ _ _ (ri_fin s Hwf))|].
  intros rid [Hin Hrd]%list_elem_of_In%filter_In. apply list_elem_of_In in Hin.
  apply (fi_list _ _ _ (ri_fin s Hwf)) in Hin. split; [|done].
  unfold ready_for_finalizer in Hrd. N_bools. apply eq_None_not_Some. by eapply bool_decide_eq_false_1.
Qed.

(** Every finalizing region has an unretired task once the ready finalizers started. *)
Definition finalizers_running s : Prop := ∀ rid r, region s rid = Some r →
  region_state r = RegionState.Finalizing → tasks (inner r) ≠ [].

Lemma drain_ok s : rt_inv s →
  match drain_ready_async_finalizers s with
  | Returns (s', _) =>
      started s (List.filter (ready_for_finalizer s) (finalizing_regions (fin s))) s' ∧ finalizers_running s'
  | Panicked => ∃ rids s1 l1, rids `prefix_of` List.filter (ready_for_finalizer s) (finalizing_regions (fin s)) ∧
      start_async_finalizers s rids = Returns (s1, l1) ∧ arena_full (tt_arena (rt_tasks s1))
  | OutOfFuel => False
  end.
Proof.
  intros Hinv. pose proof (inv_wf s Hinv) as Hwf. unfold drain_ready_async_finalizers.
  destruct (ready_list_ok s Hwf) as [Hnd Hrd]. set (rids := List.filter _ _) in *.
  pose proof (start_async_ok rids s Hinv Hnd Hrd) as Hst.
  destruct (start_async_finalizers s rids) as [[s' l]| |]; [| |done].
  - split; [done|]. intros rid r' Hr' Hs'. destruct (decide (rid ∈ rids)) as [Hin|Hin].
    { destruct (sd_tasks _ _ _ Hst rid Hin) as (r & Hr & Ht). congruence. }
    destruct (sd_other _ _ _ Hst rid Hin) as [Hsame _]. rewrite Hsame in Hr'.
    pose proof (inv_stall s Hinv rid r' Hr') as Hw. unfold waits in Hw. rewrite Hs' in Hw.
    destruct Hw as [|(l0 & fut & Hl)]; [done|].
    assert (Hfin : rid ∈ finalizing_regions (fin s)) by (apply (fi_list _ _ _ (ri_fin s Hwf)); by exists r').
    assert (Hact : is_Some (active_async_finalizers (fin s) !! rid)).
    { destruct (active_async_finalizers (fin s) !! rid) eqn:Ha; [done|]. destruct Hin.
      apply list_elem_of_In, filter_In. split; [by apply list_elem_of_In|]. unfold ready_for_finalizer.
      rewrite Ha, Hr', bool_decide_eq_false_2 by (by intros [? [=]]). unfold finalizers_empty. rewrite Hl. by destruct l0. }
    destruct Hact as [t Hact]. destruct (fi_active _ _ _ (ri_fin s Hwf) _ _ Hact) as (_ & tr & Htr & Hown).
    destruct (ow_task _ _ (ri_owns s Hwf) _ _ Htr) as (r0 & Hr0 & Hin0). rewrite Hown in Hr0.
    intros Hn. assert (r0 = r') as -> by congruence. rewrite Hn in Hin0. by apply not_elem_of_nil in Hin0.
  - destruct Hst as (l1 & l2 & s1 & out & Hr & Heq & Hfull). exists l1, s1, out. split_and!; [|done|done]. by exists l2.
Qed.

(** ** Progress *)

(** What a closing region waits for: a task in its subtree that was not retired, or a
    region in its subtree that is still open. *)
Definition awaits_work s (rid : RegionId) : Prop :=
  (∃ t tr, get_task s t = Some tr ∧ subtree s rid (owner tr)) ∨
  (∃ x xr, subtree s rid x ∧ region s x = Some xr ∧ region_state xr = RegionState.Open).

Lemma closing_has_work s rid r : rt_inv s → finalizers_running s → region s rid = Some r →
  region_state r ≠ RegionState.Open → awaits_work s rid.
Proof.
  intros [Hwf Hst _] Hrun. destruct (child_depth s Hwf) as (d & Hd & _).
  set (M := max_list ((λ e, d (RegionId_from_arena e.1)) <$> iter (rt_regions s))).
  assert (HM : ∀ j rj, region s j = Some rj → (d j ≤ M)%nat).
  { intros j rj Hj. apply max_list_elem_of_le. apply list_elem_of_fmap. exists (region_arena_index j, rj).
    destruct j. split; [done|]. by apply iter_get. }
  remember (M - d rid)%nat as k eqn:Hk. revert rid r Hk.
  induction k as [k IH] using lt_wf_ind. intros rid r Hk Hr Hop.
  assert (Htask : tasks (inner r) ≠ [] → awaits_work s rid).
  { intros Hne. destruct (tasks (inner r)) as [|t l] eqn:Ht; [done|].
    destruct (ow_region _ _ (ri_owns s Hwf) rid r t Hr) as (tr & Htr & Ho); [rewrite Ht; by left|].
    left. exists t, tr. rewrite Ho. split; [done|constructor]. }
  assert (Hchild : children (inner r) ≠ [] → awaits_work s rid).
  { intros Hne. destruct (children (inner r)) as [|c l] eqn:Hc; [done|].
    assert (Hin : c ∈ children (inner r)) by (rewrite Hc; by left).
    destruct (tr_down _ (ri_tree s Hwf) _ _ _ Hr Hin) as (cr & Hcr & _).
    assert (Hch : child_of s rid c) by (by exists r). pose proof (Hd _ _ Hch). pose proof (HM _ _ Hcr).
    destruct (decide (region_state cr = RegionState.Open)) as [Hco|Hco]; [right; exists c, cr; split_and!; [by apply rtc_once|done|done]|].
    destruct (IH (M - d c)%nat ltac:(lia) c cr eq_refl Hcr Hco) as [(t & tr & Ht & Hsub)|(x & xr & Hsub & Hx & Hox)].
    - left. exists t, tr. split; [done|by econstructor].
    - right. exists x, xr. split_and!; [by econstructor|done|done]. }
  pose proof (Hst rid r Hr) as Hw. unfold waits in Hw. destruct (tr_wf _ (ri_tree s Hwf) _ _ Hr) as (_ & _ & Hncl).
  destruct (region_state r) eqn:Hs; [done|destruct Hw; auto|destruct Hw; auto| |done].
  apply Htask. by apply (Hrun rid).
Qed.

(** Cancellation reaches the whole subtree, so that nothing of it is open. *)
Lemma cancelled_subtree s rid r x xr : rt_inv s → subtree s rid x → region s rid = Some r → cancelled r →
  region s x = Some xr → cancelled xr ∧ region_state xr ≠ RegionState.Open.
Proof.
  intros [Hwf _ Hcd] Hsub. revert r. induction Hsub as [rid|rid c x (pr & Hp & Hin) _ IH]; intros r Hr Hc Hx.
  - assert (xr = r) as -> by congruence. split; [done|]. by apply (Hcd rid r).
  - assert (pr = r) as -> by congruence. destruct (tr_down _ (ri_tree s Hwf) _ _ _ Hr Hin) as (cr & Hcr & _).
    eapply IH; [exact Hcr| |done]. destruct (Hcd rid r Hr Hc) as [_ Hch]. by eapply Hch.
Qed.

End finalizers.
