(* ===== verification/RuntimeThms.v ===== *)
(** * The guarantees of the runtime

    Runs of the runtime are sequences of its operations from an empty state.  For
    all of them: the three tables agree with each other, a closed region stays
    quiescent, no operation fails but for the reasons stated, cancellation covers
    a subtree, completion retires a task with its obligations, and a closing
    region never waits for nothing.  A region is closed by a cancellation or, by itself,
    when its body ends. *)

From S2P Require Import Prelude Ids Arena Budget Cancel Cx Outcome Task RegionHeap Region Obligation TaskTable RegionTable Runtime RuntimeInv RuntimeOps RuntimeResolve RuntimeCancel RuntimeFinal.

Section runs.
Context {E : Type} `{!Environment}.
Implicit Types (s : RuntimeState E).

(** ** Operations and runs *)

Inductive RtOp :=
| OpTick (now : Time.t)
| OpSetLeakResponse (response : ObligationLeakResponse)
| OpSetLeakEscalation (escalation : option LeakEscalation)
| OpSetAttribution (config : CancelAttributionConfig)
| OpCreateRoot (b : Budget) (cap : CapabilityBudget)
| OpCreateChild (p : RegionId) (b : Budget) (cap : CapabilityBudget) (req : CapabilityBudgetRequirements)
    (pri : RegionPriority)
| OpSetLimits (rid : RegionId) (l : RegionLimits)
| OpCreateTask (rid : RegionId) (b : Budget) (future : StoredTask)
| OpTask (tid : TaskId) (op : TaskOp E)
| OpCancelTask (tid : TaskId) (reason : CancelReason)
| OpCompleteTask (tid : TaskId) (o : TaskOutcome E)
| OpTaskCompleted (tid : TaskId)
| OpRegisterFinalizer (rid : RegionId) (fz : Finalizer)
| OpCreateObligation (k : ObligationKind) (h : TaskId) (rid : RegionId) (d : option string) (loc : SourceLocation)
| OpCommit (oid : ObligationId)
| OpAbort (oid : ObligationId) (reason : ObligationAbortReason)
| OpMarkLeaked (oid : ObligationId)
| OpCancelRequest (rid : RegionId) (reason : CancelReason)
| OpCancelSiblings (rid : RegionId) (child : TaskId) (reason : CancelReason)
| OpEndRegion (rid : RegionId)
| OpAdvance (rid : RegionId)
| OpDrain.

Definition state_of {A} (m : run (RuntimeState E * A)) : run (RuntimeState E) := p ← m; Returns p.1.

Definition rt_apply s (op : RtOp) : run (RuntimeState E) :=
  match op with
  | OpTick now => Returns (set_now s now)
  | OpSetLeakResponse response => Returns (set_obligation_leak_response s response)
  | OpSetLeakEscalation escalation => Returns (set_leak_escalation s escalation)
  | OpSetAttribution config => Returns (set_cancel_attribution_config s config)
  | OpCreateRoot b cap => state_of (create_root_region_with_capability_budget s b cap)
  | OpCreateChild p b cap req pri =>
      state_of (create_child_region_with_capability_budget_and_priority s p b cap req pri)
  | OpSetLimits rid l => Returns (set_region_limits s rid l).1
  | OpCreateTask rid b future => state_of (create_task s rid b future)
  | OpTask tid op => state_of (rt_update_task s tid (λ r, r' ← task_apply r op; Done (r', ())))
  | OpCancelTask tid reason => state_of (cancel_task s tid reason)
  | OpCompleteTask tid o => state_of (complete_task s tid o)
  | OpTaskCompleted tid => state_of (task_completed s tid)
  | OpRegisterFinalizer rid fz => state_of (register_finalizer s rid fz)
  | OpCreateObligation k h rid d loc => state_of (create_obligation s k h rid d loc)
  | OpCommit oid => state_of (commit_obligation s oid)
  | OpAbort oid reason => state_of (abort_obligation s oid reason)
  | OpMarkLeaked oid => state_of (mark_obligation_leaked s oid)
  | OpCancelRequest rid reason => state_of (cancel_request s rid reason)
  | OpCancelSiblings rid child reason => state_of (cancel_sibling_tasks s rid child reason)
  | OpEndRegion rid => end_region s rid
  | OpAdvance rid => advance_region_state s rid
  | OpDrain => state_of (drain_ready_async_finalizers s)
  end.

Fixpoint rt_run s (ops : list RtOp) : run (RuntimeState E) :=
  match ops with
  | [] => Returns s
  | op :: ops => s' ← rt_apply s op; rt_run s' ops
  end.

(** Times are [u64]. *)
Definition rt_op_ok (op : RtOp) : Prop := match op with OpTick now => now ≤ u64_MAX | _ => True end.

(** The two operations of a task that open a masked section. *)
Definition enters_mask (op : TaskOp E) : bool :=
  match op with TIncrementMask | TCx OpMaskEnter => true | _ => false end.

(** The only reasons for an operation to panic. *)
Definition rt_panic_reason s (op : RtOp) : Prop :=
  match op with
  | OpCreateRoot _ _ | OpCreateChild _ _ _ _ _ => arena_full (rt_regions s)
  | OpCreateTask _ _ _ => arena_full (tt_arena (rt_tasks s))
  | OpTask tid op => ∃ r i, get_task s tid = Some r ∧ cx_inner r = Some i ∧
      enters_mask op = true ∧ MAX_MASK_DEPTH ≤ mask_depth i
  | OpTaskCompleted tid => leak_may_panic (leaks s) ∧
      ∃ tr, get_task s tid = Some tr ∧ completion_kind (state tr) ≠ CkCancelled ∧
        collect_obligation_leaks_for_holder s tid ≠ []
  | OpRegisterFinalizer _ _ => u64_MAX ≤ next_finalizer_id (fin s)
  | OpCreateObligation _ _ _ _ _ => arena_full (obligations (rt_obligations s))
  | OpDrain => ∃ rids s1 l1,
      rids `prefix_of` List.filter (ready_for_finalizer s) (finalizing_regions (fin s)) ∧
      start_async_finalizers s rids = Returns (s1, l1) ∧ arena_full (tt_arena (rt_tasks s1))
  | _ => False
  end.

Definition fenced s s' : Prop :=
  finalized_regions (rt_obligations s) ⊆ finalized_regions (rt_obligations s').

(** A region leaves the table through its close only, which raises its fence. *)
Definition closes s s' : Prop := ∀ rid, is_Some (region s rid) → region s' rid = None →
  rid ∈ finalized_regions (rt_obligations s').

(** ** Every operation keeps the invariant and the fence *)

Lemma rt_inv_new capacity : rt_inv (runtime_new capacity : RuntimeState E).
Proof.
  assert (Hn : ∀ rid, region (runtime_new capacity : RuntimeState E) rid = None)
    by done.
  split; [|intros rid r; by rewrite Hn|intros p pr; by rewrite Hn].
  split; simpl; try done.
  - apply arena_wf_new.
  - apply with_limit_wf.
  - apply table_new_wf.
  - split; [| | |exists (λ _, O)|]; intros *; rewrite Hn; done.
  - split; simpl; try done; [constructor|].
    intros rid. rewrite Hn. split; [by intros ?%not_elem_of_nil|by intros (? & ? & _)].
Qed.

Lemma set_now_ok s now : rt_inv s → now ≤ u64_MAX → rt_inv (set_now s now).
Proof. intros [[] Hs Hc] Hn. by split. Qed.

Lemma set_attribution_ok s cfg : rt_inv s → rt_inv (set_cancel_attribution_config s cfg).
Proof. intros [[] Hs Hc]. by split. Qed.

Lemma obligations_fence s s' : rt_obligations s' = rt_obligations s → fenced s s'.
Proof. unfold fenced. by intros ->. Qed.

Lemma live_closes s s' : (∀ rid, is_Some (region s rid) → is_Some (region s' rid)) → closes s s'.
Proof. intros Hl rid Hr Hn. destruct (Hl rid Hr). congruence. Qed.

Lemma same_closes s s' : rt_regions s' = rt_regions s → closes s s'.
Proof. intros Hr. apply live_closes. unfold region. by rewrite Hr. Qed.

Lemma on_region_live s rid f : rt_wf s → ∀ j, is_Some (region s j) → is_Some (region (on_region s rid f) j).
Proof.
  intros Hwf j Hj. destruct (region s rid) as [r|] eqn:Hr.
  - destruct (on_region_Some s rid f r (ri_arena s Hwf) Hr) as [_ Hupd]. rewrite (Hupd j). by case_decide.
  - by rewrite on_region_None; [|apply Hwf|].
Qed.

Lemma on_region_closes s rid f : rt_wf s → closes s (on_region s rid f).
Proof. intros Hwf. by apply live_closes, on_region_live. Qed.

(** What an operation that returns or panics satisfies. *)
Definition op_spec s (op : RtOp) (m : run (RuntimeState E)) : Prop :=
  match m with
  | Returns s' => rt_inv s' ∧ fenced s s' ∧ closes s s'
  | Panicked => rt_panic_reason s op
  | OutOfFuel => False
  end.

(** The table of obligations as it was, or with one record more. *)
Lemma create_root_frame s b cap s' x : rt_inv s → create_root_region_with_capability_budget s b cap = Returns (s', x) →
  rt_obligations s' = rt_obligations s ∧ closes s s'.
Proof.
  intros Hinv. unfold create_root_region_with_capability_budget, create_root_with_capability_budget.
  pose proof (insert_with_spec (rt_regions s) (λ idx,
     new_with_time_and_capability_budget (RegionId_from_arena idx) None b (rt_now s) cap : RegionRecord E)
     (ri_arena s (inv_wf s Hinv))) as Hins.
  unfold mbind, exec_bind, run_bind, lift. destruct (insert_with _ _) as [[a idx]|]; [|done]. intros. simplify_eq.
  split; [done|]. apply live_closes. intros j Hj.
  pose proof (insert_region_get _ _ _ _ Hins j) as Hget. unfold region in *. simpl. rewrite Hget. by case_decide.
Qed.

Lemma create_child_frame s p b cap req pri s' res : rt_inv s →
  create_child_region_with_capability_budget_and_priority s p b cap req pri = Returns (s', res) →
  rt_obligations s' = rt_obligations s ∧ closes s s'.
Proof.
  intros Hinv. unfold create_child_region_with_capability_budget_and_priority.
  destruct (check_resource_pressure_for_region pri); [|intros; simplify_eq; split; [done|by apply same_closes]].
  pose proof (create_child_ok (rt_regions s) p b cap req (rt_now s) (ri_arena s (inv_wf s Hinv))
    (children_live s (inv_wf s Hinv))) as Hcr.
  unfold mbind, run_bind, lift. destruct (create_child_with_capability_budget _ _ _ _ _ _) as [[a r0]|]; [|done].
  intros. simplify_eq. split; [done|]. apply live_closes. unfold region. simpl. intros j Hj.
  destruct Hcr as [?|? ? ? ?|pr a err Hp Herr Ha Hle _ He|pr eff a rid Hp Ho Hpl Ha Hle _ Hnone Hns Hget]; try done.
  - by rewrite He.
  - rewrite Hget. by repeat case_decide.
Qed.

Lemma create_task_frame s rid b fut s' res : rt_inv s → create_task s rid b fut = Returns (s', res) →
  rt_obligations s' = rt_obligations s ∧ closes s s'.
Proof.
  intros Hinv. unfold create_task. pose proof (create_task_infrastructure_ok s rid b false (inv_wf s Hinv)) as Hc.
  unfold mbind, run_bind. destruct (create_task_infrastructure s rid b false) as [[s1 r]| |]; [|done|done].
  destruct Hc as [s1 tid r _ Hr _ _ _ Hupd Ho _ _|s1 e _ _ Hreg Ho _ _ _]; intros; simplify_eq/=; (split; [done|]);
    apply live_closes; intros j Hj; [|by rewrite Hreg].
  change (is_Some (region s1 j)). rewrite (Hupd j). by case_decide.
Qed.

Lemma register_frame s rid fz s' x : rt_inv s → register_finalizer s rid fz = Returns (s', x) →
  rt_obligations s' = rt_obligations s ∧ closes s s'.
Proof.
  intros Hinv. unfold register_finalizer, allocate_finalizer_id.
  destruct (region s rid) as [r|]; [|intros; simplify_eq; split; [done|by apply same_closes]].
  destruct (_ || _); [intros; simplify_eq; split; [done|by apply same_closes]|].
  destruct (_ <? _); simpl; intros; simplify_eq/=. split; [done|].
  exact (on_region_closes s rid (λ r, add_finalizer r fz) (inv_wf s Hinv)).
Qed.

Lemma create_obligation_frame s k h rid d loc s' x : rt_inv s →
  create_obligation s k h rid d loc = Returns (s', x) → fenced s s' ∧ closes s s'.
Proof.
  intros Hinv. unfold create_obligation.
  assert (Hid : s = s' → fenced s s' ∧ closes s s') by (intros <-; split; [by apply obligations_fence|by apply same_closes]).
  destruct (region s rid) as [r|] eqn:Hr; [|intros; simplify_eq; auto].
  destruct (get_task s h) as [tr|]; [|intros; simplify_eq; auto]. destruct (negb _); [intros; simplify_eq; auto|].
  pose proof (with_region_spec (rt_regions s) rid try_reserve_obligation (ri_arena s (inv_wf s Hinv))) as Hw.
  unfold region in Hr. rewrite Hr in Hw. destruct Hw as (a & -> & Hwr).
  assert (Hcl : ∀ t, closes s (set_obligation_table (set_regions s a) t)).
  { intros t. apply live_closes. unfold region. simpl. intros j Hj. rewrite (wr_get _ _ _ _ Hwr). by case_decide. }
  destruct ((try_reserve_obligation r).2) as [u|[]].
  2,3: intros; simplify_eq; split; [by apply obligations_fence|exact (Hcl (rt_obligations s))].
  pose proof (table_create_spec (rt_obligations s) (mkCreateArgs k h rid (rt_now s) d loc None)
    (ri_table s (inv_wf s Hinv)) (ri_now s (inv_wf s Hinv))) as Hc. unfold mbind, run_bind, lift. simpl.
  destruct (table_create _ _) as [[t oid]|]; [|done]. destruct Hc as (_ & _ & Hf). intros. simplify_eq.
  split; [unfold fenced; simpl; by rewrite Hf|apply Hcl].
Qed.

Lemma rt_update_frame {R} s tid (f : TaskRecord E → exec (TaskRecord E * R)) s' x :
  rt_update_task s tid f = Returns (s', x) → rt_obligations s' = rt_obligations s ∧ rt_regions s' = rt_regions s.
Proof.
  unfold rt_update_task, mbind, run_bind, lift. destruct (update_task _ _ _) as [[? ?]|]; intros; by simplify_eq/=.
Qed.

Lemma cancel_task_frame s tid reason s' x : cancel_task s tid reason = Returns (s', x) →
  rt_obligations s' = rt_obligations s ∧ rt_regions s' = rt_regions s.
Proof.
  unfold cancel_task, mbind, run_bind. destruct (rt_update_task s tid _) as [[s1 [[? ?]|]]| |] eqn:Heq; intros;
    simplify_eq/=; by eapply rt_update_frame.
Qed.

Lemma complete_task_frame s tid o s' x : complete_task s tid o = Returns (s', x) →
  rt_obligations s' = rt_obligations s ∧ rt_regions s' = rt_regions s.
Proof.
  unfold complete_task, mbind, run_bind. destruct (rt_update_task s tid _) as [[s1 y]| |] eqn:Heq; intros;
    simplify_eq/=; by eapply rt_update_frame.
Qed.

(** A step of a task record panics at the limit of the mask depth only. *)
Lemma task_apply_panics (r : TaskRecord E) op : task_apply r op = Panics →
  ∃ i, cx_inner r = Some i ∧ enters_mask op = true ∧ MAX_MASK_DEPTH ≤ mask_depth i.
Proof.
  destruct op as [| | | | | | | | | | | |op]; try done; simpl; unfold increment_mask, mbind, exec_bind.
  - destruct (cx_inner r) as [i|]; [|done]. destruct (N.ltb_spec (mask_depth i) MAX_MASK_DEPTH); [done|]. by exists i.
  - destruct (cx_inner r) as [i|]; [|done]. destruct op; try done. simpl. unfold mask_enter.
    destruct (N.ltb_spec (mask_depth i) MAX_MASK_DEPTH); [done|]. by exists i.
Qed.

(** A step of one task record. *)
Lemma apply_task_ok s tid top : rt_inv s →
  op_spec s (OpTask tid top) (state_of (rt_update_task s tid (λ r, r' ← task_apply r top; Done (r', ())))).
Proof.
  intros Hinv. set (f := λ r : TaskRecord E, r' ← task_apply r top; Done (r', ())).
  assert (Hf : ∀ r r' x, get_task s tid = Some r → f r = Done (r', x) → step_ok r r').
  { intros r r' x Hr Hd. unfold f, mbind, exec_bind in Hd. destruct (task_apply r top) eqn:Ha; simplify_eq.
    eapply task_apply_ok; [|done]. by eapply (tt_records _ (ri_tasks s (inv_wf s Hinv))). }
  pose proof (rt_update_ok s tid f (inv_wf s Hinv) Hf) as Hu.
  destruct (rt_update_task s tid f) as [[s' [x|]]| |]; simpl; [| | |done].
  - destruct Hu as (r & r' & t & _ & _ & -> & _ & _ & _ & Hwf').
    split_and!; [by apply rt_inv_tasks|by apply obligations_fence|by apply same_closes].
  - destruct Hu as [_ ->]. split_and!; [done|by apply obligations_fence|by apply same_closes].
  - destruct Hu as (r & Hr & Hp). unfold f, mbind, exec_bind in Hp. destruct (task_apply r top) eqn:Ha; [done|].
    apply task_apply_panics in Ha as (i & ? & ? & ?). by exists r, i.
Qed.

Lemma res_rel_closes s s' : res_rel s s' → fenced s s' ∧ closes s s'.
Proof. intros Hr. split; [apply Hr|]. intros rid [r Hl] Hn. by destruct (re_gone _ _ Hr rid r Hl Hn) as (_ & _ & ?). Qed.

Lemma resolves_spec s oid m op : resolves s oid m → op_spec s op (state_of m).
Proof. intros (s' & x & -> & Hinv & Hr & _). simpl. split; [done|by apply res_rel_closes]. Qed.

Lemma completed_spec s tid : rt_inv s → op_spec s (OpTaskCompleted tid) (state_of (task_completed s tid)).
Proof.
  intros Hinv. pose proof (task_completed_ok s tid Hinv) as Hc.
  destruct (task_completed s tid) as [[s' ws]| |]; simpl; [|done|done].
  destruct (get_task s tid) as [tr|].
  - destruct Hc as [_ Hret]. split_and!; [apply Hret|apply Hret|].
    intros rid [r Hr] Hn. by destruct (td_gone _ _ _ Hret rid r Hr Hn) as (_ & _ & ?).
  - destruct Hc as [-> _]. split_and!; [done|by apply obligations_fence|by apply same_closes].
Qed.

Lemma rt_apply_ok s op : rt_inv s → rt_op_ok op → op_spec s op (rt_apply s op).
Proof.
  intros Hinv Hop. destruct op as [now|resp|esc|cfg|b cap|p b cap req pri|rid l|rid b fut|tid top|tid reason|tid o|tid|rid fz
    |k h rid d loc|oid|oid reason|oid|rid reason|rid child reason|rid|rid|]; simpl.
  - split_and!; [by apply set_now_ok|by apply obligations_fence|by apply same_closes].
  - split_and!; [by apply rt_inv_leaks|by apply obligations_fence|by apply same_closes].
  - split_and!; [by apply rt_inv_leaks|by apply obligations_fence|by apply same_closes].
  - split_and!; [by apply set_attribution_ok|by apply obligations_fence|by apply same_closes].
  - pose proof (create_root_ok s b cap Hinv) as Hc.
    destruct (create_root_region_with_capability_budget s b cap) as [[s' x]| |] eqn:Heq; try done.
    apply create_root_frame in Heq as [Ho Hcl]; [|done]. split_and!; [apply Hc|by apply obligations_fence|done].
  - pose proof (create_child_region_ok s p b cap req pri Hinv) as Hc.
    destruct (create_child_region_with_capability_budget_and_priority s p b cap req pri) as [[s' x]| |] eqn:Heq; try done.
    apply create_child_frame in Heq as [Ho Hcl]; [|done]. split_and!; [done|by apply obligations_fence|done].
  - split_and!; [by apply set_region_limits_ok| |]; rewrite set_region_limits_eq;
      [by apply obligations_fence|apply on_region_closes, Hinv].
  - pose proof (create_task_ok s rid b fut Hinv) as Hc. destruct (create_task s rid b fut) as [[s' x]| |] eqn:Heq; try done.
    apply create_task_frame in Heq as [Ho Hcl]; [|done]. split_and!; [done|by apply obligations_fence|done].
  - by apply apply_task_ok.
  - destruct (cancel_task_ok s tid reason Hinv) as (s' & x & Heq & Hi). rewrite Heq. simpl.
    apply cancel_task_frame in Heq as [Ho Hr]. split_and!; [done|by apply obligations_fence|by apply same_closes].
  - destruct (complete_task_ok s tid o Hinv) as (s' & x & Heq & Hi). rewrite Heq. simpl.
    apply complete_task_frame in Heq as [Ho Hr]. split_and!; [done|by apply obligations_fence|by apply same_closes].
  - by apply completed_spec.
  - pose proof (register_finalizer_ok s rid fz Hinv) as Hc. destruct (register_finalizer s rid fz) as [[s' x]| |] eqn:Heq; simpl.
    + apply register_frame in Heq as [Ho Hcl]; [|done]. split_and!; [done|by apply obligations_fence|done].
    + lia.
    + done.
  - pose proof (create_obligation_ok s k h rid d loc Hinv) as Hc.
    destruct (create_obligation s k h rid d loc) as [[s' x]| |] eqn:Heq; simpl; try done.
    split; [done|]. by eapply create_obligation_frame.
  - by eapply resolves_spec, commit_obligation_ok.
  - by eapply resolves_spec, abort_obligation_ok.
  - by eapply resolves_spec, mark_leaked_ok.
  - destruct (cancel_request_ok s rid reason Hinv) as (s' & l & -> & Hi & Hct). simpl. split_and!; [done|apply Hct|].
    intros j [r Hr] Hn. by destruct (ct_closed _ _ _ _ Hct j r Hr Hn).
  - destruct (cancel_siblings_ok s rid child reason Hinv) as (s' & l & -> & Hi & _ & [(t & w & Hf) _]). simpl.
    split_and!; [done|apply obligations_fence; by rewrite Hf|apply same_closes; by rewrite Hf].
  - destruct (end_region_ok s rid Hinv) as (s' & -> & Hi & Hadv%adv_res). split; [done|].
    split; [exact (re_fence _ _ Hadv)|]. intros j Hj Hn.
    destruct (region (on_region s rid (λ r, (begin_close r None).1)) j) as [r|] eqn:Hr;
      [by destruct (re_gone _ _ Hadv j r Hr Hn) as (_ & _ & ?)|].
    destruct (on_region_live s rid (λ r, (begin_close r None).1) (inv_wf s Hinv) j Hj). congruence.
  - destruct (advance_keeps_inv s rid Hinv) as (s' & -> & Hi & Hadv). split; [done|]. by apply res_rel_closes, adv_res.
  - pose proof (drain_ok s Hinv) as Hd. destruct (drain_ready_async_finalizers s) as [[s' l]| |]; simpl; [|done|done].
    destruct Hd as [Hst _]. split_and!; [apply Hst|apply Hst|]. apply live_closes. intros j [r Hr]. by eapply (sd_live _ _ _ Hst).
Qed.

Lemma rt_run_ok s ops s' : rt_inv s → Forall rt_op_ok ops → rt_run s ops = Returns s' → rt_inv s' ∧ fenced s s'.
Proof.
  revert s. induction ops as [|op ops IH]; intros s Hinv Hops Hrun; simpl in Hrun.
  { simplify_eq. split; [done|by apply obligations_fence]. }
  inversion_clear Hops as [|? ? Hop Hops']. unfold mbind, run_bind in Hrun.
  pose proof (rt_apply_ok s op Hinv Hop) as Hap. destruct (rt_apply s op) as [s1| |]; [|done|done].
  destruct Hap as (Hinv1 & Hf1 & _). destruct (IH s1 Hinv1 Hops' Hrun) as [Hinv' Hf']. split; [done|]. unfold fenced in *. set_solver.
Qed.

(** A state some run from an empty runtime ends in. *)
Definition reachable s : Prop := ∃ capacity ops, Forall rt_op_ok ops ∧
  rt_run (runtime_new capacity) ops = Returns s.

Lemma reachable_inv s : reachable s → rt_inv s.
Proof. intros (c & ops & Hops & Hrun). by apply (rt_run_ok _ _ _ (rt_inv_new c) Hops). Qed.

(** ** The theorems *)

(** C1: Structured concurrency: in every reachable state the regions form a forest
    whose links agree in both directions, every task belongs to exactly one live
    region, which lists it once, a region counts exactly its pending obligations,
    every pending obligation is held by a task of its region that is still in the
    table, no closed region is left in the table, and cancellation is inherited: a
    region with a cancel reason is not open, and all its children have one. *)
Theorem structured_concurrency s : reachable s →
  (∀ t tr, get_task s t = Some tr → ∃ r, region s (owner tr) = Some r ∧ t ∈ tasks (inner r)) ∧
  (∀ oid o, get_obligation s oid = Some o → is_pending o = true →
     ∃ tr, get_task s (holder o) = Some tr ∧ owner tr = ob_region o) ∧
  (∀ rid, ¬ tc (child_of s) rid rid) ∧
  ∀ rid r, region s rid = Some r →
    region_id r = rid ∧ region_state r ≠ RegionState.Closed ∧
    NoDup (tasks (inner r)) ∧ NoDup (children (inner r)) ∧
    (∀ t, t ∈ tasks (inner r) ↔ ∃ tr, get_task s t = Some tr ∧ owner tr = rid) ∧
    (∀ c, c ∈ children (inner r) ↔ ∃ cr, region s c = Some cr ∧ parent cr = Some rid) ∧
    (∀ p, parent r = Some p → is_Some (region s p)) ∧
    pending_obligations (inner r) =
      N.of_nat (count (pending_in rid) (iter (obligations (rt_obligations s)))) ∧
    (is_Some (Region.cancel_reason (inner r)) → region_state r ≠ RegionState.Open ∧
       ∀ c cr, c ∈ children (inner r) → region s c = Some cr → is_Some (Region.cancel_reason (inner cr))).
Proof.
  intros Hre. destruct (reachable_inv s Hre) as [Hwf Hst Hcd]. split_and!.
  - apply (ow_task _ _ (ri_owns s Hwf)).
  - intros oid o. apply (ob_owner _ _ _ (ri_obs s Hwf)).
  - intros rid Hc. destruct (child_depth s Hwf) as (d & Hd & _).
    assert (Hlt : ∀ x y, tc (child_of s) x y → (d x < d y)%nat); [|specialize (Hlt _ _ Hc); lia].
    induction 1 as [x y Hxy|x y z Hxy _ IH]; specialize (Hd _ _ Hxy); lia.
  - intros rid r Hr. destruct (tr_wf _ (ri_tree s Hwf) _ _ Hr) as (Hrw & Hid & Hncl). split_and!; try done; try apply Hrw.
    + intros t. split; [by apply (ow_region _ _ (ri_owns s Hwf))|]. intros (tr & Ht & <-).
      destruct (ow_task _ _ (ri_owns s Hwf) _ _ Ht) as (r0 & Hr0 & Hin). by assert (r0 = r) as -> by congruence.
    + intros c. split; [by apply (tr_down _ (ri_tree s Hwf))|]. intros (cr & Hcr & Hp).
      destruct (tr_up _ (ri_tree s Hwf) _ _ _ Hcr Hp) as (r0 & Hr0 & Hin). by assert (r0 = r) as -> by congruence.
    + intros p Hp. destruct (tr_up _ (ri_tree s Hwf) _ _ _ Hr Hp) as (pr & Hpr & _). by exists pr.
    + by apply (ob_count _ _ _ (ri_obs s Hwf)).
    + by apply (Hcd rid r).
Qed.

(** C2: A closed region is quiescent for ever: a region that an operation removed
    from the table is fenced, and from then on, after any further operations, its
    id names no region, no task is owned by it, no obligation of it is pending
    and no region has it as parent. *)
Theorem closed_region_stays_quiescent s op s1 ops s2 (rid : RegionId) : reachable s →
  rt_op_ok op → Forall rt_op_ok ops → is_Some (region s rid) →
  rt_apply s op = Returns s1 → region s1 rid = None → rt_run s1 ops = Returns s2 →
  rid ∈ finalized_regions (rt_obligations s1) ∧ region s2 rid = None ∧
  (∀ t tr, get_task s2 t = Some tr → owner tr ≠ rid) ∧
  (∀ oid o, get_obligation s2 oid = Some o → ob_region o = rid → is_pending o = false) ∧
  (∀ c cr, region s2 c = Some cr → parent cr ≠ Some rid).
Proof.
  intros Hre Hop Hops Hlive Hap Hgone Hrun. pose proof (rt_apply_ok s op (reachable_inv s Hre) Hop) as Hok.
  rewrite Hap in Hok. destruct Hok as (Hinv1 & _ & Hcl). specialize (Hcl rid Hlive Hgone).
  destruct (rt_run_ok s1 ops s2 Hinv1 Hops Hrun) as [[Hwf _ _] Hf].
  assert (Hnone : region s2 rid = None) by (apply spent_get, (ri_fence s2 Hwf), Hf, Hcl).
  assert (Htask : ∀ t tr, get_task s2 t = Some tr → owner tr ≠ rid).
  { intros t tr Ht Ho. destruct (ow_task _ _ (ri_owns s2 Hwf) _ _ Ht) as (r & Hr & _). congruence. }
  split_and!; [done|done|done| |].
  - intros oid o Hg Ho. destruct (is_pending o) eqn:Hp; [|done].
    destruct (ob_owner _ _ _ (ri_obs s2 Hwf) _ _ Hg Hp) as (tr & Ht & Hw). destruct (Htask _ _ Ht). congruence.
  - intros c cr Hc Hp. destruct (tr_up _ (ri_tree s2 Hwf) _ _ _ Hc Hp) as (pr & Hpr & _). congruence.
Qed.

(** C3: Every operation of the runtime returns: no loop runs out of its bound, and a
    panic has one of the named reasons (an arena with all of its [u32] slots in
    use, exhausted finalizer ids, the configured panic on leaked obligations, a
    mask depth overflow of a task). *)
Theorem runtime_operations_return s op : reachable s → rt_op_ok op →
  (∃ s', rt_apply s op = Returns s') ∨ (rt_apply s op = Panicked ∧ rt_panic_reason s op).
Proof.
  intros Hre Hop. pose proof (rt_apply_ok s op (reachable_inv s Hre) Hop) as Hok.
  destruct (rt_apply s op) as [s'| |]; [left; by exists s'|by right|done].
Qed.

(** C4: Cancellation of a region covers its subtree: [cancel_request] returns, each
    once, exactly the unfinished tasks of the target and its descendants; these are
    being cancelled afterwards and no other task changed; every region of the
    subtree that is still there is closing with a reason; regions outside keep
    their reasons, and a region that is gone had no tasks and is fenced. *)
Theorem cancel_request_covers_subtree s (rid : RegionId) (reason : CancelReason) : reachable s →
  ∃ s' l, cancel_request s rid reason = Returns (s', l) ∧ NoDup l.*1 ∧
    (∀ t, t ∈ l.*1 ↔ ∃ tr, get_task s t = Some tr ∧ state_is_terminal (state tr) = false ∧
       subtree s rid (owner tr)) ∧
    (∀ t tr, get_task s t = Some tr → ∃ tr', get_task s' t = Some tr' ∧
       (t ∈ l.*1 → is_cancelling (state tr') = true) ∧ (t ∉ l.*1 → tr' = tr)) ∧
    (∀ x r, subtree s rid x → region s x = Some r →
       match region s' x with
       | Some r' => region_state r' ≠ RegionState.Open ∧ is_Some (Region.cancel_reason (inner r'))
       | None => tasks (inner r) = [] ∧ x ∈ finalized_regions (rt_obligations s')
       end) ∧
    (∀ x r r', ¬ subtree s rid x → region s x = Some r → region s' x = Some r' →
       Region.cancel_reason (inner r') = Region.cancel_reason (inner r)).
Proof.
  intros Hre. destruct (cancel_request_ok s rid reason (reachable_inv s Hre)) as (s' & l & Heq & _ & Hct).
  exists s', l. split_and!; [done|apply Hct|apply Hct| | |].
  - intros t tr Ht. pose proof (ct_tasks _ _ _ _ Hct t) as Hx. rewrite Ht in Hx. destruct (get_task s' t); [|done]. by eexists.
  - intros x r Hsub Hr. destruct (region s' x) as [r'|] eqn:Hr'; [by eapply (ct_regions _ _ _ _ Hct)|].
    by eapply (ct_closed _ _ _ _ Hct).
  - intros x r r' Hns Hr Hr'. by apply (ct_others _ _ _ _ Hct x r r').
Qed.

(** Every cancelled region knows why: in the map of reasons [cancel_request]
    builds, the target has the given reason, and the reason of every other region
    of the subtree is a parent cancellation whose cause is the reason of its
    parent; the parent's entry is always there before the child's is made. *)
Theorem cancel_reasons_chain s (rid : RegionId) (reason : CancelReason) : reachable s →
  ∃ nodes, collect_region_and_descendants_with_depth s rid = Some nodes ∧
    (∀ x, x ∈ node_id <$> nodes ↔ subtree s rid x) ∧ NoDup (node_id <$> nodes) ∧
    let reasons := (mark_regions s rid reason (sort_by_depth nodes) ∅).2 in
    ∀ n, n ∈ nodes → ∃ rr, reasons !! node_id n = Some rr ∧
      (node_id n = rid → rr = reason) ∧
      (node_id n ≠ rid → ∃ p pr, node_parent n = Some p ∧ child_of s p (node_id n) ∧ reasons !! p = Some pr ∧
         rr = with_cause_limited (with_timestamp (Cancel.with_region parent_cancelled p) (timestamp reason)) pr
                (cancel_attribution s)).
Proof.
  intros Hre. pose proof (inv_wf s (reachable_inv s Hre)) as Hwf.
  destruct (plan_ok s rid Hwf) as (nodes & Hc & Hpl). exists nodes. split; [done|].
  split; [intros x; by rewrite <-(pl_ids _ _ _ Hpl), sort_perm|]. split; [by rewrite <-sort_perm; apply Hpl|].
  intros reasons n Hn. rewrite <-sort_perm in Hn.
  destruct (mark_reasons s rid reason (sort_by_depth nodes) [] s ∅ Hpl) with (n := n) as (rr & Hrr & Ht & Hp); try done.
  - intros x. rewrite lookup_empty. split; [by intros [? [=]]|by intros ?%not_elem_of_nil].
  - by intros m ?%not_elem_of_nil.
  - exists rr. split_and!; [done|done|]. intros Hne. destruct (Hp Hne) as (p & pr & Hpa & Hpr & Heq).
    apply list_elem_of_split in Hn as (l1 & l2 & Hl).
    destruct (pl_parents _ _ _ Hpl l1 n l2 Hl Hne) as (p' & Hp' & Hch & _). assert (p' = p) as -> by congruence.
    by exists p, pr.
Qed.

(** C7: Completion retires a task: when [task_completed] returns, it returns the
    waiters of the task, the task and all its pending obligations are gone (every
    obligation it held is resolved, those of other tasks are untouched), every
    other task is as before, and a region that closed by it had no other task. *)
Theorem task_completed_retires s (tid : TaskId) (tr : TaskRecord E) s' (ws : list TaskId) : reachable s →
  get_task s tid = Some tr → task_completed s tid = Returns (s', ws) →
  ws = waiters tr ∧ get_task s' tid = None ∧
  (∀ t, t ≠ tid → get_task s' t = get_task s t) ∧
  (∀ rid r', region s' rid = Some r' → tid ∉ tasks (inner r')) ∧
  (∀ oid o, get_obligation s' oid = Some o → holder o = tid → is_pending o = false) ∧
  (∀ oid o, get_obligation s oid = Some o → holder o ≠ tid → get_obligation s' oid = Some o) ∧
  (∀ rid r, region s rid = Some r → region s' rid = None →
     (∀ t, t ∈ tasks (inner r) → t = tid) ∧ rid ∈ finalized_regions (rt_obligations s')).
Proof.
  intros Hre Ht Heq. pose proof (task_completed_ok s tid (reachable_inv s Hre)) as Hok. rewrite Heq, Ht in Hok.
  destruct Hok as [-> Hret]. split_and!; [done|by eapply upd_same, Hret|..].
  - intros t Hne. by apply (upd_other _ _ _ _ _ (td_tasks _ _ _ Hret)).
  - intros rid r' Hr'. destruct (td_kept _ _ _ Hret rid r' Hr') as (r & _ & -> & _).
    rewrite list_elem_of_filter. by intros [? _].
  - intros oid o. apply (td_mine _ _ _ Hret).
  - intros oid o. apply (td_others _ _ _ Hret).
  - intros rid r Hr Hn. by destruct (td_gone _ _ _ Hret rid r Hr Hn) as (? & _ & ?).
Qed.

(** No region is left behind: in every reachable state a closing region waits
    for a child, for a task of its own that was not retired or for an async finalizer on top of
    its stack; otherwise it would have been closed by the operation that took
    the last one away. *)
Theorem closing_region_waits s (rid : RegionId) (r : RegionRecord E) : reachable s →
  region s rid = Some r → region_state r ≠ RegionState.Open →
  (∃ c cr, region s c = Some cr ∧ parent cr = Some rid) ∨
  (∃ t tr, get_task s t = Some tr ∧ owner tr = rid) ∨
  (region_state r = RegionState.Finalizing ∧ ∃ l fut, finalizers_of (finalizers (inner r)) = l ++ [FAsync fut]).
Proof.
  intros Hre Hr Ho. destruct (reachable_inv s Hre) as [Hwf Hst Hcd].
  assert (Hch : children (inner r) ≠ [] → ∃ c cr, region s c = Some cr ∧ parent cr = Some rid).
  { intros Hne. destruct (children (inner r)) as [|c l] eqn:Hc; [done|].
    assert (Hin : c ∈ children (inner r)) by (rewrite Hc; by left).
    destruct (tr_down _ (ri_tree s Hwf) _ _ _ Hr Hin) as (cr & Hcr & Hp). by exists c, cr. }
  assert (Htk : tasks (inner r) ≠ [] → ∃ t tr, get_task s t = Some tr ∧ owner tr = rid).
  { intros Hne. destruct (tasks (inner r)) as [|t l] eqn:Ht; [done|]. exists t.
    apply (ow_region _ _ (ri_owns s Hwf) rid r t Hr). rewrite Ht. by left. }
  pose proof (Hst rid r Hr) as Hw. unfold waits in Hw. destruct (tr_wf _ (ri_tree s Hwf) _ _ Hr) as (_ & _ & Hncl).
  destruct (region_state r); try done; destruct Hw; auto.
Qed.

(** C11: Progress: once the ready async finalizers have been started, every closing
    region has a task in its subtree that was not retired yet or, when it is closing
    without having been cancelled, a region in its subtree that is still open, whose
    body has not ended; so that closing never depends on anything but tasks and
    bodies that can still run. *)
Theorem closing_region_has_work s s' (l : list (TaskId * N)) (rid : RegionId) (r : RegionRecord E) : reachable s →
  drain_ready_async_finalizers s = Returns (s', l) → region s' rid = Some r →
  region_state r ≠ RegionState.Open →
  (∃ t tr, get_task s' t = Some tr ∧ subtree s' rid (owner tr)) ∨
  (Region.cancel_reason (inner r) = None ∧
   ∃ x xr, subtree s' rid x ∧ region s' x = Some xr ∧ region_state xr = RegionState.Open).
Proof.
  intros Hre Hdr Hr Ho. pose proof (drain_ok s (reachable_inv s Hre)) as Hd. rewrite Hdr in Hd.
  destruct Hd as [Hst Hrun]. destruct (closing_has_work s' rid r (sd_inv _ _ _ Hst) Hrun Hr Ho) as [?|(x & xr & Hsub & Hx & Hxo)]; [by left|].
  right. split; [|by exists x, xr]. destruct (Region.cancel_reason (inner r)) eqn:Hc; [|done].
  by destruct (cancelled_subtree s' rid r x xr (sd_inv _ _ _ Hst) Hsub Hr ltac:(by eexists) Hx).
Qed.

End runs.

(** ** Witnesses *)

(** Closures that return, a thread that is not unwinding, a governor that admits. *)
#[local] Instance calm : Environment := {|
  run_sync_closure := λ _, None;
  thread_panicking := false;
  governor_rejects := λ _, None;
|}.

Definition after (ops : list (RtOp (E:=()))) : RuntimeState () :=
  match rt_run (runtime_new 64) ops with Returns s => s | _ => runtime_new 64 end.

Definition returns {A} (m : run A) : bool := match m with Returns _ => true | _ => false end.

Lemma after_reachable ops : Forall rt_op_ok ops → returns (rt_run (runtime_new 64) ops) = true →
  reachable (after ops).
Proof.
  intros Hops Hr. exists 64, ops. split; [done|]. unfold after. by destruct (rt_run _ ops).
Qed.

Definition rid_at (i : N) : RegionId := RegionId_from_arena (mkArenaIndex i 0).
Definition tid_at (i : N) : TaskId := TaskId_from_arena (mkArenaIndex i 0).

(** A root with a child; a task in each; an obligation, a sync and an async
    finalizer in the child. *)
Definition tree_ops : list (RtOp (E:=())) :=
  [OpSetLeakResponse LeakLog; OpCreateRoot budget_new UNSPECIFIED;
   OpCreateChild (rid_at 0) budget_new UNSPECIFIED requirements_NONE Normal;
   OpCreateTask (rid_at 1) budget_new 10; OpCreateTask (rid_at 0) budget_new 11;
   OpRegisterFinalizer (rid_at 1) (FAsync 20); OpRegisterFinalizer (rid_at 1) (FSync 21);
   OpTick 5; OpCreateObligation Lease (tid_at 0) (rid_at 1) None (mkSourceLocation "lib.rs" 1 1)].

(** The child is cancelled and its task ends: the async finalizer is left. *)
Definition cancel_ops : list (RtOp (E:=())) :=
  tree_ops ++ [OpCancelRequest (rid_at 1) reason_timeout; OpCompleteTask (tid_at 0) (Outcome.Ok ());
               OpTaskCompleted (tid_at 0)].

Lemma tree_reachable : reachable (after tree_ops).
Proof. apply after_reachable; [repeat constructor; vm_compute; discriminate|vm_compute; reflexivity]. Qed.

Lemma cancel_reachable : reachable (after cancel_ops).
Proof. apply after_reachable; [repeat constructor; vm_compute; discriminate|vm_compute; reflexivity]. Qed.

Definition region_of (s : RuntimeState ()) (rid : RegionId) : RegionRecord () :=
  match region s rid with
  | Some r => r
  | None => new_with_time_and_capability_budget rid None budget_new 0 UNSPECIFIED
  end.

Definition task_at (s : RuntimeState ()) (tid : TaskId) : TaskRecord () :=
  match get_task s tid with Some tr => tr | None => new_with_time tid (rid_at 0) budget_new 0 end.

Lemma structured_concurrency_witness : region (after tree_ops) (rid_at 1) = Some (region_of (after tree_ops) (rid_at 1)) ∧
  tasks (inner (region_of (after tree_ops) (rid_at 1))) = [tid_at 0] ∧
  pending_obligations (inner (region_of (after tree_ops) (rid_at 1))) =
    N.of_nat (count (pending_in (rid_at 1)) (iter (obligations (rt_obligations (after tree_ops))))).
Proof.
  split; [vm_compute; reflexivity|]. split; [vm_compute; reflexivity|].
  destruct (structured_concurrency (after tree_ops) tree_reachable) as (_ & _ & _ & H).
  apply (H (rid_at 1)). vm_compute. reflexivity.
Defined.

(** The child closes when its finalizer task ends, then a new region is made. *)
Definition final_ops : list (RtOp (E:=())) :=
  cancel_ops ++ [OpDrain; OpCompleteTask (TaskId_from_arena (mkArenaIndex 0 1)) (Outcome.Ok ())].

Lemma final_reachable : reachable (after final_ops).
Proof. apply after_reachable; [repeat constructor; vm_compute; discriminate|vm_compute; reflexivity]. Qed.

Definition returned (m : run (RuntimeState ())) : RuntimeState () :=
  match m with Returns s => s | _ => runtime_new 64 end.

Definition last_op : RtOp (E:=()) := OpTaskCompleted (TaskId_from_arena (mkArenaIndex 0 1)).
Definition closed_state : RuntimeState () := returned (rt_apply (after final_ops) last_op).
Definition reuse_ops : list (RtOp (E:=())) :=
  [OpCreateChild (rid_at 0) budget_new UNSPECIFIED requirements_NONE Normal].

Lemma closed_region_stays_quiescent_witness :
  is_Some (region (after final_ops) (rid_at 1)) ∧ region closed_state (rid_at 1) = None ∧
  region (returned (rt_run closed_state reuse_ops)) (rid_at 1) = None.
Proof.
  assert (H1 : is_Some (region (after final_ops) (rid_at 1))) by (vm_compute; by eexists).
  assert (H2 : region closed_state (rid_at 1) = None) by (vm_compute; reflexivity).
  split; [exact H1|]. split; [exact H2|].
  apply (closed_region_stays_quiescent (after final_ops) last_op closed_state reuse_ops); try assumption.
  - exact final_reachable.
  - exact I.
  - repeat constructor.
  - vm_compute. reflexivity.
  - vm_compute. reflexivity.
Defined.

Lemma runtime_operations_return_witness : ∃ s', rt_apply (after cancel_ops) OpDrain = Returns s'.
Proof.
  destruct (runtime_operations_return (after cancel_ops) OpDrain cancel_reachable I) as [H|[H _]]; [exact H|].
  vm_compute in H. discriminate H.
Defined.

Lemma cancel_request_covers_subtree_witness : ∃ s' l,
  cancel_request (after tree_ops) (rid_at 0) reason_timeout = Returns (s', l) ∧ NoDup l.*1 ∧
  l.*1 = [tid_at 1; tid_at 0].
Proof.
  destruct (cancel_request_covers_subtree (after tree_ops) (rid_at 0) reason_timeout tree_reachable)
    as (s' & l & Heq & Hnd & _). exists s', l. split; [exact Heq|]. split; [exact Hnd|].
  vm_compute in Heq. injection Heq as _ <-. reflexivity.
Defined.

Lemma cancel_reasons_chain_witness : ∃ nodes,
  collect_region_and_descendants_with_depth (after tree_ops) (rid_at 0) = Some nodes ∧
  node_id <$> nodes = [rid_at 0; rid_at 1] ∧ NoDup (node_id <$> nodes).
Proof.
  destruct (cancel_reasons_chain (after tree_ops) (rid_at 0) reason_timeout tree_reachable)
    as (nodes & Heq & _ & Hnd & _). exists nodes. split; [exact Heq|]. split; [|exact Hnd].
  vm_compute in Heq. injection Heq as <-. reflexivity.
Defined.

Definition completed_pair : RuntimeState () * list TaskId :=
  match task_completed (after tree_ops) (tid_at 0) with
  | Returns p => p
  | _ => (runtime_new 64, [])
  end.

Lemma task_completed_retires_witness :
  task_completed (after tree_ops) (tid_at 0) = Returns completed_pair ∧
  get_task completed_pair.1 (tid_at 0) = None.
Proof.
  assert (H : task_completed (after tree_ops) (tid_at 0) = Returns completed_pair) by (vm_compute; reflexivity).
  split; [exact H|].
  apply (task_completed_retires (after tree_ops) (tid_at 0) (task_at (after tree_ops) (tid_at 0))
    completed_pair.1 completed_pair.2 tree_reachable).
  - vm_compute. reflexivity.
  - rewrite <-surjective_pairing. exact H.
Defined.

Lemma closing_region_waits_witness :
  region_state (region_of (after cancel_ops) (rid_at 1)) = RegionState.Finalizing ∧
  ∃ l fut, finalizers_of (finalizers (inner (region_of (after cancel_ops) (rid_at 1)))) = l ++ [FAsync fut].
Proof.
  destruct (closing_region_waits (after cancel_ops) (rid_at 1) (region_of (after cancel_ops) (rid_at 1))
    cancel_reachable) as [(c & cr & Hc & Hp)|[(t & tr & Ht & Hown)|H]]; [vm_compute; reflexivity|vm_compute; discriminate|..|exact H];
    (split; [vm_compute; reflexivity|]; exists [], 20; vm_compute; reflexivity).
Defined.

Definition drained : RuntimeState () * list (TaskId * N) :=
  match drain_ready_async_finalizers (after cancel_ops) with
  | Returns p => p
  | _ => (runtime_new 64, [])
  end.

Lemma closing_region_has_work_witness :
  drain_ready_async_finalizers (after cancel_ops) = Returns drained ∧
  ∃ t tr, get_task drained.1 t = Some tr ∧ subtree drained.1 (rid_at 1) (owner tr).
Proof.
  assert (H : drain_ready_async_finalizers (after cancel_ops) = Returns drained) by (vm_compute; reflexivity).
  split; [exact H|].
  destruct (closing_region_has_work (after cancel_ops) drained.1 drained.2 (rid_at 1)
    (region_of drained.1 (rid_at 1)) cancel_reachable) as [Ht|[Hc _]].
  - rewrite <-surjective_pairing. exact H.
  - vm_compute. reflexivity.
  - vm_compute. discriminate.
  - exact Ht.
  - vm_compute in Hc. discriminate Hc.
Defined.
